(* ===== verification/_CoqProject ===== *)
-Q . S2P
Prelude.v
Keccakf.v
Sha3.v
RlpSpec.v
RlpRaw.v
RlpEncode.v
RlpStream.v
RlpRoundtrip.v
RlpTotal.v
RlpTyped.v
Bitutil.v
Compress.v
TrieEncoding.v
TrieSpec.v
TrieNode.v
Trie.v
TrieRefine.v
TrieHasher.v
TrieMap.v
TrieProof.v
Sha256.v
Merkletree.v
Types.v
SecureTrie.v
StateDB.v
StateRevert.v
TxPool.v
TxPoolSafe.v
TxPoolLive.v
Lru.v
ChainDb.v
ChainTables.v
HeaderChain.v
HeaderChainInv.v
Genesis.v
HeaderChainRun.v
BlockChain.v
BlockChainSafe.v
BlockChainRun.v
Arc.v
Prometheus.v
PrometheusSafe.v
Unconfirmed.v
WorkPending.v
Worker.v
WorkerSafe.v
WorkerRun.v
Primes.v
Rings.v
Jacobian.v
PrimeField.v
MathBig.v
Bn256Field.v
Bn256Laws.v
Bn256Frobenius.v
Bn256Curve.v
Bn256Twist.v
Bn256Pairing.v
Bn256.v
Hexutil.v
Secp256k1Curve.v
Crypto.v
TxSigner.v
Netutil.v
DiscoverNode.v
DiscoverTable.v
DiscoverDb.v
DiscoverPacket.v
DiscoverUdp.v
Bloom.v
ChainIndexer.v
BloomIndexer.v
