(* ===== verification/Prelude.v ===== *)
(** * Sphinx: a verification development

    Sphinx is a blockchain node in Go.  Its data layer serialises everything
    with RLP, hashes it with Keccak-256 and keeps accounts in Merkle Patricia
    tries; its chain layer builds blocks of transactions, receipts and proof
    states; its pool takes transactions from the network to the miner; its
    nodes find each other by signed packets.  This library translates that code into
    Rocq definitions that run, and proves what the callers of each part rely on.

    ** The parts, their files and how they interact

    - Prelude.v: [outcome] (a Go call returns, fails or panics), indexing and
      slicing that panic out of range, fixed-width integers, big-endian bytes,
      sums.  Everything else builds on it.
    - RlpSpec.v, RlpRaw.v, RlpEncode.v, RlpStream.v (src/common/rlp: raw.go,
      encode.go, decode.go): the reference encoding [enc_str]/[enc_list]; Split,
      CountValues and friends; the encoder's buffer with its deferred list
      headers ([encbuf], [write], [toBytes], [encReader]); the decoder's
      [Stream] with its list stack, limits and cached kind, and the decoders of
      all types ([decode]).  Reflection is replaced by the types [gval] (what a
      writer sees) and [ty] (what makeDecoder distinguishes).
      RlpRoundtrip.v, RlpTotal.v and RlpTyped.v hold the round trip, the
      termination and the type safety of decoding.
    - Keccakf.v, Sha3.v (src/common/crypto/sha3, crypto.go): the unrolled
      permutation against FIPS 202, and the sponge with its buffer that aliases
      the storage ([state], [Write], [Read], [Sum], [clone]) against the
      specification on bit blocks.
    - Bitutil.v, Compress.v (src/common/bitutil): bulk bit operations by words
      and bytes, and the bitset compression.
    - TrieEncoding.v, TrieSpec.v, TrieNode.v, Trie.v, TrieRefine.v, TrieHasher.v,
      TrieMap.v, TrieProof.v (src/common/trie: encoding.go, node.go, trie.go,
      hasher.go, proof.go): key encodings; abstract tries and their canonical
      form; nodes with cached hashes, decoding; lookup, insertion, deletion with
      nodes loaded on demand; the hasher that collapses and stores; the
      refinement to finite maps; Merkle proofs.  The trie asks for Keccak-256
      through the class [Keccak], which the sponge implements
      ([keccak_sponge]), and writes through the class [Writer].
    - SecureTrie.v (secure_trie.go): the trie under hashed keys.
    - Sha256.v, Merkletree.v (src/common/merkletree, types/derive_sha.go): the
      binary tree with nodes in a store, over contents given by the class
      [Content].  SHA-256 is crypto/sha256 of the standard library.
    - Types.v (src/blockchain/types): transactions, receipts, proof states,
      headers, blocks, their encodings, hashes and contents.
    - StateDB.v, StateRevert.v (src/blockchain/state): state objects, the
      journal, snapshots; the accounts' trie is behind the class [TrieOps] with
      the laws [TrieLaws], which SecureTrie.v discharges.
    - TxPool.v, TxPoolSafe.v, TxPoolLive.v (src/txpool): the pool's maps and
      channels, its methods, and the callers and goroutines as program counters
      whose steps interleave ([step], [steps]).
    - Lru.v, Arc.v (src/vendor/.../golang-lru): the caches of the chain and of the
      engine.
    - ChainDb.v, ChainTables.v (src/blockchain/database_util.go): keys, getters
      and writers over a map of byte strings, and typed tables they refine.
    - HeaderChain.v, HeaderChainInv.v, HeaderChainRun.v, Genesis.v (headerchain.go,
      genesis.go): the header chain with its caches and total difficulties, its
      invariant, imports from a committed genesis block.
    - BlockChain.v, BlockChainSafe.v, BlockChainRun.v (blockchain.go,
      block_validator.go, state_processor.go): loading, writing, importing,
      rewinding blocks; the invariant of the full chain and runs from genesis.
      The writes of a state are given by the record [StateWrites].
    - Prometheus.v, PrometheusSafe.v (src/consensus): the engine that seals and
      checks headers and makes and checks proofs.  Signing is a function of the
      engine, recovering is the class [Secp256k1] (C code), SHA3-256 the class
      [Sha3Sum], which the sponge implements.
    - Unconfirmed.v, WorkPending.v, Worker.v, WorkerSafe.v, WorkerRun.v
      (src/worker): proofs that wait for answers, with the two goroutines that hold
      them; the queue of confirmed works, which writes to the chain and reports to
      the pool; rounds of mining and the handlers for the messages of peers on one
      [worker] state, which contains the chain, the pool and the engine.

    - Primes.v, Rings.v, Jacobian.v, PrimeField.v: what the curves need of number
      theory: certificates of primes, rings of pairs and triples, the group law in
      projective coordinates, and arithmetic modulo a prime.
    - MathBig.v (src/common/math), Hexutil.v (src/common/hexutil, bytes.go and
      types.go of src/common): numbers at their words, powers, padding, and the
      text forms of numbers, bytes, hashes and addresses.
    - Bn256Field.v, Bn256Laws.v, Bn256Frobenius.v, Bn256Curve.v, Bn256Twist.v,
      Bn256Pairing.v, Bn256.v (src/common/crypto/bn256): the tower of fields, the
      curve and its twist with mutable points, the pairing and the groups with
      their encodings.
    - Secp256k1Curve.v, Crypto.v, TxSigner.v (src/common/crypto, tx_signer.go,
      QuickSigner.go): the curve of the signatures, keys, signing and recovering,
      and the signer of transactions.  libsecp256k1 is the class [Libsecp256k1] with
      the laws [LibsecpLaws].
    - Netutil.v, DiscoverNode.v, DiscoverTable.v, DiscoverDb.v, DiscoverPacket.v,
      DiscoverUdp.v (src/network/p2p/netutil and discover): addresses that may be
      relayed; nodes and their distances; the table, whose calls of add wait for
      pings between two steps ([tstep]); the database of nodes; signed packets; the
      queue of requests with its timer ([round], [running]), the handlers, and the
      bonding of a node.  The database and the packets use RLP, the table and the
      handlers the nodes.
    - Bloom.v (src/blockchain/types/bloom9.go, src/blockchain/bloombits): filters, the
      generator of bit vectors and the matcher; ChainIndexer.v
      (src/blockchain/chain_indexer.go): the indexer as a tree of states with events that
      interleave ([handle], [exec]), over backends given by the class
      [ChainIndexerBackend] with the laws [BackendLaws]; BloomIndexer.v
      (src/node/bloombits.go): the backend that indexes filters, which discharges them.

    ** What the theorems show

    - RLP: for every type of the package, decoding inverts encoding on the values
      that [has_type] admits, and the others (nil without the tag for it, [1]byte{0})
      are shown not to be read back; the encoder writes the reference encoding; Split
      accepts exactly canonical input; decoding ends, but for lists of one-byte arrays,
      and returns values of the type asked for; the known panics and the one loop that
      does not end are characterised.
    - Hashing: keccakF1600 is the FIPS permutation for all states; any split of
      the input into writes gives the specified digest, any split of the output
      into reads the specified stream.
    - Tries: any sequence of updates, deletions and lookups behaves as a finite
      map, also through hashing, committing and reloading; the root hash binds
      the contents up to collisions; accepted proofs are sound and generated
      proofs are accepted.
    - Chain data: blocks, receipts and headers survive encoding; the hash of a
      block whose header has the root of its transactions commits to header and
      transactions up to collisions, and NewBlock makes such blocks of headers
      without a root; Merkle roots, membership and paths are right.
    - State: the journaled state with snapshots refines a specification that
      copies whole states.
    - Pool: no accepted transaction is lost as long as works are reported on blocks
      up to the head (and none is ever evicted), buffers are bounded, one caller never
      gets a transaction in twice, and the lanes drain.
    - Chain: the database behaves as independent tables; imports of headers in any
      order keep the heaviest chain canonical; writes of blocks only append to the
      canonical chain, whose blocks and transactions stay readable, and drop heavier
      forks.
    - Mining: a mined block and its proof pass the checks of the engine, with the
      roots of transactions and receipts, but not the check of the state, whose root is
      never set; verifiers follow an honest miner; a work is confirmed only by a quorum,
      and settled once where Confirm and CheckTimeout do not overlap; accepted headers
      are linked; the proof hash commits to the history of a miner; and confirmed
      works are written to the chain in order.
    - Numbers and text: a text is accepted exactly if it is the one that the encoder
      writes, up to case; overflow is detected; words and digits are read back.
    - Curves: the operations on points are those of the group, sums and doubles
      where the code has them; the fields of the tower are what they stand for, the
      final exponentiation is the power it should be, the line functions give the
      tangent and the chord up to a factor that is not zero; encodings of finite points
      are read back.
    - Signatures: with a library that keeps its promises the signer of a hash is
      recovered, and its address.
    - Discovery: no node is twice in the table, a node leaves it only if it is
      removed or does not answer, packets are read back with the identifier of their
      signer, every request is answered at most once and none is lost, the timer is set to
      the earliest deadline and each time it fires one request times out, a ping is
      answered by a pong that its sender accepts if it waits for it, expiring deletes
      exactly the nodes that were not seen, and addresses are relayed by the documented
      rules.
    - Indexing: whatever arrives in whatever order, the sections that an indexer has
      stored are complete and linked, and on a complete chain it catches up; from the
      vectors of the generator the matcher delivers the blocks whose filters match, in
      ranges that start at a multiple of 8 and end below the last section of the 64-bit
      numbers, where it panics.
    Where the code does something else than it means to, a theorem or lemma
    states what it does (two-caller races, clone while squeezing, duplicate last
    leaf, ...).

    ** Bounds and fuel

    - Loops over the input of the decoders take one more round than the input
      has bytes ([DecodeBytes]); RlpTotal.v proves this is enough whenever the
      Go loop ends.
    - Trie recursion takes [key_rounds] = twice the key length plus two: every
      call shortens the key or resolves a hash node.
    - encReader, toBytes and the sponge loops recurse on the data that is left.
    - The loops of the header chain that delete and overwrite canonical numbers
      take one round more than the database has entries, or the number of the
      head: every round removes an entry or goes down one number.
    - The loop of dealProofEvent takes a number of rounds; WorkerSafe.v proves that
      two are enough.
    - Scalar multiplications take a round for each bit of the scalar, the extended
      Euclidean algorithm one for each bit of its arguments, doubled; both are proved
      to be enough by the results.
    - A number of variable length takes ten bytes at most ([PutUvarint]), opening the
      node database is tried twice ([open_files]): the second time it is empty.
    - FindCommonAncestor takes more rounds than the larger block number: every round goes
      down one number; the matcher takes a round for each block of a section and one
      more, which is enough also where the numbers wrap around ([emit_rounds]).
    - Lengths are below 2^64 where the code stores them in a uint64 ([fits64]).

    ** Not modelled

    - Connections between peers (src/network/p2p but discovery: sockets, the RLPx
      handshake, the manager of peers), RPC, the node and command line, the console,
      account key files: input/output around the code above.
    - Of discovery: the URL form of nodes (net/url), the refresh loop, concurrent
      bonding with one node, and what starts the goroutines.
    - libsecp256k1 is C code; the assembly of the permutation is behind the class
      [KeccakF]; ecies composes ciphers of the standard library.
    - Bilinearity of the pairing: the Miller loop is modelled, but no theorem follows
      its points.
    - Synchronisation of blocks, the trie's iterator and sync scheduler, the schedulers
      that fetch bit vectors, event feeds, the JSON forms of the types, logging and
      metrics.
    - InsertReceiptChain, SetupGenesisBlock and the queue of future blocks.
    - StateDB.Finalise, CommitTo and Copy: the chain takes what CommitTo writes as
      data.
    - The timers and select loops of the worker; its handlers are functions that
      they call one at a time.
    - Go's memory model below one access to a concurrent map or channel. *)

From stdpp Require Export prelude gmap strings list fin_maps.
From Stdlib Require Export ZArith Lia.

#[export] Set Default Goal Selector "1".

(** ** Outcomes of a Go call

    A Go function that can fail either returns a value, returns an error, or
    panics (index out of range, explicit [panic], nil dereference).  [Ok],
    [Err] and [Panic] are the three ways a call of such a function ends. *)

Inductive outcome (E A : Type) : Type :=
| Ok (a : A)
| Err (e : E)
| Panic.
Arguments Ok {E A} _.
Arguments Err {E A} _.
Arguments Panic {E A}.

Definition obind {E A B} (m : outcome E A) (k : A → outcome E B) : outcome E B :=
  match m with
  | Ok a => k a
  | Err e => Err e
  | Panic => Panic
  end.

Definition omap_err {E F A} (f : E → F) (m : outcome E A) : outcome F A :=
  match m with
  | Ok a => Ok a
  | Err e => Err (f e)
  | Panic => Panic
  end.

Declare Scope go_scope.
Delimit Scope go_scope with go.

Notation "'let*' x := m 'in' k" := (obind m (λ x, k))
  (at level 10, x pattern, m at level 100, k at level 200,
   format "'[v' 'let*'  x  :=  m  'in' '/' k ']'") : go_scope.

(** [l.[i]] is a Go index expression: it panics out of range. *)
Definition index {E A} (l : list A) (i : nat) : outcome E A :=
  match l !! i with
  | Some a => Ok a
  | None => Panic
  end.

Notation "l .[ i ]" := (index l i)
  (at level 1, i at level 69, format "l .[ i ]") : go_scope.

(** [l.[lo:hi]] is a Go slice expression on a slice whose capacity is its
    length: it panics unless [lo <= hi <= len(l)]. *)
Definition slice {E A} (l : list A) (lo hi : nat) : outcome E (list A) :=
  if decide (lo ≤ hi ≤ length l) then Ok (take (hi - lo) (drop lo l)) else Panic.

Notation "l .[ lo : hi ]" := (slice l lo hi)
  (at level 1, lo at level 69, hi at level 69, format "l .[ lo : hi ]") : go_scope.

(** [copy(dst[pos:], src)]: the updated destination; [copy] stops at the end of
    the shorter operand. *)
Definition copy_at {A} (dst : list A) (pos : nat) (src : list A) : list A :=
  take pos dst ++ take (length dst - pos) src ++ drop (pos + length src) dst.

Open Scope go_scope.

(** A [for range] loop whose body can fail, threading a state. *)
Section Loop.
Context {E A B : Type} (f : B → A → outcome E A).

Fixpoint oloop (l : list B) (a : A) : outcome E A :=
  match l with
  | [] => Ok a
  | b :: l' => let* a' := f b a in oloop l' a'
  end.
End Loop.

Lemma slice_Ok {E A} (l : list A) lo hi :
  lo ≤ hi ≤ length l → (l.[lo:hi] : outcome E (list A)) = Ok (take (hi - lo) (drop lo l)).
Proof. intros. unfold slice. by rewrite decide_True. Qed.

Lemma length_copy_at {A} (dst : list A) pos src :
  pos ≤ length dst → length (copy_at dst pos src) = length dst.
Proof. intros. unfold copy_at. rewrite !length_app, !length_take, length_drop. lia. Qed.

(** Writing inside the destination right after what was written before. *)
Lemma copy_at_app {A} (done rest src : list A) :
  length src ≤ length rest →
  copy_at (done ++ rest) (length done) src = (done ++ src) ++ drop (length src) rest.
Proof.
  intros. unfold copy_at. rewrite take_app_length, length_app, <-app_assoc. do 2 f_equal.
  - rewrite take_ge by lia. done.
  - rewrite drop_app_ge by lia. f_equal. lia.
Qed.

Lemma index_Some {E A} (l : list A) i a :
  l !! i = Some a → (l.[i] : outcome E A) = Ok a.
Proof. unfold index. by intros ->. Qed.

Lemma index_Ok {E A} (l : list A) i a :
  (l.[i] : outcome E A) = Ok a → l !! i = Some a.
Proof. unfold index. destruct (l !! i); [by intros [= ->]|done]. Qed.

Lemma list_alter_insert {A} (f : A → A) (l : list A) i x :
  l !! i = Some x → alter f i l = <[i := f x]> l.
Proof.
  revert i. induction l as [|y l IH]; intros [|i] H; simplify_eq/=; [done|]. f_equal. by apply IH.
Qed.

Lemma obind_Ok {E A B} (m : outcome E A) (k : A → outcome E B) b :
  obind m k = Ok b ↔ ∃ a, m = Ok a ∧ k a = Ok b.
Proof. destruct m; naive_solver. Qed.

(** ** Bytes and machine integers

    A byte is an integer between 0 and 255; [bytes] is a Go byte slice seen as
    a value.  A conversion to an unsigned type of width [w] is [wrap w]. *)

Abbreviation bytes := (list Z).

Definition is_byte (b : Z) : Prop := (0 ≤ b < 256)%Z.

#[export] Instance is_byte_dec b : Decision (is_byte b).
Proof. exact (decide (0 ≤ b < 256)%Z). Defined.

Definition wrap (w : Z) (z : Z) : Z := (z mod 2 ^ w)%Z.
Abbreviation u8 := (wrap 8).
Abbreviation u16 := (wrap 16).
Abbreviation u64 := (wrap 64).

Lemma wrap_small w z : (0 ≤ z < 2 ^ w)%Z → wrap w z = z.
Proof. intros. unfold wrap. by apply Z.mod_small. Qed.

Lemma wrap_range w z : (0 ≤ w)%Z → (0 ≤ wrap w z < 2 ^ w)%Z.
Proof. intros. unfold wrap. apply Z.mod_pos_bound. by apply Z.pow_pos_nonneg. Qed.

Lemma u8_byte b : is_byte (u8 b).
Proof. unfold is_byte. apply (wrap_range 8 b). lia. Qed.

Lemma u8_id b : is_byte b → u8 b = b.
Proof. unfold is_byte. intros. apply wrap_small. simpl. lia. Qed.

(** Disjoint bits: joining a shifted value with a short one is an addition. *)
Lemma testbit_high a n i : (0 ≤ a < 2 ^ n → 0 ≤ n ≤ i → Z.testbit a i = false)%Z.
Proof.
  intros Ha Hi. rewrite <-(Z.mod_small a (2 ^ n)) by lia.
  apply Z.mod_pow2_bits_high. lia.
Qed.

Lemma lor_shiftl_add hi lo n :
  (0 ≤ n → 0 ≤ lo < 2 ^ n → Z.lor (Z.shiftl hi n) lo = hi * 2 ^ n + lo)%Z.
Proof.
  intros Hn Hlo. rewrite <-Z.shiftl_mul_pow2, <-Z.add_lor_land by done.
  assert (Z.land (Z.shiftl hi n) lo = 0)%Z as ->; [|lia].
  apply Z.bits_inj'. intros i Hi. rewrite Z.land_spec, Z.bits_0, Z.shiftl_spec by done.
  destruct (decide (i < n)%Z).
  - by rewrite Z.testbit_neg_r by lia.
  - rewrite (testbit_high lo n i), andb_false_r by lia. done.
Qed.

Lemma testbit_cat x u k i :
  (0 ≤ u < 2 ^ k → 0 ≤ k → 0 ≤ i →
  Z.testbit (x * 2 ^ k + u) i = if i <? k then Z.testbit u i else Z.testbit x (i - k))%Z.
Proof.
  intros Hu Hk Hi. destruct (Z.ltb_spec i k).
  - rewrite <-(Z.mod_pow2_bits_low (x * 2 ^ k + u) k) by done.
    by rewrite Z.add_comm, Z.mod_add, Z.mod_small by lia.
  - replace i with ((i - k) + k)%Z at 1 by lia. rewrite <-Z.div_pow2_bits by lia.
    by rewrite Z.div_add_l, Z.div_small, Z.add_0_r by lia.
Qed.

(** ** Decision helpers *)

Ltac dec_all :=
  repeat match goal with
  | |- context [decide ?P] => destruct (decide P); try (exfalso; lia)
  end.

(** Case analysis on the boolean comparisons of [Z] and [nat] in the goal. *)
Ltac case_cmp :=
  match goal with
  | |- context [Z.ltb ?a ?b] => destruct (Z.ltb_spec a b)
  | |- context [Z.leb ?a ?b] => destruct (Z.leb_spec a b)
  | |- context [Z.eqb ?a ?b] => destruct (Z.eqb_spec a b)
  | |- context [Nat.ltb ?a ?b] => destruct (Nat.ltb_spec a b)
  | |- context [Nat.leb ?a ?b] => destruct (Nat.leb_spec a b)
  | |- context [Nat.eqb ?a ?b] => destruct (Nat.eqb_spec a b)
  end; try (exfalso; lia).

(** ** Big-endian byte strings *)

Section BigEndian.
Local Open Scope Z_scope.

Definition be_val (l : bytes) : Z := foldl (λ acc b, acc * 256 + b) 0 l.

Fixpoint be_fixed (n : nat) (z : Z) : bytes :=
  match n with
  | O => []
  | S n => be_fixed n (z / 256) ++ [z mod 256]
  end.

(** The number of bytes of a nonnegative integer without leading zeros. *)
Definition byte_len (z : Z) : nat :=
  if z <=? 0 then 0%nat else Z.to_nat (Z.log2 z / 8 + 1).

(** [big.Int.Bytes]: the big-endian bytes without leading zeros. *)
Definition be_bytes (z : Z) : bytes := be_fixed (byte_len z) z.

Lemma be_val_snoc l b : be_val (l ++ [b]) = be_val l * 256 + b.
Proof. unfold be_val. by rewrite foldl_app. Qed.

Lemma be_val_app l1 l2 :
  be_val (l1 ++ l2) = be_val l1 * 256 ^ Z.of_nat (length l2) + be_val l2.
Proof.
  induction l2 as [|b l2 IH] using rev_ind; simpl.
  - rewrite app_nil_r. change (be_val []) with 0. lia.
  - rewrite app_assoc, !be_val_snoc, IH, length_app. simpl.
    rewrite Nat2Z.inj_add, Z.pow_add_r by lia. change (256 ^ Z.of_nat 1) with 256. lia.
Qed.

Lemma be_val_cons b l : be_val (b :: l) = b * 256 ^ Z.of_nat (length l) + be_val l.
Proof. change (b :: l) with ([b] ++ l). rewrite be_val_app. unfold be_val at 1. simpl. lia. Qed.

Lemma be_val_bound l : Forall is_byte l → 0 ≤ be_val l < 256 ^ Z.of_nat (length l).
Proof.
  induction l as [|b l IH] using rev_ind.
  - intros _. unfold be_val. simpl. lia.
  - rewrite Forall_app, Forall_singleton. intros [H Hb]. specialize (IH H).
    rewrite be_val_snoc, length_app, Nat2Z.inj_add, Z.pow_add_r by lia.
    change (256 ^ Z.of_nat (length [b])) with 256. unfold is_byte in Hb. lia.
Qed.

Lemma length_be_fixed n z : length (be_fixed n z) = n.
Proof. revert z; induction n as [|n IH]; intros z; simpl; [done|]. rewrite length_app, IH. simpl. lia. Qed.

Lemma be_fixed_byte n z : Forall is_byte (be_fixed n z).
Proof.
  revert z; induction n as [|n IH]; intros z; simpl; [constructor|].
  apply Forall_app; split; [apply IH|]. apply Forall_singleton. unfold is_byte.
  apply Z.mod_pos_bound. lia.
Qed.

Lemma be_val_fixed n z : be_val (be_fixed n z) = z mod 256 ^ Z.of_nat n.
Proof.
  revert z; induction n as [|n IH]; intros z.
  - change (256 ^ Z.of_nat 0) with 1. rewrite Z.mod_1_r. done.
  - simpl be_fixed. rewrite be_val_snoc, IH.
    rewrite Nat2Z.inj_succ, Z.pow_succ_r by lia.
    rewrite Z.rem_mul_r by (try apply Z.pow_nonzero; lia). lia.
Qed.

Lemma be_fixed_val l : Forall is_byte l → be_fixed (length l) (be_val l) = l.
Proof.
  induction l as [|b l IH] using rev_ind; [done|].
  rewrite Forall_app, Forall_singleton. intros [H Hb]. unfold is_byte in Hb.
  rewrite length_app, Nat.add_1_r. simpl. rewrite be_val_snoc.
  rewrite Z.div_add_l, Z.div_small, Z.add_0_r, IH by (done || lia).
  by rewrite Z.add_comm, Z.mod_add, Z.mod_small by lia.
Qed.

Lemma byte_len_bounds z :
  0 < z → 256 ^ (Z.of_nat (byte_len z) - 1) ≤ z < 256 ^ Z.of_nat (byte_len z).
Proof.
  intros Hz. unfold byte_len. case_cmp.
  pose proof (Z.log2_nonneg z) as Hn.
  destruct (Z.log2_spec z Hz) as [H1 H2].
  pose proof (Z.div_pos (Z.log2 z) 8 Hn ltac:(lia)).
  pose proof (Z.mul_div_le (Z.log2 z) 8 ltac:(lia)).
  pose proof (Z.mul_succ_div_gt (Z.log2 z) 8 ltac:(lia)).
  rewrite Z2Nat.id by lia. change 256 with (2 ^ 8).
  rewrite <-!Z.pow_mul_r by lia. split.
  - etransitivity; [|exact H1]. apply Z.pow_le_mono_r; lia.
  - eapply Z.lt_le_trans; [exact H2|]. apply Z.pow_le_mono_r; lia.
Qed.

Lemma byte_len_unique z n :
  0 < z → 256 ^ (Z.of_nat n - 1) ≤ z < 256 ^ Z.of_nat n → byte_len z = n.
Proof.
  intros Hz [Hl Hu]. destruct (byte_len_bounds z Hz) as [Bl Bu].
  assert (¬ Z.of_nat n ≤ Z.of_nat (byte_len z) - 1).
  { intros Hle. apply (Z.pow_le_mono_r 256) in Hle; lia. }
  assert (¬ Z.of_nat (byte_len z) ≤ Z.of_nat n - 1).
  { intros Hle. apply (Z.pow_le_mono_r 256) in Hle; lia. }
  lia.
Qed.

Lemma byte_len_0 : byte_len 0 = 0%nat.
Proof. done. Qed.

Lemma be_val_bytes z : 0 ≤ z → be_val (be_bytes z) = z.
Proof.
  intros Hz. unfold be_bytes. rewrite be_val_fixed.
  destruct (decide (z = 0)) as [->|]; [done|].
  apply Z.mod_small. destruct (byte_len_bounds z); lia.
Qed.

Lemma be_bytes_byte z : Forall is_byte (be_bytes z).
Proof. apply be_fixed_byte. Qed.

Lemma length_be_bytes z : length (be_bytes z) = byte_len z.
Proof. apply length_be_fixed. Qed.

Lemma byte_len_be_val b l :
  is_byte b → b ≠ 0 → Forall is_byte l → byte_len (be_val (b :: l)) = S (length l).
Proof.
  intros Hb Hb0 Hl. unfold is_byte in Hb.
  pose proof (be_val_bound l Hl). rewrite be_val_cons.
  pose proof (Z.pow_pos_nonneg 256 (Z.of_nat (length l))).
  apply byte_len_unique; [nia|].
  replace (Z.of_nat (S (length l)) - 1) with (Z.of_nat (length l)) by lia.
  rewrite Nat2Z.inj_succ, Z.pow_succ_r by lia. nia.
Qed.

Lemma be_bytes_val b l :
  is_byte b → b ≠ 0 → Forall is_byte l → be_bytes (be_val (b :: l)) = b :: l.
Proof.
  intros. unfold be_bytes. rewrite byte_len_be_val by done.
  apply (be_fixed_val (b :: l)). by constructor.
Qed.

Lemma be_bytes_head z b l : 0 < z → be_bytes z = b :: l → b ≠ 0.
Proof.
  intros Hz E ->. pose proof (be_bytes_byte z) as Hb. pose proof (be_val_bytes z) as Hv.
  rewrite E in Hb, Hv. inversion Hb; subst. rewrite be_val_cons in Hv.
  pose proof (be_val_bound l). destruct (byte_len_bounds z Hz) as [Hl _].
  rewrite <-length_be_bytes, E in Hl. simpl in Hl.
  replace (Z.of_nat (S (length l)) - 1) with (Z.of_nat (length l)) in Hl by lia.
  specialize (Hv ltac:(lia)). specialize (H ltac:(done)). lia.
Qed.

End BigEndian.

(** ** Sums over lists *)

Fixpoint zsum {A} (f : A → Z) (l : list A) : Z :=
  match l with [] => 0 | x :: l => f x + zsum f l end%Z.

Section Sums.
Context {A : Type} (f : A → Z).
Local Open Scope Z_scope.

Lemma zsum_app l1 l2 : zsum f (l1 ++ l2) = zsum f l1 + zsum f l2.
Proof. induction l1 as [|x l1 IH]; cbn; [done|]. rewrite IH. lia. Qed.

Lemma zsum_insert l i x y : l !! i = Some x → zsum f (<[i := y]> l) = zsum f l - f x + f y.
Proof.
  revert i. induction l as [|z l IH]; intros [|i] E; simplify_eq/=; [lia|]. rewrite (IH i E). lia.
Qed.

Lemma zsum_perm l1 l2 : l1 ≡ₚ l2 → zsum f l1 = zsum f l2.
Proof. induction 1; cbn; lia. Qed.

Lemma zsum_nonneg l : (∀ x, 0 ≤ f x) → 0 ≤ zsum f l.
Proof. intros Hf. induction l as [|x l IH]; cbn; [lia|]. specialize (Hf x). lia. Qed.

Lemma zsum_lookup l i x : (∀ x, 0 ≤ f x) → l !! i = Some x → f x ≤ zsum f l.
Proof.
  intros Hf. revert i. induction l as [|z l IH]; intros [|i] E; simplify_eq/=.
  - pose proof (zsum_nonneg l Hf). lia.
  - specialize (IH i E). specialize (Hf z). lia.
Qed.

Lemma zsum_replicate n x : zsum f (replicate n x) = Z.of_nat n * f x.
Proof. induction n as [|n IH]; cbn [replicate zsum]; [lia|]. rewrite IH. lia. Qed.
End Sums.
