(* ===== verification/Keccakf.v ===== *)
(** * The permutation KeccakF-1600 (common/crypto/sha3/keccakf.go)

    The code works in place on 25 words of 64 bits and unrolls four rounds; each
    of them leaves the lanes in other positions than it found them in, and after
    the fourth they are back.  The reference is the bit-level definition of FIPS
    202 (theta, rho, pi, chi, iota on a 5 x 5 x 64 array of bits, with the
    rotation offsets and round constants computed as the standard does). *)

From S2P Require Import Prelude.
Local Open Scope Z_scope.

Declare Scope lane_scope.
Delimit Scope lane_scope with lane.

Notation "a .! i" := (nth i%nat a 0) (at level 1, format "a .! i").
Notation "x << n" := (u64 (Z.shiftl x n)) (at level 32, left associativity) : lane_scope.
Notation "x >> n" := (Z.shiftr x n) (at level 32, left associativity) : lane_scope.
Notation "x .| y" := (Z.lor x y) (at level 50, left associativity) : lane_scope.
Notation "x ⊕ y" := (Z.lxor x y) (at level 50, left associativity) : lane_scope.
Notation "x &^ y" := (Z.ldiff x y) (at level 40, left associativity) : lane_scope.
Local Open Scope lane_scope.

Definition rc : list Z :=
  [0x0000000000000001; 0x0000000000008082; 0x800000000000808A; 0x8000000080008000;
   0x000000000000808B; 0x0000000080000001; 0x8000000080008081; 0x8000000000008009;
   0x000000000000008A; 0x0000000000000088; 0x0000000080008009; 0x000000008000000A;
   0x000000008000808B; 0x800000000000008B; 0x8000000000008089; 0x8000000000008003;
   0x8000000000008002; 0x8000000000000080; 0x000000000000800A; 0x800000008000000A;
   0x8000000080008081; 0x8000000000008080; 0x0000000080000001; 0x8000000080008008].

(** ** The four unrolled rounds *)

Definition round1 (rci : Z) (a : list Z) : list Z :=
  let bc0 := a.!0 ⊕ a.!5 ⊕ a.!10 ⊕ a.!15 ⊕ a.!20 in
  let bc1 := a.!1 ⊕ a.!6 ⊕ a.!11 ⊕ a.!16 ⊕ a.!21 in
  let bc2 := a.!2 ⊕ a.!7 ⊕ a.!12 ⊕ a.!17 ⊕ a.!22 in
  let bc3 := a.!3 ⊕ a.!8 ⊕ a.!13 ⊕ a.!18 ⊕ a.!23 in
  let bc4 := a.!4 ⊕ a.!9 ⊕ a.!14 ⊕ a.!19 ⊕ a.!24 in
  let d0 := bc4 ⊕ (bc1 << 1 .| bc1 >> 63) in
  let d1 := bc0 ⊕ (bc2 << 1 .| bc2 >> 63) in
  let d2 := bc1 ⊕ (bc3 << 1 .| bc3 >> 63) in
  let d3 := bc2 ⊕ (bc4 << 1 .| bc4 >> 63) in
  let d4 := bc3 ⊕ (bc0 << 1 .| bc0 >> 63) in
  let bc0 := a.!0 ⊕ d0 in
  let t := a.!6 ⊕ d1 in
  let bc1 := t << 44 .| t >> (64 - 44) in
  let t := a.!12 ⊕ d2 in
  let bc2 := t << 43 .| t >> (64 - 43) in
  let t := a.!18 ⊕ d3 in
  let bc3 := t << 21 .| t >> (64 - 21) in
  let t := a.!24 ⊕ d4 in
  let bc4 := t << 14 .| t >> (64 - 14) in
  let a := <[0%nat := bc0 ⊕ (bc2 &^ bc1) ⊕ rci]> a in
  let a := <[6%nat := bc1 ⊕ (bc3 &^ bc2)]> a in
  let a := <[12%nat := bc2 ⊕ (bc4 &^ bc3)]> a in
  let a := <[18%nat := bc3 ⊕ (bc0 &^ bc4)]> a in
  let a := <[24%nat := bc4 ⊕ (bc1 &^ bc0)]> a in
  let t := a.!10 ⊕ d0 in
  let bc2 := t << 3 .| t >> (64 - 3) in
  let t := a.!16 ⊕ d1 in
  let bc3 := t << 45 .| t >> (64 - 45) in
  let t := a.!22 ⊕ d2 in
  let bc4 := t << 61 .| t >> (64 - 61) in
  let t := a.!3 ⊕ d3 in
  let bc0 := t << 28 .| t >> (64 - 28) in
  let t := a.!9 ⊕ d4 in
  let bc1 := t << 20 .| t >> (64 - 20) in
  let a := <[10%nat := bc0 ⊕ (bc2 &^ bc1)]> a in
  let a := <[16%nat := bc1 ⊕ (bc3 &^ bc2)]> a in
  let a := <[22%nat := bc2 ⊕ (bc4 &^ bc3)]> a in
  let a := <[3%nat := bc3 ⊕ (bc0 &^ bc4)]> a in
  let a := <[9%nat := bc4 ⊕ (bc1 &^ bc0)]> a in
  let t := a.!20 ⊕ d0 in
  let bc4 := t << 18 .| t >> (64 - 18) in
  let t := a.!1 ⊕ d1 in
  let bc0 := t << 1 .| t >> (64 - 1) in
  let t := a.!7 ⊕ d2 in
  let bc1 := t << 6 .| t >> (64 - 6) in
  let t := a.!13 ⊕ d3 in
  let bc2 := t << 25 .| t >> (64 - 25) in
  let t := a.!19 ⊕ d4 in
  let bc3 := t << 8 .| t >> (64 - 8) in
  let a := <[20%nat := bc0 ⊕ (bc2 &^ bc1)]> a in
  let a := <[1%nat := bc1 ⊕ (bc3 &^ bc2)]> a in
  let a := <[7%nat := bc2 ⊕ (bc4 &^ bc3)]> a in
  let a := <[13%nat := bc3 ⊕ (bc0 &^ bc4)]> a in
  let a := <[19%nat := bc4 ⊕ (bc1 &^ bc0)]> a in
  let t := a.!5 ⊕ d0 in
  let bc1 := t << 36 .| t >> (64 - 36) in
  let t := a.!11 ⊕ d1 in
  let bc2 := t << 10 .| t >> (64 - 10) in
  let t := a.!17 ⊕ d2 in
  let bc3 := t << 15 .| t >> (64 - 15) in
  let t := a.!23 ⊕ d3 in
  let bc4 := t << 56 .| t >> (64 - 56) in
  let t := a.!4 ⊕ d4 in
  let bc0 := t << 27 .| t >> (64 - 27) in
  let a := <[5%nat := bc0 ⊕ (bc2 &^ bc1)]> a in
  let a := <[11%nat := bc1 ⊕ (bc3 &^ bc2)]> a in
  let a := <[17%nat := bc2 ⊕ (bc4 &^ bc3)]> a in
  let a := <[23%nat := bc3 ⊕ (bc0 &^ bc4)]> a in
  let a := <[4%nat := bc4 ⊕ (bc1 &^ bc0)]> a in
  let t := a.!15 ⊕ d0 in
  let bc3 := t << 41 .| t >> (64 - 41) in
  let t := a.!21 ⊕ d1 in
  let bc4 := t << 2 .| t >> (64 - 2) in
  let t := a.!2 ⊕ d2 in
  let bc0 := t << 62 .| t >> (64 - 62) in
  let t := a.!8 ⊕ d3 in
  let bc1 := t << 55 .| t >> (64 - 55) in
  let t := a.!14 ⊕ d4 in
  let bc2 := t << 39 .| t >> (64 - 39) in
  let a := <[15%nat := bc0 ⊕ (bc2 &^ bc1)]> a in
  let a := <[21%nat := bc1 ⊕ (bc3 &^ bc2)]> a in
  let a := <[2%nat := bc2 ⊕ (bc4 &^ bc3)]> a in
  let a := <[8%nat := bc3 ⊕ (bc0 &^ bc4)]> a in
  let a := <[14%nat := bc4 ⊕ (bc1 &^ bc0)]> a in
  a.

Definition round2 (rci : Z) (a : list Z) : list Z :=
  let bc0 := a.!0 ⊕ a.!5 ⊕ a.!10 ⊕ a.!15 ⊕ a.!20 in
  let bc1 := a.!1 ⊕ a.!6 ⊕ a.!11 ⊕ a.!16 ⊕ a.!21 in
  let bc2 := a.!2 ⊕ a.!7 ⊕ a.!12 ⊕ a.!17 ⊕ a.!22 in
  let bc3 := a.!3 ⊕ a.!8 ⊕ a.!13 ⊕ a.!18 ⊕ a.!23 in
  let bc4 := a.!4 ⊕ a.!9 ⊕ a.!14 ⊕ a.!19 ⊕ a.!24 in
  let d0 := bc4 ⊕ (bc1 << 1 .| bc1 >> 63) in
  let d1 := bc0 ⊕ (bc2 << 1 .| bc2 >> 63) in
  let d2 := bc1 ⊕ (bc3 << 1 .| bc3 >> 63) in
  let d3 := bc2 ⊕ (bc4 << 1 .| bc4 >> 63) in
  let d4 := bc3 ⊕ (bc0 << 1 .| bc0 >> 63) in
  let bc0 := a.!0 ⊕ d0 in
  let t := a.!16 ⊕ d1 in
  let bc1 := t << 44 .| t >> (64 - 44) in
  let t := a.!7 ⊕ d2 in
  let bc2 := t << 43 .| t >> (64 - 43) in
  let t := a.!23 ⊕ d3 in
  let bc3 := t << 21 .| t >> (64 - 21) in
  let t := a.!14 ⊕ d4 in
  let bc4 := t << 14 .| t >> (64 - 14) in
  let a := <[0%nat := bc0 ⊕ (bc2 &^ bc1) ⊕ rci]> a in
  let a := <[16%nat := bc1 ⊕ (bc3 &^ bc2)]> a in
  let a := <[7%nat := bc2 ⊕ (bc4 &^ bc3)]> a in
  let a := <[23%nat := bc3 ⊕ (bc0 &^ bc4)]> a in
  let a := <[14%nat := bc4 ⊕ (bc1 &^ bc0)]> a in
  let t := a.!20 ⊕ d0 in
  let bc2 := t << 3 .| t >> (64 - 3) in
  let t := a.!11 ⊕ d1 in
  let bc3 := t << 45 .| t >> (64 - 45) in
  let t := a.!2 ⊕ d2 in
  let bc4 := t << 61 .| t >> (64 - 61) in
  let t := a.!18 ⊕ d3 in
  let bc0 := t << 28 .| t >> (64 - 28) in
  let t := a.!9 ⊕ d4 in
  let bc1 := t << 20 .| t >> (64 - 20) in
  let a := <[20%nat := bc0 ⊕ (bc2 &^ bc1)]> a in
  let a := <[11%nat := bc1 ⊕ (bc3 &^ bc2)]> a in
  let a := <[2%nat := bc2 ⊕ (bc4 &^ bc3)]> a in
  let a := <[18%nat := bc3 ⊕ (bc0 &^ bc4)]> a in
  let a := <[9%nat := bc4 ⊕ (bc1 &^ bc0)]> a in
  let t := a.!15 ⊕ d0 in
  let bc4 := t << 18 .| t >> (64 - 18) in
  let t := a.!6 ⊕ d1 in
  let bc0 := t << 1 .| t >> (64 - 1) in
  let t := a.!22 ⊕ d2 in
  let bc1 := t << 6 .| t >> (64 - 6) in
  let t := a.!13 ⊕ d3 in
  let bc2 := t << 25 .| t >> (64 - 25) in
  let t := a.!4 ⊕ d4 in
  let bc3 := t << 8 .| t >> (64 - 8) in
  let a := <[15%nat := bc0 ⊕ (bc2 &^ bc1)]> a in
  let a := <[6%nat := bc1 ⊕ (bc3 &^ bc2)]> a in
  let a := <[22%nat := bc2 ⊕ (bc4 &^ bc3)]> a in
  let a := <[13%nat := bc3 ⊕ (bc0 &^ bc4)]> a in
  let a := <[4%nat := bc4 ⊕ (bc1 &^ bc0)]> a in
  let t := a.!10 ⊕ d0 in
  let bc1 := t << 36 .| t >> (64 - 36) in
  let t := a.!1 ⊕ d1 in
  let bc2 := t << 10 .| t >> (64 - 10) in
  let t := a.!17 ⊕ d2 in
  let bc3 := t << 15 .| t >> (64 - 15) in
  let t := a.!8 ⊕ d3 in
  let bc4 := t << 56 .| t >> (64 - 56) in
  let t := a.!24 ⊕ d4 in
  let bc0 := t << 27 .| t >> (64 - 27) in
  let a := <[10%nat := bc0 ⊕ (bc2 &^ bc1)]> a in
  let a := <[1%nat := bc1 ⊕ (bc3 &^ bc2)]> a in
  let a := <[17%nat := bc2 ⊕ (bc4 &^ bc3)]> a in
  let a := <[8%nat := bc3 ⊕ (bc0 &^ bc4)]> a in
  let a := <[24%nat := bc4 ⊕ (bc1 &^ bc0)]> a in
  let t := a.!5 ⊕ d0 in
  let bc3 := t << 41 .| t >> (64 - 41) in
  let t := a.!21 ⊕ d1 in
  let bc4 := t << 2 .| t >> (64 - 2) in
  let t := a.!12 ⊕ d2 in
  let bc0 := t << 62 .| t >> (64 - 62) in
  let t := a.!3 ⊕ d3 in
  let bc1 := t << 55 .| t >> (64 - 55) in
  let t := a.!19 ⊕ d4 in
  let bc2 := t << 39 .| t >> (64 - 39) in
  let a := <[5%nat := bc0 ⊕ (bc2 &^ bc1)]> a in
  let a := <[21%nat := bc1 ⊕ (bc3 &^ bc2)]> a in
  let a := <[12%nat := bc2 ⊕ (bc4 &^ bc3)]> a in
  let a := <[3%nat := bc3 ⊕ (bc0 &^ bc4)]> a in
  let a := <[19%nat := bc4 ⊕ (bc1 &^ bc0)]> a in
  a.

Definition round3 (rci : Z) (a : list Z) : list Z :=
  let bc0 := a.!0 ⊕ a.!5 ⊕ a.!10 ⊕ a.!15 ⊕ a.!20 in
  let bc1 := a.!1 ⊕ a.!6 ⊕ a.!11 ⊕ a.!16 ⊕ a.!21 in
  let bc2 := a.!2 ⊕ a.!7 ⊕ a.!12 ⊕ a.!17 ⊕ a.!22 in
  let bc3 := a.!3 ⊕ a.!8 ⊕ a.!13 ⊕ a.!18 ⊕ a.!23 in
  let bc4 := a.!4 ⊕ a.!9 ⊕ a.!14 ⊕ a.!19 ⊕ a.!24 in
  let d0 := bc4 ⊕ (bc1 << 1 .| bc1 >> 63) in
  let d1 := bc0 ⊕ (bc2 << 1 .| bc2 >> 63) in
  let d2 := bc1 ⊕ (bc3 << 1 .| bc3 >> 63) in
  let d3 := bc2 ⊕ (bc4 << 1 .| bc4 >> 63) in
  let d4 := bc3 ⊕ (bc0 << 1 .| bc0 >> 63) in
  let bc0 := a.!0 ⊕ d0 in
  let t := a.!11 ⊕ d1 in
  let bc1 := t << 44 .| t >> (64 - 44) in
  let t := a.!22 ⊕ d2 in
  let bc2 := t << 43 .| t >> (64 - 43) in
  let t := a.!8 ⊕ d3 in
  let bc3 := t << 21 .| t >> (64 - 21) in
  let t := a.!19 ⊕ d4 in
  let bc4 := t << 14 .| t >> (64 - 14) in
  let a := <[0%nat := bc0 ⊕ (bc2 &^ bc1) ⊕ rci]> a in
  let a := <[11%nat := bc1 ⊕ (bc3 &^ bc2)]> a in
  let a := <[22%nat := bc2 ⊕ (bc4 &^ bc3)]> a in
  let a := <[8%nat := bc3 ⊕ (bc0 &^ bc4)]> a in
  let a := <[19%nat := bc4 ⊕ (bc1 &^ bc0)]> a in
  let t := a.!15 ⊕ d0 in
  let bc2 := t << 3 .| t >> (64 - 3) in
  let t := a.!1 ⊕ d1 in
  let bc3 := t << 45 .| t >> (64 - 45) in
  let t := a.!12 ⊕ d2 in
  let bc4 := t << 61 .| t >> (64 - 61) in
  let t := a.!23 ⊕ d3 in
  let bc0 := t << 28 .| t >> (64 - 28) in
  let t := a.!9 ⊕ d4 in
  let bc1 := t << 20 .| t >> (64 - 20) in
  let a := <[15%nat := bc0 ⊕ (bc2 &^ bc1)]> a in
  let a := <[1%nat := bc1 ⊕ (bc3 &^ bc2)]> a in
  let a := <[12%nat := bc2 ⊕ (bc4 &^ bc3)]> a in
  let a := <[23%nat := bc3 ⊕ (bc0 &^ bc4)]> a in
  let a := <[9%nat := bc4 ⊕ (bc1 &^ bc0)]> a in
  let t := a.!5 ⊕ d0 in
  let bc4 := t << 18 .| t >> (64 - 18) in
  let t := a.!16 ⊕ d1 in
  let bc0 := t << 1 .| t >> (64 - 1) in
  let t := a.!2 ⊕ d2 in
  let bc1 := t << 6 .| t >> (64 - 6) in
  let t := a.!13 ⊕ d3 in
  let bc2 := t << 25 .| t >> (64 - 25) in
  let t := a.!24 ⊕ d4 in
  let bc3 := t << 8 .| t >> (64 - 8) in
  let a := <[5%nat := bc0 ⊕ (bc2 &^ bc1)]> a in
  let a := <[16%nat := bc1 ⊕ (bc3 &^ bc2)]> a in
  let a := <[2%nat := bc2 ⊕ (bc4 &^ bc3)]> a in
  let a := <[13%nat := bc3 ⊕ (bc0 &^ bc4)]> a in
  let a := <[24%nat := bc4 ⊕ (bc1 &^ bc0)]> a in
  let t := a.!20 ⊕ d0 in
  let bc1 := t << 36 .| t >> (64 - 36) in
  let t := a.!6 ⊕ d1 in
  let bc2 := t << 10 .| t >> (64 - 10) in
  let t := a.!17 ⊕ d2 in
  let bc3 := t << 15 .| t >> (64 - 15) in
  let t := a.!3 ⊕ d3 in
  let bc4 := t << 56 .| t >> (64 - 56) in
  let t := a.!14 ⊕ d4 in
  let bc0 := t << 27 .| t >> (64 - 27) in
  let a := <[20%nat := bc0 ⊕ (bc2 &^ bc1)]> a in
  let a := <[6%nat := bc1 ⊕ (bc3 &^ bc2)]> a in
  let a := <[17%nat := bc2 ⊕ (bc4 &^ bc3)]> a in
  let a := <[3%nat := bc3 ⊕ (bc0 &^ bc4)]> a in
  let a := <[14%nat := bc4 ⊕ (bc1 &^ bc0)]> a in
  let t := a.!10 ⊕ d0 in
  let bc3 := t << 41 .| t >> (64 - 41) in
  let t := a.!21 ⊕ d1 in
  let bc4 := t << 2 .| t >> (64 - 2) in
  let t := a.!7 ⊕ d2 in
  let bc0 := t << 62 .| t >> (64 - 62) in
  let t := a.!18 ⊕ d3 in
  let bc1 := t << 55 .| t >> (64 - 55) in
  let t := a.!4 ⊕ d4 in
  let bc2 := t << 39 .| t >> (64 - 39) in
  let a := <[10%nat := bc0 ⊕ (bc2 &^ bc1)]> a in
  let a := <[21%nat := bc1 ⊕ (bc3 &^ bc2)]> a in
  let a := <[7%nat := bc2 ⊕ (bc4 &^ bc3)]> a in
  let a := <[18%nat := bc3 ⊕ (bc0 &^ bc4)]> a in
  let a := <[4%nat := bc4 ⊕ (bc1 &^ bc0)]> a in
  a.

Definition round4 (rci : Z) (a : list Z) : list Z :=
  let bc0 := a.!0 ⊕ a.!5 ⊕ a.!10 ⊕ a.!15 ⊕ a.!20 in
  let bc1 := a.!1 ⊕ a.!6 ⊕ a.!11 ⊕ a.!16 ⊕ a.!21 in
  let bc2 := a.!2 ⊕ a.!7 ⊕ a.!12 ⊕ a.!17 ⊕ a.!22 in
  let bc3 := a.!3 ⊕ a.!8 ⊕ a.!13 ⊕ a.!18 ⊕ a.!23 in
  let bc4 := a.!4 ⊕ a.!9 ⊕ a.!14 ⊕ a.!19 ⊕ a.!24 in
  let d0 := bc4 ⊕ (bc1 << 1 .| bc1 >> 63) in
  let d1 := bc0 ⊕ (bc2 << 1 .| bc2 >> 63) in
  let d2 := bc1 ⊕ (bc3 << 1 .| bc3 >> 63) in
  let d3 := bc2 ⊕ (bc4 << 1 .| bc4 >> 63) in
  let d4 := bc3 ⊕ (bc0 << 1 .| bc0 >> 63) in
  let bc0 := a.!0 ⊕ d0 in
  let t := a.!1 ⊕ d1 in
  let bc1 := t << 44 .| t >> (64 - 44) in
  let t := a.!2 ⊕ d2 in
  let bc2 := t << 43 .| t >> (64 - 43) in
  let t := a.!3 ⊕ d3 in
  let bc3 := t << 21 .| t >> (64 - 21) in
  let t := a.!4 ⊕ d4 in
  let bc4 := t << 14 .| t >> (64 - 14) in
  let a := <[0%nat := bc0 ⊕ (bc2 &^ bc1) ⊕ rci]> a in
  let a := <[1%nat := bc1 ⊕ (bc3 &^ bc2)]> a in
  let a := <[2%nat := bc2 ⊕ (bc4 &^ bc3)]> a in
  let a := <[3%nat := bc3 ⊕ (bc0 &^ bc4)]> a in
  let a := <[4%nat := bc4 ⊕ (bc1 &^ bc0)]> a in
  let t := a.!5 ⊕ d0 in
  let bc2 := t << 3 .| t >> (64 - 3) in
  let t := a.!6 ⊕ d1 in
  let bc3 := t << 45 .| t >> (64 - 45) in
  let t := a.!7 ⊕ d2 in
  let bc4 := t << 61 .| t >> (64 - 61) in
  let t := a.!8 ⊕ d3 in
  let bc0 := t << 28 .| t >> (64 - 28) in
  let t := a.!9 ⊕ d4 in
  let bc1 := t << 20 .| t >> (64 - 20) in
  let a := <[5%nat := bc0 ⊕ (bc2 &^ bc1)]> a in
  let a := <[6%nat := bc1 ⊕ (bc3 &^ bc2)]> a in
  let a := <[7%nat := bc2 ⊕ (bc4 &^ bc3)]> a in
  let a := <[8%nat := bc3 ⊕ (bc0 &^ bc4)]> a in
  let a := <[9%nat := bc4 ⊕ (bc1 &^ bc0)]> a in
  let t := a.!10 ⊕ d0 in
  let bc4 := t << 18 .| t >> (64 - 18) in
  let t := a.!11 ⊕ d1 in
  let bc0 := t << 1 .| t >> (64 - 1) in
  let t := a.!12 ⊕ d2 in
  let bc1 := t << 6 .| t >> (64 - 6) in
  let t := a.!13 ⊕ d3 in
  let bc2 := t << 25 .| t >> (64 - 25) in
  let t := a.!14 ⊕ d4 in
  let bc3 := t << 8 .| t >> (64 - 8) in
  let a := <[10%nat := bc0 ⊕ (bc2 &^ bc1)]> a in
  let a := <[11%nat := bc1 ⊕ (bc3 &^ bc2)]> a in
  let a := <[12%nat := bc2 ⊕ (bc4 &^ bc3)]> a in
  let a := <[13%nat := bc3 ⊕ (bc0 &^ bc4)]> a in
  let a := <[14%nat := bc4 ⊕ (bc1 &^ bc0)]> a in
  let t := a.!15 ⊕ d0 in
  let bc1 := t << 36 .| t >> (64 - 36) in
  let t := a.!16 ⊕ d1 in
  let bc2 := t << 10 .| t >> (64 - 10) in
  let t := a.!17 ⊕ d2 in
  let bc3 := t << 15 .| t >> (64 - 15) in
  let t := a.!18 ⊕ d3 in
  let bc4 := t << 56 .| t >> (64 - 56) in
  let t := a.!19 ⊕ d4 in
  let bc0 := t << 27 .| t >> (64 - 27) in
  let a := <[15%nat := bc0 ⊕ (bc2 &^ bc1)]> a in
  let a := <[16%nat := bc1 ⊕ (bc3 &^ bc2)]> a in
  let a := <[17%nat := bc2 ⊕ (bc4 &^ bc3)]> a in
  let a := <[18%nat := bc3 ⊕ (bc0 &^ bc4)]> a in
  let a := <[19%nat := bc4 ⊕ (bc1 &^ bc0)]> a in
  let t := a.!20 ⊕ d0 in
  let bc3 := t << 41 .| t >> (64 - 41) in
  let t := a.!21 ⊕ d1 in
  let bc4 := t << 2 .| t >> (64 - 2) in
  let t := a.!22 ⊕ d2 in
  let bc0 := t << 62 .| t >> (64 - 62) in
  let t := a.!23 ⊕ d3 in
  let bc1 := t << 55 .| t >> (64 - 55) in
  let t := a.!24 ⊕ d4 in
  let bc2 := t << 39 .| t >> (64 - 39) in
  let a := <[20%nat := bc0 ⊕ (bc2 &^ bc1)]> a in
  let a := <[21%nat := bc1 ⊕ (bc3 &^ bc2)]> a in
  let a := <[22%nat := bc2 ⊕ (bc4 &^ bc3)]> a in
  let a := <[23%nat := bc3 ⊕ (bc0 &^ bc4)]> a in
  let a := <[24%nat := bc4 ⊕ (bc1 &^ bc0)]> a in
  a.

(** The body of the loop, and the loop over [i = 0, 4, ..., 20]. *)
Definition keccakF1600_body (a : list Z) (i : nat) : list Z :=
  let a := round1 rc.!i a in
  let a := round2 rc.!(i + 1) a in
  let a := round3 rc.!(i + 2) a in
  round4 rc.!(i + 3) a.

Definition keccakF1600 (a : list Z) : list Z := foldl keccakF1600_body a [0; 4; 8; 12; 16; 20]%nat.

(** ** FIPS 202 *)

(** A state: [A x y z] is the bit at column [x], row [y], position [z]. *)
Definition bitstate := nat → nat → Z → bool.

Definition b_parity (A : bitstate) (x : nat) (z : Z) : bool :=
  xorb (xorb (xorb (xorb (A x 0%nat z) (A x 1%nat z)) (A x 2%nat z)) (A x 3%nat z)) (A x 4%nat z).

Definition b_theta (A : bitstate) : bitstate := λ x y z,
  xorb (A x y z) (xorb (b_parity A ((x + 4) mod 5)%nat z) (b_parity A ((x + 1) mod 5)%nat ((z - 1) mod 64))).

(** The offsets: [(t + 1) * (t + 2) / 2] at the position reached from (1, 0) in
    [t] steps of (x, y) to (y, 2x + 3y). *)
Fixpoint rho_walk (n t x y : nat) : list (nat * nat * Z) :=
  match n with
  | O => []
  | S n' => (x, y, Z.of_nat (((t + 1) * (t + 2) / 2) mod 64)) :: rho_walk n' (S t) y ((2 * x + 3 * y) mod 5)
  end.

Definition rho_offset (x y : nat) : Z :=
  match filter (λ p, p.1 = (x, y)) (rho_walk 24 0 1 0) with
  | (_, o) :: _ => o
  | [] => 0
  end.

Definition b_rho (A : bitstate) : bitstate := λ x y z, A x y ((z - rho_offset x y) mod 64).

Definition b_pi (A : bitstate) : bitstate := λ x y z, A ((x + 3 * y) mod 5)%nat x z.

Definition b_chi (A : bitstate) : bitstate := λ x y z,
  xorb (A x y z) (negb (A ((x + 1) mod 5)%nat y z) && A ((x + 2) mod 5)%nat y z).

(** The linear feedback shift register behind the round constants. *)
Definition lfsr_step (r : list bool) : list bool :=
  let r := false :: r in
  let r8 := nth 8 r false in
  let flip i r := <[i := xorb (nth i r false) r8]> r in
  take 8 (flip 6%nat (flip 5%nat (flip 4%nat (flip 0%nat r)))).

Definition rc_bit (t : nat) : bool :=
  nth 0 (Nat.iter (t mod 255) lfsr_step [true; false; false; false; false; false; false; false]) false.

Definition b_rc (ir : nat) (z : Z) : bool :=
  existsb (λ j, (z =? 2 ^ Z.of_nat j - 1) && rc_bit (j + 7 * ir)) (seq 0 7).

Definition b_iota (ir : nat) (A : bitstate) : bitstate := λ x y z,
  if (x =? 0)%nat && (y =? 0)%nat then xorb (A x y z) (b_rc ir z) else A x y z.

Definition b_round (ir : nat) (A : bitstate) : bitstate :=
  b_iota ir (b_chi (b_pi (b_rho (b_theta A)))).

(** [n] rounds from round [ir] on. *)
Fixpoint b_rounds (n ir : nat) (A : bitstate) : bitstate :=
  match n with
  | O => A
  | S n' => b_rounds n' (S ir) (b_round ir A)
  end.

Definition keccak_f (A : bitstate) : bitstate := b_rounds 24 0 A.

(** ** The same on lanes *)

Definition lane (a : list Z) (x y : nat) : Z := a.!(5 * y + x).
Definition lanes (f : nat → nat → Z) : list Z := map (λ j, f (j mod 5)%nat (j / 5)%nat) (seq 0 25).

Definition ROL (w n : Z) : Z := if n =? 0 then w else w << n .| w >> (64 - n).

Definition parity (a : list Z) (x : nat) : Z :=
  lane a x 0 ⊕ lane a x 1 ⊕ lane a x 2 ⊕ lane a x 3 ⊕ lane a x 4.

Definition theta (a : list Z) : list Z :=
  lanes (λ x y, lane a x y ⊕ (parity a ((x + 4) mod 5) ⊕ ROL (parity a ((x + 1) mod 5)) 1)).
Definition rho (a : list Z) : list Z := lanes (λ x y, ROL (lane a x y) (rho_offset x y)).
Definition pi (a : list Z) : list Z := lanes (λ x y, lane a ((x + 3 * y) mod 5) x).
Definition chi (a : list Z) : list Z :=
  lanes (λ x y, lane a x y ⊕ (lane a ((x + 2) mod 5) y &^ lane a ((x + 1) mod 5) y)).
Definition iota (c : Z) (a : list Z) : list Z :=
  lanes (λ x y, if (x =? 0)%nat && (y =? 0)%nat then lane a x y ⊕ c else lane a x y).
Definition round (c : Z) (a : list Z) : list Z := iota c (chi (pi (rho (theta a)))).

(** Where the lanes are after each of the four rounds. *)
Definition layout0 : list nat := seq 0 25.
Definition layout1 : list nat := [0; 6; 12; 18; 24; 10; 16; 22; 3; 9; 20; 1; 7; 13; 19; 5; 11; 17; 23; 4; 15; 21; 2; 8; 14]%nat.
Definition layout2 : list nat := [0; 16; 7; 23; 14; 20; 11; 2; 18; 9; 15; 6; 22; 13; 4; 10; 1; 17; 8; 24; 5; 21; 12; 3; 19]%nat.
Definition layout3 : list nat := [0; 11; 22; 8; 19; 15; 1; 12; 23; 9; 5; 16; 2; 13; 24; 20; 6; 17; 3; 14; 10; 21; 7; 18; 4]%nat.

Definition view (l : list nat) (a : list Z) : list Z := map (λ i, a.!i) l.

Lemma list25 {A} (a : list A) : length a = 25%nat →
  ∃ a0 a1 a2 a3 a4 a5 a6 a7 a8 a9 a10 a11 a12 a13 a14 a15 a16 a17 a18 a19 a20 a21 a22 a23 a24,
    a = [a0; a1; a2; a3; a4; a5; a6; a7; a8; a9; a10; a11; a12; a13; a14; a15; a16; a17; a18; a19; a20; a21; a22; a23; a24].
Proof. intros H. do 25 (destruct a as [|? a]; [done|]). destruct a; [|done]. by repeat eexists. Qed.

Ltac lanes25 H :=
  apply list25 in H as (a0 & a1 & a2 & a3 & a4 & a5 & a6 & a7 & a8 & a9 & a10 & a11 & a12 & a13 & a14 & a15 & a16 & a17 & a18 & a19 & a20 & a21 & a22 & a23 & a24 & ->).

(** The parity of a column does not depend on the order of its rows. *)
Ltac xor_bits :=
  apply Z.bits_inj; let i := fresh in intros i; rewrite !Z.lxor_spec;
  repeat match goal with |- context [Z.testbit ?a i] => destruct (Z.testbit a i) end; reflexivity.

(** A round with the parities of the columns given. *)
Definition round_par (C : list Z) (c : Z) (a : list Z) : list Z :=
  iota c (chi (pi (rho
    (lanes (λ x y, lane a x y ⊕ (C.!((x + 4) mod 5) ⊕ ROL C.!((x + 1) mod 5) 1)))))).

Definition parities (a : list Z) : list Z := map (parity a) (seq 0 5).

Lemma mod5 x : (x mod 5 < 5)%nat.
Proof. apply Nat.mod_upper_bound. lia. Qed.

Lemma lanes_ext f g : (∀ x y, (x < 5)%nat → f x y = g x y) → lanes f = lanes g.
Proof. intros H. apply list_fmap_ext. intros _ j _. apply H, mod5. Qed.

Lemma parities_nth a x : (x < 5)%nat → (parities a).!x = parity a x.
Proof. intros Hx. do 5 (destruct x as [|x]; [done|]). lia. Qed.

Lemma round_parities c a : round c a = round_par (parities a) c a.
Proof.
  unfold round, round_par, theta.
  set (f := λ x y, _ ⊕ (parity a _ ⊕ _)). set (g := λ x y, _ ⊕ ((parities a).!_ ⊕ _)).
  assert (lanes f = lanes g) as ->; [|done]. apply lanes_ext. intros x y _. unfold f, g.
  by rewrite !parities_nth by apply mod5.
Qed.

Section Rounds.
Local Opaque Z.lxor Z.ldiff Z.lor Z.shiftl Z.shiftr wrap.

(** The columns are in the same place in every layout. *)
Lemma view_parities a l : length a = 25%nat → l = layout1 ∨ l = layout2 ∨ l = layout3 → parities (view l a) = parities a.
Proof.
  intros H Hl. lanes25 H. destruct Hl as [->|[-> | ->]].
  all: unfold parities; simpl; repeat (apply f_equal2; [unfold parity, lane; simpl; xor_bits|]); reflexivity.
Qed.

(** Each unrolled round is a round of the reference on the lanes where they are. *)
Lemma round1_view c a : length a = 25%nat → view layout1 (round1 c a) = round c (view layout0 a).
Proof.
  intros H. lanes25 H. reflexivity.
Qed.

Lemma round2_view c a : length a = 25%nat → view layout2 (round2 c a) = round c (view layout1 a).
Proof.
  intros H. rewrite round_parities, view_parities by auto. lanes25 H. reflexivity.
Qed.

Lemma round3_view c a : length a = 25%nat → view layout3 (round3 c a) = round c (view layout2 a).
Proof.
  intros H. rewrite round_parities, view_parities by auto. lanes25 H. reflexivity.
Qed.

Lemma round4_view c a : length a = 25%nat → view layout0 (round4 c a) = round c (view layout3 a).
Proof.
  intros H. rewrite round_parities, view_parities by auto. lanes25 H. reflexivity.
Qed.

Lemma rounds_length c a : length a = 25%nat →
  length (round1 c a) = 25%nat ∧ length (round2 c a) = 25%nat ∧ length (round3 c a) = 25%nat ∧ length (round4 c a) = 25%nat.
Proof. intros H. lanes25 H. repeat split; reflexivity. Qed.
End Rounds.

Lemma view_layout0 a : length a = 25%nat → view layout0 a = a.
Proof. intros H. by lanes25 H. Qed.

Local Opaque round1 round2 round3 round4 round.

(** [n] rounds of the reference from round [ir] on. *)
Fixpoint rounds (n ir : nat) (a : list Z) : list Z :=
  match n with
  | O => a
  | S n' => rounds n' (S ir) (round rc.!ir a)
  end.

Lemma body_rounds i a : length a = 25%nat →
  keccakF1600_body a i = rounds 4 i a ∧ length (keccakF1600_body a i) = 25%nat.
Proof.
  intros H. unfold keccakF1600_body. destruct (rounds_length rc.!i a H) as (H1 & _).
  destruct (rounds_length rc.!(i + 1) _ H1) as (_ & H2 & _).
  destruct (rounds_length rc.!(i + 2) _ H2) as (_ & _ & H3 & _).
  destruct (rounds_length rc.!(i + 3) _ H3) as (_ & _ & _ & H4). split; [|exact H4].
  rewrite <-(view_layout0 _ H4), (round4_view _ _ H3), (round3_view _ _ H2), (round2_view _ _ H1), (round1_view _ _ H).
  rewrite (view_layout0 a H). cbn [rounds].
  by replace (i + 3)%nat with (S (S (S i))) by lia; replace (i + 2)%nat with (S (S i)) by lia;
    replace (i + 1)%nat with (S i) by lia.
Qed.

Lemma rounds_add n m i a : rounds (n + m) i a = rounds m (n + i) (rounds n i a).
Proof. revert i a. induction n as [|n IH]; intros i a; [done|]. simpl. by rewrite IH, Nat.add_succ_r. Qed.

(** The iterations from [i] on. *)
Lemma loop_rounds n i a :
  length a = 25%nat →
  foldl keccakF1600_body a (map (λ j, i + 4 * j)%nat (seq 0 n)) = rounds (n * 4) i a ∧
  length (foldl keccakF1600_body a (map (λ j, i + 4 * j)%nat (seq 0 n))) = 25%nat.
Proof.
  intros H. induction n as [|n [IH1 IH2]]; [done|].
  rewrite seq_S, map_app, foldl_app. cbn [map foldl].
  destruct (body_rounds (i + 4 * (0 + n)) _ IH2) as [E1 E2]. split; [|exact E2].
  rewrite E1, IH1. replace (S n * 4)%nat with (n * 4 + 4)%nat by lia.
  rewrite rounds_add. by replace (i + 4 * (0 + n))%nat with (n * 4 + i)%nat by lia.
Qed.

Lemma keccakF1600_rounds a : length a = 25%nat → keccakF1600 a = rounds 24 0 a.
Proof. intros H. exact (proj1 (loop_rounds 6 0 a H)). Qed.

(** ** From lanes to bits *)

Definition is_u64 (w : Z) : Prop := 0 ≤ w < 2 ^ 64.
Definition good (a : list Z) : Prop := length a = 25%nat ∧ Forall is_u64 a.

Definition bits (a : list Z) : bitstate := λ x y z, Z.testbit (lane a x y) z.

Definition agree (A B : bitstate) : Prop :=
  ∀ x y z, (x < 5)%nat → (y < 5)%nat → 0 ≤ z < 64 → A x y z = B x y z.

#[export] Instance agree_equiv : Equivalence agree.
Proof.
  split.
  - by intros A x y z.
  - intros A B H x y z ? ? ?. symmetry. by apply H.
  - intros A B C H1 H2 x y z ? ? ?. rewrite H1 by done. by apply H2.
Qed.

Lemma mod64 z : 0 ≤ z mod 64 < 64.
Proof. by apply Z.mod_pos_bound. Qed.

#[local] Hint Resolve mod5 mod64 : core.
#[local] Hint Extern 1 (_ < 5)%nat => lia : core.

#[export] Instance b_theta_agree : Proper (agree ==> agree) b_theta.
Proof.
  intros A B H x y z Hx Hy Hz. unfold b_theta, b_parity. rewrite !H by auto. done.
Qed.

#[export] Instance b_rho_agree : Proper (agree ==> agree) b_rho.
Proof. intros A B H x y z Hx Hy Hz. unfold b_rho. by rewrite H by auto. Qed.

#[export] Instance b_pi_agree : Proper (agree ==> agree) b_pi.
Proof. intros A B H x y z Hx Hy Hz. unfold b_pi. by rewrite H by auto. Qed.

#[export] Instance b_chi_agree : Proper (agree ==> agree) b_chi.
Proof. intros A B H x y z Hx Hy Hz. unfold b_chi. by rewrite !H by auto. Qed.

#[export] Instance b_iota_agree ir : Proper (agree ==> agree) (b_iota ir).
Proof. intros A B H x y z Hx Hy Hz. unfold b_iota. by rewrite !H by auto. Qed.

#[export] Instance b_round_agree ir : Proper (agree ==> agree) (b_round ir).
Proof. intros A B H. unfold b_round. by rewrite H. Qed.

#[export] Instance b_rounds_agree n ir : Proper (agree ==> agree) (b_rounds n ir).
Proof. revert ir. induction n as [|n IH]; intros ir A B H; [done|]. simpl. by rewrite H. Qed.

(** *** Words *)

Lemma is_u64_bits w : 0 ≤ w → (∀ i, 64 ≤ i → Z.testbit w i = false) → is_u64 w.
Proof.
  intros H0 H. split; [done|]. destruct (Z.eq_dec w 0) as [->|]; [done|]. apply Z.log2_lt_pow2; [lia|].
  destruct (Z_lt_ge_dec (Z.log2 w) 64) as [|Hge]; [done|]. pose proof (H (Z.log2 w) ltac:(lia)) as E. rewrite Z.bit_log2 in E by lia. done.
Qed.

Lemma is_u64_high w i : is_u64 w → 64 ≤ i → Z.testbit w i = false.
Proof.
  intros [H0 H1] Hi. destruct (Z.eq_dec w 0) as [->|]; [apply Z.testbit_0_l|]. apply Z.bits_above_log2; [done|].
  apply Z.log2_lt_pow2 in H1; lia.
Qed.

Lemma is_u64_lxor v w : is_u64 v → is_u64 w → is_u64 (v ⊕ w).
Proof.
  intros Hv Hw. apply is_u64_bits; [by apply Z.lxor_nonneg; destruct Hv, Hw|].
  intros i Hi. by rewrite Z.lxor_spec, !is_u64_high.
Qed.

Lemma is_u64_ldiff v w : is_u64 v → is_u64 (v &^ w).
Proof.
  intros Hv. apply is_u64_bits; [apply Z.ldiff_nonneg; left; by destruct Hv|].
  intros i Hi. by rewrite Z.ldiff_spec, is_u64_high.
Qed.

Lemma is_u64_wrap w : is_u64 (u64 w).
Proof. unfold wrap, is_u64. apply Z.mod_pos_bound. lia. Qed.

Lemma ROL_u64 w n : is_u64 w → 0 ≤ n < 64 → is_u64 (ROL w n).
Proof.
  intros Hw Hn. unfold ROL. destruct (n =? 0); [done|]. pose proof (is_u64_wrap (Z.shiftl w n)) as Hs.
  apply is_u64_bits; [apply Z.lor_nonneg; split; [apply Hs|apply Z.shiftr_nonneg; apply Hw]|].
  intros i Hi. rewrite Z.lor_spec, (is_u64_high _ _ Hs Hi), Z.shiftr_spec by lia. by apply is_u64_high; [|lia].
Qed.

Lemma ROL_bit w n z : is_u64 w → 0 ≤ n < 64 → 0 ≤ z < 64 → Z.testbit (ROL w n) z = Z.testbit w ((z - n) mod 64).
Proof.
  intros Hw Hn Hz. unfold ROL. destruct (Z.eqb_spec n 0) as [->|Hne]; [by rewrite Z.sub_0_r, Z.mod_small|].
  rewrite Z.lor_spec. unfold wrap. rewrite Z.mod_pow2_bits_low, Z.shiftl_spec, Z.shiftr_spec by lia.
  destruct (Z_lt_ge_dec z n).
  - rewrite Z.testbit_neg_r by lia. simpl. f_equal. symmetry. rewrite <-(Z.mod_add (z - n) 1), Z.mod_small by lia. lia.
  - rewrite (is_u64_high w (z + _)) by (done || lia). rewrite orb_false_r. by rewrite Z.mod_small by lia.
Qed.

(** *** The steps *)

Lemma lane_lanes f x y : (x < 5)%nat → (y < 5)%nat → lane (lanes f) x y = f x y.
Proof. intros Hx Hy. do 5 (destruct x as [|x]; [do 5 (destruct y as [|y]; [done|]); lia|]). lia. Qed.

Lemma good_lanes f : (∀ x y, (x < 5)%nat → (y < 5)%nat → is_u64 (f x y)) → good (lanes f).
Proof.
  intros H. split; [done|]. apply Forall_fmap, Forall_seq. intros j Hj. apply H; [done|].
  apply Nat.Div0.div_lt_upper_bound. lia.
Qed.

Lemma good_lane a x y : good a → (x < 5)%nat → (y < 5)%nat → is_u64 (lane a x y).
Proof.
  intros [Hl Ha] Hx Hy. unfold lane. rewrite nth_lookup.
  destruct (lookup_lt_is_Some_2 a (5 * y + x)) as [w E]; [lia|]. rewrite E. exact (Forall_lookup_1 _ _ _ _ Ha E).
Qed.

Lemma parity_u64 a x : good a → (x < 5)%nat → is_u64 (parity a x).
Proof. intros Ha Hx. unfold parity. repeat apply is_u64_lxor; apply good_lane; auto. Qed.

Lemma parity_bit a x z : Z.testbit (parity a x) z = b_parity (bits a) x z.
Proof. unfold parity, b_parity, bits. by rewrite !Z.lxor_spec. Qed.

Lemma theta_bits a : good a → good (theta a) ∧ agree (bits (theta a)) (b_theta (bits a)).
Proof.
  intros Ha. split.
  - apply good_lanes. intros x y Hx Hy. apply is_u64_lxor; [by apply good_lane|].
    apply is_u64_lxor; [by apply parity_u64|]. apply ROL_u64; [by apply parity_u64|lia].
  - intros x y z Hx Hy Hz. unfold bits at 1, theta, b_theta. rewrite lane_lanes by done.
    rewrite !Z.lxor_spec, ROL_bit, !parity_bit by (try apply parity_u64; auto; lia). done.
Qed.

Lemma rho_walk_range n t x y p o : (p, o) ∈ rho_walk n t x y → 0 ≤ o < 64.
Proof.
  revert t x y. induction n as [|n IH]; intros t x y; cbn [rho_walk]; [by intros ?%elem_of_nil|].
  intros [E|Hin]%elem_of_cons; [|by eapply IH]. injection E as _ ->.
  pose proof (Nat.mod_upper_bound ((t + 1) * (t + 2) / 2) 64). lia.
Qed.

Lemma rho_offset_range x y : 0 ≤ rho_offset x y < 64.
Proof.
  unfold rho_offset. destruct (filter _ _) as [|[p o] l] eqn:E; [done|].
  apply (rho_walk_range 24 0 1 0 p). apply (list_elem_of_filter (λ q, q.1 = (x, y))). rewrite E. left.
Qed.

Lemma rho_bits a : good a → good (rho a) ∧ agree (bits (rho a)) (b_rho (bits a)).
Proof.
  intros Ha. split.
  - apply good_lanes. intros x y Hx Hy. apply ROL_u64; [by apply good_lane|apply rho_offset_range].
  - intros x y z Hx Hy Hz. unfold bits at 1, rho. rewrite lane_lanes by done.
    apply ROL_bit; [by apply good_lane|apply rho_offset_range|done].
Qed.

Lemma pi_bits a : good a → good (pi a) ∧ agree (bits (pi a)) (b_pi (bits a)).
Proof.
  intros Ha. split.
  - apply good_lanes. intros x y Hx Hy. by apply good_lane.
  - intros x y z Hx Hy Hz. unfold bits at 1, pi. by rewrite lane_lanes.
Qed.

Lemma chi_bits a : good a → good (chi a) ∧ agree (bits (chi a)) (b_chi (bits a)).
Proof.
  intros Ha. split.
  - apply good_lanes. intros x y Hx Hy. apply is_u64_lxor; [|apply is_u64_ldiff]; by apply good_lane.
  - intros x y z Hx Hy Hz. unfold bits at 1, chi. rewrite lane_lanes, Z.lxor_spec, Z.ldiff_spec by done.
    unfold b_chi. by rewrite andb_comm.
Qed.

(** The table of round constants is the one the shift register gives. *)
Lemma rc_bits ir z : (ir < 24)%nat → 0 ≤ z < 64 → Z.testbit rc.!ir z = b_rc ir z.
Proof.
  intros Hi Hz.
  assert (forallb (λ ir, forallb (λ z, bool_decide (Z.testbit rc.!ir (Z.of_nat z) = b_rc ir (Z.of_nat z))) (seq 0 64)) (seq 0 24)
    = true) as H by (by vm_compute).
  rewrite forallb_forall in H. specialize (H ir (proj2 (in_seq 24 0 ir) ltac:(lia))).
  rewrite forallb_forall in H. specialize (H (Z.to_nat z) (proj2 (in_seq 64 0 (Z.to_nat z)) ltac:(lia))).
  apply bool_decide_eq_true in H. by rewrite Z2Nat.id in H by lia.
Qed.

Lemma rc_u64 ir : is_u64 rc.!ir.
Proof.
  assert (Forall is_u64 rc) as H by (unfold is_u64; apply (bool_decide_unpack _); by vm_compute).
  rewrite nth_lookup. destruct (rc !! ir) as [c|] eqn:E; [|done]. exact (Forall_lookup_1 _ _ _ _ H E).
Qed.

Lemma iota_bits ir a : (ir < 24)%nat → good a → good (iota rc.!ir a) ∧ agree (bits (iota rc.!ir a)) (b_iota ir (bits a)).
Proof.
  intros Hi Ha. split.
  - apply good_lanes. intros x y Hx Hy. destruct (_ && _); [apply is_u64_lxor|]; auto using good_lane, rc_u64.
  - intros x y z Hx Hy Hz. unfold bits at 1, iota, b_iota. rewrite lane_lanes by done.
    destruct (_ && _); [|done]. by rewrite Z.lxor_spec, rc_bits.
Qed.

Lemma round_bits ir a : (ir < 24)%nat → good a → good (round rc.!ir a) ∧ agree (bits (round rc.!ir a)) (b_round ir (bits a)).
Proof.
  intros Hi Ha. Local Transparent round. unfold round, b_round.
  destruct (theta_bits a Ha) as [G1 E1]. destruct (rho_bits _ G1) as [G2 E2]. destruct (pi_bits _ G2) as [G3 E3].
  destruct (chi_bits _ G3) as [G4 E4]. destruct (iota_bits ir _ Hi G4) as [G5 E5]. split; [done|].
  by rewrite E5, E4, E3, E2, E1.
Qed.

Lemma rounds_bits n ir a : (ir + n ≤ 24)%nat → good a → good (rounds n ir a) ∧ agree (bits (rounds n ir a)) (b_rounds n ir (bits a)).
Proof.
  revert ir a. induction n as [|n IH]; intros ir a Hn Ha; [done|]. simpl.
  destruct (round_bits ir a ltac:(lia) Ha) as [G E]. destruct (IH (S ir) _ ltac:(lia) G) as [G' E'].
  split; [done|]. by rewrite E', E.
Qed.

Lemma keccakF1600_good a : good a → good (keccakF1600 a).
Proof.
  intros Ha. rewrite (keccakF1600_rounds a (proj1 Ha)).
  by apply rounds_bits.
Qed.

(** C7: the unrolled in-place permutation is KECCAK-f[1600] of FIPS 202: on 25
    words of 64 bits it gives 25 words of 64 bits whose bits are those of 24
    rounds of theta, rho, pi, chi and iota of the standard. *)
Theorem keccakF1600_fips a :
  good a → good (keccakF1600 a) ∧ agree (bits (keccakF1600 a)) (keccak_f (bits a)).
Proof.
  intros Ha. unfold keccak_f. rewrite (keccakF1600_rounds a (proj1 Ha)).
  by apply rounds_bits.
Qed.

(** The permutation of the zero state, from the reference test vectors. *)
Lemma keccakF1600_fips_witness :
  good (keccakF1600 (replicate 25 0)) ∧ agree (bits (keccakF1600 (replicate 25 0))) (keccak_f (bits (replicate 25 0))) ∧
  (keccakF1600 (replicate 25 0)).!0 = 0xF1258F7940E1DDE7.
Proof.
  assert (good (replicate 25 0)) as G by (split; [done|by apply Forall_replicate]).
  destruct (keccakF1600_fips (replicate 25 0) G) as [G' E]. split; [exact G'|]. split; [exact E|]. vm_compute. reflexivity.
Defined.
