(* ===== verification/Sha3.v ===== *)
(** * The sponge of SHA-3 and Keccak (common/crypto/sha3)

    The state of a hash with its buffer, which is a slice of the array
    [storage] inside the state; Write, Read, Sum, Reset and clone; the
    constructors.  The reference is the sponge construction on whole messages:
    pad, absorb block by block, squeeze block by block. *)

From S2P Require Import Prelude Keccakf.
Local Open Scope Z_scope.
Local Open Scope lane_scope.

(** The permutation, which is assembly on amd64 and keccakf.go elsewhere. *)
Class KeccakF := {
  keccakF : list Z → list Z;
  keccakF_good a : good a → good (keccakF a)
}.

#[export] Instance keccakF_go : KeccakF := {|
  keccakF := keccakF1600;
  keccakF_good := keccakF1600_good
|}.

Definition maxRate : nat := 168.

Inductive spongeDirection := spongeAbsorbing | spongeSqueezing.

(** [s_buf] is nil or the offset and length of a slice of [s_storage]; its
    capacity extends to the end of [s_storage]. *)
Record state := MkState {
  s_a : list Z;
  s_buf : option (nat * nat);
  s_rate : nat;
  s_dsbyte : Z;
  s_storage : bytes;
  s_outputLen : nat;
  s_state : spongeDirection
}.

Definition new_state (rate outputLen : nat) (dsbyte : Z) : state :=
  MkState (replicate 25 0) None rate dsbyte (replicate maxRate 0) outputLen spongeAbsorbing.

Definition NewKeccak256 : state := new_state 136 32 0x01.
Definition NewKeccak512 : state := new_state 72 64 0x01.
Definition New224 : state := new_state 144 28 0x06.
Definition New256 : state := new_state 136 32 0x06.
Definition New384 : state := new_state 104 48 0x06.
Definition New512 : state := new_state 72 64 0x06.
Definition NewShake128 : state := new_state 168 0 0x1f.
Definition NewShake256 : state := new_state 136 0 0x1f.

Definition with_a (a : list Z) (d : state) : state :=
  MkState a (s_buf d) (s_rate d) (s_dsbyte d) (s_storage d) (s_outputLen d) (s_state d).
Definition with_buf (b : option (nat * nat)) (d : state) : state :=
  MkState (s_a d) b (s_rate d) (s_dsbyte d) (s_storage d) (s_outputLen d) (s_state d).
Definition with_storage (st : bytes) (d : state) : state :=
  MkState (s_a d) (s_buf d) (s_rate d) (s_dsbyte d) st (s_outputLen d) (s_state d).
Definition with_state (s : spongeDirection) (d : state) : state :=
  MkState (s_a d) (s_buf d) (s_rate d) (s_dsbyte d) (s_storage d) (s_outputLen d) s.

Definition BlockSize (d : state) : nat := s_rate d.
Definition Size (d : state) : nat := s_outputLen d.

Definition buf_len (d : state) : nat := match s_buf d with Some (_, n) => n | None => 0 end.
Definition buf_bytes (d : state) : bytes :=
  match s_buf d with Some (o, n) => take n (drop o (s_storage d)) | None => [] end.

Definition Reset (d : state) : state :=
  with_buf (Some (0, 0)%nat) (with_state spongeAbsorbing (with_a (replicate 25 0) d)).

Section Ops.
Context {KF : KeccakF} {E : Type}.

(** binary.LittleEndian *)
Definition Uint64 (b : bytes) : outcome E Z :=
  let* _ := b.[7%nat] in Ok (be_val (rev (take 8 b))).
Definition PutUint64 (v : Z) : bytes := rev (be_fixed 8 v).

(** xorInGeneric and copyOutGeneric. *)
Fixpoint xorIn_loop (n i : nat) (buf : bytes) (a : list Z) : outcome E (list Z) :=
  match n with
  | O => Ok a
  | S n' =>
      let* w := Uint64 buf in
      let* ai := a.[i] in
      xorIn_loop n' (S i) (drop 8 buf) (<[i := ai ⊕ w]> a)
  end.

Definition xorInGeneric (a : list Z) (buf : bytes) : outcome E (list Z) := xorIn_loop (length buf / 8) 0 buf a.

Fixpoint copyOut_loop (rounds i : nat) (b : bytes) (a : list Z) : outcome E bytes :=
  match rounds with
  | O => Ok b
  | S r =>
      if (8 <=? length b)%nat then
        let* v := a.[i] in
        let* rest := copyOut_loop r (S i) (drop 8 b) a in
        Ok (PutUint64 v ++ rest)
      else Ok b
  end.

Definition copyOutGeneric (a : list Z) (b : bytes) : outcome E bytes := copyOut_loop (length b) 0 b a.

(** xorInUnaligned: the buffer read as little-endian words. *)
Definition word_at (buf : bytes) (i : nat) : Z := be_val (rev (take 8 (drop (8 * i) buf))).

Definition xor_words (buf : bytes) (l : list nat) (a : list Z) : list Z :=
  foldl (λ a i, <[i := a.!i ⊕ word_at buf i]> a) a l.

Definition xorInUnaligned (a : list Z) (buf : bytes) : list Z :=
  let n := length buf in
  let a := if (72 <=? n)%nat then xor_words buf [0; 1; 2; 3; 4; 5; 6; 7; 8]%nat a else a in
  let a := if (104 <=? n)%nat then xor_words buf [9; 10; 11; 12]%nat a else a in
  let a := if (136 <=? n)%nat then xor_words buf [13; 14; 15; 16]%nat a else a in
  let a := if (144 <=? n)%nat then xor_words buf [17]%nat a else a in
  if (168 <=? n)%nat then xor_words buf [18; 19; 20]%nat a else a.

(** [d.buf = d.storage[:d.rate]; copyOut(d, d.buf)]. *)
Definition refill (d : state) : outcome E state :=
  let* b := (s_storage d).[0%nat : s_rate d] in
  let* out := copyOutGeneric (s_a d) b in
  Ok (with_buf (Some (0%nat, s_rate d)) (with_storage (copy_at (s_storage d) 0 out) d)).

Definition permute (d : state) : outcome E state :=
  match s_state d with
  | spongeAbsorbing =>
      let* a := xorInGeneric (s_a d) (buf_bytes d) in
      Ok (with_a (keccakF a) (with_buf (Some (0, 0)%nat) d))
  | spongeSqueezing => refill (with_a (keccakF (s_a d)) d)
  end.

Definition ensure_buf (d : state) : state :=
  match s_buf d with None => with_buf (Some (0, 0)%nat) d | Some _ => d end.

(** [d.buf = append(d.buf, p...)] within the capacity of the buffer; the buffer
    never outgrows it (Write_spec, pad_spec). *)
Definition append_buf (p : bytes) (d : state) : outcome E state :=
  match s_buf d with
  | Some (o, n) =>
      if (o + n + length p <=? length (s_storage d))%nat
      then Ok (with_buf (Some (o, n + length p)%nat) (with_storage (copy_at (s_storage d) (o + n) p) d))
      else Panic
  | None => Panic
  end.

Definition padAndPermute (dsbyte : Z) (d : state) : outcome E state :=
  let* d := append_buf [dsbyte] (ensure_buf d) in
  let zerosStart := buf_len d in
  let* b := (s_storage d).[0%nat : s_rate d] in
  let b := take zerosStart b ++ replicate (s_rate d - zerosStart) 0 in
  let* x := b.[(s_rate d - 1)%nat] in
  let b := <[(s_rate d - 1)%nat := x ⊕ 0x80]> b in
  let* d := permute (with_buf (Some (0%nat, s_rate d)) (with_storage (copy_at (s_storage d) 0 b) d)) in
  refill (with_state spongeSqueezing d).

(** The loop of Write; every iteration takes at least one byte. *)
Fixpoint write_loop (rounds : nat) (p : bytes) (d : state) : outcome E state :=
  match p, rounds with
  | [], _ => Ok d
  | _, O => Panic
  | _, S r =>
      if (buf_len d =? 0)%nat && (s_rate d <=? length p)%nat then
        let* a := xorInGeneric (s_a d) (take (s_rate d) p) in
        write_loop r (drop (s_rate d) p) (with_a (keccakF a) d)
      else
        let todo := ((s_rate d - buf_len d) `min` length p)%nat in
        let* d := append_buf (take todo p) d in
        let* d := if (buf_len d =? s_rate d)%nat then permute d else Ok d in
        write_loop r (drop todo p) d
  end.

Definition Write (p : bytes) (d : state) : outcome E (nat * state) :=
  match s_state d with
  | spongeAbsorbing =>
      let* d := write_loop (length p) p (ensure_buf d) in Ok (length p, d)
  | spongeSqueezing => Panic
  end.

(** The loop of Read for [n] more bytes of output. *)
Fixpoint read_loop (rounds n : nat) (d : state) : outcome E (bytes * state) :=
  match n, rounds with
  | O, _ => Ok ([], d)
  | _, O => Panic
  | _, S r =>
      let c := (n `min` buf_len d)%nat in
      let out := take c (buf_bytes d) in
      let d := with_buf (match s_buf d with Some (o, l) => Some (o + c, l - c)%nat | None => None end) d in
      let* d := if (buf_len d =? 0)%nat then permute d else Ok d in
      let* (rest, d) := read_loop r (n - c) d in
      Ok (out ++ rest, d)
  end.

Definition Read (n : nat) (d : state) : outcome E (bytes * state) :=
  let* d := match s_state d with
            | spongeAbsorbing => padAndPermute (s_dsbyte d) d
            | spongeSqueezing => Ok d
            end in
  read_loop n n d.

(** clone: the buffer of the copy is a slice of the copied storage, from
    [d.rate - cap(d.buf)] when squeezing. *)
Definition clone (d : state) : outcome E state :=
  match s_state d with
  | spongeAbsorbing => Ok (with_buf (Some (0%nat, buf_len d)) d)
  | spongeSqueezing =>
      let cap := match s_buf d with Some (o, _) => length (s_storage d) - o | None => 0 end%nat in
      if (cap <=? s_rate d)%nat && (s_rate d <=? length (s_storage d))%nat
      then Ok (with_buf (Some (s_rate d - cap, cap)%nat) d)
      else Panic
  end.

Definition Sum (inp : bytes) (d : state) : outcome E bytes :=
  let* dup := clone d in
  let* (hash, _) := Read (s_outputLen dup) dup in
  Ok (inp ++ hash).

(** crypto.Keccak256 *)
Definition write_all (data : list bytes) (d : state) : outcome E state :=
  oloop (λ b d, let* (_, d) := Write b d in Ok d) data d.

Definition Keccak256 (data : list bytes) : outcome E bytes :=
  let* d := write_all data NewKeccak256 in Sum [] d.

Definition Keccak512 (data : list bytes) : outcome E bytes :=
  let* d := write_all data NewKeccak512 in Sum [] d.

(** The digests of package sha3 (Sum224 .. Sum512) and ShakeSum. *)
Definition digest (h : state) (data : bytes) : outcome E bytes :=
  let* (_, h) := Write data h in Sum [] h.

Definition Sum224 : bytes → outcome E bytes := digest New224.
Definition Sum256 : bytes → outcome E bytes := digest New256.
Definition Sum384 : bytes → outcome E bytes := digest New384.
Definition Sum512 : bytes → outcome E bytes := digest New512.

Definition shake_sum (h : state) (n : nat) (data : bytes) : outcome E bytes :=
  let* (_, h) := Write data h in
  let* (out, _) := Read n h in
  Ok out.

Definition ShakeSum128 (n : nat) : bytes → outcome E bytes := shake_sum NewShake128 n.
Definition ShakeSum256 (n : nat) : bytes → outcome E bytes := shake_sum NewShake256 n.
End Ops.

(** ** The sponge construction *)

Section Sponge.
Context {KF : KeccakF}.

Definition xor_block (a : list Z) (b : bytes) : list Z :=
  let n := (length b / 8)%nat in
  map (λ i, a.!i ⊕ word_at b i) (seq 0 n) ++ drop n a.

Definition absorb_block (a : list Z) (b : bytes) : list Z := keccakF (xor_block a b).

(** The full blocks of a message and what is left. *)
Definition full_blocks (rate : nat) (msg : bytes) : list bytes :=
  map (λ i, take rate (drop (i * rate) msg)) (seq 0 (length msg / rate)).
Definition last_block (rate : nat) (msg : bytes) : bytes := drop (length msg / rate * rate) msg.

Definition absorbed (rate : nat) (msg : bytes) : list Z :=
  foldl absorb_block (replicate 25 0) (full_blocks rate msg).

(** The last block with the domain separation byte and the final bit. *)
Definition pad (rate : nat) (ds : Z) (b : bytes) : bytes :=
  let b := b ++ ds :: replicate (rate - length b - 1) 0 in
  <[(rate - 1)%nat := b.!(rate - 1) ⊕ 0x80]> b.

Definition padded (rate : nat) (ds : Z) (msg : bytes) : list Z :=
  absorb_block (absorbed rate msg) (pad rate ds (last_block rate msg)).

Definition out_block (rate : nat) (a : list Z) : bytes := concat (map PutUint64 (take (rate / 8) a)).

(** Byte [i] of the output. *)
Definition stream (rate : nat) (a : list Z) (i : nat) : Z :=
  (out_block rate (Nat.iter (i / rate) keccakF a)).!(i mod rate).

Definition sponge (rate : nat) (ds : Z) (msg : bytes) (k n : nat) : bytes :=
  map (stream rate (padded rate ds msg)) (seq k n).

(** ** Words and blocks *)

Lemma Uint64_ok {E} b : (8 ≤ length b)%nat → Uint64 (E:=E) b = Ok (word_at b 0).
Proof.
  intros H. unfold Uint64, index. destruct (lookup_lt_is_Some_2 b 7) as [x ->]; [lia|]. done.
Qed.

Lemma word_at_drop b i : word_at (drop 8 b) i = word_at b (S i).
Proof. unfold word_at. rewrite drop_drop. do 4 f_equal. lia. Qed.

Lemma word_u64 b i : Forall is_byte b → is_u64 (word_at b i).
Proof.
  intros Hb. unfold word_at. assert (Forall is_byte (rev (take 8 (drop (8 * i) b)))) as Hr.
  { by apply List.Forall_rev, Forall_take, Forall_drop. }
  pose proof (be_val_bound _ Hr) as [H0 H1]. split; [done|].
  assert (length (rev (take 8 (drop (8 * i) b))) ≤ 8)%nat by (rewrite length_rev, length_take; lia).
  eapply Z.lt_le_trans; [exact H1|]. change (2 ^ 64) with (256 ^ 8). apply Z.pow_le_mono_r; lia.
Qed.

Lemma xorIn_loop_spec {E} n i buf a :
  (8 * n ≤ length buf)%nat → (i + n ≤ length a)%nat →
  xorIn_loop (E:=E) n i buf a =
    Ok (take i a ++ map (λ j, a.!(i + j) ⊕ word_at buf j) (seq 0 n) ++ drop (i + n) a).
Proof.
  revert i buf a. induction n as [|n IH]; intros i buf a Hb Ha.
  { simpl. by rewrite Nat.add_0_r, take_drop. }
  cbn [xorIn_loop]. rewrite Uint64_ok by lia. cbn [obind].
  destruct (lookup_lt_is_Some_2 a i) as [x Hx]; [lia|]. rewrite (index_Some _ _ _ Hx). cbn [obind].
  rewrite IH by (rewrite ?length_drop, ?length_insert; lia). f_equal.
  rewrite (take_S_r (<[i:=_]> a) i (x ⊕ word_at buf 0)) by (by apply list_lookup_insert_eq; lia).
  rewrite take_insert_ge, <-app_assoc, drop_insert_lt by lia. f_equal. cbn [seq map]. rewrite Nat.add_0_r, nth_lookup, Hx.
  cbn [app default]. f_equal. rewrite <-seq_shift, map_map. f_equal; [|f_equal; lia]. apply list_fmap_ext.
  intros _ j _. rewrite word_at_drop. f_equal. rewrite !nth_lookup, list_lookup_insert_ne by lia.
  by replace (S i + j)%nat with (i + S j)%nat by lia.
Qed.

Lemma xorIn_spec {E} a buf :
  (length buf / 8 ≤ length a)%nat → xorInGeneric (E:=E) a buf = Ok (xor_block a buf).
Proof.
  intros H. unfold xorInGeneric. rewrite xorIn_loop_spec; [done| |lia].
  pose proof (Nat.div_mod_eq (length buf) 8). lia.
Qed.

Lemma xor_block_good a b : good a → Forall is_byte b → (length b ≤ 168)%nat → good (xor_block a b).
Proof.
  intros [Hl Ha] Hb Hlen. assert (length b / 8 ≤ 21)%nat by (apply Nat.Div0.div_le_upper_bound; lia).
  unfold xor_block. split.
  - rewrite length_app, length_map, length_seq, length_drop. lia.
  - apply Forall_app. split; [|by apply Forall_drop]. apply Forall_fmap, Forall_seq. intros j Hj.
    apply is_u64_lxor; [|by apply word_u64]. rewrite nth_lookup.
    destruct (lookup_lt_is_Some_2 a j) as [x E]; [lia|]. rewrite E. exact (Forall_lookup_1 _ _ _ _ Ha E).
Qed.

Lemma length_PutUint64 v : length (PutUint64 v) = 8%nat.
Proof. unfold PutUint64. by rewrite length_rev, length_be_fixed. Qed.

Lemma copyOut_loop_spec {E} rounds i b a k :
  length b = (8 * k)%nat → (k ≤ rounds)%nat → (i + k ≤ length a)%nat →
  copyOut_loop (E:=E) rounds i b a = Ok (concat (map PutUint64 (take k (drop i a)))).
Proof.
  revert i b k. induction rounds as [|r IH]; intros i b k Hb Hk Ha.
  - assert (k = 0%nat) as -> by lia. by destruct b.
  - cbn [copyOut_loop]. destruct k as [|k].
    { by destruct b. }
    assert ((8 <=? length b)%nat = true) as -> by (apply Nat.leb_le; lia).
    destruct (lookup_lt_is_Some_2 a i) as [x Hx]; [lia|]. rewrite (index_Some _ _ _ Hx). cbn [obind].
    rewrite (IH (S i) (drop 8 b) k) by (rewrite ?length_drop; lia). cbn [obind].
    by rewrite (drop_S _ _ _ Hx).
Qed.

Lemma copyOut_spec {E} a b k :
  length b = (8 * k)%nat → (k ≤ length a)%nat →
  copyOutGeneric (E:=E) a b = Ok (concat (map PutUint64 (take k a))).
Proof. intros Hb Ha. unfold copyOutGeneric. rewrite (copyOut_loop_spec _ _ _ _ k); [by rewrite drop_0|lia..]. Qed.

Lemma length_out_block rate a :
  (rate / 8 ≤ length a)%nat → length (out_block rate a) = (rate / 8 * 8)%nat.
Proof.
  intros H. unfold out_block. rewrite <-(length_take_le a (rate / 8)) at 2 by done.
  induction (take (rate / 8) a) as [|x l IH]; [done|]. cbn [map concat length]. rewrite length_app, length_PutUint64, IH. lia.
Qed.

(** *** Splitting messages *)

Lemma concat_blocks (rate : nat) (bs : list bytes) : Forall (λ b, length b = rate) bs → length (concat bs) = (length bs * rate)%nat.
Proof. induction 1 as [|b bs Hb _ IH]; [done|]. simpl. rewrite length_app, IH. lia. Qed.

Lemma blocks_unique (rate : nat) bs r :
  (0 < rate)%nat → Forall (λ b, length b = rate) bs → (length r < rate)%nat →
  full_blocks rate (concat bs ++ r) = bs ∧ last_block rate (concat bs ++ r) = r.
Proof.
  intros Hr Hbs Hl. pose proof (concat_blocks rate bs Hbs) as Hc.
  assert (length (concat bs ++ r) / rate = length bs)%nat as Hd.
  { rewrite length_app, Hc. rewrite Nat.div_add_l by lia. rewrite Nat.div_small by lia. lia. }
  unfold full_blocks, last_block. rewrite Hd. split; [|by rewrite <-Hc, drop_app_length].
  clear Hd Hc. induction Hbs as [|b bs Hb Hbs IH]; [done|]. cbn [length seq map concat]. f_equal.
  - rewrite Nat.mul_0_l, drop_0, <-app_assoc, <-Hb. apply take_app_length.
  - rewrite <-seq_shift, map_map. etrans; [|exact IH]. apply list_fmap_ext. intros _ j _.
    rewrite <-app_assoc. f_equal. replace (S j * rate)%nat with (length b + j * rate)%nat by (rewrite Hb; lia).
    by rewrite <-drop_drop, drop_app_length.
Qed.

Lemma blocks_split (rate : nat) msg : (0 < rate)%nat →
  msg = concat (full_blocks rate msg) ++ last_block rate msg ∧
  Forall (λ b, length b = rate) (full_blocks rate msg) ∧ (length (last_block rate msg) < rate)%nat.
Proof.
  intros Hr. pose proof (Nat.div_mod_eq (length msg) rate) as Hd. pose proof (Nat.mod_upper_bound (length msg) rate ltac:(lia)).
  split_and!.
  - unfold full_blocks, last_block. remember (length msg / rate)%nat as n eqn:Hn. clear Hn.
    assert (n * rate ≤ length msg)%nat as Hle by lia. clear -Hle.
    assert (concat (map (λ i, take rate (drop (i * rate) msg)) (seq 0 n)) = take (n * rate) msg) as ->; [|by rewrite take_drop].
    induction n as [|n IH]; [done|]. rewrite seq_S, map_app, concat_app, IH by lia. simpl. rewrite app_nil_r.
    by rewrite take_take_drop, Nat.add_comm.
  - apply Forall_fmap, Forall_seq. intros j Hj. simpl. rewrite length_take, length_drop.
    assert (S j * rate ≤ length msg / rate * rate)%nat by (apply Nat.mul_le_mono_r; lia). lia.
  - unfold last_block. rewrite length_drop. lia.
Qed.

Lemma absorbed_full (rate : nat) msg p :
  (0 < rate)%nat → (length (last_block rate msg) + length p = rate)%nat →
  absorbed rate (msg ++ p) = absorb_block (absorbed rate msg) (last_block rate msg ++ p) ∧ last_block rate (msg ++ p) = [].
Proof.
  intros Hr Hp. destruct (blocks_split rate msg Hr) as (E & Hb & _).
  destruct (blocks_unique rate (full_blocks rate msg ++ [last_block rate msg ++ p]) [] Hr) as [E1 E2].
  { apply Forall_app. split; [done|]. apply Forall_singleton. rewrite length_app. lia. }
  { simpl; lia. }
  rewrite concat_app in E1, E2. simpl in E1, E2. rewrite !app_nil_r, app_assoc, <-E in E1, E2.
  unfold absorbed. rewrite E1, foldl_app. done.
Qed.

Lemma absorbed_part (rate : nat) msg p :
  (0 < rate)%nat → (length (last_block rate msg) + length p < rate)%nat →
  absorbed rate (msg ++ p) = absorbed rate msg ∧ last_block rate (msg ++ p) = last_block rate msg ++ p.
Proof.
  intros Hr Hp. destruct (blocks_split rate msg Hr) as (E & Hb & _).
  destruct (blocks_unique rate (full_blocks rate msg) (last_block rate msg ++ p) Hr Hb) as [E1 E2].
  { rewrite length_app. lia. }
  rewrite app_assoc, <-E in E1, E2. unfold absorbed. by rewrite E1.
Qed.

(** ** The state of a hash *)

(** What every state of the package has. *)
Definition conf_ok (d : state) : Prop :=
  (0 < s_rate d)%nat ∧ (s_rate d / 8 * 8 = s_rate d)%nat ∧ (s_rate d ≤ maxRate)%nat ∧
  length (s_storage d) = maxRate ∧ is_byte (s_dsbyte d) ∧ good (s_a d).

(** [d] has absorbed [msg]. *)
Definition absorbing (d : state) (msg : bytes) : Prop :=
  s_state d = spongeAbsorbing ∧ conf_ok d ∧ Forall is_byte msg ∧
  s_a d = absorbed (s_rate d) msg ∧ buf_bytes d = last_block (s_rate d) msg ∧
  (s_buf d = Some (0%nat, length (last_block (s_rate d) msg)) ∨ s_buf d = None).

(** [d] has absorbed [msg] and given [k] bytes of output. *)
Definition squeezing (d : state) (msg : bytes) (k : nat) : Prop :=
  s_state d = spongeSqueezing ∧ conf_ok d ∧
  s_a d = Nat.iter (k / s_rate d) keccakF (padded (s_rate d) (s_dsbyte d) msg) ∧
  s_buf d = Some (k mod s_rate d, s_rate d - k mod s_rate d)%nat ∧
  take (s_rate d) (s_storage d) = out_block (s_rate d) (s_a d).

(** What stays the same. *)
Definition same_conf (d d' : state) : Prop :=
  s_rate d' = s_rate d ∧ s_dsbyte d' = s_dsbyte d ∧ s_outputLen d' = s_outputLen d.

Lemma last_block_byte rate msg : Forall is_byte msg → Forall is_byte (last_block rate msg).
Proof. apply Forall_drop. Qed.

Lemma absorbing_buf_len d msg : absorbing d msg → buf_len d = length (last_block (s_rate d) msg).
Proof.
  intros (_ & _ & _ & _ & Hb & Hs). unfold buf_len, buf_bytes in *.
  destruct Hs as [Hs|Hs]; rewrite Hs in *; [done|]. by rewrite <-Hb.
Qed.

Lemma ensure_buf_ok d msg :
  absorbing d msg → absorbing (ensure_buf d) msg ∧ same_conf d (ensure_buf d) ∧
  s_buf (ensure_buf d) = Some (0%nat, length (last_block (s_rate d) msg)).
Proof.
  intros H. pose proof H as (Hs & Hc & Hm & Ha & Hb & Hbuf). unfold ensure_buf.
  destruct Hbuf as [E|E]; rewrite E; [by split_and!|]. unfold buf_bytes in Hb. rewrite E in Hb.
  unfold absorbing, conf_ok, buf_bytes, same_conf in *. cbn. rewrite <-Hb. split_and!; try done; try apply Hc; by left.
Qed.

(** Appending to the buffer. *)
Lemma append_ok {E} d msg p :
  absorbing d msg → s_buf d = Some (0%nat, length (last_block (s_rate d) msg)) →
  (length (last_block (s_rate d) msg) + length p ≤ s_rate d)%nat →
  let st := copy_at (s_storage d) (length (last_block (s_rate d) msg)) p in
  append_buf (E:=E) p d =
    Ok (with_buf (Some (0%nat, length (last_block (s_rate d) msg) + length p)%nat) (with_storage st d)) ∧
  length st = maxRate ∧ take (length (last_block (s_rate d) msg) + length p) st = last_block (s_rate d) msg ++ p.
Proof.
  intros (_ & Hc & _ & _ & Hb & _) Hbuf Hp st. destruct Hc as (_ & _ & Hr & Hst & _).
  unfold buf_bytes in Hb. rewrite Hbuf in Hb. rewrite drop_0 in Hb. unfold append_buf. rewrite Hbuf. cbn [Nat.add].
  set (l := length (last_block (s_rate d) msg)) in *. split_and!.
  - destruct (Nat.leb_spec (l + length p) (length (s_storage d))); [done|lia].
  - unfold st. rewrite length_copy_at; lia.
  - unfold st, copy_at. rewrite Hb, (take_ge p), app_assoc by lia. apply take_app_length'. by rewrite length_app.
Qed.

Lemma full_good a b rate :
  good a → Forall is_byte b → length b = rate → (rate ≤ maxRate)%nat → good (absorb_block a b).
Proof. intros Ha Hb Hl Hr. apply keccakF_good, xor_block_good; [done..|]. unfold maxRate in Hr. lia. Qed.

Lemma div8_le rate : (rate ≤ maxRate)%nat → (rate / 8 ≤ 25)%nat.
Proof. unfold maxRate. intros H. apply Nat.Div0.div_le_upper_bound. lia. Qed.

(** The two branches of Write. *)
Lemma write_fast {E} d msg p :
  absorbing d msg → s_buf d = Some (0%nat, length (last_block (s_rate d) msg)) → last_block (s_rate d) msg = [] →
  Forall is_byte p → length p = s_rate d →
  xorInGeneric (E:=E) (s_a d) p = Ok (xor_block (s_a d) p) ∧
  let d' := with_a (absorb_block (s_a d) p) d in
  absorbing d' (msg ++ p) ∧ same_conf d d' ∧ s_buf d' = Some (0%nat, length (last_block (s_rate d) (msg ++ p))).
Proof.
  intros (Hs & Hc & Hm & Ha & Hb & _) Hbuf Hl Hp Hlen. destruct Hc as (Hr0 & Hr8 & Hr & Hst & Hds & Hg).
  split; [apply xorIn_spec; rewrite Hlen, (proj1 Hg); by apply div8_le|].
  destruct (absorbed_full (s_rate d) msg p Hr0) as [E1 E2]; [rewrite Hl; simpl; lia|]. rewrite Hl in E1, Hbuf, Hb.
  unfold absorbing, conf_ok, same_conf, buf_bytes in *. cbn. rewrite E1, E2, Hbuf, Ha in *.
  split_and!; try done; [eapply full_good; done|by apply Forall_app|by left].
Qed.

Lemma write_slow {E} d msg p :
  absorbing d msg → s_buf d = Some (0%nat, length (last_block (s_rate d) msg)) →
  Forall is_byte p → (length (last_block (s_rate d) msg) + length p ≤ s_rate d)%nat →
  ∃ d', (let* d := append_buf (E:=E) p d in if (buf_len d =? s_rate d)%nat then permute d else Ok d) = Ok d' ∧
    absorbing d' (msg ++ p) ∧ same_conf d d' ∧ s_buf d' = Some (0%nat, length (last_block (s_rate d) (msg ++ p))).
Proof.
  intros H Hbuf Hp Hlen. destruct (append_ok (E:=E) d msg p H Hbuf Hlen) as (-> & Hl & Ht).
  set (l := length (last_block (s_rate d) msg)) in *. set (st := copy_at _ _ _) in *.
  destruct H as (Hs & Hc & Hm & Ha & Hb & _). destruct Hc as (Hr0 & Hr8 & Hr & Hst & Hds & Hg).
  cbn [obind]. unfold buf_len. cbn [s_buf with_buf with_storage s_rate].
  destruct (Nat.eqb_spec (l + length p) (s_rate d)) as [Heq|Hne].
  - unfold permute, buf_bytes. cbn [s_state with_buf with_storage s_buf s_storage s_a]. rewrite Hs, drop_0, Ht.
    rewrite xorIn_spec by (rewrite length_app; fold l; rewrite Heq, (proj1 Hg); by apply div8_le).
    cbn [obind]. eexists. split; [done|]. destruct (absorbed_full (s_rate d) msg p Hr0 Heq) as [E1 E2].
    unfold absorbing, conf_ok, same_conf, buf_bytes. cbn. rewrite E1, E2, Ha. rewrite Ha in Hg.
    split_and!; try done; [|by apply Forall_app|by left].
    eapply full_good; [done|by apply Forall_app; split; [apply last_block_byte|]|by rewrite length_app|done].
  - eexists. split; [done|]. destruct (absorbed_part (s_rate d) msg p Hr0 ltac:(lia)) as [E1 E2].
    unfold absorbing, conf_ok, same_conf, buf_bytes. cbn. rewrite drop_0, E1, E2, Ht, length_app. fold l.
    split_and!; try done; [by apply Forall_app|by left].
Qed.

Lemma same_conf_trans d1 d2 d3 : same_conf d1 d2 → same_conf d2 d3 → same_conf d1 d3.
Proof. unfold same_conf. intuition congruence. Qed.

Lemma write_loop_spec {E} rounds d msg p :
  absorbing d msg → s_buf d = Some (0%nat, length (last_block (s_rate d) msg)) →
  Forall is_byte p → (length p ≤ rounds)%nat →
  ∃ d', write_loop (E:=E) rounds p d = Ok d' ∧ absorbing d' (msg ++ p) ∧ same_conf d d'.
Proof.
  revert d msg p. induction rounds as [|r IH]; intros d msg p H Hbuf Hp Hl.
  { destruct p; [|simpl in Hl; lia]. exists d. rewrite app_nil_r. by split_and!. }
  destruct p as [|x p']; [exists d; rewrite app_nil_r; by split_and!|].
  pose proof (absorbing_buf_len d msg H) as Hbl. pose proof H as (_ & (Hr0 & _) & _).
  destruct (blocks_split (s_rate d) msg Hr0) as (_ & _ & Hlt). cbn [write_loop]. set (p := x :: p') in *.
  assert (0 < length p)%nat as Hp0 by (simpl; lia).
  destruct ((buf_len d =? 0)%nat && (s_rate d <=? length p)%nat) eqn:Ef.
  - apply andb_prop in Ef as [E0%Nat.eqb_eq E1%Nat.leb_le]. rewrite Hbl in E0. apply nil_length_inv in E0.
    destruct (write_fast (E:=E) d msg (take (s_rate d) p) H Hbuf E0 (Forall_take _ _ _ Hp)) as (-> & H' & Hsc & Hbuf');
      [rewrite length_take; lia|]. cbn [obind]. fold (absorb_block (s_a d) (take (s_rate d) p)).
    destruct (IH _ _ (drop (s_rate d) p) H' Hbuf' (Forall_drop _ _ _ Hp)) as (d' & -> & Hd' & Hsc'); [rewrite length_drop; lia|].
    exists d'. rewrite <-app_assoc, take_drop in Hd'. by split_and!.
  - rewrite Hbl. set (todo := ((s_rate d - length (last_block (s_rate d) msg)) `min` length p)%nat).
    destruct (write_slow (E:=E) d msg (take todo p) H Hbuf (Forall_take _ _ _ Hp)) as (d1 & E1 & H1 & Hsc & Hbuf1);
      [rewrite length_take; lia|].
    apply obind_Ok in E1 as (d0 & -> & E1). cbn [obind]. rewrite E1. cbn [obind].
    rewrite <-(proj1 Hsc) in Hbuf1.
    destruct (IH _ _ (drop todo p) H1 Hbuf1 (Forall_drop _ _ _ Hp)) as (d' & -> & Hd' & Hsc'); [rewrite length_drop; lia|].
    exists d'. rewrite <-app_assoc, take_drop in Hd'. split_and!; [done..|]. by eapply same_conf_trans.
Qed.

Lemma Write_spec {E} d msg p :
  absorbing d msg → Forall is_byte p →
  ∃ d', Write (E:=E) p d = Ok (length p, d') ∧ absorbing d' (msg ++ p) ∧ same_conf d d'.
Proof.
  intros H Hp. unfold Write. pose proof H as (-> & _). destruct (ensure_buf_ok d msg H) as (H' & Hsc & Hbuf).
  rewrite <-(proj1 Hsc) in Hbuf.
  destruct (write_loop_spec (E:=E) (length p) (ensure_buf d) msg p H' Hbuf Hp) as (d' & -> & Hd' & Hsc'); [lia|].
  exists d'. split_and!; [done..|]. by eapply same_conf_trans.
Qed.

Lemma writes_absorb {E} data d msg :
  absorbing d msg → Forall (Forall is_byte) data →
  ∃ d', write_all (E:=E) data d = Ok d' ∧ absorbing d' (msg ++ concat data) ∧ same_conf d d'.
Proof.
  revert d msg. induction data as [|p data IH]; intros d msg H Hd.
  { exists d. rewrite app_nil_r. by split_and!. }
  apply Forall_cons in Hd as [Hp Hd]. destruct (Write_spec (E:=E) d msg p H Hp) as (d1 & E1 & H1 & Hsc1).
  destruct (IH d1 (msg ++ p) H1 Hd) as (d2 & E2 & H2 & Hsc2). exists d2. unfold write_all in *. cbn [oloop]. rewrite E1. cbn [obind].
  rewrite <-app_assoc in H2. split_and!; [done..|]. by eapply same_conf_trans.
Qed.

(** *** Reading *)

Lemma refill_spec {E} d :
  conf_ok d →
  refill (E:=E) d = Ok (with_buf (Some (0%nat, s_rate d)) (with_storage (copy_at (s_storage d) 0 (out_block (s_rate d) (s_a d))) d)) ∧
  length (copy_at (s_storage d) 0 (out_block (s_rate d) (s_a d))) = maxRate ∧
  take (s_rate d) (copy_at (s_storage d) 0 (out_block (s_rate d) (s_a d))) = out_block (s_rate d) (s_a d).
Proof.
  intros (Hr0 & Hr8 & Hr & Hst & Hds & Hg). pose proof (div8_le _ Hr) as H8.
  assert (length (out_block (s_rate d) (s_a d)) = s_rate d) as Hl by (rewrite length_out_block; [done|rewrite (proj1 Hg); lia]).
  split_and!.
  - unfold refill. rewrite slice_Ok by lia. cbn [obind].
    rewrite (copyOut_spec _ _ (s_rate d / 8)); [done| |rewrite (proj1 Hg); lia].
    rewrite drop_0, Nat.sub_0_r, length_take. lia.
  - rewrite length_copy_at; lia.
  - unfold copy_at. rewrite take_0, Nat.sub_0_r. cbn [app]. rewrite (take_ge (out_block _ _)) by lia. by apply take_app_length'.
Qed.

Lemma refill_squeezing {E} d msg k :
  s_state d = spongeSqueezing → conf_ok d → (k mod s_rate d = 0)%nat →
  s_a d = Nat.iter (k / s_rate d) keccakF (padded (s_rate d) (s_dsbyte d) msg) →
  ∃ d', refill (E:=E) d = Ok d' ∧ squeezing d' msg k ∧ same_conf d d'.
Proof.
  intros Hs Hc Hk Ha. destruct (refill_spec (E:=E) d Hc) as (-> & H1 & H2). eexists. split; [done|].
  revert H1 H2. generalize (copy_at (s_storage d) 0 (out_block (s_rate d) (s_a d))). intros st H1 H2.
  destruct Hc as (? & ? & ? & ? & ? & ?). unfold squeezing, conf_ok. cbn [s_state s_a s_buf s_rate s_dsbyte s_storage with_buf with_storage].
  rewrite Hk, Nat.sub_0_r. by split_and!.
Qed.

Lemma pad_length rate ds b : (length b < rate)%nat → length (pad rate ds b) = rate.
Proof. intros H. unfold pad. rewrite length_insert, length_app. cbn [length]. rewrite length_replicate. lia. Qed.

Lemma pad_byte rate ds b : is_byte ds → Forall is_byte b → Forall is_byte (pad rate ds b).
Proof.
  intros Hds Hb. unfold pad. set (l := b ++ _).
  assert (Forall is_byte l) as Hl.
  { apply Forall_app. split; [done|]. constructor; [done|]. by apply Forall_replicate. }
  apply Forall_insert; [done|]. assert (is_byte l.!(rate - 1)) as Hx.
  { rewrite nth_lookup. destruct (l !! _) as [x|] eqn:E; [exact (Forall_lookup_1 _ _ _ _ Hl E)|done]. }
  unfold is_byte in *. split; [apply Z.lxor_nonneg; lia|].
  destruct (Z.eq_dec (l.!(rate - 1) ⊕ 0x80) 0) as [->|]; [lia|].
  change 256 with (2 ^ 8). apply Z.log2_lt_pow2; [pose proof (proj2 (Z.lxor_nonneg l.!(rate - 1) 0x80)); lia|].
  eapply Z.le_lt_trans; [apply Z.log2_lxor; lia|]. apply Z.max_lub_lt; [|done].
  destruct (Z.eq_dec l.!(rate - 1) 0) as [->|]; [done|]. apply Z.log2_lt_pow2; lia.
Qed.

Lemma pad_spec {E} d msg :
  absorbing d msg → ∃ d', padAndPermute (E:=E) (s_dsbyte d) d = Ok d' ∧ squeezing d' msg 0 ∧ same_conf d d'.
Proof.
  intros H0. destruct (ensure_buf_ok d msg H0) as (H & Hsc & Hbuf). rewrite <-(proj1 Hsc) in Hbuf.
  unfold padAndPermute. rewrite <-(proj1 (proj2 Hsc)). revert H Hbuf. generalize dependent (ensure_buf d). clear H0. intros d0 Hsc H Hbuf.
  pose proof H as (Hs & (Hr0 & Hr8 & Hr & Hst & Hds & Hg) & Hm & Ha & _).
  destruct (blocks_split (s_rate d0) msg Hr0) as (_ & _ & Hlt).
  destruct (append_ok (E:=E) d0 msg [s_dsbyte d0] H Hbuf) as (-> & Hl & Ht); [simpl; lia|].
  set (lb := last_block (s_rate d0) msg) in *. set (st := copy_at _ _ _) in *. cbn [obind].
  unfold buf_len. cbn [s_buf with_buf with_storage s_rate s_storage length] in Ht |- *.
  rewrite slice_Ok by lia. cbn [obind]. rewrite drop_0, Nat.sub_0_r, take_take, Nat.min_l, Ht by (simpl; lia).
  replace (s_rate d0 - (length lb + 1))%nat with (s_rate d0 - length lb - 1)%nat by lia. rewrite <-app_assoc. cbn [app].
  set (b := lb ++ s_dsbyte d0 :: replicate (s_rate d0 - length lb - 1) 0).
  assert (length b = s_rate d0) as Hlb by (unfold b; rewrite length_app; cbn [length]; rewrite length_replicate; lia).
  destruct (lookup_lt_is_Some_2 b (s_rate d0 - 1)) as [x Hx]; [lia|]. rewrite (index_Some _ _ _ Hx). cbn [obind].
  assert (<[(s_rate d0 - 1)%nat := x ⊕ 128]> b = pad (s_rate d0) (s_dsbyte d0) lb) as ->.
  { unfold pad. fold b. by rewrite nth_lookup, Hx. }
  pose proof (pad_length (s_rate d0) (s_dsbyte d0) lb Hlt) as Hpl.
  unfold permute, buf_bytes. cbn [s_state with_buf with_storage s_buf s_storage s_a]. rewrite Hs, drop_0.
  assert (take (s_rate d0) (copy_at st 0 (pad (s_rate d0) (s_dsbyte d0) lb)) = pad (s_rate d0) (s_dsbyte d0) lb) as ->.
  { unfold copy_at. rewrite take_0, Nat.sub_0_r. cbn [app]. rewrite (take_ge (pad _ _ _)) by lia. by apply take_app_length'. }
  rewrite xorIn_spec by (rewrite Hpl, (proj1 Hg); by apply div8_le). cbn [obind].
  set (d1 := with_state _ _).
  assert (conf_ok d1) as Hc1.
  { unfold conf_ok, d1. cbn. split_and!; try done; [rewrite length_copy_at; lia|].
    apply (full_good _ _ (s_rate d0)); [done|apply pad_byte; [done|by apply last_block_byte]|done..]. }
  destruct (refill_squeezing (E:=E) d1 msg 0) as (d' & -> & Hd' & Hsc'); [done|done|apply Nat.Div0.mod_0_l| |].
  - rewrite Nat.Div0.div_0_l. unfold d1, padded, absorb_block. cbn [s_a with_state with_a s_rate s_dsbyte with_buf with_storage Nat.iter nat_rect].
    by rewrite Ha.
  - exists d'. split_and!; [done..|]. eapply same_conf_trans; [exact Hsc|]. exact Hsc'.
Qed.

(** A part of one block of output. *)
Lemma stream_block rate a k c :
  (0 < rate)%nat → (k mod rate + c ≤ rate)%nat →
  (∀ b, length (out_block rate (Nat.iter b keccakF a)) = rate) →
  take c (drop (k mod rate) (out_block rate (Nat.iter (k / rate) keccakF a))) = map (stream rate a) (seq k c).
Proof.
  intros Hr Hc Hl. apply list_eq_same_length with c.
  - by rewrite length_map, length_seq.
  - rewrite length_take, length_drop, Hl. lia.
  - intros i x y Hi. rewrite lookup_take_lt, lookup_drop by lia. intros Hx Hy.
    apply list_lookup_fmap_Some in Hy as (j & -> & Hj). apply lookup_seq in Hj as [-> _]. unfold stream.
    assert (k + i = rate * (k / rate) + (k mod rate + i))%nat as E by (pose proof (Nat.div_mod_eq k rate); lia).
    rewrite <-(Nat.div_unique (k + i) rate (k / rate) (k mod rate + i)) by lia.
    rewrite <-(Nat.mod_unique (k + i) rate (k / rate) (k mod rate + i)) by lia.
    by rewrite nth_lookup, Hx.
Qed.

Lemma iter_good n a : good a → good (Nat.iter n keccakF a).
Proof. intros H. induction n; [done|]. simpl. by apply keccakF_good. Qed.

Lemma padded_good rate ds msg :
  (0 < rate)%nat → (rate ≤ maxRate)%nat → is_byte ds → Forall is_byte msg → good (absorbed rate msg) → good (padded rate ds msg).
Proof.
  intros Hr Hr' Hds Hm Ha. destruct (blocks_split rate msg Hr) as (_ & _ & Hl).
  eapply full_good; [done|apply pad_byte; [done|by apply last_block_byte]|by apply pad_length|done].
Qed.

Lemma squeezing_block d msg k b :
  squeezing d msg k → good (padded (s_rate d) (s_dsbyte d) msg) →
  length (out_block (s_rate d) (Nat.iter b keccakF (padded (s_rate d) (s_dsbyte d) msg))) = s_rate d.
Proof.
  intros (_ & (_ & Hr8 & Hr & _) & _) Hg. rewrite length_out_block; [done|].
  rewrite (proj1 (iter_good b _ Hg)). by apply div8_le.
Qed.

(** One iteration of the loop of Read. *)
Lemma read_step {E} d msg k c :
  squeezing d msg k → good (padded (s_rate d) (s_dsbyte d) msg) → (k mod s_rate d + c ≤ s_rate d)%nat →
  take c (buf_bytes d) = sponge (s_rate d) (s_dsbyte d) msg k c ∧
  ∃ d', (let d := with_buf (match s_buf d with Some (o, l) => Some (o + c, l - c)%nat | None => None end) d in
         if (buf_len d =? 0)%nat then permute (E:=E) d else Ok d) = Ok d' ∧ squeezing d' msg (k + c) ∧ same_conf d d'.
Proof.
  intros H Hg Hc. pose proof (λ b, squeezing_block d msg k b H Hg) as Hlen.
  destruct H as (Hs & Hconf & Ha & Hbuf & Hst). pose proof Hconf as (Hr0 & Hr8 & Hr & Hlst & Hds & Hga).
  pose proof (Nat.mod_upper_bound k (s_rate d) ltac:(lia)) as Hk. split.
  - unfold buf_bytes. rewrite Hbuf. unfold sponge. rewrite <-stream_block by done.
    rewrite <-Ha, <-Hst, take_take, Nat.min_l by lia. rewrite skipn_firstn_comm, take_take. by rewrite Nat.min_l by lia.
  - cbn zeta. rewrite Hbuf. unfold buf_len. cbn [s_buf with_buf].
    destruct (Nat.eqb_spec (s_rate d - k mod s_rate d - c) 0) as [E0|E0].
    + assert (k + c = s_rate d * S (k / s_rate d))%nat as Ek by (pose proof (Nat.div_mod_eq k (s_rate d)); lia).
      unfold permute. cbn [s_state with_buf]. rewrite Hs.
      set (d1 := with_a _ _). destruct (refill_squeezing (E:=E) d1 msg (k + c)) as (d' & -> & Hd' & Hsc).
      * done.
      * unfold conf_ok, d1. cbn [s_a s_rate s_dsbyte s_storage with_a with_buf]. split_and!; try done. by apply keccakF_good.
      * change (s_rate d1) with (s_rate d). rewrite Ek, Nat.mul_comm. apply Nat.Div0.mod_mul.
      * change (s_rate d1) with (s_rate d). rewrite Ek, Nat.mul_comm, Nat.div_mul by lia. cbn. by rewrite Ha.
      * exists d'. by split_and!.
    + eexists. split; [done|]. split; [|done]. unfold squeezing. cbn [s_state s_a s_buf s_rate s_dsbyte s_storage with_buf].
      assert (k + c = s_rate d * (k / s_rate d) + (k mod s_rate d + c))%nat as Ek by (pose proof (Nat.div_mod_eq k (s_rate d)); lia).
      rewrite <-(Nat.div_unique (k + c) (s_rate d) (k / s_rate d) (k mod s_rate d + c)) by lia.
      rewrite <-(Nat.mod_unique (k + c) (s_rate d) (k / s_rate d) (k mod s_rate d + c)) by lia.
      split_and!; try done. do 2 f_equal. lia.
Qed.

Lemma read_loop_spec {E} rounds n d msg k :
  squeezing d msg k → good (padded (s_rate d) (s_dsbyte d) msg) → (n ≤ rounds)%nat →
  ∃ d', read_loop (E:=E) rounds n d = Ok (sponge (s_rate d) (s_dsbyte d) msg k n, d') ∧ squeezing d' msg (k + n) ∧ same_conf d d'.
Proof.
  revert n d k. induction rounds as [|r IH]; intros n d k H Hg Hn.
  { assert (n = 0%nat) as -> by lia. exists d. rewrite Nat.add_0_r. by split_and!. }
  destruct n as [|n']; [exists d; rewrite Nat.add_0_r; by split_and!|]. cbn [read_loop]. set (n := S n') in *.
  pose proof H as (_ & (Hr0 & _) & _ & Hbuf & _). pose proof (Nat.mod_upper_bound k (s_rate d) ltac:(lia)) as Hk.
  assert (buf_len d = s_rate d - k mod s_rate d)%nat as Hbl by (unfold buf_len; by rewrite Hbuf).
  rewrite Hbl. set (c := (n `min` _)%nat).
  destruct (read_step (E:=E) d msg k c H Hg ltac:(lia)) as (-> & d1 & E1 & H1 & Hsc). cbn zeta in E1. rewrite E1. cbn [obind].
  destruct Hsc as (Er & Ed & Eo). rewrite <-Er, <-Ed in Hg.
  destruct (IH (n - c)%nat d1 (k + c)%nat H1 Hg ltac:(lia)) as (d2 & -> & H2 & Hsc2). cbn [obind].
  exists d2. rewrite Er, Ed. unfold sponge. rewrite <-map_app, <-seq_app.
  replace (c + (n - c))%nat with n by lia. replace (k + c + (n - c))%nat with (k + n)%nat in H2 by lia.
  split_and!; [done..|]. by eapply same_conf_trans.
Qed.

Lemma absorbing_padded d msg : absorbing d msg → good (padded (s_rate d) (s_dsbyte d) msg).
Proof.
  intros (_ & (Hr0 & _ & Hr & _ & Hds & Hg) & Hm & Ha & _). apply padded_good; [done..|by rewrite <-Ha].
Qed.

Lemma Read_spec {E} d msg n :
  absorbing d msg →
  ∃ d', Read (E:=E) n d = Ok (sponge (s_rate d) (s_dsbyte d) msg 0 n, d') ∧ squeezing d' msg n ∧ same_conf d d'.
Proof.
  intros H. unfold Read. pose proof H as (-> & _). destruct (pad_spec (E:=E) d msg H) as (d1 & -> & H1 & Hsc). cbn [obind].
  pose proof (absorbing_padded d msg H) as Hg. pose proof Hsc as (Er & Ed & Eo). rewrite <-Er, <-Ed in Hg |- *.
  destruct (read_loop_spec (E:=E) n n d1 msg 0 H1 Hg ltac:(lia)) as (d2 & -> & H2 & Hsc2).
  exists d2. split_and!; [done..|]. by eapply same_conf_trans.
Qed.

Lemma Sum_spec {E} d msg inp :
  absorbing d msg → Sum (E:=E) inp d = Ok (inp ++ sponge (s_rate d) (s_dsbyte d) msg 0 (s_outputLen d)).
Proof.
  intros H. unfold Sum, clone. pose proof H as (Hs & Hc & Hm & Ha & Hb & Hbuf). rewrite Hs. cbn [obind].
  set (dup := with_buf _ d). assert (absorbing dup msg) as Hd.
  { unfold absorbing, dup, buf_bytes. cbn [s_state s_a s_buf s_rate s_dsbyte s_storage with_buf].
    pose proof (absorbing_buf_len d msg H) as Hl. rewrite Hl. split_and!; try done; [|by left].
    unfold buf_bytes in Hb. destruct Hbuf as [E1|E1]; rewrite E1 in Hb; [done|]. by rewrite <-Hb. }
  destruct (Read_spec (E:=E) dup msg (s_outputLen dup) Hd) as (d' & -> & _). done.
Qed.

Lemma sponge_length rate ds msg k n : length (sponge rate ds msg k n) = n.
Proof. unfold sponge. by rewrite length_map, length_seq. Qed.

Lemma sponge_byte rate ds msg k n : Forall is_byte (sponge rate ds msg k n).
Proof.
  unfold sponge. apply Forall_fmap, Forall_seq. intros j _. unfold compose, stream. rewrite nth_lookup.
  destruct (out_block _ _ !! _) as [b|] eqn:E; [|done].
  apply (Forall_lookup_1 is_byte) in E; [done|]. unfold out_block. apply Forall_concat, Forall_fmap, Forall_true.
  intros v. apply List.Forall_rev, be_fixed_byte.
Qed.

(** The states the constructors give. *)
Lemma new_absorbing rate outputLen ds :
  (0 < rate)%nat → (rate / 8 * 8 = rate)%nat → (rate ≤ maxRate)%nat → is_byte ds → absorbing (new_state rate outputLen ds) [].
Proof.
  intros Hr0 Hr8 Hr Hds. unfold absorbing, conf_ok, new_state, absorbed, last_block, full_blocks, buf_bytes.
  cbn [s_state s_a s_buf s_rate s_dsbyte s_storage length drop]. rewrite drop_nil, Nat.Div0.div_0_l. cbn [seq map foldl].
  split_and!; try done; [|by right]. split; [done|]. by apply Forall_replicate.
Qed.
End Sponge.

(** ** The hashes of the package *)

Definition constructors : list state :=
  [NewKeccak256; NewKeccak512; New224; New256; New384; New512; NewShake128; NewShake256].

Lemma constructors_absorbing {KF : KeccakF} d0 : d0 ∈ constructors → absorbing d0 [].
Proof.
  unfold constructors. rewrite !elem_of_cons, elem_of_nil.
  intros [->|[->|[->|[->|[->|[->|[->|[->|[]]]]]]]]]; by apply new_absorbing; try (unfold maxRate; lia).
Qed.

(** C8: hashing is independent of how the data is cut into writes: for every
    hash of the package, Write never fails while absorbing, and Sum appends the
    sponge of the concatenation of everything written. *)
Theorem Sum_of_writes d0 data inp :
  d0 ∈ constructors → Forall (Forall is_byte) data →
  ∃ d, write_all (E:=unit) data d0 = Ok d ∧
    Sum (E:=unit) inp d = Ok (inp ++ sponge (s_rate d0) (s_dsbyte d0) (concat data) 0 (s_outputLen d0)).
Proof.
  intros Hd Hb. destruct (writes_absorb (E:=unit) data d0 [] (constructors_absorbing _ Hd) Hb) as (d & E & Ha & Er & Ed & Eo).
  exists d. split; [done|]. rewrite (Sum_spec d _ inp Ha). by rewrite Er, Ed, Eo.
Qed.

(** The digest of the empty string, written as two empty slices. *)
Lemma Sum_of_writes_witness :
  ∃ d, write_all (E:=unit) [[]; []] NewKeccak256 = Ok d ∧
    Sum (E:=unit) [] d = Ok
      [0xc5; 0xd2; 0x46; 0x01; 0x86; 0xf7; 0x23; 0x3c; 0x92; 0x7e; 0x7d; 0xb2; 0xdc; 0xc7; 0x03; 0xc0;
       0xe5; 0x00; 0xb6; 0x53; 0xca; 0x82; 0x27; 0x3b; 0x7b; 0xfa; 0xd8; 0x04; 0x5d; 0x85; 0xa4; 0x70].
Proof.
  destruct (Sum_of_writes NewKeccak256 [[]; []] []) as (d & E1 & E2).
  - left.
  - by repeat constructor.
  - exists d. split; [exact E1|]. rewrite E2. vm_compute. reflexivity.
Defined.

(** Consecutive reads. *)
Fixpoint read_all {KF : KeccakF} {E} (ns : list nat) (d : state) : outcome E (bytes * state) :=
  match ns with
  | [] => Ok ([], d)
  | n :: ns' =>
      let* (out, d) := Read n d in
      let* (rest, d) := read_all ns' d in
      Ok (out ++ rest, d)
  end.

Lemma read_all_squeezing {KF : KeccakF} {E} ns d msg k :
  squeezing d msg k → good (padded (s_rate d) (s_dsbyte d) msg) →
  ∃ d', read_all (E:=E) ns d = Ok (sponge (s_rate d) (s_dsbyte d) msg k (sum_list ns), d') ∧ squeezing d' msg (k + sum_list ns).
Proof.
  revert d k. induction ns as [|n ns IH]; intros d k H Hg; [exists d; simpl; by rewrite Nat.add_0_r|].
  cbn [read_all]. unfold Read at 1. pose proof H as (-> & _). cbn [obind].
  destruct (read_loop_spec (E:=E) n n d msg k H Hg ltac:(lia)) as (d1 & -> & H1 & Er & Ed & _). cbn [obind].
  rewrite <-Er, <-Ed in Hg. destruct (IH d1 (k + n)%nat H1 Hg) as (d2 & -> & H2). cbn [obind]. exists d2.
  rewrite Er, Ed. unfold sponge. rewrite <-map_app, <-seq_app. split; [done|]. simpl. by rewrite Nat.add_assoc.
Qed.

(** Squeezing is independent of how the output is cut into reads: after any
    writes, consecutive reads give consecutive parts of the same output stream. *)
Theorem Read_of_chunks d0 data n ns :
  d0 ∈ constructors → Forall (Forall is_byte) data →
  ∃ d d', write_all (E:=unit) data d0 = Ok d ∧
    read_all (E:=unit) (n :: ns) d = Ok (sponge (s_rate d0) (s_dsbyte d0) (concat data) 0 (sum_list (n :: ns)), d').
Proof.
  intros Hd Hb. destruct (writes_absorb (E:=unit) data d0 [] (constructors_absorbing _ Hd) Hb) as (d & E & Ha & Er & Ed & Eo).
  exists d. destruct (Read_spec (E:=unit) d _ n Ha) as (d1 & E1 & H1 & Er1 & Ed1 & _).
  pose proof (absorbing_padded d _ Ha) as Hg. rewrite <-Er1, <-Ed1 in Hg.
  destruct (read_all_squeezing (E:=unit) ns d1 _ n H1 Hg) as (d2 & E2 & _). exists d2. split; [done|].
  cbn [read_all]. rewrite E1. cbn [obind]. rewrite E2. cbn [obind]. rewrite Er1, Ed1, Er, Ed.
  unfold sponge. by rewrite <-map_app, <-seq_app.
Qed.

Lemma Read_of_chunks_witness :
  ∃ d d', write_all (E:=unit) [[1]; [2; 3]] NewShake256 = Ok d ∧
    read_all (E:=unit) [100; 100]%nat d = Ok (sponge 136 0x1f [1; 2; 3] 0 200, d').
Proof.
  apply (Read_of_chunks NewShake256 [[1]; [2; 3]] 100 [100]%nat).
  - unfold constructors. rewrite !elem_of_cons. tauto.
  - by apply (bool_decide_unpack _).
Defined.

Lemma Keccak256_sponge {KF : KeccakF} {E} x : Forall is_byte x → Keccak256 (E:=E) [x] = Ok (sponge 136 0x01 x 0 32).
Proof.
  intros Hx. unfold Keccak256.
  destruct (writes_absorb (E:=E) [x] NewKeccak256 []) as (d & -> & Ha & Er & Ed & Eo);
    [apply constructors_absorbing; left|by apply Forall_singleton|].
  cbn [obind]. rewrite (Sum_spec d _ [] Ha), Er, Ed, Eo. cbn [concat app]. by rewrite app_nil_r.
Qed.

(** A hash that is reused: Reset, Write, Sum, as the trie's hasher does. *)
Lemma hash_reset {KF : KeccakF} {E} d data :
  conf_ok d → Forall is_byte data →
  (let* (_, d') := Write (E:=E) data (Reset d) in Sum [] d') = Ok (sponge (s_rate d) (s_dsbyte d) data 0 (s_outputLen d)).
Proof.
  intros (Hr0 & Hr8 & Hr & Hst & Hds & Hg) Hd.
  assert (absorbing (Reset d) []) as Ha.
  { destruct (new_absorbing (s_rate d) 0 (s_dsbyte d) Hr0 Hr8 Hr Hds) as (_ & (_ & _ & _ & _ & _ & Hg0) & _ & E1 & E2 & _).
    unfold absorbing, conf_ok, Reset, buf_bytes in *. cbn [s_state s_a s_buf s_rate s_dsbyte s_storage with_buf with_state with_a new_state] in *.
    rewrite <-E2. split_and!; try done. by left. }
  destruct (Write_spec (E:=E) (Reset d) [] data Ha Hd) as (d' & -> & Hd' & Er & Ed & Eo). cbn [obind].
  rewrite (Sum_spec d' _ [] Hd'), Er, Ed, Eo. done.
Qed.

(** ** The unaligned variant of xorIn *)

Lemma xor_words_app buf l1 l2 a : xor_words buf (l1 ++ l2) a = xor_words buf l2 (xor_words buf l1 a).
Proof. apply foldl_app. Qed.

Lemma xor_words_seq buf n a :
  (n ≤ length a)%nat → xor_words buf (seq 0 n) a = map (λ i, a.!i ⊕ word_at buf i) (seq 0 n) ++ drop n a.
Proof.
  induction n as [|n IH]; intros Hn; [done|]. rewrite seq_S, xor_words_app, IH, map_app by lia. cbn [xor_words foldl map Nat.add].
  set (l := map _ (seq 0 n)). assert (length l = n) as Hl by (unfold l; by rewrite length_map, length_seq).
  destruct (lookup_lt_is_Some_2 a n) as [x Hx]; [lia|]. rewrite (drop_S _ _ _ Hx).
  rewrite <-Hl at 1 2. unfold xor_words. cbn [foldl]. rewrite insert_app_r_alt, Nat.sub_diag by lia. cbn.
  rewrite <-app_assoc. f_equal. cbn. f_equal. f_equal.
  rewrite Hl, !nth_lookup, lookup_app_r, Hl, Nat.sub_diag, Hx by lia. done.
Qed.

(** For every block size of the package, the fast word-wise xorIn of
    little-endian machines computes what the portable one does. *)
Theorem xorIn_variants_agree a buf :
  length a = 25%nat → length buf ∈ map s_rate constructors →
  xorInGeneric (E:=unit) a buf = Ok (xorInUnaligned a buf).
Proof.
  intros Ha Hb. assert (length buf ∈ [72; 104; 136; 144; 168]%nat) as Hb'.
  { revert Hb. unfold constructors. cbn [map s_rate NewKeccak256 NewKeccak512 New224 New256 New384 New512 NewShake128 NewShake256 new_state].
    set_solver. }
  assert (length buf / 8 ≤ 21)%nat as H8.
  { apply Nat.Div0.div_le_upper_bound. clear Hb. set_solver by lia. }
  rewrite xorIn_spec by lia. f_equal. unfold xor_block. rewrite <-xor_words_seq by lia.
  unfold xorInUnaligned. clear Hb. rewrite !elem_of_cons, elem_of_nil in Hb'.
  destruct Hb' as [E|[E|[E|[E|[E|[]]]]]]; rewrite E; cbn -[xor_words]; by rewrite <-?xor_words_app.
Qed.

Lemma xorIn_variants_agree_witness :
  xorInGeneric (E:=unit) (replicate 25 7) (replicate 136 1) = Ok (xorInUnaligned (replicate 25 7) (replicate 136 1)).
Proof.
  apply xorIn_variants_agree; [done|]. apply list_elem_of_In. by left.
Defined.

(** ** Cloning while squeezing *)

(** A clone taken while squeezing computes the position from the capacity of
    the buffer, which reaches to the end of the 168-byte storage: for rates below
    168 it panics within the first [168 - rate] bytes of a block, and later gives
    a clone that is [168 - rate] bytes behind. *)
Theorem clone_while_squeezing d msg k :
  squeezing d msg k →
  clone (E:=unit) d =
    if (k mod s_rate d <? maxRate - s_rate d)%nat then Panic
    else Ok (with_buf (Some (k mod s_rate d - (maxRate - s_rate d), maxRate - k mod s_rate d)%nat) d).
Proof.
  intros (Hs & (Hr0 & _ & Hr & Hst & _) & _ & Hbuf & _). unfold clone. rewrite Hs, Hbuf, Hst.
  pose proof (Nat.mod_upper_bound k (s_rate d) ltac:(lia)).
  destruct (Nat.leb_spec (maxRate - k mod s_rate d) (s_rate d)), (Nat.ltb_spec (k mod s_rate d) (maxRate - s_rate d)); try lia.
  - destruct (Nat.leb_spec (s_rate d) maxRate); [|lia]. cbn [andb].
    by replace (s_rate d - (maxRate - k mod s_rate d))%nat with (k mod s_rate d - (maxRate - s_rate d))%nat by lia.
  - done.
Qed.

(** Cloning a SHAKE256 after 16 bytes panics. *)
Lemma clone_while_squeezing_witness :
  ∃ d, (let* (_, d) := Read (E:=unit) 16 NewShake256 in Ok d) = Ok d ∧ clone (E:=unit) d = Panic.
Proof.
  assert (absorbing NewShake256 []) as Ha.
  { apply constructors_absorbing. unfold constructors. rewrite !elem_of_cons. tauto. }
  destruct (Read_spec (E:=unit) NewShake256 [] 16 Ha) as (d & E & H & Er & _).
  exists d. rewrite E. split; [reflexivity|]. rewrite (clone_while_squeezing d [] 16 H), Er. reflexivity.
Defined.
