(* ===== verification/RlpSpec.v ===== *)
(** * RLP: items, their canonical encoding, integer and header helpers

    The reference definition of RLP ([item], [rlp_enc]) that the encoder and
    the decoders are compared with, and the header and integer helpers of
    common/rlp/encode.go ([headsize], [puthead], [putint], [intsize]) shared by
    the encoder, the raw splitter and the stream decoder. *)

From S2P Require Import Prelude.
Local Open Scope Z_scope.

(** ** Kinds and errors (common/rlp/decode.go) *)

Inductive Kind := KByte | KString | KList.

#[export] Instance Kind_eq_dec : EqDecision Kind.
Proof. solve_decision. Defined.

(** The error values of the package, with the reader's [io] errors.
    [DecodeError] stands for the [*decodeError] values: the message, without
    the reflected type and the context path that only serve printing.
    [OutOfRounds] is no Go error: it is the result of a decoding loop that is
    cut off after the number of rounds the model allows. *)
Inductive decode_msg :=
| MsgCanonInt | MsgCanonSize | MsgExpectedList | MsgExpectedString
| MsgTooLong | MsgTooShort | MsgTooManyElems | MsgTooFewElems | MsgTooFewFields.

Inductive rlp_error :=
| EOL
| ErrExpectedString
| ErrExpectedList
| ErrCanonInt
| ErrCanonSize
| ErrElemTooLarge
| ErrValueTooLarge
| ErrMoreThanOneValue
| errNotInList
| errNotAtEOL
| errUintOverflow
| errInvalidBool
| errNegativeBigInt
| EOF
| ErrUnexpectedEOF
| DecodeError (m : decode_msg)
| OutOfRounds.

#[export] Instance decode_msg_eq_dec : EqDecision decode_msg.
Proof. solve_decision. Defined.
#[export] Instance rlp_error_eq_dec : EqDecision rlp_error.
Proof. solve_decision. Defined.

(** ** Integer helpers (common/rlp/encode.go) *)

(** putint: the bytes written at the start of the buffer. *)
Definition putint (i : Z) : bytes :=
  if i <? Z.shiftl 1 8 then [u8 i]
  else if i <? Z.shiftl 1 16 then [u8 (Z.shiftr i 8); u8 i]
  else if i <? Z.shiftl 1 24 then [u8 (Z.shiftr i 16); u8 (Z.shiftr i 8); u8 i]
  else if i <? Z.shiftl 1 32 then
    [u8 (Z.shiftr i 24); u8 (Z.shiftr i 16); u8 (Z.shiftr i 8); u8 i]
  else if i <? Z.shiftl 1 40 then
    [u8 (Z.shiftr i 32); u8 (Z.shiftr i 24); u8 (Z.shiftr i 16); u8 (Z.shiftr i 8); u8 i]
  else if i <? Z.shiftl 1 48 then
    [u8 (Z.shiftr i 40); u8 (Z.shiftr i 32); u8 (Z.shiftr i 24); u8 (Z.shiftr i 16);
     u8 (Z.shiftr i 8); u8 i]
  else if i <? Z.shiftl 1 56 then
    [u8 (Z.shiftr i 48); u8 (Z.shiftr i 40); u8 (Z.shiftr i 32); u8 (Z.shiftr i 24);
     u8 (Z.shiftr i 16); u8 (Z.shiftr i 8); u8 i]
  else
    [u8 (Z.shiftr i 56); u8 (Z.shiftr i 48); u8 (Z.shiftr i 40); u8 (Z.shiftr i 32);
     u8 (Z.shiftr i 24); u8 (Z.shiftr i 16); u8 (Z.shiftr i 8); u8 i].

(** The loop of intsize; eight rounds empty a 64-bit value. *)
Fixpoint intsize_loop (rounds : nat) (i : Z) (size : nat) : nat :=
  match rounds with
  | O => size
  | S r => let i := Z.shiftr i 8 in
           if i =? 0 then size else intsize_loop r i (S size)
  end.

Definition intsize (i : Z) : nat := intsize_loop 8 i 1.

Definition headsize (size : Z) : nat :=
  if size <? 56 then 1%nat else (1 + intsize size)%nat.

(** puthead: the header bytes written at the start of the buffer. *)
Definition puthead (smalltag largetag size : Z) : bytes :=
  if size <? 56 then [u8 (smalltag + u8 size)]
  else let sz := putint size in
       u8 (largetag + u8 (Z.of_nat (length sz))) :: sz.

(** ** The reference encoding *)

Inductive item :=
| Str (b : bytes)
| Lst (l : list item).

Definition header (small large : Z) (n : nat) : bytes :=
  let z := Z.of_nat n in
  if z <? 56 then [small + z]
  else (large + Z.of_nat (length (be_bytes z))) :: be_bytes z.

Definition enc_str (b : bytes) : bytes :=
  match b with
  | [x] => if x <? 128 then [x] else [129; x]
  | _ => header 128 183 (length b) ++ b
  end.

Definition enc_list (payload : bytes) : bytes :=
  header 192 247 (length payload) ++ payload.

Fixpoint rlp_enc (it : item) : bytes :=
  match it with
  | Str b => enc_str b
  | Lst l => enc_list (concat (map rlp_enc l))
  end.

(** Induction over items with the hypothesis for every element of a list. *)
Section ItemInd.
Variable P : item → Prop.
Hypothesis HStr : ∀ b, P (Str b).
Hypothesis HLst : ∀ l, Forall P l → P (Lst l).

Fixpoint item_ind' (it : item) : P it :=
  match it with
  | Str b => HStr b
  | Lst l => HLst l ((fix go (l : list item) : Forall P l :=
      match l with
      | [] => Forall_nil_2 _
      | x :: l' => Forall_cons_2 _ _ _ (item_ind' x) (go l')
      end) l)
  end.
End ItemInd.

(** The strings of an item are made of bytes. *)
Fixpoint item_ok (it : item) : Prop :=
  match it with
  | Str b => Forall is_byte b
  | Lst l => foldr (λ x P, item_ok x ∧ P) True l
  end.

Lemma item_ok_Lst l : item_ok (Lst l) ↔ Forall item_ok l.
Proof. simpl. induction l as [|x l IH]; simpl; rewrite ?Forall_cons, ?IH; split; try tauto; done. Qed.

(** The length limit of a 64-bit machine. *)
Definition fits64 (n : nat) : Prop := Z.of_nat n < 2 ^ 64.

(** ** Integer helpers against the big-endian reference *)

Lemma u8_shiftr i k : u8 (Z.shiftr i (8 * Z.of_nat k)) = i / 256 ^ Z.of_nat k mod 256.
Proof. unfold wrap. rewrite Z.shiftr_div_pow2, Z.pow_mul_r by lia. done. Qed.

Lemma be_fixed_S n z : be_fixed (S n) z = (z / 256 ^ Z.of_nat n) mod 256 :: be_fixed n z.
Proof.
  revert z. induction n as [|n IH]; intros z.
  - simpl. change (256 ^ 0) with 1. by rewrite Z.div_1_r.
  - change (be_fixed (S (S n)) z) with (be_fixed (S n) (z / 256) ++ [z mod 256]).
    rewrite IH. simpl app. f_equal.
    rewrite Z.div_div by (try apply Z.pow_pos_nonneg; lia).
    rewrite Nat2Z.inj_succ, Z.pow_succ_r by lia. done.
Qed.

Lemma putint_eq i :
  putint i =
    if i <? 256 then be_fixed 1 i else if i <? 256 ^ 2 then be_fixed 2 i
    else if i <? 256 ^ 3 then be_fixed 3 i else if i <? 256 ^ 4 then be_fixed 4 i
    else if i <? 256 ^ 5 then be_fixed 5 i else if i <? 256 ^ 6 then be_fixed 6 i
    else if i <? 256 ^ 7 then be_fixed 7 i else be_fixed 8 i.
Proof.
  rewrite !be_fixed_S. unfold putint. rewrite <-!u8_shiftr. simpl Z.mul. simpl be_fixed.
  rewrite !Z.shiftr_0_r. done.
Qed.

Lemma putint_spec i : 0 < i < 2 ^ 64 → putint i = be_bytes i.
Proof.
  intros Hi. rewrite putint_eq. unfold be_bytes.
  repeat case_cmp; f_equal; symmetry; apply byte_len_unique; simpl; lia.
Qed.

Lemma intsize_loop_spec r i s :
  0 ≤ i < 256 ^ Z.of_nat r → intsize_loop r i s = (s + (byte_len i - 1))%nat.
Proof.
  revert i s. induction r as [|r IH]; intros i s Hi.
  - simpl in Hi. replace i with 0 by lia. simpl. lia.
  - simpl. rewrite Z.shiftr_div_pow2 by lia. change (2 ^ 8) with 256.
    rewrite Nat2Z.inj_succ, Z.pow_succ_r in Hi by lia.
    assert (0 ≤ i / 256) by (apply Z.div_pos; lia).
    pose proof (Z.mul_div_le i 256 ltac:(lia)). pose proof (Z.mul_succ_div_gt i 256 ltac:(lia)).
    case_cmp.
    + destruct (decide (i = 0)) as [->|]; [simpl; lia|].
      rewrite (byte_len_unique i 1); simpl; lia.
    + rewrite IH by lia.
      assert (byte_len i = S (byte_len (i / 256))) as ->.
      { destruct (byte_len_bounds (i / 256)) as [B1 B2]; [lia|].
        assert (byte_len (i / 256) ≠ 0%nat) by (intros E; rewrite E in B2; simpl in B2; lia).
        apply byte_len_unique; [lia|]. rewrite Nat2Z.inj_succ, Z.pow_succ_r by lia.
        replace (Z.succ (Z.of_nat (byte_len (i / 256))) - 1)
          with (Z.succ (Z.of_nat (byte_len (i / 256)) - 1)) by lia.
        rewrite Z.pow_succ_r by lia. lia. }
      destruct (byte_len_bounds (i / 256)) as [B1 B2]; [lia|].
      assert (byte_len (i / 256) ≠ 0%nat) by (intros E; rewrite E in B2; simpl in B2; lia).
      lia.
Qed.

Lemma intsize_spec i : 0 < i < 2 ^ 64 → intsize i = byte_len i.
Proof.
  intros. unfold intsize. rewrite intsize_loop_spec by (simpl; lia).
  destruct (byte_len_bounds i) as [_ B]; [lia|].
  assert (byte_len i ≠ 0%nat) by (intros E; rewrite E in B; simpl in B; lia). lia.
Qed.

Lemma byte_len_8 i : 0 < i < 2 ^ 64 → (1 ≤ byte_len i ≤ 8)%nat.
Proof.
  intros Hi. destruct (byte_len_bounds i) as [B1 B2]; [lia|]. split.
  - destruct (byte_len i); simpl in *; lia.
  - destruct (decide (byte_len i ≤ 8)%nat); [done|].
    assert (256 ^ 8 ≤ 256 ^ (Z.of_nat (byte_len i) - 1)) by (apply Z.pow_le_mono_r; lia).
    simpl in *. lia.
Qed.

Lemma puthead_spec small large n :
  fits64 n → 0 ≤ small ≤ 200 → 0 ≤ large ≤ 247 →
  puthead small large (Z.of_nat n) = header small large n.
Proof.
  unfold fits64. intros Hn Hs Hl. unfold puthead, header. case_cmp.
  - rewrite (wrap_small 8 (Z.of_nat n)), wrap_small by (simpl; lia). done.
  - rewrite putint_spec by lia. rewrite length_be_bytes.
    pose proof (byte_len_8 (Z.of_nat n)).
    rewrite (wrap_small 8 (Z.of_nat (byte_len _))), wrap_small by (simpl; lia). done.
Qed.

Lemma headsize_spec small large n :
  fits64 n → headsize (Z.of_nat n) = length (header small large n).
Proof.
  unfold fits64. intros Hn. unfold headsize, header. case_cmp; [done|].
  simpl. rewrite intsize_spec, length_be_bytes by lia. done.
Qed.

Lemma header_length small large n : (1 ≤ length (header small large n))%nat.
Proof. unfold header. case_cmp; simpl; lia. Qed.

Lemma header_byte small large n :
  fits64 n → 0 ≤ small ≤ 200 → 0 ≤ large ≤ 247 → Forall is_byte (header small large n).
Proof.
  unfold fits64, header, is_byte. intros. case_cmp.
  - apply Forall_singleton. lia.
  - constructor; [|apply be_bytes_byte]. rewrite length_be_bytes.
    pose proof (byte_len_8 (Z.of_nat n)). lia.
Qed.

Lemma enc_str_length b : (length b ≤ length (enc_str b))%nat.
Proof.
  unfold enc_str. destruct b as [|x [|y b]]; simpl.
  - lia.
  - destruct (x <? 128); simpl; lia.
  - rewrite length_app. simpl. lia.
Qed.

Lemma enc_str_nonempty b : (1 ≤ length (enc_str b))%nat.
Proof.
  unfold enc_str. destruct b as [|x [|y b]]; [done| |].
  - destruct (x <? 128); simpl; lia.
  - rewrite length_app. simpl. lia.
Qed.

Lemma enc_str_byte b : Forall is_byte b → fits64 (length b) → Forall is_byte (enc_str b).
Proof.
  intros Hb Hf. unfold enc_str. destruct b as [|x [|y b]].
  - apply Forall_app. split; [|done]. apply header_byte; (done || lia).
  - destruct (x <? 128); [done|]. constructor; [unfold is_byte; lia|done].
  - apply Forall_app. split; [|done]. apply header_byte; (done || lia).
Qed.

Lemma rlp_enc_nonempty it : (1 ≤ length (rlp_enc it))%nat.
Proof.
  destruct it; simpl; [apply enc_str_nonempty|]. unfold enc_list. rewrite length_app.
  pose proof (header_length 192 247 (length (concat (map rlp_enc l)))). lia.
Qed.

(** ** Lengths and bytes of encodings *)

Lemma fits64_le m n : (m ≤ n)%nat → fits64 n → fits64 m.
Proof. unfold fits64. lia. Qed.

Lemma enc_list_length p : (length p < length (enc_list p))%nat.
Proof. unfold enc_list. rewrite length_app. pose proof (header_length 192 247 (length p)). lia. Qed.

Lemma concat_map_cons (x : item) l :
  concat (map rlp_enc (x :: l)) = rlp_enc x ++ concat (map rlp_enc l).
Proof. done. Qed.

(** The encoding of a list is at least as long as the encoding of a member. *)
Lemma rlp_enc_member x l : x ∈ l → (length (rlp_enc x) ≤ length (concat (map rlp_enc l)))%nat.
Proof.
  induction 1 as [|x y l _ IH]; rewrite concat_map_cons, length_app; lia.
Qed.

Lemma rlp_enc_byte it :
  item_ok it → fits64 (length (rlp_enc it)) → Forall is_byte (rlp_enc it).
Proof.
  induction it as [b|l IH] using item_ind'; intros Hok Hf.
  - simpl in *. apply enc_str_byte; [done|]. eapply fits64_le; [apply enc_str_length|done].
  - rewrite item_ok_Lst in Hok. simpl in *. pose proof (enc_list_length (concat (map rlp_enc l))).
    assert (Hp : fits64 (length (concat (map rlp_enc l)))) by (eapply fits64_le; [|done]; lia).
    apply Forall_app. split; [apply header_byte; [done|lia..]|]. clear Hf H.
    induction l as [|x l IHl]; [constructor|]. rewrite concat_map_cons in *.
    rewrite length_app in Hp. apply Forall_cons in IH as [IHx IH], Hok as [Hx Hok].
    apply Forall_app. split.
    + apply IHx; [done|]. eapply fits64_le; [|done]. lia.
    + apply IHl; [done..|]. eapply fits64_le; [|done]. lia.
Qed.

Lemma concat_enc_byte l :
  Forall item_ok l → fits64 (length (concat (map rlp_enc l))) →
  Forall is_byte (concat (map rlp_enc l)).
Proof.
  induction l as [|x l IH]; [constructor|]. rewrite concat_map_cons, length_app.
  intros Hok Hf. apply Forall_cons in Hok as [Hx Hok]. apply Forall_app. split.
  - apply rlp_enc_byte; [done|]. eapply fits64_le; [|done]. lia.
  - apply IH; [done|]. eapply fits64_le; [|done]. lia.
Qed.
