(* ===== verification/RlpRaw.v ===== *)
(** * Splitting encoded values (common/rlp/raw.go)

    [Split], [SplitString], [SplitList], [CountValues] and the header parser
    [readKind]/[readSize] they share, against the reference encoding. *)

From S2P Require Import Prelude RlpSpec.
Local Open Scope Z_scope.

Abbreviation rlp_out := (outcome rlp_error).

(** The [switch slen] of readSize: [slen] big-endian bytes written out. *)
Definition readSize_switch (b : bytes) (slen : Z) : Z :=
  let at_ i := default 0 (b !! i) in
  match slen with
  | 1 => at_ 0%nat
  | 2 => Z.lor (Z.shiftl (at_ 0%nat) 8) (at_ 1%nat)
  | 3 => Z.lor (Z.lor (Z.shiftl (at_ 0%nat) 16) (Z.shiftl (at_ 1%nat) 8)) (at_ 2%nat)
  | 4 => Z.lor (Z.lor (Z.lor (Z.shiftl (at_ 0%nat) 24) (Z.shiftl (at_ 1%nat) 16))
           (Z.shiftl (at_ 2%nat) 8)) (at_ 3%nat)
  | 5 => Z.lor (Z.lor (Z.lor (Z.lor (Z.shiftl (at_ 0%nat) 32) (Z.shiftl (at_ 1%nat) 24))
           (Z.shiftl (at_ 2%nat) 16)) (Z.shiftl (at_ 3%nat) 8)) (at_ 4%nat)
  | 6 => Z.lor (Z.lor (Z.lor (Z.lor (Z.lor (Z.shiftl (at_ 0%nat) 40) (Z.shiftl (at_ 1%nat) 32))
           (Z.shiftl (at_ 2%nat) 24)) (Z.shiftl (at_ 3%nat) 16)) (Z.shiftl (at_ 4%nat) 8))
           (at_ 5%nat)
  | 7 => Z.lor (Z.lor (Z.lor (Z.lor (Z.lor (Z.lor (Z.shiftl (at_ 0%nat) 48)
           (Z.shiftl (at_ 1%nat) 40)) (Z.shiftl (at_ 2%nat) 32)) (Z.shiftl (at_ 3%nat) 24))
           (Z.shiftl (at_ 4%nat) 16)) (Z.shiftl (at_ 5%nat) 8)) (at_ 6%nat)
  | 8 => Z.lor (Z.lor (Z.lor (Z.lor (Z.lor (Z.lor (Z.lor (Z.shiftl (at_ 0%nat) 56)
           (Z.shiftl (at_ 1%nat) 48)) (Z.shiftl (at_ 2%nat) 40)) (Z.shiftl (at_ 3%nat) 32))
           (Z.shiftl (at_ 4%nat) 24)) (Z.shiftl (at_ 5%nat) 16)) (Z.shiftl (at_ 6%nat) 8))
           (at_ 7%nat)
  | _ => 0
  end.

(** readSize: a size must be at least 56 and have no leading zero byte. *)
Definition readSize (b : bytes) (slen : Z) : rlp_out Z :=
  if Z.of_nat (length b) <? slen then Err ErrUnexpectedEOF else
  let s := readSize_switch b slen in
  if s <? 56 then Err ErrCanonSize else
  let* b0 := b.[0%nat] in
  if b0 =? 0 then Err ErrCanonSize else Ok s.

(** readKind: kind, tag size and content size of the value at the start of
    [buf].  The check of a one-byte string reads [buf[1]] before the length of
    [buf] is compared with the content size. *)
Definition readKind (buf : bytes) : rlp_out (Kind * Z * Z) :=
  match buf with
  | [] => Err ErrUnexpectedEOF
  | b :: buf' =>
      let* (k, tagsize, contentsize) :=
        if b <? 128 then Ok (KByte, 0, 1)
        else if b <? 184 then
          let contentsize := b - 128 in
          if contentsize =? 1 then
            let* b1 := buf.[1%nat] in
            if b1 <? 128 then Err ErrCanonSize else Ok (KString, 1, contentsize)
          else Ok (KString, 1, contentsize)
        else if b <? 192 then
          let* cs := readSize buf' (b - 183) in Ok (KString, b - 183 + 1, cs)
        else if b <? 248 then Ok (KList, 1, b - 192)
        else
          let* cs := readSize buf' (b - 247) in Ok (KList, b - 247 + 1, cs)
      in
      if u64 (Z.of_nat (length buf) - tagsize) <? contentsize then Err ErrValueTooLarge
      else Ok (k, tagsize, contentsize)
  end.

(** Split returns the kind, [b[ts : ts+cs]] and [b[ts+cs:]]. *)
Definition Split (b : bytes) : rlp_out (Kind * bytes * bytes) :=
  let* (k, ts, cs) := readKind b in
  Ok (k, take (Z.to_nat cs) (drop (Z.to_nat ts) b), drop (Z.to_nat (ts + cs)) b).

Definition SplitString (b : bytes) : rlp_out (bytes * bytes) :=
  let* (k, content, rest) := Split b in
  match k with
  | KList => Err ErrExpectedString
  | _ => Ok (content, rest)
  end.

Definition SplitList (b : bytes) : rlp_out (bytes * bytes) :=
  let* (k, content, rest) := Split b in
  match k with
  | KList => Ok (content, rest)
  | _ => Err ErrExpectedList
  end.

(** The loop of CountValues.  Every round removes at least one byte, so
    [length b] rounds reach the empty slice. *)
Fixpoint CountValues_loop (rounds : nat) (b : bytes) (i : Z) : rlp_out Z :=
  match rounds, b with
  | O, _ | _, [] => Ok i
  | S r, _ =>
      let* (_, tagsize, size) := readKind b in
      CountValues_loop r (drop (Z.to_nat (tagsize + size)) b) (i + 1)
  end.

Definition CountValues (b : bytes) : rlp_out Z := CountValues_loop (length b) b 0.

Definition ListSize (contentSize : Z) : Z := u64 (Z.of_nat (headsize contentSize) + contentSize).

(** ** readSize against big-endian *)

Lemma lor_mul_add hi lo n : 0 ≤ n → 0 ≤ lo < 2 ^ n → Z.lor (hi * 2 ^ n) lo = hi * 2 ^ n + lo.
Proof. intros. rewrite <-(lor_shiftl_add hi lo n), Z.shiftl_mul_pow2 by lia. done. Qed.

(** One step of the [switch] lines: the next byte joins the bytes above it. *)
Lemma lor_step acc b s t :
  t = s + 8 → 0 ≤ s → is_byte b →
  Z.lor (acc * 2 ^ t) (Z.shiftl b s) = (acc * 256 + b) * 2 ^ s.
Proof.
  unfold is_byte. intros -> Hs Hb. rewrite Z.shiftl_mul_pow2 by done.
  pose proof (Z.pow_pos_nonneg 2 s). rewrite lor_mul_add.
  - rewrite Z.pow_add_r by lia. lia.
  - lia.
  - rewrite Z.pow_add_r by lia. nia.
Qed.

Lemma lor_last acc b : is_byte b → Z.lor (acc * 2 ^ 8) b = acc * 256 + b.
Proof. unfold is_byte. intros. rewrite lor_mul_add; lia. Qed.

Lemma readSize_switch_eq b slen :
  1 ≤ slen ≤ 8 → slen ≤ Z.of_nat (length b) → Forall is_byte b →
  readSize_switch b slen = be_val (take (Z.to_nat slen) b).
Proof.
  intros Hs Hl Hb.
  assert (slen = 1 ∨ slen = 2 ∨ slen = 3 ∨ slen = 4 ∨ slen = 5 ∨ slen = 6 ∨ slen = 7 ∨ slen = 8)
    as Hc by lia.
  assert (∃ l1 l2, b = l1 ++ l2 ∧ Z.of_nat (length l1) = slen) as (l1 & l2 & -> & Hl1).
  { exists (take (Z.to_nat slen) b), (drop (Z.to_nat slen) b).
    rewrite take_drop, length_take. split; [done|lia]. }
  rewrite take_app_length' by lia. apply Forall_app in Hb as [Hb _]. clear Hl.
  destruct Hc as [->|[->|[->|[->|[->|[->|[->| ->]]]]]]];
    do 9 (try (destruct l1 as [|? l1]; [simpl in Hl1; try lia|]; try (simpl in Hl1; lia);
               apply Forall_cons in Hb as [? Hb]));
    cbv [readSize_switch]; cbn [app lookup list_lookup default from_option];
    unfold be_val; cbn [foldl].
  all: try match goal with |- context [Z.lor (Z.shiftl ?a ?n) _] =>
    rewrite (Z.shiftl_mul_pow2 a n) by lia end;
    rewrite ?(lor_step _ _ 48 56), ?(lor_step _ _ 40 48), ?(lor_step _ _ 32 40), ?(lor_step _ _ 24 32),
      ?(lor_step _ _ 16 24), ?(lor_step _ _ 8 16), ?lor_last by (done || lia);
    (destruct l1; [|simpl in Hl1; lia]); cbn [foldl id]; unfold id; lia.
Qed.

Lemma readSize_eq b slen :
  1 ≤ slen ≤ 8 → Forall is_byte b →
  readSize b slen =
    if Z.of_nat (length b) <? slen then Err ErrUnexpectedEOF
    else let s := be_val (take (Z.to_nat slen) b) in
         if s <? 56 then Err ErrCanonSize
         else if default 0 (head b) =? 0 then Err ErrCanonSize else Ok s.
Proof.
  intros Hs Hb. unfold readSize. case_cmp; [done|].
  rewrite readSize_switch_eq by (done || lia).
  destruct b as [|b0 b]; [simpl in *; lia|]. done.
Qed.

(** A size written by [be_bytes] is read back, whatever follows. *)
Lemma readSize_be_bytes n rest :
  56 ≤ n < 2 ^ 64 → Forall is_byte rest →
  readSize (be_bytes n ++ rest) (Z.of_nat (byte_len n)) = Ok n.
Proof.
  intros Hn Hr. pose proof (byte_len_8 n ltac:(lia)).
  rewrite readSize_eq; [|lia|apply Forall_app; auto using be_bytes_byte].
  rewrite length_app, length_be_bytes. case_cmp. cbv zeta.
  rewrite take_app_length', be_val_bytes by (rewrite ?length_be_bytes; lia).
  case_cmp. destruct (be_bytes n) as [|b0 l] eqn:E.
  - apply (f_equal length) in E. rewrite length_be_bytes in E. simpl in E. lia.
  - simpl. apply be_bytes_head in E; [|lia]. by case_cmp.
Qed.

(** What readSize accepts is the unique minimal encoding of its result. *)
Lemma readSize_sound b slen n :
  1 ≤ slen ≤ 8 → Forall is_byte b → readSize b slen = Ok n →
  ∃ rest, b = be_bytes n ++ rest ∧ slen = Z.of_nat (byte_len n) ∧ 56 ≤ n < 2 ^ 64.
Proof.
  intros Hs Hb. rewrite readSize_eq by done. case_cmp; [done|]. cbv zeta.
  case_cmp; [done|]. case_cmp; [done|]. intros [= <-].
  destruct b as [|b0 b]; [simpl in *; lia|]. simpl in *.
  inversion Hb as [|?? Hb0 Hb']; subst.
  replace (Z.to_nat slen) with (S (Z.to_nat slen - 1)) in * by lia. simpl in *.
  assert (Forall is_byte (take (Z.to_nat slen - 1) b)) by by apply Forall_take.
  exists (drop (Z.to_nat slen - 1) b). split_and!.
  - rewrite be_bytes_val by done. simpl. by rewrite take_drop.
  - rewrite byte_len_be_val, length_take by done. lia.
  - done.
  - eapply Z.lt_le_trans; [apply be_val_bound; by constructor|].
    simpl length. rewrite length_take. change (2 ^ 64) with (256 ^ 8).
    apply Z.pow_le_mono_r; lia.
Qed.

(** ** Split on encodings *)

Lemma readKind_header k small large n payload rest :
  (k, small, large) = (KString, 128, 183) ∨ (k, small, large) = (KList, 192, 247) →
  length payload = n → fits64 (length (header small large n ++ payload ++ rest)) →
  Forall is_byte payload → Forall is_byte rest →
  (k = KString → ∀ x, payload = [x] → 128 ≤ x) →
  readKind (header small large n ++ payload ++ rest)
    = Ok (k, Z.of_nat (length (header small large n)), Z.of_nat n).
Proof.
  unfold fits64. intros Hk Hlen Hfit Hp Hr Hone. rewrite !length_app in Hfit.
  destruct (Z.ltb_spec (Z.of_nat n) 56) as [Hsmall|Hlarge].
  - unfold header in *. rewrite (proj2 (Z.ltb_lt _ _)) in * by done. simpl app. unfold readKind.
    cbn [length] in *.
    destruct Hk as [[= -> -> ->]|[= -> -> ->]]; repeat case_cmp; cbn [obind].
    + unfold index. destruct payload as [|x [|y p]]; simpl in *; try lia.
      specialize (Hone eq_refl x eq_refl). case_cmp. cbn [obind].
      rewrite wrap_small by (simpl; lia). case_cmp. repeat f_equal; lia.
    + rewrite length_app, wrap_small by (simpl; lia). case_cmp. repeat f_equal; lia.
    + rewrite length_app, wrap_small by (simpl; lia). case_cmp. repeat f_equal; lia.
  - unfold header in *. rewrite (proj2 (Z.ltb_ge _ _)) in * by done. simpl app. unfold readKind.
    pose proof (byte_len_8 (Z.of_nat n) ltac:(lia)).
    cbn [length] in *. rewrite length_be_bytes in *.
    assert (Forall is_byte (payload ++ rest)) by (apply Forall_app; done).
    destruct Hk as [[= -> -> ->]|[= -> -> ->]]; repeat case_cmp.
    + replace (183 + Z.of_nat (byte_len (Z.of_nat n)) - 183) with (Z.of_nat (byte_len (Z.of_nat n))) by lia.
      rewrite readSize_be_bytes by (done || lia). simpl obind.
      rewrite !length_app, length_be_bytes, wrap_small by (simpl; lia). case_cmp.
      repeat f_equal; lia.
    + replace (247 + Z.of_nat (byte_len (Z.of_nat n)) - 247) with (Z.of_nat (byte_len (Z.of_nat n))) by lia.
      rewrite readSize_be_bytes by (done || lia). simpl obind.
      rewrite !length_app, length_be_bytes, wrap_small by (simpl; lia). case_cmp.
      repeat f_equal; lia.
Qed.

Lemma Split_of_readKind k (h p rest : bytes) :
  readKind (h ++ p ++ rest) = Ok (k, Z.of_nat (length h), Z.of_nat (length p)) →
  Split (h ++ p ++ rest) = Ok (k, p, rest).
Proof.
  intros Hk. unfold Split. rewrite Hk. simpl. rewrite <-Nat2Z.inj_add, !Nat2Z.id.
  rewrite drop_app_length, take_app_length, app_assoc, <-length_app, drop_app_length. done.
Qed.

(** The kind under which a string is encoded. *)
Definition str_kind (b : bytes) : Kind :=
  match b with
  | [x] => if x <? 128 then KByte else KString
  | _ => KString
  end.

Lemma Split_enc_str b rest :
  Forall is_byte b → Forall is_byte rest → fits64 (length (enc_str b ++ rest)) →
  Split (enc_str b ++ rest) = Ok (str_kind b, b, rest).
Proof.
  intros Hb Hr Hf.
  assert (str_kind b = KByte ∧ (∃ x, b = [x] ∧ x < 128) ∨
          str_kind b = KString ∧ enc_str b = header 128 183 (length b) ++ b
            ∧ (∀ x, b = [x] → 128 ≤ x)) as [(Hk & x & -> & Hx)|(Hk & He & Hone)].
  { destruct b as [|x [|y b]]; simpl.
    - right; naive_solver.
    - destruct (Z.ltb_spec x 128); [left; eauto|]. right. naive_solver.
    - right. naive_solver. }
  - rewrite Hk. simpl. case_cmp. unfold Split, readKind. simpl. case_cmp. simpl.
    unfold fits64 in Hf. revert Hf. simpl. case_cmp. simpl. intros.
    rewrite wrap_small by (simpl; lia). case_cmp. simpl. by rewrite take_0, drop_0.
  - rewrite Hk, He, <-app_assoc. rewrite He, <-app_assoc in Hf. apply Split_of_readKind, readKind_header; auto.
Qed.

Lemma Split_enc_list p rest :
  Forall is_byte p → Forall is_byte rest → fits64 (length (enc_list p ++ rest)) →
  Split (enc_list p ++ rest) = Ok (KList, p, rest).
Proof.
  unfold enc_list. intros Hp Hr Hf. rewrite <-app_assoc in *.
  apply Split_of_readKind, readKind_header; auto. done.
Qed.

(** ** Split accepts only canonical encodings *)

Lemma enc_str_header b :
  (∀ x, b = [x] → 128 ≤ x) → enc_str b = header 128 183 (length b) ++ b.
Proof.
  intros H. destruct b as [|x [|y b]]; simpl; try done.
  specialize (H x eq_refl). case_cmp. done.
Qed.

(** How the value of a kind is laid out: its header and its content. *)
Definition layout (k : Kind) (h content : bytes) : Prop :=
  match k with
  | KByte => h = [] ∧ ∃ x, content = [x] ∧ x < 128
  | KString => h = header 128 183 (length content) ∧ ∀ x, content = [x] → 128 ≤ x
  | KList => h = header 192 247 (length content)
  end.

Definition enc_kind (k : Kind) (content : bytes) : bytes :=
  match k with
  | KList => enc_list content
  | _ => enc_str content
  end.

Lemma layout_enc k h content : layout k h content → h ++ content = enc_kind k content.
Proof.
  destruct k; simpl.
  - intros (-> & x & -> & Hx). simpl. by case_cmp.
  - intros (-> & H). by rewrite enc_str_header.
  - by intros ->.
Qed.

Lemma layout_str_kind k h content : layout k h content → k ≠ KList → k = str_kind content.
Proof.
  destruct k; simpl; intros H Hk; [| |done].
  - destruct H as (_ & x & -> & Hx). simpl. by case_cmp.
  - destruct H as (_ & H). unfold str_kind. destruct content as [|x [|y l]]; try done.
    specialize (H x eq_refl). by case_cmp.
Qed.

Lemma short_header_sound small large b0 (b : bytes) :
  small ≤ b0 < small + 56 → b0 - small ≤ Z.of_nat (length b) →
  length (take (Z.to_nat (b0 - small)) b) = Z.to_nat (b0 - small) ∧
  [b0] = header small large (Z.to_nat (b0 - small)).
Proof.
  intros. rewrite length_take. split; [lia|]. unfold header. rewrite Z2Nat.id by lia.
  case_cmp. f_equal. lia.
Qed.

Lemma long_header_sound small large b0 b n :
  1 ≤ b0 - large ≤ 8 → Forall is_byte b → fits64 (S (length b)) →
  readSize b (b0 - large) = Ok n →
  (u64 (Z.of_nat (S (length b)) - (b0 - large + 1)) <? n) = false →
  ∃ content rest, b0 :: b = header small large (length content) ++ content ++ rest ∧
    b0 - large + 1 = Z.of_nat (length (header small large (length content))) ∧
    n = Z.of_nat (length content) ∧ 56 ≤ n.
Proof.
  unfold fits64. intros Hs Hb Hf Hrs Hle.
  apply readSize_sound in Hrs as (rest & -> & Hbl & Hn); [|done..].
  rewrite length_app, length_be_bytes in *. rewrite wrap_small in Hle by (simpl; lia).
  apply Z.ltb_ge in Hle.
  exists (take (Z.to_nat n) rest), (drop (Z.to_nat n) rest).
  rewrite take_drop. unfold header. rewrite length_take, Nat.min_l, Z2Nat.id by lia.
  case_cmp. rewrite length_be_bytes. split_and!; try lia.
  - simpl. do 2 f_equal. lia.
  - simpl. rewrite length_be_bytes. lia.
Qed.

(** What readKind returns describes a header, its content and the rest. *)
Lemma readKind_sound b k ts cs :
  Forall is_byte b → fits64 (length b) → readKind b = Ok (k, ts, cs) →
  ∃ h content rest, b = h ++ content ++ rest ∧ ts = Z.of_nat (length h) ∧
    cs = Z.of_nat (length content) ∧ layout k h content.
Proof.
  intros Hb Hf. unfold readKind. destruct b as [|b0 b]; [done|].
  inversion Hb as [|?? Hb0 Hb']; subst. pose proof Hf as Hf'. unfold is_byte, fits64 in *.
  cbn [length] in *.
  assert (Hshort : ∀ small large, (small = 128 ∨ small = 192) → small ≤ b0 < small + 56 →
    (u64 (Z.of_nat (S (length b)) - 1) <? b0 - small) = false →
    let c := take (Z.to_nat (b0 - small)) b in
    b0 :: b = [b0] ++ c ++ drop (Z.to_nat (b0 - small)) b ∧
    b0 - small = Z.of_nat (length c) ∧ [b0] = header small large (length c)).
  { intros small large Hsm Hb0' Hlt. rewrite wrap_small in Hlt by (simpl; lia).
    apply Z.ltb_ge in Hlt. destruct (short_header_sound small large b0 b) as [E1 E2]; [lia..|].
    cbv zeta. rewrite E1, take_drop. split_and!; [done|lia|done]. }
  destruct (Z.ltb_spec b0 128).
  { cbn [obind]. case_cmp; [done|]. intros [= <- <- <-]. exists [], [b0], b. naive_solver. }
  destruct (Z.ltb_spec b0 184).
  { destruct (Z.eqb_spec (b0 - 128) 1) as [E1|E1].
    - unfold index. destruct b as [|b1 b]; cbn [lookup list_lookup obind]; [done|].
      case_cmp; [done|]. cbn [obind]. destruct (_ <? b0 - 128) eqn:Hlt; [done|].
      intros [= <- <- <-]. destruct (Hshort 128 183) as (? & ? & ?); [lia..|done|].
      eexists [b0], _, _. split_and!; [done..|]. split; [done|]. rewrite E1. simpl. rewrite take_0.
      naive_solver.
    - cbn [obind]. destruct (_ <? b0 - 128) eqn:Hlt; [done|]. intros [= <- <- <-].
      destruct (Hshort 128 183) as (? & Hl & ?); [lia..|done|].
      eexists [b0], _, _. split_and!; [done..|]. split; [done|].
      intros x Hx. rewrite Hx in Hl. simpl in Hl. lia. }
  destruct (Z.ltb_spec b0 192).
  { destruct (readSize b (b0 - 183)) as [n| |] eqn:Hrs; [|done..]. cbn [obind].
    destruct (_ <? n) eqn:Hlt; [done|]. intros [= <- <- <-].
    destruct (long_header_sound 128 183 b0 b n) as (c & rest & E1 & E2 & E3 & E4); [lia|done..|].
    eexists _, c, rest. split_and!; [done..|]. split; [done|]. intros x ->. simpl in *. lia. }
  destruct (Z.ltb_spec b0 248).
  { cbn [obind]. destruct (_ <? b0 - 192) eqn:Hlt; [done|]. intros [= <- <- <-].
    destruct (Hshort 192 247) as (? & ? & ?); [lia..|done|]. eexists [b0], _, _. by split_and!. }
  destruct (readSize b (b0 - 247)) as [n| |] eqn:Hrs; [|done..]. cbn [obind].
  destruct (_ <? n) eqn:Hlt; [done|]. intros [= <- <- <-].
  destruct (long_header_sound 192 247 b0 b n) as (c & rest & E1 & E2 & E3 & E4); [lia|done..|].
  eexists _, c, rest. by split_and!.
Qed.

Lemma Split_sound b k content rest :
  Forall is_byte b → fits64 (length b) → Split b = Ok (k, content, rest) →
  b = enc_kind k content ++ rest ∧ (k ≠ KList → k = str_kind content).
Proof.
  intros Hb Hf. unfold Split. destruct (readKind b) as [[[k' ts] cs]| |] eqn:Hk; [|done..].
  simpl. apply readKind_sound in Hk as (h & c & r & -> & -> & -> & Hlay); [|done..].
  rewrite <-Nat2Z.inj_add, !Nat2Z.id, drop_app_length, take_app_length.
  intros [= <- <- <-]. rewrite <-(layout_enc k' h c) by done.
  rewrite app_assoc, <-length_app, drop_app_length. split; [done|]. by eapply layout_str_kind.
Qed.

(** ** CountValues *)

(** A value takes at least one byte. *)
Lemma layout_nonempty k h content : layout k h content → (1 ≤ length h + length content)%nat.
Proof.
  destruct k; simpl.
  - intros (-> & x & -> & _). simpl. lia.
  - intros [-> _]. pose proof (header_length 128 183 (length content)). lia.
  - intros ->. pose proof (header_length 192 247 (length content)). lia.
Qed.

Lemma CountValues_loop_enough r1 r2 b i :
  Forall is_byte b → fits64 (length b) → (length b ≤ r1)%nat → (length b ≤ r2)%nat →
  CountValues_loop r1 b i = CountValues_loop r2 b i.
Proof.
  revert r2 b i. induction r1 as [|r1 IH]; intros [|r2] b i Hb Hf H1 H2; simpl.
  - done.
  - by destruct b; simpl in *; [|lia].
  - by destruct b; simpl in *; [|lia].
  - destruct b as [|b0 b']; [done|]. remember (b0 :: b') as b eqn:Eb.
    destruct (readKind b) as [[[k ts] cs]| |] eqn:Hk; simpl; [|done..].
    apply readKind_sound in Hk as (h & c & r & Eq & -> & -> & Hlay); [|done..].
    apply layout_nonempty in Hlay. rewrite <-Nat2Z.inj_add, Nat2Z.id.
    assert (length (drop (length h + length c) b) ≤ length b - 1)%nat by (rewrite length_drop; lia).
    apply IH; try lia; [by apply Forall_drop|]. unfold fits64 in *. lia.
Qed.

(** The loop equation of CountValues, without the bound on the rounds. *)
Lemma CountValues_unfold i b :
  Forall is_byte b → fits64 (length b) → b ≠ [] →
  CountValues_loop (length b) b i =
    let* (_, ts, cs) := readKind b in
    let b' := drop (Z.to_nat (ts + cs)) b in CountValues_loop (length b') b' (i + 1).
Proof.
  intros Hb Hf Hne. destruct b as [|b0 b']; [done|]. remember (b0 :: b') as b eqn:Eb.
  transitivity (CountValues_loop (S (length b)) b i); [apply CountValues_loop_enough; auto|].
  simpl. rewrite Eb at 1. destruct (readKind b) as [[[k ts] cs]| |] eqn:Hk; simpl; [|done..].
  apply readKind_sound in Hk as (h & c & r & Eq & -> & -> & Hlay); [|done..].
  apply CountValues_loop_enough; rewrite ?length_drop; try lia; [by apply Forall_drop|].
  unfold fits64 in *. lia.
Qed.

(** ** Split and CountValues on items *)

Definition item_kind (it : item) : Kind :=
  match it with
  | Str b => str_kind b
  | Lst _ => KList
  end.

Definition item_content (it : item) : bytes :=
  match it with
  | Str b => b
  | Lst l => concat (map rlp_enc l)
  end.

Lemma Split_rlp_enc it rest :
  item_ok it → Forall is_byte rest → fits64 (length (rlp_enc it ++ rest)) →
  Split (rlp_enc it ++ rest) = Ok (item_kind it, item_content it, rest).
Proof.
  intros Hok Hr Hf. destruct it as [b|l]; simpl.
  - by apply Split_enc_str.
  - apply Split_enc_list; [|done..]. apply item_ok_Lst in Hok. apply concat_enc_byte; [done|].
    eapply fits64_le; [|done]. simpl. rewrite length_app.
    pose proof (enc_list_length (concat (map rlp_enc l))). lia.
Qed.

Lemma CountValues_loop_items l i :
  Forall item_ok l → fits64 (length (concat (map rlp_enc l))) →
  let b := concat (map rlp_enc l) in
  CountValues_loop (length b) b i = Ok (i + Z.of_nat (length l)).
Proof.
  cbv zeta. revert i. induction l as [|x l IH]; intros i Hok Hf.
  - simpl. f_equal. lia.
  - pose proof (rlp_enc_nonempty x). pose proof (concat_enc_byte _ Hok Hf) as Hb.
    rewrite CountValues_unfold; [|done..|].
    2:{ intros E. rewrite concat_map_cons in E. apply (f_equal length) in E.
        rewrite length_app in E. simpl in E. lia. }
    rewrite concat_map_cons in *. apply Forall_cons in Hok as [Hx Hok].
    apply Forall_app in Hb as [Hbx Hbl].
    pose proof (Split_rlp_enc x _ Hx Hbl Hf) as HS. unfold Split in HS.
    destruct (readKind _) as [[[k ts] cs]| |] eqn:Hk; [|done..]. simpl in HS |- *.
    injection HS as _ _ ->. rewrite IH; [f_equal; simpl; lia|done|].
    eapply fits64_le; [|exact Hf]. rewrite length_app. lia.
Qed.

(** ** The panic of readKind *)

Lemma readSize_no_panic b slen : 1 ≤ slen → readSize b slen ≠ Panic.
Proof.
  intros Hs. unfold readSize. case_cmp; [done|].
  destruct (readSize_switch b slen <? 56); [done|].
  destruct b as [|b0 b]; [simpl in *; lia|]. unfold index. simpl. by destruct (b0 =? 0).
Qed.

Lemma readKind_panic_iff b : Forall is_byte b → readKind b = Panic ↔ b = [129].
Proof.
  intros Hb. split; [|by intros ->]. unfold readKind. destruct b as [|b0 b]; [done|].
  apply Forall_cons in Hb as [Hb0 _]. unfold is_byte in Hb0. intros H.
  assert (Hfin : ∀ k ts cs, (if u64 (Z.of_nat (length (b0 :: b)) - ts) <? cs
    then Err ErrValueTooLarge else Ok (k, ts, cs)) ≠ @Panic rlp_error (Kind * Z * Z))
    by (intros k ts cs H'; revert H'; case_cmp; discriminate).
  revert H. repeat case_cmp; cbn [obind]; try (intros H'; exfalso; eapply Hfin, H').
  - unfold index. destruct b as [|b1 b]; cbn [lookup list_lookup obind].
    + intros _. f_equal. lia.
    + case_cmp; [done|]. cbn [obind]. intros H'. exfalso. eapply Hfin, H'.
  - destruct (readSize b (b0 - 183)) eqn:E; cbn [obind]; [|done|].
    + intros H'. exfalso. eapply Hfin, H'.
    + apply readSize_no_panic in E; [done|lia].
  - destruct (readSize b (b0 - 247)) eqn:E; cbn [obind]; [|done|].
    + intros H'. exfalso. eapply Hfin, H'.
    + apply readSize_no_panic in E; [done|lia].
Qed.

(** ** Properties *)

(** Splitting the encoding of an item, followed by any bytes, returns its
    kind, its content and exactly the bytes that follow. *)
Theorem Split_roundtrip it rest :
  item_ok it → Forall is_byte rest → fits64 (length (rlp_enc it ++ rest)) →
  Split (rlp_enc it ++ rest) = Ok (item_kind it, item_content it, rest).
Proof. apply Split_rlp_enc. Qed.

Lemma Split_roundtrip_witness :
  Split (rlp_enc (Lst [Str [7]; Str [200; 1]]) ++ [5; 6])
    = Ok (KList, [7; 130; 200; 1], [5; 6]).
Proof.
  apply (Split_roundtrip (Lst [Str [7]; Str [200; 1]]) [5; 6]).
  - repeat split; repeat constructor; unfold is_byte; lia.
  - repeat constructor; unfold is_byte; lia.
  - vm_compute. reflexivity.
Defined.

(** Split accepts only canonical encodings: whatever it returns, the input
    is the canonical encoding of the returned content followed by the returned
    rest, so no other byte string encodes the same value. *)
Theorem Split_canonical b k content rest :
  Forall is_byte b → fits64 (length b) → Split b = Ok (k, content, rest) →
  b = enc_kind k content ++ rest ∧ (k ≠ KList → k = str_kind content).
Proof. apply Split_sound. Qed.

Lemma Split_canonical_witness :
  [130; 200; 1; 5] = enc_kind KString [200; 1] ++ [5].
Proof.
  apply (Split_canonical [130; 200; 1; 5] KString [200; 1] [5]).
  - repeat constructor; unfold is_byte; lia.
  - vm_compute. reflexivity.
  - vm_compute. reflexivity.
Defined.

(** [CountValues] counts the items of a concatenation of encodings. *)
Theorem CountValues_items l :
  Forall item_ok l → fits64 (length (concat (map rlp_enc l))) →
  CountValues (concat (map rlp_enc l)) = Ok (Z.of_nat (length l)).
Proof. intros. unfold CountValues. by rewrite CountValues_loop_items. Qed.

Lemma CountValues_items_witness :
  CountValues (concat (map rlp_enc [Str []; Lst [Str [1]]; Str [255]])) = Ok 3.
Proof.
  apply (CountValues_items [Str []; Lst [Str [1]]; Str [255]]).
  - repeat (constructor; simpl; try done); unfold is_byte; lia.
  - vm_compute. reflexivity.
Defined.

(** The one byte string on which Split panics is 0x81 alone, where readKind
    reads [buf[1]] before comparing the content size with the input length; on
    every other byte string it returns a value or an error. *)
Theorem Split_panics_only_on_81 b : Forall is_byte b → (Split b = Panic ↔ b = [129]).
Proof.
  intros Hb. rewrite <-readKind_panic_iff by done. unfold Split.
  by destruct (readKind b) as [[[k ts] cs]| |].
Qed.

Lemma Split_panics_only_on_81_witness : Split [129] = Panic.
Proof. apply (Split_panics_only_on_81 [129]); [repeat constructor; unfold is_byte; lia|reflexivity]. Defined.
