(* ===== verification/RlpEncode.v ===== *)
(** * The RLP encoder (common/rlp/encode.go)

    The encoder buffers string data and list headers apart ([encbuf]): a list
    header is recorded when the list starts, its size is filled in when the
    list ends, and [toBytes]/[toWriter]/[encReader] merge both.  The Go values
    handed to the reflection based writers are the type [gval]. *)

From S2P Require Import Prelude RlpSpec.
Local Open Scope Z_scope.

(** ** The buffer *)

Record listhead := Listhead { lh_offset : nat; lh_size : Z }.

Record encbuf := Encbuf { e_str : bytes; e_lheads : list listhead; e_lhsize : Z }.

(** listhead.encode *)
Definition listhead_encode (head : listhead) : bytes := puthead 192 247 (u64 (lh_size head)).

(** encbuf.reset: an empty buffer. *)
Definition encbuf_reset : encbuf := Encbuf [] [] 0.

Definition encbuf_size (w : encbuf) : Z := Z.of_nat (length (e_str w)) + e_lhsize w.

(** encbuf.Write and the [append(w.str, ...)] statements. *)
Definition encbuf_Write (b : bytes) (w : encbuf) : encbuf :=
  Encbuf (e_str w ++ b) (e_lheads w) (e_lhsize w).

Definition encodeStringHeader (size : Z) (w : encbuf) : encbuf :=
  if size <? 56 then encbuf_Write [u8 (128 + u8 size)] w
  else let sz := putint (u64 size) in
       encbuf_Write (u8 (183 + u8 (Z.of_nat (length sz))) :: sz) w.

Definition encodeString (b : bytes) (w : encbuf) : encbuf :=
  match b with
  | [x] => if x <=? 127 then encbuf_Write [x] w
           else encbuf_Write b (encodeStringHeader 1 w)
  | _ => encbuf_Write b (encodeStringHeader (Z.of_nat (length b)) w)
  end.

(** encbuf.list: the returned pointer is the index of the new header, which
    [lheads] shares; its size field holds the header bytes so far. *)
Definition encbuf_list (w : encbuf) : nat * encbuf :=
  (length (e_lheads w),
   Encbuf (e_str w) (e_lheads w ++ [Listhead (length (e_str w)) (e_lhsize w)]) (e_lhsize w)).

Definition encbuf_listEnd (lh : nat) (w : encbuf) : encbuf :=
  match e_lheads w !! lh with
  | None => w
  | Some h =>
      let size := encbuf_size w - Z.of_nat (lh_offset h) - lh_size h in
      Encbuf (e_str w) (<[lh := Listhead (lh_offset h) size]> (e_lheads w))
        (if size <? 56 then e_lhsize w + 1
         else e_lhsize w + (1 + Z.of_nat (intsize (u64 size))))
  end.

(** ** Output *)

(** The loop of toBytes over the list headers: position in the string data,
    position in [out], and [out]. *)
Fixpoint toBytes_loop (heads : list listhead) (str : bytes) (strpos pos : nat) (out : bytes)
  : outcome rlp_error (nat * nat * bytes) :=
  match heads with
  | [] => Ok (strpos, pos, out)
  | head :: heads' =>
      let* data := str.[strpos : lh_offset head] in
      let n := Nat.min (length out - pos) (length data) in
      let out := copy_at out pos data in
      let pos := (pos + n)%nat in
      let strpos := (strpos + n)%nat in
      let enc := listhead_encode head in
      if (length out - pos <? length enc)%nat then Panic
      else toBytes_loop heads' str strpos (pos + length enc) (copy_at out pos enc)
  end.

Definition toBytes (w : encbuf) : outcome rlp_error bytes :=
  let out := replicate (Z.to_nat (encbuf_size w)) 0 in
  let* (strpos, pos, out) := toBytes_loop (e_lheads w) (e_str w) 0 0 out in
  let* data := (e_str w).[strpos : length (e_str w)] in
  Ok (copy_at out pos data).

(** toWriter onto a writer that accepts every byte (a bytes.Buffer): what has
    been written so far is [acc]. *)
Fixpoint toWriter_loop (heads : list listhead) (str : bytes) (strpos : nat) (acc : bytes)
  : outcome rlp_error (nat * bytes) :=
  match heads with
  | [] => Ok (strpos, acc)
  | head :: heads' =>
      if (strpos <? lh_offset head)%nat then
        let* data := str.[strpos : lh_offset head] in
        toWriter_loop heads' str (strpos + length data) (acc ++ data ++ listhead_encode head)
      else toWriter_loop heads' str strpos (acc ++ listhead_encode head)
  end.

Definition toWriter (w : encbuf) (out : bytes) : outcome rlp_error bytes :=
  let* (strpos, acc) := toWriter_loop (e_lheads w) (e_str w) 0 out in
  if (strpos <? length (e_str w))%nat then
    let* data := (e_str w).[strpos : length (e_str w)] in Ok (acc ++ data)
  else Ok acc.

(** ** Values and their writers *)

(** A Go value as the type-directed writers see it.  A value of a type with an
    EncodeRLP method is [GEncoder v] where the method calls [rlp.Encode(w, v)];
    a nil pointer is encoded by the kind of its element type. *)
Inductive gval :=
| GRaw (b : bytes)
| GEncoder (v : gval)
| GNilIface
| GIface (v : gval)
| GBigNil
| GBig (i : Z)
| GUint (i : Z)
| GBool (b : bool)
| GString (b : bytes)
| GBytes (b : bytes)
| GSlice (tail : bool) (vs : list gval)
| GStruct (fields : list gval)
| GPtr (v : gval)
| GNilPtrByteArray
| GNilPtrStruct
| GNilPtr (zero : gval).

Definition writeUint (i : Z) (w : encbuf) : encbuf :=
  if i =? 0 then encbuf_Write [128] w
  else if i <? 128 then encbuf_Write [u8 i] w
  else let s := putint i in
       encbuf_Write (u8 (128 + u8 (Z.of_nat (length s))) :: s) w.

Definition writeBool (b : bool) (w : encbuf) : encbuf :=
  encbuf_Write [if b then 1 else 128] w.

Definition writeBigInt (i : Z) (w : encbuf) : outcome rlp_error encbuf :=
  if i <? 0 then Err errNegativeBigInt
  else if i =? 0 then Ok (encbuf_Write [128] w)
  else Ok (encodeString (be_bytes i) w).

(** encbuf.encode: the writer selected by makeWriter for the value's type.
    The [defer] of the slice writer runs listEnd after the elements. *)
Fixpoint write (v : gval) (w : encbuf) : outcome rlp_error encbuf :=
  match v with
  | GRaw b => Ok (encbuf_Write b w)
  | GEncoder v => write v w
  | GNilIface => Ok (encbuf_Write [192] w)
  | GIface v => write v w
  | GBigNil => Ok (encbuf_Write [128] w)
  | GBig i => writeBigInt i w
  | GUint i => Ok (writeUint i w)
  | GBool b => Ok (writeBool b w)
  | GString b => Ok (encodeString b w)
  | GBytes b => Ok (encodeString b w)
  | GSlice true vs => oloop write vs w
  | GSlice false vs | GStruct vs =>
      let (lh, w) := encbuf_list w in
      let* w := oloop write vs w in
      Ok (encbuf_listEnd lh w)
  | GPtr v => write v w
  | GNilPtrByteArray => Ok (encbuf_Write [128] w)
  | GNilPtrStruct => let (lh, w) := encbuf_list w in Ok (encbuf_listEnd lh w)
  | GNilPtr zero => write zero w
  end.

Definition EncodeToBytes (v : gval) : outcome rlp_error bytes :=
  let* w := write v encbuf_reset in toBytes w.

(** Encode onto a plain writer that already holds [out]. *)
Definition Encode (out : bytes) (v : gval) : outcome rlp_error bytes :=
  let* w := write v encbuf_reset in toWriter w out.

(** ** The reader returned by EncodeToReader *)

Record encReader := EncReader {
  r_buf : option encbuf;
  r_lhpos : nat;
  r_strpos : nat;
  r_piece : option bytes
}.

(** encReader.next: the next piece and the reader after it. *)
Definition encReader_next (r : encReader) : outcome rlp_error (option bytes * encReader) :=
  match r_buf r with
  | None => Ok (None, r)
  | Some w =>
      match r_piece r with
      | Some p => Ok (Some p, r)
      | None =>
          match e_lheads w !! r_lhpos r with
          | Some head =>
              if (r_strpos r <? lh_offset head)%nat then
                let* p := (e_str w).[r_strpos r : lh_offset head] in
                Ok (Some p, EncReader (Some w) (r_lhpos r) (lh_offset head) None)
              else Ok (Some (listhead_encode head), EncReader (Some w) (S (r_lhpos r)) (r_strpos r) None)
          | None =>
              if (r_strpos r <? length (e_str w))%nat then
                let* p := (e_str w).[r_strpos r : length (e_str w)] in
                Ok (Some p, EncReader (Some w) (r_lhpos r) (length (e_str w)) None)
              else Ok (None, r)
          end
      end
  end.

(** The loop of encReader.Read into a buffer with [room] bytes left; [got] is
    what was copied so far.  The result is the data, whether EOF was returned,
    and the reader.  [None] means that [rounds] was too small. *)
Fixpoint encReader_Read_loop (rounds room : nat) (got : bytes) (r : encReader)
  : option (outcome rlp_error (bytes * bool * encReader)) :=
  match rounds with
  | O => None
  | S rounds' =>
      match encReader_next r with
      | Err e => Some (Err e)
      | Panic => Some Panic
      | Ok (None, r) => Some (Ok (got, true, EncReader None (r_lhpos r) (r_strpos r) None))
      | Ok (Some piece, r) =>
          if (room <? length piece)%nat then
            Some (Ok (got ++ take room piece, false,
                      EncReader (r_buf r) (r_lhpos r) (r_strpos r) (Some (drop room piece))))
          else encReader_Read_loop rounds' (room - length piece) (got ++ piece)
                 (EncReader (r_buf r) (r_lhpos r) (r_strpos r) None)
      end
  end.

(** Every round but the last passes a header or a stretch of string data. *)
Definition encReader_rounds (r : encReader) : nat :=
  match r_buf r with
  | None => 1
  | Some w => 4 + 2 * (length (e_lheads w) - r_lhpos r)
  end.

Definition encReader_Read (n : nat) (r : encReader) :=
  encReader_Read_loop (encReader_rounds r) n [] r.

Definition EncodeToReader (v : gval) : outcome rlp_error (Z * encReader) :=
  let* w := write v encbuf_reset in Ok (encbuf_size w, EncReader (Some w) 0 0 None).

(** ** The reference encoding of values *)

Definition opt_concat (l : list (option bytes)) : option bytes :=
  foldr (λ o acc, b ← o; r ← acc; Some (b ++ r)) (Some []) l.

(** The bytes a value stands for; [None] when it holds a negative integer. *)
Fixpoint gval_enc (v : gval) : option bytes :=
  match v with
  | GRaw b => Some b
  | GEncoder v | GIface v | GPtr v | GNilPtr v => gval_enc v
  | GNilIface | GNilPtrStruct => Some (enc_list [])
  | GBigNil | GNilPtrByteArray => Some (enc_str [])
  | GBig i => if i <? 0 then None else Some (enc_str (be_bytes i))
  | GUint i => Some (enc_str (be_bytes i))
  | GBool b => Some (enc_str (if b then [1] else []))
  | GString b | GBytes b => Some (enc_str b)
  | GSlice true vs => opt_concat (map gval_enc vs)
  | GSlice false vs | GStruct vs => enc_list <$> opt_concat (map gval_enc vs)
  end.

(** A [uint] field holds a 64-bit value. *)
Fixpoint gval_ok (v : gval) : Prop :=
  match v with
  | GUint i => 0 ≤ i < 2 ^ 64
  | GEncoder v | GIface v | GPtr v | GNilPtr v => gval_ok v
  | GSlice _ vs | GStruct vs => foldr (λ v P, gval_ok v ∧ P) True vs
  | _ => True
  end.

(** Induction over values with the hypothesis for every element of a list. *)
Definition gval_leaf (v : gval) : bool :=
  match v with
  | GEncoder _ | GIface _ | GPtr _ | GNilPtr _ | GSlice _ _ | GStruct _ => false
  | _ => true
  end.

Section GvalInd.
Variable P : gval → Prop.
Hypothesis Hleaf : ∀ v, gval_leaf v = true → P v.
Hypothesis Hwrap : ∀ v, P v → P (GEncoder v) ∧ P (GIface v) ∧ P (GPtr v) ∧ P (GNilPtr v).
Hypothesis Hlist : ∀ vs, Forall P vs → (∀ t, P (GSlice t vs)) ∧ P (GStruct vs).

Fixpoint gval_ind' (v : gval) : P v :=
  let go := fix go (vs : list gval) : Forall P vs :=
    match vs with
    | [] => Forall_nil_2 _
    | x :: vs' => Forall_cons_2 _ _ _ (gval_ind' x) (go vs')
    end in
  match v with
  | GEncoder v => proj1 (Hwrap v (gval_ind' v))
  | GIface v => proj1 (proj2 (Hwrap v (gval_ind' v)))
  | GPtr v => proj1 (proj2 (proj2 (Hwrap v (gval_ind' v))))
  | GNilPtr v => proj2 (proj2 (proj2 (Hwrap v (gval_ind' v))))
  | GSlice t vs => proj1 (Hlist vs (go vs)) t
  | GStruct vs => proj2 (Hlist vs (go vs))
  | v => Hleaf v eq_refl
  end.
End GvalInd.

(** ** Merging string data and list headers *)

(** The bytes of string data [s] that starts at offset [base], with the headers
    [hs] inserted at their offsets. *)
Fixpoint render (base : nat) (s : bytes) (hs : list listhead) : bytes :=
  match hs with
  | [] => s
  | h :: hs' =>
      let k := (lh_offset h - base)%nat in
      take k s ++ listhead_encode h ++ render (lh_offset h) (drop k s) hs'
  end.

(** Offsets do not decrease and stay between [base] and [last]. *)
Fixpoint heads_ok (base last : nat) (hs : list listhead) : Prop :=
  match hs with
  | [] => (base ≤ last)%nat
  | h :: hs' => (base ≤ lh_offset h)%nat ∧ heads_ok (lh_offset h) last hs'
  end.

Lemma heads_ok_le base last hs : heads_ok base last hs → (base ≤ last)%nat.
Proof.
  revert base. induction hs as [|h hs IH]; intros base; simpl; [done|].
  intros [H1 H2%IH]. lia.
Qed.

Lemma heads_ok_app base mid last hs1 hs2 :
  heads_ok base mid hs1 → heads_ok mid last hs2 → heads_ok base last (hs1 ++ hs2).
Proof.
  revert base. induction hs1 as [|h hs1 IH]; intros base; simpl.
  - destruct hs2 as [|h hs2]; simpl; [lia|]. intros ? [? ?]. split; [lia|done].
  - intros [? ?] ?. eauto.
Qed.

Lemma render_app base s1 s2 hs1 hs2 :
  heads_ok base (base + length s1) hs1 →
  heads_ok (base + length s1) (base + length s1 + length s2) hs2 →
  render base (s1 ++ s2) (hs1 ++ hs2) = render base s1 hs1 ++ render (base + length s1) s2 hs2.
Proof.
  revert base s1. induction hs1 as [|h hs1 IH]; intros base s1 H1 H2; simpl.
  - destruct hs2 as [|h hs2]; simpl in *; [done|]. destruct H2 as [H2 H3].
    replace (lh_offset h - base)%nat with (length s1 + (lh_offset h - (base + length s1)))%nat by lia.
    rewrite take_app_add, drop_app_add, <-app_assoc. done.
  - destruct H1 as [H1 H1']. pose proof (heads_ok_le _ _ _ H1') as Hle.
    rewrite take_app_le, drop_app_le by lia. rewrite <-!app_assoc. do 2 f_equal.
    assert (length (drop (lh_offset h - base) s1) = base + length s1 - lh_offset h)%nat as Hd
      by (rewrite length_drop; lia).
    rewrite IH.
    + f_equal. f_equal. lia.
    + rewrite Hd. replace (_ + _)%nat with (base + length s1)%nat by lia. done.
    + rewrite Hd. replace (lh_offset h + _)%nat with (base + length s1)%nat by lia. done.
Qed.

(** ** The three outputs render the buffer *)

Definition heads_size (hs : list listhead) : nat := sum_list (map (length ∘ listhead_encode) hs).

Lemma length_render base s hs :
  heads_ok base (base + length s) hs → length (render base s hs) = (length s + heads_size hs)%nat.
Proof.
  unfold heads_size. revert base s. induction hs as [|h hs IH]; intros base s Hok; simpl; [lia|].
  destruct Hok as [H1 H2]. pose proof (heads_ok_le _ _ _ H2).
  rewrite !length_app, length_take, IH, length_drop; [lia|].
  rewrite length_drop. replace (_ + _)%nat with (base + length s)%nat by lia. done.
Qed.

Lemma toBytes_loop_spec heads str strpos dn rest :
  heads_ok strpos (length str) heads →
  length rest = length (render strpos (drop strpos str) heads) →
  ∃ strpos' dn' rest',
    toBytes_loop heads str strpos (length dn) (dn ++ rest) = Ok (strpos', length dn', dn' ++ rest') ∧
    (strpos' ≤ length str)%nat ∧ length rest' = length (drop strpos' str) ∧
    dn' ++ drop strpos' str = dn ++ render strpos (drop strpos str) heads.
Proof.
  revert strpos dn rest. induction heads as [|h hs IH]; intros strpos dn rest Hok Hlen.
  - simpl in *. exists strpos, dn, rest. done.
  - simpl in Hok, Hlen. destruct Hok as [Hle Hok]. pose proof (heads_ok_le _ _ _ Hok) as Hle'.
    cbn [toBytes_loop]. rewrite slice_Ok by lia. cbn [obind].
    set (data := take (lh_offset h - strpos) (drop strpos str)) in *.
    assert (length data = lh_offset h - strpos)%nat as Hdata
      by (unfold data; rewrite length_take, length_drop; lia).
    rewrite drop_drop in Hlen. replace (strpos + _)%nat with (lh_offset h) in Hlen by lia.
    rewrite !length_app in Hlen.
    rewrite copy_at_app, (length_app dn rest) by lia.
    replace (Nat.min _ _) with (length data) by lia.
    rewrite <-(length_app dn data). rewrite length_app, length_drop.
    replace (_ <? _)%nat with false by (symmetry; apply Nat.ltb_ge; lia).
    rewrite copy_at_app, <-(length_app (dn ++ data)) by (rewrite length_drop; lia).
    replace (strpos + length data)%nat with (lh_offset h) by lia.
    destruct (IH (lh_offset h) ((dn ++ data) ++ listhead_encode h)
      (drop (length (listhead_encode h)) (drop (length data) rest)))
      as (sp & dn' & rest' & -> & ? & ? & E); [done|rewrite !length_drop; lia|].
    exists sp, dn', rest'. split_and!; [done..|]. rewrite E. simpl. rewrite drop_drop.
    replace (strpos + (lh_offset h - strpos))%nat with (lh_offset h) by lia.
    by rewrite <-!app_assoc.
Qed.

Lemma toBytes_render w :
  heads_ok 0 (length (e_str w)) (e_lheads w) →
  e_lhsize w = Z.of_nat (heads_size (e_lheads w)) →
  toBytes w = Ok (render 0 (e_str w) (e_lheads w)).
Proof.
  intros Hok Hsz. unfold toBytes.
  destruct (toBytes_loop_spec (e_lheads w) (e_str w) 0 [] (replicate (Z.to_nat (encbuf_size w)) 0))
    as (sp & dn & rest & E & Hsp & Hrest & Heq); [done| |].
  { rewrite drop_0, length_replicate, length_render by done. unfold encbuf_size. lia. }
  simpl in E. rewrite E. cbn [obind]. rewrite slice_Ok by lia. cbn [obind].
  rewrite take_ge by (rewrite length_drop; lia). rewrite copy_at_app by lia.
  rewrite (drop_ge rest) by lia. rewrite app_nil_r, Heq, drop_0. done.
Qed.

Lemma toWriter_loop_spec heads str strpos acc :
  heads_ok strpos (length str) heads →
  ∃ strpos' acc', toWriter_loop heads str strpos acc = Ok (strpos', acc') ∧
    (strpos' ≤ length str)%nat ∧
    acc' ++ drop strpos' str = acc ++ render strpos (drop strpos str) heads.
Proof.
  revert strpos acc. induction heads as [|h hs IH]; intros strpos acc Hok.
  - simpl in *. by exists strpos, acc.
  - destruct Hok as [Hle Hok]. pose proof (heads_ok_le _ _ _ Hok) as Hle'. simpl.
    rewrite drop_drop. replace (strpos + (lh_offset h - strpos))%nat with (lh_offset h) by lia.
    case_cmp.
    + rewrite slice_Ok by lia. cbn [obind].
      rewrite length_take, length_drop. replace (strpos + _)%nat with (lh_offset h) by lia.
      destruct (IH (lh_offset h) (acc ++ take (lh_offset h - strpos) (drop strpos str) ++ listhead_encode h) Hok)
        as (sp & acc' & -> & ? & E). exists sp, acc'. split_and!; [done..|]. by rewrite E, <-!app_assoc.
    + replace (lh_offset h) with strpos in * by lia. rewrite Nat.sub_diag. simpl.
      destruct (IH strpos (acc ++ listhead_encode h) Hok) as (sp & acc' & -> & ? & E).
      exists sp, acc'. split_and!; [done..|]. by rewrite E, <-!app_assoc.
Qed.

Lemma toWriter_render w out :
  heads_ok 0 (length (e_str w)) (e_lheads w) →
  toWriter w out = Ok (out ++ render 0 (e_str w) (e_lheads w)).
Proof.
  intros Hok. unfold toWriter.
  destruct (toWriter_loop_spec (e_lheads w) (e_str w) 0 out Hok) as (sp & acc & -> & Hsp & E).
  cbn [obind]. rewrite drop_0 in E. rewrite <-E. case_cmp.
  - rewrite slice_Ok by lia. cbn [obind]. rewrite take_ge by (rewrite length_drop; lia). done.
  - rewrite drop_ge by lia. by rewrite app_nil_r.
Qed.

(** ** What a writer adds to the buffer *)

Lemma encbuf_Write_app a b w : encbuf_Write b (encbuf_Write a w) = encbuf_Write (a ++ b) w.
Proof. unfold encbuf_Write. simpl. by rewrite app_assoc. Qed.

Lemma encodeStringHeader_spec n w :
  fits64 n → encodeStringHeader (Z.of_nat n) w = encbuf_Write (header 128 183 n) w.
Proof.
  intros Hn. rewrite <-puthead_spec by (done || lia). unfold fits64 in Hn.
  unfold encodeStringHeader, puthead. rewrite (wrap_small 64) by lia. by case_cmp.
Qed.

Lemma encodeString_spec b w :
  fits64 (length b) → encodeString b w = encbuf_Write (enc_str b) w.
Proof.
  intros Hb. destruct b as [|x [|y b]].
  - unfold encodeString. rewrite encodeStringHeader_spec, encbuf_Write_app by done. done.
  - unfold encodeString, enc_str. do 2 case_cmp; [done|]. 
    change 1 with (Z.of_nat 1). rewrite encodeStringHeader_spec, encbuf_Write_app by done. done.
  - unfold encodeString. rewrite encodeStringHeader_spec, encbuf_Write_app by done. done.
Qed.

Lemma enc_str_uint i : 0 ≤ i < 2 ^ 64 → ∀ w, writeUint i w = encbuf_Write (enc_str (be_bytes i)) w.
Proof.
  intros Hi w. unfold writeUint. destruct (Z.eqb_spec i 0); [by subst|].
  pose proof (byte_len_8 i ltac:(lia)) as Hbl.
  destruct (be_bytes i) as [|x [|y l]] eqn:E.
  - apply (f_equal length) in E. rewrite length_be_bytes in E. simpl in E. lia.
  - pose proof (be_val_bytes i ltac:(lia)) as Hv. rewrite E in Hv. unfold be_val in Hv. simpl in Hv.
    assert (x = i) as -> by lia. unfold enc_str. case_cmp.
    + rewrite wrap_small by (simpl; lia). done.
    + rewrite putint_spec, E by lia. done.
  - case_cmp.
    + exfalso. assert (byte_len i = 1%nat) as Hl by (apply byte_len_unique; simpl; lia).
      rewrite <-length_be_bytes, E in Hl. done.
    + rewrite putint_spec, length_be_bytes by lia. unfold enc_str, header.
      rewrite <-E, length_be_bytes. case_cmp.
      rewrite (wrap_small 8 (Z.of_nat (byte_len i))), wrap_small by (simpl; lia). done.
Qed.

(** [appends w w' bs]: [w'] is [w] with string data and headers added that
    render as [bs]. *)
Definition appends (w w' : encbuf) (bs : bytes) : Prop :=
  ∃ s hs,
    w' = Encbuf (e_str w ++ s) (e_lheads w ++ hs)
           (e_lhsize w + (Z.of_nat (length bs) - Z.of_nat (length s))) ∧
    heads_ok (length (e_str w)) (length (e_str w) + length s) hs ∧
    render (length (e_str w)) s hs = bs.

Lemma appends_Write bs w : appends w (encbuf_Write bs w) bs.
Proof.
  exists bs, []. unfold encbuf_Write. rewrite app_nil_r. split_and!; simpl; [f_equal; lia|lia|done].
Qed.

Lemma appends_nil w : appends w w [].
Proof. exists [], []. rewrite !app_nil_r. destruct w; simpl. split_and!; [f_equal; lia|lia|done]. Qed.

Lemma appends_trans w w1 w2 b1 b2 :
  appends w w1 b1 → appends w1 w2 b2 → appends w w2 (b1 ++ b2).
Proof.
  intros (s1 & hs1 & -> & Hok1 & R1) (s2 & hs2 & -> & Hok2 & R2). simpl in *.
  rewrite length_app in *. exists (s1 ++ s2), (hs1 ++ hs2). rewrite <-!app_assoc, !length_app.
  split_and!.
  - f_equal. lia.
  - eapply heads_ok_app; [done|]. by rewrite <-Nat.add_assoc in Hok2.
  - by rewrite render_app, R1, R2.
Qed.

Lemma appends_list w lh w1 w2 bs :
  encbuf_list w = (lh, w1) → appends w1 w2 bs → fits64 (length bs) →
  appends w (encbuf_listEnd lh w2) (enc_list bs).
Proof.
  unfold encbuf_list. intros [= <- <-] (s & hs & -> & Hok & R) Hf. simpl in *.
  unfold encbuf_listEnd, encbuf_size. simpl. rewrite <-app_assoc, lookup_app_r, Nat.sub_diag by lia.
  simpl. rewrite length_app. pose proof Hf as Hf'. unfold fits64 in Hf'.
  replace (Z.of_nat (length (e_str w) + length s) + _ - _ - _) with (Z.of_nat (length bs)) by lia.
  rewrite insert_app_r_alt, Nat.sub_diag by lia. simpl.
  exists s, (Listhead (length (e_str w)) (Z.of_nat (length bs)) :: hs).
  unfold enc_list. rewrite length_app. simpl. rewrite Nat.sub_diag. simpl.
  split_and!; [|lia|done|].
  - f_equal. rewrite <-(headsize_spec 192 247) by done. unfold headsize.
    rewrite (wrap_small 64) by lia. case_cmp; lia.
  - unfold listhead_encode. simpl. rewrite (wrap_small 64), puthead_spec by (done || lia).
    rewrite drop_0, R. done.
Qed.

Lemma opt_concat_cons o l bs :
  opt_concat (o :: l) = Some bs ↔ ∃ b r, o = Some b ∧ opt_concat l = Some r ∧ bs = b ++ r.
Proof.
  unfold opt_concat. simpl. destruct o as [b|]; simpl; [|naive_solver].
  destruct (foldr _ _ l) as [r|]; simpl; naive_solver.
Qed.

(** A value is written as its reference encoding, whatever the buffer holds. *)
Definition writes_ok (v : gval) : Prop :=
  gval_ok v → ∀ bs w, gval_enc v = Some bs → fits64 (length bs) →
  ∃ w', write v w = Ok w' ∧ appends w w' bs.

Lemma write_all_spec vs :
  Forall writes_ok vs → foldr (λ v P, gval_ok v ∧ P) True vs →
  ∀ bs w, opt_concat (map gval_enc vs) = Some bs → fits64 (length bs) →
  ∃ w', oloop write vs w = Ok w' ∧ appends w w' bs.
Proof.
  induction 1 as [|v vs Hv _ IH]; simpl; intros Hok bs w Hbs Hf.
  - injection Hbs as <-. eauto using appends_nil.
  - destruct Hok as [Hokv Hok]. apply opt_concat_cons in Hbs as (b & r & Eb & Er & ->).
    rewrite length_app in Hf. destruct (Hv Hokv b w Eb) as (w1 & -> & A1); [eapply fits64_le; [|done]; lia|].
    simpl. destruct (IH Hok r w1 Er) as (w2 & -> & A2); [eapply fits64_le; [|done]; lia|].
    eauto using appends_trans.
Qed.

Lemma write_spec v : writes_ok v.
Proof.
  revert v. apply gval_ind'; [intros v Hleaf|intros v IH|intros vs IH].
  - intros Hok bs w Hbs Hf. destruct v; try done; simpl in *; simplify_eq.
    + eauto using appends_Write.
    + eauto using appends_Write.
    + eauto using appends_Write.
    + unfold writeBigInt. destruct (Z.ltb_spec i 0); simplify_eq.
      destruct (Z.eqb_spec i 0) as [->|]; eexists; (split; [done|]); [apply appends_Write|].
      rewrite encodeString_spec; [apply appends_Write|].
      eapply fits64_le; [apply enc_str_length|done].
    + rewrite enc_str_uint by done. eauto using appends_Write.
    + eexists. split; [done|]. unfold writeBool. destruct b; apply appends_Write.
    + rewrite encodeString_spec by (eapply fits64_le; [apply enc_str_length|done]).
      eauto using appends_Write.
    + rewrite encodeString_spec by (eapply fits64_le; [apply enc_str_length|done]).
      eauto using appends_Write.
    + eauto using appends_Write.
    + eexists. split; [done|]. eapply (appends_list w _ _ _ []); [done|apply appends_nil|done].
  - done.
  - assert (Hlist : foldr (λ v P, gval_ok v ∧ P) True vs → ∀ bs w,
      enc_list <$> opt_concat (map gval_enc vs) = Some bs → fits64 (length bs) →
      ∃ w', (let (lh, w) := encbuf_list w in
             let* w := oloop write vs w in Ok (encbuf_listEnd lh w)) = Ok w' ∧ appends w w' bs).
    { intros Hok bs w Hbs Hf. apply fmap_Some in Hbs as (p & Hp & ->).
      assert (fits64 (length p)) by (eapply fits64_le; [|done]; pose proof (enc_list_length p); lia).
      destruct (encbuf_list w) as [lh w1] eqn:El.
      destruct (write_all_spec vs IH Hok p w1 Hp) as (w2 & -> & A); [done|].
      eexists. split; [done|]. by eapply appends_list. }
    split; [intros [|]|]; intros Hok bs w; simpl in *; eauto using write_all_spec.
Qed.

Lemma appends_reset w bs :
  appends encbuf_reset w bs →
  heads_ok 0 (length (e_str w)) (e_lheads w) ∧
  e_lhsize w = Z.of_nat (heads_size (e_lheads w)) ∧
  render 0 (e_str w) (e_lheads w) = bs.
Proof.
  intros (s & hs & -> & Hok & R). simpl in *. split_and!; [done| |done].
  rewrite <-R, length_render by done. lia.
Qed.

Lemma write_none v : gval_enc v = None → ∀ w, write v w = Err errNegativeBigInt.
Proof.
  intros Hn.
  assert ((∀ bs, gval_enc v = Some bs → ∀ w, ∃ w', write v w = Ok w') ∧
          (gval_enc v = None → ∀ w, write v w = Err errNegativeBigInt)) as [_ H]; [|by apply H].
  clear Hn. revert v.
  assert (Hall : ∀ vs, Forall (λ v, (∀ bs, gval_enc v = Some bs → ∀ w, ∃ w', write v w = Ok w') ∧
    (gval_enc v = None → ∀ w, write v w = Err errNegativeBigInt)) vs →
    (∀ bs, opt_concat (map gval_enc vs) = Some bs → ∀ w, ∃ w', oloop write vs w = Ok w') ∧
    (opt_concat (map gval_enc vs) = None → ∀ w, oloop write vs w = Err errNegativeBigInt)).
  { induction 1 as [|v vs [Hs Hn] _ [IHs IHn]]; [split; [simpl; eauto|discriminate]|]. simpl map. split.
    - intros bs (b & r & Eb & Er & ->)%opt_concat_cons w. simpl.
      destruct (Hs b Eb w) as [w1 ->]. simpl. eauto.
    - unfold opt_concat in *. simpl. intros E w.
      destruct (gval_enc v) as [b|] eqn:Ev; simpl in E.
      + destruct (Hs b eq_refl w) as [w1 ->]. simpl. apply IHn.
        by destruct (foldr _ _ (map gval_enc vs)).
      + by rewrite Hn. }
  apply gval_ind'; [intros v Hleaf|intros v IH; split_and!; apply IH|].
  - destruct v; try done; simpl; unfold writeBigInt; split; try (intros; by eauto).
    + destruct (i <? 0); [done|]. intros. destruct (i =? 0); eauto.
    + by destruct (i <? 0).
  - intros vs [Hs Hn]%Hall. split; [intros [|]|]; simpl; (split; [|done || (intros E w)]).
    + done.
    + intros bs E w. apply fmap_Some in E as (p & Hp & _).
      destruct (Hs p Hp (snd (encbuf_list w))) as [w1 E1]. unfold encbuf_list in *. simpl in *.
      rewrite E1. simpl. eauto.
    + apply fmap_None in E. by rewrite Hn.
    + intros bs E w. apply fmap_Some in E as (p & Hp & _).
      destruct (Hs p Hp (snd (encbuf_list w))) as [w1 E1]. unfold encbuf_list in *. simpl in *.
      rewrite E1. simpl. eauto.
    + apply fmap_None in E. by rewrite Hn.
Qed.

(** ** The reader *)

(** The bytes a reader still has to deliver. *)
Definition encReader_rest (r : encReader) : bytes :=
  match r_buf r with
  | None => []
  | Some w => default [] (r_piece r)
      ++ render (r_strpos r) (drop (r_strpos r) (e_str w)) (drop (r_lhpos r) (e_lheads w))
  end.

Definition encReader_ok (r : encReader) : Prop :=
  match r_buf r with
  | None => True
  | Some w => heads_ok (r_strpos r) (length (e_str w)) (drop (r_lhpos r) (e_lheads w))
  end.

(** Rounds the Read loop needs: two per header, one for the tail, one to see
    the end, one for a piece left over. *)
Definition encReader_need (r : encReader) : nat :=
  match r_buf r with
  | None => 1
  | Some w => (if r_piece r then 1 else 0) + 2 * (length (e_lheads w) - r_lhpos r)
      + match e_lheads w !! r_lhpos r with
        | Some h => if (r_strpos r <? lh_offset h)%nat then 1 else 0
        | None => if (r_strpos r <? length (e_str w))%nat then 1 else 0
        end + 2
  end.

Lemma encReader_next_spec r :
  encReader_ok r →
  (encReader_next r = Ok (None, r) ∧ encReader_rest r = []) ∨
  ∃ p r', encReader_next r = Ok (Some p, r') ∧
    let r'' := EncReader (r_buf r') (r_lhpos r') (r_strpos r') None in
    encReader_rest r = p ++ encReader_rest r'' ∧ encReader_ok r'' ∧
    (encReader_need r'' < encReader_need r)%nat ∧
    is_Some (r_buf r').
Proof.
  unfold encReader_next, encReader_ok, encReader_rest, encReader_need.
  destruct r as [[w|] lhp sp [p|]]; cbn [r_buf r_lhpos r_strpos r_piece default from_option];
    intros Hok; [| |by left..].
  - right. eexists p, _. split; [done|]. simpl. split_and!; [done..|lia|eauto].
  - destruct (e_lheads w !! lhp) as [h|] eqn:Hh.
    + apply drop_S in Hh as Hd. rewrite Hd in *. destruct Hok as [Hle Hok].
      pose proof (heads_ok_le _ _ _ Hok) as Hle'. pose proof (lookup_lt_Some _ _ _ Hh).
      destruct (Nat.ltb_spec sp (lh_offset h)).
      * right. rewrite slice_Ok by lia. cbn [obind]. eexists _, _. split; [done|]. simpl.
        rewrite Hh, Hd. simpl. rewrite drop_drop, Nat.sub_diag, Nat.ltb_irrefl, drop_0.
        replace (sp + (lh_offset h - sp))%nat with (lh_offset h) by lia.
        split_and!; [done|lia|done|lia|eauto].
      * right. eexists _, _. split; [done|]. simpl.
        replace (lh_offset h) with sp in * by lia. rewrite Nat.sub_diag. simpl. rewrite drop_0.
        split_and!; [done|done| |eauto].
        destruct (e_lheads w !! S lhp) as [h'|] eqn:Hh'.
        -- pose proof (lookup_lt_Some _ _ _ Hh'). case_match; lia.
        -- apply lookup_ge_None in Hh'. case_match; lia.
    + apply lookup_ge_None in Hh as Hge. rewrite drop_ge in * by done.
      simpl in Hok |- *. destruct (Nat.ltb_spec sp (length (e_str w))).
      * right. rewrite slice_Ok by lia. cbn [obind]. eexists _, _. split; [done|]. simpl.
        rewrite Hh, (drop_ge (e_lheads w)), drop_all, take_ge, app_nil_r, Nat.ltb_irrefl by (rewrite ?length_drop; lia).
        simpl. split_and!; [done|lia|lia|eauto].
      * left. split; [done|]. rewrite (drop_ge (e_lheads w)) by done. simpl. apply drop_ge. lia.
Qed.

Lemma encReader_Read_loop_spec rounds room got r :
  encReader_ok r → (encReader_need r ≤ rounds)%nat →
  ∃ data eof r', encReader_Read_loop rounds room got r = Some (Ok (got ++ data, eof, r')) ∧
    encReader_rest r = data ++ encReader_rest r' ∧ encReader_ok r' ∧
    if (eof : bool) then encReader_rest r' = [] ∧ (length data ≤ room)%nat else length data = room.
Proof.
  revert room got r. induction rounds as [|rounds IH]; intros room got r Hok Hn.
  { exfalso. unfold encReader_need in Hn. destruct (r_buf r); lia. }
  simpl. destruct (encReader_next_spec r Hok) as [[-> Hr]|(p & r' & -> & Hr & Hok' & Hlt & Hb)].
  - exists [], true. eexists. rewrite app_nil_r. split; [done|]. rewrite Hr. simpl. split_and!; [done..|lia].
  - case_cmp.
    + exists (take room p), false. eexists. split; [done|]. rewrite Hr. unfold encReader_rest at 2.
      unfold encReader_rest. simpl. destruct Hb as [w Hb]. rewrite Hb. simpl.
      rewrite (app_assoc (take room p)), take_drop. split_and!; [done| |rewrite length_take; lia].
      unfold encReader_ok in *. simpl in *. by rewrite Hb in Hok'.
    + destruct (IH (room - length p)%nat (got ++ p) _ Hok' ltac:(lia))
        as (data & eof & r2 & -> & E & Hok2 & He).
      exists (p ++ data), eof, r2. rewrite Hr, E, !app_assoc. split_and!; [done..|].
      destruct eof; rewrite length_app; [split; [apply He|lia]|lia].
Qed.

Lemma encReader_need_rounds r :
  encReader_ok r → (encReader_need r ≤ encReader_rounds r)%nat.
Proof.
  unfold encReader_need, encReader_rounds. intros _. destruct (r_buf r) as [w|]; [|done].
  destruct (r_piece r), (e_lheads w !! r_lhpos r); repeat case_match; lia.
Qed.

(** ** Properties *)

Lemma encodes v bs out :
  gval_ok v → gval_enc v = Some bs → fits64 (length bs) →
  EncodeToBytes v = Ok bs ∧ Encode out v = Ok (out ++ bs).
Proof.
  intros Hok Hbs Hf. destruct (write_spec v Hok bs encbuf_reset Hbs Hf) as (w & Hw & A).
  apply appends_reset in A as (Hh & Hs & <-). unfold EncodeToBytes, Encode. rewrite Hw. simpl.
  by rewrite toBytes_render, toWriter_render.
Qed.

(** C40: the encoder is correct: for every value of the supported types the
    buffer with its deferred list headers comes out as the reference encoding,
    both from EncodeToBytes (whose output buffer has exactly the right size)
    and from Encode onto a writer. *)
Theorem Encode_correct v bs out :
  gval_ok v → gval_enc v = Some bs → fits64 (length bs) →
  EncodeToBytes v = Ok bs ∧ Encode out v = Ok (out ++ bs).
Proof. apply encodes. Qed.

Lemma Encode_correct_witness :
  let v := GStruct [GUint 1024; GSlice false [GBytes [1; 2]; GString []]; GBig 5] in
  EncodeToBytes v = Ok [201; 130; 4; 0; 196; 130; 1; 2; 128; 5] ∧
  Encode [9] v = Ok ([9] ++ [201; 130; 4; 0; 196; 130; 1; 2; 128; 5]).
Proof.
  apply (Encode_correct _ _ [9]).
  - simpl. lia.
  - vm_compute. reflexivity.
  - vm_compute. reflexivity.
Defined.

(** The only values the writers reject are those that contain a negative
    big integer, wherever it is nested. *)
Theorem Encode_negative v :
  gval_enc v = None → EncodeToBytes v = Err errNegativeBigInt.
Proof. intros Hn. unfold EncodeToBytes. by rewrite write_none. Qed.

Lemma Encode_negative_witness :
  EncodeToBytes (GSlice false [GUint 1; GStruct [GBig (-3)]]) = Err errNegativeBigInt.
Proof. apply Encode_negative. vm_compute. reflexivity. Defined.

(** Reads with buffers of the given sizes, one after the other. *)
Fixpoint encReader_reads (ns : list nat) (r : encReader) : option bytes :=
  match ns with
  | [] => Some []
  | n :: ns' =>
      match encReader_Read n r with
      | Some (Ok (d, _, r')) => app d <$> encReader_reads ns' r'
      | _ => None
      end
  end.

Lemma encReader_Read_spec n r :
  encReader_ok r →
  ∃ eof r', encReader_Read n r = Some (Ok (take n (encReader_rest r), eof, r')) ∧
    encReader_rest r' = drop n (encReader_rest r) ∧ encReader_ok r'.
Proof.
  intros Hok. unfold encReader_Read.
  destruct (encReader_Read_loop_spec (encReader_rounds r) n [] r Hok) as (d & e & r' & -> & E & Hok' & He);
    [by apply encReader_need_rounds|]. exists e, r'. simpl. rewrite E. destruct e.
  - destruct He as [He Hl]. rewrite He, app_nil_r. by rewrite take_ge, drop_ge.
  - subst n. by rewrite take_app_length, drop_app_length.
Qed.

Lemma encReader_reads_spec ns r :
  encReader_ok r → encReader_reads ns r = Some (take (sum_list ns) (encReader_rest r)).
Proof.
  revert r. induction ns as [|n ns IH]; intros r Hok; simpl; [done|].
  destruct (encReader_Read_spec n r Hok) as (e & r' & -> & E & Hok').
  rewrite IH by done. simpl. by rewrite E, take_take_drop.
Qed.

(** EncodeToReader announces the size of the encoding, and reading from it
    with buffers of any sizes delivers the bytes of the encoding in order, up
    to the total room of the buffers; no Read runs out of rounds or panics. *)
Theorem EncodeToReader_correct v bs ns :
  gval_ok v → gval_enc v = Some bs → fits64 (length bs) →
  ∃ r, EncodeToReader v = Ok (Z.of_nat (length bs), r) ∧
    encReader_reads ns r = Some (take (sum_list ns) bs).
Proof.
  intros Hok Hbs Hf. destruct (write_spec v Hok bs encbuf_reset Hbs Hf) as (w & Hw & A).
  apply appends_reset in A as (Hh & Hs & R). unfold EncodeToReader. rewrite Hw. simpl.
  eexists. split.
  - do 2 f_equal. unfold encbuf_size. rewrite <-R, length_render, Hs by done. lia.
  - rewrite encReader_reads_spec; unfold encReader_ok, encReader_rest; simpl; by rewrite ?drop_0, ?R.
Qed.

Lemma EncodeToReader_correct_witness :
  ∃ r, EncodeToReader (GSlice false [GUint 300; GUint 7]) = Ok (5, r) ∧
    encReader_reads [2; 0; 2]%nat r = Some [196; 130; 1; 44].
Proof.
  apply (EncodeToReader_correct (GSlice false [GUint 300; GUint 7]) [196; 130; 1; 44; 7] [2; 0; 2]%nat).
  - simpl. lia.
  - vm_compute. reflexivity.
  - vm_compute. reflexivity.
Defined.
