(* ===== verification/RlpStream.v ===== *)
(** * The RLP stream decoder (common/rlp/decode.go)

    [Stream] with its list stack, input limit and cached kind, and the
    type-directed decoders built on it.  A decoder is a function from a stream
    to a result and the stream it leaves behind, because a failed call (EOL in
    particular) also changes the stream and decoding goes on after it. *)

From S2P Require Import Prelude RlpSpec RlpEncode.
Local Open Scope Z_scope.

(** ** State *)

Record listpos := Listpos { lp_pos : Z; lp_size : Z }.

(** [s_rd] is what the reader still holds; [s_kind] is [None] for kind -1; the
    innermost list is the head of [s_stack]. *)
Record Stream := MkStream {
  s_rd : bytes;
  s_remaining : Z;
  s_limited : bool;
  s_kind : option Kind;
  s_size : Z;
  s_byteval : Z;
  s_kinderr : option rlp_error;
  s_stack : list listpos
}.

Definition M (A : Type) : Type := Stream → outcome rlp_error A * Stream.

Definition mret {A} (a : A) : M A := λ s, (Ok a, s).
Definition merr {A} (e : rlp_error) : M A := λ s, (Err e, s).
Definition mbind_ {A B} (m : M A) (k : A → M B) : M B := λ s,
  match m s with
  | (Ok a, s') => k a s'
  | (Err e, s') => (Err e, s')
  | (Panic, s') => (Panic, s')
  end.

Notation "'let!' x := m 'in' k" := (mbind_ m (λ x, k))
  (at level 10, x pattern, m at level 100, k at level 200,
   format "'[v' 'let!'  x  :=  m  'in' '/' k ']'") : go_scope.

Definition with_rd rd s := MkStream rd (s_remaining s) (s_limited s) (s_kind s) (s_size s)
  (s_byteval s) (s_kinderr s) (s_stack s).
Definition with_remaining r s := MkStream (s_rd s) r (s_limited s) (s_kind s) (s_size s)
  (s_byteval s) (s_kinderr s) (s_stack s).
Definition with_kind k s := MkStream (s_rd s) (s_remaining s) (s_limited s) k (s_size s)
  (s_byteval s) (s_kinderr s) (s_stack s).
Definition with_size z s := MkStream (s_rd s) (s_remaining s) (s_limited s) (s_kind s) z
  (s_byteval s) (s_kinderr s) (s_stack s).
Definition with_byteval b s := MkStream (s_rd s) (s_remaining s) (s_limited s) (s_kind s) (s_size s)
  b (s_kinderr s) (s_stack s).
Definition with_kinderr e s := MkStream (s_rd s) (s_remaining s) (s_limited s) (s_kind s) (s_size s)
  (s_byteval s) e (s_stack s).
Definition with_stack st s := MkStream (s_rd s) (s_remaining s) (s_limited s) (s_kind s) (s_size s)
  (s_byteval s) (s_kinderr s) st.

(** [s.kind = -1] *)
Definition rearm : Stream → Stream := with_kind None.

(** Stream.Reset on a bytes.Reader that holds [b], with no explicit limit or
    with the length of [b] as limit; both set the limit to that length. *)
Definition NewStream (b : bytes) : Stream :=
  MkStream b (Z.of_nat (length b)) true None 0 0 None [].

(** ** Reading *)

Definition willRead (n : Z) : M unit := λ s,
  let s := rearm s in
  let limit (s : Stream) : outcome rlp_error unit * Stream :=
    if s_limited s then
      if s_remaining s <? n then (Err ErrValueTooLarge, s)
      else (Ok tt, with_remaining (s_remaining s - n) s)
    else (Ok tt, s) in
  match s_stack s with
  | [] => limit s
  | tos :: st =>
      if u64 (lp_size tos - lp_pos tos) <? n then (Err ErrElemTooLarge, s)
      else limit (with_stack (Listpos (lp_pos tos + n) (lp_size tos) :: st) s)
  end.

Definition readByte : M Z :=
  let! _ := willRead 1 in λ s,
  match s_rd s with
  | [] => (Err ErrUnexpectedEOF, s)
  | b :: rd => (Ok b, with_rd rd s)
  end.

(** readFull of [n] bytes: a short input is consumed before the error. *)
Definition readFull (n : Z) : M bytes :=
  let! _ := willRead n in λ s,
  if Z.of_nat (length (s_rd s)) <? n then (Err ErrUnexpectedEOF, with_rd [] s)
  else (Ok (take (Z.to_nat n) (s_rd s)), with_rd (drop (Z.to_nat n) (s_rd s)) s).

Definition readUint (size : Z) : M Z :=
  if size =? 0 then λ s, (Ok 0, rearm s)
  else if size =? 1 then readByte
  else
    let! buf := readFull size in
    match buf with
    | 0 :: _ => merr ErrCanonSize
    | _ => mret (be_val buf)
    end.

(** Stream.readKind: the kind and size are returned next to the error. *)
Definition Stream_readKind (s : Stream) : (Kind * Z * option rlp_error) * Stream :=
  match readByte s with
  | (Ok b, s) =>
      let s := with_byteval 0 s in
      let long (k : Kind) (n : Z) :=
        match readUint n s with
        | (Ok size, s) => ((k, size, if size <? 56 then Some ErrCanonSize else None), s)
        | (Err e, s) => ((k, 0, Some e), s)
        | (Panic, s) => ((k, 0, None), s)
        end in
      if b <? 128 then ((KByte, 0, None), with_byteval b s)
      else if b <? 184 then ((KString, b - 128, None), s)
      else if b <? 192 then long KString (b - 183)
      else if b <? 248 then ((KList, b - 192, None), s)
      else long KList (b - 247)
  | (Err e, s) =>
      let e := match s_stack s, e with
               | [], ErrUnexpectedEOF | [], ErrValueTooLarge => EOF
               | _, _ => e
               end in
      ((KByte, 0, Some e), s)
  | (Panic, s) => ((KByte, 0, None), s)
  end.

(** Stream.Kind: kind and size of the next value, cached until it is read. *)
Definition Stream_Kind : M (Kind * Z) := λ s,
  let ret (s : Stream) : outcome rlp_error (Kind * Z) * Stream :=
    match s_kinderr s, s_kind s with
    | Some e, _ => (Err e, s)
    | None, Some k => (Ok (k, s_size s), s)
    | None, None => (Panic, s)
    end in
  match s_kind s with
  | Some _ => ret s
  | None =>
      let s := with_kinderr None s in
      let at_end := match s_stack s with
                    | tos :: _ => lp_pos tos =? lp_size tos
                    | [] => false
                    end in
      if at_end then (Err EOL, s) else
      let '((k, size, err), s) := Stream_readKind s in
      let err := match err with
                 | Some e => Some e
                 | None =>
                     match s_stack s with
                     | [] => if s_limited s && (s_remaining s <? size)
                             then Some ErrValueTooLarge else None
                     | tos :: _ => if u64 (lp_size tos - lp_pos tos) <? size
                                   then Some ErrElemTooLarge else None
                     end
                 end in
      ret (with_kinderr err (with_size size (with_kind (Some k) s)))
  end.

Definition Stream_Bytes : M bytes :=
  let! (kind, size) := Stream_Kind in
  match kind with
  | KByte => λ s, (Ok [s_byteval s], rearm s)
  | KString =>
      let! b := readFull size in
      match b with
      | [x] => if x <? 128 then merr ErrCanonSize else mret b
      | _ => mret b
      end
  | KList => merr ErrExpectedString
  end.

Definition Stream_Raw : M bytes :=
  let! (kind, size) := Stream_Kind in
  match kind with
  | KByte => λ s, (Ok [s_byteval s], rearm s)
  | KString => let! b := readFull size in mret (puthead 128 183 size ++ b)
  | KList => let! b := readFull size in mret (puthead 192 247 size ++ b)
  end.

Definition Stream_uint (maxbits : Z) : M Z :=
  let! (kind, size) := Stream_Kind in
  match kind with
  | KByte => λ s, if s_byteval s =? 0 then (Err ErrCanonInt, s)
                  else (Ok (s_byteval s), rearm s)
  | KString =>
      if maxbits / 8 <? size then merr errUintOverflow
      else λ s,
        match readUint (u8 size) s with
        | (Err ErrCanonSize, s) => (Err ErrCanonInt, s)
        | (Ok v, s) => if (0 <? size) && (v <? 128) then (Err ErrCanonSize, s) else (Ok v, s)
        | r => r
        end
  | KList => merr ErrExpectedString
  end.

Definition Stream_Bool : M bool :=
  let! num := Stream_uint 8 in
  if num =? 0 then mret false else if num =? 1 then mret true else merr errInvalidBool.

Definition Stream_List : M Z :=
  let! (kind, size) := Stream_Kind in
  match kind with
  | KList => λ s, (Ok size, with_size 0 (rearm (with_stack (Listpos 0 size :: s_stack s) s)))
  | _ => merr ErrExpectedList
  end.

Definition Stream_ListEnd : M unit := λ s,
  match s_stack s with
  | [] => (Err errNotInList, s)
  | tos :: st =>
      if negb (lp_pos tos =? lp_size tos) then (Err errNotAtEOL, s)
      else
        let st := match st with
                  | [] => []
                  | out :: st' => Listpos (lp_pos out + lp_size tos) (lp_size out) :: st'
                  end in
        (Ok tt, with_size 0 (rearm (with_stack st s)))
  end.

(** ** Type-directed decoding *)

Definition wrapStreamError (e : rlp_error) : rlp_error :=
  match e with
  | ErrCanonInt => DecodeError MsgCanonInt
  | ErrCanonSize => DecodeError MsgCanonSize
  | ErrExpectedList => DecodeError MsgExpectedList
  | ErrExpectedString => DecodeError MsgExpectedString
  | errUintOverflow => DecodeError MsgTooLong
  | errNotAtEOL => DecodeError MsgTooManyElems
  | e => e
  end.

Definition wrapped {A} (m : M A) : M A := λ s,
  let (r, s') := m s in (omap_err wrapStreamError r, s').

(** The types makeDecoder distinguishes.  [TTail] is a slice field with the
    "tail" tag, [TOptPtr] a pointer field with the "nil" tag. *)
Inductive ty :=
| TRaw
| TBigInt
| TUint (bits : Z)
| TBool
| TString
| TByteSlice
| TByteArray (n : nat)
| TSlice (t : ty)
| TArray (n : nat) (t : ty)
| TTail (t : ty)
| TStruct (fields : list ty)
| TPtr (t : ty)
| TOptPtr (t : ty)
| TIface.

(** The zero value of a type; a nil pointer is classified as makePtrWriter
    does. *)
Fixpoint zero_val (t : ty) : gval :=
  match t with
  | TRaw => GRaw []
  | TBigInt => GBig 0
  | TUint _ => GUint 0
  | TBool => GBool false
  | TString => GString []
  | TByteSlice => GBytes []
  | TByteArray n => GBytes (replicate n 0)
  | TSlice _ => GSlice false []
  | TArray n t => GSlice false (replicate n (zero_val t))
  | TTail _ => GSlice true []
  | TStruct fs => GStruct (map zero_val fs)
  | TPtr (TByteArray _) | TOptPtr (TByteArray _) => GNilPtrByteArray
  | TPtr (TStruct _) | TPtr (TArray _ _) | TOptPtr (TStruct _) | TOptPtr (TArray _ _) => GNilPtrStruct
  | TPtr t | TOptPtr t => GNilPtr (zero_val t)
  | TIface => GNilIface
  end.

Definition decodeBigInt : M gval :=
  let! b := wrapped Stream_Bytes in
  match b with
  | 0 :: _ => merr (wrapStreamError ErrCanonInt)
  | _ => mret (GBig (be_val b))
  end.

(** decodeByteArray into an array of [vlen] bytes.  In the Byte case the error
    of [s.Uint()] is dropped, and so is the rearming it skips for a zero. *)
Definition decodeByteArray (vlen : nat) : M gval :=
  let! (kind, size) := Stream_Kind in
  match kind with
  | KByte =>
      if (vlen =? 0)%nat then merr (DecodeError MsgTooLong)
      else if (1 <? vlen)%nat then merr (DecodeError MsgTooShort)
      else λ s,
        match Stream_uint 64 s with
        | (Ok bv, s) => (Ok (GBytes [u8 bv]), s)
        | (_, s) => (Ok (GBytes [0]), s)
        end
  | KString =>
      if Z.of_nat vlen <? size then merr (DecodeError MsgTooLong)
      else if size <? Z.of_nat vlen then merr (DecodeError MsgTooShort)
      else
        let! b := readFull (Z.of_nat vlen) in
        match b with
        | [x] => if x <? 128 then merr (wrapStreamError ErrCanonSize) else mret (GBytes b)
        | _ => mret (GBytes b)
        end
  | KList => merr (wrapStreamError ErrExpectedString)
  end.

Section Elements.
Context {A : Type} (elemdec : M A).

(** decodeSliceElems: elements until EOL, at most [rounds] of them. *)
Fixpoint decodeSliceElems (rounds : nat) (acc : list A) : M (list A) := λ s,
  match rounds with
  | O => (Err OutOfRounds, s)
  | S r =>
      match elemdec s with
      | (Ok v, s) => decodeSliceElems r (acc ++ [v]) s
      | (Err EOL, s) => (Ok acc, s)
      | (Err e, s) => (Err e, s)
      | (Panic, s) => (Panic, s)
      end
  end.

Definition decodeListSlice (rounds : nat) : M (list A) :=
  let! size := wrapped Stream_List in
  if size =? 0 then let! _ := Stream_ListEnd in mret []
  else
    let! vs := decodeSliceElems rounds [] in
    let! _ := Stream_ListEnd in mret vs.

(** The loop of decodeListArray over the elements left. *)
Fixpoint decodeArrayElems (vlen : nat) (acc : list A) : M (list A) := λ s,
  match vlen with
  | O => (Ok acc, s)
  | S n =>
      match elemdec s with
      | (Ok v, s) => decodeArrayElems n (acc ++ [v]) s
      | (Err EOL, s) => (Err (DecodeError MsgTooFewElems), s)
      | (Err e, s) => (Err e, s)
      | (Panic, s) => (Panic, s)
      end
  end.

Definition decodeListArray (vlen : nat) : M (list A) :=
  let! _ := wrapped Stream_List in
  let! vs := decodeArrayElems vlen [] in
  let! _ := wrapped Stream_ListEnd in mret vs.
End Elements.

Section Fields.
Context (dec : ty → M gval).

(** The field loop of makeStructDecoder. *)
Fixpoint decodeFields (fields : list ty) (acc : list gval) : M (list gval) := λ s,
  match fields with
  | [] => (Ok acc, s)
  | f :: fs =>
      match dec f s with
      | (Ok v, s) => decodeFields fs (acc ++ [v]) s
      | (Err EOL, s) => (Err (DecodeError MsgTooFewFields), s)
      | (Err e, s) => (Err e, s)
      | (Panic, s) => (Panic, s)
      end
  end.

Definition decodeStruct (fields : list ty) : M (list gval) :=
  let! _ := wrapped Stream_List in
  let! vs := decodeFields fields [] in
  let! _ := wrapped Stream_ListEnd in mret vs.
End Fields.

(** decodeInterface into an empty interface; [depth] bounds the nesting. *)
Fixpoint decodeInterface (rounds depth : nat) : M gval := λ s,
  match depth with
  | O => (Err OutOfRounds, s)
  | S d =>
      (let! (kind, _) := Stream_Kind in
       match kind with
       | KList =>
           let! vs := decodeListSlice (decodeInterface rounds d) rounds in
           mret (GIface (GSlice false vs))
       | _ => let! b := Stream_Bytes in mret (GIface (GBytes b))
       end) s
  end.

(** makeOptionalPtrDecoder *)
Definition decodeOptPtr (elem : M gval) (nil_ : gval) : M gval := λ s,
  match Stream_Kind s with
  | (Ok (kind, size), s) =>
      if (size =? 0) && negb (bool_decide (kind = KByte)) then (Ok nil_, rearm s)
      else (let! v := elem in mret (GPtr v)) s
  | (Err e, s) => (Err e, rearm s)
  | (Panic, s) => (Panic, s)
  end.

(** makeDecoder.  [n] bounds the rounds of every slice loop and the nesting of
    interface values. *)
Fixpoint decode (n : nat) (t : ty) : M gval :=
  match t with
  | TRaw => let! b := Stream_Raw in mret (GRaw b)
  | TBigInt => decodeBigInt
  | TUint bits => let! i := wrapped (Stream_uint bits) in mret (GUint i)
  | TBool => let! b := wrapped Stream_Bool in mret (GBool b)
  | TString => let! b := wrapped Stream_Bytes in mret (GString b)
  | TByteSlice => let! b := wrapped Stream_Bytes in mret (GBytes b)
  | TByteArray len => decodeByteArray len
  | TSlice t => let! vs := decodeListSlice (decode n t) n in mret (GSlice false vs)
  | TArray len t => let! vs := decodeListArray (decode n t) len in mret (GSlice false vs)
  | TTail t => let! vs := decodeSliceElems (decode n t) n [] in mret (GSlice true vs)
  | TStruct fs => let! vs := decodeStruct (decode n) fs in mret (GStruct vs)
  | TPtr t => let! v := decode n t in mret (GPtr v)
  | TOptPtr t => decodeOptPtr (decode n t) (zero_val (TOptPtr t))
  | TIface => decodeInterface n n
  end.

(** DecodeBytes: every loop round and every nesting level reads at least one
    byte, so one more than the length of the input bounds them. *)
Definition DecodeBytes (t : ty) (b : bytes) : outcome rlp_error gval :=
  match decode (S (length b)) t (NewStream b) with
  | (Ok v, s) => match s_rd s with
                 | [] => Ok v
                 | _ :: _ => Err ErrMoreThanOneValue
                 end
  | (Err e, _) => Err e
  | (Panic, _) => Panic
  end.
