(* ===== verification/RlpRoundtrip.v ===== *)
(** * Round trips of the RLP encoder and decoders

    The types of values, and that every value of a type is decoded from its
    encoding, wherever the encoding stands in an enclosing list. *)

From S2P Require Import Prelude RlpSpec RlpEncode RlpStream.
Local Open Scope Z_scope.

(** ** Positions of a stream *)

Definition listpos_ok (p : listpos) : Prop := 0 ≤ lp_pos p ≤ lp_size p ∧ lp_size p < 2 ^ 64.

(** A limited stream whose limit is what the reader holds, with [rd] ahead. *)
Definition base (s : Stream) (rd : bytes) (st : list listpos) : Prop :=
  s_rd s = rd ∧ s_limited s = true ∧ s_remaining s = Z.of_nat (length rd) ∧
  s_stack s = st ∧ Forall listpos_ok st.

(** Positioned before a value. *)
Definition ready (s : Stream) (rd : bytes) (st : list listpos) : Prop :=
  s_kind s = None ∧ base s rd st.

(** Positioned after the header of a value of kind [k] and size [n]. *)
Definition peeked (s : Stream) (k : Kind) (n : Z) (rd : bytes) (st : list listpos) : Prop :=
  base s rd st ∧ s_kind s = Some k ∧ s_size s = n ∧ s_kinderr s = None.

(** The innermost list has [n] bytes left. *)
Definition room (n : nat) (st : list listpos) : Prop :=
  match st with
  | [] => True
  | tos :: _ => Z.of_nat n ≤ lp_size tos - lp_pos tos
  end.

Definition bump (n : nat) (st : list listpos) : list listpos :=
  match st with
  | [] => []
  | tos :: st' => Listpos (lp_pos tos + Z.of_nat n) (lp_size tos) :: st'
  end.

Lemma bump_bump m n st : bump n (bump m st) = bump (m + n) st.
Proof. destruct st as [|[p z] st]; simpl; [done|]. do 2 f_equal. lia. Qed.

Lemma room_bump m n st : room (m + n) st → room n (bump m st).
Proof. destruct st as [|[p z] st]; simpl; [done|]. lia. Qed.

Lemma room_le m n st : (m ≤ n)%nat → room n st → room m st.
Proof. destruct st as [|[p z] st]; simpl; [done|]. lia. Qed.

Lemma bump_ok n st : Forall listpos_ok st → room n st → Forall listpos_ok (bump n st).
Proof.
  destruct st as [|[p z] st]; simpl; [done|]. intros [H ?]%Forall_cons Hr.
  constructor; [|done]. unfold listpos_ok in *. simpl in *. lia.
Qed.

Lemma bump_0 st : bump 0 st = st.
Proof. destruct st as [|[p z] st]; simpl; [done|]. do 2 f_equal. lia. Qed.

Lemma ready_base s rd st : ready s rd st → base s rd st.
Proof. by intros [_ H]. Qed.

Lemma peeked_base s k n rd st : peeked s k n rd st → base s rd st.
Proof. by intros [H _]. Qed.

Lemma ready_rearm s rd st : base s rd st → ready (rearm s) rd st.
Proof. done. Qed.

Lemma ready_kinderr s rd st e : ready s rd st → ready (with_kinderr e s) rd st.
Proof. done. Qed.

(** ** Reading from a position *)

Lemma willRead_base s rd st n :
  base s rd st → (n ≤ length rd)%nat → room n st →
  willRead (Z.of_nat n) s =
    (Ok tt, with_remaining (Z.of_nat (length rd) - Z.of_nat n) (with_stack (bump n st) (rearm s))).
Proof.
  intros (Hrd & Hlim & Hrem & Hst & Hok) Hn Hr. unfold willRead. simpl. rewrite Hst.
  destruct st as [|tos st]; simpl.
  - rewrite Hlim, Hrem. case_cmp. destruct s; simpl in *; subst. done.
  - apply Forall_cons in Hok as [Ht _]. unfold listpos_ok, room in *.
    rewrite wrap_small by lia. case_cmp. rewrite Hlim, Hrem. case_cmp. done.
Qed.

Lemma readFull_base s (data rest : bytes) st :
  base s (data ++ rest) st → room (length data) st →
  ∃ s', readFull (Z.of_nat (length data)) s = (Ok data, s') ∧
    ready s' rest (bump (length data) st) ∧ s_byteval s' = s_byteval s.
Proof.
  intros Hb Hr. unfold readFull, mbind_.
  rewrite (willRead_base s _ st) by (done || rewrite length_app; lia).
  destruct Hb as (Hrd & Hlim & Hrem & Hst & Hok). simpl. rewrite Hrd, length_app. case_cmp.
  rewrite Nat2Z.id, take_app_length, drop_app_length. eexists. split; [done|].
  split; [|done]. split; [done|]. unfold base. simpl. split_and!; [done|done|lia|done|by apply bump_ok].
Qed.

Lemma readByte_base s x rest st :
  base s (x :: rest) st → room 1 st →
  ∃ s', readByte s = (Ok x, s') ∧ ready s' rest (bump 1 st) ∧ s_byteval s' = s_byteval s.
Proof.
  intros Hb Hr. unfold readByte, mbind_.
  change 1 with (Z.of_nat 1). rewrite (willRead_base s _ st) by (done || simpl; lia).
  destruct Hb as (Hrd & Hlim & Hrem & Hst & Hok). simpl. rewrite Hrd.
  eexists. split; [done|]. split; [|done]. split; [done|]. unfold base. simpl.
  split_and!; [done|done|lia|done|by apply bump_ok].
Qed.

Lemma readUint_be s n rest st :
  0 < n < 2 ^ 64 → base s (be_bytes n ++ rest) st → room (byte_len n) st →
  ∃ s', readUint (Z.of_nat (byte_len n)) s = (Ok n, s') ∧ ready s' rest (bump (byte_len n) st)
    ∧ s_byteval s' = s_byteval s.
Proof.
  intros Hn Hb Hr. pose proof (byte_len_8 n Hn) as Hl. pose proof (be_val_bytes n) as Hv.
  unfold readUint. case_cmp. destruct (be_bytes n) as [|x l] eqn:E.
  { apply (f_equal length) in E. rewrite length_be_bytes in E. simpl in E. lia. }
  assert (length (x :: l) = byte_len n) as El by (by rewrite <-E, length_be_bytes).
  case_cmp.
  - destruct l; [|simpl in El; lia]. rewrite <-El in *.
    assert (x = n) as -> by (rewrite <-Hv by lia; unfold be_val; simpl; lia).
    by apply readByte_base.
  - rewrite <-El in *. destruct (readFull_base s (x :: l) rest st Hb Hr) as (s' & E' & Hr' & Hbv).
    unfold mbind_. rewrite E'. apply be_bytes_head in E; [|lia].
    exists s'. split_and!; [|done..]. destruct x; try done; rewrite Hv by lia; done.
Qed.

(** ** Kind at a header *)

Lemma peeked_Kind s k n rd st : peeked s k n rd st → Stream_Kind s = (Ok (k, n), s).
Proof. intros (_ & Hk & Hn & He). unfold Stream_Kind. by rewrite Hk, He, Hn. Qed.

(** The tail of Kind, once the header is read and leaves the content ahead. *)
Lemma Kind_fits s rd st n :
  base s rd st → (n ≤ length rd)%nat → room n st →
  match s_stack s with
  | [] => if s_limited s && (s_remaining s <? Z.of_nat n) then Some ErrValueTooLarge else None
  | tos :: _ => if u64 (lp_size tos - lp_pos tos) <? Z.of_nat n then Some ErrElemTooLarge else None
  end = None.
Proof.
  intros (Hrd & Hlim & Hrem & Hst & Hok) Hn Hr. rewrite Hst. destruct st as [|tos st].
  - rewrite Hlim, Hrem. simpl. by case_cmp.
  - apply Forall_cons in Hok as [Ht _]. unfold listpos_ok, room in *.
    rewrite wrap_small by lia. by case_cmp.
Qed.

Lemma not_at_end s rd st n :
  base s rd st → room (S n) st →
  match s_stack s with tos :: _ => lp_pos tos =? lp_size tos | [] => false end = false.
Proof.
  intros (_ & _ & _ & Hst & _) Hr. rewrite Hst. destruct st as [|tos st]; [done|].
  simpl in Hr. apply Z.eqb_neq. lia.
Qed.

Lemma Kind_intro s rd st k n rd' st' s' m :
  ready s rd st → room (S m) st →
  Stream_readKind (with_kinderr None s) = ((k, Z.of_nat n, None), s') →
  base s' rd' st' → (n ≤ length rd')%nat → room n st' →
  ∃ s'', Stream_Kind s = (Ok (k, Z.of_nat n), s'') ∧ peeked s'' k (Z.of_nat n) rd' st' ∧
    s_byteval s'' = s_byteval s'.
Proof.
  intros [Hk Hb] Hr HR Hb' Hn Hr'. unfold Stream_Kind. rewrite Hk.
  rewrite (not_at_end (with_kinderr None s) rd st m) by done.
  rewrite HR. rewrite (Kind_fits s' rd' st' n) by done. simpl. eexists. split; [done|].
  split; [|done]. split; [|done]. done.
Qed.

Lemma Kind_byte s x rest st :
  is_byte x → x < 128 → ready s (x :: rest) st → room 1 st →
  ∃ s', Stream_Kind s = (Ok (KByte, 0), s') ∧ peeked s' KByte 0 rest (bump 1 st) ∧ s_byteval s' = x.
Proof.
  intros Hx Hlt Hr Hroom.
  destruct (readByte_base (with_kinderr None s) x rest st) as (s1 & E1 & Hr1 & _); [apply Hr|done|].
  assert (HR : Stream_readKind (with_kinderr None s)
    = ((KByte, Z.of_nat 0, None), with_byteval x (with_byteval 0 s1))).
  { unfold Stream_readKind. rewrite E1. by case_cmp. }
  apply (Kind_intro s (x :: rest) st _ _ rest (bump 1 st) _ 0) in HR as (s' & ? & ? & ?).
  - eauto.
  - done.
  - done.
  - apply Hr1.
  - lia.
  - by apply (room_bump 1 0).
Qed.

Lemma Kind_header s k small large (payload rest : bytes) st :
  (k, small, large) = (KString, 128, 183) ∨ (k, small, large) = (KList, 192, 247) →
  let h := header small large (length payload) in
  fits64 (length payload) → ready s (h ++ payload ++ rest) st → room (length h + length payload) st →
  ∃ s', Stream_Kind s = (Ok (k, Z.of_nat (length payload)), s') ∧
    peeked s' k (Z.of_nat (length payload)) (payload ++ rest) (bump (length h) st).
Proof.
  intros Hk h Hf Hr Hroom. unfold fits64 in Hf.
  assert (∃ s', Stream_readKind (with_kinderr None s) = ((k, Z.of_nat (length payload), None), s') ∧
    base s' (payload ++ rest) (bump (length h) st)) as (s1 & HR & Hb1).
  { subst h. unfold header in *. destruct (Z.ltb_spec (Z.of_nat (length payload)) 56).
    - destruct (readByte_base (with_kinderr None s) (small + Z.of_nat (length payload)) (payload ++ rest) st)
        as (s1 & E1 & Hr1 & _); [apply Hr|eapply room_le; [|done]; simpl; lia|].
      exists (with_byteval 0 s1). split; [|apply Hr1]. unfold Stream_readKind. rewrite E1.
      destruct Hk as [[= -> -> ->]|[= -> -> ->]]; repeat case_cmp; do 2 f_equal; f_equal; lia.
    - pose proof (byte_len_8 (Z.of_nat (length payload)) ltac:(lia)) as Hl.
      simpl in Hr, Hroom. rewrite length_be_bytes in *.
      destruct (readByte_base (with_kinderr None s) (large + Z.of_nat (byte_len (Z.of_nat (length payload))))
        (be_bytes (Z.of_nat (length payload)) ++ payload ++ rest) st)
        as (s1 & E1 & Hr1 & _); [apply Hr|eapply room_le; [|done]; simpl; lia|].
      destruct (readUint_be (with_byteval 0 s1) (Z.of_nat (length payload)) (payload ++ rest) (bump 1 st))
        as (s2 & E2 & Hr2 & _); [lia|apply Hr1|apply room_bump; eapply room_le; [|done]; simpl; lia|].
      exists s2. split; [|rewrite bump_bump in Hr2; simpl; rewrite length_be_bytes; apply Hr2].
      unfold Stream_readKind. rewrite E1.
      destruct Hk as [[= -> -> ->]|[= -> -> ->]]; repeat case_cmp.
      + replace (183 + _ - 183) with (Z.of_nat (byte_len (Z.of_nat (length payload)))) by lia.
        rewrite E2. by case_cmp.
      + replace (247 + _ - 247) with (Z.of_nat (byte_len (Z.of_nat (length payload)))) by lia.
        rewrite E2. by case_cmp. }
  pose proof (header_length small large (length payload)) as Hh. fold h in Hh.
  apply (Kind_intro s (h ++ payload ++ rest) st _ _ (payload ++ rest) (bump (length h) st) _ 0) in HR
    as (s' & ? & ? & _); [eauto|done|eapply room_le; [|done]; lia|done|rewrite length_app; lia|].
  by apply room_bump.
Qed.

(** ** Decoders that read exactly an encoding *)

Definition reads {A} (m : M A) (bs : bytes) (a : A) : Prop := ∀ s rest st,
  ready s (bs ++ rest) st → room (length bs) st →
  ∃ s', m s = (Ok a, s') ∧ ready s' rest (bump (length bs) st).

Lemma reads_map {A B} (m : M A) (f : A → B) bs a :
  reads m bs a → reads (let! x := m in mret (f x)) bs (f a).
Proof. intros H s rest st Hr Hroom. destruct (H s rest st Hr Hroom) as (s' & E & ?). unfold mbind_. rewrite E. by exists s'. Qed.

Lemma reads_wrapped {A} (m : M A) bs a : reads m bs a → reads (wrapped m) bs a.
Proof. intros H s rest st Hr Hroom. destruct (H s rest st Hr Hroom) as (s' & E & ?). unfold wrapped. rewrite E. by exists s'. Qed.

(** Kind at an encoded string: a single byte, or a header before the string. *)
Lemma Kind_str s b rest st :
  Forall is_byte b → fits64 (length b) → ready s (enc_str b ++ rest) st → room (length (enc_str b)) st →
  (∃ x s', b = [x] ∧ enc_str b = [x] ∧ x < 128 ∧ Stream_Kind s = (Ok (KByte, 0), s') ∧
     peeked s' KByte 0 rest (bump 1 st) ∧ s_byteval s' = x) ∨
  (∃ h s', enc_str b = h ++ b ∧ (∀ x, b = [x] → 128 ≤ x) ∧
     Stream_Kind s = (Ok (KString, Z.of_nat (length b)), s') ∧
     peeked s' KString (Z.of_nat (length b)) (b ++ rest) (bump (length h) st) ∧
     room (length b) (bump (length h) st)).
Proof.
  intros Hb Hf Hr Hroom.
  assert ((∃ x, b = [x] ∧ x < 128) ∨ (∀ x, b = [x] → 128 ≤ x)) as [(x & -> & Hx)|Hone].
  { destruct b as [|x [|]]; [right; naive_solver| |right; naive_solver].
    destruct (Z.ltb_spec x 128); [left; eauto|right; naive_solver]. }
  - left. assert (enc_str [x] = [x]) as E by (simpl; by case_cmp). rewrite E in *. simpl in Hr, Hroom.
    apply Forall_cons in Hb as [Hxb _].
    destruct (Kind_byte s x rest st Hxb Hx Hr Hroom) as (s' & ? & ? & ?). exists x, s'. by split_and!.
  - right. assert (enc_str b = header 128 183 (length b) ++ b) as E.
    { destruct b as [|x [|]]; [done| |done]. specialize (Hone x eq_refl). simpl. by case_cmp. }
    rewrite E, <-app_assoc in Hr. rewrite E, length_app in Hroom.
    destruct (Kind_header s KString 128 183 b rest st) as (s' & ? & ?); [by left|done..|].
    exists (header 128 183 (length b)), s'. split_and!; try done. by apply room_bump.
Qed.

Lemma Kind_list s p rest st :
  fits64 (length p) → ready s (enc_list p ++ rest) st → room (length (enc_list p)) st →
  ∃ s', Stream_Kind s = (Ok (KList, Z.of_nat (length p)), s').
Proof.
  unfold enc_list. intros Hf Hr Hroom. rewrite <-app_assoc in Hr. rewrite length_app in Hroom.
  destruct (Kind_header s KList 192 247 p rest st) as (s' & E & _); [by right|done..|]. by exists s'.
Qed.

Lemma Bytes_reads b : Forall is_byte b → fits64 (length b) → reads Stream_Bytes (enc_str b) b.
Proof.
  intros Hb Hf s rest st Hr Hroom. unfold Stream_Bytes, mbind_.
  destruct (Kind_str s b rest st Hb Hf Hr Hroom)
    as [(x & s' & -> & E & Hx & -> & Hp & <-)|(h & s' & E & Hone & -> & Hp & Hroom')].
  - eexists. split; [done|]. rewrite E. apply ready_rearm. by eapply peeked_base.
  - destruct (readFull_base s' b rest _ (peeked_base _ _ _ _ _ Hp) Hroom') as (s2 & -> & Hr2 & _).
    rewrite E, length_app, <-bump_bump. exists s2. split; [|done].
    destruct b as [|x [|]]; [done| |done]. specialize (Hone x eq_refl). by case_cmp.
Qed.

Lemma uint_reads bits i :
  0 ≤ i < 2 ^ bits → (bits = 8 ∨ bits = 16 ∨ bits = 32 ∨ bits = 64) →
  reads (Stream_uint bits) (enc_str (be_bytes i)) i.
Proof.
  intros Hi Hbits s rest st Hr Hroom.
  assert (2 ^ bits ≤ 2 ^ 64) by (apply Z.pow_le_mono_r; lia).
  assert (Hlen : Z.of_nat (byte_len i) ≤ bits / 8).
  { destruct (decide (i = 0)) as [->|]; [destruct Hbits as [->|[->|[->| ->]]]; done|].
    destruct (byte_len_bounds i) as [B _]; [lia|].
    assert (∃ k, bits = 8 * k ∧ 0 < k) as (k & -> & Hk) by
      (destruct Hbits as [->|[->|[->| ->]]]; [exists 1|exists 2|exists 4|exists 8]; lia).
    rewrite Z.mul_comm, Z.div_mul by lia. rewrite Z.pow_mul_r in Hi by lia. change (2 ^ 8) with 256 in Hi.
    destruct (Z_lt_le_dec k (Z.of_nat (byte_len i))); [|done].
    assert (256 ^ k ≤ 256 ^ (Z.of_nat (byte_len i) - 1)) by (apply Z.pow_le_mono_r; lia). lia. }
  assert (Hb8 : bits / 8 ≤ 8) by (destruct Hbits as [->|[->|[->| ->]]]; done).
  unfold Stream_uint, mbind_.
  destruct (Kind_str s (be_bytes i) rest st) as [(x & s' & E0 & E & Hx & -> & Hp & Hbv)|(h & s' & E & Hone & -> & Hp & Hroom')];
    [apply be_bytes_byte|rewrite length_be_bytes; unfold fits64; lia|done..| |].
  - rewrite Hbv. pose proof (be_val_bytes i ltac:(lia)) as Hv. rewrite E0 in Hv.
    assert (x = i) as -> by (rewrite <-Hv; unfold be_val; simpl; lia).
    destruct (Z.eqb_spec i 0) as [->|]; [done|].
    eexists. split; [done|]. rewrite E. apply ready_rearm. by eapply peeked_base.
  - rewrite length_be_bytes in *. case_cmp.
    rewrite wrap_small by (simpl; lia).
    rewrite E, length_app, <-bump_bump, length_be_bytes.
    destruct (decide (i = 0)) as [->|].
    + simpl. eexists. split; [done|]. rewrite bump_0. apply ready_rearm. by eapply peeked_base.
    + destruct (readUint_be s' i rest (bump (length h) st)) as (s2 & -> & Hr2 & _);
        [lia|by eapply peeked_base|done|].
      exists s2. split; [|done].
      assert (128 ≤ i).
      { destruct (be_bytes i) as [|x [|y l]] eqn:Eb.
        - apply (f_equal length) in Eb. rewrite length_be_bytes in Eb.
          pose proof (byte_len_8 i). simpl in Eb. lia.
        - specialize (Hone x eq_refl). pose proof (be_val_bytes i ltac:(lia)) as Hv. rewrite Eb in Hv.
          unfold be_val in Hv. simpl in Hv. lia.
        - destruct (Z_lt_le_dec i 128); [|done]. exfalso.
          assert (byte_len i = 1%nat) as Hl by (apply byte_len_unique; simpl; lia).
          rewrite <-length_be_bytes, Eb in Hl. done. }
      destruct (0 <? Z.of_nat (byte_len i)); simpl; [|done]. by case_cmp.
Qed.

Lemma Raw_reads it :
  item_ok it → fits64 (length (rlp_enc it)) → reads Stream_Raw (rlp_enc it) (rlp_enc it).
Proof.
  intros Hok Hf s rest st Hr Hroom. unfold Stream_Raw, mbind_. destruct it as [b|l]; simpl in *.
  - pose proof (fits64_le _ _ (enc_str_length b) Hf) as Hfb.
    destruct (Kind_str s b rest st Hok Hfb Hr Hroom)
      as [(x & s' & -> & E & Hx & -> & Hp & Hbv)|(h & s' & E & Hone & -> & Hp & Hroom')].
    + rewrite Hbv, E. eexists. split; [done|]. apply ready_rearm. by eapply peeked_base.
    + destruct (readFull_base s' b rest _ (peeked_base _ _ _ _ _ Hp) Hroom') as (s2 & -> & Hr2 & _).
      rewrite E, length_app, <-bump_bump. exists s2. split; [|done].
      rewrite puthead_spec by (done || lia). unfold mret. do 2 f_equal.
      rewrite <-E. destruct b as [|x [|]]; [done| |done]. specialize (Hone x eq_refl). simpl. by case_cmp.
  - set (p := concat (map rlp_enc l)) in *. pose proof (enc_list_length p) as Hp.
    assert (fits64 (length p)) by (eapply fits64_le; [|done]; lia).
    unfold enc_list in Hr, Hroom. rewrite <-app_assoc in Hr. rewrite length_app in Hroom.
    destruct (Kind_header s KList 192 247 p rest st) as (s' & -> & Hpk); [by right|done..|].
    destruct (readFull_base s' p rest _ (peeked_base _ _ _ _ _ Hpk)) as (s2 & -> & Hr2 & _).
    { by apply room_bump. }
    exists s2. rewrite puthead_spec by (done || lia). split; [done|].
    unfold enc_list. by rewrite length_app, <-bump_bump.
Qed.

(** ** Peeking at the kind does not change what a decoder does *)

Definition peekable {A} (m : M A) : Prop := ∀ s r s',
  Stream_Kind s = (Ok r, s') → m s = m s'.

Lemma Kind_idem s r s' : Stream_Kind s = (Ok r, s') → Stream_Kind s' = (Ok r, s').
Proof.
  unfold Stream_Kind. destruct (s_kind s) as [k|] eqn:Hk.
  - destruct (s_kinderr s) eqn:He; [done|]. intros [= <- <-]. by rewrite Hk, He.
  - cbv zeta. match goal with |- context [if ?b then (Err EOL, _) else _] => destruct b end; [done|].
    destruct (Stream_readKind _) as [[[k size] err] s1]. cbn [s_kinderr s_kind s_size with_kinderr with_size with_kind].
    match goal with |- context [match ?e with Some _ => (Err _, _) | None => _ end] => destruct e end; [done|].
    by intros [= <- <-].
Qed.

Lemma peekable_Kind {A} (k : Kind * Z → M A) : peekable (mbind_ Stream_Kind k).
Proof. intros s r s' H. unfold mbind_. by rewrite H, (Kind_idem _ _ _ H). Qed.

Lemma peekable_bind {A B} (m : M A) (k : A → M B) : peekable m → peekable (mbind_ m k).
Proof. intros H s r s' Hk. unfold mbind_. by rewrite (H _ _ _ Hk). Qed.

Lemma peekable_wrapped {A} (m : M A) : peekable m → peekable (wrapped m).
Proof. intros H s r s' Hk. unfold wrapped. by rewrite (H _ _ _ Hk). Qed.

Create HintDb rlp.
#[export] Hint Resolve peekable_Kind peekable_bind peekable_wrapped reads_map reads_wrapped : rlp.

(** ** At the end of a list *)

(** A decoder that reports EOL at the end of the innermost list. *)
Definition ends {A} (m : M A) : Prop := ∀ s rd tos st,
  ready s rd (tos :: st) → lp_pos tos = lp_size tos →
  ∃ s', m s = (Err EOL, s') ∧ ready s' rd (tos :: st).

Lemma ends_Kind {A} (k : Kind * Z → M A) : ends (mbind_ Stream_Kind k).
Proof.
  intros s rd tos st Hr Heq. unfold mbind_, Stream_Kind.
  pose proof Hr as (Hk & _ & _ & _ & Hst & _). rewrite Hk. simpl. rewrite Hst, Heq, Z.eqb_refl.
  eexists. split; [done|]. by apply ready_kinderr.
Qed.

Lemma ends_bind {A B} (m : M A) (k : A → M B) : ends m → ends (mbind_ m k).
Proof.
  intros H s rd tos st Hr Heq. unfold mbind_. destruct (H s rd tos st Hr Heq) as (s' & -> & ?). by exists s'.
Qed.

Lemma ends_wrapped {A} (m : M A) : ends m → ends (wrapped m).
Proof.
  intros H s rd tos st Hr Heq. unfold wrapped. destruct (H s rd tos st Hr Heq) as (s' & -> & ?). by exists s'.
Qed.

#[export] Hint Resolve ends_Kind ends_bind ends_wrapped : rlp.

(** ** Lists *)

(** [m] reads a payload that fills the rest of the innermost list. *)
Definition fills {A} (m : M A) (p : bytes) (a : A) : Prop := ∀ s rest tos st,
  ready s (p ++ rest) (tos :: st) → lp_size tos - lp_pos tos = Z.of_nat (length p) →
  ∃ s', m s = (Ok a, s') ∧ ready s' rest (bump (length p) (tos :: st)).

Lemma reads_fills {A} (m : M A) p (a : A) : reads m p a → fills m p a.
Proof. intros H s rest tos st Hr Hsz. apply H; [done|]. simpl. lia. Qed.

Lemma fills_map {A B} (m : M A) (f : A → B) p a :
  fills m p a → fills (let! x := m in mret (f x)) p (f a).
Proof. intros H s rest tos st Hr Hsz. unfold mbind_. destruct (H s rest tos st Hr Hsz) as (s' & -> & ?). by exists s'. Qed.

Lemma List_enter s p rest st :
  fits64 (length p) → ready s (enc_list p ++ rest) st → room (length (enc_list p)) st →
  ∃ s', Stream_List s = (Ok (Z.of_nat (length p)), s') ∧
    ready s' (p ++ rest) (Listpos 0 (Z.of_nat (length p)) :: bump (length (enc_list p) - length p) st).
Proof.
  unfold enc_list. intros Hf Hr Hroom. rewrite <-app_assoc in Hr. rewrite length_app in *.
  destruct (Kind_header s KList 192 247 p rest st) as (s' & E & Hp); [by right|done..|].
  unfold Stream_List, mbind_. rewrite E. eexists. split; [done|].
  rewrite Nat.add_sub. destruct Hp as [(? & ? & ? & -> & ?) _]. split; [done|]. unfold base. simpl.
  split_and!; try done. constructor; [|done]. unfold listpos_ok. simpl. unfold fits64 in Hf. lia.
Qed.

Lemma ListEnd_exit s rest n st :
  ready s rest (Listpos (Z.of_nat n) (Z.of_nat n) :: st) → room n st →
  ∃ s', Stream_ListEnd s = (Ok tt, s') ∧ ready s' rest (bump n st).
Proof.
  intros (Hk & Hrd & Hl & Hrem & Hst & Hok) Hroom. unfold Stream_ListEnd. rewrite Hst. simpl.
  rewrite Z.eqb_refl. simpl. eexists. split; [done|]. apply Forall_cons in Hok as [_ Hok].
  split; [done|]. unfold base. simpl. split_and!; try done. by apply bump_ok.
Qed.

(** Entering a list, reading its payload and leaving it. *)
Lemma reads_list {A} (m : M A) p a :
  fits64 (length p) → fills m p a →
  (∀ s rest st, ready s (enc_list p ++ rest) st → room (length (enc_list p)) st →
   ∃ s1 s2 s3, Stream_List s = (Ok (Z.of_nat (length p)), s1) ∧ m s1 = (Ok a, s2) ∧
     ready s2 rest (Listpos (Z.of_nat (length p)) (Z.of_nat (length p))
                      :: bump (length (enc_list p) - length p) st) ∧
     Stream_ListEnd s2 = (Ok tt, s3) ∧ ready s3 rest (bump (length (enc_list p)) st)).
Proof.
  intros Hf Hm s rest st Hr Hroom. pose proof (enc_list_length p) as Hl.
  destruct (List_enter s p rest st Hf Hr Hroom) as (s1 & E1 & Hr1).
  destruct (Hm s1 rest _ _ Hr1) as (s2 & E2 & Hr2); [simpl; lia|]. simpl in Hr2.
  destruct (ListEnd_exit s2 rest (length p) _ Hr2) as (s3 & E3 & Hr3).
  { apply room_bump. eapply room_le; [|exact Hroom]. lia. }
  rewrite bump_bump in Hr3. replace (_ - _ + _)%nat with (length (enc_list p)) in Hr3 by lia.
  exists s1, s2, s3. by split_and!.
Qed.

Section Elements.
Context {A : Type} (elemdec : M A).

Lemma slice_elems_fill vs bss rounds acc :
  ends elemdec → Forall2 (reads elemdec) bss vs → (length vs < rounds)%nat →
  fills (decodeSliceElems elemdec rounds acc) (concat bss) (acc ++ vs).
Proof.
  intros Hend Hall. revert rounds acc.
  induction Hall as [|bs v bss vs Hv _ IH]; intros rounds acc Hrounds s rest tos st Hr Hsz;
    (destruct rounds as [|rounds]; [simpl in *; lia|]); simpl.
  - destruct (Hend s rest tos st Hr) as (s' & -> & Hr'); [simpl in Hsz; lia|].
    exists s'. rewrite app_nil_r. split; [done|]. destruct tos as [p z]. simpl.
    by rewrite Z.add_0_r.
  - simpl in Hr, Hsz. rewrite <-app_assoc in Hr. rewrite length_app in Hsz.
    destruct (Hv s _ _ Hr) as (s1 & -> & Hr1); [simpl; lia|].
    destruct (IH rounds (acc ++ [v]) ltac:(simpl in *; lia) s1 rest _ _ Hr1) as (s2 & -> & Hr2); [simpl; lia|].
    exists s2. rewrite <-app_assoc. split; [done|].
    simpl in Hr2 |- *. by rewrite length_app, Nat2Z.inj_add, Z.add_assoc.
Qed.

Lemma array_elems_fill vs bss acc :
  Forall2 (reads elemdec) bss vs →
  fills (decodeArrayElems elemdec (length vs) acc) (concat bss) (acc ++ vs).
Proof.
  intros Hall. revert acc.
  induction Hall as [|bs v bss vs Hv _ IH]; intros acc s rest tos st Hr Hsz; simpl.
  - exists s. rewrite app_nil_r. split; [done|]. destruct tos as [p z]. by rewrite Z.add_0_r.
  - simpl in Hr, Hsz. rewrite <-app_assoc in Hr. rewrite length_app in Hsz.
    destruct (Hv s _ _ Hr) as (s1 & -> & Hr1); [simpl; lia|].
    destruct (IH (acc ++ [v]) s1 rest _ _ Hr1) as (s2 & -> & Hr2); [simpl; lia|].
    exists s2. rewrite <-app_assoc. split; [done|].
    simpl in Hr2 |- *. by rewrite length_app, Nat2Z.inj_add, Z.add_assoc.
Qed.

Lemma ListSlice_reads vs bss rounds :
  ends elemdec → Forall2 (reads elemdec) bss vs → Forall (λ bs, 1 ≤ length bs)%nat bss →
  fits64 (length (concat bss)) → (length vs < rounds)%nat →
  reads (decodeListSlice elemdec rounds) (enc_list (concat bss)) vs.
Proof.
  intros Hend Hall Hne Hf Hrounds s rest st Hr Hroom.
  destruct (reads_list (decodeSliceElems elemdec rounds []) (concat bss) vs Hf
    (slice_elems_fill vs bss rounds [] Hend Hall Hrounds) s rest st Hr Hroom)
    as (s1 & s2 & s3 & E1 & E2 & Hr2 & E3 & Hr3).
  unfold decodeListSlice, mbind_, wrapped. rewrite E1. simpl.
  destruct (Z.eqb_spec (Z.of_nat (length (concat bss))) 0) as [E0|E0].
  - assert (vs = []) as ->.
    { destruct Hall as [|bs ? bss']; [done|]. apply Forall_cons in Hne as [? _]. simpl in E0.
      rewrite length_app in E0. lia. }
    inversion Hall; subst. simpl in *.
    destruct (List_enter s [] rest st Hf Hr Hroom) as (s1' & E1' & Hr1).
    rewrite E1' in E1. injection E1 as ->.
    destruct (ListEnd_exit s1 rest 0 _ Hr1) as (s3' & -> & Hr3').
    { eapply (room_bump _ 0), room_le; [|exact Hroom]. simpl. lia. }
    exists s3'. split; [done|]. by rewrite bump_bump in Hr3'.
  - rewrite E2, E3. by exists s3.
Qed.

Lemma ListArray_reads vs bss :
  Forall2 (reads elemdec) bss vs → fits64 (length (concat bss)) →
  reads (decodeListArray elemdec (length vs)) (enc_list (concat bss)) vs.
Proof.
  intros Hall Hf s rest st Hr Hroom.
  destruct (reads_list (decodeArrayElems elemdec (length vs) []) (concat bss) vs Hf
    (array_elems_fill vs bss [] Hall) s rest st Hr Hroom) as (s1 & s2 & s3 & E1 & E2 & Hr2 & E3 & Hr3).
  unfold decodeListArray, mbind_, wrapped. rewrite E1. simpl. rewrite E2, E3. by exists s3.
Qed.
End Elements.

(** ** Struct fields *)

(** Every field is read from its part of the payload; the last one may fill it. *)
Inductive fields_read (dec : ty → M gval) : list ty → list bytes → list gval → Prop :=
| fields_nil : fields_read dec [] [] []
| fields_last f b v : fills (dec f) b v → fields_read dec [f] [b] [v]
| fields_cons f fs b bss v vs :
    reads (dec f) b v → fields_read dec fs bss vs → fields_read dec (f :: fs) (b :: bss) (v :: vs).

Lemma fields_fill dec fs bss vs acc :
  fields_read dec fs bss vs → fills (decodeFields dec fs acc) (concat bss) (acc ++ vs).
Proof.
  intros H. revert acc. induction H as [|f b v Hf|f fs b bss v vs Hf _ IH]; intros acc s rest tos st Hr Hsz.
  - exists s. rewrite app_nil_r. split; [done|]. by rewrite bump_0.
  - simpl in Hr, Hsz. rewrite app_nil_r in *. destruct (Hf s rest tos st Hr Hsz) as (s1 & E1 & Hr1).
    cbn [decodeFields]. rewrite E1. exists s1. split; [done|]. simpl. by rewrite app_nil_r.
  - simpl in Hr, Hsz. rewrite <-app_assoc in Hr. rewrite length_app in Hsz.
    destruct (Hf s _ _ Hr) as (s1 & E1 & Hr1); [simpl; lia|].
    destruct (IH (acc ++ [v]) s1 rest _ _ Hr1) as (s2 & E2 & Hr2); [simpl; lia|].
    cbn [decodeFields]. rewrite E1, E2. exists s2. rewrite <-app_assoc. split; [done|].
    simpl in Hr2 |- *. by rewrite length_app, Nat2Z.inj_add, Z.add_assoc.
Qed.

Lemma Struct_reads dec fs bss vs :
  fields_read dec fs bss vs → fits64 (length (concat bss)) →
  reads (decodeStruct dec fs) (enc_list (concat bss)) vs.
Proof.
  intros Hm Hf s rest st Hr Hroom.
  destruct (reads_list _ _ vs Hf (fields_fill _ _ _ _ [] Hm) s rest st Hr Hroom)
    as (s1 & s2 & s3 & E1 & E2 & Hr2 & E3 & Hr3).
  unfold decodeStruct, mbind_, wrapped. rewrite E1. simpl. rewrite E2, E3. by exists s3.
Qed.

(** ** Well-formed types and their values *)

Definition is_tail (t : ty) : bool :=
  match t with
  | TTail _ => true
  | _ => false
  end.

(** Tails occur only as the last field of a struct (parseStructTag). *)
Fixpoint ty_ok (t : ty) : bool :=
  match t with
  | TSlice t | TArray _ t | TTail t | TPtr t | TOptPtr t => negb (is_tail t) && ty_ok t
  | TStruct fs => forallb ty_ok fs && forallb (negb ∘ is_tail) (removelast fs)
  | _ => true
  end.

(** The interface values decodeInterface produces. *)
Fixpoint iface_val (v : gval) : Prop :=
  match v with
  | GIface (GBytes b) => Forall is_byte b
  | GIface (GSlice false vs) => foldr (λ v P, iface_val v ∧ P) True vs
  | _ => False
  end.

(** The values of a type that the decoder gives back.  Left out are the array
    [1]byte{0}; nil pointers without the "nil" tag, nil big integers and nil
    interfaces; a non-nil pointer with the "nil" tag whose target has an empty
    encoding, and a nil one that is not written as an empty string or list; and
    interface values of other types than the ones decodeInterface makes. *)
Fixpoint has_type (t : ty) (v : gval) : Prop :=
  match t with
  | TRaw => ∃ it, item_ok it ∧ v = GRaw (rlp_enc it)
  | TBigInt => ∃ i, 0 ≤ i ∧ v = GBig i
  | TUint bits => ∃ i, (bits = 8 ∨ bits = 16 ∨ bits = 32 ∨ bits = 64) ∧ 0 ≤ i < 2 ^ bits ∧ v = GUint i
  | TBool => ∃ b, v = GBool b
  | TString => ∃ b, Forall is_byte b ∧ v = GString b
  | TByteSlice => ∃ b, Forall is_byte b ∧ v = GBytes b
  | TByteArray n => ∃ b, Forall is_byte b ∧ length b = n ∧ b ≠ [0] ∧ v = GBytes b
  | TSlice t => ∃ vs, Forall (has_type t) vs ∧ v = GSlice false vs
  | TArray n t => ∃ vs, Forall (has_type t) vs ∧ length vs = n ∧ v = GSlice false vs
  | TTail t => ∃ vs, Forall (has_type t) vs ∧ v = GSlice true vs
  | TStruct fs => ∃ vs,
      (fix all (fs : list ty) (vs : list gval) : Prop :=
         match fs, vs with
         | [], [] => True
         | f :: fs', v :: vs' => has_type f v ∧ all fs' vs'
         | _, _ => False
         end) fs vs ∧ v = GStruct vs
  | TPtr t => ∃ v', has_type t v' ∧ v = GPtr v'
  | TOptPtr t =>
      (v = zero_val (TOptPtr t) ∧ (gval_enc v = Some [128] ∨ gval_enc v = Some [192])) ∨
      (∃ v', has_type t v' ∧ v = GPtr v' ∧ gval_enc v' ≠ Some [128] ∧ gval_enc v' ≠ Some [192])
  | TIface => iface_val v
  end.

Lemma has_type_struct fs v : has_type (TStruct fs) v ↔ ∃ vs, Forall2 has_type fs vs ∧ v = GStruct vs.
Proof.
  simpl. f_equiv. intros vs. f_equiv. revert vs.
  induction fs as [|f fs IH]; intros [|v' vs].
  - split; [constructor|done].
  - split; [done|inversion 1].
  - split; [done|inversion 1].
  - rewrite IH. split; [intros [? ?]; by constructor|by inversion 1].
Qed.

Section TyInd.
Variable P : ty → Prop.
Hypothesis Hleaf : ∀ t, (match t with
  | TSlice _ | TArray _ _ | TTail _ | TStruct _ | TPtr _ | TOptPtr _ => False
  | _ => True
  end) → P t.
Hypothesis Hslice : ∀ t, P t → P (TSlice t).
Hypothesis Harray : ∀ n t, P t → P (TArray n t).
Hypothesis Htail : ∀ t, P t → P (TTail t).
Hypothesis Hptr : ∀ t, P t → P (TPtr t).
Hypothesis Hoptptr : ∀ t, P t → P (TOptPtr t).
Hypothesis Hstruct : ∀ fs, Forall P fs → P (TStruct fs).

Fixpoint ty_ind' (t : ty) : P t :=
  let go := fix go (fs : list ty) : Forall P fs :=
    match fs with
    | [] => Forall_nil_2 _
    | x :: fs' => Forall_cons_2 _ _ _ (ty_ind' x) (go fs')
    end in
  match t with
  | TSlice t => Hslice t (ty_ind' t)
  | TArray n t => Harray n t (ty_ind' t)
  | TTail t => Htail t (ty_ind' t)
  | TPtr t => Hptr t (ty_ind' t)
  | TOptPtr t => Hoptptr t (ty_ind' t)
  | TStruct fs => Hstruct fs (go fs)
  | t => Hleaf t I
  end.
End TyInd.

(** ** Decoders peek and report the end of the list *)

Lemma decode_peekable n t : (0 < n)%nat → ty_ok t → is_tail t = false → peekable (decode n t).
Proof.
  intros Hn. destruct n as [|n]; [lia|]. induction t using ty_ind'; intros Hok Ht.
  - destruct t; try done; simpl;
      unfold decodeBigInt, Stream_Bool, Stream_Bytes, Stream_Raw, Stream_uint, decodeByteArray;
      eauto 10 with rlp.
  - simpl. unfold decodeListSlice, Stream_List. eauto with rlp.
  - simpl. unfold decodeListArray, Stream_List. eauto with rlp.
  - done.
  - simpl in *. apply andb_True in Hok as [? ?]. apply peekable_bind, IHt; [done|by destruct (is_tail t)].
  - intros s r s' Hk. simpl. unfold decodeOptPtr. by rewrite Hk, (Kind_idem _ _ _ Hk).
  - simpl. unfold decodeStruct, Stream_List. eauto with rlp.
Qed.

Lemma decode_ends n t : (0 < n)%nat → ty_ok t → is_tail t = false → ends (decode n t).
Proof.
  intros Hn. destruct n as [|n]; [lia|]. induction t using ty_ind'; intros Hok Ht.
  - destruct t; try done; simpl;
      unfold decodeBigInt, Stream_Bool, Stream_Bytes, Stream_Raw, Stream_uint, decodeByteArray;
      eauto 10 with rlp.
  - simpl. unfold decodeListSlice, Stream_List. eauto with rlp.
  - simpl. unfold decodeListArray, Stream_List. eauto with rlp.
  - done.
  - simpl in *. apply andb_True in Hok as [? ?]. apply ends_bind, IHt; [done|by destruct (is_tail t)].
  - intros s rd tos st Hr Heq. simpl. unfold decodeOptPtr.
    destruct (ends_Kind mret s rd tos st Hr Heq) as (s' & E & Hr'). unfold mbind_ in E.
    destruct (Stream_Kind s) as [[[k z]|e|] s1]; [done| |done]. injection E as -> ->.
    exists (rearm s'). split; [done|]. apply ready_rearm, Hr'.
  - simpl. unfold decodeStruct, Stream_List. eauto with rlp.
Qed.

(** ** Typed values are encoded as items *)

Lemma opt_concat_split vs p :
  opt_concat (map gval_enc vs) = Some p →
  ∃ bss, Forall2 (λ b v, gval_enc v = Some b) bss vs ∧ p = concat bss.
Proof.
  revert p. induction vs as [|v vs IH]; simpl; intros p Hp.
  - injection Hp as <-. exists []. by split.
  - apply opt_concat_cons in Hp as (b & r & Hb & (bss & ? & ->)%IH & ->). exists (b :: bss). by split; [constructor|].
Qed.

(** [bs] is the encoding of items, of exactly one where [one] is set. *)
Definition items_of (one : bool) (bs : bytes) : Prop :=
  ∃ its, Forall item_ok its ∧ bs = concat (map rlp_enc its) ∧ (one → length its = 1%nat).

Lemma items_of_str (one : bool) b : Forall is_byte b → items_of one (enc_str b).
Proof. intros Hb. exists [Str b]. split_and!; [by repeat constructor|simpl; by rewrite app_nil_r|done]. Qed.

Lemma items_of_item (one : bool) it : item_ok it → items_of one (rlp_enc it).
Proof. intros Hb. exists [it]. split_and!; [by repeat constructor|simpl; by rewrite app_nil_r|done]. Qed.

Lemma items_of_list (one o : bool) p : items_of o p → items_of one (enc_list p).
Proof.
  intros (its & Hok & -> & _). exists [Lst its].
  split_and!; [|simpl; by rewrite app_nil_r|done]. constructor; [by apply item_ok_Lst|constructor].
Qed.

Lemma items_of_concat vs p :
  Forall (λ v, ∀ bs, gval_enc v = Some bs → items_of false bs) vs →
  opt_concat (map gval_enc vs) = Some p → items_of false p.
Proof.
  intros Hall. revert p. induction Hall as [|v vs Hv _ IH]; simpl; intros p Hp.
  - injection Hp as <-. by exists [].
  - apply opt_concat_cons in Hp as (b & r & Hb & Hr & ->).
    destruct (Hv _ Hb) as (l1 & ? & -> & _), (IH _ Hr) as (l2 & ? & -> & _). exists (l1 ++ l2).
    split_and!; [by apply Forall_app|by rewrite map_app, concat_app|done].
Qed.

Lemma items_of_one bs : items_of true bs ↔ ∃ it, item_ok it ∧ bs = rlp_enc it.
Proof.
  split.
  - intros (its & Hok & -> & Hl). specialize (Hl I). destruct its as [|it [|]]; try done.
    exists it. split; [by apply Forall_cons in Hok as [? _]|simpl; by rewrite app_nil_r].
  - intros (it & Hok & ->). by apply items_of_item.
Qed.

Lemma items_of_weaken (one : bool) bs : items_of one bs → items_of false bs.
Proof. intros (its & ? & ? & _). by exists its. Qed.

Lemma iface_items v : iface_val v → ∀ bs, gval_enc v = Some bs → items_of true bs.
Proof.
  assert (Hgen : ∀ v, (iface_val v → ∀ bs, gval_enc v = Some bs → items_of true bs) ∧
     (iface_val (GIface v) → ∀ bs, gval_enc v = Some bs → items_of true bs)); [|apply Hgen].
  clear v. apply gval_ind'.
  - intros v Hl. split; [by destruct v|]. destruct v; try done. simpl. intros ? bs [= <-]. by apply items_of_str.
  - intros v [_ Hv]. split_and!; simpl; try done.
  - intros vs IH. split; [intros [|]|]; (split; [done|]); simpl; try done. intros Hall bs Hbs.
    apply fmap_Some in Hbs as (p & Hp & ->). apply (items_of_list _ false).
    apply (items_of_concat vs); [|done]. clear Hp.
    induction IH as [|v vs [Hv _] _ IHvs]; [constructor|]. destruct Hall as [? Hall].
    constructor; [|by apply IHvs]. intros bs Hbs. eapply items_of_weaken, Hv; done.
Qed.

Lemma not_tail t : negb (is_tail t) && ty_ok t → is_tail t = false ∧ ty_ok t.
Proof. intros [? ?]%andb_True. by destruct (is_tail t). Qed.

Lemma typed_items t v bs :
  ty_ok t → has_type t v → gval_enc v = Some bs → items_of (negb (is_tail t)) bs.
Proof.
  revert v bs. induction t as [t Hl|t IH|n t IH|t IH|t IH|t IH|fs IH] using ty_ind'; intros v bs Hok Hv Hbs.
  - destruct t; try done; simpl in Hv.
    + destruct Hv as (it & ? & ->). injection Hbs as <-. by apply items_of_item.
    + destruct Hv as (i & ? & ->). simpl in Hbs. revert Hbs. case_cmp. intros [= <-].
      apply items_of_str, be_bytes_byte.
    + destruct Hv as (i & _ & ? & ->). injection Hbs as <-. apply items_of_str, be_bytes_byte.
    + destruct Hv as (b & ->). injection Hbs as <-. apply items_of_str. by destruct b; repeat constructor.
    + destruct Hv as (b & ? & ->). injection Hbs as <-. by apply items_of_str.
    + destruct Hv as (b & ? & ->). injection Hbs as <-. by apply items_of_str.
    + destruct Hv as (b & ? & _ & _ & ->). injection Hbs as <-. by apply items_of_str.
    + by eapply iface_items.
  - apply not_tail in Hok as [_ Hok]. destruct Hv as (vs & Hvs & ->).
    apply fmap_Some in Hbs as (p & Hp & ->). eapply (items_of_list _ false), items_of_concat, Hp.
    eapply Forall_impl; [exact Hvs|]. intros v Hv b Hb. eapply items_of_weaken, IH; done.
  - apply not_tail in Hok as [_ Hok]. destruct Hv as (vs & Hvs & _ & ->).
    apply fmap_Some in Hbs as (p & Hp & ->). eapply (items_of_list _ false), items_of_concat, Hp.
    eapply Forall_impl; [exact Hvs|]. intros v Hv b Hb. eapply items_of_weaken, IH; done.
  - apply not_tail in Hok as [_ Hok]. destruct Hv as (vs & Hvs & ->). eapply items_of_concat, Hbs.
    eapply Forall_impl; [exact Hvs|]. intros v Hv b Hb. eapply items_of_weaken, IH; done.
  - apply not_tail in Hok as [Ht Hok]. destruct Hv as (v' & Hv & ->). simpl.
    specialize (IH v' bs Hok Hv Hbs). by rewrite Ht in IH.
  - apply not_tail in Hok as [Ht Hok]. destruct Hv as [(-> & [E|E])|(v' & Hv & -> & _)].
    + rewrite E in Hbs. injection Hbs as <-. by apply (items_of_str _ []).
    + rewrite E in Hbs. injection Hbs as <-. by apply (items_of_item _ (Lst [])).
    + specialize (IH v' bs Hok Hv Hbs). by rewrite Ht in IH.
  - apply has_type_struct in Hv as (vs & Hvs & ->). simpl in Hok. apply andb_True in Hok as [Hok _].
    apply forallb_True in Hok.
    apply fmap_Some in Hbs as (p & Hp & ->). eapply (items_of_list _ false), items_of_concat, Hp.
    clear Hp p. induction Hvs as [|f v fs vs Hv _ IHvs]; [constructor|].
    apply Forall_cons in IH as [IHf IH], Hok as [Hf Hok]. constructor; [|by apply IHvs].
    intros b Hb. eapply items_of_weaken, IHf; done.
Qed.

(** Kind at an encoded item says whether it is empty. *)
Lemma Kind_item s it rest st :
  item_ok it → fits64 (length (rlp_enc it)) → ready s (rlp_enc it ++ rest) st →
  room (length (rlp_enc it)) st →
  ∃ k z s', Stream_Kind s = (Ok (k, z), s') ∧
    (z = 0 ∧ k ≠ KByte ↔ rlp_enc it = [128] ∨ rlp_enc it = [192]) ∧
    (z = 0 ∧ k ≠ KByte → base s' rest (bump 1 st)) ∧
    (k = KList ↔ ∃ l, it = Lst l).
Proof.
  intros Hok Hf Hr Hroom. destruct it as [b|l]; simpl in *.
  - pose proof (fits64_le _ _ (enc_str_length b) Hf) as Hfb.
    destruct (Kind_str s b rest st Hok Hfb Hr Hroom)
      as [(x & s' & -> & E & Hx & EK & Hp & Hbv)|(h & s' & E & Hone & EK & Hp & Hroom')].
    + rewrite EK, E. eexists _, _, _. split; [done|]. split_and!; [|naive_solver|naive_solver].
      split; [naive_solver|]. intros [[= ->]|[= ->]]; lia.
    + rewrite EK. eexists _, _, _. split; [done|].
      assert (length b = 0%nat → h = [128]) as Hh.
      { intros Hb. destruct b; [|done]. rewrite app_nil_r in E. by simpl in E. }
      split_and!; [|intros [Hb _]|naive_solver].
      * split; [intros [Hb _]; destruct b; [by left|done]|]. split; [|done].
        destruct b as [|x [|y b]]; [done| |].
        -- specialize (Hone x eq_refl). simpl in H. revert H. case_cmp. naive_solver.
        -- exfalso. pose proof (enc_str_length (x :: y :: b)) as Hl.
           destruct H as [H|H]; rewrite H in Hl; simpl in Hl; lia.
      * rewrite Hh in Hp by lia. destruct b; [|done]. by eapply peeked_base.
  - set (p := concat (map rlp_enc l)) in *. pose proof (enc_list_length p) as Hl.
    assert (fits64 (length p)) by (eapply fits64_le; [|done]; lia).
    unfold enc_list in Hr, Hroom. rewrite <-app_assoc in Hr. rewrite length_app in Hroom.
    destruct (Kind_header s KList 192 247 p rest st) as (s' & -> & Hpk); [by right|done..|].
    eexists _, _, _. split; [done|]. split_and!; [|intros [Hb _]|naive_solver].
    + split; [intros [Hb _]; right; by destruct p|]. split; [|done]. destruct p; [done|]. exfalso.
      destruct H0 as [H0|H0]; rewrite H0 in Hl; simpl in Hl; lia.
    + destruct p; [|done]. by eapply peeked_base.
Qed.

(** ** Every typed value is read from its encoding *)

Lemma ByteArray_reads b :
  Forall is_byte b → b ≠ [0] → fits64 (length b) →
  reads (decodeByteArray (length b)) (enc_str b) (GBytes b).
Proof.
  intros Hb Hne Hf s rest st Hr Hroom. unfold decodeByteArray, mbind_ at 1.
  destruct (Kind_str s b rest st Hb Hf Hr Hroom)
    as [(x & s' & -> & E & Hx & -> & Hp & Hbv)|(h & s' & E & Hone & -> & Hp & Hroom')].
  - rewrite E. simpl. unfold Stream_uint, mbind_. rewrite (peeked_Kind _ _ _ _ _ Hp), Hbv.
    apply Forall_cons in Hb as [Hxb _]. destruct (Z.eqb_spec x 0) as [->|]; [done|].
    rewrite u8_id by done. eexists. split; [done|]. by eapply ready_rearm, peeked_base.
  - repeat case_cmp.
    destruct (readFull_base s' b rest _ (peeked_base _ _ _ _ _ Hp) Hroom') as (s2 & E2 & Hr2 & _).
    unfold mbind_. rewrite E2, E, length_app, <-bump_bump. exists s2. split; [|done].
    destruct b as [|x [|]]; [done| |done]. specialize (Hone x eq_refl). by case_cmp.
Qed.

Lemma BigInt_reads i :
  0 ≤ i → fits64 (length (be_bytes i)) → reads decodeBigInt (enc_str (be_bytes i)) (GBig i).
Proof.
  intros Hi Hf s rest st Hr Hroom. unfold decodeBigInt, mbind_.
  destruct (reads_wrapped _ _ _ (Bytes_reads _ (be_bytes_byte i) Hf) s rest st Hr Hroom) as (s' & -> & Hr').
  exists s'. split; [|done]. pose proof (be_val_bytes i Hi) as Hv.
  destruct (be_bytes i) as [|x l] eqn:E; [by rewrite <-Hv|].
  destruct (decide (i = 0)) as [->|]; [done|].
  apply be_bytes_head in E; [|lia]. destruct x; try done; by rewrite Hv.
Qed.

Lemma Bool_reads (b : bool) : reads Stream_Bool (enc_str (if b then [1] else [])) b.
Proof.
  replace (if b then [1] else [] : bytes) with (be_bytes (if b then 1 else 0)) by by destruct b.
  intros s rest st Hr Hroom. unfold Stream_Bool, mbind_.
  destruct (uint_reads 8 (if b then 1 else 0)) with (s := s) (rest := rest) (st := st)
    as (s' & -> & ?); [by destruct b|by left|done|done|].
  exists s'. by destruct b.
Qed.

(** What [decode] does with the elements of a list is what it does with each. *)
Section Typed.
Context (n : nat).

Definition typed_reads (t : ty) : Prop := ∀ v bs,
  ty_ok t → has_type t v → gval_enc v = Some bs → fits64 (length bs) → (length bs < n)%nat →
  if is_tail t then fills (decode n t) bs v else reads (decode n t) bs v.

Lemma elems_reads t vs p :
  typed_reads t → is_tail t = false → ty_ok t → Forall (has_type t) vs →
  opt_concat (map gval_enc vs) = Some p → fits64 (length p) → (length p < n)%nat →
  ∃ bss, p = concat bss ∧ Forall2 (reads (decode n t)) bss vs ∧
    Forall (λ bs, 1 ≤ length bs)%nat bss ∧ (length vs ≤ length p)%nat.
Proof.
  intros IH Ht Hok Hvs Hp Hf Hn. revert p Hp Hf Hn.
  induction Hvs as [|v vs Hv _ IHvs]; simpl; intros p Hp Hf Hn.
  - injection Hp as <-. exists []. by repeat constructor.
  - apply opt_concat_cons in Hp as (b & r & Hb & Hr & ->). rewrite length_app in *.
    destruct (IHvs r Hr) as (bss & -> & ? & ? & ?); [eapply fits64_le; [|done]; lia|lia|].
    specialize (IH v b Hok Hv Hb). rewrite Ht in IH.
    pose proof (typed_items t v b Hok Hv Hb) as Hit. rewrite Ht in Hit.
    apply items_of_one in Hit as (it & _ & ->). pose proof (rlp_enc_nonempty it).
    exists (rlp_enc it :: bss). split_and!; [done| | |lia].
    + constructor; [|done]. apply IH; [eapply fits64_le; [|done]; lia|lia].
    + by constructor.
Qed.

Lemma struct_reads fs vs p :
  Forall typed_reads fs → Forall ty_ok fs → forallb (negb ∘ is_tail) (removelast fs) →
  Forall2 has_type fs vs → opt_concat (map gval_enc vs) = Some p → fits64 (length p) →
  (length p < n)%nat → ∃ bss, p = concat bss ∧ fields_read (decode n) fs bss vs.
Proof.
  intros IH Hok Ht Hvs. revert IH Hok Ht p.
  induction Hvs as [|f v fs vs Hv Hvs IHvs]; simpl map; intros IH Hok Ht p Hp Hf Hn.
  - injection Hp as <-. exists []. split; [done|constructor].
  - apply Forall_cons in IH as [IHf IH], Hok as [Hokf Hok].
    apply opt_concat_cons in Hp as (b & r & Hb & Hr & ->). rewrite length_app in *.
    specialize (IHf v b Hokf Hv Hb ltac:(eapply fits64_le; [|done]; lia) ltac:(lia)).
    destruct fs as [|f' fs].
    + inversion Hvs; subst. injection Hr as <-. exists [b]. split; [done|]. constructor.
      destruct (is_tail f); [done|]. by apply reads_fills.
    + apply andb_True in Ht as [Htf Ht]. simpl in Htf. apply negb_True in Htf.
      destruct (IHvs IH Hok Ht r Hr) as (bss & -> & ?); [eapply fits64_le; [|done]; lia|lia|].
      exists (b :: bss). split; [done|]. constructor; [|done]. by destruct (is_tail f).
Qed.
End Typed.

Lemma iface_elems rounds d vs p :
  (∀ bs v, iface_val v → gval_enc v = Some bs → fits64 (length bs) → (length bs < rounds)%nat →
     (length bs < d)%nat → reads (decodeInterface rounds d) bs v) →
  foldr (λ v P, iface_val v ∧ P) True vs → opt_concat (map gval_enc vs) = Some p →
  fits64 (length p) → (length p < rounds)%nat → (length p < d)%nat →
  ∃ bss, p = concat bss ∧ Forall2 (reads (decodeInterface rounds d)) bss vs ∧
    Forall (λ bs, 1 ≤ length bs)%nat bss ∧ (length vs ≤ length p)%nat.
Proof.
  intros IH. revert p. induction vs as [|v vs IHvs]; simpl; intros p Hvs Hp Hf Hr Hd.
  - injection Hp as <-. exists []. by repeat constructor.
  - destruct Hvs as [Hv Hvs]. apply opt_concat_cons in Hp as (b & r & Hb & Hrp & ->). rewrite length_app in *.
    destruct (IHvs r Hvs Hrp) as (bss & -> & ? & ? & ?); [eapply fits64_le; [|done]; lia|lia..|].
    pose proof (iface_items v Hv b Hb) as (it & _ & ->)%items_of_one. pose proof (rlp_enc_nonempty it).
    exists (rlp_enc it :: bss). split_and!; [done| |by constructor|lia].
    constructor; [|done]. apply IH; [done..| |lia|lia]. eapply fits64_le; [|done]; lia.
Qed.

(** A peekable decoder behaves the same after its kind has been asked for. *)
Lemma reads_peeked {A} (m : M A) bs a s rest st r s1 :
  peekable m → reads m bs a → ready s (bs ++ rest) st → room (length bs) st →
  Stream_Kind s = (Ok r, s1) → ∃ s', m s1 = (Ok a, s') ∧ ready s' rest (bump (length bs) st).
Proof. intros HP HR Hr Hroom E. rewrite <-(HP _ _ _ E). by apply HR. Qed.

Lemma Interface_reads rounds depth v bs :
  iface_val v → gval_enc v = Some bs → fits64 (length bs) →
  (length bs < rounds)%nat → (length bs < depth)%nat →
  reads (decodeInterface rounds depth) bs v.
Proof.
  revert bs v. induction depth as [|d IH]; intros bs v Hv Hbs Hf Hr Hd; [lia|].
  pose proof (iface_items v Hv bs Hbs) as (it & Hit & Ebs)%items_of_one.
  assert (1 ≤ length bs)%nat by (rewrite Ebs; apply rlp_enc_nonempty).
  intros s rest st Hrd Hroom. simpl. unfold mbind_ at 1.
  destruct v as [| | |[]| | | | | | | | | | | |]; try done; simpl in Hbs, Hv.
  - injection Hbs as Hbs. rewrite <-Hbs in *. clear it Hit Ebs.
    pose proof (fits64_le _ _ (enc_str_length b) Hf) as Hfb.
    destruct (Kind_item s (Str b) rest st) as (k & z & s1 & E & _ & _ & Hk); [done..|]. rewrite E.
    pose proof (reads_peeked (let! b := Stream_Bytes in mret (GIface (GBytes b))) _ _ s rest st _ s1
      ltac:(unfold Stream_Bytes; eauto with rlp)
      (reads_map _ (λ b, GIface (GBytes b)) _ _ (Bytes_reads b Hv Hfb)) Hrd Hroom E).
    destruct k; [done..|]. destruct Hk as [Hk _]. by destruct Hk.
  - destruct tail; [done|]. apply fmap_Some in Hbs as (p & Hp & ->).
    pose proof (enc_list_length p) as Hl.
    destruct (iface_elems rounds d vs p) as (bss & -> & Hvs & Hne & Hlen);
      [done..|eapply fits64_le; [|done]; lia|lia|lia|].
    assert (fits64 (length (concat bss))) by (eapply fits64_le; [|done]; lia).
    destruct (Kind_list s (concat bss) rest st) as (s1 & E); [done..|]. rewrite E.
    eapply (reads_peeked (let! vs := _ in mret (GIface (GSlice false vs)))); [| |done..].
    + unfold decodeListSlice, Stream_List. eauto with rlp.
    + apply (reads_map _ (λ vs, GIface (GSlice false vs))). apply ListSlice_reads; [|done..|lia].
      destruct d; [lia|]. apply ends_Kind.
Qed.

Lemma OptPtr_reads m nil_ it v :
  item_ok it → fits64 (length (rlp_enc it)) → rlp_enc it ≠ [128] → rlp_enc it ≠ [192] →
  peekable m → reads m (rlp_enc it) v → reads (decodeOptPtr m nil_) (rlp_enc it) (GPtr v).
Proof.
  intros Hok Hf H1 H2 HP HR s rest st Hr Hroom. unfold decodeOptPtr.
  destruct (Kind_item s it rest st) as (k & z & s1 & E & Hz & _); [done..|]. rewrite E.
  assert ((z =? 0) && negb (bool_decide (k = KByte)) = false) as ->.
  { apply not_true_iff_false. intros [?%Z.eqb_eq ?%negb_true_iff%bool_decide_eq_false]%andb_prop. tauto. }
  eapply (reads_peeked (let! v := _ in mret (GPtr v))); [by apply peekable_bind| |done..].
  by apply (reads_map _ GPtr).
Qed.

Lemma OptPtr_nil m nil_ bs :
  bs = [128] ∨ bs = [192] → reads (decodeOptPtr m nil_) bs nil_.
Proof.
  intros Hbs s rest st Hr Hroom. unfold decodeOptPtr.
  assert (∃ it, item_ok it ∧ bs = rlp_enc it) as (it & Hok & ->).
  { destruct Hbs as [-> | ->]; [exists (Str [])|exists (Lst [])]; (split; [|done]); constructor. }
  assert (length (rlp_enc it) = 1%nat) as Hl by (by destruct Hbs as [E|E]; rewrite E).
  destruct (Kind_item s it rest st) as (k & z & s1 & -> & Hz & Hb & _); [done|by rewrite Hl|done..|].
  destruct Hz as [_ Hz]. destruct (Hz Hbs) as [-> Hk]. rewrite bool_decide_false by done. simpl.
  eexists. split; [done|]. rewrite Hl. by apply ready_rearm, Hb.
Qed.

Lemma decode_reads n t : typed_reads n t.
Proof.
  induction t as [t Ht|t IH|m t IH|t IH|t IH|t IH|fs IH] using ty_ind'; intros v bs Hok Hv Hbs Hf Hn.
  - destruct t; try done; simpl in Hv |- *.
    + destruct Hv as (it & ? & ->). injection Hbs as <-. by apply (reads_map _ GRaw), Raw_reads.
    + destruct Hv as (i & ? & ->). simpl in Hbs. revert Hbs. case_cmp. intros [= <-].
      apply BigInt_reads; [done|]. eapply fits64_le; [apply enc_str_length|done].
    + destruct Hv as (i & ? & ? & ->). injection Hbs as <-.
      by apply (reads_map _ GUint), reads_wrapped, uint_reads.
    + destruct Hv as (b & ->). injection Hbs as <-. apply (reads_map _ GBool), reads_wrapped, Bool_reads.
    + destruct Hv as (b & ? & ->). injection Hbs as <-. apply (reads_map _ GString), reads_wrapped, Bytes_reads; [done|].
      eapply fits64_le; [apply enc_str_length|done].
    + destruct Hv as (b & ? & ->). injection Hbs as <-. apply (reads_map _ GBytes), reads_wrapped, Bytes_reads; [done|].
      eapply fits64_le; [apply enc_str_length|done].
    + destruct Hv as (b & ? & <- & ? & ->). injection Hbs as <-. apply ByteArray_reads; [done..|].
      eapply fits64_le; [apply enc_str_length|done].
    + by apply Interface_reads.
  - apply not_tail in Hok as [Ht Hok]. destruct Hv as (vs & Hvs & ->).
    apply fmap_Some in Hbs as (p & Hp & ->). pose proof (enc_list_length p).
    destruct (elems_reads n t vs p) as (bss & -> & ? & ? & ?); try done; [eapply fits64_le; [|done]; lia|lia|].
    apply (reads_map _ (GSlice false)), ListSlice_reads; try done; [apply decode_ends; by try lia| |lia].
    eapply fits64_le; [|done]; lia.
  - apply not_tail in Hok as [Ht Hok]. destruct Hv as (vs & Hvs & <- & ->).
    apply fmap_Some in Hbs as (p & Hp & ->). pose proof (enc_list_length p).
    destruct (elems_reads n t vs p) as (bss & -> & ? & ? & ?); try done; [eapply fits64_le; [|done]; lia|lia|].
    apply (reads_map _ (GSlice false)), ListArray_reads; [done|]. eapply fits64_le; [|done]; lia.
  - apply not_tail in Hok as [Ht Hok]. destruct Hv as (vs & Hvs & ->).
    destruct (elems_reads n t vs bs) as (bss & -> & ? & ? & ?); try done.
    apply (fills_map _ (GSlice true)), (slice_elems_fill _ vs bss n []); [apply decode_ends; by try lia|done|lia].
  - apply not_tail in Hok as [Ht Hok]. destruct Hv as (v' & Hv & ->). specialize (IH v' bs).
    rewrite Ht in IH. by apply (reads_map _ GPtr), IH.
  - apply not_tail in Hok as [Ht Hok]. destruct Hv as [(-> & Hz)|(v' & Hv & -> & H1 & H2)].
    + apply OptPtr_nil. rewrite Hbs in Hz. naive_solver.
    + simpl in Hbs. rewrite Hbs in H1, H2. specialize (IH v' bs Hok Hv Hbs Hf Hn). rewrite Ht in IH.
      pose proof (typed_items t v' bs Hok Hv Hbs) as Hit. rewrite Ht in Hit.
      apply items_of_one in Hit as (it & ? & ->).
      apply OptPtr_reads; try done; [congruence..|]. apply decode_peekable; by try lia.
  - apply has_type_struct in Hv as (vs & Hvs & ->). simpl in Hok. apply andb_True in Hok as [Hok Hlast].
    apply forallb_True in Hok. apply fmap_Some in Hbs as (p & Hp & ->). pose proof (enc_list_length p).
    destruct (struct_reads n fs vs p) as (bss & -> & ?); try done; [eapply fits64_le; [|done]; lia|lia|].
    apply (reads_map _ GStruct), Struct_reads; [done|]. eapply fits64_le; [|done]; lia.
Qed.

(** ** Properties *)

Lemma zero_ok t : gval_ok (zero_val t).
Proof.
  induction t as [t Hl|t IH|m t IH|t IH|t IH|t IH|fs IH] using ty_ind'; simpl; try done.
  - by destruct t.
  - induction m; simpl; auto.
  - by destruct t.
  - by destruct t.
  - induction IH; simpl; auto.
Qed.

Lemma gval_ok_list vs : Forall gval_ok vs → foldr (λ v P, gval_ok v ∧ P) True vs.
Proof. by induction 1; simpl. Qed.

Lemma iface_gval_ok v : iface_val v → gval_ok v.
Proof.
  assert (∀ v, (iface_val v → gval_ok v) ∧ (iface_val (GIface v) → gval_ok v)) as H; [|apply H].
  clear v. apply gval_ind'.
  - intros v Hl. by destruct v.
  - intros v [_ Hv]. by split_and!.
  - intros vs IH. split; [intros [|]|]; (split; [done|]); simpl; try done. intros Hvs.
    induction IH as [|v vs [Hv _] _ IHvs]; simpl in *; [done|]. naive_solver.
Qed.

(** A typed value holds 64-bit integers and can be encoded. *)
Lemma typed_ok t v : has_type t v → gval_ok v.
Proof.
  revert v. induction t as [t Hl|t IH|m t IH|t IH|t IH|t IH|fs IH] using ty_ind'; intros v Hv.
  - destruct t; try done; simpl in Hv; try (destruct Hv; naive_solver); [|by apply iface_gval_ok].
    destruct Hv as (i & Hb & Hi & ->). simpl. assert (2 ^ bits ≤ 2 ^ 64) by (apply Z.pow_le_mono_r; lia). lia.
  - destruct Hv as (vs & Hvs & ->). apply gval_ok_list. eauto using Forall_impl.
  - destruct Hv as (vs & Hvs & _ & ->). apply gval_ok_list. eauto using Forall_impl.
  - destruct Hv as (vs & Hvs & ->). apply gval_ok_list. eauto using Forall_impl.
  - destruct Hv as (v' & ? & ->). by apply (IH v').
  - destruct Hv as [(-> & _)|(v' & ? & -> & _)]; [apply zero_ok|by apply (IH v')].
  - apply has_type_struct in Hv as (vs & Hvs & ->). apply gval_ok_list.
    induction Hvs as [|f v fs vs Hv _ IHvs]; [constructor|]. apply Forall_cons in IH as [? ?].
    constructor; naive_solver.
Qed.

(** The bytes of an encoding decode to the value they encode. *)
Lemma decodes t v bs :
  ty_ok t → is_tail t = false → has_type t v → gval_enc v = Some bs → fits64 (length bs) → DecodeBytes t bs = Ok v.
Proof.
  intros Hok Ht Hv Hbs Hf.
  pose proof (decode_reads (S (length bs)) t v bs Hok Hv Hbs Hf ltac:(lia)) as HR. rewrite Ht in HR.
  unfold DecodeBytes. destruct (HR (NewStream bs) [] []) as (s' & -> & _ & Hrd & _).
  - split; [done|]. unfold base. simpl. rewrite app_nil_r. by split_and!.
  - done.
  - by rewrite Hrd.
Qed.

(** Decoding what was encoded. *)
Definition read_back (t : ty) (v : gval) : outcome rlp_error gval :=
  let* bs := EncodeToBytes v in DecodeBytes t bs.


