(* ===== verification/RlpTotal.v ===== *)
(** * The RLP decoder stops on every input

    Every successful decoding of a value uses up input, so the element loops and
    the recursion on interface values end and the bound [S (length b)] in
    [DecodeBytes] is never reached; single-byte arrays are the exception. *)

From S2P Require Import Prelude RlpSpec RlpEncode RlpStream RlpRoundtrip.
Local Open Scope Z_scope.

(** ** What is left to decode *)


Definition rdlen (s : Stream) : nat := length (s_rd s).

(** What is left to decode: a header that has been read and not yet used up
    counts as one. *)
Definition vlen (s : Stream) : nat :=
  (rdlen s + match s_kind s with Some _ => 1 | None => 0 end)%nat.

(** At most [L] bytes are left to read, and no error of the model is cached. *)
Definition below (L : nat) (s : Stream) : Prop :=
  (rdlen s ≤ L)%nat ∧ s_kinderr s ≠ Some OutOfRounds.

(** [m] run on [s] does not panic, stays below [L], fails only with errors of
    the source, and on success leaves a stream in [Q]. *)
Definition wp {A} (m : M A) (s : Stream) (L : nat) (Q : Stream → Prop) : Prop :=
  match m s with
  | (Ok _, s') => below L s' ∧ Q s'
  | (Err e, s') => below L s' ∧ e ≠ OutOfRounds
  | (Panic, _) => False
  end.

Lemma wp_bind {A B} (m : M A) (k : A → M B) s L Q1 Q :
  wp m s L Q1 → (∀ a s', below L s' → Q1 s' → wp (k a) s' L Q) → wp (mbind_ m k) s L Q.
Proof. unfold wp, mbind_. intros H Hk. destruct (m s) as [[a|e|] s']; [|done..]. apply Hk; tauto. Qed.

Lemma wp_weaken {A} (m : M A) s L L' (Q Q' : Stream → Prop) :
  wp m s L Q → (L ≤ L')%nat → (∀ s', below L s' → Q s' → Q' s') → wp m s L' Q'.
Proof.
  unfold wp, below. intros H HL HQ.
  destruct (m s) as [[a|e|] s']; [|split; [split; [lia|]|]; tauto|done].
  split; [split; [lia|tauto]|]. apply HQ; tauto.
Qed.

Lemma wp_wrapped {A} (m : M A) s L Q : wp m s L Q → wp (wrapped m) s L Q.
Proof. unfold wp, wrapped. destruct (m s) as [[a|e|] s']; [done| |done]. intros [? He]. split; [done|]. by destruct e. Qed.

(** A value has been decoded: nothing is cached and less is left. *)
Definition shrinks (s s' : Stream) : Prop := s_kind s' = None ∧ (rdlen s' < vlen s)%nat.

Lemma wp_willRead z s L :
  below L s → wp (willRead z) s L (λ s', s_kind s' = None ∧ s_rd s' = s_rd s).
Proof.
  unfold wp, willRead. simpl. intros [Hl He].
  destruct (s_stack s); simpl; [|case_cmp; [done|]]; (destruct (s_limited s); [case_cmp|]); done.
Qed.

Lemma wp_readByte s L :
  below L s → wp readByte s L (λ s', s_kind s' = None ∧ rdlen s' < rdlen s)%nat.
Proof.
  intros Hb. eapply wp_bind; [by apply wp_willRead|]. intros _ s' [? ?] [Hk Hrd].
  unfold wp, rdlen, below, rdlen in *. rewrite <-Hrd.
  destruct (s_rd s') eqn:E; simpl; rewrite ?E; simpl; [done|]. simpl in *. split_and!; [lia|done|done|lia].
Qed.

Lemma wp_readFull z s L : below L s → wp (readFull z) s L (λ s', s_kind s' = None).
Proof.
  intros Hb. eapply wp_bind; [by apply wp_willRead|]. intros _ s' [? ?] [Hk Hrd].
  unfold wp, below, rdlen in *.
  case_cmp; simpl; [split_and!; [lia|done|done]|]. rewrite length_drop. split_and!; [lia|done|done].
Qed.

Lemma wp_readUint z s L : below L s → wp (readUint z) s L (λ s', s_kind s' = None).
Proof.
  intros Hb. unfold readUint. destruct (z =? 0); [done|]. destruct (z =? 1).
  - eapply wp_weaken; [by apply wp_readByte|done|naive_solver].
  - eapply wp_bind; [by apply wp_readFull|]. intros b s' ? Hk. destruct b as [|[]]; done.
Qed.

(** readKind reads at least one byte, or fails. *)
Lemma readKind_below s L : below L s →
  let '((_, _, err), s') := Stream_readKind s in
  below L s' ∧ err ≠ Some OutOfRounds ∧ (err = None → (rdlen s' < rdlen s)%nat).
Proof.
  intros Hb. unfold Stream_readKind. pose proof (wp_readByte s L Hb) as H. unfold wp in H.
  destruct (readByte s) as [[b|e|] s1]; [| |done].
  - destruct H as (Hb1 & Hk & Hl).
    assert (Hlong : ∀ k n, let '((_, _, err), s') :=
      match readUint n (with_byteval 0 s1) with
      | (Ok size, s) => ((k, size, if size <? 56 then Some ErrCanonSize else None), s)
      | (Err e, s) => ((k, 0, Some e), s)
      | (Panic, s) => ((k, 0, None), s)
      end : (Kind * Z * option rlp_error) * Stream in
      below L s' ∧ err ≠ Some OutOfRounds ∧ (err = None → (rdlen s' < rdlen s)%nat)).
    { intros k n. pose proof (wp_readUint n (with_byteval 0 s1) (rdlen s1)) as H. unfold wp in H.
      specialize (H (conj (le_n _) (proj2 Hb1))). destruct Hb1 as [? ?].
      destruct (readUint n _) as [[z|e|] s2]; [|unfold below in *; naive_solver lia|done].
      destruct H as [[? ?] _]. split_and!; [split; [lia|done]|by case_cmp|lia]. }
    destruct (b <? 128); [done|]. destruct (b <? 184); [done|]. destruct (b <? 192); [apply Hlong|].
    destruct (b <? 248); [done|apply Hlong].
  - destruct H as [? ?]. split; [done|]. split; [|by repeat case_match]. destruct (s_stack s1), e; naive_solver.
Qed.

Lemma wp_Kind s L : below L s → wp Stream_Kind s L (λ s', s_kind s' ≠ None ∧ vlen s' ≤ vlen s)%nat.
Proof.
  intros Hb. unfold wp, Stream_Kind. destruct (s_kind s) as [k|] eqn:Hk.
  { destruct (s_kinderr s) eqn:He; [|by rewrite Hk]. split; [done|]. destruct Hb. congruence. }
  cbv zeta. match goal with |- context [if ?b then (Err EOL, _) else _] => destruct b end;
    [split; [|done]; destruct Hb; by split|].
  pose proof (readKind_below (with_kinderr None s) L) as HR.
  destruct (Stream_readKind _) as [[[k size] err] s1]. destruct HR as (Hb1 & He & Hl); [destruct Hb; by split|].
  cbn [s_kinderr s_kind s_size with_kinderr with_size with_kind].
  set (err' := match err with Some e => Some e | None => _ end).
  assert (err' ≠ Some OutOfRounds) as He' by (subst err'; repeat case_match; naive_solver).
  assert (err' = None → err = None) as Hn by (subst err'; by destruct err).
  destruct err' as [e|]; [split; [|naive_solver]; destruct Hb1; by split|].
  split; [destruct Hb1; by split|]. split; [done|]. specialize (Hl (Hn eq_refl)).
  unfold vlen, rdlen in *. simpl in *. rewrite Hk. lia.
Qed.

Lemma shrinks_kind s s1 s' :
  s_kind s1 ≠ None → (vlen s1 ≤ vlen s)%nat → s_kind s' = None → (rdlen s' ≤ rdlen s1)%nat → shrinks s s'.
Proof. intros Hk Hv Hk' Hl. split; [done|]. unfold vlen in *. destruct (s_kind s1); [|done]. lia. Qed.

(** Reading a value whose kind is cached uses it up. *)
Lemma wp_content {A} (k : Kind * Z → M A) s L :
  below L s →
  (∀ kz s', below L s' → s_kind s' ≠ None →
     wp (k kz) s' (rdlen s') (λ s'', s_kind s'' = None)) →
  wp (mbind_ Stream_Kind k) s L (shrinks s).
Proof.
  intros Hb Hk. eapply wp_bind; [by apply wp_Kind|]. intros kz s1 Hb1 [Hs1 Hv]. simpl in *.
  eapply wp_weaken; [by apply Hk|apply Hb1|]. intros s' [? _] ?. by eapply shrinks_kind.
Qed.

Lemma below_rdlen s L : below L s → below (rdlen s) s.
Proof. by intros [_ ?]. Qed.

Lemma wp_Bytes s L : below L s → wp Stream_Bytes s L (shrinks s).
Proof.
  intros Hb. apply wp_content; [done|]. intros [[] z] s' Hb' _; try (by apply below_rdlen in Hb').
  eapply wp_bind; [eapply wp_readFull, below_rdlen, Hb'|]. intros b s'' ? ?. repeat case_match; done.
Qed.

Lemma wp_Raw s L : below L s → wp Stream_Raw s L (shrinks s).
Proof.
  intros Hb. apply wp_content; [done|]. intros [[] z] s' Hb' _; try (by apply below_rdlen in Hb');
    (eapply wp_bind; [eapply wp_readFull, below_rdlen, Hb'|]); done.
Qed.

Lemma wp_uint bits s L : below L s → wp (Stream_uint bits) s L (shrinks s).
Proof.
  intros Hb. apply wp_content; [done|]. intros [[] z] s' Hb' _; apply below_rdlen in Hb'; try done.
  - unfold wp. by destruct (s_byteval s' =? 0).
  - cbv beta iota. case_cmp; [done|]. pose proof (wp_readUint (u8 z) s' _ Hb') as H'. unfold wp in *.
    destruct (readUint (u8 z) s') as [[v|e|] s'']; [|destruct e; naive_solver|done].
    destruct ((0 <? z) && (v <? 128)); naive_solver.
Qed.

Lemma wp_Bool s L : below L s → wp Stream_Bool s L (shrinks s).
Proof.
  intros Hb. eapply wp_bind; [by apply wp_uint|]. intros i s' ? ?. repeat case_match; done.
Qed.

Lemma wp_ByteArray n s L : n ≠ 1%nat → below L s → wp (decodeByteArray n) s L (shrinks s).
Proof.
  intros Hn Hb. apply wp_content; [done|]. intros [[] z] s' Hb' _; apply below_rdlen in Hb'; try done.
  - cbv beta iota. by repeat case_cmp.
  - cbv beta iota. repeat case_cmp; try done. eapply wp_bind; [by apply wp_readFull|]. intros b s'' ? ?. repeat case_match; done.
Qed.

Lemma wp_List s L : below L s → wp Stream_List s L (shrinks s).
Proof.
  intros Hb. apply wp_content; [done|]. intros [[] z] s' Hb' _; by apply below_rdlen in Hb'.
Qed.

Lemma wp_ListEnd s L : below L s → wp Stream_ListEnd s L (λ s', s_kind s' = None ∧ rdlen s' = rdlen s).
Proof. intros [? ?]. unfold wp, Stream_ListEnd. destruct (s_stack s) as [|tos st]; [done|]. by destruct (negb (lp_pos tos =? lp_size tos)). Qed.

(** The element loop stops: every element shrinks the stream. *)
Lemma wp_SliceElems {A} (elemdec : M A) n rounds s L acc :
  (∀ s L, below L s → (vlen s < n)%nat → wp elemdec s L (shrinks s)) →
  below L s → s_kind s = None → (rdlen s < rounds)%nat → (rdlen s < n)%nat →
  wp (decodeSliceElems elemdec rounds acc) s L (λ _, True).
Proof.
  intros He. revert s acc. induction rounds as [|r IH]; intros s acc Hb Hk Hr Hn; [lia|].
  assert (vlen s = rdlen s) as Hv by (unfold vlen; rewrite Hk; lia).
  pose proof (He s L Hb ltac:(lia)) as H. unfold wp in *. simpl.
  destruct (elemdec s) as [[v|e|] s1]; [|destruct e; naive_solver|done].
  destruct H as [Hb1 [Hk1 Hl1]]. apply IH; [done..|lia|lia].
Qed.

Lemma wp_ListSlice {A} (elemdec : M A) n rounds s L :
  (∀ s L, below L s → (vlen s < n)%nat → wp elemdec s L (shrinks s)) →
  below L s → (vlen s ≤ rounds)%nat → (vlen s ≤ n)%nat → wp (decodeListSlice elemdec rounds) s L (shrinks s).
Proof.
  intros He Hb Hr Hn. eapply wp_bind; [by apply wp_wrapped, wp_List|]. intros z s1 Hb1 [Hk1 Hl1].
  apply below_rdlen in Hb1 as Hb1'.
  eapply wp_weaken with (Q := λ s', s_kind s' = None); [|apply Hb1|intros s' [? _] ?; split; [done|lia]].
  destruct (z =? 0).
  - eapply wp_bind; [by apply wp_ListEnd|]. intros _ s2 ? [? ?]. done.
  - eapply wp_bind; [eapply (wp_SliceElems _ n); [done..|lia|lia]|]. intros vs s2 Hb2 _.
    eapply wp_bind; [by apply wp_ListEnd|]. intros _ s3 ? [? ?]. done.
Qed.

Lemma wp_Interface rounds d s L :
  below L s → (vlen s < d)%nat → (d ≤ rounds)%nat → wp (decodeInterface rounds d) s L (shrinks s).
Proof.
  revert s L. induction d as [|d IH]; intros s L Hb Hv Hd; [lia|].
  eapply (wp_bind Stream_Kind); [by apply wp_Kind|]. intros [k z] s1 Hb1 [Hk1 Hv1]. simpl in *.
  eapply wp_weaken with (Q := shrinks s1); [|done|intros s' _ [? ?]; split; [done|lia]].
  assert (wp (let! b := Stream_Bytes in mret (GIface (GBytes b))) s1 L (shrinks s1))
    by (eapply wp_bind; [by apply wp_Bytes|done]).
  destruct k; [done..|].
  eapply wp_bind; [apply (wp_ListSlice _ d); [|done|lia|lia]|done].
  intros s' L' Hb' Hv'. apply IH; [done|lia|lia].
Qed.

(** A decoder of struct fields, array elements or a single value. *)
Definition stops (n : nat) (m : M gval) : Prop :=
  ∀ s L, below L s → (vlen s < n)%nat → wp m s L (shrinks s).

Lemma wp_ArrayElems n elemdec len acc s L :
  stops n elemdec → below L s → s_kind s = None → (rdlen s < n)%nat →
  wp (decodeArrayElems elemdec len acc) s L (λ _, True).
Proof.
  intros He. revert s acc. induction len as [|len IH]; intros s acc Hb Hk Hn; [done|].
  assert (vlen s = rdlen s) as Hv by (unfold vlen; rewrite Hk; lia).
  pose proof (He s L Hb ltac:(lia)) as H. unfold wp in *. simpl.
  destruct (elemdec s) as [[v|e|] s1]; [|destruct e; naive_solver|done].
  destruct H as [Hb1 [Hk1 Hl1]]. apply IH; [done..|lia].
Qed.

(** A list whose payload is read by [m]. *)
Lemma wp_in_list {A B} (m : M A) (f : A → B) n s L :
  (∀ s L, below L s → s_kind s = None → (rdlen s < n)%nat → wp m s L (λ _, True)) →
  below L s → (vlen s < n)%nat →
  wp (let! _ := wrapped Stream_List in
      let! vs := m in
      let! _ := wrapped Stream_ListEnd in mret (f vs)) s L (shrinks s).
Proof.
  intros Hm Hb Hn. eapply wp_bind; [by apply wp_wrapped, wp_List|]. intros z s1 Hb1 [Hk1 Hl1].
  apply below_rdlen in Hb1 as Hb1'.
  eapply wp_weaken with (Q := λ s', s_kind s' = None); [|apply Hb1|intros s' [? _] ?; split; [done|lia]].
  eapply wp_bind; [apply Hm; [done..|lia]|]. intros vs s2 Hb2 _.
  eapply wp_bind; [by apply wp_wrapped, wp_ListEnd|]. intros _ s3 ? [? ?]. done.
Qed.

Lemma wp_OptPtr n m nil_ : stops n m → stops n (decodeOptPtr m nil_).
Proof.
  intros Hm s L Hb Hv. pose proof (wp_Kind s L Hb) as H. unfold wp, decodeOptPtr in *.
  destruct (Stream_Kind s) as [[[k z]|e|] s1]; [|done..]. destruct H as (Hb1 & Hk1 & Hv1).
  destruct (_ && _).
  - split; [done|]. eapply shrinks_kind; [done..|]. simpl. done.
  - specialize (Hm s1 L Hb1 ltac:(lia)). unfold wp, mbind_ in *.
    destruct (m s1) as [[v|e|] s2]; [|done..]. destruct Hm as (? & ? & ?).
    split; [done|]. split; [done|lia].
Qed.

(** No single-byte arrays, whose decoder can succeed without reading. *)
Fixpoint no_byte1 (t : ty) : bool :=
  match t with
  | TByteArray n => negb (n =? 1)%nat
  | TSlice t | TArray _ t | TTail t | TPtr t | TOptPtr t => no_byte1 t
  | TStruct fs => forallb no_byte1 fs
  | _ => true
  end.

Lemma wp_Fields n fs acc s L :
  Forall (λ f, if is_tail f
    then ∀ s L, below L s → s_kind s = None → (rdlen s < n)%nat → wp (decode n f) s L (λ _, True)
    else stops n (decode n f)) fs →
  forallb (negb ∘ is_tail) (removelast fs) →
  below L s → s_kind s = None → (rdlen s < n)%nat →
  wp (decodeFields (decode n) fs acc) s L (λ _, True).
Proof.
  intros Hfs. revert s acc. induction Hfs as [|f fs Hf Hfs IH]; intros s acc Ht Hb Hk Hn; [done|].
  assert (vlen s = rdlen s) as Hv by (unfold vlen; rewrite Hk; lia).
  assert (wp (decode n f) s L (λ s', fs = [] ∨ shrinks s s')) as H.
  { destruct fs as [|f' fs].
    - eapply wp_weaken with (L := L) (Q := λ _, True); [|done|by left].
      destruct (is_tail f); [by apply Hf|]. eapply wp_weaken; [apply Hf; [done|lia]|done|done].
    - apply andb_True in Ht as [Ht _]. simpl in Ht. apply negb_True in Ht.
      destruct (is_tail f); [done|]. eapply wp_weaken; [apply Hf; [done|lia]|done|by right]. }
  unfold wp in *. cbn [decodeFields].
  destruct (decode n f s) as [[v|e|] s1]; [|destruct e; naive_solver|done].
  destruct H as [Hb1 [-> | [Hk1 Hl1]]]; [done|].
  apply IH; [|done..|lia]. destruct fs; [done|]. by apply andb_True in Ht as [_ Ht].
Qed.

Lemma decode_stops n t :
  no_byte1 t → ty_ok t →
  if is_tail t
  then ∀ s L, below L s → s_kind s = None → (rdlen s < n)%nat → wp (decode n t) s L (λ _, True)
  else stops n (decode n t).
Proof.
  induction t as [t Hl|t IH|m t IH|t IH|t IH|t IH|fs IH] using ty_ind'; intros Hn Hok.
  - destruct t; try done; intros s L Hb Hv; simpl.
    + eapply wp_bind; [by apply wp_Raw|done].
    + eapply wp_bind; [by apply wp_wrapped, wp_Bytes|]. intros [|[] b] s' ? ?; done.
    + eapply wp_bind; [by apply wp_wrapped, wp_uint|done].
    + eapply wp_bind; [by apply wp_wrapped, wp_Bool|done].
    + eapply wp_bind; [by apply wp_wrapped, wp_Bytes|done].
    + eapply wp_bind; [by apply wp_wrapped, wp_Bytes|done].
    + apply wp_ByteArray; [|done]. simpl in Hn. by destruct (Nat.eqb_spec n0 1).
    + apply wp_Interface; [done|lia|lia].
  - apply not_tail in Hok as [Ht Hok]. specialize (IH Hn Hok). rewrite Ht in IH. intros s L Hb Hv. simpl.
    eapply wp_bind; [apply (wp_ListSlice _ n); [done..|lia|lia]|done].
  - apply not_tail in Hok as [Ht Hok]. specialize (IH Hn Hok). rewrite Ht in IH. intros s L Hb Hv. simpl.
    eapply wp_bind; [apply (wp_in_list _ id n); [|done..]|done].
    intros s' L' ???. by apply (wp_ArrayElems n).
  - apply not_tail in Hok as [Ht Hok]. specialize (IH Hn Hok). rewrite Ht in IH. intros s L Hb Hk Hv. simpl.
    eapply wp_bind; [by apply (wp_SliceElems _ n)|done].
  - apply not_tail in Hok as [Ht Hok]. specialize (IH Hn Hok). rewrite Ht in IH. intros s L Hb Hv. simpl.
    eapply wp_bind; [by apply IH|done].
  - apply not_tail in Hok as [Ht Hok]. specialize (IH Hn Hok). rewrite Ht in IH. by apply wp_OptPtr.
  - intros s L Hb Hv. simpl. simpl in Hn, Hok. apply andb_True in Hok as [Hok Hlast].
    apply forallb_True in Hok, Hn.
    eapply wp_bind; [apply (wp_in_list _ id n); [|done..]|done].
    intros s' L' ???. apply wp_Fields; try done.
    rewrite Forall_forall in IH, Hn, Hok |- *. intros f Hf. by apply IH; [|apply Hn|apply Hok].
Qed.

(** ** Properties *)

Lemma DecodeBytes_ends t b :
  ty_ok t → is_tail t = false → no_byte1 t →
  (∃ v, DecodeBytes t b = Ok v) ∨ (∃ e, DecodeBytes t b = Err e ∧ e ≠ OutOfRounds).
Proof.
  intros Hok Ht Hn. pose proof (decode_stops (S (length b)) t Hn Hok) as H. rewrite Ht in H.
  specialize (H (NewStream b) (length b)). unfold wp, DecodeBytes in *.
  destruct (decode _ t _) as [[v|e|] s'].
  - destruct (s_rd s'); [eauto|]. right. by eexists.
  - right. exists e. split; [done|]. apply H; [by split|]. unfold vlen, rdlen. simpl. lia.
  - destruct H; [by split|]. unfold vlen, rdlen. simpl. lia.
Qed.

(** C39: DecodeBytes is total: for every type without a single-byte array and
    on every input, canonical or not, it ends with a value or with an error of
    the package; it does not panic, and the bound on loop rounds and nesting is
    never reached. *)
Theorem DecodeBytes_total t b :
  ty_ok t → is_tail t = false → no_byte1 t →
  (∃ v, DecodeBytes t b = Ok v) ∨ (∃ e, DecodeBytes t b = Err e ∧ e ≠ OutOfRounds).
Proof. apply DecodeBytes_ends. Qed.

Lemma DecodeBytes_total_witness :
  let t := TSlice (TStruct [TUint 8; TIface]) in
  let b := [200; 199; 5; 197; 193; 192; 130; 0] in
  (∃ v, DecodeBytes t b = Ok v) ∨ (∃ e, DecodeBytes t b = Err e ∧ e ≠ OutOfRounds).
Proof. apply DecodeBytes_total; done. Defined.

(** The cached zero byte on which decodeByteArray makes no progress. *)
Lemma stuck_byte1 s rounds acc :
  s_kind s = Some KByte → s_kinderr s = None → s_byteval s = 0 →
  decodeSliceElems (decodeByteArray 1) rounds acc s = (Err OutOfRounds, s).
Proof.
  intros Hk He Hb. revert acc. induction rounds as [|r IH]; intros acc; [done|].
  assert (Stream_Kind s = (Ok (KByte, s_size s), s)) as HK by (unfold Stream_Kind; by rewrite Hk, He).
  assert (decodeByteArray 1 s = (Ok (GBytes [0]), s)) as E.
  { unfold decodeByteArray, Stream_uint, mbind_. rewrite HK. simpl. by rewrite HK, Hb. }
  cbn [decodeSliceElems]. rewrite E. apply IH.
Qed.

(** The exception: decodeByteArray ignores the error of [s.Uint()] on a
    zero byte and leaves the byte cached, so a list of single-byte arrays that
    holds a zero is read forever, whatever the number of rounds. *)
Theorem decode_byte1_diverges n :
  fst (decode n (TSlice (TByteArray 1)) (NewStream [193; 0])) = Err OutOfRounds.
Proof.
  cbn [decode]. unfold decodeListSlice, mbind_.
  set (r := wrapped Stream_List (NewStream [193; 0])). vm_compute in r. subst r. cbv beta iota.
  change (1 =? 0) with false. cbv iota.
  destruct n as [|n]; [done|]. cbn [decodeSliceElems].
  match goal with |- context [decodeByteArray 1 ?s] => set (r := decodeByteArray 1 s) end.
  vm_compute in r. subst r. cbv beta iota. by rewrite stuck_byte1.
Qed.
