(* ===== verification/RlpTyped.v ===== *)
(** * Decoded values have the type they were decoded for (common/rlp/decode.go)

    Whatever the input, a value DecodeBytes returns is a value of the Go type:
    an integer fits its width, an array has its length, a struct all its fields.
    The proof is a Hoare logic for the stream: every reader keeps the stream well
    formed and yields a value with the property asked for. *)

From S2P Require Import Prelude RlpSpec RlpRaw RlpEncode RlpStream RlpRoundtrip.
Local Open Scope Z_scope.

(** The integer types of Go. *)
Fixpoint widths_ok (t : ty) : bool :=
  match t with
  | TUint bits => (bits =? 8) || (bits =? 16) || (bits =? 32) || (bits =? 64)
  | TSlice t | TArray _ t | TTail t | TPtr t | TOptPtr t => widths_ok t
  | TStruct fs => forallb widths_ok fs
  | _ => true
  end.

Lemma widths_uint bits : widths_ok (TUint bits) → bits = 8 ∨ bits = 16 ∨ bits = 32 ∨ bits = 64.
Proof. cbn. rewrite !orb_True, !Is_true_true, !Z.eqb_eq. tauto. Qed.

(** All the values of a type.  A nil pointer is the zero value of the optional
    pointer. *)
Fixpoint inhabits (t : ty) (v : gval) : Prop :=
  match t with
  | TRaw => ∃ b, Forall is_byte b ∧ v = GRaw b
  | TBigInt => ∃ i, 0 ≤ i ∧ v = GBig i
  | TUint bits => ∃ i, 0 ≤ i < 2 ^ bits ∧ v = GUint i
  | TBool => ∃ b, v = GBool b
  | TString => ∃ b, Forall is_byte b ∧ v = GString b
  | TByteSlice => ∃ b, Forall is_byte b ∧ v = GBytes b
  | TByteArray n => ∃ b, Forall is_byte b ∧ length b = n ∧ v = GBytes b
  | TSlice t => ∃ vs, Forall (inhabits t) vs ∧ v = GSlice false vs
  | TArray n t => ∃ vs, Forall (inhabits t) vs ∧ length vs = n ∧ v = GSlice false vs
  | TTail t => ∃ vs, Forall (inhabits t) vs ∧ v = GSlice true vs
  | TStruct fs => ∃ vs,
      (fix all (fs : list ty) (vs : list gval) : Prop :=
         match fs, vs with
         | [], [] => True
         | f :: fs', v :: vs' => inhabits f v ∧ all fs' vs'
         | _, _ => False
         end) fs vs ∧ v = GStruct vs
  | TPtr t => ∃ v', inhabits t v' ∧ v = GPtr v'
  | TOptPtr t => v = zero_val (TOptPtr t) ∨ ∃ v', inhabits t v' ∧ v = GPtr v'
  | TIface => iface_val v
  end.

Lemma inhabits_struct fs vs : Forall2 inhabits fs vs → inhabits (TStruct fs) (GStruct vs).
Proof. intros H. exists vs. split; [|done]. by induction H. Qed.

(** ** Triples *)

Definition stream_ok (s : Stream) : Prop := Forall is_byte (s_rd s) ∧ is_byte (s_byteval s) ∧ 0 ≤ s_size s.

(** [m] keeps the stream well formed and yields values with property [Q]. *)
Definition yields {A} (m : M A) (Q : A → Prop) : Prop := ∀ s, stream_ok s →
  stream_ok (m s).2 ∧ match (m s).1 with Ok a => Q a | _ => True end.

Lemma yields_ret {A} (a : A) (Q : A → Prop) : Q a → yields (mret a) Q.
Proof. by intros ? s ?. Qed.

Lemma yields_err {A} e (Q : A → Prop) : yields (merr e) Q.
Proof. by intros s ?. Qed.

Lemma yields_bind {A B} (m : M A) (k : A → M B) Q R :
  yields m Q → (∀ a, Q a → yields (k a) R) → yields (mbind_ m k) R.
Proof.
  intros Hm Hk s Hs. destruct (Hm s Hs) as [Hs' Ha]. unfold mbind_. destruct (m s) as [[a|e|] s']; [|done..].
  by apply Hk.
Qed.

Lemma yields_wrapped {A} (m : M A) Q : yields m Q → yields (wrapped m) Q.
Proof. intros Hm s Hs. destruct (Hm s Hs) as [Hs' Ha]. unfold wrapped. by destruct (m s) as [[a|e|] s']. Qed.

Lemma yields_weaken {A} (m : M A) (Q R : A → Prop) : (∀ a, Q a → R a) → yields m Q → yields m R.
Proof. intros HQR Hm s Hs. destruct (Hm s Hs) as [Hs' Ha]. split; [done|]. destruct (m s).1; auto. Qed.

Create HintDb rlp_typed.
#[local] Hint Resolve yields_ret yields_err yields_wrapped : rlp_typed.

(** ** Reading *)

Lemma yields_willRead n : yields (willRead n) (λ _, True).
Proof.
  intros s Hs. unfold willRead. cbn. destruct (s_stack s) as [|tos st]; cbn; [|case_cmp; [done|]; cbn];
    destruct (s_limited s); cbn; try case_cmp; done.
Qed.

Lemma yields_readByte : yields readByte is_byte.
Proof.
  eapply yields_bind; [apply yields_willRead|]. intros _ _ s (Hr & Hb & Hz). destruct (s_rd s) as [|b rd] eqn:E; cbn.
  - split; [|done]. by rewrite <-E in Hr.
  - apply Forall_cons in Hr as [? ?]. split; [|done]. by split_and!.
Qed.

Lemma yields_readFull n : yields (readFull n) (λ b, Forall is_byte b ∧ Z.of_nat (length b) = Z.max 0 n).
Proof.
  eapply yields_bind; [apply yields_willRead|]. intros _ _ s (Hr & Hb & Hz). cbn. case_cmp; cbn.
  - split; [|done]. split_and!; [constructor|done..].
  - split; [split_and!; [by apply Forall_drop|done..]|]. split; [by apply Forall_take|]. rewrite length_take. lia.
Qed.

Lemma yields_readUint n : 0 ≤ n → yields (readUint n) (λ i, 0 ≤ i < 256 ^ n).
Proof.
  intros Hn. unfold readUint. case_cmp; subst; [intros s Hs; by split|]. case_cmp; subst.
  - eapply yields_weaken; [|apply yields_readByte]. by intros i [? ?].
  - eapply yields_bind; [apply yields_readFull|]. intros buf [Hb Hl].
    assert (0 ≤ be_val buf < 256 ^ n) as Hv.
    { replace n with (Z.of_nat (length buf)) by lia. by apply be_val_bound. }
    destruct buf as [|[] ?]; eauto with rlp_typed.
Qed.

Lemma readKind_ok s : stream_ok s →
  stream_ok (Stream_readKind s).2 ∧ 0 ≤ (Stream_readKind s).1.1.2.
Proof.
  intros Hs. unfold Stream_readKind. destruct (yields_readByte s Hs) as [Hs' Hb].
  destruct (readByte s) as [[b|e|] s']; [|done..]. cbn in Hb.
  assert (stream_ok (with_byteval 0 s')) as H0 by (by destruct Hs' as (? & ? & ?)).
  assert (∀ k n, 0 ≤ n → let r := (match readUint n (with_byteval 0 s') with
    | (Ok size, s) => ((k, size, if size <? 56 then Some ErrCanonSize else None), s)
    | (Err e, s) => ((k, 0, Some e), s)
    | (Panic, s) => ((k, 0, None), s)
    end) : (Kind * Z * option rlp_error) * Stream in stream_ok r.2 ∧ 0 ≤ r.1.1.2) as Hlong.
  { intros k n Hn. destruct (yields_readUint n Hn _ H0) as [Hs1 Hv]. destruct (readUint _ _) as [[i|e|] s1]; [|done..].
    split; [done|]. cbn in *. lia. }
  repeat case_cmp; cbn [fst snd].
  - split; [|done]. by destruct Hs' as (? & ? & ?).
  - split; [done|lia].
  - apply Hlong. lia.
  - split; [done|lia].
  - apply Hlong. lia.
Qed.

Lemma yields_Kind : yields Stream_Kind (λ '(_, n), 0 ≤ n).
Proof.
  intros s Hs. unfold Stream_Kind. destruct (s_kind s) as [k|] eqn:Ek.
  { destruct (s_kinderr s); [done|]. split; [done|]. by destruct Hs as (_ & _ & ?). }
  destruct (match s_stack (with_kinderr None s) with [] => false | tos :: _ => lp_pos tos =? lp_size tos end); [done|].
  destruct (readKind_ok (with_kinderr None s)) as [Hs' Hn]; [done|].
  destruct (Stream_readKind _) as [[[k n] err] s']. cbn in Hn, Hs'.
  set (err' := match err with Some e => Some e | None => _ end).
  assert (stream_ok (with_kinderr err' (with_size n (with_kind (Some k) s')))) as H1 by (by destruct Hs' as (? & ? & ?)).
  destruct err'; cbn; done.
Qed.

Lemma stream_ok_rearm s : stream_ok s → stream_ok (rearm s).
Proof. done. Qed.

Lemma yields_byteval : yields (λ s, (Ok [s_byteval s], rearm s)) (Forall is_byte).
Proof. intros s (? & ? & ?). cbn. split; [done|]. by apply Forall_singleton. Qed.

Lemma yields_Bytes : yields Stream_Bytes (Forall is_byte).
Proof.
  eapply yields_bind; [apply yields_Kind|]. intros [[] n] Hn; [apply yields_byteval| |apply yields_err].
  eapply yields_bind; [apply yields_readFull|]. intros b [Hb _].
  destruct b as [|x [|y b]]; try case_cmp; eauto with rlp_typed.
Qed.

Lemma puthead_bytes small large n : Forall is_byte (puthead small large n).
Proof.
  unfold puthead, putint. repeat case_match; repeat (apply Forall_cons; split; [apply u8_byte|]); constructor.
Qed.

Lemma yields_Raw : yields Stream_Raw (Forall is_byte).
Proof.
  eapply yields_bind; [apply yields_Kind|]. intros [k n] Hn.
  destruct k; [apply yields_byteval|..]; (eapply yields_bind; [apply yields_readFull|]); intros b [Hb _]; apply yields_ret;
    apply Forall_app; auto using puthead_bytes.
Qed.

Lemma yields_uint bits :
  bits = 8 ∨ bits = 16 ∨ bits = 32 ∨ bits = 64 → yields (Stream_uint bits) (λ i, 0 ≤ i < 2 ^ bits).
Proof.
  intros Hbits. eapply yields_bind; [apply yields_Kind|]. intros [[] n] Hn; [| |apply yields_err].
  - intros s Hs. cbn. case_cmp; [done|]. split; [done|]. destruct Hs as (_ & Hb & _). unfold is_byte in Hb. cbn.
    destruct Hbits as [->|[->|[->| ->]]]; lia.
  - case_cmp; [apply yields_err|]. assert (n ≤ bits / 8 ∧ 256 ^ (bits / 8) = 2 ^ bits ∧ bits / 8 < 256) as (Hn' & Hpow & Hlt)
      by (destruct Hbits as [->|[->|[->| ->]]]; split_and!; [lia|done|done..]).
    intros s Hs. destruct (yields_readUint (u8 n) ltac:(apply u8_byte) s Hs) as [Hs' Hv].
    rewrite u8_id in * by (unfold is_byte; lia). destruct (readUint n s) as [[v|[]|] s']; try done. cbn in Hv.
    assert (256 ^ n ≤ 256 ^ (bits / 8)) by (apply Z.pow_le_mono_r; lia).
    destruct (_ && _); cbn; [done|]. split; [done|lia].
Qed.

Lemma yields_Bool : yields Stream_Bool (λ _, True).
Proof.
  eapply yields_bind; [apply yields_uint; lia|]. intros i _. repeat case_cmp; eauto with rlp_typed.
Qed.

Lemma yields_List : yields Stream_List (λ _, True).
Proof. eapply yields_bind; [apply yields_Kind|]. intros [[] n] Hn; [apply yields_err..|]. by intros s (? & ? & ?). Qed.

Lemma yields_ListEnd : yields Stream_ListEnd (λ _, True).
Proof. intros s (? & ? & ?). unfold Stream_ListEnd. destruct (s_stack s); [done|]. by destruct (negb _). Qed.
#[local] Hint Resolve yields_List yields_ListEnd : rlp_typed.

(** ** Decoders *)

Lemma yields_ByteArray n : yields (decodeByteArray n) (λ v, ∃ b, Forall is_byte b ∧ length b = n ∧ v = GBytes b).
Proof.
  eapply yields_bind; [apply yields_Kind|]. intros [[] m] Hm; [| |apply yields_err].
  - destruct (Nat.eqb_spec n 0); [apply yields_err|]. destruct (Nat.ltb_spec 1 n); [apply yields_err|].
    assert (n = 1%nat) as -> by lia. intros s Hs.
    destruct (yields_uint 64 ltac:(lia) s Hs) as [Hs' _].
    assert (∀ x, is_byte x → ∃ b, Forall is_byte b ∧ length b = 1%nat ∧ GBytes [x] = GBytes b) as Hx
      by (intros x ?; exists [x]; by rewrite Forall_singleton).
    destruct (Stream_uint 64 s) as [[i|e|] s']; (split; [done|]); apply Hx; [apply u8_byte|unfold is_byte; lia..].
  - case_cmp; [apply yields_err|]. case_cmp; [apply yields_err|].
    eapply yields_bind; [apply yields_readFull|]. intros b [Hb Hl].
    assert (∃ b', Forall is_byte b' ∧ length b' = n ∧ GBytes b = GBytes b') by (exists b; split_and!; [done|lia|done]).
    destruct b as [|x [|y b]]; try case_cmp; eauto with rlp_typed.
Qed.

Section Elements.
Context {A : Type} (elemdec : M A) (Q : A → Prop) (Hdec : yields elemdec Q).

Lemma yields_SliceElems rounds acc : Forall Q acc → yields (decodeSliceElems elemdec rounds acc) (Forall Q).
Proof.
  revert acc. induction rounds as [|r IH]; intros acc Hacc s Hs; [done|]. cbn [decodeSliceElems].
  destruct (Hdec s Hs) as [Hs' Ha]. destruct (elemdec s) as [[a|[]|] s']; try done. apply IH; [|done].
  apply Forall_app. auto.
Qed.

Lemma yields_ListSlice rounds : yields (decodeListSlice elemdec rounds) (Forall Q).
Proof.
  eapply yields_bind; [eauto with rlp_typed|]. intros n _. case_cmp.
  - eapply yields_bind; [eauto with rlp_typed|]. intros. by apply yields_ret.
  - eapply yields_bind; [by apply yields_SliceElems|]. intros vs Hvs.
    eapply yields_bind; [eauto with rlp_typed|]. intros. by apply yields_ret.
Qed.

Lemma yields_ArrayElems len acc :
  Forall Q acc → yields (decodeArrayElems elemdec len acc) (λ vs, Forall Q vs ∧ length vs = (length acc + len)%nat).
Proof.
  revert acc. induction len as [|n IH]; intros acc Hacc s Hs; [split; [done|]; split; [done|lia]|]. cbn [decodeArrayElems].
  destruct (Hdec s Hs) as [Hs' Ha]. destruct (elemdec s) as [[a|[]|] s']; try done.
  destruct (IH (acc ++ [a]) ltac:(apply Forall_app; auto) s' Hs') as [Hs2 Hr]. split; [done|].
  destruct (decodeArrayElems elemdec n (acc ++ [a]) s').1; [|done..]. rewrite length_app in Hr. cbn in Hr.
  destruct Hr. split; [done|lia].
Qed.

Lemma yields_ListArray len : yields (decodeListArray elemdec len) (λ vs, Forall Q vs ∧ length vs = len).
Proof.
  eapply yields_bind; [eauto with rlp_typed|]. intros n _.
  eapply yields_bind; [by apply yields_ArrayElems|]. intros vs [Hvs Hl].
  eapply yields_bind; [eauto with rlp_typed|]. intros. by apply yields_ret.
Qed.
End Elements.

Lemma yields_Fields dec fs acc fs0 :
  Forall (λ f, yields (dec f) (inhabits f)) fs → Forall2 inhabits fs0 acc →
  yields (decodeFields dec fs acc) (Forall2 inhabits (fs0 ++ fs)).
Proof.
  intros Hdec. revert acc fs0. induction Hdec as [|f fs Hf _ IH]; intros acc fs0 Hacc s Hs.
  { rewrite app_nil_r. done. }
  cbn [decodeFields]. destruct (Hf s Hs) as [Hs' Ha]. destruct (dec f s) as [[a|[]|] s']; try done.
  replace (fs0 ++ f :: fs) with ((fs0 ++ [f]) ++ fs) by (by rewrite <-app_assoc). apply IH; [|done].
  apply Forall2_app; [done|]. by repeat constructor.
Qed.

Lemma yields_Struct dec fs :
  Forall (λ f, yields (dec f) (inhabits f)) fs → yields (decodeStruct dec fs) (Forall2 inhabits fs).
Proof.
  intros Hdec. eapply yields_bind; [eauto with rlp_typed|]. intros n _.
  eapply yields_bind; [apply (yields_Fields dec fs [] []); [done|constructor]|]. intros vs Hvs.
  eapply yields_bind; [eauto with rlp_typed|]. intros. by apply yields_ret.
Qed.

Lemma iface_list vs : Forall iface_val vs → iface_val (GIface (GSlice false vs)).
Proof. intros H. cbn. by induction H. Qed.

Lemma yields_Interface rounds depth : yields (decodeInterface rounds depth) iface_val.
Proof.
  induction depth as [|d IH]; [by intros s ?|]. intros s Hs. cbn [decodeInterface].
  refine (yields_bind _ _ _ iface_val yields_Kind _ s Hs). intros [k n] _.
  destruct k; (eapply yields_bind; [apply yields_Bytes || apply (yields_ListSlice _ _ IH)|]); intros x Hx;
    apply yields_ret; [done|done|by apply iface_list].
Qed.

Lemma yields_OptPtr elem nil_ Q :
  yields elem Q → yields (decodeOptPtr elem nil_) (λ v, v = nil_ ∨ ∃ v', Q v' ∧ v = GPtr v').
Proof.
  intros He s Hs. unfold decodeOptPtr. destruct (yields_Kind s Hs) as [Hs' Hk].
  destruct (Stream_Kind s) as [[[k n]|e|] s']; [|done..]. destruct (_ && _); [by split; [|left]|].
  refine (yields_bind _ _ _ _ He _ s' Hs'). intros v Hv. apply yields_ret. eauto.
Qed.

Lemma decode_yields n t : widths_ok t → yields (decode n t) (inhabits t).
Proof.
  induction t as [t Ht|t IH|len t IH|t IH|t IH|t IH|fs IH] using ty_ind'; intros Hw; cbn [decode].
  - destruct t; try done; cbn [decode].
    + eapply yields_bind; [apply yields_Raw|]. intros b Hb. apply yields_ret. by exists b.
    + eapply yields_bind; [apply yields_wrapped, yields_Bytes|]. intros b Hb.
      assert (inhabits TBigInt (GBig (be_val b))) by (exists (be_val b); split; [by apply be_val_bound|done]).
      destruct b as [|[] ?]; eauto with rlp_typed.
    + eapply yields_bind; [apply yields_wrapped, yields_uint, widths_uint, Hw|]. intros i Hi. apply yields_ret. by exists i.
    + eapply yields_bind; [apply yields_wrapped, yields_Bool|]. intros b _. apply yields_ret. by exists b.
    + eapply yields_bind; [apply yields_wrapped, yields_Bytes|]. intros b Hb. apply yields_ret. by exists b.
    + eapply yields_bind; [apply yields_wrapped, yields_Bytes|]. intros b Hb. apply yields_ret. by exists b.
    + apply yields_ByteArray.
    + apply yields_Interface.
  - eapply yields_bind; [apply yields_ListSlice, IH, Hw|]. intros vs Hvs. apply yields_ret. by exists vs.
  - eapply yields_bind; [apply yields_ListArray, IH, Hw|]. intros vs [Hvs Hl]. apply yields_ret. by exists vs.
  - eapply yields_bind; [apply yields_SliceElems; [apply IH, Hw|constructor]|]. intros vs Hvs. apply yields_ret. by exists vs.
  - eapply yields_bind; [apply IH, Hw|]. intros v Hv. apply yields_ret. by exists v.
  - apply yields_OptPtr, IH, Hw.
  - eapply yields_bind; [apply yields_Struct|].
    + cbn in Hw. rewrite forallb_True in Hw. rewrite Forall_forall in IH, Hw |- *. auto.
    + intros vs Hvs. apply yields_ret. by apply inhabits_struct.
Qed.

(** Type safety of the decoder.  Whatever the bytes, a value that
    DecodeBytes returns is a value of the type that was asked for: integers are
    in the range of their width, big integers are not negative, arrays have
    their length, structs have every field, pointers and interfaces hold values
    of their types. *)
Theorem DecodeBytes_typed t b v :
  widths_ok t → Forall is_byte b → DecodeBytes t b = Ok v → inhabits t v.
Proof.
  intros Hw Hb. unfold DecodeBytes. destruct (decode_yields (S (length b)) t Hw (NewStream b)) as [_ Hv]; [by split_and!|].
  destruct (decode _ t _) as [[v'|e|] s]; [|done..]. destruct (s_rd s); [|done]. by intros [= <-].
Qed.

Lemma DecodeBytes_typed_witness :
  inhabits (TStruct [TUint 8; TArray 2 TBigInt; TOptPtr (TByteArray 2)])
    (GStruct [GUint 200; GSlice false [GBig 1; GBig 256]; GNilPtrByteArray]).
Proof.
  apply (DecodeBytes_typed _ [200; 129; 200; 196; 1; 130; 1; 0; 128]).
  - exact I.
  - apply (bool_decide_unpack _). exact I.
  - reflexivity.
Defined.
