(* ===== verification/Bitutil.v ===== *)
(** * Bulk bit operations on byte slices (common/bitutil/bitutil.go)

    XORBytes, ANDBytes, ORBytes and TestBytes, each in a version that works on
    machine words through [unsafe] and in a bytewise one.  The word size and
    whether the architecture supports unaligned access are those of the
    platform; a word is loaded and stored little-endian (the result does not
    depend on this: the operations act on each bit).  The operands are separate
    buffers.  A word store past the end of the destination has no defined
    behaviour and is represented by [Panic]. *)

From S2P Require Import Prelude.
Local Open Scope Z_scope.

Local Arguments Nat.div _ _ : simpl never.
Local Arguments Nat.modulo _ _ : simpl never.

Module Bitutil.
Section Bitutil.
Context (wordSize : nat) (supportsUnaligned : bool).

Fixpoint le_val (bs : bytes) : Z :=
  match bs with
  | [] => 0
  | b :: bs' => Z.lor (Z.shiftl (le_val bs') 8) b
  end.

Fixpoint le_fixed (n : nat) (z : Z) : bytes :=
  match n with
  | O => []
  | S n' => z mod 256 :: le_fixed n' (z / 256)
  end.

(** Word [i] of a slice reinterpreted as [[]uintptr]. *)
Definition word (a : bytes) (i : nat) : Z := le_val (take wordSize (drop (i * wordSize) a)).

Definition set_word (dst : bytes) (i : nat) (z : Z) : outcome unit bytes :=
  if (S i * wordSize <=? length dst)%nat
  then Ok (copy_at dst (i * wordSize) (le_fixed wordSize z))
  else Panic.

Section Op.
Context (op : Z → Z → Z).

(** [for i := 0; i < w; i++ { dw[i] = aw[i] op bw[i] }], [w] rounds left. *)
Fixpoint word_loop (w i : nat) (dst a b : bytes) : outcome unit bytes :=
  match w with
  | O => Ok dst
  | S w' =>
      let* dst := set_word dst i (op (word a i) (word b i)) in
      word_loop w' (S i) dst a b
  end.

(** [for ; i < n; i++ { dst[i] = a[i] op b[i] }], [m] rounds left. *)
Fixpoint byte_loop (m i : nat) (dst a b : bytes) : outcome unit bytes :=
  match m with
  | O => Ok dst
  | S m' =>
      let* x := a.[i] in
      let* y := b.[i] in
      let* _ := dst.[i] in
      byte_loop m' (S i) (<[i := op x y]> dst) a b
  end.

Definition shorter (a b : bytes) : nat :=
  if (length b <? length a)%nat then length b else length a.

Definition fastBytes (dst a b : bytes) : outcome unit (bytes * nat) :=
  let n := shorter a b in
  let w := (n / wordSize)%nat in
  let* dst := if (0 <? w)%nat then word_loop w 0 dst a b else Ok dst in
  let* dst := byte_loop (n mod wordSize)%nat (n - n mod wordSize)%nat dst a b in
  Ok (dst, n).

Definition safeBytes (dst a b : bytes) : outcome unit (bytes * nat) :=
  let n := shorter a b in
  let* dst := byte_loop n 0 dst a b in
  Ok (dst, n).

Definition opBytes (dst a b : bytes) : outcome unit (bytes * nat) :=
  if supportsUnaligned then fastBytes dst a b else safeBytes dst a b.
End Op.

Definition fastXORBytes := fastBytes Z.lxor.
Definition safeXORBytes := safeBytes Z.lxor.
Definition XORBytes := opBytes Z.lxor.
Definition fastANDBytes := fastBytes Z.land.
Definition safeANDBytes := safeBytes Z.land.
Definition ANDBytes := opBytes Z.land.
Definition fastORBytes := fastBytes Z.lor.
Definition safeORBytes := safeBytes Z.lor.
Definition ORBytes := opBytes Z.lor.

(** ** Testing for set bits *)

Fixpoint test_words (w i : nat) (p : bytes) : bool :=
  match w with
  | O => false
  | S w' => if negb (word p i =? 0) then true else test_words w' (S i) p
  end.

Fixpoint test_bytes (p : bytes) : bool :=
  match p with
  | [] => false
  | b :: p' => if negb (b =? 0) then true else test_bytes p'
  end.

Definition fastTestBytes (p : bytes) : bool :=
  let n := length p in
  let w := (n / wordSize)%nat in
  if (0 <? w)%nat && test_words w 0 p then true
  else test_bytes (drop (n - n mod wordSize)%nat p).

Definition safeTestBytes (p : bytes) : bool := test_bytes p.

Definition TestBytes (p : bytes) : bool :=
  if supportsUnaligned then fastTestBytes p else safeTestBytes p.

(** ** Operations that act on each bit *)

Class Bitwise (op : Z → Z → Z) (f : bool → bool → bool) : Prop := {
  bitwise_spec x y i : 0 ≤ i → Z.testbit (op x y) i = f (Z.testbit x i) (Z.testbit y i);
  bitwise_zero : f false false = false;
  bitwise_nonneg x y : 0 ≤ x → 0 ≤ y → 0 ≤ op x y
}.

#[export] Instance lxor_bitwise : Bitwise Z.lxor xorb.
Proof. split; [intros; apply Z.lxor_spec|done|intros; by apply Z.lxor_nonneg]. Qed.
#[export] Instance land_bitwise : Bitwise Z.land andb.
Proof. split; [intros; apply Z.land_spec|done|intros; apply Z.land_nonneg; by left]. Qed.
#[export] Instance lor_bitwise : Bitwise Z.lor orb.
Proof. split; [intros; apply Z.lor_spec|done|intros; by apply Z.lor_nonneg]. Qed.

Lemma le_val_nonneg bs : Forall is_byte bs → 0 ≤ le_val bs.
Proof.
  induction 1 as [|b bs [Hb _] _ IH]; simpl; [done|]. apply Z.lor_nonneg. by rewrite Z.shiftl_nonneg.
Qed.

Lemma le_val_cons b bs : is_byte b → le_val (b :: bs) = le_val bs * 256 + b.
Proof. intros Hb. simpl. rewrite lor_shiftl_add; [done|lia|]. unfold is_byte in Hb. simpl. lia. Qed.

Lemma le_fixed_val bs : Forall is_byte bs → le_fixed (length bs) (le_val bs) = bs.
Proof.
  induction 1 as [|b bs Hb _ IH]; [done|]. cbn [length le_fixed]. rewrite le_val_cons by done.
  unfold is_byte in Hb. rewrite Z.div_add_l, (Z.div_small b), Z.add_0_r, IH by lia. f_equal.
  rewrite Z.add_comm, Z.mod_add, Z.mod_small by lia. done.
Qed.

Section Bitwise.
Context (op : Z → Z → Z) (f : bool → bool → bool) `{!Bitwise op f}.

Lemma bitwise_byte x y : is_byte x → is_byte y → is_byte (op x y).
Proof.
  unfold is_byte. intros Hx Hy. pose proof (bitwise_nonneg x y ltac:(lia) ltac:(lia)).
  split; [done|]. change 256 with (2 ^ 8). rewrite <-(Z.mod_small x (2 ^ 8)), <-(Z.mod_small y (2 ^ 8)) by (simpl; lia).
  assert (op (x mod 2 ^ 8) (y mod 2 ^ 8) = op (x mod 2 ^ 8) (y mod 2 ^ 8) mod 2 ^ 8) as ->;
    [|apply Z.mod_pos_bound; lia].
  apply Z.bits_inj'. intros i Hi. destruct (decide (i < 8)).
  - by rewrite (Z.mod_pow2_bits_low (op _ _)) by lia.
  - rewrite (Z.mod_pow2_bits_high (op _ _)) by lia. rewrite bitwise_spec by done.
    rewrite !Z.mod_pow2_bits_high by lia. apply bitwise_zero.
Qed.

Lemma zip_with_byte xs ys :
  Forall is_byte xs → Forall is_byte ys → Forall is_byte (zip_with op xs ys).
Proof.
  intros Hx. revert ys. induction Hx as [|x xs Hx _ IH]; intros ys Hy; destruct Hy; simpl; constructor; auto using bitwise_byte.
Qed.

(** The operation on words is the operation on their bytes. *)
Lemma op_words xs ys :
  length xs = length ys → Forall is_byte xs → Forall is_byte ys →
  op (le_val xs) (le_val ys) = le_val (zip_with op xs ys).
Proof.
  intros Hl Hx. revert ys Hl. induction Hx as [|x xs Hx Hxs IH]; intros [|y ys] Hl Hy; try done.
  - apply Z.bits_inj'. intros i Hi. simpl. rewrite bitwise_spec, !Z.bits_0 by done. apply bitwise_zero.
  - apply Forall_cons in Hy as [Hy Hys]. injection Hl as Hl. specialize (IH ys Hl Hys).
    pose proof (bitwise_byte x y Hx Hy) as Hxy.
    apply Z.bits_inj'. intros i Hi. simpl. rewrite bitwise_spec, !Z.lor_spec, !Z.shiftl_spec by done.
    rewrite <-IH. destruct (decide (i < 8)).
    + rewrite !(Z.testbit_neg_r _ (i - 8)) by lia. simpl. by rewrite bitwise_spec.
    + rewrite !(testbit_high _ 8 i) by (unfold is_byte in *; simpl; lia). rewrite !orb_false_r.
      by rewrite bitwise_spec by lia.
Qed.

(** The first [n] bytes of the destination combined, the others as they were. *)
Definition combined (n : nat) (dst a b : bytes) : bytes :=
  zip_with op (take n a) (take n b) ++ drop n dst.

Lemma length_combined n dst a b :
  (n ≤ length a)%nat → (n ≤ length b)%nat → (n ≤ length dst)%nat → length (combined n dst a b) = length dst.
Proof. intros. unfold combined. rewrite length_app, length_zip_with, !length_take, length_drop. lia. Qed.

Lemma zip_with_take_S n a b x y :
  a !! n = Some x → b !! n = Some y →
  zip_with op (take (S n) a) (take (S n) b) = zip_with op (take n a) (take n b) ++ [op x y].
Proof.
  intros Ha Hb. rewrite (take_S_r _ _ _ Ha), (take_S_r _ _ _ Hb), zip_with_app; [done|].
  rewrite !length_take. apply lookup_lt_Some in Ha, Hb. lia.
Qed.

Lemma byte_loop_spec m i dst a b :
  (i + m ≤ length a)%nat → (i + m ≤ length b)%nat → (i + m ≤ length dst)%nat →
  byte_loop op m i (combined i dst a b) a b = Ok (combined (i + m) dst a b).
Proof.
  revert i. induction m as [|m IH]; intros i Ha Hb Hd; simpl; [by rewrite Nat.add_0_r|].
  destruct (lookup_lt_is_Some_2 a i) as [x Hx]; [lia|]. destruct (lookup_lt_is_Some_2 b i) as [y Hy]; [lia|].
  destruct (lookup_lt_is_Some_2 (combined i dst a b) i) as [z Hz]; [rewrite length_combined; lia|].
  rewrite (index_Some _ _ _ Hx), (index_Some _ _ _ Hy), (index_Some _ _ _ Hz). simpl.
  replace (i + S m)%nat with (S i + m)%nat by lia. rewrite <-(IH (S i)) by lia. f_equal.
  unfold combined. rewrite (zip_with_take_S _ _ _ _ _ Hx Hy), <-app_assoc.
  assert (length (zip_with op (take i a) (take i b)) = i) as Hl
    by (rewrite length_zip_with, !length_take; lia).
  rewrite insert_app_r_alt, Hl, Nat.sub_diag by lia. f_equal.
  destruct (lookup_lt_is_Some_2 dst i) as [d Hd']; [lia|]. by rewrite (drop_S _ _ _ Hd').
Qed.

Lemma set_word_combined i dst a b :
  Forall is_byte a → Forall is_byte b →
  (S i * wordSize ≤ length a)%nat → (S i * wordSize ≤ length b)%nat → (S i * wordSize ≤ length dst)%nat →
  set_word (combined (i * wordSize) dst a b) i (op (word a i) (word b i)) = Ok (combined (S i * wordSize) dst a b).
Proof.
  intros Hab Hbb Ha Hb Hd. unfold set_word. rewrite length_combined by lia. case_cmp.
  unfold word. set (k := (i * wordSize)%nat) in *. assert (S i * wordSize = k + wordSize)%nat as Ek by lia.
  assert (∀ l : bytes, (k + wordSize ≤ length l)%nat → length (take wordSize (drop k l)) = wordSize) as Hlt
    by (intros l ?; rewrite length_take, length_drop; lia).
  rewrite op_words; [|rewrite !Hlt by lia; done|by apply Forall_take, Forall_drop..].
  set (src := zip_with op (take wordSize (drop k a)) (take wordSize (drop k b))).
  assert (length src = wordSize) as Hsrc by (unfold src; rewrite length_zip_with, !Hlt by lia; lia).
  assert (le_fixed wordSize (le_val src) = src) as ->.
  { rewrite <-Hsrc at 1. apply le_fixed_val, zip_with_byte; by apply Forall_take, Forall_drop. }
  f_equal. unfold combined. rewrite Ek.
  assert (length (zip_with op (take k a) (take k b)) = k) as Hl by (rewrite length_zip_with, !length_take; lia).
  pose proof (copy_at_app (zip_with op (take k a) (take k b)) (drop k dst) src) as HC.
  rewrite Hl in HC. rewrite HC by (rewrite length_drop; lia).
  rewrite drop_drop, Hsrc. f_equal. unfold src.
  rewrite <-zip_with_app by (rewrite !length_take; lia). by rewrite !take_take_drop.
Qed.

Lemma word_loop_spec w i dst a b :
  Forall is_byte a → Forall is_byte b →
  ((i + w) * wordSize ≤ length a)%nat → ((i + w) * wordSize ≤ length b)%nat →
  ((i + w) * wordSize ≤ length dst)%nat →
  word_loop op w i (combined (i * wordSize) dst a b) a b = Ok (combined ((i + w) * wordSize) dst a b).
Proof.
  intros Hab Hbb. revert i. induction w as [|w IH]; intros i Ha Hb Hd; cbn [word_loop]; [by rewrite Nat.add_0_r|].
  rewrite set_word_combined by (done || nia). cbn [obind].
  replace (i + S w)%nat with (S i + w)%nat by lia. apply IH; lia.
Qed.

Lemma shorter_spec a b : shorter a b = Nat.min (length a) (length b).
Proof. unfold shorter. case_cmp; lia. Qed.

Lemma combined_0 dst a b : combined 0 dst a b = dst.
Proof. unfold combined. by rewrite !take_0, drop_0. Qed.

Lemma safeBytes_spec dst a b :
  (Nat.min (length a) (length b) ≤ length dst)%nat →
  safeBytes op dst a b =
    Ok (combined (Nat.min (length a) (length b)) dst a b, Nat.min (length a) (length b)).
Proof.
  intros Hd. unfold safeBytes. rewrite shorter_spec. rewrite <-(combined_0 dst a b) at 1.
  rewrite byte_loop_spec by lia. done.
Qed.

Lemma fastBytes_spec dst a b :
  (0 < wordSize)%nat → Forall is_byte a → Forall is_byte b →
  (Nat.min (length a) (length b) ≤ length dst)%nat →
  fastBytes op dst a b =
    Ok (combined (Nat.min (length a) (length b)) dst a b, Nat.min (length a) (length b)).
Proof.
  intros Hw Hab Hbb Hd. unfold fastBytes. rewrite shorter_spec. set (n := Nat.min _ _) in *.
  pose proof (Nat.div_mod_eq n wordSize) as Hdm. pose proof (Nat.mod_upper_bound n wordSize ltac:(lia)).
  assert ((if (0 <? n / wordSize)%nat then word_loop op (n / wordSize) 0 dst a b else Ok dst)
    = Ok (combined (n - n mod wordSize) dst a b)) as ->.
  { replace (n - n mod wordSize)%nat with ((n / wordSize) * wordSize)%nat by lia. case_cmp.
    - rewrite <-(combined_0 dst a b) at 1. apply (word_loop_spec _ 0); [done|done|lia..].
    - replace (n / wordSize)%nat with 0%nat by lia. by rewrite combined_0. }
  cbn [obind]. rewrite byte_loop_spec by lia. cbn [obind]. do 3 f_equal. lia.
Qed.
End Bitwise.

Lemma test_bytes_spec p : test_bytes p = bool_decide (Exists (λ b, b ≠ 0) p).
Proof.
  induction p as [|b p IH]; cbn [test_bytes].
  - symmetry. apply bool_decide_eq_false. inversion 1.
  - destruct (Z.eqb_spec b 0) as [->|]; cbn [negb].
    + rewrite IH. apply bool_decide_ext. rewrite Exists_cons. naive_solver.
    + symmetry. apply bool_decide_eq_true. by apply Exists_cons_hd.
Qed.

Lemma le_val_zero bs : Forall is_byte bs → (le_val bs =? 0) = negb (test_bytes bs).
Proof.
  induction 1 as [|b bs Hb Hbs IH]; [done|]. rewrite le_val_cons by done. simpl.
  pose proof (le_val_nonneg bs Hbs). unfold is_byte in Hb.
  destruct (Z.eqb_spec b 0) as [->|]; simpl; [|apply Z.eqb_neq; lia].
  rewrite <-IH. destruct (Z.eqb_spec (le_val bs) 0) as [->|]; [done|]. apply Z.eqb_neq. lia.
Qed.

Lemma test_bytes_app a b : test_bytes (a ++ b) = test_bytes a || test_bytes b.
Proof. induction a as [|x a IH]; simpl; [done|]. by destruct (x =? 0); simpl. Qed.

Lemma test_words_spec w i p :
  Forall is_byte p → ((i + w) * wordSize ≤ length p)%nat →
  test_words w i p = test_bytes (take (w * wordSize) (drop (i * wordSize) p)).
Proof.
  intros Hp. revert i. induction w as [|w IH]; intros i Hl; [done|]. cbn [test_words].
  unfold word. rewrite le_val_zero, negb_involutive by (by apply Forall_take, Forall_drop).
  rewrite IH by lia. change (S w * wordSize)%nat with (wordSize + w * wordSize)%nat.
  rewrite <-(take_take_drop (drop (i * wordSize) p) wordSize (w * wordSize)), test_bytes_app, drop_drop.
  rewrite Nat.add_comm. by destruct (test_bytes (take wordSize _)).
Qed.

Lemma fastTest_safe p : (0 < wordSize)%nat → Forall is_byte p → fastTestBytes p = safeTestBytes p.
Proof.
  intros Hw Hp. unfold fastTestBytes, safeTestBytes. set (n := length p).
  pose proof (Nat.div_mod_eq n wordSize) as Hdm. pose proof (Nat.mod_upper_bound n wordSize ltac:(lia)).
  replace (n - n mod wordSize)%nat with ((n / wordSize) * wordSize)%nat by lia.
  rewrite test_words_spec by (done || simpl; fold n; lia). simpl. rewrite drop_0.
  rewrite <-(take_drop ((n / wordSize) * wordSize) p) at 3. rewrite test_bytes_app.
  destruct (Nat.ltb_spec 0 (n / wordSize)); simpl; [by destruct (test_bytes (take _ p))|].
  replace (n / wordSize)%nat with 0%nat by lia. done.
Qed.
End Bitutil.

(** ** Properties *)

(** The word-at-a-time versions of XORBytes, ANDBytes and ORBytes compute
    what the bytewise ones do, on every architecture: byte by byte the result of
    the operation on the common length, the rest of the destination untouched. *)
Theorem bulk_operations_bytewise wordSize su dst a b :
  (0 < wordSize)%nat → Forall is_byte a → Forall is_byte b →
  (Nat.min (length a) (length b) ≤ length dst)%nat →
  let n := Nat.min (length a) (length b) in
  let result op := Ok (zip_with op (take n a) (take n b) ++ drop n dst, n) in
  XORBytes wordSize su dst a b = result Z.lxor ∧ safeXORBytes dst a b = result Z.lxor ∧
  ANDBytes wordSize su dst a b = result Z.land ∧ safeANDBytes dst a b = result Z.land ∧
  ORBytes wordSize su dst a b = result Z.lor ∧ safeORBytes dst a b = result Z.lor.
Proof.
  intros Hw Ha Hb Hd n result. unfold XORBytes, ANDBytes, ORBytes, opBytes.
  split_and!; try (by eapply safeBytes_spec); (destruct su; [|by eapply safeBytes_spec]).
  - by apply (fastBytes_spec wordSize Z.lxor xorb).
  - by apply (fastBytes_spec wordSize Z.land andb).
  - by apply (fastBytes_spec wordSize Z.lor orb).
Qed.

Lemma bulk_operations_bytewise_witness :
  let dst := replicate 6 0 in let a := [1; 2; 3; 4; 5] in let b := [3; 3; 3; 3; 255; 9] in
  let n := Nat.min (length a) (length b) in
  let result op := Ok (zip_with op (take n a) (take n b) ++ drop n dst, n) in
  XORBytes 4 true dst a b = result Z.lxor ∧ safeXORBytes dst a b = result Z.lxor ∧
  ANDBytes 4 true dst a b = result Z.land ∧ safeANDBytes dst a b = result Z.land ∧
  ORBytes 4 true dst a b = result Z.lor ∧ safeORBytes dst a b = result Z.lor.
Proof.
  apply bulk_operations_bytewise; [lia|by apply (bool_decide_unpack _)..|simpl; lia].
Defined.

(** TestBytes reports whether some byte is not zero, in both versions. *)
Theorem TestBytes_spec wordSize su p :
  (0 < wordSize)%nat → Forall is_byte p →
  TestBytes wordSize su p = bool_decide (Exists (λ b, b ≠ 0) p).
Proof.
  intros Hw Hp. rewrite <-test_bytes_spec. unfold TestBytes. destruct su; [|done]. by apply fastTest_safe.
Qed.

Lemma TestBytes_spec_witness :
  TestBytes 8 true [0; 0; 0; 0; 0; 0; 0; 0; 0; 4] = bool_decide (Exists (λ b, b ≠ 0) [0; 0; 0; 0; 0; 0; 0; 0; 0; 4]).
Proof. apply TestBytes_spec; [lia|by apply (bool_decide_unpack _)]. Defined.
End Bitutil.
