(* ===== verification/Compress.v ===== *)
(** * Sparse bitset compression (common/bitutil/compress.go)

    The recursive bitset encoding used for bloom bits: the bytes that are not
    zero, preceded by the encoding of the bitset that says where they stand.
    Both directions recurse on the bitset, which is shorter than the data; a
    round counter makes the recursion structural and [OutOfRounds] marks its
    end, which the theorems exclude. *)

From S2P Require Import Prelude.
Local Open Scope Z_scope.

Local Arguments Nat.div _ _ : simpl never.
Local Arguments Nat.modulo _ _ : simpl never.

Module Compress.

Inductive error :=
| errMissingData
| errUnreferencedData
| errExceededTarget
| errZeroContent
| OutOfRounds.

Abbreviation outcome := (outcome error).

(** ** Encoding *)

(** The mask [1 << byte(7-i%8)]. *)
Definition mask (i : nat) : Z := u8 (Z.shiftl 1 (u8 (7 - Z.of_nat (i mod 8)))).

(** The loop over the data: sets the bit of every byte that is not zero and
    gathers these bytes. *)
Fixpoint bitset_loop (i : nat) (data nonZeroBitset nonZeroBytes : bytes) : outcome (bytes * bytes) :=
  match data with
  | [] => Ok (nonZeroBitset, nonZeroBytes)
  | b :: data' =>
      if negb (b =? 0) then
        let* x := nonZeroBitset.[(i / 8)%nat] in
        bitset_loop (S i) data' (<[(i / 8)%nat := Z.lor x (mask i)]> nonZeroBitset) (nonZeroBytes ++ [b])
      else bitset_loop (S i) data' nonZeroBitset nonZeroBytes
  end.

Fixpoint bitsetEncode (rounds : nat) (data : bytes) : outcome bytes :=
  match rounds with
  | O => Err OutOfRounds
  | S r =>
      match data with
      | [] => Ok []
      | [b] => if b =? 0 then Ok [] else Ok data
      | _ =>
          let* (nonZeroBitset, nonZeroBytes) :=
            bitset_loop 0 data (replicate ((length data + 7) / 8)%nat 0) [] in
          if (length nonZeroBytes =? 0)%nat then Ok []
          else let* out := bitsetEncode r nonZeroBitset in Ok (out ++ nonZeroBytes)
      end
  end.

Definition bitsetEncodeBytes (data : bytes) : outcome bytes := bitsetEncode (S (length data)) data.

Definition CompressBytes (data : bytes) : outcome bytes :=
  let* out := bitsetEncodeBytes data in
  if (length out <? length data)%nat then Ok out else Ok data.

(** ** Decoding *)

(** The loop over the bits [i], ..., [i+n-1] of the bitset. *)
Fixpoint scatter_loop (n i : nat) (nonZeroBitset data decomp : bytes) (ptr : nat) : outcome (bytes * nat) :=
  match n with
  | O => Ok (decomp, ptr)
  | S n' =>
      let* x := nonZeroBitset.[(i / 8)%nat] in
      if negb (Z.land x (mask i) =? 0) then
        if (length data <=? ptr)%nat then Err errMissingData
        else if (length decomp <=? i)%nat then Err errExceededTarget
        else
          let* b := data.[ptr] in
          if b =? 0 then Err errZeroContent
          else scatter_loop n' (S i) nonZeroBitset data (<[i := b]> decomp) (S ptr)
      else scatter_loop n' (S i) nonZeroBitset data decomp ptr
  end.

Fixpoint bitsetDecodePartial (rounds : nat) (data : bytes) (target : nat) : outcome (bytes * nat) :=
  match rounds with
  | O => Err OutOfRounds
  | S r =>
      if (target =? 0)%nat then Ok ([], 0%nat)
      else
        let decomp := replicate target 0 in
        match data with
        | [] => Ok (decomp, 0%nat)
        | d0 :: _ =>
            if (target =? 1)%nat then Ok ([d0], if negb (d0 =? 0) then 1%nat else 0%nat)
            else
              let* (nonZeroBitset, ptr) := bitsetDecodePartial r data ((target + 7) / 8)%nat in
              scatter_loop (8 * length nonZeroBitset) 0 nonZeroBitset data decomp ptr
        end
  end.

Definition bitsetDecodePartialBytes (data : bytes) (target : nat) : outcome (bytes * nat) :=
  bitsetDecodePartial (S target) data target.

Definition bitsetDecodeBytes (data : bytes) (target : nat) : outcome bytes :=
  let* (out, size) := bitsetDecodePartialBytes data target in
  if negb (size =? length data)%nat then Err errUnreferencedData else Ok out.

Definition DecompressBytes (data : bytes) (target : nat) : outcome bytes :=
  if (target <? length data)%nat then Err errExceededTarget
  else if (length data =? target)%nat then Ok data
  else bitsetDecodeBytes data target.

(** ** Bits of a bitset *)

(** Bit [k] of a bitset, the most significant bit of a byte first. *)
Definition bit (bs : bytes) (k : nat) : bool :=
  match bs !! (k / 8)%nat with
  | Some x => Z.testbit x (7 - Z.of_nat (k mod 8))
  | None => false
  end.

(** Whether byte [k] of the data is present and not zero. *)
Definition nz (data : bytes) (k : nat) : bool :=
  match data !! k with
  | Some b => negb (b =? 0)
  | None => false
  end.

(** [bs] is the bitset of [data]. *)
Definition is_bitset (bs data : bytes) : Prop :=
  Forall is_byte bs ∧ length bs = ((length data + 7) / 8)%nat ∧ ∀ k, bit bs k = nz data k.

Abbreviation nonzero := (filter (λ b : Z, b ≠ 0)).

Lemma mod8 k : (k mod 8 < 8)%nat.
Proof. apply Nat.mod_upper_bound. lia. Qed.

Lemma mask_spec i : mask i = 2 ^ (7 - Z.of_nat (i mod 8)).
Proof.
  pose proof (mod8 i). unfold mask. rewrite (wrap_small 8 (7 - _)) by (simpl; lia).
  rewrite Z.shiftl_mul_pow2, Z.mul_1_l by lia. apply wrap_small. split; [lia|].
  apply Z.pow_lt_mono_r; lia.
Qed.

Lemma land_mask x i : (Z.land x (mask i) =? 0) = negb (Z.testbit x (7 - Z.of_nat (i mod 8))).
Proof.
  pose proof (mod8 i). rewrite mask_spec. set (j := 7 - _). assert (0 ≤ j) by lia.
  destruct (Z.testbit x j) eqn:E; simpl.
  - apply Z.eqb_neq. intros Hz. apply (f_equal (λ z, Z.testbit z j)) in Hz.
    rewrite Z.land_spec, E, Z.pow2_bits_true, Z.bits_0 in Hz by done. done.
  - apply Z.eqb_eq, Z.bits_inj'. intros k Hk. rewrite Z.land_spec, Z.bits_0, Z.pow2_bits_eqb by done.
    destruct (Z.eqb_spec j k) as [<-|]; [by rewrite E|by rewrite andb_false_r].
Qed.

Lemma lor_mask_byte x i : is_byte x → is_byte (Z.lor x (mask i)).
Proof.
  pose proof (mod8 i). unfold is_byte. intros [Hx1 Hx2]. rewrite mask_spec.
  set (m := 2 ^ (7 - Z.of_nat (i mod 8))). assert (0 ≤ Z.lor x m) by (apply Z.lor_nonneg; lia).
  split; [done|]. change 256 with (2 ^ 8).
  destruct (Z.eq_dec (Z.lor x m) 0) as [->|Hn]; [done|]. apply Z.log2_lt_pow2; [lia|]. subst m.
  rewrite Z.log2_lor, Z.log2_pow2 by lia. apply Z.max_lub_lt; [|lia].
  destruct (Z.eq_dec x 0) as [->|]; [done|]. apply Z.log2_lt_pow2; lia.
Qed.

Lemma div_mod8_inj i k : (i / 8 = k / 8 → i mod 8 = k mod 8 → i = k)%nat.
Proof. intros Hd Hm. rewrite (Nat.div_mod_eq i 8), (Nat.div_mod_eq k 8). lia. Qed.

Lemma bit_set bs i x k :
  bs !! (i / 8)%nat = Some x →
  bit (<[(i / 8)%nat := Z.lor x (mask i)]> bs) k = bit bs k || (i =? k)%nat.
Proof.
  intros Hx. pose proof (mod8 i). pose proof (mod8 k). unfold bit.
  assert (i / 8 < length bs)%nat by (by eapply lookup_lt_Some).
  destruct (decide (i / 8 = k / 8)%nat) as [E|E].
  - rewrite <-E, list_lookup_insert_eq, Hx by done.
    rewrite Z.lor_spec, mask_spec, Z.pow2_bits_eqb by lia. f_equal.
    destruct (Nat.eqb_spec i k) as [<-|Hn]; [apply Z.eqb_refl|]. apply Z.eqb_neq.
    intros Hm. apply Hn, div_mod8_inj; lia.
  - rewrite list_lookup_insert_ne by done.
    destruct (Nat.eqb_spec i k) as [<-|]; [done|]. by rewrite orb_false_r.
Qed.

(** A bitset is determined by its bits. *)
Lemma bitset_ext bs1 bs2 :
  Forall is_byte bs1 → Forall is_byte bs2 → length bs1 = length bs2 →
  (∀ k, bit bs1 k = bit bs2 k) → bs1 = bs2.
Proof.
  intros H1 H2 Hl Hb. apply list_eq. intros q.
  destruct (bs1 !! q) as [x|] eqn:E1; [|symmetry; apply lookup_ge_None; apply lookup_ge_None in E1; lia].
  destruct (lookup_lt_is_Some_2 bs2 q) as [y E2]; [apply lookup_lt_Some in E1; lia|].
  rewrite E2. f_equal.
  assert (is_byte x) as Hx by exact (Forall_lookup_1 _ _ _ _ H1 E1).
  assert (is_byte y) as Hy by exact (Forall_lookup_1 _ _ _ _ H2 E2).
  apply Z.bits_inj'. intros j Hj. destruct (decide (j < 8)).
  - specialize (Hb (q * 8 + Z.to_nat (7 - j))%nat). unfold bit in Hb.
    rewrite Nat.div_add_l, (Nat.div_small (Z.to_nat _)), Nat.add_0_r, E1, E2 in Hb by lia.
    rewrite (Nat.add_comm (q * 8)), Nat.Div0.mod_add, Nat.mod_small in Hb by lia.
    by replace (7 - Z.of_nat (Z.to_nat (7 - j))) with j in Hb by lia.
  - rewrite !(testbit_high _ 8) by (unfold is_byte in *; lia). done.
Qed.

Lemma div8_lt i n : (i < n → i / 8 < (n + 7) / 8)%nat.
Proof. intros. apply Nat.div_lt_upper_bound; [lia|]. pose proof (Nat.div_mod_eq (n + 7) 8). pose proof (mod8 (n + 7)). lia. Qed.

Lemma bit_replicate n k : bit (replicate n 0) k = false.
Proof.
  unfold bit. destruct (replicate n 0 !! (k / 8)%nat) eqn:E; [|done].
  apply lookup_replicate in E as [-> _]. apply Z.bits_0.
Qed.

(** ** The two loops *)

Lemma bitset_loop_spec data i pre bs nzb :
  length pre = i → Forall is_byte bs → ((i + length data + 7) / 8 = length bs)%nat →
  (∀ k, bit bs k = nz pre k) →
  ∃ bs', bitset_loop i data bs nzb = Ok (bs', nzb ++ nonzero data) ∧
    Forall is_byte bs' ∧ length bs' = length bs ∧ ∀ k, bit bs' k = nz (pre ++ data) k.
Proof.
  revert i pre bs nzb. induction data as [|b data IH]; intros i pre bs nzb Hi Hbs Hl Hb; simpl.
  - exists bs. rewrite !app_nil_r. done.
  - assert (∀ k, nz (pre ++ [b]) k = nz pre k || ((i =? k)%nat && negb (b =? 0))) as Hnz.
    { intros k. unfold nz. destruct (Nat.eqb_spec i k) as [<-|].
      - rewrite <-Hi, lookup_app_r, Nat.sub_diag by lia. simpl.
        by rewrite lookup_ge_None_2 by lia.
      - rewrite orb_false_r. destruct (decide (k < i)%nat); [by rewrite lookup_app_l by lia|].
        rewrite !lookup_ge_None_2; [done|lia|]. rewrite length_app. simpl. lia. }
    simpl in Hl. destruct (Z.eqb_spec b 0) as [->|Hb0]; simpl.
    + destruct (IH (S i) (pre ++ [0]) bs nzb) as (bs' & E & ? & ? & Hb').
      * rewrite length_app. simpl. lia.
      * done.
      * by rewrite <-Hl, Nat.add_succ_comm.
      * intros k. rewrite Hnz, Hb. simpl. by rewrite andb_false_r, orb_false_r.
      * exists bs'. rewrite E, filter_cons_False by (intros []; done). split_and!; [done..|].
        intros k. by rewrite Hb', <-app_assoc.
    + destruct (lookup_lt_is_Some_2 bs (i / 8)%nat) as [x Hx].
      { rewrite <-Hl. replace (i + S (length data) + 7)%nat with ((i + S (length data)) + 7)%nat by lia.
        apply div8_lt. lia. }
      rewrite (index_Some _ _ _ Hx). simpl.
      destruct (IH (S i) (pre ++ [b]) (<[(i / 8)%nat:=Z.lor x (mask i)]> bs) (nzb ++ [b]))
        as (bs' & E & ? & Hl' & Hb').
      * rewrite length_app. simpl. lia.
      * apply Forall_insert; [done|]. apply lor_mask_byte. exact (Forall_lookup_1 _ _ _ _ Hbs Hx).
      * by rewrite length_insert, <-Hl, Nat.add_succ_comm.
      * intros k. rewrite bit_set, Hnz, Hb by done.
        destruct (Z.eqb_spec b 0); [done|]. by rewrite andb_true_r.
      * exists bs'. rewrite length_insert in Hl'. rewrite E, filter_cons_True, <-app_assoc by done.
        split_and!; [done..|]. intros k. by rewrite Hb', <-app_assoc.
Qed.

(** The encoding loop computes the bitset and the bytes that are not zero. *)
Lemma bitset_loop_ok data :
  ∃ bs, bitset_loop 0 data (replicate ((length data + 7) / 8)%nat 0) [] = Ok (bs, nonzero data) ∧
    is_bitset bs data.
Proof.
  destruct (bitset_loop_spec data 0 [] (replicate ((length data + 7) / 8)%nat 0) [])
    as (bs & E & ? & Hl & ?); [done|by apply Forall_replicate|by rewrite length_replicate|
      intros k; apply bit_replicate|].
  exists bs. split; [done|]. split_and!; [done| |done]. by rewrite Hl, length_replicate.
Qed.

Lemma bit_lookup bs i x :
  bs !! (i / 8)%nat = Some x → negb (Z.land x (mask i) =? 0) = bit bs i.
Proof. intros Hx. unfold bit. by rewrite Hx, land_mask, negb_involutive. Qed.

Lemma nz_lookup data i b : data !! i = Some b → nz data i = negb (b =? 0).
Proof. unfold nz. by intros ->. Qed.

(** Writing the next byte of [out] after its first [i]. *)
Lemma insert_next (out : bytes) i b :
  out !! i = Some b →
  <[i:=b]> (take i out ++ replicate (length out - i) 0) = take (S i) out ++ replicate (length out - S i) 0.
Proof.
  intros Hb. pose proof (lookup_lt_Some _ _ _ Hb).
  replace (length out - i)%nat with (S (length out - S i)) by lia. simpl.
  rewrite insert_app_r_alt, length_take, Nat.min_l, Nat.sub_diag by (rewrite ?length_take; lia). simpl.
  by rewrite (take_S_r _ _ _ Hb), <-app_assoc.
Qed.

Lemma skip_next (out : bytes) i :
  nz out i = false → take i out ++ replicate (length out - i) 0 = take (S i) out ++ replicate (length out - S i) 0.
Proof.
  unfold nz. destruct (out !! i) as [b|] eqn:Hb.
  - intros H. destruct (Z.eqb_spec b 0) as [->|]; [|done]. pose proof (lookup_lt_Some _ _ _ Hb).
    rewrite (take_S_r _ _ _ Hb), <-app_assoc.
    by replace (length out - i)%nat with (S (length out - S i)) by lia.
  - intros _. apply lookup_ge_None in Hb. rewrite !(take_ge out) by lia.
    by replace (length out - i)%nat with 0%nat by lia; replace (length out - S i)%nat with 0%nat by lia.
Qed.

(** The bytes that are not zero from position [i] on. *)
Lemma nonzero_drop (out : bytes) i :
  nonzero (drop i out) =
    match out !! i with
    | Some b => if b =? 0 then nonzero (drop (S i) out) else b :: nonzero (drop (S i) out)
    | None => []
    end.
Proof.
  destruct (out !! i) as [b|] eqn:Hb.
  - rewrite (drop_S _ _ _ Hb). destruct (Z.eqb_spec b 0) as [->|].
    + by rewrite filter_cons_False by (intros []; done).
    + by rewrite filter_cons_True.
  - apply lookup_ge_None in Hb. by rewrite drop_ge.
Qed.

(** Scattering the bytes of [out] gives [out] back. *)
Lemma scatter_complete out bs n i pre rest :
  (i + n = 8 * length bs)%nat → (length out ≤ i + n)%nat → (∀ k, bit bs k = nz out k) →
  scatter_loop n i bs (pre ++ nonzero (drop i out) ++ rest)
    (take i out ++ replicate (length out - i) 0) (length pre)
  = Ok (out, (length pre + length (nonzero (drop i out)))%nat).
Proof.
  revert i pre. induction n as [|n IH]; intros i pre Hn Hl Hb; simpl.
  - rewrite take_ge, drop_ge by lia. replace (length out - i)%nat with 0%nat by lia. simpl.
    by rewrite app_nil_r, Nat.add_0_r.
  - destruct (lookup_lt_is_Some_2 bs (i / 8)%nat) as [x Hx]; [apply Nat.div_lt_upper_bound; lia|].
    rewrite (index_Some _ _ _ Hx). simpl. rewrite (bit_lookup _ _ _ Hx), Hb.
    destruct (nz out i) eqn:Enz.
    + unfold nz in Enz. destruct (out !! i) as [b|] eqn:Eb; [|done]. apply negb_true_iff in Enz.
      pose proof (lookup_lt_Some _ _ _ Eb).
      rewrite (nonzero_drop out i), Eb, Enz. rewrite !length_app, length_take, length_replicate. simpl.
      repeat case_cmp. rewrite (index_Some _ (length pre) b) by (rewrite lookup_app_r, Nat.sub_diag by lia; done).
      simpl. rewrite Enz, insert_next by done.
      specialize (IH (S i) (pre ++ [b])). rewrite length_app, <-app_assoc in IH. simpl in IH.
      rewrite Nat.add_1_r in IH. rewrite IH by (done || lia). do 2 f_equal. lia.
    + rewrite skip_next by done.
      assert (nonzero (drop i out) = nonzero (drop (S i) out)) as ->.
      { rewrite (nonzero_drop out i). unfold nz in Enz. destruct (out !! i) as [b|] eqn:Eb.
        - by destruct (b =? 0).
        - apply lookup_ge_None in Eb. by rewrite drop_ge by lia. }
      apply (IH (S i)); [lia|lia|done].
Qed.

(** What a successful scattering wrote. *)
Lemma scatter_sound bs data n i decomp ptr out ptr' :
  scatter_loop n i bs data decomp ptr = Ok (out, ptr') →
  (i + n = 8 * length bs)%nat → (length decomp ≤ i + n)%nat →
  drop i decomp = replicate (length decomp - i) 0 →
  length out = length decomp ∧ take i out = take i decomp ∧
  (∀ k, (i ≤ k)%nat → bit bs k = nz out k) ∧ (ptr ≤ ptr')%nat ∧ (ptr = ptr' ∨ ptr' ≤ length data)%nat ∧
  nonzero (drop i out) = take (ptr' - ptr) (drop ptr data).
Proof.
  revert i decomp ptr. induction n as [|n IH]; intros i decomp ptr H Hn Hl Hz; simpl in H.
  - injection H as -> ->. rewrite Nat.sub_diag, (drop_ge out), take_0 by lia.
    split_and!; [done|done| |lia|by left|done]. intros k Hk. unfold bit, nz.
    rewrite !lookup_ge_None_2; [done|lia|]. apply Nat.div_le_lower_bound; lia.
  - apply obind_Ok in H as (x & Hx%index_Ok & H). rewrite (bit_lookup _ _ _ Hx) in H.
    destruct (bit bs i) eqn:Eb.
    + destruct (Nat.leb_spec (length data) ptr); [done|].
      destruct (Nat.leb_spec (length decomp) i); [done|].
      apply obind_Ok in H as (b & Hd%index_Ok & H).
      destruct (Z.eqb_spec b 0) as [|Hb0]; [done|].
      destruct (IH (S i) (<[i:=b]> decomp) (S ptr) H) as (Hlo & Hto & Hbo & Hp & Hp' & Hnz);
        [lia|rewrite length_insert; lia| |].
      { rewrite drop_insert_lt, length_insert by lia. rewrite <-Nat.add_1_r, <-drop_drop, Hz, drop_replicate.
        f_equal. lia. }
      rewrite length_insert in Hlo.
      assert (out !! i = Some b) as Ho.
      { rewrite <-(lookup_take_lt out (S i) i), Hto, lookup_take_lt, list_lookup_insert_eq by lia. done. }
      split_and!; [done| | |lia|right; destruct Hp'; lia|].
      * apply (f_equal (take i)) in Hto. rewrite !take_take, Nat.min_l, take_insert_ge in Hto by lia. done.
      * intros k Hk. destruct (decide (k = i)) as [->|]; [|apply Hbo; lia].
        rewrite Eb, (nz_lookup _ _ _ Ho). by destruct (Z.eqb_spec b 0).
      * rewrite nonzero_drop, Ho, Hnz, (drop_S _ _ _ Hd). destruct (Z.eqb_spec b 0); [done|].
        by replace (ptr' - ptr)%nat with (S (ptr' - S ptr)) by lia.
    + destruct (IH (S i) decomp ptr H) as (Hlo & Hto & Hbo & Hp & Hp' & Hnz); [lia|lia| |].
      { rewrite <-Nat.add_1_r, <-drop_drop, Hz, drop_replicate. f_equal. lia. }
      assert (nz out i = false) as Hzo.
      { unfold nz. destruct (out !! i) as [b|] eqn:Eo; [|done]. pose proof (lookup_lt_Some _ _ _ Eo).
        rewrite <-(lookup_take_lt out (S i) i), Hto, lookup_take_lt in Eo by lia.
        rewrite <-(Nat.add_0_r i), <-lookup_drop, Hz in Eo. by apply lookup_replicate in Eo as [-> _]. }
      split_and!; [done| | |done|done|].
      * apply (f_equal (take i)) in Hto. rewrite !take_take, Nat.min_l in Hto by lia. done.
      * intros k Hk. destruct (decide (k = i)) as [->|]; [by rewrite Eb|apply Hbo; lia].
      * rewrite <-Hnz, nonzero_drop. unfold nz in Hzo. destruct (out !! i) as [b|] eqn:Eo.
        -- by destruct (b =? 0).
        -- apply lookup_ge_None in Eo. by rewrite drop_ge by lia.
Qed.

(** ** The recursion *)

Lemma nonzero_nil data : nonzero data = [] ↔ ∀ k, nz data k = false.
Proof.
  split.
  - intros H k. unfold nz. destruct (data !! k) as [b|] eqn:E; [|done].
    destruct (Z.eqb_spec b 0) as [|Hb]; [done|]. apply list_elem_of_lookup_2 in E.
    assert (b ∈ nonzero data) as Hin by (by apply list_elem_of_filter). rewrite H in Hin. by apply elem_of_nil in Hin.
  - intros H. destruct (nonzero data) as [|b l] eqn:E; [done|].
    assert (b ∈ nonzero data) as [Hb (k & Hk)%list_elem_of_lookup]%list_elem_of_filter by (rewrite E; constructor).
    specialize (H k). rewrite (nz_lookup _ _ _ Hk) in H. by destruct (Z.eqb_spec b 0).
Qed.

Lemma nonzero_zeros data : nonzero data = [] → data = replicate (length data) 0.
Proof.
  induction data as [|b data IH]; [done|]. destruct (decide (b ≠ 0)) as [|E%dec_stable].
  - by rewrite filter_cons_True.
  - subst b. rewrite filter_cons_False by (intros []; done). intros H. simpl. f_equal. by apply IH.
Qed.

Lemma nonzero_bitset bs data : is_bitset bs data → nonzero bs = [] ↔ nonzero data = [].
Proof.
  intros (Hb & Hl & Hk). rewrite !nonzero_nil. split; intros H k.
  - rewrite <-Hk. unfold bit. specialize (H (k / 8)%nat). unfold nz in H.
    destruct (bs !! (k / 8)%nat) as [z|]; [|done]. apply negb_false_iff, Z.eqb_eq in H.
    rewrite H. apply Z.bits_0.
  - unfold nz. destruct (bs !! k) as [x|] eqn:E; [|done]. apply negb_false_iff, Z.eqb_eq.
    apply (Forall_lookup_1 _ _ _ _ Hb) in E as Hx. apply Z.bits_inj'. intros j Hj. rewrite Z.bits_0.
    destruct (decide (j < 8)); [|apply (testbit_high _ 8); unfold is_byte in *; lia].
    specialize (Hk (k * 8 + Z.to_nat (7 - j))%nat). rewrite H in Hk. unfold bit in Hk.
    rewrite Nat.div_add_l, (Nat.div_small (Z.to_nat _)), Nat.add_0_r, E in Hk by lia.
    rewrite (Nat.add_comm (k * 8)), Nat.Div0.mod_add, Nat.mod_small in Hk by lia.
    by replace (7 - Z.of_nat (Z.to_nat (7 - j))) with j in Hk by lia.
Qed.

Lemma bitset_shorter n : (2 ≤ n → 1 ≤ (n + 7) / 8 < n)%nat.
Proof. intros. pose proof (Nat.div_mod_eq (n + 7) 8). pose proof (mod8 (n + 7)). lia. Qed.

Lemma bitset_covers n : (n ≤ 8 * ((n + 7) / 8))%nat.
Proof. pose proof (Nat.div_mod_eq (n + 7) 8). pose proof (mod8 (n + 7)). lia. Qed.

Lemma encode_zeros r data : (0 < r)%nat → nonzero data = [] → bitsetEncode r data = Ok [].
Proof.
  intros Hr Hz. destruct r as [|r]; [lia|]. destruct data as [|b [|b' data]]; [done| |].
  - destruct (decide (b ≠ 0)) as [|E%dec_stable]; [by rewrite filter_cons_True in Hz|]. by subst b.
  - cbn [bitsetEncode]. destruct (bitset_loop_ok (b :: b' :: data)) as (bs & -> & _). simpl obind. by rewrite Hz.
Qed.

(** One level of encoding. *)
Lemma encode_step r data bs :
  (2 ≤ length data)%nat → nonzero data ≠ [] → is_bitset bs data →
  bitsetEncode (S r) data = (let* out := bitsetEncode r bs in Ok (out ++ nonzero data)).
Proof.
  intros Hl Hnz Hbs. destruct data as [|b [|b' data]]; [simpl in Hl; lia|simpl in Hl; lia|].
  cbn [bitsetEncode]. destruct (bitset_loop_ok (b :: b' :: data)) as (bs' & -> & Hbs').
  assert (bs' = bs) as ->.
  { destruct Hbs as (? & ? & Hk), Hbs' as (? & ? & Hk'). apply bitset_ext; [done..|congruence|].
    intros k. by rewrite Hk, Hk'. }
  simpl obind. destruct (Nat.eqb_spec (length (nonzero (b :: b' :: data))) 0) as [E|]; [|done].
  by apply length_zero_iff_nil in E.
Qed.

(** One level of decoding. *)
Lemma decode_step r data target :
  (2 ≤ target)%nat → data ≠ [] →
  bitsetDecodePartial (S r) data target =
    (let* (bs, ptr) := bitsetDecodePartial r data ((target + 7) / 8)%nat in
     scatter_loop (8 * length bs) 0 bs data (replicate target 0) ptr).
Proof. intros Ht Hd. destruct data as [|d data]; [done|]. cbn [bitsetDecodePartial]. by repeat case_cmp. Qed.

Lemma encode_decode data r1 r2 rest :
  (length data < r1)%nat → (length data < r2)%nat → nonzero data ≠ [] →
  ∃ enc, bitsetEncode r1 data = Ok enc ∧ enc ≠ [] ∧
    bitsetDecodePartial r2 (enc ++ rest) (length data) = Ok (data, length enc).
Proof.
  revert data r1 r2 rest. fix IH 2. intros data [|r1] [|r2] rest H1 H2 Hnz; [lia..|].
  destruct (decide (length data ≤ 1)%nat).
  { destruct data as [|b [|]]; [done| |simpl in *; lia]. exists [b]. simpl.
    destruct (Z.eqb_spec b 0) as [->|]; [done|]. done. }
  destruct (bitset_loop_ok data) as (bs & _ & Hbs). pose proof Hbs as (Hby & Hl & Hk).
  pose proof (bitset_shorter (length data) ltac:(lia)).
  destruct (IH bs r1 r2 (nonzero data ++ rest)) as (enc & E1 & Hne & E2); [lia|lia|by rewrite (nonzero_bitset _ _ Hbs)|].
  rewrite (encode_step _ _ bs), E1 by (done || lia). cbn [obind].
  exists (enc ++ nonzero data). split_and!; [done|by destruct enc|].
  rewrite decode_step by (lia || by destruct enc). rewrite <-Hl, <-app_assoc, E2. simpl obind.
  pose proof (scatter_complete data bs (8 * length bs) 0 enc rest) as HS. simpl in HS.
  rewrite drop_0, Nat.sub_0_r in HS. rewrite length_app.
  apply HS; [done| |done]. rewrite Hl. apply bitset_covers.
Qed.

Lemma decode_sound r data target out size :
  bitsetDecodePartial r data target = Ok (out, size) → Forall is_byte data →
  length out = target ∧ Forall is_byte out ∧ (size ≤ length data)%nat ∧ (nonzero out = [] → size = 0%nat) ∧
  ∀ r', (target < r')%nat → bitsetEncode r' out = Ok (take size data).
Proof.
  revert data target out size. induction r as [|r IH]; intros data target out size H Hd; [done|].
  destruct (decide (data = [])) as [->|Hne].
  { simpl in H. destruct (Nat.eqb_spec target 0) as [->|]; injection H as <- <-.
    - split_and!; try done. intros r' ?. by apply encode_zeros.
    - rewrite length_replicate. split_and!; try done; [by apply Forall_replicate|].
      intros r' ?. apply encode_zeros; [lia|]. apply nonzero_nil. intros k. unfold nz.
      destruct (replicate target 0 !! k) eqn:E; [|done]. by apply lookup_replicate in E as [-> _]. }
  destruct (decide (target ≤ 1)%nat).
  { destruct data as [|d data]; [done|]. apply Forall_cons in Hd as [Hd _]. simpl in H.
    destruct (Nat.eqb_spec target 0) as [->|]; [injection H as <- <-; split_and!; try done; [simpl; lia|]|].
    { intros r' ?. by apply encode_zeros. }
    destruct (Nat.eqb_spec target 1) as [->|]; [|lia]. injection H as <- <-.
    destruct (Z.eqb_spec d 0) as [->|]; simpl.
    - split_and!; try done; [by apply Forall_singleton|lia|]. intros r' ?. by apply encode_zeros; [lia|].
    - split_and!; try done; [by apply Forall_singleton|lia| |].
      + by rewrite filter_cons_True.
      + intros [|r'] ?; [lia|]. simpl. by destruct (Z.eqb_spec d 0). }
  rewrite decode_step in H by (done || lia). apply obind_Ok in H as ([bs ptr] & Hp & H).
  destruct (IH _ _ _ _ Hp Hd) as (Hl & Hb & Hptr & Hz & Henc).
  destruct (scatter_sound _ _ _ _ _ _ _ _ H) as (Hlo & _ & Hk & Hle & Hle' & Hnz);
    [done|rewrite length_replicate, Hl; apply bitset_covers|by rewrite drop_0, Nat.sub_0_r, length_replicate|].
  rewrite length_replicate, drop_0 in *. pose proof (bitset_shorter target ltac:(lia)).
  assert (is_bitset bs out) as Hbs by (split_and!; [done|by rewrite Hlo|intros k; apply Hk; lia]).
  assert (Forall is_byte out) as Hout.
  { apply Forall_forall. intros x Hx. destruct (decide (x = 0)) as [->|]; [done|].
    assert (x ∈ nonzero out) as Hin by (by apply list_elem_of_filter).
    rewrite Hnz in Hin. by eapply Forall_forall in Hin; [|apply Forall_take, Forall_drop, Hd]. }
  split_and!; [done|done|destruct Hle'; lia| |].
  - intros Hzo. specialize (Hz (proj2 (nonzero_bitset _ _ Hbs) Hzo)). rewrite Hzo in Hnz.
    apply (f_equal length) in Hnz. rewrite length_take, length_drop in Hnz. simpl in Hnz. destruct Hle'; lia.
  - intros r' Hr'. destruct (decide (nonzero out = [])) as [Hzo|Hzo].
    + specialize (Hz (proj2 (nonzero_bitset _ _ Hbs) Hzo)). rewrite Hzo in Hnz.
      apply (f_equal length) in Hnz. rewrite length_take, length_drop in Hnz. simpl in Hnz.
      rewrite encode_zeros by (done || lia). by replace size with 0%nat by (destruct Hle'; lia).
    + destruct r' as [|r']; [lia|]. rewrite (encode_step _ _ bs), Henc by (done || lia). cbn [obind].
      rewrite Hnz, take_take_drop. do 2 f_equal. lia.
Qed.

Lemma Decompress_same data : DecompressBytes data (length data) = Ok data.
Proof. unfold DecompressBytes. by repeat case_cmp. Qed.

Lemma Decompress_shorter data target :
  (length data < target)%nat → DecompressBytes data target = bitsetDecodeBytes data target.
Proof. intros. unfold DecompressBytes. by repeat case_cmp. Qed.

(** ** Properties *)

(** Compression loses nothing and never enlarges: decompressing what
    CompressBytes returns, with the length of the data as target, gives the data
    back. *)
Theorem Decompress_Compress data :
  ∃ c, CompressBytes data = Ok c ∧ (length c ≤ length data)%nat ∧
    DecompressBytes c (length data) = Ok data.
Proof.
  assert (∃ enc, bitsetEncodeBytes data = Ok enc ∧
    ((length enc < length data)%nat → bitsetDecodeBytes enc (length data) = Ok data)) as (enc & E & Hdec).
  { unfold bitsetEncodeBytes, bitsetDecodeBytes, bitsetDecodePartialBytes.
    destruct (decide (nonzero data = [])) as [Hz|Hnz].
    - exists []. split; [apply encode_zeros; [lia|done]|]. intros Hl. apply nonzero_zeros in Hz.
      cbn [bitsetDecodePartial]. simpl in Hl. case_cmp. simpl. by rewrite <-Hz.
    - destruct (encode_decode data (S (length data)) (S (length data)) []) as (enc & E1 & _ & E2); [lia|lia|done|].
      exists enc. split; [done|]. intros _. rewrite app_nil_r in E2. rewrite E2. simpl.
      by rewrite Nat.eqb_refl. }
  unfold CompressBytes. rewrite E. cbn [obind]. case_cmp; [exists enc|exists data].
  - rewrite Decompress_shorter, Hdec by lia. split_and!; [done|lia|done].
  - rewrite Decompress_same. split_and!; [done|lia|done].
Qed.

(** The bitset format is canonical: whatever bitsetDecodeBytes accepts is
    exactly what bitsetEncodeBytes produces for the result, so no two inputs
    decompress to the same data. *)
Theorem bitsetDecode_canonical data target out :
  Forall is_byte data → bitsetDecodeBytes data target = Ok out →
  length out = target ∧ bitsetEncodeBytes out = Ok data.
Proof.
  unfold bitsetDecodeBytes, bitsetDecodePartialBytes, bitsetEncodeBytes. intros Hd H.
  apply obind_Ok in H as ([out' size] & E & H). destruct (Nat.eqb_spec size (length data)) as [->|]; [|done].
  injection H as ->. destruct (decode_sound _ _ _ _ _ E Hd) as (<- & _ & _ & _ & Henc).
  split; [done|]. rewrite Henc by lia. by rewrite firstn_all.
Qed.

Lemma bitsetDecode_canonical_witness :
  length [0; 0; 9; 0; 0; 0; 0; 0; 0; 7] = 10%nat ∧
  bitsetEncodeBytes [0; 0; 9; 0; 0; 0; 0; 0; 0; 7] = Ok [192; 32; 64; 9; 7].
Proof. apply (bitsetDecode_canonical [192; 32; 64; 9; 7]); [by repeat constructor|vm_compute; reflexivity]. Defined.

Lemma scatter_total n i bs data decomp ptr :
  (i + n = 8 * length bs)%nat →
  (∃ r, scatter_loop n i bs data decomp ptr = Ok r) ∨
  ∃ e, scatter_loop n i bs data decomp ptr = Err e ∧ e ≠ OutOfRounds.
Proof.
  revert i decomp ptr. induction n as [|n IH]; intros i decomp ptr Hn; simpl; [eauto|].
  destruct (lookup_lt_is_Some_2 bs (i / 8)%nat) as [x Hx]; [apply Nat.div_lt_upper_bound; lia|].
  rewrite (index_Some _ _ _ Hx). simpl. destruct (negb _); [|apply IH; lia].
  destruct (Nat.leb_spec (length data) ptr); [right; by eexists|]. destruct (_ <=? i)%nat; [right; by eexists|].
  destruct (lookup_lt_is_Some_2 data ptr) as [b Hb]; [done|]. rewrite (index_Some _ _ _ Hb). simpl.
  destruct (b =? 0); [right; by eexists|]. apply IH. lia.
Qed.

(** Decompression of arbitrary input is total: a result or one of the
    documented errors, never a panic, and the recursion ends within the rounds
    given. *)
Theorem DecompressBytes_total data target :
  (∃ out, DecompressBytes data target = Ok out) ∨
  ∃ e, DecompressBytes data target = Err e ∧ e ≠ OutOfRounds.
Proof.
  assert (∀ r t, (t < r)%nat → (∃ o, bitsetDecodePartial r data t = Ok o) ∨
    ∃ e, bitsetDecodePartial r data t = Err e ∧ e ≠ OutOfRounds) as Hp.
  { intros r. induction r as [|r IH]; intros t Ht; [lia|].
    destruct (decide (2 ≤ t)%nat); [|destruct t as [|[|]]; [simpl; eauto|destruct data; simpl; eauto|lia]].
    destruct (decide (data = [])) as [->|]; [cbn [bitsetDecodePartial]; destruct (t =? 0)%nat; eauto|].
    rewrite decode_step by done. pose proof (bitset_shorter t ltac:(done)).
    destruct (IH ((t + 7) / 8)%nat ltac:(lia)) as [[[bs ptr] ->]|(e & -> & ?)]; [|right; by exists e].
    apply scatter_total. lia. }
  unfold DecompressBytes, bitsetDecodeBytes, bitsetDecodePartialBytes.
  case_cmp; [right; by eexists|]. case_cmp; [eauto|].
  destruct (Hp (S target) target ltac:(lia)) as [[[o z] ->]|(e & -> & ?)]; simpl.
  - destruct (negb _); [right; by eexists|eauto].
  - right. by exists e.
Qed.
End Compress.
