(* ===== verification/TrieEncoding.v ===== *)
(** * Key encodings of the trie (common/trie/encoding.go)

    KEYBYTES, HEX and COMPACT encodings of trie keys and the conversions
    between them.  Functions that index a slice or call [panic] return an
    [outcome]; the error type is a section variable because none of them
    returns an error. *)

From S2P Require Import Prelude.
Local Open Scope Z_scope.

Section Encoding.
Context {E : Type}.

(** hasTerm: [len(s) > 0 && s[len(s)-1] == 16]. *)
Definition hasTerm (s : bytes) : bool :=
  match last s with
  | Some b => b =? 16
  | None => false
  end.

(** The [length]-bounded loop of prefixLen. *)
Fixpoint prefixLen (a b : bytes) : nat :=
  match a, b with
  | x :: a', y :: b' => if x =? y then S (prefixLen a' b') else 0%nat
  | _, _ => 0%nat
  end.

(** decodeNibbles writes one byte per pair of nibbles into [buf] and returns
    the updated buffer.  An odd number of nibbles or a short buffer is an
    index out of range. *)
Fixpoint decodeNibbles (nibbles buf : bytes) : outcome E bytes :=
  match nibbles with
  | [] => Ok buf
  | [_] => Panic
  | hi :: lo :: nibbles' =>
      match buf with
      | [] => Panic
      | _ :: buf' =>
          let* r := decodeNibbles nibbles' buf' in
          Ok (Z.lor (u8 (Z.shiftl hi 4)) lo :: r)
      end
  end.

(** The loop of keybytesToHex: the two nibbles of every byte. *)
Fixpoint nibbles (str : bytes) : bytes :=
  match str with
  | [] => []
  | b :: str' => b / 16 :: b mod 16 :: nibbles str'
  end.

Definition keybytesToHex (str : bytes) : bytes := nibbles str ++ [16].

(** hexToKeybytes: panics on a key of odd length. *)
Definition hexToKeybytes (hex : bytes) : outcome E bytes :=
  let hex := if hasTerm hex then take (length hex - 1) hex else hex in
  if Nat.odd (length hex) then Panic
  else decodeNibbles hex (replicate ((length hex + 1) / 2) 0).

Definition hexToCompact (hex : bytes) : outcome E bytes :=
  let terminator := if hasTerm hex then 1 else 0 in
  let hex := if hasTerm hex then take (length hex - 1) hex else hex in
  let flag := u8 (Z.shiftl terminator 5) in
  let buf := replicate (length hex / 2) 0 in
  if Nat.odd (length hex) then
    let* h0 := hex.[0%nat] in
    let* rest := decodeNibbles (drop 1 hex) buf in
    Ok (Z.lor (Z.lor flag (Z.shiftl 1 4)) h0 :: rest)
  else
    let* rest := decodeNibbles hex buf in
    Ok (flag :: rest).

(** compactToHex: the flags are read from [base[0]], which panics on an empty
    key. *)
Definition compactToHex (compact : bytes) : outcome E bytes :=
  let base := keybytesToHex compact in
  let base := take (length base - 1) base in
  let* b0 := base.[0%nat] in
  let base := if 2 <=? b0 then base ++ [16] else base in
  let chop := (2 - Z.to_nat (Z.land b0 1))%nat in
  Ok (drop chop base).

(** ** Well-formed HEX keys *)

Definition is_nibble (n : Z) : Prop := 0 ≤ n < 16.

#[global] Instance is_nibble_dec n : Decision (is_nibble n).
Proof. unfold is_nibble. apply _. Defined.

(** A HEX key: nibbles, then at most one terminator. *)
Inductive hexkey : bytes → Prop :=
| hexkey_open ns : Forall is_nibble ns → hexkey ns
| hexkey_term ns : Forall is_nibble ns → hexkey (ns ++ [16]).

(** ** Arithmetic of nibbles *)

Lemma nibble_join hi lo :
  is_nibble hi → is_nibble lo → Z.lor (u8 (Z.shiftl hi 4)) lo = hi * 16 + lo.
Proof.
  unfold is_nibble. intros. rewrite wrap_small.
  - rewrite lor_shiftl_add; lia.
  - rewrite Z.shiftl_mul_pow2 by lia. lia.
Qed.

Lemma nibble_split hi lo :
  is_nibble lo → (hi * 16 + lo) / 16 = hi ∧ (hi * 16 + lo) mod 16 = lo.
Proof.
  unfold is_nibble. intros. split.
  - rewrite Z.div_add_l, Z.div_small by lia. lia.
  - rewrite Z.add_comm, Z.mod_add, Z.mod_small by lia. lia.
Qed.

Lemma byte_nibbles b : is_byte b → is_nibble (b / 16) ∧ is_nibble (b mod 16).
Proof.
  unfold is_byte, is_nibble. intros. split.
  - split; [apply Z.div_pos; lia|apply Z.div_lt_upper_bound; lia].
  - apply Z.mod_pos_bound. lia.
Qed.

Lemma nibbles_nibble bs : Forall is_byte bs → Forall is_nibble (nibbles bs).
Proof. induction 1 as [|b bs Hb _ IH]; simpl; [constructor|]. by repeat constructor; try apply byte_nibbles. Qed.

Lemma length_nibbles bs : length (nibbles bs) = (2 * length bs)%nat.
Proof. induction bs as [|b bs IH]; simpl; [done|]. lia. Qed.

Lemma decodeNibbles_nibbles bs buf :
  Forall is_byte bs → length buf = length bs → decodeNibbles (nibbles bs) buf = Ok bs.
Proof.
  intros H. revert buf. induction H as [|b bs Hb _ IH]; intros [|x buf] Hl; simpl in *; try lia; [done|].
  rewrite IH by lia. simpl.
  destruct (byte_nibbles b Hb). rewrite nibble_join by done.
  do 2 f_equal. pose proof (Z.div_mod b 16). lia.
Qed.

(** An even number of nibbles is the nibbles of a byte string. *)
Lemma even_nibbles ns :
  Forall is_nibble ns → Nat.even (length ns) = true →
  ∃ bs, Forall is_byte bs ∧ nibbles bs = ns.
Proof.
  revert ns. fix IH 1. intros [|hi [|lo ns]] H He; simpl in He.
  - by exists [].
  - done.
  - inversion H as [|?? Hhi H']; inversion H' as [|?? Hlo H'']; subst.
    destruct (IH ns H'' He) as (bs & Hbs & <-).
    exists ((hi * 16 + lo) :: bs). split.
    + constructor; [|done]. unfold is_byte, is_nibble in *. lia.
    + simpl. destruct (nibble_split hi lo Hlo) as [-> ->]. done.
Qed.

Lemma hasTerm_term ns : hasTerm (ns ++ [16]) = true.
Proof. unfold hasTerm. by rewrite last_snoc. Qed.

Lemma hasTerm_open ns : Forall is_nibble ns → hasTerm ns = false.
Proof.
  unfold hasTerm. intros H. destruct (last ns) as [b|] eqn:Hl; [|done].
  apply last_Some_elem_of in Hl. rewrite Forall_forall in H. specialize (H _ Hl).
  unfold is_nibble in H. lia.
Qed.

Lemma keybytesToHex_nibbles k : keybytesToHex k = nibbles k ++ [16].
Proof. done. Qed.

Lemma take_term (ns : bytes) : take (length (ns ++ [16]) - 1) (ns ++ [16]) = ns.
Proof. rewrite length_app. simpl. rewrite Nat.add_sub. apply take_app_length. Qed.

(** Dropping the terminator of a HEX key. *)
Lemma strip_term hex ns :
  (hex = ns ∨ hex = ns ++ [16]) → Forall is_nibble ns →
  (if hasTerm hex then take (length hex - 1) hex else hex) = ns.
Proof.
  intros [->| ->] H.
  - by rewrite hasTerm_open.
  - by rewrite hasTerm_term, take_term.
Qed.

(** ** Round trips *)

Lemma hexToKeybytes_even bs hex :
  Forall is_byte bs → (hex = nibbles bs ∨ hex = nibbles bs ++ [16]) →
  hexToKeybytes hex = Ok bs.
Proof.
  intros Hbs Hh. unfold hexToKeybytes. rewrite (strip_term _ (nibbles bs)) by auto using nibbles_nibble.
  rewrite length_nibbles, Nat.odd_even. apply decodeNibbles_nibbles; [done|].
  rewrite length_replicate, Nat.mul_comm, Nat.add_comm, Nat.div_add by lia. done.
Qed.

Lemma half_even n : ((2 * n) / 2 = n)%nat.
Proof. rewrite Nat.mul_comm. apply Nat.div_mul. lia. Qed.

Lemma half_odd n : (S (2 * n) / 2 = n)%nat.
Proof. rewrite <-Nat.add_1_r, Nat.mul_comm, Nat.div_add_l by lia. simpl. lia. Qed.

(** The first byte of a COMPACT key carries the flags. *)
Definition compact_flag (term odd : bool) (n : Z) : Z :=
  (if term then 32 else 0) + (if odd then 16 + n else 0).

Lemma hexToCompact_spec ns hex :
  Forall is_nibble ns → (hex = ns ∨ hex = ns ++ [16]) →
  ∃ n bs, is_nibble n ∧ Forall is_byte bs ∧
    hexToCompact hex = Ok (compact_flag (hasTerm hex) (Nat.odd (length ns)) n :: bs) ∧
    ns = (if Nat.odd (length ns) then n :: nibbles bs else nibbles bs).
Proof.
  intros H Hh. unfold hexToCompact. rewrite (strip_term _ ns) by done.
  destruct (Nat.odd (length ns)) eqn:Hodd.
  - destruct ns as [|n ns]; [done|]. inversion H as [|?? Hn Hns]; subst.
    simpl in Hodd. rewrite Nat.odd_succ in Hodd.
    destruct (even_nibbles ns Hns Hodd) as (bs & Hbs & <-).
    exists n, bs. split_and!; [done..| |done]. cbn [length]. rewrite length_nibbles, half_odd.
    simpl drop. rewrite drop_0. unfold index; simpl lookup. simpl obind.
    rewrite decodeNibbles_nibbles by (done || apply length_replicate). simpl. do 2 f_equal.
    unfold compact_flag. destruct (hasTerm hex); unfold is_nibble in Hn.
    + change (Z.lor _ (Z.shiftl 1 4)) with (Z.shiftl 3 4). rewrite lor_shiftl_add; lia.
    + change (Z.lor _ (Z.shiftl 1 4)) with (Z.shiftl 1 4). rewrite lor_shiftl_add; lia.
  - rewrite <-Nat.negb_even in Hodd. apply negb_false_iff in Hodd.
    destruct (even_nibbles ns H Hodd) as (bs & Hbs & <-).
    exists 0, bs. split_and!; [done..| |done]. rewrite length_nibbles, half_even.
    rewrite decodeNibbles_nibbles by (done || apply length_replicate). simpl. do 2 f_equal.
    unfold compact_flag. by destruct (hasTerm hex).
Qed.

Lemma compactToHex_cons b bs :
  is_byte b →
  compactToHex (b :: bs) =
    Ok ((if Z.land (b / 16) 1 =? 0 then [] else [b mod 16]) ++ nibbles bs
        ++ (if 2 <=? b / 16 then [16] else [])).
Proof.
  intros Hb. unfold compactToHex. rewrite keybytesToHex_nibbles, take_term. simpl.
  destruct (byte_nibbles b Hb) as [H1 _].
  assert (Hl : Z.land (b / 16) 1 = 0 ∨ Z.land (b / 16) 1 = 1).
  { pose proof (Z.land_ones (b / 16) 1 ltac:(lia)) as Hm.
    change (Z.ones 1) with 1 in Hm. change (2 ^ 1) with 2 in Hm. rewrite Hm.
    pose proof (Z.mod_pos_bound (b / 16) 2 ltac:(done)). lia. }
  destruct Hl as [->| ->]; simpl; destruct (2 <=? b / 16); simpl; by rewrite ?app_nil_r.
Qed.

Lemma compact_flag_spec term odd n :
  is_nibble n →
  is_byte (compact_flag term odd n) ∧
  (2 <=? compact_flag term odd n / 16) = term ∧
  (Z.land (compact_flag term odd n / 16) 1 =? 0) = negb odd ∧
  (odd = true → compact_flag term odd n mod 16 = n).
Proof.
  unfold compact_flag, is_nibble, is_byte. intros Hn.
  destruct odd.
  - replace (_ + (16 + n)) with ((if term then 3 else 1) * 16 + n) by (destruct term; lia).
    destruct (nibble_split (if term then 3 else 1) n) as [-> ->]; [done|].
    destruct term; split_and!; try done; lia.
  - rewrite Z.add_0_r. by destruct term.
Qed.

Lemma compactToHex_hexToCompact hex :
  hexkey hex → obind (hexToCompact hex) compactToHex = Ok hex.
Proof.
  intros Hk.
  assert (∃ ns, Forall is_nibble ns ∧ (hex = ns ∨ hex = ns ++ [16])) as (ns & Hns & Hh)
    by (destruct Hk; eauto).
  destruct (hexToCompact_spec ns hex Hns Hh) as (n & bs & Hn & Hbs & -> & Ens). simpl.
  destruct (compact_flag_spec (hasTerm hex) (Nat.odd (length ns)) n Hn) as (Hb & Ht & Ho & Hm).
  rewrite compactToHex_cons, Ht, Ho by done. f_equal.
  assert (hex = ns ++ (if hasTerm hex then [16] else [])) as Eh.
  { destruct Hh as [->| ->]; [rewrite hasTerm_open by done; by rewrite app_nil_r|by rewrite hasTerm_term]. }
  rewrite app_assoc. transitivity (ns ++ (if hasTerm hex then [16] else [])); [|done]. f_equal.
  destruct (Nat.odd (length ns)); simpl; [by rewrite Hm, <-Ens|done].
Qed.

End Encoding.

(** The error type plays no role. *)
Lemma decodeNibbles_any {E1 E2} ns buf r :
  decodeNibbles (E:=E1) ns buf = Ok r → decodeNibbles (E:=E2) ns buf = Ok r.
Proof.
  revert ns buf r. fix IH 1. intros [|hi [|lo ns]] buf r H; [simpl in *; congruence|done|].
  destruct buf as [|b buf]; [done|]. simpl in *. apply obind_Ok in H as (r' & H & [= <-]).
  by rewrite (IH _ _ _ H).
Qed.

Lemma hexToCompact_any {E1 E2} k c :
  hexToCompact (E:=E1) k = Ok c → hexToCompact (E:=E2) k = Ok c.
Proof.
  unfold hexToCompact. set (hex := if hasTerm k then take (length k - 1) k else k).
  destruct (Nat.odd (length hex)).
  - unfold index. destruct (hex !! 0%nat); simpl; [|done].
    intros (r & Hr%(decodeNibbles_any (E2:=E2)) & [= <-])%obind_Ok. by rewrite Hr.
  - intros (r & Hr%(decodeNibbles_any (E2:=E2)) & [= <-])%obind_Ok. by rewrite Hr.
Qed.

(** ** prefixLen *)

Lemma prefixLen_take a b : take (prefixLen a b) a = take (prefixLen a b) b.
Proof.
  revert b; induction a as [|x a IH]; intros [|y b]; simpl; try done.
  destruct (Z.eqb_spec x y) as [->|]; simpl; [by rewrite (IH b)|done].
Qed.

Lemma prefixLen_le a b : (prefixLen a b ≤ length a ∧ prefixLen a b ≤ length b)%nat.
Proof.
  revert b; induction a as [|x a IH]; intros [|y b]; simpl; try lia.
  destruct (x =? y); [|lia]. specialize (IH b). lia.
Qed.

Lemma prefixLen_maximal a b x y :
  a !! prefixLen a b = Some x → b !! prefixLen a b = Some y → x ≠ y.
Proof.
  revert b; induction a as [|x' a IH]; intros [|y' b]; simpl; try done.
  destruct (Z.eqb_spec x' y') as [->|]; simpl; [apply IH|]. by intros [= ->] [= ->].
Qed.

Lemma prefixLen_comm a b : prefixLen a b = prefixLen b a.
Proof.
  revert b; induction a as [|x a IH]; intros [|y b]; simpl; try done.
  rewrite Z.eqb_sym. destruct (y =? x); [by rewrite IH|done].
Qed.

Lemma prefixLen_app a c : prefixLen (a ++ c) a = length a.
Proof. induction a as [|x a IH]; simpl; [by destruct c|]. by rewrite Z.eqb_refl, IH. Qed.

(** [prefixLen] equals the length of [b] exactly when [b] is a prefix. *)
Lemma prefixLen_full a b : prefixLen a b = length b ↔ ∃ c, a = b ++ c.
Proof.
  split.
  - intros H. exists (drop (length b) a). rewrite <-(take_drop (length b) a) at 1. f_equal.
    pose proof (prefixLen_take a b) as Ht. rewrite H in Ht. by rewrite Ht, firstn_all.
  - intros [c ->]. apply prefixLen_app.
Qed.

(** ** Properties *)

(** The conversions between key encodings lose nothing: a key comes
    back from its HEX form, and a HEX key (with or without terminator, of even
    or odd length) from its COMPACT form. *)
Theorem key_encodings_roundtrip k hex :
  Forall is_byte k → hexkey hex →
  hexToKeybytes (E:=unit) (keybytesToHex k) = Ok k ∧
  obind (hexToCompact (E:=unit) hex) compactToHex = Ok hex.
Proof.
  intros Hk Hh. split; [|by apply compactToHex_hexToCompact].
  apply hexToKeybytes_even; [done|]. by right.
Qed.

Lemma key_encodings_roundtrip_witness :
  hexToKeybytes (E:=unit) (keybytesToHex [18; 52]) = Ok [18; 52] ∧
  obind (hexToCompact (E:=unit) ([1; 2; 3] ++ [16])) compactToHex = Ok ([1; 2; 3] ++ [16]).
Proof.
  apply key_encodings_roundtrip; [by repeat constructor|]. apply hexkey_term. by repeat constructor.
Defined.

(** [prefixLen] is the length of the longest common prefix. *)
Theorem prefixLen_longest a b :
  take (prefixLen a b) a = take (prefixLen a b) b ∧
  (prefixLen a b ≤ length a ∧ prefixLen a b ≤ length b)%nat ∧
  (∀ x y, a !! prefixLen a b = Some x → b !! prefixLen a b = Some y → x ≠ y) ∧
  prefixLen a b = prefixLen b a.
Proof.
  split_and!; [apply prefixLen_take|apply prefixLen_le..|apply prefixLen_maximal|apply prefixLen_comm].
Qed.
