(* ===== verification/TrieSpec.v ===== *)
(** * The abstract Merkle Patricia trie

    A trie without caches, hash references or database: what a loaded trie
    stands for.  Keys are HEX keys (nibbles followed by the terminator 16).  The
    operations are those of common/trie/trie.go with everything about loading
    and caching removed; Trie.v shows that the code refines them.  This file
    shows that they implement a finite map and keep the trie in the one minimal
    form its contents have. *)

From S2P Require Import Prelude TrieEncoding.
Local Open Scope Z_scope.

Inductive ptrie :=
| PEmpty
| PLeaf (v : bytes)
| PExt (k : bytes) (t : ptrie)
| PBranch (ts : list ptrie).

Section PtrieInd.
Variable P : ptrie → Prop.
Hypothesis HEmpty : P PEmpty.
Hypothesis HLeaf : ∀ v, P (PLeaf v).
Hypothesis HExt : ∀ k t, P t → P (PExt k t).
Hypothesis HBranch : ∀ ts, Forall P ts → P (PBranch ts).

Fixpoint ptrie_ind' (t : ptrie) : P t :=
  match t with
  | PEmpty => HEmpty
  | PLeaf v => HLeaf v
  | PExt k t => HExt k t (ptrie_ind' t)
  | PBranch ts => HBranch ts ((fix go (ts : list ptrie) : Forall P ts :=
      match ts with
      | [] => Forall_nil_2 _
      | x :: ts' => Forall_cons_2 _ _ _ (ptrie_ind' x) (go ts')
      end) ts)
  end.
End PtrieInd.

Definition empty_children : list ptrie := replicate 17 PEmpty.

Definition nib (x : Z) : nat := Z.to_nat x.

(** [f] at child [i], [d] when there is none. *)
Section AtChild.
Context {A : Type} (f : ptrie → A) (d : A).

Fixpoint at_child (ts : list ptrie) (i : nat) : A :=
  match ts, i with
  | [], _ => d
  | t :: _, O => f t
  | _ :: ts', S i' => at_child ts' i'
  end.

Lemma at_child_lookup ts i : at_child ts i = default d (f <$> ts !! i).
Proof. revert i. induction ts as [|t ts IH]; intros [|i]; simpl; done. Qed.
End AtChild.

(** ** Operations *)

Fixpoint plookup (t : ptrie) (key : bytes) : option bytes :=
  match t with
  | PEmpty => None
  | PLeaf v => match key with [] => Some v | _ => None end
  | PExt k t =>
      if bool_decide (take (length k) key = k) then plookup t (drop (length k) key) else None
  | PBranch ts =>
      match key with
      | [] => None
      | c :: key' => at_child (λ t, plookup t key') None ts (nib c)
      end
  end.

(** An extension unless the key is empty. *)
Definition pext (k : bytes) (t : ptrie) : ptrie :=
  match k with
  | [] => t
  | _ => PExt k t
  end.

(** insert: the short node is branched out where the keys differ. *)
Definition pbranch_out (k : bytes) (t : ptrie) (key : bytes) (v : ptrie) : ptrie :=
  let m := prefixLen key k in
  let branch := PBranch
    (<[nib (default 0 (key !! m)) := pext (drop (S m) key) v]>
      (<[nib (default 0 (k !! m)) := pext (drop (S m) k) t]> empty_children)) in
  pext (take m key) branch.

Fixpoint pinsert (t : ptrie) (key : bytes) (v : ptrie) : ptrie :=
  match key with
  | [] => v
  | c :: key' =>
      match t with
      | PEmpty => PExt key v
      | PLeaf _ => t
      | PExt k t' =>
          if bool_decide (prefixLen key k = length k)
          then PExt k (pinsert t' (drop (length k) key) v)
          else pbranch_out k t' key v
      | PBranch ts => PBranch (alter (λ t', pinsert t' key' v) (nib c) ts)
      end
  end.

(** The loop over the children of a full node: [-1] is [None], [-2] is
    [Some None]. *)
Definition is_empty (t : ptrie) : bool :=
  match t with
  | PEmpty => true
  | _ => false
  end.

Fixpoint single_child (ts : list ptrie) (i : nat) : option (option (nat * ptrie)) :=
  match ts with
  | [] => None
  | t :: ts' =>
      if is_empty t then single_child ts' (S i)
      else match single_child ts' (S i) with
           | None => Some (Some (i, t))
           | Some _ => Some None
           end
  end.

(** A full node that is left with one child becomes a short node. *)
Definition preduce (ts : list ptrie) : ptrie :=
  match single_child ts 0 with
  | Some (Some (i, t)) =>
      match t with
      | PExt k t' => PExt (Z.of_nat i :: k) t'
      | _ => PExt [Z.of_nat i] t
      end
  | _ => PBranch ts
  end.

(** delete reports whether the key was there. *)
Fixpoint pdelete (t : ptrie) (key : bytes) : bool * ptrie :=
  match t with
  | PEmpty => (false, PEmpty)
  | PLeaf _ => (true, PEmpty)
  | PExt k t' =>
      let m := prefixLen key k in
      if (m <? length k)%nat then (false, t)
      else if bool_decide (m = length key) then (true, PEmpty)
      else
        let '(dirty, child) := pdelete t' (drop (length k) key) in
        if dirty then
          (true, match child with
                 | PExt k' t'' => PExt (k ++ k') t''
                 | _ => PExt k child
                 end)
        else (false, t)
  | PBranch ts =>
      match key with
      | [] => (false, t)
      | c :: key' =>
          let '(dirty, child) := at_child (λ t', pdelete t' key') (false, PEmpty) ts (nib c) in
          if dirty then (true, preduce (<[nib c := child]> ts)) else (false, t)
      end
  end.

(** ** Keys and the minimal form *)

Definition is_key (k : bytes) : Prop := ∃ ns, Forall is_nibble ns ∧ k = ns ++ [16].

(** Children that are not empty. *)
Definition occupied (ts : list ptrie) : nat := length (filter (λ t, is_empty t = false) ts).

(** Minimal form of a subtrie that is not empty: short nodes have a key and do
    not follow each other, full nodes have at least two children, values stand
    exactly where a terminator leads. *)
Inductive canon : ptrie → Prop :=
| canon_leaf ns v : Forall is_nibble ns → v ≠ [] → canon (PExt (ns ++ [16]) (PLeaf v))
| canon_ext ns ts : ns ≠ [] → Forall is_nibble ns → canon (PBranch ts) → canon (PExt ns (PBranch ts))
| canon_branch ts tv :
    length ts = 16%nat → Forall (λ t, t = PEmpty ∨ canon t) ts →
    (tv = PEmpty ∨ ∃ v, v ≠ [] ∧ tv = PLeaf v) →
    (2 ≤ occupied (ts ++ [tv]))%nat → canon (PBranch (ts ++ [tv])).

Definition canonical (t : ptrie) : Prop := t = PEmpty ∨ canon t.

(** What may stand at a child position: below nibble [i], or below the
    terminator. *)
Definition canon_at (i : nat) (t : ptrie) : Prop :=
  t = PEmpty ∨ (if (i =? 16)%nat then ∃ v, v ≠ [] ∧ t = PLeaf v else canon t).

Lemma canon_branch_iff ts :
  canon (PBranch ts) ↔
  length ts = 17%nat ∧ (∀ i t, ts !! i = Some t → canon_at i t) ∧ (2 ≤ occupied ts)%nat.
Proof.
  split.
  - inversion 1 as [| |ts' tv Hl Hts Htv Ho]; subst. rewrite length_app. split_and!; [simpl; lia| |done].
    intros i t Hi. unfold canon_at. apply lookup_app_Some in Hi as [Hi|[Hge Hi]].
    + pose proof (lookup_lt_Some _ _ _ Hi). case_cmp. by eapply Forall_lookup_1 in Hts.
    + apply list_lookup_singleton_Some in Hi as [Hi ->]. by case_cmp.
  - intros (Hl & Hc & Ho). destruct ts as [|tv ts' _] using rev_ind; [done|].
    rewrite length_app in Hl. simpl in Hl. apply canon_branch; [lia| | |done].
    + apply Forall_lookup. intros i t Hi. pose proof (lookup_lt_Some _ _ _ Hi).
      specialize (Hc i t). rewrite lookup_app_l in Hc by lia. specialize (Hc Hi). unfold canon_at in Hc.
      revert Hc. by case_cmp.
    + specialize (Hc 16%nat tv). rewrite lookup_app_r in Hc by lia.
      replace (16 - length ts')%nat with 0%nat in Hc by lia. by apply Hc.
Qed.

(** ** The map a trie stands for *)

Lemma plookup_ext k t key : plookup (PExt k t) (k ++ key) = plookup t key.
Proof. simpl. rewrite bool_decide_true by apply take_app_length. by rewrite drop_app_length. Qed.

Lemma plookup_ext_leaf k v : plookup (PExt k (PLeaf v)) k = Some v.
Proof. rewrite <-(app_nil_r k) at 2. by rewrite plookup_ext. Qed.

Lemma plookup_ext_not k t key : (¬ ∃ r, key = k ++ r) → plookup (PExt k t) key = None.
Proof.
  intros H. simpl. rewrite bool_decide_false; [done|]. intros Ht. apply H. exists (drop (length k) key).
  by rewrite <-Ht at 1; rewrite take_drop.
Qed.

Lemma plookup_pext k t key : plookup (pext k t) (k ++ key) = plookup t key.
Proof. destruct k; [done|]. apply plookup_ext. Qed.

Lemma plookup_pext_not k t key : (¬ ∃ r, key = k ++ r) → plookup (pext k t) key = None.
Proof. intros H. destruct k; [by destruct H; exists key|]. by apply plookup_ext_not. Qed.

Lemma plookup_branch ts c key :
  plookup (PBranch ts) (c :: key) = default None ((λ t, plookup t key) <$> ts !! nib c).
Proof. apply at_child_lookup. Qed.

Definition hexdigit (c : Z) : Prop := 0 ≤ c < 17.

Lemma key_hexdigit k : is_key k → Forall hexdigit k.
Proof.
  intros (ns & Hns & ->). apply Forall_app. split; [|by repeat constructor].
  eapply Forall_impl; [exact Hns|]. unfold is_nibble, hexdigit. lia.
Qed.

Lemma nib_inj a b : hexdigit a → hexdigit b → nib a = nib b → a = b.
Proof. unfold hexdigit, nib. lia. Qed.

Lemma nib_lt a : hexdigit a → (nib a < 17)%nat.
Proof. unfold hexdigit, nib. lia. Qed.

Lemma prefixLen_split a b :
  ∃ p a' b', a = p ++ a' ∧ b = p ++ b' ∧ prefixLen a b = length p ∧
    (∀ x y ra rb, a' = x :: ra → b' = y :: rb → x ≠ y).
Proof.
  exists (take (prefixLen a b) a), (drop (prefixLen a b) a), (drop (prefixLen a b) b).
  pose proof (prefixLen_le a b). split_and!; [by rewrite take_drop| |rewrite length_take; lia|].
  - rewrite prefixLen_take. by rewrite take_drop.
  - intros x y ra rb Ha Hb. apply (prefixLen_maximal a b).
    + rewrite <-(Nat.add_0_r (prefixLen a b)), <-lookup_drop, Ha. done.
    + rewrite <-(Nat.add_0_r (prefixLen a b)), <-lookup_drop, Hb. done.
Qed.

(** Where two keys part: neither is a prefix of the other. *)
Definition parts (key k p : bytes) (c d : Z) (rk r : bytes) : Prop :=
  key = p ++ c :: rk ∧ k = p ++ d :: r ∧ c ≠ d.

Lemma parts_branch_out key k p c d rk r t v :
  parts key k p c d rk r →
  pbranch_out k t key v =
    pext p (PBranch (<[nib c := pext rk v]> (<[nib d := pext r t]> empty_children))).
Proof.
  intros (-> & -> & Hcd). unfold pbranch_out.
  assert (prefixLen (p ++ c :: rk) (p ++ d :: r) = length p) as ->.
  { induction p as [|x p IH]; simpl; [by rewrite (proj2 (Z.eqb_neq _ _) Hcd)|]. by rewrite Z.eqb_refl, IH. }
  rewrite !lookup_app_r, !Nat.sub_diag, take_app_length by lia. simpl.
  assert (∀ x l, drop (S (length p)) (p ++ x :: l) = l) as Hd.
  { intros x l. rewrite <-Nat.add_1_r, <-drop_drop, drop_app_length. done. }
  by rewrite !Hd.
Qed.

Lemma lookup_two (c d : Z) (tc td : ptrie) (e : Z) :
  hexdigit c → hexdigit d → c ≠ d → hexdigit e →
  <[nib c := tc]> (<[nib d := td]> empty_children) !! nib e =
    Some (if decide (e = c) then tc else if decide (e = d) then td else PEmpty).
Proof.
  intros Hc Hd Hcd He. pose proof (nib_lt c Hc). pose proof (nib_lt d Hd). pose proof (nib_lt e He).
  destruct (decide (e = c)) as [->|].
  - rewrite list_lookup_insert_eq; [done|]. by rewrite length_insert.
  - rewrite list_lookup_insert_ne by (intros E; by apply nib_inj in E; [|done..]).
    destruct (decide (e = d)) as [->|].
    + by rewrite list_lookup_insert_eq.
    + rewrite list_lookup_insert_ne by (intros E; by apply nib_inj in E; [|done..]).
      by apply lookup_replicate_2.
Qed.

(** ** Keys *)

Lemma is_key_cons c r :
  is_key (c :: r) ↔ (is_nibble c ∧ is_key r) ∨ (c = 16 ∧ r = []).
Proof.
  split.
  - intros ([|n ns] & Hns & E); simplify_eq/=; [by right|]. apply Forall_cons in Hns as [? ?].
    left. split; [done|]. by exists ns.
  - intros [(Hc & ns & Hns & ->)|[-> ->]]; [exists (c :: ns)|exists []]; (split; [|done]); by constructor.
Qed.

Lemma is_key_app p s :
  is_key (p ++ s) → s ≠ [] → Forall is_nibble p ∧ is_key s.
Proof.
  induction p as [|c p IH]; simpl; [done|]. intros Hk Hs.
  apply is_key_cons in Hk as [[Hc Hk]|[-> E]].
  - destruct (IH Hk Hs). by split; [constructor|].
  - by apply app_eq_nil in E as [_ ?].
Qed.

Lemma is_key_nibbles ns k : Forall is_nibble ns → is_key k → is_key (ns ++ k).
Proof. intros Hns (ms & ? & ->). exists (ns ++ ms). rewrite <-app_assoc. split; [by apply Forall_app|done]. Qed.

Lemma is_key_nonempty k : is_key k → k ≠ [].
Proof. intros (ns & _ & ->). by destruct ns. Qed.

(** No key is a proper prefix of another, or of a run of nibbles. *)
Lemma key_not_prefix key r : is_key key → is_key (key ++ r) → r = [].
Proof.
  intros (ns & Hns & ->). destruct r as [|c r]; [done|]. intros H. exfalso.
  apply is_key_app in H as [H _]; [|done]. apply Forall_app in H as [_ H].
  rewrite Forall_singleton in H. unfold is_nibble in H. lia.
Qed.

Lemma key_not_nibbles key r : is_key key → ¬ Forall is_nibble (key ++ r).
Proof.
  intros (ns & Hns & ->) H. rewrite Forall_app, Forall_app, Forall_singleton in H.
  destruct H as [[_ H] _]. unfold is_nibble in H. lia.
Qed.

Lemma is_key_hexdigit p c r : is_key (p ++ c :: r) → hexdigit c.
Proof.
  intros H. apply is_key_app in H as [_ H]; [|done].
  apply is_key_cons in H as [[H _]|[-> _]]; unfold is_nibble, hexdigit in *; lia.
Qed.

Lemma is_nibble_hexdigit c : is_nibble c → hexdigit c.
Proof. unfold is_nibble, hexdigit. lia. Qed.

Lemma canon_ext_inv k t :
  canon (PExt k t) →
  (∃ v, t = PLeaf v ∧ v ≠ [] ∧ is_key k) ∨
  (∃ ts, t = PBranch ts ∧ canon t ∧ k ≠ [] ∧ Forall is_nibble k).
Proof. inversion 1; subst; [left; eexists; split_and!; [done..|by eexists]|right; eauto]. Qed.

(** A key meets a short node: it runs through it, or they part. *)
Lemma ext_cases k t key :
  canon (PExt k t) → is_key key →
  (∃ v, t = PLeaf v ∧ v ≠ [] ∧ key = k ∧ is_key k) ∨
  (∃ ts r, t = PBranch ts ∧ canon t ∧ key = k ++ r ∧ is_key r ∧ k ≠ [] ∧ Forall is_nibble k) ∨
  (∃ p c d rk r, parts key k p c d rk r ∧ Forall is_nibble p ∧ hexdigit c ∧ hexdigit d).
Proof.
  intros Hc%canon_ext_inv Hk. destruct (prefixLen_split key k) as (p & a & b & -> & -> & _ & Hne).
  destruct b as [|y b]; [|destruct a as [|x a]].
  - rewrite app_nil_r in *. destruct Hc as [(v & ? & ? & Hp)|(ts & ? & ? & ? & Hp)].
    + left. exists v. assert (a = []) as ->; [by apply (key_not_prefix p)|]. by rewrite app_nil_r.
    + right; left. exists ts, a. split_and!; try done.
      destruct a as [|x a]; [|by eapply is_key_app].
      exfalso. rewrite app_nil_r in Hk. eapply (key_not_nibbles p []); [done|by rewrite app_nil_r].
  - exfalso. rewrite app_nil_r in Hk. destruct Hc as [(v & ? & ? & Hp)|(ts & ? & ? & ? & Hp)].
    + by apply key_not_prefix in Hp.
    + by eapply key_not_nibbles.
  - right; right. exists p, x, y, a, b. split; [split_and!; [done..|by eapply Hne]|].
    split_and!; [by eapply is_key_app|by eapply is_key_hexdigit|].
    destruct Hc as [(v & ? & ? & Hp)|(ts & ? & ? & ? & Hp)]; [by eapply is_key_hexdigit|].
    apply is_nibble_hexdigit. apply Forall_app in Hp as [_ Hp]. by inversion Hp.
Qed.

(** ** Insertion *)

Lemma pinsert_ext k t key v :
  key ≠ [] →
  pinsert (PExt k t) key v =
    if bool_decide (prefixLen key k = length k)
    then PExt k (pinsert t (drop (length k) key) v) else pbranch_out k t key v.
Proof. by destruct key. Qed.

Lemma pinsert_parts key k p c d rk r t v :
  parts key k p c d rk r →
  pinsert (PExt k t) key v =
    pext p (PBranch (<[nib c := pext rk v]> (<[nib d := pext r t]> empty_children))).
Proof.
  intros Hp. rewrite <-(parts_branch_out key k p c d rk r t v) by done.
  destruct Hp as (-> & -> & Hcd). rewrite pinsert_ext by (by destruct p).
  rewrite bool_decide_false; [done|]. intros [l E]%prefixLen_full.
  rewrite <-app_assoc in E. by simplify_list_eq.
Qed.

Lemma pinsert_through k t r v :
  k ≠ [] → pinsert (PExt k t) (k ++ r) v = PExt k (pinsert t r v).
Proof.
  intros Hne. rewrite pinsert_ext by (by destruct k).
  rewrite bool_decide_true by apply prefixLen_app. by rewrite drop_app_length.
Qed.

(** What stands at the end of a key of a subtrie: nothing but a value. *)
Lemma plookup_insert_parts key k p c d rk r t v key' :
  parts key k p c d rk r → Forall is_nibble p → hexdigit c → hexdigit d →
  is_key key → is_key key' →
  plookup (pinsert (PExt k t) key (PLeaf v)) key' =
    if decide (key' = key) then Some v else plookup (PExt k t) key'.
Proof.
  intros Hp Hnp Hc Hd Hk Hk'. rewrite (pinsert_parts key k p c d rk r) by done.
  destruct Hp as (-> & -> & Hcd).
  destruct (decide (p `prefix_of` key')) as [[s ->]|Hs].
  2: { rewrite plookup_pext_not by done. rewrite decide_False by (intros ->; destruct Hs; by eexists).
       symmetry. apply plookup_ext_not. intros [l ->]. destruct Hs. rewrite <-app_assoc. by eexists. }
  rewrite plookup_pext. destruct s as [|e s].
  { exfalso. rewrite app_nil_r in Hk'. eapply (key_not_nibbles p []); [done|by rewrite app_nil_r]. }
  apply is_key_hexdigit in Hk' as He. apply is_key_app in Hk as [_ Hk]; [|done].
  rewrite plookup_branch, lookup_two by done. cbn [from_option fmap option_fmap option_map id].
  destruct (decide (e = c)) as [->|Hec].
  - destruct (decide (s = rk)) as [->|Hs].
    + rewrite decide_True by done. rewrite <-(app_nil_r rk) at 2. by rewrite plookup_pext.
    + rewrite decide_False by (intros E; by simplify_list_eq).
      rewrite plookup_ext_not by (intros [l E]; rewrite <-app_assoc in E; by simplify_list_eq).
      apply is_key_app in Hk' as [_ Hk']; [|done].
      apply is_key_cons in Hk as [[Hc' Hk]|[-> ->]], Hk' as [[Hc'' Hk']|[E ->]]; try done.
      * apply plookup_pext_not. intros [l ->]. apply Hs.
        apply key_not_prefix in Hk' as ->; [by rewrite app_nil_r|done].
      * subst. unfold is_nibble in *. lia.
      * unfold is_nibble in *. lia.
  - rewrite (decide_False (P := p ++ e :: s = p ++ c :: rk)) by (intros E; apply app_inv_head in E; congruence).
    destruct (decide (e = d)) as [->|Hed].
    + destruct (decide (r `prefix_of` s)) as [[l ->]|Hn].
      * rewrite plookup_pext. change (p ++ d :: r ++ l) with (p ++ (d :: r) ++ l).
        by rewrite app_assoc, plookup_ext.
      * rewrite plookup_pext_not by done. symmetry. apply plookup_ext_not. intros [l E].
        rewrite <-app_assoc in E. simplify_list_eq. apply Hn. by eexists.
    + simpl. symmetry. apply plookup_ext_not. intros [l E]. rewrite <-app_assoc in E. by simplify_list_eq.
Qed.

Lemma plookup_insert_canon t key key' v :
  canonical t → is_key key → is_key key' →
  plookup (pinsert t key (PLeaf v)) key' = if decide (key' = key) then Some v else plookup t key'.
Proof.
  revert key key'. induction t as [|v'|k t IH|ts IH] using ptrie_ind'; intros key key' Ht Hk Hk'.
  - destruct key as [|x key]; [by apply is_key_nonempty in Hk|]. simpl pinsert.
    destruct (decide (key' = x :: key)) as [->|].
    + by rewrite plookup_ext_leaf.
    + rewrite plookup_ext_not; [done|]. intros [l ->].
      apply key_not_prefix in Hk' as ->; [|done]. by rewrite app_nil_r in *.
  - destruct Ht as [Ht|Ht]; inversion Ht.
  - destruct Ht as [Ht|Ht]; [done|].
    destruct (ext_cases k t key Ht Hk) as [(v' & -> & _ & -> & Hk1)|[(ts & r & -> & Hts & -> & Hr & Hne & Hn)|
      (p & c & d & rk & r & Hp & Hnp & Hc & Hd)]].
    + rewrite <-(app_nil_r k) at 2. rewrite pinsert_through by (by apply is_key_nonempty). simpl pinsert.
      destruct (decide (key' = k)) as [->|].
      * by rewrite plookup_ext_leaf.
      * assert (¬ ∃ r, key' = k ++ r) as Hno.
        { intros [l ->]. apply key_not_prefix in Hk' as ->; [|done]. by rewrite app_nil_r in *. }
        by rewrite !plookup_ext_not.
    + rewrite pinsert_through by done. destruct (decide (k `prefix_of` key')) as [[l ->]|Hno].
      * rewrite !plookup_ext, IH; [|by right|done|].
        -- destruct (decide (l = r)) as [->|]; [by rewrite decide_True|].
           rewrite decide_False; [done|]. intros E. by simplify_list_eq.
        -- destruct l; [|by eapply is_key_app]. exfalso. rewrite app_nil_r in Hk'.
           eapply (key_not_nibbles k []); [done|by rewrite app_nil_r].
      * rewrite !plookup_ext_not by done. rewrite decide_False; [done|]. intros ->. apply Hno. by eexists.
    + by eapply plookup_insert_parts.
  - destruct Ht as [Ht|Ht]; [done|]. apply canon_branch_iff in Ht as (Hl & Hc & _).
    destruct key as [|x key]; [by apply is_key_nonempty in Hk|].
    destruct key' as [|y key']; [by apply is_key_nonempty in Hk'|]. simpl pinsert. rewrite !plookup_branch.
    pose proof (is_key_hexdigit [] x key Hk) as Hx. pose proof (is_key_hexdigit [] y key' Hk') as Hy.
    destruct (decide (x = y)) as [->|Hne].
    2: { rewrite list_lookup_alter_ne by (intros E; by apply nib_inj in E).
         rewrite decide_False; [done|]. congruence. }
    rewrite list_lookup_alter, decide_True by done. destruct (lookup_lt_is_Some_2 ts (nib y)) as [ty Ety]; [rewrite Hl; by apply nib_lt|].
    rewrite Ety. simpl. specialize (Hc _ _ Ety). unfold canon_at in Hc.
    pose proof (Forall_lookup_1 _ _ _ _ IH Ety) as IHy. simpl in IHy.
    apply is_key_cons in Hk as [[Hny Hk]|[-> ->]], Hk' as [[Hny' Hk']|[E ->]]; try (unfold is_nibble in *; lia).
    + rewrite IHy; [|destruct Hc as [?|Hc]; [by left|right]|done|done].
      * destruct (decide (key' = key)) as [->|]; [by rewrite decide_True|]. by rewrite decide_False by congruence.
      * revert Hc. unfold nib, is_nibble in *. by case_cmp.
    + rewrite decide_True by done. by destruct ty.
Qed.

(** ** Insertion keeps the minimal form *)

Lemma occupied_cons t ts :
  occupied (t :: ts) = ((if is_empty t then 0 else 1) + occupied ts)%nat.
Proof.
  unfold occupied. destruct (is_empty t) eqn:E.
  - by rewrite filter_cons_False by congruence.
  - by rewrite filter_cons_True.
Qed.

Lemma occupied_one ts : (1 ≤ occupied ts)%nat ↔ ∃ i t, ts !! i = Some t ∧ is_empty t = false.
Proof.
  induction ts as [|t ts IH]; [split; [unfold occupied; simpl; lia|naive_solver]|].
  rewrite occupied_cons. destruct (is_empty t) eqn:E; simpl.
  - rewrite IH. split.
    + intros (i & u & ? & ?). by exists (S i), u.
    + intros ([|i] & u & Hu & ?); simplify_eq/=; [congruence|]. by exists i, u.
  - split; [|lia]. intros _. by exists 0%nat, t.
Qed.

(** A full node has two children when two positions are taken. *)
Lemma occupied_two ts :
  (2 ≤ occupied ts)%nat ↔ ∃ i j t u, i ≠ j ∧ ts !! i = Some t ∧ ts !! j = Some u ∧
    is_empty t = false ∧ is_empty u = false.
Proof.
  induction ts as [|t ts IH]; [split; [unfold occupied; simpl; lia|naive_solver]|].
  rewrite occupied_cons. destruct (is_empty t) eqn:E; simpl.
  - rewrite IH. split.
    + intros (i & j & u & w & ? & ? & ? & ? & ?). exists (S i), (S j), u, w. split_and!; [lia|done..].
    + intros ([|i] & [|j] & u & w & ? & Hu & Hw & ? & ?); simplify_eq/=; try congruence.
      exists i, j, u, w. split_and!; [lia|done..].
  - rewrite <-Nat.succ_le_mono, occupied_one. split.
    + intros (i & u & ? & ?). exists 0%nat, (S i), t, u. by split_and!.
    + intros ([|i] & [|j] & u & w & ? & Hu & Hw & ? & ?); simplify_eq/=; eauto.
Qed.

Lemma canon_nonempty t : canon t → is_empty t = false.
Proof. by destruct 1. Qed.

Lemma canon_at_pext c r t :
  canon (PExt (c :: r) t) → hexdigit c ∧ canon_at (nib c) (pext r t) ∧ is_empty (pext r t) = false.
Proof.
  intros [(v & -> & Hv & Hk)|(ts & -> & Hts & _ & Hn)]%canon_ext_inv; unfold canon_at, hexdigit, nib.
  - apply is_key_cons in Hk as [[Hc (ns & Hns & ->)]|[-> ->]]; simpl.
    + unfold is_nibble in Hc. case_cmp. split_and!; [lia|lia| |by destruct ns]. right.
      assert (pext (ns ++ [16]) (PLeaf v) = PExt (ns ++ [16]) (PLeaf v)) as -> by (by destruct ns).
      by apply canon_leaf.
    + split_and!; [lia|lia|right; eauto|done].
  - apply Forall_cons in Hn as [Hc Hn]. unfold is_nibble in Hc. case_cmp.
    split_and!; [lia|lia| |by destruct r]. right. destruct r; [done|]. by apply canon_ext.
Qed.

Lemma canon_pext p ts : Forall is_nibble p → canon (PBranch ts) → canon (pext p (PBranch ts)).
Proof. intros Hp Hts. destruct p; [done|]. by apply canon_ext. Qed.

Lemma canon_key_ext key v : is_key key → v ≠ [] → canon (PExt key (PLeaf v)).
Proof. intros (ns & ? & ->) ?. by apply canon_leaf. Qed.

(** The rest of a short node once a common prefix is split off. *)
Lemma canon_ext_drop p d r t : canon (PExt (p ++ d :: r) t) → canon (PExt (d :: r) t).
Proof.
  intros [(v & -> & Hv & Hk)|(ts & -> & Hts & _ & Hn)]%canon_ext_inv.
  - apply canon_key_ext; [|done]. by eapply is_key_app.
  - apply Forall_app in Hn as [_ Hn]. by apply canon_ext.
Qed.

Lemma canon_two p c d tc td :
  Forall is_nibble p → hexdigit c → hexdigit d → c ≠ d →
  canon_at (nib c) tc → is_empty tc = false → canon_at (nib d) td → is_empty td = false →
  canon (pext p (PBranch (<[nib c := tc]> (<[nib d := td]> empty_children)))).
Proof.
  intros Hp Hc Hd Hcd Htc Hec Htd Hed. apply canon_pext; [done|]. apply canon_branch_iff.
  rewrite !length_insert. split_and!; [done| |].
  - intros i t Hi. pose proof (lookup_lt_Some _ _ _ Hi) as Hlt. rewrite !length_insert in Hlt.
    change (length empty_children) with 17%nat in Hlt.
    assert (nib (Z.of_nat i) = i) as Ei by (unfold nib; lia). rewrite <-Ei in Hi |- *.
    rewrite lookup_two in Hi by (done || unfold hexdigit; lia). injection Hi as <-.
    destruct (decide (Z.of_nat i = c)) as [->|]; [done|].
    destruct (decide (Z.of_nat i = d)) as [->|]; [done|by left].
  - apply occupied_two. exists (nib c), (nib d), tc, td.
    rewrite !lookup_two by done. rewrite decide_True, (decide_False (P := d = c)), decide_True by done.
    split_and!; try done. intros E. by apply nib_inj in E.
Qed.

Lemma occupied_insert ts i t :
  (i < length ts)%nat → is_empty t = false → (2 ≤ occupied ts)%nat → (2 ≤ occupied (<[i:=t]> ts))%nat.
Proof.
  intros Hi Ht. rewrite !occupied_two. intros (a & b & u & w & Hab & Ha & Hb & Hu & Hw).
  destruct (decide (i = a)) as [->|].
  - exists a, b, t, w. split_and!; try done; [by rewrite list_lookup_insert_eq|by rewrite list_lookup_insert_ne].
  - destruct (decide (i = b)) as [->|].
    + exists a, b, u, t. split_and!; try done; [by rewrite list_lookup_insert_ne|by rewrite list_lookup_insert_eq].
    + exists a, b, u, w. split_and!; try done; by rewrite list_lookup_insert_ne.
Qed.

Lemma canon_branch_insert ts i t :
  canon (PBranch ts) → (i < 17)%nat → canon_at i t → is_empty t = false → canon (PBranch (<[i:=t]> ts)).
Proof.
  intros (Hl & Hc & Ho)%canon_branch_iff Hi Ht He. apply canon_branch_iff. rewrite length_insert.
  split_and!; [done| |by apply occupied_insert; [rewrite Hl|..]].
  intros j u [[-> [-> _]]|[? Hj]]%list_lookup_insert_Some; [done|by apply Hc].
Qed.

Lemma canon_at_nib c r t : is_key (c :: r) → canon_at (nib c) t →
  (is_nibble c ∧ is_key r ∧ canonical t) ∨ (c = 16 ∧ r = [] ∧ (t = PEmpty ∨ ∃ v, v ≠ [] ∧ t = PLeaf v)).
Proof.
  intros [[Hc Hr]|[-> ->]]%is_key_cons Ht; [left|by right]. split_and!; [done..|].
  unfold canon_at, canonical in *. revert Ht. unfold nib, is_nibble in *. by case_cmp.
Qed.

Lemma pinsert_canon t key v : canonical t → is_key key → v ≠ [] → canon (pinsert t key (PLeaf v)).
Proof.
  revert key. induction t as [|v'|k t IH|ts IH] using ptrie_ind'; intros key Ht Hk Hv.
  - destruct key as [|x key]; [by apply is_key_nonempty in Hk|]. by apply canon_key_ext.
  - destruct Ht as [Ht|Ht]; inversion Ht.
  - destruct Ht as [Ht|Ht]; [done|].
    destruct (ext_cases k t key Ht Hk) as [(v' & -> & _ & -> & Hk1)|[(ts & r & -> & Hts & -> & Hr & Hne & Hn)|
      (p & c & d & rk & r & Hp & Hnp & Hc & Hd)]].
    + rewrite <-(app_nil_r k) at 2. rewrite pinsert_through by (by apply is_key_nonempty). by apply canon_key_ext.
    + rewrite pinsert_through by done. specialize (IH r (or_intror Hts) Hr Hv).
      destruct r as [|x r]; [by apply is_key_nonempty in Hr|]. by apply canon_ext.
    + rewrite (pinsert_parts key k p c d rk r) by done. destruct Hp as (-> & -> & Hcd).
      apply is_key_app in Hk as [_ Hk]; [|done].
      destruct (canon_at_pext c rk (PLeaf v)) as (_ & ? & ?); [by apply canon_key_ext|].
      destruct (canon_at_pext d r t) as (_ & ? & ?); [by eapply canon_ext_drop|].
      by apply canon_two.
  - destruct Ht as [Ht|Ht]; [done|]. pose proof Ht as (Hl & Hc & _)%canon_branch_iff.
    destruct key as [|x key]; [by apply is_key_nonempty in Hk|]. simpl.
    pose proof (nib_lt x (is_key_hexdigit [] x key Hk)) as Hx.
    destruct (lookup_lt_is_Some_2 ts (nib x)) as [tx Etx]; [by rewrite Hl|].
    rewrite (list_alter_insert _ _ _ _ Etx). specialize (Hc _ _ Etx) as Hcx.
    pose proof (Forall_lookup_1 _ _ _ _ IH Etx) as IHx. simpl in IHx.
    destruct (canon_at_nib x key tx Hk Hcx) as [(Hnx & Hk' & Htx)|(-> & -> & Htx)].
    + specialize (IHx key Htx Hk' Hv). apply canon_branch_insert; try done; [|by apply canon_nonempty].
      right. unfold nib, is_nibble in *. by case_cmp.
    + assert (pinsert tx [] (PLeaf v) = PLeaf v) as -> by (by destruct tx).
      apply canon_branch_insert; try done. right. simpl. eauto.
Qed.

(** ** Deletion *)

Lemma single_child_None ts i : single_child ts i = None ↔ occupied ts = 0%nat.
Proof.
  revert i. induction ts as [|t ts IH]; intros i; [done|]. rewrite occupied_cons. simpl.
  destruct (is_empty t); simpl; [apply IH|]. by destruct (single_child ts (S i)).
Qed.

Lemma single_child_many ts i : single_child ts i = Some None ↔ (2 ≤ occupied ts)%nat.
Proof.
  revert i. induction ts as [|t ts IH]; intros i; [split; [done|unfold occupied; simpl; lia]|].
  rewrite occupied_cons. simpl. destruct (is_empty t); simpl; [apply IH|].
  pose proof (single_child_None ts (S i)) as HN. destruct (single_child ts (S i)) as [o|].
  - split; [|done]. intros _. assert (occupied ts ≠ 0%nat) by (intros E; by apply HN in E). lia.
  - destruct HN as [HN _]. specialize (HN eq_refl). split; [done|lia].
Qed.

Lemma single_child_one ts i j t :
  single_child ts i = Some (Some (j, t)) →
  ∃ k, j = (i + k)%nat ∧ ts !! k = Some t ∧ is_empty t = false ∧
    ∀ k' u, ts !! k' = Some u → k' ≠ k → u = PEmpty.
Proof.
  revert i. induction ts as [|u ts IH]; intros i H; [done|]. simpl in H.
  destruct (is_empty u) eqn:Eu.
  - destruct (IH _ H) as (k & -> & Hk & Ht & Hu). exists (S k). split_and!; [lia|done|done|].
    intros [|k'] w Hw Hne; simplify_eq/=; [by destruct w|]. apply (Hu k'); [done|lia].
  - destruct (single_child ts (S i)) as [o|] eqn:Eo; [done|]. injection H as <- <-.
    exists 0%nat. split_and!; [lia|done|done|]. intros [|k'] w Hw Hne; [done|]. simpl in Hw.
    apply single_child_None in Eo. destruct (is_empty w) eqn:Ew; [by destruct w|].
    assert (1 ≤ occupied ts)%nat; [|lia]. apply occupied_one. eauto.
Qed.

Lemma plookup_pext_ext k t key : plookup (pext k t) key = plookup (PExt k t) key.
Proof. destruct k; [|done]. symmetry. apply (plookup_ext [] t key). Qed.

(** Joining keys of short nodes that follow each other. *)
Lemma plookup_ext_ext k k' t key : plookup (PExt (k ++ k') t) key = plookup (PExt k (PExt k' t)) key.
Proof.
  destruct (decide (k `prefix_of` key)) as [[r ->]|Hno].
  - rewrite plookup_ext. destruct (decide (k' `prefix_of` r)) as [[r' ->]|Hno].
    + by rewrite app_assoc, !plookup_ext.
    + rewrite !plookup_ext_not; [done|done|]. intros [l E]. rewrite <-app_assoc in E. simplify_list_eq.
      apply Hno. by eexists.
  - rewrite !plookup_ext_not; [done|done|]. intros [l ->]. apply Hno. rewrite <-app_assoc. by eexists.
Qed.

Lemma canon_ext_join k k' t : Forall is_nibble k → canon (PExt k' t) → canon (PExt (k ++ k') t).
Proof.
  intros Hk [(v & -> & Hv & Hk')|(ts & -> & Hts & Hne & Hn)]%canon_ext_inv.
  - apply canon_key_ext; [by apply is_key_nibbles|done].
  - apply canon_ext; [by destruct k|by apply Forall_app|done].
Qed.

(** A short node with key [k] put above a subtrie. *)
Definition pabove (k : bytes) (t : ptrie) : ptrie :=
  match t with
  | PExt k' t' => PExt (k ++ k') t'
  | _ => PExt k t
  end.

Lemma plookup_pabove k t key : plookup (pabove k t) key = plookup (PExt k t) key.
Proof. destruct t; [done|done|apply plookup_ext_ext|done]. Qed.

Lemma canon_pabove k t : Forall is_nibble k → k ≠ [] → canon t → canon (pabove k t).
Proof.
  intros Hk Hne Ht. destruct t as [| |k' t|ts]; [inversion Ht|inversion Ht|by apply canon_ext_join|by apply canon_ext].
Qed.

Lemma preduce_spec ts :
  length ts = 17%nat → (∀ i t, ts !! i = Some t → canon_at i t) → (1 ≤ occupied ts)%nat →
  canon (preduce ts) ∧ ∀ key, is_key key → plookup (preduce ts) key = plookup (PBranch ts) key.
Proof.
  intros Hl Hc Ho. unfold preduce. destruct (single_child ts 0) as [[[i t]|]|] eqn:E.
  - apply single_child_one in E as (k & -> & Hk & Ht & Hu). rewrite Nat.add_0_l.
    change (match t with PExt k0 t' => PExt (Z.of_nat k :: k0) t' | _ => PExt [Z.of_nat k] t end)
      with (pabove [Z.of_nat k] t). pose proof (lookup_lt_Some _ _ _ Hk). specialize (Hc k t Hk). split.
    + destruct Hc as [->|Hc]; [done|]. destruct (Nat.eqb_spec k 16) as [E16|].
      * subst k. destruct Hc as (v & ? & ->). by apply (canon_leaf []).
      * apply canon_pabove; [|done..]. apply Forall_singleton. unfold is_nibble. lia.
    + intros [|x key] Hkey; [by apply is_key_nonempty in Hkey|].
      pose proof (is_key_hexdigit [] x key Hkey) as Hx. rewrite plookup_pabove, plookup_branch.
      destruct (decide (x = Z.of_nat k)) as [->|Hne].
      * change (Z.of_nat k :: key) with ([Z.of_nat k] ++ key). rewrite plookup_ext.
        unfold nib. rewrite Nat2Z.id, Hk. done.
      * rewrite plookup_ext_not by (intros [l El]; by simplify_eq/=).
        destruct (lookup_lt_is_Some_2 ts (nib x)) as [u Eu]; [rewrite Hl; by apply nib_lt|].
        rewrite Eu. simpl. rewrite (Hu _ _ Eu); [done|]. unfold nib, hexdigit in *. lia.
  - apply single_child_many in E. split; [|done]. by apply canon_branch_iff.
  - apply single_child_None in E. lia.
Qed.

Lemma pdelete_ext k t key :
  pdelete (PExt k t) key =
    if (prefixLen key k <? length k)%nat then (false, PExt k t)
    else if bool_decide (prefixLen key k = length key) then (true, PEmpty)
    else let '(dirty, child) := pdelete t (drop (length k) key) in
         if dirty then (true, pabove k child) else (false, PExt k t).
Proof. done. Qed.

Lemma pdelete_branch ts c key t :
  ts !! nib c = Some t →
  pdelete (PBranch ts) (c :: key) =
    let '(dirty, child) := pdelete t key in
    if dirty then (true, preduce (<[nib c := child]> ts)) else (false, PBranch ts).
Proof. intros H. simpl. rewrite at_child_lookup, H. done. Qed.

Lemma parts_short key k p c d rk r : parts key k p c d rk r → (prefixLen key k < length k)%nat.
Proof.
  intros (-> & -> & Hcd). pose proof (prefixLen_le (p ++ c :: rk) (p ++ d :: r)).
  assert (prefixLen (p ++ c :: rk) (p ++ d :: r) ≠ length (p ++ d :: r)); [|lia].
  intros [l E]%prefixLen_full. rewrite <-app_assoc in E. by simplify_list_eq.
Qed.

Lemma occupied_other ts i t :
  (2 ≤ occupied ts)%nat → (1 ≤ occupied (<[i:=t]> ts))%nat.
Proof.
  rewrite occupied_two, occupied_one. intros (a & b & u & w & Hab & Ha & Hb & Hu & Hw).
  destruct (decide (i = a)) as [->|].
  - exists b, w. by rewrite list_lookup_insert_ne.
  - exists a, u. by rewrite list_lookup_insert_ne.
Qed.

(** What deletion does, on every subtrie in minimal form. *)
Definition delete_ok (t : ptrie) (key : bytes) : Prop :=
  let '(dirty, t') := pdelete t key in
  (dirty = false → t' = t) ∧ (dirty = true ↔ is_Some (plookup t key)) ∧
  (match t with PBranch _ => canon t' | _ => canonical t' end) ∧
  ∀ key', is_key key' → plookup t' key' = if decide (key' = key) then None else plookup t key'.

Lemma pdelete_ok t key : canonical t → is_key key → delete_ok t key.
Proof.
  revert key. induction t as [|v'|k t IH|ts IH] using ptrie_ind'; intros key Ht Hk; unfold delete_ok.
  - simpl. split_and!; [done|by split; [|intros []]|by left|intros; by case_decide].
  - destruct Ht as [Ht|Ht]; inversion Ht.
  - destruct Ht as [Ht|Ht]; [done|]. rewrite pdelete_ext.
    destruct (ext_cases k t key Ht Hk) as [(v' & -> & _ & -> & Hk1)|[(ts & r & -> & Hts & -> & Hr & Hne & Hn)|
      (p & c & d & rk & r & Hp & Hnp & Hc & Hd)]].
    + assert (prefixLen k k = length k) as -> by (apply prefixLen_full; exists []; by rewrite app_nil_r).
      rewrite Nat.ltb_irrefl, bool_decide_true by done.
      split_and!; [done|rewrite plookup_ext_leaf; by split; [eauto|]|by left|].
      intros key' Hk'. case_decide as E; [done|]. symmetry. apply plookup_ext_not. intros [l ->].
      apply key_not_prefix in Hk' as ->; [|done]. by rewrite app_nil_r in E.
    + rewrite prefixLen_app, Nat.ltb_irrefl, drop_app_length. rewrite bool_decide_false.
      2: { rewrite length_app. apply is_key_nonempty in Hr. destruct r; [done|]. simpl. lia. }
      specialize (IH r (or_intror Hts) Hr). unfold delete_ok in IH.
      destruct (pdelete (PBranch ts) r) as [dirty child] eqn:Ed. destruct IH as (Hnd & Hd & Hcan & Hlk).
      assert (∀ l, is_key (k ++ l) → is_key l) as Hkl.
      { intros [|x l] Hl; [|by eapply is_key_app]. exfalso. rewrite app_nil_r in Hl.
        eapply (key_not_nibbles k []); [done|by rewrite app_nil_r]. }
      rewrite plookup_ext. destruct dirty.
      * split_and!; [done|done|right; by apply canon_pabove|]. intros key' Hk'. rewrite plookup_pabove.
        destruct (decide (k `prefix_of` key')) as [[l ->]|Hno].
        -- rewrite !plookup_ext, Hlk by (by apply Hkl). destruct (decide (l = r)) as [->|]; [by rewrite decide_True|].
           rewrite decide_False; [done|]. intros E. by simplify_list_eq.
        -- rewrite !plookup_ext_not by done. by case_decide.
      * assert (¬ is_Some (plookup (PBranch ts) r)) as Hnone by (intros H; by apply Hd in H).
        split_and!; [done|done|by right|]. intros key' Hk'. case_decide as E; [|done]. subst key'.
        rewrite plookup_ext. by apply eq_None_not_Some.
    + pose proof (parts_short _ _ _ _ _ _ _ Hp). case_cmp.
      assert (plookup (PExt k t) key = None) as Hnone.
      { apply plookup_ext_not. intros [l ->]. destruct Hp as (E & -> & ?). rewrite <-app_assoc in E.
        by simplify_list_eq. }
      rewrite Hnone. split_and!; [done|by split; [|intros []]|by right|].
      intros key' Hk'. case_decide as E; [by subst|done].
  - destruct Ht as [Ht|Ht]; [done|]. pose proof Ht as (Hl & Hc & Ho)%canon_branch_iff.
    destruct key as [|x key]; [by apply is_key_nonempty in Hk|].
    pose proof (is_key_hexdigit [] x key Hk) as Hx. pose proof (nib_lt x Hx) as Hlt.
    destruct (lookup_lt_is_Some_2 ts (nib x)) as [tx Etx]; [by rewrite Hl|].
    assert (let '(dirty, child) := pdelete tx key in
      (dirty = false → child = tx) ∧ (dirty = true ↔ is_Some (plookup tx key)) ∧ canon_at (nib x) child ∧
      ∀ key', is_key (x :: key') → plookup child key' = if decide (key' = key) then None else plookup tx key') as Hx'.
    { destruct (canon_at_nib x key tx Hk (Hc _ _ Etx)) as [(Hnx & Hk' & Htx)|(-> & -> & Htx)].
      - pose proof (Forall_lookup_1 _ _ _ _ IH Etx) as IHx. specialize (IHx key Htx Hk'). unfold delete_ok in IHx.
        destruct (pdelete tx key) as [dirty child]. destruct IHx as (? & ? & Hcan & Hlk). split_and!; [done..| |].
        + unfold canon_at. assert (nib x ≠ 16%nat) by (unfold nib, is_nibble in *; lia). case_cmp.
          destruct tx; [done..|by right].
        + intros key' [[_ Hk1]|[-> _]]%is_key_cons; [by apply Hlk|]. unfold is_nibble in Hnx. lia.
      - destruct Htx as [->|(v & Hv & ->)]; simpl.
        + split_and!; [done|by split; [|intros []]|by left|]. intros key' _. by case_decide.
        + split_and!; [done|by split; [eauto|]|by left|].
          intros key' [[Hn _]|[_ ->]]%is_key_cons; [unfold is_nibble in Hn; lia|done]. }
    rewrite (pdelete_branch _ _ _ _ Etx), plookup_branch, Etx. cbn [from_option fmap option_fmap option_map id].
    destruct (pdelete tx key) as [dirty child]. destruct Hx' as (Hnd & Hd & Hcan & Hlk). destruct dirty.
    + destruct (preduce_spec (<[nib x:=child]> ts)) as [Hpc Hpl].
      * by rewrite length_insert.
      * intros i t [[<- [<- _]]|[? Hj]]%list_lookup_insert_Some; [done|by apply Hc].
      * by apply occupied_other.
      * split_and!; [done..|]. intros [|y key'] Hk'; [by apply is_key_nonempty in Hk'|].
        rewrite Hpl by done. rewrite !plookup_branch. destruct (decide (y = x)) as [->|Hne].
        -- rewrite list_lookup_insert_eq, Etx by (by rewrite Hl). simpl. rewrite Hlk by done.
           destruct (decide (key' = key)) as [->|]; [by rewrite decide_True|]. by rewrite decide_False by congruence.
        -- rewrite list_lookup_insert_ne.
           2: { intros E. apply Hne. symmetry. apply nib_inj; [done|by apply (is_key_hexdigit [] y key')|done]. }
           by rewrite decide_False by congruence.
    + assert (¬ is_Some (plookup tx key)) as Hnone by (intros H; by apply Hd in H).
      split_and!; [done|done|done|]. intros key' Hk'. case_decide as E; [|done]. subst key'.
      rewrite plookup_branch, Etx. simpl. by apply eq_None_not_Some.
Qed.

(** ** The minimal form is determined by the contents *)

Definition same_map (t1 t2 : ptrie) : Prop := ∀ key, is_key key → plookup t1 key = plookup t2 key.

Lemma canon_at_has_key i t :
  (i < 17)%nat → canon_at i t → is_empty t = false →
  (∀ t', canon t → t = t' → ∃ key v, is_key key ∧ plookup t' key = Some v) →
  ∃ key v, is_key (Z.of_nat i :: key) ∧ plookup t key = Some v.
Proof.
  intros Hi [->|Ht] He Hsub; [done|]. destruct (Nat.eqb_spec i 16) as [E16|].
  - subst i. destruct Ht as (v & _ & ->). exists [], v. split; [|done]. apply is_key_cons. by right.
  - destruct (Hsub t Ht eq_refl) as (key & v & Hk & Hl). exists key, v. split; [|done].
    apply is_key_cons. left. split; [unfold is_nibble; lia|done].
Qed.

Lemma branch_lookup_nat ts i key t :
  ts !! i = Some t → plookup (PBranch ts) (Z.of_nat i :: key) = plookup t key.
Proof. intros H. rewrite plookup_branch. unfold nib. by rewrite Nat2Z.id, H. Qed.

Lemma canon_has_key t : canon t → ∃ key v, is_key key ∧ plookup t key = Some v.
Proof.
  induction t as [|v'|k t IH|ts IH] using ptrie_ind'; intros Ht.
  - inversion Ht.
  - inversion Ht.
  - apply canon_ext_inv in Ht as [(v & -> & Hv & Hk)|(ts & -> & Hts & _ & Hn)].
    + exists k, v. split; [done|apply plookup_ext_leaf].
    + destruct (IH Hts) as (key & v & Hk & Hl). exists (k ++ key), v.
      split; [by apply is_key_nibbles|]. by rewrite plookup_ext.
  - apply canon_branch_iff in Ht as (Hl & Hc & Ho).
    assert (1 ≤ occupied ts)%nat as (i & t & Hi & He)%occupied_one by lia.
    destruct (canon_at_has_key i t) as (key & v & Hk & Hlk); try done.
    + rewrite <-Hl. by eapply lookup_lt_Some.
    + by apply Hc.
    + intros t' Ht <-. by apply (Forall_lookup_1 _ _ _ _ IH Hi).
    + exists (Z.of_nat i :: key), v. split; [done|]. by rewrite (branch_lookup_nat _ _ _ _ Hi).
Qed.

(** A full node holds keys with two different first digits. *)
Lemma branch_two_keys ts :
  canon (PBranch ts) → ∃ c1 k1 c2 k2, c1 ≠ c2 ∧ is_key (c1 :: k1) ∧ is_key (c2 :: k2) ∧
    is_Some (plookup (PBranch ts) (c1 :: k1)) ∧ is_Some (plookup (PBranch ts) (c2 :: k2)).
Proof.
  intros (Hl & Hc & Ho)%canon_branch_iff. apply occupied_two in Ho as (i & j & t & u & Hij & Hi & Hj & Ht & Hu).
  destruct (canon_at_has_key i t) as (k1 & v1 & Hk1 & Hl1);
    [rewrite <-Hl; by eapply lookup_lt_Some|by apply Hc|done|intros t' ? <-; by apply canon_has_key|].
  destruct (canon_at_has_key j u) as (k2 & v2 & Hk2 & Hl2);
    [rewrite <-Hl; by eapply lookup_lt_Some|by apply Hc|done|intros t' ? <-; by apply canon_has_key|].
  exists (Z.of_nat i), k1, (Z.of_nat j), k2. split_and!; [lia|done|done| |].
  - rewrite (branch_lookup_nat _ _ _ _ Hi), Hl1. eauto.
  - rewrite (branch_lookup_nat _ _ _ _ Hj), Hl2. eauto.
Qed.

(** The keys of a short node all begin with its key. *)
Lemma ext_key_prefix k t key : is_Some (plookup (PExt k t) key) → ∃ r, key = k ++ r.
Proof.
  intros H. destruct (decide (k `prefix_of` key)) as [?|Hno]; [done|].
  rewrite plookup_ext_not in H by done. by destruct H.
Qed.

Lemma canon_ext_nonempty k t : canon (PExt k t) → k ≠ [].
Proof. intros [(v & -> & Hv & Hk)|(ts & -> & Hts & Hne & Hn)]%canon_ext_inv; [by apply is_key_nonempty|done]. Qed.

Lemma ext_not_branch k t ts : canon (PExt k t) → canon (PBranch ts) → ¬ same_map (PExt k t) (PBranch ts).
Proof.
  intros Hk%canon_ext_nonempty (c1 & k1 & c2 & k2 & Hne & Hk1 & Hk2 & H1 & H2)%branch_two_keys Hs.
  rewrite <-Hs in H1, H2 by done. apply ext_key_prefix in H1 as [r1 E1], H2 as [r2 E2].
  destruct k; [done|]. by simplify_eq/=.
Qed.

(** Two short nodes with the same contents have the same key: neither key can
    go on where the other one ends. *)
Lemma ext_key_not_longer k t d r t' :
  canon (PExt k t) → canon (PExt (k ++ d :: r) t') → ¬ same_map (PExt k t) (PExt (k ++ d :: r) t').
Proof.
  intros Ht Ht' Hs. pose proof Ht' as (_ & _ & _)%canon_has_key.
  apply canon_ext_inv in Ht as [(v & -> & Hv & Hk)|(ts & -> & Hts & Hne & Hn)].
  - destruct (canon_has_key _ Ht') as (key & w & Hkey & Hl).
    destruct (ext_key_prefix (k ++ d :: r) t' key) as [s ->]; [by rewrite Hl|].
    rewrite <-app_assoc in Hkey. by apply key_not_prefix in Hkey.
  - apply branch_two_keys in Hts as (c1 & k1 & c2 & k2 & Hne' & Hk1 & Hk2 & H1 & H2).
    specialize (Hs (k ++ c1 :: k1) (is_key_nibbles _ _ Hn Hk1)) as Hs1.
    specialize (Hs (k ++ c2 :: k2) (is_key_nibbles _ _ Hn Hk2)) as Hs2.
    rewrite plookup_ext in Hs1, Hs2. rewrite Hs1 in H1. rewrite Hs2 in H2.
    apply ext_key_prefix in H1 as [r1 E1], H2 as [r2 E2]. rewrite <-app_assoc in E1, E2. by simplify_list_eq.
Qed.

Lemma ext_same_key k1 t1 k2 t2 :
  canon (PExt k1 t1) → canon (PExt k2 t2) → same_map (PExt k1 t1) (PExt k2 t2) → k1 = k2.
Proof.
  intros H1 H2 Hs. destruct (prefixLen_split k1 k2) as (p & a & b & -> & -> & _ & Hne).
  destruct a as [|x a], b as [|y b]; [done| | |]; rewrite ?app_nil_r in *; exfalso.
  - exact (ext_key_not_longer _ _ _ _ _ H1 H2 Hs).
  - eapply (ext_key_not_longer _ _ _ _ _ H2 H1). intros key Hk. by rewrite Hs.
  - specialize (Hne x y a b eq_refl eq_refl). destruct (canon_has_key _ H1) as (key & v & Hk & Hl).
    assert (is_Some (plookup (PExt (p ++ x :: a) t1) key)) as [r1 E1]%ext_key_prefix by (by rewrite Hl).
    assert (is_Some (plookup (PExt (p ++ y :: b) t2) key)) as [r2 E2]%ext_key_prefix by (by rewrite <-Hs, Hl).
    rewrite E1, <-!app_assoc in E2. by simplify_list_eq.
Qed.

Lemma canon_not_empty_map t : canon t → ¬ same_map t PEmpty.
Proof. intros (key & v & Hk & Hl)%canon_has_key Hs. rewrite Hs in Hl by done. done. Qed.

Lemma canonical_unique t1 t2 : canonical t1 → canonical t2 → same_map t1 t2 → t1 = t2.
Proof.
  assert (∀ t1 t2, same_map t1 t2 → same_map t2 t1) as Hsym by (intros ???? Hk; by rewrite H).
  revert t2. induction t1 as [|v'|k t IH|ts IH] using ptrie_ind'; intros t2 H1 H2 Hs.
  - destruct H2 as [->|H2]; [done|]. by destruct (canon_not_empty_map t2 H2 (Hsym _ _ Hs)).
  - destruct H1 as [H1|H1]; inversion H1.
  - destruct H1 as [H1|H1]; [done|]. destruct H2 as [->|H2]; [by destruct (canon_not_empty_map _ H1 Hs)|].
    destruct t2 as [| |k2 t2|ts2]; [inversion H2|inversion H2| |by destruct (ext_not_branch _ _ _ H1 H2 Hs)].
    destruct (ext_same_key _ _ _ _ H1 H2 Hs). f_equal.
    destruct (canon_ext_inv _ _ H1) as [(v & -> & Hv & Hk)|(ts & -> & Hts & Hne & Hn)],
      (canon_ext_inv _ _ H2) as [(v2 & -> & Hv2 & Hk2)|(ts2 & -> & Hts2 & Hne2 & Hn2)].
    + specialize (Hs k Hk). rewrite !plookup_ext_leaf in Hs. congruence.
    + exfalso. eapply (key_not_nibbles k []); [done|by rewrite app_nil_r].
    + exfalso. eapply (key_not_nibbles k []); [done|by rewrite app_nil_r].
    + apply IH; [by right|by right|]. intros key Hkey. specialize (Hs (k ++ key) (is_key_nibbles _ _ Hn Hkey)).
      by rewrite !plookup_ext in Hs.
  - destruct H1 as [H1|H1]; [done|]. destruct H2 as [->|H2]; [by destruct (canon_not_empty_map _ H1 Hs)|].
    destruct t2 as [| |k2 t2|ts2]; [inversion H2|inversion H2|by destruct (ext_not_branch _ _ _ H2 H1 (Hsym _ _ Hs))|].
    apply canon_branch_iff in H1 as (Hl1 & Hc1 & _), H2 as (Hl2 & Hc2 & _). f_equal.
    apply list_eq_same_length with 17%nat; [lia..|]. intros i x y Hi Hx Hy.
    assert (∀ key, is_key (Z.of_nat i :: key) → plookup x key = plookup y key) as Hxy.
    { intros key Hk. specialize (Hs _ Hk). by rewrite (branch_lookup_nat _ _ _ _ Hx), (branch_lookup_nat _ _ _ _ Hy) in Hs. }
    specialize (Hc1 _ _ Hx). specialize (Hc2 _ _ Hy). unfold canon_at in *.
    destruct (Nat.eqb_spec i 16) as [E16|].
    + specialize (Hxy [] ltac:(apply is_key_cons; right; by subst i)).
      destruct Hc1 as [->|(v1 & _ & ->)], Hc2 as [->|(v2 & _ & ->)]; simpl in Hxy; congruence.
    + apply (Forall_lookup_1 _ _ _ _ IH Hx); [done|done|]. intros key Hk. apply Hxy.
      apply is_key_cons. left. split; [unfold is_nibble; lia|done].
Qed.
