(* ===== verification/TrieNode.v ===== *)
(** * Trie nodes (common/trie/node.go)

    The node types with their cache flags, their RLP form and the decoder
    decodeNode, and that the decoder inverts the encoding of every trie in
    minimal form.  The nil node is a constructor of its own. *)

From S2P Require Import Prelude TrieEncoding TrieSpec RlpSpec RlpRaw RlpEncode.
Local Open Scope Z_scope.

(** ** Data *)

(** [f_hash] is [None] for a nil hash; [f_gen] is 16 bits wide. *)
Record nodeFlag := NodeFlag { f_hash : option bytes; f_gen : Z; f_dirty : bool }.

Inductive node :=
| NNil
| NValue (v : bytes)
| NHash (h : bytes)
| NShort (key : bytes) (val : node) (flags : nodeFlag)
| NFull (children : list node) (flags : nodeFlag).

Section NodeInd.
Variable P : node → Prop.
Hypothesis HNil : P NNil.
Hypothesis HValue : ∀ v, P (NValue v).
Hypothesis HHash : ∀ h, P (NHash h).
Hypothesis HShort : ∀ k n fl, P n → P (NShort k n fl).
Hypothesis HFull : ∀ cs fl, Forall P cs → P (NFull cs fl).

Fixpoint node_ind' (n : node) : P n :=
  match n with
  | NNil => HNil
  | NValue v => HValue v
  | NHash h => HHash h
  | NShort k n fl => HShort k n fl (node_ind' n)
  | NFull cs fl => HFull cs fl ((fix go (cs : list node) : Forall P cs :=
      match cs with
      | [] => Forall_nil_2 _
      | x :: cs' => Forall_cons_2 _ _ _ (node_ind' x) (go cs')
      end) cs)
  end.
End NodeInd.

(** nodeFlag.canUnload: the difference of the generations wraps around. *)
Definition canUnload (fl : nodeFlag) (cachegen cachelimit : Z) : bool :=
  negb (f_dirty fl) && (cachelimit <=? u16 (cachegen - f_gen fl)).

(** The hash and dirty flag a node's [cache] method reports. *)
Definition cache (n : node) : option bytes * bool :=
  match n with
  | NShort _ _ fl | NFull _ fl => (f_hash fl, f_dirty fl)
  | _ => (None, true)
  end.

(** ** Encoding *)

(** What rlp.Encode sees: a short node is a struct of a byte slice and an
    interface (the flags are not exported), a full node encodes its array of
    interfaces itself, hash and value nodes are byte slices. *)
Fixpoint node_gval (n : node) : gval :=
  let iface (n : node) : gval := match n with NNil => GNilIface | _ => GIface (node_gval n) end in
  match n with
  | NNil => GNilIface
  | NValue b | NHash b => GBytes b
  | NShort k v _ => GPtr (GStruct [GBytes k; iface v])
  | NFull cs _ => GEncoder (GSlice false (map iface cs))
  end.

(** ** Decoding *)

Inductive decode_ctx := CtxShort | CtxFull | CtxVal | CtxIndex (i : nat).

Inductive node_error :=
| NErrUnexpectedEOF
| NErrList (e : rlp_error)
| NErrCount (c : Z)
| NErrRlp (e : rlp_error)
| NErrValueNode (e : rlp_error)
| NErrOversized (size : nat)
| NErrStringSize (n : nat)
| NErrWrapped (what : node_error) (stack : list decode_ctx)
| NErrOutOfRounds.

Definition wrapError (ctx : decode_ctx) (err : node_error) : node_error :=
  match err with
  | NErrWrapped what stack => NErrWrapped what (stack ++ [ctx])
  | _ => NErrWrapped err [ctx]
  end.

Definition hashLen : nat := 32.

Section Decode.
Context (decodeNode : option bytes → bytes → Z → outcome node_error node).

Definition decodeRef (buf : bytes) (cachegen : Z) : outcome node_error (node * bytes) :=
  let* (kind, val, rest) := omap_err NErrRlp (Split buf) in
  match kind with
  | KList =>
      let size := (length buf - length rest)%nat in
      if (hashLen <? size)%nat then Err (NErrOversized size)
      else let* n := decodeNode None buf cachegen in Ok (n, rest)
  | KString =>
      if (length val =? 0)%nat then Ok (NNil, rest)
      else if (length val =? 32)%nat then Ok (NHash val, rest)
      else Err (NErrStringSize (length val))
  | KByte => Err (NErrStringSize (length val))
  end.

Definition decodeShort (hash : option bytes) (elems : bytes) (cachegen : Z) : outcome node_error node :=
  let* (kbuf, rest) := omap_err NErrRlp (SplitString elems) in
  let flag := NodeFlag hash cachegen false in
  let* key := compactToHex kbuf in
  if hasTerm key then
    let* (val, _) := omap_err NErrValueNode (SplitString rest) in
    Ok (NShort key (NValue val) flag)
  else
    let* (r, _) := omap_err (wrapError CtxVal) (decodeRef rest cachegen) in
    Ok (NShort key r flag).

(** The loop of decodeFull over children [i], ..., [i+n-1]. *)
Fixpoint decodeChildren (n i : nat) (elems : bytes) (cachegen : Z) : outcome node_error (list node * bytes) :=
  match n with
  | O => Ok ([], elems)
  | S n' =>
      let* (cld, rest) := omap_err (wrapError (CtxIndex i)) (decodeRef elems cachegen) in
      let* (cs, rest') := decodeChildren n' (S i) rest cachegen in
      Ok (cld :: cs, rest')
  end.

Definition decodeFull (hash : option bytes) (elems : bytes) (cachegen : Z) : outcome node_error node :=
  let* (cs, elems) := decodeChildren 16 0 elems cachegen in
  let* (val, _) := omap_err NErrRlp (SplitString elems) in
  Ok (NFull (cs ++ [if (0 <? length val)%nat then NValue val else NNil]) (NodeFlag hash cachegen false)).
End Decode.

(** decodeNode; every level of embedded nodes is shorter than the one around
    it, which bounds the rounds. *)
Fixpoint decodeNode_rounds (rounds : nat) (hash : option bytes) (buf : bytes) (cachegen : Z) : outcome node_error node :=
  match rounds with
  | O => Err NErrOutOfRounds
  | S r =>
      if (length buf =? 0)%nat then Err NErrUnexpectedEOF
      else
        let* (elems, _) := omap_err NErrList (SplitList buf) in
        let* c := match CountValues elems with
                  | Ok c => Ok c
                  | Err _ => Ok 0
                  | Panic => Panic
                  end in
        if c =? 2 then omap_err (wrapError CtxShort) (decodeShort (decodeNode_rounds r) hash elems cachegen)
        else if c =? 17 then omap_err (wrapError CtxFull) (decodeFull (decodeNode_rounds r) hash elems cachegen)
        else Err (NErrCount c)
  end.

Definition decodeNode (hash : option bytes) (buf : bytes) (cachegen : Z) : outcome node_error node :=
  decodeNode_rounds (S (length buf)) hash buf cachegen.

(** mustDecodeNode panics on a decoding error. *)
Definition mustDecodeNode {E} (hash : option bytes) (buf : bytes) (cachegen : Z) : outcome E node :=
  match decodeNode hash buf cachegen with
  | Ok n => Ok n
  | _ => Panic
  end.

(** ** The hash function *)

(** Keccak-256 as the trie uses it: 32 bytes for every input. *)
Class Keccak := {
  keccak256 : bytes → bytes;
  keccak_length x : length (keccak256 x) = 32%nat;
  keccak_byte x : Forall is_byte (keccak256 x)
}.

(** ** The encoding of an abstract trie *)

(** The known root hash of an empty trie (trie.go). *)
Definition emptyRoot : bytes :=
  [0x56; 0xe8; 0x1f; 0x17; 0x1b; 0xcc; 0x55; 0xa6; 0xff; 0x83; 0x45; 0xe6; 0x92; 0xc0; 0xf8; 0x6e;
   0x5b; 0x48; 0xe0; 0x1b; 0x99; 0x6c; 0xad; 0xc0; 0x01; 0x62; 0x2f; 0xb5; 0xe3; 0x63; 0xb4; 0x21].

Definition compact (k : bytes) : bytes :=
  match hexToCompact (E:=unit) k with
  | Ok c => c
  | _ => []
  end.

Section Spec.
Context {KC : Keccak}.

(** How a node is referred to by its parent: by its encoding if that is shorter
    than 32 bytes, by the hash of the encoding otherwise. *)
Definition collapse (it : item) : item :=
  match it with
  | Str _ => it
  | Lst _ => if (length (rlp_enc it) <? 32)%nat then it else Str (keccak256 (rlp_enc it))
  end.

Fixpoint citem (t : ptrie) : item :=
  match t with
  | PEmpty => Str []
  | PLeaf v => Str v
  | PExt k t => Lst [Str (compact k); collapse (citem t)]
  | PBranch ts => Lst (map (λ t, collapse (citem t)) ts)
  end.

Definition enc (t : ptrie) : bytes := rlp_enc (citem t).

Definition inner (t : ptrie) : bool :=
  match t with
  | PExt _ _ | PBranch _ => true
  | _ => false
  end.

(** A node that its parent refers to by hash. *)
Definition hashed (t : ptrie) : bool := inner t && (32 <=? length (enc t))%nat.

(** The root hash: the hash of the root's encoding, of any size. *)
Definition root_hash (t : ptrie) : bytes :=
  match t with
  | PEmpty => emptyRoot
  | _ => keccak256 (enc t)
  end.

(** A property of every subtrie. *)
Section AllSub.
Context (P : ptrie → Prop).

Fixpoint all_sub (t : ptrie) : Prop :=
  P t ∧ match t with
        | PExt _ t' => all_sub t'
        | PBranch ts => foldr (λ t Q, all_sub t ∧ Q) True ts
        | _ => True
        end.

Lemma all_sub_here t : all_sub t → P t.
Proof. by destruct t; intros [? _]. Qed.

Lemma all_sub_branch ts : all_sub (PBranch ts) ↔ P (PBranch ts) ∧ Forall all_sub ts.
Proof.
  simpl. apply Morphisms_Prop.and_iff_morphism; [done|].
  induction ts as [|t ts IH]; simpl; [split; [constructor|done]|]. by rewrite Forall_cons, IH.
Qed.
End AllSub.

(** Values are byte strings, and encodings have 64-bit lengths. *)
Definition sized_here (t : ptrie) : Prop :=
  fits64 (length (enc t)) ∧ match t with PLeaf v => Forall is_byte v | _ => True end.
Definition sized (t : ptrie) : Prop := all_sub sized_here t.

(** The node decodeNode returns for a trie: references for its children. *)
Section Loaded.
Context (cachegen : Z).

Fixpoint loaded (h : option bytes) (t : ptrie) : node :=
  let ref (t : ptrie) : node := if hashed t then NHash (keccak256 (enc t)) else loaded None t in
  match t with
  | PEmpty => NNil
  | PLeaf v => NValue v
  | PExt k t => NShort k (ref t) (NodeFlag h cachegen false)
  | PBranch ts => NFull (map ref ts) (NodeFlag h cachegen false)
  end.

Definition lref (t : ptrie) : node := if hashed t then NHash (keccak256 (enc t)) else loaded None t.
End Loaded.

(** ** Compact keys *)

Lemma canon_hexkey k t : canon (PExt k t) → hexkey k.
Proof.
  intros [(v & -> & Hv & ns & Hns & ->)|(ts & -> & Hts & _ & Hn)]%canon_ext_inv;
    [by apply hexkey_term|by apply hexkey_open].
Qed.

Lemma compact_spec k : hexkey k →
  (∀ E, hexToCompact (E:=E) k = Ok (compact k)) ∧ Forall is_byte (compact k) ∧
  ∀ E, compactToHex (E:=E) (compact k) = Ok k.
Proof.
  intros Hk. assert (∃ ns, Forall is_nibble ns ∧ (k = ns ∨ k = ns ++ [16])) as (ns & Hns & Hh)
    by (destruct Hk; eauto).
  destruct (hexToCompact_spec (E:=unit) ns k Hns Hh) as (n & bs & Hn & Hbs & E1 & Ens).
  unfold compact. rewrite E1. split_and!.
  - intros E. by apply (hexToCompact_any (E1:=unit)).
  - constructor; [|done]. by apply compact_flag_spec.
  - intros E. pose proof (compactToHex_hexToCompact (E:=E) k Hk) as Hc.
    by rewrite (hexToCompact_any (E2:=E) _ _ E1) in Hc.
Qed.

(** ** Encodings are well formed *)

Lemma collapse_ok it : item_ok it → item_ok (collapse it).
Proof. intros H. destruct it as [b|l]; [done|]. unfold collapse. case_cmp; [done|]. apply keccak_byte. Qed.

Lemma canon_at_cases i t : canon_at i t → t = PEmpty ∨ (∃ v, t = PLeaf v) ∨ canon t.
Proof. intros [?|H]; [by left|right]. destruct (i =? 16)%nat; [left; naive_solver|by right]. Qed.

Lemma citem_ok t : (∃ v, t = PLeaf v) ∨ canonical t → sized t → item_ok (citem t).
Proof.
  induction t as [|v|k t IH|ts IH] using ptrie_ind'; intros Ht Hs.
  - constructor.
  - destruct Hs as [[_ ?] _]. done.
  - destruct Ht as [[? ?]|[?|Ht]]; [done..|]. destruct (compact_spec k (canon_hexkey _ _ Ht)) as (_ & Hb & _).
    simpl. split_and!; [done| |done]. destruct Hs as [_ Hs]. apply collapse_ok, IH; [|done].
    apply canon_ext_inv in Ht as [(v & -> & _)|(ts & -> & Hts & _)]; [left; eauto|by right; right].
  - destruct Ht as [[? ?]|[?|Ht]]; [done..|]. apply canon_branch_iff in Ht as (_ & Hc & _).
    apply all_sub_branch in Hs as [_ Hs]. simpl citem. apply item_ok_Lst, Forall_map, Forall_lookup.
    intros i t Hi. apply collapse_ok. apply (Forall_lookup_1 _ _ _ _ IH Hi); [|by apply (Forall_lookup_1 _ _ _ _ Hs Hi)].
    destruct (canon_at_cases _ _ (Hc _ _ Hi)) as [->|[?|?]]; [by right; left|by left|by right; right].
Qed.

Lemma citem_inner t : inner t = true → ∃ l, citem t = Lst l.
Proof. destruct t; try done; simpl; eauto. Qed.

Lemma collapse_citem t :
  collapse (citem t) = if hashed t then Str (keccak256 (enc t)) else citem t.
Proof.
  unfold hashed, enc. destruct (inner t) eqn:E; [|by destruct t].
  destruct (citem_inner t E) as [l ->]. unfold collapse.
  destruct (Nat.ltb_spec (length (rlp_enc (Lst l))) 32), (Nat.leb_spec 32 (length (rlp_enc (Lst l)))); (done || lia).
Qed.

Lemma canon_inner t : canon t → inner t = true.
Proof. by destruct 1. Qed.

(** ** Decoding the encoding *)

(** The reference to a child is decoded to it, provided embedded children are. *)
Lemma decodeRef_spec dec gen t rest :
  t = PEmpty ∨ canon t → sized t → Forall is_byte rest →
  fits64 (length (rlp_enc (collapse (citem t)) ++ rest)) →
  (canon t → hashed t = false → dec None (enc t ++ rest) gen = Ok (loaded gen None t)) →
  decodeRef dec (rlp_enc (collapse (citem t)) ++ rest) gen = Ok (lref gen t, rest).
Proof.
  intros Ht Hs Hr Hf Hdec. unfold decodeRef, lref.
  rewrite Split_rlp_enc by first [done|apply collapse_ok, citem_ok; [by right|done]]. rewrite collapse_citem in *.
  destruct (hashed t) eqn:Eh.
  - assert (str_kind (keccak256 (enc t)) = KString) as Ek.
    { pose proof (keccak_length (enc t)) as Hl. by destruct (keccak256 (enc t)) as [|? [|]]. }
    simpl. rewrite Ek, keccak_length. done.
  - destruct Ht as [->|Ht]; [done|]. destruct (citem_inner t (canon_inner t Ht)) as [l El]. simpl obind.
    assert (length (rlp_enc (citem t)) < 32)%nat as Hlt.
    { unfold hashed in Eh. rewrite (canon_inner t Ht), andb_true_l in Eh. by apply Nat.leb_gt in Eh. }
    rewrite El at 1. simpl. rewrite length_app.
    destruct (Nat.ltb_spec hashLen (length (rlp_enc (citem t)) + length rest - length rest)) as [Hlt'|_];
      [unfold hashLen in Hlt'; lia|].
    change (rlp_enc (citem t)) with (enc t). by rewrite Hdec.
Qed.

(** The parts of an encoded list are no longer than it. *)
Lemma concat_part (l : list item) it : it ∈ l → (length (rlp_enc it) ≤ length (concat (map rlp_enc l)))%nat.
Proof.
  induction 1 as [l|x y l Hin IH]; simpl; rewrite length_app; lia.
Qed.

Lemma collapse_small t : hashed t = false → rlp_enc (collapse (citem t)) = enc t.
Proof. intros H. by rewrite collapse_citem, H. Qed.

Lemma decodeChildren_spec dec gen ts i rest :
  Forall (λ t, (t = PEmpty ∨ canon t) ∧ sized t) ts → Forall is_byte rest →
  fits64 (length (concat (map rlp_enc (map (λ t, collapse (citem t)) ts)) ++ rest)) →
  (∀ t r, t ∈ ts → Forall is_byte r → canon t → hashed t = false →
     (length (enc t ++ r) ≤ length (concat (map rlp_enc (map (λ t, collapse (citem t)) ts)) ++ rest))%nat →
     dec None (enc t ++ r) gen = Ok (loaded gen None t)) →
  decodeChildren dec (length ts) i (concat (map rlp_enc (map (λ t, collapse (citem t)) ts)) ++ rest) gen
    = Ok (map (lref gen) ts, rest).
Proof.
  intros Hts Hr. revert i. induction Hts as [|t ts [Ht Hs] Hts IH]; intros i Hf Hdec; [done|]. simpl in *.
  rewrite <-app_assoc in *.
  assert (Forall is_byte (concat (map rlp_enc (map (λ t, collapse (citem t)) ts)) ++ rest)) as Hb.
  { apply Forall_app. split; [|done]. apply concat_enc_byte.
    - apply Forall_map. eapply Forall_impl; [exact Hts|]. intros u [? ?]. apply collapse_ok, citem_ok; [by right|done].
    - eapply fits64_le; [|exact Hf]. rewrite !length_app. lia. }
  rewrite decodeRef_spec; [| |done|done|done|].
  - simpl. rewrite IH; [done| |].
    + eapply fits64_le; [|exact Hf]. rewrite (length_app (rlp_enc _)). lia.
    + intros u r Hu Hr' Hc Hh Hl. apply Hdec; [by right|done..|]. rewrite (length_app (rlp_enc _)). lia.
  - done.
  - intros Hc Hh. apply Hdec; [by left|done..|]. by rewrite collapse_small.
Qed.

Lemma SplitString_str b rest :
  Forall is_byte b → Forall is_byte rest → fits64 (length (enc_str b ++ rest)) →
  SplitString (enc_str b ++ rest) = Ok (b, rest).
Proof.
  intros Hb Hr Hf. unfold SplitString. rewrite Split_enc_str by done. simpl.
  assert (str_kind b ≠ KList) by (destruct b as [|x [|]]; simpl; try done; by destruct (x <? 128)).
  by destruct (str_kind b).
Qed.

Lemma decodeShort_spec dec k t h gen :
  canon (PExt k t) → sized t → fits64 (length (concat (map rlp_enc [Str (compact k); collapse (citem t)]))) →
  (∀ r, Forall is_byte r → canon t → hashed t = false →
    (length (enc t ++ r) ≤ length (concat (map rlp_enc [Str (compact k); collapse (citem t)])))%nat →
    dec None (enc t ++ r) gen = Ok (loaded gen None t)) →
  decodeShort dec h (concat (map rlp_enc [Str (compact k); collapse (citem t)])) gen = Ok (loaded gen h (PExt k t)).
Proof.
  intros Hc Hs Hf Hdec. destruct (compact_spec k (canon_hexkey _ _ Hc)) as (_ & Hb & Hk).
  assert (item_ok (collapse (citem t))) as Hok.
  { apply collapse_ok, citem_ok; [|done].
    apply canon_ext_inv in Hc as [(v & -> & _)|(ts & -> & Hts & _)]; [left; eauto|by right; right]. }
  assert (Forall is_byte (rlp_enc (collapse (citem t)))) as Hb'.
  { apply rlp_enc_byte; [done|]. eapply fits64_le; [|exact Hf]. simpl. rewrite !length_app. lia. }
  unfold decodeShort. simpl concat in *. simpl rlp_enc in Hf |- *. rewrite app_nil_r in *.
  rewrite SplitString_str by done. cbn [omap_err obind]. rewrite Hk. cbn [obind].
  apply canon_ext_inv in Hc as [(v & -> & _ & ns & Hns & ->)|(ts & -> & Hts & _ & Hn)].
  - rewrite hasTerm_term. simpl citem. simpl collapse. simpl rlp_enc. rewrite <-(app_nil_r (enc_str v)).
    rewrite SplitString_str; [done| |done|].
    + by destruct Hs as [[_ ?] _].
    + eapply fits64_le; [|exact Hf]. simpl. rewrite !length_app. simpl. lia.
  - rewrite hasTerm_open by done. rewrite <-(app_nil_r (rlp_enc (collapse _))).
    rewrite decodeRef_spec; [done|by right|done|done| |].
    + rewrite app_nil_r. eapply fits64_le; [|exact Hf]. rewrite !length_app. lia.
    + intros Hc Hh. apply Hdec; [done..|]. rewrite app_nil_r, length_app, collapse_small by done. lia.
Qed.

#[local] Arguments decodeChildren : simpl never.

Lemma decodeFull_spec dec ts h gen :
  canon (PBranch ts) → Forall sized ts →
  fits64 (length (concat (map rlp_enc (map (λ t, collapse (citem t)) ts)))) →
  (∀ t r, t ∈ ts → Forall is_byte r → canon t → hashed t = false →
     (length (enc t ++ r) ≤ length (concat (map rlp_enc (map (λ t, collapse (citem t)) ts))))%nat →
     dec None (enc t ++ r) gen = Ok (loaded gen None t)) →
  decodeFull dec h (concat (map rlp_enc (map (λ t, collapse (citem t)) ts))) gen = Ok (loaded gen h (PBranch ts)).
Proof.
  intros Hc Hss Hf Hdec. inversion Hc as [| |ts' tv Hl Hts Htv _]; subst.
  rewrite Forall_app, Forall_singleton in Hss. destruct Hss as [Hs Hsv]. unfold decodeFull. rewrite !map_app, !concat_app in *. simpl in Hf, Hdec |- *.
  assert (∃ v, citem tv = Str v ∧ Forall is_byte v ∧ loaded gen None tv = (if (0 <? length v)%nat then NValue v else NNil)
    ∧ hashed tv = false) as (v & Ev & Hv & El & Eh).
  { destruct Htv as [->|(v & Hv & ->)]; [exists []; split_and!; done || constructor|].
    destruct Hsv as [[_ Hb] _]. exists v. split_and!; try done. simpl. by destruct v. }
  rewrite Ev in *. simpl in Hf, Hdec |- *. rewrite app_nil_r in *.
  assert (Forall is_byte (enc_str v)) as Hbv.
  { apply enc_str_byte; [done|]. eapply fits64_le; [|exact Hf]. rewrite length_app.
    pose proof (enc_str_length v). lia. }
  rewrite <-Hl.
  rewrite decodeChildren_spec; [| |done|done|].
  - simpl. rewrite <-(app_nil_r (enc_str v)), SplitString_str; [|done|done|].
    + simpl. rewrite map_app. simpl. by rewrite Eh, El.
    + rewrite app_nil_r. eapply fits64_le; [|exact Hf]. rewrite length_app. lia.
  - rewrite Forall_forall in Hts, Hs |- *. auto.
  - intros t r Ht Hr Hct Hh Hle. apply Hdec; try done. apply elem_of_app. by left.
Qed.

(** decodeNode inverts the encoding of every trie in minimal form. *)
Lemma decodeNode_spec t h rest gen rounds :
  canon t → sized t → Forall is_byte rest → fits64 (length (enc t ++ rest)) →
  (length (enc t) < rounds)%nat →
  decodeNode_rounds rounds h (enc t ++ rest) gen = Ok (loaded gen h t).
Proof.
  revert t h rest. induction rounds as [|r IH]; intros t h rest Ht Hs Hr Hf Hl; [lia|].
  pose proof (citem_ok t (or_intror (or_intror Ht)) Hs) as Hok.
  pose proof (canon_inner t Ht) as Hin. destruct (citem_inner t Hin) as [l El].
  assert (enc t = enc_list (concat (map rlp_enc l))) as Ee by (unfold enc; by rewrite El).
  pose proof (enc_list_length (concat (map rlp_enc l))) as Hll. rewrite <-Ee in Hll.
  assert (fits64 (length (concat (map rlp_enc l)))) as Hfl
    by (eapply fits64_le; [|exact Hf]; rewrite length_app; lia).
  rewrite El in Hok. apply item_ok_Lst in Hok.
  cbn [decodeNode_rounds]. rewrite length_app. destruct (Nat.eqb_spec (length (enc t) + length rest) 0); [lia|].
  unfold SplitList. rewrite Ee, Split_enc_list; [|by apply concat_enc_byte|done|by rewrite <-Ee]. simpl obind.
  unfold CountValues. rewrite CountValues_loop_items by done. simpl obind.
  assert (∀ u r', Forall is_byte r' → canon u → sized u →
    (length (enc u ++ r') ≤ length (concat (map rlp_enc l)))%nat →
    decodeNode_rounds r None (enc u ++ r') gen = Ok (loaded gen None u)) as Hrec.
  { intros u r' Hr' Hu Hsu Hle. apply IH; [done..| |].
    - by eapply fits64_le.
    - rewrite length_app in Hle. lia. }
  destruct t as [|v|k t|ts]; [done|done| |]; injection El as <-.
  - rewrite decodeShort_spec; [done|done|apply Hs|done|].
    intros r' Hr' Hc _ Hle. apply Hrec; [done..|apply Hs|done].
  - assert (length (map (λ t, collapse (citem t)) ts) = 17%nat) as -> by
      (rewrite length_map; by apply canon_branch_iff in Ht as (? & _)).
    apply all_sub_branch in Hs as [_ Hs]. simpl.
    rewrite decodeFull_spec; [done..|]. intros u r' Hu Hr' Hc _ Hle. apply Hrec; [done..| |done].
    rewrite Forall_forall in Hs. by apply Hs.
Qed.

(** A stored node is read back as it was. *)
Lemma mustDecodeNode_spec {E} t h gen :
  canon t → sized t → mustDecodeNode (E:=E) h (enc t) gen = Ok (loaded gen h t).
Proof.
  intros Ht Hs. unfold mustDecodeNode, decodeNode. pose proof (all_sub_here _ _ Hs) as [Hf _].
  pose proof (decodeNode_spec t h [] gen (S (length (enc t)))) as H. rewrite app_nil_r in H.
  rewrite H; [done..|lia].
Qed.
End Spec.
