(* ===== verification/Trie.v ===== *)
(** * The trie with its database (common/trie/trie.go)

    Lookup, insertion and deletion on nodes that are loaded from the database on
    demand.  Every recursive call shortens the key or loads a node, and a loaded
    node is not a hash node, so twice the length of the key bounds the rounds. *)

From S2P Require Import Prelude TrieEncoding TrieSpec TrieNode RlpSpec.
Local Open Scope Z_scope.

Inductive trie_error :=
| MissingNodeError (nodeHash path : bytes)
| TErrOutOfRounds.

Abbreviation trie_out := (outcome trie_error).

(** common.BytesToHash: the last 32 bytes, padded on the left. *)
Definition BytesToHash (b : bytes) : bytes :=
  let b := if (32 <? length b)%nat then drop (length b - 32) b else b in
  replicate (32 - length b) 0 ++ b.

Section Ops.
Context (db : bytes → option bytes) (cachegen : Z).

Definition newFlag : nodeFlag := NodeFlag None cachegen true.

Definition with_gen (fl : nodeFlag) : nodeFlag := NodeFlag (f_hash fl) cachegen (f_dirty fl).

Definition resolveHash (n prefix : bytes) : trie_out node :=
  match db n with
  | None => Err (MissingNodeError (BytesToHash n) prefix)
  | Some enc => mustDecodeNode (Some n) enc cachegen
  end.

Definition resolve (n : node) (prefix : bytes) : trie_out node :=
  match n with
  | NHash h => resolveHash h prefix
  | _ => Ok n
  end.

(** Assignment to an element of the array of children. *)
Definition set_child (cs : list node) (c : Z) (n : node) : trie_out (list node) :=
  let* _ := cs.[nib c] in Ok (<[nib c := n]> cs).

(** tryGet: the value, the node to put in place of [origNode], and whether a
    node was loaded. *)
Fixpoint tryGet (rounds : nat) (origNode : node) (key : bytes) (pos : nat)
    : trie_out (option bytes * node * bool) :=
  match rounds with
  | O => Err TErrOutOfRounds
  | S r =>
      match origNode with
      | NNil => Ok (None, NNil, false)
      | NValue v => Ok (Some v, origNode, false)
      | NShort k val fl =>
          if (length key - pos <? length k)%nat ||
             negb (bool_decide (k = take (length k) (drop pos key)))
          then Ok (None, origNode, false)
          else
            let* (value, newnode, didResolve) := tryGet r val key (pos + length k) in
            if didResolve : bool then Ok (value, NShort k newnode (with_gen fl), didResolve)
            else Ok (value, origNode, didResolve)
      | NFull cs fl =>
          let* c := key.[pos] in
          let* child := cs.[nib c] in
          let* (value, newnode, didResolve) := tryGet r child key (pos + 1) in
          if didResolve : bool
          then let* cs' := set_child cs c newnode in Ok (value, NFull cs' (with_gen fl), didResolve)
          else Ok (value, origNode, didResolve)
      | NHash h =>
          let* prefix := key.[0%nat : pos] in
          let* child := resolveHash h prefix in
          let* (value, newnode, _) := tryGet r child key pos in
          Ok (value, newnode, true)
      end
  end.

(** insert: whether the subtrie changed, and the new subtrie. *)
Fixpoint insert (rounds : nat) (n : node) (prefix key : bytes) (value : node) : trie_out (bool * node) :=
  match rounds with
  | O => Err TErrOutOfRounds
  | S r =>
      match key with
      | [] =>
          match n with
          | NValue v =>
              match value with
              | NValue w => Ok (negb (bool_decide (v = w)), value)
              | _ => Panic
              end
          | _ => Ok (true, value)
          end
      | c :: key' =>
          match n with
          | NShort k val fl =>
              let matchlen := prefixLen key k in
              if (matchlen =? length k)%nat then
                let* (dirty, nn) := insert r val (prefix ++ take matchlen key) (drop matchlen key) value in
                if negb dirty then Ok (false, n) else Ok (true, NShort k nn newFlag)
              else
                let children := replicate 17 NNil in
                let* ck := k.[matchlen] in
                let* (_, n1) := insert r NNil (prefix ++ take (matchlen + 1) k) (drop (matchlen + 1) k) val in
                let* children := set_child children ck n1 in
                let* c := key.[matchlen] in
                let* (_, n2) := insert r NNil (prefix ++ take (matchlen + 1) key) (drop (matchlen + 1) key) value in
                let* children := set_child children c n2 in
                let branch := NFull children newFlag in
                if (matchlen =? 0)%nat then Ok (true, branch)
                else Ok (true, NShort (take matchlen key) branch newFlag)
          | NFull cs fl =>
              let* child := cs.[nib c] in
              let* (dirty, nn) := insert r child (prefix ++ [c]) key' value in
              if negb dirty then Ok (false, n)
              else let* cs' := set_child cs c nn in Ok (true, NFull cs' newFlag)
          | NNil => Ok (true, NShort key value newFlag)
          | NHash h =>
              let* rn := resolveHash h prefix in
              let* (dirty, nn) := insert r rn prefix key value in
              if negb dirty then Ok (false, rn) else Ok (true, nn)
          | NValue _ => Panic
          end
      end
  end.

(** The loop of delete over the children: the position of the only one left,
    [-1] for none, [-2] for several. *)
Fixpoint find_single (cs : list node) (i pos : Z) : Z :=
  match cs with
  | [] => pos
  | NNil :: cs' => find_single cs' (i + 1) pos
  | _ :: cs' => if pos =? -1 then find_single cs' (i + 1) i else -2
  end.

Fixpoint delete (rounds : nat) (n : node) (prefix key : bytes) : trie_out (bool * node) :=
  match rounds with
  | O => Err TErrOutOfRounds
  | S r =>
      match n with
      | NShort k val fl =>
          let matchlen := prefixLen key k in
          if (matchlen <? length k)%nat then Ok (false, n)
          else if (matchlen =? length key)%nat then Ok (true, NNil)
          else
            let* (dirty, child) := delete r val (prefix ++ take (length k) key) (drop (length k) key) in
            if negb dirty then Ok (false, n)
            else
              match child with
              | NShort k' val' _ => Ok (true, NShort (k ++ k') val' newFlag)
              | _ => Ok (true, NShort k child newFlag)
              end
      | NFull cs fl =>
          let* c := key.[0%nat] in
          let* child := cs.[nib c] in
          let* (dirty, nn) := delete r child (prefix ++ [c]) (drop 1 key) in
          if negb dirty then Ok (false, n)
          else
            let* cs := set_child cs c nn in
            let pos := find_single cs 0 (-1) in
            if 0 <=? pos then
              let* last := cs.[Z.to_nat pos] in
              let* cnode := if negb (pos =? 16) then resolve last prefix else Ok NNil in
              match cnode with
              | NShort k' val' _ => Ok (true, NShort (pos :: k') val' newFlag)
              | _ => Ok (true, NShort [pos] last newFlag)
              end
            else Ok (true, NFull cs newFlag)
      | NValue _ => Ok (true, NNil)
      | NNil => Ok (false, NNil)
      | NHash h =>
          let* rn := resolveHash h prefix in
          let* (dirty, nn) := delete r rn prefix key in
          if negb dirty then Ok (false, rn) else Ok (true, nn)
      end
  end.
End Ops.

(** ** The trie *)

Record Trie := MkTrie {
  t_root : node;
  t_db : bytes → option bytes;
  t_originalRoot : bytes;
  t_cachegen : Z;
  t_cachelimit : Z
}.

Definition with_root (n : node) (t : Trie) : Trie :=
  MkTrie n (t_db t) (t_originalRoot t) (t_cachegen t) (t_cachelimit t).

Definition SetCacheLimit (l : Z) (t : Trie) : Trie :=
  MkTrie (t_root t) (t_db t) (t_originalRoot t) (t_cachegen t) l.

(** New on a database; the zero hash and the empty root give an empty trie. *)
Definition New (root : bytes) (db : bytes → option bytes) : trie_out Trie :=
  let trie := MkTrie NNil db root 0 0 in
  if negb (bool_decide (root = replicate 32 0)) && negb (bool_decide (root = emptyRoot)) then
    let* rootnode := resolveHash db 0 root [] in Ok (with_root rootnode trie)
  else Ok trie.

Definition key_rounds (key : bytes) : nat := 2 * length key + 2.

Definition TryGet (key : bytes) (t : Trie) : trie_out (option bytes) * Trie :=
  let key := keybytesToHex key in
  match tryGet (t_db t) (t_cachegen t) (key_rounds key) (t_root t) key 0 with
  | Ok (value, newroot, didResolve) => (Ok value, if didResolve : bool then with_root newroot t else t)
  | Err e => (Err e, t)
  | Panic => (Panic, t)
  end.

(** A failed operation leaves the trie as it was. *)
Definition set_root (r : trie_out (bool * node)) (t : Trie) : trie_out unit * Trie :=
  match r with
  | Ok (_, n) => (Ok tt, with_root n t)
  | Err e => (Err e, t)
  | Panic => (Panic, t)
  end.

Definition TryDelete (key : bytes) (t : Trie) : trie_out unit * Trie :=
  let k := keybytesToHex key in
  set_root (delete (t_db t) (t_cachegen t) (key_rounds k) (t_root t) [] k) t.

Definition TryUpdate (key value : bytes) (t : Trie) : trie_out unit * Trie :=
  let k := keybytesToHex key in
  if negb (length value =? 0)%nat
  then set_root (insert (t_db t) (t_cachegen t) (key_rounds k) (t_root t) [] k (NValue value)) t
  else set_root (delete (t_db t) (t_cachegen t) (key_rounds k) (t_root t) [] k) t.

(** Get, Update, Delete and Root log an error and go on. *)
Definition logged {A} (d : A) (r : trie_out A * Trie) : trie_out A * Trie :=
  match r with
  | (Err _, t) => (Ok d, t)
  | _ => r
  end.

Definition Get (key : bytes) (t : Trie) : trie_out (option bytes) * Trie := logged None (TryGet key t).
Definition Update (key value : bytes) (t : Trie) : trie_out unit * Trie := logged tt (TryUpdate key value t).
Definition Delete (key : bytes) (t : Trie) : trie_out unit * Trie := logged tt (TryDelete key t).
