(* ===== verification/TrieRefine.v ===== *)
(** * The trie refines the abstract trie

    A node, parts of which may be hash references into the database, represents
    an abstract trie; lookup, insertion and deletion on nodes compute those on
    the trie they represent, and never fail when the database holds what the
    references say. *)

From S2P Require Import Prelude TrieEncoding TrieSpec TrieNode Trie RlpSpec.
Local Open Scope Z_scope.

Section Refine.
Context {KC : Keccak} (db : bytes → option bytes).

(** The nodes of a trie that are referred to by hash are in the database. *)
Definition stored_here (t : ptrie) : Prop :=
  hashed t = true → db (keccak256 (enc t)) = Some (enc t).

Definition stored (t : ptrie) : Prop := all_sub stored_here t.

Definition stored_below (t : ptrie) : Prop :=
  match t with
  | PExt _ t' => stored t'
  | PBranch ts => Forall stored ts
  | _ => True
  end.

(** A cached hash is the hash of the node; below the root only nodes that their
    parents refer to by hash have one; a node that is not dirty and has one is in
    the database with everything below it; a node that is neither dirty nor has
    one is embedded in its parent. *)
Definition flag_ok (root : bool) (fl : nodeFlag) (t : ptrie) : Prop :=
  match f_hash fl with
  | Some h =>
      h = keccak256 (enc t) ∧ (root = false → hashed t = true) ∧
      (f_dirty fl = false → db h = Some (enc t) ∧ stored_below t)
  | None => f_dirty fl = false → root = false ∧ hashed t = false
  end.

(** [repr root n t]: node [n], at the root of the trie or below it, represents
    [t]. *)
Inductive repr : bool → node → ptrie → Prop :=
| repr_nil b : repr b NNil PEmpty
| repr_value b v : repr b (NValue v) (PLeaf v)
| repr_short b k n t fl : repr false n t → flag_ok b fl (PExt k t) → repr b (NShort k n fl) (PExt k t)
| repr_full b cs ts fl :
    Forall2 (repr false) cs ts → flag_ok b fl (PBranch ts) → repr b (NFull cs fl) (PBranch ts)
| repr_hash b h t :
    canon t → sized t → stored_below t → db h = Some (enc t) → h = keccak256 (enc t) →
    (b = false → hashed t = true) → repr b (NHash h) t.

Lemma stored_split t : stored t ↔ stored_here t ∧ stored_below t.
Proof. destruct t; simpl; [done..|]. apply all_sub_branch. Qed.

Lemma loaded_lref gen h t :
  loaded gen h t =
    match t with
    | PEmpty => NNil
    | PLeaf v => NValue v
    | PExt k t => NShort k (lref gen t) (NodeFlag h gen false)
    | PBranch ts => NFull (map (lref gen) ts) (NodeFlag h gen false)
    end.
Proof. by destruct t. Qed.

Definition sub_ok (t : ptrie) : Prop := t = PEmpty ∨ (∃ v, t = PLeaf v) ∨ canon t.

Lemma lref_repr gen t :
  sub_ok t → sized t → stored t →
  (hashed t = false → stored_below t → repr false (loaded gen None t) t) → repr false (lref gen t) t.
Proof.
  intros Ht Hs Hst HL. apply stored_split in Hst as [Hh Hst]. unfold lref.
  destruct (hashed t) eqn:E; [|by apply HL]. destruct Ht as [->|[[? ->]|Ht']]; [done..|].
  constructor; [done..|by apply Hh|done|done].
Qed.

(** What is loaded for a stored trie represents it. *)
Lemma loaded_repr gen b h t :
  sub_ok t → sized t → stored_below t → flag_ok b (NodeFlag h gen false) t → repr b (loaded gen h t) t.
Proof.
  revert b h. induction t as [|v|k t IH|ts IH] using ptrie_ind'; intros b h Ht Hs Hst Hfl; rewrite loaded_lref.
  - constructor.
  - constructor.
  - destruct Ht as [?|[[? ?]|Ht]]; [done..|]. destruct Hs as [_ Hs]. constructor; [|done].
    assert (sub_ok t) as Ht'.
    { apply canon_ext_inv in Ht as [(v & -> & _)|(ts & -> & ? & _)]; [right; left; eauto|by right; right]. }
    apply lref_repr; [done..|]. intros Hh Hb. by apply IH.
  - destruct Ht as [?|[[? ?]|Ht]]; [done..|]. apply all_sub_branch in Hs as [_ Hs]. simpl in Hst.
    apply canon_branch_iff in Ht as (_ & Hc & _). constructor; [|done].
    apply Forall2_fmap_l, Forall2_same_length_lookup_2; [done|].
    intros i t t' Hi Hi'. simplify_eq. pose proof (canon_at_cases _ _ (Hc _ _ Hi)) as Ht.
    pose proof (Forall_lookup_1 _ _ _ _ Hs Hi). pose proof (Forall_lookup_1 _ _ _ _ Hst Hi).
    apply lref_repr; [done..|]. intros Hh Hb. by apply (Forall_lookup_1 _ _ _ _ IH Hi).
Qed.

Context (gen : Z).

Lemma resolveHash_repr b h t prefix :
  repr b (NHash h) t →
  resolveHash db gen h prefix = Ok (loaded gen (Some h) t) ∧ repr b (loaded gen (Some h) t) t ∧ canon t.
Proof.
  inversion 1 as [| | | |? ? ? Hc Hs Hst Hdb Hh Hb]; subst. unfold resolveHash. rewrite Hdb, mustDecodeNode_spec by done.
  split_and!; [done| |done]. apply loaded_repr; [by right; right|done|done|]. done.
Qed.

Lemma newFlag_ok b t : flag_ok b (newFlag gen) t.
Proof. done. Qed.

Lemma with_gen_ok b fl t : flag_ok b fl t → flag_ok b (with_gen gen fl) t.
Proof. done. Qed.

Definition is_hash (n : node) : bool :=
  match n with
  | NHash _ => true
  | _ => false
  end.

Lemma loaded_not_hash h t : is_hash (loaded gen h t) = false.
Proof. by destruct t. Qed.

(** Rounds a node and a key need. *)
Definition need (n : node) (key : bytes) : nat := 2 * length key + 1 + (if is_hash n then 1 else 0).

Lemma need_le n key : (2 * length key + 1 ≤ need n key ≤ 2 * length key + 2)%nat.
Proof. unfold need. destruct (is_hash n); lia. Qed.

(** A subtrie and the rest of a key that leads into it. *)
Definition pos_ok (t : ptrie) (key : bytes) : Prop :=
  (canonical t ∧ is_key key) ∨ (key = [] ∧ (t = PEmpty ∨ ∃ v, v ≠ [] ∧ t = PLeaf v)).

Lemma pos_ok_branch ts c key t :
  canon (PBranch ts) → is_key (c :: key) → ts !! nib c = Some t → pos_ok t key.
Proof.
  clear db gen. intros (Hl & Hc & _)%canon_branch_iff Hk Ht. unfold pos_ok.
  destruct (canon_at_nib c key t Hk (Hc _ _ Ht)) as [(? & ? & ?)|(? & ? & ?)]; tauto.
Qed.

(** A short node and a key: the key runs through it, or they part. *)
Lemma pos_ok_ext k t key :
  canon (PExt k t) → is_key key →
  (∃ r, key = k ++ r ∧ k ≠ [] ∧ pos_ok t r) ∨
  (∃ p c d rk r, parts key k p c d rk r ∧ Forall is_nibble p ∧ hexdigit c ∧ hexdigit d).
Proof.
  intros Ht Hk. destruct (ext_cases k t key Ht Hk) as [(v & -> & ? & -> & ?)|[(ts & r & -> & ? & -> & ? & ? & _)|?]];
    [left|left|by right].
  - exists []. rewrite app_nil_r. split_and!; [done|by apply is_key_nonempty|]. right. split; [done|]. right; eauto.
  - exists r. split_and!; [done..|]. left. split; [by right|done].
Qed.

(** ** Lookup *)

Lemma repr_full_inv b cs fl t :
  repr b (NFull cs fl) t → ∃ ts, t = PBranch ts ∧ Forall2 (repr false) cs ts ∧ flag_ok b fl t.
Proof. inversion 1; subst; eauto. Qed.

Lemma repr_short_inv b k n fl t :
  repr b (NShort k n fl) t → ∃ t', t = PExt k t' ∧ repr false n t' ∧ flag_ok b fl t.
Proof. inversion 1; subst; eauto. Qed.

Lemma pos_ok_full ts key : pos_ok (PBranch ts) key → canon (PBranch ts) ∧ is_key key.
Proof. intros [[[?|?] ?]|[_ [?|(? & _ & ?)]]]; by try done. Qed.

Lemma pos_ok_short k t key : pos_ok (PExt k t) key → canon (PExt k t) ∧ is_key key.
Proof. intros [[[?|?] ?]|[_ [?|(? & _ & ?)]]]; by try done. Qed.

Lemma repr_set_child cs ts c n t :
  Forall2 (repr false) cs ts → (nib c < length ts)%nat → repr false n t →
  set_child cs c n = Ok (<[nib c := n]> cs) ∧ Forall2 (repr false) (<[nib c := n]> cs) (<[nib c := t]> ts).
Proof.
  intros H Hc Hn. split; [|by apply Forall2_insert]. unfold set_child.
  destruct (lookup_lt_is_Some_2 cs (nib c)) as [x Hx]; [by rewrite (Forall2_length _ _ _ H)|].
  by rewrite (index_Some _ _ _ Hx).
Qed.

Lemma tryGet_repr rounds b n t key pos :
  repr b n t → pos_ok t (drop pos key) → (pos ≤ length key)%nat → (need n (drop pos key) ≤ rounds)%nat →
  ∃ n' did, tryGet db gen rounds n key pos = Ok (plookup t (drop pos key), n', did) ∧ repr b n' t.
Proof.
  revert b n t pos. induction rounds as [|r IH]; intros b n t pos Hr Hp Hpos Hn; [unfold need in Hn; lia|].
  destruct n as [|v|h|k val fl|cs fl]; cbn [tryGet].
  - inversion Hr; subst. exists NNil, false. split; [done|constructor].
  - inversion Hr; subst. exists (NValue v), false. split; [|done].
    destruct Hp as [[[?|Hc] _]|[-> _]]; [done|inversion Hc|done].
  - destruct (resolveHash_repr b h t (take pos key) Hr) as (E & Hr' & _).
    rewrite slice_Ok by lia. cbn [obind]. rewrite drop_0, Nat.sub_0_r, E. cbn [obind].
    destruct (IH b _ _ pos Hr' Hp Hpos) as (n' & did & E' & Hn').
    { unfold need in *. rewrite loaded_not_hash. simpl in Hn. lia. }
    rewrite E'. exists n', true. done.
  - apply repr_short_inv in Hr as (t' & -> & Hr & Hfl). apply pos_ok_short in Hp as [Hc Hk].
    destruct (pos_ok_ext k t' _ Hc Hk) as [(l & El & Hne & Hp)|(p & c & d & rk & l & (Ekey & Ek & Hcd) & _)].
    + assert (length (drop pos key) = length k + length l)%nat as Hl by (by rewrite El, length_app).
      rewrite length_drop in Hl.
      assert (drop (pos + length k) key = l) as Ed by (by rewrite <-drop_drop, El, drop_app_length).
      destruct (Nat.ltb_spec (length key - pos) (length k)); [lia|].
      rewrite El, take_app_length, bool_decide_true by done. simpl orb.
      destruct (IH false val t' (pos + length k)%nat Hr) as (n' & did & E' & Hn').
      * by rewrite Ed.
      * lia.
      * rewrite Ed. unfold need in Hn |- *. rewrite El, length_app in Hn. destruct k; [done|].
        simpl in Hn. destruct (is_hash val); lia.
      * rewrite E', Ed, plookup_ext. cbn [obind].
        destruct did; eexists _, _; (split; [done|]); by constructor.
    + exists (NShort k val fl), false. rewrite plookup_ext_not.
      * destruct (Nat.ltb_spec (length key - pos) (length k)); [split; [done|by constructor]|].
        rewrite bool_decide_false; [split; [done|by constructor]|]. intros E.
        rewrite Ekey in E. apply (f_equal (lookup (length p))) in E. rewrite lookup_take_lt in E.
        -- rewrite Ek, !lookup_app_r, Nat.sub_diag in E by lia. by simplify_eq/=.
        -- rewrite Ek, length_app. simpl. lia.
      * intros [l' E']. rewrite Ekey, Ek, <-app_assoc in E'. by simplify_list_eq.
  - apply repr_full_inv in Hr as (ts & -> & Hr & Hfl). apply pos_ok_full in Hp as [Hc Hk].
    destruct (drop pos key) as [|c l] eqn:Ed; [by apply is_key_nonempty in Hk|].
    assert (key !! pos = Some c) as Hkp by (by rewrite <-(Nat.add_0_r pos), <-lookup_drop, Ed).
    assert (drop (pos + 1) key = l) as Ed1 by (by rewrite <-drop_drop, Ed).
    pose proof (nib_lt c (is_key_hexdigit [] c l Hk)) as Hlt.
    pose proof Hc as (Hl & _ & _)%canon_branch_iff.
    destruct (lookup_lt_is_Some_2 ts (nib c)) as [tc Htc]; [by rewrite Hl|].
    destruct (Forall2_lookup_r _ _ _ _ _ Hr Htc) as (nc & Hnc & Hrc).
    rewrite (index_Some _ _ _ Hkp). cbn [obind]. rewrite (index_Some _ _ _ Hnc). cbn [obind].
    destruct (IH false nc tc (pos + 1)%nat Hrc) as (n' & did & E' & Hn').
    + rewrite Ed1. by eapply pos_ok_branch.
    + apply lookup_lt_Some in Hkp. lia.
    + rewrite Ed1. unfold need in Hn |- *. simpl in Hn. destruct (is_hash nc); lia.
    + rewrite E', Ed1, plookup_branch, Htc. cbn [obind from_option fmap option_fmap option_map id]. destruct did.
      * destruct (repr_set_child cs ts c n' tc Hr) as [-> Hr']; [by rewrite Hl|done|].
        eexists _, _. split; [done|]. constructor; [|done]. by rewrite (list_insert_id ts) in Hr' by done.
      * eexists _, _. split; [done|]. by constructor.
Qed.

(** ** Insertion *)

Lemma insert_nil rounds prefix key w t :
  (1 ≤ rounds)%nat → repr false w t →
  ∃ n', insert db gen rounds NNil prefix key w = Ok (true, n') ∧ repr false n' (pext key t).
Proof.
  intros Hr Hw. destruct rounds as [|r]; [lia|]. destruct key as [|c key]; cbn [insert].
  - by exists w.
  - eexists. split; [done|]. by constructor.
Qed.

Lemma drop_S_app (p : bytes) c r : drop (length p + 1) (p ++ c :: r) = r.
Proof. by rewrite <-drop_drop, drop_app_length. Qed.

Lemma repr_children c d n1 n2 t1 t2 :
  hexdigit c → hexdigit d → repr false n1 t1 → repr false n2 t2 →
  ∃ cs, set_child (replicate 17 NNil) d n1 = Ok (<[nib d := n1]> (replicate 17 NNil)) ∧
    set_child (<[nib d := n1]> (replicate 17 NNil)) c n2 = Ok cs ∧
    Forall2 (repr false) cs (<[nib c := t2]> (<[nib d := t1]> empty_children)).
Proof.
  intros Hc Hd H1 H2.
  assert (Forall2 (repr false) (replicate 17 NNil) empty_children) as H0.
  { apply Forall2_replicate. constructor. }
  destruct (repr_set_child _ _ d _ _ H0 (nib_lt d Hd) H1) as [E1 Hr1].
  destruct (repr_set_child _ _ c n2 t2 Hr1) as [E2 Hr2]; [rewrite length_insert; by apply nib_lt|done|].
  eexists. split_and!; [done|exact E2|done].
Qed.

(** insert on a short node where the keys part. *)
Lemma insert_parts r b n0 t0 prefix key k p c d rk l v val fl :
  parts key k p c d rk l → Forall is_nibble p → hexdigit c → hexdigit d → (1 ≤ r)%nat →
  repr false val t0 → n0 = NShort k val fl →
  ∃ n', insert db gen (S r) n0 prefix key (NValue v) = Ok (true, n') ∧
    repr b n' (pinsert (PExt k t0) key (PLeaf v)).
Proof.
  intros Hparts Hp Hc Hd Hr Hv ->. rewrite (pinsert_parts _ _ _ _ _ _ _ _ _ Hparts).
  assert (prefixLen key k = length p) as Hm.
  { destruct Hparts as (-> & -> & Hcd). clear -Hcd. induction p as [|x p IH]; simpl.
    - by rewrite (proj2 (Z.eqb_neq _ _) Hcd).
    - by rewrite Z.eqb_refl, IH. }
  destruct Hparts as (-> & -> & Hcd). destruct (p ++ c :: rk) as [|x key] eqn:Ekey; [by destruct p|].
  cbn [insert]. rewrite Hm, <-Ekey. rewrite length_app.
  destruct (Nat.eqb_spec (length p) (length p + length (d :: l))) as [E|_]; [simpl in E; lia|].
  assert ((p ++ d :: l) !! length p = Some d) as Ed by (by rewrite lookup_app_r, Nat.sub_diag by lia).
  assert ((p ++ c :: rk) !! length p = Some c) as Ec by (by rewrite lookup_app_r, Nat.sub_diag by lia).
  rewrite (index_Some _ _ _ Ed). cbn [obind]. rewrite !drop_S_app.
  destruct (insert_nil r (prefix ++ take (length p + 1) (p ++ d :: l)) l val t0 Hr Hv) as (n1 & -> & H1). cbn [obind].
  destruct (insert_nil r (prefix ++ take (length p + 1) (p ++ c :: rk)) rk (NValue v) (PLeaf v) Hr) as (n2 & E2 & H2);
    [constructor|].
  destruct (repr_children c d n1 n2 _ _ Hc Hd H1 H2) as (cs & -> & Ecs & Hcs). cbn [obind].
  rewrite (index_Some _ _ _ Ec). cbn [obind]. rewrite E2. cbn [obind]. rewrite Ecs. cbn [obind].
  rewrite take_app_length. destruct p as [|y p]; (eexists; split; [done|]); simpl; by repeat constructor.
Qed.

Lemma pinsert_nil_key t v : pinsert t [] v = v.
Proof. by destruct t. Qed.

Lemma insert_repr rounds b n t prefix key v :
  repr b n t → pos_ok t key → v ≠ [] → (need n key ≤ rounds)%nat →
  ∃ dirty n', insert db gen rounds n prefix key (NValue v) = Ok (dirty, n') ∧
    repr b n' (pinsert t key (PLeaf v)) ∧ (dirty = false → pinsert t key (PLeaf v) = t).
Proof.
  revert b n t prefix key. induction rounds as [|r IH]; intros b n t prefix key Hr Hp Hv Hn; [unfold need in Hn; lia|].
  destruct key as [|c key].
  { rewrite pinsert_nil_key. destruct Hp as [[_ Hk]|[_ [->|(w & Hw & ->)]]]; [by apply is_key_nonempty in Hk| |].
    - inversion Hr as [| | | |? ? ? Hc]; subst; [|inversion Hc]. exists true, (NValue v). split_and!; [done|constructor|done].
    - inversion Hr as [| | | |? ? ? Hc]; subst; [|inversion Hc]. cbn [insert].
      eexists _, (NValue v). split_and!; [done|constructor|]. intros E. apply negb_false_iff, bool_decide_eq_true in E. by subst. }
  assert (is_key (c :: key)) as Hk by (by destruct Hp as [[_ ?]|[? _]]).
  assert (canonical t) as Hcan by (by destruct Hp as [[? _]|[? _]]).
  destruct n as [|w|h|k val fl|cs fl].
  - inversion Hr; subst. cbn [insert]. exists true. eexists. split_and!; [done| |done]. by repeat constructor.
  - inversion Hr; subst. destruct Hcan as [?|Hc]; [done|inversion Hc].
  - destruct (resolveHash_repr _ h t prefix Hr) as (E & Hr' & _). cbn [insert]. rewrite E. cbn [obind].
    destruct (IH b _ _ prefix (c :: key) Hr' Hp Hv) as (dirty & n' & E' & Hn' & Hd).
    { unfold need in *. rewrite loaded_not_hash. simpl in Hn |- *. lia. }
    rewrite E'. cbn [obind]. destruct dirty; simpl negb; cbv iota; eexists _, _; (split; [done|]); [done|].
    by rewrite Hd.
  - apply repr_short_inv in Hr as (t' & -> & Hr & Hfl). apply pos_ok_short in Hp as [Hc _].
    destruct (pos_ok_ext k t' _ Hc Hk) as [(l & El & Hne & Hp)|(p & c' & d & rk & l & Hparts & Hnp & Hc' & Hd)].
    + cbn [insert]. rewrite El, prefixLen_app, Nat.eqb_refl, take_app_length, drop_app_length, pinsert_through by done.
      destruct (IH false val t' (prefix ++ k) l Hr Hp Hv) as (dirty & n' & E' & Hn' & Hd).
      { unfold need in Hn |- *. rewrite El, length_app in Hn. destruct k; [done|]. simpl in Hn. destruct (is_hash val); lia. }
      rewrite E'. cbn [obind]. destruct dirty; simpl negb; cbv iota; eexists _, _; (split; [done|]).
      * split; [by constructor|done].
      * rewrite Hd by done. split; [by constructor|done].
    + destruct (insert_parts r b (NShort k val fl) t' prefix (c :: key) k p c' d rk l v val fl) as (n' & E' & Hn'); try done.
      { unfold need in Hn. simpl in Hn. lia. }
      exists true, n'. done.
  - apply repr_full_inv in Hr as (ts & -> & Hr & Hfl). apply pos_ok_full in Hp as [Hc _].
    pose proof (nib_lt c (is_key_hexdigit [] c key Hk)) as Hlt. pose proof Hc as (Hl & _ & _)%canon_branch_iff.
    destruct (lookup_lt_is_Some_2 ts (nib c)) as [tc Htc]; [by rewrite Hl|].
    destruct (Forall2_lookup_r _ _ _ _ _ Hr Htc) as (nc & Hnc & Hrc).
    cbn [insert]. rewrite (index_Some _ _ _ Hnc). cbn [obind]. simpl pinsert. rewrite (list_alter_insert _ _ _ _ Htc).
    destruct (IH false nc tc (prefix ++ [c]) key Hrc) as (dirty & n' & E' & Hn' & Hd);
      [by eapply pos_ok_branch|done|unfold need in Hn |- *; simpl in Hn; destruct (is_hash nc); lia|].
    rewrite E'. cbn [obind]. destruct dirty; simpl negb; cbv iota.
    + destruct (repr_set_child cs ts c n' (pinsert tc key (PLeaf v)) Hr) as [-> Hr']; [by rewrite Hl|done|].
      eexists _, _. split_and!; [done|by constructor|done].
    + rewrite Hd by done. rewrite list_insert_id by done. eexists _, _. split_and!; [done|by constructor|done].
Qed.

(** ** Deletion *)

Lemma repr_empty b n t : repr b n t → is_empty t = match n with NNil => true | _ => false end.
Proof. inversion 1; subst; try done. by apply canon_nonempty. Qed.

Lemma find_single_later cs ts i pos :
  Forall2 (repr false) cs ts → 0 ≤ pos → find_single cs i pos = if (occupied ts =? 0)%nat then pos else -2.
Proof.
  intros H Hp. revert i. induction H as [|n t cs ts Hn _ IH]; intros i; [done|].
  rewrite occupied_cons, (repr_empty _ _ _ Hn). destruct n; simpl; [apply IH|..]; by case_cmp.
Qed.

Lemma find_single_spec cs ts i :
  Forall2 (repr false) cs ts →
  find_single cs (Z.of_nat i) (-1) =
    match single_child ts i with
    | None => -1
    | Some None => -2
    | Some (Some (j, _)) => Z.of_nat j
    end.
Proof.
  intros H. revert i. induction H as [|n t cs ts Hn Hcs IH]; intros i; [done|].
  cbn [single_child]. rewrite (repr_empty _ _ _ Hn).
  assert (match single_child ts (S i) with None => Some (Some (i, t)) | Some _ => Some None end =
    if (occupied ts =? 0)%nat then Some (Some (i, t)) else Some None) as E.
  { pose proof (single_child_None ts (S i)) as HN. destruct (single_child ts (S i)) as [o|].
    - destruct (Nat.eqb_spec (occupied ts) 0) as [E0|]; [by apply HN in E0|done].
    - destruct HN as [HN _]. by rewrite HN. }
  destruct n; simpl; [replace (Z.of_nat i + 1) with (Z.of_nat (S i)) by lia; apply IH|..];
    rewrite (find_single_later cs ts) by (done || lia); rewrite E; by destruct (occupied ts =? 0)%nat.
Qed.

Lemma pdelete_unchanged t key : fst (pdelete t key) = false → snd (pdelete t key) = t.
Proof.
  destruct t as [| |k t|ts]; simpl; try done.
  - case_cmp; [done|]. destruct (bool_decide _); [done|]. by destruct (pdelete t _) as [[] ?].
  - destruct key as [|c key]; [done|]. by destruct (at_child _ _ _ _) as [[] ?].
Qed.

Lemma resolve_repr b n t prefix :
  repr b n t → ∃ n', resolve db gen n prefix = Ok n' ∧ repr b n' t ∧ is_hash n' = false.
Proof.
  intros H. destruct n; try (eexists; split_and!; [done|done|done]).
  destruct (resolveHash_repr _ h t prefix H) as (E & H' & _). eexists. split_and!; [exact E|done|apply loaded_not_hash].
Qed.

(** The short node that replaces a full node with one child left. *)
Lemma reduce_single b prefix n t pos :
  repr false n t → is_empty t = false → (pos = 16 → ∃ v, t = PLeaf v) →
  ∃ n', (let* cnode := if negb (pos =? 16) then resolve db gen n prefix else Ok NNil in
         match cnode with
         | NShort k' val' _ => Ok (true, NShort (pos :: k') val' (newFlag gen))
         | _ => Ok (true, NShort [pos] n (newFlag gen))
         end) = Ok (true, n') ∧ repr b n' (pabove [pos] t) ∧ is_hash n' = false.
Proof.
  intros Hn He H16. destruct (Z.eqb_spec pos 16) as [->|Hne]; cbn [negb obind].
  - destruct H16 as [v ->]; [done|]. eexists. split_and!; [done|by constructor|done].
  - destruct (resolve_repr false n t prefix Hn) as (n' & -> & Hn' & Hh). cbn [obind].
    destruct n' as [|v|h|k val fl|cs fl]; [by inversion Hn'; subst| |done| |].
    + inversion Hn'; subst. eexists. split_and!; [done|by constructor|done].
    + apply repr_short_inv in Hn' as (t' & -> & Hr & _). eexists. split_and!; [done|by constructor|done].
    + apply repr_full_inv in Hn' as (ts & -> & Hr & ?). eexists. split_and!; [done|by constructor|done].
Qed.

Lemma child16 ts c key tc t :
  canon (PBranch ts) → is_key (c :: key) → ts !! nib c = Some tc →
  <[nib c := snd (pdelete tc key)]> ts !! 16%nat = Some t → is_empty t = false → ∃ v, t = PLeaf v.
Proof.
  intros Hc Hk Htc Ht He. pose proof Hc as (_ & Hca & _)%canon_branch_iff.
  apply list_lookup_insert_Some in Ht as [[E16 [<- _]]|[_ Ht]].
  - destruct (canon_at_nib c key tc Hk (Hca _ _ Htc)) as [(Hn & _)|(-> & -> & [->|(v & _ & ->)])]; [|done..].
    unfold nib, is_nibble in *. lia.
  - destruct (Hca _ _ Ht) as [->|(v & _ & ->)]; [done|eauto].
Qed.

Lemma delete_repr rounds b n t prefix key :
  repr b n t → pos_ok t key → (need n key ≤ rounds)%nat →
  ∃ n', delete db gen rounds n prefix key = Ok (fst (pdelete t key), n') ∧ repr b n' (snd (pdelete t key)) ∧
    (fst (pdelete t key) = true → is_hash n' = false).
Proof.
  revert b n t prefix key. induction rounds as [|r IH]; intros b n t prefix key Hr Hp Hn; [unfold need in Hn; lia|].
  destruct n as [|w|h|k val fl|cs fl].
  - inversion Hr; subst. exists NNil. split_and!; [done|constructor|done].
  - inversion Hr; subst. exists NNil. split_and!; [done|constructor|done].
  - destruct (resolveHash_repr _ h t prefix Hr) as (E & Hr' & _). cbn [delete]. rewrite E. cbn [obind].
    destruct (IH b _ _ prefix key Hr' Hp) as (n' & E' & Hn' & Hd).
    { unfold need in *. rewrite loaded_not_hash. simpl in Hn |- *. lia. }
    rewrite E'. cbn [obind]. pose proof (pdelete_unchanged t key) as Hu.
    destruct (fst (pdelete t key)); simpl negb; cbv iota; [by exists n'|].
    eexists. split_and!; [done|by rewrite Hu|done].
  - apply repr_short_inv in Hr as (t' & -> & Hr & Hfl). apply pos_ok_short in Hp as [Hc Hk]. rewrite pdelete_ext.
    destruct (pos_ok_ext k t' _ Hc Hk) as [(l & El & Hne & Hp)|(p & c' & d & rk & l & Hparts & Hnp & Hc' & Hd)].
    2: { cbn [delete]. pose proof (parts_short _ _ _ _ _ _ _ Hparts). case_cmp.
         eexists. split_and!; [done|by constructor|done]. }
    subst key. cbn [delete]. rewrite prefixLen_app, Nat.ltb_irrefl, take_app_length, drop_app_length.
    destruct (Nat.eqb_spec (length k) (length (k ++ l))) as [E|E].
    { rewrite bool_decide_true by done. eexists. split_and!; [done|constructor|done]. }
    rewrite bool_decide_false by done.
    destruct (IH false val t' (prefix ++ k) l Hr Hp) as (n' & E' & Hn' & Hd).
    { unfold need in Hn |- *. rewrite length_app in Hn. destruct k; [done|]. simpl in Hn. destruct (is_hash val); lia. }
    rewrite E'. cbn [obind]. destruct (pdelete t' l) as [dirty child]. simpl fst in *. simpl snd in *.
    destruct dirty; simpl negb; cbv iota; [|eexists; split_and!; [done|by constructor|done]].
    specialize (Hd eq_refl). destruct n' as [|v|h|k' val' fl'|cs fl']; [| |done| |].
    + inversion Hn'; subst. eexists. split_and!; [done|by constructor|done].
    + inversion Hn'; subst. eexists. split_and!; [done|by constructor|done].
    + apply repr_short_inv in Hn' as (t'' & -> & ? & _). eexists. split_and!; [done|by constructor|done].
    + apply repr_full_inv in Hn' as (ts & -> & ? & ?). eexists. split_and!; [done|by constructor; [constructor|]|done].
  - apply repr_full_inv in Hr as (ts & -> & Hr & Hfl). apply pos_ok_full in Hp as [Hc Hk].
    destruct key as [|c key]; [by apply is_key_nonempty in Hk|].
    pose proof (nib_lt c (is_key_hexdigit [] c key Hk)) as Hlt. pose proof Hc as (Hl & _ & _)%canon_branch_iff.
    destruct (lookup_lt_is_Some_2 ts (nib c)) as [tc Htc]; [by rewrite Hl|].
    destruct (Forall2_lookup_r _ _ _ _ _ Hr Htc) as (nc & Hnc & Hrc).
    rewrite (pdelete_branch _ _ _ _ Htc). cbn [delete]. rewrite (index_Some (c :: key) 0 c) by done. cbn [obind].
    rewrite (index_Some _ _ _ Hnc). cbn [obind]. change (drop 1 (c :: key)) with (drop 0 key). rewrite drop_0.
    destruct (IH false nc tc (prefix ++ [c]) key Hrc) as (n' & E' & Hn' & Hd);
      [by eapply pos_ok_branch|unfold need in Hn |- *; simpl in Hn; destruct (is_hash nc); lia|].
    rewrite E'. cbn [obind]. pose proof (child16 ts c key tc) as H16.
    destruct (pdelete tc key) as [dirty child]. simpl fst in *. simpl snd in *.
    destruct dirty; simpl negb; cbv iota; [|eexists; split_and!; [done|by constructor|done]].
    destruct (repr_set_child cs ts c n' child Hr) as [-> Hr']; [by rewrite Hl|done|]. cbn [obind].
    pose proof (find_single_spec _ _ 0 Hr') as Hfs. change (Z.of_nat 0) with 0 in Hfs. rewrite Hfs. unfold preduce.
    destruct (single_child (<[nib c:=child]> ts) 0) as [[[i ti]|]|] eqn:Es; cbn [fst snd].
    + apply single_child_one in Es as (j & -> & Hj & He & _). rewrite Nat.add_0_l.
      destruct (Forall2_lookup_r _ _ _ _ _ Hr' Hj) as (nj & Hnj & Hrj). case_cmp. rewrite Nat2Z.id.
      rewrite (index_Some _ _ _ Hnj). cbn [obind].
      destruct (reduce_single b prefix nj ti (Z.of_nat j) Hrj He) as (n'' & -> & ? & ?).
      { intros E16. assert (j = 16%nat) as -> by lia. by apply (H16 ti). }
      exists n''. done.
    + simpl. eexists. split_and!; [done|by constructor|done].
    + simpl. eexists. split_and!; [done|by constructor|done].
Qed.
End Refine.
