(* ===== verification/TrieHasher.v ===== *)
(** * Hashing and committing tries (common/trie/hasher.go, trie.go)

    The hasher with its per-node cache, the root hash and Commit.  With a
    database it is a writer whose state is passed along; [None] stands for the nil
    writer of Hash. *)

From S2P Require Import Prelude TrieEncoding TrieSpec TrieNode Trie TrieRefine RlpSpec RlpEncode.
Local Open Scope Z_scope.

(** ** The database writer *)

(** What the hasher and the trie rely on: a successful Put is seen by Get. *)
Class Writer (W : Type) := {
  w_put : bytes → bytes → W → option W;
  w_get : W → bytes → option bytes;
  w_get_put k v w w' k' :
    w_put k v w = Some w' → w_get w' k' = if decide (k' = k) then Some v else w_get w k'
}.

#[export] Instance no_writer : Writer Empty_set.
Proof. by refine {| w_put _ _ w := None; w_get w _ := None |}. Defined.

Inductive put_error := PutError.

(** ** The hasher *)

Section Hasher.
Context {KC : Keccak} {W : Type} {HW : Writer W} (cachegen cachelimit : Z).

(** store: nodes of less than 32 bytes stay in their parent unless forced. *)
Definition store (n : node) (db : option W) (force : bool) : outcome put_error (node * option W) :=
  match n with
  | NHash _ | NNil => Ok (n, db)
  | _ =>
      match EncodeToBytes (node_gval n) with
      | Ok enc =>
          if (length enc <? 32)%nat && negb force then Ok (n, db)
          else
            let hash := match fst (cache n) with
                        | Some h => h
                        | None => keccak256 enc
                        end in
            match db with
            | None => Ok (NHash hash, db)
            | Some w => match w_put hash enc w with
                        | Some w' => Ok (NHash hash, Some w')
                        | None => Err PutError
                        end
            end
      | _ => Panic
      end
  end.

(** The flags of the replacement node once its hash is known. *)
Definition set_cached (cached hashed : node) (committing : bool) : node :=
  let cachedHash := match hashed with NHash h => Some h | _ => None end in
  let upd (fl : nodeFlag) :=
    NodeFlag cachedHash (f_gen fl) (if committing then false else f_dirty fl) in
  match cached with
  | NShort k v fl => NShort k v (upd fl)
  | NFull cs fl => NFull cs (upd fl)
  | _ => cached
  end.

(** What [hash] does with a cached hash: nothing, return the node, or unload. *)
Definition use_cache (n : node) (db : option W) : option (node * node) :=
  match cache n with
  | (Some h, dirty) =>
      match db with
      | None => Some (NHash h, n)
      | Some _ =>
          let unload := match n with
                        | NShort _ _ fl | NFull _ fl => canUnload fl cachegen cachelimit
                        | _ => false
                        end in
          if unload then Some (NHash h, NHash h)
          else if negb dirty then Some (NHash h, n) else None
      end
  | (None, _) => None
  end.

Definition nil_to_value (n : node) : node :=
  match n with
  | NNil => NValue []
  | _ => n
  end.

Abbreviation hash_out A := (outcome put_error (A * A * option W)).

(** hash, with hashChildren for the three kinds of nodes written out: the
    collapsed node, the node to keep in its place, and the database. *)
Fixpoint hash (n : node) (db : option W) (force : bool) : hash_out node :=
  match use_cache n db with
  | Some (h, c) => Ok (h, c, db)
  | None =>
      let* (collapsed, cached, db) :=
        match n with
        | NNil => Panic
        | NShort k v fl =>
            let* ck := hexToCompact k in
            let* (cv, nv, db) := match v with
                                 | NValue _ => Ok (v, v, db)
                                 | _ => hash v db false
                                 end in
            Ok (NShort ck (nil_to_value cv) fl, NShort k nv fl, db)
        | NFull cs fl =>
            let* (ccs, ncs, db) :=
              (fix go (i : nat) (cs : list node) (db : option W) : hash_out (list node) :=
                 match cs with
                 | [] => Ok ([], [], db)
                 | c :: cs' =>
                     let* (cc, nc, db) :=
                       if (i <? 16)%nat then
                         match c with
                         | NNil => Ok (NValue [], NNil, db)
                         | _ => hash c db false
                         end
                       else Ok (nil_to_value c, c, db) in
                     let* (ccs, ncs, db) := go (S i) cs' db in
                     Ok (cc :: ccs, nc :: ncs, db)
                 end) 0%nat cs db in
            Ok (NFull ccs fl, NFull ncs fl, db)
        | _ => Ok (n, n, db)
        end in
      let* (hashed, db) := store collapsed db force in
      Ok (hashed, set_cached cached hashed (bool_decide (is_Some db)), db)
  end.

Fixpoint hash_children (i : nat) (cs : list node) (db : option W) : hash_out (list node) :=
  match cs with
  | [] => Ok ([], [], db)
  | c :: cs' =>
      let* (cc, nc, db) :=
        if (i <? 16)%nat then
          match c with
          | NNil => Ok (NValue [], NNil, db)
          | _ => hash c db false
          end
        else Ok (nil_to_value c, c, db) in
      let* (ccs, ncs, db) := hash_children (S i) cs' db in
      Ok (cc :: ccs, nc :: ncs, db)
  end.

Definition hashRoot (root : node) (db : option W) : hash_out node :=
  match root with
  | NNil => Ok (NHash emptyRoot, NNil, db)
  | _ => hash root db true
  end.
End Hasher.

(** ** Hash and Commit *)

Section TrieOps.
Context {KC : Keccak} {W : Type} {HW : Writer W}.

Definition node_hash {E} (n : node) : outcome E bytes :=
  match n with
  | NHash h => Ok (BytesToHash h)
  | _ => Panic
  end.

(** Hash panics when the root does not collapse to a hash node; errors cannot
    occur without a database. *)
Definition Hash (t : Trie) : outcome put_error bytes * Trie :=
  match hashRoot (W:=Empty_set) (t_cachegen t) (t_cachelimit t) (t_root t) None with
  | Ok (hash, cached, _) => (node_hash hash, with_root cached t)
  | Err e => (Err e, t)
  | Panic => (Panic, t)
  end.

(** CommitTo a writer; the generation counter wraps at 16 bits. *)
Definition CommitTo (t : Trie) (w : W) : outcome put_error (bytes * Trie * W) :=
  let* (hash, cached, db) := hashRoot (t_cachegen t) (t_cachelimit t) (t_root t) (Some w) in
  let* h := node_hash hash in
  Ok (h, MkTrie cached (t_db t) (t_originalRoot t) (u16 (t_cachegen t + 1)) (t_cachelimit t),
      default w db).

(** Commit to the trie's own database [w]: later reads see what was written. *)
Definition Commit (t : Trie) (w : W) : outcome put_error (bytes * Trie * W) :=
  let* (h, t', w') := CommitTo t w in
  Ok (h, MkTrie (t_root t') (w_get w') (t_originalRoot t') (t_cachegen t') (t_cachelimit t'), w').
End TrieOps.

(** ** Encoding collapsed nodes *)

Fixpoint node_item (n : node) : item :=
  match n with
  | NNil => Lst []
  | NValue b | NHash b => Str b
  | NShort k v _ => Lst [Str k; node_item v]
  | NFull cs _ => Lst (map node_item cs)
  end.

Definition iface_gval (n : node) : gval :=
  match n with NNil => GNilIface | _ => GIface (node_gval n) end.

Lemma iface_enc n : gval_enc (iface_gval n) = gval_enc (node_gval n).
Proof. by destruct n. Qed.

Lemma node_enc n : gval_enc (node_gval n) = Some (rlp_enc (node_item n)).
Proof.
  induction n as [| | |k n fl IH|cs fl IH] using node_ind'; try done.
  - change (node_gval (NShort k n fl)) with (GPtr (GStruct [GBytes k; iface_gval n])). simpl.
    rewrite iface_enc, IH. done.
  - change (node_gval (NFull cs fl)) with (GEncoder (GSlice false (map iface_gval cs))). simpl.
    assert (opt_concat (map gval_enc (map iface_gval cs)) = Some (concat (map rlp_enc (map node_item cs)))) as ->; [|done].
    induction IH as [|n cs Hn _ IHcs]; [done|]. simpl. apply opt_concat_cons. rewrite iface_enc.
    eexists _, _. by split_and!.
Qed.

Lemma node_gval_ok n : gval_ok (node_gval n).
Proof.
  induction n as [| | |k n fl IH|cs fl IH] using node_ind'; try done.
  - change (gval_ok (GStruct [GBytes k; iface_gval n])). simpl. split_and!; [done| |done]. by destruct n.
  - change (foldr (λ v P, gval_ok v ∧ P) True (map iface_gval cs)).
    induction IH as [|n cs Hn _ IHcs]; [done|]. simpl. split; [by destruct n|done].
Qed.

Lemma encode_node n :
  fits64 (length (rlp_enc (node_item n))) → EncodeToBytes (node_gval n) = Ok (rlp_enc (node_item n)).
Proof.
  intros Hf. unfold EncodeToBytes.
  destruct (write_spec _ (node_gval_ok n) _ encbuf_reset (node_enc n) Hf) as (w & -> & A).
  apply appends_reset in A as (Hh & Hs & <-). simpl. by rewrite toBytes_render.
Qed.

(** ** Databases that grow *)

Section Commit.
Context {KC : Keccak} {W : Type} {HW : Writer W}.

(** [U] holds the encodings of the nodes of a trie; if there is a database, none
    of them collide. *)
Context (U : bytes → Prop).
Hypothesis collision_free : inhabited W → ∀ e1 e2, U e1 → U e2 → keccak256 e1 = keccak256 e2 → e1 = e2.

Definition within (t : ptrie) : Prop := all_sub (λ s, U (enc s)) t.

(** Nodes of the trie stay in the database. *)
Definition db_ext (db db' : bytes → option bytes) : Prop :=
  ∀ e, U e → db (keccak256 e) = Some e → db' (keccak256 e) = Some e.

Lemma db_ext_refl db : db_ext db db.
Proof. by intros e. Qed.

Lemma db_ext_trans db1 db2 db3 : db_ext db1 db2 → db_ext db2 db3 → db_ext db1 db3.
Proof. intros H1 H2 e He H. by apply H2, H1. Qed.

Lemma db_ext_put e w w' :
  U e → w_put (keccak256 e) e w = Some w' → db_ext (w_get w) (w_get w').
Proof.
  intros He Hp e' He' H. rewrite (w_get_put _ _ _ _ _ Hp). case_decide as E; [|done].
  f_equal. symmetry. by apply (collision_free (inhabits w)).
Qed.

Lemma stored_mono db db' t : db_ext db db' → within t → stored db t → stored db' t.
Proof.
  intros He. induction t as [|v|k t IH|ts IH] using ptrie_ind'; intros Hw Hs.
  - split; [|done]. intros Hh. done.
  - split; [|done]. intros Hh. done.
  - destruct Hw as [Hu Hw], Hs as [Hh Hs]. split; [|by apply IH]. intros E. by apply He, Hh.
  - apply all_sub_branch in Hw as [Hu Hw], Hs as [Hh Hs]. apply all_sub_branch.
    split; [intros E; by apply He, Hh|]. rewrite Forall_forall in IH, Hw, Hs |- *.
    intros t Ht. apply IH; [done|by apply Hw|by apply Hs].
Qed.

Lemma stored_below_mono db db' t : db_ext db db' → within t → stored_below db t → stored_below db' t.
Proof.
  intros He Hw. destruct t as [| |k t|ts]; simpl; [done..| |].
  - apply stored_mono; [done|apply Hw].
  - apply all_sub_branch in Hw as [_ Hw]. rewrite !Forall_forall in *. intros Hs t Ht.
    eapply stored_mono; [done|by apply Hw|by apply Hs].
Qed.

Lemma flag_ok_mono db db' b fl t : db_ext db db' → within t → flag_ok db b fl t → flag_ok db' b fl t.
Proof.
  intros He Hw. unfold flag_ok. destruct (f_hash fl) as [h|]; [|done]. intros (-> & Hb & Hd).
  split_and!; [done..|]. intros Hc. destruct (Hd Hc) as [H1 H2]. split; [|by eapply stored_below_mono].
  apply He; [|done]. by apply all_sub_here in Hw.
Qed.

Lemma repr_mono db db' b n t : db_ext db db' → within t → repr db b n t → repr db' b n t.
Proof.
  intros He. revert b t. induction n as [| | |k n fl IH|cs fl IH] using node_ind'; intros b t Hw Hr.
  - inversion Hr; subst. constructor.
  - inversion Hr; subst. constructor.
  - inversion Hr as [| | | |? ? ? Hc Hs Hst Hdb Hh Hb]; subst. constructor; try done.
    + by eapply stored_below_mono.
    + apply He; [|done]. by apply all_sub_here in Hw.
  - apply repr_short_inv in Hr as (t' & -> & Hr & Hfl). constructor; [|by eapply flag_ok_mono].
    apply IH; [apply Hw|done].
  - apply repr_full_inv in Hr as (ts & -> & Hr & Hfl). constructor; [|by eapply flag_ok_mono].
    apply all_sub_branch in Hw as [_ Hw]. clear Hfl.
    induction Hr as [|n t cs ts Hn _ IHcs]; [constructor|].
    apply Forall_cons in IH as [IHn IH], Hw as [Hwt Hw]. constructor; auto.
Qed.

(** ** What [hash] computes *)

Context (db0 : bytes → option bytes) (gen limit : Z).

(** The only error of hashing. *)
Definition put_fails : Prop := ∃ k v (w : W), w_put k v w = None.

(** The contents of the database the trie reads from. *)
Definition cont (o : option W) : bytes → option bytes :=
  match o with
  | Some w => w_get w
  | None => db0
  end.

(** The collapsed form of a node: its hash, or the node with collapsed children. *)
Definition collapsed_ok (force : bool) (n : node) (t : ptrie) : Prop :=
  if force || hashed t then n = NHash (keccak256 (enc t)) else node_item n = citem t ∧ is_hash n = false ∧ n ≠ NNil.

Definition hash_ok (b : bool) (t : ptrie) (o : option W) (r : outcome put_error (node * node * option W)) : Prop :=
  match r with
  | Ok (h, c, o') =>
      collapsed_ok b h t ∧ repr (cont o') b c t ∧ db_ext (cont o) (cont o') ∧ (is_Some o ↔ is_Some o') ∧
      (is_Some o → stored_below (cont o') t ∧ (b || hashed t → cont o' (keccak256 (enc t)) = Some (enc t)))
  | Err _ => put_fails
  | Panic => False
  end.

(** A cached hash, by the kind of node that has one. *)
Lemma cached_repr b n t o h dirty :
  repr (cont o) b n t → cache n = (Some h, dirty) →
  h = keccak256 (enc t) ∧ (b = false → hashed t = true) ∧
  (dirty = false → cont o h = Some (enc t) ∧ stored_below (cont o) t).
Proof.
  intros Hr Hc. destruct n as [|v|hh|k n fl|cs fl]; try done.
  - apply repr_short_inv in Hr as (t' & -> & _ & Hfl). injection Hc as Hh <-. unfold flag_ok in Hfl.
    by rewrite Hh in Hfl.
  - apply repr_full_inv in Hr as (ts & -> & _ & Hfl). injection Hc as Hh <-. unfold flag_ok in Hfl.
    by rewrite Hh in Hfl.
Qed.

Lemma force_hashed (b : bool) t : (b = false → hashed t = true) → b || hashed t = true.
Proof. destruct b; [done|]. auto. Qed.

Lemma use_cache_ok b n t o h c :
  repr (cont o) b n t → canon t → sized t →
  use_cache gen limit n o = Some (h, c) → hash_ok b t o (Ok (h, c, o)).
Proof.
  intros Hr Hc Hs Hu. unfold use_cache in Hu. destruct (cache n) as [[hh|] dirty] eqn:Ec; [|done].
  destruct (cached_repr _ _ _ _ _ _ Hr Ec) as (-> & Hb & Hd). apply force_hashed in Hb as Hfh.
  unfold hash_ok, collapsed_ok. rewrite Hfh.
  destruct o as [w|].
  - set (unload := match n with NShort _ _ fl | NFull _ fl => canUnload fl gen limit | _ => false end) in Hu.
    assert (unload = true → dirty = false) as Hun.
    { unfold unload, canUnload. destruct n; try done; injection Ec as _ <-; by intros [? _]%andb_prop; destruct (f_dirty _). }
    assert (dirty = false → (is_Some (Some w) → stored_below (cont (Some w)) t ∧
      (true → cont (Some w) (keccak256 (enc t)) = Some (enc t)))) as Hst by (intros ? _; by destruct Hd).
    destruct unload.
    + injection Hu as <- <-. destruct (Hd (Hun eq_refl)) as [Hdb Hsb].
      split_and!; [done| |apply db_ext_refl|done|by apply Hst, Hun]. by constructor.
    + destruct dirty; [done|]. injection Hu as <- <-. split_and!; [done|done|apply db_ext_refl|done|by apply Hst].
  - injection Hu as <- <-. split_and!; [done|done|apply db_ext_refl|done|by intros []].
Qed.

(** [store] of a node with collapsed children, and the flags that follow. *)
Lemma store_ok b t o col :
  node_item col = citem t → is_hash col = false → col ≠ NNil → inner t = true → sized t → within t →
  (∀ h, fst (cache col) = Some h → h = keccak256 (enc t)) →
  match store col o b with
  | Ok (h, o') =>
      collapsed_ok b h t ∧ db_ext (cont o) (cont o') ∧ (is_Some o ↔ is_Some o') ∧
      (is_Some o → b || hashed t → cont o' (keccak256 (enc t)) = Some (enc t))
  | Err _ => put_fails
  | Panic => False
  end.
Proof.
  intros Hi Hh Hnil Hin Hs Hw Hca.
  assert (store col o b = if (length (enc t) <? 32)%nat && negb b then Ok (col, o) else
    match o with
    | None => Ok (NHash (keccak256 (enc t)), o)
    | Some w => match w_put (keccak256 (enc t)) (enc t) w with
                | Some w' => Ok (NHash (keccak256 (enc t)), Some w')
                | None => Err PutError
                end
    end) as ->.
  { assert (EncodeToBytes (node_gval col) = Ok (enc t)) as E.
    { unfold enc. rewrite <-Hi. apply encode_node. rewrite Hi. by apply all_sub_here in Hs as [? _]. }
    unfold store. rewrite E. destruct (fst (cache col)) as [h|] eqn:Ec; [rewrite (Hca h eq_refl)|]; by destruct col. }
  unfold collapsed_ok, hashed. rewrite Hin, andb_true_l.
  destruct (Nat.ltb_spec (length (enc t)) 32), (Nat.leb_spec 32 (length (enc t))); [lia| | |lia];
    destruct b; simpl; try (split; [done|]; split_and!; [apply db_ext_refl|done|done]).
  all: destruct o as [w|]; [|split_and!; [done|apply db_ext_refl|done|by intros []]].
  all: destruct (w_put _ _ w) as [w'|] eqn:Ep; [|by eexists _, _, w].
  all: split_and!; [done| |done|intros _ _; simpl; rewrite (w_get_put _ _ _ _ _ Ep); by rewrite decide_True].
  all: eapply db_ext_put, Ep; by apply all_sub_here in Hw.
Qed.

(** The flags set after hashing are right. *)
Lemma flag_after b t o o2 hashed fl :
  collapsed_ok b hashed t → flag_ok (cont o) b fl t → (is_Some o ↔ is_Some o2) →
  (o = None → f_hash fl = None) →
  (is_Some o → stored_below (cont o2) t ∧ (b || TrieNode.hashed t → cont o2 (keccak256 (enc t)) = Some (enc t))) →
  flag_ok (cont o2) b
    (NodeFlag (match hashed with NHash h => Some h | _ => None end) (f_gen fl)
      (if bool_decide (is_Some o2) then false else f_dirty fl)) t.
Proof.
  intros Hcol Hfl Ho HN Hst. unfold collapsed_ok in Hcol. unfold flag_ok in *. simpl.
  destruct (b || TrieNode.hashed t) eqn:E.
  - rewrite Hcol. split_and!; [done|by destruct b|]. intros Hd.
    destruct o as [w|]; [by destruct (Hst (mk_is_Some _ _ eq_refl)); auto|].
    rewrite HN in Hfl by done. rewrite bool_decide_false in Hd by (by intros [? ?]%Ho).
    destruct (Hfl Hd) as [-> Hh]. by rewrite Hh in E.
  - destruct Hcol as (_ & Hh & _). apply orb_false_elim in E. by destruct hashed.
Qed.

(** The last steps of [hash], once the children are done. *)
Lemma hash_finish b t o o1 col cached fl mk :
  node_item col = citem t → is_hash col = false → col ≠ NNil → fst (cache col) = f_hash fl →
  inner t = true → sized t → within t → flag_ok (cont o) b fl t →
  (o = None → f_hash fl = None) → (is_Some o ↔ is_Some o1) → db_ext (cont o) (cont o1) →
  (is_Some o → stored_below (cont o1) t) →
  cached = mk fl → (∀ h c, set_cached (mk fl) h c =
    mk (NodeFlag (match h with NHash h => Some h | _ => None end) (f_gen fl) (if c then false else f_dirty fl))) →
  (∀ o2 fl', db_ext (cont o1) (cont o2) → flag_ok (cont o2) b fl' t → repr (cont o2) b (mk fl') t) →
  hash_ok b t o
    (let* (hashed, o2) := store col o1 b in Ok (hashed, set_cached cached hashed (bool_decide (is_Some o2)), o2)).
Proof.
  intros Hi Hh Hnil Hca Hin Hs Hw Hfl HN Ho Hext Hsb -> Hset Hmk.
  pose proof (store_ok b t o1 col Hi Hh Hnil Hin Hs Hw) as Hstore.
  destruct (store col o1 b) as [[hashed o2]|e|]; cbn [obind].
  - destruct Hstore as (Hcol & Hext2 & Ho2 & Hput).
    { intros h Hc. rewrite Hca in Hc. unfold flag_ok in Hfl. rewrite Hc in Hfl. apply Hfl. }
    assert (is_Some o → stored_below (cont o2) t ∧ (b || TrieNode.hashed t → cont o2 (keccak256 (enc t)) = Some (enc t))) as Hst.
    { intros Hso. split; [|by apply Hput, Ho]. by eapply stored_below_mono; [..|apply Hsb]. }
    unfold hash_ok. rewrite Hset. split_and!; [done| |by eapply db_ext_trans|by rewrite Ho|done].
    apply Hmk; [done|]. eapply flag_after; [done..|by rewrite Ho|done|done].
  - apply Hstore. intros h Hc. rewrite Hca in Hc. unfold flag_ok in Hfl. rewrite Hc in Hfl. apply Hfl.
  - apply Hstore. intros h Hc. rewrite Hca in Hc. unfold flag_ok in Hfl. rewrite Hc in Hfl. apply Hfl.
Qed.

Lemma use_cache_None n (o : option W) fl :
  (∃ k v, n = NShort k v fl) ∨ (∃ cs, n = NFull cs fl) →
  use_cache gen limit n o = None → o = None → f_hash fl = None.
Proof.
  intros Hn Hu ->. unfold use_cache in Hu. destruct Hn as [(k & v & ->)|(cs & ->)]; simpl in Hu; by destruct (f_hash fl).
Qed.

Lemma hash_full cs fl (o : option W) b :
  hash gen limit (NFull cs fl) o b =
    match use_cache gen limit (NFull cs fl) o with
    | Some (h, c) => Ok (h, c, o)
    | None =>
        let* (ccs, ncs, o1) := hash_children gen limit 0 cs o in
        let* (hashed, o2) := store (NFull ccs fl) o1 b in
        Ok (hashed, set_cached (NFull ncs fl) hashed (bool_decide (is_Some o2)), o2)
    end.
Proof.
  cbn [hash]. destruct (use_cache _ _ _ _) as [[]|]; [done|].
  set (go := fix go (i : nat) (cs : list node) (db : option W) {struct cs} := _).
  assert (∀ cs i o, go i cs o = hash_children gen limit i cs o) as Hgo.
  { clear. induction cs as [|c cs IH]; intros i o; [done|]. cbn [hash_children].
    change (go i (c :: cs) o) with (let* (cc, nc, db) :=
        if (i <? 16)%nat then
          match c with
          | NNil => Ok (NValue [], NNil, o)
          | _ => hash gen limit c o false
          end
        else Ok (nil_to_value c, c, o) in
      let* (ccs, ncs, db) := go (S i) cs db in
      Ok (cc :: ccs, nc :: ncs, db)).
    destruct (if (i <? 16)%nat then _ else _) as [[[cc nc] o']|e|]; [|done..]. cbn [obind]. by rewrite IH. }
  rewrite Hgo. by destruct (hash_children gen limit 0 cs o) as [[[ccs ncs] o1]|e|].
Qed.

(** What one child contributes. *)
Definition child_ok (o : option W) (t : ptrie) (cc nc : node) (o' : option W) : Prop :=
  node_item cc = collapse (citem t) ∧ repr (cont o') false nc t ∧ db_ext (cont o) (cont o') ∧
  (is_Some o ↔ is_Some o') ∧ (is_Some o → stored (cont o') t).

Lemma hash_ok_child o t h c o' :
  hash_ok false t o (Ok (h, c, o')) → child_ok o t h c o'.
Proof.
  intros (Hcol & Hr & Hext & Ho & Hst). unfold child_ok. rewrite collapse_citem. unfold collapsed_ok in Hcol. simpl in *.
  split_and!; [|done|done|done|].
  - destruct (hashed t); [by subst|by destruct Hcol].
  - intros Hso. apply stored_split. destruct (Hst Hso) as [? Hh]. split; [|done]. intros E. apply Hh. by rewrite E.
Qed.

Definition children_ok (o : option W) (ts : list ptrie) (r : outcome put_error (list node * list node * option W)) : Prop :=
  match r with
  | Ok (ccs, ncs, o') =>
      map node_item ccs = map (λ t, collapse (citem t)) ts ∧ Forall2 (repr (cont o') false) ncs ts ∧
      db_ext (cont o) (cont o') ∧ (is_Some o ↔ is_Some o') ∧ (is_Some o → Forall (stored (cont o')) ts)
  | Err _ => put_fails
  | Panic => False
  end.

Definition hash_correct (n : node) : Prop := ∀ b t o,
  repr (cont o) b n t → canon t → sized t → within t → hash_ok b t o (hash gen limit n o b).

Lemma child_step i c t o :
  hash_correct c → repr (cont o) false c t → canon_at i t → (i ≤ 16)%nat → sized t → within t →
  match (if (i <? 16)%nat then
           match c with NNil => Ok (NValue [], NNil, o) | _ => hash gen limit c o false end
         else Ok (nil_to_value c, c, o)) with
  | Ok (cc, nc, o1) => child_ok o t cc nc o1
  | Err _ => put_fails
  | Panic => False
  end.
Proof.
  intros IH Hr Hc Hi Hs Hw. case_cmp.
  - destruct Hc as [->|Hc].
    + inversion Hr as [| | | |? ? ? Hc]; subst; [|inversion Hc].
      split_and!; [done|constructor|apply db_ext_refl|done|by split].
    + revert Hc. case_cmp. intros Hc. specialize (IH false t o Hr Hc Hs Hw).
      assert (c ≠ NNil) by (intros ->; inversion Hr; subst; inversion Hc).
      replace (match c with NNil => _ | _ => _ end) with (hash gen limit c o false) by (by destruct c).
      destruct (hash gen limit c o false) as [[[cc nc] o1]|e|]; [by apply hash_ok_child|done|done].
  - unfold canon_at in Hc. revert Hc. case_cmp. intros [->|(v & _ & ->)].
    + inversion Hr as [| | | |? ? ? Hc]; subst; [|inversion Hc].
      split_and!; [done|constructor|apply db_ext_refl|done|by split].
    + inversion Hr as [| | | |? ? ? Hc]; subst; [|inversion Hc].
      split_and!; [done|constructor|apply db_ext_refl|done|by split].
Qed.

Lemma hash_children_ok i cs ts o :
  Forall hash_correct cs → Forall2 (repr (cont o) false) cs ts → (i + length ts = 17)%nat →
  (∀ j t, ts !! j = Some t → canon_at (i + j) t) → Forall sized ts → Forall within ts →
  children_ok o ts (hash_children gen limit i cs o).
Proof.
  intros IH Hr. revert i o Hr. revert ts.
  induction IH as [|c cs Hc _ IH]; intros ts i o Hr Hl Hcan Hs Hw.
  { inversion Hr; subst. split_and!; [done|constructor|apply db_ext_refl|done|by constructor]. }
  inversion Hr as [|? t ? ts' Hrc Hrs]; subst. simpl in Hl.
  apply Forall_cons in Hs as [Hs Hss], Hw as [Hw Hws].
  pose proof (child_step i c t o Hc Hrc) as Hstep. cbn [hash_children].
  destruct (if (i <? 16)%nat then _ else _) as [[[cc nc] o1]|e|]; cbn [obind].
  - destruct Hstep as (Hi1 & Hr1 & Hext1 & Ho1 & Hst1); [by specialize (Hcan 0%nat t); rewrite Nat.add_0_r in Hcan; apply Hcan|lia|done..|].
    assert (children_ok o1 ts' (hash_children gen limit (S i) cs o1)) as Hrest.
    { apply IH; [|lia| |done|done].
      - apply Forall2_same_length_lookup_2; [by eapply Forall2_length|]. intros j x y Hx Hy.
        eapply repr_mono; [exact Hext1|exact (Forall_lookup_1 _ _ _ _ Hws Hy)|by eapply Forall2_lookup_lr].
      - intros j u Hu. replace (S i + j)%nat with (i + S j)%nat by lia. by apply Hcan. }
    destruct (hash_children gen limit (S i) cs o1) as [[[ccs ncs] o2]|e|]; cbn [obind].
    + destruct Hrest as (Hi2 & Hr2 & Hext2 & Ho2 & Hst2). split_and!.
      * simpl. by rewrite Hi1, Hi2.
      * constructor; [by eapply repr_mono|done].
      * by eapply db_ext_trans.
      * by rewrite Ho1.
      * intros Hso. constructor; [eapply stored_mono; [done..|by apply Hst1]|by apply Hst2, Ho1].
    + done.
    + done.
  - simpl. apply Hstep; [by specialize (Hcan 0%nat t); rewrite Nat.add_0_r in Hcan; apply Hcan|lia|done..].
  - apply Hstep; [by specialize (Hcan 0%nat t); rewrite Nat.add_0_r in Hcan; apply Hcan|lia|done..].
Qed.

Lemma hash_short k v fl (o : option W) b :
  hash gen limit (NShort k v fl) o b =
    match use_cache gen limit (NShort k v fl) o with
    | Some (h, c) => Ok (h, c, o)
    | None =>
        let* ck := hexToCompact k in
        let* (cv, nv, o1) := match v with NValue _ => Ok (v, v, o) | _ => hash gen limit v o false end in
        let* (hashed, o2) := store (NShort ck (nil_to_value cv) fl) o1 b in
        Ok (hashed, set_cached (NShort k nv fl) hashed (bool_decide (is_Some o2)), o2)
    end.
Proof.
  cbn [hash]. destruct (use_cache _ _ _ _) as [[]|]; [done|]. destruct (hexToCompact k); [|done..]. cbn [obind].
  by destruct (match v with NValue _ => _ | _ => _ end) as [[[cv nv] o1]|e|].
Qed.

(** The child of a short node. *)
Lemma short_child k v t o :
  hash_correct v → repr (cont o) false v t → canon (PExt k t) → sized t → within t →
  match (match v with NValue _ => Ok (v, v, o) | _ => hash gen limit v o false end) with
  | Ok (cv, nv, o1) => child_ok o t (nil_to_value cv) nv o1
  | Err _ => put_fails
  | Panic => False
  end.
Proof.
  intros IH Hr Hc Hs Hw. apply canon_ext_inv in Hc as [(x & -> & _)|(ts & -> & Hts & _)].
  - inversion Hr as [| | | |? ? ? Hc]; subst; [|inversion Hc].
    split_and!; [done|constructor|apply db_ext_refl|done|by split].
  - specialize (IH false _ o Hr Hts Hs Hw).
    replace (match v with NValue _ => _ | _ => _ end) with (hash gen limit v o false) by (by inversion Hr).
    destruct (hash gen limit v o false) as [[[cv nv] o1]|e|]; [|done..].
    assert (nil_to_value cv = cv) as ->; [|by apply hash_ok_child].
    destruct IH as (Hcol & _). unfold collapsed_ok in Hcol. simpl in Hcol.
    destruct (hashed (PBranch ts)); [by subst|]. destruct Hcol as (_ & _ & ?). by destruct cv.
Qed.

(** [hash] returns the collapsed form and keeps the represented trie. *)
Lemma hash_spec n : hash_correct n.
Proof.
  induction n as [| |h|k v fl IH|cs fl IH] using node_ind'; intros b t o Hr Hc Hs Hw.
  - inversion Hr; subst. inversion Hc.
  - inversion Hr; subst. inversion Hc.
  - inversion Hr as [| | | |? ? ? _ _ Hst Hdb Hh Hb]; subst. simpl.
    unfold hash_ok, collapsed_ok. rewrite (force_hashed b t) by done.
    split_and!; [done..|apply db_ext_refl|done|done].
  - apply repr_short_inv in Hr as (t' & -> & Hr & Hfl). rewrite hash_short.
    destruct (use_cache gen limit (NShort k v fl) o) as [[h c]|] eqn:Eu.
    { eapply use_cache_ok; [|done..|exact Eu]. by constructor. }
    destruct (compact_spec k (canon_hexkey _ _ Hc)) as (Hck & _). rewrite Hck. cbn [obind].
    pose proof (short_child k v t' o IH Hr Hc (proj2 Hs) (proj2 Hw)) as Hv.
    destruct (match v with NValue _ => _ | _ => _ end) as [[[cv nv] o1]|e|]; [|done..]. cbn [obind].
    destruct Hv as (Hi & Hr' & Hext & Ho & Hst).
    eapply (hash_finish b _ o o1 _ _ fl (NShort k nv)); try done.
    + simpl. by rewrite Hi.
    + eapply use_cache_None; [|exact Eu]. eauto.
    + intros o2 fl' He Hf. constructor; [|done]. eapply repr_mono; [done|apply Hw|done].
  - apply repr_full_inv in Hr as (ts & -> & Hr & Hfl). rewrite hash_full.
    destruct (use_cache gen limit (NFull cs fl) o) as [[h c]|] eqn:Eu.
    { eapply use_cache_ok; [|done..|exact Eu]. by constructor. }
    pose proof Hc as (Hl & Hcan & _)%canon_branch_iff.
    pose proof Hs as (_ & Hss)%all_sub_branch. pose proof Hw as (_ & Hws)%all_sub_branch.
    pose proof (hash_children_ok 0 cs ts o IH Hr Hl Hcan Hss Hws) as Hcs.
    destruct (hash_children gen limit 0 cs o) as [[[ccs ncs] o1]|e|]; [|done..]. cbn [obind].
    destruct Hcs as (Hi & Hr' & Hext & Ho & Hst).
    eapply (hash_finish b _ o o1 _ _ fl (NFull ncs)); try done.
    + simpl. by rewrite Hi.
    + eapply use_cache_None; [|exact Eu]. eauto.
    + intros o2 fl' He Hf. constructor; [|done].
      apply Forall2_same_length_lookup_2; [by eapply Forall2_length|]. intros j x y Hx Hy.
      eapply repr_mono; [done|exact (Forall_lookup_1 _ _ _ _ Hws Hy)|by eapply Forall2_lookup_lr].
Qed.
End Commit.
