(* ===== verification/TrieMap.v ===== *)
(** * The trie as a finite map with a root hash (common/trie/trie.go)

    What a client of the trie relies on, stated for finite maps from byte
    strings to byte strings: lookups and updates are those of the map, the root
    hash depends on the map alone, and a committed trie can be opened again from
    its root hash. *)

From S2P Require Import Prelude Sha3 RlpSpec TrieEncoding TrieSpec TrieNode Trie TrieRefine TrieHasher.
Local Open Scope Z_scope.

(** ** Contents *)

(** [m] is what is stored in [t]. *)
Definition content (t : ptrie) (m : gmap bytes bytes) : Prop :=
  (∀ k, Forall is_byte k → plookup t (keybytesToHex k) = m !! k) ∧
  (∀ key, is_key key → is_Some (plookup t key) → ∃ k, Forall is_byte k ∧ key = keybytesToHex k) ∧
  map_Forall (λ k _, Forall is_byte k) m.

Lemma keybytesToHex_key k : Forall is_byte k → is_key (keybytesToHex k).
Proof. intros H. exists (nibbles k). split; [by apply nibbles_nibble|done]. Qed.

Lemma keybytesToHex_inj k1 k2 :
  Forall is_byte k1 → Forall is_byte k2 → keybytesToHex k1 = keybytesToHex k2 → k1 = k2.
Proof.
  intros H1 H2 E. pose proof (hexToKeybytes_even (E:=unit) k1 (keybytesToHex k1) H1 (or_intror eq_refl)) as E1.
  pose proof (hexToKeybytes_even (E:=unit) k2 (keybytesToHex k2) H2 (or_intror eq_refl)) as E2.
  rewrite E in E1. congruence.
Qed.

Lemma content_empty : content PEmpty ∅.
Proof. split_and!; [done|by intros key _ []|apply map_Forall_empty]. Qed.

Lemma content_unique t1 t2 m :
  canonical t1 → canonical t2 → content t1 m → content t2 m → t1 = t2.
Proof.
  intros H1 H2 (A1 & B1 & _) (A2 & B2 & _). apply canonical_unique; [done..|]. intros key Hk.
  destruct (plookup t1 key) as [v|] eqn:E1.
  { destruct (B1 key Hk (mk_is_Some _ _ E1)) as (k & Hb & ->). by rewrite A2, <-A1. }
  destruct (plookup t2 key) as [v|] eqn:E2; [|done].
  destruct (B2 key Hk (mk_is_Some _ _ E2)) as (k & Hb & ->). by rewrite A1, <-A2, E2 in E1.
Qed.

(** Any operation that changes the lookup of one key. *)
Lemma content_change t t' m k (o : option bytes) :
  content t m → Forall is_byte k →
  (∀ key, is_key key → plookup t' key = if decide (key = keybytesToHex k) then o else plookup t key) →
  content t' (partial_alter (λ _, o) k m).
Proof.
  intros (A & B & C) Hk H. split_and!.
  - intros k' Hk'. rewrite H by (by apply keybytesToHex_key). destruct (decide (k' = k)) as [->|Hne].
    + by rewrite decide_True, lookup_partial_alter_eq.
    + rewrite decide_False by (intros E; by apply Hne, keybytesToHex_inj). by rewrite lookup_partial_alter_ne, A.
  - intros key Hkey. rewrite H by done. case_decide as E; [|by apply B]. by exists k.
  - intros k' v. destruct (decide (k' = k)) as [->|Hne]; [done|]. rewrite lookup_partial_alter_ne by done. apply C.
Qed.

(** ** Sizes *)

(** Keys and values below 4 GB. *)
Definition small (m : gmap bytes bytes) : Prop :=
  map_Forall (λ k v, Z.of_nat (length k) < 2 ^ 32 ∧ Forall is_byte v ∧ Z.of_nat (length v) < 2 ^ 32) m.

Lemma header_upper s l n : fits64 n → (length (header s l n) ≤ 9)%nat.
Proof.
  unfold fits64, header. intros H. case_cmp; [simpl; lia|]. simpl. rewrite length_be_bytes.
  destruct (byte_len_bounds (Z.of_nat n) ltac:(lia)) as [Hl _].
  assert (¬ 8 ≤ Z.of_nat (byte_len (Z.of_nat n)) - 1); [|lia]. intros Hc.
  apply (Z.pow_le_mono_r 256) in Hc; [|lia]. change (256 ^ 8) with (2 ^ 64) in Hc. lia.
Qed.

Lemma enc_str_upper b : fits64 (length b) → (length (enc_str b) ≤ 9 + length b)%nat.
Proof.
  intros H. pose proof (header_upper 128 183 _ H). unfold enc_str.
  destruct b as [|x [|]]; [..|rewrite length_app; lia]; [rewrite length_app; lia|]. case_cmp; simpl; lia.
Qed.

Lemma enc_list_upper p : fits64 (length p) → (length (enc_list p) ≤ 9 + length p)%nat.
Proof. intros H. pose proof (header_upper 192 247 _ H). unfold enc_list. rewrite length_app. lia. Qed.

Lemma concat_upper (l : list item) n :
  Forall (λ it, (length (rlp_enc it) ≤ n)%nat) l → (length (concat (map rlp_enc l)) ≤ length l * n)%nat.
Proof. induction 1; simpl; [lia|]. rewrite length_app. lia. Qed.

Lemma compact_upper k : hexkey k → (length (compact k) ≤ length k + 1)%nat.
Proof.
  intros Hk. assert (∃ ns, Forall is_nibble ns ∧ (k = ns ∨ k = ns ++ [16])) as (ns & Hns & Hh)
    by (destruct Hk; eauto).
  destruct (hexToCompact_spec (E:=unit) ns k Hns Hh) as (n & bs & _ & _ & E & Ens). unfold compact. rewrite E.
  assert (length (nibbles bs) ≤ length ns)%nat as Hl by (apply (f_equal length) in Ens; rewrite Ens; destruct (Nat.odd _); simpl; lia).
  rewrite length_nibbles in Hl. assert (length ns ≤ length k)%nat by (destruct Hh; subst; rewrite ?length_app; lia).
  simpl. lia.
Qed.

Section Sizes.
Context {KC : Keccak}.

(** [B] bounds the keys and values that can be read. *)
Definition bounded (B : nat) (t : ptrie) : Prop :=
  ∀ key v, pos_ok t key → plookup t key = Some v → (length key ≤ B)%nat ∧ Forall is_byte v ∧ (length v ≤ B)%nat.

Lemma ref_upper B t : sub_ok t → bounded B t → Z.of_nat B < 2 ^ 34 →
  (length (rlp_enc (collapse (citem t))) ≤ 41 + B)%nat.
Proof.
  intros Ht Hb HB. rewrite collapse_citem. destruct (hashed t) eqn:E.
  - change (length (enc_str (keccak256 (enc t))) ≤ 41 + B)%nat. etrans; [apply enc_str_upper|]; rewrite keccak_length; [done|lia].
  - destruct Ht as [->|[[v ->]|Ht]]; [simpl; lia| |].
    + change (length (enc_str v) ≤ 41 + B)%nat.
      assert (length v ≤ B)%nat as Hv.
      { destruct (decide (v = [])) as [->|]; [simpl; lia|]. apply (Hb [] v); [|done]. right. split; [done|]. right; eauto. }
      etrans; [apply enc_str_upper; unfold fits64; lia|lia].
    + change (length (enc t) ≤ 41 + B)%nat. unfold hashed in E. rewrite (canon_inner t Ht), andb_true_l in E.
      apply Nat.leb_gt in E. lia.
Qed.

Lemma bounded_branch B ts i t :
  canon (PBranch ts) → bounded B (PBranch ts) → ts !! i = Some t → bounded B t ∧ sub_ok t.
Proof.
  intros Hc Hb Ht. pose proof Hc as (Hl & Hca & _)%canon_branch_iff. specialize (Hca _ _ Ht).
  apply lookup_lt_Some in Ht as Hi. split; [|by apply (canon_at_cases i)].
  assert (∀ key, pos_ok t key → is_Some (plookup t key) → is_key (Z.of_nat i :: key)) as Hkey.
  { intros key Hp Hs. apply is_key_cons. unfold canon_at in Hca. revert Hca. case_cmp.
    - intros Hca. right. destruct Hca as [->|(v & _ & ->)]; [by destruct Hs|]. destruct key; [split; [lia|done]|by destruct Hs].
    - intros Hca. left. split; [unfold is_nibble; lia|]. destruct Hp as [[_ ?]|[-> [->|(v & _ & ->)]]]; [done|by destruct Hs|].
      destruct Hca as [?|Hca]; [done|inversion Hca]. }
  intros key v Hp Hv. destruct (Hb (Z.of_nat i :: key) v) as (H1 & H2 & H3).
  - left. split; [by right|]. by apply Hkey.
  - by rewrite (branch_lookup_nat _ _ _ _ Ht).
  - simpl in H1. split_and!; [lia|done..].
Qed.

Lemma bounded_ext B k t :
  canon (PExt k t) → bounded B (PExt k t) → bounded B t ∧ sub_ok t ∧ (length k ≤ B)%nat.
Proof.
  intros Hc Hb. assert (∀ key v, plookup t key = Some v → is_key (k ++ key) →
    (length (k ++ key) ≤ B)%nat ∧ Forall is_byte v ∧ (length v ≤ B)%nat) as H.
  { intros key v Hv Hk. apply Hb; [left; split; [by right|done]|]. by rewrite plookup_ext. }
  setoid_rewrite length_app in H.
  apply canon_ext_inv in Hc as [(v & -> & Hv & Hk)|(ts & -> & Hts & _ & Hn)].
  - destruct (H [] v eq_refl) as (H1 & H2 & H3); [by rewrite app_nil_r|].
    split_and!; [|right; left; eauto|lia]. intros [|] w _ Hw; [|done]. injection Hw as <-. simpl in *. split_and!; [lia|done..].
  - split_and!; [|by right; right|].
    + intros key v [[_ Hk]|[_ [?|(? & _ & ?)]]] Hv; [|done..].
      destruct (H key v Hv) as (? & ? & ?); [by apply is_key_nibbles|]. split_and!; [lia|done..].
    + destruct (canon_has_key _ Hts) as (key & v & Hk & Hv). destruct (H key v Hv) as (? & _); [by apply is_key_nibbles|lia].
Qed.

Lemma bounded_sized B t : Z.of_nat B < 2 ^ 34 → sub_ok t → bounded B t → (∀ v, t = PLeaf v → v ≠ []) → sized t.
Proof.
  intros HB. induction t as [|v|k t IH|ts IH] using ptrie_ind'; intros Ht Hb Hne.
  - split; [|done]. split; done.
  - split; [|done]. destruct (Hb [] v) as (_ & Hv & Hl); [|done|].
    + right. split; [done|]. right; eauto.
    + split; [|done]. unfold enc, fits64. simpl. pose proof (enc_str_upper v). unfold fits64 in *. lia.
  - destruct Ht as [?|[[? ?]|Ht]]; [done..|]. destruct (bounded_ext B k t Ht Hb) as (Hb' & Hs & Hk).
    split; [|apply IH; [done..|]].
    + split; [|done]. unfold enc. simpl. pose proof (compact_upper k (canon_hexkey _ _ Ht)).
      pose proof (ref_upper B t Hs Hb' HB). rewrite app_nil_r. unfold fits64.
      pose proof (enc_str_upper (compact k)). pose proof (enc_list_upper (enc_str (compact k) ++ rlp_enc (collapse (citem t)))) as He.
      rewrite length_app in He. unfold fits64 in *. lia.
    + intros v ->. by apply canon_ext_inv in Ht as [(w & [= ->] & ? & _)|(? & ? & _)].
  - destruct Ht as [?|[[? ?]|Ht]]; [done..|]. apply all_sub_branch. pose proof Ht as (Hl & Hca & _)%canon_branch_iff. split.
    + split; [|done]. unfold enc. simpl. set (l := map (λ t, collapse (citem t)) ts).
      assert (length (concat (map rlp_enc l)) ≤ 17 * (41 + B))%nat.
      { transitivity (length l * (41 + B))%nat; [|unfold l; rewrite length_map, Hl; lia]. apply concat_upper. unfold l.
        apply Forall_fmap, Forall_lookup. intros i t Hi. destruct (bounded_branch B ts i t Ht Hb Hi). by apply (ref_upper B t). }
      pose proof (enc_list_upper (concat (map rlp_enc l))). unfold fits64 in *. lia.
    + apply Forall_lookup. intros i t Hi. destruct (bounded_branch B ts i t Ht Hb Hi) as [Hb' Hs].
      rewrite Forall_lookup in IH. apply (IH i t Hi Hs Hb'). intros v ->. specialize (Hca _ _ Hi).
      unfold canon_at in Hca. revert Hca. case_cmp; [naive_solver|]. intros [?|Hc]; [done|inversion Hc].
Qed.

Lemma small_sized t m : canonical t → content t m → small m → sized t.
Proof.
  intros Ht (A & B & C) Hm. apply (bounded_sized (Z.to_nat (2 ^ 33 + 1))).
  - lia.
  - destruct Ht; [by left|by right; right].
  - intros key v Hp Hv. assert (is_key key) as Hk.
    { destruct Hp as [[_ ?]|[-> [->|(? & _ & ->)]]]; [done|done|]. destruct Ht as [?|Ht]; [done|inversion Ht]. }
    destruct (B key Hk (mk_is_Some _ _ Hv)) as (k & Hb & ->). rewrite A in Hv by done.
    destruct (Hm k v Hv) as (H1 & H2 & H3). unfold keybytesToHex. rewrite length_app, length_nibbles. simpl.
    split_and!; [lia|done|lia].
  - intros v ->. destruct Ht as [?|Ht]; [done|inversion Ht].
Qed.
End Sizes.

(** ** The trie of a map *)

Section Map.
Context {KC : Keccak}.

(** [T] stores [m]: its nodes, loaded or in its database, are the trie of [m]. *)
Definition models (T : Trie) (m : gmap bytes bytes) : Prop :=
  ∃ t, canonical t ∧ repr (t_db T) true (t_root T) t ∧ content t m.

Lemma key_pos_ok t k : canonical t → Forall is_byte k → pos_ok t (keybytesToHex k).
Proof. intros. left. split; [done|by apply keybytesToHex_key]. Qed.

Lemma key_rounds_need n key : (need n key ≤ key_rounds key)%nat.
Proof. pose proof (need_le n key). unfold key_rounds. lia. Qed.

Lemma models_get T m k :
  models T m → Forall is_byte k → ∃ T', TryGet k T = (Ok (m !! k), T') ∧ models T' m ∧ t_db T' = t_db T.
Proof.
  intros (t & Hc & Hr & Ht) Hk. unfold TryGet.
  destruct (tryGet_repr (t_db T) (t_cachegen T) (key_rounds (keybytesToHex k)) true (t_root T) t (keybytesToHex k) 0)
    as (n' & did & E & Hr'); rewrite ?drop_0; [done|by apply key_pos_ok|lia|apply key_rounds_need|].
  rewrite drop_0 in E. pose proof Ht as (A & _). rewrite E, A by done. eexists. split; [done|].
  destruct did; (split; [|done]); by exists t.
Qed.

Lemma models_update T m k v :
  models T m → Forall is_byte k →
  ∃ T', TryUpdate k v T = (Ok tt, T') ∧
    models T' (partial_alter (λ _, if decide (v = []) then None else Some v) k m) ∧ t_db T' = t_db T.
Proof.
  intros (t & Hc & Hr & Ht) Hk. pose proof (key_pos_ok t k Hc Hk) as Hp. pose proof (keybytesToHex_key k Hk) as Hkey.
  unfold TryUpdate. case_decide as Ev.
  - subst v. simpl. destruct (delete_repr (t_db T) (t_cachegen T) (key_rounds (keybytesToHex k)) true (t_root T) t []
      (keybytesToHex k) Hr Hp (key_rounds_need _ _)) as (n' & E & Hr' & _).
    rewrite E. eexists. split; [done|]. split; [|done]. pose proof (pdelete_ok t _ Hc Hkey) as Hd. unfold delete_ok in Hd.
    destruct (pdelete t (keybytesToHex k)) as [dirty t']. destruct Hd as (_ & _ & Hc' & Hl).
    exists t'. split_and!; [|done|by eapply content_change]. destruct t; (done || by right).
  - assert (negb (length v =? 0)%nat = true) as -> by (by destruct v).
    destruct (insert_repr (t_db T) (t_cachegen T) (key_rounds (keybytesToHex k)) true (t_root T) t []
      (keybytesToHex k) v Hr Hp Ev (key_rounds_need _ _)) as (dirty & n' & E & Hr' & _).
    rewrite E. eexists. split; [done|]. split; [|done]. exists (pinsert t (keybytesToHex k) (PLeaf v)).
    split_and!; [right; by apply pinsert_canon|done|]. eapply content_change; [done..|].
    intros key Hk'. by apply plookup_insert_canon.
Qed.

(** *** The trie and its root hash as functions of the map *)

Definition trie_of (m : gmap bytes bytes) : ptrie :=
  map_fold (λ k v t, pinsert t (keybytesToHex k) (PLeaf v)) PEmpty m.

Lemma trie_of_content m :
  map_Forall (λ k v, Forall is_byte k ∧ v ≠ []) m → canonical (trie_of m) ∧ content (trie_of m) m.
Proof.
  unfold trie_of. apply (map_fold_weak_ind (λ t m, map_Forall (λ k v, Forall is_byte k ∧ v ≠ []) m → canonical t ∧ content t m)).
  { intros _. split; [by left|apply content_empty]. }
  intros k v m' t Hk IH Hm. apply map_Forall_insert in Hm as [[Hb Hv] Hm]; [|done]. destruct (IH Hm) as [Hc Ht].
  pose proof (keybytesToHex_key k Hb) as Hkey. split; [right; by apply pinsert_canon|].
  apply (content_change t _ m' k (Some v) Ht Hb). intros key Hk'. by apply plookup_insert_canon.
Qed.

Lemma plookup_value t key v : pos_ok t key → plookup t key = Some v → v ≠ [].
Proof.
  revert key. induction t as [|w|k t IH|ts IH] using ptrie_ind'; intros key Hp Hl.
  - done.
  - destruct Hp as [[[?|Hc] _]|[-> [?|(x & Hx & [= ->])]]]; [done|inversion Hc|done|]. by injection Hl as <-.
  - destruct (pos_ok_short _ _ _ Hp) as [Hc Hk]. destruct (ext_key_prefix k t key (mk_is_Some _ _ Hl)) as [r ->].
    rewrite plookup_ext in Hl. apply (IH r); [|done].
    destruct (pos_ok_ext k t (k ++ r) Hc Hk) as [(r' & E & _ & Hr)|(p & c & d & rk & r' & Hparts & _)].
    + by apply app_inv_head in E as <-.
    + destruct Hparts as (E & -> & Hcd). rewrite <-app_assoc in E. by simplify_list_eq.
  - destruct (pos_ok_full _ _ Hp) as [Hc Hk]. destruct key as [|c key]; [by apply is_key_nonempty in Hk|].
    rewrite plookup_branch in Hl. destruct (ts !! nib c) as [t|] eqn:Et; [|done].
    rewrite Forall_lookup in IH. apply (IH _ _ Et key); [exact (pos_ok_branch ts c key t Hc Hk Et)|done].
Qed.

Lemma content_trie_of t m : canonical t → content t m → t = trie_of m.
Proof.
  intros Hc Ht. pose proof Ht as (A & _ & B).
  destruct (trie_of_content m) as [Hc' Ht']; [|by eapply content_unique].
  intros k v Hv. pose proof (B k v Hv) as Hb. split; [done|].
  apply (plookup_value t (keybytesToHex k)); [by apply key_pos_ok|by rewrite A].
Qed.

(** The encodings of the nodes of the trie of [m]. *)
Inductive subtrie (s : ptrie) : ptrie → Prop :=
| subtrie_here : subtrie s s
| subtrie_ext k t : subtrie s t → subtrie s (PExt k t)
| subtrie_branch t ts : t ∈ ts → subtrie s t → subtrie s (PBranch ts).

Definition map_node (m : gmap bytes bytes) (e : bytes) : Prop := ∃ s, subtrie s (trie_of m) ∧ e = enc s.

Lemma subtrie_trans s t u : subtrie s t → subtrie t u → subtrie s u.
Proof. intros Hs. induction 1; [done|by constructor|by eapply subtrie_branch]. Qed.

Lemma subtrie_within m t : subtrie t (trie_of m) → within (map_node m) t.
Proof.
  induction t as [|v|k t IH|ts IH] using ptrie_ind'; intros Hs.
  1,2: split; [by eapply ex_intro, conj|done].
  - split; [by eapply ex_intro, conj|]. apply IH. eapply subtrie_trans; [|done]. constructor. constructor.
  - apply all_sub_branch. split; [by eapply ex_intro, conj|]. rewrite Forall_forall in IH |- *. intros t Ht. apply IH; [done|].
    eapply subtrie_trans; [|done]. by eapply subtrie_branch; [|constructor].
Qed.

(** No two nodes of the trie of [m] have the same hash, and its root does not
    have one of the two hashes that stand for the empty trie. *)
Definition collision_free (m : gmap bytes bytes) : Prop :=
  (∀ e1 e2, map_node m e1 → map_node m e2 → keccak256 e1 = keccak256 e2 → e1 = e2) ∧
  (m ≠ ∅ → keccak256 (enc (trie_of m)) ≠ emptyRoot ∧ keccak256 (enc (trie_of m)) ≠ replicate 32 0).

Lemma BytesToHash_32 h : length h = 32%nat → BytesToHash h = h.
Proof. intros H. unfold BytesToHash. rewrite H. simpl. by rewrite H. Qed.

Lemma content_canon t m : canonical t → content t m → m ≠ ∅ → canon t.
Proof.
  intros [->|Hc] (A & _ & B) Hm; [|done]. destruct Hm. apply map_eq. intros k. rewrite lookup_empty.
  destruct (m !! k) as [v|] eqn:E; [|done]. pose proof (B k v E). by rewrite <-A in E.
Qed.

Lemma content_root_hash t m : canonical t → content t m → root_hash t = root_hash (trie_of m).
Proof. intros. by rewrite <-(content_trie_of t m). Qed.

(** What hashing the root does, with or without a database. *)
Lemma hashRoot_spec {W} {HW : Writer W} T m t (o : option W) :
  (inhabited W → ∀ e1 e2, map_node m e1 → map_node m e2 → keccak256 e1 = keccak256 e2 → e1 = e2) →
  (∀ w, o = Some w → t_db T = w_get w) →
  canonical t → content t m → small m → repr (t_db T) true (t_root T) t →
  match hashRoot (t_cachegen T) (t_cachelimit T) (t_root T) o with
  | Ok (h, c, o') =>
      h = NHash (root_hash t) ∧ repr (cont (t_db T) o') true c t ∧ (is_Some o ↔ is_Some o') ∧
      (is_Some o → canon t → stored_below (cont (t_db T) o') t ∧ cont (t_db T) o' (keccak256 (enc t)) = Some (enc t))
  | Err _ => put_fails (W:=W)
  | Panic => False
  end.
Proof.
  intros Hcf Ho Hc Ht Hm Hr. assert (repr (cont (t_db T) o) true (t_root T) t) as Hr'.
  { destruct o as [w|]; [|done]. simpl. by rewrite <-Ho. }
  pose proof (small_sized t m Hc Ht Hm) as Hs. destruct Hc as [->|Hc].
  - inversion Hr as [| | | |? ? ? Hc]; subst; [|inversion Hc]. simpl. split_and!; [done|constructor|done|].
    intros _ Hc. inversion Hc.
  - assert (within (map_node m) t) as Hw.
    { apply subtrie_within. rewrite <-(content_trie_of t m); [constructor|by right|done]. }
    pose proof (hash_spec (map_node m) Hcf (t_db T) (t_cachegen T) (t_cachelimit T) _ true t o Hr' Hc Hs Hw) as H.
    assert (hashRoot (t_cachegen T) (t_cachelimit T) (t_root T) o = hash (t_cachegen T) (t_cachelimit T) (t_root T) o true) as ->.
    { by destruct (t_root T); [inversion Hr'; subst; inversion Hc|..]. }
    destruct (hash _ _ _ _ _) as [[[h c] o']|e|]; [|done..]. destruct H as (Hcol & H1 & _ & H2 & H3).
    split_and!; [|done..|].
    + unfold collapsed_ok in Hcol. simpl in Hcol. rewrite Hcol. by destruct Hc.
    + intros Hso _. destruct (H3 Hso) as [? Hh]. split; [done|]. by apply Hh.
Qed.

Lemma root_hash_length t : length (root_hash t) = 32%nat.
Proof. destruct t; [done|apply keccak_length..]. Qed.

Lemma models_hash T m :
  models T m → small m →
  ∃ T', Hash T = (Ok (root_hash (trie_of m)), T') ∧ models T' m ∧ t_db T' = t_db T.
Proof.
  intros (t & Hc & Hr & Ht) Hm. unfold Hash.
  pose proof (hashRoot_spec (W:=Empty_set) T m t None ltac:(by intros [[]]) ltac:(done) Hc Ht Hm Hr) as H.
  destruct (hashRoot _ _ _ _) as [[[h c] o']|e|]; [|by destruct H as (? & ? & [] & _)|done].
  destruct H as (-> & Hr' & Ho & _). eexists. split.
  - simpl. rewrite BytesToHash_32 by apply root_hash_length. by rewrite (content_root_hash t m Hc Ht).
  - split; [|done]. exists t. split_and!; [done| |done]. simpl. destruct o' as [w|]; [destruct w|done].
Qed.

(** *** Committing and opening *)

(** Opening a trie whose nodes are in the database. *)
Lemma New_models db m :
  map_Forall (λ k v, Forall is_byte k ∧ v ≠ []) m → small m →
  (m ≠ ∅ → keccak256 (enc (trie_of m)) ≠ emptyRoot ∧ keccak256 (enc (trie_of m)) ≠ replicate 32 0) →
  (canon (trie_of m) → stored_below db (trie_of m) ∧ db (keccak256 (enc (trie_of m))) = Some (enc (trie_of m))) →
  ∃ T, New (root_hash (trie_of m)) db = Ok T ∧ models T m ∧ t_db T = db.
Proof.
  intros Hm Hs Hne Hdb. destruct (trie_of_content m Hm) as [Hc Ht]. pose proof (small_sized _ m Hc Ht Hs) as Hsz.
  unfold New. destruct (decide (m = ∅)) as [->|Hm0].
  - rewrite (bool_decide_true (root_hash (trie_of ∅) = emptyRoot)) by done. rewrite andb_false_r.
    eexists. split_and!; [done| |done]. exists PEmpty. split_and!; [by left|constructor|apply content_empty].
  - pose proof (content_canon _ m Hc Ht Hm0) as Hca. destruct (Hne Hm0) as [H1 H2]. destruct (Hdb Hca) as [Hst Hget].
    assert (root_hash (trie_of m) = keccak256 (enc (trie_of m))) as E by (by destruct Hca). rewrite E, !bool_decide_false by done.
    cbn [negb andb]. unfold resolveHash. rewrite Hget, mustDecodeNode_spec by done. cbn [obind].
    eexists. split_and!; [done| |done]. exists (trie_of m). split_and!; [done| |done]. cbn [t_db t_root with_root].
    apply loaded_repr; [by right; right|done..].
Qed.

Lemma content_keys t m : canonical t → content t m → map_Forall (λ k v, Forall is_byte k ∧ v ≠ []) m.
Proof.
  intros Hc (A & _ & B) k v Hv. pose proof (B k v Hv) as Hb. split; [done|].
  apply (plookup_value t (keybytesToHex k)); [by apply key_pos_ok|by rewrite A].
Qed.

Lemma models_commit {W} {HW : Writer W} T m (w : W) :
  models T m → small m → collision_free m → t_db T = w_get w → (∀ k v (w : W), is_Some (w_put k v w)) →
  ∃ T' w', Commit T w = Ok (root_hash (trie_of m), T', w') ∧ models T' m ∧ t_db T' = w_get w' ∧
    ∃ T'', New (root_hash (trie_of m)) (w_get w') = Ok T'' ∧ models T'' m.
Proof.
  intros (t & Hc & Hr & Ht) Hm [Hcf Hne] Hdb Hput. unfold Commit, CommitTo.
  pose proof (hashRoot_spec T m t (Some w) (λ _, Hcf) ltac:(by intros w0 [= <-]) Hc Ht Hm Hr) as H.
  destruct (hashRoot _ _ _ _) as [[[h c] o']|e|]; [|by destruct H as (k & v & w0 & H), (Hput k v w0); congruence|done].
  destruct H as (-> & Hr' & Ho & Hst). destruct (proj1 Ho) as [w' ->]; [done|]. cbn [cont] in *. cbn [obind node_hash].
  rewrite BytesToHash_32 by apply root_hash_length. rewrite (content_root_hash t m Hc Ht). cbn [obind default].
  eexists _, w'. split; [done|]. split; [by exists t|]. split; [done|].
  destruct (New_models (w_get w') m (content_keys t m Hc Ht) Hm Hne) as (T'' & E & H & _); [|by exists T''].
  rewrite <-(content_trie_of t m Hc Ht). by apply Hst.
Qed.

(** *** The root hash determines the contents *)

Section Binding.
Context (U : bytes → Prop) (gen : Z).
Hypothesis no_collision : ∀ e1 e2, U e1 → U e2 → keccak256 e1 = keccak256 e2 → e1 = e2.

Definition known (t : ptrie) : Prop := sub_ok t ∧ sized t ∧ within U t.

Lemma enc_inj_loaded t1 t2 h : canon t1 → canon t2 → known t1 → known t2 → enc t1 = enc t2 → loaded gen h t1 = loaded gen h t2.
Proof.
  intros C1 C2 (_ & S1 & _) (_ & S2 & _) E. pose proof (mustDecodeNode_spec (E:=unit) t1 h gen C1 S1) as D1.
  rewrite E, (mustDecodeNode_spec t2 h gen C2 S2) in D1. by injection D1.
Qed.

Lemma hashed_canon t : sub_ok t → hashed t = true → canon t.
Proof. by intros [->|[[v ->]|?]]. Qed.

Lemma lref_inj t1 t2 :
  known t1 → known t2 → (∀ h t2, known t2 → loaded gen h t1 = loaded gen h t2 → t1 = t2) →
  lref gen t1 = lref gen t2 → t1 = t2.
Proof.
  intros K1 K2 IH E. unfold lref in E.
  destruct (hashed t1) eqn:H1, (hashed t2) eqn:H2.
  - injection E as E. pose proof K1 as (B1 & _ & W1%all_sub_here). pose proof K2 as (B2 & _ & W2%all_sub_here).
    apply (IH None); [done|]. apply enc_inj_loaded; [by apply hashed_canon..|done|done|]. by apply no_collision.
  - pose proof (loaded_not_hash gen None t2) as L. by rewrite <-E in L.
  - pose proof (loaded_not_hash gen None t1) as L. by rewrite E in L.
  - by apply (IH None).
Qed.

Lemma known_ext k t : known (PExt k t) → known t.
Proof.
  intros ([?|[[? ?]|Hc]] & [_ Hs] & [_ Hw]); [done..|]. split_and!; [|done..].
  apply canon_ext_inv in Hc as [(v & -> & _)|(ts & -> & ? & _)]; [right; left; eauto|by right; right].
Qed.

Lemma known_branch ts : known (PBranch ts) → Forall known ts.
Proof.
  intros ([?|[[? ?]|Hc]] & [_ Hs]%all_sub_branch & [_ Hw]%all_sub_branch); [done..|].
  pose proof Hc as (_ & Hca & _)%canon_branch_iff. apply Forall_lookup. intros i t Hi.
  split_and!; [by apply (canon_at_cases i), Hca|exact (Forall_lookup_1 _ _ _ _ Hs Hi)|exact (Forall_lookup_1 _ _ _ _ Hw Hi)].
Qed.

(** Loading a node loses nothing: its references determine its children, as
    long as hashes do not collide. *)
Lemma loaded_inj t1 h t2 : known t1 → known t2 → loaded gen h t1 = loaded gen h t2 → t1 = t2.
Proof.
  revert h t2. induction t1 as [|v|k t1 IH|ts IH] using ptrie_ind'; intros h t2 K1 K2 E;
    rewrite !loaded_lref in E; destruct t2 as [|v2|k2 t2|ts2]; try discriminate E; [done|by injection E as ->|..].
  - injection E as -> E. f_equal. apply lref_inj; [by eapply known_ext..| |done]. intros h' t' K' E'.
    eapply IH; [by eapply known_ext|done|exact E'].
  - injection E as E. f_equal. apply known_branch in K1, K2. revert ts2 K2 E.
    induction IH as [|t ts Ht _ IHts]; intros [|t2 ts2] K2 E; try discriminate E; [done|].
    apply Forall_cons in K1 as [K1 K1s], K2 as [K2 K2s]. injection E as E Es. f_equal; [|by apply IHts].
    apply lref_inj; [done..| |done]. intros h' t' K' E'. by eapply Ht.
Qed.
End Binding.

(** Two maps whose nodes do not collide with each other. *)
Definition distinct_nodes (m1 m2 : gmap bytes bytes) : Prop :=
  ∀ e1 e2, map_node m1 e1 ∨ map_node m2 e1 → map_node m1 e2 ∨ map_node m2 e2 → keccak256 e1 = keccak256 e2 → e1 = e2.

Lemma within_mono (U V : bytes → Prop) t : (∀ e, U e → V e) → within U t → within V t.
Proof.
  intros H. induction t as [|v|k t IH|ts IH] using ptrie_ind'; intros Hw.
  1,2: split; [apply H, Hw|done].
  - destruct Hw as [? Hw]. split; [by apply H|by apply IH].
  - apply all_sub_branch in Hw as [? Hw]. apply all_sub_branch. split; [by apply H|].
    rewrite Forall_forall in *. intros t Ht. apply (IH t Ht), (Hw t Ht).
Qed.

Lemma trie_of_inj m1 m2 :
  map_Forall (λ k v, Forall is_byte k ∧ v ≠ []) m1 → map_Forall (λ k v, Forall is_byte k ∧ v ≠ []) m2 →
  trie_of m1 = trie_of m2 → m1 = m2.
Proof.
  intros H1 H2 E. destruct (trie_of_content m1 H1) as (_ & A1 & _ & B1), (trie_of_content m2 H2) as (_ & A2 & _ & B2).
  apply map_eq. intros k. destruct (decide (Forall is_byte k)) as [Hk|Hk]; [by rewrite <-A1, <-A2, E|].
  destruct (m1 !! k) as [v|] eqn:E1; [by apply B1 in E1|]. destruct (m2 !! k) as [v|] eqn:E2; [by apply B2 in E2|done].
Qed.

Lemma root_hash_inj m1 m2 :
  map_Forall (λ k v, Forall is_byte k ∧ v ≠ []) m1 → map_Forall (λ k v, Forall is_byte k ∧ v ≠ []) m2 →
  small m1 → small m2 → distinct_nodes m1 m2 → collision_free m1 → collision_free m2 →
  root_hash (trie_of m1) = root_hash (trie_of m2) → m1 = m2.
Proof.
  intros H1 H2 S1 S2 Hd [_ N1] [_ N2] E. apply trie_of_inj; [done..|].
  destruct (trie_of_content m1 H1) as [C1 T1], (trie_of_content m2 H2) as [C2 T2].
  assert (∀ m t, m = m1 ∨ m = m2 → t = trie_of m → canon t → content t m → small m →
    known (λ e, map_node m1 e ∨ map_node m2 e) t) as Hk.
  { intros m t Hm -> Hc Ht Hs. split_and!; [by right; right|by eapply small_sized; [right|..]|].
    eapply within_mono; [|by apply subtrie_within; constructor]. intros e He. destruct Hm as [-> | ->]; auto. }
  destruct (decide (m1 = ∅)) as [->|M1], (decide (m2 = ∅)) as [->|M2]; [done|..].
  - pose proof (content_canon _ m2 C2 T2 M2) as K2. destruct (N2 M2) as [N _]. destruct N. by destruct K2.
  - pose proof (content_canon _ m1 C1 T1 M1) as K1. destruct (N1 M1) as [N _]. destruct N. by destruct K1.
  - pose proof (content_canon _ m1 C1 T1 M1) as K1. pose proof (content_canon _ m2 C2 T2 M2) as K2.
    assert (keccak256 (enc (trie_of m1)) = keccak256 (enc (trie_of m2))) as E' by (by destruct K1, K2).
    pose proof (Hk m1 _ (or_introl eq_refl) eq_refl K1 T1 S1) as W1. pose proof (Hk m2 _ (or_intror eq_refl) eq_refl K2 T2 S2) as W2.
    apply (loaded_inj _ 0 Hd _ None); [done..|]. eapply enc_inj_loaded; [done..|].
    apply Hd; [| |done]; [destruct W1 as (_ & _ & W)|destruct W2 as (_ & _ & W)]; exact (all_sub_here _ _ W).
Qed.
End Map.

(** ** The trie refines the map *)

Section Client.
Context {KC : Keccak}.

Inductive op :=
| OpGet (k : bytes)
| OpUpdate (k v : bytes)
| OpDelete (k : bytes)
| OpHash.

Inductive answer :=
| AValue (o : option bytes)
| ADone
| AHash (h : bytes)
| AFailed.

Definition step (o : op) (T : Trie) : answer * Trie :=
  match o with
  | OpGet k => match TryGet k T with (Ok v, T') => (AValue v, T') | (_, T') => (AFailed, T') end
  | OpUpdate k v => match TryUpdate k v T with (Ok _, T') => (ADone, T') | (_, T') => (AFailed, T') end
  | OpDelete k => match TryDelete k T with (Ok _, T') => (ADone, T') | (_, T') => (AFailed, T') end
  | OpHash => match Hash T with (Ok h, T') => (AHash h, T') | (_, T') => (AFailed, T') end
  end.

Definition spec_step (o : op) (m : gmap bytes bytes) : answer * gmap bytes bytes :=
  match o with
  | OpGet k => (AValue (m !! k), m)
  | OpUpdate k v => (ADone, if decide (v = []) then base.delete k m else <[k := v]> m)
  | OpDelete k => (ADone, base.delete k m)
  | OpHash => (AHash (root_hash (trie_of m)), m)
  end.

(** The answers of a sequence of operations. *)
Fixpoint run {S} (st : op → S → answer * S) (ops : list op) (s : S) : list answer * S :=
  match ops with
  | [] => ([], s)
  | o :: ops' =>
      let '(a, s) := st o s in
      let '(l, s) := run st ops' s in
      (a :: l, s)
  end.

Definition op_ok (o : op) : Prop :=
  match o with
  | OpGet k | OpDelete k => Forall is_byte k
  | OpUpdate k v =>
      Forall is_byte k ∧ Z.of_nat (length k) < 2 ^ 32 ∧ Forall is_byte v ∧ Z.of_nat (length v) < 2 ^ 32
  | OpHash => True
  end.

Lemma small_delete k m : small m → small (base.delete k m).
Proof. apply map_Forall_delete. Qed.

Lemma TryDelete_update k T : TryDelete k T = TryUpdate k [] T.
Proof. done. Qed.

Lemma step_refines o T m :
  models T m → small m → op_ok o →
  fst (step o T) = fst (spec_step o m) ∧ models (snd (step o T)) (snd (spec_step o m)) ∧ small (snd (spec_step o m)).
Proof.
  intros HT Hm Ho. destruct o as [k|k v|k|]; simpl in *.
  - destruct (models_get T m k HT Ho) as (T' & -> & H & _). done.
  - destruct Ho as (Hk & Hlk & Hv & Hlv). destruct (models_update T m k v HT Hk) as (T' & -> & H & _).
    split_and!; [done|by destruct (decide (v = []))|]. case_decide; [by apply small_delete|].
    by apply map_Forall_insert_2.
  - rewrite TryDelete_update. destruct (models_update T m k [] HT Ho) as (T' & -> & H & _).
    split_and!; [done|done|by apply small_delete].
  - destruct (models_hash T m HT Hm) as (T' & -> & H & _). done.
Qed.

(** C2: a trie is a finite map with a root hash: any sequence of lookups,
    updates, deletions and Hash calls on a trie that stores [m] gives the answers
    of the finite map [m] -- values, no errors, and for Hash the hash of the one
    trie its contents have, whatever the order of updates, the nodes that are
    loaded, and the hashes that are cached -- and leaves a trie that stores the
    resulting map. *)
Theorem trie_refines_map ops T m :
  models T m → small m → Forall op_ok ops →
  fst (run step ops T) = fst (run spec_step ops m) ∧ models (snd (run step ops T)) (snd (run spec_step ops m)).
Proof.
  intros HT Hm Hops. revert T m HT Hm. induction Hops as [|o ops Ho _ IH]; intros T m HT Hm; [done|].
  destruct (step_refines o T m HT Hm Ho) as (E & HT' & Hm'). cbn [run].
  destruct (step o T) as [a T'], (spec_step o m) as [a' m']. cbn [fst snd] in *. subst a'.
  destruct (IH T' m' HT' Hm') as [El HTl]. destruct (run step ops T'), (run spec_step ops m'). cbn [fst snd] in *. by subst.
Qed.

(** C4: the root hash commits to the contents: if two tries have the same root
    hash, and the encodings of their nodes have no hash collision, then they
    store the same map. *)
Theorem Hash_binds_contents T1 T2 m1 m2 h :
  models T1 m1 → models T2 m2 → small m1 → small m2 →
  distinct_nodes m1 m2 → collision_free m1 → collision_free m2 →
  fst (Hash T1) = Ok h → fst (Hash T2) = Ok h → m1 = m2.
Proof.
  intros H1 H2 S1 S2 Hd C1 C2 E1 E2.
  destruct (models_hash T1 m1 H1 S1) as (T1' & F1 & _), (models_hash T2 m2 H2 S2) as (T2' & F2 & _).
  rewrite F1 in E1. rewrite F2 in E2. injection E1 as E1. injection E2 as E2.
  destruct H1 as (t1 & K1 & _ & A1), H2 as (t2 & K2 & _ & A2).
  apply root_hash_inj; try done; [exact (content_keys t1 m1 K1 A1)|exact (content_keys t2 m2 K2 A2)|congruence].
Qed.

(** C3: a committed trie can be opened again: writing a trie that stores [m] to
    its database gives the root hash of [m]; from the database as it is after
    the commit, New on that hash opens a trie that stores [m], and the trie that
    was committed (with its unloaded nodes) still stores [m]. *)
Theorem Commit_reload {W} {HW : Writer W} T m (w : W) :
  models T m → small m → collision_free m → t_db T = w_get w → (∀ k v (w : W), is_Some (w_put k v w)) →
  ∃ T' w', Commit T w = Ok (root_hash (trie_of m), T', w') ∧ models T' m ∧ t_db T' = w_get w' ∧
    ∃ T'', New (root_hash (trie_of m)) (w_get w') = Ok T'' ∧ models T'' m.
Proof. apply models_commit. Qed.
End Client.

(** ** Examples: Keccak-256 and a database in memory *)

(** The Keccak-256 of package sha3. *)
#[export] Instance keccak_sponge : Keccak := {|
  keccak256 x := sponge 136 0x01 x 0 32;
  keccak_length x := sponge_length 136 0x01 x 0 32;
  keccak_byte x := sponge_byte 136 0x01 x 0 32
|}.

(** The hash of the trie's hasher is the [Keccak256] of package crypto. *)
Lemma keccak_sponge_Keccak256 x : Forall is_byte x → Keccak256 (E:=unit) [x] = Ok (keccak256 x).
Proof. exact (Keccak256_sponge x). Qed.

(** The constant for the root of an empty trie is the Keccak-256 hash of the
    RLP encoding of the empty string. *)
Theorem emptyRoot_keccak : Keccak256 (E:=unit) [rlp_enc (Str [])] = Ok emptyRoot.
Proof. vm_compute. reflexivity. Qed.

#[export] Instance gmap_writer : Writer (gmap bytes bytes).
Proof.
  refine {| w_put k v m := Some (<[k := v]> m); w_get m k := m !! k |}.
  intros k v w w' k' [= <-]. case_decide as E; [subst; apply lookup_insert_eq|by apply lookup_insert_ne].
Defined.

Fixpoint subtries (t : ptrie) : list ptrie :=
  t :: match t with
       | PExt _ t' => subtries t'
       | PBranch ts => concat (map subtries ts)
       | _ => []
       end.

Lemma subtrie_subtries s t : subtrie s t → s ∈ subtries t.
Proof.
  induction 1 as [|k t _ IH|t ts Ht _ IH].
  - destruct s; left.
  - simpl. by right.
  - simpl. right. apply list_elem_of_In, in_concat. exists (subtries t).
    split; [apply in_map|]; by apply list_elem_of_In.
Qed.

(** Distinct hashes on a list mean that the hash is injective on it. *)
Lemma NoDup_fmap_inj {A B} (f : A → B) l x y : NoDup (f <$> l) → x ∈ l → y ∈ l → f x = f y → x = y.
Proof.
  intros Hn [i Hi]%list_elem_of_lookup [j Hj]%list_elem_of_lookup E.
  assert (i = j) as ->; [|congruence]. eapply (NoDup_lookup (f <$> l)); [done|by rewrite list_lookup_fmap, Hi|].
  by rewrite list_lookup_fmap, Hj, E.
Qed.

Definition nodes_of {KC : Keccak} (m : gmap bytes bytes) : list bytes :=
  remove_dups (map enc (subtries (trie_of m))).

Lemma check_nodes {KC : Keccak} m e1 e2 :
  NoDup (keccak256 <$> nodes_of m) → map_node m e1 → map_node m e2 → keccak256 e1 = keccak256 e2 → e1 = e2.
Proof.
  intros Hn H1 H2. assert (∀ e, map_node m e → e ∈ nodes_of m) as Hin.
  { intros e (s & Hs & ->). apply elem_of_remove_dups. apply list_elem_of_fmap_2. by apply subtrie_subtries. }
  apply (NoDup_fmap_inj keccak256 (nodes_of m)); auto.
Qed.

(** A trie with two keys, built in both orders. *)
Definition ex_map : gmap bytes bytes := <[[0x13; 0x45] := [8; 9]]> (<[[0x12] := [7]]> ∅).
Definition ex_new : Trie := MkTrie NNil (w_get (∅ : gmap bytes bytes)) [] 0 0.
Definition ex_trie : Trie := snd (TryUpdate [0x13; 0x45] [8; 9] (snd (TryUpdate [0x12] [7] ex_new))).
Definition ex_trie' : Trie := snd (TryUpdate [0x12] [7] (snd (TryUpdate [0x13; 0x45] [8; 9] ex_new))).

Lemma ex_update {KC : Keccak} T m k v :
  models T m → Forall is_byte k → v ≠ [] → models (snd (TryUpdate k v T)) (<[k := v]> m).
Proof.
  intros HT Hk Hv. destruct (models_update T m k v HT Hk) as (T' & -> & H & _). by rewrite decide_False in H.
Qed.

Lemma ex_models {KC : Keccak} : models ex_trie ex_map ∧ models ex_trie' ex_map.
Proof.
  assert (models ex_new ∅) as H0 by (exists PEmpty; split_and!; [by left|constructor|apply content_empty]).
  split.
  - repeat apply ex_update; try done; by apply (bool_decide_unpack _).
  - unfold ex_map. rewrite insert_insert_ne by done. repeat apply ex_update; try done; by apply (bool_decide_unpack _).
Qed.

Lemma ex_small : small ex_map.
Proof. by apply (bool_decide_unpack _); vm_compute. Qed.

Lemma ex_nodes_distinct : NoDup (keccak256 <$> nodes_of ex_map).
Proof. apply (bool_decide_unpack _). vm_compute. exact I. Qed.

Lemma ex_nodes e1 e2 : map_node ex_map e1 → map_node ex_map e2 → keccak256 e1 = keccak256 e2 → e1 = e2.
Proof. exact (check_nodes ex_map e1 e2 ex_nodes_distinct). Qed.

Lemma ex_collision_free : collision_free ex_map.
Proof.
  split; [exact ex_nodes|]. intros _. split; apply (bool_decide_unpack _); vm_compute; exact I.
Qed.

(** Lookups, updates, deletions and hashes on the example. *)
Lemma trie_refines_map_witness :
  fst (run step [OpGet [0x12]; OpHash; OpUpdate [0x12; 0x34] [1]; OpDelete [0x12]; OpGet [0x12]; OpHash] ex_trie) =
  fst (run spec_step [OpGet [0x12]; OpHash; OpUpdate [0x12; 0x34] [1]; OpDelete [0x12]; OpGet [0x12]; OpHash] ex_map).
Proof.
  apply trie_refines_map; [exact (proj1 ex_models)|exact ex_small|].
  repeat (constructor; [first [exact I | unfold op_ok; apply (bool_decide_unpack _); vm_compute; exact I]|]). constructor.
Defined.

Lemma Hash_binds_contents_witness : ex_map = ex_map ∧ fst (Hash ex_trie) = fst (Hash ex_trie').
Proof.
  assert (fst (Hash ex_trie) = Ok (root_hash (trie_of ex_map))) as E1 by (vm_compute; reflexivity).
  assert (fst (Hash ex_trie') = Ok (root_hash (trie_of ex_map))) as E2 by (vm_compute; reflexivity).
  split; [|exact (eq_trans E1 (eq_sym E2))].
  apply (Hash_binds_contents ex_trie ex_trie' ex_map ex_map (root_hash (trie_of ex_map))).
  - exact (proj1 ex_models).
  - exact (proj2 ex_models).
  - exact ex_small.
  - exact ex_small.
  - intros e1 e2 [H1|H1] [H2|H2]; exact (ex_nodes e1 e2 H1 H2).
  - exact ex_collision_free.
  - exact ex_collision_free.
  - exact E1.
  - exact E2.
Defined.

Lemma Commit_reload_witness :
  ∃ T' (w' : gmap bytes bytes), Commit ex_trie (∅ : gmap bytes bytes) = Ok (root_hash (trie_of ex_map), T', w') ∧
    ∃ T'', New (root_hash (trie_of ex_map)) (w_get w') = Ok T'' ∧ models T'' ex_map.
Proof.
  destruct (Commit_reload ex_trie ex_map (∅ : gmap bytes bytes)) as (T' & w' & E & _ & _ & T'' & E' & H).
  - exact (proj1 ex_models).
  - exact ex_small.
  - exact ex_collision_free.
  - reflexivity.
  - intros k v w. exists (<[k := v]> w). reflexivity.
  - exists T', w'. split; [exact E|]. exists T''. split; [exact E'|exact H].
Defined.
