(* ===== verification/TrieProof.v ===== *)
(** * Merkle proofs (common/trie/proof.go)

    Prove collects the encoded nodes on the path to a key, VerifyProof checks
    such a list against a root hash.  Shown: the proofs of Prove are accepted
    and give the value (or the absence) of the key, and whatever proof
    VerifyProof accepts, by whoever made it, gives what the trie with that root
    hash stores, unless a hash collides. *)

From S2P Require Import Prelude RlpSpec RlpEncode TrieEncoding TrieSpec TrieNode Trie TrieRefine TrieHasher TrieMap.
Local Open Scope Z_scope.

Section Proofs.
Context {KC : Keccak}.

(** ** Prove *)

(** hasher.hashChildren on its own. *)
Definition hashChildren {W} {HW : Writer W} (cachegen cachelimit : Z) (n : node) (db : option W)
    : outcome put_error (node * node * option W) :=
  match n with
  | NShort k v fl =>
      let* ck := hexToCompact k in
      let* (cv, nv, db) := match v with NValue _ => Ok (v, v, db) | _ => hash cachegen cachelimit v db false end in
      Ok (NShort ck (nil_to_value cv) fl, NShort k nv fl, db)
  | NFull cs fl =>
      let* (ccs, ncs, db) := hash_children cachegen cachelimit 0 cs db in
      Ok (NFull ccs fl, NFull ncs fl, db)
  | _ => Ok (n, n, db)
  end.

(** The first loop of Prove: the nodes on the path. *)
Fixpoint prove_path (rounds : nat) (db : bytes → option bytes) (cachegen : Z) (tn : node) (key : bytes)
    : trie_out (list node) :=
  match rounds with
  | O => Err TErrOutOfRounds
  | S r =>
      match key with
      | [] => Ok []
      | c :: key' =>
          match tn with
          | NNil => Ok []
          | NShort k val _ =>
              if (length key <? length k)%nat || negb (bool_decide (k = take (length k) key))
              then Ok [tn]
              else let* rest := prove_path r db cachegen val (drop (length k) key) in Ok (tn :: rest)
          | NFull cs _ =>
              let* child := cs.[nib c] in
              let* rest := prove_path r db cachegen child key' in Ok (tn :: rest)
          | NHash h =>
              let* n := resolveHash db cachegen h [] in
              prove_path r db cachegen n key
          | NValue _ => Panic
          end
      end
  end.

(** The second loop: the nodes that become elements of the proof. *)
Fixpoint prove_elements (i : nat) (nodes : list node) : outcome put_error (list bytes) :=
  match nodes with
  | [] => Ok []
  | n :: nodes' =>
      let* (n, _, _) := hashChildren (W:=Empty_set) 0 0 n None in
      let* (hn, _) := store (W:=Empty_set) n None false in
      let* proof :=
        if is_hash hn || (i =? 0)%nat
        then match EncodeToBytes (node_gval n) with Ok e => Ok [e] | _ => Ok [[]] end
        else Ok [] in
      let* rest := prove_elements (S i) nodes' in
      Ok (proof ++ rest)
  end.

(** A node that is missing in the database gives an empty proof. *)
Definition Prove (key : bytes) (t : Trie) : outcome put_error (list bytes) :=
  let key := keybytesToHex key in
  match prove_path (key_rounds key) (t_db t) (t_cachegen t) (t_root t) key with
  | Ok nodes => prove_elements 0 nodes
  | Err _ => Ok []
  | Panic => Panic
  end.

(** ** VerifyProof *)

Inductive proof_error :=
| HashMismatch (i : nat)
| BadNode (i : nat) (e : node_error)
| KeyMismatch (i : nat)
| AdditionalNodes
| UnexpectedEnd
| PErrOutOfRounds.

Fixpoint node_depth (n : node) : nat :=
  match n with
  | NShort _ v _ => S (node_depth v)
  | NFull cs _ => S (foldr (λ c d, node_depth c `max` d)%nat 0%nat cs)
  | _ => 0
  end.

(** get descends as far as the node reaches: the rest of the key and a nil, hash
    or value node. *)
Fixpoint get (rounds : nat) (tn : node) (key : bytes) : outcome proof_error (bytes * node) :=
  match rounds with
  | O => Err PErrOutOfRounds
  | S r =>
      match tn with
      | NShort k val _ =>
          if (length key <? length k)%nat || negb (bool_decide (k = take (length k) key))
          then Ok ([], NNil)
          else get r val (drop (length k) key)
      | NFull cs _ =>
          let* c := key.[0%nat] in
          let* child := cs.[nib c] in
          get r child (drop 1 key)
      | NHash _ => Ok (key, tn)
      | NNil => Ok (key, NNil)
      | NValue _ => Ok ([], tn)
      end
  end.

Fixpoint verify_loop (i : nat) (key wantHash : bytes) (proof : list bytes) : outcome proof_error (option bytes) :=
  match proof with
  | [] => Err UnexpectedEnd
  | buf :: proof' =>
      if negb (bool_decide (keccak256 buf = wantHash)) then Err (HashMismatch i)
      else
        let* n := omap_err (BadNode i) (decodeNode (Some wantHash) buf 0) in
        let* (keyrest, cld) := get (S (node_depth n)) n key in
        match cld with
        | NHash h => verify_loop (S i) keyrest h proof'
        | NValue v => match proof' with [] => Ok (Some v) | _ => Err AdditionalNodes end
        | _ => match proof' with [] => Ok None | _ => Err (KeyMismatch i) end
        end
  end.

Definition VerifyProof (rootHash key : bytes) (proof : list bytes) : outcome proof_error (option bytes) :=
  verify_loop 0 (keybytesToHex key) rootHash proof.

(** ** Paths in the abstract trie *)

Fixpoint ppath (t : ptrie) (key : bytes) : list ptrie :=
  match t with
  | PExt k t' => t :: (if bool_decide (take (length k) key = k) then ppath t' (drop (length k) key) else [])
  | PBranch ts =>
      match key with
      | [] => [t]
      | c :: key' => t :: at_child (λ t, ppath t key') [] ts (nib c)
      end
  | _ => []
  end.

(** The encodings in the proof of a key. *)
Definition is_hashed (t : ptrie) : Prop := hashed t = true.
#[export] Instance is_hashed_dec t : Decision (is_hashed t) := _.

Definition below (t : ptrie) (key : bytes) : list ptrie := filter is_hashed (tail (ppath t key)).

Definition proof_of (t : ptrie) (key : bytes) : list bytes := enc t :: map enc (below t key).

(** What [get] finds below a loaded node. *)
Definition get_ok (t : ptrie) (key : bytes) (hashes : list ptrie) (r : outcome proof_error (bytes * node)) : Prop :=
  match r with
  | Ok (_, NNil) => plookup t key = None ∧ hashes = []
  | Ok (_, NValue v) => plookup t key = Some v ∧ hashes = []
  | Ok (key', NHash h) =>
      ∃ s, subtrie s t ∧ canon s ∧ is_key key' ∧ h = keccak256 (enc s) ∧ plookup t key = plookup s key' ∧
        hashes = s :: below s key'
  | _ => False
  end.

Lemma ppath_head t key : key ≠ [] → canon t → ∃ l, ppath t key = t :: l.
Proof. intros Hk Hc. destruct Hc; simpl; [eauto..|]. destruct key; [done|eauto]. Qed.

(** Without a hash in between, the hashes on the path are those further down. *)
Lemma filter_path_unhashed t key :
  hashed t = false → filter is_hashed (ppath t key) = below t key.
Proof.
  intros Hh. unfold below. destruct (ppath t key) as [|s l] eqn:E; [done|].
  assert (s = t) as -> by (destruct t; simpl in E; try destruct key; congruence).
  simpl. rewrite filter_cons_False; [done|]. unfold is_hashed. by rewrite Hh.
Qed.

Lemma filter_path_hashed t key :
  hashed t = true → canon t → key ≠ [] → filter is_hashed (ppath t key) = t :: below t key.
Proof.
  intros Hh Hc Hk. unfold below. destruct (ppath_head t key Hk Hc) as [l ->]. simpl. by rewrite filter_cons_True.
Qed.

(** A reference to a child, given the claim for the child itself. *)
Lemma get_ref gen t key rounds :
  pos_ok t key → (node_depth (lref gen t) < rounds)%nat →
  (∀ r, (node_depth (loaded gen None t) < r)%nat → get_ok t key (below t key) (get r (loaded gen None t) key)) →
  get_ok t key (filter is_hashed (ppath t key)) (get rounds (lref gen t) key).
Proof.
  intros Hp Hr IH. unfold lref in *. destruct (hashed t) eqn:Hh.
  - destruct Hp as [[[->|Hc] Hk]|[-> [->|(v & _ & ->)]]]; [done| |done..]. destruct rounds as [|r]; [lia|]. simpl.
    exists t. pose proof (is_key_nonempty _ Hk). split_and!; try done; [constructor|]. by apply filter_path_hashed.
  - rewrite filter_path_unhashed by done. by apply IH.
Qed.

(** Claims about a subtrie are claims about the trie above it. *)
Lemma get_ok_above t key t' key' hs r :
  (∀ s, subtrie s t' → subtrie s t) → plookup t key = plookup t' key' → get_ok t' key' hs r → get_ok t key hs r.
Proof.
  intros Hs Hl. unfold get_ok. rewrite Hl. destruct r as [[k []]|e|]; try done.
  intros (s & ? & ?). exists s. split; [by apply Hs|done].
Qed.

Lemma node_depth_child n cs : n ∈ cs → (node_depth n ≤ foldr (λ c d, node_depth c `max` d) 0 cs)%nat.
Proof. induction 1; simpl; lia. Qed.

Lemma get_loaded gen h t key rounds :
  pos_ok t key → (node_depth (loaded gen h t) < rounds)%nat →
  get_ok t key (below t key) (get rounds (loaded gen h t) key).
Proof.
  revert h key rounds. induction t as [|v|k t IH|ts IH] using ptrie_ind'; intros h key rounds Hp Hr;
    (destruct rounds as [|r]; [lia|]); rewrite loaded_lref in *; cbn [get node_depth] in *.
  - done.
  - destruct Hp as [[[?|Hc] _]|[-> _]]; [done|inversion Hc|done].
  - destruct (pos_ok_short _ _ _ Hp) as [Hc Hk].
    destruct (pos_ok_ext k t key Hc Hk) as [(l & -> & _ & Hl)|(p & c & d & rk & l & Hparts & _)].
    + assert ((length (k ++ l) <? length k)%nat = false) as -> by (apply Nat.ltb_ge; rewrite length_app; lia).
      rewrite take_app_length, bool_decide_true, drop_app_length by done. cbn [orb negb].
      unfold below. cbn [ppath tail]. rewrite take_app_length, bool_decide_true, drop_app_length by done.
      apply (get_ok_above _ _ t l); [by constructor|apply plookup_ext|]. apply get_ref; [done|lia|]. intros r' Hr'. by apply IH.
    + assert (¬ ∃ l, key = k ++ l) as Hn.
      { destruct Hparts as (-> & -> & Hcd). intros [x E]. rewrite <-app_assoc in E. by simplify_list_eq. }
      assert (take (length k) key ≠ k) as Ht.
      { intros E. apply Hn. exists (drop (length k) key). rewrite <-E at 1. by rewrite take_drop. }
      rewrite (bool_decide_false (k = _)) by done. rewrite orb_true_r. simpl. split; [by apply plookup_ext_not|].
      unfold below. simpl. by rewrite bool_decide_false.
  - destruct (pos_ok_full _ _ Hp) as [Hc Hk]. destruct key as [|c key]; [by apply is_key_nonempty in Hk|].
    pose proof Hc as (Hl & _)%canon_branch_iff. pose proof (nib_lt c (is_key_hexdigit [] c key Hk)) as Hn.
    destruct (lookup_lt_is_Some_2 ts (nib c)) as [t Ht]; [lia|]. cbn [index lookup list_lookup obind drop].
    assert ((map (lref gen) ts).[nib c] = Ok (lref gen t)) as -> by (apply index_Some; by rewrite list_lookup_fmap, Ht).
    cbn [obind]. unfold below. cbn [ppath tail]. rewrite at_child_lookup, Ht. cbn [fmap option_fmap option_map default from_option id].
    apply (get_ok_above _ _ t key).
    + intros s Hs. eapply subtrie_branch; [by eapply list_elem_of_lookup_2|done].
    + by rewrite plookup_branch, Ht.
    + rewrite drop_0. apply get_ref; [by eapply pos_ok_branch| |].
      * assert (node_depth (lref gen t) ≤ foldr (λ c d, node_depth c `max` d) 0 (map (lref gen) ts))%nat; [|lia].
        apply node_depth_child, list_elem_of_fmap_2. by eapply list_elem_of_lookup_2.
      * intros r' Hr'. rewrite Forall_lookup in IH. apply (IH _ _ Ht); [by eapply pos_ok_branch|done].
Qed.

Lemma decodeNode_enc h t gen : canon t → sized t → decodeNode h (enc t) gen = Ok (loaded gen h t).
Proof.
  intros Hc Hs. pose proof (all_sub_here _ _ Hs) as [Hf _].
  pose proof (decodeNode_spec t h [] gen (S (length (enc t)))) as H. rewrite app_nil_r in H.
  apply H; [done..|lia].
Qed.

Lemma subtrie_sized s t : subtrie s t → sized t → sized s.
Proof.
  induction 1 as [|k t _ IH|t ts Ht _ IH]; intros Hs; [done|by apply IH, Hs|].
  apply all_sub_branch in Hs as [_ Hs]. rewrite Forall_forall in Hs. by apply IH, Hs.
Qed.

(** ** Completeness *)

Lemma verify_complete i t key :
  canon t → sized t → is_key key →
  verify_loop i key (keccak256 (enc t)) (proof_of t key) = Ok (plookup t key).
Proof.
  remember (length (below t key)) as n eqn:En. revert i t key En.
  induction n as [n IH] using lt_wf_ind. intros i t key En Hc Hs Hk. unfold proof_of. cbn [verify_loop].
  rewrite bool_decide_true by done. cbn [negb]. rewrite decodeNode_enc by done. cbn [omap_err obind].
  pose proof (get_loaded 0 (Some (keccak256 (enc t))) t key (S (node_depth (loaded 0 (Some (keccak256 (enc t))) t)))) as Hg.
  unfold get_ok in Hg. destruct (get _ _ _) as [[key' cld]|e|]; [|by destruct Hg; [left; by split; [right|]|lia]..].
  assert (pos_ok t key) as Hp by (left; by split; [right|]). specialize (Hg Hp ltac:(lia)). cbn [obind].
  destruct cld as [|v|h| |]; try done.
  - destruct Hg as [-> ->]. done.
  - destruct Hg as [-> ->]. done.
  - destruct Hg as (s & Hsub & Hcs & Hk' & -> & -> & E). rewrite E.
    apply (IH (length (below s key'))); [rewrite En, E; simpl; lia|done|done|by eapply subtrie_sized|done].
Qed.

(** ** Soundness *)

Lemma verify_sound i t key proof v :
  canon t → sized t → is_key key →
  (∀ e s, e ∈ proof → subtrie s t → keccak256 e = keccak256 (enc s) → e = enc s) →
  verify_loop i key (keccak256 (enc t)) proof = Ok v → v = plookup t key.
Proof.
  revert i t key. induction proof as [|buf proof IH]; intros i t key Hc Hs Hk Hcol H; [done|]. cbn [verify_loop] in H.
  case_bool_decide as E; [|done]. cbn [negb] in H.
  assert (buf = enc t) as -> by (apply Hcol; [left|constructor|done]).
  rewrite decodeNode_enc in H by done. cbn [omap_err obind] in H.
  pose proof (get_loaded 0 (Some (keccak256 (enc t))) t key (S (node_depth (loaded 0 (Some (keccak256 (enc t))) t)))) as Hg.
  assert (pos_ok t key) as Hp by (left; by split; [right|]). specialize (Hg Hp ltac:(lia)).
  destruct (get _ _ _) as [[key' cld]|e|]; [|done..]. cbn [obind get_ok] in *.
  destruct cld as [|w|h| |]; try done.
  - destruct proof; [|done]. destruct Hg as [-> _]. congruence.
  - destruct proof; [|done]. destruct Hg as [-> _]. congruence.
  - destruct Hg as (s & Hsub & Hcs & Hk' & -> & -> & _).
    eapply (IH _ s); [done|by eapply subtrie_sized|done| |done].
    intros e s' He Hs' E'. apply Hcol; [by right|by eapply subtrie_trans|done].
Qed.

(** ** What Prove returns *)

Lemma no_database (U : bytes → Prop) :
  inhabited Empty_set → ∀ e1 e2 : bytes, U e1 → U e2 → keccak256 e1 = keccak256 e2 → e1 = e2.
Proof. by intros [[]]. Qed.

Lemma within_any t : within (λ _, True) t.
Proof. induction t as [|v|k t IH|ts IH] using ptrie_ind'; try by split. by apply all_sub_branch. Qed.

Section Prove.
Context (db : bytes → option bytes) (gen : Z).

(** A node on the path, loaded. *)
Definition on_path (n : node) (t : ptrie) : Prop := (∃ b, repr db b n t) ∧ is_hash n = false ∧ canon t ∧ sized t.

Lemma prove_path_spec rounds b n t key :
  repr db b n t → pos_ok t key → (need n key ≤ rounds)%nat → sized t →
  ∃ nodes, prove_path rounds db gen n key = Ok nodes ∧ Forall2 on_path nodes (ppath t key).
Proof.
  revert b n t key. induction rounds as [|r IH]; intros b n t key Hr Hp Hn Hs; [unfold need in Hn; lia|].
  destruct Hp as [[Ht Hk]|[-> Ht]].
  2:{ exists []. split; [done|]. by destruct Ht as [->|(v & _ & ->)]. }
  destruct key as [|c key]; [by apply is_key_nonempty in Hk|]. assert (pos_ok t (c :: key)) as Hp by (left; done).
  destruct n as [|v|h|k val fl|cs fl]; cbn [prove_path].
  - inversion Hr; subst. by exists [].
  - inversion Hr; subst. destruct Ht as [?|Ht]; [done|inversion Ht].
  - destruct (resolveHash_repr db gen b h t [] Hr) as (-> & Hr' & Hc). cbn [obind].
    apply (IH b _ t (c :: key) Hr' Hp); [|done]. unfold need in *. rewrite loaded_not_hash. simpl in *. lia.
  - pose proof (conj Hr I) as [Hr0 _]. apply repr_short_inv in Hr as (t' & -> & Hr & Hfl). destruct Ht as [?|Ht]; [done|].
    assert (on_path (NShort k val fl) (PExt k t')) as Hon by (split_and!; [by exists b|done..]).
    destruct (pos_ok_ext k t' (c :: key) Ht Hk) as [(l & E & Hk0 & Hl)|(p & x & y & rk & l & Hparts & _)].
    + rewrite E in *. assert ((length (k ++ l) <? length k)%nat = false) as -> by (apply Nat.ltb_ge; rewrite length_app; lia).
      rewrite take_app_length, bool_decide_true, drop_app_length by done. cbn [orb negb].
      destruct (IH false val t' l Hr Hl) as (nodes & -> & Hnodes); [|apply Hs|].
      { pose proof (need_le val l). unfold need in Hn at 1. simpl in Hn. destruct k; [done|]. rewrite length_app in Hn. simpl in Hn. lia. }
      eexists. split; [done|]. simpl. rewrite take_app_length, bool_decide_true, drop_app_length by done. by constructor.
    + assert (take (length k) (c :: key) ≠ k) as Ht'.
      { intros E. destruct Hparts as (E1 & -> & Hcd). rewrite E1 in E. rewrite length_app in E.
        pose proof (f_equal (λ l, l !! length p) E) as F. cbn in F. rewrite lookup_take_lt in F by (simpl; lia).
        rewrite !lookup_app_r, Nat.sub_diag in F by lia. simpl in F. congruence. }
      rewrite (bool_decide_false (k = _)) by done. rewrite orb_true_r. exists [NShort k val fl]. split; [done|].
      simpl. rewrite bool_decide_false by done. by constructor.
  - pose proof (conj Hr I) as [Hr0 _]. apply repr_full_inv in Hr as (ts & -> & Hr & Hfl). destruct Ht as [?|Ht]; [done|].
    assert (on_path (NFull cs fl) (PBranch ts)) as Hon by (split_and!; [by exists b|done..]).
    pose proof Ht as (Hl & _)%canon_branch_iff. pose proof (nib_lt c (is_key_hexdigit [] c key Hk)) as Hc.
    destruct (lookup_lt_is_Some_2 ts (nib c)) as [t Et]; [lia|].
    destruct (Forall2_lookup_r _ _ _ _ _ Hr Et) as (n & En & Hrn). rewrite (index_Some _ _ _ En). cbn [obind].
    destruct (IH false n t key Hrn) as (nodes & -> & Hnodes).
    + by eapply pos_ok_branch.
    + pose proof (need_le n key). unfold need in Hn at 1. simpl in Hn. lia.
    + apply all_sub_branch in Hs as [_ Hs]. exact (Forall_lookup_1 _ _ _ _ Hs Et).
    + eexists. split; [done|]. simpl. rewrite at_child_lookup, Et. by constructor.
Qed.

(** A node on the path with its children collapsed. *)
Lemma hashChildren_spec n t :
  on_path n t →
  ∃ col c, hashChildren (W:=Empty_set) 0 0 n None = Ok (col, c, None) ∧ node_item col = citem t ∧
    is_hash col = false ∧ col ≠ NNil ∧ (∀ h, fst (cache col) = Some h → h = keccak256 (enc t)).
Proof.
  intros ((b & Hr) & Hh & Hc & Hs).
  pose proof (no_database (λ _, True)) as Hcf. pose proof within_any as Hw.
  destruct n as [|v|h|k v fl|cs fl]; try (inversion Hr; subst; inversion Hc; done).
  - apply repr_short_inv in Hr as (t' & -> & Hr & Hfl). cbn [hashChildren].
    destruct (compact_spec k (canon_hexkey _ _ Hc)) as (Hck & _). rewrite Hck. cbn [obind].
    pose proof (short_child (W:=Empty_set) (λ _, True) db 0 0 k v t' None
      (hash_spec _ Hcf db 0 0 v) Hr Hc (proj2 Hs) (Hw _)) as Hv.
    destruct (match v with NValue _ => _ | _ => _ end) as [[[cv nv] o1]|e|]; [|by destruct Hv as (? & ? & [] & ?)|done].
    destruct Hv as (Hi & _ & _ & Ho & _). destruct o1 as [[]|]. cbn [obind]. eexists _, _. split; [done|].
    split_and!; [simpl; by rewrite Hi|done|done|]. intros h E. simpl in E. unfold flag_ok in Hfl. rewrite E in Hfl. apply Hfl.
  - apply repr_full_inv in Hr as (ts & -> & Hr & Hfl). cbn [hashChildren].
    pose proof Hc as (Hl & Hcan & _)%canon_branch_iff. pose proof Hs as (_ & Hss)%all_sub_branch.
    pose proof (hash_children_ok (W:=Empty_set) (λ _, True) db 0 0 0 cs ts None) as Hcs.
    destruct (hash_children 0 0 0 cs None) as [[[ccs ncs] o1]|e|].
    + destruct Hcs as (Hi & _ & _ & Ho & _); [by apply Forall_true; intros; apply hash_spec|done..|by apply Forall_true|].
      destruct o1 as [[]|]. cbn [obind]. eexists _, _. split; [done|].
      split_and!; [simpl; by rewrite Hi|done|done|]. intros h E. simpl in E. unfold flag_ok in Hfl. rewrite E in Hfl. apply Hfl.
    + destruct Hcs as (? & ? & [] & ?); [by apply Forall_true; intros; apply hash_spec|done..|by apply Forall_true].
    + destruct Hcs; [by apply Forall_true; intros; apply hash_spec|done..|by apply Forall_true].
Qed.

Lemma prove_elements_spec i nodes ts :
  Forall2 on_path nodes ts →
  prove_elements i nodes =
    Ok (match i, ts with
        | O, t :: ts' => enc t :: map enc (filter is_hashed ts')
        | _, _ => map enc (filter is_hashed ts)
        end).
Proof.
  intros H. revert i. induction H as [|n t nodes ts Hn _ IH]; intros i; [by destruct i|]. cbn [prove_elements].
  destruct (hashChildren_spec n t Hn) as (col & c & -> & Hi & Hh & Hnil & Hca). cbn [obind].
  destruct Hn as (_ & _ & Hc & Hs). pose proof (all_sub_here _ _ Hs) as [Hf _].
  pose proof (no_database (λ _, True)) as Hcf. pose proof (within_any t) as Hw.
  pose proof (store_ok (W:=Empty_set) (λ _, True) Hcf db false t None col Hi Hh Hnil (canon_inner _ Hc) Hs Hw Hca) as Hst.
  destruct (store col None false) as [[hn o]|e|]; [|by destruct Hst as (? & ? & [] & ?)|done]. destruct Hst as (Hcol & _). cbn [obind].
  assert (is_hash hn = hashed t) as ->.
  { unfold collapsed_ok in Hcol. simpl in Hcol. destruct (hashed t); [by rewrite Hcol|apply Hcol]. }
  assert (EncodeToBytes (node_gval col) = Ok (enc t)) as ->.
  { unfold enc. rewrite <-Hi. apply encode_node. rewrite Hi. exact Hf. }
  rewrite (IH (S i)). destruct (hashed t) eqn:E.
  - rewrite filter_cons_True by done. by destruct i.
  - rewrite filter_cons_False by (unfold is_hashed; by rewrite E). by destruct i.
Qed.
End Prove.

Lemma Prove_spec T t k :
  canonical t → repr (t_db T) true (t_root T) t → sized t → Forall is_byte k →
  Prove k T = Ok (match t with PEmpty => [] | _ => proof_of t (keybytesToHex k) end).
Proof.
  intros Hc Hr Hs Hk. pose proof (keybytesToHex_key k Hk) as Hkey. unfold Prove.
  destruct (prove_path_spec (t_db T) (t_cachegen T) (key_rounds (keybytesToHex k)) true (t_root T) t (keybytesToHex k) Hr)
    as (nodes & -> & Hn); [by apply key_pos_ok|apply key_rounds_need|done|].
  rewrite (prove_elements_spec _ 0 nodes _ Hn). f_equal. destruct Hc as [->|Hc]; [done|].
  destruct (ppath_head t (keybytesToHex k) (is_key_nonempty _ Hkey) Hc) as [l E]. unfold proof_of, below. rewrite E. by destruct Hc.
Qed.

(** ** Proofs for a map *)

(** The hypothesis of soundness: no element of the proof collides with a node
    of the trie of [m]. *)
Definition no_forgery (m : gmap bytes bytes) (proof : list bytes) : Prop :=
  ∀ e e', e ∈ proof → map_node m e' → keccak256 e = keccak256 e' → e = e'.

(** C6: the proof Prove makes for any key is accepted against the trie's root
    hash, and gives the value stored for the key or its absence; only the empty
    trie has no proof that is accepted. *)
Theorem Prove_verifies T m k :
  models T m → small m → Forall is_byte k →
  ∃ proof, Prove k T = Ok proof ∧
    VerifyProof (root_hash (trie_of m)) k proof = if decide (m = ∅) then Err UnexpectedEnd else Ok (m !! k).
Proof.
  intros (t & Hc & Hr & Ht) Hm Hk. pose proof (small_sized t m Hc Ht Hm) as Hs.
  eexists. split; [by eapply Prove_spec|]. rewrite <-(content_root_hash t m Hc Ht). case_decide as E.
  - subst m. destruct Hc as [->|Hc]; [done|]. destruct (canon_has_key t Hc) as (key & v & Hkey & Hl).
    destruct Ht as (A & B & _). destruct (B key Hkey (mk_is_Some _ _ Hl)) as (k' & Hk' & ->). by rewrite A in Hl.
  - pose proof (content_canon t m Hc Ht E) as Hcan. destruct Ht as (A & _ & _). rewrite <-A by done.
    assert (root_hash t = keccak256 (enc t)) as -> by (by destruct Hcan).
    assert (match t with PEmpty => [] | _ => proof_of t (keybytesToHex k) end = proof_of t (keybytesToHex k)) as -> by (by destruct Hcan).
    apply verify_complete; [done..|by apply keybytesToHex_key].
Qed.

(** C5: a proof cannot lie: if VerifyProof accepts any list of byte strings as a
    proof for a key against the root hash of a trie that stores [m], the value it
    returns is the one [m] has for the key (absence included), unless an element
    of the proof collides with a node of the trie. *)
Theorem VerifyProof_sound T m k proof v :
  models T m → small m → m ≠ ∅ → Forall is_byte k → no_forgery m proof →
  VerifyProof (root_hash (trie_of m)) k proof = Ok v → v = m !! k.
Proof.
  intros (t & Hc & Hr & Ht) Hm Hne Hk Hnf Hv. pose proof (small_sized t m Hc Ht Hm) as Hs.
  pose proof (content_canon t m Hc Ht Hne) as Hcan. rewrite <-(content_root_hash t m Hc Ht) in Hv.
  assert (root_hash t = keccak256 (enc t)) as E by (by destruct Hcan). rewrite E in Hv.
  pose proof Ht as (A & _ & _). rewrite <-A by done.
  eapply verify_sound; [done|done|by apply keybytesToHex_key| |exact Hv].
  intros e s He Hsub Hh. apply Hnf; [done| |done]. exists s. by rewrite <-(content_trie_of t m Hc Ht).
Qed.
End Proofs.

Lemma Prove_verifies_witness :
  ∃ proof, Prove [0x12] ex_trie = Ok proof ∧ VerifyProof (root_hash (trie_of ex_map)) [0x12] proof = Ok (Some [7]).
Proof.
  destruct (Prove_verifies ex_trie ex_map [0x12]) as (proof & E1 & E2).
  - exact (proj1 ex_models).
  - exact ex_small.
  - by apply (bool_decide_unpack _).
  - exists proof. split; [exact E1|]. rewrite E2. vm_compute. reflexivity.
Defined.

(** The proof of the example, checked for its other key. *)
Lemma VerifyProof_sound_witness : Some [8; 9] = ex_map !! [0x13; 0x45].
Proof.
  apply (VerifyProof_sound ex_trie ex_map [0x13; 0x45] (proof_of (trie_of ex_map) (keybytesToHex [0x13; 0x45]))).
  - exact (proj1 ex_models).
  - exact ex_small.
  - by apply (bool_decide_unpack _).
  - by apply (bool_decide_unpack _).
  - intros e e' He. apply ex_nodes. apply elem_of_cons in He as [->|He].
    + exists (trie_of ex_map). split; [constructor|reflexivity].
    + assert (map enc (below (trie_of ex_map) (keybytesToHex [0x13; 0x45])) = []) as E by (vm_compute; reflexivity).
      rewrite E in He. destruct (proj1 (elem_of_nil e) He).
  - vm_compute. reflexivity.
Defined.
