(* ===== verification/Sha256.v ===== *)
(** * SHA-256 (the hash strategy of common/merkletree)

    crypto/sha256 of Go's standard library, as FIPS 180-4 defines it: padding,
    the message schedule and the compression function on 32-bit words. *)

From S2P Require Import Prelude.
Local Open Scope Z_scope.

Definition add32 (a b : Z) : Z := (a + b) mod 2 ^ 32.
Definition rotr (n x : Z) : Z := Z.lor (Z.shiftr x n) (Z.shiftl x (32 - n) mod 2 ^ 32).
Definition bsig0 (x : Z) : Z := Z.lxor (rotr 2 x) (Z.lxor (rotr 13 x) (rotr 22 x)).
Definition bsig1 (x : Z) : Z := Z.lxor (rotr 6 x) (Z.lxor (rotr 11 x) (rotr 25 x)).
Definition ssig0 (x : Z) : Z := Z.lxor (rotr 7 x) (Z.lxor (rotr 18 x) (Z.shiftr x 3)).
Definition ssig1 (x : Z) : Z := Z.lxor (rotr 17 x) (Z.lxor (rotr 19 x) (Z.shiftr x 10)).
Definition ch (x y z : Z) : Z := Z.lxor (Z.land x y) (Z.land (Z.lxor x (2 ^ 32 - 1)) z).
Definition maj (x y z : Z) : Z := Z.lxor (Z.land x y) (Z.lxor (Z.land x z) (Z.land y z)).

(** The first [n] primes from [p] on, [rounds] candidates at most. *)
Fixpoint primes_from (rounds n : nat) (p : Z) : list Z :=
  match rounds, n with
  | S r, S n' =>
      if forallb (λ d, negb (p mod Z.of_nat d =? 0)) (seq 2 (Z.to_nat (Z.sqrt p) - 1))
      then p :: primes_from r n' (p + 1)
      else primes_from r n (p + 1)
  | _, _ => []
  end.

(** The largest [x] below [acc + 2 ^ bits] whose cube is at most [y], from [acc] on. *)
Fixpoint cube_root (bits : nat) (acc y : Z) : Z :=
  match bits with
  | O => acc
  | S b =>
      let x := acc + 2 ^ Z.of_nat b in
      cube_root b (if x ^ 3 <=? y then x else acc) y
  end.

(** The first 32 bits of the fractional parts of the cube roots of the first 64
    primes, and of the square roots of the first eight. *)
Definition sha256_k : list Z :=
  Eval vm_compute in map (λ p, cube_root 36 0 (p * 2 ^ 96) mod 2 ^ 32) (primes_from 400 64 2).

Definition sha256_iv : list Z :=
  Eval vm_compute in map (λ p, Z.sqrt (p * 2 ^ 64) mod 2 ^ 32) (primes_from 400 8 2).

(** The eight words of a digest in progress. *)
Inductive words8 := W8 (a b c d e f g h : Z).

Definition be32 (b : bytes) : Z := foldl (λ a x, a * 256 + x) 0 b.
Definition put_be32 (x : Z) : bytes :=
  [Z.shiftr x 24 mod 256; Z.shiftr x 16 mod 256; Z.shiftr x 8 mod 256; x mod 256].

Fixpoint chunks (rounds n : nat) (b : bytes) : list bytes :=
  match rounds, b with
  | S r, _ :: _ => take n b :: chunks r n (drop n b)
  | _, _ => []
  end.

(** The schedule, latest word first: [n] more words. *)
Fixpoint schedule (n : nat) (w : list Z) : list Z :=
  match n with
  | O => w
  | S n' =>
      let at_ i := nth i w 0 in
      schedule n' (add32 (add32 (ssig1 (at_ 1%nat)) (at_ 6%nat)) (add32 (ssig0 (at_ 14%nat)) (at_ 15%nat)) :: w)
  end.

Definition sha256_round (s : words8) (kw : Z * Z) : words8 :=
  let (k, w) := kw in
  let 'W8 a b c d e f g h := s in
  let t1 := add32 h (add32 (bsig1 e) (add32 (ch e f g) (add32 k w))) in
  let t2 := add32 (bsig0 a) (maj a b c) in
  W8 (add32 t1 t2) a b c (add32 d t1) e f g.

Definition sha256_block (s : words8) (block : bytes) : words8 :=
  let w := rev (schedule 48 (rev (be32 <$> chunks 16 4 block))) in
  let 'W8 a b c d e f g h := foldl sha256_round s (zip sha256_k w) in
  let 'W8 a' b' c' d' e' f' g' h' := s in
  W8 (add32 a' a) (add32 b' b) (add32 c' c) (add32 d' d) (add32 e' e) (add32 f' f) (add32 g' g) (add32 h' h).

(** One bit, zeros, and the length in bits in eight bytes. *)
Definition sha256_pad (b : bytes) : bytes :=
  let n := Z.of_nat (length b) in
  b ++ [128] ++ replicate (Z.to_nat ((55 - n) mod 64)) 0 ++
  put_be32 (Z.shiftr (8 * n) 32 mod 2 ^ 32) ++ put_be32 (8 * n).

Definition sha256_init : words8 :=
  match sha256_iv with
  | [a; b; c; d; e; f; g; h] => W8 a b c d e f g h
  | _ => W8 0 0 0 0 0 0 0 0
  end.

Definition sha256 (b : bytes) : bytes :=
  let p := sha256_pad b in
  let 'W8 a b c d e f g h := foldl sha256_block sha256_init (chunks (length p) 64 p) in
  mjoin (put_be32 <$> [a; b; c; d; e; f; g; h]).

Lemma length_sha256 b : length (sha256 b) = 32%nat.
Proof. unfold sha256. by destruct (foldl _ _ _). Qed.

Lemma sha256_byte b : Forall is_byte (sha256 b).
Proof.
  unfold sha256. destruct (foldl _ _ _). cbn. repeat constructor; apply Z.mod_pos_bound; lia.
Qed.

(** The digests of the empty message and of a message of two blocks. *)
Lemma sha256_empty : be32 (sha256 []) = 0xe3b0c44298fc1c149afbf4c8996fb92427ae41e4649b934ca495991b7852b855.
Proof. by vm_compute. Qed.

Lemma sha256_two_blocks : be32 (sha256 (replicate 64 97)) = 0xffe054fe7ae0cb6dc65c3af9b61d5209f439851db43d0ba5997337df154668eb.
Proof. by vm_compute. Qed.
