(* ===== verification/Merkletree.v ===== *)
(** * Merkle trees (common/merkletree/merkletree.go, blockchain/types/derive_sha.go)

    Trees whose nodes point to their parents and children: the nodes live in a
    store and pointers are positions in it.  Contents are an interface, the hash
    strategy is a parameter.  The reference is a recursive function on the list
    of leaf hashes. *)

From S2P Require Import Prelude Sha256 TrieNode Trie.

(** The interface Content; both methods may fail. *)
Class Content (C E : Type) := {
  CalculateHash : C → outcome E bytes;
  Equals : C → C → outcome E bool
}.

Inductive merkle_error (E : Type) :=
| NoContent
| ContentError (e : E)
| MErrOutOfRounds.
Arguments NoContent {E}.
Arguments ContentError {E} _.
Arguments MErrOutOfRounds {E}.

Section Merkle.
Context {C E : Type} {HC : Content C E} (hashStrategy : bytes → bytes).

Abbreviation merkle_out := (outcome (merkle_error E)).

Record Node := MkNode {
  n_Parent : option nat;
  n_Left : option nat;
  n_Right : option nat;
  n_leaf : bool;
  n_dup : bool;
  n_Hash : bytes;
  n_C : option C
}.

(** The store and the tree's fields. *)
Record MerkleTree := MkTree {
  m_nodes : list Node;
  m_Root : nat;
  m_merkleRoot : bytes;
  m_Leafs : list nat
}.

(** Following a pointer; nil panics. *)
Definition deref (st : list Node) (p : option nat) : merkle_out Node :=
  match p with
  | Some i => st.[i]
  | None => Panic
  end.

Definition content_of (n : Node) : merkle_out C :=
  match n_C n with
  | Some c => Ok c
  | None => Panic
  end.

Definition with_Parent (p : nat) (n : Node) : Node :=
  MkNode (Some p) (n_Left n) (n_Right n) (n_leaf n) (n_dup n) (n_Hash n) (n_C n).

(** ** Building *)

Definition leaf_node (dup : bool) (hash : bytes) (c : C) : Node :=
  MkNode None None None true dup hash (Some c).

(** The loop over the contents. *)
Fixpoint make_leafs (cs : list C) (st : list Node) : merkle_out (list nat * list Node) :=
  match cs with
  | [] => Ok ([], st)
  | c :: cs' =>
      let* hash := omap_err ContentError (CalculateHash c) in
      let* (leafs, st') := make_leafs cs' (st ++ [leaf_node false hash c]) in
      Ok (length st :: leafs, st')
  end.

(** One pass over a level: the pairs from [nl] on, where [len] is the length of
    the whole level; [inl] for the root. *)
Fixpoint build_level (rounds len : nat) (nl : list nat) (st : list Node)
    : merkle_out ((nat + list nat) * list Node) :=
  match nl, rounds with
  | [], _ => Ok (inr [], st)
  | _, O => Err MErrOutOfRounds
  | il :: nl', S r =>
      let (ir, rest) := match nl' with [] => (il, []) | ir :: rest => (ir, rest) end in
      let* ln := st.[il] in
      let* rn := st.[ir] in
      let n := length st in
      let st := st ++ [MkNode None (Some il) (Some ir) false false
                         (hashStrategy (n_Hash ln ++ n_Hash rn)) None] in
      let st := alter (with_Parent n) ir (alter (with_Parent n) il st) in
      if len =? 2 then Ok (inl n, st)
      else
        let* (res, st) := build_level r len rest st in
        match res with
        | inl root => Ok (inl root, st)
        | inr nodes => Ok (inr (n :: nodes), st)
        end
  end.

Fixpoint buildIntermediate (rounds : nat) (nl : list nat) (st : list Node) : merkle_out (nat * list Node) :=
  match rounds with
  | O => Err MErrOutOfRounds
  | S r =>
      let* (res, st) := build_level (length nl) (length nl) nl st in
      match res with
      | inl root => Ok (root, st)
      | inr nodes => buildIntermediate r nodes st
      end
  end.

Definition buildWithContent (cs : list C) : merkle_out (nat * list nat * list Node) :=
  match cs with
  | [] => Err NoContent
  | _ =>
      let* (leafs, st) := make_leafs cs [] in
      let* (leafs, st) :=
        if Nat.odd (length leafs) then
          let* i := leafs.[length leafs - 1] in
          let* n := st.[i] in
          let* c := content_of n in
          Ok (leafs ++ [length st], st ++ [leaf_node true (n_Hash n) c])
        else Ok (leafs, st) in
      let* (root, st) := buildIntermediate (length leafs) leafs st in
      Ok (root, leafs, st)
  end.

Definition NewTree (cs : list C) : merkle_out MerkleTree :=
  let* (root, leafs, st) := buildWithContent cs in
  let* n := st.[root] in
  Ok (MkTree st root (n_Hash n) leafs).

Definition MerkleRoot (m : MerkleTree) : bytes := m_merkleRoot m.

Definition RebuildTreeWith (cs : list C) (m : MerkleTree) : merkle_out MerkleTree := NewTree cs.

(** [mapM] over the leaves. *)
Fixpoint leaf_contents (st : list Node) (l : list nat) : merkle_out (list C) :=
  match l with
  | [] => Ok []
  | i :: l' =>
      let* n := st.[i] in
      let* c := content_of n in
      let* cs := leaf_contents st l' in
      Ok (c :: cs)
  end.

Definition RebuildTree (m : MerkleTree) : merkle_out MerkleTree :=
  let* cs := leaf_contents (m_nodes m) (m_Leafs m) in
  NewTree cs.

(** ** Verification *)

Definition calculateNodeHash (st : list Node) (n : Node) : merkle_out bytes :=
  if n_leaf n then
    let* c := content_of n in omap_err ContentError (CalculateHash c)
  else
    let* l := deref st (n_Left n) in
    let* r := deref st (n_Right n) in
    Ok (hashStrategy (n_Hash l ++ n_Hash r)).

Fixpoint verifyNode (rounds : nat) (st : list Node) (i : nat) : merkle_out bytes :=
  match rounds with
  | O => Err MErrOutOfRounds
  | S r =>
      let* n := st.[i] in
      if n_leaf n then
        let* c := content_of n in omap_err ContentError (CalculateHash c)
      else
        match n_Left n, n_Right n with
        | Some l, Some rt =>
            let* rightBytes := verifyNode r st rt in
            let* leftBytes := verifyNode r st l in
            Ok (hashStrategy (leftBytes ++ rightBytes))
        | _, _ => Panic
        end
  end.

Definition VerifyTree (m : MerkleTree) : merkle_out bool :=
  let* calculated := verifyNode (length (m_nodes m)) (m_nodes m) (m_Root m) in
  Ok (bool_decide (m_merkleRoot m = calculated)).

(** The first leaf whose content equals [content]. *)
Fixpoint find_leaf (st : list Node) (l : list nat) (content : C) : merkle_out (option nat) :=
  match l with
  | [] => Ok None
  | i :: l' =>
      let* n := st.[i] in
      let* c := content_of n in
      let* ok := omap_err ContentError (Equals c content) in
      if ok : bool then Ok (Some i) else find_leaf st l' content
  end.

(** The walk from a leaf to the root in GetMerklePath. *)
Fixpoint merkle_path (rounds : nat) (st : list Node) (current : nat) : merkle_out (list bytes * list Z) :=
  match rounds with
  | O => Err MErrOutOfRounds
  | S r =>
      let* cur := st.[current] in
      match n_Parent cur with
      | None => Ok ([], [])
      | Some p =>
          let* par := st.[p] in
          let* l := deref st (n_Left par) in
          let* rt := deref st (n_Right par) in
          let* (path, index) := merkle_path r st p in
          if bool_decide (n_Hash l = n_Hash cur)
          then Ok (n_Hash rt :: path, 1%Z :: index)
          else Ok (n_Hash l :: path, 0%Z :: index)
      end
  end.

Definition GetMerklePath (content : C) (m : MerkleTree) : merkle_out (option (list bytes * list Z)) :=
  let* leaf := find_leaf (m_nodes m) (m_Leafs m) content in
  match leaf with
  | Some i => let* r := merkle_path (length (m_nodes m)) (m_nodes m) i in Ok (Some r)
  | None => Ok None
  end.

(** The walk in VerifyContent. *)
Fixpoint verify_up (rounds : nat) (st : list Node) (current : nat) : merkle_out bool :=
  match rounds with
  | O => Err MErrOutOfRounds
  | S r =>
      let* cur := st.[current] in
      match n_Parent cur with
      | None => Ok true
      | Some p =>
          let* par := st.[p] in
          let* rt := deref st (n_Right par) in
          let* rightBytes := calculateNodeHash st rt in
          let* l := deref st (n_Left par) in
          let* leftBytes := calculateNodeHash st l in
          if bool_decide (hashStrategy (leftBytes ++ rightBytes) = n_Hash par)
          then verify_up r st p else Ok false
      end
  end.

Definition VerifyContent (content : C) (m : MerkleTree) : merkle_out bool :=
  let* leaf := find_leaf (m_nodes m) (m_Leafs m) content in
  match leaf with
  | Some i => verify_up (length (m_nodes m)) (m_nodes m) i
  | None => Ok false
  end.

(** ** Reference *)

(** The next level: the last hash of an odd level is paired with itself. *)
Fixpoint pair_up (hs : list bytes) : list bytes :=
  match hs with
  | [] => []
  | [h] => [hashStrategy (h ++ h)]
  | h1 :: h2 :: hs' => hashStrategy (h1 ++ h2) :: pair_up hs'
  end.

(** The root of a level, after [rounds] levels at most. *)
Fixpoint root_of (rounds : nat) (hs : list bytes) : option bytes :=
  match rounds with
  | O => None
  | S r => match pair_up hs with
           | [] => None
           | [h] => Some h
           | hs' => root_of r hs'
           end
  end.

Definition merkle_root (hs : list bytes) : option bytes := root_of (length hs) hs.

(** The hashes of the contents, up to the first failure. *)
Fixpoint hash_all (cs : list C) : outcome E (list bytes) :=
  match cs with
  | [] => Ok []
  | c :: cs' => let* h := CalculateHash c in let* hs := hash_all cs' in Ok (h :: hs)
  end.

(** What is hashed on the way to the root. *)
Fixpoint level_inputs (hs : list bytes) : list bytes :=
  match hs with
  | [] => []
  | [h] => [h ++ h]
  | h1 :: h2 :: hs' => (h1 ++ h2) :: level_inputs hs'
  end.

Fixpoint merkle_inputs (rounds : nat) (hs : list bytes) : list bytes :=
  match rounds with
  | O => []
  | S r => level_inputs hs ++
           match pair_up hs with
           | [] | [_] => []
           | hs' => merkle_inputs r hs'
           end
  end.

(** What a receiver of a path computes. *)
Fixpoint fold_path (h : bytes) (path : list bytes) (index : list Z) : bytes :=
  match path, index with
  | s :: path', i :: index' =>
      fold_path (if (i =? 1)%Z then hashStrategy (h ++ s) else hashStrategy (s ++ h)) path' index'
  | _, _ => h
  end.
End Merkle.

Arguments Node : clear implicits.
Arguments MerkleTree : clear implicits.

(** DeriveSha: the root of the tree of the contents, as a hash of 32 bytes;
    EmptyRootHash is the constant of the trie. *)
Definition DeriveSha {C E F} {HC : Content C E} (list : list C) : outcome F bytes :=
  match list with
  | [] => Ok emptyRoot
  | _ => match NewTree sha256 list with
         | Ok t => Ok (BytesToHash (MerkleRoot t))
         | _ => Panic
         end
  end.

(** ** Well-formed stores *)

Section Proofs.
Context {C E : Type} {HC : Content C E} (H : bytes → bytes).

(** Node [n] at position [i]: its hash is the hash of its content or of its
    children, which are below it, and its parent is above it. *)
Definition hash_right (st : list (Node C)) (i : nat) (n : Node C) : Prop :=
  if n_leaf n then ∃ c, n_C n = Some c ∧ CalculateHash c = Ok (n_Hash n)
  else ∃ l r ln rn, n_Left n = Some l ∧ n_Right n = Some r ∧ l < i ∧ r < i ∧
         st !! l = Some ln ∧ st !! r = Some rn ∧ n_Hash n = H (n_Hash ln ++ n_Hash rn).

Definition parent_right (st : list (Node C)) (i : nat) (n : Node C) : Prop :=
  ∀ p, n_Parent n = Some p →
    ∃ pn, st !! p = Some pn ∧ i < p ∧ n_leaf pn = false ∧ (n_Left pn = Some i ∨ n_Right pn = Some i).

Definition wf (st : list (Node C)) : Prop := ∀ i n, st !! i = Some n → hash_right st i n ∧ parent_right st i n.

(** Positions keep everything but their parent. *)
Definition same_but_parent (n n' : Node C) : Prop :=
  n_Left n' = n_Left n ∧ n_Right n' = n_Right n ∧ n_leaf n' = n_leaf n ∧ n_Hash n' = n_Hash n ∧ n_C n' = n_C n.

Definition grows (st st' : list (Node C)) : Prop :=
  ∀ i n, st !! i = Some n → ∃ n', st' !! i = Some n' ∧ same_but_parent n n'.

Lemma grows_refl st : grows st st.
Proof. intros i n Hi. exists n. by repeat split. Qed.

Lemma grows_trans st1 st2 st3 : grows st1 st2 → grows st2 st3 → grows st1 st3.
Proof.
  intros H1 H2 i n Hi. destruct (H1 _ _ Hi) as (n' & Hi' & A). destruct (H2 _ _ Hi') as (n'' & Hi'' & B).
  exists n''. split; [done|]. unfold same_but_parent in *. intuition congruence.
Qed.

Lemma hash_right_grows st st' i n n' :
  grows st st' → same_but_parent n n' → hash_right st i n → hash_right st' i n'.
Proof.
  intros Hg (E1 & E2 & E3 & E4 & E5). unfold hash_right. rewrite E1, E2, E3, E4, E5. destruct (n_leaf n); [done|].
  intros (l & r & ln & rn & ? & ? & ? & ? & Hl & Hr & ->).
  destruct (Hg _ _ Hl) as (ln' & ? & ? & ? & ? & <- & ?), (Hg _ _ Hr) as (rn' & ? & ? & ? & ? & <- & ?).
  exists l, r, ln', rn'. by split_and!.
Qed.

(** The positions without parent. *)
Definition orphans (st : list (Node C)) (l : list nat) : Prop :=
  ∀ i n, st !! i = Some n → n_Parent n = None → i ∈ l.

Definition hashes (st : list (Node C)) (l : list nat) (hs : list bytes) : Prop :=
  Forall2 (λ i h, n_Hash <$> st !! i = Some h) l hs.

Lemma hashes_grows st st' l hs : grows st st' → hashes st l hs → hashes st' l hs.
Proof.
  intros Hg Hh. eapply Forall2_impl; [exact Hh|]. intros i h (n & Hn & ->)%fmap_Some.
  destruct (Hg _ _ Hn) as (n' & -> & _ & _ & _ & E' & _). simpl. by rewrite E'.
Qed.

(** *** Adding the parent of two nodes *)

Definition new_node (il ir : nat) (ln rn : Node C) : Node C :=
  MkNode None (Some il) (Some ir) false false (H (n_Hash ln ++ n_Hash rn)) None.
Definition link (il ir : nat) (ln rn : Node C) (st : list (Node C)) : list (Node C) :=
  alter (with_Parent (length st)) ir (alter (with_Parent (length st)) il (st ++ [new_node il ir ln rn])).

Lemma link_lookup il ir ln rn st i :
  il < length st → ir < length st →
  link il ir ln rn st !! i =
    if decide (i = il ∨ i = ir) then with_Parent (length st) <$> st !! i
    else if decide (i = length st) then Some (new_node il ir ln rn) else st !! i.
Proof.
  intros Hl Hr. unfold link. set (f := with_Parent (length st)).
  assert (∀ x, f (f x) = f x) as Hff by done.
  assert (∀ j, (st ++ [new_node il ir ln rn]) !! j = if decide (j = length st) then Some (new_node il ir ln rn) else st !! j) as Happ.
  { intros j. case_decide as E1; [subst; by rewrite lookup_app_r, Nat.sub_diag by lia|].
    destruct (decide (j < length st)); [by rewrite lookup_app_l|].
    rewrite lookup_app_r, (lookup_ge_None_2 st) by lia. destruct (j - length st) eqn:?; [lia|done]. }
  destruct (decide (i = ir)) as [->|Hir].
  - rewrite list_lookup_alter_eq, (decide_True (P:=ir = il ∨ ir = ir)) by auto.
    destruct (decide (ir = il)) as [->|Hne].
    + rewrite list_lookup_alter_eq, Happ, decide_False by lia. by destruct (st !! il).
    + rewrite list_lookup_alter_ne, Happ, decide_False by lia. done.
  - rewrite list_lookup_alter_ne by done. destruct (decide (i = il)) as [->|Hil].
    + rewrite list_lookup_alter_eq, Happ, decide_False, decide_True by (lia || auto). done.
    + rewrite list_lookup_alter_ne, Happ by done. rewrite (decide_False (P:=i = il ∨ i = ir)) by tauto. done.
Qed.

Lemma link_grows il ir ln rn st : il < length st → ir < length st → grows st (link il ir ln rn st).
Proof.
  intros Hl Hr i n Hi. rewrite link_lookup by done. pose proof (lookup_lt_Some _ _ _ Hi).
  case_decide; [rewrite Hi; eexists; split; [done|by repeat split]|]. rewrite decide_False by lia. exists n. by repeat split.
Qed.

Lemma length_link il ir ln rn st : length (link il ir ln rn st) = S (length st).
Proof. unfold link. rewrite !length_alter, length_app. simpl. lia. Qed.

Lemma link_wf il ir ln rn st :
  wf st → st !! il = Some ln → st !! ir = Some rn → wf (link il ir ln rn st).
Proof.
  intros Hwf Hl Hr. pose proof (lookup_lt_Some _ _ _ Hl) as Ll. pose proof (lookup_lt_Some _ _ _ Hr) as Lr.
  pose proof (link_grows il ir ln rn st Ll Lr) as Hg.
  assert (link il ir ln rn st !! length st = Some (new_node il ir ln rn)) as Hnew.
  { rewrite link_lookup, decide_False, decide_True by lia. done. }
  intros i n Hi. rewrite link_lookup in Hi by done. case_decide as E1.
  - apply fmap_Some in Hi as (n0 & Hi & ->). split.
    + eapply hash_right_grows; [exact Hg| |by apply Hwf]. by repeat split.
    + intros p [= <-]. exists (new_node il ir ln rn). split_and!; [done| |done|]; destruct E1; subst; simpl; auto; lia.
  - case_decide as E2.
    + injection Hi as <-. subst i. split; [|done].
      destruct (Hg _ _ Hl) as (ln' & El & _ & _ & _ & Eh & _), (Hg _ _ Hr) as (rn' & Er & _ & _ & _ & Eh' & _).
      exists il, ir, ln', rn'. simpl. rewrite Eh, Eh'. by split_and!.
    + destruct (Hwf _ _ Hi) as [H1 H2]. split; [eapply hash_right_grows; [exact Hg| |exact H1]; by repeat split|].
      intros p Hp. destruct (H2 p Hp) as (pn & Hpn & ? & ? & ?). destruct (Hg _ _ Hpn) as (pn' & ? & A1 & A2 & A3 & _).
      exists pn'. rewrite A1, A2, A3. by split_and!.
Qed.

Lemma link_orphans il ir ln rn st l :
  il < length st → ir < length st → orphans st (il :: ir :: l) → orphans (link il ir ln rn st) (length st :: l).
Proof.
  intros Hl Hr Ho i n Hi Hp. rewrite link_lookup in Hi by done. case_decide as E1.
  - apply fmap_Some in Hi as (n0 & _ & ->). done.
  - case_decide as E2; [subst; left|]. right.
    pose proof (Ho i n Hi Hp) as Hin. rewrite !elem_of_cons in Hin. tauto.
Qed.

(** ** Building *)

Lemma orphans_weaken st l l' : (∀ i, i ∈ l → i ∈ l') → orphans st l → orphans st l'.
Proof. intros Hl Ho i n Hi Hp. eapply Hl, Ho; done. Qed.

Lemma hashes_lookup st i h : n_Hash <$> st !! i = Some h → ∃ n : Node C, st !! i = Some n ∧ n_Hash n = h ∧ i < length st.
Proof. intros (n & Hn & ->)%fmap_Some. exists n. split_and!; [done..|by eapply lookup_lt_Some]. Qed.

Lemma new_hash il ir ln rn (st : list (Node C)) :
  il < length st → ir < length st →
  n_Hash <$> link il ir ln rn st !! length st = Some (H (n_Hash ln ++ n_Hash rn)).
Proof. intros. rewrite link_lookup, decide_False, decide_True by lia. done. Qed.

Lemma build_level_spec rounds len nl st hs acc :
  len ≠ 2 → length nl ≤ rounds → wf st → hashes st nl hs → orphans st (nl ++ acc) →
  ∃ nodes st', build_level (C:=C) (E:=E) H rounds len nl st = Ok (inr nodes, st') ∧ wf st' ∧ grows st st' ∧
    hashes st' nodes (pair_up H hs) ∧ orphans st' (nodes ++ acc).
Proof.
  intros Hlen. revert nl st hs acc. induction rounds as [|r IH]; intros nl st hs acc Hr Hwf Hh Ho.
  { destruct nl; [|simpl in Hr; lia]. inversion Hh; subst. exists [], st. split_and!; [done|done|apply grows_refl|constructor|done]. }
  destruct nl as [|il [|ir rest]].
  - inversion Hh; subst. exists [], st. split_and!; [done|done|apply grows_refl|constructor|done].
  - inversion Hh as [|? h ? ? Hi Hn]; subst. inversion Hn; subst. destruct (hashes_lookup _ _ _ Hi) as (ln & El & <- & Ll).
    cbn [build_level]. rewrite (index_Some _ _ _ El). cbn [obind]. fold (new_node il il ln ln). fold (link il il ln ln st).
    destruct (Nat.eqb_spec len 2) as [|_]; [done|]. destruct r as [|r]; cbn [build_level obind].
    all: exists [length st], (link il il ln ln st); split_and!;
      [done|by apply link_wf|by apply link_grows|constructor; [by apply new_hash|constructor]|].
    all: apply link_orphans; [done..|]; eapply orphans_weaken; [|done]; set_solver.
  - inversion Hh as [|? hl ? ? Hil Hh']; subst. inversion Hh' as [|? hr ? hs' Hir Hrest]; subst.
    destruct (hashes_lookup _ _ _ Hil) as (ln & El & <- & Ll), (hashes_lookup _ _ _ Hir) as (rn & Er & <- & Lr).
    cbn [build_level]. rewrite (index_Some _ _ _ El), (index_Some _ _ _ Er). cbn [obind].
    fold (new_node il ir ln rn). fold (link il ir ln rn st).
    destruct (Nat.eqb_spec len 2) as [|_]; [done|]. pose proof (link_grows il ir ln rn st Ll Lr) as Hg.
    destruct (IH rest (link il ir ln rn st) hs' (length st :: acc)) as (nodes & st' & -> & Hwf' & Hg' & Hn & Ho').
    + simpl in Hr. lia.
    + by apply link_wf.
    + by eapply hashes_grows.
    + apply (orphans_weaken _ (length st :: rest ++ acc)); [set_solver|]. by apply link_orphans.
    + cbn [obind]. exists (length st :: nodes), st'. split_and!; [done|done|by eapply grows_trans| |].
      * constructor; [|done]. pose proof (new_hash il ir ln rn st Ll Lr) as Hnew.
        apply hashes_lookup in Hnew as (n & En & Eh & _). destruct (Hg' _ _ En) as (n' & -> & _ & _ & _ & E' & _). simpl. by rewrite E', Eh.
      * eapply orphans_weaken; [|done]. set_solver.
Qed.

Lemma pair_up_length hs : length (pair_up H hs) = (length hs + 1) / 2.
Proof.
  revert hs. fix IH 1. intros [|h1 [|h2 hs]]; [done|done|]. cbn [pair_up length]. rewrite IH.
  replace (S (S (length hs)) + 1) with (length hs + 1 + 1 * 2) by lia. rewrite Nat.div_add by lia. lia.
Qed.

Lemma hashes_length (st : list (Node C)) l hs : hashes st l hs → length l = length hs.
Proof. apply Forall2_length. Qed.

Lemma buildIntermediate_spec rounds nl st hs :
  length hs ≤ rounds → 2 ≤ length hs → wf st → hashes st nl hs → orphans st nl →
  ∃ root st' h, buildIntermediate (C:=C) (E:=E) H rounds nl st = Ok (root, st') ∧ root_of H rounds hs = Some h ∧
    wf st' ∧ grows st st' ∧ n_Hash <$> st' !! root = Some h ∧ orphans st' [root].
Proof.
  revert nl st hs. induction rounds as [|r IH]; intros nl st hs Hr H2 Hwf Hh Ho; [lia|]. cbn [buildIntermediate root_of].
  pose proof (hashes_length _ _ _ Hh) as Hl. destruct (decide (length hs = 2)) as [E2|Hne].
  - destruct hs as [|h1 [|h2 [|]]]; try (simpl in *; lia). destruct nl as [|il [|ir [|]]]; try (simpl in *; lia).
    inversion Hh as [|? ? ? ? Hil Hh']; subst. inversion Hh' as [|? ? ? ? Hir _]; subst.
    destruct (hashes_lookup _ _ _ Hil) as (ln & El & <- & Ll), (hashes_lookup _ _ _ Hir) as (rn & Er & <- & Lr).
    cbn [build_level length]. rewrite (index_Some _ _ _ El), (index_Some _ _ _ Er). cbn [obind Nat.eqb].
    fold (new_node il ir ln rn). fold (link il ir ln rn st).
    eexists (length st), _, _. split_and!; [done|done|by apply link_wf|by apply link_grows|by apply new_hash|].
    apply link_orphans; [done..|]. done.
  - destruct (build_level_spec (length nl) (length nl) nl st hs []) as (nodes & st1 & -> & Hwf1 & Hg1 & Hn & Ho1);
      [lia|lia|done|done|by rewrite app_nil_r|]. cbn [obind].
    pose proof (pair_up_length hs) as Hp.
    assert (2 ≤ (length hs + 1) / 2) by (apply Nat.div_le_lower_bound; lia).
    assert ((length hs + 1) / 2 ≤ r) by (apply Nat.Div0.div_le_upper_bound; lia).
    rewrite app_nil_r in Ho1.
    destruct (IH nodes st1 (pair_up H hs)) as (root & st' & h & -> & Eh & Hwf' & Hg' & Hroot & Ho'); [lia|lia|done..|].
    exists root, st', h. split_and!; [done| |done|by eapply grows_trans|done|done].
    destruct (pair_up H hs) as [|x [|y l]]; [simpl in *; lia..|done].
Qed.

(** The leaves. *)
Definition leaf_for (c : C) (h : bytes) : Node C := leaf_node false h c.

Lemma make_leafs_spec cs hs st :
  Forall2 (λ c h, CalculateHash c = Ok h) cs hs →
  make_leafs cs st = Ok (seq (length st) (length cs), st ++ zip_with leaf_for cs hs).
Proof.
  intros Hh. revert st. induction Hh as [|c h cs hs Hc _ IH]; intros st; [by rewrite app_nil_r|].
  cbn [make_leafs]. rewrite Hc. cbn [omap_err obind]. rewrite IH. cbn [obind].
  rewrite length_app, <-app_assoc. simpl. by rewrite Nat.add_1_r.
Qed.

(** A store of leaves only. *)
Definition leaf_ok (n : Node C) : Prop :=
  n_leaf n = true ∧ n_Parent n = None ∧ ∃ c, n_C n = Some c ∧ CalculateHash c = Ok (n_Hash n).

Lemma leafs_wf st : Forall leaf_ok st → wf st.
Proof.
  intros Hl i n Hi. destruct (Forall_lookup_1 _ _ _ _ Hl Hi) as (E1 & E2 & E3). unfold hash_right, parent_right.
  rewrite E1, E2. by split.
Qed.

Lemma leafs_ok cs hs : Forall2 (λ c h, CalculateHash c = Ok h) cs hs → Forall leaf_ok (zip_with leaf_for cs hs).
Proof. induction 1; simpl; constructor; [|done]. split_and!; [done..|]. by exists x. Qed.

Lemma hashes_seq (st : list (Node C)) : hashes st (seq 0 (length st)) (n_Hash <$> st).
Proof.
  apply Forall2_same_length_lookup_2; [by rewrite length_seq, length_fmap|].
  intros i j h Hj Hh. apply lookup_seq in Hj as [-> _]. by rewrite <-list_lookup_fmap.
Qed.

(** An odd list is completed with a copy of its last element. *)
Definition pad_even {A} (l : list A) : list A :=
  if Nat.odd (length l) then l ++ from_option (λ x, [x]) [] (last l) else l.

Lemma pad_even_fmap {A B} (f : A → B) l : f <$> pad_even l = pad_even (f <$> l).
Proof.
  unfold pad_even. rewrite length_fmap. destruct (Nat.odd (length l)); [|done]. rewrite fmap_app, fmap_last. by destruct (last l).
Qed.

(** The store before the intermediate levels are built. *)
Lemma leaf_level cs hs :
  cs ≠ [] → Forall2 (λ c h, CalculateHash c = Ok h) cs hs →
  ∃ st, (let* (leafs, st) := make_leafs cs [] in
         if Nat.odd (length leafs) then
           let* i := leafs.[length leafs - 1] in
           let* n := st.[i] in
           let* c := content_of n in
           Ok (leafs ++ [length st], st ++ [leaf_node true (n_Hash n) c])
         else Ok (leafs, st)) = Ok (seq 0 (length st), st) ∧
    Forall leaf_ok st ∧ n_Hash <$> st = pad_even hs ∧ n_C <$> st = Some <$> pad_even cs.
Proof.
  intros Hne Hh. rewrite (make_leafs_spec cs hs [] Hh). cbn [obind app length]. rewrite length_seq.
  pose proof (leafs_ok cs hs Hh) as Hok. pose proof (Forall2_length _ _ _ Hh) as Hlen.
  set (st := zip_with leaf_for cs hs) in *.
  assert (length st = length cs) as Hl by (unfold st; rewrite length_zip_with; lia).
  assert (n_Hash <$> st = hs) as Eh by (apply fmap_zip_with_r; [done|lia]).
  assert (n_C <$> st = Some <$> cs) as Ec.
  { unfold st. clear -Hlen. revert hs Hlen. induction cs as [|c cs IH]; intros [|h hs] Hlen; try done.
    simpl. f_equal. apply IH. simpl in Hlen. lia. }
  destruct (Nat.odd (length cs)) eqn:Hodd.
  - destruct (exists_last Hne) as (cs0 & c & ->). rewrite length_app in *. simpl in Hl, Hlen, Hodd.
    assert (∃ h hs0, hs = hs0 ++ [h] ∧ length hs0 = length cs0) as (h & hs0 & -> & Hl0).
    { destruct (exists_last (l:=hs)) as (hs0 & h & ->); [by destruct hs; simpl in Hlen; [lia|]|].
      exists h, hs0. rewrite length_app in Hlen. simpl in Hlen. split; [done|lia]. }
    assert (st !! length cs0 = Some (leaf_for c h)) as Hlast.
    { unfold st. rewrite zip_with_app by done. apply list_lookup_middle. rewrite length_zip_with. lia. }
    assert (seq 0 (length cs0 + length [c]) !! (length cs0 + length [c] - 1) = Some (length cs0)) as Hseq.
    { rewrite lookup_seq_lt; simpl; [f_equal|]; lia. }
    rewrite (index_Some _ _ _ Hseq).
    cbn [obind]. rewrite (index_Some _ _ _ Hlast). cbn [obind content_of n_C leaf_for leaf_node n_Hash].
    exists (st ++ [leaf_node true h c]). rewrite length_app, Hl. split_and!; [by rewrite (seq_app (length cs0 + 1))|..].
    + apply Forall_app. split; [done|]. apply Forall_singleton. split_and!; [done..|]. exists c. split; [done|].
      apply Forall2_app_inv in Hh as [_ Hh]; [by inversion Hh|done].
    + rewrite fmap_app, Eh. unfold pad_even. rewrite length_app, Hl0, last_snoc. simpl. by rewrite Hodd.
    + rewrite fmap_app, Ec, pad_even_fmap. unfold pad_even. rewrite length_fmap, length_app, fmap_app. cbn [fmap list_fmap]. rewrite last_snoc. simpl. by rewrite Hodd.
  - exists st. unfold pad_even. rewrite Hlen in Hodd |- *. rewrite Hodd, Hl, Hlen. split_and!; [done..|].
    by rewrite Ec.
Qed.

(** ** Complete trees *)

Record good (m : MerkleTree C) (cs : list C) : Prop := {
  good_wf : wf (m_nodes m);
  good_orphans : orphans (m_nodes m) [m_Root m];
  good_root : n_Hash <$> m_nodes m !! m_Root m = Some (m_merkleRoot m);
  good_leafs : Forall2 (λ i c, ∃ n, m_nodes m !! i = Some n ∧ n_leaf n = true ∧ n_C n = Some c) (m_Leafs m) (pad_even cs)
}.

Lemma length_pad_even {A} (l : list A) : length (pad_even l) = length l + Nat.b2n (Nat.odd (length l)).
Proof.
  unfold pad_even. destruct (Nat.odd (length l)) eqn:E1; [|simpl; lia].
  destruct (last l) eqn:E2; [by rewrite length_app|apply last_None in E2; by subst].
Qed.

Lemma pad_even_even {A} (l : list A) : Nat.odd (length (pad_even l)) = false.
Proof.
  rewrite length_pad_even. destruct (Nat.odd (length l)) eqn:E1; simpl; [|by rewrite Nat.add_0_r].
  by rewrite Nat.add_1_r, Nat.odd_succ, <-Nat.negb_odd, E1.
Qed.

Lemma pad_even_idemp {A} (l : list A) : pad_even (pad_even l) = pad_even l.
Proof. pose proof (pad_even_even l) as E1. unfold pad_even at 1. by rewrite E1. Qed.

Lemma pad_even_length {A} (l : list A) : l ≠ [] → 2 ≤ length (pad_even l).
Proof.
  intros Hne. rewrite length_pad_even. destruct l as [|x [|y l]]; [done|done|simpl; lia].
Qed.

Lemma elem_of_pad_even {A} (l : list A) x : x ∈ pad_even l ↔ x ∈ l.
Proof.
  unfold pad_even. destruct (Nat.odd (length l)); [|done]. rewrite elem_of_app. split; [|auto]. intros [|Hx]; [done|].
  destruct (last l) eqn:E1; simpl in Hx; [|by apply elem_of_nil in Hx]. apply list_elem_of_singleton in Hx as ->.
  by apply last_Some_elem_of.
Qed.

Lemma pad_even_Forall2 {A B} (P : A → B → Prop) l k : Forall2 P l k → Forall2 P (pad_even l) (pad_even k).
Proof.
  intros HP. unfold pad_even. rewrite <-(Forall2_length _ _ _ HP). destruct (Nat.odd (length l)); [|done].
  apply Forall2_app; [done|]. rewrite !last_lookup, <-(Forall2_length _ _ _ HP).
  destruct (l !! _) eqn:E1.
  - destruct (Forall2_lookup_l _ _ _ _ _ HP E1) as (y & -> & Hy). by constructor.
  - apply lookup_ge_None in E1. rewrite (lookup_ge_None_2 k) by (rewrite <-(Forall2_length _ _ _ HP); lia). constructor.
Qed.

Lemma NewTree_spec cs hs :
  cs ≠ [] → Forall2 (λ c h, CalculateHash c = Ok h) cs hs →
  ∃ t, NewTree (E:=E) H cs = Ok t ∧ good t cs ∧ merkle_root H (pad_even hs) = Some (MerkleRoot t).
Proof.
  intros Hne Hh. destruct (leaf_level cs hs Hne Hh) as (st & Est & Hok & Eh & Ec).
  assert (hs ≠ []) as Hne' by (intros ->; inversion Hh; congruence).
  pose proof (pad_even_length hs Hne') as H2. pose proof (hashes_seq st) as Hs. rewrite Eh in Hs.
  pose proof (hashes_length _ _ _ Hs) as Hlen. rewrite length_seq in Hlen.
  destruct (buildIntermediate_spec (length (pad_even hs)) (seq 0 (length st)) st (pad_even hs))
    as (root & st' & h & Eb & Er & Hwf & Hg & Hroot & Ho); [done|done|by apply leafs_wf|done| |].
  { intros i n Hi _. apply elem_of_seq. apply lookup_lt_Some in Hi. lia. }
  unfold NewTree, buildWithContent. destruct cs as [|c cs]; [done|].
  destruct (make_leafs (c :: cs) []) as [[leafs st0]| |] eqn:Em; cbn [obind] in Est |- *; [|done..].
  rewrite Est. cbn [obind]. rewrite <-Hlen in Eb. rewrite length_seq, Eb. cbn [obind].
  apply fmap_Some in Hroot as (n & En & ->). rewrite (index_Some _ _ _ En). cbn [obind].
  eexists. split; [done|]. split; [|done]. split; [done|done|simpl; by rewrite En|].
  simpl. apply Forall2_same_length_lookup_2.
  { rewrite length_seq, <-(length_fmap Some (pad_even _)), <-Ec, length_fmap. done. }
  intros i j d Hj Hd. apply lookup_seq in Hj as [-> Hi]. simpl.
  destruct (lookup_lt_is_Some_2 st i Hi) as (n0 & En0). destruct (Hg _ _ En0) as (n' & -> & _ & _ & E3 & _ & E5).
  exists n'. split; [done|]. rewrite E3, E5. split; [by apply (Forall_lookup_1 _ _ _ _ Hok En0)|].
  assert ((n_C <$> st) !! i = (Some <$> pad_even (c :: cs)) !! i) as E6 by (by rewrite Ec).
  rewrite !list_lookup_fmap, En0, Hd in E6. by injection E6.
Qed.

(** ** Verification *)

Lemma verifyNode_spec rounds st i n :
  wf st → st !! i = Some n → i < rounds → verifyNode (E:=E) H rounds st i = Ok (n_Hash n).
Proof.
  intros Hwf. revert i n. induction rounds as [|r IH]; intros i n Hi Hr; [lia|]. cbn [verifyNode].
  rewrite (index_Some _ _ _ Hi). cbn [obind]. destruct (Hwf _ _ Hi) as [Hh _]. unfold hash_right in Hh.
  destruct (n_leaf n).
  - destruct Hh as (c & Ec & Eh). unfold content_of. rewrite Ec. cbn [obind]. by rewrite Eh.
  - destruct Hh as (l & rt & ln & rn & -> & -> & Hl & Hrt & El & Er & ->).
    rewrite (IH _ _ Er), (IH _ _ El) by lia. done.
Qed.

Lemma calculateNodeHash_spec st i n :
  wf st → st !! i = Some n → calculateNodeHash (E:=E) H st n = Ok (n_Hash n).
Proof.
  intros Hwf Hi. destruct (Hwf _ _ Hi) as [Hh _]. unfold hash_right in Hh. unfold calculateNodeHash, deref.
  destruct (n_leaf n).
  - destruct Hh as (c & Ec & Eh). unfold content_of. rewrite Ec. cbn [obind]. by rewrite Eh.
  - destruct Hh as (l & rt & ln & rn & -> & -> & Hl & Hrt & El & Er & ->).
    rewrite (index_Some _ _ _ El), (index_Some _ _ _ Er). done.
Qed.

(** From a position up to the root. *)
Lemma walks_spec rounds st root h i n :
  wf st → orphans st [root] → n_Hash <$> st !! root = Some h → st !! i = Some n → length st - i ≤ rounds →
  verify_up (E:=E) H rounds st i = Ok true ∧
  ∃ path index, merkle_path (E:=E) rounds st i = Ok (path, index) ∧ fold_path H (n_Hash n) path index = h.
Proof.
  intros Hwf Ho Hroot. revert i n. induction rounds as [|r IH]; intros i n Hi Hr; [apply lookup_lt_Some in Hi; lia|]. cbn [verify_up merkle_path].
  rewrite (index_Some _ _ _ Hi). cbn [obind]. destruct (Hwf _ _ Hi) as [_ Hp]. destruct (n_Parent n) as [p|] eqn:Ep.
  - destruct (Hp p Ep) as (pn & Hpn & Hlt & Hleaf & Hside). destruct (Hwf _ _ Hpn) as [Hh _]. unfold hash_right in Hh.
    rewrite Hleaf in Hh. destruct Hh as (l & rt & ln & rn & Epl & Epr & Hl & Hrt & El & Er & Eh).
    pose proof (lookup_lt_Some _ _ _ Hpn) as Hlp.
    destruct (IH p pn Hpn) as (Hup & path & index & Hpath & Hfold); [lia|].
    rewrite (index_Some _ _ _ Hpn). cbn [obind]. unfold deref. rewrite Epl, Epr, (index_Some _ _ _ El), (index_Some _ _ _ Er).
    cbn [obind]. rewrite (calculateNodeHash_spec _ _ _ Hwf El), (calculateNodeHash_spec _ _ _ Hwf Er). cbn [obind].
    rewrite bool_decide_true by done. split; [done|]. rewrite Hpath. cbn [obind].
    case_bool_decide as Eside; eexists _, _; (split; [done|]); cbn [fold_path Z.eqb].
    + by rewrite <-Eside, <-Eh.
    + assert (n = rn) as -> by (destruct Hside; simplify_eq; congruence). cbn. by rewrite <-Eh.
  - split; [done|]. exists [], []. split; [done|]. pose proof (Ho _ _ Hi Ep) as Hin.
    apply list_elem_of_singleton in Hin as ->. rewrite Hi in Hroot. by injection Hroot.
Qed.

Lemma find_leaf_spec st leafs cs content eqb :
  Forall2 (λ i c, ∃ n, st !! i = Some n ∧ n_leaf n = true ∧ n_C n = Some c) leafs cs →
  (∀ c, c ∈ cs → Equals c content = Ok (eqb c)) →
  find_leaf (E:=E) st leafs content = Ok None ∧ existsb eqb cs = false ∨
  ∃ i n c, find_leaf (E:=E) st leafs content = Ok (Some i) ∧ existsb eqb cs = true ∧
    st !! i = Some n ∧ n_leaf n = true ∧ n_C n = Some c ∧ c ∈ cs ∧ eqb c = true.
Proof.
  induction 1 as [|i c leafs cs (n & En & El & Ec) _ IH]; intros Heq; [by left|]. cbn [find_leaf existsb].
  rewrite (index_Some _ _ _ En). cbn [obind]. unfold content_of. rewrite Ec. cbn [obind].
  rewrite (Heq c) by left. cbn [omap_err obind]. destruct (eqb c) eqn:Eq.
  - right. exists i, n, c. split_and!; [done..|left|done].
  - destruct IH as [IH|(j & m & d & IH)]; [intros d Hd; apply Heq; by right|by left|right].
    exists j, m, d. destruct IH as (? & ? & ? & ? & ? & ? & ?). split_and!; [done..|by right|done].
Qed.

Lemma hash_all_Forall2 cs hs : hash_all cs = Ok hs → Forall2 (λ c h, CalculateHash c = Ok h) cs hs.
Proof.
  revert hs. induction cs as [|c cs IH]; intros hs Hh; cbn [hash_all] in Hh; [injection Hh as <-; constructor|].
  apply obind_Ok in Hh as (h & Hc & Hh). apply obind_Ok in Hh as (hs' & Hcs & [= <-]). constructor; auto.
Qed.

Lemma make_leafs_fails cs st :
  match hash_all cs with
  | Ok _ => True
  | Err e => make_leafs cs st = Err (ContentError e)
  | Panic => make_leafs cs st = Panic
  end.
Proof.
  revert st. induction cs as [|c cs IH]; intros st; [done|]. cbn [hash_all make_leafs].
  destruct (CalculateHash c) as [h|e|]; cbn [obind omap_err]; [|done..].
  specialize (IH (st ++ [leaf_node false h c])). destruct (hash_all cs); cbn [obind]; [done|by rewrite IH..].
Qed.

(** ** The root binds the hashes of the contents *)

Lemma pair_up_inputs hs : pair_up H hs = H <$> level_inputs hs.
Proof. revert hs. fix IH 1. intros [|h1 [|h2 hs]]; [done..|]. simpl. f_equal. apply IH. Qed.

Lemma level_inputs_inj n hs hs' :
  length hs = length hs' → Forall (λ h, length h = n) hs → Forall (λ h, length h = n) hs' →
  level_inputs hs = level_inputs hs' → hs = hs'.
Proof.
  revert hs hs'. fix IH 1. intros [|h1 [|h2 hs]] [|k1 [|k2 hs']] Hl F1 F2 HE; try (simpl in Hl; lia); [done|..].
  - rewrite !Forall_cons in F1, F2. destruct F1 as [F1 _], F2 as [F2 _]. injection HE as HE.
    apply app_inj_1 in HE as [-> _]; congruence.
  - rewrite !Forall_cons in F1, F2. destruct F1 as (A1 & A2 & F1), F2 as (B1 & B2 & F2). injection HE as HE HE'.
    apply app_inj_1 in HE as [-> ->]; [|congruence]. do 2 f_equal. apply (IH hs hs'); [simpl in Hl; lia|done..].
Qed.

Definition no_collision (inputs : list bytes) : Prop := ∀ x y, x ∈ inputs → y ∈ inputs → H x = H y → x = y.

Lemma fmap_no_collision (l k all : list bytes) :
  no_collision all → l ⊆ all → k ⊆ all → H <$> l = H <$> k → l = k.
Proof.
  intros Hc. revert k. induction l as [|x l IH]; intros [|y k] Hl Hk HE; try done. injection HE as HE HE'.
  f_equal; [apply Hc; [set_solver..|done]|apply IH; [set_solver..|done]].
Qed.

Lemma root_of_inj n rounds hs hs' h :
  (∀ x, length (H x) = n) → length hs = length hs' →
  Forall (λ h, length h = n) hs → Forall (λ h, length h = n) hs' →
  no_collision (merkle_inputs H rounds hs ++ merkle_inputs H rounds hs') →
  root_of H rounds hs = Some h → root_of H rounds hs' = Some h → hs = hs'.
Proof.
  intros Hn. revert hs hs'. induction rounds as [|r IH]; intros hs hs' Hl F1 F2 Hc E1 E2; [done|].
  apply (level_inputs_inj n); [done..|]. cbn [merkle_inputs root_of] in Hc, E1, E2.
  assert (length (pair_up H hs) = length (pair_up H hs')) as Hl' by (by rewrite !pair_up_length, Hl).
  eapply fmap_no_collision; [exact Hc|set_solver..|]. rewrite <-!pair_up_inputs.
  assert (∀ k, Forall (λ h, length h = n) (pair_up H k)) as Fp.
  { intros k. rewrite pair_up_inputs. apply Forall_fmap, Forall_true. intros; apply Hn. }
  pose proof (Fp hs) as G1. pose proof (Fp hs') as G2.
  destruct (pair_up H hs) as [|x [|y l]], (pair_up H hs') as [|x' [|y' l']]; simpl in Hl'; try lia; [done|congruence|].
  eapply IH; [simpl; lia|done|done| |done|done]. intros u v Hu Hv. apply Hc; set_solver.
Qed.

Lemma pad_even_inj {A} (l k : list A) : length l = length k → pad_even l = pad_even k → l = k.
Proof.
  intros Hl HE. unfold pad_even in HE. rewrite Hl in HE. destruct (Nat.odd _); [|done].
  by apply app_inj_1 in HE as [-> _].
Qed.

(** [NewTree] fails exactly on no content and on a content whose hash
    fails, with that error.  Otherwise its root is the reference root of the
    hashes, the last one doubled when their number is odd; [VerifyTree] accepts
    the tree and [RebuildTree] gives the same root. *)
Theorem NewTree_root cs :
  match cs, hash_all cs with
  | [], _ => NewTree (E:=E) H cs = Err NoContent
  | _, Err e => NewTree H cs = Err (ContentError e)
  | _, Panic => NewTree (E:=E) H cs = Panic
  | _, Ok hs => ∃ t t', NewTree (E:=E) H cs = Ok t ∧ merkle_root H (pad_even hs) = Some (MerkleRoot t) ∧
      VerifyTree (E:=E) H t = Ok true ∧ RebuildTree (E:=E) H t = Ok t' ∧ MerkleRoot t' = MerkleRoot t
  end.
Proof.
  destruct cs as [|c cs]; [done|]. pose proof (make_leafs_fails (c :: cs) []) as Hf.
  destruct (hash_all (c :: cs)) as [hs|e|] eqn:Eh; [|unfold NewTree, buildWithContent; by rewrite Hf..].
  apply hash_all_Forall2 in Eh. destruct (NewTree_spec (c :: cs) hs) as (t & Et & [Hwf Ho Hr Hl] & Em); [done..|].
  destruct (NewTree_spec (pad_even (c :: cs)) (pad_even hs)) as (t' & Et' & _ & Em').
  { intros HE. pose proof (pad_even_length (c :: cs)) as Hp. rewrite HE in Hp. simpl in Hp. assert (2 ≤ 0) by auto. lia. }
  { by apply pad_even_Forall2. }
  rewrite pad_even_idemp, Em in Em'. exists t, t'. split_and!; [done|done| | |congruence].
  - unfold VerifyTree. apply fmap_Some in Hr as (n & Hn & Er).
    rewrite (verifyNode_spec _ _ _ n Hwf Hn) by (by eapply lookup_lt_Some). cbn [obind]. by rewrite Er, bool_decide_true.
  - unfold RebuildTree. assert (leaf_contents (E:=E) (m_nodes t) (m_Leafs t) = Ok (pad_even (c :: cs))) as ->; [|done].
    clear -Hl. induction Hl as [|i d l ds (n & En & _ & Ec) _ IH]; [done|]. cbn [leaf_contents].
    rewrite (index_Some _ _ _ En). cbn [obind]. unfold content_of. rewrite Ec. cbn [obind]. by rewrite IH.
Qed.

(** On a tree of contents whose comparison with [content] does not fail,
    [VerifyContent] answers whether one of them equals it, and [GetMerklePath]
    gives for one of them a path that folds to the root of the tree. *)
Theorem merkle_membership cs hs t content eqb :
  hash_all cs = Ok hs → NewTree (E:=E) H cs = Ok t →
  (∀ c, c ∈ cs → Equals c content = Ok (eqb c)) →
  VerifyContent H content t = Ok (existsb eqb cs) ∧
  if existsb eqb cs then
    ∃ c h path index, c ∈ cs ∧ eqb c = true ∧ CalculateHash c = Ok h ∧
      GetMerklePath content t = Ok (Some (path, index)) ∧ fold_path H h path index = MerkleRoot t
  else GetMerklePath content t = Ok None.
Proof.
  intros Hh%hash_all_Forall2 Ht Heq. destruct cs as [|c0 cs]; [done|].
  destruct (NewTree_spec (c0 :: cs) hs) as (t' & Et & [Hwf Ho Hr Hl] & _); [done..|].
  rewrite Ht in Et. injection Et as <-. set (all := c0 :: cs) in *.
  assert (existsb eqb (pad_even all) = existsb eqb all) as Hex.
  { apply eq_true_iff_eq. rewrite !existsb_exists. setoid_rewrite <-list_elem_of_In. by setoid_rewrite elem_of_pad_even. }
  destruct (find_leaf_spec (m_nodes t) (m_Leafs t) (pad_even all) content eqb Hl) as [[Ef Eb]|(i & n & c & Ef & Eb & Hi & El & Ec & Hin & Eq)].
  { intros c Hc. apply Heq. by apply elem_of_pad_even. }
  - rewrite Hex in Eb. unfold VerifyContent, GetMerklePath. by rewrite Ef, Eb.
  - rewrite Hex in Eb. unfold VerifyContent, GetMerklePath. rewrite Ef, Eb. cbn [obind].
    destruct (walks_spec (length (m_nodes t)) (m_nodes t) (m_Root t) (m_merkleRoot t) i n) as (-> & path & index & -> & Hf); [done..|lia|].
    split; [done|]. exists c, (n_Hash n), path, index. split_and!; [by apply elem_of_pad_even|done| |done|done].
    destruct (Hwf _ _ Hi) as [Hc _]. unfold hash_right in Hc. rewrite El in Hc. destruct Hc as (c' & Ec' & Hc). congruence.
Qed.
End Proofs.

(** ** The lists of the chain *)

Lemma BytesToHash_id b : length b = 32 → BytesToHash b = b.
Proof. intros Hb. unfold BytesToHash. rewrite Hb. cbn. by rewrite Hb. Qed.

Lemma root_of_hash {H} {rounds hs h} : root_of H rounds hs = Some h → ∃ x, h = H x.
Proof.
  revert hs. induction rounds as [|r IH]; intros hs Hr; [done|]. cbn [root_of] in Hr. rewrite pair_up_inputs in Hr.
  destruct (level_inputs hs) as [|x [|y l]] eqn:El; [done| |].
  - injection Hr as <-. by exists x.
  - eapply IH. exact Hr.
Qed.

Lemma DeriveSha_ok {C E F} {HC : Content C E} cs hs :
  cs ≠ [] → hash_all cs = Ok hs →
  ∃ root, DeriveSha (F:=F) cs = Ok root ∧ merkle_root sha256 (pad_even hs) = Some root.
Proof.
  intros Hne Hh%hash_all_Forall2. destruct (NewTree_spec sha256 cs hs Hne Hh) as (t & Et & _ & Em).
  exists (MerkleRoot t). split; [|done]. unfold DeriveSha. destruct cs; [done|]. rewrite Et.
  apply root_of_hash in Em as Hx. destruct Hx as (x & ->). by rewrite BytesToHash_id by apply length_sha256.
Qed.

(** Two lists of the same length with the same [DeriveSha] have the same
    hashes of contents, element by element, unless SHA-256 collides on two of
    the strings hashed on the way to the roots. *)
Lemma DeriveSha_binds {C E F} {HC : Content C E} cs cs' hs hs' :
  hash_all cs = Ok hs → hash_all cs' = Ok hs' → length cs = length cs' →
  Forall (λ h, length h = 32) (hs ++ hs') →
  let inputs l := merkle_inputs sha256 (length (pad_even l)) (pad_even l) in
  no_collision sha256 (inputs hs ++ inputs hs') →
  DeriveSha (F:=F) cs = DeriveSha cs' → hs = hs'.
Proof.
  intros Hh Hh' Hl [F1 F2]%Forall_app inputs Hc HE.
  pose proof (Forall2_length _ _ _ (hash_all_Forall2 _ _ Hh)) as L1. pose proof (Forall2_length _ _ _ (hash_all_Forall2 _ _ Hh')) as L2.
  destruct (decide (cs = [])) as [->|Hne].
  { destruct hs, hs'; [done|..]; cbn [length] in *; lia. }
  assert (cs' ≠ []) as Hne' by (intros ->; by destruct cs).
  destruct (DeriveSha_ok (F:=F) cs hs Hne Hh) as (root & E1 & M1), (DeriveSha_ok (F:=F) cs' hs' Hne' Hh') as (root' & E2 & M2).
  assert (root' = root) as -> by congruence. apply pad_even_inj; [lia|]. unfold merkle_root in M1, M2.
  assert (length (pad_even hs) = length (pad_even hs')) as L3.
  { rewrite !length_pad_even. by replace (length hs) with (length hs') by lia. }
  unfold inputs in Hc. rewrite L3 in Hc, M1. eapply (root_of_inj sha256 32); [apply length_sha256|done| | |done..].
  - apply Forall_forall. intros h Hin. apply (proj1 (elem_of_pad_even _ _)) in Hin. exact (proj1 (Forall_forall _ _) F1 _ Hin).
  - apply Forall_forall. intros h Hin. apply (proj1 (elem_of_pad_even _ _)) in Hin. exact (proj1 (Forall_forall _ _) F2 _ Hin).
Qed.

(** The hash of an odd list is also the hash of the list with its last content
    twice. *)
Lemma DeriveSha_duplicate {C E F} {HC : Content C E} cs c hs :
  hash_all (cs ++ [c]) = Ok hs → Nat.odd (length (cs ++ [c])) = true →
  DeriveSha (F:=F) (cs ++ [c; c]) = DeriveSha (cs ++ [c]).
Proof.
  intros Hh Hodd. assert (pad_even (cs ++ [c]) = cs ++ [c; c]) as Ep.
  { unfold pad_even. by rewrite Hodd, last_snoc, <-app_assoc. }
  apply hash_all_Forall2 in Hh. pose proof (pad_even_Forall2 _ _ _ Hh) as Hh'. rewrite Ep in Hh'.
  destruct (NewTree_spec sha256 (cs ++ [c]) hs) as (t & Et & _ & Em); [by destruct cs|done|].
  destruct (NewTree_spec sha256 (cs ++ [c; c]) (pad_even hs)) as (t' & Et' & _ & Em'); [by destruct cs|done|].
  rewrite pad_even_idemp, Em in Em'. injection Em' as Em'.
  unfold DeriveSha. rewrite Et, Et', Em'. by destruct cs.
Qed.

Lemma no_collision_check H l :
  (let hl := map (λ x, (H x, x)) l in
   forallb (λ p, forallb (λ q, implb (bool_decide (p.1 = q.1)) (bool_decide (p.2 = q.2))) hl) hl) = true →
  no_collision H l.
Proof.
  cbv zeta. rewrite forallb_forall. intros Hl x y Hx Hy HE.
  assert (∀ z, z ∈ l → In (H z, z) (map (λ x, (H x, x)) l)) as Hin.
  { intros z Hz. apply in_map_iff. exists z. by rewrite <-list_elem_of_In. }
  specialize (Hl _ (Hin x Hx)). rewrite forallb_forall in Hl. specialize (Hl _ (Hin y Hy)). cbn [fst snd] in Hl.
  rewrite bool_decide_true in Hl by done. by apply bool_decide_eq_true in Hl.
Qed.
