(* ===== verification/Types.v ===== *)
(** * Transactions, receipts, proof states, headers and blocks (blockchain/types)

    The data of the chain with their RLP encodings, hashes and Merkle contents.
    Addresses, hashes and payloads are lists of bytes; a [*big.Int] is an
    [option Z].  The pointers in a block's lists are not nil.  Sizes
    (StorageSize, a float64) are exact integers below 2^53. *)

From S2P Require Import Prelude RlpSpec RlpRaw RlpEncode RlpStream RlpRoundtrip TrieNode Trie TrieMap Sha256 Merkletree.
Local Open Scope Z_scope.

Section Types.
Context {KC : Keccak}.

(** ** Hashing (transaction.go) *)

(** The error of rlp.Encode is dropped: nothing has been written to the hash. *)
Definition rlpHash (x : gval) : outcome rlp_error bytes :=
  match Encode [] x with
  | Ok b => Ok (keccak256 b)
  | Err _ => Ok (keccak256 [])
  | Panic => Panic
  end.

(** ** Transactions (transaction.go) *)

Record Transaction := MkTransaction {
  tx_Payload : bytes;
  tx_Forward : bool;
  tx_hash : option bytes;
  tx_size : option Z
}.

Definition NewTransaction (data : bytes) : Transaction := MkTransaction data false None None.

Definition SetForward (forward : bool) (tx : Transaction) : Transaction :=
  MkTransaction (tx_Payload tx) forward (tx_hash tx) (tx_size tx).

Definition store_hash (h : bytes) (tx : Transaction) : Transaction :=
  MkTransaction (tx_Payload tx) (tx_Forward tx) (Some h) (tx_size tx).

Definition store_size (z : Z) (tx : Transaction) : Transaction :=
  MkTransaction (tx_Payload tx) (tx_Forward tx) (tx_hash tx) (Some z).

(** &tx.data; the field Hash has the tag "-". *)
Definition txdata_gval (tx : Transaction) : gval := GPtr (GStruct [GBytes (tx_Payload tx)]).
Definition txdata_ty : ty := TStruct [TByteSlice].

(** Transaction.EncodeRLP *)
Definition tx_gval (tx : Transaction) : gval := GEncoder (txdata_gval tx).

Definition Transaction_Hash (tx : Transaction) : outcome rlp_error (bytes * Transaction) :=
  match tx_hash tx with
  | Some h => Ok (h, tx)
  | None =>
      let temp := tx_Forward tx in
      let tx := SetForward false tx in
      let* v := rlpHash (tx_gval tx) in
      let tx := SetForward temp tx in
      Ok (v, store_hash v tx)
  end.

Definition Transaction_Size (tx : Transaction) : outcome rlp_error (Z * Transaction) :=
  match tx_size tx with
  | Some z => Ok (z, tx)
  | None =>
      match Encode [] (txdata_gval tx) with
      | Ok b => let c := Z.of_nat (length b) in Ok (c, store_size c tx)
      | Err _ => Ok (0, store_size 0 tx)
      | Panic => Panic
      end
  end.

(** What s.Decode(&tx.data) reads. *)
Definition tx_of_data (v : gval) : Transaction :=
  match v with
  | GStruct [GBytes p] => NewTransaction p
  | _ => NewTransaction []
  end.

(** Transaction.DecodeRLP: the kind of the value is asked for its size first,
    its error is dropped. *)
Definition Transaction_DecodeRLP (n : nat) : M Transaction := λ s,
  let (k, s) := Stream_Kind s in
  let size := match k with Ok (_, size) => size | _ => 0 end in
  (let! v := decode n txdata_ty in mret (store_size (ListSize size) (tx_of_data v))) s.

#[export] Instance transaction_content : Content Transaction rlp_error := {|
  CalculateHash tx := let* (h, _) := Transaction_Hash tx in Ok h;
  Equals tx other :=
    let* (ohash, _) := Transaction_Hash other in
    let* (hash, _) := Transaction_Hash tx in
    Ok (bool_decide (ohash = hash))
|}.

(** TxDifference: the transactions of [a] whose hash is not one of [b]. *)
Definition TxDifference (a b : list Transaction) : outcome rlp_error (list Transaction) :=
  let* remove := oloop (λ tx remove, let* (h, _) := Transaction_Hash tx in Ok ({[ h ]} ∪ remove)) b (∅ : gset bytes) in
  oloop (λ tx keep, let* (h, _) := Transaction_Hash tx in
                    Ok (if bool_decide (h ∈ remove) then keep else keep ++ [tx])) a [].

(** ** Receipts (receipt.go) *)

Definition receiptStatusFailedRLP : bytes := [].
Definition receiptStatusSuccessfulRLP : bytes := [1].
Definition ReceiptStatusFailed : Z := 0.
Definition ReceiptStatusSuccessful : Z := 1.

Record Receipt := MkReceipt {
  r_Status : Z;
  r_ConfirmCount : Z;
  r_TxHash : bytes
}.

Inductive receipt_error :=
| InvalidStatus (postStateOrStatus : bytes)
| ReceiptRlp (e : rlp_error).

Definition NewReceipt (failed : bool) : Receipt :=
  MkReceipt (if failed then ReceiptStatusFailed else ReceiptStatusSuccessful) 0 (replicate 32 0).

Definition statusEncoding (r : Receipt) : bytes :=
  if r_Status r =? ReceiptStatusFailed then receiptStatusFailedRLP else receiptStatusSuccessfulRLP.

Definition setStatus (postStateOrStatus : bytes) (r : Receipt) : outcome receipt_error Receipt :=
  if bool_decide (postStateOrStatus = receiptStatusSuccessfulRLP)
  then Ok (MkReceipt ReceiptStatusSuccessful (r_ConfirmCount r) (r_TxHash r))
  else if bool_decide (postStateOrStatus = receiptStatusFailedRLP)
  then Ok (MkReceipt ReceiptStatusFailed (r_ConfirmCount r) (r_TxHash r))
  else Err (InvalidStatus postStateOrStatus).

(** Receipt.EncodeRLP and DecodeRLP into [r]. *)
Definition receipt_gval (r : Receipt) : gval := GEncoder (GPtr (GStruct [GBytes (statusEncoding r)])).
Definition receiptRLP_ty : ty := TStruct [TByteSlice].

Definition Receipt_DecodeBytes (b : bytes) (r : Receipt) : outcome receipt_error Receipt :=
  let* dec := omap_err ReceiptRlp (DecodeBytes receiptRLP_ty b) in
  match dec with
  | GStruct [GBytes status] => setStatus status r
  | _ => Panic
  end.

(** ReceiptForStorage *)
Definition storage_gval (r : Receipt) : gval :=
  GEncoder (GPtr (GStruct [GBytes (statusEncoding r); GUint (r_ConfirmCount r); GBytes (r_TxHash r)])).
Definition receiptStorageRLP_ty : ty := TStruct [TByteSlice; TUint 64; TByteArray 32].

Definition ReceiptForStorage_DecodeBytes (b : bytes) (r : Receipt) : outcome receipt_error Receipt :=
  let* dec := omap_err ReceiptRlp (DecodeBytes receiptStorageRLP_ty b) in
  match dec with
  | GStruct [GBytes status; GUint count; GBytes hash] =>
      let* r := setStatus status r in
      Ok (MkReceipt (r_Status r) count hash)
  | _ => Panic
  end.

#[export] Instance receipt_content : Content Receipt Empty_set := {|
  CalculateHash r := Ok (r_TxHash r);
  Equals r other := Ok (bool_decide (r_TxHash r = r_TxHash other) && (r_Status r =? r_Status other))
|}.

(** ** Proof states (proof_state.go) *)

Record ProofState := MkProofState {
  ps_Addr : bytes;
  ps_Root : bytes;
  ps_Num : Z
}.

(** The dynamic types of a content: a [ProofState] or a pointer to one. *)
Inductive proof_content :=
| ProofValue (p : ProofState)
| ProofPointer (p : ProofState).

Definition pointee (c : proof_content) : ProofState :=
  match c with ProofValue p | ProofPointer p => p end.

(** Equals asserts that the other content is a [ProofState]. *)
#[export] Instance proof_content_content : Content proof_content Empty_set := {|
  CalculateHash c := Ok (ps_Root (pointee c));
  Equals c other :=
    match other with
    | ProofValue op =>
        let p := pointee c in
        Ok (bool_decide (ps_Root p = ps_Root op) && bool_decide (ps_Addr p = ps_Addr op))
    | ProofPointer _ => Panic
    end
|}.

Definition proof_gval (p : ProofState) : gval :=
  GPtr (GStruct [GBytes (ps_Addr p); GBytes (ps_Root p); GUint (ps_Num p)]).
Definition proof_ty : ty := TPtr (TStruct [TByteArray 20; TByteArray 32; TUint 64]).

Definition proof_of_gval (v : gval) : ProofState :=
  match v with
  | GPtr (GStruct [GBytes addr; GBytes root; GUint num]) => MkProofState addr root num
  | _ => MkProofState [] [] 0
  end.

(** ** Headers (block.go) *)

Record Header := MkHeader {
  h_ParentHash : bytes;
  h_Coinbase : bytes;
  h_ProofHash : bytes;
  h_Root : bytes;
  h_TxHash : bytes;
  h_ReceiptHash : bytes;
  h_ProofRoot : bytes;
  h_Difficulty : option Z;
  h_Number : option Z;
  h_Time : option Z;
  h_Extra : bytes
}.

Definition big_gval (i : option Z) : gval := match i with Some i => GBig i | None => GBigNil end.

Definition header_fields (h : Header) : list gval :=
  [GBytes (h_ParentHash h); GBytes (h_Coinbase h); GBytes (h_ProofHash h); GBytes (h_Root h);
   GBytes (h_TxHash h); GBytes (h_ReceiptHash h); GBytes (h_ProofRoot h);
   big_gval (h_Difficulty h); big_gval (h_Number h); big_gval (h_Time h); GBytes (h_Extra h)].

Definition header_gval (h : Header) : gval := GPtr (GStruct (header_fields h)).
Definition header_ty : ty :=
  TPtr (TStruct [TByteArray 32; TByteArray 20; TByteArray 32; TByteArray 32; TByteArray 32; TByteArray 32;
                 TByteArray 32; TBigInt; TBigInt; TBigInt; TByteSlice]).

Definition header_of_gval (v : gval) : Header :=
  match v with
  | GPtr (GStruct [GBytes a; GBytes b; GBytes c; GBytes d; GBytes e; GBytes f; GBytes g;
                   GBig i; GBig j; GBig k; GBytes x]) =>
      MkHeader a b c d e f g (Some i) (Some j) (Some k) x
  | _ => MkHeader [] [] [] [] [] [] [] None None None []
  end.

Definition Header_Hash (h : Header) : outcome rlp_error bytes := rlpHash (header_gval h).

(** The same fields as a list of interface values. *)
Definition HashNoNonce (h : Header) : outcome rlp_error bytes :=
  rlpHash (GSlice false (map GIface (header_fields h))).

Definition CopyHeader (h : Header) : Header :=
  MkHeader (h_ParentHash h) (h_Coinbase h) (h_ProofHash h) (h_Root h) (h_TxHash h) (h_ReceiptHash h) (h_ProofRoot h)
    (Some (default 0 (h_Difficulty h))) (Some (default 0 (h_Number h))) (Some (default 0 (h_Time h))) (h_Extra h).

Definition set_roots (txHash proofRoot receiptHash : bytes) (h : Header) : Header :=
  MkHeader (h_ParentHash h) (h_Coinbase h) (h_ProofHash h) (h_Root h) txHash receiptHash proofRoot
    (h_Difficulty h) (h_Number h) (h_Time h) (h_Extra h).

(** ** Blocks (block.go) *)

Record Body := MkBody {
  bd_Transactions : list Transaction;
  bd_Proofs : list ProofState
}.

Record Block := MkBlock {
  b_header : Header;
  b_transactions : list Transaction;
  b_proofs : list ProofState;
  b_hash : option bytes;
  b_size : option Z;
  b_td : option Z
}.

Definition EmptyRootHash : bytes := emptyRoot.

Definition NewBlock (header : Header) (txs : list Transaction) (proofs : list ProofState) (receipts : list Receipt)
    : outcome rlp_error Block :=
  let hd := CopyHeader header in
  let* txHash := if bool_decide (h_TxHash header = replicate 32 0) then DeriveSha txs else Ok (h_TxHash header) in
  let* proofRoot := match proofs with
                    | [] => Ok EmptyRootHash
                    | _ => DeriveSha (ProofPointer <$> proofs)
                    end in
  let* receiptHash := match receipts with
                      | [] => Ok EmptyRootHash
                      | _ => DeriveSha receipts
                      end in
  Ok (MkBlock (set_roots txHash proofRoot receiptHash hd) txs proofs None None (Some 0)).

Definition BuildBlock (header : Header) (txs : list Transaction) (td : option Z) : Block :=
  MkBlock header txs [] None None td.

Definition NewBlockWithHeader (header : Header) : Block := MkBlock (CopyHeader header) [] [] None None None.

Definition WithSeal (header : Header) (b : Block) : Block :=
  MkBlock header (b_transactions b) (b_proofs b) None None None.

Definition WithBody (txs : list Transaction) (proofs : list ProofState) (b : Block) : Block :=
  MkBlock (CopyHeader (b_header b)) txs proofs None None None.

Definition Block_Body (b : Block) : Body := MkBody (b_transactions b) (b_proofs b).

Definition Block_Hash (b : Block) : outcome rlp_error (bytes * Block) :=
  match b_hash b with
  | Some h => Ok (h, b)
  | None =>
      let* v := Header_Hash (b_header b) in
      Ok (v, MkBlock (b_header b) (b_transactions b) (b_proofs b) (Some v) (b_size b) (b_td b))
  end.

(** Block.Transaction: the first transaction with the hash. *)
Fixpoint find_transaction (hash : bytes) (txs : list Transaction) : outcome rlp_error (option Transaction) :=
  match txs with
  | [] => Ok None
  | tx :: txs' =>
      let* (h, _) := Transaction_Hash tx in
      if bool_decide (h = hash) then Ok (Some tx) else find_transaction hash txs'
  end.

Definition Block_Transaction (hash : bytes) (b : Block) : outcome rlp_error (option Transaction) :=
  find_transaction hash (b_transactions b).

(** Block.EncodeRLP: the struct extblock. *)
Definition extblock_gval (b : Block) : gval :=
  GStruct [header_gval (b_header b);
           GSlice false (map tx_gval (b_transactions b));
           GSlice false (map proof_gval (b_proofs b))].
Definition block_gval (b : Block) : gval := GEncoder (extblock_gval b).

(** A field of a struct: the end of the list is "too few elements". *)
Definition field {A} (m : M A) : M A := λ s,
  match m s with
  | (Err EOL, s) => (Err (DecodeError MsgTooFewFields), s)
  | r => r
  end.

(** s.Decode(&eb): makeStructDecoder on the three fields. *)
Definition extblock_fields (n : nat) : M (Header * list Transaction * list ProofState) :=
  let! header := field (decode n header_ty) in
  let! txs := field (decodeListSlice (Transaction_DecodeRLP n) n) in
  let! proofs := field (decodeListSlice (decode n proof_ty) n) in
  mret (header_of_gval header, txs, proof_of_gval <$> proofs).

Definition decode_extblock (n : nat) : M (Header * list Transaction * list ProofState) :=
  let! _ := wrapped Stream_List in
  let! eb := extblock_fields n in
  let! _ := wrapped Stream_ListEnd in
  mret eb.

(** Block.DecodeRLP into a zero block. *)
Definition Block_DecodeRLP (n : nat) : M Block := λ s,
  let (k, s) := Stream_Kind s in
  let size := match k with Ok (_, size) => size | _ => 0 end in
  (let! (header, txs, proofs) := decode_extblock n in
   mret (MkBlock header txs proofs None (Some (ListSize size)) None)) s.

(** rlp.DecodeBytes with a decoder of its own. *)
Definition DecodeBytes_with {A} (dec : nat → M A) (b : bytes) : outcome rlp_error A :=
  match dec (S (length b)) (NewStream b) with
  | (Ok v, s) => match s_rd s with
                 | [] => Ok v
                 | _ :: _ => Err ErrMoreThanOneValue
                 end
  | (Err e, _) => Err e
  | (Panic, _) => Panic
  end.


(** ** Reference encodings *)

Definition tx_enc (tx : Transaction) : bytes := enc_list (concat [enc_str (tx_Payload tx)]).

Definition proof_enc (p : ProofState) : bytes :=
  enc_list (concat [enc_str (ps_Addr p); enc_str (ps_Root p); enc_str (be_bytes (ps_Num p))]).

Definition big_bytes (i : option Z) : bytes := be_bytes (default 0 i).

Definition header_enc (h : Header) : bytes :=
  enc_list (concat (map enc_str
    [h_ParentHash h; h_Coinbase h; h_ProofHash h; h_Root h; h_TxHash h; h_ReceiptHash h; h_ProofRoot h;
     big_bytes (h_Difficulty h); big_bytes (h_Number h); big_bytes (h_Time h); h_Extra h])).

Definition block_enc (b : Block) : bytes :=
  enc_list (concat [header_enc (b_header b); enc_list (concat (map tx_enc (b_transactions b)));
                    enc_list (concat (map proof_enc (b_proofs b)))]).

(** ** Well-formed data *)

Definition byte_array (n : nat) (b : bytes) : Prop := length b = n ∧ Forall is_byte b.

Definition big_ok (i : option Z) : Prop := match i with Some i => 0 ≤ i | None => False end.

Record header_ok (h : Header) : Prop := {
  ok_ParentHash : byte_array 32 (h_ParentHash h);
  ok_Coinbase : byte_array 20 (h_Coinbase h);
  ok_ProofHash : byte_array 32 (h_ProofHash h);
  ok_Root : byte_array 32 (h_Root h);
  ok_TxHash : byte_array 32 (h_TxHash h);
  ok_ReceiptHash : byte_array 32 (h_ReceiptHash h);
  ok_ProofRoot : byte_array 32 (h_ProofRoot h);
  ok_Difficulty : big_ok (h_Difficulty h);
  ok_Number : big_ok (h_Number h);
  ok_Time : big_ok (h_Time h);
  ok_Extra : Forall is_byte (h_Extra h)
}.

Definition proof_ok (p : ProofState) : Prop :=
  byte_array 20 (ps_Addr p) ∧ byte_array 32 (ps_Root p) ∧ 0 ≤ ps_Num p < 2 ^ 64.

Definition tx_ok (tx : Transaction) : Prop := Forall is_byte (tx_Payload tx).

Record block_ok (b : Block) : Prop := {
  ok_header : header_ok (b_header b);
  ok_transactions : Forall tx_ok (b_transactions b);
  ok_proofs : Forall proof_ok (b_proofs b)
}.

(** *** Typing *)

Lemma byte_array_typed n b : (1 < n)%nat → byte_array n b → has_type (TByteArray n) (GBytes b).
Proof. intros Hn [Hl Hb]. exists b. split_and!; [done..| |done]. intros ->. simpl in Hl. lia. Qed.

Lemma bytes_typed b : Forall is_byte b → has_type TByteSlice (GBytes b).
Proof. intros Hb. by exists b. Qed.

Lemma big_typed i : big_ok i → has_type TBigInt (big_gval i).
Proof. destruct i as [i|]; [|done]. intros Hi. by exists i. Qed.

Lemma header_typed h : header_ok h → has_type header_ty (header_gval h).
Proof.
  intros []. eexists. split; [|done]. apply has_type_struct. eexists. split; [|done].
  repeat constructor; try (apply byte_array_typed; [lia|done]); [by apply big_typed..|by apply bytes_typed].
Qed.

Lemma proof_typed p : proof_ok p → has_type proof_ty (proof_gval p).
Proof.
  intros (? & ? & ?). eexists. split; [|done]. apply has_type_struct. eexists. split; [|done].
  repeat constructor; try (apply byte_array_typed; [lia|done]). exists (ps_Num p). split_and!; [tauto|lia..|done].
Qed.

Lemma txdata_typed tx : tx_ok tx → has_type txdata_ty (GStruct [GBytes (tx_Payload tx)]).
Proof. intros Htx. apply has_type_struct. eexists. split; [|done]. repeat constructor. by apply bytes_typed. Qed.

(** *** Encodings *)

Lemma opt_concat_enc {A} (g : A → gval) (f : A → bytes) l :
  Forall (λ x, gval_enc (g x) = Some (f x)) l → opt_concat (map gval_enc (map g l)) = Some (concat (map f l)).
Proof.
  induction 1 as [|x l Hx _ IH]; [done|]. simpl map. apply opt_concat_cons. eexists _, _. split_and!; [done..|]. done.
Qed.

Lemma tx_gval_enc tx : gval_enc (tx_gval tx) = Some (tx_enc tx).
Proof. done. Qed.

Lemma proof_gval_enc p : gval_enc (proof_gval p) = Some (proof_enc p).
Proof. done. Qed.

Lemma big_gval_enc i : big_ok i → gval_enc (big_gval i) = Some (enc_str (big_bytes i)).
Proof. destruct i as [i|]; [|done]. intros Hi. simpl in *. by case_cmp. Qed.

Lemma header_fields_enc h :
  header_ok h → opt_concat (map gval_enc (header_fields h)) = Some (concat (map enc_str
    [h_ParentHash h; h_Coinbase h; h_ProofHash h; h_Root h; h_TxHash h; h_ReceiptHash h; h_ProofRoot h;
     big_bytes (h_Difficulty h); big_bytes (h_Number h); big_bytes (h_Time h); h_Extra h])).
Proof.
  intros []. unfold header_fields. cbn [map]. rewrite !big_gval_enc by done.
  repeat (apply opt_concat_cons; eexists _, _; split_and!; [done| |done]). done.
Qed.

Lemma header_gval_enc h : header_ok h → gval_enc (header_gval h) = Some (header_enc h).
Proof. intros Hh. unfold header_gval. cbn [gval_enc]. by rewrite header_fields_enc. Qed.

Lemma block_gval_enc b : block_ok b → gval_enc (block_gval b) = Some (block_enc b).
Proof.
  intros [Hh _ _]. unfold block_gval, extblock_gval. cbn [gval_enc map]. rewrite header_gval_enc by done.
  rewrite (opt_concat_enc tx_gval tx_enc), (opt_concat_enc proof_gval proof_enc)
    by (by apply Forall_true).
  done.
Qed.

Lemma block_gval_ok b : block_ok b → gval_ok (block_gval b).
Proof.
  intros [Hh _ Hp]. apply (gval_ok_list [_; _; _]). constructor; [apply (typed_ok _ _ (header_typed _ Hh))|].
  constructor; [|constructor; [|done]]; apply gval_ok_list, Forall_map.
  - by apply Forall_true.
  - eapply Forall_impl; [exact Hp|]. intros p Hok. apply (typed_ok _ _ (proof_typed p Hok)).
Qed.

(** ** Reading a block back *)

Definition decoded_tx (tx : Transaction) : Transaction :=
  MkTransaction (tx_Payload tx) false None (Some (Z.of_nat (length (tx_enc tx)))).

Definition decoded_block (b : Block) : Block :=
  MkBlock (b_header b) (map decoded_tx (b_transactions b)) (b_proofs b) None
    (Some (Z.of_nat (length (block_enc b)))) None.

Lemma ListSize_enc p : fits64 (length (enc_list p)) → ListSize (Z.of_nat (length p)) = Z.of_nat (length (enc_list p)).
Proof.
  intros Hf. pose proof (enc_list_length p). unfold ListSize, enc_list in *. rewrite length_app in *.
  rewrite (headsize_spec 192 247) by (eapply fits64_le; [|exact Hf]; lia).
  unfold fits64 in Hf. rewrite wrap_small by lia. lia.
Qed.

(** A decoder that asks for the kind first. *)
Lemma reads_kind_first {A} (m : Z → M A) p a :
  fits64 (length (enc_list p)) → (∀ z, peekable (m z)) → reads (m (Z.of_nat (length p))) (enc_list p) a →
  reads (λ s, let (k, s) := Stream_Kind s in
              let size := match k with Ok (_, size) => size | _ => 0 end in m size s) (enc_list p) a.
Proof.
  intros Hf HP HR s rest st Hr Hroom. pose proof (enc_list_length p).
  destruct (Kind_list s p rest st) as (s' & E); [eapply fits64_le; [|exact Hf]; lia|done..|]. rewrite E.
  by eapply reads_peeked.
Qed.

Lemma Transaction_reads n tx :
  tx_ok tx → fits64 (length (tx_enc tx)) → (length (tx_enc tx) < n)%nat →
  reads (Transaction_DecodeRLP n) (tx_enc tx) (decoded_tx tx).
Proof.
  intros Hok Hf Hn. pose proof (decode_reads n txdata_ty _ (tx_enc tx) I (txdata_typed tx Hok) eq_refl Hf Hn) as HR.
  apply (reads_kind_first (λ size, let! v := decode n txdata_ty in mret (store_size (ListSize size) (tx_of_data v)))); [done| |].
  - intros z. apply peekable_bind, decode_peekable; [lia|done..].
  - unfold decoded_tx, tx_enc. rewrite <-(ListSize_enc (concat [enc_str (tx_Payload tx)])) by done.
    apply (reads_map _ (λ v, store_size (ListSize _) (tx_of_data v)) _ _ HR).
Qed.

Lemma Transaction_ends n : (0 < n)%nat → ends (Transaction_DecodeRLP n).
Proof.
  intros Hn s rd tos st Hr Heq. unfold Transaction_DecodeRLP.
  destruct (ends_Kind mret s rd tos st Hr Heq) as (s' & E & Hr'). unfold mbind_ in E.
  destruct (Stream_Kind s) as [[|e|] s1]; try done; injection E as -> ->.
  apply (ends_bind _ _ (decode_ends n txdata_ty Hn I eq_refl) s' rd tos st Hr' Heq).
Qed.

Lemma reads_field {A} (m : M A) bs a : reads m bs a → reads (field m) bs a.
Proof. intros H s rest st Hr Hroom. destruct (H s rest st Hr Hroom) as (s' & E & ?). unfold field. rewrite E. by exists s'. Qed.

Lemma fills_bind {A B} (m : M A) (k : A → M B) b1 b2 a c :
  reads m b1 a → fills (k a) b2 c → fills (let! x := m in k x) (b1 ++ b2) c.
Proof.
  intros Hm Hk s rest tos st Hr Hsz. rewrite <-app_assoc in Hr. rewrite length_app in Hsz.
  destruct (Hm s _ _ Hr) as (s1 & E1 & Hr1); [simpl; lia|].
  destruct (Hk s1 rest _ _ Hr1) as (s2 & E2 & Hr2); [simpl; lia|].
  unfold mbind_. rewrite E1, E2. exists s2. split; [done|]. simpl in Hr2 |- *. by rewrite length_app, Nat2Z.inj_add, Z.add_assoc.
Qed.

(** A list of values with their encodings. *)
Lemma list_reads {A B} (dec : M B) (enc : A → bytes) (val : A → B) n l :
  ends dec → (∀ x, x ∈ l → fits64 (length (enc x)) → (length (enc x) < n)%nat → reads dec (enc x) (val x)) →
  (∀ x, 1 ≤ length (enc x))%nat → fits64 (length (concat (map enc l))) → (length (concat (map enc l)) < n)%nat →
  reads (decodeListSlice dec n) (enc_list (concat (map enc l))) (map val l).
Proof.
  intros Hend HR H1 Hf Hn.
  assert (Forall (λ x, length (enc x) ≤ length (concat (map enc l)))%nat l ∧ (length l ≤ length (concat (map enc l)))%nat) as [Hle Hlen].
  { clear -H1. induction l as [|x l [IH1 IH2]]; [by split|]. simpl. rewrite length_app. specialize (H1 x). split; [|lia].
    constructor; [lia|]. eapply Forall_impl; [exact IH1|]. simpl. lia. }
  apply ListSlice_reads; [done| |by apply Forall_map, Forall_true|done|rewrite length_map; lia].
  apply Forall2_fmap_2, Forall_Forall2_diag, Forall_forall. intros x Hx.
  pose proof (proj1 (Forall_forall _ _) Hle x Hx) as Hxl. simpl in Hxl.
  apply HR; [done| |lia]. by eapply fits64_le.
Qed.

Lemma header_of_header h : header_ok h → header_of_gval (header_gval h) = h.
Proof. intros [? ? ? ? ? ? ? H1 H2 H3 _]. by destruct h as [? ? ? ? ? ? ? [|] [|] [|] ?]. Qed.

Lemma txs_reads n txs :
  Forall tx_ok txs → fits64 (length (concat (map tx_enc txs))) → (length (concat (map tx_enc txs)) < n)%nat →
  reads (decodeListSlice (Transaction_DecodeRLP n) n) (enc_list (concat (map tx_enc txs))) (map decoded_tx txs).
Proof.
  intros Ht Hf Hn. apply (list_reads _ tx_enc decoded_tx); [apply Transaction_ends; lia| | |done..].
  - intros tx Hin. apply Transaction_reads. exact (proj1 (Forall_forall _ _) Ht _ Hin).
  - intros tx. pose proof (enc_list_length (concat [enc_str (tx_Payload tx)])). unfold tx_enc. lia.
Qed.

Lemma proofs_reads n ps :
  Forall proof_ok ps → fits64 (length (concat (map proof_enc ps))) → (length (concat (map proof_enc ps)) < n)%nat →
  reads (decodeListSlice (decode n proof_ty) n) (enc_list (concat (map proof_enc ps))) (map proof_gval ps).
Proof.
  intros Hp Hf Hn. apply (list_reads _ proof_enc proof_gval); [apply decode_ends; [lia|done..]| | |done..].
  - intros p Hin Hfp Hnp. pose proof (proj1 (Forall_forall _ _) Hp _ Hin) as Hok.
    apply (decode_reads n proof_ty _ _ I (proof_typed p Hok) (proof_gval_enc p) Hfp Hnp).
  - intros p. unfold proof_enc.
    pose proof (enc_list_length (concat [enc_str (ps_Addr p); enc_str (ps_Root p); enc_str (be_bytes (ps_Num p))])). lia.
Qed.

Lemma proofs_of_gvals ps : proof_of_gval <$> map proof_gval ps = ps.
Proof. induction ps as [|[] l IH]; [done|]. cbn. by rewrite <-IH at 2. Qed.

Lemma extblock_fills n b :
  block_ok b → fits64 (length (block_enc b)) → (length (block_enc b) < n)%nat →
  fills (extblock_fields n)
    (concat [header_enc (b_header b); enc_list (concat (map tx_enc (b_transactions b)));
             enc_list (concat (map proof_enc (b_proofs b)))])
    (b_header b, map decoded_tx (b_transactions b), b_proofs b).
Proof.
  intros [Hh Ht Hp]. unfold block_enc. cbn [concat]. rewrite app_nil_r.
  set (hb := header_enc _). set (tb := concat (map tx_enc _)). set (pb := concat (map proof_enc _)).
  pose proof (enc_list_length tb) as L1. pose proof (enc_list_length pb) as L2.
  pose proof (enc_list_length (hb ++ enc_list tb ++ enc_list pb)) as L3. rewrite !length_app in L3. intros Hf Hn.
  assert (∀ k, (k ≤ length (enc_list (hb ++ enc_list tb ++ enc_list pb)))%nat → fits64 k) as Hle
    by (intros k Hk; by eapply fits64_le).
  unfold extblock_fields. eapply fills_bind.
  { apply reads_field. apply (decode_reads n header_ty (header_gval (b_header b)) hb I (header_typed _ Hh)
      (header_gval_enc _ Hh)); [apply Hle|]; lia. }
  rewrite header_of_header by done. eapply fills_bind.
  { apply reads_field, txs_reads; [done|apply Hle|]; fold tb; lia. }
  rewrite <-(app_nil_r (enc_list pb)). eapply fills_bind.
  { apply reads_field, proofs_reads; [done|apply Hle|]; fold pb; lia. }
  intros s rest tos st Hr Hsz. exists s. rewrite bump_0, proofs_of_gvals. done.
Qed.

Lemma Block_reads n b :
  block_ok b → fits64 (length (block_enc b)) → (length (block_enc b) < n)%nat →
  reads (Block_DecodeRLP n) (block_enc b) (decoded_block b).
Proof.
  intros Hok Hf Hn. pose proof (extblock_fills n b Hok Hf Hn) as Hfill. unfold block_enc in *.
  set (p := concat [_; _; _]) in *. pose proof (enc_list_length p) as Hl.
  apply (reads_kind_first (λ size, let! (header, txs, proofs) := decode_extblock n in
   mret (MkBlock header txs proofs None (Some (ListSize size)) None))); [done| |].
  - intros z. apply peekable_bind. unfold decode_extblock, Stream_List. eauto with rlp.
  - unfold decoded_block, block_enc. fold p. rewrite <-(ListSize_enc p) by done.
    intros s rest st Hr Hroom.
    destruct (reads_list (extblock_fields n) p _ ltac:(eapply fits64_le; [|exact Hf]; lia) Hfill s rest st Hr Hroom)
      as (s1 & s2 & s3 & E1 & E2 & Hr2 & E3 & Hr3).
    unfold decode_extblock, mbind_, wrapped. rewrite E1. simpl. rewrite E2, E3. by exists s3.
Qed.

(** A well-formed block survives the wire: [EncodeRLP] writes the reference
    encoding, and reading those bytes back gives a block with the same header,
    the same payloads and proof states, no cached hash, and as cached sizes the
    numbers of bytes of the block and of each transaction. *)
Theorem Block_roundtrip b :
  block_ok b → fits64 (length (block_enc b)) →
  EncodeToBytes (block_gval b) = Ok (block_enc b) ∧
  DecodeBytes_with Block_DecodeRLP (block_enc b) = Ok (decoded_block b).
Proof.
  intros Hok Hf. split.
  - by apply (encodes _ _ []); [apply block_gval_ok|apply block_gval_enc|].
  - unfold DecodeBytes_with. destruct (Block_reads (S (length (block_enc b))) b Hok Hf ltac:(lia) (NewStream (block_enc b)) [] [])
      as (s' & -> & _ & Hrd & _); [|done|by rewrite Hrd].
    split; [done|]. unfold base. simpl. rewrite app_nil_r. by split_and!.
Qed.

(** ** What a block hash commits to *)

Lemma rlpHash_enc v bs :
  gval_ok v → gval_enc v = Some bs → fits64 (length bs) → rlpHash v = Ok (keccak256 bs).
Proof. intros Hok He Hf. unfold rlpHash. by rewrite (proj2 (encodes v bs [] Hok He Hf)). Qed.

Lemma Header_Hash_enc h : header_ok h → fits64 (length (header_enc h)) → Header_Hash h = Ok (keccak256 (header_enc h)).
Proof.
  intros Hh Hf. apply rlpHash_enc; [|by apply header_gval_enc|done]. apply (typed_ok _ _ (header_typed h Hh)).
Qed.

Lemma header_enc_inj h h' :
  header_ok h → header_ok h' → fits64 (length (header_enc h)) → header_enc h = header_enc h' → h = h'.
Proof.
  intros Hh Hh' Hf HE.
  pose proof (decodes header_ty _ _ I eq_refl (header_typed h Hh) (header_gval_enc h Hh) Hf) as D. rewrite HE in D, Hf.
  rewrite (decodes header_ty _ _ I eq_refl (header_typed h' Hh') (header_gval_enc h' Hh') Hf) in D.
  rewrite <-(header_of_header h Hh), <-(header_of_header h' Hh'). congruence.
Qed.

Lemma tx_enc_inj tx tx' :
  tx_ok tx → tx_ok tx' → fits64 (length (tx_enc tx)) → tx_enc tx = tx_enc tx' → tx_Payload tx = tx_Payload tx'.
Proof.
  intros Hh Hh' Hf HE.
  pose proof (decodes txdata_ty _ _ I eq_refl (txdata_typed tx Hh) (tx_gval_enc tx) Hf) as D. rewrite HE in D, Hf.
  rewrite (decodes txdata_ty _ _ I eq_refl (txdata_typed tx' Hh') (tx_gval_enc tx') Hf) in D. congruence.
Qed.

(** A cached hash is the hash. *)
Definition cache_ok (tx : Transaction) : Prop :=
  match tx_hash tx with Some h => h = keccak256 (tx_enc tx) | None => True end.

Lemma Transaction_Hash_enc tx :
  cache_ok tx → fits64 (length (tx_enc tx)) →
  ∃ tx', Transaction_Hash tx = Ok (keccak256 (tx_enc tx), tx') ∧ tx_Payload tx' = tx_Payload tx ∧
    tx_Forward tx' = tx_Forward tx ∧ cache_ok tx'.
Proof.
  intros Hc Hf. unfold Transaction_Hash, cache_ok in *. destruct (tx_hash tx) as [h|] eqn:E.
  - subst h. exists tx. by rewrite E.
  - rewrite (rlpHash_enc _ (tx_enc tx)) by done. by eexists.
Qed.

Lemma hash_all_txs txs :
  Forall (λ tx, cache_ok tx ∧ fits64 (length (tx_enc tx))) txs →
  hash_all txs = Ok (map keccak256 (map tx_enc txs)).
Proof.
  induction 1 as [|tx txs [Hc Hf] _ IH]; [done|]. cbn [hash_all CalculateHash transaction_content].
  destruct (Transaction_Hash_enc tx Hc Hf) as (tx' & -> & _). cbn [obind]. by rewrite IH.
Qed.

Lemma hash_all_of_tree {C E} {HC : Content C E} H c cs t :
  NewTree (E:=E) H (c :: cs) = Ok t → ∃ hs, hash_all (c :: cs) = Ok hs.
Proof.
  intros Ht. pose proof (make_leafs_fails (c :: cs) []) as Hf. unfold NewTree, buildWithContent in Ht.
  destruct (hash_all (c :: cs)) as [hs|e|]; [by exists hs|by rewrite Hf in Ht..].
Qed.

Lemma emptyRoot_array : byte_array 32 emptyRoot.
Proof. apply (bool_decide_unpack _). by vm_compute. Qed.

Lemma DeriveSha_array {C E F} {HC : Content C E} cs r : DeriveSha (F:=F) cs = Ok r → byte_array 32 r.
Proof.
  destruct cs as [|c cs]; [intros [= <-]; apply emptyRoot_array|]. intros Hr.
  assert (∃ hs, hash_all (c :: cs) = Ok hs) as (hs & Hh).
  { unfold DeriveSha in Hr. destruct (NewTree sha256 (c :: cs)) as [t| |] eqn:Et; [|done..]. by eapply hash_all_of_tree. }
  destruct (DeriveSha_ok (F:=F) (c :: cs) hs) as (root & E1 & E2); [done..|]. assert (root = r) as -> by congruence.
  apply root_of_hash in E2 as (x & ->). split; [apply length_sha256|apply sha256_byte].
Qed.

Lemma NewBlock_header h txs ps rs b :
  header_ok h → h_TxHash h = replicate 32 0 → NewBlock h txs ps rs = Ok b →
  header_ok (b_header b) ∧ DeriveSha (F:=rlp_error) txs = Ok (h_TxHash (b_header b)) ∧ b_transactions b = txs ∧ b_hash b = None.
Proof.
  intros Hh Hz Hb. unfold NewBlock in Hb. rewrite bool_decide_true in Hb by done.
  apply obind_Ok in Hb as (tr & E1 & Hb). apply obind_Ok in Hb as (pr & E2 & Hb). apply obind_Ok in Hb as (rr & E3 & [= <-]).
  split_and!; [|done..]. destruct Hh as [? ? ? ? ? ? ? Hd Hn Ht ?].
  split; try done; simpl.
  - exact (DeriveSha_array _ _ E1).
  - destruct rs; [injection E3 as <-; apply emptyRoot_array|exact (DeriveSha_array _ _ E3)].
  - destruct ps; [injection E2 as <-; apply emptyRoot_array|exact (DeriveSha_array _ _ E2)].
  - by destruct h as [? ? ? ? ? ? ? [] ? ? ?].
  - by destruct h as [? ? ? ? ? ? ? ? [] ? ?].
  - by destruct h as [? ? ? ? ? ? ? ? ? [] ?].
Qed.

(** A transaction that can be hashed. *)
Definition hashable (tx : Transaction) : Prop := tx_ok tx ∧ cache_ok tx ∧ fits64 (length (tx_enc tx)).

(** The strings hashed with SHA-256 for the root of transactions. *)
Definition tx_inputs (l : list Transaction) : list bytes :=
  let hs := pad_even (map keccak256 (map tx_enc l)) in merkle_inputs sha256 (length hs) hs.

Lemma tx_encs_inj txs txs' :
  Forall hashable txs → Forall hashable txs' → map tx_enc txs = map tx_enc txs' → map tx_Payload txs = map tx_Payload txs'.
Proof.
  intros Hs. revert txs'. induction Hs as [|tx txs (Hok & _ & Hf) _ IH]; intros [|tx' txs'] Hs' HE; try done.
  apply Forall_cons in Hs' as [(Hok' & _ & _) Hs']. injection HE as HE HE'. cbn [map]. f_equal; [by apply tx_enc_inj|by apply IH].
Qed.

(** The root of equally many transactions fixes their payloads. *)
Lemma txroot_binds txs txs' root :
  Forall hashable (txs ++ txs') → length txs = length txs' →
  no_collision keccak256 (map tx_enc txs ++ map tx_enc txs') → no_collision sha256 (tx_inputs txs ++ tx_inputs txs') →
  DeriveSha (F:=rlp_error) txs = Ok root → DeriveSha (F:=rlp_error) txs' = Ok root → map tx_Payload txs = map tx_Payload txs'.
Proof.
  intros [Htx Htx']%Forall_app Hlen Hk Hs Hd Hd'.
  assert (∀ l, Forall hashable l → hash_all l = Ok (map keccak256 (map tx_enc l))) as Hall.
  { intros l Hl. apply hash_all_txs. eapply Forall_impl; [exact Hl|]. by intros tx (_ & ? & ?). }
  apply tx_encs_inj; [done..|]. eapply (fmap_no_collision keccak256); [exact Hk|set_solver..|].
  eapply (DeriveSha_binds (F:=rlp_error) txs txs'); [by apply Hall..|done| |exact Hs|congruence].
  rewrite <-!map_app. apply Forall_map, Forall_true. intros; apply keccak_length.
Qed.

(** The transaction root of the header is that of the transactions, as [ValidateBody]
    checks it. *)
Definition txroot_ok (b : Block) : Prop := DeriveSha (F:=rlp_error) (b_transactions b) = Ok (h_TxHash (b_header b)).

(** The hash kept in the block, if any, is that of its header. *)
Definition block_cache_ok (b : Block) : Prop :=
  match b_hash b with Some x => x = keccak256 (header_enc (b_header b)) | None => True end.

Lemma Block_Hash_enc b x c :
  header_ok (b_header b) → fits64 (length (header_enc (b_header b))) → block_cache_ok b →
  Block_Hash b = Ok (x, c) → x = keccak256 (header_enc (b_header b)).
Proof.
  unfold block_cache_ok, Block_Hash. intros Hh Hf. destruct (b_hash b) as [y|]; [by intros -> [= <- _]|intros _].
  rewrite Header_Hash_enc by done. by intros [= <- _].
Qed.

(** A root that the header already has is kept, whatever the transactions are. *)
Lemma NewBlock_keeps_root h txs txs' ps rs b :
  h_TxHash h ≠ replicate 32 0 → NewBlock h txs ps rs = Ok b →
  ∃ b', NewBlock h txs' ps rs = Ok b' ∧ b_header b' = b_header b ∧ b_transactions b' = txs' ∧ b_hash b' = None.
Proof.
  intros Hz. unfold NewBlock. rewrite bool_decide_false by done. intros Hb.
  apply obind_Ok in Hb as (tr & E1 & Hb). apply obind_Ok in Hb as (pr & -> & Hb).
  apply obind_Ok in Hb as (rr & -> & [= <-]). injection E1 as <-. eexists. split; [reflexivity|done].
Qed.

(** C17: the hash of a block commits to its transactions.  Two blocks whose headers
    have the roots of their transactions, with the same number of transactions
    and the same hash, have the same header and the same payloads in the same
    order, unless Keccak-256 collides on two of the encoded headers and
    transactions or SHA-256 on two of the strings hashed in the Merkle trees.
    [NewBlock] makes such a block of a header without a transaction root; a root that
    the header already has is kept, and then the header of the block, and so its hash,
    is the same for any transactions. *)
Theorem block_hash_commits :
  (∀ b b' x c c' (txs := b_transactions b) (txs' := b_transactions b'),
    header_ok (b_header b) → header_ok (b_header b') → txroot_ok b → txroot_ok b' →
    block_cache_ok b → block_cache_ok b' → Forall hashable (txs ++ txs') → length txs = length txs' →
    fits64 (length (header_enc (b_header b))) → fits64 (length (header_enc (b_header b'))) →
    no_collision keccak256 ([header_enc (b_header b); header_enc (b_header b')] ++ map tx_enc txs ++ map tx_enc txs') →
    no_collision sha256 (tx_inputs txs ++ tx_inputs txs') →
    Block_Hash b = Ok (x, c) → Block_Hash b' = Ok (x, c') →
    b_header b = b_header b' ∧ map tx_Payload txs = map tx_Payload txs') ∧
  (∀ h txs ps rs b, header_ok h → NewBlock h txs ps rs = Ok b →
    (h_TxHash h = replicate 32 0 →
      header_ok (b_header b) ∧ txroot_ok b ∧ b_transactions b = txs ∧ block_cache_ok b) ∧
    (h_TxHash h ≠ replicate 32 0 →
      ∀ txs', ∃ b', NewBlock h txs' ps rs = Ok b' ∧ b_transactions b' = txs' ∧
        b_header b' = b_header b ∧ block_cache_ok b')).
Proof.
  split.
  - intros b b' x c c' txs txs' Hh Hh' Hr Hr' Hc Hc' Htx Hlen Hf Hf' Hk Hs Hx Hx'.
    assert (b_header b = b_header b') as Eh.
    { apply Block_Hash_enc in Hx; [|done..]. apply Block_Hash_enc in Hx'; [|done..].
      apply header_enc_inj; [done..|]. apply Hk; [set_solver..|congruence]. }
    split; [done|]. unfold txroot_ok in Hr, Hr'. rewrite Eh in Hr.
    eapply txroot_binds; [exact Htx|exact Hlen| |exact Hs|exact Hr|exact Hr'].
    intros y z Hy Hz. apply Hk; set_solver.
  - intros h txs ps rs b Hh Hb. split.
    + intros Hz. destruct (NewBlock_header _ _ _ _ _ Hh Hz Hb) as (Hok & Hd & Et & Ec).
      unfold txroot_ok, block_cache_ok. by rewrite Et, Ec.
    + intros Hz txs'. destruct (NewBlock_keeps_root _ _ txs' _ _ _ Hz Hb) as (b' & ? & ? & ? & Hn).
      exists b'. unfold block_cache_ok. by rewrite Hn.
Qed.

(** A header has no nonce: HashNoNonce is the hash of the header. *)
Lemma HashNoNonce_Hash h :
  header_ok h → fits64 (length (header_enc h)) → HashNoNonce h = Header_Hash h.
Proof.
  intros Hh Hf. trans (Ok (E:=rlp_error) (keccak256 (header_enc h))); [|symmetry; by apply Header_Hash_enc].
  apply rlpHash_enc; [| |done].
  - pose proof (typed_ok _ _ (header_typed h Hh)) as Hok. exact Hok.
  - cbn [gval_enc]. rewrite map_map. simpl. pose proof (header_gval_enc h Hh) as He. exact He.
Qed.

(** ** Receipts *)

Definition storage_enc (r : Receipt) : bytes :=
  enc_list (concat [enc_str (statusEncoding r); enc_str (be_bytes (r_ConfirmCount r)); enc_str (r_TxHash r)]).

Definition receipt_ok (r : Receipt) : Prop := 0 ≤ r_ConfirmCount r < 2 ^ 64 ∧ byte_array 32 (r_TxHash r).

Lemma statusEncoding_byte r : Forall is_byte (statusEncoding r).
Proof. unfold statusEncoding. case_cmp; repeat constructor; done. Qed.

Lemma setStatus_statusEncoding r r0 :
  setStatus (statusEncoding r) r0 =
  Ok (MkReceipt (if r_Status r =? 0 then 0 else 1) (r_ConfirmCount r0) (r_TxHash r0)).
Proof. unfold statusEncoding, ReceiptStatusFailed. by destruct (r_Status r =? 0). Qed.

Lemma storage_typed r :
  receipt_ok r →
  has_type receiptStorageRLP_ty (GStruct [GBytes (statusEncoding r); GUint (r_ConfirmCount r); GBytes (r_TxHash r)]).
Proof.
  intros [Hc Hh]. apply has_type_struct. eexists. split; [|done]. repeat constructor.
  - apply bytes_typed, statusEncoding_byte.
  - exists (r_ConfirmCount r). split_and!; [tauto|lia..|done].
  - by apply byte_array_typed; [lia|].
Qed.

Lemma short_length (b : bytes) : (length b < 56)%nat → (length (enc_str b) ≤ length b + 1)%nat.
Proof.
  intros Hb. unfold enc_str, header. destruct b as [|x [|y b]]; [done| |].
  - destruct (x <? 128); simpl; lia.
  - destruct (Z.ltb_spec (Z.of_nat (length (x :: y :: b))) 56); [rewrite length_app; simpl; lia|lia].
Qed.

Lemma receipt_small r : receipt_ok r → fits64 (length (storage_enc r)).
Proof.
  intros [Hc [Hl _]]. assert (length (be_bytes (r_ConfirmCount r)) ≤ 8)%nat as Hb.
  { rewrite length_be_bytes. destruct (decide (r_ConfirmCount r = 0)) as [->|]; [rewrite byte_len_0; lia|].
    apply byte_len_8. lia. }
  assert (length (statusEncoding r) ≤ 1)%nat as Hs by (unfold statusEncoding; destruct (_ =? _); simpl; lia).
  pose proof (short_length (statusEncoding r) ltac:(lia)). pose proof (short_length (r_TxHash r) ltac:(lia)).
  pose proof (short_length (be_bytes (r_ConfirmCount r)) ltac:(lia)).
  unfold storage_enc, enc_list, header. cbn [concat]. rewrite app_nil_r. set (p := enc_str (statusEncoding r) ++ _).
  assert (length p ≤ 44)%nat as Hp by (unfold p; rewrite !length_app; lia). unfold fits64.
  destruct (Z.ltb_spec (Z.of_nat (length p)) 56); [|lia]. rewrite length_app. simpl. lia.
Qed.

(** The storage encoding of a receipt keeps the confirmation count and the
    transaction's hash and whether the status is "failed"; the consensus
    encoding keeps the status only; every other status string is rejected. *)
Theorem Receipt_roundtrip r r0 :
  receipt_ok r →
  let status := if r_Status r =? ReceiptStatusFailed then ReceiptStatusFailed else ReceiptStatusSuccessful in
  (EncodeToBytes (storage_gval r) = Ok (storage_enc r) ∧
   ReceiptForStorage_DecodeBytes (storage_enc r) r0 = Ok (MkReceipt status (r_ConfirmCount r) (r_TxHash r))) ∧
  (∃ bs, EncodeToBytes (receipt_gval r) = Ok bs ∧
   Receipt_DecodeBytes bs r0 = Ok (MkReceipt status (r_ConfirmCount r0) (r_TxHash r0))) ∧
  ∀ s, s ≠ [] → s ≠ [1] → setStatus s r0 = Err (InvalidStatus s).
Proof.
  intros Hok status. pose proof (receipt_small r Hok) as Hf. pose proof (storage_typed r Hok) as Ht. split_and!.
  - apply (encodes _ (storage_enc r) []); [|done..]. apply (typed_ok _ _ Ht).
  - unfold ReceiptForStorage_DecodeBytes. rewrite (decodes receiptStorageRLP_ty _ (storage_enc r) I eq_refl Ht eq_refl Hf).
    cbn [omap_err obind]. by rewrite setStatus_statusEncoding.
  - pose proof (statusEncoding_byte r) as Hb. exists (enc_list (concat [enc_str (statusEncoding r)])).
    assert (has_type receiptRLP_ty (GStruct [GBytes (statusEncoding r)])) as Hr.
    { apply has_type_struct. eexists. split; [|done]. repeat constructor. by apply bytes_typed. }
    assert (fits64 (length (enc_list (concat [enc_str (statusEncoding r)])))) as Hf'
      by (unfold statusEncoding; by destruct (_ =? _)).
    split; [by apply (encodes _ _ [])|]. unfold Receipt_DecodeBytes.
    rewrite (decodes receiptRLP_ty _ (enc_list (concat [enc_str (statusEncoding r)])) I eq_refl Hr eq_refl Hf'). cbn [omap_err obind]. by rewrite setStatus_statusEncoding.
  - intros s H0 H1. unfold setStatus. by rewrite !bool_decide_false.
Qed.

(** ** Proof states *)

(** The root of the proof states does not depend on the addresses. *)
Lemma ProofRoot_ignores_Addr {F} ps ps' :
  map ps_Root ps = map ps_Root ps' → DeriveSha (F:=F) (ProofPointer <$> ps) = DeriveSha (ProofPointer <$> ps').
Proof.
  intros HE. assert (∀ ps, hash_all (ProofPointer <$> ps) = Ok (map ps_Root ps)) as Hh.
  { clear. induction ps as [|p ps IH]; [done|]. rewrite fmap_cons. cbn [hash_all CalculateHash proof_content_content pointee obind]. by rewrite IH. }
  destruct ps as [|p ps], ps' as [|p' ps']; try done. assert (∀ p ps, ProofPointer <$> p :: ps ≠ []) as Hne by done.
  destruct (DeriveSha_ok (F:=F) (ProofPointer <$> p :: ps) _ (Hne p ps) (Hh (p :: ps))) as (r & -> & E1).
  destruct (DeriveSha_ok (F:=F) (ProofPointer <$> p' :: ps') _ (Hne p' ps') (Hh (p' :: ps'))) as (r' & -> & E2). congruence.
Qed.

(** Looking for an element of a list of proof states in its tree panics: the
    elements are pointers and [Equals] expects a value. *)
Lemma ProofState_Equals_panics ps p t :
  NewTree sha256 (ProofPointer <$> ps) = Ok t → VerifyContent (E:=Empty_set) sha256 (ProofPointer p) t = Panic.
Proof.
  intros Ht. destruct ps as [|p0 ps]; [done|]. assert (ProofPointer <$> p0 :: ps ≠ []) as Hne by done.
  assert (∃ hs, hash_all (ProofPointer <$> p0 :: ps) = Ok hs) as (hs & Hh) by (by eapply hash_all_of_tree).
  apply hash_all_Forall2 in Hh. destruct (NewTree_spec sha256 (ProofPointer <$> p0 :: ps) _ Hne Hh) as (t' & Et & [_ _ _ Hl] & _).
  assert (t' = t) as -> by congruence. unfold VerifyContent.
  pose proof (pad_even_length (ProofPointer <$> p0 :: ps) Hne) as Hlen.
  revert Hl Hlen. generalize (pad_even (ProofPointer <$> p0 :: ps)). intros pcs Hl Hlen.
  destruct Hl as [|i c l cs (n & En & _ & Ec) _]; [simpl in Hlen; lia|].
  cbn [find_leaf]. rewrite (index_Some _ _ _ En). cbn [obind]. unfold content_of. by rewrite Ec.
Qed.
End Types.

(** ** Examples *)

Definition ex_receipts : list Receipt :=
  map (λ i, MkReceipt (i mod 2) i (replicate 32 i)) [1; 2; 3].

Definition ex_tree : MerkleTree Receipt :=
  match NewTree (E:=Empty_set) sha256 ex_receipts with Ok t => t | _ => MkTree [] 0 [] [] end.

Lemma ex_tree_built : NewTree (E:=Empty_set) sha256 ex_receipts = Ok ex_tree.
Proof. vm_compute. reflexivity. Qed.

Lemma merkle_membership_witness :
  VerifyContent (E:=Empty_set) sha256 (MkReceipt 1 0 (replicate 32 3)) ex_tree = Ok true ∧
  ∃ c h path index, c ∈ ex_receipts ∧ (bool_decide (r_TxHash c = replicate 32 3) && (r_Status c =? 1)) = true ∧
    CalculateHash (E:=Empty_set) c = Ok h ∧
    GetMerklePath (E:=Empty_set) (MkReceipt 1 0 (replicate 32 3)) ex_tree = Ok (Some (path, index)) ∧
    fold_path sha256 h path index = MerkleRoot ex_tree.
Proof.
  exact (merkle_membership sha256 ex_receipts (map r_TxHash ex_receipts) ex_tree (MkReceipt 1 0 (replicate 32 3))
    (λ c, bool_decide (r_TxHash c = replicate 32 3) && (r_Status c =? 1)) eq_refl ex_tree_built (λ c _, eq_refl)).
Defined.

Definition ex_header : Header :=
  MkHeader (replicate 32 1) (replicate 20 2) (replicate 32 3) (replicate 32 4) (replicate 32 0) (replicate 32 0)
    (replicate 32 0) (Some 131072) (Some 7) (Some 1540000000) [0x73; 0x68; 0x78].

Definition ex_proofs : list ProofState := [MkProofState (replicate 20 9) (replicate 32 8) 6].

Definition ex_txs : list Transaction := [NewTransaction [1; 2; 3]; NewTransaction []].

Definition ex_block : Block := MkBlock ex_header ex_txs ex_proofs None None (Some 0).

Ltac by_decide := apply (bool_decide_unpack _); vm_compute; reflexivity.

Lemma ex_header_ok : header_ok ex_header.
Proof. split; (done || by_decide). Qed.

Lemma ex_block_ok : block_ok ex_block.
Proof. split; [exact ex_header_ok|by_decide|]. repeat constructor; simpl; (lia || by_decide). Qed.

Lemma Block_roundtrip_witness :
  EncodeToBytes (block_gval ex_block) = Ok (block_enc ex_block) ∧
  DecodeBytes_with Block_DecodeRLP (block_enc ex_block) = Ok (decoded_block ex_block).
Proof. apply Block_roundtrip; [exact ex_block_ok|by vm_compute]. Defined.

Lemma Receipt_roundtrip_witness :
  ReceiptForStorage_DecodeBytes (storage_enc (MkReceipt 5 300 (replicate 32 7))) (NewReceipt true) =
  Ok (MkReceipt 1 300 (replicate 32 7)).
Proof.
  destruct (Receipt_roundtrip (MkReceipt 5 300 (replicate 32 7)) (NewReceipt true)) as [[_ H] _]; [|exact H].
  split; [simpl; lia|by_decide].
Defined.

(** The same transactions, with other flags and caches. *)
Definition ex_txs' : list Transaction :=
  map (λ tx, store_hash (keccak256 (tx_enc tx)) (SetForward true tx)) ex_txs.

Definition ex_new (txs : list Transaction) : Block :=
  match NewBlock ex_header txs [] [] with Ok b => b | _ => ex_block end.

Definition ex_hash (txs : list Transaction) : bytes * Block :=
  match Block_Hash (ex_new txs) with Ok r => r | _ => ([], ex_block) end.

Lemma ex_new_built : NewBlock ex_header ex_txs [] [] = Ok (ex_new ex_txs).
Proof. vm_compute. reflexivity. Qed.

Lemma ex_new_built' : NewBlock ex_header ex_txs' [] [] = Ok (ex_new ex_txs').
Proof. vm_compute. reflexivity. Qed.

Lemma ex_headers_fit :
  fits64 (length (header_enc (b_header (ex_new ex_txs)))) ∧ fits64 (length (header_enc (b_header (ex_new ex_txs')))).
Proof. vm_compute. split; reflexivity. Qed.

Lemma ex_same_header : b_header (ex_new ex_txs') = b_header (ex_new ex_txs) ∧ b_hash (ex_new ex_txs') = None ∧ b_hash (ex_new ex_txs) = None.
Proof. vm_compute. split_and!; reflexivity. Qed.

Lemma ex_hashes :
  Block_Hash (ex_new ex_txs) = Ok (fst (ex_hash ex_txs), snd (ex_hash ex_txs)) ∧
  Block_Hash (ex_new ex_txs') = Ok (fst (ex_hash ex_txs), snd (ex_hash ex_txs')).
Proof.
  destruct ex_same_header as (Hh & H1 & H2). destruct ex_headers_fit as [F1 F2].
  pose proof (proj1 (NewBlock_header _ _ _ _ _ ex_header_ok eq_refl ex_new_built)) as Hok.
  unfold ex_hash, Block_Hash. rewrite Hh, H1, H2, (Header_Hash_enc _ Hok F1). split; reflexivity.
Qed.

Lemma ex_no_collision :
  no_collision keccak256 ([header_enc (b_header (ex_new ex_txs)); header_enc (b_header (ex_new ex_txs'))] ++
                          map tx_enc ex_txs ++ map tx_enc ex_txs') ∧
  no_collision sha256 (tx_inputs ex_txs ++ tx_inputs ex_txs').
Proof. split; apply no_collision_check; vm_compute; reflexivity. Qed.

Lemma ex_txs_ok : Forall hashable (ex_txs ++ ex_txs').
Proof. repeat constructor; try by_decide; vm_compute; reflexivity. Qed.

Lemma block_hash_commits_witness :
  b_header (ex_new ex_txs) = b_header (ex_new ex_txs') ∧ map tx_Payload ex_txs = map tx_Payload ex_txs'.
Proof.
  destruct block_hash_commits as [Hc Hn].
  destruct (proj1 (Hn _ _ _ _ _ ex_header_ok ex_new_built) eq_refl) as (H1 & H2 & H3 & H4).
  destruct (proj1 (Hn _ _ _ _ _ ex_header_ok ex_new_built') eq_refl) as (H1' & H2' & H3' & H4').
  rewrite <-H3 at 2. rewrite <-H3' at 2.
  apply (Hc _ _ (fst (ex_hash ex_txs)) (snd (ex_hash ex_txs)) (snd (ex_hash ex_txs'))); try assumption; rewrite ?H3, ?H3'.
  - exact ex_txs_ok.
  - reflexivity.
  - exact (proj1 ex_headers_fit).
  - exact (proj2 ex_headers_fit).
  - exact (proj1 ex_no_collision).
  - exact (proj2 ex_no_collision).
  - exact (proj1 ex_hashes).
  - exact (proj2 ex_hashes).
Defined.
