(* ===== verification/SecureTrie.v ===== *)
(** * Tries with hashed keys (common/trie/secure_trie.go)

    A trie whose keys are hashed before use, with the cache of key preimages
    that CommitTo writes to the database, and its refinement to maps of plain
    keys. *)

From S2P Require Import Prelude TrieSpec TrieNode Trie TrieRefine TrieHasher TrieMap.
Local Open Scope Z_scope.

Section SecureTrie.
Context {KC : Keccak}.

(** "secure-key-" *)
Definition secureKeyPrefix : bytes := [0x73; 0x65; 0x63; 0x75; 0x72; 0x65; 0x2d; 0x6b; 0x65; 0x79; 0x2d].

(** [sec_owner] tells whether the cache belongs to this trie and not to the one
    it was copied from (secKeyCacheOwner). *)
Record SecureTrie := MkSecure {
  sec_trie : Trie;
  sec_cache : gmap bytes bytes;
  sec_owner : bool
}.

Definition NewSecure (root : bytes) (db : bytes → option bytes) (cachelimit : Z) : trie_out SecureTrie :=
  let* trie := New root db in
  Ok (MkSecure (SetCacheLimit cachelimit trie) ∅ false).

Definition hashKey (key : bytes) : bytes := keccak256 key.
Definition secKey (key : bytes) : bytes := secureKeyPrefix ++ key.

Definition getSecKeyCache (t : SecureTrie) : SecureTrie :=
  if sec_owner t then t else MkSecure (sec_trie t) ∅ true.

Definition with_trie {A} (t : SecureTrie) (r : A * Trie) : A * SecureTrie :=
  (r.1, MkSecure r.2 (sec_cache t) (sec_owner t)).

Definition Secure_TryGet (key : bytes) (t : SecureTrie) : trie_out (option bytes) * SecureTrie :=
  with_trie t (TryGet (hashKey key) (sec_trie t)).

Definition Secure_TryUpdate (key value : bytes) (t : SecureTrie) : trie_out unit * SecureTrie :=
  let hk := hashKey key in
  match with_trie t (TryUpdate hk value (sec_trie t)) with
  | (Ok _, t) =>
      let t := getSecKeyCache t in
      (Ok tt, MkSecure (sec_trie t) (<[hk := key]> (sec_cache t)) (sec_owner t))
  | r => r
  end.

Definition Secure_TryDelete (key : bytes) (t : SecureTrie) : trie_out unit * SecureTrie :=
  let hk := hashKey key in
  let t := getSecKeyCache t in
  let t := MkSecure (sec_trie t) (base.delete hk (sec_cache t)) (sec_owner t) in
  with_trie t (TryDelete hk (sec_trie t)).

Definition GetKey (shaKey : bytes) (t : SecureTrie) : option bytes * SecureTrie :=
  let t := getSecKeyCache t in
  match sec_cache t !! shaKey with
  | Some key => (Some key, t)
  | None => (t_db (sec_trie t) (secKey shaKey), t)
  end.

Definition Secure_Hash (t : SecureTrie) : outcome put_error bytes * SecureTrie :=
  with_trie t (Hash (sec_trie t)).

Definition Secure_Copy (t : SecureTrie) : SecureTrie := MkSecure (sec_trie t) (sec_cache t) false.

(** The loop of CommitTo over the cached preimages, in the order of the range. *)
Fixpoint put_keys {W} {HW : Writer W} (l : list (bytes * bytes)) (w : W) : outcome put_error W :=
  match l with
  | [] => Ok w
  | (hk, key) :: l' =>
      match w_put (secKey hk) key w with
      | Some w => put_keys l' w
      | None => Err PutError
      end
  end.

Definition Secure_CommitTo {W} {HW : Writer W} (t : SecureTrie) (w : W) : outcome put_error (bytes * SecureTrie * W) :=
  let t := getSecKeyCache t in
  let* w := put_keys (map_to_list (sec_cache t)) w in
  let t := MkSecure (sec_trie t) ∅ (sec_owner t) in
  let* (root, trie, w) := CommitTo (sec_trie t) w in
  Ok (root, MkSecure trie (sec_cache t) (sec_owner t), w).

(** ** Refinement to maps of plain keys *)

(** [f] has no collision in [U]. *)
Definition inj_on (f : bytes → bytes) (U : bytes → Prop) : Prop := ∀ x y, U x → U y → f x = f y → x = y.

(** [m] with its keys mapped by [f]. *)
Definition rekey (f : bytes → bytes) (m : gmap bytes bytes) : gmap bytes bytes :=
  list_to_map (prod_map f id <$> map_to_list m).

Lemma rekey_lookup_Some (f : bytes → bytes) (m : gmap bytes bytes) (j v : bytes) :
  inj_on f (λ k, is_Some (m !! k)) → rekey f m !! j = Some v ↔ ∃ k, j = f k ∧ m !! k = Some v.
Proof.
  intros Hf. unfold rekey. rewrite <-elem_of_list_to_map.
  - rewrite list_elem_of_fmap. split.
    + intros ([k w] & [= -> ->] & Hin%elem_of_map_to_list). by exists k.
    + intros (k & -> & Hk). exists (k, v). split; [done|by apply elem_of_map_to_list].
  - rewrite <-list_fmap_compose. apply NoDup_fmap_2_strong; [|apply NoDup_map_to_list].
    intros [k v1] [k' v2] H1%elem_of_map_to_list H2%elem_of_map_to_list HE. simpl in HE.
    assert (k = k') as -> by (apply Hf; [by eexists..|done]). congruence.
Qed.

Lemma rekey_lookup_on (f : bytes → bytes) (U : bytes → Prop) (m : gmap bytes bytes) k :
  inj_on f U → map_Forall (λ k _, U k) m → U k → rekey f m !! f k = m !! k.
Proof.
  intros Hf Hm Hk. assert (inj_on f (λ k, is_Some (m !! k))) as Hf' by (intros x y [] [] ?; apply Hf; eauto).
  apply option_eq. intros v. rewrite rekey_lookup_Some by done. split.
  - intros (k' & HE & Hk'). assert (k = k') as -> by (apply Hf; eauto). done.
  - intros Hv. by exists k.
Qed.

Lemma rekey_alter_on (f : bytes → bytes) (U : bytes → Prop) (m : gmap bytes bytes) k (o : option bytes) :
  inj_on f U → map_Forall (λ k _, U k) m → U k →
  rekey f (partial_alter (λ _, o) k m) = partial_alter (λ _, o) (f k) (rekey f m).
Proof.
  intros Hf Hm Hk.
  assert (map_Forall (λ k _, U k) (partial_alter (λ _, o) k m)) as Hm'.
  { intros j v Hj. destruct (decide (j = k)) as [->|Hne]; [done|]. rewrite lookup_partial_alter_ne in Hj by done. by eapply Hm. }
  assert (∀ m : gmap bytes bytes, map_Forall (λ k _, U k) m → inj_on f (λ k, is_Some (m !! k))) as Hinj.
  { intros m0 H0 x y [] [] ?. apply Hf; eauto. }
  apply map_eq. intros j. apply option_eq. intros v. rewrite rekey_lookup_Some by auto.
  destruct (decide (j = f k)) as [->|Hne].
  - rewrite lookup_partial_alter_eq. split.
    + intros (k' & HE & Hk'). assert (k = k') as <- by (apply Hf; eauto). by rewrite lookup_partial_alter_eq in Hk'.
    + intros ->. exists k. by rewrite lookup_partial_alter_eq.
  - rewrite lookup_partial_alter_ne, rekey_lookup_Some by auto.
    split; intros (k' & -> & Hk'); exists k'; (split; [done|]);
      (rewrite lookup_partial_alter_ne in * by (intros ->; done)); done.
Qed.

(** [T] stores [m]: its trie stores the values of [m] under the hashed keys, and
    every cached preimage is one. *)
Record secure_models (T : SecureTrie) (m : gmap bytes bytes) : Prop := {
  sm_trie : models (sec_trie T) (rekey hashKey m);
  sm_cache : map_Forall (λ hk k, hk = hashKey k) (sec_cache T)
}.

Definition secure_step (o : op) (T : SecureTrie) : answer * SecureTrie :=
  match o with
  | OpGet k => match Secure_TryGet k T with (Ok v, T') => (AValue v, T') | (_, T') => (AFailed, T') end
  | OpUpdate k v => match Secure_TryUpdate k v T with (Ok _, T') => (ADone, T') | (_, T') => (AFailed, T') end
  | OpDelete k => match Secure_TryDelete k T with (Ok _, T') => (ADone, T') | (_, T') => (AFailed, T') end
  | OpHash => match Secure_Hash T with (Ok h, T') => (AHash h, T') | (_, T') => (AFailed, T') end
  end.

(** The map of plain keys; its hash is that of the trie of the hashed keys. *)
Definition secure_spec (o : op) (m : gmap bytes bytes) : answer * gmap bytes bytes :=
  match o with
  | OpHash => (AHash (root_hash (trie_of (rekey hashKey m))), m)
  | o => spec_step o m
  end.

Definition op_key (U : bytes → Prop) (o : op) : Prop :=
  match o with
  | OpGet k | OpDelete k => U k
  | OpUpdate k v => U k ∧ Forall is_byte v ∧ Z.of_nat (length v) < 2 ^ 32
  | OpHash => True
  end.

Lemma hashKey_key k : Forall is_byte (hashKey k) ∧ Z.of_nat (length (hashKey k)) < 2 ^ 32.
Proof. unfold hashKey. rewrite keccak_length. split; [apply keccak_byte|lia]. Qed.

Lemma getSecKeyCache_ok T m : secure_models T m → secure_models (getSecKeyCache T) m.
Proof. intros []. unfold getSecKeyCache. by destruct (sec_owner T). Qed.

Section Keys.
Context (U : bytes → Prop) (HU : inj_on hashKey U).

Definition keys_in (m : gmap bytes bytes) : Prop := map_Forall (λ k _, U k) m.

Lemma keys_in_alter m k o : keys_in m → U k → keys_in (partial_alter (λ _, o) k m).
Proof.
  intros Hm Hk j v Hj. destruct (decide (j = k)) as [->|]; [done|]. rewrite lookup_partial_alter_ne in Hj by done. by eapply Hm.
Qed.

Lemma secure_update T m k v :
  secure_models T m → keys_in m → U k →
  ∃ T', Secure_TryUpdate k v T = (Ok tt, T') ∧
    secure_models T' (partial_alter (λ _, if decide (v = []) then None else Some v) k m).
Proof.
  intros [HT Hc] Hm Hk. unfold Secure_TryUpdate.
  destruct (models_update (sec_trie T) _ (hashKey k) v HT (proj1 (hashKey_key k))) as (T' & -> & HT' & _).
  eexists. split; [done|]. rewrite <-(rekey_alter_on _ U) in HT' by done. split.
  - cbn. unfold getSecKeyCache. cbn. by destruct (sec_owner T).
  - cbn. apply map_Forall_insert_2; [done|]. unfold getSecKeyCache. cbn. by destruct (sec_owner T).
Qed.

Lemma secure_delete T m k :
  secure_models T m → keys_in m → U k →
  ∃ T', Secure_TryDelete k T = (Ok tt, T') ∧ secure_models T' (base.delete k m).
Proof.
  intros HT%getSecKeyCache_ok Hm Hk. destruct HT as [HT Hc]. unfold Secure_TryDelete.
  set (T0 := getSecKeyCache T) in *. unfold with_trie. cbn [sec_trie sec_cache sec_owner]. rewrite TryDelete_update.
  destruct (models_update (sec_trie T0) _ (hashKey k) [] HT (proj1 (hashKey_key k))) as (T' & -> & HT' & _).
  eexists. split; [done|]. rewrite <-(rekey_alter_on _ U) in HT' by done. split; [done|]. by apply map_Forall_delete.
Qed.

Lemma rekey_small m : small m → keys_in m → small (rekey hashKey m).
Proof.
  intros Hs Hm j v Hj. apply rekey_lookup_Some in Hj as (k & -> & Hk).
  - destruct (Hs k v Hk) as (_ & ? & ?). split_and!; try done; apply hashKey_key.
  - intros x y [] [] ?. apply HU; eauto.
Qed.

Lemma small_alter m k v : small m → U k → (∀ k, U k → Z.of_nat (length k) < 2 ^ 32) → Forall is_byte v → Z.of_nat (length v) < 2 ^ 32 →
  small (partial_alter (λ _, if decide (v = []) then None else Some v) k m).
Proof.
  intros Hm Hk HL Hb Hl j w Hj. destruct (decide (j = k)) as [->|].
  - rewrite lookup_partial_alter_eq in Hj. case_decide; [done|]. injection Hj as <-. auto.
  - rewrite lookup_partial_alter_ne in Hj by done. by apply Hm.
Qed.

Lemma secure_step_refines o T m :
  (∀ k, U k → Z.of_nat (length k) < 2 ^ 32) →
  secure_models T m → small m → keys_in m → op_key U o →
  fst (secure_step o T) = fst (secure_spec o m) ∧ secure_models (snd (secure_step o T)) (snd (secure_spec o m)) ∧
  small (snd (secure_spec o m)) ∧ keys_in (snd (secure_spec o m)).
Proof.
  intros HL HT Hs Hm Ho. destruct o as [k|k v|k|]; cbn [secure_step secure_spec spec_step op_key] in *.
  - destruct HT as [HT Hc]. unfold Secure_TryGet, with_trie.
    destruct (models_get _ _ (hashKey k) HT (proj1 (hashKey_key k))) as (T' & -> & HT' & _). cbn.
    by rewrite (rekey_lookup_on _ U) by done.
  - destruct Ho as (Hk & Hb & Hl). destruct (secure_update T m k v HT Hm Hk) as (T' & -> & HT').
    assert ((if decide (v = []) then base.delete k m else <[k:=v]> m) =
            partial_alter (λ _, if decide (v = []) then None else Some v) k m) as -> by (by case_decide).
    split_and!; [done|done|by apply small_alter|by apply keys_in_alter].
  - destruct (secure_delete T m k HT Hm Ho) as (T' & -> & HT').
    split_and!; [done|done|by apply small_delete|by apply map_Forall_delete].
  - destruct HT as [HT Hc]. unfold Secure_Hash, with_trie.
    destruct (models_hash _ _ HT (rekey_small m Hs Hm)) as (T' & -> & HT' & _). done.
Qed.
End Keys.

(** A secure trie is a finite map of plain keys: on keys whose hashes do not
    collide, any sequence of lookups, updates, deletions and Hash calls answers
    as the map, the hash being that of the one trie of the hashed keys, and
    leaves a secure trie that stores the resulting map. *)
Theorem secure_refines_map (U : bytes → Prop) ops T m :
  inj_on hashKey U → (∀ k, U k → Z.of_nat (length k) < 2 ^ 32) →
  secure_models T m → small m → map_Forall (λ k _, U k) m → Forall (op_key U) ops →
  fst (run secure_step ops T) = fst (run secure_spec ops m) ∧
  secure_models (snd (run secure_step ops T)) (snd (run secure_spec ops m)).
Proof.
  intros HU HL HT Hs Hm Hops. revert T m HT Hs Hm. induction Hops as [|o ops Ho _ IH]; intros T m HT Hs Hm; [done|].
  destruct (secure_step_refines U HU o T m HL HT Hs Hm Ho) as (E & HT' & Hs' & Hm'). cbn [run].
  destruct (secure_step o T) as [a T'], (secure_spec o m) as [a' m']. cbn [fst snd] in *. subst a'.
  destruct (IH T' m' HT' Hs' Hm') as [El HTl]. destruct (run secure_step ops T'), (run secure_spec ops m'). cbn [fst snd] in *. by subst.
Qed.

Lemma secure_models_empty db : secure_models (MkSecure (MkTrie NNil db [] 0 0) ∅ false) ∅.
Proof. split; [|done]. exists PEmpty. split_and!; [by left|constructor|exact content_empty]. Qed.
End SecureTrie.

(** ** Example *)

Definition ex_keys (k : bytes) : Prop := k ∈ [[0x12]; [0x13; 0x45]].

Lemma ex_keys_distinct : NoDup (hashKey <$> [[0x12]; [0x13; 0x45]]).
Proof. apply (bool_decide_unpack _). vm_compute. exact I. Qed.

Lemma ex_keys_inj : inj_on hashKey ex_keys.
Proof. intros x y Hx Hy. exact (NoDup_fmap_inj hashKey _ x y ex_keys_distinct Hx Hy). Qed.

Lemma secure_refines_map_witness :
  let ops := [OpUpdate [0x12] [7]; OpUpdate [0x13; 0x45] [8; 9]; OpGet [0x12]; OpDelete [0x12]; OpGet [0x12]; OpHash] in
  fst (run secure_step ops (MkSecure ex_new ∅ false)) = fst (run secure_spec ops ∅).
Proof.
  intros ops. apply (secure_refines_map ex_keys ops (MkSecure ex_new ∅ false) ∅).
  - exact ex_keys_inj.
  - intros k Hk. unfold ex_keys in Hk. rewrite !elem_of_cons in Hk. destruct Hk as [-> |[-> |Hk]]; [simpl; lia..|].
    destruct (proj1 (elem_of_nil k) Hk).
  - apply secure_models_empty.
  - apply map_Forall_empty.
  - apply map_Forall_empty.
  - unfold ex_keys. repeat (constructor; [first [exact I | simpl; apply (bool_decide_unpack _); vm_compute; exact I]|]). constructor.
Defined.
