(* ===== verification/StateDB.v ===== *)
(** * The state of accounts (blockchain/state: statedb.go, state_object.go, journal.go)

    Accounts and their storage over tries, with the journal that Snapshot and
    RevertToSnapshot rest on.  The tries are an interface: a class of operations
    and a class of laws, which the secure trie discharges.  A pointer to a state
    object is the entry of its address in the map of live objects; the balance,
    nonce and code methods of the source are empty and left out.  The locks are
    left out: a state is used by one goroutine at a time. *)

From S2P Require Import Prelude RlpSpec RlpRaw RlpEncode RlpStream RlpRoundtrip RlpTotal TrieNode Trie TrieHasher TrieMap SecureTrie.
Local Open Scope Z_scope.

(** ** The interface Trie (database.go) *)

Class TrieOps (T : Type) := {
  t_TryGet : bytes → T → trie_out (option bytes) * T;
  t_TryUpdate : bytes → bytes → T → trie_out unit * T;
  t_TryDelete : bytes → T → trie_out unit * T;
  t_Hash : T → outcome put_error bytes * T
}.

#[export] Instance secure_ops {KC : Keccak} : TrieOps SecureTrie := {|
  t_TryGet := Secure_TryGet;
  t_TryUpdate := Secure_TryUpdate;
  t_TryDelete := Secure_TryDelete;
  t_Hash := Secure_Hash
|}.

(** Errors remembered by setError. *)
Inductive state_error :=
| ETrie (e : trie_error)
| EStorageTrie (e : trie_error)
| ESplit (e : rlp_error)
| EDecode (e : rlp_error)
| EHash.

Abbreviation state_out := (outcome state_error).

Definition zero_hash : bytes := replicate 32 0.

Section State.
Context {KC : Keccak} {T : Type} {TO : TrieOps T} (OpenStorageTrie : bytes → bytes → trie_out T).

(** ** State objects (state_object.go) *)

(** [so_onDirty] tells whether the callback is still set; it is
    MarkStateObjectDirty of the state the object belongs to. *)
Record stateObject := MkObject {
  so_address : bytes;
  so_addrHash : bytes;
  so_Root : bytes;
  so_dbErr : option state_error;
  so_trie : option T;
  so_cachedStorage : gmap bytes bytes;
  so_dirtyStorage : gmap bytes bytes;
  so_suicided : bool;
  so_touched : bool;
  so_deleted : bool;
  so_onDirty : bool
}.

Definition emptyCodeHash : bytes := keccak256 [].

Definition newObject (address root : bytes) : stateObject :=
  MkObject address (keccak256 address) root None None ∅ ∅ false false false true.

Definition empty (o : stateObject) : bool := bool_decide (so_Root o = emptyCodeHash).

Definition so_with_trie (t : T) (o : stateObject) : stateObject :=
  MkObject (so_address o) (so_addrHash o) (so_Root o) (so_dbErr o) (Some t) (so_cachedStorage o) (so_dirtyStorage o)
    (so_suicided o) (so_touched o) (so_deleted o) (so_onDirty o).

Definition so_with_storage (c d : gmap bytes bytes) (o : stateObject) : stateObject :=
  MkObject (so_address o) (so_addrHash o) (so_Root o) (so_dbErr o) (so_trie o) c d
    (so_suicided o) (so_touched o) (so_deleted o) (so_onDirty o).

Definition so_with_root (r : bytes) (o : stateObject) : stateObject :=
  MkObject (so_address o) (so_addrHash o) r (so_dbErr o) (so_trie o) (so_cachedStorage o) (so_dirtyStorage o)
    (so_suicided o) (so_touched o) (so_deleted o) (so_onDirty o).

Definition so_with_flags (suicided touched deleted onDirty : bool) (o : stateObject) : stateObject :=
  MkObject (so_address o) (so_addrHash o) (so_Root o) (so_dbErr o) (so_trie o) (so_cachedStorage o) (so_dirtyStorage o)
    suicided touched deleted onDirty.

(** stateObject.setError with an error that is not nil. *)
Definition so_setError (e : state_error) (o : stateObject) : stateObject :=
  MkObject (so_address o) (so_addrHash o) (so_Root o) (Some (default e (so_dbErr o))) (so_trie o) (so_cachedStorage o)
    (so_dirtyStorage o) (so_suicided o) (so_touched o) (so_deleted o) (so_onDirty o).

(** getTrie: the storage trie, opened on first access.  When the second opening
    fails too the trie stays nil and its use panics. *)
Definition getTrie (o : stateObject) : state_out (T * stateObject) :=
  match so_trie o with
  | Some t => Ok (t, o)
  | None =>
      match OpenStorageTrie (so_addrHash o) (so_Root o) with
      | Ok t => Ok (t, so_with_trie t o)
      | Err e =>
          match OpenStorageTrie (so_addrHash o) zero_hash with
          | Ok t => Ok (t, so_setError (EStorageTrie e) (so_with_trie t o))
          | _ => Panic
          end
      | Panic => Panic
      end
  end.

(** The value of an entry of the storage trie: its RLP content as a hash; the
    error of Split is remembered and leaves no content. *)
Definition storage_value (enc : option bytes) : state_out (bytes * option state_error) :=
  match enc with
  | None | Some [] => Ok (zero_hash, None)
  | Some enc =>
      match Split enc with
      | Ok (_, content, _) => Ok (BytesToHash content, None)
      | Err e => Ok (zero_hash, Some (ESplit e))
      | Panic => Panic
      end
  end.

Definition so_GetState (key : bytes) (o : stateObject) : state_out (bytes * stateObject) :=
  match so_cachedStorage o !! key with
  | Some value => Ok (value, o)
  | None =>
      let* (t, o) := getTrie o in
      match t_TryGet key t with
      | (Ok enc, t) =>
          let o := so_with_trie t o in
          let* (value, err) := storage_value enc in
          let o := match err with Some e => so_setError e o | None => o end in
          Ok (value, if bool_decide (value = zero_hash) then o
                     else so_with_storage (<[key := value]> (so_cachedStorage o)) (so_dirtyStorage o) o)
      | (Err e, t) => Ok (zero_hash, so_setError (ETrie e) (so_with_trie t o))
      | (Panic, _) => Panic
      end
  end.

(** ** The state (statedb.go) *)

(** [l_fields] stands for the fields the state does not touch. *)
Record Log := MkLog {
  l_fields : bytes;
  l_TxHash : bytes;
  l_BlockHash : bytes;
  l_TxIndex : Z;
  l_Index : Z
}.

Inductive journalEntry :=
| createObjectChange (account : bytes)
| resetObjectChange (prev : stateObject)
| suicideChange (account : bytes) (prev : bool)
| storageChange (account key prevalue : bytes)
| refundChange (prev : Z)
| addLogChange (txhash : bytes)
| addPreimageChange (hash : bytes)
| touchChange (account : bytes) (prev prevDirty : bool).

Record revision := MkRevision { rev_id : Z; rev_journalIndex : nat }.

Record StateDB := MkState {
  s_trie : T;
  s_stateObjects : gmap bytes stateObject;
  s_stateObjectsDirty : gset bytes;
  s_dbErr : option state_error;
  s_refund : Z;
  s_thash : bytes;
  s_bhash : bytes;
  s_txIndex : Z;
  s_logs : gmap bytes (list Log);
  s_logSize : Z;
  s_preimages : gmap bytes bytes;
  s_journal : list journalEntry;
  s_validRevisions : list revision;
  s_nextRevisionId : Z
}.

Definition New (tr : T) : StateDB :=
  MkState tr ∅ ∅ None 0 zero_hash zero_hash 0 ∅ 0 ∅ [] [] 0.

Definition with_trie_objects (t : T) (objs : gmap bytes stateObject) (s : StateDB) : StateDB :=
  MkState t objs (s_stateObjectsDirty s) (s_dbErr s) (s_refund s) (s_thash s) (s_bhash s) (s_txIndex s) (s_logs s)
    (s_logSize s) (s_preimages s) (s_journal s) (s_validRevisions s) (s_nextRevisionId s).

Definition with_dirty (d : gset bytes) (s : StateDB) : StateDB :=
  MkState (s_trie s) (s_stateObjects s) d (s_dbErr s) (s_refund s) (s_thash s) (s_bhash s) (s_txIndex s) (s_logs s)
    (s_logSize s) (s_preimages s) (s_journal s) (s_validRevisions s) (s_nextRevisionId s).

Definition with_refund (r : Z) (s : StateDB) : StateDB :=
  MkState (s_trie s) (s_stateObjects s) (s_stateObjectsDirty s) (s_dbErr s) r (s_thash s) (s_bhash s) (s_txIndex s) (s_logs s)
    (s_logSize s) (s_preimages s) (s_journal s) (s_validRevisions s) (s_nextRevisionId s).

Definition with_logs (l : gmap bytes (list Log)) (n : Z) (s : StateDB) : StateDB :=
  MkState (s_trie s) (s_stateObjects s) (s_stateObjectsDirty s) (s_dbErr s) (s_refund s) (s_thash s) (s_bhash s) (s_txIndex s) l
    n (s_preimages s) (s_journal s) (s_validRevisions s) (s_nextRevisionId s).

Definition with_preimages (p : gmap bytes bytes) (s : StateDB) : StateDB :=
  MkState (s_trie s) (s_stateObjects s) (s_stateObjectsDirty s) (s_dbErr s) (s_refund s) (s_thash s) (s_bhash s) (s_txIndex s)
    (s_logs s) (s_logSize s) p (s_journal s) (s_validRevisions s) (s_nextRevisionId s).

Definition with_journal (j : list journalEntry) (r : list revision) (n : Z) (s : StateDB) : StateDB :=
  MkState (s_trie s) (s_stateObjects s) (s_stateObjectsDirty s) (s_dbErr s) (s_refund s) (s_thash s) (s_bhash s) (s_txIndex s)
    (s_logs s) (s_logSize s) (s_preimages s) j r n.

(** self.journal = append(self.journal, e) *)
Definition append_journal (e : journalEntry) (s : StateDB) : StateDB :=
  with_journal (s_journal s ++ [e]) (s_validRevisions s) (s_nextRevisionId s) s.

(** setError; the error may be nil. *)
Definition setError (err : option state_error) (s : StateDB) : StateDB :=
  MkState (s_trie s) (s_stateObjects s) (s_stateObjectsDirty s)
    (match s_dbErr s with Some e => Some e | None => err end)
    (s_refund s) (s_thash s) (s_bhash s) (s_txIndex s)
    (s_logs s) (s_logSize s) (s_preimages s) (s_journal s) (s_validRevisions s) (s_nextRevisionId s).

Definition Prepare (thash bhash : bytes) (ti : Z) (s : StateDB) : StateDB :=
  MkState (s_trie s) (s_stateObjects s) (s_stateObjectsDirty s) (s_dbErr s) (s_refund s) thash bhash ti
    (s_logs s) (s_logSize s) (s_preimages s) (s_journal s) (s_validRevisions s) (s_nextRevisionId s).

Definition setStateObject (o : stateObject) (s : StateDB) : StateDB :=
  with_trie_objects (s_trie s) (<[so_address o := o]> (s_stateObjects s)) s.

Definition MarkStateObjectDirty (addr : bytes) (s : StateDB) : StateDB :=
  with_dirty ({[ addr ]} ∪ s_stateObjectsDirty s) s.

(** The type Account. *)
Definition account_ty : ty := TStruct [TByteArray 32].
Definition account_gval (o : stateObject) : gval := GEncoder (GStruct [GBytes (so_Root o)]).

Definition getStateObject (addr : bytes) (s : StateDB) : state_out (option stateObject * StateDB) :=
  match s_stateObjects s !! addr with
  | Some obj => Ok (if so_deleted obj then None else Some obj, s)
  | None =>
      let (r, t) := t_TryGet addr (s_trie s) in
      let s := with_trie_objects t (s_stateObjects s) s in
      match r with
      | Ok None | Ok (Some []) => Ok (None, setError None s)
      | Err e => Ok (None, setError (Some (ETrie e)) s)
      | Panic => Panic
      | Ok (Some enc) =>
          match DecodeBytes account_ty enc with
          | Ok (GStruct [GBytes root]) =>
              let obj := newObject addr root in
              Ok (Some obj, setStateObject obj s)
          | Ok _ | Panic => Panic
          | Err _ => Ok (None, s)
          end
      end
  end.

(** The callback onDirty, once. *)
Definition fire (o : stateObject) (s : StateDB) : StateDB :=
  let s := if so_onDirty o then MarkStateObjectDirty (so_address o) s else s in
  setStateObject (so_with_flags (so_suicided o) (so_touched o) (so_deleted o) false o) s.

(** stateObject.setState *)
Definition setState (key value : bytes) (o : stateObject) (s : StateDB) : StateDB :=
  fire (so_with_storage (<[key := value]> (so_cachedStorage o)) (<[key := value]> (so_dirtyStorage o)) o) s.

(** stateObject.SetState *)
Definition so_SetState (key value : bytes) (o : stateObject) (s : StateDB) : state_out StateDB :=
  let* (prevalue, o) := so_GetState key o in
  let s := append_journal (storageChange (so_address o) key prevalue) s in
  Ok (setState key value o s).

Definition markSuicided (o : stateObject) (s : StateDB) : StateDB :=
  fire (so_with_flags true (so_touched o) (so_deleted o) (so_onDirty o) o) s.

Definition touch (o : stateObject) (s : StateDB) : StateDB :=
  let s := append_journal (touchChange (so_address o) (so_touched o) (negb (so_onDirty o))) s in
  fire (so_with_flags (so_suicided o) true (so_deleted o) (so_onDirty o) o) s.

Definition createObject (addr : bytes) (s : StateDB) : state_out (stateObject * option stateObject * StateDB) :=
  let* (prev, s) := getStateObject addr s in
  let newobj := newObject addr zero_hash in
  let s := match prev with
           | None => append_journal (createObjectChange addr) s
           | Some p => append_journal (resetObjectChange p) s
           end in
  Ok (newobj, prev, setStateObject newobj s).

Definition GetOrNewStateObject (addr : bytes) (s : StateDB) : state_out (stateObject * StateDB) :=
  let* (o, s) := getStateObject addr s in
  match o with
  | Some o => if so_deleted o then let* (o, _, s) := createObject addr s in Ok (o, s) else Ok (o, s)
  | None => let* (o, _, s) := createObject addr s in Ok (o, s)
  end.

Definition CreateAccount (addr : bytes) (s : StateDB) : state_out StateDB :=
  let* (_, _, s) := createObject addr s in Ok s.

(** AddBalance, SubBalance, SetBalance, SetNonce and SetCode: the object is
    created, the methods on it are empty. *)
Definition AddBalance (addr : bytes) (s : StateDB) : state_out StateDB :=
  let* (_, s) := GetOrNewStateObject addr s in Ok s.

Definition SetState (addr key value : bytes) (s : StateDB) : state_out StateDB :=
  let* (o, s) := GetOrNewStateObject addr s in so_SetState key value o s.

Definition Suicide (addr : bytes) (s : StateDB) : state_out (bool * StateDB) :=
  let* (o, s) := getStateObject addr s in
  match o with
  | None => Ok (false, s)
  | Some o => Ok (true, markSuicided o (append_journal (suicideChange addr (so_suicided o)) s))
  end.

Definition Exist (addr : bytes) (s : StateDB) : state_out (bool * StateDB) :=
  let* (o, s) := getStateObject addr s in
  Ok (match o with Some _ => true | None => false end, s).

Definition Empty (addr : bytes) (s : StateDB) : state_out (bool * StateDB) :=
  let* (o, s) := getStateObject addr s in
  Ok (match o with Some o => empty o | None => true end, s).

Definition HasSuicided (addr : bytes) (s : StateDB) : state_out (bool * StateDB) :=
  let* (o, s) := getStateObject addr s in
  Ok (match o with Some o => so_suicided o | None => false end, s).

Definition GetState (addr key : bytes) (s : StateDB) : state_out (bytes * StateDB) :=
  let* (o, s) := getStateObject addr s in
  match o with
  | None => Ok (zero_hash, s)
  | Some o => let* (v, o) := so_GetState key o in Ok (v, setStateObject o s)
  end.

Definition AddLog (fields : bytes) (s : StateDB) : StateDB :=
  let s := append_journal (addLogChange (s_thash s)) s in
  let log := MkLog fields (s_thash s) (s_bhash s) (wrap 64 (s_txIndex s)) (s_logSize s) in
  with_logs (<[s_thash s := default [] (s_logs s !! s_thash s) ++ [log]]> (s_logs s)) (s_logSize s + 1) s.

Definition GetLogs (hash : bytes) (s : StateDB) : list Log := default [] (s_logs s !! hash).

Definition AddPreimage (hash preimage : bytes) (s : StateDB) : StateDB :=
  match s_preimages s !! hash with
  | Some _ => s
  | None => with_preimages (<[hash := preimage]> (s_preimages s)) (append_journal (addPreimageChange hash) s)
  end.

Definition AddRefund (gas : Z) (s : StateDB) : StateDB :=
  with_refund (s_refund s + gas) (append_journal (refundChange (s_refund s)) s).

(** ** Undoing (journal.go) *)

(** HexToAddress("0000000000000000000000000000000000000003") *)
Definition ripemd : bytes := replicate 19 0 ++ [3].

Definition undo (e : journalEntry) (s : StateDB) : state_out StateDB :=
  match e with
  | createObjectChange account =>
      Ok (with_dirty (s_stateObjectsDirty s ∖ {[ account ]})
            (with_trie_objects (s_trie s) (base.delete account (s_stateObjects s)) s))
  | resetObjectChange prev => Ok (setStateObject prev s)
  | suicideChange account prev =>
      let* (obj, s) := getStateObject account s in
      match obj with
      | Some o => Ok (setStateObject (so_with_flags prev (so_touched o) (so_deleted o) (so_onDirty o) o) s)
      | None => Ok s
      end
  | touchChange account prev prevDirty =>
      if negb prev && negb (bool_decide (account = ripemd)) then
        let* (obj, s) := getStateObject account s in
        match obj with
        | Some o =>
            let s := setStateObject (so_with_flags (so_suicided o) prev (so_deleted o) (so_onDirty o) o) s in
            Ok (if prevDirty then s else with_dirty (s_stateObjectsDirty s ∖ {[ account ]}) s)
        | None => Panic
        end
      else Ok s
  | storageChange account key prevalue =>
      let* (obj, s) := getStateObject account s in
      match obj with
      | Some o => Ok (setState key prevalue o s)
      | None => Panic
      end
  | refundChange prev => Ok (with_refund prev s)
  | addLogChange txhash =>
      match s_logs s !! txhash with
      | None | Some [] => Panic
      | Some [_] => Ok (with_logs (base.delete txhash (s_logs s)) (s_logSize s - 1) s)
      | Some logs => Ok (with_logs (<[txhash := take (length logs - 1) logs]> (s_logs s)) (s_logSize s - 1) s)
      end
  | addPreimageChange hash => Ok (with_preimages (base.delete hash (s_preimages s)) s)
  end.

(** The last entry first. *)
Fixpoint undo_all (es : list journalEntry) (s : StateDB) : state_out StateDB :=
  match es with
  | [] => Ok s
  | e :: es' => let* s := undo_all es' s in undo e s
  end.

(** ** Snapshots *)

Definition Snapshot (s : StateDB) : Z * StateDB :=
  let id := s_nextRevisionId s in
  (id, with_journal (s_journal s) (s_validRevisions s ++ [MkRevision id (length (s_journal s))]) (id + 1) s).

(** sort.Search between [i] and [j]; half of the interval goes in every round. *)
Fixpoint search (rounds : nat) (f : nat → bool) (i j : nat) : nat :=
  match rounds with
  | O => i
  | S r =>
      if (i <? j)%nat then
        let h := ((i + j) / 2)%nat in
        if f h then search r f i h else search r f (h + 1) j
      else i
  end.

Definition RevertToSnapshot (revid : Z) (s : StateDB) : state_out StateDB :=
  let revs := s_validRevisions s in
  let idx := search (length revs) (λ i, match revs !! i with Some r => revid <=? rev_id r | None => true end) 0 (length revs) in
  match revs !! idx with
  | None => Panic
  | Some r =>
      if negb (rev_id r =? revid) then Panic
      else
        let snapshot := rev_journalIndex r in
        let* s := undo_all (drop snapshot (s_journal s)) s in
        Ok (with_journal (take snapshot (s_journal s)) (take idx revs) (s_nextRevisionId s) s)
  end.

Definition clearJournalAndRefund (s : StateDB) : StateDB :=
  with_refund 0 (with_journal [] [] (s_nextRevisionId s) s).

Definition Reset (tr : T) (s : StateDB) : StateDB :=
  clearJournalAndRefund
    (MkState tr ∅ ∅ (s_dbErr s) (s_refund s) zero_hash zero_hash 0 ∅ 0 ∅ (s_journal s) (s_validRevisions s) (s_nextRevisionId s)).

(** ** The specification *)

(** What can be seen of an account. *)
Record aobj := AObj { ao_storage : bytes → bytes; ao_suicided : bool }.

(** What can be seen of a state. *)
Record astate := AState {
  a_acc : bytes → option aobj;
  a_refund : Z;
  a_logs : bytes → list Log;
  a_logSize : Z;
  a_preimages : gmap bytes bytes
}.

(** A state with whole saved states instead of a journal. *)
Record spec := MkSpec {
  sp_cur : astate;
  sp_saved : list (Z * astate);
  sp_next : Z;
  sp_thash : bytes;
  sp_bhash : bytes;
  sp_txIndex : Z
}.

Inductive op :=
| OGetState (addr key : bytes)
| OSetState (addr key value : bytes)
| OCreateAccount (addr : bytes)
| OAddBalance (addr : bytes)
| OSuicide (addr : bytes)
| OExist (addr : bytes)
| OHasSuicided (addr : bytes)
| OAddLog (fields : bytes)
| OGetLogs (hash : bytes)
| OAddPreimage (hash preimage : bytes)
| OGetPreimage (hash : bytes)
| OAddRefund (gas : Z)
| OGetRefund
| OPrepare (thash bhash : bytes) (ti : Z)
| OSnapshot
| ORevert (revid : Z).

Inductive answer :=
| RDone
| RHash (h : bytes)
| RBool (b : bool)
| RInt (i : Z)
| RLogs (l : list Log)
| RBytes (o : option bytes).

Definition step (o : op) (s : StateDB) : state_out (answer * StateDB) :=
  match o with
  | OGetState a k => let* (v, s) := GetState a k s in Ok (RHash v, s)
  | OSetState a k v => let* s := SetState a k v s in Ok (RDone, s)
  | OCreateAccount a => let* s := CreateAccount a s in Ok (RDone, s)
  | OAddBalance a => let* s := AddBalance a s in Ok (RDone, s)
  | OSuicide a => let* (b, s) := Suicide a s in Ok (RBool b, s)
  | OExist a => let* (b, s) := Exist a s in Ok (RBool b, s)
  | OHasSuicided a => let* (b, s) := HasSuicided a s in Ok (RBool b, s)
  | OAddLog f => Ok (RDone, AddLog f s)
  | OGetLogs h => Ok (RLogs (GetLogs h s), s)
  | OAddPreimage h p => Ok (RDone, AddPreimage h p s)
  | OGetPreimage h => Ok (RBytes (s_preimages s !! h), s)
  | OAddRefund g => Ok (RDone, AddRefund g s)
  | OGetRefund => Ok (RInt (s_refund s), s)
  | OPrepare th bh ti => Ok (RDone, Prepare th bh ti s)
  | OSnapshot => let (id, s) := Snapshot s in Ok (RInt id, s)
  | ORevert id => let* s := RevertToSnapshot id s in Ok (RDone, s)
  end.

Definition fresh : aobj := AObj (λ _, zero_hash) false.

Definition set_acc (addr : bytes) (o : aobj) (a : astate) : astate :=
  AState (λ x, if decide (x = addr) then Some o else a_acc a x) (a_refund a) (a_logs a) (a_logSize a) (a_preimages a).

Definition set_storage (key value : bytes) (o : aobj) : aobj :=
  AObj (λ k, if decide (k = key) then value else ao_storage o k) (ao_suicided o).

Definition with_cur (a : astate) (sp : spec) : spec :=
  MkSpec a (sp_saved sp) (sp_next sp) (sp_thash sp) (sp_bhash sp) (sp_txIndex sp).

Definition add_log (fields : bytes) (sp : spec) : astate :=
  let a := sp_cur sp in
  AState (a_acc a) (a_refund a)
    (λ h, if decide (h = sp_thash sp)
          then a_logs a h ++ [MkLog fields (sp_thash sp) (sp_bhash sp) (wrap 64 (sp_txIndex sp)) (a_logSize a)]
          else a_logs a h)
    (a_logSize a + 1) (a_preimages a).

(** [None] for an identifier that cannot be reverted to. *)
Definition spec_step (o : op) (sp : spec) : option (answer * spec) :=
  let a := sp_cur sp in
  match o with
  | OGetState x k => Some (RHash (ao_storage (default fresh (a_acc a x)) k), sp)
  | OSetState x k v => Some (RDone, with_cur (set_acc x (set_storage k v (default fresh (a_acc a x))) a) sp)
  | OCreateAccount x => Some (RDone, with_cur (set_acc x fresh a) sp)
  | OAddBalance x => Some (RDone, with_cur (set_acc x (default fresh (a_acc a x)) a) sp)
  | OSuicide x =>
      match a_acc a x with
      | Some o => Some (RBool true, with_cur (set_acc x (AObj (ao_storage o) true) a) sp)
      | None => Some (RBool false, sp)
      end
  | OExist x => Some (RBool (bool_decide (is_Some (a_acc a x))), sp)
  | OHasSuicided x => Some (RBool (ao_suicided (default fresh (a_acc a x))), sp)
  | OAddLog f => Some (RDone, with_cur (add_log f sp) sp)
  | OGetLogs h => Some (RLogs (a_logs a h), sp)
  | OAddPreimage h p =>
      Some (RDone, with_cur (AState (a_acc a) (a_refund a) (a_logs a) (a_logSize a)
                       (match a_preimages a !! h with Some _ => a_preimages a | None => <[h := p]> (a_preimages a) end)) sp)
  | OGetPreimage h => Some (RBytes (a_preimages a !! h), sp)
  | OAddRefund g =>
      Some (RDone, with_cur (AState (a_acc a) (a_refund a + g) (a_logs a) (a_logSize a) (a_preimages a)) sp)
  | OGetRefund => Some (RInt (a_refund a), sp)
  | OPrepare th bh ti => Some (RDone, MkSpec a (sp_saved sp) (sp_next sp) th bh ti)
  | OSnapshot =>
      Some (RInt (sp_next sp),
            MkSpec a (sp_saved sp ++ [(sp_next sp, a)]) (sp_next sp + 1) (sp_thash sp) (sp_bhash sp) (sp_txIndex sp))
  | ORevert id =>
      match list_find (λ p, p.1 = id) (sp_saved sp) with
      | Some (n, (_, b)) => Some (RDone, MkSpec b (take n (sp_saved sp)) (sp_next sp) (sp_thash sp) (sp_bhash sp) (sp_txIndex sp))
      | None => None
      end
  end.

Fixpoint run (ops : list op) (s : StateDB) : state_out (list answer * StateDB) :=
  match ops with
  | [] => Ok ([], s)
  | o :: ops' =>
      let* (r, s) := step o s in
      let* (l, s) := run ops' s in
      Ok (r :: l, s)
  end.

Fixpoint spec_run (ops : list op) (sp : spec) : option (list answer * spec) :=
  match ops with
  | [] => Some ([], sp)
  | o :: ops' =>
      match spec_step o sp with
      | None => None
      | Some (r, sp) => match spec_run ops' sp with
                        | None => None
                        | Some (l, sp) => Some (r :: l, sp)
                        end
      end
  end.
End State.

Arguments StateDB : clear implicits.
Arguments stateObject : clear implicits.
Arguments journalEntry : clear implicits.

(** ** What the state relies on of its tries *)

(** Reading does not fail and does not change what is stored. *)
Class TrieLaws (T : Type) {TO : TrieOps T} := {
  t_ok : T → Prop;
  t_get_ok t k : t_ok t → ∃ o, fst (t_TryGet k t) = Ok o;
  t_get_keeps t k : t_ok t → t_ok (snd (t_TryGet k t));
  t_get_same t k k' : t_ok t → fst (t_TryGet k' (snd (t_TryGet k t))) = fst (t_TryGet k' t)
}.

(** The laws of the secure trie follow from the refinement of the trie. *)
#[export] Program Instance secure_laws {KC : Keccak} : TrieLaws SecureTrie := {|
  t_ok t := ∃ m, models (sec_trie t) m
|}.
Next Obligation.
  intros KC t k (m & Hm). destruct (models_get _ _ (hashKey k) Hm (proj1 (hashKey_key k))) as (T' & E & _).
  exists (m !! hashKey k). cbn. unfold Secure_TryGet, with_trie. by rewrite E.
Qed.
Next Obligation.
  intros KC t k (m & Hm). destruct (models_get _ _ (hashKey k) Hm (proj1 (hashKey_key k))) as (T' & E & HT & _).
  exists m. cbn. unfold Secure_TryGet, with_trie. by rewrite E.
Qed.
Next Obligation.
  intros KC t k k' (m & Hm). destruct (models_get _ _ (hashKey k) Hm (proj1 (hashKey_key k))) as (T' & E & HT & _).
  destruct (models_get _ _ (hashKey k') Hm (proj1 (hashKey_key k'))) as (T1 & E1 & _).
  destruct (models_get _ _ (hashKey k') HT (proj1 (hashKey_key k'))) as (T2 & E2 & _).
  cbn. unfold Secure_TryGet, with_trie. rewrite E. cbn. by rewrite E1, E2.
Qed.
