(* ===== verification/StateRevert.v ===== *)
(** * Snapshots of the state are exact (blockchain/state)

    The journaled state refines the specification that saves whole states:
    the simulation of states by what can be seen of them, the inversion of every
    operation by the journal entries it appends, and the refinement. *)

From stdpp Require Import sorting.
From S2P Require Import Prelude RlpSpec RlpRaw RlpEncode RlpStream RlpRoundtrip RlpTotal TrieSpec TrieNode Trie TrieRefine TrieHasher TrieMap SecureTrie StateDB.
Local Open Scope Z_scope.

(** Accounts decode to one hash or fail. *)
Lemma account_shape b :
  (∃ r, DecodeBytes account_ty b = Ok (GStruct [GBytes r])) ∨ (∃ e, DecodeBytes account_ty b = Err e).
Proof.
  destruct (DecodeBytes_ends account_ty b) as [[v E]|(e & E & _)]; [done|done|done| |right; eauto]. left.
  revert E. unfold DecodeBytes. destruct (decode _ account_ty _) as [[w|e|] s] eqn:Ed; [|done..].
  destruct (s_rd s); [|done]. intros [= <-]. revert Ed. cbn [decode account_ty]. unfold mbind_, decodeStruct, mbind_.
  destruct (wrapped Stream_List _) as [[z| |] s1]; [|done..]. cbn [decodeFields decode].
  destruct (decodeByteArray 32 s1) as [[x|[]|] s2] eqn:Ea; try done.
  destruct (wrapped Stream_ListEnd _) as [[u| |] s3]; [|done..]. intros [= <- <-]. cbn [app].
  revert Ea. unfold decodeByteArray, mbind_. destruct (Stream_Kind s1) as [[[k n]| |] s4]; [|done..].
  destruct k; cbn [Nat.eqb Nat.ltb Nat.leb]; [done| |done].
  destruct (Z.of_nat 32 <? n); [done|]. destruct (n <? Z.of_nat 32); [done|].
  destruct (readFull _ _) as [[bs| |] s5]; [|done..].
  destruct bs as [|y [|y' bs]]; [intros [= <- _]; eauto| |intros [= <- _]; eauto].
  destruct (y <? 128); [done|]. intros [= <- _]. eauto.
Qed.

(** sort.Search finds the first position of a monotone predicate. *)
Lemma search_spec rounds f i j :
  (i ≤ j)%nat → (j - i ≤ rounds)%nat → (∀ x y, (x ≤ y)%nat → f x = true → f y = true) →
  let n := search rounds f i j in
  (i ≤ n ≤ j)%nat ∧ (∀ x, (i ≤ x < n)%nat → f x = false) ∧ (∀ x, (n ≤ x < j)%nat → f x = true).
Proof.
  intros Hij Hr Hmono. revert i j Hij Hr. induction rounds as [|r IH]; intros i j Hij Hr; cbn [search].
  { split_and!; [lia|lia|intros; lia..]. }
  destruct (Nat.ltb_spec i j) as [Hlt|]; [|split_and!; [lia|lia|intros; lia..]].
  set (h := ((i + j) / 2)%nat).
  assert (i ≤ h < j)%nat as Hh by (unfold h; split; [apply Nat.div_le_lower_bound; lia|apply Nat.Div0.div_lt_upper_bound; lia]).
  destruct (f h) eqn:Ef.
  - destruct (IH i h) as (H1 & H2 & H3); [lia|lia|]. split_and!; [lia|lia|done|]. intros x Hx.
    destruct (decide (x < h)%nat); [apply H3; lia|]. eapply (Hmono h); [lia|done].
  - destruct (IH (h + 1)%nat j) as (H1 & H2 & H3); [lia|lia|]. split_and!; [lia|lia| |done]. intros x Hx.
    destruct (decide (h < x)%nat); [apply H2; lia|]. apply not_true_iff_false. intros Hx'.
    apply (Hmono x h) in Hx'; [congruence|lia].
Qed.

Lemma sorted_lookup {A} (R : A → A → Prop) l i j x y :
  StronglySorted R l → (i < j)%nat → l !! i = Some x → l !! j = Some y → R x y.
Proof.
  intros Ho. revert i j. induction Ho as [|z l _ IH Hz]; intros [|i] [|j] Hij H1 H2; try done; try lia.
  - injection H1 as <-. by apply (Forall_lookup_1 _ _ _ _ Hz H2).
  - apply (IH i j); [lia|done..].
Qed.

Section Revert.
Context {KC : Keccak} {T : Type} {TO : TrieOps T} {TL : TrieLaws T} (Open : bytes → bytes → trie_out T).

Implicit Types (s : StateDB T) (o : stateObject T).

(** What is read from a trie. *)
Definition got (t : T) (k : bytes) : option bytes :=
  match fst (t_TryGet k t) with Ok r => r | _ => None end.

Lemma t_TryGet_got t k : t_ok t → ∃ t', t_TryGet k t = (Ok (got t k), t') ∧ t_ok t' ∧ ∀ k', got t' k' = got t k'.
Proof.
  intros Ht. destruct (t_get_ok t k Ht) as [r E]. pose proof (t_get_keeps t k Ht) as Hk. pose proof (t_get_same t k) as Hs.
  unfold got. rewrite E. destruct (t_TryGet k t) as [x t']. cbn [fst snd] in *. subst x. exists t'. split_and!; [done..|].
  intros k'. by rewrite Hs.
Qed.

(** A storage trie whose entries can be read. *)
Definition good_storage (t : T) : Prop := t_ok t ∧ ∀ k, storage_value (got t k) ≠ Panic.

(** The tries that are opened are good, and the one with the zero root is there
    and empty. *)
Context (Hopen : ∀ a r t, Open a r = Ok t → good_storage t) (Hnp : ∀ a r, Open a r ≠ Panic)
  (Hzero : ∀ a, ∃ t, Open a zero_hash = Ok t ∧ ∀ k, got t k = None).

(** ** What can be seen of an object *)

Definition the_trie o : option T :=
  match so_trie o with
  | Some t => Some t
  | None => match Open (so_addrHash o) (so_Root o) with
            | Ok t => Some t
            | _ => match Open (so_addrHash o) zero_hash with Ok t => Some t | _ => None end
            end
  end.

Definition stored (e : option bytes) : bytes :=
  match storage_value e with Ok (v, _) => v | _ => zero_hash end.

Definition storage_of o (k : bytes) : bytes :=
  match so_cachedStorage o !! k with
  | Some v => v
  | None => stored (the_trie o ≫= λ t, got t k)
  end.

Definition obj_ok o : Prop := ∀ t, so_trie o = Some t → good_storage t.

Lemma getTrie_spec o :
  obj_ok o → ∃ t o', getTrie Open o = Ok (t, o') ∧ the_trie o = Some t ∧ so_trie o' = Some t ∧ good_storage t ∧
    so_address o' = so_address o ∧ so_cachedStorage o' = so_cachedStorage o ∧ so_suicided o' = so_suicided o ∧
    so_touched o' = so_touched o ∧ so_deleted o' = so_deleted o ∧ so_onDirty o' = so_onDirty o.
Proof.
  intros Ho. unfold getTrie, the_trie. destruct (so_trie o) as [t|] eqn:Et.
  { exists t, o. split_and!; try done. by apply Ho. }
  destruct (Open (so_addrHash o) (so_Root o)) as [t|e|] eqn:E1; [| |by apply Hnp in E1].
  { exists t. eexists. split_and!; try done; try by eapply Hopen. }
  destruct (Hzero (so_addrHash o)) as (t & E2 & _). rewrite E2. exists t. eexists. split_and!; try done; try by eapply Hopen.
Qed.

Lemma storage_value_stored e : storage_value e ≠ Panic → ∃ err, storage_value e = Ok (stored e, err).
Proof.
  unfold stored. intros Hp. assert (∀ x, storage_value e ≠ Err x) as He.
  { intros x. unfold storage_value. destruct e as [[|b l]|]; [done| |done]. destruct (Split _) as [[[? ?] ?]| |]; done. }
  destruct (storage_value e) as [[v err]|x|]; [by exists err|by destruct (He x)|done].
Qed.

Lemma so_GetState_spec key o :
  obj_ok o → ∃ o', so_GetState Open key o = Ok (storage_of o key, o') ∧ obj_ok o' ∧
    (∀ k, storage_of o' k = storage_of o k) ∧ so_address o' = so_address o ∧ so_suicided o' = so_suicided o ∧
    so_touched o' = so_touched o ∧ so_deleted o' = so_deleted o ∧ so_onDirty o' = so_onDirty o.
Proof.
  intros Ho. unfold so_GetState, storage_of at 1. destruct (so_cachedStorage o !! key) as [v|] eqn:Ec.
  { exists o. by split_and!. }
  destruct (getTrie_spec o Ho) as (t & o1 & -> & Ht & Ht1 & [Hok Hsp] & E1 & E2 & E3 & E4 & E5 & E6). cbn [obind].
  rewrite Ht. cbn [mbind option_bind]. destruct (t_TryGet_got t key Hok) as (t' & -> & Hok' & Hsame).
  destruct (storage_value_stored (got t key) (Hsp key)) as (err & ->). cbn [obind].
  set (v := stored (got t key)).
  set (o2 := match err with Some e => so_setError e (so_with_trie t' o1) | None => so_with_trie t' o1 end).
  assert (so_trie o2 = Some t' ∧ so_cachedStorage o2 = so_cachedStorage o ∧ so_address o2 = so_address o ∧
    so_suicided o2 = so_suicided o ∧ so_touched o2 = so_touched o ∧ so_deleted o2 = so_deleted o ∧ so_onDirty o2 = so_onDirty o)
    as (F1 & F2 & F3 & F4 & F5 & F6 & F7) by (unfold o2; destruct err; split_and!; done).
  assert (∀ o3 : stateObject T, so_trie o3 = Some t' → obj_ok o3) as Hok3.
  { intros o3 E t0 E0. rewrite E in E0. injection E0 as <-. split; [done|]. intros k. by rewrite Hsame. }
  assert (∀ o3 k, so_trie o3 = Some t' → so_cachedStorage o3 !! k = so_cachedStorage o !! k → storage_of o3 k = storage_of o k) as Hst.
  { intros o3 k E E'. unfold storage_of. rewrite E', Ht. unfold the_trie. rewrite E. cbn. by rewrite Hsame. }
  case_bool_decide as Ez.
  - exists o2. split_and!; try done; [by apply Hok3|]. intros k. apply Hst; [done|by rewrite F2].
  - eexists. split_and!; [done|by apply Hok3| |done..]. intros k. destruct (decide (k = key)) as [->|Hne].
    + unfold storage_of. cbn. by rewrite lookup_insert_eq, Ec, Ht.
    + apply Hst; [done|]. cbn. by rewrite lookup_insert_ne, F2.
Qed.

(** ** What can be seen of a state *)

Definition aobj_eq (x y : aobj) : Prop := (∀ k, ao_storage x k = ao_storage y k) ∧ ao_suicided x = ao_suicided y.

#[local] Instance aobj_eq_equiv : Equivalence aobj_eq.
Proof.
  split; [by split| |].
  - intros x y [H1 H2]. by split.
  - intros x y z [H1 H2] [H3 H4]. split; [intros k; by rewrite H1|by rewrite H2].
Qed.

Definition view o : aobj := AObj (storage_of o) (so_suicided o).

Definition account_root (enc : option bytes) : option bytes :=
  match enc with
  | None | Some [] => None
  | Some e => match DecodeBytes account_ty e with Ok (GStruct [GBytes r]) => Some r | _ => None end
  end.

Definition acc s (a : bytes) : option aobj :=
  match s_stateObjects s !! a with
  | Some o => if so_deleted o then None else Some (view o)
  | None => (λ r, view (newObject a r)) <$> account_root (got (s_trie s) a)
  end.

Abbreviation same_acc := (option_Forall2 aobj_eq).

Record sim s1 s2 : Prop := {
  sim_acc a : same_acc (acc s1 a) (acc s2 a);
  sim_got k : got (s_trie s1) k = got (s_trie s2) k;
  sim_refund : s_refund s1 = s_refund s2;
  sim_logs h : GetLogs h s1 = GetLogs h s2;
  sim_logSize : s_logSize s1 = s_logSize s2;
  sim_preimages : s_preimages s1 = s_preimages s2
}.

#[local] Instance sim_equiv : Equivalence sim.
Proof.
  split.
  - intros s. by split.
  - intros s1 s2 []. split; intros; symmetry; done || auto.
  - intros s1 s2 s3 [] []. split; intros; etrans; eauto.
Qed.

Definition entry_ok (e : journalEntry T) : Prop :=
  match e with
  | resetObjectChange p => obj_ok p ∧ so_deleted p = false
  | _ => True
  end.

Record inv s : Prop := {
  inv_trie : t_ok (s_trie s);
  inv_objects : map_Forall (λ a o, so_address o = a ∧ obj_ok o ∧
                  (so_deleted o = true → account_root (got (s_trie s) a) = None)) (s_stateObjects s);
  inv_journal : Forall entry_ok (s_journal s)
}.

(** Everything but the trie, the objects, the dirty set and the error. *)
Definition framed s s' : Prop :=
  s_refund s' = s_refund s ∧ s_logs s' = s_logs s ∧ s_logSize s' = s_logSize s ∧ s_preimages s' = s_preimages s ∧
  s_journal s' = s_journal s ∧ s_validRevisions s' = s_validRevisions s ∧ s_nextRevisionId s' = s_nextRevisionId s ∧
  s_thash s' = s_thash s ∧ s_bhash s' = s_bhash s ∧ s_txIndex s' = s_txIndex s.

(** One object changes, the trie stays. *)
Lemma put_object s a o :
  inv s → so_address o = a → obj_ok o → (so_deleted o = true → account_root (got (s_trie s) a) = None) →
  ∀ s', s_trie s' = s_trie s → s_stateObjects s' = <[a := o]> (s_stateObjects s) → s_journal s' = s_journal s →
  inv s' ∧ ∀ x, acc s' x = if decide (x = a) then (if so_deleted o then None else Some (view o)) else acc s x.
Proof.
  intros [H1 H2 H3] Ha Ho Hd s' Et Eo Ej. split.
  - split; rewrite ?Et, ?Eo, ?Ej; [done| |done]. by apply map_Forall_insert_2.
  - intros x. unfold acc. rewrite Eo, Et. case_decide as Ex; [subst; by rewrite lookup_insert_eq|by rewrite lookup_insert_ne].
Qed.

(** The trie is read, the objects stay. *)
Lemma read_trie s s' :
  inv s → t_ok (s_trie s') → (∀ k, got (s_trie s') k = got (s_trie s) k) → s_stateObjects s' = s_stateObjects s →
  s_journal s' = s_journal s → inv s' ∧ ∀ x, acc s' x = acc s x.
Proof.
  intros [H1 H2 H3] Ht Hg Eo Ej. split.
  - split; rewrite ?Eo, ?Ej; [done| |done]. intros a o Hao. rewrite Hg. by apply H2.
  - intros x. unfold acc. by rewrite Eo, Hg.
Qed.

Lemma sim_of s s' :
  (∀ x, acc s' x = acc s x) → (∀ k, got (s_trie s') k = got (s_trie s) k) → framed s s' → sim s' s.
Proof.
  intros Ha Hg (E1 & E2 & E3 & E4 & _). split; [intros a; by rewrite Ha|done|done| |done|done].
  intros h. unfold GetLogs. by rewrite E2.
Qed.

Lemma getStateObject_spec a s :
  inv s → ∃ r s', getStateObject a s = Ok (r, s') ∧ inv s' ∧ sim s' s ∧ framed s s' ∧
    match r with
    | Some o => s_stateObjects s' !! a = Some o ∧ so_address o = a ∧ obj_ok o ∧ so_deleted o = false ∧ acc s' a = Some (view o)
    | None => acc s' a = None
    end.
Proof.
  intros Hinv. unfold getStateObject. destruct (s_stateObjects s !! a) as [o|] eqn:Eo.
  { destruct (inv_objects s Hinv a o Eo) as (Ea & Hok & _). eexists _, s. split_and!; [done|done|done|by repeat split|].
    destruct (so_deleted o) eqn:Ed; unfold acc; rewrite Eo, Ed; [done|by split_and!]. }
  destruct (t_TryGet_got (s_trie s) a (inv_trie s Hinv)) as (t' & -> & Hok & Hg). cbn zeta.
  set (s1 := with_trie_objects t' (s_stateObjects s) s).
  destruct (read_trie s s1 Hinv Hok Hg eq_refl eq_refl) as [Hinv1 Hacc1].
  assert (acc s1 a = (λ r, view (newObject a r)) <$> account_root (got (s_trie s) a)) as Ea
    by (rewrite Hacc1; unfold acc; by rewrite Eo).
  assert (∀ e : option state_error, ∃ s', s' = setError e s1 ∧ inv s' ∧ sim s' s ∧ framed s s' ∧ acc s' a = acc s1 a) as Hnone.
  { intros e. exists (setError e s1). split_and!; [done|by destruct Hinv1| |by repeat split|done].
    apply sim_of; [done|done|by repeat split]. }
  destruct (got (s_trie s) a) as [[|b enc]|] eqn:Eg.
  - destruct (Hnone None) as (s' & -> & ? & ? & ? & E). eexists None, _. split_and!; [done..|]. by rewrite E, Ea.
  - cbn [account_root] in Ea. destruct (account_shape (b :: enc)) as [(r & Er)|(e & Er)]; rewrite Er in Ea |- *.
    + destruct (put_object s1 a (newObject a r) Hinv1 eq_refl ltac:(done) ltac:(done) (setStateObject (newObject a r) s1) eq_refl eq_refl eq_refl)
        as [Hinv2 Hacc2].
      eexists _, _. split_and!; [done|done| |by repeat split|].
      * apply sim_of; [|done|by repeat split]. intros x. rewrite Hacc2. case_decide; [subst x; cbn|by rewrite Hacc1].
        by rewrite <-Hacc1, Ea.
      * split_and!; [apply lookup_insert_eq|done|done|done|]. by rewrite Hacc2, decide_True.
    + eexists None, s1. split_and!; [done|done| |by repeat split|by rewrite Ea]. apply sim_of; [done|done|by repeat split].
  - destruct (Hnone None) as (s' & -> & ? & ? & ? & E). eexists None, _. split_and!; [done..|]. by rewrite E, Ea.
Qed.

(** ** Undoing respects the simulation *)

(** The accounts after a change at one address. *)
Lemma sim_update s s' r r' a x y :
  sim s s' → (∀ k, got (s_trie r) k = got (s_trie s) k) → (∀ k, got (s_trie r') k = got (s_trie s') k) →
  framed s r → framed s' r' →
  (∀ z, acc r z = if decide (z = a) then x else acc s z) → (∀ z, acc r' z = if decide (z = a) then y else acc s' z) →
  same_acc x y → sim r r'.
Proof.
  intros [S1 S2 S3 S4 S5 S6] G G' (F1 & F2 & F3 & F4 & _) (F1' & F2' & F3' & F4' & _) A A' Hxy.
  split; [|intros; by rewrite G, G'|congruence| |congruence|congruence].
  - intros z. rewrite A, A'. by case_decide.
  - intros h. unfold GetLogs in *. rewrite F2, F2'. apply S4.
Qed.

Lemma framed_trans s1 s2 s3 : framed s1 s2 → framed s2 s3 → framed s1 s3.
Proof. unfold framed. intuition congruence. Qed.

(** An object that is looked up and replaced by one that is not deleted. *)
Lemma replace_live s a o o' s' :
  inv s → s_stateObjects s !! a = Some o → so_address o' = a → obj_ok o' → so_deleted o' = false →
  s_trie s' = s_trie s → s_stateObjects s' = <[a := o']> (s_stateObjects s) → s_journal s' = s_journal s →
  inv s' ∧ ∀ x, acc s' x = if decide (x = a) then Some (view o') else acc s x.
Proof.
  intros Hinv Ho Ha Hok Hd Et Eo Ej.
  destruct (put_object s a o' Hinv Ha Hok ltac:(congruence) s' Et Eo Ej) as [H1 H2]. rewrite Hd in H2. by split.
Qed.

(** The object setState leaves. *)
Definition with_state key v o : stateObject T :=
  so_with_flags (so_suicided o) (so_touched o) (so_deleted o) false
    (so_with_storage (<[key := v]> (so_cachedStorage o)) (<[key := v]> (so_dirtyStorage o)) o).

Lemma view_with_state key v o : aobj_eq (view (with_state key v o)) (set_storage key v (view o)).
Proof.
  split; [|done]. intros k. unfold view, storage_of. cbn.
  destruct (decide (k = key)) as [->|Hne]; [by rewrite lookup_insert_eq|by rewrite lookup_insert_ne].
Qed.

Lemma set_storage_eq key v x y : aobj_eq x y → aobj_eq (set_storage key v x) (set_storage key v y).
Proof. intros [H1 H2]. split; [|done]. intros k. cbn. by rewrite H1. Qed.

Lemma setState_shape key v o s :
  s_trie (setState key v o s) = s_trie s ∧
  s_stateObjects (setState key v o s) = <[so_address o := with_state key v o]> (s_stateObjects s) ∧ framed s (setState key v o s).
Proof. unfold setState, fire. cbn [so_onDirty so_with_storage]. destruct (so_onDirty o); by repeat split. Qed.

Lemma undo_log_spec th s :
  match GetLogs th s with
  | [] => undo (addLogChange th) s = Panic
  | logs => ∃ l, undo (addLogChange th) s = Ok (with_logs l (s_logSize s - 1) s) ∧
      ∀ h, default [] (l !! h) = if decide (h = th) then take (length logs - 1) logs else GetLogs h s
  end.
Proof.
  unfold GetLogs. cbn [undo]. destruct (s_logs s !! th) as [[|x [|y l]]|] eqn:El; cbn [default from_option id]; [done| | |done].
  - eexists. split; [done|]. intros h. case_decide; [subst; by rewrite lookup_delete_eq|by rewrite lookup_delete_ne].
  - eexists. split; [done|]. intros h. case_decide; [subst; by rewrite lookup_insert_eq|by rewrite lookup_insert_ne].
Qed.

(** The journal and the identifiers. *)
Definition env s s' : Prop :=
  s_journal s' = s_journal s ∧ s_validRevisions s' = s_validRevisions s ∧ s_nextRevisionId s' = s_nextRevisionId s ∧
  s_thash s' = s_thash s ∧ s_bhash s' = s_bhash s ∧ s_txIndex s' = s_txIndex s.

Lemma framed_env s s' : framed s s' → env s s'.
Proof. unfold framed, env. tauto. Qed.

Lemma env_trans s1 s2 s3 : env s1 s2 → env s2 s3 → env s1 s3.
Proof. unfold env. intuition congruence. Qed.

(** The two results of an undo. *)
Definition undone s s' r (x : state_out (StateDB T)) : Prop :=
  ∃ r', x = Ok r' ∧ sim r r' ∧ inv r ∧ inv r' ∧ env s r ∧ env s' r'.

(** An object in use at an address, and a state that differs from [s] in the
    object at [a]. *)
Definition fine (a : bytes) o : Prop := so_address o = a ∧ obj_ok o ∧ so_deleted o = false.

Definition becomes s (a : bytes) p r : Prop :=
  s_trie r = s_trie s ∧ s_stateObjects r = <[a := p]> (s_stateObjects s) ∧ framed s r.

(** Looking an object up in two similar states. *)
Lemma lookup_both a s s' :
  inv s → inv s' → sim s s' →
  ∃ x y s1 s1', getStateObject a s = Ok (x, s1) ∧ getStateObject a s' = Ok (y, s1') ∧ inv s1 ∧ inv s1' ∧ sim s1 s1' ∧
    framed s s1 ∧ framed s' s1' ∧
    match x, y with
    | Some o, Some o' => aobj_eq (view o) (view o') ∧ fine a o ∧ fine a o'
    | None, None => True
    | _, _ => False
    end.
Proof.
  intros Hi Hi' Hs. destruct (getStateObject_spec a s Hi) as (x & s1 & E1 & I1 & S1 & F1 & X).
  destruct (getStateObject_spec a s' Hi') as (y & s1' & E1' & I1' & S1' & F1' & Y).
  assert (sim s1 s1') as S2 by (etrans; [exact S1|]; etrans; [exact Hs|]; by symmetry).
  exists x, y, s1, s1'. split_and!; try done. pose proof (sim_acc _ _ S2 a) as HA. unfold fine.
  destruct x as [o|], y as [o'|].
  - destruct X as (? & ? & ? & ? & Xa), Y as (? & ? & ? & ? & Ya). rewrite Xa, Ya in HA. inversion HA; subst. by split_and!.
  - destruct X as (_ & _ & _ & _ & Xa). rewrite Xa, Y in HA. inversion HA.
  - destruct Y as (_ & _ & _ & _ & Ya). rewrite Ya, X in HA. inversion HA.
  - done.
Qed.

(** One object is replaced. *)
Lemma replace_one a s p r :
  inv s → fine a p → becomes s a p r → inv r ∧ ∀ x, acc r x = if decide (x = a) then Some (view p) else acc s x.
Proof.
  intros Hi (P1 & P2 & P3) (Et & Eo & Hf).
  destruct (put_object s a p Hi P1 P2 ltac:(congruence) r Et Eo ltac:(apply Hf)) as [H1 H2]. rewrite P3 in H2. by split.
Qed.

(** Both objects are replaced by objects that look the same. *)
Lemma replace_both a s s' p p' r r' :
  inv s → inv s' → sim s s' → fine a p → fine a p' → aobj_eq (view p) (view p') →
  becomes s a p r → becomes s' a p' r' → sim r r' ∧ inv r ∧ inv r'.
Proof.
  intros Hi Hi' Hs P P' Hv B B'. destruct (replace_one a s p r Hi P B) as [I A], (replace_one a s' p' r' Hi' P' B') as [I' A'].
  split_and!; [|done..]. destruct B as (Et & _ & F), B' as (Et' & _ & F').
  eapply (sim_update s s' r r' a); [done|by rewrite Et|by rewrite Et'|done|done|exact A|exact A'|]. by constructor.
Qed.

Lemma fine_with_state key v a o : fine a o → fine a (with_state key v o).
Proof. done. Qed.

Lemma fine_flags a o su t d : fine a o → fine a (so_with_flags su t (so_deleted o) d o).
Proof. done. Qed.

Lemma undone_of s s' s1 s1' r r' :
  framed s s1 → framed s' s1' → env s1 r → env s1' r' → sim r r' ∧ inv r ∧ inv r' → undone s s' r (Ok r').
Proof.
  intros F F' V V' (S & I & I'). exists r'. split_and!; try done.
  - eapply env_trans; [by apply framed_env|done].
  - eapply env_trans; [by apply framed_env|done].
Qed.

Lemma undo_create a s s' :
  inv s → inv s' → sim s s' → ∃ r, undo (createObjectChange a) s = Ok r ∧ undone s s' r (undo (createObjectChange a) s').
Proof.
  intros Hi Hi' Hs. eexists. split; [done|]. eexists. split; [done|].
  assert (∀ s, inv s → let r := with_dirty (s_stateObjectsDirty s ∖ {[a]}) (with_trie_objects (s_trie s) (base.delete a (s_stateObjects s)) s) in
    inv r ∧ ∀ x, acc r x = if decide (x = a) then (λ r, view (newObject a r)) <$> account_root (got (s_trie s) a) else acc s x) as Hdel.
  { intros s0 [H1 H2 H3]. split; [split; [done|by apply map_Forall_delete|done]|]. intros x. unfold acc. cbn.
    case_decide; [subst; by rewrite lookup_delete_eq|by rewrite lookup_delete_ne]. }
  destruct (Hdel s Hi) as [I A], (Hdel s' Hi') as [I' A']. split_and!; [|done|done|done..].
  eapply (sim_update s s' _ _ a); [done|done|done|by repeat split|by repeat split|exact A|exact A'|]. by rewrite (sim_got _ _ Hs).
Qed.

Lemma undo_reset p s s' :
  inv s → inv s' → sim s s' → entry_ok (resetObjectChange p) →
  ∃ r, undo (resetObjectChange p) s = Ok r ∧ undone s s' r (undo (resetObjectChange p) s').
Proof.
  intros Hi Hi' Hs [Hp Hd]. eexists. split; [done|]. eexists. split; [done|].
  destruct (replace_both (so_address p) s s' p p (setStateObject p s) (setStateObject p s')) as (S & I & I'); try done; try by repeat split.
Qed.

Lemma undo_suicide a prev s s' :
  inv s → inv s' → sim s s' → ∃ r, undo (suicideChange a prev) s = Ok r ∧ undone s s' r (undo (suicideChange a prev) s').
Proof.
  intros Hi Hi' Hs. destruct (lookup_both a s s' Hi Hi' Hs) as (x & y & s1 & s1' & E & E' & I & I' & S & F & F' & XY).
  cbn [undo]. rewrite E, E'. cbn [obind]. destruct x as [o|], y as [o'|]; try done.
  - destruct XY as ([V V'] & X & Y). eexists. split; [done|]. eapply undone_of; [done|done|by repeat split|by repeat split|].
    destruct X as (Ea & X), Y as (Ea' & Y).
    apply (replace_both a s1 s1' (so_with_flags prev (so_touched o) (so_deleted o) (so_onDirty o) o)
      (so_with_flags prev (so_touched o') (so_deleted o') (so_onDirty o') o')); try done.
    + split; [|split]; [done|cbn; by rewrite Ea|by repeat split].
    + split; [|split]; [done|cbn; by rewrite Ea'|by repeat split].
  - eexists. split; [done|]. eapply undone_of; [done|done|by repeat split|by repeat split|done].
Qed.

Lemma undo_storage a key v s s' r :
  inv s → inv s' → sim s s' → undo (storageChange a key v) s = Ok r → undone s s' r (undo (storageChange a key v) s').
Proof.
  intros Hi Hi' Hs. destruct (lookup_both a s s' Hi Hi' Hs) as (x & y & s1 & s1' & E & E' & I & I' & S & F & F' & XY).
  cbn [undo]. rewrite E, E'. cbn [obind]. destruct x as [o|], y as [o'|]; try done. intros [= <-]. destruct XY as (V & X & Y).
  destruct (setState_shape key v o s1) as (H1 & H2 & H3), (setState_shape key v o' s1') as (H1' & H2' & H3').
  eapply undone_of; [done|done|by apply framed_env|by apply framed_env|].
  pose proof X as (Ea & _). pose proof Y as (Ea' & _). rewrite Ea in H2. rewrite Ea' in H2'.
  apply (replace_both a s1 s1' (with_state key v o) (with_state key v o')); try done.
  etrans; [apply view_with_state|]. etrans; [|symmetry; apply view_with_state]. by apply set_storage_eq.
Qed.

Lemma undo_touch a prev pd s s' r :
  inv s → inv s' → sim s s' → undo (touchChange a prev pd) s = Ok r → undone s s' r (undo (touchChange a prev pd) s').
Proof.
  intros Hi Hi' Hs. cbn [undo]. destruct (_ && _); [|intros [= <-]; exists s'; by split_and!].
  destruct (lookup_both a s s' Hi Hi' Hs) as (x & y & s1 & s1' & E & E' & I & I' & S & F & F' & XY).
  rewrite E, E'. cbn [obind]. destruct x as [o|], y as [o'|]; try done. intros [= <-]. destruct XY as (V & X & Y).
  eapply undone_of; [done|done|destruct pd; by repeat split|destruct pd; by repeat split|].
  pose proof X as (Ea & _). pose proof Y as (Ea' & _).
  apply (replace_both a s1 s1' (so_with_flags (so_suicided o) prev (so_deleted o) (so_onDirty o) o)
    (so_with_flags (so_suicided o') prev (so_deleted o') (so_onDirty o') o')); try done.
  - destruct pd; (split; [|split]; [done|cbn; by rewrite Ea|by repeat split]).
  - destruct pd; (split; [|split]; [done|cbn; by rewrite Ea'|by repeat split]).
Qed.

Lemma undo_log th s s' r :
  inv s → inv s' → sim s s' → undo (addLogChange th) s = Ok r → undone s s' r (undo (addLogChange th) s').
Proof.
  intros [] [] [S1 S2 S3 S4 S5 S6] Hu. pose proof (undo_log_spec th s) as L. pose proof (undo_log_spec th s') as L'.
  rewrite <-S4 in L'. destruct (GetLogs th s) as [|x l] eqn:El; [congruence|].
  destruct L as (m & E & Hm), L' as (m' & E' & Hm'). rewrite E in Hu. injection Hu as <-. rewrite E'.
  eexists. split; [done|]. split_and!; [|by split|by split|by repeat split|by repeat split].
  split; try done; [|cbn; by rewrite S5]. intros h. unfold GetLogs in *. cbn. rewrite Hm, Hm'. case_decide; [done|apply S4].
Qed.

Lemma undo_sim e s s' r :
  inv s → inv s' → sim s s' → entry_ok e → undo e s = Ok r → undone s s' r (undo e s').
Proof.
  intros Hi Hi' Hs He Hu. destruct e as [a|p|a prev|a key v|prev|th|h|a prev pd].
  - destruct (undo_create a s s' Hi Hi' Hs) as (r0 & E & ?). assert (r0 = r) as -> by congruence. done.
  - destruct (undo_reset p s s' Hi Hi' Hs He) as (r0 & E & ?). assert (r0 = r) as -> by congruence. done.
  - destruct (undo_suicide a prev s s' Hi Hi' Hs) as (r0 & E & ?). assert (r0 = r) as -> by congruence. done.
  - by apply undo_storage.
  - injection Hu as <-. destruct Hi, Hi', Hs. eexists. split; [done|]. split_and!; by split.
  - by apply undo_log.
  - injection Hu as <-. destruct Hi, Hi', Hs. eexists. split; [done|]. split_and!; try by split. split; try done. cbn. congruence.
  - by apply undo_touch.
Qed.

Lemma undo_all_sim es s s' r :
  inv s → inv s' → sim s s' → Forall entry_ok es → undo_all es s = Ok r → undone s s' r (undo_all es s').
Proof.
  intros Hi Hi' Hs He. revert r. induction He as [|e es He _ IH]; intros r; cbn [undo_all].
  - intros [= <-]. exists s'. by split_and!.
  - intros (s1 & E1 & Hu)%obind_Ok. destruct (IH s1 E1) as (s1' & E1' & S1 & I1 & I1' & V1 & V1').
    destruct (undo_sim e s1 s1' r I1 I1' S1 He Hu) as (r' & E & S & I & I' & V & V'). unfold undone. rewrite E1'. cbn [obind].
    exists r'. split_and!; try done; by eapply env_trans.
Qed.

Lemma undo_all_app es es' s : undo_all (es ++ es') s = let* s := undo_all es' s in undo_all es s.
Proof.
  induction es as [|e es IH]; cbn [app undo_all]; [by destruct (undo_all es' s)|]. rewrite IH.
  by destruct (undo_all es' s).
Qed.

(** ** Operations are inverted by their journal entries *)

(** [s1] is reached from [s] by appending [es], which undone give back [s] up to
    what can be seen. *)
Record reverts s s1 (es : list (journalEntry T)) : Prop := {
  rv_inv : inv s1;
  rv_journal : s_journal s1 = s_journal s ++ es;
  rv_env : s_validRevisions s1 = s_validRevisions s ∧ s_nextRevisionId s1 = s_nextRevisionId s ∧
           s_thash s1 = s_thash s ∧ s_bhash s1 = s_bhash s ∧ s_txIndex s1 = s_txIndex s;
  rv_undo : ∃ s0, undo_all es s1 = Ok s0 ∧ inv s0 ∧ sim s0 s
}.

Lemma reverts_trans s s1 s2 es1 es2 : inv s → reverts s s1 es1 → reverts s1 s2 es2 → reverts s s2 (es1 ++ es2).
Proof.
  intros Hi [I1 J1 E1 (r1 & U1 & R1 & S1)] [I2 J2 E2 (r2 & U2 & R2 & S2)]. split; [done|by rewrite J2, J1, app_assoc|intuition congruence|].
  rewrite undo_all_app, U2. cbn [obind].
  assert (Forall entry_ok es1) as He by (pose proof (inv_journal s1 I1) as H; rewrite J1 in H; by apply Forall_app in H as [_ H]).
  destruct (undo_all_sim es1 s1 r2 r1 I1 R2 ltac:(by symmetry) He U1) as (r' & -> & S & _ & I' & _).
  exists r'. split_and!; [done|done|]. etrans; [by symmetry|done].
Qed.

Lemma reverts_framed s s1 : inv s1 → sim s1 s → framed s s1 → reverts s s1 [].
Proof.
  intros I S (F1 & F2 & F3 & F4 & F5 & F6 & F7 & F8 & F9 & F10). split; [done|by rewrite app_nil_r|done|]. exists s1. by split_and!.
Qed.

(** An entry whose undo gives a state with the accounts of [s]. *)
Lemma reverts_one s s1 e s0 :
  inv s1 → s_journal s1 = s_journal s ++ [e] →
  (s_validRevisions s1 = s_validRevisions s ∧ s_nextRevisionId s1 = s_nextRevisionId s ∧
   s_thash s1 = s_thash s ∧ s_bhash s1 = s_bhash s ∧ s_txIndex s1 = s_txIndex s) →
  undo e s1 = Ok s0 → inv s0 → sim s0 s → reverts s s1 [e].
Proof. intros I J E U I0 S. split; [done..|]. exists s0. by cbn [undo_all obind]. Qed.

(** ** Operations do what the specification says *)

Record matches s (a : astate) : Prop := {
  m_acc x : same_acc (acc s x) (a_acc a x);
  m_refund : s_refund s = a_refund a;
  m_logs h : GetLogs h s = a_logs a h;
  m_logSize : s_logSize s = a_logSize a;
  m_preimages : s_preimages s = a_preimages a
}.

Lemma matches_sim s s' a : sim s' s → matches s a → matches s' a.
Proof.
  intros [S1 S2 S3 S4 S5 S6] [M1 M2 M3 M4 M5]. split; try congruence.
  intros x. etrans; [apply S1|apply M1].
Qed.

Lemma matches_set s s' x p (w : aobj) a :
  matches s a → becomes s x p s' → inv s → fine x p → aobj_eq (view p) w → inv s' ∧ matches s' (set_acc x w a).
Proof.
  intros [M1 M2 M3 M4 M5] B Hi Hp Hv. destruct (replace_one x s p s' Hi Hp B) as [I A]. split; [done|].
  destruct B as (_ & _ & F1 & F2 & F3 & F4 & _). split; cbn; try congruence.
  - intros z. rewrite A. case_decide; [by constructor|done].
  - intros h. unfold GetLogs in *. by rewrite F2.
Qed.

(** The journal grows. *)
Lemma inv_append s e : inv s → entry_ok e → inv (append_journal e s).
Proof. intros [H1 H2 H3] He. split; [done|done|]. cbn. apply Forall_app. by split; [|constructor]. Qed.

Lemma matches_append s e a : matches s a → matches (append_journal e s) a.
Proof. by intros []. Qed.

Lemma acc_cases s a x : matches s a → acc s x = None → a_acc a x = None.
Proof. intros [M _ _ _ _] E. specialize (M x). rewrite E in M. by inversion M. Qed.

Lemma acc_some s a x v : matches s a → acc s x = Some v → ∃ w, a_acc a x = Some w ∧ aobj_eq v w.
Proof. intros [M _ _ _ _] E. specialize (M x). rewrite E in M. inversion M; subst; eauto. Qed.

Lemma view_fresh x : aobj_eq (view (newObject x zero_hash)) fresh.
Proof.
  split; [|done]. intros k. unfold view, storage_of, the_trie. cbn [ao_storage fresh so_cachedStorage newObject so_trie so_addrHash so_Root].
  destruct (Hzero (keccak256 x)) as (t & -> & Ht). rewrite lookup_empty. cbn [mbind option_bind]. by rewrite Ht.
Qed.

Lemma newObject_fine x r : fine x (newObject x r).
Proof. by split_and!. Qed.

(** createObject: the account is new whatever was there. *)
Lemma createObject_spec x s a :
  inv s → matches s a → ∃ prev s' es, createObject x s = Ok (newObject x zero_hash, prev, s') ∧ reverts s s' es ∧
    matches s' (set_acc x fresh a) ∧ s_stateObjects s' !! x = Some (newObject x zero_hash).
Proof.
  intros Hi Hm. destruct (getStateObject_spec x s Hi) as (r & s1 & E & I1 & S1 & F1 & X).
  pose proof (matches_sim _ _ _ S1 Hm) as M1. unfold createObject. rewrite E. cbn [obind].
  set (e := match r with None => createObjectChange x | Some p => resetObjectChange p end).
  assert (entry_ok e) as He by (destruct r as [p|]; [destruct X as (_ & _ & ? & ? & _)|]; done).
  assert ((match r with None => append_journal (createObjectChange x) s1 | Some p => append_journal (resetObjectChange p) s1 end)
    = append_journal e s1) as -> by (by destruct r).
  set (s2 := append_journal e s1). set (o := newObject x zero_hash). set (s3 := setStateObject o s2).
  pose proof (inv_append s1 e I1 He) as I2.
  destruct (matches_set s2 s3 x o fresh a) as [I3 M3]; [by apply matches_append|by repeat split|done|by apply newObject_fine|apply view_fresh|].
  exists r, s3, [e]. split_and!; [done| |done|apply lookup_insert_eq].
  eapply (reverts_trans s s1 s3 [] [e]); [done|by apply reverts_framed|].
  destruct r as [p|].
  - destruct X as (X1 & X2 & X3 & X4 & X5).
    destruct (replace_one x s3 p (setStateObject p s3) I3 ltac:(by split_and!)) as [I4 A4].
    { subst x. by repeat split. }
    eapply reverts_one; [done|done|done|done|done|]. split; try done. intros z. rewrite A4. case_decide; [subst z; by rewrite X5|].
    destruct (replace_one x s2 o s3 I2 ltac:(apply newObject_fine) ltac:(by repeat split)) as [_ A3]. by rewrite A3, decide_False.
  - destruct (undo_create x s3 s3 I3 I3 ltac:(done)) as (r4 & E4 & _ & _ & _ & I4 & _).
    eapply reverts_one; [done|done|done|exact E4|done|]. injection E4 as <-. split; try done. intros z. unfold acc at 1. cbn.
    destruct (decide (z = x)) as [->|Hne].
    + rewrite lookup_delete_eq, X. unfold acc in X. destruct (s_stateObjects s1 !! x) as [q|] eqn:Eq.
      * destruct (so_deleted q) eqn:Ed; [|done]. destruct (inv_objects s1 I1 x q Eq) as (_ & _ & Hd). by rewrite (Hd Ed).
      * by rewrite X.
    + rewrite lookup_delete_ne, lookup_insert_ne by done. done.
Qed.

(** What an operation that changes the state has to give. *)
Definition does s (a' : astate) (x : state_out (StateDB T)) : Prop :=
  ∃ s' es, x = Ok s' ∧ reverts s s' es ∧ matches s' a'.

Lemma matches_same_acc s a x w :
  matches s a → a_acc a x = Some w → matches s (set_acc x w a).
Proof.
  intros [M1 M2 M3 M4 M5] Hx. split; try done. intros z. cbn. case_decide; [subst z; rewrite <-Hx|]; apply M1.
Qed.

Lemma GetOrNew_spec x s a :
  inv s → matches s a → ∃ o s' es, GetOrNewStateObject x s = Ok (o, s') ∧ reverts s s' es ∧
    matches s' (set_acc x (default fresh (a_acc a x)) a) ∧ fine x o ∧ s_stateObjects s' !! x = Some o ∧
    aobj_eq (view o) (default fresh (a_acc a x)).
Proof.
  intros Hi Hm. destruct (getStateObject_spec x s Hi) as (r & s1 & E & I1 & S1 & F1 & X).
  pose proof (matches_sim _ _ _ S1 Hm) as M1. pose proof (reverts_framed s s1 I1 S1 F1) as R1.
  unfold GetOrNewStateObject. rewrite E. cbn [obind]. destruct r as [o|].
  - destruct X as (X1 & X2 & X3 & X4 & X5). rewrite X4. destruct (acc_some s1 a x _ M1 X5) as (w & Ew & Hw). rewrite Ew.
    exists o, s1, []. split_and!; try done. by apply matches_same_acc.
  - rewrite (acc_cases s1 a x M1 X). destruct (createObject_spec x s1 a I1 M1) as (prev & s2 & es & -> & R2 & M2 & L2). cbn [obind].
    eexists _, s2, _. split_and!; [done|eapply (reverts_trans s s1 s2 []); done|done|apply newObject_fine|done|apply view_fresh].
Qed.

Lemma so_SetState_spec key v x o s a :
  inv s → matches s a → fine x o → s_stateObjects s !! x = Some o →
  does s (set_acc x (set_storage key v (view o)) a) (so_SetState Open key v o s).
Proof.
  intros Hi Hm (Ea & Hok & Hd) Hl. unfold so_SetState.
  destruct (so_GetState_spec key o Hok) as (o1 & -> & Hok1 & Hst & E1 & E2 & E3 & E4 & E5). cbn [obind].
  set (e := storageChange (so_address o1) key (storage_of o key)). set (s1 := append_journal e s).
  assert (fine x o1) as Hf1 by (split_and!; [congruence|done|congruence]).
  destruct (setState_shape key v o1 s1) as (H1 & H2 & H3). rewrite E1, Ea in H2. set (s2 := setState key v o1 s1) in *.
  assert (aobj_eq (view o1) (view o)) as Hv by (split; [exact Hst|done]).
  destruct (matches_set s1 s2 x (with_state key v o1) (set_storage key v (view o)) a) as [I2 M2];
    [by apply matches_append|done|by apply inv_append|done| |].
  { etrans; [apply view_with_state|]. by apply set_storage_eq. }
  exists s2, [e]. split_and!; [done| |done].
  destruct (replace_one x s1 (with_state key v o1) s2 ltac:(by apply inv_append) Hf1 ltac:(done)) as [_ A2].
  assert (getStateObject x s2 = Ok (Some (with_state key v o1), s2)) as Eg.
  { unfold getStateObject. rewrite H2, lookup_insert_eq. cbn. by rewrite E4, Hd. }
  destruct (setState_shape key (storage_of o key) (with_state key v o1) s2) as (G1 & G2 & G3).
  change (so_address (with_state key v o1)) with (so_address o1) in G2. rewrite E1, Ea in G2.
  destruct (replace_one x s2 (with_state key (storage_of o key) (with_state key v o1))
    (setState key (storage_of o key) (with_state key v o1) s2) I2 Hf1 ltac:(done)) as [I3 A3].
  eapply reverts_one; [done|by rewrite (proj1 (framed_env _ _ H3))| |unfold e; cbn [undo]; rewrite E1, Ea, Eg; done|done|].
  { destruct H3 as (_ & _ & _ & _ & _ & ? & ? & ? & ? & ?). by split_and!. }
  destruct H3 as (B1 & B2 & B3 & B4 & _), G3 as (C1 & C2 & C3 & C4 & _).
  split; [| |by rewrite C1, B1| |by rewrite C3, B3|by rewrite C4, B4].
  - intros z. rewrite A3. case_decide as Ez; [subst z|by rewrite A2, decide_False].
    unfold acc. rewrite Hl, Hd. constructor. etrans; [apply view_with_state|]. etrans; [apply set_storage_eq, view_with_state|].
    split; [|cbn; by rewrite E2]. intros k. cbn. case_decide; [by subst|apply Hst].
  - intros k. by rewrite G1, H1.
  - intros h. unfold GetLogs. by rewrite C2, B2.
Qed.

Lemma SetState_spec x key v s a :
  inv s → matches s a →
  does s (set_acc x (set_storage key v (default fresh (a_acc a x))) a) (SetState Open x key v s).
Proof.
  intros Hi Hm. destruct (GetOrNew_spec x s a Hi Hm) as (o & s1 & es & E & R1 & M1 & Hf & Hl & Hv).
  unfold SetState. rewrite E. cbn [obind].
  destruct (so_SetState_spec key v x o s1 _ (rv_inv _ _ _ R1) M1 Hf Hl) as (s2 & es2 & -> & R2 & M2).
  exists s2, (es ++ es2). split_and!; [done|by eapply reverts_trans|].
  destruct M2 as [A1 A2 A3 A4 A5]. split; try done. intros z. specialize (A1 z). cbn in A1 |- *. case_decide; [|done].
  etrans; [exact A1|]. constructor. by apply set_storage_eq.
Qed.

Lemma Suicide_spec x s a :
  inv s → matches s a →
  ∃ b s' es, Suicide x s = Ok (b, s') ∧ reverts s s' es ∧
    match a_acc a x with
    | Some w => b = true ∧ matches s' (set_acc x (AObj (ao_storage w) true) a)
    | None => b = false ∧ matches s' a
    end.
Proof.
  intros Hi Hm. destruct (getStateObject_spec x s Hi) as (r & s1 & E & I1 & S1 & F1 & X).
  pose proof (matches_sim _ _ _ S1 Hm) as M1. pose proof (reverts_framed s s1 I1 S1 F1) as R1.
  unfold Suicide. rewrite E. cbn [obind]. destruct r as [o|].
  2:{ rewrite (acc_cases s1 a x M1 X). by exists false, s1, []. }
  destruct X as (X1 & X2 & X3 & X4 & X5). destruct (acc_some s1 a x _ M1 X5) as (w & -> & Hw).
  set (e := suicideChange x (so_suicided o)). set (s2 := append_journal e s1).
  set (o' := so_with_flags true (so_touched o) (so_deleted o) false o). set (s3 := markSuicided o s2).
  assert (becomes s2 x o' s3) as B3.
  { unfold s3, markSuicided, fire, becomes. cbn [so_onDirty so_with_flags]. subst x. destruct (so_onDirty o); by repeat split. }
  destruct (matches_set s2 s3 x o' (AObj (ao_storage w) true) a) as [I3 M3]; [by apply matches_append|done|by apply inv_append|done| |].
  { split; [|done]. intros k. apply (proj1 Hw). }
  exists true, s3, [e]. split_and!; [done| |done|done].
  eapply (reverts_trans s s1 s3 [] [e]); [done|done|].
  destruct (replace_one x s2 o' s3 ltac:(by apply inv_append) ltac:(done) B3) as [_ A3].
  set (p := so_with_flags (so_suicided o) (so_touched o') (so_deleted o') (so_onDirty o') o').
  destruct (replace_one x s3 p (setStateObject p s3) I3 ltac:(done)) as [I4 A4]; [subst x; by repeat split|].
  destruct B3 as (T3 & O3 & F3). pose proof (framed_env _ _ F3) as (J3 & V3).
  eapply reverts_one; [done|by rewrite J3|done| |exact I4|].
  { unfold e. cbn [undo]. unfold getStateObject. rewrite O3, lookup_insert_eq. cbn [so_deleted o' so_with_flags]. by rewrite X4. }
  destruct F3 as (B1 & B2 & B3 & B4 & _).
  split; [|intros k; change (got (s_trie s3) k = got (s_trie s2) k); by rewrite T3|done|intros h; change (GetLogs h s3 = GetLogs h s2); unfold GetLogs; by rewrite B2|done|done].
  intros z. rewrite A4. case_decide; [subst z; by rewrite X5|]. by rewrite A3, decide_False.
Qed.

Lemma CreateAccount_spec x s a : inv s → matches s a → does s (set_acc x fresh a) (CreateAccount x s).
Proof.
  intros Hi Hm. destruct (createObject_spec x s a Hi Hm) as (prev & s' & es & E & HR & M & _).
  unfold CreateAccount. rewrite E. by exists s', es.
Qed.

Lemma AddBalance_spec x s a :
  inv s → matches s a → does s (set_acc x (default fresh (a_acc a x)) a) (AddBalance x s).
Proof.
  intros Hi Hm. destruct (GetOrNew_spec x s a Hi Hm) as (o & s' & es & E & HR & M & _).
  unfold AddBalance. rewrite E. by exists s', es.
Qed.

Lemma AddLog_spec f s sp :
  inv s → matches s (sp_cur sp) → s_thash s = sp_thash sp ∧ s_bhash s = sp_bhash sp ∧ s_txIndex s = sp_txIndex sp →
  does s (add_log f sp) (Ok (AddLog f s)).
Proof.
  intros Hi Hm (Eth & Ebh & Eti). exists (AddLog f s), [addLogChange (s_thash s)]. destruct Hm as [M1 M2 M3 M4 M5].
  pose proof (inv_append s (addLogChange (s_thash s)) Hi I) as [I1 I2 I3]. split_and!; [done| |].
  - pose proof (undo_log_spec (s_thash s) (AddLog f s)) as HL.
    assert (GetLogs (s_thash s) (AddLog f s) = GetLogs (s_thash s) s ++
      [MkLog f (s_thash s) (s_bhash s) (wrap 64 (s_txIndex s)) (s_logSize s)]) as El by (unfold GetLogs; cbn; by rewrite lookup_insert_eq).
    rewrite El in HL. destruct (_ ++ _) as [|y l] eqn:Eq; [by destruct (GetLogs (s_thash s) s)|].
    destruct HL as (m & Hu & Hm). eapply reverts_one; [by split|done|done|exact Hu|by split|].
    split; try done; [|cbn; lia]. intros h. unfold GetLogs at 1. cbn [s_logs with_logs]. rewrite Hm. case_decide as Eh.
    + subst h. rewrite <-Eq, length_app. cbn. by rewrite Nat.add_sub, take_app_length.
    + unfold GetLogs. cbn. by rewrite lookup_insert_ne.
  - split; try done; cbn; [|by rewrite M4]. intros h. unfold GetLogs in *. cbn. rewrite Eth, Ebh, Eti, M4. case_decide as Eh.
    + subst h. by rewrite lookup_insert_eq, <-M3.
    + by rewrite lookup_insert_ne.
Qed.

Lemma AddPreimage_spec h p s a :
  inv s → matches s a →
  does s (AState (a_acc a) (a_refund a) (a_logs a) (a_logSize a)
           (match a_preimages a !! h with Some _ => a_preimages a | None => <[h := p]> (a_preimages a) end)) (Ok (AddPreimage h p s)).
Proof.
  intros Hi [M1 M2 M3 M4 M5]. unfold AddPreimage. rewrite <-M5. destruct (s_preimages s !! h) as [q|] eqn:E.
  - exists s, []. split_and!; [done|by apply reverts_framed|by split].
  - pose proof (inv_append s (addPreimageChange h) Hi I) as [I1 I2 I3].
    eexists _, [addPreimageChange h]. split_and!; [done| |by split].
    eapply reverts_one; [by split|done|done|done|by split|]. split; try done. cbn. by rewrite delete_insert_id.
Qed.

Lemma AddRefund_spec g s a :
  inv s → matches s a →
  does s (AState (a_acc a) (a_refund a + g) (a_logs a) (a_logSize a) (a_preimages a)) (Ok (AddRefund g s)).
Proof.
  intros Hi [M1 M2 M3 M4 M5]. pose proof (inv_append s (refundChange (s_refund s)) Hi I) as [I1 I2 I3].
  eexists _, [refundChange (s_refund s)]. split_and!; [done| |by split; try done; cbn; rewrite M2].
  eapply reverts_one; [by split|done|done|done|by split|by split].
Qed.

(** *** Reading *)

(** What a reading operation has to give. *)
Definition reads_state {A} s (r : A) (x : state_out (A * StateDB T)) : Prop :=
  ∃ s', x = Ok (r, s') ∧ inv s' ∧ sim s' s ∧ framed s s'.

Lemma Exist_spec x s a :
  inv s → matches s a → reads_state s (bool_decide (is_Some (a_acc a x))) (Exist x s).
Proof.
  intros Hi Hm. destruct (getStateObject_spec x s Hi) as (r & s1 & E & I1 & S1 & F1 & X).
  pose proof (matches_sim _ _ _ S1 Hm) as M1. unfold Exist. rewrite E. cbn [obind]. exists s1. split_and!; try done.
  do 2 f_equal. destruct r as [o|].
  - destruct X as (_ & _ & _ & _ & X). destruct (acc_some _ _ _ _ M1 X) as (w & -> & _). done.
  - by rewrite (acc_cases _ _ _ M1 X).
Qed.

Lemma HasSuicided_spec x s a :
  inv s → matches s a → reads_state s (ao_suicided (default fresh (a_acc a x))) (HasSuicided x s).
Proof.
  intros Hi Hm. destruct (getStateObject_spec x s Hi) as (r & s1 & E & I1 & S1 & F1 & X).
  pose proof (matches_sim _ _ _ S1 Hm) as M1. unfold HasSuicided. rewrite E. cbn [obind]. exists s1. split_and!; try done.
  do 2 f_equal. destruct r as [o|].
  - destruct X as (_ & _ & _ & _ & X). destruct (acc_some _ _ _ _ M1 X) as (w & -> & _ & Hw). done.
  - by rewrite (acc_cases _ _ _ M1 X).
Qed.

Lemma GetState_spec x k s a :
  inv s → matches s a → reads_state s (ao_storage (default fresh (a_acc a x)) k) (GetState Open x k s).
Proof.
  intros Hi Hm. destruct (getStateObject_spec x s Hi) as (r & s1 & E & I1 & S1 & F1 & X).
  pose proof (matches_sim _ _ _ S1 Hm) as M1. unfold GetState. rewrite E. cbn [obind]. destruct r as [o|].
  2:{ rewrite (acc_cases _ _ _ M1 X). by exists s1. }
  destruct X as (X1 & X2 & X3 & X4 & X5). destruct (acc_some _ _ _ _ M1 X5) as (w & -> & Hw).
  destruct (so_GetState_spec k o X3) as (o' & -> & Hok & Hst & E1 & E2 & E3 & E4 & E5). cbn [obind].
  assert (becomes s1 x o' (setStateObject o' s1)) as B by (split; [|split]; [done|cbn; by rewrite E1, X2|by repeat split]).
  destruct (replace_one x s1 o' _ I1 ltac:(split_and!; congruence || done) B) as [I2 A2].
  eexists. split_and!; [do 2 f_equal; apply (proj1 Hw)|done| |].
  - etrans; [|exact S1]. split; try done. intros z. rewrite A2. case_decide; [subst z; rewrite X5; constructor|done]. by split.
  - eapply framed_trans; [exact F1|by repeat split].
Qed.

(** ** The refinement *)

(** A valid revision: undoing the journal down to it gives the saved state. *)
Definition saved_at s (r : revision) (p : Z * astate) : Prop :=
  rev_id r = p.1 ∧ (rev_journalIndex r ≤ length (s_journal s))%nat ∧
  ∃ s0, undo_all (drop (rev_journalIndex r) (s_journal s)) s = Ok s0 ∧ inv s0 ∧ matches s0 p.2.

Definition older (r r' : revision) : Prop := rev_id r < rev_id r' ∧ (rev_journalIndex r ≤ rev_journalIndex r')%nat.

Record refines s (sp : spec) : Prop := {
  rf_inv : inv s;
  rf_cur : matches s (sp_cur sp);
  rf_env : s_thash s = sp_thash sp ∧ s_bhash s = sp_bhash sp ∧ s_txIndex s = sp_txIndex sp;
  rf_next : s_nextRevisionId s = sp_next sp;
  rf_saved : Forall2 (saved_at s) (s_validRevisions s) (sp_saved sp);
  rf_sorted : StronglySorted older (s_validRevisions s);
  rf_below : Forall (λ r, rev_id r < s_nextRevisionId s) (s_validRevisions s)
}.

Lemma saved_reverts s s1 es r p : inv s → reverts s s1 es → saved_at s r p → saved_at s1 r p.
Proof.
  intros Hi [I1 J1 _ (s0 & U & I0 & S0)] (E & Hl & r0 & Ur & Ir & Mr). split_and!; [done|rewrite J1, length_app; lia|].
  rewrite J1, drop_app_le, undo_all_app, U by done. cbn [obind].
  assert (Forall entry_ok (drop (rev_journalIndex r) (s_journal s))) as He by (apply Forall_drop, (inv_journal s Hi)).
  destruct (undo_all_sim _ s s0 r0 Hi I0 ltac:(by symmetry) He Ur) as (r' & -> & S & _ & I' & _).
  exists r'. split_and!; [done|done|]. eapply matches_sim; [by symmetry|done].
Qed.

Lemma refines_change s s1 es sp a :
  refines s sp → reverts s s1 es → matches s1 a → refines s1 (with_cur a sp).
Proof.
  intros [] HR Hm. pose proof (rv_env _ _ _ HR) as (E1 & E2 & E3 & E4 & E5). split; cbn; try done.
  - by apply (rv_inv _ _ _ HR).
  - intuition congruence.
  - congruence.
  - rewrite E1. eapply Forall2_impl; [done|]. intros. by eapply saved_reverts.
  - by rewrite E1.
  - by rewrite E1, E2.
Qed.

Lemma with_cur_id sp : with_cur (sp_cur sp) sp = sp.
Proof. by destruct sp. Qed.

Lemma refines_read s s1 sp : refines s sp → inv s1 → sim s1 s → framed s s1 → refines s1 sp.
Proof.
  intros HR I S F. rewrite <-(with_cur_id sp). eapply (refines_change s s1 []); [done|by apply reverts_framed|].
  eapply matches_sim; [done|apply HR].
Qed.

Lemma saved_same s s' r p :
  inv s → inv s' → sim s s' → s_journal s' = s_journal s → saved_at s r p → saved_at s' r p.
Proof.
  intros Hi Hi' Hs J (E & Hl & r0 & Ur & Ir & Mr). unfold saved_at. rewrite J. split_and!; [done|done|].
  destruct (undo_all_sim _ s s' r0 Hi Hi' Hs ltac:(apply Forall_drop, (inv_journal s Hi)) Ur) as (r' & Er & S & _ & I' & _).
  exists r'. split_and!; [done|done|]. eapply matches_sim; [by symmetry|done].
Qed.

Lemma Snapshot_spec s sp :
  refines s sp → ∃ s', Snapshot s = (sp_next sp, s') ∧
    refines s' (MkSpec (sp_cur sp) (sp_saved sp ++ [(sp_next sp, sp_cur sp)]) (sp_next sp + 1) (sp_thash sp) (sp_bhash sp) (sp_txIndex sp)).
Proof.
  intros [Hi Hm He Hn Hs Ho Hb]. unfold Snapshot. rewrite Hn. eexists. split; [done|].
  set (s' := with_journal _ _ _ _).
  assert (inv s' ∧ matches s' (sp_cur sp)) as [Hi' Hm'] by (destruct Hi, Hm; by split).
  assert (∀ r p, saved_at s r p → saved_at s' r p) as Hsv by (intros r p; by apply saved_same).
  split; cbn; try done.
  - apply Forall2_app; [by eapply Forall2_impl|]. constructor; [|constructor]. split_and!; [done|done|]. cbn.
    rewrite drop_all. by exists s'.
  - apply StronglySorted_app_2; [|done|by repeat constructor]. intros r r' Hr Hr'. apply list_elem_of_singleton in Hr' as ->.
    rewrite Forall_forall in Hb. specialize (Hb r Hr). apply list_elem_of_lookup in Hr as (i & Hi0).
    destruct (Forall2_lookup_l _ _ _ _ _ Hs Hi0) as (p & _ & _ & Hl & _). split; cbn; [lia|done].
  - rewrite Hn in Hb. apply Forall_app. split; [eapply Forall_impl; [done|]; cbn; lia|]. constructor; [cbn; lia|constructor].
Qed.

(** The search of RevertToSnapshot finds what the specification finds. *)
Lemma search_revision s sp revid :
  refines s sp →
  let revs := s_validRevisions s in
  let n := search (length revs) (λ i, match revs !! i with Some r => revid <=? rev_id r | None => true end) 0 (length revs) in
  match list_find (λ p, p.1 = revid) (sp_saved sp) with
  | Some (m, p) => n = m ∧ ∃ r, revs !! n = Some r ∧ rev_id r = revid ∧ saved_at s r p
  | None => ∀ r, revs !! n = Some r → rev_id r ≠ revid
  end.
Proof.
  intros [Hi Hm He Hn Hs Ho Hb] revs n.
  assert (∀ i j r r', (i < j)%nat → revs !! i = Some r → revs !! j = Some r' → older r r') as Hlt
    by (intros i j r r'; by apply sorted_lookup).
  destruct (search_spec (length revs) (λ i, match revs !! i with Some r => revid <=? rev_id r | None => true end) 0 (length revs))
    as (H1 & H2 & H3); [lia|lia| |].
  { intros x y Hxy Hx. destruct (revs !! y) as [r'|] eqn:Ey; [|done]. destruct (decide (x = y)) as [->|]; [by rewrite Ey in Hx|].
    destruct (lookup_lt_is_Some_2 revs x) as [r Er]; [apply lookup_lt_Some in Ey; lia|]. rewrite Er in Hx.
    destruct (Hlt x y r r' ltac:(lia) Er Ey). lia. }
  fold n in H1, H2, H3. destruct (list_find _ _) as [[m p]|] eqn:Ef.
  - apply list_find_Some in Ef as (Em & Ep & _). destruct (Forall2_lookup_r _ _ _ _ _ Hs Em) as (r & Er & Hsr).
    fold revs in Er. assert (rev_id r = revid) as Hid by (rewrite <-Ep; apply Hsr).
    assert (n = m) as Hnm; [|subst m; by split; [|exists r]].
    destruct (lt_eq_lt_dec n m) as [[Hc|]|Hc]; [|done|].
    + destruct (lookup_lt_is_Some_2 revs n) as [r' Er']; [apply lookup_lt_Some in Er; lia|].
      specialize (H3 n ltac:(apply lookup_lt_Some in Er; lia)). rewrite Er' in H3. destruct (Hlt n m r' r Hc Er' Er). lia.
    + specialize (H2 m ltac:(lia)). rewrite Er in H2. lia.
  - apply list_find_None in Ef. intros r Er Hid. destruct (Forall2_lookup_l _ _ _ _ _ Hs Er) as (p & Ep & Hsr).
    eapply (Forall_lookup_1 _ _ _ _ Ef Ep). rewrite <-Hid. symmetry. apply Hsr.
Qed.

Lemma Prepare_spec th bh ti s sp :
  refines s sp → refines (Prepare th bh ti s) (MkSpec (sp_cur sp) (sp_saved sp) (sp_next sp) th bh ti).
Proof.
  intros [Hi Hm He Hn Hs Ho Hb]. set (s' := Prepare th bh ti s).
  assert (inv s' ∧ matches s' (sp_cur sp)) as [Hi' Hm'] by (destruct Hi, Hm; by split).
  split; try done. eapply Forall2_impl; [exact Hs|]. intros r p. by apply saved_same.
Qed.

Lemma saved_cut s s0 j r p q :
  inv s → inv s0 → undo_all (drop j (s_journal s)) s = Ok s0 → (rev_journalIndex r ≤ j ≤ length (s_journal s))%nat →
  saved_at s r p → saved_at (with_journal (take j (s_journal s)) q (s_nextRevisionId s0) s0) r p.
Proof.
  intros Hi Hi0 Hu Hj (E & Hl & r0 & Ur & Ir & Mr). set (s' := with_journal _ _ _ _).
  assert (Forall entry_ok (take j (s_journal s))) as Ht by (apply Forall_take, (inv_journal s Hi)).
  assert (inv s') as Hi' by (destruct Hi0; by split).
  split_and!; [done|cbn; rewrite length_take; lia|]. cbn [s_journal with_journal s'].
  rewrite <-(take_drop j (s_journal s)) in Ur at 1. rewrite drop_app_le, undo_all_app, Hu in Ur by (rewrite length_take; lia).
  cbn [obind] in Ur.
  destruct (undo_all_sim _ s0 s' r0 Hi0 Hi' ltac:(by split) ltac:(by apply Forall_drop) Ur) as (r' & Er & S & _ & I' & _).
  exists r'. split_and!; [done|done|]. eapply matches_sim; [by symmetry|done].
Qed.

Lemma Revert_spec revid s sp :
  refines s sp →
  match list_find (λ p, p.1 = revid) (sp_saved sp) with
  | Some (n, (_, b)) => ∃ s', RevertToSnapshot revid s = Ok s' ∧
      refines s' (MkSpec b (take n (sp_saved sp)) (sp_next sp) (sp_thash sp) (sp_bhash sp) (sp_txIndex sp))
  | None => RevertToSnapshot revid s = Panic
  end.
Proof.
  intros HR. pose proof (search_revision s sp revid HR) as Hsr. cbv zeta in Hsr. destruct HR as [Hi Hm He Hn Hs Ho Hb].
  unfold RevertToSnapshot. set (n := search _ _ _ _) in *. destruct (list_find _ _) as [[m [i b]]|] eqn:Ef.
  2:{ destruct (s_validRevisions s !! n) as [r|] eqn:Er; [|done]. specialize (Hsr r eq_refl).
      destruct (Z.eqb_spec (rev_id r) revid); done. }
  destruct Hsr as (Hnm & r & Er & Hid & E & Hl & s0 & U & I0 & M0). rewrite Er, Hid, Z.eqb_refl. cbn [negb]. rewrite U. cbn [obind].
  destruct (undo_all_sim _ s s s0 Hi Hi ltac:(done) ltac:(apply Forall_drop, (inv_journal s Hi)) U) as (r' & _ & _ & _ & _ & (J & V & N & V1 & V2 & V3) & _).
  rewrite J, <-Hnm. eexists. split; [done|].
  assert (∀ k x, take n (s_validRevisions s) !! k = Some x → older x r) as Hold.
  { intros k x Hk. apply lookup_take_Some in Hk as [Hk Hkn]. by eapply sorted_lookup. }
  split; cbn.
  - destruct I0. split; [done|done|]. apply Forall_take, (inv_journal s Hi).
  - by destruct M0.
  - intuition congruence.
  - congruence.
  - apply Forall2_same_length_lookup_2; [by rewrite !length_take, (Forall2_length _ _ _ Hs)|]. intros k x p Hx Hp.
    pose proof (Hold k x Hx) as [_ Hox]. apply lookup_take_Some in Hx as [Hx _], Hp as [Hp _].
    eapply saved_cut; [done|done|exact U|lia|]. by eapply Forall2_lookup_lr.
  - rewrite <-(take_drop n (s_validRevisions s)) in Ho. by apply StronglySorted_app in Ho as (_ & ? & _).
  - rewrite N. by apply Forall_take.
Qed.

Lemma sdb_step_refines (c : op) s sp :
  refines s sp →
  match spec_step c sp with
  | Some (r, sp') => ∃ s', step Open c s = Ok (r, s') ∧ refines s' sp'
  | None => step Open c s = Panic
  end.
Proof.
  intros HR. pose proof (rf_inv _ _ HR) as Hi. pose proof (rf_cur _ _ HR) as Hm.
  assert (∀ a x, does s a x → ∃ s', x = Ok s' ∧ refines s' (with_cur a sp)) as Hdo.
  { intros a x (s' & es & -> & R & M). exists s'. split; [done|]. by eapply refines_change. }
  assert (∀ {A} (r : A) x, reads_state s r x → ∃ s', x = Ok (r, s') ∧ refines s' sp) as Hread.
  { intros A r x (s' & -> & I & S & F). exists s'. split; [done|]. by eapply refines_read. }
  destruct c as [a k|a k v|a|a|a|a|a|f|h|h p|h|g| |th bh ti| |id]; cbn [spec_step step].
  - destruct (Hread _ _ _ (GetState_spec a k s _ Hi Hm)) as (s' & -> & ?). by exists s'.
  - destruct (Hdo _ _ (SetState_spec a k v s _ Hi Hm)) as (s' & -> & ?). by exists s'.
  - destruct (Hdo _ _ (CreateAccount_spec a s _ Hi Hm)) as (s' & -> & ?). by exists s'.
  - destruct (Hdo _ _ (AddBalance_spec a s _ Hi Hm)) as (s' & -> & ?). by exists s'.
  - destruct (Suicide_spec a s _ Hi Hm) as (b & s' & es & -> & R & M). cbn [obind].
    destruct (a_acc (sp_cur sp) a) as [w|]; destruct M as [-> M]; exists s'; (split; [done|]); [by eapply refines_change|].
    rewrite <-(with_cur_id sp). by eapply refines_change.
  - destruct (Hread _ _ _ (Exist_spec a s _ Hi Hm)) as (s' & -> & ?). by exists s'.
  - destruct (Hread _ _ _ (HasSuicided_spec a s _ Hi Hm)) as (s' & -> & ?). by exists s'.
  - destruct (Hdo _ _ (AddLog_spec f s sp Hi Hm (rf_env _ _ HR))) as (s' & [= <-] & ?). by eexists.
  - exists s. by rewrite (m_logs _ _ Hm).
  - destruct (Hdo _ _ (AddPreimage_spec h p s _ Hi Hm)) as (s' & [= <-] & ?). by eexists.
  - exists s. by rewrite (m_preimages _ _ Hm).
  - destruct (Hdo _ _ (AddRefund_spec g s _ Hi Hm)) as (s' & [= <-] & ?). by eexists.
  - exists s. by rewrite (m_refund _ _ Hm).
  - eexists. split; [done|by apply Prepare_spec].
  - destruct (Snapshot_spec s sp HR) as (s' & -> & ?). by exists s'.
  - pose proof (Revert_spec id s sp HR) as Hrv. destruct (list_find _ _) as [[n [i b]]|]; [|by rewrite Hrv].
    destruct Hrv as (s' & -> & ?). by exists s'.
Qed.

(** C9: the state with its journal implements whole-state snapshots.  Any
    sequence of reads, writes, account creations, suicides, logs, preimages,
    refunds, snapshots and reverts gives the answers of the specification in
    which Snapshot saves everything that can be seen of the state and
    RevertToSnapshot puts it back; it panics exactly when an identifier is not
    one of a snapshot that is still valid. *)
Theorem StateDB_refines ops s sp :
  refines s sp →
  match spec_run ops sp with
  | Some (l, sp') => ∃ s', run Open ops s = Ok (l, s') ∧ refines s' sp'
  | None => run Open ops s = Panic
  end.
Proof.
  revert s sp. induction ops as [|c ops IH]; intros s sp HR; cbn [spec_run run]; [by exists s|].
  pose proof (sdb_step_refines c s sp HR) as Hc. destruct (spec_step c sp) as [[r sp1]|]; [|by rewrite Hc].
  destruct Hc as (s1 & -> & HR1). cbn [obind]. specialize (IH s1 sp1 HR1).
  destruct (spec_run ops sp1) as [[l sp2]|]; [|by rewrite IH]. destruct IH as (s2 & -> & HR2). by exists s2.
Qed.

Lemma refines_New t :
  t_ok t → (∀ k, got t k = None) →
  refines (New t) (MkSpec (AState (λ _, None) 0 (λ _, []) 0 ∅) [] 0 zero_hash zero_hash 0).
Proof.
  intros Ht Hg. split; [| |done|done|constructor|constructor|constructor].
  - split; [done|apply map_Forall_empty|constructor].
  - split; try done. intros x. unfold acc. cbn. rewrite lookup_empty, Hg. constructor.
Qed.
End Revert.

(** ** Example *)

(** Storage tries over an empty database. *)
Definition ex_open (a r : bytes) : trie_out SecureTrie := NewSecure r (λ _, None) 0.

Definition ex_state : StateDB SecureTrie := New (MkSecure ex_new ∅ false).
Definition ex_spec : spec := MkSpec (AState (λ _, None) 0 (λ _, []) 0 ∅) [] 0 zero_hash zero_hash 0.

Definition ex_word (i : Z) : bytes := replicate 31 0 ++ [i].

Definition ex_ops : list op :=
  [OSetState [1] [7] (ex_word 5); OSnapshot; OSetState [1] [7] (ex_word 6); OSetState [2] [7] (ex_word 9); OAddRefund 3;
   OSnapshot; OSuicide [1]; OAddLog [4]; OHasSuicided [1]; ORevert 1; OHasSuicided [1]; OGetState [1] [7]; ORevert 0;
   OGetState [1] [7]; OExist [2]; OGetRefund].

Lemma empty_models {KC : Keccak} t : t_root t = NNil → models t ∅.
Proof. intros E. exists PEmpty. rewrite E. split_and!; [by left|constructor|exact content_empty]. Qed.

Lemma empty_got {KC : Keccak} (t : SecureTrie) k : t_root (sec_trie t) = NNil → got t k = None.
Proof.
  intros E. destruct (models_get _ _ (hashKey k) (empty_models _ E) (proj1 (hashKey_key k))) as (T' & E' & _).
  unfold got. cbn. unfold Secure_TryGet, with_trie. rewrite E'. apply lookup_empty.
Qed.

Lemma ex_open_empty a r t : ex_open a r = Ok t → t_root (sec_trie t) = NNil.
Proof.
  unfold ex_open, NewSecure, Trie.New. destruct (_ && _); cbn [obind resolveHash]; [done|]. by intros [= <-].
Qed.

Definition ex_answers : list answer :=
  [RDone; RInt 0; RDone; RDone; RDone; RInt 1; RBool true; RDone; RBool true; RDone; RBool false;
   RHash (ex_word 6); RDone; RHash (ex_word 5); RBool false; RInt 0].

Lemma ex_spec_run : fst <$> spec_run ex_ops ex_spec = Some ex_answers.
Proof. vm_compute. reflexivity. Qed.

Lemma StateDB_refines_witness : ∃ s, run ex_open ex_ops ex_state = Ok (ex_answers, s).
Proof.
  assert (∀ a r t, ex_open a r = Ok t → good_storage t) as H1.
  { intros a r t E%ex_open_empty. split; [exists ∅; by apply empty_models|]. intros k. by rewrite empty_got. }
  assert (∀ a r, ex_open a r ≠ Panic) as H2.
  { intros a r. unfold ex_open, NewSecure, Trie.New. by destruct (_ && _). }
  assert (∀ a, ∃ t, ex_open a zero_hash = Ok t ∧ ∀ k, got t k = None) as H3.
  { intros a. eexists. split; [reflexivity|]. intros k. by apply empty_got. }
  pose proof (StateDB_refines ex_open H1 H2 H3 ex_ops ex_state ex_spec) as H.
  pose proof ex_spec_run as Hs. destruct (spec_run ex_ops ex_spec) as [[l sp]|]; [|discriminate Hs]. injection Hs as ->.
  destruct H as (s & E & _); [|exists s; exact E].
  apply refines_New; [exists ∅; by apply empty_models|intros k; by apply empty_got].
Defined.
