(* ===== verification/TxPool.v ===== *)
(** * The transaction pool (txpool/tx_pool.go)

    The pool is a set of concurrent maps and bounded channels shared by the
    callers of AddTx, two goroutines for each of the four lanes (a lane is the
    pair of channels [fullCh[i]], [verifyCh[i]]), the miner and a ticker.  The
    methods are functions on the pool; the routines are program counters, and a
    step of the system is one access to a channel, map or set by one of them.
    DupTx, a Range over a concurrent map and the loop of WorkEnded are one step
    each; the order in which Range visits the keys is an argument. *)

From S2P Require Import Prelude TrieNode TrieMap Types.
Local Open Scope Z_scope.

(** What the pool asks of a transaction: Hash answers the same for one pointer. *)
Class PoolTx (Tx : Type) := { txHash : Tx → bytes }.

Definition maxHandleKnownTxs : Z := 2000000.
Definition maxThreadNumber : nat := 4.
Definition laneCapacity : Z := 2000000.
Definition invalidCapacity : Z := 100000.
Definition poolBlockCount : Z := 100.

Inductive pool_error := ErrKnownTransaction | ErrFullChFull.

Section TxPool.
Context {Tx : Type} {HT : PoolTx Tx}.

(** ** The state *)

(** The goroutine of DealTxRoutine that reads fullCh: waiting, about to store
    the transaction in the queue, about to send it to verifyCh. *)
Inductive deal_pc := DWait | DStore (tx : Tx) | DSend (tx : Tx).

(** The goroutine that reads verifyCh: waiting, about to store the transaction
    in pending, about to delete it from the queue. *)
Inductive verify_pc := VWait | VStore (tx : Tx) | VDelete (tx : Tx).

Record lane := Lane {
  fullCh : list Tx;
  l_deal : deal_pc;
  verifyCh : list Tx;
  l_verify : verify_pc
}.

(** handleKnownTx is a variable of the package; there is one pool. *)
Record TxPool := MkPool {
  handleKnownTx : gset bytes;
  lanes : list lane;
  invalidTxCh : list Tx;
  queue : gmap bytes Tx;
  pending : gmap bytes Tx;
  onChain : gmap bytes Z;
  working : gmap Z (list Tx)
}.

Implicit Types (p : TxPool) (tx : Tx) (l : lane).

Definition set_known k p := MkPool k (lanes p) (invalidTxCh p) (queue p) (pending p) (onChain p) (working p).
Definition set_lanes ls p := MkPool (handleKnownTx p) ls (invalidTxCh p) (queue p) (pending p) (onChain p) (working p).
Definition set_invalid c p := MkPool (handleKnownTx p) (lanes p) c (queue p) (pending p) (onChain p) (working p).
Definition set_queue q p := MkPool (handleKnownTx p) (lanes p) (invalidTxCh p) q (pending p) (onChain p) (working p).
Definition set_pending m p := MkPool (handleKnownTx p) (lanes p) (invalidTxCh p) (queue p) m (onChain p) (working p).
Definition set_onChain m p := MkPool (handleKnownTx p) (lanes p) (invalidTxCh p) (queue p) (pending p) m (working p).
Definition set_working m p := MkPool (handleKnownTx p) (lanes p) (invalidTxCh p) (queue p) (pending p) (onChain p) m.

Definition NewTxPool : TxPool :=
  MkPool ∅ (replicate maxThreadNumber (Lane [] DWait [] VWait)) [] ∅ ∅ ∅ ∅.

(** ** Adding transactions *)

Definition known_full (k : gset bytes) : bool := maxHandleKnownTxs <=? Z.of_nat (size k).

Definition KnownTxAdd (hash : bytes) p : TxPool :=
  let p := if known_full (handleKnownTx p) then set_known ∅ p else p in
  set_known ({[hash]} ∪ handleKnownTx p) p.

Definition DupTx tx p : option pool_error :=
  let hash := txHash tx in
  if bool_decide (hash ∈ handleKnownTx p) then Some ErrKnownTransaction
  else if bool_decide (is_Some (queue p !! hash)) then Some ErrKnownTransaction
  else if bool_decide (is_Some (pending p !! hash)) then Some ErrKnownTransaction
  else if bool_decide (is_Some (onChain p !! hash)) then Some ErrKnownTransaction
  else None.

(** A send with a default case: the channel, and whether it was full. *)
Definition try_send (cap : Z) tx (ch : list Tx) : bool * list Tx :=
  if Z.of_nat (length ch) <? cap then (false, ch ++ [tx]) else (true, ch).

Definition sendToFull tx l : bool * lane :=
  let '(full, ch) := try_send laneCapacity tx (fullCh l) in
  (full, Lane ch (l_deal l) (verifyCh l) (l_verify l)).

Definition sendToVerify tx l : bool * lane :=
  let '(full, ch) := try_send laneCapacity tx (verifyCh l) in
  (full, Lane (fullCh l) (l_deal l) ch (l_verify l)).

(** The send to lane [start + try] of the loop of AddTx; there are
    maxThreadNumber lanes, so the index is in range. *)
Definition send_try (start try : nat) tx p : bool * TxPool :=
  let index := ((start + try) mod maxThreadNumber)%nat in
  match lanes p !! index with
  | None => (true, p)
  | Some l =>
      let '(full, l') := sendToFull tx l in
      (full, set_lanes (<[index := l']> (lanes p)) p)
  end.

(** The loop, with [tries] lanes left. *)
Fixpoint send_loop (tries : nat) (start try : nat) tx p : option pool_error * TxPool :=
  match tries with
  | O => (Some ErrFullChFull, p)
  | S tries =>
      let '(full, p') := send_try start try tx p in
      if full then send_loop tries start (S try) tx p else (None, p')
  end.

Definition AddTx_send (start : nat) tx p : option pool_error * TxPool :=
  send_loop maxThreadNumber start 0 tx p.

Definition AddTx (start : nat) tx p : option pool_error * TxPool :=
  match DupTx tx p with
  | Some dup => (Some dup, p)
  | None => AddTx_send start tx (KnownTxAdd (txHash tx) p)
  end.

(** AddTxs goes on after an error; [starts] are the random first lanes. *)
Fixpoint AddTxs (starts : list nat) (txs : list Tx) p : TxPool :=
  match txs with
  | [] => p
  | tx :: txs => AddTxs (tail starts) txs (AddTx (default O (head starts)) tx p).2
  end.

(** ** The lanes (DealTxRoutine) *)

Definition verifyTx tx : bool := true.

(** One access by the goroutine that reads fullCh; [None] while it waits on an
    empty channel.  The result of sendToVerify is dropped. *)
Definition deal_step l (q : gmap bytes Tx) : option (lane * gmap bytes Tx) :=
  match l_deal l with
  | DWait =>
      match fullCh l with
      | [] => None
      | tx :: ch => Some (Lane ch (DStore tx) (verifyCh l) (l_verify l), q)
      end
  | DStore tx => Some (Lane (fullCh l) (DSend tx) (verifyCh l) (l_verify l), <[txHash tx := tx]> q)
  | DSend tx =>
      let '(_, l') := sendToVerify tx l in
      Some (Lane (fullCh l') DWait (verifyCh l') (l_verify l'), q)
  end.

(** One access by the goroutine that reads verifyCh, on its lane and the pool.
    A transaction that does not verify is sent to invalidTxCh, which blocks
    while that channel is full. *)
Definition verify_step l p : option (lane * TxPool) :=
  let next pc ch := Lane (fullCh l) (l_deal l) ch pc in
  match l_verify l with
  | VWait =>
      match verifyCh l with
      | [] => None
      | tx :: ch =>
          if verifyTx tx then Some (next (VStore tx) ch, p)
          else if Z.of_nat (length (invalidTxCh p)) <? invalidCapacity
          then Some (next VWait ch, set_invalid (invalidTxCh p ++ [tx]) p)
          else None
      end
  | VStore tx => Some (next (VDelete tx) (verifyCh l), set_pending (<[txHash tx := tx]> (pending p)) p)
  | VDelete tx => Some (next VWait (verifyCh l), set_queue (delete (txHash tx) (queue p)) p)
  end.

Definition deal (i : nat) p : option TxPool :=
  l ← lanes p !! i;
  '(l', q) ← deal_step l (queue p);
  Some (set_queue q (set_lanes (<[i := l']> (lanes p)) p)).

Definition verify (i : nat) p : option TxPool :=
  l ← lanes p !! i;
  '(l', p') ← verify_step l p;
  Some (set_lanes (<[i := l']> (lanes p')) p').

Definition dealInvalid p : option TxPool :=
  match invalidTxCh p with
  | [] => None
  | _ :: ch => Some (set_invalid ch p)
  end.

(** ** The miner and the chain *)

(** The callback of Pending over the keys in the order Range visits them: the
    transactions taken, and pending without them. *)
Fixpoint take_pending (order : list bytes) (maxtxs : nat) (m : gmap bytes Tx) : list Tx * gmap bytes Tx :=
  match order, maxtxs with
  | k :: order, S n =>
      match m !! k with
      | Some tx =>
          let '(txs, m') := take_pending order n (delete (txHash tx) m) in
          (tx :: txs, m')
      | None => take_pending order (S n) m
      end
  | _, _ => ([], m)
  end.

Definition Pending (order : list bytes) (workid : Z) (maxtxs : nat) p : list Tx * TxPool :=
  let '(txs, m) := take_pending order maxtxs (pending p) in
  let p := set_pending m p in
  (txs, match txs with [] => p | _ => set_working (<[workid := txs]> (working p)) p end).

Definition return_tx (succeed : bool) (blocknumber : Z) p tx : TxPool :=
  if succeed then set_onChain (<[txHash tx := blocknumber]> (onChain p)) p
  else set_pending (<[txHash tx := tx]> (pending p)) p.

Definition WorkEnded (workid blocknumber : Z) (succeed : bool) p : TxPool :=
  match working p !! workid with
  | Some txs =>
      let p := foldl (return_tx succeed blocknumber) p txs in
      set_working (delete workid (working p)) p
  | None => p
  end.

Definition JustPending (number : Z) (txs : list Tx) p : TxPool :=
  foldl (λ p tx, set_pending (delete (txHash tx) (pending p))
                   (set_onChain (<[txHash tx := number]> (onChain p)) p)) p txs.

Definition FitOnChain (curHigh : Z) p : TxPool :=
  set_onChain (filter (λ '(_, number), ¬ (wrap 64 (curHigh + poolBlockCount) < number)) (onChain p)) p.

(** A transaction turned away because the lanes are full is known from then on:
    it is never accepted later. *)
Lemma AddTx_full_known start tx p p' :
  AddTx start tx p = (Some ErrFullChFull, p') → ∀ start', AddTx start' tx p' = (Some ErrKnownTransaction, p').
Proof.
  unfold AddTx. intros E start'. assert (txHash tx ∈ handleKnownTx p') as Hk.
  { revert E. unfold DupTx. repeat (destruct (bool_decide _); [done|]). unfold AddTx_send.
    assert (txHash tx ∈ handleKnownTx (KnownTxAdd (txHash tx) p)) as Hk by (unfold KnownTxAdd; destruct (known_full _); set_solver).
    revert Hk. generalize (KnownTxAdd (txHash tx) p) as q, 0%nat as try. induction maxThreadNumber as [|n IH]; cbn; [congruence|].
    intros q try Hk. destruct (send_try start try tx q) as [[|] q'] eqn:Es; [by apply IH|done]. }
  unfold DupTx. by rewrite bool_decide_true.
Qed.

(** ** Queries *)

Definition Stats p : nat * nat := (size (pending p), size (queue p)).

Definition GetTxByHash (hash : bytes) p : option Tx :=
  match pending p !! hash with
  | Some tx => Some tx
  | None => queue p !! hash
  end.

(** Range over a whole map, in the order it visits the keys. *)
Definition Range (order : list bytes) (m : gmap bytes Tx) : list Tx := omap (λ k, m !! k) order.

Definition Pended (order : list bytes) p : list Tx := Range order (pending p).
Definition Content (order order' : list bytes) p : list Tx * list Tx :=
  (Range order (pending p), Range order' (queue p)).

(** ** The system *)

(** A caller of AddTx: idle, before DupTx, before the three accesses of
    KnownTxAdd (Size, Clear, Add), before the send to lane [start + try],
    returned. *)
Inductive caller :=
| CIdle
| CDup (tx : Tx)
| CSize (tx : Tx)
| CClear (tx : Tx)
| CAdd (tx : Tx)
| CSend (tx : Tx) (start try : nat)
| CDone (tx : Tx) (err : option pool_error).

(** The pool, its callers, and the number of the chain's head block. *)
Record world := World { w_pool : TxPool; w_callers : list caller; w_head : Z }.

Definition caller_step (start : nat) (c : caller) p : option (caller * TxPool) :=
  match c with
  | CDup tx => Some (match DupTx tx p with Some e => CDone tx (Some e) | None => CSize tx end, p)
  | CSize tx => Some (if known_full (handleKnownTx p) then CClear tx else CAdd tx, p)
  | CClear tx => Some (CAdd tx, set_known ∅ p)
  | CAdd tx => Some (CSend tx start 0, set_known ({[txHash tx]} ∪ handleKnownTx p) p)
  | CSend tx start try =>
      if (try <? maxThreadNumber)%nat then
        let '(full, p') := send_try start try tx p in
        Some (if full then (CSend tx start (S try), p) else (CDone tx None, p'))
      else Some (CDone tx (Some ErrFullChFull), p)
  | CIdle | CDone _ _ => None
  end.

(** A caller that runs alone does what AddTx does. *)
Fixpoint caller_run (n start : nat) (c : caller) p : caller * TxPool :=
  match n with
  | O => (c, p)
  | S n => match caller_step start c p with Some (c', p') => caller_run n start c' p' | None => (c, p) end
  end.

Lemma caller_run_done n start tx e p : caller_run n start (CDone tx e) p = (CDone tx e, p).
Proof. by destruct n. Qed.

Lemma caller_run_send tries n start s try tx p :
  (tries + try = maxThreadNumber)%nat → (tries < n)%nat →
  caller_run n start (CSend tx s try) p = let '(e, p') := send_loop tries s try tx p in (CDone tx e, p').
Proof.
  revert n try. induction tries as [|tries IH]; intros [|n] try Ht Hn; [lia| |lia|]; cbn [caller_run caller_step send_loop].
  - rewrite (proj2 (Nat.ltb_ge _ _)) by lia. apply caller_run_done.
  - rewrite (proj2 (Nat.ltb_lt _ _)) by lia. destruct (send_try s try tx p) as [[|] q]; [|apply caller_run_done].
    apply IH; lia.
Qed.

Lemma AddTx_alone start tx p :
  caller_run 9 start (CDup tx) p = let '(e, p') := AddTx start tx p in (CDone tx e, p').
Proof.
  unfold AddTx. cbn [caller_run caller_step]. destruct (DupTx tx p) as [e|]; [done|]. unfold KnownTxAdd, AddTx_send.
  cbn [caller_step]. destruct (known_full (handleKnownTx p)); cbn [caller_step].
  - apply (caller_run_send maxThreadNumber 5); unfold maxThreadNumber; lia.
  - apply (caller_run_send maxThreadNumber 6); unfold maxThreadNumber; lia.
Qed.

Inductive action :=
| ACall (c : nat) (tx : Tx)
| ACaller (c start : nat)
| ADeal (i : nat)
| AVerify (i : nat)
| AInvalid
| APending (order : list bytes) (workid : Z) (maxtxs : nat)
| AWorkEnded (workid blocknumber : Z) (succeed : bool)
| AFitOnChain
| AHead (number : Z).

Definition exec (a : action) (w : world) : option world :=
  let '(World p cs h) := w in
  match a with
  | ACall c tx =>
      pc ← cs !! c;
      match pc with CIdle | CDone _ _ => Some (World p (<[c := CDup tx]> cs) h) | _ => None end
  | ACaller c start =>
      pc ← cs !! c;
      '(pc', p') ← caller_step start pc p;
      Some (World p' (<[c := pc']> cs) h)
  | ADeal i => p' ← deal i p; Some (World p' cs h)
  | AVerify i => p' ← verify i p; Some (World p' cs h)
  | AInvalid => p' ← dealInvalid p; Some (World p' cs h)
  | APending order workid maxtxs => Some (World (Pending order workid maxtxs p).2 cs h)
  | AWorkEnded workid n succeed => Some (World (WorkEnded workid n succeed p) cs h)
  | AFitOnChain => Some (World (FitOnChain h p) cs h)
  | AHead n => Some (World p cs n)
  end.

Definition start_world (callers : nat) (number : Z) : world :=
  World NewTxPool (replicate callers CIdle) number.

(** What the worker and the chain guarantee: a work id (the time in
    nanoseconds) is not in use, a work succeeds after its block is written, the
    head moves forward. *)
Definition allowed (a : action) (w : world) : Prop :=
  match a with
  | APending _ workid _ => working (w_pool w) !! workid = None
  | AWorkEnded _ n true => n ≤ w_head w
  | AHead n => w_head w ≤ n < 2 ^ 64 - poolBlockCount
  | _ => True
  end.

#[global] Instance allowed_dec a w : Decision (allowed a w).
Proof. destruct a as [| | | | | |? ? []| |]; cbn; apply _. Defined.

Inductive step : world → action → world → Prop :=
| step_exec a w w' : allowed a w → exec a w = Some w' → step w a w'.

Inductive steps : world → list action → world → Prop :=
| steps_nil w : steps w [] w
| steps_cons w a w1 acts w2 : step w a w1 → steps w1 acts w2 → steps w (a :: acts) w2.

(** A schedule, executed. *)
Fixpoint run (acts : list action) (w : world) : option world :=
  match acts with
  | [] => Some w
  | a :: acts => if decide (allowed a w) then w1 ← exec a w; run acts w1 else None
  end.

Lemma run_steps acts w w' : run acts w = Some w' → steps w acts w'.
Proof.
  revert w. induction acts as [|a acts IH]; intros w; cbn [run].
  - intros [= ->]. constructor.
  - destruct (decide (allowed a w)); [|done]. destruct (exec a w) as [w1|] eqn:E; [|done].
    intros H. econstructor; [by constructor|by apply IH].
Qed.
End TxPool.

Arguments deal_pc : clear implicits.
Arguments verify_pc : clear implicits.
Arguments lane : clear implicits.
Arguments TxPool : clear implicits.
Arguments caller : clear implicits.
Arguments world : clear implicits.
Arguments action : clear implicits.

#[export] Instance Transaction_PoolTx {KC : Keccak} : PoolTx Transaction :=
  {| txHash tx := match Transaction_Hash tx with Ok (h, _) => h | _ => [] end |}.
