(* ===== verification/TxPoolSafe.v ===== *)
(** * What the transaction pool guarantees (txpool/tx_pool.go)

    Invariants of the reachable states by induction on the steps: an accepted
    transaction is never lost, the channels and the set of known hashes stay
    within their bounds, one caller never gets a transaction mined twice, and
    the lanes drain. *)

From S2P Require Import Prelude RlpSpec TrieNode TrieMap Types TxPool.
Local Open Scope Z_scope.

Section Pool.
Context {Tx : Type} {HT : PoolTx Tx}.
Implicit Types (p : TxPool Tx) (tx : Tx) (l : lane Tx) (w : world Tx) (a : action Tx) (h : bytes).

(** ** Where a transaction is *)

Definition deal_txs (pc : deal_pc Tx) : list Tx := match pc with DWait => [] | DStore tx | DSend tx => [tx] end.
Definition verify_txs (pc : verify_pc Tx) : list Tx := match pc with VStore tx => [tx] | _ => [] end.
Definition lane_txs l : list Tx := fullCh l ++ deal_txs (l_deal l) ++ verifyCh l ++ verify_txs (l_verify l).

Definition in_lanes h p : Prop := ∃ i l tx, lanes p !! i = Some l ∧ tx ∈ lane_txs l ∧ txHash tx = h.

(** Pending, handed to the miner, or on the chain. *)
Definition settled h p : Prop :=
  is_Some (pending p !! h) ∨
  (∃ id txs tx, working p !! id = Some txs ∧ tx ∈ txs ∧ txHash tx = h) ∨
  is_Some (onChain p !! h).

Definition located h p : Prop := in_lanes h p ∨ is_Some (queue p !! h) ∨ settled h p.

Definition keyed (m : gmap bytes Tx) : Prop := ∀ k tx, m !! k = Some tx → txHash tx = k.

Record pool_inv w : Prop := {
  inv_queue : keyed (queue (w_pool w));
  inv_pending : keyed (pending (w_pool w));
  inv_deal i l tx : lanes (w_pool w) !! i = Some l → l_deal l = DSend tx →
    is_Some (queue (w_pool w) !! txHash tx) ∨ settled (txHash tx) (w_pool w);
  inv_verify i l tx : lanes (w_pool w) !! i = Some l → l_verify l = VDelete tx → settled (txHash tx) (w_pool w);
  inv_chain h n : onChain (w_pool w) !! h = Some n → n ≤ w_head w;
  inv_head : 0 ≤ w_head w < 2 ^ 64 - poolBlockCount
}.

(** ** Maps of transactions by hash *)

Lemma keyed_empty : keyed ∅.
Proof. intros k tx. by rewrite lookup_empty. Qed.

Lemma keyed_insert m tx : keyed m → keyed (<[txHash tx := tx]> m).
Proof. intros Hm k tx'. rewrite lookup_insert_Some. intros [[<- <-]|[_ ?]]; [done|by apply Hm]. Qed.

Lemma keyed_delete m h : keyed m → keyed (delete h m).
Proof. intros Hm k tx. rewrite lookup_delete_Some. intros [_ ?]. by apply Hm. Qed.

Lemma is_Some_insert {A} (m : gmap bytes A) k h x : is_Some (m !! h) → is_Some (<[k := x]> m !! h).
Proof. intros Hm. destruct (decide (k = h)) as [->|]; [by rewrite lookup_insert_eq|by rewrite lookup_insert_ne]. Qed.

(** ** Taking from pending and returning *)

Lemma take_pending_keyed order n m : keyed m → keyed (take_pending order n m).2.
Proof.
  revert n m. induction order as [|k order IH]; intros [|n] m Hm; cbn; [done..|].
  destruct (m !! k) as [tx|]; [|by apply IH].
  specialize (IH n (delete (txHash tx) m)). destruct (take_pending _ _ _) as [txs m']. by apply IH, keyed_delete.
Qed.

(** Every entry is either taken or left. *)
Lemma take_pending_split order n m h tx :
  keyed m → m !! h = Some tx →
  tx ∈ (take_pending order n m).1 ∨ (take_pending order n m).2 !! h = Some tx.
Proof.
  intros Hm. revert n m Hm. induction order as [|k order IH]; intros [|n] m Hm Hh; cbn; [by right..|].
  destruct (m !! k) as [tx'|] eqn:Ek; [|by apply IH].
  specialize (IH n (delete (txHash tx') m) (keyed_delete _ _ Hm)).
  destruct (take_pending _ _ _) as [txs m'] eqn:Et. cbn in *.
  destruct (decide (txHash tx' = h)) as [<-|Hne].
  - left. rewrite (Hm _ _ Ek) in Hh. simplify_eq. by left.
  - rewrite lookup_delete_ne in IH by done. destruct (IH Hh); [left; by right|by right].
Qed.

Lemma take_pending_max order n m : (length (take_pending order n m).1 ≤ n)%nat.
Proof.
  revert n m. induction order as [|k order IH]; intros [|n] m; cbn; [lia..|].
  destruct (m !! k) as [tx|]; [|apply IH].
  specialize (IH n (delete (txHash tx) m)). destruct (take_pending _ _ _). cbn in *. lia.
Qed.

Lemma return_txs_fields succeed n txs p :
  let p' := foldl (return_tx succeed n) p txs in
  handleKnownTx p' = handleKnownTx p ∧ lanes p' = lanes p ∧ queue p' = queue p ∧ working p' = working p ∧
  invalidTxCh p' = invalidTxCh p.
Proof.
  revert p. induction txs as [|tx txs IH]; intros p; cbn; [done|].
  destruct (IH (return_tx succeed n p tx)) as (-> & -> & -> & -> & ->). by destruct succeed.
Qed.

Lemma return_txs_maps succeed n txs p :
  let p' := foldl (return_tx succeed n) p txs in
  pending p' = (if succeed then pending p else foldl (λ m tx, <[txHash tx := tx]> m) (pending p) txs) ∧
  onChain p' = (if succeed then foldl (λ m tx, <[txHash tx := n]> m) (onChain p) txs else onChain p).
Proof.
  revert p. induction txs as [|tx txs IH]; intros p; cbn; [by destruct succeed|].
  destruct (IH (return_tx succeed n p tx)) as [-> ->]. by destruct succeed.
Qed.

(** Storing a list of transactions under their hashes. *)
Lemma store_txs_dom {A} (f : Tx → A) (txs : list Tx) (m : gmap bytes A) h :
  is_Some (foldl (λ m tx, <[txHash tx := f tx]> m) m txs !! h) ↔ is_Some (m !! h) ∨ h ∈ map txHash txs.
Proof.
  revert m. induction txs as [|tx txs IH]; intros m; cbn [foldl map]; [set_solver|].
  rewrite IH, elem_of_cons, lookup_insert_is_Some'. naive_solver.
Qed.

Lemma store_txs_lookup {A} (f : Tx → A) (txs : list Tx) (m : gmap bytes A) h x :
  foldl (λ m tx, <[txHash tx := f tx]> m) m txs !! h = Some x →
  m !! h = Some x ∨ ∃ tx, tx ∈ txs ∧ txHash tx = h ∧ x = f tx.
Proof.
  revert m. induction txs as [|tx txs IH]; intros m; cbn [foldl]; [by left|].
  intros [Hm|(tx' & ? & ? & ?)]%IH; [|right; exists tx'; set_solver].
  apply lookup_insert_Some in Hm as [[<- <-]|[_ ?]]; [right; exists tx; set_solver|by left].
Qed.

(** ** The steps *)

Lemma send_try_false start try tx p p' :
  send_try start try tx p = (false, p') →
  ∃ i l, lanes p !! i = Some l ∧ Z.of_nat (length (fullCh l)) < laneCapacity ∧
    p' = set_lanes (<[i := Lane (fullCh l ++ [tx]) (l_deal l) (verifyCh l) (l_verify l)]> (lanes p)) p.
Proof.
  unfold send_try. set (i := (_ mod _)%nat). destruct (lanes p !! i) as [l|] eqn:El; [|done].
  unfold sendToFull, try_send. case_cmp; [|done]. intros [= <-]. eauto.
Qed.

(** Whether a step sends a transaction to a lane or changes the known hashes. *)
Inductive label := LSend (tx : Tx) | LKnown | LOther.

(** What one access of a goroutine of lane [i], in state [l], does to the pool. *)
Inductive lane_effect (i : nat) l p : TxPool Tx → Prop :=
| eff_receive tx ch : l_deal l = DWait → fullCh l = tx :: ch →
    lane_effect i l p (set_lanes (<[i := Lane ch (DStore tx) (verifyCh l) (l_verify l)]> (lanes p)) p)
| eff_queue tx : l_deal l = DStore tx →
    lane_effect i l p (set_queue (<[txHash tx := tx]> (queue p))
      (set_lanes (<[i := Lane (fullCh l) (DSend tx) (verifyCh l) (l_verify l)]> (lanes p)) p))
| eff_verify tx : l_deal l = DSend tx → Z.of_nat (length (verifyCh l)) < laneCapacity →
    lane_effect i l p (set_lanes (<[i := Lane (fullCh l) DWait (verifyCh l ++ [tx]) (l_verify l)]> (lanes p)) p)
| eff_drop tx : l_deal l = DSend tx → laneCapacity ≤ Z.of_nat (length (verifyCh l)) →
    lane_effect i l p (set_lanes (<[i := Lane (fullCh l) DWait (verifyCh l) (l_verify l)]> (lanes p)) p)
| eff_check tx ch : l_verify l = VWait → verifyCh l = tx :: ch →
    lane_effect i l p (set_lanes (<[i := Lane (fullCh l) (l_deal l) ch (VStore tx)]> (lanes p)) p)
| eff_pend tx : l_verify l = VStore tx →
    lane_effect i l p (set_lanes (<[i := Lane (fullCh l) (l_deal l) (verifyCh l) (VDelete tx)]> (lanes p))
      (set_pending (<[txHash tx := tx]> (pending p)) p))
| eff_dequeue tx : l_verify l = VDelete tx →
    lane_effect i l p (set_lanes (<[i := Lane (fullCh l) (l_deal l) (verifyCh l) VWait]> (lanes p))
      (set_queue (delete (txHash tx) (queue p)) p)).

(** What one step does to the pool while the head of the chain is [hd]. *)
Inductive effect (hd : Z) p : label → TxPool Tx → Prop :=
| eff_none : effect hd p LOther p
| eff_known k : effect hd p LKnown (set_known k p)
| eff_send tx i l : lanes p !! i = Some l → Z.of_nat (length (fullCh l)) < laneCapacity →
    effect hd p (LSend tx) (set_lanes (<[i := Lane (fullCh l ++ [tx]) (l_deal l) (verifyCh l) (l_verify l)]> (lanes p)) p)
| eff_lane i l p' : lanes p !! i = Some l → lane_effect i l p p' → effect hd p LOther p'
| eff_invalid tx ch : invalidTxCh p = tx :: ch → effect hd p LOther (set_invalid ch p)
| eff_take order id n : working p !! id = None → effect hd p LOther (Pending order id n p).2
| eff_ended id n (succeed : bool) : (if succeed then n ≤ hd else True) → effect hd p LOther (WorkEnded id n succeed p)
| eff_fit : effect hd p LOther (FitOnChain hd p).

(** All the cases of an effect, the accesses of a lane one by one. *)
Ltac effect_cases He :=
  destruct He as [|k|tx i l Hi Hc|i l p' Hi [tx ch Hd Hc|tx Hd|tx Hd Hc|tx Hd Hc|tx ch Hd Hc|tx Hd|tx Hd]
                 |tx ch Hch|order id n Hid|id n succeed Hn|].

Lemma deal_effect i p p' : deal i p = Some p' → ∃ l, lanes p !! i = Some l ∧ lane_effect i l p p'.
Proof.
  unfold deal. destruct (lanes p !! i) as [l|] eqn:El; cbn; [|done]. unfold deal_step. intros E. exists l. split; [done|].
  revert E. destruct (l_deal l) as [|tx|tx] eqn:Ed.
  - destruct (fullCh l) as [|tx ch] eqn:Ef; [done|]. intros [= <-]. pose proof (eff_receive i l p tx ch). by destruct p; auto.
  - intros [= <-]. pose proof (eff_queue i l p tx). by destruct p; auto.
  - unfold sendToVerify, try_send. case_cmp; cbn; intros [= <-];
      [pose proof (eff_verify i l p tx)|pose proof (eff_drop i l p tx)]; destruct p; auto.
Qed.

Lemma verify_effect i p p' : verify i p = Some p' → ∃ l, lanes p !! i = Some l ∧ lane_effect i l p p'.
Proof.
  unfold verify. destruct (lanes p !! i) as [l|] eqn:El; cbn; [|done]. unfold verify_step. intros E. exists l. split; [done|].
  revert E. destruct (l_verify l) as [|tx|tx] eqn:Ev; [destruct (verifyCh l) as [|tx ch] eqn:Ec; [done|]|..];
    intros [= <-]; by econstructor.
Qed.

Lemma caller_step_effect hd start c p c' p' : caller_step start c p = Some (c', p') → ∃ lb, effect hd p lb p'.
Proof.
  destruct c as [|tx|tx|tx|tx|tx s t|tx e]; cbn [caller_step]; try done; try (intros [= <- <-]; eexists; constructor).
  destruct (_ <? _)%nat; [|intros [= <- <-]; eexists; constructor].
  destruct (send_try s t tx p) as [[|] q] eqn:Es; intros [= <- <-]; [eexists; constructor|].
  apply send_try_false in Es as (i & l & ? & ? & ->). eexists. by econstructor.
Qed.

(** One step: of a caller, or of another part of the system. *)
Lemma step_cases w a w' : step w a w' →
  (∃ c start pc pc', a = ACaller c start ∧ w_callers w !! c = Some pc ∧
     caller_step start pc (w_pool w) = Some (pc', w_pool w') ∧
     w_callers w' = <[c := pc']> (w_callers w) ∧ w_head w' = w_head w) ∨
  (∃ c tx, a = ACall c tx ∧ (w_callers w !! c = Some CIdle ∨ ∃ t e, w_callers w !! c = Some (CDone t e)) ∧
     w' = World (w_pool w) (<[c := CDup tx]> (w_callers w)) (w_head w)) ∨
  ((∀ c tx, a ≠ ACall c tx) ∧ effect (w_head w) (w_pool w) LOther (w_pool w') ∧ w_callers w' = w_callers w ∧
     w_head w ≤ w_head w' ∧ (w_head w' = w_head w ∨ w_head w' < 2 ^ 64 - poolBlockCount)).
Proof.
  intros [a' v v' Ha E]. destruct v as [p cs hd]. revert E. cbn [w_pool w_head w_callers] in *.
  destruct a' as [c tx|c start|i|i| |order id n|id n b| |n]; cbn [exec allowed w_head] in *.
  - destruct (cs !! c) as [pc|] eqn:Ec; cbn; [|done]. intros E. right; left. exists c, tx.
    destruct pc; simplify_eq/=; eauto 6.
  - destruct (cs !! c) as [pc|] eqn:Ep; cbn; [|done]. destruct (caller_step start pc p) as [[pc' p']|] eqn:Ec; [|done].
    intros [= <-]. left. eauto 10.
  - destruct (deal i p) as [p'|] eqn:Ed; [|done]. intros [= <-]. right; right.
    destruct (deal_effect _ _ _ Ed) as (l & ? & ?). cbn. eauto using eff_lane with lia.
  - destruct (verify i p) as [p'|] eqn:Ev; [|done]. intros [= <-]. right; right.
    destruct (verify_effect _ _ _ Ev) as (l & ? & ?). cbn. eauto using eff_lane with lia.
  - unfold dealInvalid. destruct (invalidTxCh p) eqn:Ei; [done|]. intros [= <-]. right; right. cbn. eauto using eff_invalid with lia.
  - intros [= <-]. right; right. cbn -[Pending]. eauto using eff_take with lia.
  - intros [= <-]. right; right. cbn -[WorkEnded]. split; [done|]. split; [|eauto with lia]. constructor. by destruct b.
  - intros [= <-]. right; right. cbn. eauto using eff_fit with lia.
  - intros [= <-]. right; right. cbn. eauto using eff_none with lia.
Qed.

Lemma step_effect w a w' : step w a w' → ∃ lb, effect (w_head w) (w_pool w) lb (w_pool w').
Proof.
  intros [(c & s & pc & pc' & _ & _ & Ec & _)|[(c & tx & _ & _ & ->)|(_ & He & _)]]%step_cases;
    eauto using caller_step_effect, eff_none.
Qed.

(** ** What is settled stays settled *)

Lemma settled_fields h p p' :
  pending p' = pending p → working p' = working p → onChain p' = onChain p → settled h p → settled h p'.
Proof. unfold settled. by intros -> -> ->. Qed.

Lemma settled_store h tx p q : settled h p →
  pending q = <[txHash tx := tx]> (pending p) → working q = working p → onChain q = onChain p → settled h q.
Proof. unfold settled. intros H -> -> ->. destruct H as [?|?]; [left; by apply is_Some_insert|by right]. Qed.

Lemma settled_Pending h order id n p :
  keyed (pending p) → working p !! id = None → settled h p → settled h (Pending order id n p).2.
Proof.
  intros Hk Hid Hs. unfold Pending, settled in *.
  assert (∀ tx, pending p !! h = Some tx →
    tx ∈ (take_pending order n (pending p)).1 ∨ (take_pending order n (pending p)).2 !! h = Some tx) as Hsplit
    by (intros; by apply take_pending_split).
  destruct (take_pending _ _ _) as [[|t txs] m]; cbn in *.
  - destruct Hs as [[tx E]|?]; [|by right]. destruct (Hsplit tx E) as [?%elem_of_nil|?]; [done|left; eauto].
  - destruct Hs as [[tx E]|[(id' & txs' & tx & E & Hin & Ht)|?]]; [| |by right; right].
    + destruct (Hsplit tx E) as [Hin|?]; [|left; eauto]. right; left. exists id, (t :: txs), tx.
      by rewrite lookup_insert_eq, (Hk _ _ E).
    + right; left. exists id', txs', tx. rewrite lookup_insert_ne by congruence. done.
Qed.

Lemma WorkEnded_fields id n succeed p :
  let p' := WorkEnded id n succeed p in
  handleKnownTx p' = handleKnownTx p ∧ lanes p' = lanes p ∧ queue p' = queue p ∧ invalidTxCh p' = invalidTxCh p ∧
  working p' = delete id (working p).
Proof.
  unfold WorkEnded. destruct (working p !! id) as [txs|] eqn:Ew; cbn; [|by rewrite delete_id].
  destruct (return_txs_fields succeed n txs p) as (-> & -> & -> & -> & ->). done.
Qed.

Lemma WorkEnded_maps id n succeed p :
  let txs := default [] (working p !! id) in
  pending (WorkEnded id n succeed p) =
    (if succeed then pending p else foldl (λ m tx, <[txHash tx := tx]> m) (pending p) txs) ∧
  onChain (WorkEnded id n succeed p) =
    (if succeed then foldl (λ m tx, <[txHash tx := n]> m) (onChain p) txs else onChain p).
Proof.
  unfold WorkEnded. destruct (working p !! id) as [txs|]; cbn; [|by destruct succeed]. apply return_txs_maps.
Qed.

Lemma settled_WorkEnded h id n succeed p : settled h p → settled h (WorkEnded id n succeed p).
Proof.
  intros Hs. unfold settled in *. destruct (WorkEnded_maps id n succeed p) as [-> ->].
  destruct (WorkEnded_fields id n succeed p) as (_ & _ & _ & _ & ->).
  destruct Hs as [Hp|[(id' & txs & tx & E & Hin & Ht)|Hc]].
  - left. destruct succeed; [done|]. apply store_txs_dom. by left.
  - destruct (decide (id = id')) as [<-|]; [|right; left; exists id', txs, tx; by rewrite lookup_delete_ne].
    rewrite E. cbn. assert (h ∈ map txHash txs) by (apply list_elem_of_fmap; eauto).
    destruct succeed; [right; right|left]; apply store_txs_dom; by right.
  - right; right. destruct succeed; [|done]. apply store_txs_dom. by left.
Qed.

(** No block above the head is recorded, so FitOnChain evicts nothing. *)
Lemma FitOnChain_id w : pool_inv w → FitOnChain (w_head w) (w_pool w) = w_pool w.
Proof.
  intros Hw. pose proof (inv_head w Hw). unfold FitOnChain. rewrite wrap_small by (unfold poolBlockCount in *; lia).
  rewrite map_filter_id; [by destruct (w_pool w)|].
  intros h n E%(inv_chain w Hw). unfold poolBlockCount in *. lia.
Qed.

Lemma settled_step h w a w' : pool_inv w → step w a w' → settled h (w_pool w) → settled h (w_pool w').
Proof.
  intros Hw [lb He]%step_effect Hs. effect_cases He; try done.
  - by eapply settled_store.
  - by apply settled_Pending; [apply (inv_pending _ Hw)|..].
  - by apply settled_WorkEnded.
  - by rewrite (FitOnChain_id _ Hw).
Qed.

(** ** An accepted transaction is never lost *)

Lemma located_lane h i l l' p q :
  lanes p !! i = Some l → lanes q = <[i := l']> (lanes p) → in_lanes h p →
  (∀ tx, tx ∈ lane_txs l → txHash tx = h → tx ∈ lane_txs l' ∨ is_Some (queue q !! h) ∨ settled h q) → located h q.
Proof.
  intros Hi Hq (j & k & tx & Hj & Hin & Ht) Hl. destruct (decide (i = j)) as [<-|].
  - simplify_eq. destruct (Hl tx Hin eq_refl); [left|by right]. exists i, l', tx.
    rewrite Hq, list_lookup_insert_eq; [done|]. by eapply lookup_lt_Some.
  - left. exists j, k, tx. by rewrite Hq, list_lookup_insert_ne.
Qed.

Lemma Pending_fields order id n p :
  let p' := (Pending order id n p).2 in
  handleKnownTx p' = handleKnownTx p ∧ lanes p' = lanes p ∧ queue p' = queue p ∧ onChain p' = onChain p ∧
  invalidTxCh p' = invalidTxCh p.
Proof. unfold Pending. by destruct (take_pending _ _ _) as [[|] ?]. Qed.

(** An entry leaves the queue when it is settled. *)
Lemma effect_queue hd lb p p' h :
  effect hd p lb p' → (∀ i l tx, lanes p !! i = Some l → l_verify l = VDelete tx → settled (txHash tx) p) →
  is_Some (queue p !! h) → is_Some (queue p' !! h) ∨ settled h p.
Proof.
  intros He Hv Hq. effect_cases He; cbn; auto using is_Some_insert.
  - destruct (decide (txHash tx = h)) as [<-|]; [right; by eapply Hv|left; by rewrite lookup_delete_ne].
  - left. by destruct (Pending_fields order id n p) as (_ & _ & -> & _).
  - left. by destruct (WorkEnded_fields id n succeed p) as (_ & _ & -> & _).
Qed.

(** A step of a routine on lane [i], found by [Hi]. *)
Ltac lane_step Hi Hl := eapply (located_lane _ _ _ _ _ _ Hi); [reflexivity|exact Hl|]; unfold lane_txs; cbn.

Lemma effect_lanes hd lb p p' h :
  effect hd p lb p' → in_lanes h p →
  (∀ i l tx, lanes p !! i = Some l → l_deal l = DSend tx → is_Some (queue p !! txHash tx) ∨ settled (txHash tx) p) →
  located h p' ∨ settled h p.
Proof.
  intros He Hl Hs.
  effect_cases He; try (by left; left).
  - left. lane_step Hi Hl. set_solver.
  - left. lane_step Hi Hl. rewrite Hd, Hc. set_solver.
  - left. lane_step Hi Hl. rewrite Hd. set_solver.
  - left. lane_step Hi Hl. rewrite Hd. set_solver.
  - destruct (decide (txHash tx = h)) as [<-|Hne].
    + destruct (Hs i l tx Hi Hd) as [?|?]; [left; right; by left|by right].
    + left. lane_step Hi Hl. rewrite Hd. set_solver.
  - left. lane_step Hi Hl. rewrite Hd, Hc. set_solver.
  - left. destruct (decide (txHash tx = h)) as [<-|Hne].
    + right; right; left. cbn. by rewrite lookup_insert_eq.
    + lane_step Hi Hl. rewrite Hd. set_solver.
  - left. lane_step Hi Hl. rewrite Hd. set_solver.
  - left; left. unfold in_lanes. by destruct (Pending_fields order id n p) as (_ & -> & _).
  - left; left. unfold in_lanes. by destruct (WorkEnded_fields id n succeed p) as (_ & -> & _).
Qed.

Lemma located_step h w a w' : pool_inv w → step w a w' → located h (w_pool w) → located h (w_pool w').
Proof.
  intros Hw Hst. pose proof (settled_step h w a w' Hw Hst) as Hset. apply step_effect in Hst as [lb He].
  intros [Hl|[Hq|Hs]]; [| |by right; right; apply Hset].
  - destruct (effect_lanes _ _ _ _ _ He Hl (inv_deal w Hw)) as [?|?]; [done|by right; right; apply Hset].
  - destruct (effect_queue _ _ _ _ _ He (inv_verify w Hw) Hq) as [?|?]; [by right; left|by right; right; apply Hset].
Qed.

Lemma step_head w a w' : step w a w' →
  w_head w ≤ w_head w' ∧ (w_head w' = w_head w ∨ w_head w' < 2 ^ 64 - poolBlockCount).
Proof.
  intros [(c & s & pc & pc' & _ & _ & _ & _ & ->)|[(c & tx & _ & _ & ->)|(_ & _ & _ & ?)]]%step_cases; cbn; [lia..|done].
Qed.

(** The invariant on the maps. *)
Lemma effect_keyed hd lb p p' :
  effect hd p lb p' → keyed (queue p) → keyed (pending p) → keyed (queue p') ∧ keyed (pending p').
Proof.
  intros He Hq Hp. effect_cases He; cbn; auto using keyed_insert, keyed_delete.
  - unfold Pending. pose proof (take_pending_keyed order n _ Hp). destruct (take_pending _ _ _) as [[|] ?]; done.
  - destruct (WorkEnded_fields id n succeed p) as (_ & _ & -> & _). destruct (WorkEnded_maps id n succeed p) as [-> _].
    split; [done|]. destruct succeed; [done|]. intros k tx [E|(tx' & _ & <- & ->)]%(store_txs_lookup (λ t, t)); [by apply Hp|done].
Qed.

Lemma effect_chain hd lb p p' :
  effect hd p lb p' → (∀ h n, onChain p !! h = Some n → n ≤ hd) → ∀ h n, onChain p' !! h = Some n → n ≤ hd.
Proof.
  intros He Hall. effect_cases He; cbn; try done.
  - unfold Pending. destruct (take_pending _ _ _) as [[|] ?]; done.
  - destruct (WorkEnded_maps id n succeed p) as [_ ->]. destruct succeed; [|done]. intros h m.
    intros [E|(tx' & _ & _ & ->)]%(store_txs_lookup (λ _, n)); [by eapply Hall|done].
  - intros h n (E & _)%map_lookup_filter_Some. by eapply Hall.
Qed.

(** A goroutine about to send stored the transaction in the queue before; one
    about to delete stored it in pending. *)
Lemma effect_sending hd lb p p' j lj t :
  effect hd p lb p' → lanes p' !! j = Some lj → l_deal lj = DSend t →
  is_Some (queue p' !! txHash t) ∨ ∃ l', lanes p !! j = Some l' ∧ l_deal l' = DSend t.
Proof.
  intros He Hl Hpc. effect_cases He; cbn in Hl |- *; try (by right; eauto);
    try (apply list_lookup_insert_Some in Hl as [(<- & <- & _)|[_ Hl]]; [cbn in Hpc; simplify_eq|by right; eauto]);
    try (by right; eauto).
  - left. by rewrite lookup_insert_eq.
  - destruct (Pending_fields order id n p) as (_ & E & _). rewrite E in Hl. right; eauto.
  - destruct (WorkEnded_fields id n succeed p) as (_ & E & _). rewrite E in Hl. right; eauto.
Qed.

Lemma effect_deleting hd lb p p' j lj t :
  effect hd p lb p' → lanes p' !! j = Some lj → l_verify lj = VDelete t →
  is_Some (pending p' !! txHash t) ∨ ∃ l', lanes p !! j = Some l' ∧ l_verify l' = VDelete t.
Proof.
  intros He Hl Hpc. effect_cases He; cbn in Hl |- *; try (by right; eauto);
    try (apply list_lookup_insert_Some in Hl as [(<- & <- & _)|[_ Hl]]; [cbn in Hpc; simplify_eq|by right; eauto]);
    try (by right; eauto).
  - left. by rewrite lookup_insert_eq.
  - destruct (Pending_fields order id n p) as (_ & E & _). rewrite E in Hl. right; eauto.
  - destruct (WorkEnded_fields id n succeed p) as (_ & E & _). rewrite E in Hl. right; eauto.
Qed.

Lemma pool_inv_step w a w' : pool_inv w → step w a w' → pool_inv w'.
Proof.
  intros Hw Hst. pose proof (λ h, settled_step h w a w' Hw Hst) as Hset.
  destruct (step_head w a w' Hst) as [Hh Hb]. apply step_effect in Hst as [lb He].
  destruct (effect_keyed _ _ _ _ He (inv_queue w Hw) (inv_pending w Hw)) as [Hq Hp].
  constructor; [done|done| | | |].
  - intros i l tx Hl Hd. destruct (effect_sending _ _ _ _ _ _ _ He Hl Hd) as [?|(l' & Hl' & Hd')]; [by left|].
    destruct (inv_deal w Hw _ _ _ Hl' Hd') as [Hqu|?]; [|by right; apply Hset].
    destruct (effect_queue _ _ _ _ _ He (inv_verify w Hw) Hqu) as [?|?]; [by left|by right; apply Hset].
  - intros i l tx Hl Hd. destruct (effect_deleting _ _ _ _ _ _ _ He Hl Hd) as [?|(l' & Hl' & Hd')]; [by left|].
    by eapply Hset, (inv_verify w Hw).
  - intros h n Hn. apply (effect_chain _ _ _ _ He (inv_chain w Hw)) in Hn. lia.
  - pose proof (inv_head w Hw). lia.
Qed.

(** Every call that returned nil has its transaction somewhere. *)
Definition accepted_located w : Prop :=
  ∀ c tx, w_callers w !! c = Some (CDone tx None) → located (txHash tx) (w_pool w).

(** A call that returns nil has put its transaction in a lane. *)
Lemma caller_accepts start c p tx p' :
  caller_step start c p = Some (CDone tx None, p') → in_lanes (txHash tx) p'.
Proof.
  destruct c as [|t|t|t|t|t s n|t e]; cbn [caller_step]; try done.
  - by destruct (DupTx t p).
  - by destruct (known_full _).
  - destruct (_ <? _)%nat; [|done]. destruct (send_try s n t p) as [[|] q] eqn:Es; intros [= -> <-].
    apply send_try_false in Es as (i & l & Hi & _ & ->). eexists i, _, tx. cbn.
    rewrite list_lookup_insert_eq by (by eapply lookup_lt_Some). split; [done|]. split; [|done].
    unfold lane_txs. cbn. set_solver.
Qed.

(** What one step does to the callers. *)
Lemma step_callers w a w' c pc :
  step w a w' → w_callers w' !! c = Some pc →
  w_callers w !! c = Some pc ∨ (∃ tx, pc = CDup tx) ∨
  ∃ start pc0, w_callers w !! c = Some pc0 ∧ caller_step start pc0 (w_pool w) = Some (pc, w_pool w').
Proof.
  intros [(c' & s & pc1 & pc' & _ & Hc' & Es & E & _)|[(c' & tx & _ & _ & ->)|(_ & _ & E & _)]]%step_cases; cbn.
  - rewrite E. intros [(<- & <- & _)|[_ ?]]%list_lookup_insert_Some; [right; right; eauto|by left].
  - intros [(_ & <- & _)|[_ ?]]%list_lookup_insert_Some; [right; left; eauto|by left].
  - rewrite E. by left.
Qed.

Lemma accepted_step w a w' : pool_inv w → accepted_located w → step w a w' → accepted_located w'.
Proof.
  intros Hw Hacc Hst c tx Hc. destruct (step_callers _ _ _ _ _ Hst Hc) as [Hc'|[[? ?]|(start & pc & _ & Es)]]; [|done|].
  - eapply located_step; [done..|]. by eapply Hacc.
  - left. by eapply caller_accepts.
Qed.

Lemma start_inv callers number : 0 ≤ number < 2 ^ 64 - poolBlockCount → pool_inv (start_world callers number).
Proof.
  intros Hn. constructor; cbn [start_world w_pool w_head NewTxPool queue pending lanes onChain]; [apply keyed_empty..| | |by intros h n ?%lookup_empty_Some|done].
  - intros i l tx [-> _]%lookup_replicate. done.
  - intros i l tx [-> _]%lookup_replicate. done.
Qed.

Lemma steps_inv w acts w' :
  steps w acts w' → pool_inv w ∧ accepted_located w → pool_inv w' ∧ accepted_located w'.
Proof. induction 1 as [|w a w1 acts w2 Hst _ IH]; [done|]. intros [? ?]. apply IH. eauto using pool_inv_step, accepted_step. Qed.

Lemma steps_located h w acts w' : steps w acts w' → pool_inv w → located h (w_pool w) → located h (w_pool w').
Proof. induction 1 as [|w a w1 acts w2 Hst _ IH]; [done|]. eauto using pool_inv_step, located_step. Qed.

(** C36: The pool never loses a transaction it accepted.  Whatever the
    interleaving of the callers of AddTx, the goroutines of the lanes, the miner
    and the ticker, as long as work ids are not used twice, a work is reported as
    successful only with a block number up to the head, and the head moves forward,
    once a call of AddTx has returned nil its transaction is in a lane, in the queue,
    pending, handed to the miner or recorded on the chain at every later time.
    The record of a transaction on the chain is kept for ever because
    [FitOnChain] never evicts anything. *)
Theorem accepted_never_lost callers number acts w c tx acts' w' :
  0 ≤ number < 2 ^ 64 - poolBlockCount →
  steps (start_world callers number) acts w → w_callers w !! c = Some (CDone tx None) →
  steps w acts' w' →
  located (txHash tx) (w_pool w') ∧ FitOnChain (w_head w') (w_pool w') = w_pool w'.
Proof.
  intros Hn Hs Hc Hs'. destruct (steps_inv _ _ _ Hs) as [Hw Hacc].
  { split; [by apply start_inv|]. intros c' tx' [? _]%lookup_replicate. done. }
  split; [eapply steps_located; [done..|]; by eapply Hacc|]. by apply FitOnChain_id, (steps_inv _ _ _ Hs').
Qed.

(** ** Bounds *)

Definition is_adding (c : caller Tx) : Z := match c with CAdd _ => 1 | _ => 0 end.

Definition lane_bounded l : Prop :=
  Z.of_nat (length (fullCh l)) ≤ laneCapacity ∧ Z.of_nat (length (verifyCh l)) ≤ laneCapacity.

Record bounded w : Prop := {
  bd_lanes : length (lanes (w_pool w)) = maxThreadNumber;
  bd_lane : Forall lane_bounded (lanes (w_pool w));
  bd_invalid : invalidTxCh (w_pool w) = [];
  bd_known : Z.of_nat (size (handleKnownTx (w_pool w))) + zsum is_adding (w_callers w) <
               maxHandleKnownTxs + Z.of_nat (length (w_callers w))
}.

Lemma is_adding_bounds cs : 0 ≤ zsum is_adding cs ≤ Z.of_nat (length cs).
Proof. induction cs as [|[] cs IH]; cbn [zsum is_adding length]; lia. Qed.

Lemma effect_bounded hd lb p p' :
  effect hd p lb p' → length (lanes p) = maxThreadNumber → Forall lane_bounded (lanes p) → invalidTxCh p = [] →
  length (lanes p') = maxThreadNumber ∧ Forall lane_bounded (lanes p') ∧ invalidTxCh p' = [].
Proof.
  intros He Hlen Hl Hinv.
  assert (∀ i l l', lanes p !! i = Some l → (lane_bounded l → lane_bounded l') →
    length (<[i := l']> (lanes p)) = maxThreadNumber ∧ Forall lane_bounded (<[i := l']> (lanes p)) ∧ invalidTxCh p = [])
    as Hset.
  { intros i l l' El Hll. rewrite length_insert. split; [exact Hlen|]. split; [|exact Hinv]. apply Forall_insert; [done|].
    by eapply Hll, Forall_lookup_1. }
  effect_cases He.
  - auto.
  - auto.
  - apply (Hset i l _ Hi). unfold lane_bounded; cbn. rewrite length_app. cbn. lia.
  - apply (Hset i l _ Hi). unfold lane_bounded; cbn. rewrite Hc. cbn. lia.
  - apply (Hset i l _ Hi). done.
  - apply (Hset i l _ Hi). unfold lane_bounded; cbn. rewrite length_app. cbn. lia.
  - apply (Hset i l _ Hi). done.
  - apply (Hset i l _ Hi). unfold lane_bounded; cbn. rewrite Hc. cbn. lia.
  - apply (Hset i l _ Hi). done.
  - apply (Hset i l _ Hi). done.
  - congruence.
  - by destruct (Pending_fields order id n p) as (_ & -> & _ & _ & ->).
  - by destruct (WorkEnded_fields id n succeed p) as (_ & -> & _ & -> & _).
  - auto.
Qed.

Lemma effect_known hd p p' : effect hd p LOther p' → handleKnownTx p' = handleKnownTx p.
Proof.
  intros He. remember LOther as lb eqn:Elb. effect_cases He; try done.
  - by destruct (Pending_fields order id n p) as (-> & _).
  - by destruct (WorkEnded_fields id n succeed p) as (-> & _).
Qed.

(** A caller that adds has checked the size, or cleared the set. *)
Lemma caller_known w c start pc pc' p' :
  bounded w → w_callers w !! c = Some pc → caller_step start pc (w_pool w) = Some (pc', p') →
  Z.of_nat (size (handleKnownTx p')) + zsum is_adding (<[c := pc']> (w_callers w)) <
    maxHandleKnownTxs + Z.of_nat (length (w_callers w)).
Proof.
  intros Hb Hc Es. pose proof (bd_known w Hb) as Hk.
  pose proof (is_adding_bounds (<[c := pc']> (w_callers w))) as Hn. rewrite length_insert in Hn.
  pose proof (zsum_insert is_adding _ _ _ pc' Hc) as Hz. unfold maxHandleKnownTxs in *. revert Es.
  destruct pc as [|tx|tx|tx|tx|tx s t|tx e]; cbn [caller_step is_adding] in *; try done.
  - destruct (DupTx tx _); intros [= <- <-]; cbn [is_adding] in *; lia.
  - unfold known_full, maxHandleKnownTxs. case_cmp; intros [= <- <-]; cbn [is_adding] in *; lia.
  - intros [= <- <-]. cbn. rewrite size_empty. lia.
  - intros [= <- <-]. cbn [is_adding set_known handleKnownTx] in *.
    assert (size ({[txHash tx]} ∪ handleKnownTx (w_pool w)) ≤ 1 + size (handleKnownTx (w_pool w)))%nat
      by (rewrite size_union_alt, size_singleton; apply Nat.add_le_mono_l, subseteq_size; set_solver).
    lia.
  - destruct (_ <? _)%nat; [|intros [= <- <-]; cbn [is_adding] in *; lia].
    destruct (send_try s t tx _) as [[|] q] eqn:Eq; intros [= <- <-]; [cbn [is_adding] in *; lia|].
    apply send_try_false in Eq as (i & l & _ & _ & ->). cbn [is_adding set_lanes handleKnownTx] in *. lia.
Qed.

Lemma bounded_step w a w' : bounded w → step w a w' → bounded w'.
Proof.
  intros Hb Hst. destruct (step_effect _ _ _ Hst) as [lb He].
  destruct (effect_bounded _ _ _ _ He (bd_lanes w Hb) (bd_lane w Hb) (bd_invalid w Hb)) as (? & ? & ?).
  constructor; [done..|]. pose proof (bd_known w Hb) as Hk.
  destruct (step_cases _ _ _ Hst) as [(c & s & pc & pc' & _ & Hc & Es & -> & _)|[(c & tx & _ & Hc & ->)|(_ & He' & -> & _)]].
  - rewrite length_insert. by eapply caller_known.
  - cbn. rewrite length_insert.
    destruct Hc as [Hc|(t & e & Hc)]; rewrite (zsum_insert is_adding _ _ _ _ Hc); cbn; lia.
  - by rewrite (effect_known _ _ _ He').
Qed.

Lemma step_callers_length w a w' : step w a w' → length (w_callers w') = length (w_callers w).
Proof.
  intros [(c & s & pc & pc' & _ & _ & _ & -> & _)|[(c & tx & _ & _ & ->)|(_ & _ & -> & _)]]%step_cases; cbn;
    by rewrite ?length_insert.
Qed.

Lemma steps_bounded w acts w' :
  steps w acts w' → bounded w → bounded w' ∧ length (w_callers w') = length (w_callers w).
Proof.
  induction 1 as [|w a w1 acts w2 Hst _ IH]; [done|]. intros Hb. rewrite <-(step_callers_length _ _ _ Hst).
  by eapply IH, bounded_step.
Qed.

Lemma start_bounded callers number : bounded (start_world callers number).
Proof.
  constructor; cbn [start_world w_pool w_callers NewTxPool lanes invalidTxCh handleKnownTx].
  - apply length_replicate.
  - apply Forall_replicate. split; cbn; unfold laneCapacity; lia.
  - done.
  - rewrite size_empty, zsum_replicate, length_replicate. cbn [is_adding]. unfold maxHandleKnownTxs. lia.
Qed.

(** The buffers of the pool are bounded in every reachable state: no channel
    of a lane holds more than its 2000000 transactions, nothing is sent to
    invalidTxCh, and with [callers] concurrent callers of AddTx the set of known
    hashes holds fewer than 2000000 + callers entries (its size is checked and
    the hash added in separate accesses, so each concurrent caller can exceed
    the limit by one). *)
Theorem pool_bounded callers number acts w :
  steps (start_world callers number) acts w →
  Forall lane_bounded (lanes (w_pool w)) ∧ invalidTxCh (w_pool w) = [] ∧
  Z.of_nat (size (handleKnownTx (w_pool w))) < maxHandleKnownTxs + Z.of_nat callers.
Proof.
  intros Hs. destruct (steps_bounded _ _ _ Hs (start_bounded _ _)) as [Hb Hn]. cbn in Hn. rewrite length_replicate in Hn.
  split_and!; [apply (bd_lane w Hb)|apply (bd_invalid w Hb)|].
  pose proof (bd_known w Hb). pose proof (is_adding_bounds (w_callers w)). lia.
Qed.
End Pool.

(** ** A run *)

(** A transaction whose hash has been computed and cached. *)
Definition ex_tx : Transaction :=
  Eval vm_compute in match Transaction_Hash (NewTransaction [1; 2; 3]) with Ok (_, tx) => tx | _ => NewTransaction [] end.

(** One call of AddTx on an empty pool returns nil. *)
Definition ex_add : list (action Transaction) := ACall 0 ex_tx :: replicate 4 (ACaller 0 2).

(** Lane 2 brings it to pending, the miner takes it and its block is written. *)
Definition ex_mine : list (action Transaction) :=
  [ADeal 2; ADeal 2; ADeal 2; AVerify 2; AVerify 2; AVerify 2; APending [txHash ex_tx] 77 10; AHead 6;
   AWorkEnded 77 6 true; AFitOnChain].

Definition ex_world (acts : list (action Transaction)) : world Transaction :=
  default (start_world 1 5) (run acts (start_world 1 5)).

Lemma ex_add_run : run ex_add (start_world 1 5) = Some (ex_world ex_add).
Proof. vm_compute. reflexivity. Qed.

Lemma ex_add_done : w_callers (ex_world ex_add) !! 0%nat = Some (CDone ex_tx None).
Proof. vm_compute. reflexivity. Qed.

Lemma ex_mine_run : run ex_mine (ex_world ex_add) = Some (ex_world (ex_add ++ ex_mine)).
Proof. vm_compute. reflexivity. Qed.

Lemma accepted_never_lost_witness : located (txHash ex_tx) (w_pool (ex_world (ex_add ++ ex_mine))).
Proof.
  apply (accepted_never_lost 1 5 ex_add (ex_world ex_add) 0 ex_tx ex_mine (ex_world (ex_add ++ ex_mine))).
  - unfold poolBlockCount. lia.
  - exact (run_steps _ _ _ ex_add_run).
  - exact ex_add_done.
  - exact (run_steps _ _ _ ex_mine_run).
Defined.

Lemma pool_bounded_witness :
  Z.of_nat (size (handleKnownTx (w_pool (ex_world ex_add)))) < maxHandleKnownTxs + Z.of_nat 1.
Proof. apply (pool_bounded 1 5 ex_add (ex_world ex_add)). exact (run_steps _ _ _ ex_add_run). Defined.
