(* ===== verification/TxPoolLive.v ===== *)
(** * Transactions reach the miner, once (txpool/tx_pool.go)

    The goroutines of the lanes bring every transaction they hold to pending in
    a bounded number of accesses, and with one caller of AddTx no transaction
    is in the pool twice. *)

From S2P Require Import Prelude RlpSpec TrieNode TrieMap Types TxPool TxPoolSafe.
Local Open Scope Z_scope.

Section Live.
Context {Tx : Type} {HT : PoolTx Tx}.
Implicit Types (p : TxPool Tx) (tx : Tx) (l : lane Tx) (w : world Tx) (a : action Tx) (h : bytes).

(** ** The lanes drain *)

Definition lane_action a : bool := match a with ADeal _ | AVerify _ => true | _ => false end.

(** The accesses that are left for the transactions of a lane. *)
Definition deal_weight (pc : deal_pc Tx) : Z := match pc with DWait => 0 | DStore _ => 5 | DSend _ => 4 end.
Definition verify_weight (pc : verify_pc Tx) : Z := match pc with VWait => 0 | VStore _ => 2 | VDelete _ => 1 end.
Definition lane_weight l : Z :=
  6 * Z.of_nat (length (fullCh l)) + deal_weight (l_deal l) +
  3 * Z.of_nat (length (verifyCh l)) + verify_weight (l_verify l).
Definition weight p : Z := zsum lane_weight (lanes p).

(** verifyCh has room for what is in front of it. *)
Definition lane_room l : Prop :=
  Z.of_nat (length (fullCh l) + length (deal_txs (l_deal l)) + length (verifyCh l)) ≤ laneCapacity.

#[global] Instance lane_room_dec l : Decision (lane_room l).
Proof. unfold lane_room. apply _. Defined.

Definition lane_idle l : bool :=
  match fullCh l, l_deal l, verifyCh l, l_verify l with [], DWait, [], VWait => true | _, _, _, _ => false end.

Lemma lane_action_effect w a w' :
  lane_action a = true → step w a w' → ∃ i l, lanes (w_pool w) !! i = Some l ∧ lane_effect i l (w_pool w) (w_pool w').
Proof.
  intros Ha Hs. destruct Hs as [a w w' _ E]. destruct w as [p cs hd]. revert E.
  destruct a as [| |i|i| | | | |]; try done; cbn [exec w_pool].
  - destruct (deal i p) as [p'|] eqn:Ed; [|done]. intros [= <-]. exists i. by apply deal_effect.
  - destruct (verify i p) as [p'|] eqn:Ed; [|done]. intros [= <-]. exists i. by apply verify_effect.
Qed.

Lemma lane_weight_nonneg l : 0 ≤ lane_weight l.
Proof. unfold lane_weight. destruct (l_deal l), (l_verify l); cbn; lia. Qed.

Lemma lane_effect_weight i l p p' : lanes p !! i = Some l → lane_effect i l p p' → weight p' < weight p.
Proof.
  intros Hi He. unfold weight.
  destruct He as [tx ch Hd Hc|tx Hd|tx Hd Hc|tx Hd Hc|tx ch Hd Hc|tx Hd|tx Hd]; cbn [lanes set_lanes set_queue set_pending];
    rewrite (zsum_insert lane_weight _ _ _ _ Hi); unfold lane_weight;
    cbn [fullCh verifyCh l_deal l_verify]; rewrite Hd, ?Hc, ?length_app; cbn [deal_weight verify_weight length]; lia.
Qed.

Lemma lane_effect_room i l p p' :
  lanes p !! i = Some l → lane_effect i l p p' → Forall lane_room (lanes p) → Forall lane_room (lanes p').
Proof.
  intros Hi He Hr. assert (lane_room l) as Hl by (by eapply Forall_lookup_1). unfold lane_room in Hl.
  destruct He as [tx ch Hd Hc|tx Hd|tx Hd Hc|tx Hd Hc|tx ch Hd Hc|tx Hd|tx Hd]; cbn [lanes set_lanes set_queue set_pending];
    (apply Forall_insert; [done|]); unfold lane_room; cbn [fullCh verifyCh l_deal]; rewrite ?Hd, ?Hc, ?length_app in *;
    cbn [deal_txs length] in *; lia.
Qed.

(** With room, a transaction of a lane stays in the lanes until it is pending. *)
Lemma lane_effect_arrives h i l p p' :
  lanes p !! i = Some l → lane_effect i l p p' → Forall lane_room (lanes p) →
  in_lanes h p ∨ is_Some (pending p !! h) → in_lanes h p' ∨ is_Some (pending p' !! h).
Proof.
  intros Hi He Hr [Hl|Hp]; [|by right; destruct He; cbn; auto using is_Some_insert].
  assert (lane_room l) as Hroom by (by eapply Forall_lookup_1). unfold lane_room in Hroom.
  assert (∀ l' q, lanes q = <[i := l']> (lanes p) →
    (∀ tx, tx ∈ lane_txs l → txHash tx = h → tx ∈ lane_txs l' ∨ is_Some (pending q !! h)) →
    in_lanes h q ∨ is_Some (pending q !! h)) as Hupd.
  { intros l' q Hq Hin. destruct Hl as (j & k & tx & Hj & Ht & Hh). destruct (decide (i = j)) as [<-|].
    - simplify_eq. destruct (Hin tx Ht eq_refl); [left|by right]. exists i, l', tx.
      rewrite Hq, list_lookup_insert_eq; [done|]. by eapply lookup_lt_Some.
    - left. exists j, k, tx. by rewrite Hq, list_lookup_insert_ne. }
  destruct He as [tx ch Hd Hc|tx Hd|tx Hd Hc|tx Hd Hc|tx ch Hd Hc|tx Hd|tx Hd];
    (eapply Hupd; [reflexivity|]); unfold lane_txs; cbn [fullCh verifyCh l_deal l_verify]; rewrite Hd, ?Hc; cbn;
    intros t Ht Hh.
  - left. set_solver.
  - left. set_solver.
  - left. set_solver.
  - rewrite Hd in Hroom. cbn in Hroom. lia.
  - left. set_solver.
  - destruct (decide (txHash tx = h)) as [<-|]; [right; by rewrite lookup_insert_eq|left; set_solver].
  - left. set_solver.
Qed.

(** A lane that is not idle can move. *)
Lemma lane_moves w i l :
  lanes (w_pool w) !! i = Some l → lane_idle l = false → ∃ a, lane_action a = true ∧ is_Some (exec a w).
Proof.
  destruct w as [p cs hd]. cbn [w_pool]. intros Hi Hidle.
  assert (is_Some (deal i p) ∨ is_Some (verify i p)) as [[p' E]|[p' E]].
  { unfold deal, verify. rewrite Hi. cbn. unfold deal_step, verify_step, lane_idle in *.
    destruct (l_deal l) as [|tx|tx]; [|left; by eexists|left; by destruct (sendToVerify tx l)].
    destruct (fullCh l) as [|tx ch]; [|left; by eexists]. right.
    destruct (l_verify l); [|by eexists..]. destruct (verifyCh l); [done|by eexists]. }
  - exists (ADeal i). split; [done|]. cbn. rewrite E. by eexists.
  - exists (AVerify i). split; [done|]. cbn. rewrite E. by eexists.
Qed.

Lemma idle_empty h p : ¬ Exists (λ l, lane_idle l = false) (lanes p) → ¬ in_lanes h p.
Proof.
  intros Hall (i & l & tx & Hi & Hin & _). destruct (lane_idle l) eqn:El.
  - revert El Hin. unfold lane_idle, lane_txs.
    destruct (fullCh l), (l_deal l), (verifyCh l), (l_verify l); cbn; set_solver.
  - apply Hall, Exists_exists. eauto using list_elem_of_lookup_2.
Qed.

Lemma steps_arrive w acts w' :
  steps w acts w' → Forall (λ a, lane_action a = true) acts → Forall lane_room (lanes (w_pool w)) →
  Z.of_nat (length acts) + weight (w_pool w') ≤ weight (w_pool w) ∧
  ∀ h, in_lanes h (w_pool w) ∨ is_Some (pending (w_pool w) !! h) →
       in_lanes h (w_pool w') ∨ is_Some (pending (w_pool w') !! h).
Proof.
  induction 1 as [w|w a w1 acts w2 Hst _ IH]; [split; [cbn; lia|done]|]. intros [Ha Has]%Forall_cons Hr.
  destruct (lane_action_effect _ _ _ Ha Hst) as (i & l & Hi & He).
  destruct (IH Has (lane_effect_room _ _ _ _ Hi He Hr)) as [Hw Harr]. apply (lane_effect_weight _ _ _ _ Hi) in He as Hlt.
  split; [cbn [length]; lia|]. eauto using lane_effect_arrives.
Qed.

(** C38: Every transaction in a lane becomes pending.  Let the goroutines of the
    lanes run, in any order: they make at most [weight] accesses, and when none of
    them can move every transaction that was in a lane at the start is in pending
    under its hash.  The channels verifyCh must have room for what is in front
    of them: the goroutine that reads fullCh drops the error of a full verifyCh. *)
Theorem lanes_drain w acts w' :
  Forall lane_room (lanes (w_pool w)) → Forall (λ a, lane_action a = true) acts → steps w acts w' →
  Z.of_nat (length acts) ≤ weight (w_pool w) ∧
  ((∃ a, lane_action a = true ∧ is_Some (exec a w')) ∨
   ∀ h, in_lanes h (w_pool w) → is_Some (pending (w_pool w') !! h)).
Proof.
  intros Hr Ha Hs. destruct (steps_arrive _ _ _ Hs Ha Hr) as [Hw Harr].
  pose proof (zsum_nonneg lane_weight (lanes (w_pool w')) lane_weight_nonneg) as H0. split; [unfold weight in *; lia|].
  destruct (decide (Exists (λ l, lane_idle l = false) (lanes (w_pool w')))) as [(l & Hin & Hl)%Exists_exists|Hidle].
  - left. apply list_elem_of_lookup_1 in Hin as [i Hi]. by eapply lane_moves.
  - right. intros h Hh. destruct (Harr h (or_introl Hh)) as [?|?]; [by eapply idle_empty in Hidle|done].
Qed.

(** ** No transaction twice *)

Definition is_hash h tx : Z := if decide (txHash tx = h) then 1 else 0.
Definition occ h (txs : list Tx) : Z := zsum (is_hash h) txs.
Definition has {A} h (m : gmap bytes A) : Z := if decide (is_Some (m !! h)) then 1 else 0.

(** How many times the transaction is in the lanes, pending, with the miner and
    on the chain. *)
Definition copies h p : Z :=
  zsum (λ l, occ h (lane_txs l)) (lanes p) + has h (pending p) +
  zsum (λ kv, occ h kv.2) (map_to_list (working p)) + has h (onChain p).

Lemma is_hash_nonneg h tx : 0 ≤ is_hash h tx.
Proof. unfold is_hash. case_decide; lia. Qed.

Lemma occ_nonneg h txs : 0 ≤ occ h txs.
Proof. apply zsum_nonneg, is_hash_nonneg. Qed.

Lemma has_bounds {A} h (m : gmap bytes A) : 0 ≤ has h m ≤ 1.
Proof. unfold has. case_decide; lia. Qed.

Lemma has_insert {A} h (k : bytes) (x : A) (m : gmap bytes A) : has h (<[k := x]> m) ≤ has h m + (if decide (k = h) then 1 else 0).
Proof.
  destruct (decide (k = h)) as [<-|].
  - pose proof (has_bounds k m). pose proof (has_bounds k (<[k := x]> m)). lia.
  - unfold has. rewrite lookup_insert_ne by done. lia.
Qed.

Lemma has_delete {A} h (k : bytes) (m : gmap bytes A) :
  is_Some (m !! k) → has h (delete k m) = has h m - (if decide (k = h) then 1 else 0).
Proof.
  intros Hk. unfold has. destruct (decide (k = h)) as [<-|].
  - rewrite lookup_delete_eq, decide_False by (by intros [? ?]). by rewrite decide_True.
  - rewrite lookup_delete_ne by done. lia.
Qed.

Lemma has_subset {A} h (m m' : gmap bytes A) : (∀ x, m' !! h = Some x → is_Some (m !! h)) → has h m' ≤ has h m.
Proof. intros Hm. unfold has. destruct (decide (is_Some (m' !! h))) as [[x E]|]; repeat case_decide; try lia. naive_solver. Qed.

(** Pending moves a transaction, it does not copy it. *)
Lemma take_pending_occ h order n m :
  keyed m → occ h (take_pending order n m).1 + has h (take_pending order n m).2 = has h m.
Proof.
  revert n m. induction order as [|k order IH]; intros [|n] m Hm; cbn [take_pending]; [done..|].
  destruct (m !! k) as [tx|] eqn:E; [|by apply IH].
  specialize (IH n (delete (txHash tx) m) (keyed_delete _ _ Hm)).
  destruct (take_pending _ _ _) as [txs m'] eqn:Et. cbn [fst snd] in *.
  rewrite has_delete in IH by (rewrite (Hm _ _ E); eauto). unfold occ, is_hash in *. cbn [zsum]. lia.
Qed.

Lemma has_store {A} (f : Tx → A) h (txs : list Tx) (m : gmap bytes A) :
  has h (foldl (λ m tx, <[txHash tx := f tx]> m) m txs) ≤ has h m + occ h txs.
Proof.
  revert m. induction txs as [|tx txs IH]; intros m; cbn [foldl]; [cbn; lia|].
  specialize (IH (<[txHash tx := f tx]> m)). pose proof (has_insert h (txHash tx) (f tx) m). unfold occ, is_hash in *. cbn [zsum] in *. lia.
Qed.

Lemma working_insert h id txs (m : gmap Z (list Tx)) :
  m !! id = None →
  zsum (λ kv, occ h kv.2) (map_to_list (<[id := txs]> m)) = occ h txs + zsum (λ kv, occ h kv.2) (map_to_list m).
Proof. intros Hid. by rewrite (zsum_perm _ _ _ (map_to_list_insert m id txs Hid)). Qed.

Lemma working_delete h id (m : gmap Z (list Tx)) :
  zsum (λ kv, occ h kv.2) (map_to_list m) =
  occ h (default [] (m !! id)) + zsum (λ kv, occ h kv.2) (map_to_list (delete id m)).
Proof.
  destruct (m !! id) as [txs|] eqn:E; cbn [default]; [|by rewrite delete_id].
  by rewrite <-(zsum_perm _ _ _ (map_to_list_delete m id txs E)).
Qed.

Lemma copies_Pending h order id n p :
  keyed (pending p) → working p !! id = None → copies h (Pending order id n p).2 = copies h p.
Proof.
  intros Hk Hid. unfold copies. destruct (Pending_fields order id n p) as (_ & -> & _ & -> & _). unfold Pending.
  pose proof (take_pending_occ h order n _ Hk) as Ht. destruct (take_pending _ _ _) as [[|t txs] m]; cbn [snd fst] in *.
  - cbn in *. lia.
  - cbn [set_working set_pending working pending]. rewrite working_insert by done. lia.
Qed.

Lemma copies_WorkEnded h id n succeed p : copies h (WorkEnded id n succeed p) ≤ copies h p.
Proof.
  unfold copies. destruct (WorkEnded_fields id n succeed p) as (_ & -> & _ & _ & ->).
  destruct (WorkEnded_maps id n succeed p) as [-> ->]. rewrite (working_delete h id (working p)).
  destruct succeed.
  - pose proof (has_store (λ _, n) h (default [] (working p !! id)) (onChain p)) as Hs. cbv beta in Hs. lia.
  - pose proof (has_store (λ t, t) h (default [] (working p !! id)) (pending p)) as Hs. cbv beta in Hs. lia.
Qed.

Lemma occ_lane h l : occ h (lane_txs l) =
  occ h (fullCh l) + occ h (deal_txs (l_deal l)) + occ h (verifyCh l) + occ h (verify_txs (l_verify l)).
Proof. unfold lane_txs, occ. rewrite !zsum_app. lia. Qed.

Lemma copies_lane h i l p p' : lanes p !! i = Some l → lane_effect i l p p' → copies h p' ≤ copies h p.
Proof.
  intros Hi He. unfold copies.
  destruct He as [tx ch Hd Hc|tx Hd|tx Hd Hc|tx Hd Hc|tx ch Hd Hc|tx Hd|tx Hd];
    cbn [lanes set_lanes set_queue set_pending pending working onChain];
    rewrite (zsum_insert _ _ _ _ _ Hi), !occ_lane; cbn [fullCh verifyCh l_deal l_verify]; rewrite Hd, ?Hc;
    unfold occ; rewrite ?zsum_app; cbn [deal_txs verify_txs zsum]; pose proof (is_hash_nonneg h tx); try lia.
  pose proof (has_insert h (txHash tx) tx (pending p)). unfold is_hash in *. lia.
Qed.

(** Only the callers add copies. *)
Lemma copies_other h hd p p' : effect hd p LOther p' → keyed (pending p) → copies h p' ≤ copies h p.
Proof.
  intros He Hk. inversion He as [| | |i l q Hi Hle|tx ch|order id n Hid|id n b|]; subst.
  - lia.
  - by eapply copies_lane.
  - done.
  - by rewrite copies_Pending.
  - apply copies_WorkEnded.
  - unfold copies. cbn [FitOnChain set_onChain lanes pending working onChain].
    assert (has h (filter (λ '(_, number), ¬ (wrap 64 (hd + poolBlockCount) < number)) (onChain p)) ≤ has h (onChain p)); [|lia].
    apply has_subset. intros x [? _]%map_lookup_filter_Some. eauto.
Qed.

Lemma copies_send h tx i l p : lanes p !! i = Some l →
  copies h (set_lanes (<[i := Lane (fullCh l ++ [tx]) (l_deal l) (verifyCh l) (l_verify l)]> (lanes p)) p) =
  copies h p + is_hash h tx.
Proof.
  intros Hi. unfold copies. cbn [set_lanes lanes pending working onChain]. rewrite (zsum_insert _ _ _ _ _ Hi), !occ_lane.
  cbn [fullCh verifyCh l_deal l_verify]. unfold occ. rewrite zsum_app. cbn. lia.
Qed.

Lemma copies_nonneg h p : 0 ≤ copies h p.
Proof.
  unfold copies. pose proof (has_bounds h (pending p)). pose proof (has_bounds h (onChain p)).
  pose proof (zsum_nonneg (λ l, occ h (lane_txs l)) (lanes p) (λ l, occ_nonneg h _)).
  pose proof (zsum_nonneg (λ kv : Z * list Tx, occ h kv.2) (map_to_list (working p)) (λ kv, occ_nonneg h _)). lia.
Qed.

(** The caller is about to send the transaction. *)
Definition sending h (pc : caller Tx) : Z := match pc with CSend tx _ _ => is_hash h tx | _ => 0 end.

(** The call has not added its hash yet. *)
Definition calling (pc : caller Tx) : Z := match pc with CDup _ | CSize _ | CAdd _ => 1 | _ => 0 end.

(** One caller, after [n] calls. *)
Record once (n : Z) w (pc : caller Tx) : Prop := {
  once_caller : w_callers w = [pc];
  once_copies h : copies h (w_pool w) + sending h pc ≤ 1;
  once_known h : 0 < copies h (w_pool w) + sending h pc → h ∈ handleKnownTx (w_pool w);
  once_fresh tx : pc = CSize tx ∨ pc = CAdd tx → txHash tx ∉ handleKnownTx (w_pool w);
  once_clear tx : pc ≠ CClear tx;
  once_size : Z.of_nat (size (handleKnownTx (w_pool w))) + calling pc ≤ n
}.

Lemma sending_nonneg h pc : 0 ≤ sending h pc.
Proof. destruct pc; cbn; try lia. apply is_hash_nonneg. Qed.

Lemma is_hash_pos h tx : 0 < is_hash h tx → txHash tx = h.
Proof. unfold is_hash. case_decide; [done|lia]. Qed.

(** KnownTxAdd of a hash that is not known. *)
Lemma once_add n w tx start : once n w (CAdd tx) →
  once n (World (set_known ({[txHash tx]} ∪ handleKnownTx (w_pool w)) (w_pool w)) [CSend tx start 0] (w_head w)) (CSend tx start 0).
Proof.
  intros Ho. pose proof (once_copies n w _ Ho) as Hc. pose proof (once_known n w _ Ho) as Hk.
  pose proof (once_size n w _ Ho) as Hs. pose proof (once_fresh n w _ Ho tx (or_intror eq_refl)) as Hf.
  assert (∀ h, copies h (set_known ({[txHash tx]} ∪ handleKnownTx (w_pool w)) (w_pool w)) = copies h (w_pool w)) as Ec by done.
  split; cbn [w_callers w_pool sending calling handleKnownTx set_known] in *; [done| | |naive_solver|done|].
  - intros h. rewrite Ec. specialize (Hc h). specialize (Hk h). unfold is_hash. case_decide as Eh; [|lia]. subst h.
    destruct (decide (0 < copies (txHash tx) (w_pool w) + 0)) as [Hp|]; [by apply Hk in Hp|lia].
  - intros h. rewrite Ec. unfold is_hash. case_decide as Eh; [set_solver|]. intros Hp%Hk. set_solver.
  - rewrite size_union, size_singleton by set_solver. lia.
Qed.

(** A step of the caller, the pool holding fewer than 2000000 known hashes. *)
Lemma once_caller_step n w pc start pc' p' :
  once n w pc → n < maxHandleKnownTxs → caller_step start pc (w_pool w) = Some (pc', p') →
  once n (World p' [pc'] (w_head w)) pc'.
Proof.
  intros Ho Hn. pose proof (once_copies n w pc Ho) as Hc. pose proof (once_known n w pc Ho) as Hk.
  pose proof (once_size n w pc Ho) as Hs.
  destruct pc as [|tx|tx|tx|tx|tx s t|tx e]; cbn [caller_step]; try done.
  - intros E. assert (p' = w_pool w) as -> by (destruct (DupTx tx (w_pool w)); congruence).
    assert (pc' = CSize tx ∧ txHash tx ∉ handleKnownTx (w_pool w) ∨ ∃ e, pc' = CDone tx (Some e)) as [[-> Hf]|[e ->]].
    { revert E. unfold DupTx. destruct (bool_decide_reflect (txHash tx ∈ handleKnownTx (w_pool w))).
      { intros [= <-]. eauto. }
      repeat destruct (bool_decide _); intros [= <-]; eauto. }
    + split; cbn in *; [done|done|done|naive_solver|done|done].
    + split; cbn in *; [done|done|done|naive_solver|done|lia].
  - unfold known_full. rewrite (proj2 (Z.leb_gt _ _)) by (cbn in Hs; lia). intros [= <- <-].
    pose proof (once_fresh n w _ Ho tx (or_introl eq_refl)). split; cbn in *; [done|done|done|naive_solver|done|done].
  - by destruct (once_clear n w _ Ho tx).
  - intros [= <- <-]. by apply once_add.
  - destruct (_ <? _)%nat.
    2:{ intros [= <- <-]. split; cbn in *; [done| | |naive_solver|done|lia].
        - intros h. specialize (Hc h). pose proof (is_hash_nonneg h tx). lia.
        - intros h Hp. apply Hk. pose proof (is_hash_nonneg h tx). lia. }
    destruct (send_try s t tx (w_pool w)) as [[|] q] eqn:Es; intros [= <- <-]; [by split; cbn in *; naive_solver|].
    apply send_try_false in Es as (i & l & Hi & _ & ->).
    split; cbn [w_callers w_pool sending calling] in *; [done| | |naive_solver|done|cbn; lia].
    + intros h. rewrite (copies_send h tx i l _ Hi). specialize (Hc h). lia.
    + intros h. rewrite (copies_send h tx i l _ Hi). intros Hp. apply Hk. lia.
Qed.

Definition is_call a : Z := match a with ACall _ _ => 1 | _ => 0 end.

Lemma once_step n w pc a w' :
  once n w pc → pool_inv w → n < maxHandleKnownTxs → step w a w' → ∃ pc', once (n + is_call a) w' pc'.
Proof.
  intros Ho Hw Hn Hst. pose proof (once_caller n w pc Ho) as Hcs. destruct (step_cases _ _ _ Hst)
    as [(c & s & pc0 & pc' & -> & Hc & Es & Ecs & Eh)|[(c & tx & -> & Hc & ->)|(Ha & He & Ecs & _)]].
  - rewrite Hcs in Hc, Ecs. destruct c; [|done]. injection Hc as ->. exists pc'.
    rewrite Z.add_0_r. pose proof (once_caller_step n w pc0 s pc' _ Ho Hn Es) as Ho'. destruct w' as [p' cs' hd'].
    cbn in *. by subst.
  - exists (CDup tx). pose proof (once_copies n w pc Ho) as Hcop. pose proof (once_known n w pc Ho) as Hk.
    pose proof (once_size n w pc Ho) as Hsz. rewrite Hcs in Hc |- *.
    destruct c; [|by destruct Hc as [?|(? & ? & ?)]].
    destruct Hc as [[= ->]|(t & e & [= ->])]; split; cbn in *; (done || naive_solver || lia).
  - exists pc. assert (is_call a = 0) as -> by (destruct a; try done; by destruct (Ha c tx)). rewrite Z.add_0_r.
    pose proof (λ h, copies_other h _ _ _ He (inv_pending w Hw)) as Hle. pose proof (effect_known _ _ _ He) as Ek.
    split; rewrite ?Ek.
    + by rewrite Ecs.
    + intros h. pose proof (once_copies n w pc Ho h). specialize (Hle h). lia.
    + intros h Hp. apply (once_known n w pc Ho). specialize (Hle h). lia.
    + apply (once_fresh n w pc Ho).
    + apply (once_clear n w pc Ho).
    + apply (once_size n w pc Ho).
Qed.

Lemma calls_nonneg acts : 0 ≤ zsum is_call acts.
Proof. apply zsum_nonneg. by intros []. Qed.

Lemma steps_once w acts w' n pc :
  steps w acts w' → once n w pc → pool_inv w → n + zsum is_call acts < maxHandleKnownTxs →
  ∃ pc', once (n + zsum is_call acts) w' pc'.
Proof.
  intros Hs. revert n pc. induction Hs as [w|w a w1 acts w2 Hst _ IH]; intros n pc Ho Hw Hn; cbn [zsum] in *.
  { rewrite Z.add_0_r. eauto. }
  pose proof (calls_nonneg acts). assert (0 ≤ is_call a) by (by destruct a).
  destruct (once_step n w pc a w1 Ho Hw) as [pc1 Ho1]; [lia|done|].
  destruct (IH (n + is_call a) pc1 Ho1) as [pc' Ho']; [by eapply pool_inv_step|lia|].
  exists pc'. by replace (n + (is_call a + zsum is_call acts)) with (n + is_call a + zsum is_call acts) by lia.
Qed.

(** C37: With one caller of AddTx and fewer calls than maxHandleKnownTxs, no
    transaction is in the pool twice: whatever the interleaving with the lanes,
    the miner and the ticker, the lanes, pending, the works of the miner and the
    chain hold at most one transaction of each hash, so a transaction that is
    submitted again is not mined again. *)
Theorem submitted_once number acts w h :
  0 ≤ number < 2 ^ 64 - poolBlockCount → steps (start_world 1 number) acts w →
  zsum is_call acts < maxHandleKnownTxs → copies h (w_pool w) ≤ 1.
Proof.
  intros Hn Hs Hc. assert (once 0 (start_world 1 number) CIdle) as Ho.
  { assert (∀ h, copies h (w_pool (start_world 1 number)) = 0) as E0.
    { intros h'. unfold copies. cbn [start_world w_pool NewTxPool lanes pending working onChain].
      rewrite zsum_replicate. by rewrite map_to_list_empty. }
    split; [done|intros h'; by rewrite E0|intros h'; by rewrite E0|naive_solver|done|].
    cbn. by rewrite size_empty. }
  destruct (steps_once _ _ _ _ _ Hs Ho (start_inv _ _ Hn) Hc) as [pc Hpc].
  pose proof (once_copies _ _ _ Hpc h). pose proof (sending_nonneg h pc). lia.
Qed.
End Live.

(** ** Runs *)

Lemma ex_room : Forall lane_room (lanes (w_pool (ex_world ex_add))).
Proof. apply (bool_decide_unpack _). vm_compute. reflexivity. Qed.

Lemma ex_drain_run : run (take 6 ex_mine) (ex_world ex_add) = Some (ex_world (ex_add ++ take 6 ex_mine)).
Proof. vm_compute. reflexivity. Qed.

Lemma lanes_drain_witness :
  Z.of_nat (length (take 6 ex_mine)) ≤ weight (w_pool (ex_world ex_add)) ∧
  ((∃ a, lane_action a = true ∧ is_Some (exec a (ex_world (ex_add ++ take 6 ex_mine)))) ∨
   ∀ h, in_lanes h (w_pool (ex_world ex_add)) → is_Some (pending (w_pool (ex_world (ex_add ++ take 6 ex_mine))) !! h)).
Proof.
  apply (lanes_drain (ex_world ex_add) (take 6 ex_mine)).
  - exact ex_room.
  - repeat constructor.
  - exact (run_steps _ _ _ ex_drain_run).
Defined.

Lemma ex_all_run : run (ex_add ++ ex_mine) (start_world 1 5) = Some (ex_world (ex_add ++ ex_mine)).
Proof. vm_compute. reflexivity. Qed.

Lemma submitted_once_witness : copies (txHash ex_tx) (w_pool (ex_world (ex_add ++ ex_mine))) ≤ 1.
Proof.
  apply (submitted_once 5 (ex_add ++ ex_mine)).
  - unfold poolBlockCount. lia.
  - exact (run_steps _ _ _ ex_all_run).
  - reflexivity.
Defined.

(** Two callers that both pass DupTx before either adds the hash: the
    transaction goes to two lanes, and after its first block is on the chain the
    miner is given it a second time. *)
Definition ex_race : list (action Transaction) :=
  [ACall 0 ex_tx; ACall 1 ex_tx; ACaller 0 0; ACaller 1 1] ++
  replicate 3 (ACaller 0 0) ++ replicate 3 (ACaller 1 1) ++
  replicate 3 (ADeal 0) ++ replicate 3 (AVerify 0) ++ [APending [txHash ex_tx] 77 10; AHead 6; AWorkEnded 77 6 true] ++
  replicate 3 (ADeal 1) ++ replicate 3 (AVerify 1) ++ [APending [txHash ex_tx] 78 10].

Definition ex_race_end : world Transaction := default (start_world 2 5) (run ex_race (start_world 2 5)).

Lemma ex_race_run : run ex_race (start_world 2 5) = Some ex_race_end.
Proof. vm_compute. reflexivity. Qed.

Lemma two_callers_mined_twice :
  steps (start_world 2 5) ex_race ex_race_end ∧
  onChain (w_pool ex_race_end) !! txHash ex_tx = Some 6 ∧ working (w_pool ex_race_end) !! 78 = Some [ex_tx].
Proof. split; [exact (run_steps _ _ _ ex_race_run)|]. split; vm_compute; reflexivity. Qed.
