(* ===== verification/Lru.v ===== *)
(** * The LRU cache (vendor/github.com/hashicorp/golang-lru)

    The chain keeps headers, difficulties and numbers in fixed-size caches.  The
    entries are a list from the most to the least recently used; the map items
    of the code points into that list and is the lookup by key. *)

From S2P Require Import Prelude.

Section Lru.
Context {V : Type}.

Record LRU := MkLRU { lru_size : nat; evictList : list (bytes * V) }.

Implicit Types (c : LRU) (key : bytes) (value : V).

(** items[key] *)
Fixpoint items (l : list (bytes * V)) key : option V :=
  match l with
  | [] => None
  | (k, v) :: l => if decide (k = key) then Some v else items l key
  end.

(** The list without the element of the key. *)
Definition unlink (l : list (bytes * V)) key : list (bytes * V) := filter (λ kv, kv.1 ≠ key) l.

Definition NewLRU (size : nat) : LRU := MkLRU size [].

Definition lru_Purge c : LRU := MkLRU (lru_size c) [].

Definition removeOldest (l : list (bytes * V)) : list (bytes * V) := take (length l - 1) l.

Definition lru_Add key value c : bool * LRU :=
  match items (evictList c) key with
  | Some _ => (false, MkLRU (lru_size c) ((key, value) :: unlink (evictList c) key))
  | None =>
      let l := (key, value) :: evictList c in
      let evict := (lru_size c <? length l)%nat in
      (evict, MkLRU (lru_size c) (if evict then removeOldest l else l))
  end.

Definition lru_Get key c : option V * LRU :=
  match items (evictList c) key with
  | Some v => (Some v, MkLRU (lru_size c) ((key, v) :: unlink (evictList c) key))
  | None => (None, c)
  end.

Definition lru_Peek key c : option V := items (evictList c) key.
Definition lru_Contains key c : bool := bool_decide (is_Some (items (evictList c) key)).
Definition lru_Remove key c : bool * LRU :=
  match items (evictList c) key with
  | Some _ => (true, MkLRU (lru_size c) (unlink (evictList c) key))
  | None => (false, c)
  end.
Definition lru_GetOldest c : option (bytes * V) := last (evictList c).
Definition lru_RemoveOldest c : option (bytes * V) * LRU :=
  match last (evictList c) with
  | Some kv => (Some kv, MkLRU (lru_size c) (removeOldest (evictList c)))
  | None => (None, c)
  end.
Definition lru_Keys c : list bytes := reverse (evictList c).*1.
Definition lru_Len c : nat := length (evictList c).

(** ** What a cache remembers *)

Lemma items_unlink l key k : items (unlink l key) k = if decide (k = key) then None else items l k.
Proof.
  unfold unlink. induction l as [|[k' v] l IH]; [cbn; by case_decide|]. rewrite filter_cons. cbn [fst].
  destruct (decide (k' ≠ key)) as [Hne|He]; cbn [items]; rewrite IH; repeat case_decide; naive_solver.
Qed.

Lemma items_take l n k v : items (take n l) k = Some v → items l k = Some v.
Proof.
  revert n. induction l as [|[k' v'] l IH]; intros [|n]; cbn; [done..|]. case_decide; [done|]. apply IH.
Qed.

(** A read does not change what is cached. *)
Lemma Peek_Get key c k : lru_Peek k (lru_Get key c).2 = lru_Peek k c.
Proof.
  unfold lru_Peek, lru_Get. destruct (items (evictList c) key) as [v|] eqn:E; cbn; [|done].
  rewrite items_unlink. repeat case_decide; naive_solver.
Qed.

Lemma Get_Peek key c : (lru_Get key c).1 = lru_Peek key c.
Proof. unfold lru_Peek, lru_Get. by destruct (items (evictList c) key). Qed.

(** Only the added entry is new; others may be forgotten. *)
Lemma Peek_Add key value c k v :
  lru_Peek k (lru_Add key value c).2 = Some v → (k = key ∧ v = value) ∨ (k ≠ key ∧ lru_Peek k c = Some v).
Proof.
  unfold lru_Peek, lru_Add. destruct (items (evictList c) key) as [v'|] eqn:E; cbn.
  - rewrite items_unlink. repeat case_decide; naive_solver.
  - assert (items ((key, value) :: evictList c) k = Some v → (k = key ∧ v = value) ∨ (k ≠ key ∧ items (evictList c) k = Some v)) as Hcons
      by (cbn; case_decide; naive_solver).
    case_match; [|done]. intros H'%items_take. by apply Hcons.
Qed.

Lemma Peek_Add_eq key value c : (0 < lru_size c)%nat → lru_Peek key (lru_Add key value c).2 = Some value.
Proof.
  intros Hs. unfold lru_Peek, lru_Add. destruct (items (evictList c) key); cbn [snd evictList items];
    [by rewrite decide_True|]. cbn [length].
  destruct (Nat.ltb_spec (lru_size c) (S (length (evictList c)))); cbn; [|by rewrite decide_True].
  unfold removeOldest. cbn. rewrite Nat.sub_0_r. destruct (length (evictList c)); [lia|]. cbn. by rewrite decide_True.
Qed.

Lemma Get_Add_new key value n :
  let c := (lru_Add key value (NewLRU (S n))).2 in lru_Get key c = (Some value, c).
Proof.
  unfold lru_Add, lru_Get. cbn [NewLRU evictList items lru_size length snd Nat.ltb Nat.leb]. rewrite decide_True by done.
  unfold unlink. by rewrite filter_cons_False by (intros H; by apply H).
Qed.

Lemma Peek_Remove key c k : lru_Peek k (lru_Remove key c).2 = if decide (k = key) then None else lru_Peek k c.
Proof.
  unfold lru_Peek, lru_Remove. destruct (items (evictList c) key) as [v|] eqn:E; cbn; [apply items_unlink|].
  case_decide; by subst.
Qed.

Lemma Peek_RemoveOldest c k v : lru_Peek k (lru_RemoveOldest c).2 = Some v → lru_Peek k c = Some v.
Proof. unfold lru_Peek, lru_RemoveOldest. destruct (last (evictList c)); cbn; [apply items_take|done]. Qed.

Lemma Peek_Purge c k : lru_Peek k (lru_Purge c) = None.
Proof. done. Qed.

(** ** The size of a cache *)

Definition lru_ok c : Prop := NoDup (evictList c).*1 ∧ (length (evictList c) ≤ lru_size c)%nat.

Lemma items_None l key : items l key = None ↔ key ∉ l.*1.
Proof.
  induction l as [|[k v] l IH]; cbn; [split; [intros _ H; by apply not_elem_of_nil in H|done]|]. rewrite not_elem_of_cons.
  case_decide; naive_solver.
Qed.

Lemma items_Some l key v : items l key = Some v → key ∈ l.*1.
Proof. intros E. destruct (decide (key ∈ l.*1)) as [|Hn%items_None]; [done|]. congruence. Qed.

Lemma unlink_sublist l key : sublist (unlink l key).*1 l.*1.
Proof. apply fmap_sublist, sublist_filter. Qed.

Lemma unlink_fresh l key : key ∉ (unlink l key).*1.
Proof. intros ([k v] & -> & [Hk _]%list_elem_of_filter)%list_elem_of_fmap. by apply Hk. Qed.

Lemma unlink_length l key v : items l key = Some v → (length (unlink l key) < length l)%nat.
Proof.
  unfold unlink. induction l as [|[k v'] l IH]; [done|]. cbn [items length]. rewrite filter_cons. cbn [fst]. case_decide as E.
  - intros _. rewrite decide_False by (intros H; by apply H). pose proof (length_filter (λ kv : bytes * V, kv.1 ≠ key) l). lia.
  - intros H%IH. rewrite decide_True by done. cbn. lia.
Qed.

Lemma move_front_ok c key v v' : lru_ok c → items (evictList c) key = Some v → lru_ok (MkLRU (lru_size c) ((key, v') :: unlink (evictList c) key)).
Proof.
  intros [Hnd Hl] E. split; cbn.
  - apply NoDup_cons. split; [apply unlink_fresh|]. eapply sublist_NoDup; [exact Hnd|apply unlink_sublist].
  - pose proof (unlink_length _ _ _ E). lia.
Qed.

(** The operations keep one entry per key and at most [lru_size] entries. *)
Lemma lru_Add_ok c key value : lru_ok c → lru_ok (lru_Add key value c).2.
Proof.
  intros Hok. unfold lru_Add. destruct (items (evictList c) key) as [v|] eqn:E; [by eapply move_front_ok|]. destruct Hok as [Hnd Hl].
  assert (NoDup ((key, value) :: evictList c).*1) as Hnd' by (apply NoDup_cons; split; [by apply items_None|done]).
  cbn [snd]. destruct (Nat.ltb_spec (lru_size c) (length ((key, value) :: evictList c))) as [Hlt|Hge]; [|by split].
  unfold removeOldest. split; cbn [evictList lru_size].
  - eapply sublist_NoDup; [exact Hnd'|]. apply fmap_sublist, sublist_take.
  - rewrite length_take. cbn [length] in *. lia.
Qed.

Lemma lru_Get_ok c key : lru_ok c → lru_ok (lru_Get key c).2.
Proof. intros Hok. unfold lru_Get. destruct (items (evictList c) key) as [v|] eqn:E; [by eapply move_front_ok|done]. Qed.
End Lru.
Arguments LRU : clear implicits.
