(* ===== verification/ChainDb.v ===== *)
(** * The chain database (blockchain/database_util.go)

    Headers, bodies, difficulties, receipts, the canonical numbering and the
    head pointers live in one key-value store under prefixed keys.  The store is
    a finite map from keys to values (Get, Put, Delete and Has of LevelDB or the
    memory database), and a failing Put ends the process (log.Crit). *)

From S2P Require Import Prelude RlpSpec RlpRaw RlpEncode RlpStream RlpRoundtrip TrieNode Trie Sha256 Merkletree Types.
Local Open Scope Z_scope.

(** The ASCII codes of a string. *)
Definition ascii_bytes (s : string) : bytes := Z.of_nat ∘ Ascii.nat_of_ascii <$> String.list_ascii_of_string s.

Definition zero_hash32 : bytes := replicate 32 0.

Section ChainDb.
Context {KC : Keccak}.

Abbreviation kv := (gmap bytes bytes).
Implicit Types (db : kv) (hash : bytes) (number : Z).

(** ** Keys *)

Definition headHeaderKey : bytes := ascii_bytes "LastHeader".
Definition headBlockKey : bytes := ascii_bytes "LastBlock".
Definition headFastKey : bytes := ascii_bytes "LastFast".
Definition headerPrefix : bytes := ascii_bytes "h".
Definition tdSuffix : bytes := ascii_bytes "t".
Definition numSuffix : bytes := ascii_bytes "n".
Definition blockHashPrefix : bytes := ascii_bytes "H".
Definition bodyPrefix : bytes := ascii_bytes "b".
Definition blockReceiptsPrefix : bytes := ascii_bytes "r".
Definition lookupPrefix : bytes := ascii_bytes "l".
Definition peerProofPrefix : bytes := ascii_bytes "pproof".

Definition encodeBlockNumber number : bytes := be_fixed 8 number.

Definition canonicalKey number : bytes := (headerPrefix ++ encodeBlockNumber number) ++ numSuffix.
Definition headerKey hash number : bytes := (headerPrefix ++ encodeBlockNumber number) ++ hash.
Definition tdKey hash number : bytes := ((headerPrefix ++ encodeBlockNumber number) ++ hash) ++ tdSuffix.
Definition numberKey hash : bytes := blockHashPrefix ++ hash.
Definition blockBodyKey hash number : bytes := (bodyPrefix ++ encodeBlockNumber number) ++ hash.
Definition receiptsKey hash number : bytes := (blockReceiptsPrefix ++ encodeBlockNumber number) ++ hash.
Definition lookupKey hash : bytes := lookupPrefix ++ hash.
Definition peerProofKey (addr : bytes) : bytes := (peerProofPrefix ++ replicate 32 0) ++ sha256 addr.

(** db.Get with the error dropped: no data. *)
Definition db_get db (key : bytes) : bytes := default [] (db !! key).

(** The hash stored under a key, the zero hash for no data. *)
Definition get_hash db (key : bytes) : bytes :=
  match db_get db key with
  | [] => zero_hash32
  | data => BytesToHash data
  end.

(** rlp.Decode of a reader: what follows the value is not looked at. *)
Definition rlp_Decode {A} (dec : nat → M A) (b : bytes) : outcome rlp_error A := (dec (S (length b)) (NewStream b)).1.

(** Decode what is stored under a key; no data and an error both give nil. *)
Definition get_decoded {A} (dec : nat → M A) db (key : bytes) : option A :=
  match db_get db key with
  | [] => None
  | data => match rlp_Decode dec data with Ok a => Some a | _ => None end
  end.

(** ** Canonical numbering and heads *)

Definition GetCanonicalHash db number : bytes := get_hash db (canonicalKey number).
Definition WriteCanonicalHash hash number db : kv := <[canonicalKey number := hash]> db.
Definition DeleteCanonicalHash number db : kv := base.delete (canonicalKey number) db.

Definition GetHeadHeaderHash db : bytes := get_hash db headHeaderKey.
Definition GetHeadBlockHash db : bytes := get_hash db headBlockKey.
Definition GetHeadFastBlockHash db : bytes := get_hash db headFastKey.
Definition WriteHeadHeaderHash hash db : kv := <[headHeaderKey := hash]> db.
Definition WriteHeadBlockHash hash db : kv := <[headBlockKey := hash]> db.
Definition WriteHeadFastBlockHash hash db : kv := <[headFastKey := hash]> db.

Definition missingNumber : Z := 0xffffffffffffffff.

Definition GetBlockNumber db hash : Z :=
  let data := db_get db (numberKey hash) in
  if negb (length data =? 8)%nat then missingNumber else be_val data.

(** ** Headers *)

(** i.Uint64(): the low 64 bits of the absolute value. *)
Definition big_Uint64 {E} (i : option Z) : outcome E Z :=
  match i with Some i => Ok (wrap 64 (Z.abs i)) | None => Panic end.

(** header.Number.Uint64() *)
Definition NumberU64 (h : Header) : outcome rlp_error Z := big_Uint64 (h_Number h).

Definition decode_header (n : nat) : M Header := let! v := decode n header_ty in mret (header_of_gval v).

Definition GetHeaderRLP db hash number : bytes := db_get db (headerKey hash number).
Definition GetHeader db hash number : option Header := get_decoded decode_header db (headerKey hash number).

Definition WriteHeader (header : Header) db : outcome rlp_error kv :=
  let* data := EncodeToBytes (header_gval header) in
  let* hash := Header_Hash header in
  let* num := NumberU64 header in
  let encNum := encodeBlockNumber num in
  let db := <[numberKey hash := encNum]> db in
  Ok (<[(headerPrefix ++ encNum) ++ hash := data]> db).

Definition DeleteHeader hash number db : kv := base.delete (headerKey hash number) (base.delete (numberKey hash) db).

(** ** Bodies and blocks *)

Definition body_gval (b : Body) : gval :=
  GPtr (GStruct [GSlice false (map tx_gval (bd_Transactions b)); GSlice false (map proof_gval (bd_Proofs b))]).

(** rlp.Decode(r, body): makeStructDecoder on the two fields. *)
Definition decode_body (n : nat) : M Body :=
  let! _ := wrapped Stream_List in
  let! txs := field (decodeListSlice (Transaction_DecodeRLP n) n) in
  let! proofs := field (decodeListSlice (decode n proof_ty) n) in
  let! _ := wrapped Stream_ListEnd in
  mret (MkBody txs (proof_of_gval <$> proofs)).

Definition GetBodyRLP db hash number : bytes := db_get db (blockBodyKey hash number).
Definition GetBody db hash number : option Body := get_decoded decode_body db (blockBodyKey hash number).
Definition WriteBodyRLP hash number (data : bytes) db : kv := <[blockBodyKey hash number := data]> db.
Definition WriteBody hash number (body : Body) db : outcome rlp_error kv :=
  let* data := EncodeToBytes (body_gval body) in
  Ok (WriteBodyRLP hash number data db).
Definition DeleteBody hash number db : kv := base.delete (blockBodyKey hash number) db.

Definition GetBlock db hash number : option Block :=
  header ← GetHeader db hash number;
  body ← GetBody db hash number;
  Some (WithBody (bd_Transactions body) (bd_Proofs body) (NewBlockWithHeader header)).

(** block.Header() hands out a copy. *)
Definition WriteBlock (block : Block) db : outcome rlp_error kv :=
  let* (hash, block) := Block_Hash block in
  let* number := NumberU64 (b_header block) in
  let* db := WriteBody hash number (Block_Body block) db in
  WriteHeader (CopyHeader (b_header block)) db.

(** ** Total difficulty *)

Definition GetTd db hash number : option Z :=
  get_decoded (λ n, let! v := decode n TBigInt in mret (match v with GBig i => i | _ => 0 end)) db (tdKey hash number).
Definition WriteTd hash number (td : Z) db : outcome rlp_error kv :=
  let* data := EncodeToBytes (GPtr (GBig td)) in
  Ok (<[tdKey hash number := data]> db).
Definition DeleteTd hash number db : kv := base.delete (tdKey hash number) db.

(** ** Receipts *)

Definition receipts_gval (rs : list Receipt) : gval := GSlice false (map (GPtr ∘ storage_gval) rs).

(** The elements are decoded by ReceiptForStorage.DecodeRLP; a status that is
    not valid fails the whole list. *)
Definition receipt_of_gval (v : gval) : option Receipt :=
  match v with
  | GStruct [GBytes status; GUint count; GBytes hash] =>
      match setStatus status (MkReceipt 0 0 []) with
      | Ok r => Some (MkReceipt (r_Status r) count hash)
      | _ => None
      end
  | _ => None
  end.

Definition GetBlockReceipts db hash number : option (list Receipt) :=
  match db_get db (receiptsKey hash number) with
  | [] => None
  | data =>
      match DecodeBytes (TSlice receiptStorageRLP_ty) data with
      | Ok (GSlice _ vs) => mapM receipt_of_gval vs
      | _ => None
      end
  end.

Definition WriteBlockReceipts hash number (receipts : list Receipt) db : outcome rlp_error kv :=
  let* data := EncodeToBytes (receipts_gval receipts) in
  Ok (<[receiptsKey hash number := data]> db).
Definition DeleteBlockReceipts hash number db : kv := base.delete (receiptsKey hash number) db.

Definition DeleteBlock hash number db : kv :=
  DeleteTd hash number (DeleteBody hash number (DeleteHeader hash number (DeleteBlockReceipts hash number db))).

(** ** Transaction lookups *)

Record txLookupEntry := MkLookup { le_BlockHash : bytes; le_BlockIndex : Z; le_Index : Z }.

Definition lookup_gval (e : txLookupEntry) : gval :=
  GStruct [GBytes (le_BlockHash e); GUint (le_BlockIndex e); GUint (le_Index e)].
Definition lookup_ty : ty := TStruct [TByteArray 32; TUint 64; TUint 64].

Definition GetTxLookupEntry db hash : bytes * Z * Z :=
  match db_get db (lookupKey hash) with
  | [] => (zero_hash32, 0, 0)
  | data =>
      match DecodeBytes lookup_ty data with
      | Ok (GStruct [GBytes h; GUint i; GUint j]) => (h, i, j)
      | _ => (zero_hash32, 0, 0)
      end
  end.

Fixpoint write_lookups (blockHash : bytes) (number index : Z) (txs : list Transaction) db : outcome rlp_error kv :=
  match txs with
  | [] => Ok db
  | tx :: txs =>
      let* data := EncodeToBytes (lookup_gval (MkLookup blockHash number index)) in
      let* (h, _) := Transaction_Hash tx in
      write_lookups blockHash number (index + 1) txs (<[lookupKey h := data]> db)
  end.

(** block.Hash() and block.NumberU64() are asked for in every round; they do not
    change. *)
Definition WriteTxLookupEntries (block : Block) db : outcome rlp_error kv :=
  match b_transactions block with
  | [] => Ok db
  | txs =>
      let* (hash, _) := Block_Hash block in
      let* number := NumberU64 (b_header block) in
      write_lookups hash number 0 txs db
  end.

Definition DeleteTxLookupEntry hash db : kv := base.delete (lookupKey hash) db.

(** int(index) *)
Definition to_int (i : Z) : Z := if i <? 2 ^ 63 then i else i - 2 ^ 64.

(** The element of a list at a stored index: nil above the length; an index of
    2^63 or more is negative as an int and passes that check. *)
Definition at_index {A} (l : list A) (index : Z) : outcome rlp_error (option A) :=
  if Z.of_nat (length l) <=? to_int index then Ok None
  else let* x := l.[Z.to_nat index] in Ok (Some x).

Definition oldTxMetaSuffix : bytes := [1].
Definition oldReceiptsPrefix : bytes := ascii_bytes "receipts-".

(** A transaction in the old representation, with its metadata. *)
Definition get_old_transaction db hash : option (Transaction * bytes * Z * Z) :=
  match db_get db hash with
  | [] => None
  | data =>
      match DecodeBytes_with Transaction_DecodeRLP data, db_get db (hash ++ oldTxMetaSuffix) with
      | Ok tx, (_ :: _) as meta =>
          match DecodeBytes lookup_ty meta with
          | Ok (GStruct [GBytes h; GUint i; GUint j]) => Some (tx, h, i, j)
          | _ => None
          end
      | _, _ => None
      end
  end.

Definition GetTransaction db hash : outcome rlp_error (option (Transaction * bytes * Z * Z)) :=
  let '(blockHash, blockNumber, txIndex) := GetTxLookupEntry db hash in
  if negb (bool_decide (blockHash = zero_hash32)) then
    match GetBody db blockHash blockNumber with
    | None => Ok None
    | Some body =>
        let* tx := at_index (bd_Transactions body) txIndex in
        Ok (tx ← tx; Some (tx, blockHash, blockNumber, txIndex))
    end
  else Ok (get_old_transaction db hash).

Definition GetReceipt db hash : outcome rlp_error (option (Receipt * bytes * Z * Z)) :=
  let '(blockHash, blockNumber, receiptIndex) := GetTxLookupEntry db hash in
  if negb (bool_decide (blockHash = zero_hash32)) then
    let* r := at_index (default [] (GetBlockReceipts db blockHash blockNumber)) receiptIndex in
    Ok (r ← r; Some (r, blockHash, blockNumber, receiptIndex))
  else
    match db_get db (oldReceiptsPrefix ++ hash) with
    | [] => Ok None
    | data =>
        Ok (Some (match ReceiptForStorage_DecodeBytes data (MkReceipt 0 0 zero_hash32) with
                  | Ok r => r
                  | _ => MkReceipt 0 0 zero_hash32
                  end, zero_hash32, 0, 0))
    end.

Definition GetBlockReceiptsByTx db hash : option (list Receipt * bytes * Z) :=
  let '(blockHash, blockNumber, receiptIndex) := GetTxLookupEntry db hash in
  if negb (bool_decide (blockHash = zero_hash32)) then
    let receipts := default [] (GetBlockReceipts db blockHash blockNumber) in
    if Z.of_nat (length receipts) <=? to_int receiptIndex then None else Some (receipts, blockHash, blockNumber)
  else None.

(** UpdateTxReceiptWithBlock: the key of the receipts is made of the hash of the
    transaction, not of the block; [None] is one of its two errors. *)
Definition UpdateTxReceiptWithBlock hash (blockHash : bytes) (blockNumber receiptIndex : Z) (receipt : Receipt) db
    : outcome rlp_error (option kv) :=
  if negb (bool_decide (blockHash = zero_hash32)) then
    let receipts := default [] (GetBlockReceipts db blockHash blockNumber) in
    if Z.of_nat (length receipts) <=? to_int receiptIndex then Ok None
    else
      let* _ := receipts.[Z.to_nat receiptIndex] in
      let receipts := <[Z.to_nat receiptIndex := receipt]> receipts in
      let* data := EncodeToBytes (receipts_gval receipts) in
      Ok (Some (<[(blockReceiptsPrefix ++ encodeBlockNumber blockNumber) ++ hash := data]> db))
  else Ok None.

(** ** Peer proofs *)

Definition GetPeerProof db (addr : bytes) : option ProofState :=
  match db_get db (peerProofKey addr) with
  | [] => None
  | data => match DecodeBytes proof_ty data with Ok v => Some (proof_of_gval v) | _ => None end
  end.

(** WritePeerProof only logs errors. *)
Definition WritePeerProof (addr : bytes) (proof : ProofState) db : kv :=
  match EncodeToBytes (proof_gval proof) with
  | Ok data => <[peerProofKey addr := data]> db
  | _ => db
  end.
Definition DeletePeerProof (addr : bytes) db : kv := base.delete (peerProofKey addr) db.
End ChainDb.
