(* ===== verification/ChainTables.v ===== *)
(** * The chain database is a set of separate tables (blockchain/database_util.go)

    One key-value store holds everything under prefixed keys.  The keys of
    different tables never coincide and every value decodes to what was encoded,
    so that the functions of the chain database read and write independent typed
    tables. *)

From S2P Require Import Prelude RlpSpec RlpRaw RlpEncode RlpStream RlpRoundtrip TrieNode Trie TrieMap Sha256 Merkletree Types ChainDb.
Local Open Scope Z_scope.

Section Tables.
Context {KC : Keccak}.

Abbreviation kv := (gmap bytes bytes).
Implicit Types (db : kv) (hash : bytes) (number : Z).

(** ** The keys of the tables *)

Inductive tkey :=
| TkCanonical (number : Z)
| TkHeader (hash : bytes) (number : Z)
| TkTd (hash : bytes) (number : Z)
| TkNumber (hash : bytes)
| TkBody (hash : bytes) (number : Z)
| TkReceipts (hash : bytes) (number : Z)
| TkLookup (hash : bytes)
| TkHeadHeader
| TkHeadBlock
| TkHeadFast.

#[global] Instance tkey_eq_dec : EqDecision tkey.
Proof. solve_decision. Defined.

Definition tkey_bytes (k : tkey) : bytes :=
  match k with
  | TkCanonical number => canonicalKey number
  | TkHeader hash number => headerKey hash number
  | TkTd hash number => tdKey hash number
  | TkNumber hash => numberKey hash
  | TkBody hash number => blockBodyKey hash number
  | TkReceipts hash number => receiptsKey hash number
  | TkLookup hash => lookupKey hash
  | TkHeadHeader => headHeaderKey
  | TkHeadBlock => headBlockKey
  | TkHeadFast => headFastKey
  end.

Definition uint64 (n : Z) : Prop := 0 ≤ n < 2 ^ 64.

(** Hashes have 32 bytes, numbers 64 bits. *)
Definition tkey_ok (k : tkey) : Prop :=
  match k with
  | TkCanonical number => uint64 number
  | TkHeader hash number | TkTd hash number | TkBody hash number | TkReceipts hash number => length hash = 32%nat ∧ uint64 number
  | TkNumber hash | TkLookup hash => length hash = 32%nat
  | _ => True
  end.

Lemma encodeBlockNumber_inj n m : uint64 n → uint64 m → encodeBlockNumber n = encodeBlockNumber m → n = m.
Proof.
  unfold uint64, encodeBlockNumber. intros Hn Hm E%(f_equal be_val). rewrite !be_val_fixed in E.
  change (256 ^ Z.of_nat 8) with (2 ^ 64) in E. rewrite !Z.mod_small in E by lia. done.
Qed.

(** The length and the first byte tell the tables apart. *)
Definition tkey_shape (k : tkey) : nat * Z :=
  match k with
  | TkCanonical _ => (10%nat, 104)
  | TkHeader _ _ => (41%nat, 104)
  | TkTd _ _ => (42%nat, 104)
  | TkNumber _ => (33%nat, 72)
  | TkBody _ _ => (41%nat, 98)
  | TkReceipts _ _ => (41%nat, 114)
  | TkLookup _ => (33%nat, 108)
  | TkHeadHeader => (10%nat, 76)
  | TkHeadBlock => (9%nat, 76)
  | TkHeadFast => (8%nat, 76)
  end.

Lemma number_key_length (p : bytes) hash number (q : bytes) :
  length (((p ++ encodeBlockNumber number) ++ hash) ++ q) = (length p + 8 + length hash + length q)%nat.
Proof. unfold encodeBlockNumber. rewrite !length_app, length_be_fixed. lia. Qed.

Lemma tkey_bytes_shape k : tkey_ok k → (length (tkey_bytes k), hd 0 (tkey_bytes k)) = tkey_shape k.
Proof.
  destruct k as [n|h n|h n|h|h n|h n|h| | |]; cbn [tkey_ok]; try reflexivity; intros Hk; cbn [tkey_bytes tkey_shape].
  - unfold headerKey. rewrite <-(app_nil_r (_ ++ h)), number_key_length, (proj1 Hk). done.
  - unfold tdKey. rewrite number_key_length, (proj1 Hk). done.
  - unfold numberKey. rewrite length_app, Hk. done.
  - unfold blockBodyKey. rewrite <-(app_nil_r (_ ++ h)), number_key_length, (proj1 Hk). done.
  - unfold receiptsKey. rewrite <-(app_nil_r (_ ++ h)), number_key_length, (proj1 Hk). done.
  - unfold lookupKey. rewrite length_app, Hk. done.
Qed.

(** Prefix, number and the rest of a key. *)
Lemma number_key_inj (p x y : bytes) n m :
  uint64 n → uint64 m → (p ++ encodeBlockNumber n) ++ x = (p ++ encodeBlockNumber m) ++ y → n = m ∧ x = y.
Proof.
  intros Hn Hm E. apply app_inj_1 in E as [E ->]; [|by unfold encodeBlockNumber; rewrite !length_app, !length_be_fixed].
  apply app_inv_head in E. split; [by apply encodeBlockNumber_inj|done].
Qed.

Lemma tkey_bytes_inj k k' : tkey_ok k → tkey_ok k' → tkey_bytes k = tkey_bytes k' → k = k'.
Proof.
  intros Hk Hk' E. pose proof (tkey_bytes_shape k Hk) as Hs. rewrite E, (tkey_bytes_shape k' Hk') in Hs.
  destruct k as [n|h n|h n|h|h n|h n|h| | |], k' as [n'|h' n'|h' n'|h'|h' n'|h' n'|h'| | |]; try discriminate Hs;
    clear Hs; cbn [tkey_ok tkey_bytes] in *; try reflexivity.
  - by destruct (number_key_inj _ _ _ _ _ Hk Hk' E) as [-> _].
  - by destruct (number_key_inj _ _ _ _ _ (proj2 Hk) (proj2 Hk') E) as [-> ->].
  - unfold tdKey in E. apply app_inv_tail in E.
    by destruct (number_key_inj _ _ _ _ _ (proj2 Hk) (proj2 Hk') E) as [-> ->].
  - apply app_inv_head in E. by subst.
  - by destruct (number_key_inj _ _ _ _ _ (proj2 Hk) (proj2 Hk') E) as [-> ->].
  - by destruct (number_key_inj _ _ _ _ _ (proj2 Hk) (proj2 Hk') E) as [-> ->].
  - apply app_inv_head in E. by subst.
Qed.

(** ** The values of the tables *)

Inductive tval :=
| VHash (h : bytes)
| VNumber (n : Z)
| VHeader (header : Header)
| VTd (td : Z)
| VBody (body : Body)
| VReceipts (receipts : list Receipt)
| VLookup (entry : txLookupEntry).

Definition body_enc (b : Body) : bytes :=
  enc_list (concat [enc_list (concat (map tx_enc (bd_Transactions b))); enc_list (concat (map proof_enc (bd_Proofs b)))]).
Definition receipts_enc (rs : list Receipt) : bytes := enc_list (concat (map storage_enc rs)).
Definition lookup_enc (e : txLookupEntry) : bytes :=
  enc_list (concat [enc_str (le_BlockHash e); enc_str (be_bytes (le_BlockIndex e)); enc_str (be_bytes (le_Index e))]).

Definition tval_bytes (v : tval) : bytes :=
  match v with
  | VHash h => h
  | VNumber n => encodeBlockNumber n
  | VHeader h => header_enc h
  | VTd td => enc_str (be_bytes td)
  | VBody b => body_enc b
  | VReceipts rs => receipts_enc rs
  | VLookup e => lookup_enc e
  end.

Definition body_ok (b : Body) : Prop := Forall tx_ok (bd_Transactions b) ∧ Forall proof_ok (bd_Proofs b).
Definition lookup_ok (e : txLookupEntry) : Prop := byte_array 32 (le_BlockHash e) ∧ uint64 (le_BlockIndex e) ∧ uint64 (le_Index e).

(** The values of one table, with encodings that fit a uint64. *)
Definition tval_fits (k : tkey) (v : tval) : Prop :=
  fits64 (length (tval_bytes v)) ∧
  match k, v with
  | (TkCanonical _ | TkHeadHeader | TkHeadBlock | TkHeadFast), VHash h => byte_array 32 h
  | TkNumber _, VNumber n => uint64 n
  | TkHeader _ _, VHeader h => header_ok h
  | TkTd _ _, VTd td => 0 ≤ td
  | TkBody _ _, VBody b => body_ok b
  | TkReceipts _ _, VReceipts rs => Forall receipt_ok rs
  | TkLookup _, VLookup e => lookup_ok e
  | _, _ => False
  end.

Definition tables := tkey → option tval.
Implicit Types (t : tables) (k : tkey) (v : tval).

Definition put k v t : tables := λ k', if decide (k = k') then Some v else t k'.
Definition drop_key k t : tables := λ k', if decide (k = k') then None else t k'.

(** The store holds the encodings of the tables. *)
Definition represents db t : Prop := ∀ k, tkey_ok k →
  db !! tkey_bytes k = tval_bytes <$> t k ∧ (∀ v, t k = Some v → tval_fits k v).

Lemma represents_put db t k v :
  represents db t → tkey_ok k → tval_fits k v → represents (<[tkey_bytes k := tval_bytes v]> db) (put k v t).
Proof.
  intros Hr Hk Hv k' Hk'. unfold put. destruct (decide (k = k')) as [<-|Hne].
  - rewrite lookup_insert_eq. split; [done|]. by intros v' [= <-].
  - rewrite lookup_insert_ne by (intros E; apply Hne; by apply tkey_bytes_inj). by apply Hr.
Qed.

Lemma represents_drop db t k : represents db t → tkey_ok k → represents (base.delete (tkey_bytes k) db) (drop_key k t).
Proof.
  intros Hr Hk k' Hk'. unfold drop_key. destruct (decide (k = k')) as [<-|Hne].
  - by rewrite lookup_delete_eq.
  - rewrite lookup_delete_ne by (intros E; apply Hne; by apply tkey_bytes_inj). by apply Hr.
Qed.

(** A key of another length than those of the tables. *)
Lemma represents_other db t (k v : bytes) :
  represents db t → (10 < length k < 33 ∨ 42 < length k)%nat → represents (<[k := v]> db) t.
Proof.
  intros Hr Hk k' Hk'. rewrite lookup_insert_ne; [by apply Hr|]. intros ->. pose proof (f_equal fst (tkey_bytes_shape k' Hk')) as E.
  cbn [fst] in E. rewrite E in Hk. destruct k'; cbn in Hk; lia.
Qed.

Lemma represents_empty : represents ∅ (λ _, None).
Proof. intros k Hk. by rewrite lookup_empty. Qed.

(** ** Reading *)

Lemma represents_get db t k : represents db t → tkey_ok k →
  db_get db (tkey_bytes k) = default [] (tval_bytes <$> t k) ∧ (∀ v, t k = Some v → tval_fits k v).
Proof. intros Hr Hk. destruct (Hr k Hk) as [E Hv]. unfold db_get. by rewrite E. Qed.

Definition spec_hash t k : bytes := match t k with Some (VHash h) => h | _ => zero_hash32 end.

Lemma get_hash_spec db t k :
  represents db t → tkey_ok k →
  (match k with TkCanonical _ | TkHeadHeader | TkHeadBlock | TkHeadFast => True | _ => False end) →
  get_hash db (tkey_bytes k) = spec_hash t k.
Proof.
  intros Hr Hk Hkind. destruct (represents_get db t k Hr Hk) as [E Hv]. unfold get_hash, spec_hash. rewrite E.
  destruct (t k) as [v|]; [|done]. destruct (Hv v eq_refl) as [_ Hfit]. cbn [fmap option_fmap option_map default].
  assert (∃ h, v = VHash h ∧ byte_array 32 h) as (h & -> & [Hl _]) by (destruct k, v; try done; eauto).
  cbn [tval_bytes]. destruct h as [|x h]; [done|]. by apply BytesToHash_32.
Qed.

(** A decoder that reads an encoding decodes it from the store. *)
Lemma reads_Decode {A} (dec : nat → M A) bs a : reads (dec (S (length bs))) bs a → fits64 (length bs) → rlp_Decode dec bs = Ok a.
Proof.
  intros HR Hf. unfold rlp_Decode. destruct (HR (NewStream bs) [] []) as (s' & -> & _); [|done|done].
  split; [done|]. unfold base. simpl. rewrite app_nil_r. by split_and!.
Qed.

Lemma get_decoded_spec {A} (dec : nat → M A) db t k (val : tval → option A) :
  represents db t → tkey_ok k →
  (∀ v, t k = Some v → tval_fits k v →
     tval_bytes v ≠ [] ∧ ∃ a, val v = Some a ∧ reads (dec (S (length (tval_bytes v)))) (tval_bytes v) a) →
  get_decoded dec db (tkey_bytes k) = t k ≫= val.
Proof.
  intros Hr Hk Hdec. destruct (represents_get db t k Hr Hk) as [E Hv]. unfold get_decoded. rewrite E.
  destruct (t k) as [v|]; [|done]. destruct (Hdec v eq_refl (Hv v eq_refl)) as (Hne & a & Ha & HR).
  cbn [fmap option_fmap option_map default mbind option_bind]. rewrite Ha.
  assert (rlp_Decode dec (tval_bytes v) = Ok a) as ED by (apply reads_Decode; [done|by destruct (Hv v eq_refl)]).
  destruct (tval_bytes v); [done|]. cbn [id]. by rewrite ED.
Qed.

Lemma enc_list_cons p : enc_list p ≠ [].
Proof. intros E. pose proof (enc_list_length p) as Hl. rewrite E in Hl. cbn in Hl. lia. Qed.

Lemma enc_str_cons b : enc_str b ≠ [].
Proof.
  intros E. pose proof (enc_str_length b) as Hl. rewrite E in Hl. destruct b as [|x b]; [discriminate E|]. cbn in Hl. lia.
Qed.

Definition spec_header t hash number : option Header := match t (TkHeader hash number) with Some (VHeader h) => Some h | _ => None end.
Definition spec_td t hash number : option Z := match t (TkTd hash number) with Some (VTd td) => Some td | _ => None end.
Definition spec_body t hash number : option Body :=
  match t (TkBody hash number) with
  | Some (VBody b) => Some (MkBody (map decoded_tx (bd_Transactions b)) (bd_Proofs b))
  | _ => None
  end.

Lemma GetHeader_spec db t hash number :
  represents db t → tkey_ok (TkHeader hash number) → GetHeader db hash number = spec_header t hash number.
Proof.
  intros Hr Hk. unfold GetHeader, spec_header. change (headerKey hash number) with (tkey_bytes (TkHeader hash number)).
  rewrite (get_decoded_spec decode_header db t (TkHeader hash number) (λ v, match v with VHeader h => Some h | _ => None end) Hr Hk).
  { by destruct (t _) as [[]|]. }
  intros v _ [Hf Hv]. destruct v as [| |h| | | |]; try done. cbn [tval_bytes] in *. split; [apply enc_list_cons|].
  exists h. split; [done|]. rewrite <-(header_of_header h Hv) at 3. apply (reads_map _ header_of_gval).
  apply (decode_reads (S (length (header_enc h))) header_ty (header_gval h) (header_enc h) I (header_typed _ Hv) (header_gval_enc _ Hv) Hf). lia.
Qed.

Lemma GetTd_spec db t hash number :
  represents db t → tkey_ok (TkTd hash number) → GetTd db hash number = spec_td t hash number.
Proof.
  intros Hr Hk. unfold GetTd, spec_td. change (tdKey hash number) with (tkey_bytes (TkTd hash number)).
  rewrite (get_decoded_spec _ db t (TkTd hash number) (λ v, match v with VTd td => Some td | _ => None end) Hr Hk).
  { by destruct (t _) as [[]|]. }
  intros v _ [Hf Hv]. destruct v as [| | |td| | |]; try done. cbn [tval_bytes] in *. split.
  { apply enc_str_cons. }
  exists td. split; [done|]. apply (reads_map _ (λ g : gval, match g with GBig i => i | _ => 0 end) _ (GBig td)).
  apply (decode_reads _ TBigInt (GBig td) _ I); [by exists td| |done|lia]. cbn. by rewrite (proj2 (Z.ltb_ge _ _)).
Qed.

Lemma body_reads n b :
  body_ok b → fits64 (length (body_enc b)) → (length (body_enc b) < n)%nat →
  reads (decode_body n) (body_enc b) (MkBody (map decoded_tx (bd_Transactions b)) (bd_Proofs b)).
Proof.
  intros [Ht Hp]. unfold body_enc. set (tb := concat (map tx_enc _)). set (pb := concat (map proof_enc _)).
  set (p := concat [enc_list tb; enc_list pb]). pose proof (enc_list_length tb) as L1. pose proof (enc_list_length pb) as L2.
  pose proof (enc_list_length p) as L3. assert (length p = length (enc_list tb) + length (enc_list pb))%nat as Lp
    by (unfold p; cbn [concat]; rewrite app_nil_r, length_app; done). intros Hf Hn.
  assert (∀ m, (m ≤ length (enc_list p))%nat → fits64 m) as Hle by (intros m Hm; by eapply fits64_le).
  set (fields := let! txs := field (decodeListSlice (Transaction_DecodeRLP n) n) in
    let! proofs := field (decodeListSlice (decode n proof_ty) n) in mret (MkBody txs (proof_of_gval <$> proofs))).
  assert (fills fields p (MkBody (map decoded_tx (bd_Transactions b)) (bd_Proofs b))) as Hfill.
  { unfold p. cbn [concat]. eapply fills_bind; [apply reads_field, txs_reads; [done|apply Hle|]; fold tb; lia|].
    eapply fills_bind; [apply reads_field, proofs_reads; [done|apply Hle|]; fold pb; lia|].
    intros s rest tos st Hr Hsz. exists s. by rewrite bump_0, proofs_of_gvals. }
  intros s rest st Hr Hroom.
  destruct (reads_list fields p _ ltac:(apply Hle; lia) Hfill s rest st Hr Hroom) as (s1 & s2 & s3 & E1 & E2 & Hr2 & E3 & Hr3).
  exists s3. split; [|done]. revert E2. unfold decode_body, fields, mbind_, wrapped. rewrite E1. cbn [omap_err].
  destruct (field (decodeListSlice (Transaction_DecodeRLP n) n) s1) as [[txs| |] s4]; [|done..].
  destruct (field (decodeListSlice (decode n proof_ty) n) s4) as [[ps| |] s5]; [|done..].
  intros [= -> -> ->]. rewrite E3. done.
Qed.

Lemma GetBody_spec db t hash number :
  represents db t → tkey_ok (TkBody hash number) → GetBody db hash number = spec_body t hash number.
Proof.
  intros Hr Hk. unfold GetBody, spec_body. change (blockBodyKey hash number) with (tkey_bytes (TkBody hash number)).
  rewrite (get_decoded_spec _ db t (TkBody hash number)
    (λ v, match v with VBody b => Some (MkBody (map decoded_tx (bd_Transactions b)) (bd_Proofs b)) | _ => None end) Hr Hk).
  { by destruct (t _) as [[]|]. }
  intros v _ [Hf Hv]. destruct v as [| | | |b| |]; try done. split; [apply enc_list_cons|].
  eexists. split; [done|]. apply body_reads; [done..|cbn; lia].
Qed.

Definition spec_number t hash : Z := match t (TkNumber hash) with Some (VNumber n) => n | _ => missingNumber end.

Lemma GetBlockNumber_spec db t hash :
  represents db t → tkey_ok (TkNumber hash) → GetBlockNumber db hash = spec_number t hash.
Proof.
  intros Hr Hk. destruct (represents_get db t (TkNumber hash) Hr Hk) as [E Hv]. unfold GetBlockNumber, spec_number.
  change (numberKey hash) with (tkey_bytes (TkNumber hash)). rewrite E.
  destruct (t (TkNumber hash)) as [v|]; [|done]. destruct (Hv v eq_refl) as [_ Hfit]. destruct v as [|n| | | | |]; try done.
  cbn [fmap option_fmap option_map default tval_bytes id]. unfold encodeBlockNumber. rewrite length_be_fixed, be_val_fixed. cbn [Nat.eqb negb].
  change (256 ^ Z.of_nat 8) with (2 ^ 64). apply Z.mod_small. done.
Qed.

(** Storing a receipt keeps whether its status is "failed". *)
Definition stored_receipt (r : Receipt) : Receipt := MkReceipt (if r_Status r =? 0 then 0 else 1) (r_ConfirmCount r) (r_TxHash r).

Definition spec_receipts t hash number : option (list Receipt) :=
  match t (TkReceipts hash number) with Some (VReceipts rs) => Some (map stored_receipt rs) | _ => None end.

Definition receipt_struct (r : Receipt) : gval := GStruct [GBytes (statusEncoding r); GUint (r_ConfirmCount r); GBytes (r_TxHash r)].

Lemma receipts_decode rs :
  Forall receipt_ok rs → fits64 (length (receipts_enc rs)) →
  DecodeBytes (TSlice receiptStorageRLP_ty) (receipts_enc rs) = Ok (GSlice false (map receipt_struct rs)) ∧
  mapM receipt_of_gval (map receipt_struct rs) = Some (map stored_receipt rs).
Proof.
  intros Hrs Hf. split.
  - apply decodes; [done|done| | |done].
    + exists (map receipt_struct rs). split; [|done]. apply Forall_map. eapply Forall_impl; [exact Hrs|]. apply storage_typed.
    + cbn [gval_enc]. rewrite (opt_concat_enc receipt_struct storage_enc); [done|]. by apply Forall_true.
  - apply mapM_Some. apply Forall2_fmap_2, Forall_Forall2_diag, Forall_forall. intros r _. cbn [receipt_struct receipt_of_gval].
    by rewrite setStatus_statusEncoding.
Qed.

Lemma GetBlockReceipts_spec db t hash number :
  represents db t → tkey_ok (TkReceipts hash number) → GetBlockReceipts db hash number = spec_receipts t hash number.
Proof.
  intros Hr Hk. destruct (represents_get db t (TkReceipts hash number) Hr Hk) as [E Hv]. unfold GetBlockReceipts, spec_receipts.
  change (receiptsKey hash number) with (tkey_bytes (TkReceipts hash number)). rewrite E.
  destruct (t (TkReceipts hash number)) as [v|]; [|done]. destruct (Hv v eq_refl) as [Hf Hfit]. destruct v as [| | | | |rs|]; try done.
  cbn [fmap option_fmap option_map default tval_bytes id] in *. destruct (receipts_decode rs Hfit Hf) as [ED EM].
  pose proof (enc_list_cons (concat (map storage_enc rs))) as Hne. fold (receipts_enc rs) in Hne.
  destruct (receipts_enc rs); [done|]. by rewrite ED.
Qed.

Definition spec_lookup t hash : bytes * Z * Z :=
  match t (TkLookup hash) with Some (VLookup e) => (le_BlockHash e, le_BlockIndex e, le_Index e) | _ => (zero_hash32, 0, 0) end.

Lemma lookup_decode e : lookup_ok e → fits64 (length (lookup_enc e)) → DecodeBytes lookup_ty (lookup_enc e) = Ok (lookup_gval e).
Proof.
  intros (Hh & Hi & Hj) Hf. apply decodes; [done|done| |done|done]. apply has_type_struct. eexists. split; [|done].
  repeat constructor.
  - by apply byte_array_typed; [lia|].
  - exists (le_BlockIndex e). split_and!; [tauto|apply Hi..|done].
  - exists (le_Index e). split_and!; [tauto|apply Hj..|done].
Qed.

Lemma GetTxLookupEntry_spec db t hash :
  represents db t → tkey_ok (TkLookup hash) → GetTxLookupEntry db hash = spec_lookup t hash.
Proof.
  intros Hr Hk. destruct (represents_get db t (TkLookup hash) Hr Hk) as [E Hv]. unfold GetTxLookupEntry, spec_lookup.
  change (lookupKey hash) with (tkey_bytes (TkLookup hash)). rewrite E.
  destruct (t (TkLookup hash)) as [v|]; [|done]. destruct (Hv v eq_refl) as [Hf Hfit]. destruct v as [| | | | | |e]; try done.
  cbn [fmap option_fmap option_map default tval_bytes id] in *. pose proof (lookup_decode e Hfit Hf) as ED.
  pose proof (enc_list_cons (concat [enc_str (le_BlockHash e); enc_str (be_bytes (le_BlockIndex e)); enc_str (be_bytes (le_Index e))])) as Hne.
  fold (lookup_enc e) in Hne. destruct (lookup_enc e); [done|]. by rewrite ED.
Qed.

(** ** Writing *)

Definition header_number (h : Header) : Z := default 0 (h_Number h).
Definition header_hash (h : Header) : bytes := keccak256 (header_enc h).

(** A header that can be stored: well formed, with a 64-bit number. *)
Definition header_stores (h : Header) : Prop := header_ok h ∧ uint64 (header_number h) ∧ fits64 (length (header_enc h)).

Definition put_header (h : Header) t : tables :=
  put (TkHeader (header_hash h) (header_number h)) (VHeader h) (put (TkNumber (header_hash h)) (VNumber (header_number h)) t).

Lemma NumberU64_ok h : header_ok h → uint64 (header_number h) → NumberU64 h = Ok (header_number h).
Proof.
  intros Hh Hn. pose proof (ok_Number h Hh) as H. unfold NumberU64, header_number in *. destruct (h_Number h) as [n|]; [|done].
  cbn in *. by rewrite Z.abs_eq, wrap_small.
Qed.

Lemma length_8_fits n : fits64 (length (encodeBlockNumber n)).
Proof. unfold encodeBlockNumber. rewrite length_be_fixed. unfold fits64. lia. Qed.

Lemma WriteHeader_spec db t h :
  represents db t → header_stores h → ∃ db', WriteHeader h db = Ok db' ∧ represents db' (put_header h t).
Proof.
  intros Hr (Hh & Hn & Hf). unfold WriteHeader. rewrite (proj1 (encodes _ _ [] (typed_ok _ _ (header_typed h Hh)) (header_gval_enc h Hh) Hf)).
  cbn [obind]. rewrite Header_Hash_enc by done. cbn [obind]. rewrite NumberU64_ok by done. cbn [obind]. fold (header_hash h).
  eexists. split; [done|]. unfold put_header. change ((headerPrefix ++ encodeBlockNumber (header_number h)) ++ header_hash h)
    with (tkey_bytes (TkHeader (header_hash h) (header_number h))).
  change (header_enc h) with (tval_bytes (VHeader h)). apply represents_put; [|split; [apply keccak_length|done]|by split].
  change (numberKey (header_hash h)) with (tkey_bytes (TkNumber (header_hash h))).
  change (encodeBlockNumber (header_number h)) with (tval_bytes (VNumber (header_number h))).
  apply represents_put; [done|apply keccak_length|split; [apply length_8_fits|done]].
Qed.

Lemma body_gval_enc b : gval_enc (body_gval b) = Some (body_enc b).
Proof.
  unfold body_gval, body_enc. cbn [gval_enc map].
  rewrite (opt_concat_enc tx_gval tx_enc), (opt_concat_enc proof_gval proof_enc) by (by apply Forall_true). done.
Qed.

Lemma body_gval_ok b : body_ok b → gval_ok (body_gval b).
Proof.
  intros [_ Hp]. apply (gval_ok_list [_; _]). constructor; [|constructor; [|done]]; apply gval_ok_list, Forall_map.
  - by apply Forall_true.
  - eapply Forall_impl; [exact Hp|]. intros p Hok. apply (typed_ok _ _ (proof_typed p Hok)).
Qed.

Lemma WriteBody_spec db t hash number b :
  represents db t → tkey_ok (TkBody hash number) → body_ok b → fits64 (length (body_enc b)) →
  ∃ db', WriteBody hash number b db = Ok db' ∧ represents db' (put (TkBody hash number) (VBody b) t).
Proof.
  intros Hr Hk Hb Hf. unfold WriteBody. rewrite (proj1 (encodes _ _ [] (body_gval_ok b Hb) (body_gval_enc b) Hf)).
  cbn [obind]. eexists. split; [done|]. apply (represents_put db t (TkBody hash number) (VBody b)); [done|done|by split].
Qed.

Lemma WriteTd_spec db t hash number td :
  represents db t → tkey_ok (TkTd hash number) → 0 ≤ td → fits64 (length (enc_str (be_bytes td))) →
  ∃ db', WriteTd hash number td db = Ok db' ∧ represents db' (put (TkTd hash number) (VTd td) t).
Proof.
  intros Hr Hk Htd Hf. unfold WriteTd. rewrite (proj1 (encodes (GPtr (GBig td)) (enc_str (be_bytes td)) [] I
    ltac:(cbn; by rewrite (proj2 (Z.ltb_ge _ _))) Hf)).
  cbn [obind]. eexists. split; [done|]. apply (represents_put db t (TkTd hash number) (VTd td)); [done|done|by split].
Qed.

Lemma WriteBlockReceipts_spec db t hash number rs :
  represents db t → tkey_ok (TkReceipts hash number) → Forall receipt_ok rs → fits64 (length (receipts_enc rs)) →
  ∃ db', WriteBlockReceipts hash number rs db = Ok db' ∧ represents db' (put (TkReceipts hash number) (VReceipts rs) t).
Proof.
  intros Hr Hk Hrs Hf. unfold WriteBlockReceipts.
  assert (gval_ok (receipts_gval rs)) as Hok.
  { apply gval_ok_list, Forall_map. eapply Forall_impl; [exact Hrs|]. intros r [Hc _]. cbn. done. }
  assert (gval_enc (receipts_gval rs) = Some (receipts_enc rs)) as Henc.
  { unfold receipts_gval, receipts_enc. cbn [gval_enc]. rewrite (opt_concat_enc (GPtr ∘ storage_gval) storage_enc); [done|].
    by apply Forall_true. }
  rewrite (proj1 (encodes _ _ [] Hok Henc Hf)). cbn [obind]. eexists. split; [done|].
  apply (represents_put db t (TkReceipts hash number) (VReceipts rs)); [done|done|by split].
Qed.

(** A block that can be stored; a cached hash is the hash of the header. *)
Definition block_stores (b : Block) : Prop :=
  block_ok b ∧ header_stores (b_header b) ∧ fits64 (length (body_enc (Block_Body b))) ∧
  (match b_hash b with Some h => h = header_hash (b_header b) | None => True end).

Definition put_block (b : Block) t : tables :=
  put_header (b_header b) (put (TkBody (header_hash (b_header b)) (header_number (b_header b))) (VBody (Block_Body b)) t).

Lemma Block_Hash_ok b : block_stores b →
  ∃ b', Block_Hash b = Ok (header_hash (b_header b), b') ∧ b_header b' = b_header b ∧ Block_Body b' = Block_Body b ∧ block_stores b'.
Proof.
  intros Hb. pose proof Hb as ([Hk1 Hk2 Hk3] & (Hh & Hn & Hf) & Hbd & Hc). unfold Block_Hash. destruct (b_hash b) as [h|] eqn:E.
  - subst h. exists b. done.
  - rewrite Header_Hash_enc by done. cbn [obind]. eexists. split_and!; [done..|]. by split_and!.
Qed.

Lemma CopyHeader_ok h : header_ok h → CopyHeader h = h.
Proof. intros [? ? ? ? ? ? ? H1 H2 H3 _]. by destruct h as [? ? ? ? ? ? ? [|] [|] [|] ?]. Qed.

Lemma WriteBlock_spec db t b :
  represents db t → block_stores b → ∃ db', WriteBlock b db = Ok db' ∧ represents db' (put_block b t).
Proof.
  intros Hr Hb. destruct (Block_Hash_ok b Hb) as (b' & EH & Eh & Eb & _). destruct Hb as ([Hh Ht Hp] & Hst & Hf & _).
  unfold WriteBlock. rewrite EH. cbn [obind]. rewrite Eh, Eb, NumberU64_ok by apply Hst. cbn [obind].
  destruct (WriteBody_spec db t (header_hash (b_header b)) (header_number (b_header b)) (Block_Body b) Hr) as (db1 & -> & Hr1);
    [split; [apply keccak_length|apply Hst]|by split|done|].
  cbn [obind]. rewrite CopyHeader_ok by done. by apply WriteHeader_spec.
Qed.

(** A transaction whose position can be stored. *)
Definition tx_stores (tx : Transaction) : Prop := cache_ok tx ∧ fits64 (length (tx_enc tx)).
Definition tx_hash_of (tx : Transaction) : bytes := keccak256 (tx_enc tx).

Fixpoint put_lookups (blockHash : bytes) (number index : Z) (txs : list Transaction) t : tables :=
  match txs with
  | [] => t
  | tx :: txs =>
      put_lookups blockHash number (index + 1) txs
        (put (TkLookup (tx_hash_of tx)) (VLookup (MkLookup blockHash number index)) t)
  end.

Lemma uint64_length n : uint64 n → (length (enc_str (be_bytes n)) ≤ 9)%nat.
Proof.
  intros Hn. assert (length (be_bytes n) ≤ 8)%nat as Hb.
  { rewrite length_be_bytes. destruct (decide (n = 0)) as [->|]; [rewrite byte_len_0; lia|]. apply byte_len_8.
    unfold uint64 in Hn. lia. }
  pose proof (short_length (be_bytes n) ltac:(lia)). lia.
Qed.

Lemma lookup_small e : lookup_ok e → fits64 (length (lookup_enc e)).
Proof.
  intros ((Hl & _) & Hi%uint64_length & Hj%uint64_length). pose proof (short_length (le_BlockHash e) ltac:(lia)).
  unfold lookup_enc, enc_list, header. cbn [concat]. rewrite app_nil_r. set (p := enc_str (le_BlockHash e) ++ _).
  assert (length p ≤ 51)%nat as Hp by (unfold p; rewrite !length_app; lia). unfold fits64.
  destruct (Z.ltb_spec (Z.of_nat (length p)) 56); [|lia]. rewrite length_app. simpl. lia.
Qed.

Lemma lookups_spec blockHash number index txs db t :
  represents db t → byte_array 32 blockHash → uint64 number → 0 ≤ index → index + Z.of_nat (length txs) < 2 ^ 64 →
  Forall tx_stores txs →
  ∃ db', write_lookups blockHash number index txs db = Ok db' ∧ represents db' (put_lookups blockHash number index txs t).
Proof.
  intros Hr Hh Hn. revert index db t Hr. induction txs as [|tx txs IH]; intros index db t Hr Hi Hlen Htx; [by exists db|].
  apply Forall_cons in Htx as [[Hc Hf] Htx]. cbn [length] in Hlen. cbn [write_lookups put_lookups].
  assert (lookup_ok (MkLookup blockHash number index)) as Hok by (split_and!; [done..|unfold uint64; cbn; lia]).
  rewrite (proj1 (encodes (lookup_gval (MkLookup blockHash number index)) (lookup_enc (MkLookup blockHash number index)) []
    ltac:(cbn; unfold lookup_ok, uint64 in Hok; naive_solver) eq_refl (lookup_small _ Hok))).
  cbn [obind]. destruct (Transaction_Hash_enc tx Hc Hf) as (tx' & -> & _). cbn [obind].
  apply IH; [|lia|lia|done].
  apply (represents_put db t (TkLookup (tx_hash_of tx)) (VLookup (MkLookup blockHash number index)) Hr); [apply keccak_length|].
  split; [by apply lookup_small|done].
Qed.

(** ** Any sequence of writes and deletions *)

Inductive cmd :=
| CWriteCanonicalHash (hash : bytes) (number : Z)
| CDeleteCanonicalHash (number : Z)
| CWriteHeadHeaderHash (hash : bytes)
| CWriteHeadBlockHash (hash : bytes)
| CWriteHeadFastBlockHash (hash : bytes)
| CWriteHeader (header : Header)
| CDeleteHeader (hash : bytes) (number : Z)
| CWriteBody (hash : bytes) (number : Z) (body : Body)
| CDeleteBody (hash : bytes) (number : Z)
| CWriteTd (hash : bytes) (number td : Z)
| CDeleteTd (hash : bytes) (number : Z)
| CWriteBlockReceipts (hash : bytes) (number : Z) (receipts : list Receipt)
| CDeleteBlockReceipts (hash : bytes) (number : Z)
| CWriteBlock (block : Block)
| CDeleteBlock (hash : bytes) (number : Z)
| CWriteTxLookupEntries (block : Block)
| CDeleteTxLookupEntry (hash : bytes).

Definition exec_cmd (c : cmd) db : outcome rlp_error kv :=
  match c with
  | CWriteCanonicalHash hash number => Ok (WriteCanonicalHash hash number db)
  | CDeleteCanonicalHash number => Ok (DeleteCanonicalHash number db)
  | CWriteHeadHeaderHash hash => Ok (WriteHeadHeaderHash hash db)
  | CWriteHeadBlockHash hash => Ok (WriteHeadBlockHash hash db)
  | CWriteHeadFastBlockHash hash => Ok (WriteHeadFastBlockHash hash db)
  | CWriteHeader header => WriteHeader header db
  | CDeleteHeader hash number => Ok (DeleteHeader hash number db)
  | CWriteBody hash number body => WriteBody hash number body db
  | CDeleteBody hash number => Ok (DeleteBody hash number db)
  | CWriteTd hash number td => WriteTd hash number td db
  | CDeleteTd hash number => Ok (DeleteTd hash number db)
  | CWriteBlockReceipts hash number receipts => WriteBlockReceipts hash number receipts db
  | CDeleteBlockReceipts hash number => Ok (DeleteBlockReceipts hash number db)
  | CWriteBlock block => WriteBlock block db
  | CDeleteBlock hash number => Ok (DeleteBlock hash number db)
  | CWriteTxLookupEntries block => WriteTxLookupEntries block db
  | CDeleteTxLookupEntry hash => Ok (DeleteTxLookupEntry hash db)
  end.

Definition spec_cmd (c : cmd) t : tables :=
  match c with
  | CWriteCanonicalHash hash number => put (TkCanonical number) (VHash hash) t
  | CDeleteCanonicalHash number => drop_key (TkCanonical number) t
  | CWriteHeadHeaderHash hash => put TkHeadHeader (VHash hash) t
  | CWriteHeadBlockHash hash => put TkHeadBlock (VHash hash) t
  | CWriteHeadFastBlockHash hash => put TkHeadFast (VHash hash) t
  | CWriteHeader header => put_header header t
  | CDeleteHeader hash number => drop_key (TkHeader hash number) (drop_key (TkNumber hash) t)
  | CWriteBody hash number body => put (TkBody hash number) (VBody body) t
  | CDeleteBody hash number => drop_key (TkBody hash number) t
  | CWriteTd hash number td => put (TkTd hash number) (VTd td) t
  | CDeleteTd hash number => drop_key (TkTd hash number) t
  | CWriteBlockReceipts hash number receipts => put (TkReceipts hash number) (VReceipts receipts) t
  | CDeleteBlockReceipts hash number => drop_key (TkReceipts hash number) t
  | CWriteBlock block => put_block block t
  | CDeleteBlock hash number =>
      drop_key (TkTd hash number) (drop_key (TkBody hash number)
        (drop_key (TkHeader hash number) (drop_key (TkNumber hash) (drop_key (TkReceipts hash number) t))))
  | CWriteTxLookupEntries block =>
      put_lookups (header_hash (b_header block)) (header_number (b_header block)) 0 (b_transactions block) t
  | CDeleteTxLookupEntry hash => drop_key (TkLookup hash) t
  end.

(** Arguments of the right sizes. *)
Definition cmd_ok (c : cmd) : Prop :=
  match c with
  | CWriteCanonicalHash hash number => byte_array 32 hash ∧ uint64 number
  | CDeleteCanonicalHash number => uint64 number
  | CWriteHeadHeaderHash hash | CWriteHeadBlockHash hash | CWriteHeadFastBlockHash hash => byte_array 32 hash
  | CWriteHeader header => header_stores header
  | CWriteBody hash number body => length hash = 32%nat ∧ uint64 number ∧ body_ok body ∧ fits64 (length (body_enc body))
  | CWriteTd hash number td => length hash = 32%nat ∧ uint64 number ∧ 0 ≤ td ∧ fits64 (length (enc_str (be_bytes td)))
  | CWriteBlockReceipts hash number rs =>
      length hash = 32%nat ∧ uint64 number ∧ Forall receipt_ok rs ∧ fits64 (length (receipts_enc rs))
  | CDeleteHeader hash number | CDeleteBody hash number | CDeleteTd hash number | CDeleteBlockReceipts hash number
  | CDeleteBlock hash number => length hash = 32%nat ∧ uint64 number
  | CWriteBlock block => block_stores block
  | CWriteTxLookupEntries block =>
      block_stores block ∧ Forall tx_stores (b_transactions block) ∧ Z.of_nat (length (b_transactions block)) < 2 ^ 64
  | CDeleteTxLookupEntry hash => length hash = 32%nat
  end.

Lemma hash_fits h : byte_array 32 h → fits64 (length h).
Proof. intros [-> _]. unfold fits64. lia. Qed.

Lemma represents_put_hash db t k h :
  represents db t → tkey_ok k → byte_array 32 h →
  (match k with TkCanonical _ | TkHeadHeader | TkHeadBlock | TkHeadFast => True | _ => False end) →
  represents (<[tkey_bytes k := h]> db) (put k (VHash h) t).
Proof.
  intros Hr Hk Hh Hkind. apply (represents_put db t k (VHash h) Hr Hk). split; [by apply hash_fits|]. by destruct k.
Qed.

Lemma cmd_refines c db t : represents db t → cmd_ok c → ∃ db', exec_cmd c db = Ok db' ∧ represents db' (spec_cmd c t).
Proof.
  intros Hr. destruct c; cbn [cmd_ok exec_cmd spec_cmd]; intros Hc.
  - eexists. split; [done|]. by apply (represents_put_hash db t (TkCanonical number) hash Hr (proj2 Hc) (proj1 Hc)).
  - eexists. split; [done|]. by apply (represents_drop db t (TkCanonical number)).
  - eexists. split; [done|]. by apply (represents_put_hash db t TkHeadHeader).
  - eexists. split; [done|]. by apply (represents_put_hash db t TkHeadBlock).
  - eexists. split; [done|]. by apply (represents_put_hash db t TkHeadFast).
  - by apply WriteHeader_spec.
  - eexists. split; [done|]. apply (represents_drop _ _ (TkHeader hash number)); [|done].
    apply (represents_drop _ _ (TkNumber hash)); [done|apply Hc].
  - apply WriteBody_spec; [done|split|..]; apply Hc.
  - eexists. split; [done|]. by apply (represents_drop db t (TkBody hash number)).
  - apply WriteTd_spec; [done|split|..]; apply Hc.
  - eexists. split; [done|]. by apply (represents_drop db t (TkTd hash number)).
  - apply WriteBlockReceipts_spec; [done|split|..]; apply Hc.
  - eexists. split; [done|]. by apply (represents_drop db t (TkReceipts hash number)).
  - by apply WriteBlock_spec.
  - eexists. split; [done|]. apply (represents_drop _ _ (TkTd hash number)); [|done].
    apply (represents_drop _ _ (TkBody hash number)); [|done]. apply (represents_drop _ _ (TkHeader hash number)); [|done].
    apply (represents_drop _ _ (TkNumber hash)); [|apply Hc]. by apply (represents_drop _ _ (TkReceipts hash number)).
  - destruct Hc as (Hb & Htx & Hlen). destruct (Block_Hash_ok block Hb) as (b' & EH & _). destruct Hb as (_ & (Hh & Hn & _) & _).
    unfold WriteTxLookupEntries. rewrite EH, NumberU64_ok by done. cbn [obind].
    destruct (lookups_spec (header_hash (b_header block)) (header_number (b_header block)) 0 (b_transactions block) db t)
      as (db' & E & Hr'); [done|split; [apply keccak_length|apply keccak_byte]|done|lia|lia|done|].
    exists db'. split; [|done]. rewrite <-E. by destruct (b_transactions block).
  - eexists. split; [done|]. by apply (represents_drop db t (TkLookup hash)).
Qed.

Fixpoint exec_cmds (cs : list cmd) db : outcome rlp_error kv :=
  match cs with
  | [] => Ok db
  | c :: cs => let* db := exec_cmd c db in exec_cmds cs db
  end.

Definition spec_block t hash number : option Block :=
  h ← spec_header t hash number; b ← spec_body t hash number; Some (MkBlock h (bd_Transactions b) (bd_Proofs b) None None None).

Lemma GetBlock_spec db t hash number :
  represents db t → length hash = 32%nat → uint64 number → GetBlock db hash number = spec_block t hash number.
Proof.
  intros Hr Hh Hn. unfold GetBlock, spec_block. rewrite (GetHeader_spec db t), (GetBody_spec db t) by done.
  unfold spec_header. destruct (Hr (TkHeader hash number) (conj Hh Hn)) as [_ Hfit].
  destruct (t (TkHeader hash number)) as [[| |h| | | |]|] eqn:E; try done. destruct (Hfit _ eq_refl) as [_ Hok]. cbn in Hok |- *.
  destruct (spec_body t hash number) as [b|]; [|done]. cbn. unfold WithBody, NewBlockWithHeader. cbn.
  by rewrite !CopyHeader_ok; [|done|rewrite CopyHeader_ok].
Qed.

Lemma cmds_refine cs db t :
  represents db t → Forall cmd_ok cs → ∃ db', exec_cmds cs db = Ok db' ∧ represents db' (foldl (flip spec_cmd) t cs).
Proof.
  intros Hr Hcs. revert db t Hr. induction Hcs as [|c cs Hc _ IH]; intros db t Hr; [by exists db|].
  destruct (cmd_refines c db t Hr Hc) as (db1 & E & Hr1). cbn. rewrite E. cbn. by apply IH.
Qed.

(** C35: The chain database is a set of independent typed tables.  After any
    sequence of writes and deletions of canonical hashes, head pointers, headers,
    bodies, blocks, difficulties, receipts and transaction lookups on an empty
    store, every read answers what the table of its own holds, although all of
    them share one key space: no write fails and no write is seen by a read of
    another key. *)
Theorem chaindb_refines_tables cs :
  Forall cmd_ok cs →
  ∃ db, exec_cmds cs ∅ = Ok db ∧
  let t := foldl (flip spec_cmd) (λ _, None) cs in
  GetHeadHeaderHash db = spec_hash t TkHeadHeader ∧
  GetHeadBlockHash db = spec_hash t TkHeadBlock ∧
  GetHeadFastBlockHash db = spec_hash t TkHeadFast ∧
  (∀ number, uint64 number → GetCanonicalHash db number = spec_hash t (TkCanonical number)) ∧
  (∀ hash, length hash = 32%nat →
     GetBlockNumber db hash = spec_number t hash ∧ GetTxLookupEntry db hash = spec_lookup t hash) ∧
  (∀ hash number, length hash = 32%nat → uint64 number →
     GetHeader db hash number = spec_header t hash number ∧
     GetBody db hash number = spec_body t hash number ∧
     GetBlock db hash number = spec_block t hash number ∧
     GetTd db hash number = spec_td t hash number ∧
     GetBlockReceipts db hash number = spec_receipts t hash number).
Proof.
  intros Hcs. destruct (cmds_refine cs ∅ _ represents_empty Hcs) as (db & E & Hr). exists db. split; [done|]. cbn zeta.
  split; [by apply (get_hash_spec db _ TkHeadHeader)|]. split; [by apply (get_hash_spec db _ TkHeadBlock)|].
  split; [by apply (get_hash_spec db _ TkHeadFast)|]. split; [intros n Hn; by apply (get_hash_spec db _ (TkCanonical n))|]. split.
  - intros hash Hh. split; [by apply GetBlockNumber_spec|by apply GetTxLookupEntry_spec].
  - intros hash number Hh Hn. split_and!; [by apply GetHeader_spec|by apply GetBody_spec|by apply GetBlock_spec|by apply GetTd_spec
      |by apply GetBlockReceipts_spec].
Qed.

(** An update of a receipt through UpdateTxReceiptWithBlock is not seen by the
    reads of the block's receipts: it is written under the transaction's hash. *)
Lemma update_not_seen db t hash blockHash number index receipt db' :
  represents db t → length hash = 32%nat → length blockHash = 32%nat → uint64 number → hash ≠ blockHash →
  UpdateTxReceiptWithBlock hash blockHash number index receipt db = Ok (Some db') →
  GetBlockReceipts db' blockHash number = GetBlockReceipts db blockHash number.
Proof.
  intros Hr Hh Hb Hn Hne. unfold UpdateTxReceiptWithBlock. destruct (negb _); [|done]. destruct (_ <=? _); [done|].
  destruct (_.[_]) as [r| |]; [cbn [obind]|done..]. destruct (EncodeToBytes _) as [data| |]; [cbn [obind]|done..]. intros [= <-].
  unfold GetBlockReceipts, db_get. rewrite lookup_insert_ne; [done|]. intros E.
  change (tkey_bytes (TkReceipts hash number) = tkey_bytes (TkReceipts blockHash number)) in E.
  apply tkey_bytes_inj in E; [|done..]. by injection E.
Qed.
End Tables.

Definition ex_cmds : list cmd :=
  [CWriteBlock ex_block; CWriteTd (replicate 32 3) 7 1000; CWriteBlockReceipts (replicate 32 3) 7 [MkReceipt 1 2 (replicate 32 4)];
   CWriteCanonicalHash (replicate 32 3) 7; CWriteHeadBlockHash (replicate 32 3); CDeleteBody (replicate 32 3) 7].

Lemma ex_block_stores : block_stores ex_block.
Proof. split; [exact ex_block_ok|]. split; [split; [exact ex_header_ok|split; [by_decide|by vm_compute]]|]. by split; [vm_compute|]. Qed.

Lemma ex_cmds_ok : Forall cmd_ok ex_cmds.
Proof.
  assert (byte_array 32 (replicate 32 3)) as Hh by (split; [reflexivity|by_decide]). assert (uint64 7) as Hn by by_decide.
  apply Forall_cons. split; [exact ex_block_stores|]. apply Forall_cons. split.
  { split; [reflexivity|]. split; [exact Hn|]. split; [lia|by vm_compute]. }
  apply Forall_cons. split.
  { split; [reflexivity|]. split; [exact Hn|]. split; [|by vm_compute]. constructor; [|constructor]. split; [cbn; lia|].
    split; [reflexivity|by_decide]. }
  apply Forall_cons. split; [by split|]. apply Forall_cons. split; [exact Hh|]. apply Forall_cons. by split; [split|].
Qed.

Lemma chaindb_refines_tables_witness :
  ∃ db, exec_cmds ex_cmds ∅ = Ok db ∧
  GetTd db (replicate 32 3) 7 = spec_td (foldl (flip spec_cmd) (λ _, None) ex_cmds) (replicate 32 3) 7.
Proof.
  destruct (chaindb_refines_tables ex_cmds ex_cmds_ok) as (db & E & _ & _ & _ & _ & _ & H).
  exists db. split; [exact E|]. apply (H (replicate 32 3) 7); [reflexivity|by_decide].
Defined.
