(* ===== verification/HeaderChain.v ===== *)
(** * The header chain (blockchain/headerchain.go)

    Headers are stored with their total difficulty; the canonical chain is the
    numbering of the heaviest chain, re-routed when a side chain becomes
    heavier.  Three caches sit in front of the database.  The random choice
    between chains of equal difficulty is an argument. *)

From S2P Require Import Prelude RlpSpec RlpRaw RlpEncode RlpStream RlpRoundtrip TrieNode Trie TrieMap Sha256 Merkletree Types Lru ChainDb.
Local Open Scope Z_scope.

Inductive WriteStatus := NonStatTy | CanonStatTy | SideStatTy.

Inductive hc_error :=
| ErrUnknownAncestor
| ErrNonContiguous
| ErrAborted
| ErrVerify
| ErrNoGenesis
| ErrHcRlp (e : rlp_error)
| ErrOutOfRounds.

Abbreviation hc_out := (outcome hc_error).

Definition headerCacheLimit : nat := 512.
Definition tdCacheLimit : nat := 1024.
Definition numberCacheLimit : nat := 2048.

Section HeaderChain.
Context {KC : Keccak}.

Record HeaderChain := MkHC {
  hc_chainDb : gmap bytes bytes;
  hc_genesisHeader : option Header;
  hc_currentHeader : option Header;
  hc_currentHeaderHash : bytes;
  hc_headerCache : LRU Header;
  hc_tdCache : LRU Z;
  hc_numberCache : LRU Z
}.

Implicit Types (hc : HeaderChain) (hash : bytes) (number : Z).

Definition hc_set_db db hc := MkHC db (hc_genesisHeader hc) (hc_currentHeader hc) (hc_currentHeaderHash hc)
  (hc_headerCache hc) (hc_tdCache hc) (hc_numberCache hc).
Definition hc_set_current header hash hc := MkHC (hc_chainDb hc) (hc_genesisHeader hc) header hash
  (hc_headerCache hc) (hc_tdCache hc) (hc_numberCache hc).
Definition hc_set_headers c hc := MkHC (hc_chainDb hc) (hc_genesisHeader hc) (hc_currentHeader hc) (hc_currentHeaderHash hc)
  c (hc_tdCache hc) (hc_numberCache hc).
Definition hc_set_tds c hc := MkHC (hc_chainDb hc) (hc_genesisHeader hc) (hc_currentHeader hc) (hc_currentHeaderHash hc)
  (hc_headerCache hc) c (hc_numberCache hc).
Definition hc_set_numbers c hc := MkHC (hc_chainDb hc) (hc_genesisHeader hc) (hc_currentHeader hc) (hc_currentHeaderHash hc)
  (hc_headerCache hc) (hc_tdCache hc) c.

(** number-1 and number+1 on uint64 *)
Definition pred64 number : Z := wrap 64 (number - 1).
Definition succ64 number : Z := wrap 64 (number + 1).

Definition lift_rlp {A} (r : outcome rlp_error A) : hc_out A := omap_err ErrHcRlp r.

(** ** Reading through the caches *)

Definition hc_GetBlockNumber hash hc : Z * HeaderChain :=
  match lru_Get hash (hc_numberCache hc) with
  | (Some n, c) => (n, hc_set_numbers c hc)
  | (None, c) =>
      let hc := hc_set_numbers c hc in
      let number := GetBlockNumber (hc_chainDb hc) hash in
      (number, if negb (number =? missingNumber) then hc_set_numbers (lru_Add hash number (hc_numberCache hc)).2 hc else hc)
  end.

Definition hc_GetTd hash number hc : option Z * HeaderChain :=
  match lru_Get hash (hc_tdCache hc) with
  | (Some td, c) => (Some td, hc_set_tds c hc)
  | (None, c) =>
      let hc := hc_set_tds c hc in
      match GetTd (hc_chainDb hc) hash number with
      | None => (None, hc)
      | Some td => (Some td, hc_set_tds (lru_Add hash td (hc_tdCache hc)).2 hc)
      end
  end.

Definition hc_GetTdByHash hash hc : option Z * HeaderChain :=
  let '(number, hc) := hc_GetBlockNumber hash hc in hc_GetTd hash number hc.

Definition hc_WriteTd hash number (td : Z) hc : hc_out HeaderChain :=
  let* db := lift_rlp (WriteTd hash number td (hc_chainDb hc)) in
  Ok (hc_set_tds (lru_Add hash td (hc_tdCache hc)).2 (hc_set_db db hc)).

Definition hc_GetHeader hash number hc : option Header * HeaderChain :=
  match lru_Get hash (hc_headerCache hc) with
  | (Some header, c) => (Some header, hc_set_headers c hc)
  | (None, c) =>
      let hc := hc_set_headers c hc in
      match GetHeader (hc_chainDb hc) hash number with
      | None => (None, hc)
      | Some header => (Some header, hc_set_headers (lru_Add hash header (hc_headerCache hc)).2 hc)
      end
  end.

Definition hc_GetHeaderByHash hash hc : option Header * HeaderChain :=
  let '(number, hc) := hc_GetBlockNumber hash hc in hc_GetHeader hash number hc.

Definition hc_HasHeader hash number hc : bool :=
  if lru_Contains hash (hc_numberCache hc) || lru_Contains hash (hc_headerCache hc) then true
  else bool_decide (is_Some (hc_chainDb hc !! headerKey hash number)).

Definition hc_GetHeaderByNumber number hc : option Header * HeaderChain :=
  let hash := GetCanonicalHash (hc_chainDb hc) number in
  if bool_decide (hash = zero_hash32) then (None, hc) else hc_GetHeader hash number hc.

(** The loop of GetBlockHashesFromHash, [max] rounds left. *)
Fixpoint hashes_loop (max : nat) (header : Header) (chain : list bytes) hc : hc_out (list bytes * HeaderChain) :=
  match max with
  | O => Ok (chain, hc)
  | S max =>
      let next := h_ParentHash header in
      let* n := lift_rlp (NumberU64 header) in
      let '(h, hc) := hc_GetHeader next (pred64 n) hc in
      match h with
      | None => Ok (chain, hc)
      | Some header =>
          let chain := chain ++ [next] in
          match h_Number header with
          | None => Panic
          | Some 0 => Ok (chain, hc)
          | Some _ => hashes_loop max header chain hc
          end
      end
  end.

Definition GetBlockHashesFromHash hash (max : nat) hc : hc_out (option (list bytes) * HeaderChain) :=
  let '(header, hc) := hc_GetHeaderByHash hash hc in
  match header with
  | None => Ok (None, hc)
  | Some header => let* (chain, hc) := hashes_loop max header [] hc in Ok (Some chain, hc)
  end.

(** ** Writing *)

(** Delete the canonical numbers from [i] up; every round removes an entry. *)
Fixpoint delete_above (rounds : nat) (i : Z) (db : gmap bytes bytes) : hc_out (gmap bytes bytes) :=
  match rounds with
  | O => Err ErrOutOfRounds
  | S r =>
      if bool_decide (GetCanonicalHash db i = zero_hash32) then Ok db
      else delete_above r (succ64 i) (DeleteCanonicalHash i db)
  end.

(** Overwrite stale canonical numbers from [headNumber] down; the numbers go
    down to an ancestor that is canonical. *)
Fixpoint overwrite (rounds : nat) (headHash : bytes) (headNumber : Z) (headHeader : option Header) hc : hc_out HeaderChain :=
  match rounds with
  | O => Err ErrOutOfRounds
  | S r =>
      if bool_decide (GetCanonicalHash (hc_chainDb hc) headNumber = headHash) then Ok hc
      else
        let hc := hc_set_db (WriteCanonicalHash headHash headNumber (hc_chainDb hc)) hc in
        match headHeader with
        | None => Panic
        | Some header =>
            let headHash := h_ParentHash header in
            let* n := lift_rlp (NumberU64 header) in
            let headNumber := pred64 n in
            let '(headHeader, hc) := hc_GetHeader headHash headNumber hc in
            overwrite r headHash headNumber headHeader hc
        end
  end.

(** externTd above localTd, or equal and the coin says so. *)
Definition prefers (coin : bool) (externTd localTd : Z) : bool := (localTd <? externTd) || ((externTd =? localTd) && coin).

(** The branch of WriteHeader that makes the new header the head. *)
Definition make_canonical (header : Header) hash number hc : hc_out HeaderChain :=
  let* db := delete_above (S (size (hc_chainDb hc))) (succ64 number) (hc_chainDb hc) in
  let hc := hc_set_db db hc in
  let headHash := h_ParentHash header in
  let headNumber := pred64 number in
  let '(headHeader, hc) := hc_GetHeader headHash headNumber hc in
  let* hc := overwrite (S (Z.to_nat number)) headHash headNumber headHeader hc in
  let db := WriteHeadHeaderHash hash (WriteCanonicalHash hash number (hc_chainDb hc)) in
  Ok (hc_set_current (Some (CopyHeader header)) hash (hc_set_db db hc)).

Definition hc_WriteHeader (coin : bool) (header : Header) hc : hc_out (WriteStatus * HeaderChain) :=
  let* hash := lift_rlp (Header_Hash header) in
  let* number := lift_rlp (NumberU64 header) in
  let '(ptd, hc) := hc_GetTd (h_ParentHash header) (pred64 number) hc in
  match ptd with
  | None => Err ErrUnknownAncestor
  | Some ptd =>
      match hc_currentHeader hc, h_Difficulty header with
      | Some current, Some difficulty =>
          let* curNumber := lift_rlp (NumberU64 current) in
          let '(localTd, hc) := hc_GetTd (hc_currentHeaderHash hc) curNumber hc in
          let externTd := difficulty + ptd in
          let* hc := hc_WriteTd hash number externTd hc in
          let* db := lift_rlp (WriteHeader header (hc_chainDb hc)) in
          let hc := hc_set_db db hc in
          match localTd with
          | None => Panic
          | Some localTd =>
              let* (status, hc) :=
                if prefers coin externTd localTd then
                  let* hc := make_canonical header hash number hc in Ok (CanonStatTy, hc)
                else Ok (SideStatTy, hc) in
              let hc := hc_set_headers (lru_Add hash header (hc_headerCache hc)).2 hc in
              Ok (status, hc_set_numbers (lru_Add hash number (hc_numberCache hc)).2 hc)
          end
      | _, _ => Panic
      end
  end.

Definition SetCurrentHeader (head : Header) hc : hc_out HeaderChain :=
  let* hash := lift_rlp (Header_Hash head) in
  Ok (hc_set_current (Some head) hash (hc_set_db (WriteHeadHeaderHash hash (hc_chainDb hc)) hc)).

Definition SetGenesis (head : Header) hc : HeaderChain :=
  MkHC (hc_chainDb hc) (Some head) (hc_currentHeader hc) (hc_currentHeaderHash hc)
    (hc_headerCache hc) (hc_tdCache hc) (hc_numberCache hc).

Definition NewHeaderChain (db : gmap bytes bytes) : hc_out HeaderChain :=
  let hc := MkHC db None None zero_hash32 (NewLRU headerCacheLimit) (NewLRU tdCacheLimit) (NewLRU numberCacheLimit) in
  let '(genesis, hc) := hc_GetHeaderByNumber 0 hc in
  match genesis with
  | None => Err ErrNoGenesis
  | Some genesis =>
      let hc := SetGenesis genesis hc in
      let head := GetHeadBlockHash (hc_chainDb hc) in
      let '(current, hc) :=
        if bool_decide (head = zero_hash32) then (genesis, hc)
        else match hc_GetHeaderByHash head hc with (Some chead, hc) => (chead, hc) | (None, hc) => (genesis, hc) end in
      let* hash := lift_rlp (Header_Hash current) in
      Ok (hc_set_current (Some current) hash hc)
  end.

(** ** Importing a list of headers *)

(** The check at the start of ValidateHeaderChain. *)
Fixpoint contiguous (prev : Header) (chain : list Header) : hc_out unit :=
  match chain with
  | [] => Ok tt
  | h :: chain =>
      let* n := lift_rlp (NumberU64 h) in
      let* m := lift_rlp (NumberU64 prev) in
      let* prevHash := lift_rlp (Header_Hash prev) in
      if negb (n =? succ64 m) || negb (bool_decide (h_ParentHash h = prevHash)) then Err ErrNonContiguous
      else contiguous h chain
  end.

(** The verification results are those of the engine, [None] for nil; [interrupted]
    is procInterrupt before each of them.  An empty list panics at the last
    seal. *)
Fixpoint check_results (i : nat) (interrupted : nat → bool) (results : list (option hc_error)) : nat * hc_out unit :=
  match results with
  | [] => (O, Ok tt)
  | r :: results =>
      if interrupted i then (O, Err ErrAborted)
      else match r with Some e => (i, Err e) | None => check_results (S i) interrupted results end
  end.

Definition ValidateHeaderChain (verify : list Header → list (option hc_error)) (interrupted : nat → bool) (chain : list Header)
    : nat * hc_out unit :=
  match chain with
  | [] => (O, Panic)
  | h :: rest =>
      match contiguous h rest with
      | Ok _ => check_results 0 interrupted (verify chain)
      | r => (O, r)
      end
  end.

(** The loop of InsertHeaderChain with WriteHeader as its callback: with each header
    comes the random choice, and [interrupted] is procInterrupt before each of them.
    The index of the failing header is returned with an error. *)
Fixpoint insert_headers (interrupted : nat → bool) (i : nat) (chain : list (Header * bool)) hc
    : (nat * hc_out unit) * HeaderChain :=
  match chain with
  | [] => ((O, Ok tt), hc)
  | (header, coin) :: chain =>
      if interrupted i then ((i, Err ErrAborted), hc)
      else
        match Header_Hash header, NumberU64 header with
        | Ok hash, Ok number =>
            if hc_HasHeader hash number hc then insert_headers interrupted (S i) chain hc
            else
              match hc_WriteHeader coin header hc with
              | Ok (_, hc) => insert_headers interrupted (S i) chain hc
              | Err e => ((i, Err e), hc)
              | Panic => ((i, Panic), hc)
              end
        | _, _ => ((i, Panic), hc)
        end
  end.

(** After the loop the last header is read for a log line, which panics without one. *)
Definition InsertHeaderChain (interrupted : nat → bool) (chain : list (Header * bool)) hc
    : (nat * hc_out unit) * HeaderChain :=
  match chain with
  | [] => ((O, Panic), hc)
  | _ => insert_headers interrupted 0 chain hc
  end.

(** ** Rewinding *)

(** The loop of SetHead that deletes the headers above [head]; [delFn] is the
    callback on the database. *)
Fixpoint rewind (rounds : nat) (delFn : bytes → Z → gmap bytes bytes → gmap bytes bytes) (head : Z) hc : hc_out HeaderChain :=
  match rounds with
  | O => Err ErrOutOfRounds
  | S r =>
      match hc_currentHeader hc with
      | None => Ok hc
      | Some current =>
          let* num := lift_rlp (NumberU64 current) in
          if head <? num then
            let* hash := lift_rlp (Header_Hash current) in
            let db := DeleteTd hash num (DeleteHeader hash num (delFn hash num (hc_chainDb hc))) in
            let '(parent, hc) := hc_GetHeader (h_ParentHash current) (pred64 num) (hc_set_db db hc) in
            rewind r delFn head (hc_set_current parent (hc_currentHeaderHash hc) hc)
          else Ok hc
      end
  end.

(** for i := height; i > head; i-- *)
Fixpoint delete_numbers (rounds : nat) (i head : Z) (db : gmap bytes bytes) : gmap bytes bytes :=
  match rounds with
  | O => db
  | S r => if head <? i then delete_numbers r (i - 1) head (DeleteCanonicalHash i db) else db
  end.

Definition hc_SetHead (delFn : bytes → Z → gmap bytes bytes → gmap bytes bytes) (head : Z) hc : hc_out HeaderChain :=
  let* height := match hc_currentHeader hc with Some h => lift_rlp (NumberU64 h) | None => Ok 0 end in
  let* hc := rewind (S (Z.to_nat height)) delFn head hc in
  let hc := hc_set_db (delete_numbers (Z.to_nat height) height head (hc_chainDb hc)) hc in
  let hc := hc_set_headers (lru_Purge (hc_headerCache hc)) hc in
  let hc := hc_set_tds (lru_Purge (hc_tdCache hc)) hc in
  let hc := hc_set_numbers (lru_Purge (hc_numberCache hc)) hc in
  match (match hc_currentHeader hc with Some h => Some h | None => hc_genesisHeader hc end) with
  | None => Panic
  | Some current =>
      let* hash := lift_rlp (Header_Hash current) in
      Ok (hc_set_db (WriteHeadHeaderHash hash (hc_chainDb hc)) (hc_set_current (Some current) hash hc))
  end.
End HeaderChain.
