(* ===== verification/HeaderChainInv.v ===== *)
(** * The canonical chain is a chain (blockchain/headerchain.go)

    The invariant of the header chain: every stored difficulty belongs to a
    stored header whose parent is stored too, the canonical numbering follows
    the parent links from the head down to the genesis header and ends at the
    head.  WriteHeader keeps it on every path, the reorganisation included. *)

From S2P Require Import Prelude RlpSpec RlpRaw RlpEncode RlpStream RlpRoundtrip TrieNode Trie TrieMap Sha256 Merkletree Types Lru ChainDb ChainTables HeaderChain.
Local Open Scope Z_scope.

Section Inv.
Context {KC : Keccak}.
Implicit Types (t : tables) (hc : HeaderChain) (h : bytes) (n : Z) (header : Header).

(** ** The tree of headers *)

Definition canon t n : bytes := spec_hash t (TkCanonical n).

(** A header with a difficulty is known under its hash and number. *)
Definition known t h n : Prop := length h = 32%nat ∧ 0 ≤ n < 2 ^ 64 - 1 ∧ is_Some (spec_td t h n).

Definition difficulty header : Z := default 0 (h_Difficulty header).

(** A known header is stored, and its parent is known unless it is a genesis
    header. *)
Definition node_ok t h n : Prop := ∃ header td,
  spec_header t h n = Some header ∧ spec_td t h n = Some td ∧ header_hash header = h ∧ header_number header = n ∧
  header_stores header ∧ h ≠ zero_hash32 ∧
  (0 < n → ∃ ptd, known t (h_ParentHash header) (n - 1) ∧ spec_td t (h_ParentHash header) (n - 1) = Some ptd ∧
                  td = difficulty header + ptd).

Record tree t (genesis : bytes) : Prop := {
  tree_node h n : known t h n → node_ok t h n;
  tree_unique h n m : known t h n → known t h m → n = m;
  tree_root h : known t h 0 → h = genesis
}.

(** The numbering [c] follows the parent links from [n] down. *)
Definition rooted t (c : Z → bytes) n : Prop := ∀ m, 0 ≤ m ≤ n →
  known t (c m) m ∧ (0 < m → ∀ header, spec_header t (c m) m = Some header → c (m - 1) = h_ParentHash header).

(** Tables with the same headers and difficulties. *)
Definition same_nodes t t' : Prop := ∀ h n, t' (TkTd h n) = t (TkTd h n) ∧ t' (TkHeader h n) = t (TkHeader h n).

Lemma same_td t t' h n : same_nodes t t' → spec_td t' h n = spec_td t h n.
Proof. intros H. unfold spec_td. by destruct (H h n) as [-> _]. Qed.

Lemma same_header t t' h n : same_nodes t t' → spec_header t' h n = spec_header t h n.
Proof. intros H. unfold spec_header. by destruct (H h n) as [_ ->]. Qed.

Lemma same_known t t' h n : same_nodes t t' → known t' h n ↔ known t h n.
Proof. intros H. unfold known. by rewrite (same_td t t'). Qed.

Lemma same_tree t t' g : same_nodes t t' → tree t g → tree t' g.
Proof.
  intros H [T1 T2 T3]. split.
  - intros h n Hk. apply (same_known t t' h n H) in Hk. destruct (T1 h n Hk) as (hd & td & E1 & E2 & ? & ? & ? & ? & Hp).
    exists hd, td. rewrite (same_td t t'), (same_header t t') by done. split_and!; [done..|]. intros Hn.
    destruct (Hp Hn) as (ptd & ? & ? & ?). exists ptd. by rewrite (same_td t t'), (same_known t t').
  - intros h n m. rewrite !(same_known t t') by done. apply T2.
  - intros h. rewrite (same_known t t') by done. apply T3.
Qed.

Lemma same_rooted t t' c n : same_nodes t t' → rooted t c n → rooted t' c n.
Proof.
  intros H Hr m Hm. destruct (Hr m Hm) as [Hk Hp]. rewrite (same_known t t') by done. split; [done|].
  intros Hn hd. rewrite (same_header t t') by done. by apply Hp.
Qed.

Lemma rooted_ext t c c' n : (∀ m, 0 ≤ m ≤ n → c' m = c m) → rooted t c n → rooted t c' n.
Proof.
  intros E Hr m Hm. destruct (Hr m Hm) as [Hk Hp]. rewrite E by done. split; [done|]. intros Hn hd Eh.
  rewrite E by lia. by apply Hp.
Qed.

Lemma rooted_le t c n m : rooted t c n → m ≤ n → rooted t c m.
Proof. intros Hr Hm k Hk. apply Hr. lia. Qed.

Lemma rooted_head t c n header :
  rooted t c (n - 1) → known t (c n) n → spec_header t (c n) n = Some header → c (n - 1) = h_ParentHash header → rooted t c n.
Proof.
  intros Hr Hk Eh Ep m Hm. destruct (decide (m = n)) as [->|]; [|apply Hr; lia]. split; [done|]. intros _ hd. rewrite Eh. by intros [= <-].
Qed.

(** ** Caches in front of the tables *)

Record view hc t : Prop := {
  view_db : represents (hc_chainDb hc) t;
  view_td h td : lru_Peek h (hc_tdCache hc) = Some td → ∃ n, known t h n ∧ spec_td t h n = Some td;
  view_header h header : lru_Peek h (hc_headerCache hc) = Some header →
    ∃ n, known t h n ∧ spec_header t h n = Some header
}.

(** A read through a cache keeps the database, the head and the view. *)
Definition reads_only hc hc' : Prop :=
  hc_numberCache hc' = hc_numberCache hc ∧ hc_chainDb hc' = hc_chainDb hc ∧ hc_genesisHeader hc' = hc_genesisHeader hc ∧
  hc_currentHeader hc' = hc_currentHeader hc ∧ hc_currentHeaderHash hc' = hc_currentHeaderHash hc.

Lemma uint64_of n : 0 ≤ n < 2 ^ 64 - 1 → uint64 n.
Proof. unfold uint64. lia. Qed.

Lemma hc_GetTd_known hc t h n :
  view hc t → (∀ m, known t h m → n = m) → known t h n →
  ∃ hc', hc_GetTd h n hc = (spec_td t h n, hc') ∧ view hc' t ∧ reads_only hc hc'.
Proof.
  intros [Hdb Htd Hhd] TU Hk. pose proof Hk as (Hl & Hn & [td Etd]). unfold hc_GetTd.
  pose proof (Get_Peek h (hc_tdCache hc)) as EG. pose proof (Peek_Get h (hc_tdCache hc)) as EP.
  destruct (lru_Get h (hc_tdCache hc)) as [o c]. cbn in EG, EP. subst o.
  destruct (lru_Peek h (hc_tdCache hc)) as [td'|] eqn:E.
  - destruct (Htd h td' E) as (m & Hm & Em). rewrite (TU m Hm), Em. eexists. split; [done|]. split; [|done].
    split; [done| |done]. intros h' x. cbn. rewrite EP. apply Htd.
  - cbn [hc_set_tds hc_chainDb]. rewrite (GetTd_spec _ t) by (done || (split; [done|by apply uint64_of])). rewrite Etd.
    eexists. split; [done|]. split; [|done]. split; [done| |done]. intros h' x [[-> ->]|[_ Hx]]%Peek_Add; [eauto|].
    cbn in Hx. rewrite EP in Hx. by apply Htd.
Qed.

Lemma hc_GetHeader_known hc t g h n :
  view hc t → tree t g → known t h n →
  ∃ hc', hc_GetHeader h n hc = (spec_header t h n, hc') ∧ view hc' t ∧ reads_only hc hc'.
Proof.
  intros [Hdb Htd Hhd] [TN TU _] Hk. pose proof Hk as (Hl & Hn & _). destruct (TN h n Hk) as (hd & _ & Ehd & _).
  unfold hc_GetHeader.
  pose proof (Get_Peek h (hc_headerCache hc)) as EG. pose proof (Peek_Get h (hc_headerCache hc)) as EP.
  destruct (lru_Get h (hc_headerCache hc)) as [o c]. cbn in EG, EP. subst o.
  destruct (lru_Peek h (hc_headerCache hc)) as [hd'|] eqn:E.
  - destruct (Hhd h hd' E) as (m & Hm & Em). rewrite (TU h n m Hk Hm), Em. eexists. split; [done|]. split; [|done].
    split; [done|done|]. intros h' x. cbn. rewrite EP. apply Hhd.
  - cbn [hc_set_headers hc_chainDb]. rewrite (GetHeader_spec _ t) by (done || (split; [done|by apply uint64_of])). rewrite Ehd.
    eexists. split; [done|]. split; [|done]. split; [done|done|]. intros h' x [[-> ->]|[_ Hx]]%Peek_Add; [eauto|].
    cbn in Hx. rewrite EP in Hx. by apply Hhd.
Qed.

(** Changes of the canonical numbering only. *)
Lemma view_canonical hc t t' db :
  view hc t → same_nodes t t' → represents db t' → view (hc_set_db db hc) t'.
Proof.
  intros [Hdb Htd Hhd] Hs Hr. split; [done|..].
  - intros h td H. destruct (Htd h td H) as (n & ? & ?). exists n. by rewrite (same_known t t'), (same_td t t').
  - intros h hd H. destruct (Hhd h hd H) as (n & ? & ?). exists n. by rewrite (same_known t t'), (same_header t t').
Qed.

(** ** Deleting the numbers above the new head *)

Lemma GetCanonicalHash_canon db t n : represents db t → uint64 n → GetCanonicalHash db n = canon t n.
Proof. intros Hr Hn. by apply (get_hash_spec db t (TkCanonical n)). Qed.

Lemma canon_put t n h m : canon (put (TkCanonical n) (VHash h) t) m = if decide (n = m) then h else canon t m.
Proof. unfold canon, spec_hash, put. repeat case_decide; naive_solver. Qed.

Lemma canon_drop t n m : canon (drop_key (TkCanonical n) t) m = if decide (n = m) then zero_hash32 else canon t m.
Proof. unfold canon, spec_hash, drop_key. repeat case_decide; naive_solver. Qed.

Lemma same_nodes_put t n h : same_nodes t (put (TkCanonical n) (VHash h) t).
Proof. intros h' m. unfold put. by rewrite !decide_False. Qed.

Lemma same_nodes_drop t n : same_nodes t (drop_key (TkCanonical n) t).
Proof. intros h' m. unfold drop_key. by rewrite !decide_False. Qed.

Lemma same_nodes_refl t : same_nodes t t.
Proof. done. Qed.

Lemma same_nodes_trans t t' t'' : same_nodes t t' → same_nodes t' t'' → same_nodes t t''.
Proof. intros H1 H2 h n. destruct (H1 h n) as [<- <-]. apply H2. Qed.

Lemma delete_above_spec rounds i db t :
  represents db t → (size db < rounds)%nat → 0 ≤ i < 2 ^ 64 →
  (∀ n m, i ≤ n ≤ m → m < 2 ^ 64 → canon t n = zero_hash32 → canon t m = zero_hash32) →
  canon t (2 ^ 64 - 1) = zero_hash32 →
  ∃ db' t', delete_above rounds i db = Ok db' ∧ represents db' t' ∧ same_nodes t t' ∧
    ∀ n, uint64 n → canon t' n = if decide (i ≤ n) then zero_hash32 else canon t n.
Proof.
  revert i db t. induction rounds as [|r IH]; intros i db t Hr Hsz Hi Hmono Htop; [lia|]. cbn [delete_above].
  rewrite (GetCanonicalHash_canon db t) by done. destruct (bool_decide_reflect (canon t i = zero_hash32)) as [Hz|Hnz].
  - exists db, t. split_and!; [done|done|done|]. intros n Hn. case_decide; [|done]. apply (Hmono i n); [lia|apply Hn|done].
  - assert (i ≠ 2 ^ 64 - 1) by congruence. assert (succ64 i = i + 1) as -> by (unfold succ64; apply wrap_small; lia).
    assert (is_Some (db !! canonicalKey i)) as [x Hx].
    { destruct (Hr (TkCanonical i) Hi) as [E _]. cbn [tkey_bytes] in E. rewrite E. unfold canon, spec_hash in Hnz.
      destruct (t (TkCanonical i)); [by eexists|done]. }
    destruct (IH (i + 1) (DeleteCanonicalHash i db) (drop_key (TkCanonical i) t)) as (db' & t' & E & Hr' & Hs & Hc).
    + by apply (represents_drop db t (TkCanonical i)).
    + unfold DeleteCanonicalHash. rewrite map_size_delete_Some by eauto.
      assert (size db ≠ 0%nat) by (apply map_size_ne_0_lookup; eauto). lia.
    + lia.
    + intros n m Hnm Hm. rewrite !canon_drop. rewrite !decide_False by lia. apply Hmono; lia.
    + rewrite canon_drop. by rewrite decide_False.
    + exists db', t'. split_and!; [done|done|by eapply same_nodes_trans, Hs; apply same_nodes_drop|].
      intros n Hn. rewrite Hc, canon_drop by done. repeat case_decide; try lia; done.
Qed.

(** ** Re-routing the numbers below the new head *)

Lemma overwrite_spec rounds h n hc t g :
  view hc t → tree t g → known t h n → (Z.to_nat n < rounds)%nat → canon t 0 = g →
  (∃ N, 0 ≤ N ∧ rooted t (canon t) N ∧ ∀ m, N < m ≤ n → canon t m = zero_hash32) →
  ∃ hc' t', overwrite rounds h n (spec_header t h n) hc = Ok hc' ∧ view hc' t' ∧ same_nodes t t' ∧
    hc_genesisHeader hc' = hc_genesisHeader hc ∧ hc_currentHeader hc' = hc_currentHeader hc ∧
    hc_currentHeaderHash hc' = hc_currentHeaderHash hc ∧
    canon t' n = h ∧ rooted t' (canon t') n ∧ ∀ m, n < m → canon t' m = canon t m.
Proof.
  revert h n hc t. induction rounds as [|r IH]; intros h n hc t Hv Ht Hk Hr Hg (N & HN & Hroot & Hz); [lia|]. cbn [overwrite].
  pose proof Hk as (Hl & Hn & _). destruct (tree_node t g Ht h n Hk) as (hd & td & Ehd & _ & _ & Enum & Hst & Hnz & Hpar).
  rewrite (GetCanonicalHash_canon _ t) by (apply Hv || by apply uint64_of). destruct (bool_decide_reflect (canon t n = h)) as [Hc|Hc].
  { exists hc, t. split_and!; try done. eapply rooted_le; [exact Hroot|].
    destruct (decide (n ≤ N)); [done|]. destruct Hnz. rewrite <-Hc. apply Hz. lia. }
  assert (0 < n) as Hpos.
  { destruct (decide (n = 0)) as [->|]; [|lia]. destruct Hc. rewrite Hg. symmetry. by apply (tree_root t g Ht). }
  rewrite Ehd. destruct (Hpar Hpos) as (ptd & Hkp & _ & _). destruct Hst as (Hok & Hu & _).
  rewrite NumberU64_ok by done. cbn [lift_rlp omap_err obind]. rewrite Enum.
  assert (pred64 n = n - 1) as -> by (unfold pred64; apply wrap_small; lia).
  set (t1 := put (TkCanonical n) (VHash h) t). pose proof (same_nodes_put t n h) as Hs1.
  assert (view (hc_set_db (WriteCanonicalHash h n (hc_chainDb hc)) hc) t1) as Hv1.
  { apply (view_canonical hc t t1); [done|done|]. apply (represents_put_hash _ t (TkCanonical n)); [apply Hv|by apply uint64_of| |done].
    destruct (tree_node t g Ht h n Hk) as (? & ? & _ & _ & <- & _). split; [apply keccak_length|apply keccak_byte]. }
  pose proof (same_tree t t1 g Hs1 Ht) as Ht1. apply (same_known t t1 _ _ Hs1) in Hkp.
  destruct (hc_GetHeader_known _ t1 g _ _ Hv1 Ht1 Hkp) as (hc2 & E2 & Hv2 & (_ & _ & Hgen2 & Hcur2 & Hhash2)). rewrite E2.
  cbn [hc_set_db hc_genesisHeader hc_currentHeader hc_currentHeaderHash] in Hgen2, Hcur2, Hhash2.
  destruct (IH (h_ParentHash hd) (n - 1) hc2 t1 Hv2 Ht1 Hkp) as (hc' & t' & E & Hv' & Hs' & Hgen & Hcur & Hhash & Hc' & Hr' & Habove).
  - lia.
  - unfold t1. rewrite canon_put. by rewrite decide_False by lia.
  - exists (Z.min N (n - 1)). split; [lia|]. split.
    + apply (same_rooted t t1); [done|]. eapply rooted_ext; [|by eapply rooted_le; [exact Hroot|lia]].
      intros m Hm. unfold t1. rewrite canon_put. by rewrite decide_False by lia.
    + intros m Hm. unfold t1. rewrite canon_put. rewrite decide_False by lia. apply Hz. lia.
  - exists hc', t'. assert (canon t' n = h) as Hcn by (rewrite Habove by lia; unfold t1; rewrite canon_put; by rewrite decide_True).
    split_and!; [done|done|by eapply same_nodes_trans|congruence|congruence|congruence|done| |].
    + intros m Hm. destruct (decide (m = n)) as [->|]; [|apply Hr'; lia]. rewrite Hcn.
      assert (same_nodes t t') as Hst' by (by eapply same_nodes_trans). rewrite (same_known t t') by done. split; [done|].
      intros _ hd'. rewrite (same_header t t'), Ehd by done. by intros [= <-].
    + intros m Hm. rewrite Habove by lia. unfold t1. rewrite canon_put. by rewrite decide_False by lia.
Qed.

(** ** A new header in the tree *)

Record acceptable t header : Prop := {
  ac_stores : header_stores header;
  ac_number : 0 < header_number header < 2 ^ 64 - 1;
  ac_nonzero : header_hash header ≠ zero_hash32;
  ac_fresh n other : known t (header_hash header) n → spec_header t (header_hash header) n = Some other → other = header;
  ac_linked n : known t (h_ParentHash header) n → n = header_number header - 1;
  ac_td ptd : spec_td t (h_ParentHash header) (header_number header - 1) = Some ptd →
    fits64 (length (enc_str (be_bytes (difficulty header + ptd))))
}.

Definition with_node header (td : Z) t : tables :=
  put_header header (put (TkTd (header_hash header) (header_number header)) (VTd td) t).

Definition is_node header h n : Prop := h = header_hash header ∧ n = header_number header.

#[local] Instance is_node_dec header h n : Decision (is_node header h n).
Proof. unfold is_node. apply _. Defined.

Lemma with_node_td header td t h n : spec_td (with_node header td t) h n = if decide (is_node header h n) then Some td else spec_td t h n.
Proof.
  unfold with_node, put_header, spec_td, put, is_node. rewrite !(decide_False (P := _ = TkTd h n)) by (intros [=]).
  repeat case_decide; naive_solver.
Qed.

Lemma with_node_header header td t h n :
  spec_header (with_node header td t) h n = if decide (is_node header h n) then Some header else spec_header t h n.
Proof.
  unfold with_node, put_header, spec_header, put, is_node. rewrite !(decide_False (P := TkNumber _ = _)), !(decide_False (P := TkTd _ _ = _)) by (intros [=]).
  repeat case_decide; naive_solver.
Qed.

Lemma with_node_canon header td t n : canon (with_node header td t) n = canon t n.
Proof. unfold canon, spec_hash, with_node, put_header, put. by rewrite !decide_False by (intros [=]). Qed.

Section NewNode.
Context t (g : bytes) header (ptd : Z).
Hypothesis (Htree : tree t g) (Hacc : acceptable t header) (Hparent : known t (h_ParentHash header) (header_number header - 1)).
Hypothesis (Hptd : spec_td t (h_ParentHash header) (header_number header - 1) = Some ptd).

Let t1 : tables := with_node header (difficulty header + ptd) t.

Lemma header_hash_length : length (header_hash header) = 32%nat.
Proof using. apply keccak_length. Qed.

Lemma known_same h n : known t h n → is_node header h n ∨ h ≠ header_hash header.
Proof using Htree Hacc.
  intros Hk. destruct (decide (h = header_hash header)) as [->|]; [left|by right]. split; [done|].
  destruct (tree_node t g Htree _ _ Hk) as (hd & _ & E & _ & _ & En & _).
  rewrite <-En. by rewrite (ac_fresh t header Hacc n hd Hk E).
Qed.

(** A header that was known keeps its entries. *)
Lemma with_node_keeps h n : known t h n → spec_td t1 h n = spec_td t h n ∧ spec_header t1 h n = spec_header t h n.
Proof using Htree Hacc Hparent Hptd.
  intros Hk. unfold t1. rewrite with_node_td, with_node_header. case_decide as Hi; [|done]. destruct Hi as [-> ->].
  destruct (tree_node t g Htree _ _ Hk) as (hd & td & E & Etd & _ & _ & _ & _ & Hp).
  rewrite E, Etd. rewrite (ac_fresh t header Hacc _ hd Hk E) in *. split; [|done].
  destruct (Hp (proj1 (ac_number t header Hacc))) as (ptd' & _ & E' & ->). rewrite Hptd in E'. by injection E' as ->.
Qed.

Lemma with_node_known h n : known t1 h n ↔ known t h n ∨ is_node header h n.
Proof using Htree Hacc Hparent Hptd.
  unfold known, t1. rewrite with_node_td. pose proof header_hash_length. pose proof (ac_number t header Hacc).
  case_decide as Hi; [destruct Hi as [-> ->]|]; [|tauto]. split; [by right; split|]. intros _. split_and!; [done|lia|lia|by eexists].
Qed.

Lemma tree_with_node : tree t1 g.
Proof using Htree Hacc Hparent Hptd.
  assert (∀ h n, known t1 h n → is_node header h n ∨ known t h n ∧ h ≠ header_hash header) as Hcases.
  { intros h n [Hk|]%with_node_known; [|by left]. destruct (known_same h n Hk); eauto. }
  split.
  - intros h n Hk. unfold node_ok. destruct (Hcases h n Hk) as [[-> ->]|[Hk' _]].
    + exists header, (difficulty header + ptd). destruct (with_node_keeps _ _ Hparent) as [Ep _].
      split_and!; [unfold t1; rewrite with_node_header; by rewrite decide_True|unfold t1; rewrite with_node_td; by rewrite decide_True
        |done|done|apply Hacc|apply Hacc|]. intros _. exists ptd. rewrite Ep, with_node_known. auto.
    + destruct (tree_node t g Htree h n Hk') as (hd & td & E1 & E2 & ? & ? & ? & ? & Hp). exists hd, td.
      destruct (with_node_keeps h n Hk') as [-> ->]. split_and!; [done..|]. intros Hn. destruct (Hp Hn) as (ptd' & Hkp & ? & ?).
      exists ptd'. destruct (with_node_keeps _ _ Hkp) as [-> _]. rewrite with_node_known. auto.
  - intros h n m Hn Hm. destruct (Hcases h n Hn) as [[-> ->]|[Hn' Hne]], (Hcases _ m Hm) as [[? ->]|[Hm' ?]]; [done|done|done|].
    by apply (tree_unique t g Htree h).
  - intros h Hk. destruct (Hcases h 0 Hk) as [[-> E]|[Hk' _]]; [|by apply (tree_root t g Htree)].
    pose proof (ac_number t header Hacc). lia.
Qed.

Lemma rooted_with_node n : rooted t (canon t) n → rooted t1 (canon t1) n.
Proof using Htree Hacc Hparent Hptd.
  intros Hr m Hm. unfold t1 at 2 4 5. rewrite !with_node_canon. destruct (Hr m Hm) as [Hk Hp]. split; [apply with_node_known; by left|].
  destruct (with_node_keeps _ _ Hk) as [_ ->]. done.
Qed.

Lemma view_with_node hc db : view hc t → represents db t1 → view (hc_set_db db hc) t1.
Proof using Htree Hacc Hparent Hptd.
  intros [_ Htd Hhd] Hr. split; [done|..].
  - intros h td H. destruct (Htd h td H) as (n & Hk & ?). exists n. destruct (with_node_keeps _ _ Hk) as [-> _].
    rewrite with_node_known. auto.
  - intros h hd H. destruct (Hhd h hd H) as (n & Hk & ?). exists n. destruct (with_node_keeps _ _ Hk) as [_ ->].
    rewrite with_node_known. auto.
Qed.
End NewNode.

(** ** Making a header the head *)

Lemma canon_head t h n : canon (put TkHeadHeader (VHash h) t) n = canon t n.
Proof. unfold canon, spec_hash, put. by rewrite decide_False. Qed.

Lemma same_nodes_head t h : same_nodes t (put TkHeadHeader (VHash h) t).
Proof. intros h' m. unfold put. by rewrite !decide_False. Qed.

Lemma header_hash_array header : byte_array 32 (header_hash header).
Proof. split; [apply keccak_length|apply keccak_byte]. Qed.

Lemma known_nonzero t g h n : tree t g → known t h n → h ≠ zero_hash32.
Proof. intros Ht Hk. by destruct (tree_node t g Ht h n Hk) as (? & ? & _ & _ & _ & _ & _ & ? & _). Qed.

(** The state in which the loops run: the numbering is a chain up to [N] and
    empty above. *)
Definition numbered t N : Prop := 0 ≤ N ∧ rooted t (canon t) N ∧ ∀ n, uint64 n → N < n → canon t n = zero_hash32.

Lemma numbered_prefix t g N i :
  tree t g → numbered t N → (∀ n m, i ≤ n ≤ m → m < 2 ^ 64 → 0 ≤ i → canon t n = zero_hash32 → canon t m = zero_hash32) ∧
  canon t (2 ^ 64 - 1) = zero_hash32.
Proof.
  intros Ht (HN & Hr & Hz). split.
  - intros n m Hnm Hm Hi E. destruct (decide (N < m)); [apply Hz; [split|]; lia|]. destruct (Hr n) as [Hk _]; [lia|].
    by destruct (known_nonzero t g _ _ Ht Hk).
  - destruct (Hr N) as [(_ & Hb & _) _]; [lia|]. apply Hz; [split|]; lia.
Qed.

Lemma make_canonical_spec header hc t N :
  view hc t → tree t (canon t 0) → numbered t N → header_stores header →
  known t (header_hash header) (header_number header) → spec_header t (header_hash header) (header_number header) = Some header →
  0 < header_number header → known t (h_ParentHash header) (header_number header - 1) →
  ∃ hc' t', make_canonical header (header_hash header) (header_number header) hc = Ok hc' ∧
    view hc' t' ∧ same_nodes t t' ∧ canon t' 0 = canon t 0 ∧ numbered t' (header_number header) ∧
    canon t' (header_number header) = header_hash header ∧
    hc_currentHeader hc' = Some header ∧ hc_currentHeaderHash hc' = header_hash header.
Proof.
  set (x := header_hash header). set (n := header_number header). intros Hv Ht HN Hst Hk Ehd Hn Hkp. unfold make_canonical.
  pose proof Hk as (_ & Hb & _). pose proof (numbered_prefix t _ N (n + 1) Ht HN) as [Hmono Htop].
  assert (succ64 n = n + 1) as -> by (unfold succ64; apply wrap_small; lia).
  assert (pred64 n = n - 1) as -> by (unfold pred64; apply wrap_small; lia).
  destruct (delete_above_spec (S (size (hc_chainDb hc))) (n + 1) (hc_chainDb hc) t) as (db2 & t2 & -> & Hr2 & Hs2 & Hc2);
    [apply Hv|lia|lia|intros; by eapply Hmono; [..|lia|]|done|]. cbn [obind].
  pose proof (view_canonical hc t t2 db2 Hv Hs2 Hr2) as Hv2. pose proof (same_tree t t2 _ Hs2 Ht) as Ht2.
  assert (known t2 (h_ParentHash header) (n - 1)) as Hkp2 by (by apply (same_known t t2)).
  destruct (hc_GetHeader_known _ t2 _ _ _ Hv2 Ht2 Hkp2) as (hc3 & -> & Hv3 & _).
  destruct HN as (HN & Hroot & Habove).
  destruct (overwrite_spec (S (Z.to_nat n)) (h_ParentHash header) (n - 1) hc3 t2 (canon t 0)) as
    (hc4 & t4 & -> & Hv4 & Hs4 & _ & _ & _ & Hc4 & Hroot4 & Habove4); [done|done|done|lia|rewrite Hc2 by (split; lia); by rewrite decide_False by lia| |].
  { exists (Z.min N (n - 1)). split; [lia|]. split.
    - apply (same_rooted t t2); [done|]. eapply rooted_ext; [|by eapply rooted_le; [exact Hroot|lia]].
      intros m Hm. rewrite Hc2 by (split; lia). by rewrite decide_False by lia.
    - intros m Hm. rewrite Hc2 by (split; lia). rewrite decide_False by lia. apply Habove; [split|]; lia. }
  cbn [obind]. set (t5 := put (TkCanonical n) (VHash x) t4). set (t6 := put TkHeadHeader (VHash x) t5).
  assert (same_nodes t4 t6) as Hs6 by (eapply same_nodes_trans; [apply same_nodes_put|apply same_nodes_head]).
  assert (same_nodes t t6) as Hs by (by eapply same_nodes_trans; [|eapply same_nodes_trans]).
  assert (∀ m, canon t6 m = if decide (n = m) then x else canon t4 m) as Hc6
    by (intros m; unfold t6, t5; by rewrite canon_head, canon_put).
  rewrite CopyHeader_ok by apply Hst. eexists _, t6. split; [done|]. split.
  { destruct (view_canonical hc4 t4 t6 (WriteHeadHeaderHash x (WriteCanonicalHash x n (hc_chainDb hc4))) Hv4 Hs6) as [V1 V2 V3]; [|by split].
    apply (represents_put_hash _ t5 TkHeadHeader); [|done|apply header_hash_array|done].
    apply (represents_put_hash _ t4 (TkCanonical n)); [apply Hv4|by apply uint64_of|apply header_hash_array|done]. }
  split_and!; [done| |split; [lia|split; [apply (rooted_head _ _ _ header)|]]|rewrite Hc6; by rewrite decide_True|done|done].
  - rewrite Hc6, decide_False by lia. apply (tree_root t4 (canon t 0)); [by apply (same_tree t2 t4)|]. apply Hroot4. lia.
  - apply (same_rooted t4 t6); [done|]. eapply rooted_ext; [|exact Hroot4]. intros m Hm. rewrite Hc6. by rewrite decide_False by lia.
  - rewrite Hc6, decide_True by done. by apply (same_known t t6).
  - rewrite Hc6, decide_True by done. by rewrite (same_header t t6).
  - rewrite Hc6, decide_False by lia. exact Hc4.
  - intros m Hm Hlt. rewrite Hc6, decide_False, Habove4 by lia. rewrite Hc2 by done. by rewrite decide_True by lia.
Qed.

(** ** The invariant *)

Record chain_ok hc t cur : Prop := {
  co_view : view hc t;
  co_tree : tree t (canon t 0);
  co_current : hc_currentHeader hc = Some cur;
  co_hash : hc_currentHeaderHash hc = header_hash cur;
  co_stored : spec_header t (header_hash cur) (header_number cur) = Some cur;
  co_known : known t (header_hash cur) (header_number cur);
  co_head : canon t (header_number cur) = header_hash cur;
  co_numbered : numbered t (header_number cur);
  co_heaviest h n td td' : known t h n → spec_td t h n = Some td →
    spec_td t (header_hash cur) (header_number cur) = Some td' → td ≤ td'
}.

Lemma known_array t g h n : tree t g → known t h n → byte_array 32 h.
Proof. intros Ht Hk. destruct (tree_node t g Ht h n Hk) as (? & ? & _ & _ & <- & _). apply header_hash_array. Qed.

Lemma hc_GetTd_unknown hc t h n :
  view hc t → length h = 32%nat → uint64 n → n ≠ 2 ^ 64 - 1 → (∀ m, ¬ known t h m) → (hc_GetTd h n hc).1 = None.
Proof.
  intros [Hdb Htd _] Hl Hn Hn' Hk. unfold hc_GetTd. pose proof (Get_Peek h (hc_tdCache hc)) as EG.
  destruct (lru_Get h (hc_tdCache hc)) as [o c]. cbn in EG. subst o.
  destruct (lru_Peek h (hc_tdCache hc)) as [td|] eqn:E; [by destruct (Htd h td E) as (m & Hm%Hk & _)|].
  cbn [hc_set_tds hc_chainDb]. rewrite (GetTd_spec _ t) by done. destruct (spec_td t h n) as [td|] eqn:Etd; [|done].
  destruct (Hk n). destruct Hn. split_and!; [done|lia|lia|by eexists].
Qed.

(** A read of a difficulty that is not stored leaves the view. *)
Lemma hc_GetTd_view hc t h n : view hc t → (hc_GetTd h n hc).1 = None → view (hc_GetTd h n hc).2 t.
Proof.
  intros [Hdb Htd Hhd]. unfold hc_GetTd. pose proof (Peek_Get h (hc_tdCache hc)) as EP.
  destruct (lru_Get h (hc_tdCache hc)) as [[td|] c]; [done|]. cbn in EP. cbn [hc_set_tds hc_chainDb].
  destruct (GetTd (hc_chainDb hc) h n); [done|]. intros _. split; [done| |done]. intros h' x. cbn. rewrite EP. apply Htd.
Qed.

Lemma td_nonneg hc t h n td : view hc t → known t h n → spec_td t h n = Some td → 0 ≤ td.
Proof.
  intros Hv (Hl & Hb & _) E. destruct (view_db hc t Hv (TkTd h n)) as [_ Hfit]; [by split; [|apply uint64_of]|].
  unfold spec_td in E. destruct (t (TkTd h n)) as [[]|]; try done. injection E as ->. apply (Hfit (VTd td) eq_refl).
Qed.

(** Storing the difficulty and the header. *)
Lemma store_spec hc t g header ptd :
  view hc t → tree t g → acceptable t header → known t (h_ParentHash header) (header_number header - 1) →
  spec_td t (h_ParentHash header) (header_number header - 1) = Some ptd →
  ∃ hc1 db, hc_WriteTd (header_hash header) (header_number header) (difficulty header + ptd) hc = Ok hc1 ∧
    WriteHeader header (hc_chainDb hc1) = Ok db ∧ hc_currentHeader hc1 = hc_currentHeader hc ∧
    hc_currentHeaderHash hc1 = hc_currentHeaderHash hc ∧
    view (hc_set_db db hc1) (with_node header (difficulty header + ptd) t).
Proof.
  intros Hv Ht Ha Hkp Eptd. pose proof (ac_stores t header Ha) as Hst. pose proof (ac_number t header Ha) as Hn.
  assert (0 ≤ difficulty header + ptd) as Hpos.
  { pose proof (td_nonneg hc t _ _ _ Hv Hkp Eptd).
    pose proof (ok_Difficulty header (proj1 Hst)) as Hd. unfold difficulty. destruct (h_Difficulty header) as [d|]; [|done]. cbn in *. lia. }
  destruct (WriteTd_spec (hc_chainDb hc) t (header_hash header) (header_number header) (difficulty header + ptd)) as (db1 & E1 & Hr1);
    [apply Hv|split; [apply keccak_length|split; lia]|done|by apply (ac_td t header Ha)|].
  destruct (WriteHeader_spec db1 _ header Hr1 Hst) as (db2 & E2 & Hr2).
  unfold hc_WriteTd. rewrite E1. cbn [lift_rlp omap_err obind]. eexists _, db2. split; [done|]. split; [done|]. split; [done|]. split; [done|].
  destruct (view_with_node t g header ptd Ht Ha Hkp Eptd hc db2 Hv Hr2) as [V1 V2 V3]. split; [done| |done].
  intros h td [[-> ->]|[_ Hx]]%Peek_Add; [|by apply V2]. exists (header_number header).
  rewrite (with_node_known t g) by done. rewrite with_node_td, decide_True by done. split; [by right; split|done].
Qed.

(** Adding the entries of a known header to the caches. *)
Lemma view_cached hc t header n :
  view hc t → known t (header_hash header) n → spec_header t (header_hash header) n = Some header →
  view (hc_set_numbers (lru_Add (header_hash header) n (hc_numberCache hc)).2
          (hc_set_headers (lru_Add (header_hash header) header (hc_headerCache hc)).2 hc)) t.
Proof. intros [V1 V2 V3] Hk E. split; [done..|]. intros h hd [[-> ->]|[_ Hx]]%Peek_Add; eauto. Qed.

Section Outcome.
Context hc t (cur header : Header) (ptd localTd : Z).
Hypothesis (Hco : chain_ok hc t cur) (Hacc : acceptable t header).
Hypothesis (Hparent : known t (h_ParentHash header) (header_number header - 1)).
Hypothesis (Hptd : spec_td t (h_ParentHash header) (header_number header - 1) = Some ptd).
Hypothesis (Hlocal : spec_td t (header_hash cur) (header_number cur) = Some localTd).

Let t1 : tables := with_node header (difficulty header + ptd) t.
Let Htree : tree t (canon t 0) := co_tree hc t cur Hco.

Lemma heaviest_with_node h n td :
  known t1 h n → spec_td t1 h n = Some td → td ≤ Z.max localTd (difficulty header + ptd).
Proof using Hco Hacc Hparent Hptd Hlocal.
  intros Hk. unfold t1. rewrite with_node_td. case_decide as Hi; [intros [= <-]; lia|]. intros E.
  apply (with_node_known t _ header ptd Htree Hacc Hparent Hptd) in Hk as [Hk|]; [|done].
  pose proof (co_heaviest hc t cur Hco h n td localTd Hk E Hlocal). lia.
Qed.

Lemma numbered_with_node N : numbered t N → numbered t1 N.
Proof using Hco Hacc Hparent Hptd.
  intros (HN & Hr & Hz). split; [done|]. split; [by apply (rooted_with_node t (canon t 0))|]. intros n Hn Hlt. unfold t1.
  rewrite with_node_canon. by apply Hz.
Qed.

Lemma tree_after : tree t1 (canon t1 0).
Proof using Hco Hacc Hparent Hptd. unfold t1 at 2. rewrite with_node_canon. by apply tree_with_node. Qed.

Lemma side_ok hc' :
  view hc' t1 → hc_currentHeader hc' = hc_currentHeader hc → hc_currentHeaderHash hc' = hc_currentHeaderHash hc →
  difficulty header + ptd ≤ localTd → chain_ok hc' t1 cur.
Proof using Hco Hacc Hparent Hptd Hlocal.
  intros Hv Ec Eh Hle. destruct (with_node_keeps t _ header ptd Htree Hacc Hparent Hptd _ _ (co_known hc t cur Hco)) as [Etd Ehd].
  fold t1 in Etd, Ehd. pose proof Hco as [_ _ C1 C2 C3 C4 C5 C6 _]. split.
  - done.
  - apply tree_after.
  - by rewrite Ec.
  - by rewrite Eh.
  - by rewrite Ehd.
  - apply (with_node_known t _ header ptd Htree Hacc Hparent Hptd). by left.
  - unfold t1. by rewrite with_node_canon.
  - by apply numbered_with_node.
  - intros h n td td' Hk E. rewrite Etd, Hlocal. intros [= <-]. pose proof (heaviest_with_node h n td Hk E). lia.
Qed.

Lemma canon_ok hc' t' :
  view hc' t' → same_nodes t1 t' → canon t' 0 = canon t1 0 → numbered t' (header_number header) →
  canon t' (header_number header) = header_hash header →
  hc_currentHeader hc' = Some header → hc_currentHeaderHash hc' = header_hash header →
  localTd ≤ difficulty header + ptd → chain_ok hc' t' header.
Proof using Hco Hacc Hparent Hptd Hlocal.
  intros Hv Hs H0 HN Hc Ecur Eh Hle. split; [done| |done|done| | |done|done|].
  - rewrite H0. apply (same_tree t1 t'); [done|apply tree_after].
  - rewrite (same_header t1 t') by done. unfold t1. rewrite with_node_header. by rewrite decide_True.
  - apply (same_known t1 t'); [done|]. apply (with_node_known t _ header ptd Htree Hacc Hparent Hptd). by right.
  - intros h n td td' Hk. rewrite !(same_td t1 t') by done. apply (same_known t1 t') in Hk; [|done]. intros E.
    unfold t1 at 1. rewrite with_node_td, decide_True by done. intros [= <-]. pose proof (heaviest_with_node h n td Hk E). lia.
Qed.
End Outcome.

Definition head_after (status : WriteStatus) header cur : Header := match status with CanonStatTy => header | _ => cur end.

(** The outcome of a write whose parent is not known. *)
Lemma WriteHeader_unknown coin header hc t cur :
  chain_ok hc t cur → acceptable t header → ¬ known t (h_ParentHash header) (header_number header - 1) →
  hc_WriteHeader coin header hc = Err ErrUnknownAncestor.
Proof.
  intros Hco Ha Hk. pose proof (ac_stores t header Ha) as Hst. pose proof (ac_number t header Ha) as Hn.
  unfold hc_WriteHeader. rewrite Header_Hash_enc, NumberU64_ok by apply Hst. cbn [lift_rlp omap_err obind].
  assert (pred64 (header_number header) = header_number header - 1) as -> by (unfold pred64; apply wrap_small; lia).
  pose proof (hc_GetTd_unknown hc t (h_ParentHash header) (header_number header - 1) (co_view _ _ _ Hco)) as E.
  destruct (hc_GetTd (h_ParentHash header) (header_number header - 1) hc) as [o hc']. cbn in E. rewrite E; [done|apply Hst|split; lia|lia|].
  intros m Hm. apply Hk. by rewrite <-(ac_linked t header Ha m Hm).
Qed.

(** What a write does to the chain, in terms of the two difficulties. *)
Definition written hc t cur coin header ptd localTd : Prop := ∃ hc' t',
  let status := if prefers coin (difficulty header + ptd) localTd then CanonStatTy else SideStatTy in
  hc_WriteHeader coin header hc = Ok (status, hc') ∧ chain_ok hc' t' (head_after status header cur) ∧
  same_nodes (with_node header (difficulty header + ptd) t) t' ∧ canon t' 0 = canon t 0.

Lemma prefers_le coin a b : (prefers coin a b = true → b ≤ a) ∧ (prefers coin a b = false → a ≤ b).
Proof. unfold prefers. destruct coin, (Z.ltb_spec b a), (Z.eqb_spec a b); cbn; split; (done || lia). Qed.

Lemma current_stores hc t cur : chain_ok hc t cur → header_stores cur.
Proof.
  intros Hco. destruct (tree_node _ _ (co_tree _ _ _ Hco) _ _ (co_known _ _ _ Hco)) as (hd & _ & Ehd & _ & _ & _ & Hcur & _).
  rewrite (co_stored _ _ _ Hco) in Ehd. by injection Ehd as <-.
Qed.

Lemma WriteHeader_written coin header hc t cur ptd localTd :
  chain_ok hc t cur → acceptable t header → known t (h_ParentHash header) (header_number header - 1) →
  spec_td t (h_ParentHash header) (header_number header - 1) = Some ptd →
  spec_td t (header_hash cur) (header_number cur) = Some localTd →
  written hc t cur coin header ptd localTd.
Proof.
  intros Hco Ha Hkp Eptd El. pose proof (ac_stores t header Ha) as Hst. pose proof (ac_number t header Ha) as Hn.
  pose proof (co_tree _ _ _ Hco) as Ht. unfold written, hc_WriteHeader.
  rewrite Header_Hash_enc, NumberU64_ok by apply Hst. cbn [lift_rlp omap_err obind]. fold (header_hash header).
  assert (pred64 (header_number header) = header_number header - 1) as -> by (unfold pred64; apply wrap_small; lia).
  destruct (hc_GetTd_known hc t _ _ (co_view _ _ _ Hco) (λ m, tree_unique _ _ Ht _ _ m Hkp) Hkp) as (hc1 & -> & Hv1 & (_ & _ & _ & Ec1 & Eh1)).
  rewrite Eptd, Ec1, (co_current _ _ _ Hco). cbn iota. pose proof (current_stores _ _ _ Hco) as Hcur.
  rewrite (NumberU64_ok cur) by apply Hcur. cbn [lift_rlp omap_err obind].
  assert (h_Difficulty header = Some (difficulty header)) as ->.
  { pose proof (ok_Difficulty _ (proj1 Hst)) as Hd. unfold difficulty. by destruct (h_Difficulty header). }
  rewrite Eh1, (co_hash _ _ _ Hco).
  destruct (hc_GetTd_known hc1 t _ _ Hv1 (λ m, tree_unique _ _ Ht _ _ m (co_known _ _ _ Hco)) (co_known _ _ _ Hco)) as (hc2 & -> & Hv2 & (_ & _ & _ & Ec2 & Eh2)).
  rewrite El. destruct (store_spec hc2 t _ header ptd Hv2 Ht Ha Hkp Eptd) as (hc3 & db & -> & E & Ec3 & Eh3 & Hv3).
  cbn [obind]. rewrite E. cbn [lift_rlp omap_err obind]. set (t1 := with_node header (difficulty header + ptd) t) in *.
  assert (known t1 (header_hash header) (header_number header)) as Hk1 by (apply (with_node_known t (canon t 0)); [done..|by right]).
  assert (spec_header t1 (header_hash header) (header_number header) = Some header) as Eh
    by (unfold t1; rewrite with_node_header; by rewrite decide_True).
  destruct (prefers_le coin (difficulty header + ptd) localTd) as [Hge Hle].
  destruct (prefers coin (difficulty header + ptd) localTd).
  - destruct (make_canonical_spec header (hc_set_db db hc3) t1 (header_number cur))
      as (hc4 & t4 & -> & Hv4 & Hs4 & H0 & HN & Hc4 & Ecur & Ehash); [done|by apply (tree_after hc t cur)| |done..|lia| |].
    { apply (numbered_with_node hc t cur); [done..|]. apply Hco. }
    { apply (with_node_known t (canon t 0)); [done..|by left]. }
    cbn [obind]. eexists _, t4. split; [done|]. split; [|split; [done|by rewrite H0; unfold t1; rewrite with_node_canon]].
    apply (canon_ok hc t cur header ptd localTd); try done; [|by apply Hge].
    apply (view_cached hc4); [done|by apply (same_known t1 t4)|by rewrite (same_header t1 t4)].
  - cbn [obind]. eexists _, t1. split; [done|]. split; [|split; [done|unfold t1; by rewrite with_node_canon]].
    apply (side_ok hc t cur header ptd localTd); try done; [by apply (view_cached (hc_set_db db hc3))|cbn; congruence|cbn; congruence|by apply Hle].
Qed.
End Inv.
