(* ===== verification/Genesis.v ===== *)
(** * The genesis block (blockchain/genesis.go)

    The block of a genesis specification and its commit to an empty database.
    The chain configuration is its JSON text. *)

From S2P Require Import Prelude RlpSpec RlpRaw RlpEncode RlpStream RlpRoundtrip TrieNode Trie TrieHasher TrieMap Sha256 Merkletree Types SecureTrie Lru ChainDb ChainTables HeaderChain HeaderChainInv.
Local Open Scope Z_scope.

Inductive genesis_error :=
| ErrNoConfig
| ErrNumberAboveZero
| ErrGenesisMismatch (stored new : bytes)
| ErrGenesisRlp (e : rlp_error)
| ErrState.

Abbreviation genesis_out := (outcome genesis_error).

Section Genesis.
Context {KC : Keccak}.

Record Genesis := MkGenesis {
  g_Config : option bytes;
  g_Timestamp : Z;
  g_ExtraData : bytes;
  g_Difficulty : option Z;
  g_Coinbase : bytes;
  g_Number : Z;
  g_ParentHash : bytes
}.

Definition GenesisDifficulty : Z := 131072.

Definition state_of {E A} (r : outcome E A) : genesis_out A := omap_err (λ _, ErrState) r.
Definition rlp_of {A} (r : outcome rlp_error A) : genesis_out A := omap_err ErrGenesisRlp r.

(** state.New(common.Hash{}, ...): no object is dirty, so IntermediateRoot is the
    hash of the trie and CommitTo commits the trie. *)
Definition empty_state : genesis_out SecureTrie := state_of (NewSecure zero_hash32 (λ _, None) 120).

Definition genesis_header (g : Genesis) (root : bytes) : Header :=
  MkHeader (g_ParentHash g) (g_Coinbase g) zero_hash32 root zero_hash32 zero_hash32 zero_hash32
    (Some (default GenesisDifficulty (g_Difficulty g))) (Some (g_Number g)) (Some (g_Timestamp g)) (g_ExtraData g).

Definition ToBlock (g : Genesis) : genesis_out (Block * SecureTrie) :=
  let* statedb := empty_state in
  let '(root, statedb) := Secure_Hash statedb in
  let* root := state_of root in
  let* block := rlp_of (NewBlock (genesis_header g root) [] [] []) in
  Ok (block, statedb).

Definition configPrefix : bytes := ascii_bytes "shx-config-".
Definition WriteChainConfig (hash : bytes) (cfg : bytes) (db : gmap bytes bytes) : gmap bytes bytes := <[configPrefix ++ hash := cfg]> db.

(** WriteTd gets the pointer of the specification, which may be nil and then is
    encoded as zero. *)
Definition genesis_Commit (mainnet : bytes) (g : Genesis) (db : gmap bytes bytes) : genesis_out (Block * gmap bytes bytes) :=
  let* (block, statedb) := ToBlock g in
  if negb (default 0 (h_Number (b_header block)) =? 0) then Err ErrNumberAboveZero
  else
    let* (_, _, db) := state_of (Secure_CommitTo statedb db) in
    let* (hash, block) := rlp_of (Block_Hash block) in
    let* number := rlp_of (NumberU64 (b_header block)) in
    let* db := rlp_of (WriteTd hash number (default 0 (g_Difficulty g)) db) in
    let* db := rlp_of (WriteBlock block db) in
    let* db := rlp_of (WriteBlockReceipts hash number [] db) in
    let db := WriteCanonicalHash hash number db in
    let db := WriteHeadBlockHash hash db in
    let db := WriteHeadHeaderHash hash db in
    Ok (block, WriteChainConfig hash (default mainnet (g_Config g)) db).

(** ** The chain that starts at the genesis block *)

Definition genesis_block (g : Genesis) : Block :=
  MkBlock (set_roots emptyRoot emptyRoot emptyRoot (genesis_header g emptyRoot)) [] [] None None (Some 0).

Lemma ToBlock_block g : ∃ statedb, ToBlock g = Ok (genesis_block g, statedb) ∧
  ∀ db : gmap bytes bytes, ∃ r, Secure_CommitTo statedb db = Ok (r, db).
Proof.
  eexists. split; [reflexivity|]. intros db. eexists. reflexivity.
Qed.

Record genesis_ok (g : Genesis) : Prop := {
  go_number : g_Number g = 0;
  go_stores : header_stores (b_header (genesis_block g));
  go_nonzero : header_hash (b_header (genesis_block g)) ≠ zero_hash32;
  go_difficulty : 0 ≤ default 0 (g_Difficulty g) ≤ 2 ^ 256
}.

Definition genesis_hash (g : Genesis) : bytes := header_hash (b_header (genesis_block g)).

Definition genesis_tables (g : Genesis) (t : tables) : tables :=
  let x := genesis_hash g in
  put TkHeadHeader (VHash x) (put TkHeadBlock (VHash x) (put (TkCanonical 0) (VHash x) (put (TkReceipts x 0) (VReceipts [])
    (put_block (genesis_block g) (put (TkTd x 0) (VTd (default 0 (g_Difficulty g))) t))))).

Lemma small_fits td : 0 ≤ td < 256 ^ 50 → fits64 (length (enc_str (be_bytes td))).
Proof.
  intros Htd. assert (length (be_bytes td) ≤ 50)%nat as Hl.
  { rewrite length_be_bytes. destruct (decide (td = 0)) as [->|]; [rewrite byte_len_0; lia|].
    destruct (byte_len_bounds td) as [B1 B2]; [lia|]. destruct (decide (byte_len td ≤ 50)%nat); [done|].
    assert (256 ^ 50 ≤ 256 ^ (Z.of_nat (byte_len td) - 1)) by (apply Z.pow_le_mono_r; lia). lia. }
  pose proof (short_length (be_bytes td) ltac:(lia)). unfold fits64. lia.
Qed.

Lemma Commit_spec mainnet g db t :
  represents db t → genesis_ok g →
  ∃ block db', genesis_Commit mainnet g db = Ok (block, db') ∧ b_header block = b_header (genesis_block g) ∧
    represents db' (genesis_tables g t).
Proof.
  intros Hr [Hn Hst Hz Hd]. unfold genesis_Commit. destruct (ToBlock_block g) as (statedb & -> & Hcommit).
  cbn [obind]. assert (header_number (b_header (genesis_block g)) = 0) as Hnum by (cbn; by rewrite Hn).
  change (default 0 (h_Number (b_header (genesis_block g)))) with (header_number (b_header (genesis_block g))). rewrite Hnum. cbn [Z.eqb negb].
  destruct (Hcommit db) as [[r1 r2] ->]. cbn [state_of omap_err obind].
  assert (block_stores (genesis_block g)) as Hb.
  { split_and!; [|done|by vm_compute|done]. split; [apply Hst|constructor|constructor]. }
  destruct (Block_Hash_ok _ Hb) as (b' & -> & Eh & Eb & Hb'). cbn [rlp_of omap_err obind]. rewrite Eh.
  rewrite NumberU64_ok by apply Hst. cbn [rlp_of omap_err obind]. rewrite Hnum. fold (genesis_hash g).
  destruct (WriteTd_spec db t (genesis_hash g) 0 (default 0 (g_Difficulty g))) as (db1 & -> & Hr1);
    [done|split; [apply keccak_length|split; lia]|lia|apply small_fits; lia|]. cbn [rlp_of omap_err obind].
  destruct (WriteBlock_spec db1 _ b' Hr1 Hb') as (db2 & -> & Hr2). cbn [rlp_of omap_err obind].
  unfold put_block in Hr2. rewrite Eh, Eb, Hnum in Hr2. fold (genesis_hash g) in Hr2.
  destruct (WriteBlockReceipts_spec db2 _ (genesis_hash g) 0 [] Hr2) as (db3 & -> & Hr3);
    [split; [apply keccak_length|split; lia]|constructor|by vm_compute|]. cbn [rlp_of omap_err obind].
  eexists _, _. split; [done|]. split; [done|]. apply represents_other; [|right; rewrite length_app; unfold genesis_hash, header_hash; rewrite keccak_length; vm_compute; lia].
  unfold genesis_tables, put_block. rewrite Hnum. fold (genesis_hash g).
  apply (represents_put_hash _ _ TkHeadHeader); [|done|apply header_hash_array|done].
  apply (represents_put_hash _ _ TkHeadBlock); [|done|apply header_hash_array|done].
  by apply (represents_put_hash _ _ (TkCanonical 0)); [|split; lia|apply header_hash_array|].
Qed.

Section Start.
Context (g : Genesis) (Hg : genesis_ok g).

Let t0 : tables := genesis_tables g (λ _, None).
Let header : Header := b_header (genesis_block g).

Lemma genesis_number : header_number header = 0.
Proof using Hg. unfold header. cbn. by rewrite (go_number g Hg). Qed.

Lemma genesis_td h n : spec_td t0 h n = if decide (h = genesis_hash g ∧ n = 0) then Some (default 0 (g_Difficulty g)) else None.
Proof using.
  unfold t0, genesis_tables, put_block, put_header, spec_td, put. rewrite !(decide_False (P := _ = TkTd h n)) by (intros [=]).
  repeat case_decide; naive_solver.
Qed.

Lemma genesis_known h n : known t0 h n ↔ h = genesis_hash g ∧ n = 0.
Proof using.
  unfold known. rewrite genesis_td. case_decide as E; [|split; [by intros (_ & _ & [? [=]])|done]].
  destruct E as [-> ->]. split; [done|]. intros _. split_and!; [apply keccak_length|lia|lia|by eexists].
Qed.

Lemma genesis_stored : spec_header t0 (genesis_hash g) 0 = Some header.
Proof using Hg.
  unfold t0, genesis_tables, put_block, put_header, spec_header, put. rewrite !(decide_False (P := _ = TkHeader (genesis_hash g) 0)) by (intros [=]).
  change (b_header (genesis_block g)) with header. by rewrite genesis_number, decide_True.
Qed.

Lemma genesis_spec_number : spec_number t0 (genesis_hash g) = 0.
Proof using Hg.
  unfold t0, genesis_tables, put_block, put_header, spec_number, put. rewrite !(decide_False (P := _ = TkNumber (genesis_hash g))) by (intros [=]).
  change (b_header (genesis_block g)) with header. rewrite genesis_number. by rewrite decide_True.
Qed.

Lemma genesis_canon n : canon t0 n = if decide (n = 0) then genesis_hash g else zero_hash32.
Proof using.
  unfold t0, genesis_tables, put_block, put_header, canon, spec_hash, put.
  repeat (case_decide; [try discriminate; try naive_solver|]); done.
Qed.

Lemma genesis_tree : tree t0 (genesis_hash g).
Proof using Hg.
  split.
  - intros h n [-> ->]%genesis_known. exists header, (default 0 (g_Difficulty g)). rewrite genesis_stored, genesis_td, decide_True by done.
    split_and!; [done|done|done|apply genesis_number|apply Hg|apply Hg|lia].
  - intros h n m [_ ->]%genesis_known [_ ->]%genesis_known. done.
  - intros h [-> _]%genesis_known. done.
Qed.

Lemma genesis_view db hcache ncache header' cur h :
  represents db t0 → (∀ k hd, lru_Peek k hcache = Some hd → k = genesis_hash g ∧ hd = header) →
  view (MkHC db header' cur h hcache (NewLRU tdCacheLimit) ncache) t0.
Proof using Hg.
  intros Hr Hc. split; [done|done|]. intros k hd [-> ->]%Hc. exists 0. rewrite genesis_known. split; [done|apply genesis_stored].
Qed.

Lemma genesis_numbered : numbered t0 0.
Proof using Hg.
  split; [lia|]. split.
  - intros m Hm. assert (m = 0) as -> by lia. rewrite genesis_canon, decide_True by done. rewrite genesis_known. split; [done|lia].
  - intros n _ Hn. rewrite genesis_canon. by rewrite decide_False by lia.
Qed.

Lemma genesis_chain_ok hc :
  view hc t0 → hc_currentHeader hc = Some header → hc_currentHeaderHash hc = genesis_hash g → chain_ok hc t0 header.
Proof using Hg.
  intros Hv Ec Eh. split; try done; rewrite ?genesis_number, ?genesis_known, ?genesis_canon; try done.
  - apply genesis_tree.
  - apply genesis_stored.
  - apply genesis_numbered.
  - intros h n td td' [-> ->]%genesis_known. change (header_hash header) with (genesis_hash g). intros E1 E2.
    rewrite E1 in E2. injection E2 as ->. lia.
Qed.

Lemma genesis_start db : represents db t0 → ∃ hc, NewHeaderChain db = Ok hc ∧ chain_ok hc t0 header ∧
  ∀ h n, lru_Peek h (hc_numberCache hc) = Some n → h = genesis_hash g ∧ n = 0.
Proof using Hg.
  intros Hr. pose proof (go_nonzero g Hg) as Hz. pose proof (go_stores g Hg) as (Hh & _ & Hf).
  assert (genesis_hash g = header_hash header) as Hx by done. assert (length (genesis_hash g) = 32%nat) as Hl by apply keccak_length.
  unfold NewHeaderChain, hc_GetHeaderByNumber. cbn [hc_chainDb].
  rewrite (GetCanonicalHash_canon db t0), genesis_canon, decide_True, bool_decide_false by (done || (split; lia)).
  unfold hc_GetHeader at 1. cbn [lru_Get NewLRU evictList items hc_headerCache hc_set_headers hc_chainDb].
  rewrite (GetHeader_spec db t0), genesis_stored by (done || (split; [done|split; lia])). cbn [SetGenesis hc_chainDb hc_set_headers].
  assert (GetHeadBlockHash db = genesis_hash g) as ->.
  { by apply (get_hash_spec db t0 TkHeadBlock). }
  rewrite bool_decide_false by done. unfold hc_GetHeaderByHash, hc_GetBlockNumber. cbn [SetGenesis hc_set_headers hc_genesisHeader hc_currentHeader hc_currentHeaderHash hc_headerCache hc_tdCache hc_numberCache lru_Get NewLRU evictList items hc_set_numbers hc_chainDb].
  rewrite (GetBlockNumber_spec db t0), genesis_spec_number by done. cbn [Z.eqb missingNumber negb].
  match goal with |- context [hc_GetHeader _ _ ?hc] => assert (view hc t0) as Hv end.
  { apply genesis_view; [done|]. intros k hd [|[_ ?]]%Peek_Add; done. }
  destruct (hc_GetHeader_known _ t0 _ (genesis_hash g) 0 Hv genesis_tree) as (hc' & -> & Hv' & (Enum & _)); [by apply genesis_known|].
  rewrite genesis_stored. cbn [obind]. unfold header. rewrite Header_Hash_enc by done. cbn [lift_rlp omap_err obind].
  eexists. split; [done|]. split; [apply genesis_chain_ok; [|done|done]; destruct Hv' as [V1 V2 V3]; by split|].
  cbn [hc_set_current hc_numberCache]. rewrite Enum. intros k n [|[_ ?]]%Peek_Add; done.
Qed.
End Start.
End Genesis.
