(* ===== verification/HeaderChainRun.v ===== *)
(** * Importing headers in any order (blockchain/headerchain.go)

    A chain that starts at a committed genesis block and imports any batches of
    headers keeps the heaviest chain as its canonical numbering.  The headers
    come from a universe in which hashes do not collide and a header's number
    follows that of its parent, which the engine checks before an import. *)

From S2P Require Import Prelude RlpSpec RlpRaw RlpEncode RlpStream RlpRoundtrip TrieNode Trie TrieMap Sha256 Merkletree Types Lru ChainDb ChainTables HeaderChain HeaderChainInv Genesis.
Local Open Scope Z_scope.

Section Run.
Context {KC : Keccak}.
Implicit Types (t : tables) (hc : HeaderChain) (h : bytes) (n : Z) (header : Header) (U : Header → Prop).

Record universe U : Prop := {
  un_stores header : U header → header_stores header;
  un_number header : U header → header_number header < 2 ^ 64 - 1;
  un_nonzero header : U header → header_hash header ≠ zero_hash32;
  un_hash header header' : U header → U header' → header_hash header = header_hash header' → header = header';
  un_linked header parent : U header → U parent → 0 < header_number header → header_hash parent = h_ParentHash header →
    header_number parent = header_number header - 1;
  un_difficulty header : U header → difficulty header ≤ 2 ^ 256
}.

(** Every known header is of the universe, and its difficulty is a sum of
    difficulties. *)
Record drawn U t : Prop := {
  dr_header h n header : known t h n → spec_header t h n = Some header → U header;
  dr_td h n td : known t h n → spec_td t h n = Some td → 0 ≤ td ≤ (n + 1) * 2 ^ 256
}.

Lemma known_in U t g h n : tree t g → drawn U t → known t h n →
  ∃ header, U header ∧ spec_header t h n = Some header ∧ header_hash header = h ∧ header_number header = n.
Proof.
  intros Ht Hd Hk. destruct (tree_node t g Ht h n Hk) as (hd & _ & E & _ & Eh & En & _). exists hd. split; [by eapply dr_header|done].
Qed.

Lemma difficulty_bounds U header : universe U → U header → 0 ≤ difficulty header ≤ 2 ^ 256.
Proof.
  intros HU Hh. split; [|by apply (un_difficulty U HU)]. pose proof (ok_Difficulty header (proj1 (un_stores U HU header Hh))) as Hd.
  unfold difficulty. by destruct (h_Difficulty header).
Qed.

Lemma acceptable_drawn U t g header :
  universe U → tree t g → drawn U t → U header → 0 < header_number header → acceptable t header.
Proof.
  intros HU Ht Hd Hh Hn. pose proof (un_number U HU header Hh) as Hlt. split.
  - by apply (un_stores U HU).
  - lia.
  - by apply (un_nonzero U HU).
  - intros n other Hk E. destruct (known_in U t g _ _ Ht Hd Hk) as (hd & Hhd & E' & Eh & _). rewrite E in E'. injection E' as <-.
    by apply (un_hash U HU).
  - intros n Hk. destruct (known_in U t g _ _ Ht Hd Hk) as (hd & Hhd & _ & Eh & <-). by apply (un_linked U HU).
  - intros ptd E. apply small_fits. pose proof (difficulty_bounds U header HU Hh).
    assert (known t (h_ParentHash header) (header_number header - 1)) as Hk.
    { split_and!; [apply (un_stores U HU header Hh)|lia|lia|by eexists]. }
    pose proof (dr_td U t Hd _ _ _ Hk E). assert ((header_number header - 1 + 1) * 2 ^ 256 ≤ 2 ^ 64 * 2 ^ 256) by (apply Z.mul_le_mono_nonneg_r; lia).
    change (256 ^ 50) with (2 ^ 64 * 2 ^ 256 * 2 ^ 80). lia.
Qed.

(** One write keeps the chain and its universe. *)
Definition inv U (genesis : bytes) hc : Prop := ∃ t cur, chain_ok hc t cur ∧ drawn U t ∧ canon t 0 = genesis.

Lemma drawn_with_node U t g header ptd t' :
  universe U → tree t g → drawn U t → U header → acceptable t header →
  known t (h_ParentHash header) (header_number header - 1) →
  spec_td t (h_ParentHash header) (header_number header - 1) = Some ptd →
  same_nodes (with_node header (difficulty header + ptd) t) t' → drawn U t'.
Proof.
  intros HU Ht Hd Hh Ha Hkp Eptd Hs. pose proof (dr_td U t Hd _ _ _ Hkp Eptd) as Hp. pose proof (difficulty_bounds U header HU Hh). split.
  - intros h n hd Hk. rewrite (same_header _ _ _ _ Hs), with_node_header. case_decide as Hi; [by intros [= <-]|].
    apply (same_known _ _ _ _ Hs), (with_node_known t g header ptd) in Hk as [Hk|]; [|done..]. by apply (dr_header U t Hd).
  - intros h n td Hk. rewrite (same_td _ _ _ _ Hs), with_node_td. case_decide as Hi; [destruct Hi as [-> ->]; intros [= <-]; lia|].
    apply (same_known _ _ _ _ Hs), (with_node_known t g header ptd) in Hk as [Hk|]; [|done..]. by apply (dr_td U t Hd).
Qed.

Lemma write_inv U g coin header hc :
  universe U → U header → 0 < header_number header → inv U g hc →
  hc_WriteHeader coin header hc = Err ErrUnknownAncestor ∨ ∃ status hc', hc_WriteHeader coin header hc = Ok (status, hc') ∧ inv U g hc'.
Proof.
  intros HU Hh Hn (t & cur & Hco & Hd & Hg). pose proof (co_tree _ _ _ Hco) as Ht.
  pose proof (acceptable_drawn U t _ header HU Ht Hd Hh Hn) as Ha. pose proof (ac_number t header Ha) as Hlt.
  destruct (spec_td t (h_ParentHash header) (header_number header - 1)) as [ptd|] eqn:Eptd.
  - right. assert (known t (h_ParentHash header) (header_number header - 1)) as Hkp.
    { split_and!; [apply (un_stores U HU header Hh)|lia|lia|by eexists]. }
    destruct (proj2 (proj2 (co_known _ _ _ Hco))) as [localTd El].
    destruct (WriteHeader_written coin header hc t cur ptd localTd Hco Ha Hkp Eptd El) as (hc' & t' & E & Hco' & Hs & H0).
    eexists _, hc'. split; [exact E|]. eexists t', _. split; [exact Hco'|]. split; [by eapply drawn_with_node|by rewrite H0].
  - left. apply (WriteHeader_unknown coin header hc t cur Hco Ha). intros (_ & _ & [td E]). by rewrite Eptd in E.
Qed.

(** A batch of headers, with the random choices and when its import is interrupted. *)
Definition batch : Type := (nat → bool) * list (Header * bool).
Definition importable U (b : batch) : Prop := Forall (λ p, U p.1 ∧ 0 < header_number p.1) b.2.

(** The results of an import: complete, stopped at a header whose parent is not known,
    or interrupted; an empty batch panics. *)
Definition import_result (b : batch) (r : nat * hc_out unit) : Prop :=
  match r.2 with
  | Ok _ | Err ErrUnknownAncestor => b.2 ≠ []
  | Err ErrAborted => ∃ i, b.1 i = true
  | Err _ => False
  | Panic => b.2 = []
  end.

Lemma insert_inv U g interrupted chain i hc :
  universe U → importable U (interrupted, chain) → inv U g hc →
  match (insert_headers interrupted i chain hc).1.2 with
  | Ok _ | Err ErrUnknownAncestor => True
  | Err ErrAborted => ∃ j, interrupted j = true
  | _ => False
  end ∧ inv U g (insert_headers interrupted i chain hc).2.
Proof.
  intros HU Hc. unfold importable in Hc. cbn [snd] in Hc. revert i hc. induction Hc as [|[header coin] chain [Hh Hn] _ IH]; intros i hc Hi; [by split|]. cbn [insert_headers].
  destruct (interrupted i) eqn:Eint; [by split; [exists i|]|]. cbn [fst] in Hh, Hn. pose proof (un_stores U HU header Hh) as (Hok & Hu & Hf). rewrite Header_Hash_enc, NumberU64_ok by done.
  destruct (hc_HasHeader _ _ hc); [by apply IH|].
  destruct (write_inv U g coin header hc HU Hh Hn Hi) as [->|(status & hc' & -> & Hi')]; [by split|by apply IH].
Qed.

Lemma batch_inv U g b hc :
  universe U → importable U b → inv U g hc →
  import_result b (InsertHeaderChain b.1 b.2 hc).1 ∧ inv U g (InsertHeaderChain b.1 b.2 hc).2.
Proof.
  destruct b as [interrupted [|p chain]]; intros HU Hc Hi; [by split|]. unfold import_result. cbn [fst snd InsertHeaderChain].
  destruct (insert_inv U g interrupted (p :: chain) 0 hc HU Hc Hi) as [Hr Hi']. split; [|done].
  destruct (insert_headers _ _ _ _).1.2 as [|[]|]; done.
Qed.

(** The results of a sequence of imports and the chain after it. *)
Fixpoint import_all (batches : list batch) hc : list (nat * hc_out unit) * HeaderChain :=
  match batches with
  | [] => ([], hc)
  | b :: batches =>
      let '(r, hc) := InsertHeaderChain b.1 b.2 hc in
      let '(rs, hc) := import_all batches hc in
      (r :: rs, hc)
  end.

Lemma import_inv U g batches hc :
  universe U → Forall (importable U) batches → inv U g hc →
  Forall2 import_result batches (import_all batches hc).1 ∧ inv U g (import_all batches hc).2.
Proof.
  intros HU Hb. revert hc. induction Hb as [|b batches Hc _ IH]; intros hc Hi; [by split|]. cbn [import_all].
  destruct (batch_inv U g b hc HU Hc Hi) as [Hr Hi']. destruct (InsertHeaderChain b.1 b.2 hc) as [r hc1]. cbn [fst snd] in *.
  destruct (IH hc1 Hi') as [Hrs Hi2]. destruct (import_all batches hc1) as [rs hc2]. split; [by constructor|done].
Qed.

Lemma genesis_drawn U g : genesis_ok g → U (b_header (genesis_block g)) → drawn U (genesis_tables g (λ _, None)).
Proof.
  intros Hg HU. split.
  - intros h n hd [-> ->]%genesis_known. rewrite genesis_stored by done. by intros [= <-].
  - intros h n td [-> ->]%genesis_known. rewrite genesis_td, decide_True by done. intros [= <-]. pose proof (go_difficulty g Hg). lia.
Qed.

(** ** What the database shows *)

Record heaviest_chain (db : gmap bytes bytes) (genesis : bytes) (cur : Header) : Prop := {
  hv_genesis : GetCanonicalHash db 0 = genesis;
  hv_head : GetCanonicalHash db (header_number cur) = header_hash cur;
  hv_links n : 0 ≤ n ≤ header_number cur → ∃ header td,
    GetHeader db (GetCanonicalHash db n) n = Some header ∧ GetTd db (GetCanonicalHash db n) n = Some td ∧
    header_hash header = GetCanonicalHash db n ∧ header_number header = n ∧
    (0 < n → h_ParentHash header = GetCanonicalHash db (n - 1) ∧
             GetTd db (GetCanonicalHash db (n - 1)) (n - 1) = Some (td - difficulty header));
  hv_above n : header_number cur < n < 2 ^ 64 → GetCanonicalHash db n = zero_hash32;
  hv_heaviest h n td : length h = 32%nat → 0 ≤ n < 2 ^ 64 - 1 → GetTd db h n = Some td →
    ∃ td', GetTd db (header_hash cur) (header_number cur) = Some td' ∧ td ≤ td'
}.

Lemma chain_shown hc t cur : chain_ok hc t cur → heaviest_chain (hc_chainDb hc) (canon t 0) cur.
Proof.
  intros Hco. pose proof (view_db _ _ (co_view _ _ _ Hco)) as Hr. pose proof (co_tree _ _ _ Hco) as Ht.
  destruct (co_known _ _ _ Hco) as (_ & Hb & _). destruct (co_numbered _ _ _ Hco) as (_ & Hroot & Hz).
  assert (∀ n, uint64 n → GetCanonicalHash (hc_chainDb hc) n = canon t n) as Hc by (intros; by apply GetCanonicalHash_canon).
  assert (∀ h n, length h = 32%nat → 0 ≤ n < 2 ^ 64 - 1 → GetTd (hc_chainDb hc) h n = spec_td t h n) as Htd.
  { intros h n Hl Hn. apply GetTd_spec; [done|]. by split; [|apply uint64_of]. }
  split.
  - apply Hc. split; lia.
  - rewrite Hc by (by apply uint64_of). apply Hco.
  - intros n Hn. destruct (Hroot n Hn) as [Hk Hp]. pose proof Hk as (Hl & Hb' & _). rewrite Hc by (by apply uint64_of).
    destruct (tree_node t _ Ht _ _ Hk) as (hd & td & Ehd & Etd & Eh & En & _ & _ & Hpar). exists hd, td.
    rewrite (GetHeader_spec _ t) by (done || (split; [done|by apply uint64_of])). rewrite Htd by done. split_and!; [done..|].
    intros Hpos. destruct (Hpar Hpos) as (ptd & (Hpl & Hpb & _) & Eptd & ->). rewrite Hc by (by apply uint64_of).
    rewrite (Hp Hpos hd Ehd). split; [done|]. rewrite Htd, Eptd by done. f_equal. lia.
  - intros n Hn. rewrite Hc by (split; lia). apply Hz; [split|]; lia.
  - intros h n td Hl Hn. rewrite Htd by done. intros E. destruct (proj2 (proj2 (co_known _ _ _ Hco))) as [td' E'].
    exists td'. rewrite Htd by (done || apply Hco). split; [done|]. apply (co_heaviest _ _ _ Hco h n); [|done|done]. split; [done|split; [done|by eexists]].
Qed.

End Run.

(** ** A fork *)

Section Listed.
Context {KC : Keccak}.

Lemma universe_of_list (hs : list Header) (xs : list bytes) :
  header_hash <$> hs = xs → Forall header_stores hs → NoDup xs → Forall (λ x, x ≠ zero_hash32) xs →
  Forall (λ h, header_number h < 2 ^ 64 - 1 ∧ difficulty h ≤ 2 ^ 256) hs →
  Forall (λ p, 0 < header_number p.1 → p.2.2 = h_ParentHash p.1 → header_number p.2.1 = header_number p.1 - 1) (list_prod hs (zip hs xs)) →
  universe (λ h, h ∈ hs).
Proof.
  intros <- Hst Hnd Hz Hb Hl. rewrite Forall_fmap, Forall_forall in Hz. rewrite Forall_forall in Hst.
  rewrite Forall_forall in Hb. rewrite Forall_forall in Hl. split.
  - done.
  - intros h Hh. apply (Hb h Hh).
  - intros h Hh. apply (Hz h Hh).
  - intros h h' [i Hi]%list_elem_of_lookup [j Hj]%list_elem_of_lookup E.
    assert (i = j) as ->; [|congruence]. eapply NoDup_lookup; [exact Hnd|..]; rewrite list_lookup_fmap.
    + by rewrite Hi.
    + rewrite Hj. cbn. by rewrite E.
  - intros h p Hh [i Hi]%list_elem_of_lookup. apply (Hl (h, (p, header_hash p))).
    apply list_elem_of_In, in_prod; apply list_elem_of_In; [done|]. apply (list_elem_of_lookup_2 _ i).
    rewrite lookup_zip_with, list_lookup_fmap, Hi. done.
  - intros h Hh. apply (Hb h Hh).
Qed.
End Listed.

Definition ex_genesis : Genesis := MkGenesis None 0 [] (Some 10) (replicate 20 0) 0 (replicate 32 0).

Definition ex_child (parent : Header) (diff tag : Z) : Header :=
  MkHeader (header_hash parent) (replicate 20 tag) (replicate 32 0) (replicate 32 0) (replicate 32 0) (replicate 32 0) (replicate 32 0)
    (Some diff) (Some (header_number parent + 1)) (Some 0) [tag].

Definition ex_root : Header := b_header (genesis_block ex_genesis).
Definition ex_a1 : Header := Eval vm_compute in ex_child ex_root 5 1.
Definition ex_b1 : Header := Eval vm_compute in ex_child ex_root 9 2.
Definition ex_b2 : Header := Eval vm_compute in ex_child ex_b1 3 2.
Definition ex_headers : list Header := [ex_root; ex_a1; ex_b1; ex_b2].

Lemma ex_headers_stores : Forall header_stores ex_headers.
Proof. repeat constructor; (done || (vm_compute; done) || by_decide). Qed.

Definition ex_hashes : list bytes := Eval vm_compute in header_hash <$> ex_headers.

Lemma ex_hashes_ok : header_hash <$> ex_headers = ex_hashes.
Proof. vm_compute. reflexivity. Qed.

Lemma ex_universe : universe (λ h, h ∈ ex_headers).
Proof. apply (universe_of_list _ ex_hashes ex_hashes_ok ex_headers_stores); by_decide. Qed.

Definition ex_batches : list batch :=
  [(λ _, false, [(ex_a1, false)]); (λ _, false, [(ex_b2, true)]); (λ i, Nat.eqb i 1, [(ex_b1, false); (ex_b2, false)]);
   (λ _, false, [(ex_b1, false); (ex_b2, false)])].

Lemma ex_importable : Forall (importable (λ h, h ∈ ex_headers)) ex_batches.
Proof.
  unfold importable, ex_headers. repeat apply Forall_cons_2; try apply Forall_nil_2;
    (split; [apply list_elem_of_In; cbn [In fst]; tauto|reflexivity]).
Qed.

Lemma ex_nonzero : header_hash ex_root ≠ zero_hash32.
Proof. by apply (un_nonzero _ ex_universe), list_elem_of_here. Qed.

Lemma ex_genesis_ok : genesis_ok ex_genesis.
Proof.
  split; [reflexivity| |exact ex_nonzero|split; by_decide]. exact (Forall_inv ex_headers_stores).
Qed.

