(* ===== verification/BlockChain.v ===== *)
(** * The block chain (blockchain/blockchain.go)

    Blocks on top of the header chain: reading through the caches, writing a
    block with its state, making it the head, rewinding and resetting.  The
    database is the one of the header chain.  A state is what its CommitTo puts
    into the batch and its preimages. *)

From S2P Require Import Prelude RlpSpec RlpRaw RlpEncode RlpStream RlpRoundtrip TrieNode Trie TrieMap Sha256 Merkletree Types SecureTrie Lru ChainDb HeaderChain.
Local Open Scope Z_scope.

Inductive bc_error :=
| ErrBcUnknownAncestor
| ErrKnownBlock
| ErrBcNoGenesis
| ErrBcNonContiguous
| ErrFutureBlock
| ErrHeaderUnknown
| ErrNonExistent
| ErrStateMissing
| ErrExportRange
| ErrExportMissing
| ErrOther
| ErrDeadlock
| ErrBcRlp (e : rlp_error)
| ErrBcHeader (e : hc_error).

Abbreviation bc_out := (outcome bc_error).

Definition bodyCacheLimit : nat := 256.
Definition blockCacheLimit : nat := 256.
Definition maxFutureBlocks : nat := 256.
Definition badBlockLimit : nat := 10.

Section BlockChain.
Context {KC : Keccak}.

Abbreviation kv := (gmap bytes bytes).

Record BlockChain := MkBC {
  bc_hc : HeaderChain;
  bc_genesisBlock : option Block;
  bc_currentBlock : option Block;
  bc_currentFastBlock : option Block;
  bc_bodyCache : LRU Body;
  bc_bodyRLPCache : LRU bytes;
  bc_blockCache : LRU Block;
  bc_futureBlocks : LRU Block;
  bc_badBlocks : LRU Header;
  bc_pastTries : list bytes
}.

Implicit Types (bc : BlockChain) (hash : bytes) (number : Z) (block : Block).

Definition bc_chainDb bc : kv := hc_chainDb (bc_hc bc).

Definition bc_set_hc hc bc := MkBC hc (bc_genesisBlock bc) (bc_currentBlock bc) (bc_currentFastBlock bc)
  (bc_bodyCache bc) (bc_bodyRLPCache bc) (bc_blockCache bc) (bc_futureBlocks bc) (bc_badBlocks bc) (bc_pastTries bc).
Definition bc_set_db db bc := bc_set_hc (hc_set_db db (bc_hc bc)) bc.
Definition bc_set_genesis b bc := MkBC (bc_hc bc) b (bc_currentBlock bc) (bc_currentFastBlock bc)
  (bc_bodyCache bc) (bc_bodyRLPCache bc) (bc_blockCache bc) (bc_futureBlocks bc) (bc_badBlocks bc) (bc_pastTries bc).
Definition bc_set_current b bc := MkBC (bc_hc bc) (bc_genesisBlock bc) b (bc_currentFastBlock bc)
  (bc_bodyCache bc) (bc_bodyRLPCache bc) (bc_blockCache bc) (bc_futureBlocks bc) (bc_badBlocks bc) (bc_pastTries bc).
Definition bc_set_fast b bc := MkBC (bc_hc bc) (bc_genesisBlock bc) (bc_currentBlock bc) b
  (bc_bodyCache bc) (bc_bodyRLPCache bc) (bc_blockCache bc) (bc_futureBlocks bc) (bc_badBlocks bc) (bc_pastTries bc).
Definition bc_set_caches bodies rlps blocks bc := MkBC (bc_hc bc) (bc_genesisBlock bc) (bc_currentBlock bc) (bc_currentFastBlock bc)
  bodies rlps blocks (bc_futureBlocks bc) (bc_badBlocks bc) (bc_pastTries bc).
Definition bc_set_future c bc := MkBC (bc_hc bc) (bc_genesisBlock bc) (bc_currentBlock bc) (bc_currentFastBlock bc)
  (bc_bodyCache bc) (bc_bodyRLPCache bc) (bc_blockCache bc) c (bc_badBlocks bc) (bc_pastTries bc).
Definition bc_set_bad c bc := MkBC (bc_hc bc) (bc_genesisBlock bc) (bc_currentBlock bc) (bc_currentFastBlock bc)
  (bc_bodyCache bc) (bc_bodyRLPCache bc) (bc_blockCache bc) (bc_futureBlocks bc) c (bc_pastTries bc).
Definition bc_set_pastTries l bc := MkBC (bc_hc bc) (bc_genesisBlock bc) (bc_currentBlock bc) (bc_currentFastBlock bc)
  (bc_bodyCache bc) (bc_bodyRLPCache bc) (bc_blockCache bc) (bc_futureBlocks bc) (bc_badBlocks bc) l.

Definition lift_bc {A} (r : outcome rlp_error A) : bc_out A := omap_err ErrBcRlp r.
Definition lift_hc {A} (r : hc_out A) : bc_out A := omap_err ErrBcHeader r.

(** block.Hash() and block.NumberU64() *)
Definition block_hash block : bc_out bytes := let* (h, _) := lift_bc (Block_Hash block) in Ok h.
Definition block_number block : bc_out Z := lift_bc (NumberU64 (b_header block)).

(** A field that may be nil, when it is used. *)
Definition deref {A} (o : option A) : bc_out A := match o with Some a => Ok a | None => Panic end.

(** A read of the header chain in a block chain. *)
Definition on_hc {A} (r : A * HeaderChain) bc : A * BlockChain := (r.1, bc_set_hc r.2 bc).

Definition bc_GetTd hash number bc : option Z * BlockChain := on_hc (hc_GetTd hash number (bc_hc bc)) bc.
Definition bc_GetHeader hash number bc : option Header * BlockChain := on_hc (hc_GetHeader hash number (bc_hc bc)) bc.
Definition bc_GetHeaderByHash hash bc : option Header * BlockChain := on_hc (hc_GetHeaderByHash hash (bc_hc bc)) bc.
Definition bc_GetBlockNumber hash bc : Z * BlockChain := on_hc (hc_GetBlockNumber hash (bc_hc bc)) bc.

(** ** Reading *)

Definition bc_GetBody hash bc : option Body * BlockChain :=
  match lru_Get hash (bc_bodyCache bc) with
  | (Some body, c) => (Some body, bc_set_caches c (bc_bodyRLPCache bc) (bc_blockCache bc) bc)
  | (None, c) =>
      let bc := bc_set_caches c (bc_bodyRLPCache bc) (bc_blockCache bc) bc in
      let '(number, bc) := bc_GetBlockNumber hash bc in
      match GetBody (bc_chainDb bc) hash number with
      | None => (None, bc)
      | Some body => (Some body, bc_set_caches (lru_Add hash body (bc_bodyCache bc)).2 (bc_bodyRLPCache bc) (bc_blockCache bc) bc)
      end
  end.

Definition bc_GetBodyRLP hash bc : bytes * BlockChain :=
  match lru_Get hash (bc_bodyRLPCache bc) with
  | (Some body, c) => (body, bc_set_caches (bc_bodyCache bc) c (bc_blockCache bc) bc)
  | (None, c) =>
      let bc := bc_set_caches (bc_bodyCache bc) c (bc_blockCache bc) bc in
      let '(number, bc) := bc_GetBlockNumber hash bc in
      match GetBodyRLP (bc_chainDb bc) hash number with
      | [] => ([], bc)
      | body => (body, bc_set_caches (bc_bodyCache bc) (lru_Add hash body (bc_bodyRLPCache bc)).2 (bc_blockCache bc) bc)
      end
  end.

Definition HasBlock hash number bc : bool :=
  lru_Contains hash (bc_blockCache bc) || bool_decide (is_Some (bc_chainDb bc !! blockBodyKey hash number)).

(** The block read is cached under its own hash. *)
Definition bc_GetBlock hash number bc : bc_out (option Block * BlockChain) :=
  match lru_Get hash (bc_blockCache bc) with
  | (Some block, c) => Ok (Some block, bc_set_caches (bc_bodyCache bc) (bc_bodyRLPCache bc) c bc)
  | (None, c) =>
      let bc := bc_set_caches (bc_bodyCache bc) (bc_bodyRLPCache bc) c bc in
      match GetBlock (bc_chainDb bc) hash number with
      | None => Ok (None, bc)
      | Some block =>
          let* (h, block) := lift_bc (Block_Hash block) in
          Ok (Some block, bc_set_caches (bc_bodyCache bc) (bc_bodyRLPCache bc) (lru_Add h block (bc_blockCache bc)).2 bc)
      end
  end.

Definition GetBlockByHash hash bc : bc_out (option Block * BlockChain) :=
  let '(number, bc) := bc_GetBlockNumber hash bc in bc_GetBlock hash number bc.

Definition GetBlockByNumber number bc : bc_out (option Block * BlockChain) :=
  let hash := GetCanonicalHash (bc_chainDb bc) number in
  if bool_decide (hash = zero_hash32) then Ok (None, bc) else bc_GetBlock hash number bc.

(** The loop of GetBlocksFromHash, [n] rounds left. *)
Fixpoint blocks_from (n : nat) hash number (blocks : list Block) bc : bc_out (list Block * BlockChain) :=
  match n with
  | O => Ok (blocks, bc)
  | S n =>
      let* (block, bc) := bc_GetBlock hash number bc in
      match block with
      | None => Ok (blocks, bc)
      | Some block => blocks_from n (h_ParentHash (b_header block)) (pred64 number) (blocks ++ [block]) bc
      end
  end.

Definition GetBlocksFromHash hash (n : nat) bc : bc_out (list Block * BlockChain) :=
  let '(number, bc) := bc_GetBlockNumber hash bc in blocks_from n hash number [] bc.

(** The tries of the state cache (state/database.go), each by its root. *)
Definition maxPastTries : nat := 12.
Definition MaxTrieCacheGen : Z := 120.

Definition pushTrie (root : bytes) (pastTries : list bytes) : list bytes :=
  if (maxPastTries <=? length pastTries)%nat then tail pastTries ++ [root] else pastTries ++ [root].

(** Whether trie.NewSecure opens the trie of a root. *)
Definition opens (root : bytes) (cachelimit : Z) (db : kv) : bc_out bool :=
  match NewSecure root (λ k, db !! k) cachelimit with
  | Ok _ => Ok true
  | Err _ => Ok false
  | Panic => Panic
  end.

(** Whether state.New(root, bc.stateCache), that is OpenTrie, has no error. *)
Definition OpenTrie (root : bytes) bc : bc_out bool :=
  if bool_decide (root ∈ bc_pastTries bc) then Ok true else opens root MaxTrieCacheGen (bc_chainDb bc).

Definition HasBlockAndState hash bc : bc_out (bool * BlockChain) :=
  let* (block, bc) := GetBlockByHash hash bc in
  match block with
  | None => Ok (false, bc)
  | Some block => let* ok := OpenTrie (h_Root (b_header block)) bc in Ok (ok, bc)
  end.

(** ExportN: the blocks in the order they are written to the writer. *)
Fixpoint export (rounds : nat) (nr : Z) (blocks : list Block) bc : bc_out (list Block * BlockChain) :=
  match rounds with
  | O => Ok (blocks, bc)
  | S r =>
      let* (block, bc) := GetBlockByNumber nr bc in
      match block with
      | None => Err ErrExportMissing
      | Some block => export r (nr + 1) (blocks ++ [block]) bc
      end
  end.

Definition ExportN (first last : Z) bc : bc_out (list Block * BlockChain) :=
  if last <? first then Err ErrExportRange else export (Z.to_nat (last - first + 1)) first [] bc.

(** ** Writing *)

(** insert: the new head block. *)
Definition bc_insert block bc : bc_out BlockChain :=
  let* hash := block_hash block in
  let* number := block_number block in
  let updateHeads := negb (bool_decide (GetCanonicalHash (bc_chainDb bc) number = hash)) in
  let bc := bc_set_db (WriteHeadBlockHash hash (WriteCanonicalHash hash number (bc_chainDb bc))) bc in
  let bc := bc_set_current (Some block) bc in
  if updateHeads then
    let* hc := lift_hc (SetCurrentHeader (CopyHeader (b_header block)) (bc_hc bc)) in
    let bc := bc_set_hc hc bc in
    Ok (bc_set_fast (Some block) (bc_set_db (WriteHeadFastBlockHash hash (bc_chainDb bc)) bc))
  else Ok bc.

(** What a StateDB writes: the root and the entries CommitTo puts, or its error,
    and the preimages. *)
Record StateWrites := MkStateWrites {
  sw_CommitTo : outcome bc_error (bytes * list (bytes * bytes));
  sw_Preimages : list (bytes * bytes)
}.

Definition put_all (l : list (bytes * bytes)) (db : kv) : kv := foldl (λ db p, <[p.1 := p.2]> db) db l.

Definition preimagePrefix : bytes := ascii_bytes "secure-key-".

(** WritePreimages: those that are not stored yet; what the table holds is read
    before the batch is written. *)
Definition WritePreimages (preimages : list (bytes * bytes)) (db : kv) : kv :=
  put_all ((λ p, (preimagePrefix ++ p.1, p.2)) <$> filter (λ p, db !! (preimagePrefix ++ p.1) = None) preimages) db.

(** batch.Write() *)
Definition batch_Write (batch db : kv) : kv := batch ∪ db.

(** common.Address.Big() *)
Definition address_big (addr : bytes) : Z := be_val addr.

(** if err != nil \{ return NonStatTy, err \} *)
Definition or_return {E A} (f : E → bc_error) (r : outcome E A) bc
    (k : A → bc_out (WriteStatus * option bc_error * BlockChain)) : bc_out (WriteStatus * option bc_error * BlockChain) :=
  match r with
  | Ok a => k a
  | Err e => Ok (NonStatTy, Some (f e), bc)
  | Panic => Panic
  end.

(** WriteBlockAndState from the point where the difficulties are known. *)
Definition finish_write block hash number (receipts : list Receipt) (state : StateWrites) (externTd : Z) (localTd : option Z)
    (current : Block) (currentHash : bytes) bc : bc_out (WriteStatus * option bc_error * BlockChain) :=
  or_return ErrBcHeader (hc_WriteTd hash number externTd (bc_hc bc)) bc (λ hc,
  let bc := bc_set_hc hc bc in
  or_return ErrBcRlp (WriteBlock block ∅) bc (λ batch,
  or_return id (sw_CommitTo state) bc (λ committed,
  let '(root, entries) := committed in
  let bc := bc_set_pastTries (pushTrie root (bc_pastTries bc)) bc in
  let batch := put_all entries batch in
  or_return ErrBcRlp (WriteBlockReceipts hash number receipts batch) bc (λ batch,
  let* localTd := deref localTd in
  if (localTd <? externTd) ||
     ((externTd =? localTd) && (address_big (h_Coinbase (b_header current)) <? address_big (h_Coinbase (b_header block))))
  then
    if negb (bool_decide (h_ParentHash (b_header block) = currentHash)) then Ok (NonStatTy, None, bc)
    else
      or_return ErrBcRlp (WriteTxLookupEntries block batch) bc (λ batch,
      let bc := bc_set_db (WritePreimages (sw_Preimages state) (bc_chainDb bc)) bc in
      let bc := bc_set_db (batch_Write batch (bc_chainDb bc)) bc in
      let* bc := bc_insert block bc in
      Ok (CanonStatTy, None, bc_set_future (lru_Remove hash (bc_futureBlocks bc)).2 bc))
  else
    let bc := bc_set_db (batch_Write batch (bc_chainDb bc)) bc in
    Ok (SideStatTy, None, bc_set_future (lru_Remove hash (bc_futureBlocks bc)).2 bc))))).

Definition WriteBlockAndState block (receipts : list Receipt) (state : StateWrites) bc
    : bc_out (WriteStatus * option bc_error * BlockChain) :=
  let* number := block_number block in
  let '(ptd, bc) := bc_GetTd (h_ParentHash (b_header block)) (pred64 number) bc in
  match ptd with
  | None => Ok (NonStatTy, Some ErrBcUnknownAncestor, bc)
  | Some ptd =>
      let* current := deref (bc_currentBlock bc) in
      let* currentHash := block_hash current in
      let* currentNumber := block_number current in
      let '(localTd, bc) := bc_GetTd currentHash currentNumber bc in
      let* difficulty := deref (h_Difficulty (b_header block)) in
      let* hash := block_hash block in
      finish_write block hash number receipts state (difficulty + ptd) localTd current currentHash bc
  end.

(** ** Rewinding and resetting *)

(** The part of SetHead before loadLastState. *)
Definition rewind_blocks (head : Z) bc : bc_out BlockChain :=
  let* hc := lift_hc (hc_SetHead (λ hash num db, DeleteBody hash num db) head (bc_hc bc)) in
  let bc := bc_set_hc hc bc in
  let bc := bc_set_caches (lru_Purge (bc_bodyCache bc)) (lru_Purge (bc_bodyRLPCache bc)) (lru_Purge (bc_blockCache bc)) bc in
  let bc := bc_set_future (lru_Purge (bc_futureBlocks bc)) bc in
  let below (b : option Block) bc : bc_out (option Block * BlockChain) :=
    match b with
    | None => Ok (None, bc)
    | Some block =>
        let* currentHeader := deref (hc_currentHeader hc) in
        let* number := lift_bc (NumberU64 currentHeader) in
        let* n := block_number block in
        if number <? n then
          let* hash := lift_bc (Header_Hash currentHeader) in bc_GetBlock hash number bc
        else Ok (b, bc)
    end in
  let* (current, bc) := below (bc_currentBlock bc) bc in
  let* current :=
    match current with
    | None => Ok None
    | Some block => let* ok := OpenTrie (h_Root (b_header block)) bc in Ok (if (ok : bool) then Some block else None)
    end in
  let* (fast, bc) := below (bc_currentFastBlock bc) bc in
  let or_genesis b := match b with Some _ => b | None => bc_genesisBlock bc end in
  let* current := deref (or_genesis current) in
  let* fast := deref (or_genesis fast) in
  let* currentHash := block_hash current in
  let* fastHash := block_hash fast in
  let db := WriteHeadFastBlockHash fastHash (WriteHeadBlockHash currentHash (bc_chainDb bc)) in
  Ok (bc_set_fast (Some fast) (bc_set_current (Some current) (bc_set_db db bc))).

(** loadLastState; [reset] is bc.Reset(). *)
Definition load_last_state (reset : BlockChain → bc_out BlockChain) bc : bc_out BlockChain :=
  let head := GetHeadBlockHash (bc_chainDb bc) in
  if bool_decide (head = zero_hash32) then reset bc
  else
    let* (currentBlock, bc) := GetBlockByHash head bc in
    match currentBlock with
    | None => reset bc
    | Some block =>
        let* ok := OpenTrie (h_Root (b_header block)) bc in
        if negb ok then reset bc
        else
          let bc := bc_set_current (Some block) bc in
          let headHeader := GetHeadHeaderHash (bc_chainDb bc) in
          let '(currentHeader, bc) :=
            if bool_decide (headHeader = zero_hash32) then (CopyHeader (b_header block), bc)
            else match bc_GetHeaderByHash headHeader bc with
                 | (Some header, bc) => (header, bc)
                 | (None, bc) => (CopyHeader (b_header block), bc)
                 end in
          let* hc := lift_hc (SetCurrentHeader currentHeader (bc_hc bc)) in
          let bc := bc_set_hc hc bc in
          let headFast := GetHeadFastBlockHash (bc_chainDb bc) in
          if bool_decide (headFast = zero_hash32) then Ok (bc_set_fast (Some block) bc)
          else
            let* (fast, bc) := GetBlockByHash headFast bc in
            Ok (bc_set_fast (Some (default block fast)) bc)
    end.

(** SetHead holds the lock of the chain while it loads the last state; a reset
    there takes the lock again and waits for ever. *)
Definition bc_SetHead (head : Z) bc : bc_out BlockChain :=
  let* bc := rewind_blocks head bc in
  load_last_state (λ _, Err ErrDeadlock) bc.

Definition ResetWithGenesisBlock (genesis : Block) bc : bc_out BlockChain :=
  let* bc := bc_SetHead 0 bc in
  let* hash := block_hash genesis in
  let* number := block_number genesis in
  let* difficulty := deref (h_Difficulty (b_header genesis)) in
  let* hc := lift_hc (hc_WriteTd hash number difficulty (bc_hc bc)) in
  let bc := bc_set_hc hc bc in
  let* db := lift_bc (WriteBlock genesis (bc_chainDb bc)) in
  let bc := bc_set_genesis (Some genesis) (bc_set_db db bc) in
  let* bc := bc_insert genesis bc in
  let bc := bc_set_current (Some genesis) bc in
  let* hc := lift_hc (SetCurrentHeader (CopyHeader (b_header genesis)) (SetGenesis (CopyHeader (b_header genesis)) (bc_hc bc))) in
  Ok (bc_set_fast (Some genesis) (bc_set_hc hc bc)).

Definition bc_Reset bc : bc_out BlockChain :=
  let* genesis := deref (bc_genesisBlock bc) in ResetWithGenesisBlock genesis bc.

Definition loadLastState bc : bc_out BlockChain := load_last_state bc_Reset bc.

(** NewBlockChainWithEngine, without the engine and the goroutine it starts. *)
Definition NewBlockChain (db : kv) : bc_out BlockChain :=
  let* hc := lift_hc (NewHeaderChain db) in
  let bc := MkBC hc None None None (NewLRU bodyCacheLimit) (NewLRU bodyCacheLimit) (NewLRU blockCacheLimit)
              (NewLRU maxFutureBlocks) (NewLRU badBlockLimit) [] in
  let* (genesis, bc) := GetBlockByNumber 0 bc in
  match genesis with
  | None => Err ErrBcNoGenesis
  | Some _ => loadLastState (bc_set_genesis genesis bc)
  end.

Definition FastSyncCommitHead hash bc : bc_out BlockChain :=
  let* (block, bc) := GetBlockByHash hash bc in
  match block with
  | None => Err ErrNonExistent
  | Some block =>
      let* ok := opens (h_Root (b_header block)) 0 (bc_chainDb bc) in
      if (ok : bool) then Ok (bc_set_current (Some block) bc) else Err ErrStateMissing
  end.

(** One round of Rollback. *)
Definition rollback_one hash bc : bc_out BlockChain :=
  let* currentHeader := deref (hc_currentHeader (bc_hc bc)) in
  let* headerHash := lift_bc (Header_Hash currentHeader) in
  let* bc :=
    if bool_decide (headerHash = hash) then
      let* n := lift_bc (NumberU64 currentHeader) in
      let '(parent, bc) := bc_GetHeader (h_ParentHash currentHeader) (pred64 n) bc in
      let* parent := deref parent in
      let* hc := lift_hc (SetCurrentHeader parent (bc_hc bc)) in Ok (bc_set_hc hc bc)
    else Ok bc in
  let back (b : option Block) bc : bc_out (option Block * BlockChain) :=
    let* b := deref b in
    let* n := block_number b in bc_GetBlock (h_ParentHash (b_header b)) (pred64 n) bc in
  let* fast := deref (bc_currentFastBlock bc) in
  let* fastHash := block_hash fast in
  let* bc :=
    if bool_decide (fastHash = hash) then
      let* (fast, bc) := back (bc_currentFastBlock bc) bc in
      let* fast := deref fast in
      let* h := block_hash fast in Ok (bc_set_fast (Some fast) (bc_set_db (WriteHeadFastBlockHash h (bc_chainDb bc)) bc))
    else Ok bc in
  let* current := deref (bc_currentBlock bc) in
  let* currentHash := block_hash current in
  if bool_decide (currentHash = hash) then
    let* (current, bc) := back (bc_currentBlock bc) bc in
    let* current := deref current in
    let* h := block_hash current in Ok (bc_set_current (Some current) (bc_set_db (WriteHeadBlockHash h (bc_chainDb bc)) bc))
  else Ok bc.

(** The hashes are taken from the last to the first. *)
Definition Rollback (chain : list bytes) bc : bc_out BlockChain :=
  foldr (λ hash r, let* bc := r in rollback_one hash bc) (Ok bc) chain.

(** ** Processing and validating (state_processor.go, block_validator.go) *)

(** ApplyTransaction does not apply the transaction. *)
Definition ApplyTransaction (tx : Transaction) : bc_out Receipt :=
  let* (h, _) := lift_bc (Transaction_Hash tx) in
  Ok (MkReceipt (r_Status (NewReceipt false)) 1 h).

Fixpoint apply_all (txs : list Transaction) : bc_out (list Receipt) :=
  match txs with
  | [] => Ok []
  | tx :: txs => let* r := ApplyTransaction tx in let* rs := apply_all txs in Ok (r :: rs)
  end.

(** The engine: the results of VerifyHeaders, and Finalize on the state of the
    parent's root, which gives the root and the writes of the state after the
    block. *)
Record Engine := MkEngine {
  en_VerifyHeaders : list Header → list (option bc_error);
  en_Finalize : bytes → Block → list Receipt → outcome bc_error (bytes * StateWrites)
}.

Definition Process (en : Engine) (parentRoot : bytes) block : bc_out (list Receipt * (bytes * StateWrites)) :=
  let* receipts := apply_all (b_transactions block) in
  let* st := en_Finalize en parentRoot block receipts in
  Ok (receipts, st).

(** The error a validation returns, and the caches it has filled. *)
Definition ValidateBody block bc : bc_out (option bc_error * BlockChain) :=
  let* hash := block_hash block in
  let* (known, bc) := HasBlockAndState hash bc in
  if known : bool then Ok (Some ErrKnownBlock, bc)
  else
    let* (parent, bc) := HasBlockAndState (h_ParentHash (b_header block)) bc in
    if negb parent then Ok (Some ErrBcUnknownAncestor, bc)
    else
      let* txHash := lift_bc (DeriveSha (b_transactions block)) in
      Ok (if bool_decide (txHash = h_TxHash (b_header block)) then None else Some ErrOther, bc).

Definition ValidateState block (receipts : list Receipt) (root : bytes) : bc_out (option bc_error) :=
  let* receiptSha := lift_bc (DeriveSha receipts) in
  Ok (if negb (bool_decide (receiptSha = h_ReceiptHash (b_header block))) then Some ErrOther
      else if negb (bool_decide (root = h_Root (b_header block))) then Some ErrOther else None).

(** ** Importing blocks *)

Definition maxTimeFutureBlocks : Z := 30.

Definition reportBlock block bc : bc_out BlockChain :=
  let* h := lift_bc (Header_Hash (CopyHeader (b_header block))) in
  Ok (bc_set_bad (lru_Add h (CopyHeader (b_header block)) (bc_badBlocks bc)).2 bc).

Fixpoint blocks_contiguous (prev : Block) (chain : list Block) : bc_out bool :=
  match chain with
  | [] => Ok true
  | b :: chain =>
      let* n := block_number b in
      let* m := block_number prev in
      let* h := block_hash prev in
      if negb (n =? succ64 m) || negb (bool_decide (h_ParentHash (b_header b) = h)) then Ok false
      else blocks_contiguous b chain
  end.

(** Where an import stands: the canonical blocks so far, the last of them first. *)
Record Import := MkImport { im_index : nat; im_events : list Block; im_err : option bc_error }.

(** The loop of insertChain from the block [i] on; [prev] is the block before it
    in the list. *)
Fixpoint insert_blocks (en : Engine) (now : Z) (interrupted : nat → bool) (i : nat) (prev : option Block)
    (chain : list Block) (results : list (option bc_error)) (events : list Block) bc : bc_out (Import * BlockChain) :=
  match chain with
  | [] => Ok (MkImport O events None, bc)
  | block :: rest =>
      let next := insert_blocks en now interrupted (S i) (Some block) rest (tail results) in
      let failed err bc := let* bc := reportBlock block bc in Ok (MkImport i events (Some err), bc) in
      if interrupted i then Ok (MkImport O events None, bc)
      else
        let* hash := block_hash block in
        let* (err, bc) := match head results with
                          | Some (Some e) => Ok (Some e, bc)
                          | _ => ValidateBody block bc
                          end in
        match err with
        | Some ErrKnownBlock => next events bc
        | Some ErrFutureBlock =>
            let* time := deref (h_Time (b_header block)) in
            if now + maxTimeFutureBlocks <? time then Ok (MkImport i events (Some ErrOther), bc)
            else next events (bc_set_future (lru_Add hash block (bc_futureBlocks bc)).2 bc)
        | Some ErrBcUnknownAncestor =>
            if lru_Contains (h_ParentHash (b_header block)) (bc_futureBlocks bc)
            then next events (bc_set_future (lru_Add hash block (bc_futureBlocks bc)).2 bc)
            else failed ErrBcUnknownAncestor bc
        | Some e => failed e bc
        | None =>
            let* (parent, bc) := match prev with
                                 | None => let* n := block_number block in bc_GetBlock (h_ParentHash (b_header block)) (pred64 n) bc
                                 | Some p => Ok (Some p, bc)
                                 end in
            let* parent := deref parent in
            let* ok := OpenTrie (h_Root (b_header parent)) bc in
            if negb ok then Ok (MkImport i events (Some ErrStateMissing), bc)
            else
              match Process en (h_Root (b_header parent)) block with
              | Panic => Panic
              | Err e => failed e bc
              | Ok (receipts, (root, state)) =>
                  let* verr := ValidateState block receipts root in
                  match verr with
                  | Some e => failed e bc
                  | None =>
                      let* (status, err, bc) := WriteBlockAndState block receipts state bc in
                      match err with
                      | Some e => Ok (MkImport i events (Some e), bc)
                      | None => next (match status with CanonStatTy => block :: events | _ => events end) bc
                      end
                  end
              end
        end
  end.

Definition insertChain (en : Engine) (now : Z) (interrupted : nat → bool) (chain : list Block) bc
    : bc_out (Import * BlockChain) :=
  let* ok := match chain with [] => Ok true | b :: rest => blocks_contiguous b rest end in
  if negb ok then Ok (MkImport O [] (Some ErrBcNonContiguous), bc)
  else insert_blocks en now interrupted O None chain (en_VerifyHeaders en (CopyHeader ∘ b_header <$> chain)) [] bc.
End BlockChain.
