(* ===== verification/BlockChainSafe.v ===== *)
(** * Blocks are only appended (blockchain/blockchain.go)

    Writing blocks with their states, one after the other: the canonical numbering
    is an unbroken chain of stored blocks that starts at the genesis block, its
    transactions are found by their hashes, and no write takes a canonical block
    back.  A heavier block whose parent is not the head is dropped. *)

From S2P Require Import Prelude RlpSpec RlpRaw RlpEncode RlpStream RlpRoundtrip TrieNode Trie TrieMap Sha256 Merkletree Types SecureTrie Lru ChainDb ChainTables HeaderChain HeaderChainInv Genesis HeaderChainRun BlockChain.
Local Open Scope Z_scope.

Section Safe.
Context {KC : Keccak}.
Implicit Types (t : tables) (bc : BlockChain) (hc : HeaderChain) (h : bytes) (n : Z) (b : Block) (db : gmap bytes bytes) (U : Header → Prop).

(** ** Writing to a batch is writing to the database *)

Definition then_write {E} (r : outcome E (gmap bytes bytes)) db : outcome E (gmap bytes bytes) :=
  match r with Ok m => Ok (batch_Write m db) | Err e => Err e | Panic => Panic end.

Definition batched {E} (f : gmap bytes bytes → outcome E (gmap bytes bytes)) : Prop :=
  ∀ m db, f (batch_Write m db) = then_write (f m) db.

Lemma batched_bind {A} (r : outcome rlp_error A) (f : A → gmap bytes bytes → outcome rlp_error (gmap bytes bytes)) :
  (∀ a, batched (f a)) → batched (λ m, let* a := r in f a m).
Proof. intros Hf m db. destruct r as [a| |]; [apply Hf|done..]. Qed.

Lemma batched_pair {A B} (r : outcome rlp_error (A * B)) (f : A → B → gmap bytes bytes → outcome rlp_error (gmap bytes bytes)) :
  (∀ x y, batched (f x y)) → batched (λ m, let* (x, y) := r in f x y m).
Proof. intros Hf m db. destruct r as [[x y]| |]; [apply Hf|done..]. Qed.

Lemma batched_insert (k v : bytes) : batched (E := rlp_error) (λ m, Ok (<[k := v]> m)).
Proof. intros m db. cbn. unfold batch_Write. by rewrite insert_union_l. Qed.

Lemma batched_seq (f g : gmap bytes bytes → outcome rlp_error (gmap bytes bytes)) :
  batched f → batched g → batched (λ m, let* m := f m in g m).
Proof. intros Hf Hg m db. rewrite Hf. destruct (f m) as [m'| |]; [apply Hg|done..]. Qed.

Lemma batched_WriteHeader header : batched (WriteHeader header).
Proof.
  unfold WriteHeader. apply batched_bind. intros data. apply batched_bind. intros hash. apply batched_bind. intros num m db. cbn.
  unfold batch_Write. by rewrite !insert_union_l.
Qed.

Lemma batched_WriteBlock b : batched (WriteBlock b).
Proof.
  unfold WriteBlock. apply batched_pair. intros hash b'.
  apply batched_bind. intros number. apply batched_seq; [|apply batched_WriteHeader]. unfold WriteBody, WriteBodyRLP.
  apply batched_bind. intros data. apply batched_insert.
Qed.

Lemma batched_WriteBlockReceipts h n receipts : batched (WriteBlockReceipts h n receipts).
Proof. unfold WriteBlockReceipts. apply batched_bind. intros data. apply batched_insert. Qed.

Lemma batched_lookups h n index txs : batched (write_lookups h n index txs).
Proof.
  revert index. induction txs as [|tx txs IH]; intros index; [done|]. cbn [write_lookups].
  apply batched_bind. intros data. apply batched_pair. intros x tx' m db. unfold batch_Write. rewrite insert_union_l. apply (IH (index + 1)).
Qed.

Lemma batched_WriteTxLookupEntries b : batched (WriteTxLookupEntries b).
Proof.
  unfold WriteTxLookupEntries. destruct (b_transactions b) as [|tx txs]; [done|].
  apply batched_pair. intros hash b'. apply batched_bind. intros number. apply batched_lookups.
Qed.

Lemma put_all_batch l m db : put_all l (batch_Write m db) = batch_Write (put_all l m) db.
Proof.
  revert m. induction l as [|[k v] l IH]; intros m; [done|]. cbn. unfold batch_Write at 1. rewrite insert_union_l. apply IH.
Qed.

Lemma batch_empty db : batch_Write ∅ db = db.
Proof. unfold batch_Write. apply (left_id_L ∅ (∪)). Qed.

(** ** The universe of blocks *)

Definition tx_hashes b : list bytes := tx_hash_of <$> b_transactions b.

Abbreviation headers_of UB := (λ header, ∃ b, UB b ∧ b_header b = header).

Implicit Types UB : Block → Prop.

(** Blocks that can be stored, whose headers are consistent, and whose hash fixes
    their transactions. *)
Record block_universe UB : Prop := {
  ub_headers : universe (headers_of UB);
  ub_stores b : UB b → block_stores b;
  ub_txs b : UB b → Forall tx_stores (b_transactions b) ∧ Z.of_nat (length (b_transactions b)) < 2 ^ 64;
  ub_hash b b' : UB b → UB b' → header_hash (b_header b) = header_hash (b_header b') → tx_hashes b = tx_hashes b'
}.

Definition stored_block UB t h n b : Prop :=
  t (TkHeader h n) = Some (VHeader (b_header b)) ∧ t (TkBody h n) = Some (VBody (Block_Body b)) ∧
  UB b ∧ header_hash (b_header b) = h ∧ header_number (b_header b) = n.

(** The lookup entry of a transaction hash leads to a canonical block up to [N]
    with that transaction. *)
Definition found UB t (N : Z) (x : bytes) : Prop := ∃ (m : Z) j b, 0 ≤ m ≤ N ∧
  t (TkLookup x) = Some (VLookup (MkLookup (canon t m) m (Z.of_nat j))) ∧
  stored_block UB t (canon t m) m b ∧ tx_hashes b !! j = Some x.

Definition canonical_block UB t (N : Z) n : Prop := ∃ b,
  stored_block UB t (canon t n) n b ∧ known t (canon t n) n ∧
  (0 < n → canon t (n - 1) = h_ParentHash (b_header b)) ∧ ∀ x, x ∈ tx_hashes b → found UB t N x.

Record bchain UB bc t b : Prop := {
  bi_view : view (bc_hc bc) t;
  bi_known h n : known t h n → ∃ b', UB b' ∧ header_hash (b_header b') = h ∧ header_number (b_header b') = n;
  bi_td h n td : known t h n → spec_td t h n = Some td → 0 ≤ td ≤ (n + 1) * 2 ^ 256;
  bi_header h n header : spec_header t h n = Some header → headers_of UB header ∧ header_hash header = h;
  bi_current : bc_currentBlock bc = Some b;
  bi_in : UB b;
  bi_head : canon t (header_number (b_header b)) = header_hash (b_header b);
  bi_chain n : 0 ≤ n ≤ header_number (b_header b) → canonical_block UB t (header_number (b_header b)) n;
  bi_above n : uint64 n → header_number (b_header b) < n → canon t n = zero_hash32;
  bi_pointer : spec_hash t TkHeadBlock = header_hash (b_header b)
}.

(** ** Tables with one more block *)

(** [t'] is [t] with the difficulty [td] for the block [b] and maybe the block. *)
Record adds t t' b (td : Z) : Prop := {
  ad_block h n : (t' (TkHeader h n) = t (TkHeader h n) ∧ t' (TkBody h n) = t (TkBody h n)) ∨
    (is_node (b_header b) h n ∧ t' (TkHeader h n) = Some (VHeader (b_header b)) ∧ t' (TkBody h n) = Some (VBody (Block_Body b)));
  ad_td h n : spec_td t' h n = if decide (is_node (b_header b) h n) then Some td else spec_td t h n
}.

Section Adds.
Context UB t t' b (td : Z) (HU : block_universe UB) (Hb : UB b) (Ha : adds t t' b td).

Lemma same_hash_header b0 : UB b0 → header_hash (b_header b0) = header_hash (b_header b) → b_header b0 = b_header b.
Proof using HU Hb. intros H0. apply (un_hash _ (ub_headers UB HU)); eauto. Qed.

Lemma adds_stored h n b0 : stored_block UB t h n b0 →
  ∃ b1, stored_block UB t' h n b1 ∧ b_header b1 = b_header b0 ∧ tx_hashes b1 = tx_hashes b0.
Proof using HU Hb Ha.
  intros (Eh & Eb & H0 & Ehash & En). destruct (ad_block t t' b td Ha h n) as [[Eh' Eb']|([-> ->] & Eh' & Eb')].
  - exists b0. by rewrite <-Eh' in Eh; rewrite <-Eb' in Eb.
  - exists b. split; [by split_and!|]. split; [symmetry; by apply same_hash_header|symmetry; by apply (ub_hash UB HU)].
Qed.

Lemma adds_known h n : known t' h n ↔ known t h n ∨ is_node (b_header b) h n.
Proof using HU Hb Ha.
  pose proof (un_number _ (ub_headers UB HU) (b_header b)) as Hn. destruct (ub_stores UB HU b Hb) as (_ & (_ & Hu & _) & _).
  unfold known. rewrite (ad_td t t' b td Ha). case_decide as Hi; [|tauto]. destruct Hi as [-> ->]. split; [by right|].
  intros _. unfold uint64 in Hu. split; [apply keccak_length|]. split; [split; [lia|eauto]|by eexists].
Qed.

Lemma adds_header h n header :
  (∀ h n header, spec_header t h n = Some header → headers_of UB header ∧ header_hash header = h) →
  spec_header t' h n = Some header → headers_of UB header ∧ header_hash header = h.
Proof using HU Hb Ha.
  intros Hh. unfold spec_header. destruct (ad_block t t' b td Ha h n) as [[-> _]|([-> _] & -> & _)]; [apply Hh|].
  intros [= <-]. eauto.
Qed.

Lemma adds_canonical N N' n :
  N ≤ N' → 0 ≤ n ≤ N → (∀ m, 0 ≤ m ≤ N → canon t' m = canon t m) →
  (∀ x, t' (TkLookup x) = t (TkLookup x) ∨ found UB t' N' x) →
  canonical_block UB t N n → canonical_block UB t' N' n.
Proof using HU Hb Ha.
  intros HN Hn Hc Hl (b0 & Hst & Hk & Hp & Hf). destruct (adds_stored _ _ _ Hst) as (b1 & Hst1 & Eh & Et). exists b1.
  rewrite Hc by lia. split_and!; [done|apply adds_known; by left|intros ?; rewrite Hc, Eh by lia; by apply Hp|].
  intros x Hx. rewrite Et in Hx. destruct (Hl x) as [El|]; [|done]. destruct (Hf x Hx) as (m & j & b2 & Hm & El2 & Hst2 & Ej).
  destruct (adds_stored _ _ _ Hst2) as (b3 & Hst3 & _ & Et3). exists m, j, b3. rewrite El, Hc, Et3 by lia. split_and!; [lia|lia|done..].
Qed.

Lemma adds_view hc hc' :
  view hc t → (∀ h n header, spec_header t h n = Some header → headers_of UB header ∧ header_hash header = h) →
  represents (hc_chainDb hc') t' → hc_headerCache hc' = hc_headerCache hc →
  (∀ h d, lru_Peek h (hc_tdCache hc') = Some d → (h = header_hash (b_header b) ∧ d = td) ∨ (h ≠ header_hash (b_header b) ∧ lru_Peek h (hc_tdCache hc) = Some d)) →
  view hc' t'.
Proof using HU Hb Ha.
  intros [_ Vt Vh] Hh Hr Ec Hc. split; [done|..].
  - intros h d [[-> ->]|[Hne E]]%Hc.
    + exists (header_number (b_header b)). rewrite adds_known, (ad_td t t' b td Ha), decide_True by done. split; [by right|done].
    + destruct (Vt h d E) as (n & Hk & Ed). exists n. rewrite adds_known, (ad_td t t' b td Ha), decide_False by (by intros [? _]). auto.
  - intros h header. rewrite Ec. intros E. destruct (Vh h header E) as (n & Hk & Ehd). exists n. rewrite adds_known. split; [by left|].
    unfold spec_header in *. destruct (ad_block t t' b td Ha h n) as [[-> _]|([-> ->] & -> & _)]; [done|]. f_equal.
    destruct (Hh _ _ _ Ehd) as [(b0 & H0 & <-) Ex]. symmetry. by apply same_hash_header.
Qed.
End Adds.

(** A later state of the chain: a block was added, the head stays or moves up. *)
Lemma bchain_adds UB bc t b bc' t' new td b' :
  block_universe UB → bchain UB bc t b → UB new → adds t t' new td → 0 ≤ td ≤ (header_number (b_header new) + 1) * 2 ^ 256 →
  view (bc_hc bc') t' → bc_currentBlock bc' = Some b' → UB b' →
  header_number (b_header b) ≤ header_number (b_header b') →
  (∀ n, 0 ≤ n ≤ header_number (b_header b) → canon t' n = canon t n) →
  (∀ x, t' (TkLookup x) = t (TkLookup x) ∨ found UB t' (header_number (b_header b')) x) →
  (∀ n, header_number (b_header b) < n ≤ header_number (b_header b') → canonical_block UB t' (header_number (b_header b')) n) →
  (∀ n, uint64 n → header_number (b_header b') < n → canon t' n = zero_hash32) →
  canon t' (header_number (b_header b')) = header_hash (b_header b') → spec_hash t' TkHeadBlock = header_hash (b_header b') →
  bchain UB bc' t' b'.
Proof.
  intros HU Hi Hnew Ha Htd Hv Ec Hin HN Hc Hl Hnext Habove Hhead Hptr. split; [done|..|done|done|done| |done|done].
  - intros h n [Hk|[-> ->]]%(adds_known UB t t' new td HU Hnew Ha); [by apply (bi_known _ _ _ _ Hi)|by exists new].
  - intros h n d [Hk|[-> ->]]%(adds_known UB t t' new td HU Hnew Ha); rewrite (ad_td t t' new td Ha); case_decide as Hn.
    + destruct Hn as [-> ->]. intros [= <-]. done.
    + by apply (bi_td _ _ _ _ Hi).
    + intros [= <-]. done.
    + by destruct Hn.
  - intros h n header. apply (adds_header UB t t' new td HU Hnew Ha), (bi_header _ _ _ _ Hi).
  - intros n Hn. destruct (decide (n ≤ header_number (b_header b))) as [Hle|Hgt]; [|apply Hnext; lia].
    apply (adds_canonical UB t t' new td HU Hnew Ha (header_number (b_header b))); [done|lia|done|done|]. apply (bi_chain _ _ _ _ Hi). lia.
Qed.

(** ** The tables after each part of a write *)

Definition with_td b (td : Z) t : tables := put (TkTd (header_hash (b_header b)) (header_number (b_header b))) (VTd td) t.

Definition with_block b (td : Z) (receipts : list Receipt) t : tables :=
  put (TkReceipts (header_hash (b_header b)) (header_number (b_header b))) (VReceipts receipts) (put_block b (with_td b td t)).

Definition with_lookups b t : tables := put_lookups (header_hash (b_header b)) (header_number (b_header b)) 0 (b_transactions b) t.

Definition with_head b t : tables :=
  let x := header_hash (b_header b) in
  put TkHeadFast (VHash x) (put TkHeadHeader (VHash x) (put TkHeadBlock (VHash x)
    (put (TkCanonical (header_number (b_header b))) (VHash x) t))).

(** Tables with the same blocks and difficulties. *)
Definition keeps_blocks t t' : Prop := ∀ h n,
  t' (TkHeader h n) = t (TkHeader h n) ∧ t' (TkBody h n) = t (TkBody h n) ∧ t' (TkTd h n) = t (TkTd h n).

Lemma adds_keeps t t' t'' b td : adds t t' b td → keeps_blocks t' t'' → adds t t'' b td.
Proof.
  intros [H1 H2] Hk. split.
  - intros h n. destruct (Hk h n) as (-> & -> & _). apply H1.
  - intros h n. rewrite <-H2. unfold spec_td. by destruct (Hk h n) as (_ & _ & ->).
Qed.

Lemma adds_td t b td : adds t (with_td b td t) b td.
Proof.
  split; intros h n; unfold with_td, put, spec_td; [left; by rewrite !decide_False by (intros [=])|].
  unfold is_node. repeat case_decide; naive_solver.
Qed.

Lemma adds_block t b td receipts : adds t (with_block b td receipts t) b td.
Proof.
  split; intros h n; unfold with_block, with_td, put_block, put_header, put, spec_td.
  - rewrite !(decide_False (P := TkReceipts _ _ = _)), !(decide_False (P := TkNumber _ = _)), !(decide_False (P := TkTd _ _ = _)) by (intros [=]).
    rewrite (decide_False (P := TkHeader _ _ = TkBody _ _)), (decide_False (P := TkBody _ _ = TkHeader _ _)) by (intros [=]).
    unfold is_node. repeat case_decide; naive_solver.
  - rewrite !(decide_False (P := TkReceipts _ _ = _)), !(decide_False (P := TkNumber _ = _)), !(decide_False (P := TkHeader _ _ = _)),
      !(decide_False (P := TkBody _ _ = _)) by (intros [=]). unfold is_node. repeat case_decide; naive_solver.
Qed.

Lemma put_lookups_other h n i txs t k : (∀ x, k ≠ TkLookup x) → put_lookups h n i txs t k = t k.
Proof.
  intros Hk. revert i t. induction txs as [|tx txs IH]; intros i t; [done|]. cbn [put_lookups]. rewrite IH. unfold put.
  by rewrite decide_False by (intros E; by apply (Hk (tx_hash_of tx))).
Qed.

Lemma put_lookups_lookup h n i txs t (x : bytes) :
  (put_lookups h n i txs t (TkLookup x) = t (TkLookup x) ∧ x ∉ tx_hash_of <$> txs) ∨
  ∃ j, put_lookups h n i txs t (TkLookup x) = Some (VLookup (MkLookup h n (i + Z.of_nat j))) ∧ (tx_hash_of <$> txs) !! j = Some x.
Proof.
  revert i t. induction txs as [|tx txs IH]; intros i t; [left; split; [done|apply not_elem_of_nil]|]. cbn [put_lookups].
  destruct (IH (i + 1) (put (TkLookup (tx_hash_of tx)) (VLookup (MkLookup h n i)) t)) as [[-> Hx]|(j & -> & Ej)].
  - unfold put. case_decide as E.
    + injection E as <-. right. exists 0%nat. split; [do 3 f_equal; lia|done].
    + left. split; [done|]. cbn. apply not_elem_of_cons. split; [congruence|done].
  - right. exists (S j). split; [do 3 f_equal; lia|done].
Qed.

Lemma keeps_lookups b t : keeps_blocks t (with_lookups b t).
Proof. intros h n. unfold with_lookups. by rewrite !put_lookups_other by (intros ? [=]). Qed.

Lemma keeps_head b t : keeps_blocks t (with_head b t).
Proof. intros h n. unfold with_head, put. by rewrite !decide_False by (intros [=]). Qed.

(** ** The parts of a write *)

Lemma then_write_Ok {E} (r : outcome E (gmap bytes bytes)) db db' : then_write r db = Ok db' → ∃ m, r = Ok m ∧ batch_Write m db = db'.
Proof. destruct r as [m| |]; cbn; [|done..]. intros [= <-]. eauto. Qed.

(** The entries of a state are under keys of other lengths than the tables':
    hashes, and prefixed hashes. *)
Definition free_key (k : bytes) : Prop := (10 < length k < 33 ∨ 42 < length k)%nat.

Lemma represents_put_all l db t : represents db t → Forall (λ p, free_key p.1) l → represents (put_all l db) t.
Proof.
  intros Hr Hl. revert db Hr. induction Hl as [|[k v] l Hk _ IH]; intros db Hr; [done|]. cbn. apply IH. by apply represents_other.
Qed.

Lemma represents_preimages l db t : represents db t → Forall (λ p, length p.1 = 32%nat) l → represents (WritePreimages l db) t.
Proof.
  intros Hr Hl. apply represents_put_all; [done|]. apply Forall_fmap, Forall_forall. intros p [_ Hp]%list_elem_of_filter.
  rewrite Forall_forall in Hl. right. cbn [compose fst]. rewrite length_app, (Hl p Hp). vm_compute. lia.
Qed.

Record bwrite := MkWrite { w_block : Block; w_receipts : list Receipt; w_state : StateWrites }.

(** A write of a block of the universe above the genesis block; the commit of the
    state may fail. *)
Record write_ok UB (w : bwrite) : Prop := {
  wo_block : UB (w_block w);
  wo_number : 0 < header_number (b_header (w_block w));
  wo_receipts : Forall receipt_ok (w_receipts w) ∧ fits64 (length (receipts_enc (w_receipts w)));
  wo_commit : match sw_CommitTo (w_state w) with
              | Ok (_, entries) => Forall (λ p, free_key p.1) entries
              | Err _ => True
              | Panic => False
              end;
  wo_preimages : Forall (λ p, length p.1 = 32%nat) (sw_Preimages (w_state w))
}.

Section Parts.
Context UB (HU : block_universe UB).

Lemma block_hash_ok b : UB b → block_hash b = Ok (header_hash (b_header b)).
Proof using HU. intros Hb. unfold block_hash. by destruct (Block_Hash_ok b (ub_stores UB HU b Hb)) as (b' & -> & _). Qed.

Lemma block_number_ok b : UB b → block_number b = Ok (header_number (b_header b)).
Proof using HU.
  intros Hb. destruct (ub_stores UB HU b Hb) as (_ & (Hh & Hn & _) & _). unfold block_number. by rewrite NumberU64_ok.
Qed.

Lemma batch_block b td receipts entries t db :
  UB b → Forall receipt_ok receipts → fits64 (length (receipts_enc receipts)) → Forall (λ p, free_key p.1) entries →
  represents db (with_td b td t) →
  ∃ m1 m2, WriteBlock b ∅ = Ok m1 ∧
    WriteBlockReceipts (header_hash (b_header b)) (header_number (b_header b)) receipts (put_all entries m1) = Ok m2 ∧
    represents (batch_Write m2 db) (with_block b td receipts t).
Proof using HU.
  intros Hb Hrs Hf He Hr. destruct (ub_stores UB HU b Hb) as (_ & (_ & Hn & _) & _).
  destruct (WriteBlock_spec db _ b Hr (ub_stores UB HU b Hb)) as (db1 & E1 & Hr1).
  rewrite <-(batch_empty db), batched_WriteBlock in E1. destruct (then_write_Ok _ _ _ E1) as (m1 & -> & <-).
  apply (represents_put_all entries) in Hr1; [|done]. rewrite put_all_batch in Hr1.
  destruct (WriteBlockReceipts_spec _ _ (header_hash (b_header b)) (header_number (b_header b)) receipts Hr1) as (db2 & E2 & Hr2);
    [split; [apply keccak_length|done]|done|done|].
  rewrite batched_WriteBlockReceipts in E2. destruct (then_write_Ok _ _ _ E2) as (m2 & E3 & <-). eauto.
Qed.

(** The same batch in front of any database with the same tables. *)
Lemma batch_any b td receipts entries t db m1 m2 :
  UB b → Forall receipt_ok receipts → fits64 (length (receipts_enc receipts)) → Forall (λ p, free_key p.1) entries →
  WriteBlock b ∅ = Ok m1 →
  WriteBlockReceipts (header_hash (b_header b)) (header_number (b_header b)) receipts (put_all entries m1) = Ok m2 →
  represents db (with_td b td t) → represents (batch_Write m2 db) (with_block b td receipts t).
Proof using HU.
  intros Hb Hrs Hf He E1 E2 Hr. destruct (batch_block b td receipts entries t db Hb Hrs Hf He Hr) as (m1' & m2' & E1' & E2' & Hr').
  rewrite E1 in E1'. injection E1' as <-. rewrite E2 in E2'. by injection E2' as <-.
Qed.

Lemma batch_lookups b t m db :
  UB b → represents (batch_Write m db) t →
  ∃ m', WriteTxLookupEntries b m = Ok m' ∧ represents (batch_Write m' db) (with_lookups b t).
Proof using HU.
  intros Hb Hr. destruct (ub_stores UB HU b Hb) as (_ & (_ & Hn & _) & _). destruct (ub_txs UB HU b Hb) as [Htx Hlen].
  assert (∃ db', WriteTxLookupEntries b (batch_Write m db) = Ok db' ∧ represents db' (with_lookups b t)) as (db' & E & Hr').
  { unfold WriteTxLookupEntries, with_lookups. destruct (b_transactions b) as [|tx txs] eqn:Et; [by eexists|]. rewrite <-Et in *.
    destruct (Block_Hash_ok b (ub_stores UB HU b Hb)) as (b' & -> & _). cbn [obind].
    rewrite NumberU64_ok by apply (ub_stores UB HU b Hb). cbn [obind].
    apply lookups_spec; [done|apply header_hash_array|done|lia|lia|done]. }
  rewrite batched_WriteTxLookupEntries in E. destruct (then_write_Ok _ _ _ E) as (m' & E' & <-). eauto.
Qed.

(** insert, when the number of the block is not taken. *)
Lemma insert_spec b bc t :
  UB b → view (bc_hc bc) t → canon t (header_number (b_header b)) = zero_hash32 →
  ∃ bc', bc_insert b bc = Ok bc' ∧ view (bc_hc bc') (with_head b t) ∧ bc_currentBlock bc' = Some b.
Proof using HU.
  intros Hb Hv Hz. pose proof (ub_stores UB HU b Hb) as (Hbk & (Hh & Hn & Hf) & _).
  assert (header_hash (b_header b) ≠ zero_hash32) as Hnz by (apply (un_nonzero _ (ub_headers UB HU)); eauto).
  unfold bc_insert. rewrite block_hash_ok, block_number_ok by done. cbn [obind].
  rewrite (GetCanonicalHash_canon _ t) by (done || apply Hv). rewrite Hz, bool_decide_false by congruence. cbn [negb].
  unfold SetCurrentHeader. rewrite CopyHeader_ok, Header_Hash_enc by done. cbn [lift_hc lift_rlp omap_err obind].
  fold (header_hash (b_header b)). eexists. split; [done|]. split; [|done]. 
  set (x := header_hash (b_header b)). set (n := header_number (b_header b)).
  destruct (view_canonical (bc_hc bc) t (with_head b t)
    (WriteHeadFastBlockHash x (WriteHeadHeaderHash x (WriteHeadBlockHash x (WriteCanonicalHash x n (bc_chainDb bc)))))) as [V1 V2 V3];
    [done|intros h m; by destruct (keeps_head b t h m) as (-> & _ & ->)| |by split].
  apply (represents_put_hash _ _ TkHeadFast); [|done|apply header_hash_array|done].
  apply (represents_put_hash _ _ TkHeadHeader); [|done|apply header_hash_array|done].
  apply (represents_put_hash _ _ TkHeadBlock); [|done|apply header_hash_array|done].
  apply (represents_put_hash _ _ (TkCanonical n)); [apply Hv|done|apply header_hash_array|done].
Qed.

Lemma bchain_hc bc t b hc : bchain UB bc t b → view hc t → bchain UB (bc_set_hc hc bc) t b.
Proof using. intros [] Hv. by split. Qed.

Lemma bchain_same bc bc' t b : bchain UB bc t b → bc_hc bc' = bc_hc bc → bc_currentBlock bc' = bc_currentBlock bc → bchain UB bc' t b.
Proof using. intros [] E1 E2. split; rewrite ?E1, ?E2; done. Qed.

Lemma known_unique bc t b h n m : bchain UB bc t b → known t h n → known t h m → n = m.
Proof using HU.
  intros Hi Hn Hm. destruct (bi_known _ _ _ _ Hi h n Hn) as (b1 & H1 & E1 & <-), (bi_known _ _ _ _ Hi h m Hm) as (b2 & H2 & E2 & <-).
  f_equal. apply (un_hash _ (ub_headers UB HU)); [eauto|eauto|congruence].
Qed.

Lemma bc_GetTd_known bc t b h n :
  bchain UB bc t b → known t h n → ∃ bc', bc_GetTd h n bc = (spec_td t h n, bc') ∧ bchain UB bc' t b.
Proof using HU.
  intros Hi Hk. destruct (hc_GetTd_known (bc_hc bc) t h n (bi_view _ _ _ _ Hi)) as (hc & E & Hv & _);
    [intros m Hm; by eapply known_unique|done|].
  unfold bc_GetTd. rewrite E. eexists. split; [done|]. by apply bchain_hc.
Qed.

Lemma bc_GetTd_unknown bc t b h n :
  bchain UB bc t b → length h = 32%nat → uint64 n → n ≠ 2 ^ 64 - 1 → (∀ m, ¬ known t h m) →
  ∃ bc', bc_GetTd h n bc = (None, bc') ∧ bchain UB bc' t b.
Proof using.
  intros Hi Hl Hn Hn' Hk. pose proof (hc_GetTd_unknown (bc_hc bc) t h n (bi_view _ _ _ _ Hi) Hl Hn Hn' Hk) as E.
  pose proof (hc_GetTd_view (bc_hc bc) t h n (bi_view _ _ _ _ Hi)) as Hv. unfold bc_GetTd.
  destruct (hc_GetTd h n (bc_hc bc)) as [o hc]. cbn in E, Hv. subst o. eexists. split; [done|]. apply bchain_hc; [done|]. by apply Hv.
Qed.

(** The caches after a difficulty is written. *)
Definition td_written (x : bytes) (td : Z) hc hc' : Prop :=
  hc_headerCache hc' = hc_headerCache hc ∧
  ∀ h d, lru_Peek h (hc_tdCache hc') = Some d → (h = x ∧ d = td) ∨ (h ≠ x ∧ lru_Peek h (hc_tdCache hc) = Some d).

(** The difficulty is written before everything else. *)
Lemma write_td bc t b new ptd :
  bchain UB bc t b → UB new → 0 < header_number (b_header new) →
  known t (h_ParentHash (b_header new)) (header_number (b_header new) - 1) →
  spec_td t (h_ParentHash (b_header new)) (header_number (b_header new) - 1) = Some ptd →
  let td := difficulty (b_header new) + ptd in
  0 ≤ td ≤ (header_number (b_header new) + 1) * 2 ^ 256 ∧
  ∃ hc, hc_WriteTd (header_hash (b_header new)) (header_number (b_header new)) td (bc_hc bc) = Ok hc ∧
    td_written (header_hash (b_header new)) td (bc_hc bc) hc ∧ bchain UB (bc_set_hc hc bc) (with_td new td t) b.
Proof using HU.
  intros Hi Hnew Hpos Hkp Ep td. pose proof (difficulty_bounds _ (b_header new) (ub_headers UB HU) (ex_intro _ new (conj Hnew eq_refl))) as Hd.
  pose proof (bi_td _ _ _ _ Hi _ _ _ Hkp Ep) as Hp. pose proof (ub_stores UB HU new Hnew) as (_ & (_ & Hn & _) & _).
  assert (0 ≤ td ≤ (header_number (b_header new) + 1) * 2 ^ 256) as Htd by lia. split; [done|].
  assert ((header_number (b_header new) + 1) * 2 ^ 256 ≤ 2 ^ 64 * 2 ^ 256) by (apply Z.mul_le_mono_nonneg_r; [lia|destruct Hn; lia]).
  destruct (WriteTd_spec (hc_chainDb (bc_hc bc)) t (header_hash (b_header new)) (header_number (b_header new)) td) as (db & E & Hr);
    [apply Hi|split; [apply keccak_length|done]|lia|apply small_fits; change (256 ^ 50) with (2 ^ 64 * 2 ^ 256 * 2 ^ 80); lia|].
  unfold hc_WriteTd. rewrite E. cbn [lift_rlp omap_err obind]. eexists. split; [done|].
  split; [split; [done|intros h d; apply Peek_Add]|].
  assert (∀ n, canon (with_td new td t) n = canon t n) as Hc
    by (intros n; unfold canon, spec_hash, with_td, put; by rewrite decide_False by (intros [=])).
  apply (bchain_adds UB bc t b _ _ new td b HU Hi Hnew (adds_td t new td) Htd); rewrite ?Hc; try apply Hi; try done.
  - apply (adds_view UB t _ new td HU Hnew (adds_td t new td) (bc_hc bc)); [apply Hi|apply Hi|done|done|]. intros h d. apply Peek_Add.
  - intros x. left. unfold with_td, put. by rewrite decide_False by (intros [=]).
  - lia.
Qed.

(** A side block: the block is stored, the head stays. *)
Lemma side_block bc t b new td receipts bc' :
  bchain UB bc t b → UB new → 0 ≤ td ≤ (header_number (b_header new) + 1) * 2 ^ 256 →
  td_written (header_hash (b_header new)) td (bc_hc bc) (bc_hc bc') → represents (bc_chainDb bc') (with_block new td receipts t) →
  bc_currentBlock bc' = Some b → bchain UB bc' (with_block new td receipts t) b.
Proof using HU.
  intros Hi Hnew Htd [Hhc Htc] Hr Ec. pose proof (adds_block t new td receipts) as Ha.
  assert (∀ n, canon (with_block new td receipts t) n = canon t n) as Hc.
  { intros n. unfold canon, spec_hash, with_block, put_block, put_header, with_td, put. by rewrite !decide_False by (intros [=]). }
  apply (bchain_adds UB bc t b _ _ new td b HU Hi Hnew Ha Htd).
  - apply (adds_view UB t _ new td HU Hnew Ha (bc_hc bc)); [apply Hi|apply Hi|done|done|done].
  - done.
  - apply Hi.
  - lia.
  - intros n _. apply Hc.
  - intros x. left. unfold with_block, put_block, put_header, with_td, put. by rewrite !decide_False by (intros [=]).
  - lia.
  - intros n Hu Hn. rewrite Hc. by apply (bi_above _ _ _ _ Hi).
  - rewrite Hc. apply Hi.
  - rewrite <-(bi_pointer _ _ _ _ Hi). unfold spec_hash, with_block, put_block, put_header, with_td, put. by rewrite !decide_False by (intros [=]).
Qed.

Definition with_canonical b td receipts t : tables := with_head b (with_lookups b (with_block b td receipts t)).

Lemma with_canonical_canon b td receipts t n :
  canon (with_canonical b td receipts t) n = if decide (header_number (b_header b) = n) then header_hash (b_header b) else canon t n.
Proof using.
  unfold canon, spec_hash, with_canonical, with_head, put. rewrite !(decide_False (P := _ = TkCanonical n)) by (intros [=]).
  case_decide as E; [injection E as ->; by rewrite decide_True|]. rewrite decide_False by (intros E'; apply E; by rewrite E').
  unfold with_lookups. rewrite put_lookups_other by (intros ? [=]).
  unfold with_block, put_block, put_header, with_td, put. by rewrite !decide_False by (intros [=]).
Qed.

Lemma with_canonical_adds b td receipts t : adds t (with_canonical b td receipts t) b td.
Proof using. eapply adds_keeps; [eapply adds_keeps; [apply adds_block|apply keeps_lookups]|apply keeps_head]. Qed.

Lemma with_canonical_stored b td receipts t :
  UB b → stored_block UB (with_canonical b td receipts t) (header_hash (b_header b)) (header_number (b_header b)) b.
Proof using.
  intros Hb. set (x := header_hash (b_header b)). set (n := header_number (b_header b)). unfold stored_block, with_canonical.
  destruct (keeps_head b (with_lookups b (with_block b td receipts t)) x n) as (-> & -> & _).
  destruct (keeps_lookups b (with_block b td receipts t) x n) as (-> & -> & _).
  unfold with_block, put_block, put_header, put. fold x n.
  rewrite !(decide_False (P := TkReceipts _ _ = _)), !(decide_False (P := TkNumber _ = _)), (decide_False (P := TkHeader _ _ = TkBody _ _)),
    !decide_True by (done || (intros [=])). done.
Qed.

Lemma with_canonical_lookup b td receipts t x :
  UB b → let t' := with_canonical b td receipts t in
  (t' (TkLookup x) = t (TkLookup x) ∧ x ∉ tx_hashes b) ∨
  (∀ N, 0 ≤ header_number (b_header b) ≤ N → found UB t' N x).
Proof using.
  intros Hb t'. assert (t' (TkLookup x) = with_lookups b (with_block b td receipts t) (TkLookup x)) as E
    by (unfold t', with_canonical, with_head, put; by rewrite !decide_False by (intros [=])).
  rewrite E. unfold with_lookups.
  destruct (put_lookups_lookup (header_hash (b_header b)) (header_number (b_header b)) 0 (b_transactions b) (with_block b td receipts t) x)
    as [[El Hx]|(j & El & Ej)].
  - left. rewrite El. split; [|done]. unfold with_block, put_block, put_header, with_td, put. by rewrite !decide_False by (intros [=]).
  - right. intros N HN. exists (header_number (b_header b)), j, b.
    assert (canon t' (header_number (b_header b)) = header_hash (b_header b)) as -> by (unfold t'; rewrite with_canonical_canon; by rewrite decide_True).
    split; [done|]. split; [by rewrite E|]. split; [exact (with_canonical_stored b td receipts t Hb)|exact Ej].
Qed.

(** A canonical block: the block is stored and is the new head. *)
Lemma canonical_head bc t b new td receipts bc' :
  bchain UB bc t b → UB new → 0 ≤ td ≤ (header_number (b_header new) + 1) * 2 ^ 256 → 0 < header_number (b_header new) →
  h_ParentHash (b_header new) = header_hash (b_header b) → view (bc_hc bc') (with_canonical new td receipts t) →
  bc_currentBlock bc' = Some new → bchain UB bc' (with_canonical new td receipts t) new.
Proof using HU.
  intros Hi Hnew Htd Hpos Hp Hv Ec. set (t' := with_canonical new td receipts t). pose proof (with_canonical_adds new td receipts t) as Ha.
  assert (header_number (b_header b) = header_number (b_header new) - 1) as Hnum.
  { apply (un_linked _ (ub_headers UB HU)); [eauto|exists b; split; [apply Hi|done]|done|by rewrite Hp]. }
  assert (∀ n, canon t' n = if decide (header_number (b_header new) = n) then header_hash (b_header new) else canon t n) as Hc
    by (intros; apply with_canonical_canon).
  apply (bchain_adds UB bc t b bc' t' new td new HU Hi Hnew Ha Htd); [done|done|done|lia|..].
  - intros n Hn. rewrite Hc. by rewrite decide_False by lia.
  - intros x. destruct (with_canonical_lookup new td receipts t x Hnew) as [[E _]|Hf]; [by left|right; apply Hf; lia].
  - intros n Hn. assert (n = header_number (b_header new)) as -> by lia. exists new. rewrite !Hc, decide_True, decide_False by lia.
    split; [by apply with_canonical_stored|]. split; [apply (adds_known UB t t' new td HU Hnew Ha); by right|].
    split; [intros _; rewrite <-Hnum, Hp; apply Hi|]. intros x Hx.
    destruct (with_canonical_lookup new td receipts t x Hnew) as [[_ Hn']|Hf]; [done|apply Hf; lia].
  - intros n Hu Hlt. rewrite Hc, decide_False by lia. apply (bi_above _ _ _ _ Hi); [done|lia].
  - rewrite Hc. by rewrite decide_True.
  - unfold t', with_canonical, with_head, spec_hash, put. rewrite !(decide_False (P := _ = TkHeadBlock)) by (intros [=]). done.
Qed.

Lemma current_known bc t b : bchain UB bc t b → 0 ≤ header_number (b_header b) ∧ known t (header_hash (b_header b)) (header_number (b_header b)).
Proof using HU.
  intros Hi. destruct (ub_stores UB HU b (bi_in _ _ _ _ Hi)) as (_ & (_ & [Hn _] & _) & _).
  destruct (bi_chain _ _ _ _ Hi (header_number (b_header b))) as (b0 & _ & Hk & _); [lia|]. by rewrite (bi_head _ _ _ _ Hi) in Hk.
Qed.

(** What one write does to the chain with the tables [t] and the head [b]. *)
Definition step_to t b status new t' b' : Prop :=
  header_number (b_header b) ≤ header_number (b_header b') ∧
  (∀ n, 0 ≤ n ≤ header_number (b_header b) → canon t' n = canon t n) ∧
  ((status = CanonStatTy ∧ b' = new) ∨ (status ≠ CanonStatTy ∧ b' = b)).

Lemma step_same t b status new t' :
  status ≠ CanonStatTy → (∀ n, canon t' n = canon t n) → step_to t b status new t' b.
Proof using. intros Hs Hc. split; [lia|]. split; [by intros n _|by right]. Qed.

Lemma head_step bc t b new td receipts :
  bchain UB bc t b → UB new → 0 < header_number (b_header new) → h_ParentHash (b_header new) = header_hash (b_header b) →
  step_to t b CanonStatTy new (with_canonical new td receipts t) new.
Proof using HU.
  intros Hi Hnew Hpos Hp. assert (header_number (b_header b) = header_number (b_header new) - 1) as Hnum.
  { apply (un_linked _ (ub_headers UB HU)); [eauto|exists b; split; [apply Hi|done]|done|by rewrite Hp]. }
  split; [lia|]. split; [|by left]. intros n Hn. rewrite with_canonical_canon. by rewrite decide_False by lia.
Qed.

Lemma with_td_canon b td t n : canon (with_td b td t) n = canon t n.
Proof using. unfold canon, spec_hash, with_td, put. by rewrite decide_False by (intros [=]). Qed.

Lemma with_block_canon b td receipts t n : canon (with_block b td receipts t) n = canon t n.
Proof using.
  unfold canon, spec_hash, with_block, put_block, put_header, with_td, put. by rewrite !decide_False by (intros [=]).
Qed.

(** Making the stored block the head. *)
Lemma insert_head bc t b new td receipts bc1 :
  bchain UB bc t b → UB new → 0 ≤ td ≤ (header_number (b_header new) + 1) * 2 ^ 256 → 0 < header_number (b_header new) →
  h_ParentHash (b_header new) = header_hash (b_header b) →
  td_written (header_hash (b_header new)) td (bc_hc bc) (bc_hc bc1) →
  represents (bc_chainDb bc1) (with_lookups new (with_block new td receipts t)) →
  ∃ bc', bc_insert new bc1 = Ok bc' ∧ bchain UB bc' (with_canonical new td receipts t) new.
Proof using HU.
  intros Hi Hnew Htd Hpos Hp [Hhc Htc] Hr. destruct (head_step bc t b new td receipts Hi Hnew Hpos Hp) as [Hle _].
  assert (adds t (with_lookups new (with_block new td receipts t)) new td) as Ha
    by (eapply adds_keeps; [apply adds_block|apply keeps_lookups]).
  destruct (insert_spec new bc1 (with_lookups new (with_block new td receipts t)) Hnew) as (bc' & E & Hv & Ec).
  - apply (adds_view UB t _ new td HU Hnew Ha (bc_hc bc)); [apply Hi|apply Hi|done|done|done].
  - assert (header_number (b_header b) = header_number (b_header new) - 1) as Hnum.
    { apply (un_linked _ (ub_headers UB HU)); [eauto|exists b; split; [apply Hi|done]|done|by rewrite Hp]. }
    unfold canon, spec_hash, with_lookups. rewrite put_lookups_other by (intros ? [=]).
    change (canon (with_block new td receipts t) (header_number (b_header new)) = zero_hash32). rewrite with_block_canon.
    apply (bi_above _ _ _ _ Hi); [apply (ub_stores UB HU new Hnew)|lia].
  - exists bc'. split; [done|]. by apply (canonical_head bc t b).
Qed.

(** The answer of a write from its commit and the two difficulties. *)
Definition verdict b w (td localTd : Z) status (err : option bc_error) : Prop :=
  match sw_CommitTo (w_state w) with
  | Ok _ => err = None ∧ (localTd < td →
      status = if decide (h_ParentHash (b_header (w_block w)) = header_hash (b_header b)) then CanonStatTy else NonStatTy)
  | Err e => status = NonStatTy ∧ err = Some e
  | Panic => False
  end.

(** The write from the point where the difficulties are known. *)
Lemma write_finish bc t b w ptd localTd :
  bchain UB bc t b → write_ok UB w →
  let new := w_block w in
  known t (h_ParentHash (b_header new)) (header_number (b_header new) - 1) →
  spec_td t (h_ParentHash (b_header new)) (header_number (b_header new) - 1) = Some ptd →
  ∃ status err bc' t' b',
    finish_write new (header_hash (b_header new)) (header_number (b_header new)) (w_receipts w) (w_state w)
      (difficulty (b_header new) + ptd) (Some localTd) b (header_hash (b_header b)) bc = Ok (status, err, bc') ∧
    bchain UB bc' t' b' ∧ step_to t b status new t' b' ∧ verdict b w (difficulty (b_header new) + ptd) localTd status err.
Proof using HU.
  intros Hi Hw new Hkp Ep. pose proof (wo_block UB w Hw) as Hnew. fold new in Hnew. set (td := difficulty (b_header new) + ptd).
  destruct (write_td bc t b new ptd Hi Hnew (wo_number UB w Hw) Hkp Ep) as (Htd & hc & E & Hwr & Hi1). fold td in Htd, E, Hwr, Hi1.
  unfold finish_write. rewrite E. cbn [or_return]. destruct (wo_receipts UB w Hw) as [Hrs Hf]. pose proof (wo_commit UB w Hw) as Hcommit.
  pose proof (view_db _ _ (bi_view _ _ _ _ Hi1)) as Hr1. cbn [bc_set_hc bc_hc] in Hr1.
  destruct (sw_CommitTo (w_state w)) as [[root entries]|e|] eqn:Ec; [|destruct (batch_block new td (w_receipts w) [] t _ Hnew Hrs Hf (Forall_nil_2 _) Hr1) as (m1 & _ & -> & _)|done].
  2: { cbn [or_return]. eexists _, _, _, _, b. split; [done|]. split; [exact Hi1|]. split; [apply step_same; [done|apply with_td_canon]|].
       unfold verdict. by rewrite Ec. }
  destruct (batch_block new td (w_receipts w) entries t _ Hnew Hrs Hf Hcommit Hr1) as (m1 & m2 & E1 & E2 & Hr2).
  rewrite E1. cbn [or_return]. rewrite E2. cbn [or_return deref obind]. case_match eqn:Epref.
  - case_bool_decide as Hp; cbn [negb].
    + apply (represents_preimages (sw_Preimages (w_state w))) in Hr1; [|apply Hw].
      destruct (batch_lookups new _ m2 _ Hnew (batch_any new td (w_receipts w) entries t _ m1 m2 Hnew Hrs Hf Hcommit E1 E2 Hr1)) as (m3 & -> & Hr3).
      cbn [or_return]. match goal with |- context [bc_insert new ?bc1] =>
        destruct (insert_head bc t b new td (w_receipts w) bc1 Hi Hnew Htd (wo_number UB w Hw) Hp) as (bc' & -> & Hi'); [done|done|] end.
      cbn [obind]. eexists _, _, _, _, new. split; [done|]. split; [by eapply bchain_same|].
      split; [apply (head_step bc t b new td (w_receipts w) Hi Hnew (wo_number UB w Hw) Hp)|]. unfold verdict. rewrite Ec. split; [done|].
      intros _. by rewrite decide_True.
    + eexists _, _, _, _, b. split; [done|]. split; [by eapply bchain_same|]. split; [apply step_same; [done|apply with_td_canon]|].
      unfold verdict. rewrite Ec. split; [done|]. intros _. by rewrite decide_False.
  - eexists _, _, _, _, b. split; [done|]. split; [apply (side_block bc); [done|done|done|done|done|apply Hi]|].
    split; [apply step_same; [done|apply with_block_canon]|]. unfold verdict. rewrite Ec. split; [done|]. intros Hlt%Z.ltb_lt.
    rewrite Hlt in Epref. done.
Qed.

Lemma parent_number w : write_ok UB w → pred64 (header_number (b_header (w_block w))) = header_number (b_header (w_block w)) - 1.
Proof using HU.
  intros Hw. destruct (ub_stores UB HU _ (wo_block UB w Hw)) as (_ & (_ & [Hu1 Hu2] & _) & _). pose proof (wo_number UB w Hw).
  unfold pred64. apply wrap_small. lia.
Qed.

Lemma parent_known t w ptd : write_ok UB w →
  spec_td t (h_ParentHash (b_header (w_block w))) (header_number (b_header (w_block w)) - 1) = Some ptd →
  known t (h_ParentHash (b_header (w_block w))) (header_number (b_header (w_block w)) - 1).
Proof using HU.
  intros Hw E. destruct (ub_stores UB HU _ (wo_block UB w Hw)) as (_ & (Hok & [Hu1 Hu2] & _) & _). pose proof (wo_number UB w Hw).
  split; [apply Hok|]. split; [lia|by eexists].
Qed.

(** The reads of a write whose parent has a difficulty. *)
Lemma write_reads bc t b w ptd :
  bchain UB bc t b → write_ok UB w →
  let hd := b_header (w_block w) in
  spec_td t (h_ParentHash hd) (header_number hd - 1) = Some ptd →
  ∃ bc2 localTd, bchain UB bc2 t b ∧ spec_td t (header_hash (b_header b)) (header_number (b_header b)) = Some localTd ∧
    WriteBlockAndState (w_block w) (w_receipts w) (w_state w) bc =
    finish_write (w_block w) (header_hash hd) (header_number hd) (w_receipts w) (w_state w)
      (difficulty hd + ptd) (Some localTd) b (header_hash (b_header b)) bc2.
Proof using HU.
  intros Hi Hw hd Ep. pose proof (wo_block UB w Hw) as Hnew. unfold WriteBlockAndState. rewrite block_number_ok by done. cbn [obind].
  rewrite parent_number by done. pose proof (ub_stores UB HU _ Hnew) as (_ & (Hok & _) & _). fold hd in Hok.
  destruct (bc_GetTd_known bc t b _ _ Hi (parent_known t w ptd Hw Ep)) as (bc1 & -> & Hi1). fold hd. rewrite Ep, (bi_current _ _ _ _ Hi1).
  cbn [deref obind]. rewrite block_hash_ok, block_number_ok by apply Hi1. cbn [obind]. destruct (current_known bc1 t b Hi1) as [_ Hk].
  destruct (bc_GetTd_known bc1 t b _ _ Hi1 Hk) as (bc2 & -> & Hi2). destruct Hk as (_ & _ & [localTd El]).
  assert (h_Difficulty hd = Some (difficulty hd)) as ->.
  { pose proof (ok_Difficulty hd Hok) as Hd. unfold difficulty. by destruct (h_Difficulty hd). }
  cbn [deref obind]. rewrite block_hash_ok by done. cbn [obind]. exists bc2, localTd. rewrite El. done.
Qed.

Lemma write_step bc t b w :
  bchain UB bc t b → write_ok UB w →
  ∃ status err bc' t' b', WriteBlockAndState (w_block w) (w_receipts w) (w_state w) bc = Ok (status, err, bc') ∧
    bchain UB bc' t' b' ∧ step_to t b status (w_block w) t' b'.
Proof using HU.
  intros Hi Hw. pose proof (wo_block UB w Hw) as Hnew. set (hd := b_header (w_block w)).
  destruct (spec_td t (h_ParentHash hd) (header_number hd - 1)) as [ptd|] eqn:Ep.
  - destruct (write_reads bc t b w ptd Hi Hw Ep) as (bc2 & localTd & Hi2 & El & ->).
    destruct (write_finish bc2 t b w ptd localTd Hi2 Hw (parent_known t w ptd Hw Ep) Ep) as (status & err & bc' & t' & b' & E & Hi' & Hs & _).
    by exists status, err, bc', t', b'.
  - pose proof (ub_stores UB HU _ Hnew) as (_ & (Hok & [Hu1 Hu2] & _) & _). pose proof (wo_number UB w Hw) as Hpos. fold hd in Hok, Hu1, Hu2, Hpos.
    unfold WriteBlockAndState. rewrite block_number_ok by done. cbn [obind]. rewrite parent_number by done. fold hd.
    destruct (bc_GetTd_unknown bc t b (h_ParentHash hd) (header_number hd - 1)) as (bc1 & -> & Hi1); [done|apply Hok|split; lia|lia| |].
    { intros m Hk. destruct (bi_known _ _ _ _ Hi _ _ Hk) as (bp & Hbp & Eh & <-).
      rewrite (un_linked _ (ub_headers UB HU) hd (b_header bp)) in Hk; [|by exists (w_block w)|by exists bp|done|done].
      destruct Hk as (_ & _ & [? E]). by rewrite Ep in E. }
    eexists _, _, _, t, b. split; [done|]. split; [done|]. by apply step_same.
Qed.

(** A child of the head with a positive difficulty becomes the head, if its state
    can be committed; otherwise the error of the commit is returned. *)
Lemma write_child bc t b w :
  bchain UB bc t b → write_ok UB w →
  h_ParentHash (b_header (w_block w)) = header_hash (b_header b) → 0 < difficulty (b_header (w_block w)) →
  ∃ status err bc' t' b', WriteBlockAndState (w_block w) (w_receipts w) (w_state w) bc = Ok (status, err, bc') ∧ bchain UB bc' t' b' ∧
    step_to t b status (w_block w) t' b' ∧
    match sw_CommitTo (w_state w) with
    | Ok _ => err = None ∧ b' = w_block w
    | Err e => err = Some e ∧ b' = b
    | Panic => False
    end.
Proof using HU.
  intros Hi Hw Hp Hd. destruct (current_known bc t b Hi) as [_ (_ & _ & [ltd El])].
  assert (header_number (b_header b) = header_number (b_header (w_block w)) - 1) as Hnum.
  { apply (un_linked _ (ub_headers UB HU)); [exists (w_block w); split; [apply Hw|done]|exists b; split; [apply Hi|done]|apply Hw|by rewrite Hp]. }
  rewrite Hnum, <-Hp in El. destruct (write_reads bc t b w ltd Hi Hw El) as (bc2 & localTd & Hi2 & El' & ->).
  rewrite Hnum, <-Hp, El in El'. injection El' as <-.
  destruct (write_finish bc2 t b w ltd ltd Hi2 Hw (parent_known t w ltd Hw El) El) as (status & err & bc' & t' & b' & E & Hi' & Hs & Hv).
  exists status, err, bc', t', b'. split; [exact E|]. split; [done|]. split; [done|]. unfold verdict in Hv. destruct Hs as (_ & _ & Hs).
  destruct (sw_CommitTo (w_state w)); [|by destruct Hv as [-> ->]; destruct Hs as [[]|[_ ->]]|done].
  destruct Hv as [-> Hv]. rewrite decide_True in Hv by done. rewrite Hv in Hs by lia. by destruct Hs as [[_ ->]|[[] _]].
Qed.

(** A write of a heavier block that is no child of the head. *)
Lemma write_dropped bc t b w ptd localTd root entries :
  bchain UB bc t b → write_ok UB w → sw_CommitTo (w_state w) = Ok (root, entries) →
  let new := w_block w in
  GetTd (bc_chainDb bc) (h_ParentHash (b_header new)) (header_number (b_header new) - 1) = Some ptd →
  GetTd (bc_chainDb bc) (header_hash (b_header b)) (header_number (b_header b)) = Some localTd →
  localTd < difficulty (b_header new) + ptd → h_ParentHash (b_header new) ≠ header_hash (b_header b) →
  ∃ bc', WriteBlockAndState new (w_receipts w) (w_state w) bc = Ok (NonStatTy, None, bc') ∧ bc_currentBlock bc' = Some b ∧
    GetTd (bc_chainDb bc') (header_hash (b_header new)) (header_number (b_header new)) = Some (difficulty (b_header new) + ptd) ∧
    ∀ h n, length h = 32%nat → uint64 n → GetBlock (bc_chainDb bc') h n = GetBlock (bc_chainDb bc) h n.
Proof using HU.
  intros Hi Hw Ec new Ep El Hlt Hne. destruct (current_known bc t b Hi) as [_ (Hkl & Hkn & _)]. pose proof (wo_number UB w Hw) as Hpos.
  destruct (ub_stores UB HU _ (wo_block UB w Hw)) as (_ & (Hok & [_ Hu64] & _) & _). pose proof (view_db _ _ (bi_view _ _ _ _ Hi)) as Hr0.
  unfold new, bc_chainDb in Ep. unfold bc_chainDb in El. rewrite (GetTd_spec _ t) in Ep by (done || (split; [apply Hok|split; lia])).
  rewrite (GetTd_spec _ t) in El by (done || (split; [done|by apply uint64_of])). destruct (write_reads bc t b w ptd Hi Hw Ep) as (bc2 & l & Hi2 & El' & E0). unfold new. rewrite E0.
  rewrite El in El'. injection El' as <-.
  pose proof (wo_block UB w Hw) as Hnew. fold new in Hnew |- *. set (td := difficulty (b_header new) + ptd) in *.
  destruct (write_td bc2 t b new ptd Hi2 Hnew (wo_number UB w Hw) (parent_known t w ptd Hw Ep) Ep) as (Htd & hc & E & _ & Hi3). fold td in Htd, E, Hi3.
  destruct (wo_receipts UB w Hw) as [Hrs Hf]. pose proof (wo_commit UB w Hw) as Hcommit. rewrite Ec in Hcommit.
  pose proof (view_db _ _ (bi_view _ _ _ _ Hi3)) as Hr. cbn [bc_set_hc bc_hc] in Hr.
  destruct (batch_block new td (w_receipts w) entries t _ Hnew Hrs Hf Hcommit Hr) as (m1 & m2 & E1 & E2 & _).
  unfold finish_write. rewrite E. cbn [or_return]. rewrite E1, Ec. cbn [or_return]. rewrite E2. cbn [or_return deref obind].
  rewrite (proj2 (Z.ltb_lt _ _) Hlt). cbn [orb]. rewrite bool_decide_false by done. cbn [negb]. eexists. split; [done|]. split; [apply Hi2|].
  unfold bc_chainDb. cbn [bc_set_pastTries bc_set_hc bc_hc]. destruct (ub_stores UB HU new Hnew) as (_ & (_ & Hn & _) & _). split.
  - rewrite (GetTd_spec _ _ _ _ Hr) by (split; [apply keccak_length|done]). rewrite (ad_td _ _ _ _ (adds_td t new td)). by rewrite decide_True.
  - intros h n Hl Hu. rewrite (GetBlock_spec _ _ _ _ Hr) by done.
    rewrite (GetBlock_spec _ t) by (apply (bi_view _ _ _ _ Hi) || done). unfold spec_block, spec_header, spec_body, with_td, put.
    by rewrite !decide_False by (intros [=]).
Qed.

(** A block that is heavier than the head but does not have the head as its
    parent is dropped without an error: the head stays, no block is stored, and
    only the difficulty of the block is left in the database, although a comment
    says that the chain is reorganised here. *)
Theorem heavier_fork_is_dropped bc t b w ptd localTd root entries :
  bchain UB bc t b → write_ok UB w → sw_CommitTo (w_state w) = Ok (root, entries) →
  let new := w_block w in
  GetTd (bc_chainDb bc) (h_ParentHash (b_header new)) (header_number (b_header new) - 1) = Some ptd →
  GetTd (bc_chainDb bc) (header_hash (b_header b)) (header_number (b_header b)) = Some localTd →
  localTd < difficulty (b_header new) + ptd → h_ParentHash (b_header new) ≠ header_hash (b_header b) →
  ∃ bc', WriteBlockAndState new (w_receipts w) (w_state w) bc = Ok (NonStatTy, None, bc') ∧ bc_currentBlock bc' = Some b ∧
    GetTd (bc_chainDb bc') (header_hash (b_header new)) (header_number (b_header new)) = Some (difficulty (b_header new) + ptd) ∧
    ∀ h n, length h = 32%nat → uint64 n → GetBlock (bc_chainDb bc') h n = GetBlock (bc_chainDb bc) h n.
Proof using HU. exact (write_dropped bc t b w ptd localTd root entries). Qed.
End Parts.
End Safe.
