(* ===== verification/BlockChainRun.v ===== *)
(** * Writing blocks one after the other (blockchain/blockchain.go)

    The chain from the genesis block on, under any sequence of writes, and what
    the database shows of it. *)

From S2P Require Import Prelude RlpSpec RlpRaw RlpEncode RlpStream RlpRoundtrip TrieNode Trie TrieMap Sha256 Merkletree Types SecureTrie Lru ChainDb ChainTables HeaderChain HeaderChainInv Genesis HeaderChainRun BlockChain BlockChainSafe.
Local Open Scope Z_scope.

Section Run.
Context {KC : Keccak}.
Implicit Types (t : tables) (bc : BlockChain) (b : Block) (UB : Block → Prop) (w : bwrite).

(** ** The start *)

(** The genesis block as it is read from the database. *)
Definition loaded_genesis (g : Genesis) : Block :=
  MkBlock (b_header (genesis_block g)) [] [] (Some (genesis_hash g)) None None.

Section Start.
Context (g : Genesis) (Hg : genesis_ok g) UB (HUB : UB (loaded_genesis g)).

Let t0 : tables := genesis_tables g (λ _, None).
Let header : Header := b_header (genesis_block g).

Lemma genesis_body : t0 (TkBody (genesis_hash g) 0) = Some (VBody (MkBody [] [])).
Proof using Hg.
  unfold t0, genesis_tables, put_block, put_header, put. rewrite !(decide_False (P := _ = TkBody (genesis_hash g) 0)) by (intros [=]).
  fold (genesis_hash g). rewrite (genesis_number g Hg). by rewrite decide_True.
Qed.

Lemma genesis_headers h n hd : spec_header t0 h n = Some hd → h = genesis_hash g ∧ hd = header.
Proof using.
  unfold t0, genesis_tables, put_block, put_header, spec_header, put. fold header. rewrite !(decide_False (P := _ = TkHeader h n)) by (intros [=]).
  case_decide as E; [|done]. injection E as <- <-. by intros [= <-].
Qed.

Lemma genesis_lookup x : t0 (TkLookup x) = None.
Proof using. unfold t0, genesis_tables, put_block, put_header, put. by rewrite !decide_False by (intros [=]). Qed.

Lemma genesis_bchain bc : view (bc_hc bc) t0 → bc_currentBlock bc = Some (loaded_genesis g) → bchain UB bc t0 (loaded_genesis g).
Proof using Hg HUB.
  intros Hv Ec. pose proof (genesis_number g Hg) as Hn. unfold t0 in *. split; [done|..|done|done| | | |done].
  - intros h n [-> ->]%genesis_known. by exists (loaded_genesis g).
  - intros h n td [-> ->]%genesis_known. rewrite genesis_td, decide_True by done. intros [= <-]. pose proof (go_difficulty g Hg). lia.
  - intros h n hd [-> ->]%genesis_headers. split; [by exists (loaded_genesis g)|done].
  - cbn [loaded_genesis b_header]. rewrite Hn, genesis_canon. by rewrite decide_True.
  - intros n. cbn [loaded_genesis b_header]. rewrite Hn. intros Hn0. assert (n = 0) as -> by lia. exists (loaded_genesis g).
    rewrite genesis_canon, decide_True by done. split; [|split; [by apply genesis_known|split; [lia|]]].
    + split; [|split; [apply genesis_body|split; [done|split; [done|exact Hn]]]]. pose proof (genesis_stored g Hg) as E.
      unfold spec_header in E. destruct (genesis_tables g _ (TkHeader (genesis_hash g) 0)) as [[]|]; try done. by injection E as ->.
    + intros x Hx. by apply not_elem_of_nil in Hx.
  - cbn [loaded_genesis b_header]. rewrite Hn. intros n Hu Hlt. rewrite genesis_canon. by rewrite decide_False by lia.
Qed.

Lemma genesis_block_read db : represents db t0 → GetBlock db (genesis_hash g) 0 = Some (MkBlock header [] [] None None None).
Proof using Hg.
  intros Hr. rewrite (GetBlock_spec db t0) by (done || apply keccak_length || (split; lia)). unfold spec_block, spec_body.
  rewrite genesis_body. unfold t0. by rewrite (genesis_stored g Hg).
Qed.

Lemma genesis_block_number hc :
  represents (hc_chainDb hc) t0 → (∀ h n, lru_Peek h (hc_numberCache hc) = Some n → h = genesis_hash g ∧ n = 0) →
  ∃ hc', hc_GetBlockNumber (genesis_hash g) hc = (0, hc') ∧ (view hc t0 → view hc' t0) ∧ hc_chainDb hc' = hc_chainDb hc ∧
    ∀ h n, lru_Peek h (hc_numberCache hc') = Some n → h = genesis_hash g ∧ n = 0.
Proof using Hg.
  intros Hr Hc. unfold hc_GetBlockNumber. pose proof (Get_Peek (genesis_hash g) (hc_numberCache hc)) as EG.
  pose proof (Peek_Get (genesis_hash g) (hc_numberCache hc)) as EP.
  destruct (lru_Get (genesis_hash g) (hc_numberCache hc)) as [o c]. cbn [fst snd] in EG, EP. subst o.
  destruct (lru_Peek (genesis_hash g) (hc_numberCache hc)) as [n|] eqn:E.
  - destruct (Hc _ _ E) as [_ ->]. eexists. split; [done|]. split; [by intros []|]. split; [done|]. intros h n. cbn. rewrite EP. apply Hc.
  - cbn [hc_set_numbers hc_chainDb]. rewrite (GetBlockNumber_spec _ t0) by (done || apply keccak_length).
    unfold t0. rewrite (genesis_spec_number g Hg). cbn [Z.eqb missingNumber negb]. eexists. split; [done|]. split; [by intros []|].
    split; [done|]. intros h n [|[_ Hx]]%Peek_Add; [done|]. cbn in Hx. rewrite EP in Hx. by apply Hc.
Qed.

Lemma genesis_open bc : bc_pastTries bc = [] → OpenTrie (h_Root (b_header (loaded_genesis g))) bc = Ok true.
Proof using. intros E. unfold OpenTrie. rewrite E. reflexivity. Qed.

Lemma genesis_heads db : represents db t0 →
  GetCanonicalHash db 0 = genesis_hash g ∧ GetHeadBlockHash db = genesis_hash g ∧ GetHeadHeaderHash db = genesis_hash g ∧
  GetHeadFastBlockHash db = zero_hash32 ∧ WriteHeadHeaderHash (genesis_hash g) db = db.
Proof using.
  intros Hr. split; [rewrite (GetCanonicalHash_canon db t0) by (done || (split; lia)); unfold t0; by rewrite genesis_canon|].
  split; [by apply (get_hash_spec db t0 TkHeadBlock)|]. split; [by apply (get_hash_spec db t0 TkHeadHeader)|].
  split; [by apply (get_hash_spec db t0 TkHeadFast)|]. apply insert_id. by destruct (Hr TkHeadHeader I) as [E _].
Qed.

(** The last state of a database that holds the genesis block only. *)
Lemma genesis_load bc :
  chain_ok (bc_hc bc) t0 header → (∀ h n, lru_Peek h (hc_numberCache (bc_hc bc)) = Some n → h = genesis_hash g ∧ n = 0) →
  lru_Get (genesis_hash g) (bc_blockCache bc) = (Some (loaded_genesis g), bc_blockCache bc) → bc_pastTries bc = [] →
  ∃ bc', loadLastState bc = Ok bc' ∧ bchain UB bc' t0 (loaded_genesis g).
Proof using Hg HUB.
  intros Hco Hnum Hcache Hpast. pose proof (go_nonzero g Hg) as Hz. pose proof (go_stores g Hg) as (Hh & _ & Hf). fold (genesis_hash g) in Hz.
  pose proof (co_view _ _ _ Hco) as Hv. pose proof (genesis_heads _ (view_db _ _ Hv)) as (_ & E1 & E2 & E3 & E4).
  unfold loadLastState, load_last_state, bc_chainDb. rewrite E1, bool_decide_false by done. unfold GetBlockByHash, bc_GetBlockNumber.
  destruct (genesis_block_number (bc_hc bc) (view_db _ _ Hv) Hnum) as (hc1 & -> & Hv1 & Edb1 & Hnum1). specialize (Hv1 Hv).
  cbn [on_hc fst snd]. unfold bc_GetBlock at 1. cbn [bc_set_hc bc_blockCache]. rewrite Hcache. cbn [obind].
  rewrite genesis_open by done. cbn [obind negb]. cbn [bc_set_current bc_set_caches bc_set_hc bc_hc hc_chainDb]. rewrite Edb1, E2, bool_decide_false by done.
  unfold bc_GetHeaderByHash, hc_GetHeaderByHash. cbn [bc_set_current bc_set_caches bc_set_hc bc_hc].
  destruct (genesis_block_number hc1 (view_db _ _ Hv1) Hnum1) as (hc2 & -> & Hv2 & Edb2 & _). specialize (Hv2 Hv1).
  destruct (hc_GetHeader_known hc2 t0 _ (genesis_hash g) 0 Hv2 (genesis_tree g Hg)) as (hc3 & -> & Hv3 & (_ & Edb3 & _)); [by apply genesis_known|].
  unfold t0 at 1. rewrite (genesis_stored g Hg). cbn [on_hc fst snd bc_set_hc bc_hc]. unfold SetCurrentHeader. rewrite Header_Hash_enc by done.
  cbn [lift_hc lift_rlp omap_err obind bc_hc hc_set_current hc_set_db hc_chainDb]. fold (header_hash (b_header (genesis_block g))) (genesis_hash g).
  rewrite Edb3, Edb2, Edb1, E4, E3, bool_decide_true by done. eexists. split; [done|]. apply genesis_bchain; [|done].
  destruct Hv3 as [V1 V2 V3]. split; cbn; [apply Hv|done|done].
Qed.

Lemma genesis_chain db : represents db t0 → ∃ bc, NewBlockChain db = Ok bc ∧ bchain UB bc t0 (loaded_genesis g).
Proof using Hg HUB.
  intros Hr. pose proof (go_nonzero g Hg) as Hz. pose proof (go_stores g Hg) as (Hh & _ & Hf). fold (genesis_hash g) in Hz.
  destruct (genesis_start g Hg db Hr) as (hc & E & Hco & Hnum). unfold NewBlockChain. rewrite E. cbn [lift_hc omap_err obind].
  pose proof (view_db _ _ (co_view _ _ _ Hco)) as Hr'. unfold GetBlockByNumber, bc_chainDb. cbn [bc_hc].
  destruct (genesis_heads _ Hr') as (-> & _). rewrite bool_decide_false by done. unfold bc_GetBlock.
  cbn [bc_blockCache lru_Get NewLRU evictList items]. unfold bc_chainDb. cbn [bc_set_caches bc_hc]. rewrite (genesis_block_read (hc_chainDb hc) Hr').
  unfold Block_Hash. cbn [b_hash b_header]. fold header in Hh, Hf. rewrite Header_Hash_enc by done. cbn [lift_bc omap_err obind].
  apply genesis_load; [done|done|exact (Get_Add_new (genesis_hash g) (loaded_genesis g) 255)|done].
Qed.
End Start.

(** ** What the database shows *)

(** A transaction can be found by its hash, in a canonical block up to [N]. *)
Definition retrievable (db : gmap bytes bytes) (N : Z) (x : bytes) : Prop := ∃ tx m j,
  0 ≤ m ≤ N ∧ GetTransaction db x = Ok (Some (tx, GetCanonicalHash db m, m, j)) ∧ tx_hash_of tx = x.

Record full_chain (db : gmap bytes bytes) (genesis : bytes) b : Prop := {
  fc_genesis : GetCanonicalHash db 0 = genesis;
  fc_head : GetCanonicalHash db (header_number (b_header b)) = header_hash (b_header b);
  fc_pointer : GetHeadBlockHash db = header_hash (b_header b);
  fc_block n : 0 ≤ n ≤ header_number (b_header b) → ∃ block,
    GetBlock db (GetCanonicalHash db n) n = Some block ∧ header_hash (b_header block) = GetCanonicalHash db n ∧
    header_number (b_header block) = n ∧ (0 < n → h_ParentHash (b_header block) = GetCanonicalHash db (n - 1)) ∧
    ∀ tx, tx ∈ b_transactions block → retrievable db (header_number (b_header b)) (tx_hash_of tx);
  fc_above n : header_number (b_header b) < n < 2 ^ 64 → GetCanonicalHash db n = zero_hash32
}.

Lemma decoded_hash tx : tx_hash_of (decoded_tx tx) = tx_hash_of tx.
Proof. done. Qed.

Section Shown.
Context UB (HU : block_universe UB).

Lemma stored_read db t h n b :
  represents db t → length h = 32%nat → uint64 n → stored_block UB t h n b →
  GetBlock db h n = Some (MkBlock (b_header b) (decoded_tx <$> b_transactions b) (b_proofs b) None None None).
Proof using.
  intros Hr Hl Hn (Eh & Eb & _). rewrite (GetBlock_spec db t) by done. unfold spec_block, spec_header, spec_body. by rewrite Eh, Eb.
Qed.

Lemma at_index_ok {A} (l : list A) (j : nat) x :
  l !! j = Some x → Z.of_nat (length l) < 2 ^ 64 → at_index l (Z.of_nat j) = Ok (Some x).
Proof using.
  intros E Hl. pose proof (lookup_lt_Some _ _ _ E) as Hj. unfold at_index, to_int.
  assert ((Z.of_nat (length l) <=? (if Z.of_nat j <? 2 ^ 63 then Z.of_nat j else Z.of_nat j - 2 ^ 64)) = false) as ->.
  { destruct (Z.ltb_spec (Z.of_nat j) (2 ^ 63)); apply Z.leb_gt; lia. }
  rewrite Nat2Z.id. unfold index. by rewrite E.
Qed.

Lemma found_read db bc t b x :
  bchain UB bc t b → represents db t → length x = 32%nat → found UB t (header_number (b_header b)) x →
  retrievable db (header_number (b_header b)) x.
Proof using HU.
  intros Hi Hr Hx (m & j & b1 & Hm & El & Hst & Ej). pose proof (bi_in _ _ _ _ Hi) as Hin.
  destruct (ub_stores UB HU b Hin) as (_ & (_ & [_ Hu] & _) & _). assert (uint64 m) as Hum by (split; lia).
  pose proof Hst as (_ & Eb & Hb1 & Eh & _). assert (length (canon t m) = 32%nat) as Hlm by (rewrite <-Eh; apply keccak_length).
  unfold tx_hashes in Ej. rewrite list_lookup_fmap in Ej. destruct (b_transactions b1 !! j) as [tx|] eqn:Etx; [|done]. injection Ej as Ehx.
  exists (decoded_tx tx), m, (Z.of_nat j). split; [done|]. split; [|by rewrite decoded_hash]. unfold GetTransaction.
  rewrite (GetTxLookupEntry_spec db t) by done. unfold spec_lookup. rewrite El. cbn [le_BlockHash le_BlockIndex le_Index].
  rewrite bool_decide_false by (rewrite <-Eh; apply (un_nonzero _ (ub_headers UB HU)); eauto). cbn [negb].
  rewrite (GetBody_spec db t) by done. unfold spec_body. rewrite Eb. cbn [bd_Transactions Block_Body].
  rewrite (at_index_ok _ j (decoded_tx tx)); [|by rewrite list_lookup_fmap, Etx|rewrite length_map; apply (ub_txs UB HU b1 Hb1)].
  cbn. by rewrite (GetCanonicalHash_canon db t).
Qed.

Lemma chain_shown_full bc t b : bchain UB bc t b → full_chain (bc_chainDb bc) (canon t 0) b.
Proof using HU.
  intros Hi. pose proof (view_db _ _ (bi_view _ _ _ _ Hi)) as Hr. pose proof (bi_in _ _ _ _ Hi) as Hin.
  destruct (ub_stores UB HU b Hin) as (_ & (_ & [_ Hu] & _) & _). unfold bc_chainDb. destruct (current_known UB HU bc t b Hi) as [Hn0 _].
  assert (∀ n, 0 ≤ n < 2 ^ 64 → GetCanonicalHash (hc_chainDb (bc_hc bc)) n = canon t n) as Hc by (intros; by apply GetCanonicalHash_canon).
  split.
  - apply Hc. lia.
  - rewrite Hc by lia. apply Hi.
  - rewrite <-(bi_pointer _ _ _ _ Hi). by apply (get_hash_spec _ t TkHeadBlock).
  - intros n Hn. destruct (bi_chain _ _ _ _ Hi n Hn) as (b0 & Hst & Hk & Hp & Hf). rewrite Hc by lia. pose proof Hst as (_ & _ & Hb0 & Eh & En).
    eexists. split; [apply (stored_read _ t); [done|rewrite <-Eh; apply keccak_length|split; lia|exact Hst]|]. cbn [b_header b_transactions].
    split; [done|]. split; [done|]. split; [intros Hpos; rewrite Hc by lia; symmetry; by apply Hp|].
    intros tx (tx0 & -> & Htx)%list_elem_of_fmap. rewrite decoded_hash. apply (found_read _ bc t b); [done|done|apply keccak_length|].
    apply Hf. unfold tx_hashes. by apply list_elem_of_fmap_2.
  - intros n Hn. rewrite Hc by lia. apply (bi_above _ _ _ _ Hi); [split|]; lia.
Qed.

(** ** Sequences of writes *)

Fixpoint write_all (ws : list bwrite) bc : bc_out (list (WriteStatus * option bc_error) * BlockChain) :=
  match ws with
  | [] => Ok ([], bc)
  | w :: ws =>
      let* (status, err, bc) := WriteBlockAndState (w_block w) (w_receipts w) (w_state w) bc in
      let* (rs, bc) := write_all ws bc in
      Ok ((status, err) :: rs, bc)
  end.

Lemma writes_step ws bc t b :
  bchain UB bc t b → Forall (write_ok UB) ws →
  ∃ rs bc' t' b', write_all ws bc = Ok (rs, bc') ∧ bchain UB bc' t' b' ∧
    header_number (b_header b) ≤ header_number (b_header b') ∧ ∀ n, 0 ≤ n ≤ header_number (b_header b) → canon t' n = canon t n.
Proof using HU.
  intros Hi Hws. revert bc t b Hi. induction Hws as [|w ws Hw _ IH]; intros bc t b Hi; [by exists [], bc, t, b|].
  destruct (write_step UB HU bc t b w Hi Hw) as (status & err & bc1 & t1 & b1 & E1 & Hi1 & Hle1 & Hc1 & _).
  destruct (IH bc1 t1 b1 Hi1) as (rs & bc2 & t2 & b2 & E2 & Hi2 & Hle2 & Hc2). cbn [write_all]. rewrite E1. cbn [obind]. rewrite E2. cbn [obind].
  eexists _, bc2, t2, b2. split; [done|]. split; [done|]. split; [lia|]. intros n Hn. rewrite Hc2 by lia. by apply Hc1.
Qed.

End Shown.
End Run.

(** ** A chain with a fork *)

Section Listed.
Context {KC : Keccak}.

Lemma universe_sub (U U' : Header → Prop) : (∀ h, U' h → U h) → universe U → universe U'.
Proof. intros Hs [H1 H2 H3 H4 H5 H6]. split; intros; eauto. Qed.

Lemma block_universe_of_list (bs : list Block) :
  universe (λ h, h ∈ b_header <$> bs) → NoDup (b_header <$> bs) → Forall block_stores bs →
  Forall (λ b, Forall tx_stores (b_transactions b) ∧ Z.of_nat (length (b_transactions b)) < 2 ^ 64) bs →
  block_universe (λ b, b ∈ bs).
Proof.
  intros HU Hnd Hst Htx. rewrite Forall_forall in Hst. rewrite Forall_forall in Htx. split.
  - eapply universe_sub; [|exact HU]. intros h (b & Hb & <-). by apply list_elem_of_fmap_2.
  - done.
  - intros b Hb. apply (Htx b Hb).
  - intros b b' Hb Hb' E. assert (b = b') as ->; [|done]. pose proof Hb as [i Hi]%list_elem_of_lookup. pose proof Hb' as [j Hj]%list_elem_of_lookup.
    assert (b_header b = b_header b') as Eh by (apply (un_hash _ HU); [by apply list_elem_of_fmap_2..|done]).
    assert (i = j) as ->; [|congruence]. eapply NoDup_lookup; [exact Hnd|..]; rewrite list_lookup_fmap; [by rewrite Hi|rewrite Hj; cbn; by rewrite Eh].
Qed.
End Listed.

Definition ex_tx : Transaction := NewTransaction [1; 2; 3].
Definition ex_block_of (header : Header) (txs : list Transaction) : Block := MkBlock header txs [] None None None.
Definition ex_A : Block := ex_block_of ex_a1 [ex_tx].
Definition ex_B : Block := ex_block_of ex_b1 [].
Definition ex_blocks : list Block := [loaded_genesis ex_genesis; ex_A; ex_B].

Definition ex_writes (b : Block) : bwrite := MkWrite b [] (MkStateWrites (Ok (emptyRoot, [(replicate 32 1, [7])])) [(replicate 32 2, [8])]).

Lemma ex_headers_nodup : NoDup ex_headers.
Proof. apply (NoDup_fmap_1 header_hash). rewrite ex_hashes_ok. by_decide. Qed.

Lemma ex_block_universe : block_universe (λ b, b ∈ ex_blocks).
Proof.
  apply block_universe_of_list.
  - eapply universe_sub; [|exact ex_universe]. intros h Hh. unfold ex_blocks in Hh. cbn in Hh. unfold ex_headers. set_solver.
  - eapply sublist_NoDup; [exact ex_headers_nodup|]. repeat constructor.
  - pose proof ex_headers_stores as H. repeat (apply Forall_cons in H as [? H]). repeat constructor; (done || by_decide || (vm_compute; done)).
  - repeat constructor; (done || (vm_compute; done)).
Qed.

Lemma ex_write_ok b : b ∈ ex_blocks → 0 < header_number (b_header b) → write_ok (λ b, b ∈ ex_blocks) (ex_writes b).
Proof.
  intros Hb Hn. split; [done|done|split; [constructor|by vm_compute]| |].
  - cbn. by repeat constructor.
  - by repeat constructor.
Qed.

Lemma ex_A_in : ex_A ∈ ex_blocks.
Proof. right. left. Qed.

Lemma ex_B_in : ex_B ∈ ex_blocks.
Proof. right. right. left. Qed.


(** The chain after the block A. *)
Definition ex_chain : option (list (WriteStatus * option bc_error) * BlockChain) :=
  match genesis_Commit [] ex_genesis ∅ with
  | Ok (_, db) =>
      match NewBlockChain db with
      | Ok bc => match write_all [ex_writes ex_A] bc with Ok r => Some r | _ => None end
      | _ => None
      end
  | _ => None
  end.

Lemma ex_chain_reads :
  match ex_chain with
  | Some (rs, bc) => rs = [(CanonStatTy, None)] ∧ b_header <$> bc_currentBlock bc = Some ex_a1 ∧
      GetTd (bc_chainDb bc) (h_ParentHash ex_b1) 0 = Some 10 ∧ GetTd (bc_chainDb bc) (header_hash ex_a1) 1 = Some 15 ∧
      bool_decide (h_ParentHash ex_b1 = header_hash ex_a1) = false
  | None => False
  end.
Proof. vm_compute. repeat split. Qed.

Lemma ex_chain_inv : ∃ rs bc t b, ex_chain = Some (rs, bc) ∧ bchain (λ b, b ∈ ex_blocks) bc t b.
Proof.
  destruct (Commit_spec [] ex_genesis ∅ _ represents_empty ex_genesis_ok) as (block & db & E & _ & Hr).
  destruct (genesis_chain ex_genesis ex_genesis_ok (λ b, b ∈ ex_blocks) (list_elem_of_here _ _) db Hr) as (bc & E0 & Hi).
  destruct (writes_step _ ex_block_universe [ex_writes ex_A] bc _ _ Hi) as (rs & bc1 & t1 & b1 & E1 & Hi1 & _).
  { constructor; [apply ex_write_ok; [exact ex_A_in|reflexivity]|constructor]. }
  exists rs, bc1, t1, b1. split; [|done]. unfold ex_chain. by rewrite E, E0, E1.
Qed.

Lemma heavier_fork_is_dropped_witness :
  ∃ bc b bc', WriteBlockAndState ex_B [] (w_state (ex_writes ex_B)) bc = Ok (NonStatTy, None, bc') ∧
    bc_currentBlock bc' = Some b ∧ b_header b = ex_a1 ∧
    GetTd (bc_chainDb bc') (header_hash ex_b1) 1 = Some (9 + 10) ∧
    ∀ h n, length h = 32%nat → uint64 n → GetBlock (bc_chainDb bc') h n = GetBlock (bc_chainDb bc) h n.
Proof.
  destruct ex_chain_inv as (rs & bc & t & b & E & Hi). pose proof ex_chain_reads as H. rewrite E in H.
  destruct H as (_ & Hb & Hp & Hl & Hne). rewrite (bi_current _ _ _ _ Hi) in Hb. injection Hb as Hb.
  destruct (heavier_fork_is_dropped _ ex_block_universe bc t b (ex_writes ex_B) 10 15 emptyRoot [(replicate 32 1, [7])] Hi) as (bc' & E' & Hc & Ht & Hg).
  - apply ex_write_ok; [exact ex_B_in|reflexivity].
  - reflexivity.
  - exact Hp.
  - rewrite Hb. exact Hl.
  - reflexivity.
  - rewrite Hb. exact (bool_decide_eq_false_1 _ Hne).
  - exists bc, b, bc'. repeat split; assumption.
Defined.
