(* ===== verification/Arc.v ===== *)
(** * The adaptive replacement cache (vendor/github.com/hashicorp/golang-lru/arc.go)

    The consensus engine keeps the recovered signers of headers in such a cache:
    two LRU lists of entries, recent (t1) and frequent (t2), and two of keys that
    were evicted from them (b1, b2), which steer the target [arc_p] for the size
    of t1. *)

From S2P Require Import Prelude Lru.

Section Arc.
Context {V : Type}.

Record ARCCache := MkARC {
  arc_size : nat;
  arc_p : nat;
  arc_t1 : LRU V;
  arc_b1 : LRU unit;
  arc_t2 : LRU V;
  arc_b2 : LRU unit
}.

Implicit Types (c : ARCCache) (key : bytes) (value : V).

Definition NewARC (size : nat) : ARCCache := MkARC size 0 (NewLRU size) (NewLRU size) (NewLRU size) (NewLRU size).

Definition set_t1 l c := MkARC (arc_size c) (arc_p c) l (arc_b1 c) (arc_t2 c) (arc_b2 c).
Definition set_b1 l c := MkARC (arc_size c) (arc_p c) (arc_t1 c) l (arc_t2 c) (arc_b2 c).
Definition set_t2 l c := MkARC (arc_size c) (arc_p c) (arc_t1 c) (arc_b1 c) l (arc_b2 c).
Definition set_b2 l c := MkARC (arc_size c) (arc_p c) (arc_t1 c) (arc_b1 c) (arc_t2 c) l.
Definition set_p p c := MkARC (arc_size c) p (arc_t1 c) (arc_b1 c) (arc_t2 c) (arc_b2 c).

Definition arc_Get key c : option V * ARCCache :=
  match lru_Peek key (arc_t1 c) with
  | Some val => (Some val, set_t2 (lru_Add key val (arc_t2 c)).2 (set_t1 (lru_Remove key (arc_t1 c)).2 c))
  | None =>
      let '(val, t2) := lru_Get key (arc_t2 c) in
      (val, set_t2 t2 c)
  end.

Definition replace (b2ContainsKey : bool) c : ARCCache :=
  let t1Len := lru_Len (arc_t1 c) in
  if (0 <? t1Len)%nat && ((arc_p c <? t1Len)%nat || ((t1Len =? arc_p c)%nat && b2ContainsKey)) then
    match lru_RemoveOldest (arc_t1 c) with
    | (Some (k, _), t1) => set_b1 (lru_Add k tt (arc_b1 c)).2 (set_t1 t1 c)
    | (None, t1) => set_t1 t1 c
    end
  else
    match lru_RemoveOldest (arc_t2 c) with
    | (Some (k, _), t2) => set_b2 (lru_Add k tt (arc_b2 c)).2 (set_t2 t2 c)
    | (None, t2) => set_t2 t2 c
    end.

(** Make room when the entries have reached the size. *)
Definition make_room (b2ContainsKey : bool) c : ARCCache :=
  if (arc_size c <=? lru_Len (arc_t1 c) + lru_Len (arc_t2 c))%nat then replace b2ContainsKey c else c.

(** delta: how much a hit in the ghost list of length [n] moves the target. *)
Definition ghost_delta (n other : nat) : nat := if (n <? other)%nat then (other / n)%nat else 1%nat.

(** A hit in b1 and a hit in b2 before the key is added to t2. *)
Definition hit_b1 key c : ARCCache :=
  let delta := ghost_delta (lru_Len (arc_b1 c)) (lru_Len (arc_b2 c)) in
  let c := set_p (if (arc_size c <=? arc_p c + delta)%nat then arc_size c else (arc_p c + delta)%nat) c in
  let c := make_room false c in
  set_b1 (lru_Remove key (arc_b1 c)).2 c.
Definition hit_b2 key c : ARCCache :=
  let delta := ghost_delta (lru_Len (arc_b2 c)) (lru_Len (arc_b1 c)) in
  let c := set_p (if (arc_p c <=? delta)%nat then 0%nat else (arc_p c - delta)%nat) c in
  let c := make_room true c in
  set_b2 (lru_Remove key (arc_b2 c)).2 c.

(** A new key: room and trimmed ghost lists. *)
Definition make_new c : ARCCache :=
  let c := make_room false c in
  let c := if (arc_size c - arc_p c <? lru_Len (arc_b1 c))%nat then set_b1 (lru_RemoveOldest (arc_b1 c)).2 c else c in
  if (arc_p c <? lru_Len (arc_b2 c))%nat then set_b2 (lru_RemoveOldest (arc_b2 c)).2 c else c.

Definition add_frequent key value c : ARCCache := set_t2 (lru_Add key value (arc_t2 c)).2 c.

Definition arc_Add key value c : ARCCache :=
  if lru_Contains key (arc_t1 c) then add_frequent key value (set_t1 (lru_Remove key (arc_t1 c)).2 c)
  else if lru_Contains key (arc_t2 c) then add_frequent key value c
  else if lru_Contains key (arc_b1 c) then add_frequent key value (hit_b1 key c)
  else if lru_Contains key (arc_b2 c) then add_frequent key value (hit_b2 key c)
  else let c := make_new c in set_t1 (lru_Add key value (arc_t1 c)).2 c.

Definition arc_Len c : nat := (lru_Len (arc_t1 c) + lru_Len (arc_t2 c))%nat.
Definition arc_Keys c : list bytes := lru_Keys (arc_t1 c) ++ lru_Keys (arc_t2 c).
Definition arc_Remove key c : ARCCache :=
  let '(ok, t1) := lru_Remove key (arc_t1 c) in
  if ok then set_t1 t1 c else
  let '(ok, t2) := lru_Remove key (arc_t2 c) in
  if ok then set_t2 t2 c else
  let '(ok, b1) := lru_Remove key (arc_b1 c) in
  if ok then set_b1 b1 c else
  let '(ok, b2) := lru_Remove key (arc_b2 c) in
  if ok then set_b2 b2 c else c.
Definition arc_Purge c : ARCCache :=
  MkARC (arc_size c) (arc_p c) (lru_Purge (arc_t1 c)) (lru_Purge (arc_b1 c)) (lru_Purge (arc_t2 c)) (lru_Purge (arc_b2 c)).
Definition arc_Contains key c : bool := lru_Contains key (arc_t1 c) || lru_Contains key (arc_t2 c).
Definition arc_Peek key c : option V :=
  match lru_Peek key (arc_t1 c) with
  | Some val => Some val
  | None => lru_Peek key (arc_t2 c)
  end.

(** ** What the cache may answer *)

(** The entries of [c'] are entries of [c]. *)
Definition entries_from c' c : Prop :=
  (∀ k v, lru_Peek k (arc_t1 c') = Some v → lru_Peek k (arc_t1 c) = Some v) ∧
  (∀ k v, lru_Peek k (arc_t2 c') = Some v → lru_Peek k (arc_t2 c) = Some v).

#[local] Instance entries_from_refl : Reflexive entries_from.
Proof. by split. Qed.
#[local] Instance entries_from_trans : Transitive entries_from.
Proof. intros c1 c2 c3 [H1 H2] [H3 H4]. split; intros k v E; [by apply H3, H1|by apply H4, H2]. Qed.

(** A key is not in both lists, so that a read finds the entry of the key. *)
Definition arc_disjoint c : Prop := ∀ k v, lru_Peek k (arc_t1 c) = Some v → lru_Peek k (arc_t2 c) = None.

Lemma entries_disjoint c c' : entries_from c' c → arc_disjoint c → arc_disjoint c'.
Proof.
  intros [H1 H2] Hd k v E%H1%Hd. destruct (lru_Peek k (arc_t2 c')) as [v'|] eqn:E'; [|done]. apply H2 in E'. congruence.
Qed.

Lemma replace_entries b c : entries_from (replace b c) c.
Proof.
  unfold replace. case_match.
  - destruct (lru_RemoveOldest (arc_t1 c)) as [[[k v]|] t1] eqn:E; (split; cbn; [|done]); intros k' v' H';
      apply (Peek_RemoveOldest (arc_t1 c)); by rewrite E.
  - destruct (lru_RemoveOldest (arc_t2 c)) as [[[k v]|] t2] eqn:E; (split; cbn; [done|]); intros k' v' H';
      apply (Peek_RemoveOldest (arc_t2 c)); by rewrite E.
Qed.

Lemma make_room_entries b c : entries_from (make_room b c) c.
Proof. unfold make_room. case_match; [apply replace_entries|done]. Qed.

Lemma hit_b1_entries key c : entries_from (hit_b1 key c) c.
Proof. split; [exact (proj1 (make_room_entries false (set_p _ c)))|exact (proj2 (make_room_entries false (set_p _ c)))]. Qed.

Lemma hit_b2_entries key c : entries_from (hit_b2 key c) c.
Proof. split; [exact (proj1 (make_room_entries true (set_p _ c)))|exact (proj2 (make_room_entries true (set_p _ c)))]. Qed.

Lemma make_new_entries c : entries_from (make_new c) c.
Proof. unfold make_new. etrans; [|apply (make_room_entries false)]. by repeat case_match; split. Qed.

Lemma set_t1_remove_entries key c : entries_from (set_t1 (lru_Remove key (arc_t1 c)).2 c) c.
Proof. split; cbn; [|done]. intros k v. rewrite Peek_Remove. by case_decide. Qed.

Lemma Contains_Peek {W} key (c : LRU W) : lru_Contains key c = bool_decide (is_Some (lru_Peek key c)).
Proof. done. Qed.

Lemma Contains_false {W} key (c : LRU W) : lru_Contains key c = false → lru_Peek key c = None.
Proof. rewrite Contains_Peek. intros H%bool_decide_eq_false. by apply eq_None_not_Some. Qed.

Lemma entries_none c c' key : entries_from c' c → lru_Peek key (arc_t1 c) = None → lru_Peek key (arc_t1 c') = None.
Proof. intros [H _] E. destruct (lru_Peek key (arc_t1 c')) as [v|] eqn:E'; [|done]. apply H in E'. congruence. Qed.

(** Adding to t2 a key that is not in t1. *)
Lemma add_frequent_spec key value c c0 :
  entries_from c c0 → arc_disjoint c0 → lru_Peek key (arc_t1 c) = None →
  arc_disjoint (add_frequent key value c) ∧
  ∀ k v, arc_Peek k (add_frequent key value c) = Some v → (k = key ∧ v = value) ∨ (k ≠ key ∧ arc_Peek k c0 = Some v).
Proof.
  intros He Hd Hk. pose proof (entries_disjoint _ _ He Hd) as Hd'. destruct He as [H1 H2]. split.
  - intros k v E. cbn in E |- *. destruct (lru_Peek k (lru_Add key value (arc_t2 c)).2) as [v'|] eqn:E'; [|done].
    apply Peek_Add in E' as [[-> ->]|[_ E']]; [congruence|]. rewrite (Hd' _ _ E) in E'. done.
  - intros k v. unfold arc_Peek, add_frequent. cbn [set_t2 arc_t1 arc_t2]. destruct (lru_Peek k (arc_t1 c)) as [v'|] eqn:E.
    + intros [= <-]. right. split; [congruence|]. by rewrite (H1 _ _ E).
    + intros [[-> ->]|[Hne E'%H2]]%Peek_Add; [by left|]. right. split; [done|].
      destruct (lru_Peek k (arc_t1 c0)) as [v0|] eqn:E0; [|done]. rewrite (Hd _ _ E0) in E'. done.
Qed.

(** Only the added entry is new, and the lists stay disjoint. *)
Lemma arc_Add_spec key value c :
  arc_disjoint c → arc_disjoint (arc_Add key value c) ∧
  ∀ k v, arc_Peek k (arc_Add key value c) = Some v → (k = key ∧ v = value) ∨ (k ≠ key ∧ arc_Peek k c = Some v).
Proof.
  intros Hd. unfold arc_Add. destruct (lru_Contains key (arc_t1 c)) eqn:C1.
  { apply (add_frequent_spec key value _ c); [apply set_t1_remove_entries|done|]. cbn. by rewrite Peek_Remove, decide_True. }
  apply Contains_false in C1. destruct (lru_Contains key (arc_t2 c)) eqn:C2; [by apply add_frequent_spec|].
  destruct (lru_Contains key (arc_b1 c)).
  { apply add_frequent_spec; [apply hit_b1_entries|done|]. by eapply entries_none; [apply hit_b1_entries|]. }
  destruct (lru_Contains key (arc_b2 c)).
  { apply add_frequent_spec; [apply hit_b2_entries|done|]. by eapply entries_none; [apply hit_b2_entries|]. }
  apply Contains_false in C2. pose proof (make_new_entries c) as He. pose proof (entries_disjoint _ _ He Hd) as Hd'. destruct He as [H1 H2]. cbn zeta.
  split.
  - intros k v E. cbn in E |- *. destruct (lru_Peek k (arc_t2 _)) as [v'|] eqn:E'; [|done].
    apply Peek_Add in E as [[-> ->]|[_ E]]; [apply H2 in E'; congruence|]. rewrite (Hd' _ _ E) in E'. done.
  - intros k v. unfold arc_Peek at 1. cbn [set_t1 arc_t1 arc_t2].
    destruct (lru_Peek k (lru_Add key value (arc_t1 (make_new c))).2) as [v'|] eqn:E.
    + intros [= <-]. apply Peek_Add in E as [?|[Hne E%H1]]; [by left|]. right. split; [done|]. unfold arc_Peek. by rewrite E.
    + intros E'%H2. destruct (decide (k = key)) as [->|Hne]; [congruence|]. right. split; [done|]. unfold arc_Peek.
      destruct (lru_Peek k (arc_t1 c)) as [v0|] eqn:E0; [|done]. rewrite (Hd _ _ E0) in E'. done.
Qed.

(** A read gives the entry and does not change what is cached. *)
Lemma arc_Get_Peek key c : (arc_Get key c).1 = arc_Peek key c.
Proof.
  unfold arc_Get, arc_Peek. destruct (lru_Peek key (arc_t1 c)); [done|]. pose proof (Get_Peek key (arc_t2 c)) as H.
  by destruct (lru_Get key (arc_t2 c)).
Qed.

Lemma arc_Get_spec key c :
  arc_disjoint c → arc_disjoint (arc_Get key c).2 ∧ ∀ k v, arc_Peek k (arc_Get key c).2 = Some v → arc_Peek k c = Some v.
Proof.
  intros Hd. unfold arc_Get. destruct (lru_Peek key (arc_t1 c)) as [val|] eqn:E.
  - destruct (add_frequent_spec key val (set_t1 (lru_Remove key (arc_t1 c)).2 c) c) as [Hd' HP];
      [apply set_t1_remove_entries|done|cbn; by rewrite Peek_Remove, decide_True|].
    split; [exact Hd'|]. intros k v [[-> ->]|[_ E']]%HP; [|done]. unfold arc_Peek. by rewrite E.
  - pose proof (Peek_Get key (arc_t2 c)) as HP. destruct (lru_Get key (arc_t2 c)) as [val t2]. cbn [snd] in *. split.
    + intros k v E'. cbn in *. rewrite HP. by apply (Hd k v).
    + intros k v. unfold arc_Peek. cbn [set_t2 arc_t1 arc_t2]. by rewrite HP.
Qed.

(** ** Bounds *)

(** The target stays within the size. *)
Lemma make_room_p b c : arc_p (make_room b c) = arc_p c ∧ arc_size (make_room b c) = arc_size c.
Proof. unfold make_room, replace. repeat case_match; done. Qed.

Lemma arc_Add_p key value c : (arc_p c ≤ arc_size c)%nat → (arc_p (arc_Add key value c) ≤ arc_size c)%nat.
Proof.
  intros Hp. unfold arc_Add. destruct (lru_Contains key (arc_t1 c)); [done|]. destruct (lru_Contains key (arc_t2 c)); [done|].
  destruct (lru_Contains key (arc_b1 c)).
  { cbn. rewrite (proj1 (make_room_p _ _)). cbn. destruct (Nat.leb_spec (arc_size c) (arc_p c + ghost_delta (lru_Len (arc_b1 c)) (lru_Len (arc_b2 c)))); lia. }
  destruct (lru_Contains key (arc_b2 c)).
  { cbn. rewrite (proj1 (make_room_p _ _)). cbn. case_match; lia. }
  cbn. assert (arc_p (make_new c) = arc_p c) as ->; [|done]. unfold make_new. destruct (make_room_p false c) as [H1 H2].
  by do 2 case_match.
Qed.
End Arc.
Arguments ARCCache : clear implicits.

(** The number of entries is not bounded by the size: with a target equal to the
    size and an empty t2, [replace] evicts nothing. *)
Lemma arc_exceeds_size :
  let add k c := arc_Add [k] tt c in
  let c := add 1%Z (add 2%Z (add 1%Z (NewARC 1))) in arc_size c = 1%nat ∧ arc_Len c = 2%nat.
Proof. vm_compute. done. Qed.
