(* ===== verification/Prometheus.v ===== *)
(** * The consensus engine (consensus/prometheus, consensus/definitions.go)

    The engine prepares and seals headers, makes and checks the proofs miners
    exchange, and checks headers against their parents.  Signatures are made by
    the wallet (a function the engine is given) and recovered by secp256k1, which
    is C code; both are arguments here. *)

From S2P Require Import Prelude RlpSpec RlpRaw RlpEncode RlpStream TrieNode Trie Sha256 Merkletree Types Lru Arc ChainDb.
Local Open Scope Z_scope.

(** sha3.Sum256 *)
Class Sha3Sum := { sum256 : bytes → bytes }.

(** crypto.Ecrecover: the public key behind a signature of a hash. *)
Class Secp256k1 := { Ecrecover : bytes → bytes → option bytes }.

Inductive engine_error :=
| ErrUnknownBlock
| ErrWaitTransactions
| ErrMissingVanity
| ErrMissingSignature
| ErrExtraSigners
| ErrUnknownParent
| ErrEngUnknownAncestor
| ErrInvalidTimestamp
| ErrInvalidProof
| ErrNotSetCoinbase
| ErrSign
| ErrRecover
| ErrEngRlp (e : rlp_error).

Definition NodeCheckpointInterval : Z := 200.
Definition ExtraVanity : nat := 32.
Definition ExtraSeal : nat := 65.
Definition inmemorySignatures : nat := 4096.

Section Prometheus.
Context {KC : Keccak} {SH : Sha3Sum} {EC : Secp256k1}.

Notation eng_out := (outcome engine_error).

Definition lift_eng {A} (r : outcome rlp_error A) : eng_out A := omap_err ErrEngRlp r.

(** ** Messages (types/proof_state.go) *)

Record WorkProof := MkWorkProof {
  wp_Number : Z;
  wp_Sign : bytes;
  wp_Txs : list Transaction;
  wp_States : list ProofState
}.
Record ProofConfirm := MkProofConfirm { pc_Signature : bytes; pc_Confirm : bool }.
Record QueryState := MkQueryState { qs_Miner : bytes; qs_Number : Z }.
Record ResponseState := MkResponseState { rs_Number : Z; rs_Root : bytes; rs_Querier : bytes }.

(** Int.Bytes: the absolute value. *)
Definition big_Bytes (i : Z) : bytes := be_bytes (Z.abs i).

Definition WorkProof_Data (wp : WorkProof) : bytes := big_Bytes (wp_Number wp) ++ wp_Sign wp.
Definition ProofConfirm_Data (pc : ProofConfirm) : bytes := pc_Signature pc ++ [if pc_Confirm pc then 1 else 0].
Definition QueryState_Data (qs : QueryState) : bytes := big_Bytes (qs_Number qs) ++ qs_Miner qs.
Definition ResponseState_Data (rs : ResponseState) : bytes := (big_Bytes (rs_Number rs) ++ rs_Root rs) ++ rs_Querier rs.

(** ProofSignature.Hash *)
Definition sign_Hash (p : bytes) : bytes := sum256 p.

(** The messages that carry them, with the signature of their data. *)
Record WorkProofMsg := MkWorkProofMsg { wpm_Proof : WorkProof; wpm_Sign : bytes }.
Record ConfirmMsg := MkConfirmMsg { cfm_Confirm : ProofConfirm; cfm_Sign : bytes }.
Record QueryStateMsg := MkQueryStateMsg { qsm_Qs : QueryState; qsm_Sign : bytes }.
Record ResponseStateMsg := MkResponseStateMsg { rsm_Rs : ResponseState; rsm_Sign : bytes }.

Definition WorkProofMsg_Hash (m : WorkProofMsg) : bytes := sum256 (WorkProof_Data (wpm_Proof m) ++ wpm_Sign m).
Definition ConfirmMsg_Hash (m : ConfirmMsg) : bytes := sum256 (ProofConfirm_Data (cfm_Confirm m) ++ cfm_Sign m).
Definition QueryStateMsg_Hash (m : QueryStateMsg) : bytes := sum256 (QueryState_Data (qsm_Qs m) ++ qsm_Sign m).
Definition ResponseStateMsg_Hash (m : ResponseStateMsg) : bytes := sum256 (ResponseState_Data (rsm_Rs m) ++ rsm_Sign m).

(** ** Fields of a header *)

Definition with_Extra x (h : Header) : Header :=
  MkHeader (h_ParentHash h) (h_Coinbase h) (h_ProofHash h) (h_Root h) (h_TxHash h) (h_ReceiptHash h) (h_ProofRoot h)
    (h_Difficulty h) (h_Number h) (h_Time h) x.
Definition with_Time t (h : Header) : Header :=
  MkHeader (h_ParentHash h) (h_Coinbase h) (h_ProofHash h) (h_Root h) (h_TxHash h) (h_ReceiptHash h) (h_ProofRoot h)
    (h_Difficulty h) (h_Number h) (Some t) (h_Extra h).
Definition with_Difficulty d (h : Header) : Header :=
  MkHeader (h_ParentHash h) (h_Coinbase h) (h_ProofHash h) (h_Root h) (h_TxHash h) (h_ReceiptHash h) (h_ProofRoot h)
    (Some d) (h_Number h) (h_Time h) (h_Extra h).
Definition with_Coinbase a (h : Header) : Header :=
  MkHeader (h_ParentHash h) a (h_ProofHash h) (h_Root h) (h_TxHash h) (h_ReceiptHash h) (h_ProofRoot h)
    (h_Difficulty h) (h_Number h) (h_Time h) (h_Extra h).
Definition with_proof (txHash proofHash : bytes) (h : Header) : Header :=
  MkHeader (h_ParentHash h) (h_Coinbase h) proofHash (h_Root h) txHash (h_ReceiptHash h) (h_ProofRoot h)
    (h_Difficulty h) (h_Number h) (h_Time h) (h_Extra h).

(** ** The engine *)

(** The signing function takes the address of an account and a hash. *)
Definition SignerFn : Type := bytes → bytes → option bytes.

Record Prometheus := MkPrometheus {
  pr_Period : Z;
  pr_Epoch : Z;
  pr_signatures : ARCCache bytes;
  pr_signer : bytes;
  pr_signFn : option SignerFn
}.

Implicit Types (c : Prometheus) (header : Header).

Definition epochLength : Z := 30000.

Definition Prometheus_New (period epoch : Z) : Prometheus :=
  MkPrometheus period (if epoch =? 0 then epochLength else epoch) (NewARC inmemorySignatures) (replicate 20 0) None.

Definition Authorize (signer : bytes) (signFn : SignerFn) c : Prometheus :=
  MkPrometheus (pr_Period c) (pr_Epoch c) (pr_signatures c) signer (Some signFn).

Definition set_signatures s c : Prometheus := MkPrometheus (pr_Period c) (pr_Epoch c) s (pr_signer c) (pr_signFn c).

(** A call of the signing function; calling nil panics. *)
Definition call_signFn (hash : bytes) c : eng_out bytes :=
  match pr_signFn c with
  | Some f => match f (pr_signer c) hash with Some s => Ok s | None => Err ErrSign end
  | None => Panic
  end.

(** ** Preparing and sealing (prometheus.go, chain_generation.go) *)

(** [now] is the time in milliseconds. *)
Definition PrepareBlockHeader (now : Z) header : Header :=
  let extra := if (length (h_Extra header) <? ExtraVanity)%nat
               then h_Extra header ++ replicate (ExtraVanity - length (h_Extra header)) 0
               else h_Extra header in
  let extra := take ExtraVanity extra ++ replicate ExtraSeal 0 in
  with_Difficulty 1 (with_Time now (with_Extra extra header)).

(** The hash that is signed: a list of fields without the seal. *)
Definition SigHash header : eng_out bytes :=
  if (length (h_Extra header) <? ExtraSeal)%nat then Panic
  else lift_eng (rlpHash (GSlice false (map GIface
         [GBytes (h_ParentHash header); GBytes (h_Root header); GBytes (h_TxHash header); GBytes (h_ReceiptHash header);
          big_gval (h_Difficulty header); big_gval (h_Number header); big_gval (h_Time header);
          GBytes (take (length (h_Extra header) - ExtraSeal) (h_Extra header))]))).

Definition GenBlockWithSig (now : Z) (block : Block) c : eng_out Block :=
  let header := CopyHeader (b_header block) in
  let* number := lift_eng (NumberU64 header) in
  if number =? 0 then Err ErrUnknownBlock
  else if (pr_Period c =? 0) && (length (b_transactions block) =? 0)%nat then Err ErrWaitTransactions
  else
    let header := with_Time now (with_Coinbase (pr_signer c) header) in
    let* hash := SigHash header in
    let* sighash := call_signFn hash c in
    let extra := copy_at (h_Extra header) (length (h_Extra header) - ExtraSeal) sighash in
    Ok (WithSeal (with_Extra extra header) block).

Definition Finalize header (txs : list Transaction) (proofs : list ProofState) (receipts : list Receipt) : eng_out Block :=
  lift_eng (NewBlock header txs proofs receipts).

(** ** The author of a header (definitions.go) *)

Definition recoverpk2address (pub : bytes) : eng_out bytes :=
  let* p := pub.[1 : length pub] in
  Ok (drop 12 (keccak256 p)).

(** consensus.Ecrecover below the cache. *)
Definition recover_signer header : eng_out bytes :=
  if (length (h_Extra header) <? ExtraSeal)%nat then Err ErrMissingSignature
  else
    let signature := drop (length (h_Extra header) - ExtraSeal) (h_Extra header) in
    let* hash := SigHash header in
    match Ecrecover hash signature with
    | None => Err ErrRecover
    | Some pubkey => recoverpk2address pubkey
    end.

Definition Author header c : eng_out bytes * Prometheus :=
  match lift_eng (Header_Hash header) with
  | Ok hash =>
      let '(cached, signatures) := arc_Get hash (pr_signatures c) in
      let c := set_signatures signatures c in
      match cached with
      | Some address => (Ok address, c)
      | None =>
          match recover_signer header with
          | Ok signer => (Ok signer, set_signatures (arc_Add hash signer (pr_signatures c)) c)
          | r => (r, c)
          end
      end
  | r => (r, c)
  end.

(** ** Proofs *)

Definition MixHash (first second : bytes) : bytes := keccak256 (first ++ second).

Definition SignData (data : bytes) c : eng_out bytes :=
  match pr_signFn c with
  | None => Err ErrNotSetCoinbase
  | Some f => match f (pr_signer c) (sum256 data) with Some s => Ok s | None => Err ErrSign end
  end.

Definition RecoverSender (data signature : bytes) : eng_out bytes :=
  match Ecrecover (sum256 data) signature with
  | None => Err ErrRecover
  | Some pubk => recoverpk2address pubk
  end.

(** The proof for a new header and the header with its roots.  The log call
    reads parent.ProofHash before the test for nil. *)
Definition GenerateProof header (parent : option Header) (txs : list Transaction) (proofs : list ProofState) c
    : eng_out (WorkProof * Header) :=
  let* number := lift_eng (NumberU64 header) in
  match parent with
  | None => Panic
  | Some parent =>
      let lastHash := h_ProofHash parent in
      let* txroot := DeriveSha txs in
      let proofHash := MixHash lastHash txroot in
      let* sighash := call_signFn proofHash c in
      Ok (MkWorkProof (to_int number) sighash txs proofs, with_proof txroot proofHash header)
  end.

Definition VerifyProofQuick (lasthash txroot newHash : bytes) : bool := bool_decide (MixHash lasthash txroot = newHash).

Definition VerifyProof (address lHash : bytes) (proof : WorkProof) : eng_out bytes :=
  let* txroot := DeriveSha (wp_Txs proof) in
  let proofHash := MixHash lHash txroot in
  match Ecrecover proofHash (wp_Sign proof) with
  | None => Err ErrInvalidProof
  | Some pub =>
      let* addr := recoverpk2address pub in
      if bool_decide (addr = address) then Ok proofHash else Err ErrInvalidProof
  end.

(** VerifyState returns before its loop. *)
Definition VerifyState (coinbase : bytes) (history : list bytes) (proof : WorkProof) : bool := true.

(** ** Checking headers (chain_verification.go) *)

(** [getHeader] is chain.GetHeader; a result is the error of the check, if any. *)
Definition verifyCascadingFields (getHeader : bytes → Z → option Header) header (parents : list Header) : eng_out (option engine_error) :=
  let* number := lift_eng (NumberU64 header) in
  if number =? 0 then Ok None
  else
    match (match last parents with Some p => Some p | None => getHeader (h_ParentHash header) (number - 1) end) with
    | None => Ok (Some ErrEngUnknownAncestor)
    | Some parent =>
        let* pnumber := lift_eng (NumberU64 parent) in
        if negb (pnumber =? number - 1) then Ok (Some ErrEngUnknownAncestor)
        else
          let* phash := lift_eng (Header_Hash parent) in
          if negb (bool_decide (phash = h_ParentHash header)) then Ok (Some ErrEngUnknownAncestor)
          else
            let* ptime := big_Uint64 (h_Time parent) in
            let* time := big_Uint64 (h_Time header) in
            if time <? ptime then Ok (Some ErrInvalidTimestamp) else Ok None
    end.

Definition verifyHeader (getHeader : bytes → Z → option Header) header (parents : list Header) : eng_out (option engine_error) :=
  match h_Number header with
  | None => Ok (Some ErrUnknownBlock)
  | Some _ =>
      let* number := lift_eng (NumberU64 header) in
      let checkpoint := number mod NodeCheckpointInterval =? 0 in
      let len := length (h_Extra header) in
      if (len <? ExtraVanity)%nat then Ok (Some ErrMissingVanity)
      else if (len <? ExtraVanity + ExtraSeal)%nat then Ok (Some ErrMissingSignature)
      else if negb checkpoint && negb (len - ExtraVanity - ExtraSeal =? 0)%nat then Ok (Some ErrExtraSigners)
      else verifyCascadingFields getHeader header parents
  end.

Definition VerifyHeader (getHeader : bytes → Z → option Header) header : eng_out (option engine_error) := verifyHeader getHeader header [].

(** The results the goroutine of VerifyHeaders sends, in order; [before] are the
    headers it has done. *)
Fixpoint verify_from (getHeader : bytes → Z → option Header) (before headers : list Header) : eng_out (list (option engine_error)) :=
  match headers with
  | [] => Ok []
  | header :: rest =>
      let* err := verifyHeader getHeader header before in
      let* results := verify_from getHeader (before ++ [header]) rest in
      Ok (err :: results)
  end.
Definition VerifyHeaders (getHeader : bytes → Z → option Header) (headers : list Header) : eng_out (list (option engine_error)) :=
  verify_from getHeader [] headers.
End Prometheus.
