(* ===== verification/PrometheusSafe.v ===== *)
(** * What the consensus engine guarantees

    A seal names its signer, accepted headers are linked to their parents, a proof
    made by a miner is accepted by its peers, and the hash of a proof commits to
    all transactions the miner has proved before. *)

From S2P Require Import Prelude RlpSpec RlpRaw RlpEncode RlpStream RlpRoundtrip Sha3 TrieNode Trie TrieMap Sha256 Merkletree Types Lru Arc ChainDb ChainTables HeaderChain Prometheus.
Local Open Scope Z_scope.

(** The SHA3-256 of package sha3. *)
#[export] Instance sha3_sponge : Sha3Sum := {| sum256 x := sponge 136 0x06 x 0 32 |}.

Lemma sha3_sponge_Sum256 x : Forall is_byte x → Sum256 (E:=unit) x = Ok (sum256 x).
Proof.
  intros Hx. unfold Sum256, digest. destruct (writes_absorb (E:=unit) [x] New256 []) as (d & E & Ha & Er & Ed & Eo);
    [apply constructors_absorbing; unfold constructors; set_solver|by apply Forall_singleton|].
  unfold write_all in E. cbn [oloop] in E. apply obind_Ok in E as (d' & E & [= ->]). apply obind_Ok in E as ([n d''] & E & [= ->]).
  rewrite E. cbn [obind]. rewrite (Sum_spec d _ [] Ha), Er, Ed, Eo. cbn [concat app]. by rewrite app_nil_r.
Qed.

Section Safe.
Context {KC : Keccak} {SH : Sha3Sum} {EC : Secp256k1}.
Implicit Types (c : Prometheus) (header : Header).

(** What secp256k1 and a wallet promise: the signature of an account has 65 bytes
    and recovers the public key of the address. *)
Definition signs_for (f : SignerFn) (addr : bytes) : Prop := ∀ hash s, f addr hash = Some s →
  length s = ExtraSeal ∧ ∃ pub, Ecrecover hash s = Some pub ∧ recoverpk2address pub = Ok addr.

Definition honest c : Prop := ∃ f, pr_signFn c = Some f ∧ signs_for f (pr_signer c).

Lemma honest_signs c hash s :
  honest c → call_signFn hash c = Ok s →
  length s = ExtraSeal ∧ ∃ pub, Ecrecover hash s = Some pub ∧ recoverpk2address pub = Ok (pr_signer c).
Proof.
  intros (f & Ef & Hf). unfold call_signFn. rewrite Ef. destruct (f (pr_signer c) hash) as [s'|] eqn:E; [|done].
  intros [= <-]. by apply Hf.
Qed.

(** ** Seals *)

Lemma seal_extra header (sig : bytes) :
  let pos := (length (h_Extra header) - ExtraSeal)%nat in
  (ExtraSeal ≤ length (h_Extra header))%nat → length sig = ExtraSeal →
  copy_at (h_Extra header) pos sig = take pos (h_Extra header) ++ sig.
Proof.
  intros pos Hl Hs. unfold copy_at. rewrite (take_ge sig), drop_ge, app_nil_r by (subst pos; lia). done.
Qed.

(** The seal is not part of what is signed. *)
Lemma SigHash_sealed header (sig : bytes) :
  let pos := (length (h_Extra header) - ExtraSeal)%nat in
  (ExtraSeal ≤ length (h_Extra header))%nat → length sig = ExtraSeal →
  SigHash (with_Extra (take pos (h_Extra header) ++ sig) header) = SigHash header.
Proof.
  intros pos Hl Hs. assert (length (take pos (h_Extra header) ++ sig) = length (h_Extra header)) as El
    by (rewrite length_app, length_take; subst pos; lia).
  unfold SigHash. cbn [with_Extra h_Extra h_ParentHash h_Root h_TxHash h_ReceiptHash h_Difficulty h_Number h_Time].
  rewrite El. fold pos. rewrite take_app_le by (rewrite length_take; subst pos; lia). by rewrite take_take, Nat.min_id.
Qed.

Lemma sealed_recovers header (sig hash pub addr : bytes) :
  (ExtraSeal ≤ length (h_Extra header))%nat → length sig = ExtraSeal →
  SigHash header = Ok hash → Ecrecover hash sig = Some pub → recoverpk2address pub = Ok addr →
  recover_signer (with_Extra (take (length (h_Extra header) - ExtraSeal) (h_Extra header) ++ sig) header) = Ok addr.
Proof.
  intros Hl Hs Eh Ep Ea. unfold recover_signer. rewrite SigHash_sealed, Eh by done. cbn [obind with_Extra h_Extra].
  rewrite length_app, length_take, Hs.
  destruct (Nat.ltb_spec ((length (h_Extra header) - ExtraSeal) `min` length (h_Extra header) + ExtraSeal) ExtraSeal) as [Hlt|_]; [lia|].
  rewrite drop_app_length' by (rewrite length_take; lia). by rewrite Ep.
Qed.

(** What [GenBlockWithSig] gives. *)
Lemma GenBlockWithSig_Ok now block block' c :
  GenBlockWithSig now block c = Ok block' → (ExtraSeal ≤ length (h_Extra (b_header block)))%nat → honest c →
  ∃ sig, length sig = ExtraSeal ∧
    let header := with_Time now (with_Coinbase (pr_signer c) (CopyHeader (b_header block))) in
    block' = WithSeal (with_Extra (take (length (h_Extra header) - ExtraSeal) (h_Extra header) ++ sig) header) block ∧
    recover_signer (b_header block') = Ok (pr_signer c).
Proof.
  unfold GenBlockWithSig. intros (n & En & HE)%obind_Ok Hl Hh. case_match; [done|]. case_match; [done|].
  apply obind_Ok in HE as (hash & Eh & HE). apply obind_Ok in HE as (s & Es & [= <-]).
  destruct (honest_signs c hash s Hh Es) as (Hs & pub & Ep & Ea). exists s. split; [done|].
  cbn zeta. rewrite seal_extra by done. split; [done|]. exact (sealed_recovers (with_Time now (with_Coinbase (pr_signer c) (CopyHeader (b_header block)))) s hash pub _ Hl Hs Eh Ep Ea).
Qed.

(** The seal does not cover the miner's address and its proof. *)
Lemma seal_ignores_proof header (a p r : bytes) :
  let h := MkHeader (h_ParentHash header) a p (h_Root header) (h_TxHash header) (h_ReceiptHash header) r
             (h_Difficulty header) (h_Number header) (h_Time header) (h_Extra header) in
  recover_signer h = recover_signer header.
Proof. done. Qed.

(** ** The cache of signers *)

(** Headers of [U] have different hashes. *)
Definition collision_free (U : Header → Prop) : Prop :=
  ∀ h h' x, U h → U h' → Header_Hash h = Ok x → Header_Hash h' = Ok x → h = h'.

(** A cached signer is the one recovered from the header. *)
Definition coherent (U : Header → Prop) c : Prop := arc_disjoint (pr_signatures c) ∧
  ∀ hash addr, arc_Peek hash (pr_signatures c) = Some addr → ∀ header, U header → Header_Hash header = Ok hash → recover_signer header = Ok addr.

Lemma New_coherent U period epoch : coherent U (Prometheus_New period epoch).
Proof. by split. Qed.

Lemma Author_coherent U header c :
  collision_free U → U header → (∃ hash, Header_Hash header = Ok hash) → coherent U c →
  (Author header c).1 = recover_signer header ∧ coherent U (Author header c).2.
Proof.
  intros Hc Hh (hash & Eh) [Hd Hco]. unfold Author. rewrite Eh. cbn [lift_eng omap_err].
  pose proof (arc_Get_Peek hash (pr_signatures c)) as EP. destruct (arc_Get_spec hash (pr_signatures c) Hd) as [Hd' HP].
  destruct (arc_Get hash (pr_signatures c)) as [cached sigs]. cbn [fst snd] in *.
  assert (coherent U (set_signatures sigs c)) as Hco' by (split; [done|]; intros x a E%HP; by apply Hco).
  destruct cached as [addr|].
  - split; [|done]. cbn. by rewrite (Hco hash addr (eq_sym EP) header Hh Eh).
  - destruct (recover_signer header) as [signer|e|] eqn:Er; [|done..]. split; [done|]. cbn [snd].
    destruct (arc_Add_spec hash signer sigs Hd') as [Hd2 HA]. split; [done|]. cbn [set_signatures pr_signatures].
    intros x a [[-> ->]|[Hne E%HP]]%HA h' Hu Eh'; [|by apply (Hco x)]. by rewrite (Hc h' header hash).
Qed.

(** A sequence of calls. *)
Fixpoint Author_all (headers : list Header) c : list (outcome engine_error bytes) * Prometheus :=
  match headers with
  | [] => ([], c)
  | header :: headers =>
      let '(r, c) := Author header c in
      let '(rs, c) := Author_all headers c in
      (r :: rs, c)
  end.

(** The cache of signatures is transparent: whatever headers without colliding
    hashes are asked for, in any order and however often, [Author] answers what
    recovering the signer of the header gives. *)
Theorem Author_cache_transparent U headers period epoch :
  collision_free U → Forall (λ h, U h ∧ ∃ hash, Header_Hash h = Ok hash) headers →
  (Author_all headers (Prometheus_New period epoch)).1 = recover_signer <$> headers.
Proof.
  intros Hc Hs. pose proof (New_coherent U period epoch) as Hco. revert Hco. generalize (Prometheus_New period epoch) as c.
  induction Hs as [|h hs [Hu Hh] _ IH]; intros c Hco; [done|]. cbn [Author_all].
  destruct (Author_coherent U h c Hc Hu Hh Hco) as [E Hco']. destruct (Author h c) as [r c1]. cbn [fst snd] in *. specialize (IH c1 Hco').
  destruct (Author_all hs c1) as [rs c2]. cbn [fst fmap list_fmap] in *. by rewrite E, <-IH.
Qed.

(** ** Proofs *)

(** The proof a miner makes is accepted by a peer that knows the proof hash of the
    parent, and gives the proof hash of the new header. *)
Lemma GenerateProof_verifies header parent txs states c proof header' :
  honest c → GenerateProof header (Some parent) txs states c = Ok (proof, header') →
  VerifyProof (pr_signer c) (h_ProofHash parent) proof = Ok (h_ProofHash header') ∧
  wp_Txs proof = txs ∧ DeriveSha (F:=engine_error) txs = Ok (h_TxHash header') ∧
  VerifyProofQuick (h_ProofHash parent) (h_TxHash header') (h_ProofHash header') = true.
Proof.
  intros Hh. unfold GenerateProof. intros (n & En & HE)%obind_Ok. apply obind_Ok in HE as (txroot & Er & HE).
  apply obind_Ok in HE as (s & Es & [= <- <-]). destruct (honest_signs c _ s Hh Es) as (_ & pub & Ep & Ea).
  split_and!; [|done..|]; cbn [wp_Txs wp_Sign with_proof h_ProofHash h_TxHash].
  - unfold VerifyProof. cbn [wp_Txs wp_Sign]. rewrite Er. cbn [obind]. rewrite Ep, Ea. cbn [obind]. by rewrite bool_decide_true.
  - unfold VerifyProofQuick. by rewrite bool_decide_true.
Qed.

(** A verifier follows a miner: it checks each proof against the hash of the last
    one. *)
Fixpoint verify_all (addr root : bytes) (proofs : list WorkProof) : outcome engine_error bytes :=
  match proofs with
  | [] => Ok root
  | proof :: proofs =>
      let* root := VerifyProof addr root proof in
      verify_all addr root proofs
  end.

(** The strings that are mixed on the way. *)
Fixpoint mix_inputs (root : bytes) (proofs : list WorkProof) : list bytes :=
  match proofs with
  | [] => []
  | proof :: proofs =>
      match DeriveSha (F:=engine_error) (wp_Txs proof) with
      | Ok txroot => (root ++ txroot) :: mix_inputs (MixHash root txroot) proofs
      | _ => []
      end
  end.

Definition history_txs (proofs : list WorkProof) : list Transaction := concat (wp_Txs <$> proofs).
Definition history_inputs (proofs : list WorkProof) : list bytes := concat (tx_inputs ∘ wp_Txs <$> proofs).

Lemma VerifyProof_Ok addr root proof new :
  VerifyProof addr root proof = Ok new → ∃ txroot, DeriveSha (F:=engine_error) (wp_Txs proof) = Ok txroot ∧ new = MixHash root txroot.
Proof.
  unfold VerifyProof. intros (txroot & E & HE)%obind_Ok. exists txroot. split; [done|]. destruct (Ecrecover _ _) as [pub|]; [|done].
  apply obind_Ok in HE as (a & _ & HE). case_match; [|done]. by injection HE.
Qed.

Lemma DeriveSha_error {C E F G} {HC : Content C E} (l : list C) r : DeriveSha (F:=F) l = Ok r → DeriveSha (F:=G) l = Ok r.
Proof. unfold DeriveSha. destruct l; [by intros [= ->]|]. destruct (NewTree _ _); [by intros [= ->]|done..]. Qed.

Lemma no_collision_sub (H : bytes → bytes) l l' : l ⊆ l' → no_collision H l' → no_collision H l.
Proof. intros Hs Hn x y Hx Hy. by apply Hn; apply Hs. Qed.

(** Membership in concatenations. *)
Local Ltac list_sub := intros; try intros ?; rewrite ?elem_of_app, ?elem_of_cons, ?elem_of_app; tauto.

(** C31: The proof hash commits to the history of a miner.  Two runs of proofs that
    verifiers accepted, with equally many transactions in each proof, and that
    lead to the same proof hash started from the same proof hash and proved the
    same payloads in the same order, unless Keccak-256 or SHA-256 collides on two
    of the strings that were hashed. *)
Theorem proof_hash_commits addr addr' root root' proofs proofs' final :
  length root = 32%nat → length root' = 32%nat →
  length ∘ wp_Txs <$> proofs = length ∘ wp_Txs <$> proofs' →
  Forall hashable (history_txs proofs ++ history_txs proofs') →
  no_collision keccak256 ((mix_inputs root proofs ++ mix_inputs root' proofs') ++ (tx_enc <$> history_txs proofs ++ history_txs proofs')) →
  no_collision sha256 (history_inputs proofs ++ history_inputs proofs') →
  verify_all addr root proofs = Ok final → verify_all addr' root' proofs' = Ok final →
  root = root' ∧ (map tx_Payload ∘ wp_Txs <$> proofs) = (map tx_Payload ∘ wp_Txs <$> proofs').
Proof.
  revert root root' proofs'. induction proofs as [|p ps IH]; intros root root' [|p' ps'] Hr Hr' Hshape Htx Hk Hs; try done.
  { intros [= ->] [= ->]. done. }
  cbn [verify_all]. intros (new & E & HE)%obind_Ok (new' & E' & HE')%obind_Ok.
  apply VerifyProof_Ok in E as (txroot & Et & ->). apply VerifyProof_Ok in E' as (txroot' & Et' & ->).
  unfold history_txs, history_inputs in *. cbn [mix_inputs fmap list_fmap concat] in *. rewrite Et, Et' in Hk.
  injection Hshape as Hlen Hshape. rewrite !Forall_app in Htx. destruct Htx as [[Htp Hts] [Htp' Hts']].
  destruct (IH (MixHash root txroot) (MixHash root' txroot') ps') as [Emix Etail]; try done.
  { apply keccak_length. }
  { apply keccak_length. }
  { by apply Forall_app. }
  { eapply no_collision_sub; [|exact Hk]. rewrite !fmap_app. list_sub. }
  { eapply no_collision_sub; [|exact Hs]. cbn. list_sub. }
  unfold MixHash in Emix. apply Hk in Emix; [|list_sub..]. apply app_inj_1 in Emix as [-> ->]; [|congruence].
  split; [done|]. cbn. f_equal; [|done].
  apply (txroot_binds (wp_Txs p) (wp_Txs p') txroot'); [by apply Forall_app|done| | |by eapply DeriveSha_error..].
  - eapply no_collision_sub; [|exact Hk]. rewrite !fmap_app. list_sub.
  - eapply no_collision_sub; [|exact Hs]. cbn. list_sub.
Qed.

(** ** Accepted headers *)

(** The header a header was checked against. *)
Record linked_to header (parent : Header) : Prop := {
  lk_hash : Header_Hash parent = Ok (h_ParentHash header);
  lk_number n : NumberU64 header = Ok n → NumberU64 parent = Ok (n - 1);
  lk_time t t' : h_Time header = Some t → h_Time parent = Some t' → wrap 64 (Z.abs t') ≤ wrap 64 (Z.abs t)
}.

Lemma lift_eng_Ok {A} (r : outcome rlp_error A) a : lift_eng r = Ok a → r = Ok a.
Proof. unfold lift_eng. by destruct r; cbn; intros [= <-]. Qed.

Lemma verifyHeader_linked getHeader header parents n :
  verifyHeader getHeader header parents = Ok None → NumberU64 header = Ok n → n ≠ 0 →
  (ExtraVanity + ExtraSeal ≤ length (h_Extra header))%nat ∧
  ∃ parent, (match last parents with Some p => Some p | None => getHeader (h_ParentHash header) (n - 1) end) = Some parent ∧ linked_to header parent.
Proof.
  unfold verifyHeader, verifyCascadingFields. destruct (h_Number header) as [i|] eqn:Ei; [|done]. intros HE En Hn. rewrite En in HE.
  cbn [lift_eng omap_err obind] in HE. case_match; [done|]. case_match eqn:E97; [done|]. apply Nat.ltb_ge in E97. case_match; [done|].
  apply Z.eqb_neq in Hn as Hn'. rewrite Hn' in HE. split; [done|].
  destruct (match last parents with Some p => Some p | None => _ end) as [parent|]; [|done]. exists parent. split; [done|].
  apply obind_Ok in HE as (pn & Epn & HE). case_match eqn:E1; [done|]. apply obind_Ok in HE as (ph & Eph & HE). case_match eqn:E2; [done|].
  apply obind_Ok in HE as (pt & Ept & HE). apply obind_Ok in HE as (tm & Etm & HE). case_match eqn:E3; [done|].
  apply negb_false_iff, Z.eqb_eq in E1 as ->. apply negb_false_iff, bool_decide_eq_true in E2 as ->. apply Z.ltb_ge in E3. split.
  - by apply lift_eng_Ok.
  - intros n' En'. assert (n' = n) as -> by congruence. by apply lift_eng_Ok.
  - intros t t' Et Et'. rewrite Et in Etm. rewrite Et' in Ept. cbn in Etm, Ept. congruence.
Qed.

Lemma verify_from_length getHeader before headers rs : verify_from getHeader before headers = Ok rs → length rs = length headers.
Proof.
  revert before rs. induction headers as [|h hs IH]; intros before rs; [by intros [= <-]|]. cbn [verify_from].
  intros (e & _ & HE)%obind_Ok. apply obind_Ok in HE as (rs' & HE & [= <-]). cbn. f_equal. by eapply IH.
Qed.

Lemma verify_from_lookup getHeader before headers rs i header :
  verify_from getHeader before headers = Ok rs → headers !! i = Some header →
  ∃ e, rs !! i = Some e ∧ verifyHeader getHeader header (before ++ take i headers) = Ok e.
Proof.
  revert before rs i. induction headers as [|h hs IH]; intros before rs i; [done|]. cbn [verify_from].
  intros (e & Ee & HE)%obind_Ok. apply obind_Ok in HE as (rs' & HE & [= <-]). destruct i as [|i]; cbn.
  - intros [= <-]. exists e. by rewrite app_nil_r.
  - intros Hi. destruct (IH _ _ i HE Hi) as (e' & ? & Ev). exists e'. split; [done|]. by rewrite cons_middle, app_assoc.
Qed.

(** The engine as ValidateHeaderChain uses it. *)
Definition engine_verify (getHeader : bytes → Z → option Header) (headers : list Header) : list (option hc_error) :=
  match VerifyHeaders getHeader headers with
  | Ok rs => map (option_map (λ _, ErrVerify)) rs
  | _ => []
  end.

Lemma check_results_nil interrupted rs i n : check_results i interrupted rs = (n, Ok tt) → Forall (λ r, r = None) rs.
Proof.
  revert i. induction rs as [|r rs IH]; intros i; [done|]. cbn. case_match; [done|]. destruct r; [done|]. intros HE. constructor; [done|by eapply IH].
Qed.

(** Accepted headers form a chain.  When ValidateHeaderChain accepts a list of
    headers with this engine, every header that is not number 0 has 97 bytes of
    extra data at least and is linked by hash, number and time to the header
    before it in the list, the first one to a header of the local chain. *)
Theorem validated_headers_linked getHeader interrupted chain k rs i header n :
  ValidateHeaderChain (engine_verify getHeader) interrupted chain = (k, Ok tt) → VerifyHeaders getHeader chain = Ok rs →
  chain !! i = Some header → NumberU64 header = Ok n → n ≠ 0 →
  (ExtraVanity + ExtraSeal ≤ length (h_Extra header))%nat ∧
  ∃ parent, linked_to header parent ∧
    match i with O => getHeader (h_ParentHash header) (n - 1) = Some parent | S j => chain !! j = Some parent end.
Proof.
  intros HV HR Hi En Hn. assert (Forall (λ r, r = None) rs) as Hnone.
  { unfold ValidateHeaderChain in HV. destruct chain as [|h rest]; [done|]. destruct (contiguous h rest); [|done..].
    apply check_results_nil in HV. unfold engine_verify in HV. rewrite HR in HV. apply Forall_map in HV.
    eapply Forall_impl; [exact HV|]. by intros []. }
  destruct (verify_from_lookup _ _ _ _ _ _ HR Hi) as (e & Ee & Ev). rewrite app_nil_l in Ev.
  rewrite (Forall_lookup_1 _ _ _ _ Hnone Ee) in Ev.
  destruct (verifyHeader_linked _ _ _ _ Ev En Hn) as (Hx & parent & Ep & Hl). split; [done|]. exists parent. split; [done|].
  destruct i as [|j]; [done|]. rewrite last_lookup, length_take in Ep. apply lookup_lt_Some in Hi as Hlt.
  rewrite Nat.min_l in Ep by lia. cbn [Nat.pred] in Ep. rewrite lookup_take_lt in Ep by lia. destruct (chain !! j) eqn:Ej; [done|].
  apply lookup_ge_None in Ej. lia.
Qed.
End Safe.
