(* ===== verification/Unconfirmed.v ===== *)
(** * Proofs that wait for confirmation (worker/unconfirmed.go)

    A miner keeps the proofs it has broadcast with the addresses that confirmed
    or rejected them.  When enough addresses agree, or after a timeout, the work
    of the proof is sent on.  The entries are pointers: Confirm, which runs in the
    mining goroutine, and CheckTimeout, which runs in one of its own, hold an
    entry while the other deletes it from the map. *)

From S2P Require Import Prelude.
Local Open Scope Z_scope.

Definition waitConfirmTimeout : Z := 30.

(** An entry; the work is a pointer. *)
Record proofInfo := MkInfo {
  pi_threshold : Z;
  pi_work : nat;
  pi_confirmed : gset bytes;
  pi_confirmedUnpass : gset bytes;
  pi_time : Z
}.

(** proofs maps the hash of a signature to an entry, [up_infos] are the entries.
    Of the works [up_works] holds the field confirmed once it was set (it is false in a new
    work), and [up_sent] are the works
    that were sent to confirmedCh, in the order of the sends. *)
Record unconfirmedProofs := MkUnconfirmed {
  up_proofs : gmap bytes nat;
  up_infos : list proofInfo;
  up_works : gmap nat bool;
  up_sent : list nat
}.

Implicit Types (u : unconfirmedProofs) (sigHash addr : bytes) (ptr work : nat) (info : proofInfo).

Definition newUnconfirmedProofs : unconfirmedProofs := MkUnconfirmed ∅ [] ∅ [].

Definition Insert sigHash work (threshold now : Z) u : unconfirmedProofs :=
  match up_proofs u !! sigHash with
  | Some _ => u
  | None =>
      MkUnconfirmed (<[sigHash := length (up_infos u)]> (up_proofs u))
        (up_infos u ++ [MkInfo threshold work ∅ ∅ now]) (up_works u) (up_sent u)
  end.

(** The entry with one more answer. *)
Definition add_answer addr (confirm : bool) info : proofInfo :=
  if confirm then MkInfo (pi_threshold info) (pi_work info) ({[addr]} ∪ pi_confirmed info) (pi_confirmedUnpass info) (pi_time info)
  else MkInfo (pi_threshold info) (pi_work info) (pi_confirmed info) ({[addr]} ∪ pi_confirmedUnpass info) (pi_time info).

Definition reached (s : gset bytes) (threshold : Z) : bool := threshold <=? Z.of_nat (size s).

(** The part of Confirm after the entry was loaded. *)
Definition confirm_loaded sigHash addr (confirm : bool) ptr u : unconfirmedProofs :=
  match up_infos u !! ptr with
  | None => u
  | Some info =>
      let info := add_answer addr confirm info in
      let infos := <[ptr := info]> (up_infos u) in
      if reached (pi_confirmed info) (pi_threshold info) || reached (pi_confirmedUnpass info) (pi_threshold info) then
        let confirmed := negb (reached (pi_confirmedUnpass info) (pi_threshold info)) in
        MkUnconfirmed (delete sigHash (up_proofs u)) infos (<[pi_work info := confirmed]> (up_works u)) (up_sent u ++ [pi_work info])
      else MkUnconfirmed (up_proofs u) infos (up_works u) (up_sent u)
  end.

Definition Confirm sigHash addr (confirm : bool) u : unconfirmedProofs :=
  match up_proofs u !! sigHash with
  | Some ptr => confirm_loaded sigHash addr confirm ptr u
  | None => u
  end.

(** The callback of CheckTimeout on a key with its entry. *)
Definition timeout_loaded sigHash ptr (now : Z) u : unconfirmedProofs :=
  match up_infos u !! ptr with
  | None => u
  | Some info =>
      if waitConfirmTimeout <? now - pi_time info then
        MkUnconfirmed (delete sigHash (up_proofs u)) (up_infos u) (up_works u) (up_sent u ++ [pi_work info])
      else u
  end.

(** CheckTimeout alone: Range visits the keys in some order. *)
Definition CheckTimeout (order : list bytes) (now : Z) u : unconfirmedProofs :=
  foldl (λ u k, match up_proofs u !! k with Some ptr => timeout_loaded k ptr now u | None => u end) u order.

(** ** Interleavings *)

(** The goroutines: an answer that is being handled and a timeout check that has
    loaded a key. *)
Record ustate := MkUState {
  us_proofs : unconfirmedProofs;
  us_confirm : option (bytes * bytes * bool * nat);
  us_timeout : option (bytes * nat)
}.

Definition ustart : ustate := MkUState newUnconfirmedProofs None None.

Inductive uaction :=
| AInsert sigHash work (threshold now : Z)
| AConfirm sigHash addr (confirm : bool)
| AConfirmed
| ATimeout sigHash
| ATimedOut (now : Z).

Definition uexec (a : uaction) (s : ustate) : option ustate :=
  let u := us_proofs s in
  match a with
  | AInsert k work threshold now => Some (MkUState (Insert k work threshold now u) (us_confirm s) (us_timeout s))
  | AConfirm k addr confirm =>
      match us_confirm s with
      | None => Some (MkUState u (match up_proofs u !! k with Some ptr => Some (k, addr, confirm, ptr) | None => None end) (us_timeout s))
      | Some _ => None
      end
  | AConfirmed =>
      match us_confirm s with
      | Some (k, addr, confirm, ptr) => Some (MkUState (confirm_loaded k addr confirm ptr u) None (us_timeout s))
      | None => None
      end
  | ATimeout k =>
      match us_timeout s with
      | None => Some (MkUState u (us_confirm s) (match up_proofs u !! k with Some ptr => Some (k, ptr) | None => None end))
      | Some _ => None
      end
  | ATimedOut now =>
      match us_timeout s with
      | Some (k, ptr) => Some (MkUState (timeout_loaded k ptr now u) (us_confirm s) None)
      | None => None
      end
  end.

Fixpoint urun (acts : list uaction) (s : ustate) : option ustate :=
  match acts with
  | [] => Some s
  | a :: acts => match uexec a s with Some s => urun acts s | None => None end
  end.

(** ** Who confirmed what *)

(** What an entry made of the actions [acts] holds: it was inserted for a
    signature, and each address in it answered for that signature. *)
Definition info_from (acts : list uaction) sigHash info : Prop :=
  (∃ now, AInsert sigHash (pi_work info) (pi_threshold info) now ∈ acts) ∧
  (∀ addr, addr ∈ pi_confirmed info → AConfirm sigHash addr true ∈ acts) ∧
  (∀ addr, addr ∈ pi_confirmedUnpass info → AConfirm sigHash addr false ∈ acts).

(** A work that counts as confirmed has a quorum. *)
Definition quorum (acts : list uaction) work : Prop := ∃ sigHash threshold now (addrs : gset bytes),
  AInsert sigHash work threshold now ∈ acts ∧ threshold ≤ Z.of_nat (size addrs) ∧
  ∀ addr, addr ∈ addrs → AConfirm sigHash addr true ∈ acts.

(** The invariant; [keys] are the signatures the entries were made for. *)
Record uinv (acts : list uaction) (keys : list bytes) (s : ustate) : Prop := {
  ui_infos ptr info : up_infos (us_proofs s) !! ptr = Some info → ∃ k, keys !! ptr = Some k ∧ info_from acts k info;
  ui_length : length keys = length (up_infos (us_proofs s));
  ui_proofs k ptr : up_proofs (us_proofs s) !! k = Some ptr → keys !! ptr = Some k;
  ui_confirm k addr confirm ptr : us_confirm s = Some (k, addr, confirm, ptr) → AConfirm k addr confirm ∈ acts ∧ keys !! ptr = Some k;
  ui_works work : up_works (us_proofs s) !! work = Some true → quorum acts work;
  ui_sent work : work ∈ up_sent (us_proofs s) → ∃ k threshold now, AInsert k work threshold now ∈ acts
}.

Lemma info_from_mono acts acts' k info : acts ⊆ acts' → info_from acts k info → info_from acts' k info.
Proof. intros Hs ((now & H1) & H2 & H3). split; [exists now; by apply Hs|]. split; intros addr Ha; apply Hs; auto. Qed.

Lemma quorum_mono acts acts' work : acts ⊆ acts' → quorum acts work → quorum acts' work.
Proof. intros Hs (k & th & now & addrs & H1 & H2 & H3). exists k, th, now, addrs. split; [by apply Hs|]. split; [done|]. intros a Ha. by apply Hs, H3. Qed.

Lemma uinv_mono acts acts' keys s : acts ⊆ acts' → uinv acts keys s → uinv acts' keys s.
Proof.
  intros Hs [H1 H2 H3 H4 H5 H6]. split; [|done|done|..].
  - intros ptr info (k & Ek & Hi)%H1. exists k. split; [done|]. by eapply info_from_mono.
  - intros k addr c ptr [Ha Hk]%H4. split; [by apply Hs|done].
  - intros w Hw%H5. by eapply quorum_mono.
  - intros w (k & th & now & Hi)%H6. exists k, th, now. by apply Hs.
Qed.

Lemma Insert_inv acts keys s k work threshold now :
  uinv acts keys s → AInsert k work threshold now ∈ acts →
  ∃ keys', uinv acts keys' (MkUState (Insert k work threshold now (us_proofs s)) (us_confirm s) (us_timeout s)).
Proof.
  intros [H1 H2 H3 H4 H5 H6] Hin. unfold Insert. destruct (up_proofs (us_proofs s) !! k) as [ptr|] eqn:E; [by exists keys|].
  exists (keys ++ [k]). split; cbn [us_proofs us_confirm up_infos up_proofs up_works up_sent].
  - intros ptr info. rewrite lookup_snoc_Some. intros [[Hlt Hp]|[-> <-]].
    + destruct (H1 ptr info Hp) as (k' & Ek & Hi). exists k'. split; [by apply lookup_app_l_Some|done].
    + exists k. split; [apply lookup_snoc_Some; by right|]. split; [by exists now|]. cbn. split; set_solver.
  - rewrite !length_app. cbn. lia.
  - intros k' ptr. rewrite lookup_insert_Some. intros [[<- <-]|[_ Hp%H3]]; [apply lookup_snoc_Some; by right|].
    by apply lookup_app_l_Some.
  - intros k' addr c ptr [Ha Hk]%H4. split; [done|]. by apply lookup_app_l_Some.
  - done.
  - done.
Qed.

Lemma add_answer_from acts k addr confirm info :
  info_from acts k info → AConfirm k addr confirm ∈ acts → info_from acts k (add_answer addr confirm info).
Proof.
  intros ((now & H1) & H2 & H3) Ha. destruct confirm; (split; [by exists now|]); split; cbn; intros a;
    rewrite ?elem_of_union, ?elem_of_singleton; naive_solver.
Qed.

Lemma confirm_inv acts keys s k addr confirm ptr :
  uinv acts keys s → AConfirm k addr confirm ∈ acts → keys !! ptr = Some k →
  uinv acts keys (MkUState (confirm_loaded k addr confirm ptr (us_proofs s)) None (us_timeout s)).
Proof.
  intros [H1 H2 H3 H4 H5 H6] Ha Hk. unfold confirm_loaded. destruct (up_infos (us_proofs s) !! ptr) as [info|] eqn:E; [|by split].
  destruct (H1 ptr info E) as (k' & Ek' & Hi). assert (k' = k) as -> by congruence.
  pose proof (add_answer_from acts k addr confirm info Hi Ha) as Hi'. set (new := add_answer addr confirm info) in *.
  assert (∀ ptr' info', <[ptr := new]> (up_infos (us_proofs s)) !! ptr' = Some info' → ∃ k, keys !! ptr' = Some k ∧ info_from acts k info') as H1'.
  { intros ptr' info' [(<- & <- & _)|[_ Hp]]%list_lookup_insert_Some; [by exists k|by apply H1]. }
  assert (length keys = length (<[ptr := new]> (up_infos (us_proofs s)))) as H2' by (by rewrite length_insert).
  pose proof Hi' as ((now & Hins) & Hconf & _).
  destruct (reached (pi_confirmed new) _ || reached (pi_confirmedUnpass new) _) eqn:Er; split; cbn [us_proofs us_confirm up_infos up_proofs up_works up_sent]; try done.
  - intros k' ptr' [_ Hp]%lookup_delete_Some. by apply H3.
  - intros w. rewrite lookup_insert_Some. intros [[<- Hc]|[_ Hw]]; [|by apply H5].
    exists k, (pi_threshold new), now, (pi_confirmed new). split; [done|]. split; [|done]. apply negb_true_iff in Hc. rewrite Hc, orb_false_r in Er.
    by apply Z.leb_le.
  - intros w. rewrite elem_of_app, list_elem_of_singleton. intros [?| ->]; [by apply H6|]. by exists k, (pi_threshold new), now.
Qed.

Lemma timeout_inv acts keys s k ptr now :
  uinv acts keys s → uinv acts keys (MkUState (timeout_loaded k ptr now (us_proofs s)) (us_confirm s) None).
Proof.
  intros [H1 H2 H3 H4 H5 H6]. unfold timeout_loaded. destruct (up_infos (us_proofs s) !! ptr) as [info|] eqn:E; [|by split].
  case_match; split; cbn [us_proofs us_confirm up_infos up_proofs up_works up_sent]; try done.
  - intros k' ptr' [_ Hp]%lookup_delete_Some. by apply H3.
  - intros w. rewrite elem_of_app, list_elem_of_singleton. intros [?| ->]; [by apply H6|].
    destruct (H1 ptr info E) as (k' & _ & (now' & Hins) & _). by exists k', (pi_threshold info), now'.
Qed.

Lemma uexec_inv acts keys a s s' :
  uinv acts keys s → a ∈ acts → uexec a s = Some s' → ∃ keys', uinv acts keys' s'.
Proof.
  intros Hi Ha. destruct a as [k work th now|k addr c| |k|now]; cbn [uexec].
  - intros [= <-]. by eapply Insert_inv.
  - destruct (us_confirm s) eqn:Ec; [done|]. intros [= <-]. exists keys. destruct Hi as [H1 H2 H3 H4 H5 H6]. split; cbn; try done.
    intros k' addr' c' ptr. destruct (up_proofs (us_proofs s) !! k) as [ptr'|] eqn:E; [|done]. intros [= <- <- <- <-]. split; [done|by apply H3].
  - destruct (us_confirm s) as [[[[k addr] c] ptr]|] eqn:Ec; [|done]. intros [= <-]. exists keys.
    destruct (ui_confirm _ _ _ Hi _ _ _ _ Ec) as [Hin Hk]. by apply confirm_inv.
  - destruct (us_timeout s); [done|]. intros [= <-]. exists keys. destruct Hi. by split.
  - destruct (us_timeout s) as [[k ptr]|]; [|done]. intros [= <-]. exists keys. by apply timeout_inv.
Qed.

Lemma urun_inv all acts keys s s' :
  uinv all keys s → acts ⊆ all → urun acts s = Some s' → ∃ keys', uinv all keys' s'.
Proof.
  revert keys s. induction acts as [|a acts IH]; intros keys s Hi Hs; [intros [= <-]; by exists keys|]. cbn [urun].
  destruct (uexec a s) as [s1|] eqn:E; [|done]. destruct (uexec_inv all keys a s s1 Hi) as (keys' & Hi'); [apply Hs; by left|done|].
  apply (IH keys'); [done|]. intros x Hx. apply Hs. by right.
Qed.

(** C30: A work counts as confirmed only with a quorum.  Under every interleaving of
    insertions, answers and timeout checks, when a work is marked as confirmed, it
    was inserted with a threshold and at least that many different addresses sent
    a positive answer for the signature of its proof; and only inserted works are
    sent on. *)
Theorem confirmed_by_quorum acts s :
  urun acts ustart = Some s →
  (∀ work, up_works (us_proofs s) !! work = Some true → quorum acts work) ∧
  (∀ work, work ∈ up_sent (us_proofs s) → ∃ sigHash threshold now, AInsert sigHash work threshold now ∈ acts).
Proof.
  intros Hr. destruct (urun_inv acts acts [] ustart s) as (keys & Hi); [|done|done|split; [apply Hi|apply Hi]].
  split; cbn; try done. intros w Hw. by apply not_elem_of_nil in Hw.
Qed.

(** A work that three addresses are needed for. *)
Definition ex_acts : list uaction :=
  [AInsert [1] 7 3 0; AConfirm [1] [10] true; ATimeout [1]; AConfirmed; AConfirm [1] [10] true; AConfirmed;
   AConfirm [1] [11] true; AConfirmed; ATimedOut 5; AConfirm [1] [12] true; AConfirmed].

Definition ex_ustate : ustate := match urun ex_acts ustart with Some s => s | None => ustart end.

Lemma confirmed_by_quorum_witness :
  (∀ work, up_works (us_proofs ex_ustate) !! work = Some true → quorum ex_acts work) ∧
  (∀ work, work ∈ up_sent (us_proofs ex_ustate) → ∃ sigHash threshold now, AInsert sigHash work threshold now ∈ ex_acts).
Proof. apply (confirmed_by_quorum ex_acts ex_ustate). vm_compute. reflexivity. Defined.

(** In that run the work is confirmed and sent; with two answers it is not. *)
Lemma ex_ustate_sent : up_works (us_proofs ex_ustate) !! 7%nat = Some true ∧ up_sent (us_proofs ex_ustate) = [7%nat].
Proof. vm_compute. done. Qed.

(** ** Each work is settled once *)

(** Calls that do not overlap. *)
Inductive ucall :=
| CInsert sigHash work (threshold now : Z)
| CConfirm sigHash addr (confirm : bool)
| CCheckTimeout (order : list bytes) (now : Z).

Definition ucall_exec (c : ucall) u : unconfirmedProofs :=
  match c with
  | CInsert k work threshold now => Insert k work threshold now u
  | CConfirm k addr confirm => Confirm k addr confirm u
  | CCheckTimeout order now => CheckTimeout order now u
  end.

(** The works that a call takes in: a second insertion for a signature is
    ignored. *)
Definition taken (c : ucall) u : list nat :=
  match c with
  | CInsert k work _ _ => match up_proofs u !! k with Some _ => [] | None => [work] end
  | _ => []
  end.

Fixpoint ucalls (cs : list ucall) u : list nat * unconfirmedProofs :=
  match cs with
  | [] => ([], u)
  | c :: cs =>
      let '(l, u') := ucalls cs (ucall_exec c u) in
      (taken c u ++ l, u')
  end.

(** The works of the entries in the map. *)
Definition waiting u : list nat := omap (λ kp : bytes * nat, (pi_work <$> up_infos u) !! kp.2) (map_to_list (up_proofs u)).

(** Entries exist and belong to one key only. *)
Definition uwf u : Prop := (∀ k ptr, up_proofs u !! k = Some ptr → (ptr < length (up_infos u))%nat) ∧
  ∀ k k' ptr, up_proofs u !! k = Some ptr → up_proofs u !! k' = Some ptr → k = k'.

Lemma waiting_delete u k ptr info infos works sent :
  up_proofs u !! k = Some ptr → up_infos u !! ptr = Some info → pi_work <$> infos = pi_work <$> up_infos u →
  pi_work info :: waiting (MkUnconfirmed (delete k (up_proofs u)) infos works sent) ≡ₚ waiting u.
Proof.
  intros Hk Hp Hi. unfold waiting. cbn [up_proofs up_infos]. rewrite Hi.
  rewrite <-(map_to_list_delete (up_proofs u) k ptr Hk). cbn [omap list_omap snd]. rewrite list_lookup_fmap, Hp. done.
Qed.

Lemma works_kept (infos : list proofInfo) ptr info addr confirm :
  infos !! ptr = Some info → pi_work <$> <[ptr := add_answer addr confirm info]> infos = pi_work <$> infos.
Proof.
  intros E. rewrite list_fmap_insert. apply list_insert_id. rewrite list_lookup_fmap, E. by destruct confirm.
Qed.

Lemma uwf_delete u k (infos : list proofInfo) works sent :
  length infos = length (up_infos u) → uwf u → uwf (MkUnconfirmed (delete k (up_proofs u)) infos works sent).
Proof.
  intros Hl [H1 H2]. split; cbn [up_proofs up_infos].
  - intros k' ptr [_ E]%lookup_delete_Some. rewrite Hl. by eapply H1.
  - intros k1 k2 ptr [_ E1]%lookup_delete_Some [_ E2]%lookup_delete_Some. by eapply H2.
Qed.

(** Works in the map and works that were sent. *)
Definition settles u u' (new : list nat) : Prop := uwf u' ∧ up_sent u' ++ waiting u' ≡ₚ new ++ up_sent u ++ waiting u.

Lemma Insert_settles k work threshold now u : uwf u → settles u (Insert k work threshold now u) (taken (CInsert k work threshold now) u).
Proof.
  intros Hw. unfold Insert. cbn [taken]. destruct (up_proofs u !! k) as [ptr|] eqn:E; [by split|]. destruct Hw as [H1 H2]. split; [split|].
  - intros k' ptr. cbn. rewrite length_app, lookup_insert_Some. cbn. intros [[_ <-]|[_ Hp%H1]]; lia.
  - intros k1 k2 ptr. cbn. rewrite !lookup_insert_Some. intros [[<- <-]|[_ E1]] [[<- E']|[_ E2]]; [done|..]; [apply H1 in E2; lia|apply H1 in E1; lia|].
    by eapply H2.
  - cbn [up_sent app]. rewrite Permutation_middle. apply Permutation_app_head.
    unfold waiting. cbn [up_proofs up_infos]. rewrite map_to_list_insert by done. cbn [omap list_omap snd].
    rewrite fmap_app, lookup_app_r by (by rewrite length_fmap). rewrite length_fmap, Nat.sub_diag. cbn. constructor.
    apply reflexive_eq, list_omap_ext, Forall_Forall2_diag, Forall_forall. intros [k' ptr] Hin%elem_of_map_to_list. cbn.
    rewrite lookup_app_l; [done|]. rewrite length_fmap. by eapply H1.
Qed.

Lemma Confirm_settles k addr confirm u : uwf u → settles u (Confirm k addr confirm u) [].
Proof.
  intros Hw. unfold Confirm, confirm_loaded. destruct (up_proofs u !! k) as [ptr|] eqn:E; [|by split].
  destruct (up_infos u !! ptr) as [info|] eqn:Ei; [|by split]. pose proof (works_kept _ _ _ addr confirm Ei) as Hk.
  assert (pi_work (add_answer addr confirm info) = pi_work info) as Ew by (by destruct confirm). cbn zeta. case_match; split.
  - apply uwf_delete; [by rewrite length_insert|done].
  - cbn [up_sent app]. rewrite <-app_assoc, Ew. apply Permutation_app_head. cbn [app]. by eapply waiting_delete.
  - destruct Hw as [H1 H2]. split; cbn; [intros k' p Hp; rewrite length_insert; by eapply H1|done].
  - cbn [up_sent app]. unfold waiting. cbn [up_proofs up_infos]. by rewrite Hk.
Qed.

Lemma timeout_settles k now u : uwf u → settles u (match up_proofs u !! k with Some ptr => timeout_loaded k ptr now u | None => u end) [].
Proof.
  intros Hw. unfold timeout_loaded. destruct (up_proofs u !! k) as [ptr|] eqn:E; [|by split]. destruct (up_infos u !! ptr) as [info|] eqn:Ei; [|by split].
  case_match; [|by split]. split; [by apply uwf_delete|]. cbn [up_sent app]. rewrite <-app_assoc. apply Permutation_app_head. by eapply waiting_delete.
Qed.

Lemma CheckTimeout_settles order now u : uwf u → settles u (CheckTimeout order now u) [].
Proof.
  unfold CheckTimeout. revert u. induction order as [|k order IH]; intros u Hw; [by split|]. cbn [foldl].
  destruct (timeout_settles k now u Hw) as [Hw1 HP1]. destruct (IH _ Hw1) as [Hw2 HP2]. split; [done|]. cbn [app] in *. by rewrite HP2.
Qed.

Lemma ucalls_settle cs u : uwf u → settles u (ucalls cs u).2 (ucalls cs u).1.
Proof.
  revert u. induction cs as [|c cs IH]; intros u Hw; [by split|]. cbn [ucalls].
  assert (settles u (ucall_exec c u) (taken c u)) as [Hw1 HP1]
    by (destruct c; [by apply Insert_settles|by apply Confirm_settles|by apply CheckTimeout_settles]).
  destruct (IH _ Hw1) as [Hw2 HP2]. destruct (ucalls cs (ucall_exec c u)) as [l u']. cbn [fst snd] in *. split; [done|].
  rewrite HP2, HP1. rewrite (Permutation_app_comm (taken c u) l). by rewrite <-!app_assoc.
Qed.

(** After a check that visits every key no entry is older than the timeout. *)
Definition fresh (now : Z) u : Prop := ∀ k ptr info, up_proofs u !! k = Some ptr → up_infos u !! ptr = Some info → now - pi_time info ≤ waitConfirmTimeout.

Lemma CheckTimeout_fresh order now u : (∀ k, is_Some (up_proofs u !! k) → k ∈ order) → fresh now (CheckTimeout order now u).
Proof.
  intros Ho. unfold CheckTimeout.
  assert (∀ order u, (∀ k ptr info, up_proofs u !! k = Some ptr → up_infos u !! ptr = Some info → k ∈ order ∨ now - pi_time info ≤ waitConfirmTimeout) →
    fresh now (foldl (λ u k, match up_proofs u !! k with Some ptr => timeout_loaded k ptr now u | None => u end) u order)) as Hgen.
  { clear. induction order as [|k order IH]; intros u Hu; [intros k ptr info E1 E2; destruct (Hu k ptr info E1 E2) as [Hin|]; [by apply not_elem_of_nil in Hin|done]|].
    cbn [foldl]. apply IH. intros k' ptr' info' E1 E2. destruct (up_proofs u !! k) as [ptr|] eqn:E.
    - unfold timeout_loaded in E1, E2. destruct (up_infos u !! ptr) as [info|] eqn:Ei.
      + destruct (Z.ltb_spec waitConfirmTimeout (now - pi_time info)) as [Hlt|Hge]; cbn in E1, E2.
        * apply lookup_delete_Some in E1 as [Hne E1]. destruct (Hu k' ptr' info' E1 E2) as [[?|?]%elem_of_cons|]; [congruence|by left|by right].
        * destruct (Hu k' ptr' info' E1 E2) as [[->|?]%elem_of_cons|]; [right; by simplify_eq|by left|by right].
      + destruct (Hu k' ptr' info' E1 E2) as [[->|?]%elem_of_cons|]; [simplify_eq|by left|by right].
    - destruct (Hu k' ptr' info' E1 E2) as [[->|?]%elem_of_cons|]; [simplify_eq|by left|by right]. }
  apply Hgen. intros k ptr info E _. left. apply Ho. by eexists.
Qed.

(** Every work is settled exactly once.  After any sequence of calls that do not
    overlap, the works that were taken in are, each once, those that were sent on
    and those that still wait, and a following check of all entries leaves none
    that is older than the timeout. *)
Theorem works_settle_once cs order now :
  let '(works, u) := ucalls cs newUnconfirmedProofs in
  up_sent u ++ waiting u ≡ₚ works ∧
  ((∀ k, is_Some (up_proofs u !! k) → k ∈ order) → fresh now (CheckTimeout order now u)).
Proof.
  destruct (ucalls_settle cs newUnconfirmedProofs) as [_ HP]; [by split|]. destruct (ucalls cs newUnconfirmedProofs) as [works u]. cbn [fst snd] in HP.
  split; [by rewrite HP, app_nil_r|apply CheckTimeout_fresh].
Qed.

(** Two works: one is confirmed by two addresses, the other waits too long. *)
Definition ex_calls : list ucall := [CInsert [1] 7 2 0; CConfirm [1] [10] true; CInsert [2] 8 2 3; CConfirm [1] [11] true].

Lemma ex_calls_waiting : up_proofs (ucalls ex_calls newUnconfirmedProofs).2 = {[ [2] := 1%nat ]}.
Proof. vm_compute. reflexivity. Qed.

Lemma works_settle_once_witness :
  let '(works, u) := ucalls ex_calls newUnconfirmedProofs in
  up_sent u ++ waiting u ≡ₚ works ∧ fresh 40 (CheckTimeout [[2]] 40 u).
Proof.
  pose proof ex_calls_waiting as E. pose proof (works_settle_once ex_calls [[2]] 40) as H. destruct (ucalls ex_calls newUnconfirmedProofs) as [works u].
  destruct H as [H1 H2]. split; [exact H1|]. apply H2. intros k. cbn [snd] in E. rewrite E. intros [? [<- _]%lookup_singleton_Some]. left.
Defined.

(** When the check for timeouts overlaps an answer that completes the quorum, the
    work is sent twice. *)
Lemma overlap_sends_twice :
  let acts := [AInsert [1] 7 1 0; ATimeout [1]; AConfirm [1] [10] true; AConfirmed; ATimedOut 31] in
  (λ s, up_sent (us_proofs s)) <$> urun acts ustart = Some [7%nat; 7%nat].
Proof. vm_compute. done. Qed.
