(* ===== verification/WorkPending.v ===== *)
(** * The queue of confirmed works (worker/work_pending.go)

    Confirmed works wait in a queue.  A goroutine writes their blocks to the chain
    in order and tells the pool how each work ended; after the first error the
    queue is closed, and the next round gives all works that are left back. *)

From S2P Require Import Prelude RlpSpec RlpRaw RlpEncode RlpStream RlpRoundtrip TrieNode Trie TrieMap Sha256 Merkletree Types SecureTrie TxPool Lru ChainDb ChainTables HeaderChain HeaderChainInv Genesis HeaderChainRun BlockChain BlockChainSafe BlockChainRun Prometheus.
Local Open Scope Z_scope.

Section WorkPending.
Context {KC : Keccak}.

(** A work (worker.go); its state is what committing it writes, genCh the result
    of making the block.  The flag confirmed is kept with the proofs that wait for
    answers. *)
Record Work := MkWork {
  wk_state : StateWrites;
  wk_tcount : nat;
  wk_Block : option Block;
  wk_header : Header;
  wk_txs : list Transaction;
  wk_receipts : list Receipt;
  wk_states : list ProofState;
  wk_id : Z;
  wk_genCh : list (option engine_error)
}.

Record WorkPending := MkWorkPending { wpg_errored : bool; wpg_Pending : list Work }.

Implicit Types (p : WorkPending) (w : Work) (bc : BlockChain) (pool : TxPool Transaction).

Definition NewWorkPending : WorkPending := MkWorkPending false [].

Definition HaveErr p : bool := wpg_errored p.

Definition Add w p : bool * WorkPending :=
  if HaveErr p then (false, p) else (true, MkWorkPending (wpg_errored p) (wpg_Pending p ++ [w])).

Definition Top p : option Work := if HaveErr p then None else last (wpg_Pending p).
Definition Head p : option Work := if HaveErr p then None else head (wpg_Pending p).
Definition Empty p : bool := (length (wpg_Pending p) =? 0)%nat.
Definition SetNoError p : WorkPending := MkWorkPending false (wpg_Pending p).
Definition pop p : option Work * WorkPending := (head (wpg_Pending p), MkWorkPending (wpg_errored p) (tail (wpg_Pending p))).

(** Work.WorkEnded *)
Definition Work_WorkEnded (succeed : bool) w pool : bc_out (TxPool Transaction) :=
  let* number := lift_bc (NumberU64 (wk_header w)) in
  Ok (WorkEnded (wk_id w) number succeed pool).

(** The loop of Run in the error mode. *)
Fixpoint give_back (ws : list Work) pool : bc_out (TxPool Transaction) :=
  match ws with
  | [] => Ok pool
  | w :: ws =>
      let* pool := Work_WorkEnded false w pool in
      give_back ws pool
  end.

(** One block: the loop body of Run. *)
Definition write_head p bc pool : bc_out (WorkPending * BlockChain * TxPool Transaction) :=
  match Head p with
  | None => Panic
  | Some w =>
      let* block := deref (wk_Block w) in
      let* (_, err, bc) := WriteBlockAndState block (wk_receipts w) (wk_state w) bc in
      let* (p, pool) := match err with
                        | Some _ => let* pool := Work_WorkEnded false w pool in Ok (MkWorkPending true (wpg_Pending p), pool)
                        | None => let* pool := Work_WorkEnded true w pool in Ok (p, pool)
                        end in
      Ok ((pop p).2, bc, pool)
  end.

(** The loop of Run; [late] is whether more than two seconds have passed before a
    block, and [rounds] the works that are in the queue. *)
Fixpoint write_loop (rounds : nat) (late : nat → bool) p bc pool : bc_out (WorkPending * BlockChain * TxPool Transaction) :=
  match rounds with
  | O => Ok (p, bc, pool)
  | S r =>
      if HaveErr p || Empty p || late r then Ok (p, bc, pool)
      else
        let* (p, bc, pool) := write_head p bc pool in
        write_loop r late p bc pool
  end.

(** One tick of the timer of Run. *)
Definition Run_tick (late : nat → bool) p bc pool : bc_out (WorkPending * BlockChain * TxPool Transaction) :=
  let* (p, pool) := if HaveErr p then let* pool := give_back (wpg_Pending p) pool in Ok (MkWorkPending true [], pool)
                    else Ok (p, pool) in
  write_loop (length (wpg_Pending p)) late p bc pool.

(** ** How the queue is written *)

Section Queue.
Context (UB : Block → Prop) (HU : block_universe UB).
Implicit Types (t : tables) (b : Block).

Definition work_number w : Z := match NumberU64 (wk_header w) with Ok n => n | _ => 0 end.

(** The pool after works have ended, in order. *)
Definition end_works (succeed : bool) (ws : list Work) pool : TxPool Transaction :=
  foldl (λ pool w, WorkEnded (wk_id w) (work_number w) succeed pool) pool ws.

(** The works carry a chain of blocks on top of [b], each with a difficulty. *)
Fixpoint chained b (ws : list Work) : Prop :=
  match ws with
  | [] => True
  | w :: ws => ∃ block, wk_Block w = Some block ∧ is_Some (h_Number (wk_header w)) ∧
      write_ok UB (MkWrite block (wk_receipts w) (wk_state w)) ∧
      h_ParentHash (b_header block) = header_hash (b_header b) ∧ 0 < difficulty (b_header block) ∧ chained block ws
  end.

Definition commits w : Prop := ∃ r, sw_CommitTo (wk_state w) = Ok r.

(** The head after the works have been written. *)
Definition head_after b (ws : list Work) : Block := foldl (λ b w, default b (wk_Block w)) b ws.

(** The block of a work is canonical in a chain with the head [b]. *)
Definition written t b w : Prop := ∀ block, wk_Block w = Some block →
  0 ≤ header_number (b_header block) ≤ header_number (b_header b) ∧ canon t (header_number (b_header block)) = header_hash (b_header block).

Lemma WorkEnded_Ok succeed w pool : is_Some (h_Number (wk_header w)) →
  Work_WorkEnded succeed w pool = Ok (WorkEnded (wk_id w) (work_number w) succeed pool).
Proof using. intros [n En]. unfold Work_WorkEnded, work_number, NumberU64. by rewrite En. Qed.

Lemma give_back_Ok b ws pool : chained b ws → give_back ws pool = Ok (end_works false ws pool).
Proof using.
  revert b pool. induction ws as [|w ws IH]; intros b pool; [done|]. intros (block & _ & Hn & _ & _ & _ & Hc). cbn [give_back].
  rewrite WorkEnded_Ok by done. cbn [obind]. by rewrite (IH block).
Qed.

(** One block of the queue. *)
Lemma write_head_step bc t b w ws pool :
  bchain UB bc t b → chained b (w :: ws) →
  ∃ bc' t' b' ok, write_head (MkWorkPending false (w :: ws)) bc pool =
      Ok (MkWorkPending (negb ok) ws, bc', WorkEnded (wk_id w) (work_number w) ok pool) ∧
    bchain UB bc' t' b' ∧ header_number (b_header b) ≤ header_number (b_header b') ∧
    (∀ n, 0 ≤ n ≤ header_number (b_header b) → canon t' n = canon t n) ∧ (ok = true ↔ commits w) ∧
    (if ok then wk_Block w = Some b' ∧ chained b' ws else b' = b).
Proof using HU.
  intros Hi (block & Eb & Hn & Hw & Hp & Hd & Hc). unfold write_head. cbn [Head HaveErr wpg_errored wpg_Pending head]. rewrite Eb. cbn [deref obind].
  destruct (write_child UB HU bc t b _ Hi Hw Hp Hd) as (status & err & bc' & t' & b' & E & Hi' & (Hle & Hcn & _) & Hv).
  cbn [w_block w_receipts w_state] in E, Hv. rewrite E. cbn [obind]. unfold commits. destruct (sw_CommitTo (wk_state w)) as [r|e|] eqn:Ec; [| |done].
  - destruct Hv as [-> ->]. rewrite WorkEnded_Ok by done. cbn [obind]. exists bc', t', block, true. split_and!; [done..| |done|done].
    split; [by eauto|done].
  - destruct Hv as [-> ->]. rewrite WorkEnded_Ok by done. cbn [obind]. exists bc', t', b, false. split_and!; [done..| |done].
    split; [done|intros [? [=]]].
Qed.

Lemma written_read bc t b w block :
  bchain UB bc t b → written t b w → wk_Block w = Some block →
  GetCanonicalHash (bc_chainDb bc) (header_number (b_header block)) = header_hash (b_header block).
Proof using HU.
  intros Hi Hw Eb. destruct (Hw block Eb) as [Hn Hc]. destruct (ub_stores UB HU b (bi_in _ _ _ _ Hi)) as (_ & (_ & [_ Hu] & _) & _).
  unfold bc_chainDb. rewrite (GetCanonicalHash_canon _ t) by (apply Hi || (split; lia)). done.
Qed.

(** The works of a queue up to the first that cannot be committed. *)
Lemma write_loop_good good bad late bc t b pool :
  bchain UB bc t b → chained b (good ++ bad) → Forall commits good → (∀ n, late n = false) →
  ∃ bc' t' b', bchain UB bc' t' b' ∧ chained b' bad ∧ b' = head_after b good ∧
    header_number (b_header b) ≤ header_number (b_header b') ∧
    (∀ n, 0 ≤ n ≤ header_number (b_header b) → canon t' n = canon t n) ∧ Forall (written t' b') good ∧
    ∀ k, write_loop (length good + k) late (MkWorkPending false (good ++ bad)) bc pool =
         write_loop k late (MkWorkPending false bad) bc' (end_works true good pool).
Proof using HU.
  intros Hi Hc Hg Hl. revert bc t b pool Hi Hc. induction Hg as [|w good Hw _ IH]; intros bc t b pool Hi Hc.
  { exists bc, t, b. split_and!; [done|done|done|lia|done|done|done]. }
  cbn [app] in Hc |- *. destruct (write_head_step bc t b w (good ++ bad) pool Hi Hc) as (bc1 & t1 & b1 & ok & E & Hi1 & Hle1 & Hc1 & Hok & Hb1).
  rewrite (proj2 Hok Hw) in *. destruct Hb1 as [Eb1 Hch1].
  destruct (IH bc1 t1 b1 (WorkEnded (wk_id w) (work_number w) true pool) Hi1 Hch1) as (bc' & t' & b' & Hi' & Hch' & -> & Hle' & Hc' & Hwr & Hrun).
  exists bc', t', (head_after b1 good). pose proof (current_known UB HU bc1 t1 b1 Hi1) as [Hb10 _]. split_and!; [done|done| |lia| | |].
  - unfold head_after. cbn [foldl]. by rewrite Eb1.
  - intros n Hn. rewrite Hc' by lia. by apply Hc1.
  - constructor; [|done]. intros block. rewrite Eb1. intros [= <-]. split; [lia|]. rewrite Hc' by lia. apply (bi_head _ _ _ _ Hi1).
  - intros k. cbn [length Nat.add write_loop]. cbn [HaveErr wpg_errored Empty wpg_Pending length Nat.eqb orb]. rewrite Hl, E. cbn [obind negb]. apply Hrun.
Qed.

(** C32: The queue of confirmed works is written in order.  When the works carry a
    chain of blocks of positive difficulty on the head and the round is not cut short
    by its limit of two seconds, one round of Run makes the blocks of all works up
    to the first that cannot be committed canonical, the last of them is the head,
    and the pool is told that they ended well.  The first work that fails and, in
    the next round, all works behind it are given back to the pool; none of them
    is written. *)
Theorem queue_is_written_in_order good bad late bc t b pool :
  bchain UB bc t b → chained b (good ++ bad) → Forall commits good → (∀ w, head bad = Some w → ¬ commits w) → (∀ n, late n = false) →
  ∃ bc' pool', Run_tick late (MkWorkPending false (good ++ bad)) bc pool = Ok (MkWorkPending (negb (length bad =? 0)%nat) (tail bad), bc', pool') ∧
    bc_currentBlock bc' = Some (head_after b good) ∧
    (∀ w block, w ∈ good → wk_Block w = Some block →
       GetCanonicalHash (bc_chainDb bc') (header_number (b_header block)) = header_hash (b_header block)) ∧
    pool' = end_works false (take 1 bad) (end_works true good pool) ∧
    (bad ≠ [] → Run_tick late (MkWorkPending true (tail bad)) bc' pool' = Ok (MkWorkPending true [], bc', end_works false (tail bad) pool')).
Proof using HU.
  intros Hi Hc Hg Hbad Hl. destruct (write_loop_good good bad late bc t b pool Hi Hc Hg Hl) as (bc1 & t1 & b1 & Hi1 & Hc1 & -> & _ & _ & Hwr & Hrun).
  unfold Run_tick at 1. cbn [HaveErr wpg_errored obind wpg_Pending]. rewrite length_app, Hrun. destruct bad as [|w rest].
  { exists bc1, (end_works true good pool). split_and!; [done|apply Hi1| |done|done]. intros w block Hw Eb.
    by apply (written_read bc1 t1 _ w block Hi1); [rewrite Forall_forall in Hwr; apply Hwr|]. }
  cbn [length write_loop]. cbn [HaveErr wpg_errored Empty wpg_Pending length Nat.eqb orb]. rewrite Hl.
  destruct (write_head_step bc1 t1 _ w rest (end_works true good pool) Hi1 Hc1) as (bc2 & t2 & b2 & ok & -> & Hi2 & _ & Hcn & Hok & Hb2). cbn [obind].
  assert (ok = false) as -> by (destruct ok; [by destruct (Hbad w eq_refl (proj1 Hok eq_refl))|done]). subst b2. cbn [negb].
  exists bc2. eexists. split; [by destruct (length rest)|]. split; [apply Hi2|]. split; [|split; [done|]].
  - intros w' block Hw Eb. apply (written_read bc2 t2 _ w' block Hi2); [|done]. rewrite Forall_forall in Hwr. intros bl Ebl.
    destruct (Hwr w' Hw bl Ebl) as [Hn Hcan]. split; [done|]. by rewrite Hcn.
  - intros _. destruct Hc1 as (block & _ & _ & _ & _ & _ & Hc1). unfold Run_tick. cbn [HaveErr wpg_errored wpg_Pending tail].
    rewrite (give_back_Ok block) by done. done.
Qed.

(** ** Works that are dropped *)

Lemma return_all_onChain (n : Z) (txs : list Transaction) pool :
  let pool' := foldl (return_tx true n) pool txs in
  pending pool' = pending pool ∧ (∀ tx, tx ∈ txs → onChain pool' !! txHash tx = Some n).
Proof using.
  assert (∀ txs pool x, onChain pool !! x = Some n → onChain (foldl (return_tx true n) pool txs) !! x = Some n) as Hkeep.
  { clear. induction txs as [|tx txs IH]; intros pool x Hx; [done|]. cbn. apply IH. cbn. apply lookup_insert_Some.
    destruct (decide (txHash tx = x)); [by left|by right]. }
  revert pool. induction txs as [|tx txs IH]; intros pool; cbn; [split; [done|intros tx Hin; by apply not_elem_of_nil in Hin]|].
  destruct (IH (return_tx true n pool tx)) as [E Hin]. split; [exact E|]. intros tx' [->|Hin']%elem_of_cons; [|by apply Hin].
  apply Hkeep. cbn. apply lookup_insert_eq.
Qed.

(** A work whose block the chain drops counts as written.  When the block of the
    next work is heavier than the head but no longer its child, because the head
    has changed since the work was made, the chain keeps its head and all its
    blocks, and yet the work ends well: the pool marks the transactions of the
    work as on the chain and does not offer them again. *)
Theorem dropped_work_counts_as_written late bc t b w block ptd localTd root entries (txs : list Transaction) pool :
  bchain UB bc t b → wk_Block w = Some block → is_Some (h_Number (wk_header w)) → late 0%nat = false →
  write_ok UB (MkWrite block (wk_receipts w) (wk_state w)) → sw_CommitTo (wk_state w) = Ok (root, entries) →
  GetTd (bc_chainDb bc) (h_ParentHash (b_header block)) (header_number (b_header block) - 1) = Some ptd →
  GetTd (bc_chainDb bc) (header_hash (b_header b)) (header_number (b_header b)) = Some localTd →
  localTd < difficulty (b_header block) + ptd → h_ParentHash (b_header block) ≠ header_hash (b_header b) →
  working pool !! wk_id w = Some txs →
  ∃ bc' pool', Run_tick late (MkWorkPending false [w]) bc pool = Ok (MkWorkPending false [], bc', pool') ∧
    bc_currentBlock bc' = Some b ∧
    (∀ h n, length h = 32%nat → uint64 n → GetBlock (bc_chainDb bc') h n = GetBlock (bc_chainDb bc) h n) ∧
    (∀ tx, tx ∈ txs → onChain pool' !! txHash tx = Some (work_number w)) ∧
    working pool' !! wk_id w = None ∧ pending pool' = pending pool.
Proof using HU.
  intros Hi Eb Hn Hl Hw Ec Ep El Hlt Hne Htx.
  destruct (write_dropped UB HU bc t b _ ptd localTd root entries Hi Hw Ec Ep El Hlt Hne) as (bc' & E & Ecur & _ & Hblocks).
  unfold Run_tick. cbn [HaveErr wpg_errored obind wpg_Pending length write_loop Empty Nat.eqb orb]. rewrite Hl. unfold write_head.
  cbn [Head HaveErr wpg_errored wpg_Pending head]. rewrite Eb. cbn [deref obind]. cbn [w_block w_receipts w_state] in E. rewrite E. cbn [obind].
  rewrite WorkEnded_Ok by done. cbn [obind pop snd wpg_errored wpg_Pending tail]. eexists bc', _. split; [done|]. split; [done|]. split; [done|].
  unfold WorkEnded. rewrite Htx. destruct (return_all_onChain (work_number w) txs pool) as [Epd Hon]. cbn. split; [done|]. split; [apply lookup_delete_eq|done].
Qed.
End Queue.
End WorkPending.

(** ** A queue of two works *)

Definition ex_state (fails : bool) : StateWrites :=
  MkStateWrites (if fails then Err ErrOther else Ok (emptyRoot, [(replicate 32 1, [7])])) [(replicate 32 2, [8])].

Definition ex_work (b : Block) (id : Z) (fails : bool) : Work :=
  MkWork (ex_state fails) (length (b_transactions b)) (Some b) (b_header b) (b_transactions b) [] [] id [].

Definition ex_B2 : Block := ex_block_of ex_b2 [ex_tx].
Definition ex_queue_blocks : list Block := [loaded_genesis ex_genesis; ex_B; ex_B2].

Lemma ex_queue_universe : block_universe (λ b, b ∈ ex_queue_blocks).
Proof.
  apply block_universe_of_list.
  - eapply universe_sub; [|exact ex_universe]. intros h Hh. unfold ex_queue_blocks in Hh. cbn in Hh. unfold ex_headers. set_solver.
  - eapply sublist_NoDup; [exact ex_headers_nodup|]. repeat constructor.
  - pose proof ex_headers_stores as H. repeat (apply Forall_cons in H as [? H]). repeat constructor; (done || by_decide || (vm_compute; done)).
  - repeat constructor; (done || (vm_compute; done)).
Qed.

Lemma ex_work_ok (bs : list Block) (b : Block) (fails : bool) :
  b ∈ bs → 0 < header_number (b_header b) → write_ok (λ b, b ∈ bs) (MkWrite b [] (ex_state fails)).
Proof.
  intros Hb Hn. split; [done|done|split; [constructor|by vm_compute]| |].
  - cbn. destruct fails; [done|by repeat constructor].
  - by repeat constructor.
Qed.

Lemma ex_chained : chained (λ b, b ∈ ex_queue_blocks) (loaded_genesis ex_genesis) ([ex_work ex_B 1 false] ++ [ex_work ex_B2 2 true]).
Proof.
  exists ex_B. split; [done|]. split; [by eexists|]. split; [apply ex_work_ok; [right; left|reflexivity]|].
  split; [apply (bool_decide_unpack _); vm_compute; exact I|]. split; [reflexivity|].
  exists ex_B2. split; [done|]. split; [by eexists|]. split; [apply ex_work_ok; [right; right; left|reflexivity]|].
  split; [apply (bool_decide_unpack _); vm_compute; exact I|]. split; [reflexivity|exact I].
Qed.

Definition ex_pool : TxPool Transaction := set_working {[1 := [ex_tx]]} NewTxPool.

Lemma queue_is_written_in_order_witness :
  ∃ bc bc' pool', Run_tick (λ _, false) (MkWorkPending false ([ex_work ex_B 1 false] ++ [ex_work ex_B2 2 true])) bc ex_pool =
      Ok (MkWorkPending true [], bc', pool') ∧
    bc_currentBlock bc' = Some ex_B.
Proof.
  destruct (Commit_spec [] ex_genesis ∅ _ represents_empty ex_genesis_ok) as (block & db & E & _ & Hr).
  destruct (genesis_chain ex_genesis ex_genesis_ok (λ b, b ∈ ex_queue_blocks) (list_elem_of_here _ _) db Hr) as (bc & E0 & Hi).
  destruct (queue_is_written_in_order _ ex_queue_universe [ex_work ex_B 1 false] [ex_work ex_B2 2 true] (λ _, false) bc _ _ ex_pool Hi ex_chained)
    as (bc' & pool' & Hrun & Hcur & _).
  - constructor; [by eexists|constructor].
  - intros w [= <-] [r [=]].
  - done.
  - exists bc, bc', pool'. split; [exact Hrun|exact Hcur].
Defined.

Lemma dropped_work_counts_as_written_witness :
  ∃ bc b bc' pool', Run_tick (λ _, false) (MkWorkPending false [ex_work ex_B 1 false]) bc ex_pool = Ok (MkWorkPending false [], bc', pool') ∧
    bc_currentBlock bc' = Some b ∧ b_header b = ex_a1 ∧ onChain pool' !! txHash ex_tx = Some 1.
Proof.
  destruct ex_chain_inv as (rs & bc & t & b & E & Hi). pose proof ex_chain_reads as H. rewrite E in H.
  destruct H as (_ & Hb & Hp & Hl & Hne). rewrite (bi_current _ _ _ _ Hi) in Hb. injection Hb as Hb.
  destruct (dropped_work_counts_as_written _ ex_block_universe (λ _, false) bc t b (ex_work ex_B 1 false) ex_B 10 15 emptyRoot [(replicate 32 1, [7])]
              [ex_tx] ex_pool Hi) as (bc' & pool' & Hrun & Hcur & _ & Hon & _).
  - reflexivity.
  - by eexists.
  - reflexivity.
  - apply ex_work_ok; [exact ex_B_in|reflexivity].
  - reflexivity.
  - exact Hp.
  - rewrite Hb. exact Hl.
  - reflexivity.
  - rewrite Hb. exact (bool_decide_eq_false_1 _ Hne).
  - reflexivity.
  - exists bc, b, bc', pool'. split; [exact Hrun|]. split; [exact Hcur|]. split; [exact Hb|]. exact (Hon ex_tx (list_elem_of_here _ _)).
Defined.
