(* ===== verification/Worker.v ===== *)
(** * The worker (worker/worker_mine.go, worker_verify.go, worker.go, commitTx.go)

    The worker makes works from pending transactions, broadcasts their proofs,
    collects the answers, and checks the proofs of other miners.  It shares the
    database with the chain.  Works are pointers into [wr_works]. *)

From S2P Require Import Prelude RlpSpec RlpRaw RlpEncode RlpStream RlpRoundtrip TrieNode Trie TrieMap Sha256 Merkletree Types SecureTrie TxPool Lru Arc ChainDb HeaderChain BlockChain Prometheus Unconfirmed WorkPending.
Local Open Scope Z_scope.

Inductive RoundState := IDLE | PostMining | Mining.

Inductive worker_error :=
| ErrStateAt
| ErrGenerateProof (e : engine_error)
| ErrSignProof (e : engine_error)
| ErrMakeBlock (e : engine_error)
| ErrRollback
| ErrNotConfirmed.

Definition blockMaxTxs : nat := Z.to_nat 50000.
Definition minTxsToMine : Z := 100000.
Definition MinerNumber : Z := 8.

(** What the worker posts on its event mux. *)
Inductive event :=
| RoutWorkProofEvent (m : WorkProofMsg)
| RoutConfirmEvent (m : ConfirmMsg)
| RoutQueryStateEvent (m : QueryStateMsg)
| RoutResponseStateEvent (m : ResponseStateMsg).

Section Worker.
Context {KC : Keccak} {SH : Sha3Sum} {EC : Secp256k1}.

(** peerLockMap holds channels, [None] for a nil channel. *)
Record worker := MkWorker {
  wr_engine : Prometheus;
  wr_chain : BlockChain;
  wr_txpool : TxPool Transaction;
  wr_coinbase : bytes;
  wr_extra : bytes;
  wr_mining : bool;
  wr_roundState : RoundState;
  wr_works : list Work;
  wr_current : option nat;
  wr_unconfirm_mine : unconfirmedProofs;
  wr_workPending : WorkPending;
  wr_txConfirmPool : gmap bytes Z;
  wr_history : LRU unit;
  wr_handleLocalProof : LRU unit;
  wr_queryCache : LRU QueryStateMsg;
  wr_peerLockMap : gmap bytes (option nat);
  wr_posted : list event
}.

Implicit Types (wr : worker) (header parent : Header) (now : Z).

Definition wr_chainDb wr : gmap bytes bytes := bc_chainDb (wr_chain wr).

(** Updates of the fields. *)
Definition wr_set_chain x wr := MkWorker (wr_engine wr) x (wr_txpool wr) (wr_coinbase wr) (wr_extra wr) (wr_mining wr) (wr_roundState wr)
  (wr_works wr) (wr_current wr) (wr_unconfirm_mine wr) (wr_workPending wr) (wr_txConfirmPool wr) (wr_history wr) (wr_handleLocalProof wr)
  (wr_queryCache wr) (wr_peerLockMap wr) (wr_posted wr).
Definition wr_set_txpool x wr := MkWorker (wr_engine wr) (wr_chain wr) x (wr_coinbase wr) (wr_extra wr) (wr_mining wr) (wr_roundState wr)
  (wr_works wr) (wr_current wr) (wr_unconfirm_mine wr) (wr_workPending wr) (wr_txConfirmPool wr) (wr_history wr) (wr_handleLocalProof wr)
  (wr_queryCache wr) (wr_peerLockMap wr) (wr_posted wr).
Definition setRoundState x wr := MkWorker (wr_engine wr) (wr_chain wr) (wr_txpool wr) (wr_coinbase wr) (wr_extra wr) (wr_mining wr) x
  (wr_works wr) (wr_current wr) (wr_unconfirm_mine wr) (wr_workPending wr) (wr_txConfirmPool wr) (wr_history wr) (wr_handleLocalProof wr)
  (wr_queryCache wr) (wr_peerLockMap wr) (wr_posted wr).
Definition wr_set_works ws cur wr := MkWorker (wr_engine wr) (wr_chain wr) (wr_txpool wr) (wr_coinbase wr) (wr_extra wr) (wr_mining wr) (wr_roundState wr)
  ws cur (wr_unconfirm_mine wr) (wr_workPending wr) (wr_txConfirmPool wr) (wr_history wr) (wr_handleLocalProof wr)
  (wr_queryCache wr) (wr_peerLockMap wr) (wr_posted wr).
Definition wr_set_unconfirmed x wr := MkWorker (wr_engine wr) (wr_chain wr) (wr_txpool wr) (wr_coinbase wr) (wr_extra wr) (wr_mining wr) (wr_roundState wr)
  (wr_works wr) (wr_current wr) x (wr_workPending wr) (wr_txConfirmPool wr) (wr_history wr) (wr_handleLocalProof wr)
  (wr_queryCache wr) (wr_peerLockMap wr) (wr_posted wr).
Definition wr_set_workPending x wr := MkWorker (wr_engine wr) (wr_chain wr) (wr_txpool wr) (wr_coinbase wr) (wr_extra wr) (wr_mining wr) (wr_roundState wr)
  (wr_works wr) (wr_current wr) (wr_unconfirm_mine wr) x (wr_txConfirmPool wr) (wr_history wr) (wr_handleLocalProof wr)
  (wr_queryCache wr) (wr_peerLockMap wr) (wr_posted wr).
Definition wr_set_txConfirmPool x wr := MkWorker (wr_engine wr) (wr_chain wr) (wr_txpool wr) (wr_coinbase wr) (wr_extra wr) (wr_mining wr) (wr_roundState wr)
  (wr_works wr) (wr_current wr) (wr_unconfirm_mine wr) (wr_workPending wr) x (wr_history wr) (wr_handleLocalProof wr)
  (wr_queryCache wr) (wr_peerLockMap wr) (wr_posted wr).
Definition wr_set_caches history localProof query locks wr := MkWorker (wr_engine wr) (wr_chain wr) (wr_txpool wr) (wr_coinbase wr) (wr_extra wr) (wr_mining wr) (wr_roundState wr)
  (wr_works wr) (wr_current wr) (wr_unconfirm_mine wr) (wr_workPending wr) (wr_txConfirmPool wr) history localProof query locks (wr_posted wr).
(** mux.Post *)
Definition Post (e : event) wr := MkWorker (wr_engine wr) (wr_chain wr) (wr_txpool wr) (wr_coinbase wr) (wr_extra wr) (wr_mining wr) (wr_roundState wr)
  (wr_works wr) (wr_current wr) (wr_unconfirm_mine wr) (wr_workPending wr) (wr_txConfirmPool wr) (wr_history wr) (wr_handleLocalProof wr)
  (wr_queryCache wr) (wr_peerLockMap wr) (wr_posted wr ++ [e]).

Definition wr_set_history x wr := wr_set_caches x (wr_handleLocalProof wr) (wr_queryCache wr) (wr_peerLockMap wr) wr.
Definition wr_set_localProof x wr := wr_set_caches (wr_history wr) x (wr_queryCache wr) (wr_peerLockMap wr) wr.
Definition wr_set_query x locks wr := wr_set_caches (wr_history wr) (wr_handleLocalProof wr) x locks wr.

(** ** Making a work (commitTx.go, makeCurrent) *)

(** commitTransactions: the transactions that can be applied and their receipts.
    A failed one is skipped. *)
Fixpoint commitTransactions (txs : list Transaction) : bc_out (list Transaction * list Receipt) :=
  match txs with
  | [] => Ok ([], [])
  | tx :: rest =>
      match ApplyTransaction tx with
      | Ok r => let* (txs, rs) := commitTransactions rest in Ok (tx :: txs, r :: rs)
      | Err _ => commitTransactions rest
      | Panic => Panic
      end
  end.

(** The header of a new block before it is prepared. *)
Definition new_header wr parent : bc_out Header :=
  let* num := deref (h_Number parent) in
  let* hash := lift_bc (Header_Hash parent) in
  Ok (MkHeader hash (wr_coinbase wr) zero_hash32 zero_hash32 zero_hash32 zero_hash32 zero_hash32 None (Some (num + 1)) None (wr_extra wr)).

(** The proof states of the miners that are connected, as far as they are known. *)
Definition peer_states (peers : list bytes) wr : list ProofState := omap (GetPeerProof (wr_chainDb wr)) peers.

(** StateAt(parent.Root) gives the state of the work, or an error. *)
Definition makeCurrent (id : Z) (peers : list bytes) (stateAt : bytes → option StateWrites) parent header wr : option worker_error * worker :=
  match stateAt (h_Root parent) with
  | None => (Some ErrStateAt, wr)
  | Some state =>
      let work := MkWork state 0 None header [] [] (peer_states peers wr) id [] in
      (None, wr_set_works (wr_works wr ++ [work]) (Some (length (wr_works wr))) wr)
  end.

Definition with_commits (txs : list Transaction) (receipts : list Receipt) (w : Work) : Work :=
  MkWork (wk_state w) (length txs) (wk_Block w) (wk_header w) txs receipts (wk_states w) (wk_id w) (wk_genCh w).
Definition with_header header (w : Work) : Work :=
  MkWork (wk_state w) (wk_tcount w) (wk_Block w) header (wk_txs w) (wk_receipts w) (wk_states w) (wk_id w) (wk_genCh w).
Definition with_result (block : option Block) (err : option engine_error) (w : Work) : Work :=
  MkWork (wk_state w) (wk_tcount w) (match err with None => block | Some _ => wk_Block w end) (wk_header w) (wk_txs w) (wk_receipts w)
    (wk_states w) (wk_id w) (wk_genCh w ++ [err]).

Definition update_work (ptr : nat) (f : Work → Work) wr : worker :=
  wr_set_works (alter f ptr (wr_works wr)) (wr_current wr) wr.

Definition CurrentHeader wr : option Header := hc_currentHeader (bc_hc (wr_chain wr)).

(** ** A round of mining *)

(** What the clock, the network and the pool's map give a round: the time in
    milliseconds and in seconds, an identifier, whether this is a boot node, the
    miners that are connected, the states of roots, and the order of Range. *)
Record round_env := MkEnv {
  re_now : Z;
  re_seconds : Z;
  re_id : Z;
  re_bootNode : bool;
  re_peers : list bytes;
  re_stateAt : bytes → option StateWrites;
  re_order : list bytes
}.

(** NewMineRound from the point where the work has its transactions. *)
Definition broadcast_proof (env : round_env) (ptr : nat) parent wr : bc_out (option worker_error * worker) :=
  let* work := deref (wr_works wr !! ptr) in
  match GenerateProof (wk_header work) (Some parent) (wk_txs work) (wk_states work) (wr_engine wr) with
  | Panic => Panic
  | Err e => Ok (Some (ErrGenerateProof e), wr)
  | Ok (proof, header) =>
      let wr := update_work ptr (with_header header) wr in
      match SignData (WorkProof_Data proof) (wr_engine wr) with
      | Panic => Panic
      | Err e => Ok (Some (ErrSignProof e), wr)
      | Ok sign =>
          let wr := Post (RoutWorkProofEvent (MkWorkProofMsg proof sign)) wr in
          let wr := wr_set_localProof (lru_Add (sign_Hash (wp_Sign proof)) tt (wr_handleLocalProof wr)).2 wr in
          let u := Insert (sign_Hash (wp_Sign proof)) ptr (MinerNumber / 2 + 1 - 1) (re_seconds env) (wr_unconfirm_mine wr) in
          Ok (None, wr_set_unconfirmed u wr)
      end
  end.

Definition NewMineRound (env : round_env) (parent : option Header) wr : bc_out (option worker_error * worker) :=
  if re_bootNode env then Ok (None, wr)
  else
    let* parent := deref (match parent with Some p => Some p | None => CurrentHeader wr end) in
    let* header := new_header wr parent in
    let header := PrepareBlockHeader (re_now env) header in
    let ptr := length (wr_works wr) in
    match makeCurrent (re_id env) (re_peers env) (re_stateAt env) parent header wr with
    | (Some e, wr) => Ok (Some e, wr)
    | (None, wr) =>
        let '(pended, pool) := Pending (re_order env) (re_id env) blockMaxTxs (wr_txpool wr) in
        let wr := wr_set_txpool pool wr in
        let* (txs, receipts) := commitTransactions pended in
        broadcast_proof env ptr parent (update_work ptr (with_commits txs receipts) wr)
    end.

(** The goroutine that makes the block of a work, [now] being its time. *)
Definition make_block now (ptr : nat) wr : bc_out worker :=
  let* work := deref (wr_works wr !! ptr) in
  match Finalize (wk_header work) (wk_txs work) (wk_states work) (wk_receipts work) with
  | Panic => Panic
  | Err e => Ok (update_work ptr (with_result None (Some e)) wr)
  | Ok block =>
      match GenBlockWithSig now block (wr_engine wr) with
      | Panic => Panic
      | Err e => Ok (update_work ptr (with_result None (Some e)) wr)
      | Ok result => Ok (update_work ptr (with_result (Some result) None) wr)
      end
  end.

(** work.WorkEnded(false) of a work that did not make it. *)
Definition work_failed (work : Work) (e : worker_error) wr : bc_out (option (option worker_error * worker)) :=
  let* pool := Work_WorkEnded false work (wr_txpool wr) in
  Ok (Some (Some e, wr_set_txpool pool wr)).

(** The work after a value was received from genCh. *)
Definition with_genCh (ch : list (option engine_error)) (w : Work) : Work :=
  MkWork (wk_state w) (wk_tcount w) (wk_Block w) (wk_header w) (wk_txs w) (wk_receipts w) (wk_states w) (wk_id w) ch.

(** FinalMine; [None] when it blocks on an empty genCh. *)
Definition FinalMine (ptr : nat) wr : bc_out (option (option worker_error * worker)) :=
  let* work := deref (wr_works wr !! ptr) in
  if bool_decide (up_works (wr_unconfirm_mine wr) !! ptr = Some true) then
    match wk_genCh work with
    | [] => Ok None
    | err :: rest =>
        let work := with_genCh rest work in
        let wr := update_work ptr (λ _, work) wr in
        match err with
        | Some e => work_failed work (ErrMakeBlock e) wr
        | None =>
            let* block := deref (wk_Block work) in
            let wr := wr_set_history (lru_Add (h_ProofHash (b_header block)) tt (wr_history wr)).2 wr in
            let '(ok, p) := Add work (wr_workPending wr) in
            if ok then Ok (Some (None, wr_set_workPending p wr)) else work_failed work ErrRollback wr
        end
    end
  else work_failed work ErrNotConfirmed wr.

(** CheckNeedStartMine; [period] is blockPeorid in seconds. *)
Definition CheckNeedStartMine now (period : Z) (order : list bytes) wr : bc_out (option Header * worker) :=
  if HaveErr (wr_workPending wr) && negb (Empty (wr_workPending wr)) then Ok (None, wr)
  else
    let wr := if HaveErr (wr_workPending wr) then wr_set_workPending (SetNoError (wr_workPending wr)) wr else wr in
    let* head := match Top (wr_workPending wr) with
                 | Some w => let* block := deref (wk_Block w) in Ok (CopyHeader (b_header block))
                 | None => deref (CurrentHeader wr)
                 end in
    let* time := deref (h_Time head) in
    let delta := to_int (wrap 64 (now - to_int (wrap 64 time))) in
    if (period * 1000 <=? delta) || ((minTxsToMine <=? Z.of_nat (length (Pended order (wr_txpool wr)))) && (20 <? delta))
    then Ok (Some head, wr) else Ok (None, wr).

(** The goroutine that starts rounds: the tick of its timer gives the header for
    newRoundCh, and receiving that header runs the round. *)
Definition round_tick now (period : Z) (order : list bytes) wr : bc_out (option Header * worker) :=
  match wr_roundState wr with
  | IDLE =>
      let* (h, wr) := CheckNeedStartMine now period order wr in
      match h with
      | Some h => Ok (Some h, setRoundState PostMining wr)
      | None => Ok (None, wr)
      end
  | _ => Ok (None, wr)
  end.

Definition start_round (env : round_env) (lastHeader : Header) wr : bc_out worker :=
  let wr := setRoundState Mining wr in
  let* (err, wr) := NewMineRound env (Some lastHeader) wr in
  Ok (match err with Some _ => setRoundState IDLE wr | None => setRoundState Mining wr end).

(** A work from confirmCh: the round is over. *)
Definition finish_round (ptr : nat) wr : bc_out (option worker) :=
  let* r := FinalMine ptr wr in
  Ok (match r with Some (_, wr) => Some (setRoundState IDLE wr) | None => None end).

(** ** Answers to proofs *)

Definition dealConfirm (ev : ConfirmMsg) (sender : bytes) wr : worker :=
  let sig := sign_Hash (pc_Signature (cfm_Confirm ev)) in
  let '(known, cache) := lru_Get sig (wr_handleLocalProof wr) in
  let wr := wr_set_localProof cache wr in
  match known with
  | Some _ => wr_set_unconfirmed (Confirm sig sender (pc_Confirm (cfm_Confirm ev)) (wr_unconfirm_mine wr)) wr
  | None => wr
  end.

(** RoutineMine on a ConfirmMsg: the sender is recovered from the signature. *)
Definition on_ConfirmMsg (ev : ConfirmMsg) wr : bc_out worker :=
  match RecoverSender (ProofConfirm_Data (cfm_Confirm ev)) (cfm_Sign ev) with
  | Panic => Panic
  | Err _ => Ok wr
  | Ok sender => Ok (if bool_decide (sender = wr_coinbase wr) then wr else dealConfirm ev sender wr)
  end.

(** ** Proofs of other miners *)

(** Sign the answer and post it. *)
Definition post_confirm (signature : bytes) (confirm : bool) wr : bc_out (bool * worker) :=
  let pc := MkProofConfirm signature confirm in
  match SignData (ProofConfirm_Data pc) (wr_engine wr) with
  | Panic => Panic
  | Err _ => Ok (false, wr)
  | Ok s => Ok (true, Post (RoutConfirmEvent (MkConfirmMsg pc s)) wr)
  end.

Definition WritePeer (sender : bytes) (ps : ProofState) wr : worker :=
  wr_set_chain (bc_set_db (WritePeerProof sender ps (wr_chainDb wr)) (wr_chain wr)) wr.

(** queryRemoteState: the query is signed, remembered and posted, then the
    goroutine waits.  [wait] is what happens meanwhile: the worker after it, and
    whether the channel of the miner was signalled; it is not if that channel is
    nil. *)
Definition queryRemoteState (wait : worker → bool * worker) (miner : bytes) (number : Z) wr : bc_out (bool * worker) :=
  let qs := MkQueryState miner number in
  match SignData (QueryState_Data qs) (wr_engine wr) with
  | Panic => Panic
  | Err _ => Ok (false, wr)
  | Ok sign =>
      let msg := MkQueryStateMsg qs sign in
      let wr := Post (RoutQueryStateEvent msg) (wr_set_query (lru_Add miner msg (wr_queryCache wr)).2 (wr_peerLockMap wr) wr) in
      let '(lock, locks) := match wr_peerLockMap wr !! miner with
                            | Some l => (l, wr_peerLockMap wr)
                            | None => (Some O, <[miner := Some O]> (wr_peerLockMap wr))
                            end in
      let wr := wr_set_query (wr_queryCache wr) locks wr in
      let '(signalled, wr) := wait wr in
      match lock with
      | Some _ => if signalled then Ok (true, wr) else Ok (false, wr_set_query (wr_queryCache wr) (<[miner := None]> (wr_peerLockMap wr)) wr)
      | None => Ok (false, wr_set_query (wr_queryCache wr) (<[miner := None]> (wr_peerLockMap wr)) wr)
      end
  end.

(** The loop of dealProofEvent: the verdict on the proof, [None] when a negative
    answer was already posted.  [waits] are the waits of the queries. *)
Fixpoint verify_loop (rounds : nat) (waits : nat → worker → bool * worker) (proof : WorkProof) (sender : bytes) (peer : ProofState) wr
    : bc_out (option bool * worker) :=
  match rounds with
  | O => Err ErrOther
  | S r =>
      let evnum := wrap 64 (Z.abs (wp_Number proof)) in
      match VerifyProof sender (ps_Root peer) proof with
      | Panic => Panic
      | Ok newroot => Ok (Some true, WritePeer sender (MkProofState sender newroot evnum) wr)
      | Err _ =>
          if wrap 64 (ps_Num peer + 1) =? evnum then
            let* (_, wr) := post_confirm (wp_Sign proof) false wr in
            Ok (None, wr)
          else
            let* (ok, wr) := queryRemoteState (waits r) sender (to_int (wrap 64 (evnum - 1))) wr in
            if ok : bool then
              let* peer := deref (GetPeerProof (wr_chainDb wr) sender) in
              verify_loop r waits proof sender peer wr
            else Ok (Some false, wr)
      end
  end.

(** The count of confirmations of the transactions of an accepted proof. *)
Fixpoint count_txs (txs : list Transaction) (m : gmap bytes Z) : bc_out (gmap bytes Z) :=
  match txs with
  | [] => Ok m
  | tx :: txs =>
      let* (h, _) := lift_bc (Transaction_Hash tx) in
      count_txs txs (<[h := match m !! h with Some v => wrap 64 (v + 1) | None => 1 end]> m)
  end.

(** The roots this node has been at. *)
Definition pastLocalRoot wr : list bytes :=
  lru_Keys (wr_history wr) ++
  (if wr_mining wr then match wr_current wr ≫= (λ p, wr_works wr !! p) with Some w => [h_ProofHash (wk_header w)] | None => [] end else []).

(** The last part of dealProofEvent: the answer, the pool and the counts. *)
Definition accept_proof (starts : list nat) (proof : WorkProof) (confirm : bool) wr : bc_out worker :=
  let* (posted, wr) := post_confirm (wp_Sign proof) confirm wr in
  if negb posted || negb confirm then Ok wr
  else
    let wr := wr_set_txpool (AddTxs starts (wp_Txs proof) (wr_txpool wr)) wr in
    let* m := count_txs (wp_Txs proof) (wr_txConfirmPool wr) in
    Ok (wr_set_txConfirmPool m wr).

(** dealProofEvent; [starts] are the lanes AddTxs begins with. *)
Definition dealProofEvent (rounds : nat) (waits : nat → worker → bool * worker) (starts : list nat) (ev : WorkProofMsg) (sender : bytes) wr
    : bc_out worker :=
  let proof := wpm_Proof ev in
  if bool_decide (sender = wr_coinbase wr) then Ok wr
  else if negb (VerifyState (wr_coinbase wr) (pastLocalRoot wr) proof) then
    let* (_, wr) := post_confirm (wp_Sign proof) false wr in Ok wr
  else
    let evnum := wrap 64 (Z.abs (wp_Number proof)) in
    let* (start, wr) :=
      match GetPeerProof (wr_chainDb wr) sender with
      | Some ps => Ok (Some ps, wr)
      | None =>
          if evnum =? 1 then
            let '(genesis, hc) := hc_GetHeaderByNumber 0 (bc_hc (wr_chain wr)) in
            let wr := wr_set_chain (bc_set_hc hc (wr_chain wr)) wr in
            let* genesis := deref genesis in
            Ok (Some (MkProofState sender (h_ProofHash genesis) 0), wr)
          else
            let* (ok, wr) := queryRemoteState (waits rounds) sender (wp_Number proof - 1) wr in
            if ok : bool then let* ps := deref (GetPeerProof (wr_chainDb wr) sender) in Ok (Some ps, wr)
            else let* (_, wr) := post_confirm (wp_Sign proof) false wr in Ok (None, wr)
      end in
    match start with
    | None => Ok wr
    | Some peer =>
        let* (verdict, wr) := verify_loop rounds waits proof sender peer wr in
        match verdict with
        | None => Ok wr
        | Some confirm => accept_proof starts proof confirm wr
        end
    end.

(** ** Queries for proof states *)

Definition dealQueryState (ev : QueryStateMsg) (sender : bytes) wr : bc_out worker :=
  let qs := qsm_Qs ev in
  let number := wrap 64 (Z.abs (qs_Number qs)) in
  let '(root, wr) :=
    if negb (bool_decide (qs_Miner qs = wr_coinbase wr)) then
      (match GetPeerProof (wr_chainDb wr) (qs_Miner qs) with
       | Some ps => if ps_Num ps =? number then Some (ps_Root ps) else None
       | None => None
       end, wr)
    else
      let '(h, hc) := hc_GetHeaderByNumber number (bc_hc (wr_chain wr)) in
      (h_ProofHash <$> h, wr_set_chain (bc_set_hc hc (wr_chain wr)) wr) in
  match root with
  | None => Ok wr
  | Some root =>
      let rs := MkResponseState (qs_Number qs) root sender in
      match SignData (ResponseState_Data rs) (wr_engine wr) with
      | Panic => Panic
      | Err _ => Ok wr
      | Ok s => Ok (Post (RoutResponseStateEvent (MkResponseStateMsg rs s)) wr)
      end
  end.

(** dealResponseState: the worker and whether it goes on to signal the channel of
    the sender, which blocks until a query waits on it. *)
Definition dealResponseState (ev : ResponseStateMsg) (sender : bytes) wr : bool * worker :=
  let rs := rsm_Rs ev in
  if negb (bool_decide (rs_Querier rs = wr_coinbase wr)) then (false, wr)
  else
    let '(q, cache) := lru_Get sender (wr_queryCache wr) in
    let wr := wr_set_query cache (wr_peerLockMap wr) wr in
    match q with
    | None => (false, wr)
    | Some qs =>
        let number := wrap 64 (Z.abs (rs_Number rs)) in
        if negb (number =? wrap 64 (Z.abs (qs_Number (qsm_Qs qs)))) then (false, wr)
        else
          let wr := WritePeer sender (MkProofState sender (rs_Root rs) number) wr in
          (match wr_peerLockMap wr !! sender with Some (Some _) => true | _ => false end, wr)
    end.

(** ** Confirmation counts of receipts *)

(** The receipts with the counts of the pool, the pool without them, and their
    number. *)
Fixpoint add_counts (receipts : list Receipt) (m : gmap bytes Z) (cnt : nat) : list Receipt * gmap bytes Z * nat :=
  match receipts with
  | [] => ([], m, cnt)
  | r :: rest =>
      match m !! r_TxHash r with
      | Some confirm =>
          let '(rs, m, cnt) := add_counts rest (base.delete (r_TxHash r) m) (S cnt) in
          (MkReceipt (r_Status r) (wrap 64 (r_ConfirmCount r + confirm)) (r_TxHash r) :: rs, m, cnt)
      | None =>
          let '(rs, m, cnt) := add_counts rest m cnt in
          (r :: rs, m, cnt)
      end
  end.

(** The loop of updateTxConfirm over the keys in the order of the map; a key that
    was deleted meanwhile is not visited.  The batch is written at the end. *)
Fixpoint update_loop (db : gmap bytes bytes) (order : list bytes) (m : gmap bytes Z) (batch : gmap bytes bytes) (cnt : nat)
    : bc_out (gmap bytes Z * gmap bytes bytes * nat) :=
  match order with
  | [] => Ok (m, batch, cnt)
  | hash :: order =>
      match m !! hash with
      | None => update_loop db order m batch cnt
      | Some _ =>
          let* (m, batch, cnt) :=
            match GetBlockReceiptsByTx db hash with
            | Some (receipts, blockHash, blockNumber) =>
                let '(rs, m, cnt) := add_counts receipts m cnt in
                match WriteBlockReceipts blockHash blockNumber rs batch with
                | Ok batch => Ok (m, batch, cnt)
                | Err _ => Ok (m, batch, cnt)
                | Panic => Panic
                end
            | None => Ok (m, batch, cnt)
            end in
          if (Z.to_nat 10000 <? cnt)%nat then Ok (m, batch, cnt) else update_loop db order m batch cnt
      end
  end.

Definition updateTxConfirm (order : list bytes) wr : bc_out worker :=
  let* (m, batch, cnt) := update_loop (wr_chainDb wr) order (wr_txConfirmPool wr) ∅ O in
  let wr := wr_set_txConfirmPool m wr in
  Ok (if (0 <? cnt)%nat then wr_set_chain (bc_set_db (batch_Write batch (wr_chainDb wr)) (wr_chain wr)) wr else wr).
End Worker.
