(* ===== verification/WorkerSafe.v ===== *)
(** * What miners and verifiers guarantee each other

    A block that the worker mines passes the checks of the engine and its proof
    those of the peers; a verifier follows an honest miner without ever asking;
    and the loop that asks a miner for its state ends after one answer. *)

From S2P Require Import Prelude RlpSpec RlpRaw RlpEncode RlpStream RlpRoundtrip TrieNode Trie TrieMap Sha256 Merkletree Types SecureTrie TxPool Lru Arc ChainDb ChainTables HeaderChain BlockChain Prometheus PrometheusSafe Unconfirmed WorkPending Worker.
Local Open Scope Z_scope.

Section Safe.
Context {KC : Keccak} {SH : Sha3Sum} {EC : Secp256k1}.
Implicit Types (wr : worker) (header parent : Header) (addr root : bytes).

(** ** Records of peers *)

Lemma proof_fits p : proof_ok p → fits64 (length (proof_enc p)).
Proof.
  intros ((Ha & _) & (Hr & _) & Hn). unfold proof_enc. set (l := concat _).
  assert (length l ≤ 63)%nat as Hl.
  { unfold l. cbn [concat]. rewrite !length_app. cbn [length]. pose proof (short_length (ps_Addr p) ltac:(lia)).
    pose proof (short_length (ps_Root p) ltac:(lia)). pose proof (uint64_length (ps_Num p) Hn). lia. }
  pose proof (enc_list_upper l) as H. unfold fits64 in *. lia.
Qed.

(** A record that is written is read back. *)
Lemma GetPeerProof_written addr p db : proof_ok p → GetPeerProof (WritePeerProof addr p db) addr = Some p.
Proof.
  intros Hp. pose proof (proof_fits p Hp) as Hf. unfold WritePeerProof, GetPeerProof.
  rewrite (proj1 (encodes (proof_gval p) (proof_enc p) [] (typed_ok _ _ (proof_typed p Hp)) (proof_gval_enc p) Hf)).
  unfold db_get. rewrite lookup_insert_eq. cbn [default from_option id].
  pose proof (decodes proof_ty _ _ I eq_refl (proof_typed p Hp) (proof_gval_enc p) Hf) as HD.
  destruct (proof_enc p) eqn:E; [|rewrite HD; by destruct p].
  exfalso. unfold proof_enc, enc_list, RlpSpec.header in E. by case_match.
Qed.

Lemma WritePeer_read addr p wr : proof_ok p → GetPeerProof (wr_chainDb (WritePeer addr p wr)) addr = Some p.
Proof. apply GetPeerProof_written. Qed.

(** ** Following a miner *)

(** The proofs of a miner after its proof number [k] with the hash [root]: they
    are numbered from [k + 1] on, and each is accepted on top of the one before. *)
Inductive follows addr : bytes → Z → list WorkProof → bytes → Prop :=
| follows_nil root k : follows addr root k [] root
| follows_cons root k proof new proofs final :
    wp_Number proof = k + 1 → VerifyProof addr root proof = Ok new →
    follows addr new (k + 1) proofs final → follows addr root k (proof :: proofs) final.

(** What a verifier knows of a miner: a record, or nothing and then the genesis
    header. *)
Definition knows wr addr root (k : Z) : Prop :=
  GetPeerProof (wr_chainDb wr) addr = Some (MkProofState addr root k) ∨
  (GetPeerProof (wr_chainDb wr) addr = None ∧ k = 0 ∧
   ∃ genesis hc, hc_GetHeaderByNumber 0 (bc_hc (wr_chain wr)) = (Some genesis, hc) ∧ h_ProofHash genesis = root).

(** A worker that can sign. *)
Definition signs wr : Prop := ∀ data, ∃ s, SignData data (wr_engine wr) = Ok s.

Lemma VerifyProof_array addr root proof new : VerifyProof addr root proof = Ok new → byte_array 32 new.
Proof. intros (txroot & _ & ->)%VerifyProof_Ok. split; [apply keccak_length|apply keccak_byte]. Qed.

Lemma count_txs_Ok txs m : Forall hashable txs → ∃ m', count_txs txs m = Ok m'.
Proof.
  intros Hs. revert m. induction Hs as [|tx txs (_ & Hc & Hf) _ IH]; intros m; [by eexists|]. cbn [count_txs].
  destruct (Transaction_Hash_enc tx Hc Hf) as (tx' & -> & _). cbn [lift_bc omap_err obind]. apply IH.
Qed.

Lemma count_txs_app txs txs' m : count_txs (txs ++ txs') m = (let* m := count_txs txs m in count_txs txs' m).
Proof.
  revert m. induction txs as [|tx txs IH]; intros m; [done|]. cbn [app count_txs].
  destruct (lift_bc (Transaction_Hash tx)) as [[h tx']| |]; [apply IH|done..].
Qed.

(** The answer a verifier posts. *)
Definition confirmation (signature s : bytes) (confirm : bool) : event := RoutConfirmEvent (MkConfirmMsg (MkProofConfirm signature confirm) s).

Lemma accept_proof_Ok starts proof wr :
  signs wr → Forall hashable (wp_Txs proof) →
  ∃ s m, accept_proof starts proof true wr =
    Ok (wr_set_txConfirmPool m (wr_set_txpool (AddTxs starts (wp_Txs proof) (wr_txpool wr)) (Post (confirmation (wp_Sign proof) s true) wr))) ∧
    count_txs (wp_Txs proof) (wr_txConfirmPool wr) = Ok m.
Proof.
  intros Hs Ht. destruct (Hs (ProofConfirm_Data (MkProofConfirm (wp_Sign proof) true))) as (s & Es).
  destruct (count_txs_Ok (wp_Txs proof) (wr_txConfirmPool wr) Ht) as (m & Em). exists s, m. split; [|done].
  unfold accept_proof, post_confirm. rewrite Es. cbn [obind negb orb]. cbn [wr_set_txpool Post wr_txConfirmPool wr_txpool]. by rewrite Em.
Qed.

(** One proof. *)
Lemma deal_step r waits starts ev addr wr root k new :
  addr ≠ wr_coinbase wr → byte_array 20 addr → signs wr → Forall hashable (wp_Txs (wpm_Proof ev)) →
  knows wr addr root k → wp_Number (wpm_Proof ev) = k + 1 → 0 ≤ k < 2 ^ 64 - 1 → VerifyProof addr root (wpm_Proof ev) = Ok new →
  ∃ s wr', dealProofEvent (S r) waits starts ev addr wr = Ok wr' ∧ knows wr' addr new (k + 1) ∧
    wr_coinbase wr' = wr_coinbase wr ∧ wr_engine wr' = wr_engine wr ∧
    wr_posted wr' = wr_posted wr ++ [confirmation (wp_Sign (wpm_Proof ev)) s true] ∧
    count_txs (wp_Txs (wpm_Proof ev)) (wr_txConfirmPool wr) = Ok (wr_txConfirmPool wr').
Proof.
  intros Hne Ha Hs Ht Hk En Hb Hv. set (proof := wpm_Proof ev) in *.
  assert (wrap 64 (Z.abs (wp_Number proof)) = k + 1) as Eev by (rewrite En, Z.abs_eq by lia; apply wrap_small; lia).
  assert (proof_ok (MkProofState addr new (k + 1))) as Hok by (split; [done|split; [by eapply VerifyProof_array|cbn; lia]]).
  assert (∀ wr1 peer, ps_Root peer = root → wr_engine wr1 = wr_engine wr → wr_coinbase wr1 = wr_coinbase wr → wr_posted wr1 = wr_posted wr →
    wr_txConfirmPool wr1 = wr_txConfirmPool wr →
    ∃ s wr', (let* (verdict, wr) := verify_loop (S r) waits proof addr peer wr1 in
              match verdict with None => Ok wr | Some confirm => accept_proof starts proof confirm wr end) = Ok wr' ∧ knows wr' addr new (k + 1) ∧
      wr_coinbase wr' = wr_coinbase wr ∧ wr_engine wr' = wr_engine wr ∧ wr_posted wr' = wr_posted wr ++ [confirmation (wp_Sign proof) s true] ∧
      count_txs (wp_Txs proof) (wr_txConfirmPool wr) = Ok (wr_txConfirmPool wr')) as Hrest.
  { intros wr1 peer Er Eeng Ecb Epo Etc. cbn [verify_loop]. rewrite Er, Hv, Eev. cbn [obind].
    destruct (accept_proof_Ok starts proof (WritePeer addr (MkProofState addr new (k + 1)) wr1)) as (s & m & -> & Em); [by intros data; cbn; rewrite Eeng|done|].
    exists s. eexists. split; [done|]. cbn in *. split; [left; by apply GetPeerProof_written|]. rewrite Etc in Em. rewrite Ecb, Eeng, Epo. done. }
  unfold dealProofEvent. rewrite bool_decide_false by done. cbn [VerifyState negb]. fold proof. rewrite Eev.
  destruct Hk as [->|(-> & -> & genesis & hc & Eg & Er)]; cbn [obind].
  - by apply Hrest.
  - cbn [Z.add Z.eqb Pos.eqb]. rewrite Eg. cbn [deref obind]. by apply Hrest.
Qed.

(** The messages of a miner one after the other. *)
Fixpoint deal_all (rounds : nat) (waits : nat → worker → bool * worker) (starts : list nat) (msgs : list WorkProofMsg) addr wr : bc_out worker :=
  match msgs with
  | [] => Ok wr
  | ev :: msgs =>
      let* wr := dealProofEvent rounds waits starts ev addr wr in
      deal_all rounds waits starts msgs addr wr
  end.

(** C19: A verifier follows an honest miner.  Whatever it knows of the miner so far, a
    record or only the genesis header, when the proofs that the miner made next
    arrive in order, the worker answers each of them with a signed confirmation,
    without a query, counts their transactions, and its record at the end is the
    number and the hash of the last proof. *)
Theorem honest_miner_is_followed r waits starts msgs addr wr root k final :
  addr ≠ wr_coinbase wr → byte_array 20 addr → signs wr → Forall hashable (history_txs (wpm_Proof <$> msgs)) →
  knows wr addr root k → 0 ≤ k → k + Z.of_nat (length msgs) < 2 ^ 64 → follows addr root k (wpm_Proof <$> msgs) final →
  ∃ sigs wr', deal_all (S r) waits starts msgs addr wr = Ok wr' ∧ knows wr' addr final (k + Z.of_nat (length msgs)) ∧
    length sigs = length msgs ∧
    wr_posted wr' = wr_posted wr ++ zip_with (λ ev s, confirmation (wp_Sign (wpm_Proof ev)) s true) msgs sigs ∧
    count_txs (history_txs (wpm_Proof <$> msgs)) (wr_txConfirmPool wr) = Ok (wr_txConfirmPool wr').
Proof.
  intros Hne Ha. revert wr root k Hne. induction msgs as [|ev msgs IH]; intros wr root k Hne Hs Ht Hk Hk0 Hlen Hf.
  { inversion Hf; subst. exists [], wr. cbn. rewrite Z.add_0_r, app_nil_r. done. }
  inversion Hf as [|? ? ? new ? ? En Hv Hf']; subst. unfold history_txs in Ht. cbn [fmap list_fmap concat length] in Ht, Hlen.
  apply Forall_app in Ht as [Ht1 Ht2].
  destruct (deal_step r waits starts ev addr wr root k new) as (s & wr1 & E1 & Hk1 & Ec1 & Ee1 & Ep1 & Et1); try done; [lia|].
  destruct (IH wr1 new (k + 1)) as (sigs & wr2 & E2 & Hk2 & El2 & Ep2 & Et2); try done; [by rewrite Ec1|unfold signs; by rewrite Ee1|lia|lia|].
  exists (s :: sigs), wr2. cbn [deal_all]. rewrite E1. cbn [obind]. split_and!; [done| | |..].
  - cbn [length]. replace (k + Z.of_nat (S (length msgs))) with (k + 1 + Z.of_nat (length msgs)) by lia. done.
  - cbn. by rewrite El2.
  - rewrite Ep2, Ep1. by rewrite <-app_assoc.
  - unfold history_txs. cbn [fmap list_fmap concat]. rewrite count_txs_app, Et1. cbn [obind]. exact Et2.
Qed.

(** ** Asking a miner for its state *)

(** A wait that ends with a signal ends with a response of the miner to the query
    that is remembered for it. *)
Definition signalled_by (wait : worker → bool * worker) (sender : bytes) (number : Z) : Prop :=
  ∀ wr wr1, wait wr = (true, wr1) → ∃ wr0 ev msg,
    lru_Peek sender (wr_queryCache wr0) = Some msg ∧ qs_Number (qsm_Qs msg) = number ∧
    byte_array 32 (rs_Root (rsm_Rs ev)) ∧ dealResponseState ev sender wr0 = (true, wr1).

(** An answer sets the record of the miner to the number that was asked for. *)
Lemma response_answers ev sender wr wr1 msg :
  byte_array 20 sender → byte_array 32 (rs_Root (rsm_Rs ev)) → lru_Peek sender (wr_queryCache wr) = Some msg →
  dealResponseState ev sender wr = (true, wr1) →
  GetPeerProof (wr_chainDb wr1) sender = Some (MkProofState sender (rs_Root (rsm_Rs ev)) (wrap 64 (Z.abs (qs_Number (qsm_Qs msg))))).
Proof.
  intros Hs Hr Hq. unfold dealResponseState. case_match; [done|]. pose proof (Get_Peek sender (wr_queryCache wr)) as EG.
  destruct (lru_Get sender (wr_queryCache wr)) as [q cache]. cbn [fst] in EG. rewrite EG, Hq. case_match eqn:E; [done|].
  apply negb_false_iff, Z.eqb_eq in E. rewrite <-E. intros [= _ <-]. apply GetPeerProof_written.
  split; [done|split; [done|]]. by apply wrap_range.
Qed.

Lemma post_confirm_no_error signature confirm wr e : post_confirm signature confirm wr ≠ Err e.
Proof. unfold post_confirm. by destruct (SignData _ _). Qed.

Lemma queryRemoteState_no_error wait miner number wr e : queryRemoteState wait miner number wr ≠ Err e.
Proof. unfold queryRemoteState. destruct (SignData _ _); [|done..]. repeat case_match; done. Qed.

Lemma queryRemoteState_signalled wait miner number wr wr1 :
  queryRemoteState wait miner number wr = Ok (true, wr1) → ∃ wr0, wait wr0 = (true, wr1).
Proof.
  unfold queryRemoteState. destruct (SignData _ _); [|done..]. destruct (match _ !! miner with Some l => _ | None => _ end) as [lock locks].
  match goal with |- context [wait ?w] => destruct (wait w) as [signalled wr'] eqn:E; intros HE; exists w end.
  destruct lock; [|done]. destruct signalled; [|done]. by injection HE as <-.
Qed.

(** One answer is enough: the loop that queries a miner ends in its second round
    at the latest, whatever the miner answers. *)
Theorem query_loop_ends r waits proof sender peer wr e :
  let evnum := wrap 64 (Z.abs (wp_Number proof)) in
  byte_array 20 sender → 1 ≤ evnum ≤ 2 ^ 63 → (∀ i, signalled_by (waits i) sender (evnum - 1)) →
  verify_loop (S (S r)) waits proof sender peer wr ≠ Err e.
Proof.
  intros evnum Hs Hev Hw. assert (to_int (wrap 64 (evnum - 1)) = evnum - 1) as Enum.
  { rewrite wrap_small by lia. unfold to_int. destruct (Z.ltb_spec (evnum - 1) (2 ^ 63)); lia. }
  assert (∀ wr peer r, wrap 64 (ps_Num peer + 1) = evnum → verify_loop (S r) waits proof sender peer wr ≠ Err e) as Hlast.
  { intros wr0 peer0 r0 Ep. cbn [verify_loop]. fold evnum. destruct (VerifyProof _ _ _); [done| |done]. rewrite Ep, Z.eqb_refl.
    destruct (post_confirm _ _ wr0) as [[? ?]|e'|] eqn:E; [done| |done]. by apply post_confirm_no_error in E. }
  remember (S r) as r1 eqn:Er1. cbn [verify_loop]. fold evnum. destruct (VerifyProof _ _ _); [done| |done]. case_match.
  { destruct (post_confirm _ _ wr) as [[? ?]|e'|] eqn:E; [done| |done]. by apply post_confirm_no_error in E. }
  rewrite Enum. destruct (queryRemoteState _ _ _ wr) as [[ok wr1]|e'|] eqn:E; [cbn [obind]|by apply queryRemoteState_no_error in E|done].
  destruct ok; [|done]. apply queryRemoteState_signalled in E as (wr0 & E). apply Hw in E as (wr2 & ev & msg & Hq & Hn & Hr & E).
  pose proof (response_answers ev sender wr2 wr1 msg Hs Hr Hq E) as EG. rewrite EG, Er1. cbn [deref obind]. apply (Hlast wr1).
  cbn [ps_Num]. rewrite Hn, Z.abs_eq, (wrap_small 64 (evnum - 1)) by lia. rewrite wrap_small by lia. lia.
Qed.

(** After a timeout the channel of the miner is nil: every later query fails,
    whatever is answered. *)
Lemma timeout_is_permanent wait miner number wr wr1 :
  signs wr → queryRemoteState wait miner number wr = Ok (false, wr1) →
  wr_peerLockMap wr1 !! miner = Some None ∧
  ∀ wait' number' wr2 ok wr3, wr_peerLockMap wr2 !! miner = Some None → queryRemoteState wait' miner number' wr2 = Ok (ok, wr3) → ok = false.
Proof.
  intros Hs HQ. split.
  - unfold queryRemoteState in HQ. destruct (Hs (QueryState_Data (MkQueryState miner number))) as (s & Es). rewrite Es in HQ.
    destruct (match _ !! miner with Some l => _ | None => _ end) as [lock locks].
    match type of HQ with context [wait ?w] => destruct (wait w) as [signalled wr'] end.
    destruct lock; [destruct signalled; [done|]|]; injection HQ as <-; apply lookup_insert_eq.
  - intros wait' number' wr2 ok wr3 El. unfold queryRemoteState. destruct (SignData _ _); [|by intros [= <-]|done]. cbn [Post wr_set_query wr_set_caches wr_peerLockMap].
    rewrite El. match goal with |- context [wait' ?w] => destruct (wait' w) as [signalled wr'] end. by intros [= <-].
Qed.

(** A response that arrives again signals the channel again, although no query
    waits any more: the goroutine that reads the events blocks. *)
Lemma second_answer_signals ev sender wr wr1 :
  dealResponseState ev sender wr = (true, wr1) → ∃ wr2, dealResponseState ev sender wr1 = (true, wr2).
Proof.
  unfold dealResponseState. case_match eqn:E1; [done|]. pose proof (Get_Peek sender (wr_queryCache wr)) as EG. pose proof (Peek_Get sender (wr_queryCache wr) sender) as EP.
  destruct (lru_Get sender (wr_queryCache wr)) as [q cache]. cbn [fst snd] in EG, EP. destruct q as [q|]; [|done]. case_match eqn:E2; [done|].
  intros [= Hsig <-]. cbn [WritePeer wr_set_chain wr_set_query wr_set_caches wr_coinbase wr_queryCache wr_peerLockMap] in *. rewrite E1.
  pose proof (Get_Peek sender cache) as EG2. destruct (lru_Get sender cache) as [q2 cache2]. cbn [fst] in EG2. rewrite EP, <-EG in EG2. subst q2.
  rewrite E2. eexists. by rewrite Hsig.
Qed.

(** ** A mined block *)

(** What a round leaves: the work with its proof and the message. *)
Lemma NewMineRound_Ok env parent wr wr' :
  NewMineRound env (Some parent) wr = Ok (None, wr') → re_bootNode env = false →
  ∃ header txs receipts work proof header' sign, new_header wr parent = Ok header ∧
    wr_works wr' !! length (wr_works wr) = Some work ∧ wr_engine wr' = wr_engine wr ∧
    GenerateProof (PrepareBlockHeader (re_now env) header) (Some parent) txs (peer_states (re_peers env) wr) (wr_engine wr) = Ok (proof, header') ∧
    SignData (WorkProof_Data proof) (wr_engine wr) = Ok sign ∧
    wr_posted wr' = wr_posted wr ++ [RoutWorkProofEvent (MkWorkProofMsg proof sign)] ∧
    wk_header work = header' ∧ wk_txs work = txs ∧ wk_receipts work = receipts ∧ wk_Block work = None ∧ wk_genCh work = [].
Proof.
  unfold NewMineRound. intros HE Hb. rewrite Hb in HE. cbn [deref obind] in HE. apply obind_Ok in HE as (header & Eh & HE).
  unfold makeCurrent in HE. destruct (re_stateAt env (h_Root parent)) as [st|]; [|done].
  match type of HE with context [Pending ?a ?b ?c ?d] => destruct (Pending a b c d) as [pended pool] end.
  apply obind_Ok in HE as ([txs receipts] & Ec & HE). unfold broadcast_proof in HE.
  cbn [update_work wr_set_works wr_set_txpool wr_works wr_engine wr_current] in HE. set (ptr := length (wr_works wr)) in *.
  rewrite list_lookup_alter, decide_True, list_lookup_middle in HE by done. cbn [fmap option_fmap option_map deref obind with_commits wk_header wk_txs wk_states] in HE.
  destruct (GenerateProof _ _ _ _ _) as [[proof header']| |] eqn:EG; [|done..].
  destruct (SignData _ _) as [sign| |] eqn:ES; [|done..]. injection HE as <-. cbn.
  exists header, txs, receipts. eexists _, proof, header', sign. split; [done|]. split; [rewrite !list_lookup_alter, !decide_True by done; by rewrite list_lookup_middle|]. done.
Qed.

Lemma prepared_extra now header : length (h_Extra (PrepareBlockHeader now header)) = (ExtraVanity + ExtraSeal)%nat.
Proof.
  unfold PrepareBlockHeader. cbn [with_Difficulty with_Time with_Extra h_Extra]. rewrite length_app, length_replicate, length_take.
  destruct (Nat.ltb_spec (length (h_Extra header)) ExtraVanity); [rewrite length_app, length_replicate|]; lia.
Qed.

(** The roots of a new block. *)
Lemma NewBlock_Ok header txs states receipts b :
  NewBlock header txs states receipts = Ok b → DeriveSha (F:=rlp_error) txs = Ok (h_TxHash header) →
  b_transactions b = txs ∧ b_proofs b = states ∧
  ∃ proofRoot receiptHash, b_header b = set_roots (h_TxHash header) proofRoot receiptHash (CopyHeader header) ∧
    DeriveSha (F:=rlp_error) receipts = Ok receiptHash.
Proof.
  intros Hb Ht. unfold NewBlock in Hb. apply obind_Ok in Hb as (tr & E1 & Hb). apply obind_Ok in Hb as (pr & E2 & Hb).
  apply obind_Ok in Hb as (rr & E3 & [= <-]). assert (tr = h_TxHash header) as -> by (destruct (bool_decide _); [rewrite Ht in E1|]; by injection E1 as <-).
  cbn. split; [done|]. split; [done|]. exists pr, rr. split; [done|]. by destruct receipts.
Qed.

(** The header of a sealed block passes the checks against its parent. *)
Lemma sealed_header_verifies getHeader header parent n t t' :
  h_Number header = Some (n + 1) → length (h_Extra header) = (ExtraVanity + ExtraSeal)%nat → h_Number parent = Some n → 0 ≤ n < 2 ^ 64 - 1 →
  Header_Hash parent = Ok (h_ParentHash header) → getHeader (h_ParentHash header) n = Some parent →
  h_Time header = Some t → h_Time parent = Some t' → 0 ≤ t' ≤ t → t < 2 ^ 64 →
  VerifyHeader getHeader header = Ok None.
Proof.
  intros En Ex Epn Hn Eh Eg Et Et' Ht Hlt. unfold VerifyHeader, verifyHeader, verifyCascadingFields, NumberU64.
  assert (wrap 64 (Z.abs (n + 1)) = n + 1) as E1 by (rewrite Z.abs_eq by lia; apply wrap_small; lia).
  assert (wrap 64 (Z.abs n) = n) as E0 by (rewrite Z.abs_eq by lia; apply wrap_small; lia).
  rewrite En, Ex. cbn [big_Uint64 lift_eng omap_err obind]. rewrite E1. cbn [Nat.ltb Nat.leb ExtraVanity ExtraSeal Nat.add Nat.sub Nat.eqb negb].
  rewrite andb_false_r. assert ((n + 1 =? 0) = false) as -> by (apply Z.eqb_neq; lia). cbn [last]. rewrite Z.add_simpl_r, Eg, Epn.
  cbn [big_Uint64 lift_eng omap_err obind]. rewrite E0, Z.eqb_refl, Eh. cbn [negb lift_eng omap_err obind]. rewrite bool_decide_true by done. cbn [negb].
  rewrite Et, Et'. cbn [big_Uint64 obind]. rewrite !Z.abs_eq, !wrap_small by lia. by rewrite (proj2 (Z.ltb_ge _ _)) by lia.
Qed.

Lemma SignData_recovers data c s : honest c → SignData data c = Ok s → RecoverSender data s = Ok (pr_signer c).
Proof.
  intros (f & Ef & Hf). unfold SignData, RecoverSender. rewrite Ef. destruct (f (pr_signer c) (sum256 data)) as [s'|] eqn:E; [|done].
  intros [= <-]. destruct (Hf _ _ E) as (_ & pub & -> & ->). done.
Qed.

(** The fields that GenerateProof leaves alone, and the number of the proof. *)
Lemma GenerateProof_header header parent txs states c proof header' :
  GenerateProof header (Some parent) txs states c = Ok (proof, header') →
  h_ParentHash header' = h_ParentHash header ∧ h_Number header' = h_Number header ∧ h_Extra header' = h_Extra header ∧ h_Root header' = h_Root header ∧
  wp_Number proof = to_int (wrap 64 (Z.abs (default 0 (h_Number header)))).
Proof.
  unfold GenerateProof. intros (num & En & HE)%obind_Ok. apply obind_Ok in HE as (txroot & _ & HE). apply obind_Ok in HE as (s & _ & [= <- <-]).
  split_and!; [done..|]. cbn. apply lift_eng_Ok in En. unfold NumberU64 in En. destruct (h_Number header); [|done]. cbn in En. by injection En as <-.
Qed.

Lemma lift_bc_Ok {A} (r : outcome rlp_error A) a : lift_bc r = Ok a → r = Ok a.
Proof. unfold lift_bc. by destruct r; cbn; intros [= <-]. Qed.

(** The goroutine that makes the block. *)
Lemma make_block_Ok now ptr wr wr' work work' block :
  wr_works wr !! ptr = Some work → wk_Block work = None → make_block now ptr wr = Ok wr' →
  wr_works wr' !! ptr = Some work' → wk_Block work' = Some block →
  wk_receipts work' = wk_receipts work ∧
  ∃ b0, NewBlock (wk_header work) (wk_txs work) (wk_states work) (wk_receipts work) = Ok b0 ∧ GenBlockWithSig now b0 (wr_engine wr) = Ok block.
Proof.
  intros Ew Eb HM Hw Hbl. unfold make_block in HM. rewrite Ew in HM. cbn [deref obind] in HM.
  assert (∀ block err, wr' = update_work ptr (with_result block err) wr → wk_receipts work' = wk_receipts work ∧ err = None ∧ wk_Block work' = block) as Hres.
  { intros bl err ->. cbn in Hw. rewrite list_lookup_alter, decide_True, Ew in Hw by done. injection Hw as <-. cbn in *. by destruct err; [congruence|]. }
  destruct (Finalize _ _ _ _) as [b0| |] eqn:EF; [|injection HM as HM; by destruct (Hres _ _ (eq_sym HM)) as (_ & ? & _)|done].
  destruct (GenBlockWithSig _ _ _) as [b1| |] eqn:EB; [|injection HM as HM; by destruct (Hres _ _ (eq_sym HM)) as (_ & ? & _)|done].
  injection HM as HM. destruct (Hres _ _ (eq_sym HM)) as (Er & _ & Eb1). rewrite Hbl in Eb1. injection Eb1 as ->.
  split; [done|]. exists b0. split; [by apply lift_eng_Ok|done].
Qed.

(** The header of the sealed block. *)
Lemma sealed_fields now header txs states receipts b0 block c :
  NewBlock header txs states receipts = Ok b0 → DeriveSha (F:=rlp_error) txs = Ok (h_TxHash header) →
  GenBlockWithSig now b0 c = Ok block → honest c → length (h_Extra header) = (ExtraVanity + ExtraSeal)%nat →
  let h := b_header block in
  b_transactions block = txs ∧ h_ParentHash h = h_ParentHash header ∧ h_ProofHash h = h_ProofHash header ∧ h_TxHash h = h_TxHash header ∧
  DeriveSha (F:=rlp_error) receipts = Ok (h_ReceiptHash h) ∧ h_Number h = Some (default 0 (h_Number header)) ∧ h_Time h = Some now ∧
  h_Coinbase h = pr_signer c ∧ length (h_Extra h) = (ExtraVanity + ExtraSeal)%nat ∧ recover_signer h = Ok (pr_signer c) ∧ h_Root h = h_Root header.
Proof.
  intros HN Hd HG Hh Hx. destruct (NewBlock_Ok _ _ _ _ _ HN Hd) as (Ebt & _ & pr & rr & Ehd & Erc).
  assert (h_Extra (b_header b0) = h_Extra header) as Ex by (by rewrite Ehd).
  destruct (GenBlockWithSig_Ok now b0 block c HG) as (sig & Hsig & Eb & Hrec); [rewrite Ex; lia|done|]. cbn zeta. rewrite Hrec, Eb.
  cbn [WithSeal b_transactions b_header with_Extra with_Time with_Coinbase CopyHeader h_ParentHash h_ProofHash h_TxHash h_ReceiptHash h_Number h_Time h_Coinbase h_Extra h_Root].
  split; [done|]. rewrite Ex, length_app, length_take, Hsig, Ehd, Hx. by split_and!.
Qed.

(** No state root is ever put into the header of a mined block. *)
Lemma mined_block_has_no_root env parent wr wr' now wr'' work block :
  honest (wr_engine wr) → re_bootNode env = false →
  NewMineRound env (Some parent) wr = Ok (None, wr') → make_block now (length (wr_works wr)) wr' = Ok wr'' →
  wr_works wr'' !! length (wr_works wr) = Some work → wk_Block work = Some block →
  h_Root (b_header block) = zero_hash32.
Proof.
  intros Hh Hb HR HM Hw Hbl.
  destruct (NewMineRound_Ok env parent wr wr' HR Hb) as (header & txs & receipts & work' & proof & header' & sign & Eh & Ew & Ee & EG & _ & _ & <- & <- & <- & E4 & _).
  destruct (make_block_Ok _ _ _ _ _ _ _ Ew E4 HM Hw Hbl) as (_ & b0 & EN & EB). rewrite Ee in EB.
  destruct (GenerateProof_header _ _ _ _ _ _ _ EG) as (_ & _ & Eext & Eroot & _). destruct (GenerateProof_verifies _ _ _ _ _ _ _ Hh EG) as (_ & _ & Ed & _).
  destruct (sealed_fields _ _ _ _ _ _ _ _ EN (DeriveSha_error _ _ Ed) EB Hh) as (_ & _ & _ & _ & _ & _ & _ & _ & _ & _ & Fr); [rewrite Eext; apply prepared_extra|].
  rewrite Fr, Eroot. unfold new_header in Eh. apply obind_Ok in Eh as (num & _ & Eh). by apply obind_Ok in Eh as (hash & _ & [= <-]).
Qed.
(** With the right receipts, [ValidateState] compares the roots of the state. *)
Lemma ValidateState_root block receipts root :
  DeriveSha (F:=rlp_error) receipts = Ok (h_ReceiptHash (b_header block)) →
  ValidateState block receipts root = Ok None ↔ root = h_Root (b_header block).
Proof.
  intros Hd. unfold ValidateState. rewrite Hd. cbn [lift_bc omap_err obind]. rewrite bool_decide_true by done. cbn [negb].
  case_bool_decide; cbn [negb]; by split.
Qed.

(** C18: A mined block passes the checks of the engine, and not the check of the state.
    When a round on a parent ends well and its goroutine has made the block, the
    worker has posted one message from which every peer recovers the miner as the
    sender; the proof in it has the number after the parent's and is accepted by
    every peer that knows the parent's proof hash; it gives the proof hash in the
    header of the block; the block carries the transactions of the proof under
    their root and the root of the receipts, is signed by the miner, and
    [VerifyHeader] accepts it on top of the parent. But the state root of its header
    is zero, so that [ValidateState] accepts it only on a state with that root. *)
Theorem mined_block_checks env parent n t' wr wr' now wr'' work block :
  honest (wr_engine wr) → re_bootNode env = false →
  h_Number parent = Some n → 0 ≤ n < 2 ^ 63 - 1 → h_Time parent = Some t' → 0 ≤ t' ≤ now → now < 2 ^ 64 →
  NewMineRound env (Some parent) wr = Ok (None, wr') → make_block now (length (wr_works wr)) wr' = Ok wr'' →
  wr_works wr'' !! length (wr_works wr) = Some work → wk_Block work = Some block →
  let miner := pr_signer (wr_engine wr) in
  ∃ proof sign, wr_posted wr' = wr_posted wr ++ [RoutWorkProofEvent (MkWorkProofMsg proof sign)] ∧
    RecoverSender (WorkProof_Data proof) sign = Ok miner ∧ wp_Number proof = n + 1 ∧
    VerifyProof miner (h_ProofHash parent) proof = Ok (h_ProofHash (b_header block)) ∧
    b_transactions block = wp_Txs proof ∧ DeriveSha (F:=rlp_error) (wp_Txs proof) = Ok (h_TxHash (b_header block)) ∧
    DeriveSha (F:=rlp_error) (wk_receipts work) = Ok (h_ReceiptHash (b_header block)) ∧
    recover_signer (b_header block) = Ok miner ∧ h_Coinbase (b_header block) = miner ∧
    (∀ getHeader, getHeader (h_ParentHash (b_header block)) n = Some parent → VerifyHeader getHeader (b_header block) = Ok None) ∧
    h_Root (b_header block) = zero_hash32 ∧
    (∀ root, ValidateState block (wk_receipts work) root = Ok None ↔ root = zero_hash32).
Proof.
  intros Hh Hb En Hn Et Ht Hnow HR HM Hw Hbl miner.
  pose proof (mined_block_has_no_root _ _ _ _ _ _ _ _ Hh Hb HR HM Hw Hbl) as Hroot.
  destruct (NewMineRound_Ok env parent wr wr' HR Hb) as (header & txs & receipts & work' & proof & header' & sign & Eh & Ew & Ee & EG & ES & Ep & <- & <- & <- & E4 & _).
  exists proof, sign. split; [done|]. destruct (GenerateProof_verifies _ _ _ _ _ _ _ Hh EG) as (Hv & Etx & Ed & _).
  unfold new_header in Eh. rewrite En in Eh. cbn [deref obind] in Eh. apply obind_Ok in Eh as (ph & Eph & [= <-]).
  destruct (make_block_Ok _ _ _ _ _ _ _ Ew E4 HM Hw Hbl) as (Erec & b0 & EN & EB). rewrite Ee in EB.
  destruct (GenerateProof_header _ _ _ _ _ _ _ EG) as (Epar & Enum & Eext & _ & Ewn).
  destruct (sealed_fields _ _ _ _ _ _ _ _ EN (DeriveSha_error _ _ Ed) EB Hh) as (F1 & F2 & F3 & F4 & F5 & F6 & F7 & F8 & F9 & F10 & _).
  { rewrite Eext. apply prepared_extra. }
  rewrite Erec, F1, F3, F4, F8. rewrite Etx. split_and!; [by eapply SignData_recovers| |done|done|by eapply DeriveSha_error|done|done|done| |done|].
  - rewrite Ewn. cbn. rewrite Z.abs_eq, wrap_small by lia. unfold to_int. by rewrite (proj2 (Z.ltb_lt _ _)) by lia.
  - intros getHeader Hg. apply (sealed_header_verifies getHeader _ parent n now t'); [by rewrite F6, Enum|done|done|lia| |done|done|done|done|done].
    rewrite F2, Epar. by apply lift_bc_Ok.
  - intros root. rewrite <-Hroot. by apply ValidateState_root.
Qed.

End Safe.
