(* ===== verification/WorkerRun.v ===== *)
(** * A miner and a verifier

    Two nodes on the same genesis block: one mines a block with a transaction, the
    other checks its proof.  The signature scheme is one that satisfies what the
    theorems ask of secp256k1: a signature repeats the hash, and there is one
    key. *)

From S2P Require Import Prelude RlpSpec RlpRaw RlpEncode RlpStream RlpRoundtrip TrieNode Trie TrieMap Sha256 Merkletree Types SecureTrie TxPool Lru Arc ChainDb ChainTables HeaderChain HeaderChainInv Genesis HeaderChainRun BlockChain BlockChainSafe BlockChainRun Prometheus PrometheusSafe Unconfirmed WorkPending Worker WorkerSafe.
Local Open Scope Z_scope.

Definition ex_pub : bytes := 4 :: replicate 64 7.

Definition padded_hash (h : bytes) : bytes := take 32 (h ++ replicate 32 0).

#[local] Instance ex_secp : Secp256k1 := {|
  Ecrecover hash s := if bool_decide (take 32 s = padded_hash hash) then Some ex_pub else None
|}.

Definition ex_sign : SignerFn := λ _ hash, Some (padded_hash hash ++ replicate 33 0).

Definition ex_miner_addr : bytes := Eval vm_compute in drop 12 (keccak256 (replicate 64 7)).

Definition ex_engine (signer : bytes) : Prometheus := Authorize signer ex_sign (Prometheus_New 2 0).

Lemma length_padded h : length (padded_hash h) = 32%nat.
Proof. unfold padded_hash. rewrite length_take, length_app, length_replicate. lia. Qed.

Lemma ex_honest : honest (ex_engine ex_miner_addr).
Proof.
  exists ex_sign. split; [done|]. intros hash s [= <-]. split; [by rewrite length_app, length_padded|]. exists ex_pub. split.
  - cbn [Ecrecover ex_secp]. by rewrite take_app_length', bool_decide_true by (by rewrite ?length_padded).
  - vm_compute. reflexivity.
Qed.

(** ** The nodes *)

Definition ex_bc : BlockChain :=
  match genesis_Commit [] ex_genesis ∅ with
  | Ok (_, db) => match NewBlockChain db with Ok bc => bc | _ => MkBC (MkHC ∅ None None [] (NewLRU 1) (NewLRU 1) (NewLRU 1)) None None None (NewLRU 1) (NewLRU 1) (NewLRU 1) (NewLRU 1) (NewLRU 1) [] end
  | _ => MkBC (MkHC ∅ None None [] (NewLRU 1) (NewLRU 1) (NewLRU 1)) None None None (NewLRU 1) (NewLRU 1) (NewLRU 1) (NewLRU 1) (NewLRU 1) []
  end.

Definition ex_node (addr : bytes) (pool : TxPool Transaction) : worker :=
  MkWorker (ex_engine addr) ex_bc pool addr [1; 2; 3] true IDLE [] None newUnconfirmedProofs NewWorkPending ∅ (NewLRU 10) (NewLRU 10) (NewLRU 10) ∅ [].

Definition ex_miner : worker := ex_node ex_miner_addr (set_pending {[txHash ex_tx := ex_tx]} NewTxPool).
Definition ex_verifier : worker := ex_node (replicate 20 1) NewTxPool.

Definition ex_env : round_env := MkEnv 5000 5 77 false [] (λ _, Some (ex_state false)) [txHash ex_tx].

Definition after_round (d : worker) (r : bc_out (option worker_error * worker)) : worker := match r with Ok (None, wr) => wr | _ => d end.
Definition after_seal (d : worker) (r : bc_out worker) : worker := match r with Ok wr => wr | _ => d end.

Definition ex_mined : worker := after_round ex_miner (NewMineRound ex_env (Some ex_root) ex_miner).
Definition ex_sealed : worker := after_seal ex_miner (make_block 6000 0 ex_mined).
Definition ex_mined_work : Work := default (ex_work ex_A 1 false) (wr_works ex_sealed !! 0%nat).
Definition ex_mined_block : Block := default ex_A (wk_Block ex_mined_work).

(** The round ends well and the block is made. *)
Definition round_made (r : bc_out (option worker_error * worker)) : bool :=
  match r with
  | Ok (None, wr) =>
      match make_block 6000 0 wr with
      | Ok wr' => match wr_works wr' !! 0%nat with Some w => match wk_Block w with Some b => length (b_transactions b) =? 1 | None => false end | None => false end
      | _ => false
      end
  | _ => false
  end%nat.

Lemma ex_round_ok : round_made (NewMineRound ex_env (Some ex_root) ex_miner) = true.
Proof. vm_compute. reflexivity. Qed.

Lemma ex_mined_ok :
  NewMineRound ex_env (Some ex_root) ex_miner = Ok (None, ex_mined) ∧ make_block 6000 0 ex_mined = Ok ex_sealed ∧
  wr_works ex_sealed !! 0%nat = Some ex_mined_work ∧ wk_Block ex_mined_work = Some ex_mined_block.
Proof.
  pose proof ex_round_ok as H. unfold ex_mined_block, ex_mined_work, ex_sealed, ex_mined.
  destruct (NewMineRound ex_env (Some ex_root) ex_miner) as [[[e|] wr]| |]; try done. cbn [round_made after_round] in *.
  destruct (make_block 6000 0 wr) as [wr'| |]; try done. cbn [after_seal]. destruct (wr_works wr' !! 0%nat) as [w|]; [|done]. cbn. by destruct (wk_Block w).
Qed.

Lemma mined_block_checks_witness :
  ∃ proof sign, wr_posted ex_mined = [RoutWorkProofEvent (MkWorkProofMsg proof sign)] ∧
    RecoverSender (WorkProof_Data proof) sign = Ok ex_miner_addr ∧ wp_Number proof = 1 ∧
    VerifyProof ex_miner_addr (h_ProofHash ex_root) proof = Ok (h_ProofHash (b_header ex_mined_block)) ∧
    recover_signer (b_header ex_mined_block) = Ok ex_miner_addr ∧ h_Root (b_header ex_mined_block) = zero_hash32.
Proof.
  destruct ex_mined_ok as (E1 & E2 & E3 & E4).
  destruct (mined_block_checks ex_env ex_root 0 0 ex_miner ex_mined 6000 ex_sealed ex_mined_work ex_mined_block) as (proof & sign & H1 & H2 & H3 & H4 & _ & _ & _ & H5 & _ & _ & H6 & _).
  - exact ex_honest.
  - reflexivity.
  - reflexivity.
  - split; reflexivity || (intros [=]).
  - reflexivity.
  - split; intros [=].
  - reflexivity.
  - exact E1.
  - exact E2.
  - exact E3.
  - exact E4.
  - exists proof, sign. split; [exact H1|]. split; [exact H2|]. split; [exact H3|]. split; [exact H4|]. split; [exact H5|exact H6].
Defined.

(** ** The verifier *)

Definition ex_proof_of (root : bytes) (number : Z) (txs : list Transaction) : WorkProof :=
  match DeriveSha (F:=unit) txs with
  | Ok txroot => MkWorkProof number (padded_hash (MixHash root txroot) ++ replicate 33 0) txs []
  | _ => MkWorkProof 0 [] [] []
  end.

Definition ex_proof1 : WorkProof := Eval vm_compute in ex_proof_of (h_ProofHash ex_root) 1 [ex_tx].
Definition ex_root1 : bytes := Eval vm_compute in
  match VerifyProof ex_miner_addr (h_ProofHash ex_root) ex_proof1 with Ok r => r | _ => [] end.
Definition ex_proof2 : WorkProof := Eval vm_compute in ex_proof_of ex_root1 2 [ex_tx; NewTransaction [4]].
Definition ex_root2 : bytes := Eval vm_compute in
  match VerifyProof ex_miner_addr ex_root1 ex_proof2 with Ok r => r | _ => [] end.

Lemma ex_verifies :
  VerifyProof ex_miner_addr (h_ProofHash ex_root) ex_proof1 = Ok ex_root1 ∧ VerifyProof ex_miner_addr ex_root1 ex_proof2 = Ok ex_root2.
Proof. split; vm_compute; reflexivity. Qed.

Definition ex_msgs : list WorkProofMsg := [MkWorkProofMsg ex_proof1 []; MkWorkProofMsg ex_proof2 []].

Lemma ex_follows : follows ex_miner_addr (h_ProofHash ex_root) 0 (wpm_Proof <$> ex_msgs) ex_root2.
Proof.
  destruct ex_verifies as [E1 E2]. apply (follows_cons _ _ _ _ ex_root1); [reflexivity|exact E1|].
  apply (follows_cons _ _ _ _ ex_root2); [reflexivity|exact E2|]. apply follows_nil.
Qed.

Definition knows_genesis (wr : worker) (addr root : bytes) : bool :=
  match GetPeerProof (wr_chainDb wr) addr, hc_GetHeaderByNumber 0 (bc_hc (wr_chain wr)) with
  | None, (Some genesis, _) => bool_decide (h_ProofHash genesis = root)
  | _, _ => false
  end.

Lemma knows_genesis_ok wr addr root : knows_genesis wr addr root = true → knows wr addr root 0.
Proof.
  unfold knows_genesis. destruct (GetPeerProof _ addr) eqn:E; [done|]. destruct (hc_GetHeaderByNumber 0 _) as [[genesis|] hc] eqn:Eh; [|done].
  intros H%bool_decide_eq_true. right. split; [done|]. split; [done|]. by exists genesis, hc.
Qed.

Lemma ex_knows : knows ex_verifier ex_miner_addr (h_ProofHash ex_root) 0.
Proof. apply knows_genesis_ok. vm_compute. reflexivity. Qed.

Lemma ex_hashable : Forall hashable (history_txs (wpm_Proof <$> ex_msgs)).
Proof. repeat constructor; try by_decide; vm_compute; reflexivity. Qed.

Lemma honest_miner_is_followed_witness :
  ∃ sigs wr', deal_all 1 (λ _ wr, (false, wr)) [] ex_msgs ex_miner_addr ex_verifier = Ok wr' ∧
    knows wr' ex_miner_addr ex_root2 2 ∧ length sigs = 2%nat ∧
    wr_posted wr' = zip_with (λ ev s, confirmation (wp_Sign (wpm_Proof ev)) s true) ex_msgs sigs.
Proof.
  destruct (honest_miner_is_followed 0 (λ _ wr, (false, wr)) [] ex_msgs ex_miner_addr ex_verifier (h_ProofHash ex_root) 0 ex_root2) as (sigs & wr' & H1 & H2 & H3 & H4 & _).
  - intros [=].
  - by_decide.
  - intros data. by eexists.
  - exact ex_hashable.
  - exact ex_knows.
  - reflexivity || (intros [=]).
  - reflexivity.
  - exact ex_follows.
  - exists sigs, wr'. split; [exact H1|]. split; [exact H2|]. split; [exact H3|exact H4].
Defined.

(** A proof that the verifier can only check after it has asked for proof 1. *)
Definition ex_answer : ResponseStateMsg := MkResponseStateMsg (MkResponseState 1 ex_root1 (replicate 20 1)) [].

Definition ex_wait (wr : worker) : bool * worker :=
  match lru_Peek ex_miner_addr (wr_queryCache wr) with
  | Some msg => if qs_Number (qsm_Qs msg) =? 1 then dealResponseState ex_answer ex_miner_addr wr else (false, wr)
  | None => (false, wr)
  end.

Lemma ex_wait_signalled : signalled_by ex_wait ex_miner_addr 1.
Proof.
  intros wr wr1. unfold ex_wait. destruct (lru_Peek ex_miner_addr (wr_queryCache wr)) as [msg|] eqn:E; [|done].
  destruct (Z.eqb_spec (qs_Number (qsm_Qs msg)) 1); [|done]. intros HE. exists wr, ex_answer, msg. split; [done|]. split; [done|]. split; [by_decide|done].
Qed.

Lemma query_loop_ends_witness :
  verify_loop 2 (λ _, ex_wait) ex_proof2 ex_miner_addr (MkProofState ex_miner_addr (replicate 32 9) 0) ex_verifier ≠ Err ErrOther.
Proof.
  apply (query_loop_ends 0 (λ _, ex_wait) ex_proof2 ex_miner_addr (MkProofState ex_miner_addr (replicate 32 9) 0) ex_verifier ErrOther).
  - by_decide.
  - split; intros [=].
  - intros i. exact ex_wait_signalled.
Defined.

(** ** Histories *)

Definition ex_proof1' : WorkProof := MkWorkProof 1 (wp_Sign ex_proof1) [SetForward true ex_tx] [].

Lemma ex_verify_all :
  verify_all ex_miner_addr (h_ProofHash ex_root) [ex_proof1] = Ok ex_root1 ∧
  verify_all ex_miner_addr (h_ProofHash ex_root) [ex_proof1'] = Ok ex_root1.
Proof. split; vm_compute; reflexivity. Qed.

Lemma ex_history_free :
  no_collision keccak256 ((mix_inputs (h_ProofHash ex_root) [ex_proof1] ++ mix_inputs (h_ProofHash ex_root) [ex_proof1']) ++
    (tx_enc <$> history_txs [ex_proof1] ++ history_txs [ex_proof1'])) ∧
  no_collision sha256 (history_inputs [ex_proof1] ++ history_inputs [ex_proof1']).
Proof. split; apply no_collision_check; vm_compute; reflexivity. Qed.

Lemma ex_history_hashable : Forall hashable (history_txs [ex_proof1] ++ history_txs [ex_proof1']).
Proof. repeat constructor; try by_decide; vm_compute; reflexivity. Qed.

Lemma proof_hash_commits_witness :
  h_ProofHash ex_root = h_ProofHash ex_root ∧
  (map tx_Payload ∘ wp_Txs <$> [ex_proof1]) = (map tx_Payload ∘ wp_Txs <$> [ex_proof1']).
Proof.
  exact (proof_hash_commits ex_miner_addr ex_miner_addr (h_ProofHash ex_root) (h_ProofHash ex_root) [ex_proof1] [ex_proof1'] ex_root1
    eq_refl eq_refl eq_refl ex_history_hashable (proj1 ex_history_free) (proj2 ex_history_free) (proj1 ex_verify_all) (proj2 ex_verify_all)).
Defined.

(** ** Headers that are accepted *)

Definition ex_header_on (parent : Header) : Header :=
  MkHeader (header_hash parent) ex_miner_addr (replicate 32 0) (replicate 32 0) (replicate 32 0) (replicate 32 0) (replicate 32 0)
    (Some 1) (Some (header_number parent + 1)) (Some (header_number parent + 100)) (replicate 97 0).

Definition ex_v1 : Header := Eval vm_compute in ex_header_on ex_root.
Definition ex_v2 : Header := Eval vm_compute in ex_header_on ex_v1.

Definition ex_getHeader (h : bytes) (n : Z) : option Header := if bool_decide (h = h_ParentHash ex_v1) && (n =? 0) then Some ex_root else None.

Lemma ex_validated :
  ValidateHeaderChain (engine_verify ex_getHeader) (λ _, false) [ex_v1; ex_v2] = (O, Ok tt) ∧
  VerifyHeaders ex_getHeader [ex_v1; ex_v2] = Ok [None; None].
Proof. split; vm_compute; reflexivity. Qed.

Lemma validated_headers_linked_witness :
  (ExtraVanity + ExtraSeal ≤ length (h_Extra ex_v2))%nat ∧ ∃ parent, linked_to ex_v2 parent ∧ [ex_v1; ex_v2] !! 0%nat = Some parent.
Proof.
  exact (validated_headers_linked ex_getHeader (λ _, false) [ex_v1; ex_v2] O [None; None] 1 ex_v2 2
    (proj1 ex_validated) (proj2 ex_validated) eq_refl eq_refl ltac:(intros [=])).
Defined.
