(* ===== verification/Primes.v ===== *)
(** * Primality certificates

    The prime fields of common/crypto/bn256 and common/crypto/secp256k1 are given
    by numbers of 254 and 256 bits. This file holds Pocklington's criterion, in
    the form with one base for all the factors, and a checker of certificates
    that evaluates. *)

From Stdlib Require Import Znumtheory Zpow_facts.
From S2P Require Import Prelude.
Local Open Scope Z_scope.

(** ** Powers modulo a number *)

(** [a ^ k mod m] by squaring. *)
Fixpoint powm_pos (m a : Z) (k : positive) : Z :=
  match k with
  | xH => a mod m
  | xO k => let r := powm_pos m a k in (r * r) mod m
  | xI k => let r := powm_pos m a k in ((r * r) mod m * a) mod m
  end.

Definition powm (m a k : Z) : Z :=
  match k with Zpos k => powm_pos m a k | _ => 1 mod m end.

Lemma powm_pos_spec m a k : powm_pos m a k = a ^ Zpos k mod m.
Proof.
  induction k as [k IH|k IH|]; cbn [powm_pos].
  - rewrite IH, <-Zmult_mod, Zmult_mod_idemp_l, Pos2Z.inj_xI, Z.pow_add_r, Z.pow_1_r by lia.
    by rewrite Z.pow_twice_r.
  - by rewrite IH, <-Zmult_mod, Pos2Z.inj_xO, Z.pow_twice_r.
  - by rewrite Z.pow_1_r.
Qed.

Lemma powm_spec m a k : 0 ≤ k → powm m a k = a ^ k mod m.
Proof. destruct k; [done| |lia]. intros _. apply powm_pos_spec. Qed.

(** ** The order of a number *)

Lemma least_nat (Q : nat → Prop) `{∀ n, Decision (Q n)} n :
  Q n → (0 < n)%nat →
  ∃ d, (0 < d)%nat ∧ Q d ∧ ∀ k, (0 < k < d)%nat → ¬ Q k.
Proof.
  induction n as [n IH] using lt_wf_ind. intros Hq Hn.
  destruct (decide (Exists Q (seq 1 (n - 1)))) as [He|He].
  - apply Exists_exists in He as (k & Hk%elem_of_seq & Hq'). by apply (IH k); [lia| |lia].
  - exists n. split_and!; [done..|]. intros k Hk Hq'. apply He, Exists_exists.
    exists k. split; [apply elem_of_seq; lia|done].
Qed.

Section order.
Context (m a : Z) (Hm : 1 < m) (n : nat) (Hn : (0 < n)%nat)
        (Ha : a ^ Z.of_nat n mod m = 1).
Definition is_unit_at (k : nat) : Prop := a ^ Z.of_nat k mod m = 1.
Lemma pow_cancel i k : a ^ Z.of_nat i mod m = a ^ Z.of_nat (i + k) mod m → is_unit_at k.
Proof.
  intros Heq. unfold is_unit_at.
  assert (Hinv : a ^ Z.of_nat (n * i) mod m = 1).
  { rewrite Nat2Z.inj_mul, Z.pow_mul_r, Zpower_mod, Ha, Z.pow_1_l, Z.mod_1_l by lia. done. }
  assert (Hs : (a ^ Z.of_nat (n * i - i) * a ^ Z.of_nat i) mod m = 1).
  { rewrite <-Z.pow_add_r by lia. replace (_ + _)%Z with (Z.of_nat (n * i)) by nia. done. }
  rewrite Nat2Z.inj_add, Z.pow_add_r in Heq by lia.
  transitivity ((a ^ Z.of_nat (n * i - i) * (a ^ Z.of_nat i * a ^ Z.of_nat k)) mod m).
  - rewrite Z.mul_assoc, Zmult_mod, Hs, Z.mul_1_l, Z.mod_mod by lia. done.
  - rewrite Zmult_mod, <-Heq, <-Zmult_mod. done.
Qed.
Lemma order_exists :
  ∃ d : nat, (0 < d)%nat ∧ Z.of_nat d ≤ m ∧ is_unit_at d ∧
    ∀ k : nat, is_unit_at k → (Z.of_nat d | Z.of_nat k).
Proof.
  destruct (least_nat is_unit_at n Ha Hn) as (d & Hd & Hu & Hmin).
  exists d. split_and!; [done| |done|].
  - set (l := (λ k : nat, Z.to_nat (a ^ Z.of_nat k mod m)) <$> seq 0 d).
    assert (Hnd : NoDup l).
    { apply NoDup_fmap_2_strong; [|apply NoDup_seq].
      assert (Hw : ∀ i j : nat, (i < j < d)%nat →
        Z.to_nat (a ^ Z.of_nat i mod m) ≠ Z.to_nat (a ^ Z.of_nat j mod m)).
      { intros i j Hij Heq. apply (Hmin (j - i)%nat); [lia|]. apply (pow_cancel i).
        apply Z2Nat.inj in Heq; [|apply Z.mod_pos_bound; lia..].
        rewrite Heq. do 3 f_equal. lia. }
      intros i j Hi%elem_of_seq Hj%elem_of_seq Heq.
      destruct (lt_eq_lt_dec i j) as [[?|?]|?]; [|done|].
      - by destruct (Hw i j); [lia|].
      - by destruct (Hw j i); [lia|]. }
    assert (Hsub : l ⊆ seq 0 (Z.to_nat m)).
    { intros x (k & -> & _)%list_elem_of_fmap. apply elem_of_seq.
      pose proof (Z.mod_pos_bound (a ^ Z.of_nat k) m). lia. }
    pose proof (submseteq_length _ _ (NoDup_submseteq _ _ Hnd Hsub)) as Hlen.
    unfold l in Hlen. rewrite length_fmap, !length_seq in Hlen. lia.
  - intros k Hk. exists (Z.of_nat (k / d)).
    destruct (decide (k mod d = 0)%nat) as [H0|H0].
    + pose proof (Nat.div_mod_eq k d). nia.
    + exfalso. apply (Hmin (k mod d)%nat); [pose proof (Nat.mod_upper_bound k d); lia|].
      apply (pow_cancel (d * (k / d))). rewrite <-Nat.div_mod_eq.
      unfold is_unit_at in Hk. rewrite Hk, Nat2Z.inj_mul, Z.pow_mul_r by lia.
      unfold is_unit_at in Hu.
      rewrite Zpower_mod, Hu, Z.pow_1_l, Z.mod_1_l by lia. done.
Qed.
End order.

(** ** Pocklington's criterion *)

Definition product (l : list Z) : Z := foldr Z.mul 1 l.

Lemma product_rel_prime c l : Forall (rel_prime c) l → rel_prime c (product l).
Proof.
  induction 1; [apply rel_prime_1_r || apply rel_prime_sym, rel_prime_1|].
  by apply rel_prime_mult.
Qed.

Lemma product_pos l : Forall prime l → 0 < product l.
Proof.
  induction 1 as [|q l Hq _ IH]; [done|]. change (product (q :: l)) with (q * product l).
  pose proof (prime_ge_2 q Hq). nia.
Qed.

(** A number above 1 whose divisors above 1 are all larger than its square root. *)
Lemma prime_large_divisors n :
  1 < n → (∀ m, 1 < m → (m | n) → n < m * m) → prime n.
Proof.
  intros Hn Hd. apply prime_alt. split; [done|]. intros m Hm [k Hk].
  assert (1 < k) by nia.
  pose proof (Hd m ltac:(lia) ltac:(by exists k)).
  pose proof (Hd k ltac:(lia) ltac:(exists m; lia)). nia.
Qed.

Lemma mod_divides n m x y : 1 < n → 1 < m → (m | n) → x mod n = y mod n → x mod m = y mod m.
Proof.
  intros Hn Hm Hd Heq.
  by rewrite (Zmod_div_mod m n x), (Zmod_div_mod m n y), Heq by (lia || done).
Qed.

Lemma pocklington n a qs :
  1 < n → Forall prime qs → (product qs | n - 1) → n < product qs * product qs →
  a ^ (n - 1) mod n = 1 →
  Forall (λ q, rel_prime (a ^ ((n - 1) / q) - 1) n) qs →
  prime n.
Proof.
  intros Hn Hqs Hf Hsq Ha Hc. apply prime_large_divisors; [done|]. intros m Hm Hmn.
  assert (Hk : ∀ k, 0 ≤ k → Z.of_nat (Z.to_nat k) = k) by lia.
  assert (Ham : a ^ (n - 1) mod m = 1).
  { transitivity (1 mod m); [|by apply Z.mod_1_l]. apply (mod_divides n); try done.
    by rewrite Ha, Z.mod_1_l by lia. }
  destruct (order_exists m a Hm (Z.to_nat (n - 1)) ltac:(lia)) as (d & Hd & Hdm & Hu & Hord).
  { by rewrite Hk by lia. }
  destruct (Hord (Z.to_nat (n - 1))) as [c Hc'].
  { unfold is_unit_at. by rewrite Hk by lia. }
  rewrite Hk in Hc' by lia.
  assert (Hrel : rel_prime (product qs) c).
  { apply rel_prime_sym, product_rel_prime. rewrite Forall_forall in *. intros q Hq.
    apply rel_prime_sym, prime_rel_prime; [by apply Hqs|]. intros [c' ->].
    pose proof (prime_ge_2 q (Hqs _ Hq)).
    assert (Hdiv : (n - 1) / q = c' * Z.of_nat d).
    { rewrite Hc'. replace (c' * q * Z.of_nat d) with (c' * Z.of_nat d * q) by ring.
      by rewrite Z.div_mul by lia. }
    assert (Hone : (m | a ^ ((n - 1) / q) - 1)).
    { rewrite Hdiv, Z.mul_comm, Z.pow_mul_r by (nia || lia).
      apply Z.mod_divide; [lia|]. unfold is_unit_at in Hu.
      by rewrite Zminus_mod, Zpower_mod, Hu, Z.pow_1_l, Z.mod_1_l, Z.sub_diag, Z.mod_0_l by (nia || lia). }
    destruct (Hc q Hq) as [_ _ Hgcd]. pose proof (Hgcd m Hone Hmn) as H1.
    apply Z.divide_1_r_nonneg in H1; lia. }
  assert (Hfd : (product qs | Z.of_nat d)).
  { apply Gauss with c; [|done]. by rewrite <-Hc'. }
  apply Z.divide_pos_le in Hfd; [|lia]. pose proof (product_pos qs Hqs). nia.
Qed.

(** ** Certificates *)

(** Trial division, for the small primes of a certificate. *)
Definition trial_prime (n : Z) : bool :=
  (1 <? n) && forallb (λ d, negb (n mod Z.of_nat d =? 0)) (seq 2 (Z.to_nat (Z.sqrt n) - 1)).

Lemma trial_prime_sound n : trial_prime n = true → prime n.
Proof.
  unfold trial_prime. rewrite andb_true_iff, forallb_forall. intros [Hn%Z.ltb_lt Hd].
  apply prime_large_divisors; [done|]. intros m Hm Hmn. apply Z.nle_gt. intros Hle.
  pose proof (Z.sqrt_le_square n m ltac:(lia) ltac:(lia)) as Hsq. 
  specialize (Hd (Z.to_nat m)). rewrite Z2Nat.id in Hd by lia.
  rewrite negb_true_iff, Z.eqb_neq in Hd. apply Hd; [|by apply Z.mod_divide; [lia|]].
  apply in_seq. apply Hsq in Hle. lia.
Qed.

(** A step of a certificate: a number, the base of its powers, and the primes,
    with repetition, of a divisor of the number less one. *)
Record step := { s_number : Z; s_base : Z; s_factors : list Z }.

Definition check_step (known : list Z) (s : step) : bool :=
  let n := s_number s in
  let f := product (s_factors s) in
  (1 <? n) && forallb (λ q, if decide (q ∈ known) then true else trial_prime q) (s_factors s) &&
  ((n - 1) mod f =? 0) && (n <? f * f) && (powm n (s_base s) (n - 1) =? 1) &&
  forallb (λ q, Z.gcd (powm n (s_base s) ((n - 1) / q) - 1) n =? 1) (s_factors s).

(** The numbers of a certificate, each proved from those before it. *)
Fixpoint check_steps (known : list Z) (l : list step) : option (list Z) :=
  match l with
  | [] => Some known
  | s :: l => if check_step known s then check_steps (s_number s :: known) l else None
  end.

Lemma check_step_sound known s :
  Forall prime known → check_step known s = true → prime (s_number s).
Proof.
  intros Hk. unfold check_step. rewrite !andb_true_iff, !forallb_forall, Z.ltb_lt, !Z.eqb_eq.
  intros [[[[[Hn Hq] Hf] Hsq%Z.ltb_lt] Ha] Hg].
  assert (Hqs : Forall prime (s_factors s)).
  { apply Forall_forall. intros q Hin%list_elem_of_In. apply Hq in Hin.
    case_decide; [by eapply Forall_forall in Hk|by apply trial_prime_sound]. }
  apply (pocklington _ (s_base s) (s_factors s)); try done.
  - apply Z.mod_divide; [|done]. pose proof (product_pos _ Hqs). lia.
  - by rewrite <-powm_spec by lia.
  - apply Forall_forall. intros q Hin. pose proof (Hg q) as Hq'.
    rewrite <-list_elem_of_In, Z.eqb_eq in Hq'. specialize (Hq' Hin).
    eapply Forall_forall in Hqs; [|done]. pose proof (prime_ge_2 _ Hqs).
    rewrite powm_spec in Hq' by (apply Z.div_pos; lia).
    apply Zgcd_1_rel_prime. etransitivity; [|exact Hq'].
    rewrite !(Z.gcd_comm _ (s_number s)), <-!(Z.gcd_mod _ (s_number s)) by lia.
    by rewrite Zminus_mod_idemp_l.
Qed.

Lemma check_steps_sound l known r :
  Forall prime known → check_steps known l = Some r → Forall prime r.
Proof.
  revert known. induction l as [|s l IH]; intros known Hk; cbn [check_steps]; [by intros [= <-]|].
  destruct (check_step known s) eqn:Hs; [|done]. apply IH.
  constructor; [by eapply check_step_sound|done].
Qed.

(** A certificate that checks proves its last number. *)
Lemma certified l n r : check_steps [] l = Some (n :: r) → prime n.
Proof. intros Hl. apply check_steps_sound in Hl; [|done]. by inversion Hl. Qed.
