(* ===== verification/Rings.v ===== *)
(** * Commutative rings up to an equivalence

    The numbers of common/crypto/bn256 are reduced lazily, so that they form
    rings only up to congruence. The class [CommRing] states what the towers of
    fields promise to their clients: the operations and the laws of a commutative
    ring up to [req]. For every instance there are powers, the square-and-multiply
    loop of the [Exp] methods, and the binomial theorem, from which raising to the
    characteristic is additive. *)

From Stdlib Require Import Znumtheory Setoid Ring.
From S2P Require Import Prelude.
Local Open Scope Z_scope.

Class CommRing (R : Type) := {
  rzero : R;
  rone : R;
  radd : R → R → R;
  rmul : R → R → R;
  rsub : R → R → R;
  ropp : R → R;
  req : relation R;
  req_equiv :: Equivalence req;
  rext : ring_eq_ext radd rmul ropp req;
  rth : ring_theory rzero rone radd rmul rsub ropp req;
}.

Declare Scope ring_scope.
Delimit Scope ring_scope with R.
Infix "≡r" := req (at level 70, no associativity).
Notation "0" := rzero : ring_scope.
Notation "1" := rone : ring_scope.
Infix "+" := radd : ring_scope.
Infix "*" := rmul : ring_scope.
Infix "-" := rsub : ring_scope.
Notation "- x" := (ropp x) : ring_scope.

#[export] Instance radd_proper `{CommRing R} : Proper (req ==> req ==> req) radd.
Proof. apply rext. Qed.
#[export] Instance rmul_proper `{CommRing R} : Proper (req ==> req ==> req) rmul.
Proof. apply rext. Qed.
#[export] Instance ropp_proper `{CommRing R} : Proper (req ==> req) ropp.
Proof. apply rext. Qed.
#[export] Instance rsub_proper `{CommRing R} : Proper (req ==> req ==> req) rsub.
Proof. intros a b Hab c d Hcd. by rewrite !(Rsub_def rth), Hab, Hcd. Qed.

(** ** Binomial coefficients *)

Fixpoint binom (n k : nat) : nat :=
  match n, k with
  | _, O => 1
  | O, S _ => 0
  | S n, S k => binom n k + binom n (S k)
  end.

Lemma binom_0 n : binom n 0 = 1%nat.
Proof. by destruct n. Qed.
Lemma binom_succ n k : binom (S n) (S k) = (binom n k + binom n (S k))%nat.
Proof. done. Qed.
Lemma binom_large n k : (n < k)%nat → binom n k = 0%nat.
Proof.
  revert k. induction n as [|n IH]; intros [|k] Hk; try lia; [done|].
  rewrite binom_succ, !IH by lia. done.
Qed.
Lemma binom_diag n : binom n n = 1%nat.
Proof. induction n as [|n IH]; [done|]. by rewrite binom_succ, IH, binom_large by lia. Qed.

Lemma binom_absorb n k : (S k * binom (S n) (S k) = S n * binom n k)%nat.
Proof.
  revert k. induction n as [|n IH]; intros k; [destruct k as [|[|k]]; cbn; lia|].
  rewrite (binom_succ (S n)), Nat.mul_add_distr_l, IH.
  destruct k as [|k]; [rewrite !binom_0; lia|].
  pose proof (IH k) as IHk. rewrite binom_succ in *. nia.
Qed.

(** A prime divides its inner binomial coefficients. *)
Lemma binom_prime p k :
  prime (Z.of_nat p) → (0 < k < p)%nat → ∃ c, binom p k = (c * p)%nat.
Proof.
  intros Hp Hk. destruct p as [|p], k as [|k]; try lia.
  pose proof (binom_absorb p k) as Hab. apply (f_equal Z.of_nat) in Hab.
  rewrite !Nat2Z.inj_mul in Hab.
  destruct (prime_mult _ Hp (Z.of_nat (S k)) (Z.of_nat (binom (S p) (S k)))) as [Hd|[c Hc]].
  - rewrite Hab. by apply Z.divide_factor_l.
  - apply Z.divide_pos_le in Hd; lia.
  - exists (Z.to_nat c). nia.
Qed.

(** ** The low bits of an exponent *)

Lemma low_bits_succ (k : Z) (i : nat) :
  Z.to_N (k mod 2 ^ Z.of_nat (S i)) =
  ((if Z.testbit k (Z.of_nat i) then 2 ^ N.of_nat i else 0) + Z.to_N (k mod 2 ^ Z.of_nat i))%N.
Proof.
  pose proof (Z.mod_pos_bound k (2 ^ Z.of_nat i) ltac:(lia)).
  rewrite Nat2Z.inj_succ, Z.pow_succ_r, (Z.mul_comm 2), Z.rem_mul_r by lia.
  rewrite Z.testbit_odd, Z.shiftr_div_pow2, Zmod_odd by lia.
  case (Z.odd _); [|lia].
  rewrite Z.mul_1_r, Z2N.inj_add, N.add_comm by lia. f_equal.
  by rewrite Z2N.inj_pow by lia; rewrite <-nat_N_Z, N2Z.id.
Qed.

Section ring.
Context {R : Type} `{CR : !CommRing R}.
Local Open Scope ring_scope.
Add Ring R_ring : (@rth R CR) (setoid (@req_equiv R CR) (@rext R CR)).
(** ** Powers *)
Definition rpow (a : R) (n : N) : R := N.iter n (rmul a) 1.
#[global] Instance rpow_proper : Proper (req ==> eq ==> req) rpow.
Proof.
  intros a b Hab n _ <-. unfold rpow. induction n as [|n IH] using N.peano_ind; [done|].
  rewrite !N.iter_succ. by apply rmul_proper.
Qed.
Lemma rpow_0 a : rpow a 0 = 1.
Proof. done. Qed.
Lemma rpow_succ a n : rpow a (N.succ n) = a * rpow a n.
Proof. unfold rpow. by rewrite N.iter_succ. Qed.
Lemma rpow_1 a : rpow a 1 ≡r a.
Proof. change 1%N with (N.succ 0). rewrite rpow_succ, rpow_0. ring. Qed.
Lemma rpow_add a m n : rpow a (m + n) ≡r rpow a m * rpow a n.
Proof.
  induction m as [|m IH] using N.peano_ind; [rewrite N.add_0_l, rpow_0; ring|].
  rewrite N.add_succ_l, !rpow_succ, IH. ring.
Qed.
Lemma rpow_mul_l a b n : rpow (a * b) n ≡r rpow a n * rpow b n.
Proof.
  induction n as [|n IH] using N.peano_ind; [rewrite !rpow_0; ring|].
  rewrite !rpow_succ, IH. ring.
Qed.
Lemma rpow_one n : rpow 1 n ≡r 1.
Proof.
  induction n as [|n IH] using N.peano_ind; [done|]. rewrite rpow_succ, IH. ring.
Qed.
Lemma rpow_mul a m n : rpow a (m * n) ≡r rpow (rpow a m) n.
Proof.
  induction n as [|n IH] using N.peano_ind; [by rewrite N.mul_0_r|].
  rewrite N.mul_succ_r, N.add_comm, rpow_add, IH, rpow_succ. done.
Qed.
Lemma rpow_comm a m n : rpow (rpow a m) n ≡r rpow (rpow a n) m.
Proof. by rewrite <-!rpow_mul, N.mul_comm. Qed.
Lemma rpow_sqr a : rpow a 2 ≡r a * a.
Proof. change 2%N with (N.succ (N.succ 0)). rewrite !rpow_succ, rpow_0. ring. Qed.
(** ** Square and multiply *)
(** The loop of the [Exp] methods, from bit [i] less one down, over any squaring
    and multiplication: [sum] is replaced by its square, times [a] where the bit
    is set. *)
Section exp_loop.
Context (sq : R → R) (mul : R → R → R).
Context (Hsq : ∀ x, sq x ≡r x * x) (Hmul : ∀ x y, mul x y ≡r x * y).
Fixpoint exp_loop (a : R) (power : Z) (i : nat) (sum : R) : R :=
  match i with
  | O => sum
  | S i =>
      let t := sq sum in
      exp_loop a power i (if Z.testbit power (Z.of_nat i) then mul t a else t)
  end.
Lemma exp_loop_spec a power i sum :
  exp_loop a power i sum
  ≡r rpow sum (2 ^ N.of_nat i) * rpow a (Z.to_N (power mod 2 ^ Z.of_nat i)).
Proof.
  revert sum. induction i as [|i IH]; intros sum; cbn [exp_loop].
  { change (Z.of_nat 0) with 0%Z. rewrite Z.mod_1_r. cbn [Z.to_N].
    change (2 ^ N.of_nat 0)%N with 1%N. rewrite rpow_1, rpow_0. ring. }
  rewrite IH.
  assert (Hp : (2 ^ N.of_nat (S i) = 2 * 2 ^ N.of_nat i)%N).
  { by rewrite Nat2N.inj_succ, N.pow_succ_r'. }
  rewrite low_bits_succ, Hp, rpow_mul, rpow_sqr, rpow_add.
  destruct (Z.testbit _ _).
  - rewrite Hmul, Hsq, !rpow_mul_l. ring.
  - rewrite Hsq, rpow_0, !rpow_mul_l. ring.
Qed.
Lemma exp_loop_one a power i :
  exp_loop a power i 1 ≡r rpow a (Z.to_N (power mod 2 ^ Z.of_nat i)).
Proof. rewrite exp_loop_spec, rpow_one. ring. Qed.
End exp_loop.
(** ** Multiples of one, and sums *)
Definition rnat (n : N) : R := N.iter n (radd 1) 0.
Lemma rnat_0 : rnat 0 = 0.
Proof. done. Qed.
Lemma rnat_succ n : rnat (N.succ n) = 1 + rnat n.
Proof. unfold rnat. by rewrite N.iter_succ. Qed.
Lemma rnat_add m n : rnat (m + n) ≡r rnat m + rnat n.
Proof.
  induction m as [|m IH] using N.peano_ind; [rewrite N.add_0_l; cbn; ring|].
  rewrite N.add_succ_l, !rnat_succ, IH. ring.
Qed.
Lemma rnat_mul m n : rnat (m * n) ≡r rnat m * rnat n.
Proof.
  induction m as [|m IH] using N.peano_ind; [rewrite N.mul_0_l; cbn; ring|].
  rewrite N.mul_succ_l, N.add_comm, rnat_add, rnat_succ, IH. ring.
Qed.
Fixpoint rsum (f : nat → R) (n : nat) : R :=
  match n with O => 0 | S n => rsum f n + f n end.
Lemma rsum_ext f g n : (∀ k, (k < n)%nat → f k ≡r g k) → rsum f n ≡r rsum g n.
Proof.
  induction n as [|n IH]; intros Hfg; cbn [rsum]; [done|].
  rewrite IH, Hfg by auto with lia. done.
Qed.
Lemma rsum_zero f n : (∀ k, (k < n)%nat → f k ≡r 0) → rsum f n ≡r 0.
Proof.
  induction n as [|n IH]; intros Hf; cbn [rsum]; [done|].
  rewrite IH, Hf by auto with lia. ring.
Qed.
Lemma rsum_add f g n : rsum (λ k, f k + g k) n ≡r rsum f n + rsum g n.
Proof. induction n as [|n IH]; cbn [rsum]; [ring|]. rewrite IH. ring. Qed.
Lemma rsum_scale c f n : rsum (λ k, c * f k) n ≡r c * rsum f n.
Proof. induction n as [|n IH]; cbn [rsum]; [ring|]. rewrite IH. ring. Qed.
Lemma rsum_shift f n : rsum f (S n) ≡r f O + rsum (λ k, f (S k)) n.
Proof.
  induction n as [|n IH]; [cbn; ring|]. cbn [rsum] in *. rewrite IH. ring.
Qed.
(** ** The binomial theorem *)
Definition rterm (a b : R) (n k : nat) : R :=
  rnat (N.of_nat (binom n k)) * (rpow a (N.of_nat k) * rpow b (N.of_nat (n - k))).
Lemma rterm_succ a b n k :
  (k < n)%nat → rterm a b (S n) (S k) ≡r a * rterm a b n k + b * rterm a b n (S k).
Proof.
  intros Hk. unfold rterm. rewrite binom_succ, Nat2N.inj_add, rnat_add.
  replace (S n - S k)%nat with (S (n - S k)) by lia.
  replace (n - k)%nat with (S (n - S k)) by lia.
  rewrite !Nat2N.inj_succ, !rpow_succ. ring.
Qed.
Lemma binomial a b n : rpow (a + b) (N.of_nat n) ≡r rsum (rterm a b n) (S n).
Proof.
  induction n as [|n IH].
  { change (1 ≡r 0 + (1 + 0) * (1 * 1)). ring. }
  rewrite Nat2N.inj_succ, rpow_succ, IH, (rsum_shift (rterm a b (S n))).
  transitivity (a * rsum (rterm a b n) (S n) + b * rsum (rterm a b n) (S n)); [ring|].
  rewrite (rsum_shift (rterm a b n) n) at 2. cbn [rsum].
  rewrite (rsum_ext (λ k, rterm a b (S n) (S k)) (λ k, a * rterm a b n k + b * rterm a b n (S k)) n)
    by (intros; by apply rterm_succ).
  rewrite rsum_add, !rsum_scale.
  assert (Hl : rterm a b (S n) (S n) ≡r a * rterm a b n n).
  { unfold rterm. rewrite !binom_diag, !Nat.sub_diag, (Nat2N.inj_succ n), rpow_succ. ring. }
  assert (Hf : rterm a b (S n) 0 ≡r b * rterm a b n 0).
  { unfold rterm. rewrite !binom_0, !Nat.sub_0_r, (Nat2N.inj_succ n), rpow_succ. ring. }
  rewrite Hl, Hf. ring.
Qed.
(** In characteristic [p], raising to the [p] is additive. *)
Lemma frobenius_add (p : N) a b :
  prime (Z.of_N p) → rnat p ≡r 0 → rpow (a + b) p ≡r rpow a p + rpow b p.
Proof.
  intros Hp H0. pose proof (prime_ge_2 _ Hp).
  destruct (N.to_nat p) as [|n] eqn:E; [lia|].
  assert (p = N.of_nat (S n)) as -> by lia. clear E.
  rewrite binomial, rsum_shift. cbn [rsum]. rewrite (rsum_zero _ n).
  - unfold rterm. rewrite binom_0, binom_diag, Nat.sub_0_r, Nat.sub_diag.
    change (N.of_nat 1) with (N.succ 0). change (N.of_nat 0) with 0%N.
    rewrite rnat_succ, !rpow_0. change (rnat 0) with 0. ring.
  - intros k Hk. unfold rterm.
    destruct (binom_prime (S n) (S k)) as [c Hc]; [by rewrite <-nat_N_Z|lia|].
    rewrite Hc, Nat2N.inj_mul, rnat_mul, H0. ring.
Qed.
End ring.
