(* ===== verification/Jacobian.v ===== *)
(** * Points in Jacobian coordinates

    The formulas that common/crypto/bn256/curve.go, common/crypto/bn256/twist.go
    and common/crypto/secp256k1/curve.go all use (add-2007-bl and dbl-2009-l of the
    Explicit-Formulas Database, for curves y² = x³ + b), over any commutative ring,
    and their relation to the chord-and-tangent law on affine points. *)

From Stdlib Require Import Setoid Ring.
From S2P Require Import Prelude Rings.
Local Open Scope ring_scope.

Section jacobian.
Context {R : Type} `{CR : !CommRing R} (b : R).
Add Ring R_ring : (@rth R CR) (setoid (@req_equiv R CR) (@rext R CR)).
(** A point [(X, Y, Z)] stands for the affine point [(X / Z², Y / Z³)]. *)
Definition jpoint : Type := R * R * R.
Definition on_jac (p : jpoint) : Prop :=
  let '(x, y, z) := p in y * y ≡r x * x * x + b * (z * z * z * (z * z * z)).
Definition jac_double (p : jpoint) : jpoint :=
  let '(x, y, z) := p in
  let A := x * x in
  let B := y * y in
  let C := B * B in
  let D := let t := (x + B) * (x + B) - A - C in t + t in
  let E := A + A + A in
  let x3 := E * E - (D + D) in
  let y3 := E * (D - x3) - (let c2 := C + C in let c4 := c2 + c2 in c4 + c4) in
  (x3, y3, y * z + y * z).
Definition jac_u1 (p q : jpoint) : R := let '(x1, _, _) := p in let '(_, _, z2) := q in x1 * (z2 * z2).
Definition jac_s1 (p q : jpoint) : R :=
  let '(_, y1, _) := p in let '(_, _, z2) := q in y1 * (z2 * (z2 * z2)).
Definition jac_add (p q : jpoint) : jpoint :=
  let '(x1, y1, z1) := p in
  let '(x2, y2, z2) := q in
  let u1 := jac_u1 p q in
  let u2 := jac_u1 q p in
  let s1 := jac_s1 p q in
  let s2 := jac_s1 q p in
  let h := u2 - u1 in
  let i := (h + h) * (h + h) in
  let j := h * i in
  let r := (s2 - s1) + (s2 - s1) in
  let v := u1 * i in
  let x3 := r * r - j - (v + v) in
  let y3 := r * (v - x3) - (s1 * j + s1 * j) in
  (x3, y3, ((z1 + z2) * (z1 + z2) - z1 * z1 - z2 * z2) * h).
Definition jeq (p q : jpoint) : Prop :=
  let '(x, y, z) := p in let '(x', y', z') := q in x ≡r x' ∧ y ≡r y' ∧ z ≡r z'.
#[global] Instance jeq_equiv : Equivalence jeq.
Proof.
  split.
  - by intros [[??]?].
  - intros [[??]?] [[??]?] (?&?&?). done.
  - intros [[??]?] [[??]?] [[??]?] (H1&H2&H3) (?&?&?). cbn. by rewrite H1, H2, H3.
Qed.
#[global] Instance on_jac_proper : Proper (jeq ==> iff) on_jac.
Proof. intros [[??]?] [[??]?] (H1&H2&H3). cbn. by rewrite H1, H2, H3. Qed.
#[global] Instance jac_double_proper : Proper (jeq ==> jeq) jac_double.
Proof. intros [[??]?] [[??]?] (H1&H2&H3). cbn. by rewrite H1, H2, H3. Qed.
#[global] Instance jac_add_proper : Proper (jeq ==> jeq ==> jeq) jac_add.
Proof.
  intros [[??]?] [[??]?] (H1&H2&H3) [[??]?] [[??]?] (H4&H5&H6). cbn.
  by rewrite H1, H2, H3, H4, H5, H6.
Qed.
(** ** The formulas stay on the curve *)
Lemma combine_zero (l r g1 g2 k1 k2 : R) :
  g1 ≡r 0 → g2 ≡r 0 → l - r ≡r k1 * g1 + k2 * g2 → l ≡r r.
Proof. intros H1 H2 H. transitivity ((l - r) + r); [ring|]. rewrite H, H1, H2. ring. Qed.
Lemma sub_zero x y : x ≡r y → x - y ≡r 0.
Proof. intros ->. ring. Qed.
Lemma sub_zero_inv x y : x - y ≡r 0 → x ≡r y.
Proof. intros H. transitivity ((x - y) + y); [ring|]. rewrite H. ring. Qed.
Definition r2 : R := 1 + 1.
Definition r8 : R := r2 * r2 * r2.
Lemma jac_double_on p : on_jac p → on_jac (jac_double p).
Proof.
  destruct p as [[x y] z]. cbn. intros Hc%sub_zero.
  refine (combine_zero _ _ _ 0 (r8 * r8 * (y * y * y * (y * y * y))) 0 Hc _ _); [done|].
  unfold r8, r2. ring.
Qed.
(** The chord through [(u1, s1)] and [(u2, s2)], on the curve with constant [c]. *)
Lemma chord_on u1 u2 s1 s2 c :
  let h := u2 - u1 in let i := (h + h) * (h + h) in let j := h * i in
  let r := (s2 - s1) + (s2 - s1) in let v := u1 * i in
  let x3 := r * r - j - (v + v) in
  let y3 := r * (v - x3) - (s1 * j + s1 * j) in
  s1 * s1 ≡r u1 * u1 * u1 + c → s2 * s2 ≡r u2 * u2 * u2 + c →
  y3 * y3 ≡r x3 * x3 * x3 + r8 * r8 * c * (h * h * h * (h * h * h)).
Proof.
  intros h i j r v x3 y3 H1%sub_zero H2%sub_zero.
  set (d := s2 - s1).
  set (k := h * h * h * (d * d - h * h * (u2 + u1 + u1))).
  refine (combine_zero _ _ _ _ (r8 * r8 * (h * h * h * (h * h * h) - k)) (r8 * r8 * k) H1 H2 _).
  unfold k, d, y3, x3, v, r, j, i, h, r8, r2. ring.
Qed.
Lemma jac_add_on p q : on_jac p → on_jac q → on_jac (jac_add p q).
Proof.
  destruct p as [[x1 y1] z1], q as [[x2 y2] z2]. unfold on_jac. intros H1 H2.
  set (w := z1 * z2). set (c := b * (w * w * w * (w * w * w))).
  pose proof (chord_on (x1 * (z2 * z2)) (x2 * (z1 * z1)) (y1 * (z2 * (z2 * z2)))
                (y2 * (z1 * (z1 * z1))) c) as Hc.
  cbn zeta in Hc. cbn [jac_add jac_u1 jac_s1]. rewrite Hc.
  - apply radd_proper; [done|]. unfold c, w, r8, r2. ring.
  - transitivity (y1 * y1 * (z2 * z2 * z2 * (z2 * z2 * z2))); [ring|]. rewrite H1.
    unfold c, w. ring.
  - transitivity (y2 * y2 * (z1 * z1 * z1 * (z1 * z1 * z1))); [ring|]. rewrite H2.
    unfold c, w. ring.
Qed.
(** ** The formulas are the chord-and-tangent law *)
(** [p] stands for the affine point [(x, y)]. *)
Definition stands_for (p : jpoint) (x y : R) : Prop :=
  let '(X, Y, Z) := p in X ≡r x * (Z * Z) ∧ Y ≡r y * (Z * (Z * Z)).
Lemma jac_double_tangent p x y l :
  stands_for p x y → l * (y + y) ≡r x * x + x * x + x * x →
  let x3 := l * l - x - x in
  stands_for (jac_double p) x3 (l * (x - x3) - y).
Proof.
  destruct p as [[X Y] Z]. intros [HX HY] Hl x3. cbn [jac_double stands_for].
  set (e := l * (y + y)) in Hl.
  assert (H3 : ∀ t, t * (x * x + x * x + x * x) ≡r t * e) by (intros; by rewrite Hl).
  rewrite HX, HY. split.
  - transitivity ((e * e - r8 * x * (y * y)) * (Z * Z * Z * Z * (Z * Z * Z * Z))).
    + rewrite Hl. unfold r8, r2. ring.
    + unfold e, x3, r8, r2. ring.
  - transitivity ((e * (r8 * x * (y * y) + r2 * r2 * x * (y * y) - e * e) - r8 * (y * y * (y * y)))
                  * (Z * Z * Z * Z * (Z * Z * Z * Z) * (Z * Z * Z * Z))).
    + rewrite Hl. unfold r8, r2. ring.
    + unfold e, x3, r8, r2. ring.
Qed.
Lemma jac_add_chord p q x1 y1 x2 y2 l :
  stands_for p x1 y1 → stands_for q x2 y2 → l * (x2 - x1) ≡r y2 - y1 →
  let x3 := l * l - x1 - x2 in
  stands_for (jac_add p q) x3 (l * (x1 - x3) - y1).
Proof.
  destruct p as [[X1 Y1] Z1], q as [[X2 Y2] Z2]. intros [HX1 HY1] [HX2 HY2] Hl x3.
  assert (Hy2 : y2 ≡r y1 + l * (x2 - x1)) by (rewrite Hl; ring).
  cbn [jac_add jac_u1 jac_s1 stands_for]. rewrite HX1, HY1, HX2, HY2, Hy2.
  unfold x3. split; ring.
Qed.
(** ** Over a field *)
Class IsField := {
  field_dec :: ∀ x y : R, Decision (x ≡r y);
  field_one : ¬ (1 : R) ≡r 0;
  field_two : ¬ r2 ≡r 0;
  field_inv : ∀ x : R, ¬ x ≡r 0 → ∃ y, x * y ≡r 1;
}.
Context `{HF : IsField}.
Lemma no_zero_divisors x y : x * y ≡r 0 → x ≡r 0 ∨ y ≡r 0.
Proof.
  intros H. destruct (decide (x ≡r 0)) as [?|Hx]; [by left|right].
  destruct (field_inv x Hx) as [x' Hx'].
  transitivity (x * x' * y); [rewrite Hx'; ring|].
  transitivity (x' * (x * y)); [ring|]. rewrite H. ring.
Qed.
Lemma mul_nonzero x y : ¬ x ≡r 0 → ¬ y ≡r 0 → ¬ x * y ≡r 0.
Proof. intros Hx Hy [H|H]%no_zero_divisors; done. Qed.
Lemma double_zero y : y + y ≡r 0 → y ≡r 0.
Proof.
  intros H. destruct (no_zero_divisors r2 y) as [H2|]; [|by destruct (field_two H2)|done].
  unfold r2. transitivity (y + y); [ring|done].
Qed.
Lemma mul_cancel x y z : ¬ z ≡r 0 → x * z ≡r y * z → x ≡r y.
Proof.
  intros Hz H. destruct (no_zero_divisors (x - y) z) as [H0|H0]; [|by apply sub_zero_inv|done].
  transitivity (x * z - y * z); [ring|]. by apply sub_zero.
Qed.
(** Affine points with the point at infinity, and the chord-and-tangent law. *)
Definition affine : Type := option (R * R).
Inductive aff_add : affine → affine → affine → Prop :=
| aff_inf_l P : aff_add None P P
| aff_inf_r P : aff_add P None P
| aff_chord x1 y1 x2 y2 l x3 y3 :
    ¬ x1 ≡r x2 → l * (x2 - x1) ≡r y2 - y1 →
    x3 ≡r l * l - x1 - x2 → y3 ≡r l * (x1 - x3) - y1 →
    aff_add (Some (x1, y1)) (Some (x2, y2)) (Some (x3, y3))
| aff_tangent x1 y1 x2 y2 l x3 y3 :
    x1 ≡r x2 → y1 ≡r y2 → ¬ y1 ≡r 0 → l * (y1 + y1) ≡r x1 * x1 + x1 * x1 + x1 * x1 →
    x3 ≡r l * l - x1 - x1 → y3 ≡r l * (x1 - x3) - y1 →
    aff_add (Some (x1, y1)) (Some (x2, y2)) (Some (x3, y3))
| aff_vertical x1 y1 x2 y2 :
    x1 ≡r x2 → y1 ≡r - y2 → aff_add (Some (x1, y1)) (Some (x2, y2)) None.
Definition jac_repr (p : jpoint) (P : affine) : Prop :=
  match P with
  | None => p.2 ≡r 0
  | Some (x, y) => ¬ p.2 ≡r 0 ∧ stands_for p x y
  end.
#[global] Instance jac_repr_proper : Proper (jeq ==> eq ==> iff) jac_repr.
Proof.
  intros [[??]?] [[??]?] (H1&H2&H3) P _ <-. unfold jac_repr, stands_for.
  destruct P as [[x y]|]; cbn; by rewrite ?H1, ?H2, H3.
Qed.
Lemma jac_repr_total p : ∃ P, jac_repr p P.
Proof.
  destruct p as [[X Y] Z]. destruct (decide (Z ≡r 0)) as [HZ|HZ]; [by exists None|].
  destruct (field_inv Z HZ) as [Z' HZ'].
  exists (Some (X * (Z' * Z'), Y * (Z' * (Z' * Z')))). split; [done|]. split.
  - transitivity (X * ((Z * Z') * (Z * Z'))); [rewrite HZ'; ring|ring].
  - transitivity (Y * ((Z * Z') * ((Z * Z') * (Z * Z')))); [rewrite HZ'; ring|ring].
Qed.
Definition on_affine (P : affine) : Prop :=
  match P with None => True | Some (x, y) => y * y ≡r x * x * x + b end.
(** The coordinates of the point at infinity are arbitrary. *)
Definition valid_jac (p : jpoint) : Prop := p.2 ≡r 0 ∨ on_jac p.
#[global] Instance valid_jac_proper : Proper (jeq ==> iff) valid_jac.
Proof.
  intros p q Hpq. unfold valid_jac. pose proof (on_jac_proper _ _ Hpq) as Hon.
  destruct p as [[??]?], q as [[??]?], Hpq as (_&_&H). cbn [snd]. by rewrite Hon, H.
Qed.
Lemma jac_repr_on p P : jac_repr p P → valid_jac p → on_affine P.
Proof.
  destruct P as [[x y]|]; [|done]. destruct p as [[X Y] Z]. intros [HZ [HX HY]] [?|Hon]; [done|].
  cbn in *. rewrite HX, HY in Hon.
  apply (mul_cancel _ _ (Z * Z * Z * (Z * Z * Z))); [auto using mul_nonzero|].
  transitivity (y * (Z * (Z * Z)) * (y * (Z * (Z * Z)))); [ring|]. rewrite Hon. ring.
Qed.
(** The law has a result for any two points of the curve. *)
Lemma aff_add_total P Q : on_affine P → on_affine Q → ∃ S, aff_add P Q S.
Proof.
  destruct P as [[x1 y1]|]; [|intros; eexists; constructor].
  destruct Q as [[x2 y2]|]; [|intros; eexists; constructor]. cbn. intros H1 H2.
  destruct (decide (x1 ≡r x2)) as [Hx|Hx].
  - destruct (decide (y1 ≡r - y2)) as [Hy|Hy]; [eexists; by apply aff_vertical|].
    assert (y1 ≡r y2) as Hy'.
    { destruct (no_zero_divisors (y1 - y2) (y1 + y2)) as [H0|H0].
      - transitivity (y1 * y1 - y2 * y2); [ring|]. rewrite H1, H2, Hx. ring.
      - by apply sub_zero_inv.
      - destruct Hy. transitivity ((y1 + y2) - y2); [ring|]. rewrite H0. ring. }
    assert (¬ y1 ≡r 0) as Hn.
    { intros H0. apply Hy. rewrite <-Hy', H0. ring. }
    destruct (field_inv (y1 + y1)) as [i Hi]; [by intros ?%double_zero|].
    eexists. eapply (aff_tangent _ _ _ _ ((x1 * x1 + x1 * x1 + x1 * x1) * i)); try done.
    transitivity ((x1 * x1 + x1 * x1 + x1 * x1) * ((y1 + y1) * i)); [ring|]. rewrite Hi. ring.
  - destruct (field_inv (x2 - x1)) as [i Hi]; [by intros H0%sub_zero_inv; apply Hx|].
    eexists. eapply (aff_chord _ _ _ _ ((y2 - y1) * i)); try done.
    transitivity ((y2 - y1) * ((x2 - x1) * i)); [ring|]. rewrite Hi. ring.
Qed.
(** Addition with its special cases, as the methods [Add] have them. *)
Definition jac_plus (p q : jpoint) : jpoint :=
  if decide (p.2 ≡r 0) then q
  else if decide (q.2 ≡r 0) then p
  else if decide (jac_u1 q p ≡r jac_u1 p q ∧ jac_s1 q p ≡r jac_s1 p q) then jac_double p
  else jac_add p q.
Lemma jac_plus_valid p q : valid_jac p → valid_jac q → valid_jac (jac_plus p q).
Proof.
  intros Hp Hq. unfold jac_plus. case_decide as H1; [done|]. case_decide as H2; [done|].
  destruct Hp as [?|Hp]; [done|]. destruct Hq as [?|Hq]; [done|]. right.
  case_decide; auto using jac_double_on, jac_add_on.
Qed.
Lemma stands_for_proper p x y x' y' :
  x ≡r x' → y ≡r y' → stands_for p x y → stands_for p x' y'.
Proof. destruct p as [[X Y] Z]. intros Hx Hy [HX HY]. cbn. by rewrite HX, HY, Hx, Hy. Qed.
(** Equal affine coordinates, tested without division. *)
Lemma same_x p q x1 y1 x2 y2 :
  ¬ p.2 ≡r 0 → ¬ q.2 ≡r 0 → stands_for p x1 y1 → stands_for q x2 y2 →
  (jac_u1 q p ≡r jac_u1 p q ↔ x1 ≡r x2).
Proof.
  destruct p as [[X1 Y1] Z1], q as [[X2 Y2] Z2]. cbn. intros HZ1 HZ2 [HX1 _] [HX2 _].
  rewrite HX1, HX2. split; [|intros ->; ring]. intros H.
  apply (mul_cancel _ _ (Z1 * Z1 * (Z2 * Z2))); [auto using mul_nonzero|].
  transitivity (x1 * (Z1 * Z1) * (Z2 * Z2)); [ring|]. rewrite <-H. ring.
Qed.
Lemma same_y p q x1 y1 x2 y2 :
  ¬ p.2 ≡r 0 → ¬ q.2 ≡r 0 → stands_for p x1 y1 → stands_for q x2 y2 →
  (jac_s1 q p ≡r jac_s1 p q ↔ y1 ≡r y2).
Proof.
  destruct p as [[X1 Y1] Z1], q as [[X2 Y2] Z2]. cbn. intros HZ1 HZ2 [_ HY1] [_ HY2].
  rewrite HY1, HY2. split; [|intros ->; ring]. intros H.
  apply (mul_cancel _ _ (Z1 * (Z1 * Z1) * (Z2 * (Z2 * Z2)))); [auto 6 using mul_nonzero|].
  transitivity (y1 * (Z1 * (Z1 * Z1)) * (Z2 * (Z2 * Z2))); [ring|]. rewrite <-H. ring.
Qed.
Lemma jac_double_z p : (jac_double p).2 ≡r (p.1.2 + p.1.2) * p.2.
Proof. destruct p as [[X Y] Z]. cbn. ring. Qed.
Lemma jac_add_z p q :
  (jac_add p q).2 ≡r r2 * (p.2 * q.2) * (jac_u1 q p - jac_u1 p q).
Proof. destruct p as [[X1 Y1] Z1], q as [[X2 Y2] Z2]. unfold r2. cbn. ring. Qed.
(** The second coordinate of a sum, by the equation of the first. *)
Ltac third_point :=
  match goal with
  | H : ?y3 ≡r _ * (_ - ?x3) - _, Hx : ?x3 ≡r _ |- _ ≡r ?y3 => rewrite H, Hx
  end.
Lemma jac_double_valid p : valid_jac p → valid_jac (jac_double p).
Proof.
  intros [H|H]; [left|right; by apply jac_double_on]. rewrite jac_double_z, H. ring.
Qed.
(** Doubling in Jacobian coordinates is doubling of affine points. *)
Lemma jac_double_jac_repr p P S :
  jac_repr p P → aff_add P P S → jac_repr (jac_double p) S.
Proof.
  intros Hp Hadd. inversion Hadd; subst; unfold jac_repr in *.
  - rewrite jac_double_z, Hp. ring.
  - rewrite jac_double_z, Hp. ring.
  - match goal with H : ¬ ?x ≡r ?x |- _ => by destruct H end.
  - destruct Hp as [HZ Hs]. split.
    + rewrite jac_double_z. apply mul_nonzero; [|done]. destruct p as [[X Y] Z].
      destruct Hs as [_ HY]. cbn in *. rewrite HY. intros H%double_zero.
      by repeat apply no_zero_divisors in H as [H|H].
    + eapply stands_for_proper; [..|by eapply jac_double_tangent].
      * done.
      * by third_point.
  - destruct Hp as [HZ Hs]. rewrite jac_double_z. destruct p as [[X Y] Z].
    destruct Hs as [_ HY]. cbn in *. rewrite HY.
    assert (y1 ≡r 0) as ->; [|ring].
    apply double_zero. match goal with H : y1 ≡r - y1 |- _ => rewrite H at 1 end. ring.
Qed.
(** Addition in Jacobian coordinates is addition of affine points. *)
Lemma jac_plus_jac_repr p q P Q S :
  jac_repr p P → jac_repr q Q → aff_add P Q S → jac_repr (jac_plus p q) S.
Proof.
  intros Hp Hq Hadd. unfold jac_plus.
  destruct P as [[x1 y1]|]; cycle 1.
  { rewrite decide_True by done. inversion Hadd; subst; [done|].
    (* both at infinity *) done. }
  destruct Hp as [HZ1 Hs1]. rewrite decide_False by done.
  destruct Q as [[x2 y2]|]; cycle 1.
  { rewrite decide_True by done. by inversion Hadd; subst. }
  destruct Hq as [HZ2 Hs2]. rewrite decide_False by done.
  rewrite (decide_ext _ (x1 ≡r x2 ∧ y1 ≡r y2)); cycle 1.
  { by rewrite same_x, same_y by done. }
  inversion Hadd; subst.
  - rewrite decide_False by tauto. split.
    + rewrite jac_add_z. apply mul_nonzero; [auto using mul_nonzero, field_two|].
      by intros H%sub_zero_inv%(same_x p q x1 y1 x2 y2 HZ1 HZ2 Hs1 Hs2).
    + eapply stands_for_proper; [..|by eapply jac_add_chord]; [done|].
      by third_point.
  - rewrite decide_True by done.
    apply (jac_double_jac_repr _ (Some (x1, y1))); [done|]. by eapply aff_tangent.
  - case_decide as Hd.
    + destruct Hd as [_ Hy]. apply (jac_double_jac_repr _ (Some (x1, y1))); [done|].
      apply aff_vertical; [done|]. by rewrite Hy at 2.
    + cbn. rewrite jac_add_z.
      assert (jac_u1 q p ≡r jac_u1 p q) as -> by (by eapply (same_x p q)). ring.
Qed.
(** ** Multiples *)
(** [multiple P k S]: [S] is a sum of [k] copies of [P], in some bracketing. *)
Inductive multiple (P : affine) : N → affine → Prop :=
| multiple_zero : multiple P 0 None
| multiple_one : multiple P 1 P
| multiple_add m n S T U :
    multiple P m S → multiple P n T → aff_add S T U → multiple P (m + n) U.
(** Double and add from bit [i] less one down, as the methods [Mul] do it, over
    any implementation of the two operations. *)
Section mul_loop.
Context {A : Type} (co : A → jpoint) (dbl : A → A) (add : A → A).
Context (a : jpoint) (Ha : valid_jac a) (P : affine) (HP : jac_repr a P).
Context (inv : A → Prop).
Context (Hdbl : ∀ x, inv x → jeq (co (dbl x)) (jac_double (co x)) ∧ inv (dbl x)).
Context (Hadd : ∀ x, inv x → jeq (co (add x)) (jac_plus (co x) a) ∧ inv (add x)).
Fixpoint mul_loop (scalar : Z) (i : nat) (sum : A) : A :=
  match i with
  | O => sum
  | S i =>
      let t := dbl sum in
      mul_loop scalar i (if Z.testbit scalar (Z.of_nat i) then add t else t)
  end.
Definition is_multiple (n : N) (x : A) : Prop :=
  inv x ∧ valid_jac (co x) ∧ ∃ S, jac_repr (co x) S ∧ multiple P n S.
Lemma is_multiple_dbl n x : is_multiple n x → is_multiple (n + n) (dbl x).
Proof.
  intros (Hi & Hon & S & HS & Hm). destruct (Hdbl x Hi) as [Heq Hi'].
  destruct (aff_add_total S S) as [T HT]; [by eapply jac_repr_on..|].
  split_and!; [done| |].
  - rewrite Heq. by apply jac_double_valid.
  - exists T. rewrite Heq. eauto using jac_double_jac_repr, multiple_add.
Qed.
Lemma is_multiple_add n x : is_multiple n x → is_multiple (n + 1) (add x).
Proof.
  intros (Hi & Hon & S & HS & Hm). destruct (Hadd x Hi) as [Heq Hi'].
  destruct (aff_add_total S P) as [T HT]; [by eapply jac_repr_on..|].
  split_and!; [done| |].
  - rewrite Heq. by apply jac_plus_valid.
  - exists T. rewrite Heq. eauto using jac_plus_jac_repr, multiple_add, multiple_one.
Qed.
Lemma mul_loop_spec scalar i n x :
  is_multiple n x →
  is_multiple (n * 2 ^ N.of_nat i + Z.to_N (scalar mod 2 ^ Z.of_nat i)) (mul_loop scalar i x).
Proof.
  revert n x. induction i as [|i IH]; intros n x Hx; cbn [mul_loop].
  { change (Z.of_nat 0) with 0%Z. rewrite Z.mod_1_r, N.mul_1_r, N.add_0_r. done. }
  rewrite low_bits_succ, Nat2N.inj_succ, N.pow_succ_r'.
  destruct (Z.testbit _ _).
  - replace (_ + _)%N with ((n + n + 1) * 2 ^ N.of_nat i + Z.to_N (scalar mod 2 ^ Z.of_nat i))%N
      by lia.
    by apply IH, is_multiple_add, is_multiple_dbl.
  - replace (_ + _)%N with ((n + n) * 2 ^ N.of_nat i + Z.to_N (scalar mod 2 ^ Z.of_nat i))%N
      by lia.
    by apply IH, is_multiple_dbl.
Qed.
End mul_loop.
End jacobian.
