(* ===== verification/PrimeField.v ===== *)
(** * Numbers modulo a number

    The integers modulo [m] as a [CommRing], and as a field when [m] is a prime;
    Fermat's little theorem; [ModInverse] of math/big by the extended Euclidean
    algorithm. *)

From Stdlib Require Import Znumtheory Setoid Ring Zdiv.
From S2P Require Import Prelude Primes Rings Jacobian.
Local Open Scope Z_scope.

(** ** The ring *)

Definition congr (m a b : Z) : Prop := (m | a - b).

Section zmod.
Context (m : Z).
#[global] Instance congr_equiv : Equivalence (congr m).
Proof.
  split; unfold congr.
  - intros a. rewrite Z.sub_diag. apply Z.divide_0_r.
  - intros a b [k Hk]. exists (- k). lia.
  - intros a b c [k Hk] [k' Hk']. exists (k + k'). lia.
Qed.
#[global] Instance congr_add : Proper (congr m ==> congr m ==> congr m) Z.add.
Proof. intros a a' [k Hk] b b' [k' Hk']. exists (k + k'). lia. Qed.
#[global] Instance congr_sub : Proper (congr m ==> congr m ==> congr m) Z.sub.
Proof. intros a a' [k Hk] b b' [k' Hk']. exists (k - k'). lia. Qed.
#[global] Instance congr_opp : Proper (congr m ==> congr m) Z.opp.
Proof. intros a a' [k Hk]. exists (- k). lia. Qed.
#[global] Instance congr_mul : Proper (congr m ==> congr m ==> congr m) Z.mul.
Proof.
  intros a a' [k Hk] b b' [k' Hk']. exists (k * b + a' * k').
  replace (a * b - a' * b') with ((a - a') * b + a' * (b - b')) by ring. rewrite Hk, Hk'. ring.
Qed.
Lemma zmod_ext : ring_eq_ext Z.add Z.mul Z.opp (congr m).
Proof. split; apply _. Qed.
Lemma zmod_theory : ring_theory 0 1 Z.add Z.mul Z.sub Z.opp (congr m).
Proof. split; intros; match goal with |- congr m ?a ?b => replace a with b by ring end; done. Qed.
Definition zmod_ring : CommRing Z := {|
  rzero := 0; rone := 1; radd := Z.add; rmul := Z.mul; rsub := Z.sub; ropp := Z.opp;
  req := congr m; req_equiv := congr_equiv; rext := zmod_ext; rth := zmod_theory |}.
Lemma congr_mod a : congr m (a mod m) a.
Proof.
  unfold congr. destruct (decide (m = 0)) as [->|Hm].
  { rewrite Zmod_0_r, Z.sub_diag. apply Z.divide_0_r. }
  exists (- (a / m)). pose proof (Z.div_mod a m Hm). lia.
Qed.
Lemma congr_iff a b : 0 < m → congr m a b ↔ a mod m = b mod m.
Proof.
  intros Hm. split.
  - intros [k Hk]. replace a with (b + k * m) by lia. apply Z_mod_plus_full.
  - intros Heq. rewrite <-(congr_mod a), Heq. apply congr_mod.
Qed.
Lemma congr_0 a : 0 < m → congr m a 0 ↔ a mod m = 0.
Proof. intros Hm. by rewrite congr_iff, Z.mod_0_l by lia. Qed.
Lemma congr_small a b : 0 ≤ a < m → 0 ≤ b < m → congr m a b → a = b.
Proof. intros Ha Hb Heq. apply congr_iff in Heq; [|lia]. by rewrite !Z.mod_small in Heq. Qed.
#[global] Instance congr_dec a b : Decision (congr m a b) := Zdivide_dec m (a - b).
End zmod.

Lemma eq_congr m a b : a = b → congr m a b.
Proof. by intros ->. Qed.

Lemma zmod_rpow m a n : @rpow Z (zmod_ring m) a n = a ^ Z.of_N n.
Proof.
  unfold rpow. induction n as [|n IH] using N.peano_ind; [done|].
  rewrite N.iter_succ, IH, N2Z.inj_succ, Z.pow_succ_r by lia. done.
Qed.

Lemma zmod_rnat m n : @rnat Z (zmod_ring m) n = Z.of_N n.
Proof.
  unfold rnat. induction n as [|n IH] using N.peano_ind; [done|].
  rewrite N.iter_succ, IH, N2Z.inj_succ. cbn. lia.
Qed.

(** ** The field *)

Section prime_field.
Context (p : Z) (Hp : prime p).
Lemma prime_unit a : ¬ congr p a 0 → ∃ a', congr p (a * a') 1.
Proof.
  unfold congr. rewrite Z.sub_0_r. intros Ha.
  destruct (rel_prime_bezout a p) as [u v Huv]; [by apply rel_prime_sym, prime_rel_prime|].
  exists u, (- v). lia.
Qed.
Lemma zmod_field : 2 < p → @IsField Z (zmod_ring p).
Proof.
  intros H2. split.
  - intros x y. change (Decision (congr p x y)). apply _.
  - change (¬ congr p 1 0). rewrite congr_0, Z.mod_1_l by lia. done.
  - change (¬ congr p 2 0). rewrite congr_0, Z.mod_small by lia. done.
  - intros x Hx. by apply prime_unit.
Defined.
(** Fermat's little theorem: the map to the power [p] is additive and fixes 1. *)
Lemma fermat a : congr p (a ^ p) a.
Proof.
  pose proof (prime_ge_2 p Hp).
  assert (Hn : ∀ n : N, congr p (Z.of_N n ^ p) (Z.of_N n)).
  { induction n as [|n IH] using N.peano_ind; [by rewrite Z.pow_0_l by lia|].
    pose proof (@frobenius_add Z (zmod_ring p) (Z.to_N p) (Z.of_N n) 1) as Hf.
    rewrite !zmod_rpow, zmod_rnat, !Z2N.id, Z.pow_1_l in Hf by lia.
    change (prime p → congr p p 0 → congr p ((Z.of_N n + 1) ^ p) (Z.of_N n ^ p + 1)) in Hf.
    rewrite N2Z.inj_succ. unfold Z.succ. rewrite Hf, IH; [done..|].
    apply congr_0; [lia|]. apply Z_mod_same_full. }
  pose proof (Z.mod_pos_bound a p ltac:(lia)).
  specialize (Hn (Z.to_N (a mod p))). rewrite Z2N.id in Hn by lia.
  rewrite <-(congr_mod p a) at 2. rewrite <-Hn.
  apply congr_iff; [lia|]. apply Zpow_facts.Zpower_mod. lia.
Qed.
End prime_field.

(** ** Inverses *)

(** The extended Euclidean algorithm with the coefficients of [b] only: the
    greatest common divisor of [a] and [b], and its coefficient. *)
Fixpoint egcd (k : nat) (a b s0 s1 : Z) : Z * Z :=
  match k with
  | O => (a, s0)
  | S k => if b =? 0 then (a, s0) else egcd k b (a mod b) s1 (s0 - a / b * s1)
  end.

(** [ModInverse] of math/big: the inverse of [g] modulo [n] in [[0, n)], or nil. *)
Definition ModInverse (g n : Z) : option Z :=
  let '(d, x) := egcd (Z.to_nat (Z.log2 (n * n) + 1)) n (g mod n) 0 1 in
  if d =? 1 then Some (x mod n) else None.

Lemma egcd_spec k n g a b s0 s1 :
  0 ≤ b ≤ a → a * b < 2 ^ Z.of_nat k →
  congr n (s0 * g) a → congr n (s1 * g) b →
  let '(d, x) := egcd k a b s0 s1 in d = Z.gcd a b ∧ congr n (x * g) d.
Proof.
  revert a b s0 s1. induction k as [|k IH]; intros a b s0 s1 Hab Hk H0 H1; cbn [egcd].
  { assert (b = 0 ∨ a = 0) as [->| ->] by nia; [|replace b with 0 by lia];
      split; try done; rewrite Z.gcd_0_r; lia. }
  destruct (Z.eqb_spec b 0) as [->|Hb]; [split; [rewrite Z.gcd_0_r; lia|done]|].
  pose proof (Z.mod_pos_bound a b ltac:(lia)). pose proof (Z.div_mod a b ltac:(lia)).
  assert (1 ≤ a / b) by (apply Z.div_le_lower_bound; lia).
  specialize (IH b (a mod b) s1 (s0 - a / b * s1)).
  destruct (egcd k b (a mod b) s1 (s0 - a / b * s1)) as [d x].
  rewrite Z.gcd_comm, Z.gcd_mod, Z.gcd_comm in IH by lia.
  apply IH; [lia| |done|].
  - rewrite Nat2Z.inj_succ, Z.pow_succ_r in Hk by lia. nia.
  - rewrite Z.mul_sub_distr_r, <-Z.mul_assoc, H0, H1.
    replace (a - a / b * b) with (a mod b) by lia. done.
Qed.

Lemma ModInverse_spec g n :
  1 < n →
  match ModInverse g n with
  | Some r => 0 ≤ r < n ∧ congr n (g * r) 1
  | None => ¬ rel_prime g n
  end.
Proof.
  intros Hn. unfold ModInverse. pose proof (Z.mod_pos_bound g n ltac:(lia)).
  pose proof (egcd_spec (Z.to_nat (Z.log2 (n * n) + 1)) n g n (g mod n) 0 1) as He.
  destruct (egcd _ _ _ _ _) as [d x]. destruct He as [Hd Hx].
  - lia.
  - pose proof (Z.log2_spec (n * n) ltac:(nia)). pose proof (Z.log2_nonneg (n * n)).
    rewrite Z2Nat.id by lia. unfold Z.succ in *. nia.
  - symmetry. apply congr_0; [lia|]. apply Z_mod_same_full.
  - by rewrite congr_mod, Z.mul_1_l.
  - destruct (Z.eqb_spec d 1) as [->|Hd1].
    + split; [apply Z.mod_pos_bound; lia|]. by rewrite congr_mod, Z.mul_comm.
    + intros Hr%Zgcd_1_rel_prime. rewrite Z.gcd_comm, Z.gcd_mod, Z.gcd_comm in Hd by lia. lia.
Qed.

Lemma ModInverse_congr g g' n : 0 < n → congr n g g' → ModInverse g n = ModInverse g' n.
Proof. intros Hn Hg. unfold ModInverse. apply congr_iff in Hg; [|done]. by rewrite Hg. Qed.

(** Modulo a prime, there is an inverse unless the number is zero. *)
Lemma ModInverse_prime g p :
  prime p → ModInverse g p = None ↔ congr p g 0.
Proof.
  intros Hp. pose proof (prime_ge_2 p Hp). pose proof (ModInverse_spec g p ltac:(lia)) as Hs.
  destruct (ModInverse g p) as [r|].
  - destruct Hs as [_ Hr]. split; [done|]. intros H0. rewrite H0 in Hr.
    apply congr_iff in Hr; [|lia]. rewrite Z.mul_0_l, Z.mod_0_l, Z.mod_1_l in Hr by lia. done.
  - split; [|done]. intros _. unfold congr. rewrite Z.sub_0_r.
    destruct (Zdivide_dec p g) as [?|Hn]; [done|].
    destruct Hs. by apply rel_prime_sym, prime_rel_prime.
Qed.
