(* ===== verification/MathBig.v ===== *)
(** * Numbers: common/math and what the code uses of math/big and strconv

    A [*big.Int] is an integer; [Bits] are the 64-bit words of its absolute value.
    big.go and integer.go with the byte forms of numbers ([ReadBits],
    [PaddedBigBytes]), arithmetic modulo 2^256 ([U256], [S256], [Exp]), parsing, and
    64-bit arithmetic that reports overflow. Text is a list of bytes. *)

From Stdlib Require Import Setoid Zquot.
From S2P Require Import Prelude Rings PrimeField.
Local Open Scope Z_scope.

(** ** math/big *)

Definition BitLen (x : Z) : Z := if x =? 0 then 0 else Z.log2 (Z.abs x) + 1.

Definition wordBits : nat := 64.
Definition wordBytes : nat := 8.

Fixpoint words (n : nat) (z : Z) : list Z :=
  match n with
  | O => []
  | S n => z mod 2 ^ 64 :: words n (z / 2 ^ 64)
  end.

Definition Bits (x : Z) : list Z := words (Z.to_nat ((BitLen x + 63) / 64)) (Z.abs x).

(** The value of a digit in a base of at most 16. *)
Definition digit (base c : Z) : option Z :=
  let d := if (48 <=? c) && (c <=? 57) then c - 48
           else if (97 <=? c) && (c <=? 102) then c - 97 + 10
           else if (65 <=? c) && (c <=? 70) then c - 65 + 10
           else 16 in
  if d <? base then Some d else None.

Fixpoint digits_val (base acc : Z) (s : bytes) : option Z :=
  match s with
  | [] => Some acc
  | c :: s => d ← digit base c; digits_val base (acc * base + d) s
  end.

(** [SetString] with an explicit base: an optional sign and at least one digit. *)
Definition big_SetString (s : bytes) (base : Z) : option Z :=
  let '(neg, ds) := match s with
                    | 45 :: t => (true, t)
                    | 43 :: t => (false, t)
                    | _ => (false, s)
                    end in
  match ds with
  | [] => None
  | _ => v ← digits_val base 0 ds; Some (if neg then - v else v)
  end.

(** ** strconv *)

Inductive num_error := ErrSyntaxNum | ErrRangeNum.

Definition MaxUint64 : Z := 2 ^ 64 - 1.

(** The loop of [ParseUint]: the first bad digit or overflow ends it. *)
Fixpoint ParseUint_loop (base n : Z) (s : bytes) : Z * option num_error :=
  match s with
  | [] => (n, None)
  | c :: s =>
      match digit base c with
      | None => (0, Some ErrSyntaxNum)
      | Some d =>
          if MaxUint64 / base + 1 <=? n then (MaxUint64, Some ErrRangeNum)
          else
            let n := n * base in
            let n1 := wrap 64 (n + d) in
            if n1 <? n then (MaxUint64, Some ErrRangeNum)
            else ParseUint_loop base n1 s
      end
  end.

Definition ParseUint (s : bytes) (base : Z) : Z * option num_error :=
  match s with
  | [] => (0, Some ErrSyntaxNum)
  | _ => ParseUint_loop base 0 s
  end.

(** The lower-case hexadecimal digits of a number, as [AppendUint] and [%x] write
    them. *)
Definition hex_char (d : Z) : Z := if d <? 10 then d + 48 else d - 10 + 97.

Fixpoint hex_fixed (n : nat) (z : Z) : bytes :=
  match n with
  | O => []
  | S n => hex_fixed n (z / 16) ++ [hex_char (z mod 16)]
  end.

Definition hex_len (z : Z) : nat := if z =? 0 then 1 else Z.to_nat (Z.log2 z / 4 + 1).
Definition hex_digits (z : Z) : bytes := hex_fixed (hex_len z) z.

(** [%#x] of a number: the sign comes before the prefix. *)
Definition fmt_hex (z : Z) : bytes := (if z <? 0 then [45] else []) ++ [48; 120] ++ hex_digits (Z.abs z).

(** ** common/math/big.go *)

Definition tt255 : Z := 2 ^ 255.
Definition tt256 : Z := 2 ^ 256.
Definition tt256m1 : Z := tt256 - 1.

Definition has_hex_prefix (s : bytes) : bool :=
  match s with
  | 48 :: c :: _ => (c =? 120) || (c =? 88)
  | _ => false
  end.

Definition ParseBig256 (s : bytes) : option Z :=
  match s with
  | [] => Some 0
  | _ =>
      let r := if has_hex_prefix s then big_SetString (drop 2 s) 16 else big_SetString s 10 in
      bigint ← r;
      if 256 <? BitLen bigint then None else Some bigint
  end.

Definition MustParseBig256 (s : bytes) : outcome unit Z :=
  match ParseBig256 s with None => Panic | Some v => Ok v end.

(** [Exp] without a modulus gives one for a negative exponent. *)
Definition BigPow (a b : Z) : Z := if b <=? 0 then 1 else a ^ b.

Definition BigMax (x y : Z) : Z := if x <? y then y else x.
Definition BigMin (x y : Z) : Z := if y <? x then y else x.

Fixpoint FirstBitSet_loop (v : Z) (rounds : nat) (i : Z) : Z :=
  match rounds with
  | O => BitLen v
  | S rounds => if Z.testbit v i then i else FirstBitSet_loop v rounds (i + 1)
  end.
Definition FirstBitSet (v : Z) : Z := FirstBitSet_loop v (Z.to_nat (BitLen v)) 0.

(** The inner loop of [ReadBits] on one word. *)
Fixpoint read_word (j : nat) (d : Z) (i : nat) (buf : bytes) : nat * bytes :=
  match j, i with
  | S j, S i => read_word j (Z.shiftr d 8) i (<[i := u8 d]> buf)
  | _, _ => (i, buf)
  end.

Fixpoint ReadBits_loop (ws : list Z) (i : nat) (buf : bytes) : bytes :=
  match ws with
  | [] => buf
  | d :: ws => let '(i, buf) := read_word wordBytes d i buf in ReadBits_loop ws i buf
  end.

Definition ReadBits (bigint : Z) (buf : bytes) : bytes := ReadBits_loop (Bits bigint) (length buf) buf.

Definition PaddedBigBytes (bigint : Z) (n : nat) : bytes :=
  if Z.of_nat n <=? BitLen bigint / 8 then be_bytes (Z.abs bigint)
  else ReadBits bigint (replicate n 0).

Definition bigEndianByteAt (bigint : Z) (n : nat) : Z :=
  match Bits bigint !! (n / wordBytes)%nat with
  | None => 0
  | Some word => u8 (Z.shiftr word (8 * Z.of_nat (n mod wordBytes)))
  end.

Definition Byte (bigint : Z) (padlength n : nat) : Z :=
  if (padlength <=? n)%nat then 0 else bigEndianByteAt bigint (padlength - 1 - n).

Definition U256 (x : Z) : Z := Z.land x tt256m1.
Definition S256 (x : Z) : Z := if x <? tt255 then x else x - tt256.

(** One word of [Exp]: the result and the base, which is squared in place. *)
Fixpoint exp_word (k : nat) (word result base : Z) : Z * Z :=
  match k with
  | O => (result, base)
  | S k =>
      let result := if Z.land word 1 =? 1 then U256 (result * base) else result in
      exp_word k (Z.shiftr word 1) result (U256 (base * base))
  end.

Fixpoint Exp_loop (ws : list Z) (result base : Z) : Z * Z :=
  match ws with
  | [] => (result, base)
  | word :: ws => let '(result, base) := exp_word wordBits word result base in Exp_loop ws result base
  end.

(** The result, and what is left in the caller's [base], another number than
    [exponent]. *)
Definition Exp (base exponent : Z) : Z * Z := Exp_loop (Bits exponent) 1 base.

(** ** common/math/integer.go *)

Definition ParseUint64 (s : bytes) : Z * bool :=
  match s with
  | [] => (0, true)
  | _ =>
      let '(v, err) := if has_hex_prefix s then ParseUint (drop 2 s) 16 else ParseUint s 10 in
      (v, match err with None => true | Some _ => false end)
  end.

Definition MustParseUint64 (s : bytes) : outcome unit Z :=
  let '(v, ok) := ParseUint64 s in if ok then Ok v else Panic.

Definition SafeSub (x y : Z) : Z * bool := (wrap 64 (x - y), x <? y).
Definition SafeAdd (x y : Z) : Z * bool := (wrap 64 (x + y), wrap 64 (MaxUint64 - x) <? y).
Definition SafeMul (x y : Z) : Z * bool :=
  if (x =? 0) || (y =? 0) then (0, false) else (wrap 64 (x * y), MaxUint64 / x <? y).

(** The text forms of [HexOrDecimal256] and [HexOrDecimal64]. *)
Definition HexOrDecimal256_UnmarshalText (input : bytes) : option Z := ParseBig256 input.
Definition HexOrDecimal256_MarshalText (i : option Z) : bytes :=
  match i with None => [48; 120; 48] | Some i => fmt_hex i end.
Definition HexOrDecimal64_UnmarshalText (i : Z) (input : bytes) : Z * bool :=
  let '(v, ok) := ParseUint64 input in if ok then (v, true) else (i, false).
Definition HexOrDecimal64_MarshalText (i : Z) : bytes := fmt_hex i.

(** ** Lengths and bytes of numbers *)

Lemma BitLen_nonneg k : 0 ≤ BitLen k.
Proof. unfold BitLen. case_match; [lia|]. pose proof (Z.log2_nonneg (Z.abs k)). lia. Qed.

Lemma BitLen_abs_bound k : Z.abs k < 2 ^ BitLen k.
Proof.
  unfold BitLen. destruct (Z.eqb_spec k 0) as [->|H0]; [done|]. apply Z.log2_spec. lia.
Qed.

Lemma BitLen_bound k : 0 ≤ k → k < 2 ^ BitLen k.
Proof. intros Hk. pose proof (BitLen_abs_bound k). lia. Qed.

Lemma BitLen_mod k : 0 ≤ k → k mod 2 ^ Z.of_nat (Z.to_nat (BitLen k)) = k.
Proof.
  intros Hk. rewrite Z2Nat.id by apply BitLen_nonneg. apply Z.mod_small.
  split; [done|by apply BitLen_bound].
Qed.

Lemma BitLen_le k n : 0 ≤ n → BitLen k ≤ n ↔ Z.abs k < 2 ^ n.
Proof.
  intros Hn. unfold BitLen. destruct (Z.eqb_spec k 0) as [->|H0].
  { split; [|done]. intros _. by apply Z.pow_pos_nonneg. }
  rewrite (Z.log2_lt_pow2 (Z.abs k)) by lia. lia.
Qed.

Lemma be_fixed_app a b z :
  be_fixed (a + b) z = be_fixed a (z / 256 ^ Z.of_nat b) ++ be_fixed b z.
Proof.
  revert z. induction b as [|b IH]; intros z.
  { by rewrite Nat.add_0_r, Z.pow_0_r, Z.div_1_r, app_nil_r. }
  rewrite Nat.add_succ_r. cbn [be_fixed]. rewrite IH, app_assoc, Nat2Z.inj_succ, Z.pow_succ_r by lia.
  by rewrite Z.div_div by lia.
Qed.

Lemma be_fixed_0 n : be_fixed n 0 = replicate n 0.
Proof. induction n as [|n IH]; [done|]. change (be_fixed n 0 ++ [0] = replicate (S n) 0). by rewrite IH, <-replicate_cons_app. Qed.

Lemma be_fixed_pad m k z : 0 ≤ z < 256 ^ Z.of_nat k → be_fixed (m + k) z = replicate m 0 ++ be_fixed k z.
Proof. intros Hz. by rewrite be_fixed_app, Z.div_small, be_fixed_0. Qed.

Lemma be_fixed_mod k m z : (k ≤ m)%nat → be_fixed k (z mod 256 ^ Z.of_nat m) = be_fixed k z.
Proof.
  intros Hk. rewrite <-(be_fixed_val (be_fixed k z)) by apply be_fixed_byte.
  rewrite <-(be_fixed_val (be_fixed k (z mod _))) by apply be_fixed_byte.
  rewrite !length_be_fixed, !be_val_fixed. f_equal.
  replace m with ((m - k) + k)%nat by lia. rewrite Nat2Z.inj_add, Z.pow_add_r, Z.mul_comm by lia.
  assert (0 < 256 ^ Z.of_nat k) by (apply Z.pow_pos_nonneg; lia).
  assert (0 < 256 ^ Z.of_nat (m - k)) by (apply Z.pow_pos_nonneg; lia).
  by rewrite Z.rem_mul_r, (Z.mul_comm (256 ^ _)), Z.mod_add, Z.mod_mod by lia.
Qed.

Lemma be_val_zeros n l : be_val (replicate n 0 ++ l) = be_val l.
Proof. induction n as [|n IH]; [done|]. cbn [replicate app]. rewrite be_val_cons, IH. lia. Qed.

Lemma byte_len_le z n : 0 ≤ z < 256 ^ Z.of_nat n → (byte_len z ≤ n)%nat.
Proof.
  intros Hz. destruct (decide (z = 0)) as [->|H0]; [unfold byte_len; cbn; lia|].
  destruct (byte_len_bounds z ltac:(lia)) as [Hl _].
  assert (Z.of_nat (byte_len z) - 1 < Z.of_nat n); [|lia].
  apply (Z.pow_lt_mono_r_iff 256); lia.
Qed.

Lemma padded_be_bytes z n :
  0 ≤ z < 256 ^ Z.of_nat n → replicate (n - byte_len z) 0 ++ be_bytes z = be_fixed n z.
Proof.
  intros Hz. pose proof (byte_len_le z n Hz).
  replace n with ((n - byte_len z) + byte_len z)%nat at 2 by lia. symmetry. apply be_fixed_pad.
  split; [lia|]. destruct (decide (z = 0)) as [->|]; [done|]. apply byte_len_bounds. lia.
Qed.

(** ** Reading and padding *)

Lemma length_words n z : length (words n z) = n.
Proof. revert z. induction n as [|n IH]; intros z; [done|]. cbn. by rewrite IH. Qed.

Lemma words_lookup n z i :
  (i < n)%nat → words n z !! i = Some ((z / 2 ^ (64 * Z.of_nat i)) mod 2 ^ 64).
Proof.
  revert z i. induction n as [|n IH]; intros z [|i] Hi; try lia.
  { by rewrite Z.mul_0_r, Z.pow_0_r, Z.div_1_r. }
  cbn [words lookup list_lookup]. rewrite IH by lia. do 2 f_equal.
  rewrite Nat2Z.inj_succ, Z.mul_succ_r, Z.add_comm, Z.pow_add_r by lia. by rewrite Z.div_div by lia.
Qed.

Lemma read_word_spec j d pre post :
  let k := Nat.min j (length pre) in
  read_word j d (length pre) (pre ++ post) =
    ((length pre - k)%nat, take (length pre - k) pre ++ be_fixed k d ++ post).
Proof.
  revert d pre post. induction j as [|j IH]; intros d pre post.
  { cbn [Nat.min read_word be_fixed]. rewrite Nat.sub_0_r, firstn_all. by destruct (length pre). }
  destruct pre as [|x pre _] using rev_ind; [done|].
  rewrite length_app, Nat.add_1_r, <-app_assoc. cbn [read_word Nat.min].
  rewrite <-(Nat.add_0_r (length pre)) at 2. rewrite insert_app_r. cbn [app insert list_insert].
  rewrite Z.shiftr_div_pow2 by lia. change (2 ^ 8) with 256.
  rewrite IH. cbn zeta. rewrite Nat.sub_succ. f_equal.
  rewrite take_app_le by lia. cbn [be_fixed]. by rewrite <-app_assoc.
Qed.

Lemma ReadBits_loop_spec n z pre post :
  let k := Nat.min (wordBytes * n) (length pre) in
  ReadBits_loop (words n z) (length pre) (pre ++ post) =
    take (length pre - k) pre ++ be_fixed k z ++ post.
Proof.
  revert z pre post. induction n as [|n IH]; intros z pre post.
  { rewrite Nat.mul_0_r. cbn [Nat.min words ReadBits_loop be_fixed]. by rewrite Nat.sub_0_r, firstn_all. }
  cbn [words ReadBits_loop]. rewrite read_word_spec. set (k1 := Nat.min wordBytes (length pre)).
  assert (Hl : length (take (length pre - k1) pre) = (length pre - k1)%nat) by (rewrite length_take; lia).
  rewrite <-Hl at 1. rewrite IH, Hl. cbn zeta.
  change (2 ^ 64) with (256 ^ Z.of_nat wordBytes).
  rewrite (be_fixed_mod k1) by (unfold k1; lia).
  destruct (decide (length pre ≤ wordBytes)%nat) as [Hs|Hs].
  - replace (length pre - k1)%nat with O by lia.
    replace (Nat.min (wordBytes * n) 0) with O by lia.
    replace (Nat.min (wordBytes * S n) (length pre)) with k1 by lia.
    replace (length pre - k1)%nat with O by lia. done.
  - replace k1 with wordBytes by lia.
    set (k2 := Nat.min (wordBytes * n) (length pre - wordBytes)).
    replace (Nat.min (wordBytes * S n) (length pre)) with (k2 + wordBytes)%nat by lia.
    rewrite be_fixed_app, take_take, <-app_assoc. do 2 f_equal. lia.
Qed.

Lemma Bits_bound x : Z.abs x < 256 ^ Z.of_nat (wordBytes * length (Bits x)).
Proof.
  unfold Bits. rewrite length_words. pose proof (BitLen_nonneg x).
  eapply Z.lt_le_trans; [apply BitLen_abs_bound|]. change 256 with (2 ^ 8).
  rewrite <-Z.pow_mul_r by lia. apply Z.pow_le_mono_r; [lia|].
  pose proof (Z.div_pos (BitLen x + 63) 64 ltac:(lia) ltac:(lia)).
  rewrite Nat2Z.inj_mul, Z2Nat.id by done. change (Z.of_nat wordBytes) with 8.
  pose proof (Z.div_mod (BitLen x + 63) 64). pose proof (Z.mod_pos_bound (BitLen x + 63) 64). lia.
Qed.

(** [ReadBits] overwrites as many bytes at the end as the words of the number have. *)
Lemma ReadBits_spec x buf :
  let k := Nat.min (wordBytes * length (Bits x)) (length buf) in
  ReadBits x buf = take (length buf - k) buf ++ be_fixed k (Z.abs x).
Proof.
  pose proof (ReadBits_loop_spec (Z.to_nat ((BitLen x + 63) / 64)) (Z.abs x) buf []) as H.
  cbn zeta in H. rewrite !app_nil_r in H. unfold ReadBits, Bits. rewrite !length_words. exact H.
Qed.

Lemma ReadBits_zeros x n :
  Z.abs x < 256 ^ Z.of_nat n → ReadBits x (replicate n 0) = be_fixed n (Z.abs x).
Proof.
  intros Hx. rewrite ReadBits_spec, length_replicate. cbn zeta.
  set (k := Nat.min _ n). assert (k ≤ n)%nat by (unfold k; lia).
  rewrite take_replicate. replace (Nat.min (n - k) n) with (n - k)%nat by lia.
  rewrite <-be_fixed_pad; [f_equal; lia|]. split; [lia|].
  unfold k. destruct (Nat.min_spec (wordBytes * length (Bits x)) n) as [[_ ->]|[_ ->]]; [|done].
  apply Bits_bound.
Qed.

Lemma PaddedBigBytes_spec x n :
  PaddedBigBytes x n =
    if decide (Z.abs x < 256 ^ Z.of_nat n) then be_fixed n (Z.abs x) else be_bytes (Z.abs x).
Proof.
  unfold PaddedBigBytes. pose proof (BitLen_le x (8 * Z.of_nat n) ltac:(lia)) as Hle.
  rewrite Z.pow_mul_r in Hle by lia. change (2 ^ 8) with 256 in Hle.
  pose proof (BitLen_nonneg x).
  pose proof (Z.div_mod (BitLen x) 8). pose proof (Z.mod_pos_bound (BitLen x) 8).
  destruct (Z.leb_spec (Z.of_nat n) (BitLen x / 8)); case_decide; try (apply ReadBits_zeros); try lia; try done.
  unfold be_bytes. f_equal. destruct (decide (x = 0)) as [->|Hx0].
  { change (BitLen 0) with 0 in *. change (byte_len (Z.abs 0)) with O. lia. }
  assert (BitLen x = Z.log2 (Z.abs x) + 1) as HB by (unfold BitLen; case_match; lia).
  unfold byte_len. case_cmp.
  replace (Z.log2 (Z.abs x)) with ((Z.of_nat n - 1) * 8 + 7) by lia.
  rewrite Z.div_add_l by lia. change (7 / 8) with 0. lia.
Qed.

Lemma bigEndianByteAt_spec x n : bigEndianByteAt x n = (Z.abs x / 256 ^ Z.of_nat n) mod 256.
Proof.
  unfold bigEndianByteAt. pose proof (Bits_bound x) as Hb. unfold Bits in *. rewrite length_words in Hb.
  set (N := Z.to_nat _) in *. set (z := Z.abs x) in *.
  pose proof (Nat.div_mod_eq n wordBytes) as Hn. pose proof (Nat.mod_upper_bound n wordBytes ltac:(done)) as Hm.
  destruct (decide (n / wordBytes < N)%nat) as [Hi|Hi].
  - rewrite words_lookup by done. unfold u8, wrap.
    rewrite Z.shiftr_div_pow2 by lia. change (2 ^ 8) with 256. set (r := (n mod wordBytes)%nat) in *.
    set (q := (n / wordBytes)%nat) in *.
    apply Z.bits_inj'. intros b Hb0. change 256 with (2 ^ 8).
    destruct (Z.ltb_spec b 8) as [Hb8|Hb8]; [|by rewrite !Z.mod_pow2_bits_high by lia].
    rewrite !Z.mod_pow2_bits_low by done. rewrite <-Z.pow_mul_r by lia.
    rewrite !Z.div_pow2_bits by lia. unfold wordBytes in *. rewrite Z.mod_pow2_bits_low by lia.
    rewrite Z.div_pow2_bits by lia. f_equal. lia.
  - rewrite lookup_ge_None_2 by (rewrite length_words; lia). rewrite Z.div_small; [done|].
    split; [unfold z; lia|]. eapply Z.lt_le_trans; [exact Hb|]. apply Z.pow_le_mono_r; [lia|].
    unfold wordBytes in *. lia.
Qed.

(** ** Arithmetic modulo 2^256 *)

Lemma U256_mod x : U256 x = x mod tt256.
Proof. unfold U256, tt256m1, tt256. rewrite <-Z.land_ones by lia. f_equal. Qed.

Lemma U256_congr x : congr tt256 (U256 x) x.
Proof. rewrite U256_mod. apply congr_mod. Qed.

Lemma U256_range x : 0 ≤ U256 x < tt256.
Proof. rewrite U256_mod. by apply Z.mod_pos_bound. Qed.

Lemma congr_pow m a b k : 0 ≤ k → congr m a b → congr m (a ^ k) (b ^ k).
Proof.
  intros Hk Hab. pattern k. apply natlike_ind; [done| |done]. intros j Hj IH.
  rewrite !Z.pow_succ_r by done. exact (congr_mul m _ _ Hab _ _ IH).
Qed.

Lemma mod_pow2_succ w k : w mod 2 ^ Z.of_nat (S k) = 2 * ((w / 2) mod 2 ^ Z.of_nat k) + w mod 2.
Proof.
  rewrite Nat2Z.inj_succ, Z.pow_succ_r by lia.
  assert (0 < 2 ^ Z.of_nat k) by (apply Z.pow_pos_nonneg; lia).
  rewrite Z.rem_mul_r by lia. lia.
Qed.

Lemma exp_word_spec k w r b :
  let '(r', b') := exp_word k w r b in
  congr tt256 r' (r * b ^ (w mod 2 ^ Z.of_nat k)) ∧ congr tt256 b' (b ^ 2 ^ Z.of_nat k) ∧
  (0 ≤ r < tt256 → 0 ≤ r' < tt256).
Proof.
  revert w r b. induction k as [|k IH]; intros w r b.
  { cbn [exp_word]. change (2 ^ Z.of_nat 0) with 1. rewrite Z.mod_1_r, Z.pow_0_r, Z.pow_1_r, Z.mul_1_r. done. }
  cbn [exp_word]. set (r1 := if _ =? 1 then _ else _).
  specialize (IH (Z.shiftr w 1) r1 (U256 (b * b))).
  destruct (exp_word k _ r1 _) as [r' b']. destruct IH as (Hr & Hb & Hrange).
  rewrite Z.shiftr_div_pow2 in Hr by lia. change (2 ^ 1) with 2 in Hr.
  pose proof (Z.mod_pos_bound (w / 2) (2 ^ Z.of_nat k) ltac:(apply Z.pow_pos_nonneg; lia)) as Hj.
  set (j := (w / 2) mod 2 ^ Z.of_nat k) in *.
  assert (Hbb : ∀ e, 0 ≤ e → congr tt256 (U256 (b * b) ^ e) (b ^ (2 * e))).
  { intros e He. rewrite Z.pow_mul_r, Z.pow_2_r by lia. apply congr_pow; [done|apply U256_congr]. }
  assert (Hr1 : congr tt256 r1 (r * b ^ (w mod 2))).
  { unfold r1. change (Z.land w 1) with (Z.land w (Z.ones 1)).
    rewrite (Z.land_ones w 1) by lia. change (2 ^ 1) with 2.
    pose proof (Z.mod_pos_bound w 2 ltac:(lia)).
    destruct (Z.eqb_spec (w mod 2) 1) as [->|H1].
    - rewrite Z.pow_1_r. apply U256_congr.
    - replace (w mod 2) with 0 by lia. by rewrite Z.pow_0_r, Z.mul_1_r. }
  split_and!.
  - rewrite mod_pow2_succ. fold j. pose proof (Z.mod_pos_bound w 2 ltac:(lia)).
    rewrite Z.pow_add_r by lia. rewrite Hr, Hr1, Hbb by lia. apply eq_congr. ring.
  - rewrite Hb, Nat2Z.inj_succ, Z.pow_succ_r by lia. by rewrite Hbb by (apply Z.pow_nonneg; lia).
  - intros H0. apply Hrange. unfold r1. case_match; [apply U256_range|done].
Qed.

Lemma Exp_loop_spec n z r b :
  0 ≤ r < tt256 →
  let '(r', b') := Exp_loop (words n z) r b in
  congr tt256 r' (r * b ^ (z mod 2 ^ (64 * Z.of_nat n))) ∧
  congr tt256 b' (b ^ 2 ^ (64 * Z.of_nat n)) ∧ 0 ≤ r' < tt256.
Proof.
  revert z r b. induction n as [|n IH]; intros z r b H0.
  { cbn [words Exp_loop]. rewrite Z.mul_0_r. change (2 ^ 0) with 1.
    by rewrite Z.mod_1_r, Z.pow_0_r, Z.pow_1_r, Z.mul_1_r. }
  rewrite Nat2Z.inj_succ, Z.mul_succ_r, (Z.add_comm _ 64), (Z.pow_add_r 2 64) by lia.
  assert (Hn : 0 < 2 ^ (64 * Z.of_nat n)) by (apply Z.pow_pos_nonneg; lia).
  cbn [words Exp_loop]. pose proof (exp_word_spec wordBits (z mod 2 ^ 64) r b) as Hw.
  change (Z.of_nat wordBits) with 64 in Hw.
  assert (HW : 0 < 2 ^ 64) by done. revert Hn HW Hw IH. generalize (2 ^ 64), (2 ^ (64 * Z.of_nat n)).
  intros W N HN HW Hw IH.
  destruct (exp_word wordBits _ r b) as [r1 b1]. destruct Hw as (Hr1 & Hb1 & Hrange).
  specialize (IH (z / W) r1 b1 (Hrange H0)). destruct (Exp_loop _ r1 b1) as [r' b'].
  destruct IH as (Hr & Hb & H'). rewrite Z.mod_mod in Hr1 by lia.
  pose proof (Z.mod_pos_bound z W HW). pose proof (Z.mod_pos_bound (z / W) N HN).
  split; [|split; [|exact H']].
  - rewrite Z.rem_mul_r by lia. rewrite Z.pow_add_r, Z.pow_mul_r by lia.
    rewrite Hr, Hr1. rewrite (congr_pow _ b1 (b ^ W)) by (done || lia). apply eq_congr. ring.
  - rewrite Hb, Z.pow_mul_r by lia. apply congr_pow; [lia|done].
Qed.

(** [Exp] is the power modulo 2^256, for any sign of the base. *)
Lemma Exp_spec base e : (Exp base e).1 = base ^ Z.abs e mod tt256.
Proof.
  unfold Exp. pose proof (Exp_loop_spec (length (Bits e)) (Z.abs e) 1 base ltac:(done)) as H.
  assert (Hw : words (length (Bits e)) (Z.abs e) = Bits e) by (unfold Bits; by rewrite length_words).
  rewrite Hw in H. destruct (Exp_loop _ _ _) as [r b]. destruct H as (Hr & _ & Hb). cbn [fst].
  rewrite <-(Z.mod_small r tt256) by done. apply congr_iff; [done|].
  pose proof (Bits_bound e) as He. rewrite Nat2Z.inj_mul in He. change 256 with (2 ^ 8) in He.
  rewrite <-Z.pow_mul_r, Z.mul_assoc in He by lia.
  change (8 * Z.of_nat wordBytes) with 64 in He.
  rewrite Z.mod_small, Z.mul_1_l in Hr by lia. done.
Qed.

Lemma S256_range x : 0 ≤ x < tt256 → - tt255 ≤ S256 x < tt255.
Proof. unfold S256, tt255, tt256. intros Hx. case_cmp; lia. Qed.

Lemma U256_S256 x : 0 ≤ x < tt256 → U256 (S256 x) = x.
Proof.
  intros Hx. rewrite U256_mod. unfold S256. destruct (x <? tt255); [by apply Z.mod_small|].
  replace (x - tt256) with (x + (-1) * tt256) by lia. rewrite Z.mod_add by done. by apply Z.mod_small.
Qed.

Lemma S256_U256 x : - tt255 ≤ x < tt255 → S256 (U256 x) = x.
Proof.
  intros Hx. rewrite U256_mod. unfold S256, tt255, tt256 in *.
  destruct (Z.ltb_spec x 0).
  - replace (x mod 2 ^ 256) with (x + 2 ^ 256); [case_cmp; lia|].
    rewrite <-(Z.mod_add x 1) by lia. symmetry. apply Z.mod_small. lia.
  - rewrite Z.mod_small by lia. case_cmp; lia.
Qed.

Lemma FirstBitSet_loop_spec v n i :
  0 ≤ i → i + Z.of_nat n = BitLen v → (∀ j, 0 ≤ j < i → Z.testbit v j = false) →
  let r := FirstBitSet_loop v n i in
  (∀ j, 0 ≤ j < r → Z.testbit v j = false) ∧ (r = BitLen v ∨ Z.testbit v r = true ∧ 0 ≤ r).
Proof.
  revert i. induction n as [|n IH]; intros i Hi Hn Hlow; cbn [FirstBitSet_loop].
  { replace (BitLen v) with i by lia. eauto. }
  destruct (Z.testbit v i) eqn:E; [eauto|]. apply IH; [lia..|]. intros j Hj.
  destruct (decide (j = i)) as [->|]; [done|]. apply Hlow. lia.
Qed.

(** *** Overflow *)

Lemma SafeAdd_spec x y :
  0 ≤ x ≤ MaxUint64 → 0 ≤ y ≤ MaxUint64 →
  SafeAdd x y = (wrap 64 (x + y), bool_decide (MaxUint64 < x + y)).
Proof.
  intros Hx Hy. unfold SafeAdd. f_equal. rewrite wrap_small by (unfold MaxUint64 in *; lia).
  apply eq_true_iff_eq. rewrite Z.ltb_lt, bool_decide_eq_true. lia.
Qed.

Lemma SafeMul_spec x y :
  0 ≤ x ≤ MaxUint64 → 0 ≤ y ≤ MaxUint64 →
  SafeMul x y = (wrap 64 (x * y), bool_decide (MaxUint64 < x * y)).
Proof.
  intros Hx Hy. unfold SafeMul. destruct (Z.eqb_spec x 0) as [->|Hx0].
  { rewrite bool_decide_false by (rewrite Z.mul_0_l; done). done. }
  destruct (Z.eqb_spec y 0) as [->|Hy0].
  { rewrite Z.mul_0_r. rewrite bool_decide_false by done. done. }
  cbn [orb]. f_equal. apply eq_true_iff_eq. rewrite Z.ltb_lt, bool_decide_eq_true. split; intros H.
  - apply Z.nle_gt. intros Hle. apply (Z.div_le_lower_bound _ x y) in Hle; lia.
  - apply Z.div_lt_upper_bound; lia.
Qed.

Lemma SafeSub_spec x y :
  0 ≤ x ≤ MaxUint64 → 0 ≤ y ≤ MaxUint64 →
  SafeSub x y = (wrap 64 (x - y), bool_decide (x - y < 0)).
Proof.
  intros Hx Hy. unfold SafeSub. f_equal. apply eq_true_iff_eq. rewrite Z.ltb_lt, bool_decide_eq_true. lia.
Qed.

(** ** Digits *)

Lemma digit_range base c d : digit base c = Some d → 0 ≤ d < base.
Proof. unfold digit. intros H. repeat case_match; simplify_eq; lia. Qed.

Lemma digits_val_bound base acc s v :
  0 < base → 0 ≤ acc → digits_val base acc s = Some v →
  acc * base ^ Z.of_nat (length s) ≤ v < (acc + 1) * base ^ Z.of_nat (length s).
Proof.
  intros Hb. revert acc. induction s as [|c s IH]; intros acc Ha H; cbn [digits_val] in H.
  { simplify_eq. cbn. lia. }
  apply bind_Some in H as (d & Hd & H). apply digit_range in Hd. apply IH in H; [|nia].
  cbn [length]. rewrite Nat2Z.inj_succ, Z.pow_succ_r by lia.
  assert (0 < base ^ Z.of_nat (length s)) by (apply Z.pow_pos_nonneg; lia). nia.
Qed.

Lemma digits_val_app base acc s t :
  digits_val base acc (s ++ t) = v ← digits_val base acc s; digits_val base v t.
Proof.
  revert acc. induction s as [|c s IH]; intros acc; [done|]. cbn [app digits_val].
  destruct (digit base c); [apply IH|done].
Qed.

(** [ParseUint] accepts exactly the numbers of its base below 2^64. *)
Lemma ParseUint_loop_spec base n s :
  1 < base ≤ 16 → 0 ≤ n ≤ MaxUint64 →
  match digits_val base n s with
  | Some v => if decide (v ≤ MaxUint64) then ParseUint_loop base n s = (v, None)
              else ParseUint_loop base n s = (MaxUint64, Some ErrRangeNum)
  | None => ∃ v e, ParseUint_loop base n s = (v, Some e)
  end.
Proof.
  intros Hb. revert n. induction s as [|c s IH]; intros n Hn.
  { cbn. by rewrite decide_True by lia. }
  cbn [digits_val ParseUint_loop]. destruct (digit base c) as [d|] eqn:Hd; cbn [mbind option_bind]; [|eauto].
  apply digit_range in Hd.
  assert (Hbig : MaxUint64 < n * base + d →
    match digits_val base (n * base + d) s with Some v => ¬ v ≤ MaxUint64 | None => True end).
  { intros H. destruct (digits_val _ _ s) as [v|] eqn:E; [|done].
    apply digits_val_bound in E; [|lia..].
    assert (0 < base ^ Z.of_nat (length s)) by (apply Z.pow_pos_nonneg; lia). nia. }
  pose proof (Z.mul_div_le MaxUint64 base ltac:(lia)).
  pose proof (Z.mul_succ_div_gt MaxUint64 base ltac:(lia)).
  destruct (Z.leb_spec (MaxUint64 / base + 1) n) as [Hc|Hc].
  { specialize (Hbig ltac:(nia)). destruct (digits_val _ _ s); [by rewrite decide_False|eauto]. }
  assert (n * base ≤ MaxUint64) by nia.
  destruct (decide (n * base + d ≤ MaxUint64)) as [Hle|Hle].
  - rewrite wrap_small by (unfold MaxUint64 in *; lia). destruct (Z.ltb_spec (n * base + d) (n * base)); [lia|].
    apply IH. lia.
  - specialize (Hbig ltac:(lia)).
    assert (Hw : wrap 64 (n * base + d) = n * base + d - 2 ^ 64).
    { unfold wrap. rewrite <-(Z.mod_add _ (-1)) by lia. rewrite Z.mod_small; unfold MaxUint64 in *; lia. }
    rewrite Hw. destruct (Z.ltb_spec (n * base + d - 2 ^ 64) (n * base)); [|unfold MaxUint64 in *; lia].
    destruct (digits_val _ _ s); [by rewrite decide_False|eauto].
Qed.

Lemma digit_hex_char d : 0 ≤ d < 16 → digit 16 (hex_char d) = Some d.
Proof.
  intros Hd. unfold digit, hex_char.
  destruct (Z.ltb_spec d 10);
    repeat (match goal with |- context [?a <=? ?b] => destruct (Z.leb_spec a b) end; try lia; cbn [andb]);
    match goal with |- context [?a <? ?b] => destruct (Z.ltb_spec a b) end; try lia; f_equal; lia.
Qed.

(** A digit in lower case. *)
Definition lower (c : Z) : Z := if (65 <=? c) && (c <=? 70) then c + 32 else c.

Lemma hex_char_digit c d : digit 16 c = Some d → hex_char d = lower c.
Proof.
  unfold digit, hex_char, lower. intros H.
  repeat case_match; simplify_eq; try lia.
Qed.

Lemma hex_char_range d : 0 ≤ d < 16 → 48 ≤ hex_char d ≤ 57 ∨ 97 ≤ hex_char d ≤ 102.
Proof. unfold hex_char. intros Hd. case_cmp; lia. Qed.

Lemma length_hex_fixed n z : length (hex_fixed n z) = n.
Proof. revert z. induction n as [|n IH]; intros z; [done|]. cbn [hex_fixed]. rewrite length_app, IH. cbn. lia. Qed.

Lemma digits_val_hex_fixed acc n z :
  digits_val 16 acc (hex_fixed n z) = Some (acc * 16 ^ Z.of_nat n + z mod 16 ^ Z.of_nat n).
Proof.
  revert z. induction n as [|n IH]; intros z.
  { cbn [hex_fixed digits_val]. change (16 ^ Z.of_nat 0) with 1. by rewrite Z.mod_1_r, Z.mul_1_r, Z.add_0_r. }
  pose proof (Z.mod_pos_bound z 16 ltac:(lia)).
  cbn [hex_fixed]. rewrite digits_val_app, IH. cbn [mbind option_bind digits_val].
  rewrite digit_hex_char by done. cbn [mbind option_bind]. f_equal.
  rewrite Nat2Z.inj_succ, Z.pow_succ_r by lia.
  assert (0 < 16 ^ Z.of_nat n) by (apply Z.pow_pos_nonneg; lia).
  rewrite Z.rem_mul_r by lia. lia.
Qed.

(** What has a value is its number, written with as many digits. *)
Lemma hex_fixed_digits_val s v :
  digits_val 16 0 s = Some v → hex_fixed (length s) v = lower <$> s.
Proof.
  revert v. induction s as [|c s IH] using rev_ind; intros v H; [done|].
  rewrite digits_val_app in H. apply bind_Some in H as (v0 & Hs & H).
  cbn [digits_val] in H. apply bind_Some in H as (d & Hd & H). simplify_eq.
  pose proof (digit_range _ _ _ Hd).
  rewrite length_app, Nat.add_1_r, fmap_app. cbn [hex_fixed].
  rewrite Z.div_add_l, Z.div_small, Z.add_0_r, IH by (done || lia).
  rewrite Z.add_comm, Z.mod_add, Z.mod_small by lia. by rewrite (hex_char_digit c).
Qed.

Lemma hex_len_bounds z :
  0 < z → 16 ^ (Z.of_nat (hex_len z) - 1) ≤ z < 16 ^ Z.of_nat (hex_len z).
Proof.
  intros Hz. unfold hex_len. destruct (Z.eqb_spec z 0); [lia|].
  pose proof (Z.log2_nonneg z) as Hn. destruct (Z.log2_spec z Hz) as [H1 H2].
  pose proof (Z.div_pos (Z.log2 z) 4 Hn ltac:(lia)).
  pose proof (Z.mul_div_le (Z.log2 z) 4 ltac:(lia)).
  pose proof (Z.mul_succ_div_gt (Z.log2 z) 4 ltac:(lia)).
  rewrite Z2Nat.id by lia. change 16 with (2 ^ 4). rewrite <-!Z.pow_mul_r by lia. split.
  - etransitivity; [|exact H1]. apply Z.pow_le_mono_r; lia.
  - eapply Z.lt_le_trans; [exact H2|]. apply Z.pow_le_mono_r; lia.
Qed.

Lemma hex_len_le z n : 0 ≤ z < 16 ^ Z.of_nat n → (0 < n)%nat → (hex_len z ≤ n)%nat.
Proof.
  intros Hz Hn. destruct (decide (z = 0)) as [->|]; [cbn; lia|].
  destruct (hex_len_bounds z ltac:(lia)) as [Hl _].
  assert (Z.of_nat (hex_len z) - 1 < Z.of_nat n); [|lia]. apply (Z.pow_lt_mono_r_iff 16); lia.
Qed.

Lemma hex_digits_val z : 0 ≤ z → digits_val 16 0 (hex_digits z) = Some z.
Proof.
  intros Hz. unfold hex_digits. rewrite digits_val_hex_fixed. f_equal.
  destruct (decide (z = 0)) as [->|]; [done|].
  rewrite Z.mod_small; [lia|]. pose proof (hex_len_bounds z). lia.
Qed.

(** The first digit is not zero, except in zero. *)
Lemma hex_digits_head z :
  0 ≤ z → ∃ c s, hex_digits z = c :: s ∧ (c = 48 → z = 0).
Proof.
  intros Hz. destruct (hex_digits z) as [|c s] eqn:E.
  { apply (f_equal length) in E. unfold hex_digits in E. rewrite length_hex_fixed in E.
    unfold hex_len in E. case_match; [done|]. cbn in E. pose proof (Z.log2_nonneg z).
    pose proof (Z.div_pos (Z.log2 z) 4 ltac:(lia) ltac:(lia)). lia. }
  exists c, s. split; [done|]. intros ->. destruct (decide (z = 0)) as [|H0]; [done|].
  pose proof (hex_digits_val z Hz) as Hv. rewrite E in Hv. cbn [digits_val] in Hv.
  change (digit 16 48) with (Some 0) in Hv. cbn [mbind option_bind] in Hv.
  apply digits_val_bound in Hv; [|lia..].
  destruct (hex_len_bounds z ltac:(lia)) as [Hl _].
  assert (Hs : length (48 :: s) = hex_len z) by (rewrite <-E; apply length_hex_fixed). cbn [length] in Hs.
  rewrite <-Hs, Nat2Z.inj_succ in Hl.
  replace (Z.succ (Z.of_nat (length s)) - 1) with (Z.of_nat (length s)) in Hl by lia. lia.
Qed.

(** Digits without a leading zero are those of their value, but for the case. *)
Lemma hex_digits_canonical s v :
  digits_val 16 0 s = Some v → s ≠ [] → (head s = Some 48 → length s = 1%nat) →
  hex_digits v = lower <$> s.
Proof.
  intros Hv Hne Hz. unfold hex_digits. rewrite <-(hex_fixed_digits_val s v Hv). f_equal.
  pose proof (digits_val_bound 16 0 s v ltac:(lia) ltac:(lia) Hv) as Hb. rewrite Z.mul_0_l, Z.mul_1_l in Hb.
  destruct s as [|c s]; [done|]. cbn [digits_val] in Hv. apply bind_Some in Hv as (d & Hd & Hv).
  destruct (decide (d = 0)) as [->|Hd0].
  - assert (c = 48) as ->. { unfold digit in Hd. repeat case_match; simplify_eq; lia. }
    assert (s = []) as ->. { destruct s; [done|]. by specialize (Hz eq_refl). }
    cbn in Hv. by simplify_eq.
  - pose proof (digit_range _ _ _ Hd).
    apply Nat.le_antisymm; [apply hex_len_le; [done|cbn; lia]|].
    apply digits_val_bound in Hv; [|lia..]. cbn [length].
    assert (0 < 16 ^ Z.of_nat (length s)) by (apply Z.pow_pos_nonneg; lia).
    rewrite Z.mul_0_l, Z.add_0_l in Hv.
    assert (16 ^ Z.of_nat (length s) ≤ v) by nia.
    destruct (hex_len_bounds v ltac:(lia)) as [_ Hu].
    assert (Z.of_nat (length s) < Z.of_nat (hex_len v)); [|lia].
    apply (Z.pow_lt_mono_r_iff 16); lia.
Qed.

(** ** Text forms *)

Lemma ParseUint_hex_digits i : 0 ≤ i ≤ MaxUint64 → ParseUint (hex_digits i) 16 = (i, None).
Proof.
  intros Hi. pose proof (ParseUint_loop_spec 16 0 (hex_digits i) ltac:(lia) ltac:(done)) as Hp.
  rewrite hex_digits_val, decide_True in Hp by lia.
  destruct (hex_digits_head i ltac:(lia)) as (c & s & E & _). rewrite E in *. exact Hp.
Qed.

Lemma fmt_hex_nonneg i : 0 ≤ i → fmt_hex i = 48 :: 120 :: hex_digits i.
Proof. intros Hi. unfold fmt_hex. destruct (Z.ltb_spec i 0); [lia|]. by rewrite Z.abs_eq by lia. Qed.

Lemma ParseUint64_fmt_hex i : 0 ≤ i ≤ MaxUint64 → ParseUint64 (fmt_hex i) = (i, true).
Proof.
  intros Hi. rewrite fmt_hex_nonneg by lia.
  change (ParseUint64 _) with (let '(v, err) := ParseUint (hex_digits i) 16 in
    (v, match err with None => true | Some _ => false end)).
  by rewrite ParseUint_hex_digits.
Qed.

Lemma ParseBig256_fmt_hex i : 0 ≤ i < tt256 → ParseBig256 (fmt_hex i) = Some i.
Proof.
  intros Hi. rewrite fmt_hex_nonneg by lia.
  change (ParseBig256 _) with (bigint ← big_SetString (hex_digits i) 16;
    if 256 <? BitLen bigint then None else Some bigint).
  destruct (hex_digits_head i ltac:(lia)) as (c & s & E & _).
  assert (Hc : 48 ≤ c).
  { pose proof (hex_digits_val i ltac:(lia)) as Hv. rewrite E in Hv. cbn [digits_val] in Hv.
    apply bind_Some in Hv as (d & Hd & _). unfold digit in Hd. repeat case_match; simplify_eq; lia. }
  assert (Hs : big_SetString (hex_digits i) 16 = Some i).
  { unfold big_SetString. rewrite E.
    assert (match c with 45 => (true, s) | 43 => (false, s) | _ => (false, c :: s) end = (false, c :: s)) as ->.
    { destruct c as [|p|]; try lia. do 7 (destruct p as [p|p|]; try lia; try done). }
    by rewrite <-E, hex_digits_val by lia. }
  rewrite Hs. cbn [mbind option_bind]. destruct (Z.ltb_spec 256 (BitLen i)) as [Hl|]; [|done].
  assert (BitLen i ≤ 256); [|lia]. apply BitLen_le; [lia|]. rewrite Z.abs_eq by lia. apply Hi.
Qed.

(** A sign is accepted after the prefix, so that negative numbers are parsed. *)
Lemma ParseBig256_negative : ParseBig256 [48; 120; 45; 49] = Some (-1).
Proof. done. Qed.

(** [Exp] squares the caller's base in place. *)
Lemma Exp_overwrites_base : (Exp 3 1).1 = 3 ∧ (Exp 3 1).2 ≠ 3.
Proof. split; vm_compute; [done|discriminate]. Qed.
