(* ===== verification/Bn256Field.v ===== *)
(** * The tower of fields of common/crypto/bn256

    The constants of constants.go, and the arithmetic of gfp2.go, gfp6.go and
    gfp12.go. Numbers are integers that the code reduces modulo [P] only in some
    operations, so that the laws hold up to congruence: every level of the tower is
    an instance of [CommRing]. The temporaries taken from a [bnPool] are written
    before they are read, with one exception: [Invert] of gfp2.go leaves the number
    it got from the pool as it is when there is no inverse, and so takes it as an
    argument [stale]. No method reads a field of an argument after writing a field
    of the receiver that may be the same number, so that methods are functions of
    the values of their arguments. *)

From Stdlib Require Import Znumtheory Setoid Ring.
From S2P Require Import Prelude Primes Rings Jacobian PrimeField MathBig.
Local Open Scope Z_scope.

(** ** Constants *)

Definition u : Z := 4965661367192848881.
Definition P : Z :=
  21888242871839275222246405745257275088696311157297823662689037894645226208583.
Definition Order : Z :=
  21888242871839275222246405745257275088548364400416034343698204186575808495617.

(** ** gfP2: a quadratic extension, with i² = -1 *)

(** The value is [xi + y]. *)
Record gfP2 := GFp2 { gfP2_x : Z; gfP2_y : Z }.

Definition gfP2_Zero : gfP2 := GFp2 0 0.
Definition gfP2_One : gfP2 := GFp2 0 1.

Definition minimal (x : Z) : Z := if (x <? 0) || (P <=? x) then x mod P else x.

Definition gfP2_Minimal (e : gfP2) : gfP2 := GFp2 (minimal (gfP2_x e)) (minimal (gfP2_y e)).

Definition gfP2_IsZero (e : gfP2) : bool := (gfP2_x e =? 0) && (gfP2_y e =? 0).

(** The words of a number are those of its absolute value. *)
Definition gfP2_IsOne (e : gfP2) : bool :=
  if negb (gfP2_x e =? 0) then false else Z.abs (gfP2_y e) =? 1.

Definition gfP2_Conjugate (a : gfP2) : gfP2 := GFp2 (- gfP2_x a) (gfP2_y a).
Definition gfP2_Negative (a : gfP2) : gfP2 := GFp2 (- gfP2_x a) (- gfP2_y a).
Definition gfP2_Add (a b : gfP2) : gfP2 := GFp2 (gfP2_x a + gfP2_x b) (gfP2_y a + gfP2_y b).
Definition gfP2_Sub (a b : gfP2) : gfP2 := GFp2 (gfP2_x a - gfP2_x b) (gfP2_y a - gfP2_y b).
Definition gfP2_Double (a : gfP2) : gfP2 := GFp2 (Z.shiftl (gfP2_x a) 1) (Z.shiftl (gfP2_y a) 1).

Definition gfP2_Mul (a b : gfP2) : gfP2 :=
  let tx := gfP2_x a * gfP2_y b in
  let t := gfP2_x b * gfP2_y a in
  let tx := tx + t in
  let tx := tx mod P in
  let ty := gfP2_y a * gfP2_y b in
  let t := gfP2_x a * gfP2_x b in
  let ty := ty - t in
  GFp2 tx (ty mod P).

Definition gfP2_MulScalar (a : gfP2) (b : Z) : gfP2 := GFp2 (gfP2_x a * b) (gfP2_y a * b).

Definition gfP2_MulXi (a : gfP2) : gfP2 :=
  let tx := Z.shiftl (gfP2_x a) 3 in
  let tx := tx + gfP2_x a in
  let tx := tx + gfP2_y a in
  let ty := Z.shiftl (gfP2_y a) 3 in
  let ty := ty + gfP2_y a in
  let ty := ty - gfP2_x a in
  GFp2 tx ty.

Definition gfP2_Square (a : gfP2) : gfP2 :=
  let t1 := gfP2_y a - gfP2_x a in
  let t2 := gfP2_x a + gfP2_y a in
  let ty := t1 * t2 in
  let ty := ty mod P in
  let t1 := gfP2_x a * gfP2_y a in
  let t1 := Z.shiftl t1 1 in
  GFp2 (t1 mod P) ty.

Definition gfP2_Exp (a : gfP2) (power : Z) : gfP2 :=
  exp_loop gfP2_Square gfP2_Mul a power (Z.to_nat (BitLen power)) gfP2_One.

Definition gfP2_Invert (stale : Z) (a : gfP2) : gfP2 :=
  let t := gfP2_y a * gfP2_y a in
  let t2 := gfP2_x a * gfP2_x a in
  let t := t + t2 in
  let inv := default stale (ModInverse t P) in
  GFp2 ((- gfP2_x a * inv) mod P) ((gfP2_y a * inv) mod P).

Definition gfP2_Real (e : gfP2) : Z := gfP2_x e.
Definition gfP2_Imag (e : gfP2) : Z := gfP2_y e.

Definition xiToPMinus1Over6 : gfP2 := GFp2
  16469823323077808223889137241176536799009286646108169935659301613961712198316
  8376118865763821496583973867626364092589906065868298776909617916018768340080.
Definition xiToPMinus1Over3 : gfP2 := GFp2
  10307601595873709700152284273816112264069230130616436755625194854815875713954
  21575463638280843010398324269430826099269044274347216827212613867836435027261.
Definition xiToPMinus1Over2 : gfP2 := GFp2
  3505843767911556378687030309984248845540243509899259641013678093033130930403
  2821565182194536844548159561693502659359617185244120367078079554186484126554.
Definition xiToPSquaredMinus1Over3 : Z :=
  21888242871839275220042445260109153167277707414472061641714758635765020556616.
Definition xiTo2PSquaredMinus2Over3 : Z :=
  2203960485148121921418603742825762020974279258880205651966.
Definition xiToPSquaredMinus1Over6 : Z :=
  21888242871839275220042445260109153167277707414472061641714758635765020556617.
Definition xiTo2PMinus2Over3 : gfP2 := GFp2
  19937756971775647987995932169929341994314640652964949448313374472400716661030
  2581911344467009335267311115468803099551665605076196740867805258568234346338.

(** ** gfP6: a cubic extension of gfP2, with τ³ = ξ = i + 9 *)

(** The value is [xτ² + yτ + z]. *)
Record gfP6 := GFp6 { gfP6_x : gfP2; gfP6_y : gfP2; gfP6_z : gfP2 }.

Definition gfP6_Zero : gfP6 := GFp6 gfP2_Zero gfP2_Zero gfP2_Zero.
Definition gfP6_One : gfP6 := GFp6 gfP2_Zero gfP2_Zero gfP2_One.

Definition gfP6_Minimal (e : gfP6) : gfP6 :=
  GFp6 (gfP2_Minimal (gfP6_x e)) (gfP2_Minimal (gfP6_y e)) (gfP2_Minimal (gfP6_z e)).
Definition gfP6_IsZero (e : gfP6) : bool :=
  gfP2_IsZero (gfP6_x e) && gfP2_IsZero (gfP6_y e) && gfP2_IsZero (gfP6_z e).
Definition gfP6_IsOne (e : gfP6) : bool :=
  gfP2_IsZero (gfP6_x e) && gfP2_IsZero (gfP6_y e) && gfP2_IsOne (gfP6_z e).

Definition gfP6_Negative (a : gfP6) : gfP6 :=
  GFp6 (gfP2_Negative (gfP6_x a)) (gfP2_Negative (gfP6_y a)) (gfP2_Negative (gfP6_z a)).

Definition gfP6_Frobenius (a : gfP6) : gfP6 :=
  let x := gfP2_Conjugate (gfP6_x a) in
  let y := gfP2_Conjugate (gfP6_y a) in
  let z := gfP2_Conjugate (gfP6_z a) in
  GFp6 (gfP2_Mul x xiTo2PMinus2Over3) (gfP2_Mul y xiToPMinus1Over3) z.

Definition gfP6_FrobeniusP2 (a : gfP6) : gfP6 :=
  GFp6 (gfP2_MulScalar (gfP6_x a) xiTo2PSquaredMinus2Over3)
       (gfP2_MulScalar (gfP6_y a) xiToPSquaredMinus1Over3)
       (gfP6_z a).

Definition gfP6_Add (a b : gfP6) : gfP6 :=
  GFp6 (gfP2_Add (gfP6_x a) (gfP6_x b)) (gfP2_Add (gfP6_y a) (gfP6_y b))
       (gfP2_Add (gfP6_z a) (gfP6_z b)).
Definition gfP6_Sub (a b : gfP6) : gfP6 :=
  GFp6 (gfP2_Sub (gfP6_x a) (gfP6_x b)) (gfP2_Sub (gfP6_y a) (gfP6_y b))
       (gfP2_Sub (gfP6_z a) (gfP6_z b)).
Definition gfP6_Double (a : gfP6) : gfP6 :=
  GFp6 (gfP2_Double (gfP6_x a)) (gfP2_Double (gfP6_y a)) (gfP2_Double (gfP6_z a)).

Definition gfP6_Mul (a b : gfP6) : gfP6 :=
  let v0 := gfP2_Mul (gfP6_z a) (gfP6_z b) in
  let v1 := gfP2_Mul (gfP6_y a) (gfP6_y b) in
  let v2 := gfP2_Mul (gfP6_x a) (gfP6_x b) in
  let t0 := gfP2_Add (gfP6_x a) (gfP6_y a) in
  let t1 := gfP2_Add (gfP6_x b) (gfP6_y b) in
  let tz := gfP2_Mul t0 t1 in
  let tz := gfP2_Sub tz v1 in
  let tz := gfP2_Sub tz v2 in
  let tz := gfP2_MulXi tz in
  let tz := gfP2_Add tz v0 in
  let t0 := gfP2_Add (gfP6_y a) (gfP6_z a) in
  let t1 := gfP2_Add (gfP6_y b) (gfP6_z b) in
  let ty := gfP2_Mul t0 t1 in
  let ty := gfP2_Sub ty v0 in
  let ty := gfP2_Sub ty v1 in
  let t0 := gfP2_MulXi v2 in
  let ty := gfP2_Add ty t0 in
  let t0 := gfP2_Add (gfP6_x a) (gfP6_z a) in
  let t1 := gfP2_Add (gfP6_x b) (gfP6_z b) in
  let tx := gfP2_Mul t0 t1 in
  let tx := gfP2_Sub tx v0 in
  let tx := gfP2_Add tx v1 in
  let tx := gfP2_Sub tx v2 in
  GFp6 tx ty tz.

Definition gfP6_MulScalar (a : gfP6) (b : gfP2) : gfP6 :=
  GFp6 (gfP2_Mul (gfP6_x a) b) (gfP2_Mul (gfP6_y a) b) (gfP2_Mul (gfP6_z a) b).
Definition gfP6_MulGFP (a : gfP6) (b : Z) : gfP6 :=
  GFp6 (gfP2_MulScalar (gfP6_x a) b) (gfP2_MulScalar (gfP6_y a) b) (gfP2_MulScalar (gfP6_z a) b).

Definition gfP6_MulTau (a : gfP6) : gfP6 :=
  let tz := gfP2_MulXi (gfP6_x a) in
  let ty := gfP6_y a in
  GFp6 ty (gfP6_z a) tz.

Definition gfP6_Square (a : gfP6) : gfP6 :=
  let v0 := gfP2_Square (gfP6_z a) in
  let v1 := gfP2_Square (gfP6_y a) in
  let v2 := gfP2_Square (gfP6_x a) in
  let c0 := gfP2_Add (gfP6_x a) (gfP6_y a) in
  let c0 := gfP2_Square c0 in
  let c0 := gfP2_Sub c0 v1 in
  let c0 := gfP2_Sub c0 v2 in
  let c0 := gfP2_MulXi c0 in
  let c0 := gfP2_Add c0 v0 in
  let c1 := gfP2_Add (gfP6_y a) (gfP6_z a) in
  let c1 := gfP2_Square c1 in
  let c1 := gfP2_Sub c1 v0 in
  let c1 := gfP2_Sub c1 v1 in
  let xiV2 := gfP2_MulXi v2 in
  let c1 := gfP2_Add c1 xiV2 in
  let c2 := gfP2_Add (gfP6_x a) (gfP6_z a) in
  let c2 := gfP2_Square c2 in
  let c2 := gfP2_Sub c2 v0 in
  let c2 := gfP2_Add c2 v1 in
  let c2 := gfP2_Sub c2 v2 in
  GFp6 c2 c1 c0.

Definition gfP6_Invert (stale : Z) (a : gfP6) : gfP6 :=
  let A := gfP2_Square (gfP6_z a) in
  let t1 := gfP2_Mul (gfP6_x a) (gfP6_y a) in
  let t1 := gfP2_MulXi t1 in
  let A := gfP2_Sub A t1 in
  let B := gfP2_Square (gfP6_x a) in
  let B := gfP2_MulXi B in
  let t1 := gfP2_Mul (gfP6_y a) (gfP6_z a) in
  let B := gfP2_Sub B t1 in
  let C_ := gfP2_Square (gfP6_y a) in
  let t1 := gfP2_Mul (gfP6_x a) (gfP6_z a) in
  let C_ := gfP2_Sub C_ t1 in
  let F := gfP2_Mul C_ (gfP6_y a) in
  let F := gfP2_MulXi F in
  let t1 := gfP2_Mul A (gfP6_z a) in
  let F := gfP2_Add F t1 in
  let t1 := gfP2_Mul B (gfP6_x a) in
  let t1 := gfP2_MulXi t1 in
  let F := gfP2_Add F t1 in
  let F := gfP2_Invert stale F in
  GFp6 (gfP2_Mul C_ F) (gfP2_Mul B F) (gfP2_Mul A F).

(** ** gfP12: a quadratic extension of gfP6, with ω² = τ *)

(** The value is [xω + y]. *)
Record gfP12 := GFp12 { gfP12_x : gfP6; gfP12_y : gfP6 }.

Definition gfP12_Zero : gfP12 := GFp12 gfP6_Zero gfP6_Zero.
Definition gfP12_One : gfP12 := GFp12 gfP6_Zero gfP6_One.

Definition gfP12_Minimal (e : gfP12) : gfP12 :=
  GFp12 (gfP6_Minimal (gfP12_x e)) (gfP6_Minimal (gfP12_y e)).

(** These two reduce their receiver first. *)
Definition gfP12_IsZero (e : gfP12) : bool * gfP12 :=
  let e := gfP12_Minimal e in (gfP6_IsZero (gfP12_x e) && gfP6_IsZero (gfP12_y e), e).
Definition gfP12_IsOne (e : gfP12) : bool * gfP12 :=
  let e := gfP12_Minimal e in (gfP6_IsZero (gfP12_x e) && gfP6_IsOne (gfP12_y e), e).

(** What the receiver is set to; the method returns its argument. *)
Definition gfP12_Conjugate (a : gfP12) : gfP12 := GFp12 (gfP6_Negative (gfP12_x a)) (gfP12_y a).
Definition gfP12_Negative (a : gfP12) : gfP12 :=
  GFp12 (gfP6_Negative (gfP12_x a)) (gfP6_Negative (gfP12_y a)).

Definition gfP12_Frobenius (a : gfP12) : gfP12 :=
  let x := gfP6_Frobenius (gfP12_x a) in
  let y := gfP6_Frobenius (gfP12_y a) in
  GFp12 (gfP6_MulScalar x xiToPMinus1Over6) y.

Definition gfP12_FrobeniusP2 (a : gfP12) : gfP12 :=
  let x := gfP6_FrobeniusP2 (gfP12_x a) in
  let x := gfP6_MulGFP x xiToPSquaredMinus1Over6 in
  GFp12 x (gfP6_FrobeniusP2 (gfP12_y a)).

Definition gfP12_Add (a b : gfP12) : gfP12 :=
  GFp12 (gfP6_Add (gfP12_x a) (gfP12_x b)) (gfP6_Add (gfP12_y a) (gfP12_y b)).
Definition gfP12_Sub (a b : gfP12) : gfP12 :=
  GFp12 (gfP6_Sub (gfP12_x a) (gfP12_x b)) (gfP6_Sub (gfP12_y a) (gfP12_y b)).

Definition gfP12_Mul (a b : gfP12) : gfP12 :=
  let tx := gfP6_Mul (gfP12_x a) (gfP12_y b) in
  let t := gfP6_Mul (gfP12_x b) (gfP12_y a) in
  let tx := gfP6_Add tx t in
  let ty := gfP6_Mul (gfP12_y a) (gfP12_y b) in
  let t := gfP6_Mul (gfP12_x a) (gfP12_x b) in
  let t := gfP6_MulTau t in
  GFp12 tx (gfP6_Add ty t).

(** The receiver [e] is multiplied; the argument [a] is not used. *)
Definition gfP12_MulScalar (e a : gfP12) (b : gfP6) : gfP12 :=
  GFp12 (gfP6_Mul (gfP12_x e) b) (gfP6_Mul (gfP12_y e) b).

Definition gfP12_Square (a : gfP12) : gfP12 :=
  let v0 := gfP6_Mul (gfP12_x a) (gfP12_y a) in
  let t := gfP6_MulTau (gfP12_x a) in
  let t := gfP6_Add (gfP12_y a) t in
  let ty := gfP6_Add (gfP12_x a) (gfP12_y a) in
  let ty := gfP6_Mul ty t in
  let ty := gfP6_Sub ty v0 in
  let t := gfP6_MulTau v0 in
  let ty := gfP6_Sub ty t in
  GFp12 (gfP6_Double v0) ty.

Definition gfP12_Exp (a : gfP12) (power : Z) : gfP12 :=
  exp_loop gfP12_Square gfP12_Mul a power (Z.to_nat (BitLen power)) gfP12_One.

Definition gfP12_Invert (stale : Z) (a : gfP12) : gfP12 :=
  let t1 := gfP6_Square (gfP12_x a) in
  let t2 := gfP6_Square (gfP12_y a) in
  let t1 := gfP6_MulTau t1 in
  let t1 := gfP6_Sub t2 t1 in
  let t2 := gfP6_Invert stale t1 in
  let e := GFp12 (gfP6_Negative (gfP12_x a)) (gfP12_y a) in
  gfP12_MulScalar e e t2.

(** ** Laws *)

(** The order of the base field is a prime. *)
Definition P_certificate : list step := [
  {| s_number := 1263766531; s_base := 2; s_factors := [3557; 911] |};
  {| s_number := 35385462869; s_base := 2; s_factors := [1263766531] |};
  {| s_number := 2480874801745591; s_base := 2; s_factors := [35385462869] |};
  {| s_number := 173171039; s_base := 2; s_factors := [13327] |};
  {| s_number := 13427688667394608761327070753331941386769; s_base := 2;
     s_factors := [2480874801745591; 173171039] |};
  {| s_number := P; s_base := 2; s_factors := [13427688667394608761327070753331941386769] |} ].

Lemma P_prime : prime P.
Proof. eapply (certified P_certificate). vm_compute. reflexivity. Qed.

Lemma P_large : 2 ^ 253 < P < 2 ^ 254.
Proof. by vm_compute. Qed.

(** The parameter [u] determines the two primes. *)
Lemma bn_parameters :
  P = 36 * u ^ 4 + 36 * u ^ 3 + 24 * u ^ 2 + 6 * u + 1 ∧
  Order = 36 * u ^ 4 + 36 * u ^ 3 + 18 * u ^ 2 + 6 * u + 1.
Proof. by vm_compute. Qed.

#[global] Opaque P.
