(* ===== verification/Bn256Laws.v ===== *)
(** * The laws of the tower of common/crypto/bn256

    Each level is a commutative ring up to congruence of its coefficients; the
    optimised multiplications and squarings are the schoolbook ones; [Exp] is the
    power, and [Invert] the inverse wherever there is one. *)

From Stdlib Require Import Znumtheory Setoid Ring.
From S2P Require Import Prelude Primes Rings Jacobian PrimeField MathBig Bn256Field.
Local Open Scope Z_scope.

Lemma P_pos : 0 < P.
Proof. done. Qed.

(** Congruences of the base field: drop the reductions, then compute. *)
Ltac zring := rewrite ?Z.shiftl_mul_pow2 by lia; rewrite ?(congr_mod P); apply eq_congr; ring.

(** A congruence between two expressions that differ in reductions only. *)
Lemma congr_mod_l m a b : congr m a b → congr m (a mod m) b.
Proof. intros H. by rewrite congr_mod. Qed.
Lemma congr_add_lr m a a' b b' : congr m a a' → congr m b b' → congr m (a + b) (a' + b').
Proof. by intros -> ->. Qed.
Lemma congr_sub_lr m a a' b b' : congr m a a' → congr m b b' → congr m (a - b) (a' - b').
Proof. by intros -> ->. Qed.
Lemma congr_mul_lr m a a' b b' : congr m a a' → congr m b b' → congr m (a * b) (a' * b').
Proof. by intros -> ->. Qed.
Ltac strip :=
  lazymatch goal with
  | |- congr _ (_ mod _) _ => apply congr_mod_l; strip
  | |- congr _ (_ + _) (_ + _) => apply congr_add_lr; strip
  | |- congr _ (_ - _) (_ - _) => apply congr_sub_lr; strip
  | |- congr _ (_ * _) (_ * _) => apply congr_mul_lr; strip
  | |- _ => reflexivity
  end.

(** ** gfP2 *)

Definition eq2 (a b : gfP2) : Prop :=
  congr P (gfP2_x a) (gfP2_x b) ∧ congr P (gfP2_y a) (gfP2_y b).

#[export] Instance eq2_equiv : Equivalence eq2.
Proof.
  split.
  - by intros a.
  - intros a b [??]. by split; symmetry.
  - intros a b c [H1 H2] [H3 H4]. split; [by rewrite H1|by rewrite H2].
Qed.

#[export] Instance eq2_dec a b : Decision (eq2 a b).
Proof. unfold eq2. apply _. Defined.

(** A method on coefficients, each of them a polynomial. *)
Ltac proper2 :=
  repeat intros [??] [??] [??]; split; cbn in *; rewrite ?Z.shiftl_mul_pow2 by lia;
  rewrite ?(congr_mod P);
  repeat match goal with H : congr P ?a ?b |- _ => rewrite H; clear H end; done.

#[export] Instance gfP2_Add_proper : Proper (eq2 ==> eq2 ==> eq2) gfP2_Add.
Proof. proper2. Qed.
#[export] Instance gfP2_Sub_proper : Proper (eq2 ==> eq2 ==> eq2) gfP2_Sub.
Proof. proper2. Qed.
#[export] Instance gfP2_Mul_proper : Proper (eq2 ==> eq2 ==> eq2) gfP2_Mul.
Proof. proper2. Qed.
#[export] Instance gfP2_Negative_proper : Proper (eq2 ==> eq2) gfP2_Negative.
Proof. proper2. Qed.
#[export] Instance gfP2_Conjugate_proper : Proper (eq2 ==> eq2) gfP2_Conjugate.
Proof. proper2. Qed.

#[export] Instance gfP2_Square_proper : Proper (eq2 ==> eq2) gfP2_Square.
Proof. proper2. Qed.
#[export] Instance gfP2_MulXi_proper : Proper (eq2 ==> eq2) gfP2_MulXi.
Proof. proper2. Qed.
#[export] Instance gfP2_Double_proper : Proper (eq2 ==> eq2) gfP2_Double.
Proof. proper2. Qed.
#[export] Instance gfP2_MulScalar_proper : Proper (eq2 ==> eq ==> eq2) gfP2_MulScalar.
Proof. intros [??] [??] [H1 H2] k _ <-. split; cbn in *; by rewrite ?H1, ?H2. Qed.

Ltac ring2 := intros; repeat match goal with a : gfP2 |- _ => destruct a end; split; cbn -[P]; zring.

Lemma gfP2_theory :
  ring_theory gfP2_Zero gfP2_One gfP2_Add gfP2_Mul gfP2_Sub gfP2_Negative eq2.
Proof. split; ring2. Qed.

Lemma gfP2_ext : ring_eq_ext gfP2_Add gfP2_Mul gfP2_Negative eq2.
Proof. split; apply _. Qed.

#[export] Instance gfP2_ring : CommRing gfP2 := {|
  rzero := gfP2_Zero; rone := gfP2_One; radd := gfP2_Add; rmul := gfP2_Mul; rsub := gfP2_Sub;
  ropp := gfP2_Negative; req := eq2; req_equiv := eq2_equiv; rext := gfP2_ext; rth := gfP2_theory |}.

Add Ring gfP2_Ring : gfP2_theory (setoid eq2_equiv gfP2_ext).

(** ξ, and the embedding of the base field. *)
Definition xi : gfP2 := GFp2 1 9.
Definition of_Z (k : Z) : gfP2 := GFp2 0 k.

Lemma gfP2_Square_mul a : eq2 (gfP2_Square a) (gfP2_Mul a a).
Proof. ring2. Qed.
Lemma gfP2_MulXi_mul a : eq2 (gfP2_MulXi a) (gfP2_Mul xi a).
Proof. ring2. Qed.
Lemma gfP2_Double_add a : eq2 (gfP2_Double a) (gfP2_Add a a).
Proof. ring2. Qed.
Lemma gfP2_MulScalar_mul a k : eq2 (gfP2_MulScalar a k) (gfP2_Mul (of_Z k) a).
Proof. ring2. Qed.
Lemma gfP2_Minimal_eq a : eq2 (gfP2_Minimal a) a.
Proof.
  destruct a as [x y]. unfold gfP2_Minimal, minimal. split; cbn [gfP2_x gfP2_y];
    case_match; rewrite ?congr_mod; done.
Qed.

(** The methods of gfP2 as ring operations. *)
#[export] Hint Rewrite gfP2_Square_mul gfP2_MulXi_mul gfP2_Double_add gfP2_MulScalar_mul : gfp2.
Ltac to_ring2 := rewrite ?gfP2_Square_mul, ?gfP2_MulXi_mul, ?gfP2_Double_add, ?gfP2_MulScalar_mul.

Lemma gfP2_Conjugate_mul a b :
  eq2 (gfP2_Conjugate (gfP2_Mul a b)) (gfP2_Mul (gfP2_Conjugate a) (gfP2_Conjugate b)).
Proof. ring2. Qed.
Lemma gfP2_Conjugate_add a b :
  eq2 (gfP2_Conjugate (gfP2_Add a b)) (gfP2_Add (gfP2_Conjugate a) (gfP2_Conjugate b)).
Proof. ring2. Qed.

(** [Exp] is the power by the low bits of the exponent. *)
Lemma gfP2_Exp_pow a k : 0 ≤ k → eq2 (gfP2_Exp a k) (rpow a (Z.to_N k)).
Proof.
  intros Hk. unfold gfP2_Exp. rewrite <-(BitLen_mod k) at 3 by done.
  by apply (exp_loop_one (CR:=gfP2_ring) gfP2_Square gfP2_Mul gfP2_Square_mul).
Qed.

(** *** Inverses *)

Definition norm2 (a : gfP2) : Z := gfP2_y a * gfP2_y a + gfP2_x a * gfP2_x a.

Lemma norm2_mul a b : congr P (norm2 (gfP2_Mul a b)) (norm2 a * norm2 b).
Proof. destruct a, b. unfold norm2. cbn -[P]. zring. Qed.

#[export] Instance norm2_proper : Proper (eq2 ==> congr P) norm2.
Proof. intros [??] [??] [H1 H2]. unfold norm2. cbn in *. by rewrite H1, H2. Qed.

Lemma P_domain a b : congr P (a * b) 0 → congr P a 0 ∨ congr P b 0.
Proof. unfold congr. rewrite !Z.sub_0_r. apply prime_mult, P_prime. Qed.

(** -1 is not a square modulo [P], since [P] is 3 modulo 4. *)
Lemma sum_of_squares x y : congr P (y * y + x * x) 0 → congr P x 0 ∧ congr P y 0.
Proof.
  intros H. set (h := (P - 1) / 2).
  assert (Hh : P = 1 + 2 * h) by done. assert (Hodd : Z.odd h = true) by done.
  assert (Hpos : 0 ≤ h) by (by apply Z.div_pos).
  assert (Hpow : ∀ a, a ^ P = a * (a * a) ^ h).
  { intros a. rewrite Hh at 1. rewrite Z.pow_add_r, Z.pow_1_r, Z.pow_mul_r by lia.
    by rewrite Z.pow_2_r. }
  assert (Hsq : congr P (x * x) (- (y * y))).
  { transitivity ((y * y + x * x) - y * y); [apply eq_congr; ring|]. rewrite H.
    apply eq_congr. ring. }
  assert (Hxy : congr P (2 * (x * y)) 0).
  { transitivity (x * y + y * x); [apply eq_congr; ring|].
    rewrite <-(fermat P P_prime x) at 1. rewrite <-(fermat P P_prime y) at 2.
    rewrite !Hpow, (congr_pow P (x * x) (- (y * y)) h) by done.
    rewrite Z.pow_opp_odd by (by apply Z.odd_spec). apply eq_congr. ring. }
  apply P_domain in Hxy as [H2|Hxy]; [by apply congr_0 in H2|].
  assert (Hs : ∀ a, congr P (a * a) 0 → congr P a 0) by (by intros a [?|?]%P_domain).
  apply P_domain in Hxy as [H0|H0]; (split; [try exact H0|try exact H0]); apply Hs.
  - transitivity ((y * y + x * x) - x * x); [apply eq_congr; ring|]. rewrite H, H0.
    apply eq_congr. ring.
  - rewrite Hsq, H0. apply eq_congr. ring.
Qed.

(** The inverse that [Invert] finds, if the norm is not zero. *)
Lemma gfP2_Invert_norm stale a :
  ¬ congr P (norm2 a) 0 → eq2 (gfP2_Mul a (gfP2_Invert stale a)) gfP2_One.
Proof.
  intros Hn. unfold gfP2_Invert. fold (norm2 a).
  rewrite <-(ModInverse_prime _ _ P_prime) in Hn.
  pose proof (ModInverse_spec (norm2 a) P ltac:(done)) as Hs.
  destruct (ModInverse (norm2 a) P) as [r|]; [|done]. destruct Hs as [_ Hr]. cbn [default].
  destruct a as [x y]. unfold norm2 in Hr. cbn [gfP2_x gfP2_y] in Hr.
  split; cbn -[P]; rewrite ?(congr_mod P); [apply eq_congr; ring|].
  rewrite <-Hr. apply eq_congr. ring.
Qed.

Lemma gfP2_nonzero_norm a : ¬ eq2 a gfP2_Zero → ¬ congr P (norm2 a) 0.
Proof. intros Ha Hn%sum_of_squares. by apply Ha. Qed.

(** [Invert] inverts every element but zero, which it maps to zero, whatever the
    number from the pool was. *)
Lemma gfP2_Invert_spec stale a :
  eq2 (gfP2_Mul a (gfP2_Invert stale a)) (if decide (eq2 a gfP2_Zero) then gfP2_Zero else gfP2_One).
Proof.
  case_decide as Ha; [generalize (gfP2_Invert stale a); intros; rewrite Ha; ring|]. by apply gfP2_Invert_norm, gfP2_nonzero_norm.
Qed.

Lemma gfP2_Invert_zero stale a : eq2 a gfP2_Zero → eq2 (gfP2_Invert stale a) gfP2_Zero.
Proof.
  destruct a as [x y]. intros [Hx Hy]. cbn in Hx, Hy. unfold gfP2_Invert. cbn [gfP2_x gfP2_y].
  generalize (default stale (ModInverse (y * y + x * x) P)). intros r.
  split; cbn [gfP2_x gfP2_y gfP2_Zero]; rewrite (congr_mod P); [rewrite Hx|rewrite Hy];
    apply eq_congr; ring.
Qed.

#[export] Instance gfP2_Invert_proper stale : Proper (eq2 ==> eq2) (gfP2_Invert stale).
Proof.
  intros [x y] [x' y'] [Hx Hy]. unfold gfP2_Invert. cbn [gfP2_x gfP2_y] in *.
  rewrite (ModInverse_congr (y * y + x * x) (y' * y' + x' * x')) by (by rewrite ?Hx, ?Hy).
  split; cbn [gfP2_x gfP2_y]; rewrite !(congr_mod P); [by rewrite Hx|by rewrite Hy].
Qed.

#[export] Instance gfP2_field : IsField (R := gfP2).
Proof.
  split.
  - intros a b. change (Decision (eq2 a b)). apply _.
  - change (¬ eq2 gfP2_One gfP2_Zero). intros [_ H]. cbn in H. by apply congr_0 in H.
  - change (¬ eq2 (gfP2_Add gfP2_One gfP2_One) gfP2_Zero). intros [_ H]. cbn in H.
    by apply congr_0 in H.
  - intros a Ha. exists (gfP2_Invert 0 a). by apply gfP2_Invert_norm, gfP2_nonzero_norm.
Defined.

(** ** gfP6 *)

Definition eq6 (a b : gfP6) : Prop :=
  eq2 (gfP6_x a) (gfP6_x b) ∧ eq2 (gfP6_y a) (gfP6_y b) ∧ eq2 (gfP6_z a) (gfP6_z b).

#[export] Instance eq6_equiv : Equivalence eq6.
Proof.
  split.
  - by intros a.
  - intros a b (?&?&?). split_and!; by symmetry.
  - intros a b c (H1&H2&H3) (H4&H5&H6). split_and!; [by rewrite H1|by rewrite H2|by rewrite H3].
Qed.
#[export] Instance eq6_dec a b : Decision (eq6 a b).
Proof. unfold eq6. apply _. Defined.

(** Multiplication modulo [τ³ - ξ], by the definition. *)
Definition mul6 (a b : gfP6) : gfP6 :=
  let '(GFp6 x1 y1 z1) := a in
  let '(GFp6 x2 y2 z2) := b in
  GFp6
    (gfP2_Add (gfP2_Add (gfP2_Mul x1 z2) (gfP2_Mul z1 x2)) (gfP2_Mul y1 y2))
    (gfP2_Add (gfP2_Add (gfP2_Mul y1 z2) (gfP2_Mul z1 y2)) (gfP2_Mul xi (gfP2_Mul x1 x2)))
    (gfP2_Add (gfP2_Mul z1 z2) (gfP2_Mul xi (gfP2_Add (gfP2_Mul x1 y2) (gfP2_Mul y1 x2)))).

Definition tau : gfP6 := GFp6 gfP2_Zero gfP2_One gfP2_Zero.
Definition of_gfP2 (c : gfP2) : gfP6 := GFp6 gfP2_Zero gfP2_Zero c.

Ltac ring6 :=
  intros; repeat match goal with a : gfP6 |- _ => destruct a as [???] end;
  cbv [eq6 mul6 gfP6_Mul gfP6_Add gfP6_Sub gfP6_Negative gfP6_Zero gfP6_One gfP6_Double gfP6_MulScalar
       gfP6_MulGFP gfP6_MulTau gfP6_Square tau of_gfP2 gfP6_x gfP6_y gfP6_z];
  split_and!; to_ring2; ring.

(** The Karatsuba products are the product. *)
Lemma gfP6_Mul_schoolbook a b : eq6 (gfP6_Mul a b) (mul6 a b).
Proof. ring6. Qed.

Ltac proper6 :=
  repeat intros [???] [???] (?&?&?);
  cbv [eq6 mul6 gfP6_Add gfP6_Sub gfP6_Negative gfP6_x gfP6_y gfP6_z] in *; split_and!;
  repeat match goal with H : eq2 ?a ?b |- _ => rewrite H; clear H end; reflexivity.

#[export] Instance mul6_proper : Proper (eq6 ==> eq6 ==> eq6) mul6.
Proof. proper6. Qed.
#[export] Instance gfP6_Mul_proper : Proper (eq6 ==> eq6 ==> eq6) gfP6_Mul.
Proof. intros a a' Ha b b' Hb. by rewrite !gfP6_Mul_schoolbook, Ha, Hb. Qed.
#[export] Instance gfP6_Add_proper : Proper (eq6 ==> eq6 ==> eq6) gfP6_Add.
Proof. proper6. Qed.
#[export] Instance gfP6_Sub_proper : Proper (eq6 ==> eq6 ==> eq6) gfP6_Sub.
Proof. proper6. Qed.
#[export] Instance gfP6_Negative_proper : Proper (eq6 ==> eq6) gfP6_Negative.
Proof. proper6. Qed.

Lemma gfP6_theory :
  ring_theory gfP6_Zero gfP6_One gfP6_Add gfP6_Mul gfP6_Sub gfP6_Negative eq6.
Proof. split; ring6. Qed.

Lemma gfP6_ext : ring_eq_ext gfP6_Add gfP6_Mul gfP6_Negative eq6.
Proof. split; apply _. Qed.

#[export] Instance gfP6_ring : CommRing gfP6 := {|
  rzero := gfP6_Zero; rone := gfP6_One; radd := gfP6_Add; rmul := gfP6_Mul; rsub := gfP6_Sub;
  ropp := gfP6_Negative; req := eq6; req_equiv := eq6_equiv; rext := gfP6_ext; rth := gfP6_theory |}.

Add Ring gfP6_Ring : gfP6_theory (setoid eq6_equiv gfP6_ext).

Lemma gfP6_Square_mul a : eq6 (gfP6_Square a) (gfP6_Mul a a).
Proof. ring6. Qed.
Lemma gfP6_MulTau_mul a : eq6 (gfP6_MulTau a) (gfP6_Mul tau a).
Proof. ring6. Qed.
Lemma gfP6_Double_add a : eq6 (gfP6_Double a) (gfP6_Add a a).
Proof. ring6. Qed.
Lemma gfP6_MulScalar_mul a c : eq6 (gfP6_MulScalar a c) (gfP6_Mul (of_gfP2 c) a).
Proof. ring6. Qed.
Lemma gfP6_MulGFP_mul a k : eq6 (gfP6_MulGFP a k) (gfP6_Mul (of_gfP2 (of_Z k)) a).
Proof. ring6. Qed.
Lemma gfP6_Minimal_eq a : eq6 (gfP6_Minimal a) a.
Proof. split_and!; apply gfP2_Minimal_eq. Qed.

Ltac to_ring6 :=
  rewrite ?gfP6_Square_mul, ?gfP6_MulTau_mul, ?gfP6_Double_add, ?gfP6_MulScalar_mul, ?gfP6_MulGFP_mul.

(** *** Inverses *)

(** The norm, the number [F] that [Invert] inverts, is multiplicative. *)
Definition adj6 (a : gfP6) : gfP6 :=
  let '(GFp6 x y z) := a in
  GFp6 (gfP2_Sub (gfP2_Mul y y) (gfP2_Mul x z))
       (gfP2_Sub (gfP2_Mul xi (gfP2_Mul x x)) (gfP2_Mul y z))
       (gfP2_Sub (gfP2_Mul z z) (gfP2_Mul xi (gfP2_Mul x y))).
Definition norm6 (a : gfP6) : gfP2 :=
  gfP2_Add (gfP2_Add (gfP2_Mul xi (gfP2_Mul (gfP6_x (adj6 a)) (gfP6_y a)))
                     (gfP2_Mul (gfP6_z (adj6 a)) (gfP6_z a)))
           (gfP2_Mul xi (gfP2_Mul (gfP6_y (adj6 a)) (gfP6_x a))).

Lemma gfP6_Mul_adj a : eq6 (gfP6_Mul a (adj6 a)) (of_gfP2 (norm6 a)).
Proof. destruct a as [x y z]. unfold norm6, adj6. ring6. Qed.

Lemma norm6_mul a b : eq2 (norm6 (gfP6_Mul a b)) (gfP2_Mul (norm6 a) (norm6 b)).
Proof.
  destruct a as [x1 y1 z1], b as [x2 y2 z2]. unfold norm6, adj6.
  cbv [gfP6_Mul gfP6_x gfP6_y gfP6_z]. to_ring2. ring.
Qed.

#[export] Instance norm6_proper : Proper (eq6 ==> eq2) norm6.
Proof.
  intros [x1 y1 z1] [x2 y2 z2] (H1&H2&H3). cbv [norm6 adj6 gfP6_x gfP6_y gfP6_z] in *.
  by rewrite H1, H2, H3.
Qed.

Lemma gfP6_Invert_adj stale a :
  eq6 (gfP6_Invert stale a) (gfP6_Mul (of_gfP2 (gfP2_Invert stale (norm6 a))) (adj6 a)).
Proof.
  destruct a as [x y z]. rewrite gfP6_Mul_schoolbook.
  cbv [gfP6_Invert norm6 adj6 eq6 mul6 of_gfP2 gfP6_x gfP6_y gfP6_z]. split_and!; to_ring2; ring.
Qed.

(** [Invert] finds the inverse of every element that has one. *)
Lemma gfP6_Invert_unit stale a b :
  eq6 (gfP6_Mul a b) gfP6_One → eq6 (gfP6_Mul a (gfP6_Invert stale a)) gfP6_One.
Proof.
  intros Hab.
  assert (Hn : ¬ eq2 (norm6 a) gfP2_Zero).
  { intros H0. apply norm6_proper in Hab. rewrite norm6_mul, H0 in Hab.
    apply (field_one (R := gfP2)). change (eq2 gfP2_One gfP2_Zero).
    transitivity (norm6 gfP6_One).
    - cbv [norm6 adj6 gfP6_One gfP6_x gfP6_y gfP6_z]. ring.
    - rewrite <-Hab. ring. }
  rewrite gfP6_Invert_adj.
  transitivity (gfP6_Mul (of_gfP2 (gfP2_Invert stale (norm6 a))) (gfP6_Mul a (adj6 a))); [ring|].
  rewrite gfP6_Mul_adj.
  transitivity (of_gfP2 (gfP2_Mul (norm6 a) (gfP2_Invert stale (norm6 a)))); [ring6|].
  pose proof (gfP2_Invert_spec stale (norm6 a)) as Hi. rewrite decide_False in Hi by done.
  split_and!; [done..|]. exact Hi.
Qed.

(** ** gfP12 *)

Definition eq12 (a b : gfP12) : Prop :=
  eq6 (gfP12_x a) (gfP12_x b) ∧ eq6 (gfP12_y a) (gfP12_y b).

#[export] Instance eq12_equiv : Equivalence eq12.
Proof.
  split.
  - by intros a.
  - intros a b [??]. by split; symmetry.
  - intros a b c [H1 H2] [H3 H4]. split; [by rewrite H1|by rewrite H2].
Qed.
#[export] Instance eq12_dec a b : Decision (eq12 a b).
Proof. unfold eq12. apply _. Defined.

#[export] Instance gfP6_MulTau_proper : Proper (eq6 ==> eq6) gfP6_MulTau.
Proof. intros a b H. by rewrite !gfP6_MulTau_mul, H. Qed.
#[export] Instance gfP6_Square_proper : Proper (eq6 ==> eq6) gfP6_Square.
Proof. intros a b H. by rewrite !gfP6_Square_mul, H. Qed.

Definition omega : gfP12 := GFp12 gfP6_One gfP6_Zero.
Definition of_gfP6 (c : gfP6) : gfP12 := GFp12 gfP6_Zero c.

Ltac ring12 :=
  intros; repeat match goal with a : gfP12 |- _ => destruct a as [??] end;
  cbv [eq12 gfP12_Mul gfP12_Add gfP12_Sub gfP12_Negative gfP12_Zero gfP12_One gfP12_Square
       gfP12_MulScalar gfP12_Conjugate omega of_gfP6 gfP12_x gfP12_y];
  split; to_ring6; ring.

Ltac proper12 :=
  repeat intros [??] [??] [??];
  cbv [eq12 gfP12_Mul gfP12_Add gfP12_Sub gfP12_Negative gfP12_Conjugate gfP12_x gfP12_y] in *; split;
  repeat match goal with H : eq6 ?a ?b |- _ => rewrite H; clear H end; reflexivity.

#[export] Instance gfP12_Mul_proper : Proper (eq12 ==> eq12 ==> eq12) gfP12_Mul.
Proof. proper12. Qed.
#[export] Instance gfP12_Add_proper : Proper (eq12 ==> eq12 ==> eq12) gfP12_Add.
Proof. proper12. Qed.
#[export] Instance gfP12_Sub_proper : Proper (eq12 ==> eq12 ==> eq12) gfP12_Sub.
Proof. proper12. Qed.
#[export] Instance gfP12_Negative_proper : Proper (eq12 ==> eq12) gfP12_Negative.
Proof. proper12. Qed.
#[export] Instance gfP12_Conjugate_proper : Proper (eq12 ==> eq12) gfP12_Conjugate.
Proof. proper12. Qed.

Lemma gfP12_theory :
  ring_theory gfP12_Zero gfP12_One gfP12_Add gfP12_Mul gfP12_Sub gfP12_Negative eq12.
Proof. split; ring12. Qed.

Lemma gfP12_ext : ring_eq_ext gfP12_Add gfP12_Mul gfP12_Negative eq12.
Proof. split; apply _. Qed.

#[export] Instance gfP12_ring : CommRing gfP12 := {|
  rzero := gfP12_Zero; rone := gfP12_One; radd := gfP12_Add; rmul := gfP12_Mul; rsub := gfP12_Sub;
  ropp := gfP12_Negative; req := eq12; req_equiv := eq12_equiv; rext := gfP12_ext;
  rth := gfP12_theory |}.

Add Ring gfP12_Ring : gfP12_theory (setoid eq12_equiv gfP12_ext).

Lemma gfP12_Square_mul a : eq12 (gfP12_Square a) (gfP12_Mul a a).
Proof. ring12. Qed.
Lemma gfP12_Minimal_eq a : eq12 (gfP12_Minimal a) a.
Proof. split; apply gfP6_Minimal_eq. Qed.
#[export] Instance gfP12_Square_proper : Proper (eq12 ==> eq12) gfP12_Square.
Proof. intros a b H. by rewrite !gfP12_Square_mul, H. Qed.

Lemma gfP12_Exp_pow a k : 0 ≤ k → eq12 (gfP12_Exp a k) (rpow a (Z.to_N k)).
Proof.
  intros Hk. unfold gfP12_Exp. rewrite <-(BitLen_mod k) at 3 by done.
  by apply (exp_loop_one (CR:=gfP12_ring) gfP12_Square gfP12_Mul gfP12_Square_mul).
Qed.

(** *** Inverses *)

Definition norm12 (a : gfP12) : gfP6 :=
  gfP6_Sub (gfP6_Mul (gfP12_y a) (gfP12_y a)) (gfP6_Mul tau (gfP6_Mul (gfP12_x a) (gfP12_x a))).

Lemma gfP12_Mul_Conjugate a : eq12 (gfP12_Mul a (gfP12_Conjugate a)) (of_gfP6 (norm12 a)).
Proof. unfold norm12. ring12. Qed.
Lemma norm12_mul a b : eq6 (norm12 (gfP12_Mul a b)) (gfP6_Mul (norm12 a) (norm12 b)).
Proof.
  destruct a as [x1 y1], b as [x2 y2]. unfold norm12. cbv [gfP12_Mul gfP12_x gfP12_y].
  to_ring6. ring.
Qed.
#[export] Instance norm12_proper : Proper (eq12 ==> eq6) norm12.
Proof.
  intros [x1 y1] [x2 y2] [H1 H2]. cbv [norm12 gfP12_x gfP12_y] in *. by rewrite H1, H2.
Qed.
#[export] Instance gfP6_Invert_proper stale : Proper (eq6 ==> eq6) (gfP6_Invert stale).
Proof.
  intros a b H. rewrite !gfP6_Invert_adj. apply gfP6_Mul_proper.
  - split_and!; [done..|]. cbn. by rewrite H.
  - destruct a as [x1 y1 z1], b as [x2 y2 z2], H as (H1&H2&H3).
    cbv [eq6 adj6 gfP6_x gfP6_y gfP6_z] in *. by rewrite H1, H2, H3.
Qed.

Lemma gfP12_Invert_norm stale a :
  eq12 (gfP12_Invert stale a)
       (gfP12_Mul (of_gfP6 (gfP6_Invert stale (norm12 a))) (gfP12_Conjugate a)).
Proof.
  destruct a as [x y]. cbv [gfP12_Invert gfP12_x gfP12_y].
  assert (eq6 (gfP6_Sub (gfP6_Square y) (gfP6_MulTau (gfP6_Square x))) (norm12 (GFp12 x y))) as H.
  { unfold norm12. cbv [gfP12_x gfP12_y]. to_ring6. ring. }
  cbv [eq12 gfP12_MulScalar gfP12_Mul of_gfP6 gfP12_Conjugate gfP12_x gfP12_y].
  rewrite H. split; to_ring6; ring.
Qed.

(** [Invert] finds the inverse of every element that has one. *)
Lemma gfP12_Invert_unit stale a b :
  eq12 (gfP12_Mul a b) gfP12_One → eq12 (gfP12_Mul a (gfP12_Invert stale a)) gfP12_One.
Proof.
  intros Hab.
  assert (Hn : eq6 (gfP6_Mul (norm12 a) (norm12 b)) gfP6_One).
  { rewrite <-norm12_mul, Hab. unfold norm12. cbv [gfP12_One gfP12_x gfP12_y]. ring. }
  apply (gfP6_Invert_unit stale) in Hn.
  rewrite gfP12_Invert_norm.
  transitivity (gfP12_Mul (of_gfP6 (gfP6_Invert stale (norm12 a))) (gfP12_Mul a (gfP12_Conjugate a)));
    [ring|].
  rewrite gfP12_Mul_Conjugate.
  transitivity (of_gfP6 (gfP6_Mul (norm12 a) (gfP6_Invert stale (norm12 a)))); [ring12|].
  split; [done|exact Hn].
Qed.

#[global] Opaque rpow rnat.
