(* ===== verification/Bn256Frobenius.v ===== *)
(** * Frobenius maps of common/crypto/bn256

    The constants of constants.go are the powers of ξ they are named after, and
    the methods [Frobenius], [FrobeniusP2] and [Conjugate] of gfp12.go raise to
    the powers p, p² and p⁶. *)

From Stdlib Require Import Znumtheory Setoid Ring.
From S2P Require Import Prelude Primes Rings Jacobian PrimeField MathBig Bn256Field Bn256Laws.
Local Open Scope Z_scope.

(** [P] as an exponent. Nothing is to unfold it. *)
Lemma PN_exists : {n : N | n = Z.to_N P}.
Proof. by exists (Z.to_N P). Qed.
Definition PN : N := `PN_exists.

Lemma PN_eq : PN = Z.to_N P.
Proof. apply (proj2_sig PN_exists). Qed.
Lemma PN_Z : Z.of_N PN = P.
Proof. rewrite PN_eq. apply Z2N.id. pose proof P_pos. lia. Qed.

(** ** Embeddings *)

Lemma rpow_of_Z k n : eq2 (rpow (of_Z k) n) (of_Z (k ^ Z.of_N n)).
Proof.
  induction n as [|n IH] using N.peano_ind; [by rewrite rpow_0|].
  rewrite rpow_succ, N2Z.inj_succ, Z.pow_succ_r by lia. cbn [rmul gfP2_ring]. rewrite IH. ring2.
Qed.

#[export] Instance of_Z_proper : Proper (congr P ==> eq2) of_Z.
Proof. intros a b H. by split. Qed.
#[export] Instance of_gfP2_proper : Proper (eq2 ==> eq6) of_gfP2.
Proof. intros a b H. by split_and!. Qed.
#[export] Instance of_gfP6_proper : Proper (eq6 ==> eq12) of_gfP6.
Proof. intros a b H. by split. Qed.

Definition emb (c : gfP2) : gfP12 := of_gfP6 (of_gfP2 c).

#[export] Instance emb_proper : Proper (eq2 ==> eq12) emb.
Proof. intros a b H. unfold emb. by rewrite H. Qed.

Ltac emb_ring := unfold emb; intros; split; cbv [gfP12_x gfP12_y gfP12_Mul gfP12_Add of_gfP6]; ring6.

Lemma emb_mul a b : eq12 (emb (gfP2_Mul a b)) (gfP12_Mul (emb a) (emb b)).
Proof. emb_ring. Qed.
Lemma emb_one : eq12 (emb gfP2_One) gfP12_One.
Proof. done. Qed.
Lemma emb_add a b : eq12 (emb (gfP2_Add a b)) (gfP12_Add (emb a) (emb b)).
Proof. emb_ring. Qed.

Lemma rpow_emb c n : eq12 (rpow (emb c) n) (emb (rpow c n)).
Proof.
  induction n as [|n IH] using N.peano_ind; [by rewrite !rpow_0|].
  rewrite !rpow_succ. cbn [rmul gfP12_ring gfP2_ring]. by rewrite IH, emb_mul.
Qed.

(** ** The characteristic *)

Lemma rnat_gfP2 n : eq2 (rnat n) (of_Z (Z.of_N n)).
Proof.
  induction n as [|n IH] using N.peano_ind; [by rewrite rnat_0|].
  rewrite rnat_succ, N2Z.inj_succ. cbn [radd rone gfP2_ring]. rewrite IH. unfold Z.succ. ring2.
Qed.
Lemma rnat_gfP12 n : eq12 (rnat n) (emb (rnat n)).
Proof.
  induction n as [|n IH] using N.peano_ind; [by rewrite !rnat_0|].
  rewrite !rnat_succ. cbn [radd rone gfP12_ring gfP2_ring]. by rewrite IH, emb_add.
Qed.

Lemma char_gfP2 : eq2 (rnat PN) gfP2_Zero.
Proof.
  rewrite rnat_gfP2, PN_Z. split; [done|]. cbn. apply congr_0; [apply P_pos|].
  apply Z_mod_same_full.
Qed.

Lemma rpow_P_add2 a b : eq2 (rpow (gfP2_Add a b) PN) (gfP2_Add (rpow a PN) (rpow b PN)).
Proof.
  apply (frobenius_add (CR := gfP2_ring)); [rewrite PN_Z; apply P_prime|apply char_gfP2].
Qed.
Lemma rpow_P_add12 a b :
  eq12 (rpow (gfP12_Add a b) PN) (gfP12_Add (rpow a PN) (rpow b PN)).
Proof.
  apply (frobenius_add (CR := gfP12_ring)); [rewrite PN_Z; apply P_prime|].
  change (eq12 (rnat PN) gfP12_Zero). by rewrite rnat_gfP12, char_gfP2.
Qed.
Lemma rpow_mul2 a b n : eq2 (rpow (gfP2_Mul a b) n) (gfP2_Mul (rpow a n) (rpow b n)).
Proof. apply (rpow_mul_l (CR := gfP2_ring)). Qed.
Lemma rpow_mul12 a b n :
  eq12 (rpow (gfP12_Mul a b) n) (gfP12_Mul (rpow a n) (rpow b n)).
Proof. apply (rpow_mul_l (CR := gfP12_ring)). Qed.

(** ** gfP2: the power p is conjugation *)

Definition gfi : gfP2 := GFp2 1 0.

Lemma gfi_square : eq2 (rpow gfi 2) (of_Z (-1)).
Proof. rewrite (rpow_sqr (CR := gfP2_ring)). cbn [rmul gfP2_ring]. split; cbn -[P]; zring. Qed.

Lemma gfi_P : eq2 (rpow gfi PN) (gfP2_Negative gfi).
Proof.
  assert (∃ k, PN = (1 + 2 * (1 + 2 * k))%N) as [k ->].
  { exists ((Z.to_N P - 3) / 4)%N. rewrite PN_eq. by vm_compute. }
  rewrite (rpow_add (CR := gfP2_ring)), (rpow_mul (CR := gfP2_ring)), gfi_square, rpow_of_Z.
  rewrite (rpow_1 (CR := gfP2_ring)). cbn [rmul gfP2_ring].
  replace ((-1) ^ Z.of_N (1 + 2 * k)) with (-1); [ring2|].
  rewrite N2Z.inj_add, N2Z.inj_mul, Z.pow_add_r, Z.pow_mul_r by lia.
  change ((-1) ^ 2) with 1. rewrite Z.pow_1_l by lia. done.
Qed.

Lemma gfP2_pow_P a : eq2 (rpow a PN) (gfP2_Conjugate a).
Proof.
  destruct a as [x y].
  transitivity (rpow (gfP2_Add (gfP2_Mul (of_Z x) gfi) (of_Z y)) PN).
  { apply (rpow_proper (CR := gfP2_ring)); [|done]. ring2. }
  rewrite rpow_P_add2, rpow_mul2, gfi_P, (rpow_of_Z x), (rpow_of_Z y), PN_Z, (fermat P P_prime x), (fermat P P_prime y).
  ring2.
Qed.

(** ** Constants *)

Lemma xi_pow_sixth : gfP2_Exp xi ((P - 1) / 6) = xiToPMinus1Over6.
Proof. vm_compute. reflexivity. Qed.

Lemma xiToPMinus1Over6_pow : eq2 xiToPMinus1Over6 (rpow xi ((PN - 1) / 6)).
Proof.
  rewrite <-xi_pow_sixth, gfP2_Exp_pow by (by vm_compute).
  by replace (Z.to_N ((P - 1) / 6)) with ((PN - 1) / 6)%N by (rewrite PN_eq; by vm_compute).
Qed.

Lemma xiToPMinus1Over3_sixth : eq2 xiToPMinus1Over3 (gfP2_Mul xiToPMinus1Over6 xiToPMinus1Over6).
Proof. by replace (gfP2_Mul _ _) with xiToPMinus1Over3 by (by vm_compute). Qed.
Lemma xiToPMinus1Over2_sixth :
  eq2 xiToPMinus1Over2 (gfP2_Mul xiToPMinus1Over6 (gfP2_Mul xiToPMinus1Over6 xiToPMinus1Over6)).
Proof. by replace (gfP2_Mul _ _) with xiToPMinus1Over2 by (by vm_compute). Qed.
Lemma xiTo2PMinus2Over3_third : eq2 xiTo2PMinus2Over3 (gfP2_Mul xiToPMinus1Over3 xiToPMinus1Over3).
Proof. by replace (gfP2_Mul _ _) with xiTo2PMinus2Over3 by (by vm_compute). Qed.

(** The constants for p² are the norms of those for p. *)
Lemma xi_norms :
  eq2 (gfP2_Mul (gfP2_Conjugate xiTo2PMinus2Over3) xiTo2PMinus2Over3) (of_Z xiTo2PSquaredMinus2Over3) ∧
  eq2 (gfP2_Mul (gfP2_Conjugate xiToPMinus1Over3) xiToPMinus1Over3) (of_Z xiToPSquaredMinus1Over3) ∧
  eq2 (gfP2_Mul (gfP2_Conjugate xiToPMinus1Over6) xiToPMinus1Over6) (of_Z xiToPSquaredMinus1Over6).
Proof.
  split_and!.
  - by replace (gfP2_Mul _ _) with (of_Z xiTo2PSquaredMinus2Over3) by (by vm_compute).
  - by replace (gfP2_Mul _ _) with (of_Z xiToPSquaredMinus1Over3) by (by vm_compute).
  - by replace (gfP2_Mul _ _) with (of_Z xiToPSquaredMinus1Over6) by (by vm_compute).
Qed.

(** Roots of unity. *)
Lemma xi_cubes :
  congr P (xiTo2PSquaredMinus2Over3 ^ 3) 1 ∧ congr P (xiToPSquaredMinus1Over3 ^ 3) 1 ∧
  congr P (xiToPSquaredMinus1Over6 ^ 3) (-1).
Proof. split_and!; apply congr_iff; by vm_compute. Qed.

(** ** gfP12: the maps are powers *)

(** An element as a polynomial in ω over gfP2. *)
Definition poly6 (w : gfP12) (x y z : gfP2) : gfP12 :=
  let w2 := gfP12_Mul w w in
  gfP12_Add (gfP12_Add (gfP12_Mul (emb x) (gfP12_Mul w2 w2)) (gfP12_Mul (emb y) w2)) (emb z).
Definition poly12 (w : gfP12) (a b : gfP6) : gfP12 :=
  gfP12_Add (gfP12_Mul (poly6 w (gfP6_x a) (gfP6_y a) (gfP6_z a)) w)
            (poly6 w (gfP6_x b) (gfP6_y b) (gfP6_z b)).

Lemma of_gfP6_mul a b : eq12 (of_gfP6 (gfP6_Mul a b)) (gfP12_Mul (of_gfP6 a) (of_gfP6 b)).
Proof. ring12. Qed.
Lemma of_gfP6_add a b : eq12 (of_gfP6 (gfP6_Add a b)) (gfP12_Add (of_gfP6 a) (of_gfP6 b)).
Proof. ring12. Qed.
Lemma omega_square : eq12 (gfP12_Mul omega omega) (of_gfP6 tau).
Proof. ring12. Qed.
Lemma tau_square : eq6 (gfP6_Mul tau tau) (GFp6 gfP2_One gfP2_Zero gfP2_Zero).
Proof. ring6. Qed.
Lemma tau_cube : eq6 (gfP6_Mul tau (GFp6 gfP2_One gfP2_Zero gfP2_Zero)) (of_gfP2 xi).
Proof. ring6. Qed.
Lemma gfP6_poly a :
  eq6 a (gfP6_Add (gfP6_Add (gfP6_Mul (of_gfP2 (gfP6_x a)) (GFp6 gfP2_One gfP2_Zero gfP2_Zero))
                            (gfP6_Mul (of_gfP2 (gfP6_y a)) tau)) (of_gfP2 (gfP6_z a))).
Proof. ring6. Qed.

Lemma of_gfP6_poly a : eq12 (of_gfP6 a) (poly6 omega (gfP6_x a) (gfP6_y a) (gfP6_z a)).
Proof.
  rewrite (gfP6_poly a) at 1. unfold poly6, emb.
  by rewrite omega_square, !of_gfP6_add, !of_gfP6_mul, <-tau_square, of_gfP6_mul.
Qed.

Lemma gfP12_poly a : eq12 a (poly12 omega (gfP12_x a) (gfP12_y a)).
Proof.
  unfold poly12. rewrite <-!of_gfP6_poly. destruct a as [x y]. ring12.
Qed.

Lemma omega_sixth : eq12 (rpow omega 6) (emb xi).
Proof.
  change 6%N with (2 * 3)%N. rewrite (rpow_mul (CR := gfP12_ring)), (rpow_sqr (CR := gfP12_ring)).
  change 3%N with (N.succ 2). rewrite rpow_succ, (rpow_sqr (CR := gfP12_ring)).
  cbn [rmul gfP12_ring]. unfold emb.
  by rewrite omega_square, <-!of_gfP6_mul, tau_square, tau_cube.
Qed.

Lemma omega_P : eq12 (rpow omega PN) (gfP12_Mul omega (emb xiToPMinus1Over6)).
Proof.
  assert (PN = 1 + 6 * ((PN - 1) / 6))%N as Hk by (rewrite PN_eq; by vm_compute).
  rewrite Hk at 1.
  rewrite (rpow_add (CR := gfP12_ring)), (rpow_1 (CR := gfP12_ring)), (rpow_mul (CR := gfP12_ring)).
  cbn [rmul gfP12_ring]. by rewrite omega_sixth, rpow_emb, <-xiToPMinus1Over6_pow.
Qed.

Lemma poly6_P x y z :
  eq12 (rpow (poly6 omega x y z) PN)
       (poly6 (gfP12_Mul omega (emb xiToPMinus1Over6))
              (gfP2_Conjugate x) (gfP2_Conjugate y) (gfP2_Conjugate z)).
Proof.
  unfold poly6. rewrite !rpow_P_add12, !rpow_mul12, !rpow_emb, !gfP2_pow_P, !omega_P. done.
Qed.

Lemma poly6_scale c6 c3 c23 x y z :
  eq2 c3 (gfP2_Mul c6 c6) → eq2 c23 (gfP2_Mul c3 c3) →
  eq12 (poly6 omega (gfP2_Mul x c23) (gfP2_Mul y c3) z) (poly6 (gfP12_Mul omega (emb c6)) x y z).
Proof. intros H3 H23. unfold poly6. rewrite H23, H3, !emb_mul. ring. Qed.

Lemma gfP6_Frobenius_poly a :
  eq12 (of_gfP6 (gfP6_Frobenius a))
       (poly6 (gfP12_Mul omega (emb xiToPMinus1Over6)) (gfP2_Conjugate (gfP6_x a))
              (gfP2_Conjugate (gfP6_y a)) (gfP2_Conjugate (gfP6_z a))).
Proof.
  rewrite of_gfP6_poly. unfold gfP6_Frobenius. cbn [gfP6_x gfP6_y gfP6_z].
  apply poly6_scale; [apply xiToPMinus1Over3_sixth|apply xiTo2PMinus2Over3_third].
Qed.

Lemma gfP12_parts x y : eq12 (GFp12 x y) (gfP12_Add (gfP12_Mul (of_gfP6 x) omega) (of_gfP6 y)).
Proof. ring12. Qed.

Lemma of_gfP6_scale c a : eq12 (of_gfP6 (gfP6_MulScalar a c)) (gfP12_Mul (emb c) (of_gfP6 a)).
Proof. unfold emb. by rewrite gfP6_MulScalar_mul, of_gfP6_mul. Qed.

(** [Frobenius] raises to the power p. *)
Lemma gfP12_Frobenius_pow a : eq12 (gfP12_Frobenius a) (rpow a PN).
Proof.
  rewrite (gfP12_poly a) at 2. unfold poly12, gfP12_Frobenius.
  pose proof omega_P as Ho. pose proof poly6_P as Hp. pose proof gfP6_Frobenius_poly as Hf.
  revert Ho Hp Hf. generalize xiToPMinus1Over6. intros c Ho Hp Hf.
  rewrite rpow_P_add12, rpow_mul12, !Hp, Ho, <-!Hf.
  rewrite gfP12_parts, of_gfP6_scale. ring.
Qed.

(** [FrobeniusP2] is [Frobenius] twice. *)
Lemma gfP6_FrobeniusP2_twice a : eq6 (gfP6_FrobeniusP2 a) (gfP6_Frobenius (gfP6_Frobenius a)).
Proof.
  destruct xi_norms as (H1 & H2 & _). destruct a as [x y z].
  cbv [gfP6_FrobeniusP2 gfP6_Frobenius]. cbn [gfP6_x gfP6_y gfP6_z].
  revert H1 H2. generalize xiTo2PMinus2Over3, xiToPMinus1Over3,
    xiTo2PSquaredMinus2Over3, xiToPSquaredMinus1Over3.
  intros c1 c2 k1 k2 H1 H2. split_and!; cbn [gfP6_x gfP6_y gfP6_z];
    rewrite ?gfP2_MulScalar_mul, <-?H1, <-?H2; ring2.
Qed.

Lemma gfP6_Frobenius_MulScalar a c :
  eq6 (gfP6_Frobenius (gfP6_MulScalar a c)) (gfP6_MulScalar (gfP6_Frobenius a) (gfP2_Conjugate c)).
Proof.
  destruct a as [x y z]. cbv [gfP6_Frobenius gfP6_MulScalar]. cbn [gfP6_x gfP6_y gfP6_z].
  generalize xiTo2PMinus2Over3, xiToPMinus1Over3. intros c1 c2.
  split_and!; cbn [gfP6_x gfP6_y gfP6_z]; rewrite gfP2_Conjugate_mul; ring.
Qed.

Lemma gfP12_FrobeniusP2_twice a : eq12 (gfP12_FrobeniusP2 a) (gfP12_Frobenius (gfP12_Frobenius a)).
Proof.
  destruct xi_norms as (_ & _ & H6). destruct a as [x y].
  unfold gfP12_FrobeniusP2, gfP12_Frobenius. cbn [gfP12_x gfP12_y].
  revert H6. generalize xiToPMinus1Over6, xiToPSquaredMinus1Over6. intros c k H6.
  split; cbn [gfP12_x gfP12_y]; [|apply gfP6_FrobeniusP2_twice].
  rewrite gfP6_MulGFP_mul, <-H6, gfP6_FrobeniusP2_twice, (gfP6_MulScalar_mul (gfP6_Frobenius _) c).
  rewrite gfP6_Frobenius_MulScalar, gfP6_MulScalar_mul.
  transitivity (gfP6_Mul (gfP6_Mul (of_gfP2 (gfP2_Conjugate c)) (of_gfP2 c))
    (gfP6_Frobenius (gfP6_Frobenius x))); [|ring].
  apply gfP6_Mul_proper; [|done]. ring6.
Qed.

Lemma gfP12_FrobeniusP2_pow a : eq12 (gfP12_FrobeniusP2 a) (rpow a (PN * PN)).
Proof.
  rewrite gfP12_FrobeniusP2_twice, !gfP12_Frobenius_pow. symmetry. apply (rpow_mul (CR := gfP12_ring)).
Qed.

(** Three times [FrobeniusP2] is [Conjugate], the power p⁶. *)
Lemma gfP12_Conjugate_thrice a :
  eq12 (gfP12_Conjugate a) (gfP12_FrobeniusP2 (gfP12_FrobeniusP2 (gfP12_FrobeniusP2 a))).
Proof.
  destruct xi_cubes as (H1 & H2 & H3). destruct a as [[x1 y1 z1] [x2 y2 z2]].
  cbv [gfP12_FrobeniusP2 gfP12_Conjugate gfP6_FrobeniusP2 gfP6_MulGFP gfP6_Negative].
  cbn [gfP12_x gfP12_y gfP6_x gfP6_y gfP6_z].
  revert H1 H2 H3. generalize xiTo2PSquaredMinus2Over3, xiToPSquaredMinus1Over3, xiToPSquaredMinus1Over6.
  intros k1 k2 k3 H1 H2 H3.
  assert (Hs : ∀ a k l, congr P k l → eq2 (gfP2_MulScalar a k) (gfP2_MulScalar a l)).
  { intros a k l Hkl. rewrite !gfP2_MulScalar_mul. by rewrite Hkl. }
  split; cbn [gfP12_x gfP12_y]; split_and!; cbn [gfP6_x gfP6_y gfP6_z].
  - transitivity (gfP2_MulScalar x1 (k1 ^ 3 * k3 ^ 3)); [|ring2].
    rewrite (Hs _ _ (1 * -1)); [ring2|]. by rewrite H1, H3.
  - transitivity (gfP2_MulScalar y1 (k2 ^ 3 * k3 ^ 3)); [|ring2].
    rewrite (Hs _ _ (1 * -1)); [ring2|]. by rewrite H2, H3.
  - transitivity (gfP2_MulScalar z1 (k3 ^ 3)); [|ring2]. rewrite (Hs _ _ _ H3). ring2.
  - transitivity (gfP2_MulScalar x2 (k1 ^ 3)); [|ring2]. rewrite (Hs _ _ _ H1). ring2.
  - transitivity (gfP2_MulScalar y2 (k2 ^ 3)); [|ring2]. rewrite (Hs _ _ _ H2). ring2.
  - done.
Qed.

Definition P2N : N := PN * PN.
Definition P6N : N := P2N * P2N * P2N.

Lemma gfP12_Conjugate_pow a : eq12 (gfP12_Conjugate a) (rpow a P6N).
Proof.
  rewrite gfP12_Conjugate_thrice, !gfP12_FrobeniusP2_pow.
  change (PN * PN)%N with P2N. unfold P6N.
  by rewrite (rpow_mul (CR := gfP12_ring) a (P2N * P2N) P2N), (rpow_mul (CR := gfP12_ring) a P2N P2N).
Qed.

(** The power p¹² is the identity. *)
Lemma gfP12_pow_P12 a : eq12 (rpow a (P6N * P6N)) a.
Proof.
  rewrite (rpow_mul (CR := gfP12_ring)), <-!gfP12_Conjugate_pow. ring12.
Qed.

(** C13: the arithmetic of GF(p¹²) is that of the tower: the operations satisfy the laws
    of a commutative ring in which i² = -1, τ³ = ξ = i + 9 and ω² = τ, the
    Karatsuba product of gfP6 is the schoolbook one, [Square] is the product with
    itself, [Exp] the power, [Invert] an inverse whenever there is one, and
    [Frobenius], [FrobeniusP2] and [Conjugate] are the powers p, p² and p⁶. *)
Theorem tower_operations :
  ring_theory gfP12_Zero gfP12_One gfP12_Add gfP12_Mul gfP12_Sub gfP12_Negative eq12 ∧
  eq2 (gfP2_Mul gfi gfi) (gfP2_Negative gfP2_One) ∧
  eq6 (gfP6_Mul tau (gfP6_Mul tau tau)) (of_gfP2 xi) ∧
  eq12 (gfP12_Mul omega omega) (of_gfP6 tau) ∧
  (∀ a b, eq6 (gfP6_Mul a b) (mul6 a b)) ∧
  (∀ a, eq12 (gfP12_Square a) (gfP12_Mul a a)) ∧
  (∀ a k, 0 ≤ k → eq12 (gfP12_Exp a k) (rpow a (Z.to_N k))) ∧
  (∀ stale a b, eq12 (gfP12_Mul a b) gfP12_One →
     eq12 (gfP12_Mul a (gfP12_Invert stale a)) gfP12_One) ∧
  (∀ a, eq12 (gfP12_Frobenius a) (rpow a (Z.to_N P))) ∧
  (∀ a, eq12 (gfP12_FrobeniusP2 a) (rpow a (Z.to_N P * Z.to_N P))) ∧
  (∀ a, eq12 (gfP12_Conjugate a)
    (rpow a (let p2 := Z.to_N P * Z.to_N P in p2 * p2 * p2)%N)).
Proof.
  split_and!.
  - apply gfP12_theory.
  - split; cbn -[P]; zring.
  - by rewrite tau_square, tau_cube.
  - apply omega_square.
  - apply gfP6_Mul_schoolbook.
  - apply gfP12_Square_mul.
  - apply gfP12_Exp_pow.
  - apply gfP12_Invert_unit.
  - intros a. rewrite <-PN_eq. apply gfP12_Frobenius_pow.
  - intros a. rewrite <-PN_eq. apply gfP12_FrobeniusP2_pow.
  - intros a. rewrite <-PN_eq. apply gfP12_Conjugate_pow.
Qed.
