(* ===== verification/Bn256Curve.v ===== *)
(** * The curve of common/crypto/bn256

    Points of y² = x³ + 3 over the base field in Jacobian coordinates, with all the
    operations of curve.go. A method writes the fields of its receiver [c] while it
    reads those of its arguments, which may be the same object: [Double] takes a flag
    [alias] for this case, and [Add] hands it on. The numbers that a new point of a
    pool starts with are the arguments [sum] and [t] of [Mul]. *)

From Stdlib Require Import Znumtheory Setoid Ring.
From S2P Require Import Prelude Primes Rings Jacobian PrimeField MathBig Bn256Field Bn256Laws.
Local Open Scope Z_scope.

Record curvePoint := CurvePoint { cp_x : Z; cp_y : Z; cp_z : Z; cp_t : Z }.

Definition curveB : Z := 3.
Definition curveGen : curvePoint := CurvePoint 1 (-2) 1 1.

(** What [newCurvePoint] gives without a pool. *)
Definition newCurvePoint : curvePoint := CurvePoint 0 0 0 0.

Definition curve_IsOnCurve (c : curvePoint) : bool :=
  let yy := cp_y c * cp_y c in
  let xxx := cp_x c * cp_x c in
  let xxx := xxx * cp_x c in
  let yy := yy - xxx in
  let yy := yy - curveB in
  let yy := if (yy <? 0) || (P <=? yy) then yy mod P else yy in
  yy =? 0.

Definition curve_SetInfinity (c : curvePoint) : curvePoint :=
  CurvePoint (cp_x c) (cp_y c) 0 (cp_t c).
Definition curve_IsInfinity (c : curvePoint) : bool := cp_z c =? 0.

(** [c.Double(a)]; with [alias], [a] is [c]. *)
Definition curve_Double (alias : bool) (c a : curvePoint) : curvePoint :=
  let A := cp_x a * cp_x a in
  let A := A mod P in
  let B := cp_y a * cp_y a in
  let B := B mod P in
  let C_ := B * B in
  let C_ := C_ mod P in
  let t := cp_x a + B in
  let t2 := t * t in
  let t2 := t2 mod P in
  let t := t2 - A in
  let t2 := t - C_ in
  let d := t2 + t2 in
  let t := A + A in
  let e := t + A in
  let f := e * e in
  let f := f mod P in
  let t := d + d in
  let cx := f - t in
  let t := C_ + C_ in
  let t2 := t + t in
  let t := t2 + t2 in
  let cy := d - cx in
  let t2 := e * cy in
  let t2 := t2 mod P in
  let cy := t2 - t in
  let t := (if alias then cy else cp_y a) * cp_z a in
  let t := t mod P in
  let cz := t + t in
  CurvePoint cx cy cz (cp_t c).

(** [c.Add(a, b)]; with [alias], [a] is [c]. *)
Definition curve_Add (alias : bool) (c a b : curvePoint) : curvePoint :=
  if curve_IsInfinity a then b
  else if curve_IsInfinity b then a
  else
  let z1z1 := cp_z a * cp_z a in
  let z1z1 := z1z1 mod P in
  let z2z2 := cp_z b * cp_z b in
  let z2z2 := z2z2 mod P in
  let u1 := cp_x a * z2z2 in
  let u1 := u1 mod P in
  let u2 := cp_x b * z1z1 in
  let u2 := u2 mod P in
  let t := cp_z b * z2z2 in
  let t := t mod P in
  let s1 := cp_y a * t in
  let s1 := s1 mod P in
  let t := cp_z a * z1z1 in
  let t := t mod P in
  let s2 := cp_y b * t in
  let s2 := s2 mod P in
  let h := u2 - u1 in
  let xEqual := h =? 0 in
  let t := h + h in
  let i := t * t in
  let i := i mod P in
  let j := h * i in
  let j := j mod P in
  let t := s2 - s1 in
  let yEqual := t =? 0 in
  if xEqual && yEqual then curve_Double alias c a
  else
  let r := t + t in
  let v := u1 * i in
  let v := v mod P in
  let t4 := r * r in
  let t4 := t4 mod P in
  let t := v + v in
  let t6 := t4 - j in
  let cx := t6 - t in
  let t := v - cx in
  let t4 := s1 * j in
  let t4 := t4 mod P in
  let t6 := t4 + t4 in
  let t4 := r * t in
  let t4 := t4 mod P in
  let cy := t4 - t6 in
  let t := cp_z a + cp_z b in
  let t4 := t * t in
  let t4 := t4 mod P in
  let t := t4 - z1z1 in
  let t4 := t - z2z2 in
  let cz := t4 * h in
  let cz := cz mod P in
  CurvePoint cx cy cz (cp_t c).

(** The loop of [Mul], from bit [i] less one down: [t] and [sum] are two points
    of their own. *)
Fixpoint curve_Mul_loop (a : curvePoint) (scalar : Z) (i : nat) (sum t : curvePoint) : curvePoint :=
  match i with
  | O => sum
  | S i =>
      let t := curve_Double false t sum in
      let sum := if Z.testbit scalar (Z.of_nat i) then curve_Add false sum t a else t in
      curve_Mul_loop a scalar i sum t
  end.

Definition curve_Mul (sum t a : curvePoint) (scalar : Z) : curvePoint :=
  let sum := curve_SetInfinity sum in
  curve_Mul_loop a scalar (Z.to_nat (BitLen scalar + 1)) sum t.

(** Without an inverse of [z], [ModInverse] returns nil, which [Mul] then reads. *)
Definition curve_MakeAffine (c : curvePoint) : outcome unit curvePoint :=
  if Z.abs (cp_z c) =? 1 then Ok c
  else
    match ModInverse (cp_z c) P with
    | None => Panic
    | Some zInv =>
        let t := cp_y c * zInv in
        let t := t mod P in
        let zInv2 := zInv * zInv in
        let zInv2 := zInv2 mod P in
        let cy := t * zInv2 in
        let cy := cy mod P in
        let t := cp_x c * zInv2 in
        let t := t mod P in
        Ok (CurvePoint t cy 1 1)
    end.

Definition curve_Negative (a : curvePoint) : curvePoint :=
  CurvePoint (cp_x a) (- cp_y a) (cp_z a) 0.

(** ** Correctness *)

Definition cj (c : curvePoint) : jpoint (R := Z) := (cp_x c, cp_y c, cp_z c).

#[export] Instance P_ring : CommRing Z := zmod_ring P.
#[export] Instance P_field : IsField (R := Z).
Proof. apply zmod_field; [apply P_prime|]. pose proof P_large. lia. Defined.

(** The tests on [z] are exact: it is not negative, and zero if it is zero modulo
    [P]. *)
Definition z_ok (c : curvePoint) : Prop := 0 ≤ cp_z c ∧ (congr P (cp_z c) 0 → cp_z c = 0).

Lemma congr_small_0 a : 0 ≤ a < P → congr P a 0 → a = 0.
Proof. intros Ha H. apply (congr_small P); [done|pose proof P_pos; lia|done]. Qed.

Lemma mod_P_bound a : 0 ≤ a mod P < P.
Proof. apply Z.mod_pos_bound, P_pos. Qed.

Lemma double_mod_zero a :
  0 ≤ a mod P + a mod P ∧ (congr P (a mod P + a mod P) 0 → a mod P + a mod P = 0).
Proof.
  pose proof (mod_P_bound a). split; [lia|]. intros H0. assert (a mod P = 0) as ->; [|done].
  apply congr_small_0; [done|]. by apply (double_zero (CR := P_ring)).
Qed.

Lemma sub_mod_eqb a b : (a mod P - b mod P =? 0) = bool_decide (congr P a b).
Proof.
  apply eq_true_iff_eq. rewrite Z.eqb_eq, bool_decide_eq_true, congr_iff by apply P_pos. lia.
Qed.

Lemma curve_Double_jac c a : jeq (cj (curve_Double false c a)) (jac_double (cj a)).
Proof. destruct a as [x y z t]. split_and!; cbn -[P congr]; strip. Qed.

Lemma curve_Double_z alias c a : z_ok (curve_Double alias c a).
Proof. unfold z_ok, curve_Double. cbn [cp_z]. apply double_mod_zero. Qed.

(** [Add] into a new point is addition with all its special cases. *)
Lemma curve_Add_jac c a b :
  z_ok a → z_ok b →
  jeq (cj (curve_Add false c a b)) (jac_plus (cj a) (cj b)) ∧ z_ok (curve_Add false c a b).
Proof.
  intros Ha Hb. unfold curve_Add, curve_IsInfinity, jac_plus.
  destruct (Z.eqb_spec (cp_z a) 0) as [Hza|Hza].
  { rewrite decide_True; [done|]. change (congr P (cp_z a) 0). by rewrite Hza. }
  rewrite decide_False by (intros H; by apply Hza, Ha).
  destruct (Z.eqb_spec (cp_z b) 0) as [Hzb|Hzb].
  { rewrite decide_True; [done|]. change (congr P (cp_z b) 0). by rewrite Hzb. }
  rewrite decide_False by (intros H; by apply Hzb, Hb).
  cbv zeta. rewrite !sub_mod_eqb.
  assert (Hx : congr P (cp_x b * ((cp_z a * cp_z a) mod P)) (cp_x a * ((cp_z b * cp_z b) mod P)) ↔
               jac_u1 (cj b) (cj a) ≡r jac_u1 (cj a) (cj b)).
  { by rewrite !congr_mod. }
  assert (Hy : congr P (cp_y b * ((cp_z a * ((cp_z a * cp_z a) mod P)) mod P))
                       (cp_y a * ((cp_z b * ((cp_z b * cp_z b) mod P)) mod P)) ↔
               jac_s1 (cj b) (cj a) ≡r jac_s1 (cj a) (cj b)).
  { by rewrite !congr_mod. }
  rewrite (bool_decide_ext _ _ Hx), (bool_decide_ext _ _ Hy), <-bool_decide_and.
  case_bool_decide as Hd.
  - rewrite decide_True by done. split; [apply curve_Double_jac|apply curve_Double_z].
  - rewrite decide_False by done. destruct a as [x1 y1 z1 t1], b as [x2 y2 z2 t2]. split.
    + split_and!; cbn -[P congr]; strip.
    + unfold z_ok. cbn [cp_z]. split; [apply mod_P_bound|apply congr_small_0, mod_P_bound].
Qed.

(** The loop as the generic one: the point in progress, [t] and the last [sum]. *)
Definition curve_dbl (s : curvePoint * curvePoint * curvePoint) :=
  let '(cur, t, _) := s in let t := curve_Double false t cur in (t, t, cur).
Definition curve_add (a : curvePoint) (s : curvePoint * curvePoint * curvePoint) :=
  let '(cur, t, sum) := s in (curve_Add false sum cur a, t, sum).

Lemma curve_Mul_loop_generic a k i sum t old :
  curve_Mul_loop a k i sum t = (mul_loop curve_dbl (curve_add a) k i (sum, t, old)).1.1.
Proof.
  revert sum t old. induction i as [|i IH]; intros sum t old; [done|].
  cbn [curve_Mul_loop mul_loop curve_dbl curve_add]. by destruct (Z.testbit k _); rewrite <-IH.
Qed.

(** A point that the operations of the package produce, and the affine point it
    stands for. *)
Definition curve_valid (c : curvePoint) (p : affine) : Prop :=
  z_ok c ∧ valid_jac curveB (cj c) ∧ jac_repr (cj c) p.

(** [Mul] gives the sum of as many copies of [a] as the low bits of the scalar say,
    for any numbers in the points taken from the pool. *)
Lemma curve_Mul_multiple sum t a p k :
  curve_valid a p →
  ∃ q, curve_valid (curve_Mul sum t a k) q ∧
    multiple p (Z.to_N (k mod 2 ^ (BitLen k + 1))) q.
Proof.
  intros (Hz & Hon & Hp). unfold curve_Mul.
  rewrite (curve_Mul_loop_generic _ _ _ _ _ newCurvePoint).
  destruct (mul_loop_spec curveB (λ s, cj s.1.1) curve_dbl (curve_add a) (cj a) Hon p Hp
    (λ s, z_ok s.1.1)) with k (Z.to_nat (BitLen k + 1)) 0%N (curve_SetInfinity sum, t, newCurvePoint)
    as (Hz' & Hon' & q & Hq & Hm).
  - intros [[cur t'] sum'] Hc. split; [apply curve_Double_jac|apply curve_Double_z].
  - intros [[cur t'] sum'] Hc. by apply curve_Add_jac.
  - split_and!; [by split|by left|]. exists None. split; [|constructor].
    change (congr P 0 0). done.
  - exists q. split; [done|].
    by rewrite Z2Nat.id, N.mul_0_l, N.add_0_l in Hm by (pose proof (BitLen_nonneg k); lia).
Qed.

Lemma BitLen_succ_mod k : 0 ≤ k → k mod 2 ^ (BitLen k + 1) = k.
Proof.
  intros Hk. pose proof (BitLen_bound k Hk). pose proof (BitLen_nonneg k).
  apply Z.mod_small. rewrite Z.pow_add_r by lia. lia.
Qed.

(** The test of curve.go for points in affine form. *)
Lemma curve_IsOnCurve_spec c :
  curve_IsOnCurve c = bool_decide (congr P (cp_y c * cp_y c) (cp_x c * cp_x c * cp_x c + curveB)).
Proof.
  unfold curve_IsOnCurve. set (yy := _ - curveB). cbn zeta.
  assert (Hyy : congr P yy 0 ↔ congr P (cp_y c * cp_y c) (cp_x c * cp_x c * cp_x c + curveB)).
  { unfold congr. replace (yy - 0) with (cp_y c * cp_y c - (cp_x c * cp_x c * cp_x c + curveB)); [done|].
    unfold yy. lia. }
  apply eq_true_iff_eq. rewrite Z.eqb_eq, bool_decide_eq_true, <-Hyy, congr_0 by apply P_pos.
  destruct ((yy <? 0) || (P <=? yy)) eqn:E; [done|]. rewrite Z.mod_small; [done|]. lia.
Qed.

(** [MakeAffine] keeps the point and makes [z] one; it panics on infinity. *)
Lemma curve_MakeAffine_spec c p :
  curve_valid c p →
  match p with
  | None => curve_MakeAffine c = Panic
  | Some (x, y) =>
      ∃ c', curve_MakeAffine c = Ok c' ∧ cp_z c' = 1 ∧ congr P (cp_x c') x ∧ congr P (cp_y c') y ∧
        curve_IsOnCurve c' = true
  end.
Proof.
  intros ((Hz0 & Hz) & Hv & Hp). unfold curve_MakeAffine.
  destruct p as [[x y]|].
  - pose proof (jac_repr_on (CR := P_ring) curveB _ _ Hp Hv) as Hon.
    change (congr P (y * y) (x * x * x + curveB)) in Hon.
    destruct Hp as [Hnz [HX HY]]. change (¬ congr P (cp_z c) 0) in Hnz.
    change (congr P (cp_x c) (x * (cp_z c * cp_z c))) in HX.
    change (congr P (cp_y c) (y * (cp_z c * (cp_z c * cp_z c)))) in HY.
    destruct (Z.eqb_spec (Z.abs (cp_z c)) 1) as [H1|H1].
    + exists c. replace (cp_z c) with 1 in * by lia. rewrite Z.mul_1_r in HX, HY.
      rewrite curve_IsOnCurve_spec. split_and!; [done..|].
      apply bool_decide_eq_true. by rewrite HX, HY.
    + pose proof (ModInverse_spec (cp_z c) P) as Hs.
      destruct (ModInverse (cp_z c) P) as [i|] eqn:Hi; [|by apply (ModInverse_prime _ _ P_prime) in Hi].
      destruct Hs as [_ Hi']; [pose proof P_large; lia|].
      assert (Hx : congr P ((cp_x c * ((i * i) mod P)) mod P) x).
      { rewrite !congr_mod, HX.
        transitivity (x * (cp_z c * i) * (cp_z c * i)); [apply eq_congr; ring|].
        rewrite Hi'. apply eq_congr. ring. }
      assert (Hy : congr P (((cp_y c * i) mod P * ((i * i) mod P)) mod P) y).
      { rewrite !congr_mod, HY.
        transitivity (y * (cp_z c * i) * (cp_z c * i) * (cp_z c * i)); [apply eq_congr; ring|].
        rewrite Hi'. apply eq_congr. ring. }
      eexists. split; [done|]. rewrite curve_IsOnCurve_spec. cbn [cp_x cp_y cp_z].
      split_and!; [done..|]. apply bool_decide_eq_true. by rewrite Hx, Hy.
  - change (congr P (cp_z c) 0) in Hp. rewrite (Hz Hp).
    assert (ModInverse 0 P = None) as ->; [|done]. by apply (ModInverse_prime _ _ P_prime).
Qed.

(** [Negative] is the other point with the same [x]. *)
Lemma curve_Negative_spec c p :
  curve_valid c p →
  curve_valid (curve_Negative c) ((λ '(x, y), (x, - y)) <$> p) ∧
  aff_add (CR := P_ring) p ((λ '(x, y), (x, - y)) <$> p) None.
Proof.
  intros (Hz & Hv & Hp). destruct c as [x y z t]. split; [split_and!|].
  - done.
  - destruct Hv as [?|Hon]; [by left|right].
    change (congr P (- y * - y) (x * x * x + curveB * (z * z * z * (z * z * z)))).
    rewrite Z.mul_opp_opp. done.
  - destruct p as [[px py]|]; [|done]. destruct Hp as [Hnz [HX HY]]. split; [done|]. split; [done|].
    change (congr P (- y) (- py * (z * (z * z)))). rewrite Z.mul_opp_l. 
    change (congr P y (py * (z * (z * z)))) in HY. by rewrite HY.
  - destruct p as [[px py]|]; [|constructor]. cbn. apply aff_vertical; [done|].
    change (congr P py (- - py)). by rewrite Z.opp_involutive.
Qed.

Lemma P_not_zero z : 0 < z < P → ¬ congr P z 0.
Proof. intros Hz H%congr_0; [|apply P_pos]. rewrite Z.mod_small in H by lia. lia. Qed.

Lemma curveGen_valid : curve_valid curveGen (Some (1, -2)).
Proof.
  assert (¬ congr P 1 0) by (apply P_not_zero; pose proof P_large; lia).
  split_and!; [split; [done|by intros ?]|right; by change (congr P 4 4)|by split].
Qed.

(** [Double] into its own argument reads the new [y] for [z]: twice the generator
    leaves the curve. *)
Lemma curve_Double_in_place :
  match curve_MakeAffine (curve_Double true curveGen curveGen) with
  | Ok c => curve_IsOnCurve c = false
  | _ => False
  end.
Proof. vm_compute. reflexivity. Qed.
