(* ===== verification/Bn256Twist.v ===== *)
(** * The twist of common/crypto/bn256

    Points of y² = x³ + 3/ξ over gfP2 in Jacobian coordinates, with all the
    operations of twist.go, modelled and proved as those of curve.go are. *)

From Stdlib Require Import Znumtheory Setoid Ring.
From S2P Require Import Prelude Primes Rings Jacobian PrimeField MathBig Bn256Field Bn256Laws Bn256Curve.
Local Open Scope Z_scope.

Record twistPoint := TwistPoint { tp_x : gfP2; tp_y : gfP2; tp_z : gfP2; tp_t : gfP2 }.

Definition twistB : gfP2 := GFp2
  266929791119991161246907387137283842545076965332900288569378510910307636690
  19485874751759354771024239261021720505790618469301721065564631296452457478373.

Definition twistGen : twistPoint := TwistPoint
  (GFp2 11559732032986387107991004021392285783925812861821192530917403151452391805634
        10857046999023057135944570762232829481370756359578518086990519993285655852781)
  (GFp2 4082367875863433681332203403145435568316851327593401208105741076214120093531
        8495653923123431417604973247489272438418190587263600148770280649306958101930)
  (GFp2 0 1)
  (GFp2 0 1).

(** What [newTwistPoint] gives without a pool. *)
Definition newTwistPoint : twistPoint := TwistPoint gfP2_Zero gfP2_Zero gfP2_Zero gfP2_Zero.

Definition twist_IsOnCurve (c : twistPoint) : bool :=
  let yy := gfP2_Square (tp_y c) in
  let xxx := gfP2_Square (tp_x c) in
  let xxx := gfP2_Mul xxx (tp_x c) in
  let yy := gfP2_Sub yy xxx in
  let yy := gfP2_Sub yy twistB in
  let yy := gfP2_Minimal yy in
  (gfP2_x yy =? 0) && (gfP2_y yy =? 0).

Definition twist_SetInfinity (c : twistPoint) : twistPoint :=
  TwistPoint (tp_x c) (tp_y c) gfP2_Zero (tp_t c).
Definition twist_IsInfinity (c : twistPoint) : bool := gfP2_IsZero (tp_z c).

(** [c.Double(a)]; with [alias], [a] is [c]. *)
Definition twist_Double (alias : bool) (c a : twistPoint) : twistPoint :=
  let A := gfP2_Square (tp_x a) in
  let B := gfP2_Square (tp_y a) in
  let C_ := gfP2_Square B in
  let t := gfP2_Add (tp_x a) B in
  let t2 := gfP2_Square t in
  let t := gfP2_Sub t2 A in
  let t2 := gfP2_Sub t C_ in
  let d := gfP2_Add t2 t2 in
  let t := gfP2_Add A A in
  let e := gfP2_Add t A in
  let f := gfP2_Square e in
  let t := gfP2_Add d d in
  let cx := gfP2_Sub f t in
  let t := gfP2_Add C_ C_ in
  let t2 := gfP2_Add t t in
  let t := gfP2_Add t2 t2 in
  let cy := gfP2_Sub d cx in
  let t2 := gfP2_Mul e cy in
  let cy := gfP2_Sub t2 t in
  let t := gfP2_Mul (if alias then cy else tp_y a) (tp_z a) in
  let cz := gfP2_Add t t in
  TwistPoint cx cy cz (tp_t c).

(** [c.Add(a, b)]; with [alias], [a] is [c]. *)
Definition twist_Add (alias : bool) (c a b : twistPoint) : twistPoint :=
  if twist_IsInfinity a then b
  else if twist_IsInfinity b then a
  else
  let z1z1 := gfP2_Square (tp_z a) in
  let z2z2 := gfP2_Square (tp_z b) in
  let u1 := gfP2_Mul (tp_x a) z2z2 in
  let u2 := gfP2_Mul (tp_x b) z1z1 in
  let t := gfP2_Mul (tp_z b) z2z2 in
  let s1 := gfP2_Mul (tp_y a) t in
  let t := gfP2_Mul (tp_z a) z1z1 in
  let s2 := gfP2_Mul (tp_y b) t in
  let h := gfP2_Sub u2 u1 in
  let xEqual := gfP2_IsZero h in
  let t := gfP2_Add h h in
  let i := gfP2_Square t in
  let j := gfP2_Mul h i in
  let t := gfP2_Sub s2 s1 in
  let yEqual := gfP2_IsZero t in
  if xEqual && yEqual then twist_Double alias c a
  else
  let r := gfP2_Add t t in
  let v := gfP2_Mul u1 i in
  let t4 := gfP2_Square r in
  let t := gfP2_Add v v in
  let t6 := gfP2_Sub t4 j in
  let cx := gfP2_Sub t6 t in
  let t := gfP2_Sub v cx in
  let t4 := gfP2_Mul s1 j in
  let t6 := gfP2_Add t4 t4 in
  let t4 := gfP2_Mul r t in
  let cy := gfP2_Sub t4 t6 in
  let t := gfP2_Add (tp_z a) (tp_z b) in
  let t4 := gfP2_Square t in
  let t := gfP2_Sub t4 z1z1 in
  let t4 := gfP2_Sub t z2z2 in
  let cz := gfP2_Mul t4 h in
  TwistPoint cx cy cz (tp_t c).

Fixpoint twist_Mul_loop (a : twistPoint) (scalar : Z) (i : nat) (sum t : twistPoint) : twistPoint :=
  match i with
  | O => sum
  | S i =>
      let t := twist_Double false t sum in
      let sum := if Z.testbit scalar (Z.of_nat i) then twist_Add false sum t a else t in
      twist_Mul_loop a scalar i sum t
  end.

Definition twist_Mul (sum t a : twistPoint) (scalar : Z) : twistPoint :=
  let sum := twist_SetInfinity sum in
  twist_Mul_loop a scalar (Z.to_nat (BitLen scalar + 1)) sum t.

Definition twist_MakeAffine (stale : Z) (c : twistPoint) : twistPoint :=
  if gfP2_IsOne (tp_z c) then c
  else
    let zInv := gfP2_Invert stale (tp_z c) in
    let t := gfP2_Mul (tp_y c) zInv in
    let zInv2 := gfP2_Square zInv in
    let cy := gfP2_Mul t zInv2 in
    let t := gfP2_Mul (tp_x c) zInv2 in
    TwistPoint t cy gfP2_One gfP2_One.

Definition twist_Negative (a : twistPoint) : twistPoint :=
  TwistPoint (tp_x a) (gfP2_Sub gfP2_Zero (tp_y a)) (tp_z a) gfP2_Zero.

(** ** Correctness *)

(** The constant of the curve is 3/ξ. *)
Lemma twistB_xi : eq2 (gfP2_Mul xi twistB) (of_Z curveB).
Proof. by replace (gfP2_Mul xi twistB) with (of_Z curveB) by (by vm_compute). Qed.

Definition tj (c : twistPoint) : jpoint (R := gfP2) := (tp_x c, tp_y c, tp_z c).

(** Two expressions that differ in squarings only. *)
Lemma gfP2_Square_lr a b c : eq2 a b → eq2 a c → eq2 (gfP2_Square a) (gfP2_Mul b c).
Proof. intros <- <-. apply gfP2_Square_mul. Qed.
Lemma gfP2_Add_lr a a' b b' : eq2 a a' → eq2 b b' → eq2 (gfP2_Add a b) (gfP2_Add a' b').
Proof. by intros -> ->. Qed.
Lemma gfP2_Sub_lr a a' b b' : eq2 a a' → eq2 b b' → eq2 (gfP2_Sub a b) (gfP2_Sub a' b').
Proof. by intros -> ->. Qed.
Lemma gfP2_Mul_lr a a' b b' : eq2 a a' → eq2 b b' → eq2 (gfP2_Mul a b) (gfP2_Mul a' b').
Proof. by intros -> ->. Qed.
Ltac strip2 :=
  lazymatch goal with
  | |- eq2 (gfP2_Square _) (gfP2_Mul _ _) => apply gfP2_Square_lr; strip2
  | |- eq2 (gfP2_Add _ _) (gfP2_Add _ _) => apply gfP2_Add_lr; strip2
  | |- eq2 (gfP2_Sub _ _) (gfP2_Sub _ _) => apply gfP2_Sub_lr; strip2
  | |- eq2 (gfP2_Mul _ _) (gfP2_Mul _ _) => apply gfP2_Mul_lr; strip2
  | |- _ => reflexivity
  end.
Ltac tj_strip := split_and!;
  cbn -[gfP2_Square gfP2_Add gfP2_Sub gfP2_Mul gfP2_Zero gfP2_One eq2]; strip2.

(** Coefficients as the methods of gfP2 leave them. *)
Definition reduced (a : gfP2) : Prop := 0 ≤ gfP2_x a < P ∧ 0 ≤ gfP2_y a < P.

Lemma gfP2_Mul_reduced a b : reduced (gfP2_Mul a b).
Proof. split; apply mod_P_bound. Qed.

Lemma IsZero_sub a b :
  reduced a → reduced b → gfP2_IsZero (gfP2_Sub a b) = bool_decide (eq2 a b).
Proof.
  destruct a as [x y], b as [x' y']. intros [Hx Hy] [Hx' Hy']. unfold gfP2_IsZero. cbn in *.
  apply eq_true_iff_eq. rewrite andb_true_iff, !Z.eqb_eq, bool_decide_eq_true. split.
  - intros [H1 H2]. replace x with x' by lia. by replace y with y' by lia.
  - intros [H1 H2]. cbn in *. apply congr_small in H1; [|done..]. apply congr_small in H2; [|done..]. lia.
Qed.

Lemma gfP2_IsZero_eq a : gfP2_IsZero a = true ↔ a = gfP2_Zero.
Proof.
  destruct a as [x y]. unfold gfP2_IsZero. cbn. rewrite andb_true_iff, !Z.eqb_eq.
  split; [by intros [-> ->]|by intros [= -> ->]].
Qed.

Definition tz_ok (c : twistPoint) : Prop :=
  0 ≤ gfP2_x (tp_z c) ∧ 0 ≤ gfP2_y (tp_z c) ∧ (eq2 (tp_z c) gfP2_Zero → tp_z c = gfP2_Zero).

Lemma reduced_tz a : reduced a → 0 ≤ gfP2_x a ∧ 0 ≤ gfP2_y a ∧ (eq2 a gfP2_Zero → a = gfP2_Zero).
Proof.
  destruct a as [x y]. intros [Hx Hy]. cbn in *. split_and!; [lia..|]. intros [H1 H2]. cbn in *.
  apply congr_small_0 in H1; [|done]. apply congr_small_0 in H2; [|done]. by subst.
Qed.

Lemma double_tz a :
  let d := gfP2_Add a a in
  reduced a → 0 ≤ gfP2_x d ∧ 0 ≤ gfP2_y d ∧ (eq2 d gfP2_Zero → d = gfP2_Zero).
Proof.
  intros d Hr. pose proof (reduced_tz a Hr) as (H1 & H2 & H3). unfold d.
  split_and!; [cbn; lia..|]. intros H%(double_zero (CR := gfP2_ring)). by rewrite (H3 H).
Qed.

Lemma twist_Double_jac c a : jeq (tj (twist_Double false c a)) (jac_double (tj a)).
Proof. destruct a as [x y z t]. tj_strip. Qed.
Lemma twist_Double_z alias c a : tz_ok (twist_Double alias c a).
Proof. apply double_tz, gfP2_Mul_reduced. Qed.

Lemma twist_Add_jac c a b :
  tz_ok a → tz_ok b →
  jeq (tj (twist_Add false c a b)) (jac_plus (tj a) (tj b)) ∧ tz_ok (twist_Add false c a b).
Proof.
  intros (Ha1 & Ha2 & Ha) (Hb1 & Hb2 & Hb). unfold twist_Add, twist_IsInfinity, jac_plus.
  destruct (gfP2_IsZero (tp_z a)) eqn:Hza.
  { apply gfP2_IsZero_eq in Hza. rewrite decide_True; [done|]. change (eq2 (tp_z a) gfP2_Zero).
    by rewrite Hza. }
  rewrite decide_False by (intros H%Ha%gfP2_IsZero_eq; by rewrite H in Hza).
  destruct (gfP2_IsZero (tp_z b)) eqn:Hzb.
  { apply gfP2_IsZero_eq in Hzb. rewrite decide_True; [done|]. change (eq2 (tp_z b) gfP2_Zero).
    by rewrite Hzb. }
  rewrite decide_False by (intros H%Hb%gfP2_IsZero_eq; by rewrite H in Hzb).
  cbv zeta. rewrite !IsZero_sub by apply gfP2_Mul_reduced.
  assert (Hx : eq2 (gfP2_Mul (tp_x b) (gfP2_Square (tp_z a))) (gfP2_Mul (tp_x a) (gfP2_Square (tp_z b)))
               ↔ jac_u1 (tj b) (tj a) ≡r jac_u1 (tj a) (tj b)).
  { by rewrite !gfP2_Square_mul. }
  assert (Hy : eq2 (gfP2_Mul (tp_y b) (gfP2_Mul (tp_z a) (gfP2_Square (tp_z a))))
                   (gfP2_Mul (tp_y a) (gfP2_Mul (tp_z b) (gfP2_Square (tp_z b))))
               ↔ jac_s1 (tj b) (tj a) ≡r jac_s1 (tj a) (tj b)).
  { by rewrite !gfP2_Square_mul. }
  rewrite (bool_decide_ext _ _ Hx), (bool_decide_ext _ _ Hy), <-bool_decide_and.
  case_bool_decide as Hd.
  - rewrite decide_True by done. split; [apply twist_Double_jac|apply twist_Double_z].
  - rewrite decide_False by done. destruct a as [x1 y1 z1 t1], b as [x2 y2 z2 t2]. split.
    + tj_strip.
    + apply reduced_tz, gfP2_Mul_reduced.
Qed.

Definition twist_dbl (s : twistPoint * twistPoint * twistPoint) :=
  let '(cur, t, _) := s in let t := twist_Double false t cur in (t, t, cur).
Definition twist_add (a : twistPoint) (s : twistPoint * twistPoint * twistPoint) :=
  let '(cur, t, sum) := s in (twist_Add false sum cur a, t, sum).

Lemma twist_Mul_loop_generic a k i sum t old :
  twist_Mul_loop a k i sum t = (mul_loop twist_dbl (twist_add a) k i (sum, t, old)).1.1.
Proof.
  revert sum t old. induction i as [|i IH]; intros sum t old; [done|].
  cbn [twist_Mul_loop mul_loop twist_dbl twist_add]. by destruct (Z.testbit k _); rewrite <-IH.
Qed.

Definition twist_valid (c : twistPoint) (p : affine (R := gfP2)) : Prop :=
  tz_ok c ∧ valid_jac twistB (tj c) ∧ jac_repr (tj c) p.

Lemma twist_Mul_multiple sum t a p k :
  twist_valid a p →
  ∃ q, twist_valid (twist_Mul sum t a k) q ∧
    multiple p (Z.to_N (k mod 2 ^ (BitLen k + 1))) q.
Proof.
  intros (Hz & Hon & Hp). unfold twist_Mul.
  rewrite (twist_Mul_loop_generic _ _ _ _ _ newTwistPoint).
  destruct (mul_loop_spec twistB (λ s, tj s.1.1) twist_dbl (twist_add a) (tj a) Hon p Hp
    (λ s, tz_ok s.1.1)) with k (Z.to_nat (BitLen k + 1)) 0%N (twist_SetInfinity sum, t, newTwistPoint)
    as (Hz' & Hon' & q & Hq & Hm).
  - intros [[cur t'] sum'] Hc. split; [apply twist_Double_jac|apply twist_Double_z].
  - intros [[cur t'] sum'] Hc. by apply twist_Add_jac.
  - split_and!; [by split_and!|by left|]. exists None. split; [|constructor].
    change (eq2 gfP2_Zero gfP2_Zero). done.
  - exists q. split; [done|].
    by rewrite Z2Nat.id, N.mul_0_l, N.add_0_l in Hm by (pose proof (BitLen_nonneg k); lia).
Qed.

Lemma minimal_zero z : (minimal z =? 0) = bool_decide (congr P z 0).
Proof.
  unfold minimal. apply eq_true_iff_eq. rewrite Z.eqb_eq, bool_decide_eq_true, congr_0 by apply P_pos.
  destruct ((z <? 0) || (P <=? z)) eqn:E; [done|]. rewrite Z.mod_small; [done|]. lia.
Qed.

(** The test of twist.go for points in affine form. *)
Lemma twist_IsOnCurve_spec c :
  twist_IsOnCurve c =
  bool_decide (eq2 (gfP2_Mul (tp_y c) (tp_y c))
                   (gfP2_Add (gfP2_Mul (gfP2_Mul (tp_x c) (tp_x c)) (tp_x c)) twistB)).
Proof.
  unfold twist_IsOnCurve. cbv zeta. set (yy := gfP2_Sub _ twistB).
  cbn [gfP2_Minimal gfP2_x gfP2_y]. rewrite !minimal_zero, <-bool_decide_and.
  apply bool_decide_ext. change (eq2 yy gfP2_Zero ↔ eq2 (gfP2_Mul (tp_y c) (tp_y c))
    (gfP2_Add (gfP2_Mul (gfP2_Mul (tp_x c) (tp_x c)) (tp_x c)) twistB)).
  unfold yy. rewrite !gfP2_Square_mul. generalize twistB. intros b. split; intros H.
  - transitivity (gfP2_Add (gfP2_Sub (gfP2_Sub (gfP2_Mul (tp_y c) (tp_y c))
      (gfP2_Mul (gfP2_Mul (tp_x c) (tp_x c)) (tp_x c))) b)
      (gfP2_Add (gfP2_Mul (gfP2_Mul (tp_x c) (tp_x c)) (tp_x c)) b)); [ring|]. rewrite H. ring.
  - rewrite H. ring.
Qed.

Lemma gfP2_IsOne_eq a : 0 ≤ gfP2_x a → 0 ≤ gfP2_y a → gfP2_IsOne a = true → a = gfP2_One.
Proof.
  destruct a as [x y]. unfold gfP2_IsOne. cbn. intros Hx Hy.
  destruct (Z.eqb_spec x 0) as [->|]; cbn; [|done]. intros H%Z.eqb_eq. by replace y with 1 by lia.
Qed.

Lemma twistB_nonzero : ¬ eq2 twistB gfP2_Zero.
Proof. intros [H _]. cbn in H. apply congr_0 in H; [|apply P_pos]. by vm_compute in H. Qed.

(** [MakeAffine] keeps a finite point and makes [z] one. *)
Lemma twist_MakeAffine_finite stale c x y :
  twist_valid c (Some (x, y)) →
  let c' := twist_MakeAffine stale c in
  tp_z c' = gfP2_One ∧ eq2 (tp_x c') x ∧ eq2 (tp_y c') y ∧ twist_IsOnCurve c' = true.
Proof.
  intros ((Hz1 & Hz2 & Hz) & Hv & Hp) c'.
  pose proof (jac_repr_on (CR := gfP2_ring) twistB _ _ Hp Hv) as Hon.
  change (eq2 (gfP2_Mul y y) (gfP2_Add (gfP2_Mul (gfP2_Mul x x) x) twistB)) in Hon.
  destruct Hp as [Hnz [HX HY]]. change (¬ eq2 (tp_z c) gfP2_Zero) in Hnz.
  change (eq2 (tp_x c) (gfP2_Mul x (gfP2_Mul (tp_z c) (tp_z c)))) in HX.
  change (eq2 (tp_y c) (gfP2_Mul y (gfP2_Mul (tp_z c) (gfP2_Mul (tp_z c) (tp_z c))))) in HY.
  cut (tp_z c' = gfP2_One ∧ eq2 (tp_x c') x ∧ eq2 (tp_y c') y).
  { intros (H1 & Hx & Hy). split_and!; [done..|]. rewrite twist_IsOnCurve_spec.
    apply bool_decide_eq_true. by rewrite Hx, Hy. }
  unfold c', twist_MakeAffine. destruct (gfP2_IsOne (tp_z c)) eqn:H1.
  - apply gfP2_IsOne_eq in H1; [|done..]. rewrite H1 in HX, HY.
    split_and!; [done|rewrite HX; ring|rewrite HY; ring].
  - pose proof (gfP2_Invert_norm stale _ (gfP2_nonzero_norm _ Hnz)) as Hi.
    cbn [tp_x tp_y tp_z]. split; [done|]. revert Hi. generalize (gfP2_Invert stale (tp_z c)). intros i Hi.
    rewrite gfP2_Square_mul, HX, HY. set (z := tp_z c) in *. split.
    + transitivity (gfP2_Mul x (gfP2_Mul (gfP2_Mul z i) (gfP2_Mul z i))); [ring|]. rewrite Hi. ring.
    + transitivity (gfP2_Mul y (gfP2_Mul (gfP2_Mul z i) (gfP2_Mul (gfP2_Mul z i) (gfP2_Mul z i)))); [ring|].
      rewrite Hi. ring.
Qed.

(** It turns infinity into the pair of zeros, which is not on the curve. *)
Lemma twist_MakeAffine_infinity stale c :
  twist_valid c None →
  let c' := twist_MakeAffine stale c in
  tp_z c' = gfP2_One ∧ eq2 (tp_x c') gfP2_Zero ∧ eq2 (tp_y c') gfP2_Zero ∧ twist_IsOnCurve c' = false.
Proof.
  intros ((Hz1 & Hz2 & Hz) & Hv & Hp) c'. change (eq2 (tp_z c) gfP2_Zero) in Hp.
  cut (tp_z c' = gfP2_One ∧ eq2 (tp_x c') gfP2_Zero ∧ eq2 (tp_y c') gfP2_Zero).
  { intros (H1 & Hx & Hy). split_and!; [done..|]. rewrite twist_IsOnCurve_spec.
    apply bool_decide_eq_false. rewrite Hx, Hy. intros Hc. apply twistB_nonzero.
    revert Hc. generalize twistB. intros b Hc.
    transitivity (gfP2_Add (gfP2_Mul (gfP2_Mul gfP2_Zero gfP2_Zero) gfP2_Zero) b); [ring|].
    rewrite <-Hc. ring. }
  unfold c', twist_MakeAffine. rewrite (Hz Hp). change (gfP2_IsOne gfP2_Zero) with false.
  cbn [tp_x tp_y tp_z].
  pose proof (gfP2_Invert_zero stale gfP2_Zero ltac:(done)) as H0.
  revert H0. generalize (gfP2_Invert stale gfP2_Zero). intros i H0.
  rewrite gfP2_Square_mul, H0. split_and!; [done|ring|ring].
Qed.

Lemma twistGen_valid : ∃ x y, twist_valid twistGen (Some (x, y)).
Proof.
  exists (tp_x twistGen), (tp_y twistGen).
  assert (Hn : ¬ eq2 gfP2_One gfP2_Zero) by exact (field_one (R := gfP2) (CR := gfP2_ring)).
  split_and!; [split_and!; [done..|by intros ?]| |].
  - right. change (eq2 (gfP2_Mul (tp_y twistGen) (tp_y twistGen))
      (gfP2_Add (gfP2_Mul (gfP2_Mul (tp_x twistGen) (tp_x twistGen)) (tp_x twistGen))
                (gfP2_Mul twistB (gfP2_Mul (gfP2_Mul (gfP2_Mul gfP2_One gfP2_One) gfP2_One)
                                           (gfP2_Mul (gfP2_Mul gfP2_One gfP2_One) gfP2_One))))).
    split; apply congr_iff; by vm_compute.
  - split; [done|].
    assert (H : ∀ x y, eq2 x (gfP2_Mul x (gfP2_Mul gfP2_One gfP2_One)) ∧
            eq2 y (gfP2_Mul y (gfP2_Mul gfP2_One (gfP2_Mul gfP2_One gfP2_One)))) by (split; ring).
    apply H.
Qed.
