(* ===== verification/Bn256Pairing.v ===== *)
(** * The optimal Ate pairing of common/crypto/bn256

    The line functions, the Miller loop and the final exponentiation of optate.go.
    The line functions double and add in the group while they evaluate tangents and
    chords; the product with a line is a sparse one; the addition chain of the final
    exponentiation raises to the power (p¹² - 1) / Order. *)

From Stdlib Require Import Znumtheory Setoid Ring.
From S2P Require Import Prelude Primes Rings Jacobian PrimeField MathBig Bn256Field Bn256Laws Bn256Frobenius Bn256Curve Bn256Twist.
Local Open Scope Z_scope.

(** ** optate.go *)

(** The three coefficients of a line, and the point after the step. *)
Record line := Line { ln_a : gfP2; ln_b : gfP2; ln_c : gfP2 }.

Definition lineFunctionAdd (r p : twistPoint) (q : curvePoint) (r2 : gfP2) : line * twistPoint :=
  let B := gfP2_Mul (tp_x p) (tp_t r) in
  let D := gfP2_Add (tp_y p) (tp_z r) in
  let D := gfP2_Square D in
  let D := gfP2_Sub D r2 in
  let D := gfP2_Sub D (tp_t r) in
  let D := gfP2_Mul D (tp_t r) in
  let H := gfP2_Sub B (tp_x r) in
  let I := gfP2_Square H in
  let E := gfP2_Add I I in
  let E := gfP2_Add E E in
  let J := gfP2_Mul H E in
  let L1 := gfP2_Sub D (tp_y r) in
  let L1 := gfP2_Sub L1 (tp_y r) in
  let V := gfP2_Mul (tp_x r) E in
  let ox := gfP2_Square L1 in
  let ox := gfP2_Sub ox J in
  let ox := gfP2_Sub ox V in
  let ox := gfP2_Sub ox V in
  let oz := gfP2_Add (tp_z r) H in
  let oz := gfP2_Square oz in
  let oz := gfP2_Sub oz (tp_t r) in
  let oz := gfP2_Sub oz I in
  let t := gfP2_Sub V ox in
  let t := gfP2_Mul t L1 in
  let t2 := gfP2_Mul (tp_y r) J in
  let t2 := gfP2_Add t2 t2 in
  let oy := gfP2_Sub t t2 in
  let ot := gfP2_Square oz in
  let t := gfP2_Add (tp_y p) oz in
  let t := gfP2_Square t in
  let t := gfP2_Sub t r2 in
  let t := gfP2_Sub t ot in
  let t2 := gfP2_Mul L1 (tp_x p) in
  let t2 := gfP2_Add t2 t2 in
  let a := gfP2_Sub t2 t in
  let c := gfP2_MulScalar oz (cp_y q) in
  let c := gfP2_Add c c in
  let b := gfP2_Zero in
  let b := gfP2_Sub b L1 in
  let b := gfP2_MulScalar b (cp_x q) in
  let b := gfP2_Add b b in
  (Line a b c, TwistPoint ox oy oz ot).

Definition lineFunctionDouble (r : twistPoint) (q : curvePoint) : line * twistPoint :=
  let A := gfP2_Square (tp_x r) in
  let B := gfP2_Square (tp_y r) in
  let C_ := gfP2_Square B in
  let D := gfP2_Add (tp_x r) B in
  let D := gfP2_Square D in
  let D := gfP2_Sub D A in
  let D := gfP2_Sub D C_ in
  let D := gfP2_Add D D in
  let E := gfP2_Add A A in
  let E := gfP2_Add E A in
  let G := gfP2_Square E in
  let ox := gfP2_Sub G D in
  let ox := gfP2_Sub ox D in
  let oz := gfP2_Add (tp_y r) (tp_z r) in
  let oz := gfP2_Square oz in
  let oz := gfP2_Sub oz B in
  let oz := gfP2_Sub oz (tp_t r) in
  let oy := gfP2_Sub D ox in
  let oy := gfP2_Mul oy E in
  let t := gfP2_Add C_ C_ in
  let t := gfP2_Add t t in
  let t := gfP2_Add t t in
  let oy := gfP2_Sub oy t in
  let ot := gfP2_Square oz in
  let t := gfP2_Mul E (tp_t r) in
  let t := gfP2_Add t t in
  let b := gfP2_Zero in
  let b := gfP2_Sub b t in
  let b := gfP2_MulScalar b (cp_x q) in
  let a := gfP2_Add (tp_x r) E in
  let a := gfP2_Square a in
  let a := gfP2_Sub a A in
  let a := gfP2_Sub a G in
  let t := gfP2_Add B B in
  let t := gfP2_Add t t in
  let a := gfP2_Sub a t in
  let c := gfP2_Mul oz (tp_t r) in
  let c := gfP2_Add c c in
  let c := gfP2_MulScalar c (cp_y q) in
  (Line a b c, TwistPoint ox oy oz ot).

Definition mulLine (ret : gfP12) (l : line) : gfP12 :=
  let '(Line a b c) := l in
  let a2 := GFp6 gfP2_Zero a b in
  let a2 := gfP6_Mul a2 (gfP12_x ret) in
  let t3 := gfP6_MulScalar (gfP12_y ret) c in
  let t := gfP2_Add b c in
  let t2 := GFp6 gfP2_Zero a t in
  let rx := gfP6_Add (gfP12_x ret) (gfP12_y ret) in
  let ry := t3 in
  let rx := gfP6_Mul rx t2 in
  let rx := gfP6_Sub rx a2 in
  let rx := gfP6_Sub rx ry in
  let a2 := gfP6_MulTau a2 in
  let ry := gfP6_Add ry a2 in
  GFp12 rx ry.

Definition sixuPlus2NAF : list Z :=
  [0; 0; 0; 1; 0; 1; 0; -1; 0; 0; 1; -1; 0; 0; 1; 0;
   0; 1; 1; 0; -1; 0; 0; 1; 0; -1; 0; 0; 0; 0; 1; 1;
   1; 0; 0; -1; 0; 0; 1; 0; 0; 0; 0; 0; -1; 0; 0; 1;
   1; 0; 0; -1; 0; 0; 0; 1; 1; 0; -1; 0; 0; 1; 0; 1; 1].

(** The loop of [miller] over the digits below the leading one, the most significant
    first; [first] tells that nothing was multiplied into [ret] yet. *)
Fixpoint miller_loop (aAffine minusA : twistPoint) (bAffine : curvePoint) (r2 : gfP2)
    (digits : list Z) (first : bool) (ret : gfP12) (r : twistPoint) : gfP12 * twistPoint :=
  match digits with
  | [] => (ret, r)
  | d :: digits =>
      let '(l, r) := lineFunctionDouble r bAffine in
      let ret := if first then ret else gfP12_Square ret in
      let ret := mulLine ret l in
      if d =? 1 then
        let '(l, r) := lineFunctionAdd r aAffine bAffine r2 in
        miller_loop aAffine minusA bAffine r2 digits false (mulLine ret l) r
      else if d =? -1 then
        let '(l, r) := lineFunctionAdd r minusA bAffine r2 in
        miller_loop aAffine minusA bAffine r2 digits false (mulLine ret l) r
      else miller_loop aAffine minusA bAffine r2 digits false ret r
  end.

Definition miller (stale : Z) (q : twistPoint) (p : curvePoint) : outcome unit gfP12 :=
  let ret := gfP12_One in
  let aAffine := twist_MakeAffine stale q in
  let* bAffine := curve_MakeAffine p in
  let minusA := twist_Negative aAffine in
  let r := aAffine in
  let r2 := gfP2_Square (tp_y aAffine) in
  let '(ret, r) := miller_loop aAffine minusA bAffine r2 (tail (reverse sixuPlus2NAF)) true ret r in
  let q1x := gfP2_Conjugate (tp_x aAffine) in
  let q1x := gfP2_Mul q1x xiToPMinus1Over3 in
  let q1y := gfP2_Conjugate (tp_y aAffine) in
  let q1y := gfP2_Mul q1y xiToPMinus1Over2 in
  let q1 := TwistPoint q1x q1y gfP2_One gfP2_One in
  let minusQ2 := TwistPoint (gfP2_MulScalar (tp_x aAffine) xiToPSquaredMinus1Over3) (tp_y aAffine)
                            gfP2_One gfP2_One in
  let r2 := gfP2_Square (tp_y q1) in
  let '(l, r) := lineFunctionAdd r q1 bAffine r2 in
  let ret := mulLine ret l in
  let r2 := gfP2_Square (tp_y minusQ2) in
  let '(l, r) := lineFunctionAdd r minusQ2 bAffine r2 in
  let ret := mulLine ret l in
  Ok ret.

Definition finalExponentiation (stale : Z) (in_ : gfP12) : gfP12 :=
  let t1 := GFp12 (gfP6_Negative (gfP12_x in_)) (gfP12_y in_) in
  let inv := gfP12_Invert stale in_ in
  let t1 := gfP12_Mul t1 inv in
  let t2 := gfP12_FrobeniusP2 t1 in
  let t1 := gfP12_Mul t1 t2 in
  let fp := gfP12_Frobenius t1 in
  let fp2 := gfP12_FrobeniusP2 t1 in
  let fp3 := gfP12_Frobenius fp2 in
  let fu := gfP12_Exp t1 u in
  let fu2 := gfP12_Exp fu u in
  let fu3 := gfP12_Exp fu2 u in
  let y3 := gfP12_Frobenius fu in
  let fu2p := gfP12_Frobenius fu2 in
  let fu3p := gfP12_Frobenius fu3 in
  let y2 := gfP12_FrobeniusP2 fu2 in
  let y0 := gfP12_Mul fp fp2 in
  let y0 := gfP12_Mul y0 fp3 in
  let y1 := gfP12_Conjugate t1 in
  let y5 := gfP12_Conjugate fu2 in
  let y3 := gfP12_Conjugate y3 in
  let y4 := gfP12_Mul fu fu2p in
  let y4 := gfP12_Conjugate y4 in
  let y6 := gfP12_Mul fu3 fu3p in
  let y6 := gfP12_Conjugate y6 in
  let t0 := gfP12_Square y6 in
  let t0 := gfP12_Mul t0 y4 in
  let t0 := gfP12_Mul t0 y5 in
  let t1 := gfP12_Mul y3 y5 in
  let t1 := gfP12_Mul t1 t0 in
  let t0 := gfP12_Mul t0 y2 in
  let t1 := gfP12_Square t1 in
  let t1 := gfP12_Mul t1 t0 in
  let t1 := gfP12_Square t1 in
  let t0 := gfP12_Mul t1 y1 in
  let t1 := gfP12_Mul t1 y0 in
  let t0 := gfP12_Square t0 in
  let t0 := gfP12_Mul t0 t1 in
  t0.

(** The test for infinity comes after the Miller loop. *)
Definition optimalAte (stale : Z) (a : twistPoint) (b : curvePoint) : outcome unit gfP12 :=
  let* e := miller stale a b in
  let ret := finalExponentiation stale e in
  Ok (if twist_IsInfinity a || curve_IsInfinity b then gfP12_One else ret).

(** ** Line functions *)

(** The product with a line is the product with [(aτ + b)ω + c]. *)
Definition of_line (l : line) : gfP12 :=
  GFp12 (GFp6 gfP2_Zero (ln_a l) (ln_b l)) (of_gfP2 (ln_c l)).

Lemma mulLine_mul ret l : eq12 (mulLine ret l) (gfP12_Mul ret (of_line l)).
Proof.
  destruct ret as [x y], l as [a b c]. unfold mulLine, of_line. cbn [ln_a ln_b ln_c gfP12_x gfP12_y].
  assert (eq6 (GFp6 gfP2_Zero a (gfP2_Add b c)) (gfP6_Add (GFp6 gfP2_Zero a b) (of_gfP2 c))) as H.
  { ring6. }
  cbv [eq12 gfP12_Mul gfP12_x gfP12_y]. rewrite H. split; to_ring6; ring.
Qed.

(** [t] is the square of [z]. *)
Definition t_ok (r : twistPoint) : Prop := eq2 (tp_t r) (gfP2_Mul (tp_z r) (tp_z r)).

(** A line given by its slope [l] and a point [(x, y)] of the twist, at a point of
    the curve, up to the factor [s]. *)
Definition line_at (s l x y : gfP2) (q : curvePoint) : line :=
  Line (gfP2_Mul s (gfP2_Sub (gfP2_Mul l x) y))
       (gfP2_Mul s (gfP2_Negative (gfP2_Mul l (of_Z (cp_x q)))))
       (gfP2_Mul s (of_Z (cp_y q))).

Definition leq (l l' : line) : Prop :=
  eq2 (ln_a l) (ln_a l') ∧ eq2 (ln_b l) (ln_b l') ∧ eq2 (ln_c l) (ln_c l').

Lemma lineFunctionDouble_point r q :
  t_ok r →
  let '(_, r') := lineFunctionDouble r q in t_ok r' ∧ jeq (tj r') (jac_double (tj r)).
Proof.
  destruct r as [x y z t]. unfold t_ok. intros Ht. cbn [tp_t tp_z] in Ht.
  cbv [lineFunctionDouble tj jac_double jeq tp_x tp_y tp_z tp_t]. cbn [radd rmul rsub gfP2_ring req].
  rewrite Ht. to_ring2. split_and!; ring.
Qed.

Lemma lineFunctionAdd_point r p q r2 :
  t_ok r → eq2 r2 (gfP2_Mul (tp_y p) (tp_y p)) →
  let '(_, r') := lineFunctionAdd r p q r2 in
  t_ok r' ∧ jeq (tj r') (jac_add (tj r) (tp_x p, tp_y p, gfP2_One)).
Proof.
  destruct r as [x y z t], p as [px py pz pt]. unfold t_ok. intros Ht Hr. cbn [tp_t tp_z tp_y] in Ht, Hr.
  cbv [lineFunctionAdd tj jac_add jac_u1 jac_s1 jeq tp_x tp_y tp_z tp_t].
  cbn [radd rmul rsub gfP2_ring req].
  rewrite Ht, Hr. to_ring2. split_and!; ring.
Qed.

(** The coefficients are those of the tangent at [r]. *)
Lemma lineFunctionDouble_line r q x y l :
  t_ok r → stands_for (tj r) x y →
  eq2 (gfP2_Mul l (gfP2_Add y y)) (gfP2_Add (gfP2_Add (gfP2_Mul x x) (gfP2_Mul x x)) (gfP2_Mul x x)) →
  let '(ln, r') := lineFunctionDouble r q in
  let s := gfP2_Mul (tp_z r') (tp_t r) in
  leq ln (line_at (gfP2_Add s s) l x y q).
Proof.
  destruct r as [X Y Z t]. unfold t_ok. intros Ht [HX HY] Hl. cbn [tp_t tp_z] in Ht.
  change (eq2 X (gfP2_Mul x (gfP2_Mul Z Z))) in HX.
  change (eq2 Y (gfP2_Mul y (gfP2_Mul Z (gfP2_Mul Z Z)))) in HY.
  cbv [lineFunctionDouble leq line_at ln_a ln_b ln_c tp_x tp_y tp_z tp_t].
  rewrite Ht, HX, HY. to_ring2. set (z6 := gfP2_Mul (gfP2_Mul Z (gfP2_Mul Z Z)) (gfP2_Mul Z (gfP2_Mul Z Z))).
  set (e := gfP2_Mul l (gfP2_Add y y)) in Hl.
  split_and!; [| |ring].
  - transitivity (gfP2_Mul z6 (gfP2_Sub (gfP2_Mul (gfP2_Add e e) x)
      (gfP2_Add (gfP2_Add (gfP2_Mul y y) (gfP2_Mul y y)) (gfP2_Add (gfP2_Mul y y) (gfP2_Mul y y))))).
    + rewrite Hl. unfold z6. ring.
    + unfold e, z6. ring.
  - transitivity (gfP2_Negative (gfP2_Mul z6 (gfP2_Mul (gfP2_Add e e) (of_Z (cp_x q))))).
    + rewrite Hl. unfold z6. ring.
    + unfold e, z6. ring.
Qed.

(** The coefficients are those of the chord through [r] and [p]. *)
Lemma lineFunctionAdd_line r p q r2 x y l :
  t_ok r → eq2 r2 (gfP2_Mul (tp_y p) (tp_y p)) → stands_for (tj r) x y →
  eq2 (gfP2_Mul l (gfP2_Sub (tp_x p) x)) (gfP2_Sub (tp_y p) y) →
  let '(ln, r') := lineFunctionAdd r p q r2 in
  leq ln (line_at (gfP2_Add (tp_z r') (tp_z r')) l (tp_x p) (tp_y p) q).
Proof.
  destruct r as [X Y Z t], p as [px py pz pt]. unfold t_ok. intros Ht Hr [HX HY] Hl.
  cbn [tp_t tp_z tp_x tp_y] in *.
  change (eq2 X (gfP2_Mul x (gfP2_Mul Z Z))) in HX.
  change (eq2 Y (gfP2_Mul y (gfP2_Mul Z (gfP2_Mul Z Z)))) in HY.
  cbv [lineFunctionAdd leq line_at ln_a ln_b ln_c tp_x tp_y tp_z tp_t].
  assert (Hpy : eq2 y (gfP2_Sub py (gfP2_Mul l (gfP2_Sub px x)))) by (rewrite Hl; ring).
  rewrite Hr, Ht, HX, HY, Hpy. to_ring2. split_and!; ring.
Qed.

(** The factors are not zero at finite points: for the tangent unless [y] is zero, for
    the chord unless it is vertical. *)
Lemma gfP2_twice_nonzero a : ¬ eq2 a gfP2_Zero → ¬ eq2 (gfP2_Add a a) gfP2_Zero.
Proof. intros Ha H. apply Ha. exact (double_zero (CR := gfP2_ring) a H). Qed.
Lemma gfP2_mul_nonzero a b : ¬ eq2 a gfP2_Zero → ¬ eq2 b gfP2_Zero → ¬ eq2 (gfP2_Mul a b) gfP2_Zero.
Proof. exact (mul_nonzero (CR := gfP2_ring) a b). Qed.

Lemma lineFunctionDouble_factor r q x y :
  t_ok r → stands_for (tj r) x y → ¬ eq2 (tp_z r) gfP2_Zero → ¬ eq2 y gfP2_Zero →
  let '(_, r') := lineFunctionDouble r q in
  let s := gfP2_Mul (tp_z r') (tp_t r) in ¬ eq2 (gfP2_Add s s) gfP2_Zero.
Proof.
  destruct r as [X Y Z t]. unfold t_ok. intros Ht [_ HY] Hz Hy. cbn [tp_t tp_z] in *.
  change (eq2 Y (gfP2_Mul y (gfP2_Mul Z (gfP2_Mul Z Z)))) in HY.
  cbv [lineFunctionDouble tp_x tp_y tp_z tp_t]. apply gfP2_twice_nonzero. rewrite Ht, HY. intros H.
  set (e := gfP2_Mul (gfP2_Mul y (gfP2_Mul Z (gfP2_Mul Z Z))) Z).
  assert (¬ eq2 (gfP2_Mul (gfP2_Add e e) (gfP2_Mul Z Z)) gfP2_Zero) as Hn
    by (unfold e; auto 8 using gfP2_mul_nonzero, gfP2_twice_nonzero).
  apply Hn. rewrite <-H. unfold e. to_ring2. ring.
Qed.

Lemma lineFunctionAdd_factor r p q r2 x y :
  t_ok r → stands_for (tj r) x y → ¬ eq2 (tp_z r) gfP2_Zero →
  ¬ eq2 (gfP2_Sub (tp_x p) x) gfP2_Zero →
  let '(_, r') := lineFunctionAdd r p q r2 in ¬ eq2 (gfP2_Add (tp_z r') (tp_z r')) gfP2_Zero.
Proof.
  destruct r as [X Y Z t], p as [px py pz pt]. unfold t_ok. intros Ht [HX _] Hz Hx. cbn [tp_t tp_z tp_x] in *.
  change (eq2 X (gfP2_Mul x (gfP2_Mul Z Z))) in HX.
  cbv [lineFunctionAdd tp_x tp_y tp_z tp_t]. apply gfP2_twice_nonzero. rewrite Ht, HX. intros H.
  set (e := gfP2_Mul Z (gfP2_Mul (gfP2_Sub px x) (gfP2_Mul Z Z))).
  assert (¬ eq2 (gfP2_Add e e) gfP2_Zero) as Hn
    by (unfold e; auto 8 using gfP2_mul_nonzero, gfP2_twice_nonzero).
  apply Hn. rewrite <-H. unfold e. to_ring2. ring.
Qed.

(** [sixuPlus2NAF] are signed digits of 6u + 2, the last of them one. They are not in
    non-adjacent form: there are non-zero digits side by side. *)
Lemma sixuPlus2NAF_value :
  foldr (λ d acc, d + 2 * acc) 0 sixuPlus2NAF = 6 * u + 2 ∧ last sixuPlus2NAF = Some 1 ∧
  sixuPlus2NAF !! 17%nat = Some 1 ∧ sixuPlus2NAF !! 18%nat = Some 1.
Proof. by vm_compute. Qed.

(** ** The final exponentiation *)

Abbreviation rpow12 := (rpow (CR := gfP12_ring)).

Lemma unit_cancel a a' x y :
  eq12 (gfP12_Mul a a') gfP12_One → eq12 (gfP12_Mul a x) (gfP12_Mul a y) → eq12 x y.
Proof.
  intros Ha H. transitivity (gfP12_Mul (gfP12_Mul a a') x); [rewrite Ha; ring|].
  transitivity (gfP12_Mul a' (gfP12_Mul a x)); [ring|]. rewrite H.
  transitivity (gfP12_Mul (gfP12_Mul a a') y); [ring|]. rewrite Ha. ring.
Qed.

Lemma gfP12_Conjugate_invol a : eq12 (gfP12_Conjugate (gfP12_Conjugate a)) a.
Proof. ring12. Qed.
Lemma gfP12_Conjugate_mul a b :
  eq12 (gfP12_Conjugate (gfP12_Mul a b)) (gfP12_Mul (gfP12_Conjugate a) (gfP12_Conjugate b)).
Proof. ring12. Qed.

(** Powers of [f] and of its inverse [fi]. *)
Section chain.
Context (f fi : gfP12) (Hf : eq12 (gfP12_Mul f fi) gfP12_One).
Definition pw (m n : N) : gfP12 := gfP12_Mul (rpow12 f m) (rpow12 fi n).
Lemma pw_mul m n m' n' : eq12 (gfP12_Mul (pw m n) (pw m' n')) (pw (m + m') (n + n')).
Proof.
  unfold pw. rewrite (rpow_add (CR := gfP12_ring) f), (rpow_add (CR := gfP12_ring) fi).
  cbn [rmul gfP12_ring]. ring.
Qed.
Lemma pw_square m n : eq12 (gfP12_Square (pw m n)) (pw (m + m) (n + n)).
Proof. by rewrite gfP12_Square_mul, pw_mul. Qed.
Lemma pw_pow m n k : eq12 (rpow12 (pw m n) k) (pw (m * k) (n * k)).
Proof. unfold pw. by rewrite rpow_mul12, !(rpow_mul (CR := gfP12_ring)). Qed.
Lemma pw_cancel m n : eq12 (pw (m + n) n) (rpow12 f m).
Proof.
  unfold pw. rewrite (rpow_add (CR := gfP12_ring)). cbn [rmul gfP12_ring].
  transitivity (gfP12_Mul (rpow12 f m) (rpow12 (gfP12_Mul f fi) n)); [rewrite rpow_mul12; ring|].
  rewrite Hf. change gfP12_One with (@rone _ gfP12_ring).
  rewrite (rpow_one (CR := gfP12_ring)). cbn [rone gfP12_ring]. ring.
Qed.
Lemma pw_Frobenius m n : eq12 (gfP12_Frobenius (pw m n)) (pw (m * PN) (n * PN)).
Proof. by rewrite gfP12_Frobenius_pow, pw_pow. Qed.
Lemma pw_FrobeniusP2 m n : eq12 (gfP12_FrobeniusP2 (pw m n)) (pw (m * P2N) (n * P2N)).
Proof. by rewrite gfP12_FrobeniusP2_pow, pw_pow. Qed.
Lemma pw_Exp_u m n : eq12 (gfP12_Exp (pw m n) u) (pw (m * Z.to_N u) (n * Z.to_N u)).
Proof. by rewrite gfP12_Exp_pow, pw_pow by done. Qed.
Context (Hconj : eq12 (gfP12_Conjugate f) fi).
Lemma pw_Conjugate m n : eq12 (gfP12_Conjugate (pw m n)) (pw n m).
Proof.
  assert (Hp : ∀ a k, eq12 (gfP12_Conjugate (rpow12 a k)) (rpow12 (gfP12_Conjugate a) k)).
  { intros a k. rewrite !gfP12_Conjugate_pow. apply (rpow_comm (CR := gfP12_ring)). }
  assert (Hi : eq12 (gfP12_Conjugate fi) f) by (by rewrite <-Hconj, gfP12_Conjugate_invol).
  unfold pw. rewrite gfP12_Conjugate_mul, !Hp, Hconj, Hi. ring.
Qed.
End chain.

#[export] Instance gfP12_Frobenius_proper : Proper (eq12 ==> eq12) gfP12_Frobenius.
Proof. intros a b H. by rewrite !gfP12_Frobenius_pow, H. Qed.
#[export] Instance gfP12_FrobeniusP2_proper : Proper (eq12 ==> eq12) gfP12_FrobeniusP2.
Proof. intros a b H. by rewrite !gfP12_FrobeniusP2_pow, H. Qed.
#[export] Instance gfP12_Exp_u_proper : Proper (eq12 ==> eq12) (λ a, gfP12_Exp a u).
Proof. intros a b H. by rewrite !gfP12_Exp_pow, H by done. Qed.

(** The exponent of the last part of the chain. *)
Definition hard_exponent : N := (P2N * P2N - P2N + 1) / Z.to_N Order.

(** The chain after the easy part. *)
Definition hard_part (t1 : gfP12) : gfP12 :=
  let fp := gfP12_Frobenius t1 in
  let fp2 := gfP12_FrobeniusP2 t1 in
  let fp3 := gfP12_Frobenius fp2 in
  let fu := gfP12_Exp t1 u in
  let fu2 := gfP12_Exp fu u in
  let fu3 := gfP12_Exp fu2 u in
  let y3 := gfP12_Conjugate (gfP12_Frobenius fu) in
  let fu2p := gfP12_Frobenius fu2 in
  let fu3p := gfP12_Frobenius fu3 in
  let y2 := gfP12_FrobeniusP2 fu2 in
  let y0 := gfP12_Mul (gfP12_Mul fp fp2) fp3 in
  let y1 := gfP12_Conjugate t1 in
  let y5 := gfP12_Conjugate fu2 in
  let y4 := gfP12_Conjugate (gfP12_Mul fu fu2p) in
  let y6 := gfP12_Conjugate (gfP12_Mul fu3 fu3p) in
  let t0 := gfP12_Mul (gfP12_Mul (gfP12_Square y6) y4) y5 in
  let t1 := gfP12_Mul (gfP12_Mul y3 y5) t0 in
  let t0 := gfP12_Mul t0 y2 in
  let t1 := gfP12_Square (gfP12_Mul (gfP12_Square t1) t0) in
  let t0 := gfP12_Mul t1 y1 in
  let t1 := gfP12_Mul t1 y0 in
  gfP12_Mul (gfP12_Square t0) t1.

(** The exponents of every number of the chain, found by its shape. *)
Lemma hard_part_exponents f fi :
  eq12 (gfP12_Conjugate f) fi →
  ∃ m n, eq12 (hard_part f) (pw f fi m n) ∧ m = (hard_exponent + n)%N.
Proof.
  intros Hc. set (isp x m n := eq12 x (pw f fi m n)).
  assert (Hmul : (∀ x y m n m' n', isp x m n → isp y m' n' → isp (gfP12_Mul x y) (m + m') (n + n'))%N).
  { unfold isp. intros * -> ->. apply pw_mul. }
  assert (Hsq : (∀ x m n, isp x m n → isp (gfP12_Square x) (m + m) (n + n))%N).
  { unfold isp. intros * ->. apply pw_square. }
  assert (Hfr : (∀ x m n, isp x m n → isp (gfP12_Frobenius x) (m * PN) (n * PN))%N).
  { unfold isp. intros * ->. apply pw_Frobenius. }
  assert (Hfr2 : (∀ x m n, isp x m n → isp (gfP12_FrobeniusP2 x) (m * P2N) (n * P2N))%N).
  { unfold isp. intros * ->. apply pw_FrobeniusP2. }
  assert (Hexp : (∀ x m n, isp x m n → isp (gfP12_Exp x u) (m * Z.to_N u) (n * Z.to_N u))%N).
  { unfold isp. intros * Hx. rewrite gfP12_Exp_pow, Hx by done. apply pw_pow. }
  assert (Hcj : ∀ x m n, isp x m n → isp (gfP12_Conjugate x) n m).
  { unfold isp. intros * ->. by apply pw_Conjugate. }
  assert (H1 : (isp f 1 0)%N).
  { unfold isp, pw. rewrite (rpow_1 (CR := gfP12_ring)), rpow_0. cbn [rone gfP12_ring]. ring. }
  change (∃ m n, isp (hard_part f) m n ∧ m = (hard_exponent + n)%N).
  clearbody isp. eexists _, _. split.
  - unfold hard_part. cbv zeta.
    repeat lazymatch goal with
    | |- isp (gfP12_Mul _ _) _ _ => eapply Hmul
    | |- isp (gfP12_Square _) _ _ => eapply Hsq
    | |- isp (gfP12_Frobenius _) _ _ => eapply Hfr
    | |- isp (gfP12_FrobeniusP2 _) _ _ => eapply Hfr2
    | |- isp (gfP12_Exp _ _) _ _ => eapply Hexp
    | |- isp (gfP12_Conjugate _) _ _ => eapply Hcj
    | |- _ => exact H1
    end.
  - unfold hard_exponent, P2N. rewrite PN_eq. vm_compute. reflexivity.
Qed.

Lemma hard_part_pow f fi :
  eq12 (gfP12_Mul f fi) gfP12_One → eq12 (gfP12_Conjugate f) fi →
  eq12 (hard_part f) (rpow12 f hard_exponent).
Proof.
  intros Hf Hc. destruct (hard_part_exponents f fi Hc) as (m & n & H & ->).
  rewrite H. by apply pw_cancel.
Qed.

(** Divide a unit out of a power. *)
Lemma unit_pow_pred a a' n x :
  eq12 (gfP12_Mul a a') gfP12_One → (0 < n)%N →
  eq12 (gfP12_Mul a x) (rpow12 a n) → eq12 x (rpow12 a (n - 1)).
Proof.
  intros Ha Hn Hx. apply (unit_cancel a a' _ _ Ha). rewrite Hx.
  replace n with (N.succ (n - 1)) at 1 by lia. by rewrite rpow_succ.
Qed.

Lemma P_exponents :
  (0 < P6N)%N ∧ (0 < P6N * P6N)%N ∧
  ((P6N - 1) * (1 + P2N) * (1 + P6N) = (P6N * P6N - 1) * (1 + P2N))%N ∧
  ((P6N - 1) * (1 + P2N) * hard_exponent = Z.to_N ((P ^ 12 - 1) / Order))%N ∧
  (Z.to_N ((P ^ 12 - 1) / Order) * Z.to_N Order = P6N * P6N - 1)%N.
Proof. unfold hard_exponent, P6N, P2N. rewrite PN_eq. by vm_compute. Qed.

(** The multiplicative group has order p¹² - 1. *)
Lemma unit_order a a' : eq12 (gfP12_Mul a a') gfP12_One → eq12 (rpow12 a (P6N * P6N - 1)) gfP12_One.
Proof.
  intros Ha. destruct P_exponents as (_ & H0 & _). symmetry. apply (unit_pow_pred a a'); [done..|].
  rewrite gfP12_pow_P12. ring.
Qed.

(** The easy part, the power (p⁶ - 1)(p² + 1). *)
Lemma easy_part_pow stale a a' :
  eq12 (gfP12_Mul a a') gfP12_One →
  let t := gfP12_Mul (gfP12_Conjugate a) (gfP12_Invert stale a) in
  eq12 (gfP12_Mul t (gfP12_FrobeniusP2 t)) (rpow12 a ((P6N - 1) * (1 + P2N))).
Proof.
  intros Ha t. pose proof (gfP12_Invert_unit stale a a' Ha) as Hi.
  assert (Ht : eq12 t (rpow12 a (P6N - 1))).
  { destruct P_exponents as (H0 & _). apply (unit_pow_pred a a'); [done..|]. unfold t.
    transitivity (gfP12_Mul (gfP12_Conjugate a) (gfP12_Mul a (gfP12_Invert stale a))); [ring|].
    rewrite Hi, <-gfP12_Conjugate_pow. ring. }
  rewrite gfP12_FrobeniusP2_pow, Ht. change (PN * PN)%N with P2N.
  rewrite (rpow_mul (CR := gfP12_ring) a (P6N - 1)), (rpow_add (CR := gfP12_ring)).
  by rewrite (rpow_1 (CR := gfP12_ring)).
Qed.

Lemma finalExponentiation_pow stale a a' :
  eq12 (gfP12_Mul a a') gfP12_One →
  eq12 (finalExponentiation stale a) (rpow12 a (Z.to_N ((P ^ 12 - 1) / Order))).
Proof.
  intros Ha. pose proof (easy_part_pow stale a a' Ha) as Hf. cbv zeta in Hf.
  change (finalExponentiation stale a) with (hard_part (gfP12_Mul
    (gfP12_Mul (gfP12_Conjugate a) (gfP12_Invert stale a))
    (gfP12_FrobeniusP2 (gfP12_Mul (gfP12_Conjugate a) (gfP12_Invert stale a))))).
  set (f := gfP12_Mul _ (gfP12_FrobeniusP2 _)) in *. clearbody f.
  destruct P_exponents as (_ & _ & He & Hh & _).
  rewrite (hard_part_pow f (gfP12_Conjugate f)); [|rewrite gfP12_Conjugate_pow|done].
  - revert Hh. generalize (Z.to_N ((P ^ 12 - 1) / Order)). intros k <-.
    by rewrite Hf, <-(rpow_mul (CR := gfP12_ring)).
  - transitivity (rpow12 f (1 + P6N)).
    { by rewrite (rpow_add (CR := gfP12_ring)), (rpow_1 (CR := gfP12_ring)). }
    rewrite Hf, <-(rpow_mul (CR := gfP12_ring)), He, (rpow_mul (CR := gfP12_ring)), (unit_order a a') by done.
    apply (rpow_one (CR := gfP12_ring)).
Qed.

(** The result has an order that divides [Order]. *)
Lemma finalExponentiation_order stale a a' :
  eq12 (gfP12_Mul a a') gfP12_One →
  eq12 (rpow12 (finalExponentiation stale a) (Z.to_N Order)) gfP12_One.
Proof.
  intros Ha. destruct P_exponents as (_ & _ & _ & _ & Ho).
  rewrite (finalExponentiation_pow stale a a'), <-(rpow_mul (CR := gfP12_ring)), Ho by done.
  by apply (unit_order a a').
Qed.

(** C11: [finalExponentiation] raises every invertible element of GF(p¹²) to the power
    (p¹² - 1) / Order, whatever the pool holds, and so gives an element whose
    order divides Order. *)
Theorem final_exponentiation stale a a' :
  eq12 (gfP12_Mul a a') gfP12_One →
  eq12 (finalExponentiation stale a) (rpow a (Z.to_N ((P ^ 12 - 1) / Order))) ∧
  eq12 (rpow (finalExponentiation stale a) (Z.to_N Order)) gfP12_One.
Proof. intros Ha. split; [by eapply finalExponentiation_pow|by eapply finalExponentiation_order]. Qed.

(** The inverse of ω, from ω² = τ and τ³ = ξ. *)
Definition omega_inverse : gfP12 := GFp12 (GFp6 (gfP2_Invert 0 xi) gfP2_Zero gfP2_Zero) gfP6_Zero.

Lemma final_exponentiation_witness :
  eq12 (gfP12_Mul omega omega_inverse) gfP12_One ∧
  eq12 (rpow (finalExponentiation 7 omega) (Z.to_N Order)) gfP12_One.
Proof.
  assert (Hw : eq12 (gfP12_Mul omega omega_inverse) gfP12_One).
  { split; split_and!; split; apply congr_iff; vm_compute; reflexivity. }
  split; [exact Hw|]. exact (proj2 (final_exponentiation 7 omega omega_inverse Hw)).
Defined.

(** C12: the line functions double and add in Jacobian coordinates, with [t] the
    square of [z], and their coefficients are those of the tangent at [r], and of
    the chord through [r] and [p], at the point [q] of the curve, up to a factor of
    GF(p²). The factor is not zero if [r] is finite and, for the tangent, its [y] is not
    zero, for the chord, [r] and [p] have different [x]; [mulLine] multiplies by the
    line. *)
Theorem line_functions r p q r2 x y l m :
  t_ok r → stands_for (tj r) x y → eq2 r2 (gfP2_Mul (tp_y p) (tp_y p)) →
  eq2 (gfP2_Mul l (gfP2_Add y y)) (gfP2_Add (gfP2_Add (gfP2_Mul x x) (gfP2_Mul x x)) (gfP2_Mul x x)) →
  eq2 (gfP2_Mul m (gfP2_Sub (tp_x p) x)) (gfP2_Sub (tp_y p) y) →
  (let '(ln, r') := lineFunctionDouble r q in
   t_ok r' ∧ jeq (tj r') (jac_double (tj r)) ∧
   ∃ s, leq ln (line_at s l x y q) ∧
     (¬ eq2 (tp_z r) gfP2_Zero → ¬ eq2 y gfP2_Zero → ¬ eq2 s gfP2_Zero)) ∧
  (let '(ln, r') := lineFunctionAdd r p q r2 in
   t_ok r' ∧ jeq (tj r') (jac_add (tj r) (tp_x p, tp_y p, gfP2_One)) ∧
   ∃ s, leq ln (line_at s m (tp_x p) (tp_y p) q) ∧
     (¬ eq2 (tp_z r) gfP2_Zero → ¬ eq2 (gfP2_Sub (tp_x p) x) gfP2_Zero → ¬ eq2 s gfP2_Zero)) ∧
  (∀ ret ln, eq12 (mulLine ret ln) (gfP12_Mul ret (of_line ln))).
Proof.
  intros Ht Hs Hr Hl Hm. split_and!; [| |apply mulLine_mul].
  - pose proof (lineFunctionDouble_point r q Ht) as Hp.
    pose proof (lineFunctionDouble_line r q x y l Ht Hs Hl) as Hln.
    pose proof (lineFunctionDouble_factor r q x y Ht Hs) as Hf.
    destruct (lineFunctionDouble r q) as [ln r']. destruct Hp. eauto.
  - pose proof (lineFunctionAdd_point r p q r2 Ht Hr) as Hp.
    pose proof (lineFunctionAdd_line r p q r2 x y m Ht Hr Hs Hm) as Hln.
    pose proof (lineFunctionAdd_factor r p q r2 x y Ht Hs) as Hf.
    destruct (lineFunctionAdd r p q r2) as [ln r']. destruct Hp. eauto.
Qed.

(** The generator of the twist, its double, and the slopes there. *)
Definition twistGen2 : twistPoint :=
  Eval vm_compute in twist_MakeAffine 0 (twist_Double false newTwistPoint twistGen).
Definition ex_tangent : gfP2 :=
  Eval vm_compute in
    (let xx := gfP2_Square (tp_x twistGen) in
     gfP2_Mul (gfP2_Add (gfP2_Add xx xx) xx) (gfP2_Invert 0 (gfP2_Double (tp_y twistGen)))).
Definition ex_chord : gfP2 :=
  Eval vm_compute in
    (gfP2_Mul (gfP2_Sub (tp_y twistGen2) (tp_y twistGen))
              (gfP2_Invert 0 (gfP2_Sub (tp_x twistGen2) (tp_x twistGen)))).

Lemma line_functions_witness :
  let '(ln, _) := lineFunctionAdd twistGen twistGen2 curveGen (gfP2_Square (tp_y twistGen2)) in
  ∃ s, leq ln (line_at s ex_chord (tp_x twistGen2) (tp_y twistGen2) curveGen) ∧ ¬ eq2 s gfP2_Zero.
Proof.
  destruct (line_functions twistGen twistGen2 curveGen
    (gfP2_Square (tp_y twistGen2)) (tp_x twistGen) (tp_y twistGen) ex_tangent ex_chord)
    as (_ & (_ & _ & s & Hl & Hs) & _).
  1-5: repeat split; apply congr_iff; vm_compute; reflexivity.
  exists s. split; [exact Hl|]. apply Hs.
  - intros [_ H]. apply congr_iff in H; [|done]. vm_compute in H. discriminate.
  - intros [_ H]. apply congr_iff in H; [|done]. vm_compute in H. discriminate.
Defined.
