(* ===== verification/Bn256.v ===== *)
(** * The groups of common/crypto/bn256

    The types G1, G2 and GT of bn256.go with their operations and encodings. An
    object is a name in a store; it has no entry while its pointer [p] is nil, and
    using it as an input then panics. The methods write to their receiver, which may
    also be one of the arguments. *)

From Stdlib Require Import Znumtheory Setoid Ring.
From S2P Require Import Prelude Primes Rings Jacobian PrimeField MathBig Bn256Field Bn256Laws Bn256Frobenius Bn256Curve Bn256Twist Bn256Pairing.
Local Open Scope Z_scope.

(** ** Objects *)

Definition deref {A} (s : gmap nat A) (a : nat) : outcome unit A :=
  match s !! a with Some p => Ok p | None => Panic end.

(** [if e.p == nil { e.p = new... }] *)
Definition alloc {A} (fresh : A) (s : gmap nat A) (e : nat) : gmap nat A :=
  match s !! e with Some _ => s | None => <[e := fresh]> s end.

(** Numbers of 32 bytes in a buffer: [copy(ret[i*numBytes-len(b):], b)]. *)
Definition numBytes : nat := 32.
Definition put_number (ret : bytes) (i : nat) (b : bytes) : bytes :=
  copy_at ret (i * numBytes - length b) b.
Definition get_number (m : bytes) (i : nat) : outcome unit Z :=
  let* b := m.[(i * numBytes):((i + 1) * numBytes)] in Ok (be_val b).

(** ** G1 *)

Abbreviation G1s := (gmap nat curvePoint).

Definition G1_CurvePoints (s : G1s) (e : nat) : outcome unit (Z * Z * Z * Z) :=
  let* p := deref s e in Ok (cp_x p, cp_y p, cp_z p, cp_t p).

Definition G1_ScalarBaseMult (s : G1s) (e : nat) (k : Z) : outcome unit G1s :=
  let s := alloc newCurvePoint s e in
  Ok (<[e := curve_Mul newCurvePoint newCurvePoint curveGen k]> s).

Definition G1_ScalarMult (s : G1s) (e a : nat) (k : Z) : outcome unit G1s :=
  let s := alloc newCurvePoint s e in
  let* pa := deref s a in
  Ok (<[e := curve_Mul newCurvePoint newCurvePoint pa k]> s).

Definition G1_Add (s : G1s) (e a b : nat) : outcome unit G1s :=
  let s := alloc newCurvePoint s e in
  let* c := deref s e in
  let* pa := deref s a in
  let* pb := deref s b in
  Ok (<[e := curve_Add (bool_decide (e = a)) c pa pb]> s).

Definition G1_Neg (s : G1s) (e a : nat) : outcome unit G1s :=
  let s := alloc newCurvePoint s e in
  let* pa := deref s a in
  Ok (<[e := curve_Negative pa]> s).

Definition G1_Marshal (s : G1s) (n : nat) : outcome unit (G1s * bytes) :=
  let* p := deref s n in
  let* p := curve_MakeAffine p in
  let xBytes := be_bytes (cp_x p mod P) in
  let yBytes := be_bytes (cp_y p mod P) in
  let ret := replicate (numBytes * 2) 0 in
  let ret := put_number ret 1 xBytes in
  let ret := put_number ret 2 yBytes in
  Ok (<[n := p]> s, ret).

(** The receiver is written before the point is tested. *)
Definition G1_Unmarshal (s : G1s) (e : nat) (m : bytes) : outcome unit (G1s * bool) :=
  if negb (bool_decide (length m = 2 * numBytes)%nat) then Ok (s, false)
  else
    let s := alloc newCurvePoint s e in
    let* x := get_number m 0 in
    let* y := get_number m 1 in
    if (x =? 0) && (y =? 0) then Ok (<[e := CurvePoint x 1 0 0]> s, true)
    else
      let p := CurvePoint x y 1 1 in
      if negb (curve_IsOnCurve p) then Ok (<[e := p]> s, false)
      else Ok (<[e := p]> s, true).

(** ** G2 *)

Abbreviation G2s := (gmap nat twistPoint).

Definition G2_CurvePoints (s : G2s) (e : nat) : outcome unit (gfP2 * gfP2 * gfP2 * gfP2) :=
  let* p := deref s e in Ok (tp_x p, tp_y p, tp_z p, tp_t p).

Definition G2_ScalarBaseMult (s : G2s) (e : nat) (k : Z) : outcome unit G2s :=
  let s := alloc newTwistPoint s e in
  Ok (<[e := twist_Mul newTwistPoint newTwistPoint twistGen k]> s).

Definition G2_ScalarMult (s : G2s) (e a : nat) (k : Z) : outcome unit G2s :=
  let s := alloc newTwistPoint s e in
  let* pa := deref s a in
  Ok (<[e := twist_Mul newTwistPoint newTwistPoint pa k]> s).

Definition G2_Add (s : G2s) (e a b : nat) : outcome unit G2s :=
  let s := alloc newTwistPoint s e in
  let* c := deref s e in
  let* pa := deref s a in
  let* pb := deref s b in
  Ok (<[e := twist_Add (bool_decide (e = a)) c pa pb]> s).

(** Without a pool the number that [Invert] starts from is a new one. *)
Definition G2_Marshal (s : G2s) (n : nat) : outcome unit (G2s * bytes) :=
  let* p := deref s n in
  let p := twist_MakeAffine 0 p in
  let xxBytes := be_bytes (gfP2_x (tp_x p) mod P) in
  let xyBytes := be_bytes (gfP2_y (tp_x p) mod P) in
  let yxBytes := be_bytes (gfP2_x (tp_y p) mod P) in
  let yyBytes := be_bytes (gfP2_y (tp_y p) mod P) in
  let ret := replicate (numBytes * 4) 0 in
  let ret := put_number ret 1 xxBytes in
  let ret := put_number ret 2 xyBytes in
  let ret := put_number ret 3 yxBytes in
  let ret := put_number ret 4 yyBytes in
  Ok (<[n := p]> s, ret).

Definition G2_Unmarshal (s : G2s) (e : nat) (m : bytes) : outcome unit (G2s * bool) :=
  if negb (bool_decide (length m = 4 * numBytes)%nat) then Ok (s, false)
  else
    let s := alloc newTwistPoint s e in
    let* xx := get_number m 0 in
    let* xy := get_number m 1 in
    let* yx := get_number m 2 in
    let* yy := get_number m 3 in
    if (xx =? 0) && (xy =? 0) && (yx =? 0) && (yy =? 0) then
      Ok (<[e := TwistPoint (GFp2 xx xy) gfP2_One gfP2_Zero gfP2_Zero]> s, true)
    else
      let p := TwistPoint (GFp2 xx xy) (GFp2 yx yy) gfP2_One gfP2_One in
      if negb (twist_IsOnCurve p) then Ok (<[e := p]> s, false)
      else Ok (<[e := p]> s, true).

(** ** GT *)

Abbreviation GTs := (gmap nat gfP12).

Definition GT_ScalarMult (s : GTs) (e a : nat) (k : Z) : outcome unit GTs :=
  let s := alloc gfP12_Zero s e in
  let* pa := deref s a in
  Ok (<[e := gfP12_Exp pa k]> s).

Definition GT_Add (s : GTs) (e a b : nat) : outcome unit GTs :=
  let s := alloc gfP12_Zero s e in
  let* pa := deref s a in
  let* pb := deref s b in
  Ok (<[e := gfP12_Mul pa pb]> s).

Definition GT_Neg (s : GTs) (e a : nat) : outcome unit GTs :=
  let s := alloc gfP12_Zero s e in
  let* pa := deref s a in
  Ok (<[e := gfP12_Invert 0 pa]> s).

(** The twelve numbers in the order of the encoding. *)
Definition gfP2_coeffs (a : gfP2) : list Z := [gfP2_x a; gfP2_y a].
Definition gfP6_coeffs (a : gfP6) : list Z :=
  gfP2_coeffs (gfP6_x a) ++ gfP2_coeffs (gfP6_y a) ++ gfP2_coeffs (gfP6_z a).
Definition gfP12_coeffs (a : gfP12) : list Z := gfP6_coeffs (gfP12_x a) ++ gfP6_coeffs (gfP12_y a).

Definition GT_Marshal (s : GTs) (n : nat) : outcome unit (GTs * bytes) :=
  let* p := deref s n in
  let p := gfP12_Minimal p in
  let ret := replicate (numBytes * 12) 0 in
  let ret := foldl (λ ret '(i, z), put_number ret (S i) (be_bytes z)) ret
               (imap pair (gfP12_coeffs p)) in
  Ok (<[n := p]> s, ret).

Definition GT_Unmarshal (s : GTs) (e : nat) (m : bytes) : outcome unit (GTs * bool) :=
  if negb (bool_decide (length m = 12 * numBytes)%nat) then Ok (s, false)
  else
    let s := alloc gfP12_Zero s e in
    let* xxx := get_number m 0 in
    let* xxy := get_number m 1 in
    let* xyx := get_number m 2 in
    let* xyy := get_number m 3 in
    let* xzx := get_number m 4 in
    let* xzy := get_number m 5 in
    let* yxx := get_number m 6 in
    let* yxy := get_number m 7 in
    let* yyx := get_number m 8 in
    let* yyy := get_number m 9 in
    let* yzx := get_number m 10 in
    let* yzy := get_number m 11 in
    let p := GFp12 (GFp6 (GFp2 xxx xxy) (GFp2 xyx xyy) (GFp2 xzx xzy))
                   (GFp6 (GFp2 yxx yxy) (GFp2 yyx yyy) (GFp2 yzx yzy)) in
    Ok (<[e := p]> s, true).

(** ** Pairings *)

(** [stale] are the numbers that [Invert] may find in the pool. *)
Definition Pair (stale : Z) (g1 : curvePoint) (g2 : twistPoint) : outcome unit gfP12 :=
  optimalAte stale g2 g1.

Fixpoint PairingCheck_loop (stale : Z) (a : list curvePoint) (b : list twistPoint) (acc : gfP12)
    : outcome unit gfP12 :=
  match a, b with
  | [], _ => Ok acc
  | _ :: _, [] => Panic
  | p :: a, q :: b =>
      if curve_IsInfinity p || twist_IsInfinity q then PairingCheck_loop stale a b acc
      else
        let* m := miller stale q p in
        PairingCheck_loop stale a b (gfP12_Mul acc m)
  end.

Definition PairingCheck (stale : Z) (a : list curvePoint) (b : list twistPoint) : outcome unit bool :=
  let* acc := PairingCheck_loop stale a b gfP12_One in
  let ret := finalExponentiation stale acc in
  Ok (gfP12_IsOne ret).1.

(** ** Encodings *)

Lemma put_number_app pre post i z :
  0 ≤ z < 256 ^ 32 → length pre = (i * numBytes)%nat →
  put_number (pre ++ replicate numBytes 0 ++ post) (S i) (be_bytes z) = pre ++ be_fixed numBytes z ++ post.
Proof.
  intros Hz Hpre. pose proof (byte_len_le z numBytes Hz) as Hl. unfold put_number.
  rewrite length_be_bytes.
  assert (Hs : replicate numBytes 0 = replicate (numBytes - byte_len z) 0 ++ replicate (byte_len z) 0).
  { rewrite <-replicate_add. f_equal. lia. }
  rewrite Hs, <-(padded_be_bytes z numBytes Hz), <-!app_assoc, !(app_assoc pre).
  replace (S i * numBytes - byte_len z)%nat with (length (pre ++ replicate (numBytes - byte_len z) 0))
    by (rewrite length_app, length_replicate; lia).
  rewrite copy_at_app by (rewrite length_app, length_replicate, length_be_bytes; lia).
  rewrite length_be_bytes, drop_app_length' by (by rewrite length_replicate). by rewrite <-!app_assoc.
Qed.

Lemma length_be_fixed_list zs : length (concat (be_fixed numBytes <$> zs)) = (length zs * numBytes)%nat.
Proof.
  induction zs as [|z zs IH]; [done|]. cbn [fmap list_fmap concat]. 
  rewrite length_app, length_be_fixed. cbn [length]. rewrite IH. lia.
Qed.

Lemma get_number_concat zs i z :
  zs !! i = Some z → 0 ≤ z < 256 ^ 32 → get_number (concat (be_fixed numBytes <$> zs)) i = Ok z.
Proof.
  intros Hi Hz. unfold get_number.
  pose proof (lookup_lt_Some _ _ _ Hi) as Hlt.
  rewrite slice_Ok by (rewrite length_be_fixed_list; nia). cbn [obind]. f_equal.
  rewrite <-(take_drop_middle zs i z Hi), fmap_app, concat_app, fmap_cons. cbn [concat].
  rewrite drop_app_length' by (rewrite length_be_fixed_list, length_take; lia).
  rewrite take_app_length' by (rewrite length_be_fixed; lia).
  rewrite be_val_fixed. apply Z.mod_small. exact Hz.
Qed.

Lemma mod_P_256 z : 0 ≤ z mod P < 256 ^ 32.
Proof. pose proof (mod_P_bound z). pose proof P_large. lia. Qed.

(** ** G1 implements the group of the curve *)

(** The points that the objects stand for. *)
Definition G1_abs (s : G1s) (A : gmap nat affine) : Prop :=
  ∀ i, match s !! i, A !! i with
       | Some c, Some p => curve_valid c p
       | None, None => True
       | _, _ => False
       end.

Lemma G1_abs_lookup s A i c : G1_abs s A → s !! i = Some c → ∃ p, A !! i = Some p ∧ curve_valid c p.
Proof. intros HA Hi. specialize (HA i). rewrite Hi in HA. destruct (A !! i) as [p|]; [by exists p|done]. Qed.

Lemma G1_abs_insert s A i c p : G1_abs s A → curve_valid c p → G1_abs (<[i := c]> s) (<[i := p]> A).
Proof.
  intros HA Hc j. destruct (decide (i = j)) as [->|Hij].
  - by rewrite !lookup_insert_eq.
  - rewrite !lookup_insert_ne by done. apply HA.
Qed.

Lemma newCurvePoint_valid : curve_valid newCurvePoint None.
Proof. split_and!; [by split|by left|]. change (congr P 0 0). done. Qed.

(** A new object is the point at infinity. *)
Definition alloc_abs (A : gmap nat (affine (R := Z))) (e : nat) : gmap nat affine := @alloc (affine (R := Z)) None A e.

Lemma G1_abs_alloc s A e : G1_abs s A → G1_abs (alloc newCurvePoint s e) (alloc_abs A e).
Proof.
  intros HA. unfold alloc_abs, alloc. pose proof (HA e) as He.
  destruct (s !! e), (A !! e); try done. apply G1_abs_insert; [done|apply newCurvePoint_valid].
Qed.

(** The operations on affine points. *)
Inductive g1_op :=
| OpBase (e : nat) (k : Z)
| OpMult (e a : nat) (k : Z)
| OpAdd (e a b : nat)
| OpNeg (e a : nat)
| OpMarshal (n : nat)
| OpUnmarshal (e : nat) (m : bytes).

Definition G1_exec (s : G1s) (op : g1_op) : outcome unit G1s :=
  match op with
  | OpBase e k => G1_ScalarBaseMult s e k
  | OpMult e a k => G1_ScalarMult s e a k
  | OpAdd e a b => G1_Add s e a b
  | OpNeg e a => G1_Neg s e a
  | OpMarshal n => let* r := G1_Marshal s n in Ok r.1
  | OpUnmarshal e m => let* r := G1_Unmarshal s e m in if r.2 : bool then Ok r.1 else Err tt
  end.

(** The count of additions for a scalar: its low bits, so the scalar itself unless
    it is negative. *)
Definition times (k : Z) : N := Z.to_N (k mod 2 ^ (BitLen k + 1)).

Definition decodes (m : bytes) (p : affine (R := Z)) : Prop :=
  ∃ x y, get_number m 0 = Ok x ∧ get_number m 1 = Ok y ∧
    p = if (x =? 0) && (y =? 0) then None else Some (x, y).

Inductive g1_step (A : gmap nat (affine (R := Z))) : g1_op → gmap nat (affine (R := Z)) → Prop :=
| step_base e k q : multiple (Some (1, -2)) (times k) q → g1_step A (OpBase e k) (<[e := q]> A)
| step_mult e a k p q :
    alloc_abs A e !! a = Some p → multiple p (times k) q → g1_step A (OpMult e a k) (<[e := q]> A)
| step_add e a b p q r :
    alloc_abs A e !! a = Some p → alloc_abs A e !! b = Some q → aff_add p q r →
    g1_step A (OpAdd e a b) (<[e := r]> A)
| step_neg e a p q :
    alloc_abs A e !! a = Some p → aff_add p q None → g1_step A (OpNeg e a) (<[e := q]> A)
| step_marshal n : g1_step A (OpMarshal n) A
| step_unmarshal e m p : decodes m p → on_affine curveB p → g1_step A (OpUnmarshal e m) (<[e := p]> A).

(** A sum is not written over its first term. *)
Definition op_ok (op : g1_op) : Prop := match op with OpAdd e a _ => e ≠ a | _ => True end.

Lemma alloc_insert {A} (f x : A) s e : <[e := x]> (alloc f s e) = <[e := x]> s.
Proof. unfold alloc. destruct (s !! e); [done|]. apply insert_insert_eq. Qed.
Lemma deref_Ok {A} (s : gmap nat A) a p : deref s a = Ok p ↔ s !! a = Some p.
Proof. unfold deref. destruct (s !! a); naive_solver. Qed.

Lemma curve_valid_congr c p q :
  curve_valid c p →
  match p, q with
  | Some (x, y), Some (x', y') => congr P x x' ∧ congr P y y'
  | None, None => True
  | _, _ => False
  end → curve_valid c q.
Proof.
  intros (Hz & Hv & Hp) Hq. destruct p as [[x y]|], q as [[x' y']|]; try done.
  destruct Hq as [Hx Hy]. split_and!; [done..|]. destruct Hp as [Hn Hs]. split; [done|].
  by apply (stands_for_proper (CR := P_ring) (cj c) x y).
Qed.

Lemma affine_point_valid x y t :
  congr P (y * y) (x * x * x + curveB) → curve_valid (CurvePoint x y 1 t) (Some (x, y)).
Proof.
  intros Hon. assert (¬ congr P 1 0) by (apply P_not_zero; pose proof P_large; lia).
  split_and!; [split; [done|by intros ?]| |].
  - right. change (congr P (y * y) (x * x * x + curveB * 1)). by rewrite Z.mul_1_r.
  - split; [done|]. change (congr P x (x * 1) ∧ congr P y (y * 1)). by rewrite !Z.mul_1_r.
Qed.

Lemma G1_Unmarshal_true s e m s' :
  G1_Unmarshal s e m = Ok (s', true) →
  ∃ c p, s' = <[e := c]> s ∧ decodes m p ∧ on_affine curveB p ∧ curve_valid c p.
Proof.
  unfold G1_Unmarshal. case_bool_decide as Hl; [|done]. cbn [negb].
  rewrite obind_Ok. intros (x & Hx & Hm). apply obind_Ok in Hm as (y & Hy & Hm).
  destruct ((x =? 0) && (y =? 0)) eqn:E0.
  - injection Hm as <-. exists (CurvePoint x 1 0 0), None. rewrite alloc_insert.
    split_and!; [done| |done|].
    + exists x, y. by rewrite E0.
    + split_and!; [by split|by left|]. change (congr P 0 0). done.
  - destruct (curve_IsOnCurve (CurvePoint x y 1 1)) eqn:Ec; [|done]. cbn [negb] in Hm. injection Hm as <-.
    rewrite curve_IsOnCurve_spec in Ec. apply bool_decide_eq_true in Ec.
    exists (CurvePoint x y 1 1), (Some (x, y)). rewrite alloc_insert.
    split_and!; [done| |done|by apply affine_point_valid].
    exists x, y. by rewrite E0.
Qed.

Lemma MakeAffine_valid c x y :
  curve_valid c (Some (x, y)) →
  ∃ c', curve_MakeAffine c = Ok c' ∧ curve_valid c' (Some (x, y)) ∧ cp_z c' = 1.
Proof.
  intros Hc. destruct (curve_MakeAffine_spec c _ Hc) as (c' & Hm & Hz & Hx & Hy & Hon).
  exists c'. split_and!; [done| |done]. rewrite curve_IsOnCurve_spec in Hon.
  apply bool_decide_eq_true in Hon. destruct c' as [x' y' z' t']. cbn in Hz. subst z'.
  apply (curve_valid_congr _ (Some (x', y'))); [by apply affine_point_valid|done].
Qed.

(** What the inputs of an operation have to be. *)
Definition inputs_ok (A : gmap nat (affine (R := Z))) (op : g1_op) : Prop :=
  match op with
  | OpMult e a _ | OpNeg e a => is_Some (alloc_abs A e !! a)
  | OpAdd e a b => is_Some (alloc_abs A e !! a) ∧ is_Some (alloc_abs A e !! b)
  | OpMarshal n => ∃ p : Z * Z, A !! n = Some (Some p : affine (R := Z))
  | _ => True
  end.

Lemma deref_abs s A a :
  G1_abs s A →
  (∃ c p, deref s a = Ok c ∧ A !! a = Some p ∧ curve_valid c p) ∨ (deref s a = Panic ∧ A !! a = None).
Proof.
  intros HA. specialize (HA a). unfold deref. destruct (s !! a), (A !! a); naive_solver.
Qed.

Lemma curve_Add_valid c a b p q r :
  curve_valid a p → curve_valid b q → aff_add p q r → curve_valid (curve_Add false c a b) r.
Proof.
  intros (Hza & Hva & Ha) (Hzb & Hvb & Hb) Hr. destruct (curve_Add_jac c a b Hza Hzb) as [Heq Hz].
  split_and!; [done| |].
  - rewrite Heq. by apply jac_plus_valid.
  - rewrite Heq. by apply (jac_plus_jac_repr (CR := P_ring) (cj a) (cj b) p q).
Qed.

Lemma valid_on_affine c p : curve_valid c p → on_affine (CR := P_ring) curveB p.
Proof. intros (_ & Hv & Hp). by apply (jac_repr_on (CR := P_ring) curveB (cj c)). Qed.

Lemma bind_deref s a {B} (k : curvePoint → outcome unit B) r :
  (let* p := deref s a in k p) = Ok r ↔ ∃ p, s !! a = Some p ∧ k p = Ok r.
Proof. rewrite obind_Ok. by setoid_rewrite deref_Ok. Qed.

(** Every operation does what the chord-and-tangent law says. *)
Lemma G1_exec_sim s A op s' :
  G1_abs s A → op_ok op → G1_exec s op = Ok s' → ∃ A', g1_step A op A' ∧ G1_abs s' A'.
Proof.
  intros HA Hok. destruct op as [e k|e a k|e a b|e a|n|e m]; cbn [G1_exec]; intros Hx.
  - injection Hx as <-. rewrite alloc_insert.
    destruct (curve_Mul_multiple newCurvePoint newCurvePoint curveGen _ k curveGen_valid) as (q & Hq & Hm).
    exists (<[e := q]> A). split; [by constructor|by apply G1_abs_insert].
  - apply bind_deref in Hx as (pa & Ha & [= <-]). rewrite alloc_insert.
    destruct (G1_abs_lookup _ _ _ _ (G1_abs_alloc _ _ e HA) Ha) as (p & Hp & Hv).
    destruct (curve_Mul_multiple newCurvePoint newCurvePoint pa p k Hv) as (q & Hq & Hm).
    exists (<[e := q]> A). split; [by eapply step_mult|by apply G1_abs_insert].
  - apply bind_deref in Hx as (c & _ & Hx). apply bind_deref in Hx as (pa & Ha & Hx).
    apply bind_deref in Hx as (pb & Hb & [= <-]). rewrite alloc_insert, bool_decide_false by done.
    destruct (G1_abs_lookup _ _ _ _ (G1_abs_alloc _ _ e HA) Ha) as (p & Hp & Hvp).
    destruct (G1_abs_lookup _ _ _ _ (G1_abs_alloc _ _ e HA) Hb) as (q & Hq & Hvq).
    destruct (aff_add_total curveB p q) as [r Hr]; [by eapply valid_on_affine..|].
    exists (<[e := r]> A). split; [by eapply step_add|].
    apply G1_abs_insert; [done|]. by eapply curve_Add_valid.
  - apply bind_deref in Hx as (pa & Ha & [= <-]). rewrite alloc_insert.
    destruct (G1_abs_lookup _ _ _ _ (G1_abs_alloc _ _ e HA) Ha) as (p & Hp & Hv).
    destruct (curve_Negative_spec pa p Hv) as [Hn Hadd].
    eexists (<[e := _]> A). split; [by eapply step_neg|by apply G1_abs_insert].
  - apply obind_Ok in Hx as (r & Hx & [= <-]). apply bind_deref in Hx as (c & Hc & Hx).
    destruct (G1_abs_lookup _ _ _ _ HA Hc) as ([[x y]|] & Hp & Hv).
    + destruct (MakeAffine_valid c x y Hv) as (c' & Hm & Hv' & _). rewrite Hm in Hx. injection Hx as <-.
      exists A. split; [constructor|]. rewrite <-(insert_id A n _ Hp). by apply G1_abs_insert.
    + by rewrite (curve_MakeAffine_spec c _ Hv) in Hx.
  - apply obind_Ok in Hx as ([s1 []] & Hx & Hr); [|done]. injection Hr as <-.
    apply G1_Unmarshal_true in Hx as (c & p & -> & Hd & Hon & Hv).
    exists (<[e := p]> A). split; [by constructor|by apply G1_abs_insert].
Qed.

Lemma alloc_Some {A} (f : A) s e : is_Some (alloc f s e !! e).
Proof. unfold alloc. destruct (s !! e) eqn:E; [by rewrite E|by rewrite lookup_insert_eq]. Qed.

Lemma get_number_Ok m n i : length m = (n * numBytes)%nat → (i < n)%nat → ∃ z, get_number m i = Ok z.
Proof. intros Hl Hi. unfold get_number. rewrite slice_Ok by nia. by eexists. Qed.

(** It panics exactly if an input is nil, or the point to encode at infinity. *)
Lemma G1_exec_panic s A op : G1_abs s A → G1_exec s op = Panic ↔ ¬ inputs_ok A op.
Proof.
  intros HA. destruct op as [e k|e a k|e a b|e a|n|e m]; cbn [G1_exec inputs_ok].
  - naive_solver.
  - unfold G1_ScalarMult. destruct (deref_abs _ _ a (G1_abs_alloc _ _ e HA)) as [(c&p&->&->&_)|[-> ->]];
      cbn; naive_solver.
  - unfold G1_Add.
    destruct (alloc_Some newCurvePoint s e) as [c0 Hc0]. rewrite (proj2 (deref_Ok _ e c0)) by done. cbn [obind].
    destruct (deref_abs _ _ a (G1_abs_alloc _ _ e HA)) as [(c&p&->&->&_)|[-> ->]]; cbn [obind]; [|naive_solver].
    destruct (deref_abs _ _ b (G1_abs_alloc _ _ e HA)) as [(c'&p'&->&->&_)|[-> ->]]; cbn [obind]; naive_solver.
  - unfold G1_Neg. destruct (deref_abs _ _ a (G1_abs_alloc _ _ e HA)) as [(c&p&->&->&_)|[-> ->]];
      cbn; naive_solver.
  - unfold G1_Marshal. destruct (deref_abs _ _ n HA) as [(c&p&->&->&Hv)|[-> ->]]; cbn [obind]; [|naive_solver].
    destruct p as [[x y]|].
    + destruct (MakeAffine_valid c x y Hv) as (c' & -> & _). cbn. naive_solver.
    + rewrite (curve_MakeAffine_spec c _ Hv). cbn. naive_solver.
  - split; [|naive_solver]. unfold G1_Unmarshal. case_bool_decide as Hl; [|done]. cbn [negb].
    destruct (get_number_Ok m 2 0 Hl) as [x ->]; [lia|]. destruct (get_number_Ok m 2 1 Hl) as [y ->]; [lia|].
    cbn [obind]. repeat case_match; done.
Qed.

(** Sequences of operations. *)
Definition G1_run (s : G1s) (ops : list g1_op) : outcome unit G1s := oloop (λ op s, G1_exec s op) ops s.

Inductive g1_steps : gmap nat (affine (R := Z)) → list g1_op → gmap nat (affine (R := Z)) → Prop :=
| steps_nil A : g1_steps A [] A
| steps_cons A op A1 ops A2 : g1_step A op A1 → g1_steps A1 ops A2 → g1_steps A (op :: ops) A2.

Lemma G1_run_sim ops s A s' :
  G1_abs s A → Forall op_ok ops → G1_run s ops = Ok s' → ∃ A', g1_steps A ops A' ∧ G1_abs s' A'.
Proof.
  revert s A. induction ops as [|op ops IH]; intros s A HA Hok Hr.
  - injection Hr as <-. exists A. by split; [constructor|].
  - apply Forall_cons in Hok as [Hop Hok]. apply obind_Ok in Hr as (s1 & Hs1 & Hr).
    destruct (G1_exec_sim s A op s1 HA Hop Hs1) as (A1 & Hst & HA1).
    destruct (IH s1 A1 HA1 Hok Hr) as (A2 & Hsts & HA2). exists A2. split; [by econstructor|done].
Qed.

(** ** Round trips *)

Lemma G1_Marshal_bytes s n c c' :
  s !! n = Some c → curve_MakeAffine c = Ok c' →
  G1_Marshal s n = Ok (<[n := c']> s, concat (be_fixed numBytes <$> [cp_x c' mod P; cp_y c' mod P])).
Proof.
  intros Hn Hm. unfold G1_Marshal. rewrite (proj2 (deref_Ok s n c) Hn). cbn [obind]. rewrite Hm. cbn [obind].
  do 2 f_equal. change (replicate (numBytes * 2) 0) with ([] ++ replicate numBytes 0 ++ replicate numBytes 0).
  rewrite put_number_app by (done || apply mod_P_256). rewrite app_nil_l.
  rewrite <-(app_nil_r (replicate numBytes 0)).
  rewrite put_number_app by (apply mod_P_256 || by rewrite length_be_fixed). done.
Qed.

(** Decoding an encoded point gives the point back, in any object. *)
Lemma G1_Unmarshal_Marshal_at s n c x y e :
  s !! n = Some c → curve_valid c (Some (x, y)) →
  ∃ s1 m s2 c', G1_Marshal s n = Ok (s1, m) ∧ G1_Unmarshal s1 e m = Ok (s2, true) ∧
    s2 !! e = Some c' ∧ curve_valid c' (Some (x, y)).
Proof.
  intros Hn Hv. destruct (MakeAffine_valid c x y Hv) as (c' & Hm & Hv' & Hz).
  rewrite (G1_Marshal_bytes s n c c' Hn Hm). eexists _, _.
  pose proof (curve_MakeAffine_spec c _ Hv) as (c'' & Hm' & _ & Hx & Hy & Hon).
  rewrite Hm in Hm'. injection Hm' as <-.
  set (x1 := cp_x c' mod P). set (y1 := cp_y c' mod P).
  assert (Hon1 : curve_IsOnCurve (CurvePoint x1 y1 1 1) = true).
  { rewrite curve_IsOnCurve_spec in *. unfold x1, y1. cbn [cp_x cp_y].
    apply bool_decide_eq_true. apply bool_decide_eq_true in Hon. by rewrite !congr_mod. }
  assert (Hn0 : (x1 =? 0) && (y1 =? 0) = false).
  { destruct (Z.eqb_spec x1 0) as [H0|]; [|done]. destruct (Z.eqb_spec y1 0) as [H1|]; [|done].
    rewrite H0, H1 in Hon1. by vm_compute in Hon1. }
  eexists _, (CurvePoint x1 y1 1 1). split_and!; [done| |apply lookup_insert_eq|].
  - unfold G1_Unmarshal. rewrite bool_decide_true by (by rewrite length_be_fixed_list). cbn [negb].
    rewrite (get_number_concat _ 0 x1), (get_number_concat _ 1 y1) by (done || apply mod_P_256).
    cbn [obind]. by rewrite Hn0, Hon1.
  - apply (curve_valid_congr _ (Some (x1, y1))).
    + apply affine_point_valid. rewrite curve_IsOnCurve_spec in Hon1. by apply bool_decide_eq_true in Hon1.
    + unfold x1, y1. by rewrite !congr_mod.
Qed.

(** ** G2 *)

Lemma twist_Add_valid c a b p q r :
  twist_valid a p → twist_valid b q → aff_add p q r → twist_valid (twist_Add false c a b) r.
Proof.
  intros (Hza & Hva & Ha) (Hzb & Hvb & Hb) Hr. destruct (twist_Add_jac c a b Hza Hzb) as [Heq Hz].
  split_and!; [done| |].
  - rewrite Heq. by apply jac_plus_valid.
  - rewrite Heq. by apply (jac_plus_jac_repr (CR := gfP2_ring) (tj a) (tj b) p q).
Qed.

(** [Add] and [ScalarMult] of existing objects follow the law of the twist. *)
Lemma G2_Add_law s e a b pa pb p q :
  s !! a = Some pa → s !! b = Some pb → e ≠ a → twist_valid pa p → twist_valid pb q →
  ∃ s' c r, G2_Add s e a b = Ok s' ∧ s' !! e = Some c ∧ twist_valid c r ∧ aff_add p q r.
Proof.
  intros Ha Hb He Hp Hq. unfold G2_Add.
  destruct (alloc_Some newTwistPoint s e) as [c0 Hc0]. rewrite (proj2 (deref_Ok _ e c0)) by done.
  assert (Hal : ∀ i x, s !! i = Some x → deref (alloc newTwistPoint s e) i = Ok x).
  { intros i x Hi. apply deref_Ok. unfold alloc. destruct (s !! e) eqn:E; [done|].
    rewrite lookup_insert_ne; [done|]. intros ->. by rewrite E in Hi. }
  cbn [obind]. rewrite (Hal a pa Ha). cbn [obind]. rewrite (Hal b pb Hb). cbn [obind].
  rewrite bool_decide_false by done.
  destruct (aff_add_total (CR := gfP2_ring) twistB p q) as [r Hr].
  { destruct Hp as (_ & Hv & Hp). by apply (jac_repr_on (CR := gfP2_ring) twistB (tj pa)). }
  { destruct Hq as (_ & Hv & Hq). by apply (jac_repr_on (CR := gfP2_ring) twistB (tj pb)). }
  eexists _, _, r. split_and!; [done|apply lookup_insert_eq| |done]. by eapply twist_Add_valid.
Qed.

Lemma G2_ScalarMult_law s e a k pa p :
  s !! a = Some pa → twist_valid pa p →
  ∃ s' c q, G2_ScalarMult s e a k = Ok s' ∧ s' !! e = Some c ∧ twist_valid c q ∧ multiple p (times k) q.
Proof.
  intros Ha Hp. unfold G2_ScalarMult.
  assert (deref (alloc newTwistPoint s e) a = Ok pa) as ->.
  { apply deref_Ok. unfold alloc. destruct (s !! e) eqn:E; [done|].
    rewrite lookup_insert_ne; [done|]. intros ->. by rewrite E in Ha. }
  destruct (twist_Mul_multiple newTwistPoint newTwistPoint pa p k Hp) as (q & Hq & Hm).
  eexists _, _, q. split_and!; [done|apply lookup_insert_eq|done|done].
Qed.

Lemma G2_Marshal_bytes s n c :
  s !! n = Some c →
  let c' := twist_MakeAffine 0 c in
  G2_Marshal s n = Ok (<[n := c']> s, concat (be_fixed numBytes <$>
    [gfP2_x (tp_x c') mod P; gfP2_y (tp_x c') mod P; gfP2_x (tp_y c') mod P; gfP2_y (tp_y c') mod P])).
Proof.
  intros Hn c'. unfold G2_Marshal. rewrite (proj2 (deref_Ok s n c) Hn). cbn [obind]. fold c'.
  do 2 f_equal.
  change (replicate (numBytes * 4) 0) with ([] ++ replicate numBytes 0 ++ replicate (numBytes * 3) 0).
  rewrite put_number_app by (done || apply mod_P_256). rewrite app_nil_l.
  change (replicate (numBytes * 3) 0) with (replicate numBytes 0 ++ replicate (numBytes * 2) 0).
  rewrite put_number_app by (apply mod_P_256 || by rewrite length_be_fixed).
  change (replicate (numBytes * 2) 0) with (replicate numBytes 0 ++ replicate numBytes 0).
  rewrite app_assoc.
  rewrite put_number_app by (apply mod_P_256 || by rewrite length_app, !length_be_fixed).
  rewrite <-(app_nil_r (replicate numBytes 0)), app_assoc.
  rewrite put_number_app by (apply mod_P_256 || by rewrite !length_app, !length_be_fixed).
  cbn [fmap list_fmap concat]. by rewrite <-!app_assoc.
Qed.

Lemma twist_affine_valid x y t :
  eq2 (gfP2_Mul y y) (gfP2_Add (gfP2_Mul (gfP2_Mul x x) x) twistB) →
  twist_valid (TwistPoint x y gfP2_One t) (Some (x, y)).
Proof.
  intros Hon. assert (Hn : ¬ eq2 gfP2_One gfP2_Zero) by exact (field_one (R := gfP2) (CR := gfP2_ring)).
  assert (H1 : ∀ a, eq2 a (gfP2_Mul a (gfP2_Mul gfP2_One gfP2_One)) ∧
    eq2 a (gfP2_Mul a (gfP2_Mul gfP2_One (gfP2_Mul gfP2_One gfP2_One)))) by (split; ring).
  split_and!; [split_and!; [done..|by intros ?]| |].
  - right. change (eq2 (gfP2_Mul y y) (gfP2_Add (gfP2_Mul (gfP2_Mul x x) x)
      (gfP2_Mul twistB (gfP2_Mul (gfP2_Mul (gfP2_Mul gfP2_One gfP2_One) gfP2_One)
                                 (gfP2_Mul (gfP2_Mul gfP2_One gfP2_One) gfP2_One))))).
    rewrite Hon. generalize twistB. intros. ring.
  - split; [done|]. split; apply H1.
Qed.

Lemma twist_valid_eq c x y x' y' :
  twist_valid c (Some (x, y)) → eq2 x x' → eq2 y y' → twist_valid c (Some (x', y')).
Proof.
  intros (Hz & Hv & Hp) Hx Hy. split_and!; [done..|]. destruct Hp as [Hn Hs]. split; [done|].
  by apply (stands_for_proper (CR := gfP2_ring) (tj c) x y).
Qed.

(** Coefficients reduced for the encoding. *)
Definition reduce2 (a : gfP2) : gfP2 := GFp2 (gfP2_x a mod P) (gfP2_y a mod P).
Lemma reduce2_eq a : eq2 (reduce2 a) a.
Proof. split; apply congr_mod. Qed.

Lemma G2_Unmarshal_Marshal_at s n c x y e :
  s !! n = Some c → twist_valid c (Some (x, y)) →
  ∃ s1 m s2 c', G2_Marshal s n = Ok (s1, m) ∧ G2_Unmarshal s1 e m = Ok (s2, true) ∧
    s2 !! e = Some c' ∧ twist_valid c' (Some (x, y)).
Proof.
  intros Hn Hv. rewrite (G2_Marshal_bytes s n c Hn). eexists _, _.
  destruct (twist_MakeAffine_finite 0 c x y Hv) as (Hz & Hx & Hy & Hon).
  set (c' := twist_MakeAffine 0 c) in *. set (x1 := reduce2 (tp_x c')). set (y1 := reduce2 (tp_y c')).
  assert (Hc : eq2 (gfP2_Mul y1 y1) (gfP2_Add (gfP2_Mul (gfP2_Mul x1 x1) x1) twistB)).
  { rewrite twist_IsOnCurve_spec in Hon. apply bool_decide_eq_true in Hon.
    unfold x1, y1. by rewrite !reduce2_eq. }
  assert (Hon1 : twist_IsOnCurve (TwistPoint x1 y1 gfP2_One gfP2_One) = true).
  { rewrite twist_IsOnCurve_spec. by apply bool_decide_eq_true. }
  assert (Hn0 : (gfP2_x x1 =? 0) && (gfP2_y x1 =? 0) && (gfP2_x y1 =? 0) && (gfP2_y y1 =? 0) = false).
  { clear -Hon1. destruct x1 as [a b], y1 as [a' b']. cbn [gfP2_x gfP2_y].
    destruct (Z.eqb_spec a 0) as [->|]; [|done]. destruct (Z.eqb_spec b 0) as [->|]; [|done].
    destruct (Z.eqb_spec a' 0) as [->|]; [|done]. destruct (Z.eqb_spec b' 0) as [->|]; [|done].
    by vm_compute in Hon1. }
  eexists _, (TwistPoint x1 y1 gfP2_One gfP2_One). split_and!; [done| |apply lookup_insert_eq|].
  - unfold G2_Unmarshal. rewrite bool_decide_true by (by rewrite length_be_fixed_list). cbn [negb].
    rewrite (get_number_concat _ 0 (gfP2_x x1)), (get_number_concat _ 1 (gfP2_y x1)),
      (get_number_concat _ 2 (gfP2_x y1)), (get_number_concat _ 3 (gfP2_y y1))
      by (done || apply mod_P_256).
    cbn [obind]. rewrite Hn0.
    replace (GFp2 (gfP2_x x1) (gfP2_y x1)) with x1 by done.
    replace (GFp2 (gfP2_x y1) (gfP2_y y1)) with y1 by done. by rewrite Hon1.
  - apply (twist_valid_eq _ x1 y1); [by apply twist_affine_valid|..]; unfold x1, y1; by rewrite reduce2_eq.
Qed.

Lemma gfP2_zero_mod a : eq2 a gfP2_Zero → gfP2_x a mod P = 0 ∧ gfP2_y a mod P = 0.
Proof. intros [H1 H2]. split; by apply congr_0; [apply P_pos|]. Qed.

(** Encoding the point at infinity turns the object itself into the pair of zeros. *)
Lemma G2_Marshal_at_infinity s n c :
  s !! n = Some c → twist_valid c None →
  ∃ s' c', G2_Marshal s n = Ok (s', replicate (numBytes * 4) 0) ∧ s' !! n = Some c' ∧
    twist_IsInfinity c' = false ∧ twist_IsOnCurve c' = false.
Proof.
  intros Hn Hv. rewrite (G2_Marshal_bytes s n c Hn).
  destruct (twist_MakeAffine_infinity 0 c Hv) as (Hz & Hx & Hy & Hon).
  set (c' := twist_MakeAffine 0 c) in *.
  destruct (gfP2_zero_mod _ Hx) as [-> ->], (gfP2_zero_mod _ Hy) as [-> ->].
  eexists _, c'. split_and!; [done|apply lookup_insert_eq| |done].
  unfold twist_IsInfinity. by rewrite Hz.
Qed.

(** ** GT *)

Lemma put_numbers zs pre i :
  Forall (λ z, 0 ≤ z < 256 ^ 32) zs → length pre = (i * numBytes)%nat →
  foldl (λ ret '(j, z), put_number ret (S j) (be_bytes z)) (pre ++ replicate (numBytes * length zs) 0)
    (imap (λ j z, ((i + j)%nat, z)) zs) = pre ++ concat (be_fixed numBytes <$> zs).
Proof.
  intros Hz. revert pre i. induction Hz as [|z zs Hz _ IH]; intros pre i Hpre.
  { by rewrite Nat.mul_0_r. }
  rewrite imap_cons. cbn [foldl length]. rewrite Nat.mul_succ_r, Nat.add_comm, replicate_add, Nat.add_0_r.
  rewrite put_number_app by done. rewrite app_assoc, fmap_cons. cbn [concat]. rewrite app_assoc.
  rewrite <-(IH (pre ++ be_fixed numBytes z) (S i)) by (rewrite length_app, length_be_fixed; lia).
  f_equal. apply imap_ext. intros j x _. cbn. f_equal. lia.
Qed.

Lemma minimal_range z : 0 ≤ minimal z < 256 ^ 32.
Proof.
  unfold minimal. pose proof (mod_P_256 z). pose proof P_large.
  destruct ((z <? 0) || (P <=? z)) eqn:E; [done|]. lia.
Qed.

(** Decoding an encoded element gives the element in reduced form. *)
Lemma GT_Unmarshal_Marshal_at s n a e :
  s !! n = Some a →
  ∃ s1 m s2, GT_Marshal s n = Ok (s1, m) ∧ GT_Unmarshal s1 e m = Ok (s2, true) ∧
    s2 !! e = Some (gfP12_Minimal a).
Proof.
  intros Hn. unfold GT_Marshal. rewrite (proj2 (deref_Ok s n a) Hn). cbn [obind].
  set (zs := gfP12_coeffs (gfP12_Minimal a)).
  assert (Hzs : Forall (λ z, 0 ≤ z < 256 ^ 32) zs).
  { repeat (constructor; [apply minimal_range|]). constructor. }
  assert (Hput : foldl (λ ret '(j, z), put_number ret (S j) (be_bytes z)) (replicate (numBytes * 12) 0)
    (imap pair zs) = concat (be_fixed numBytes <$> zs)).
  { exact (put_numbers zs [] 0 Hzs eq_refl). }
  rewrite Hput. eexists _, _, _. split_and!; [done| |apply lookup_insert_eq].
  unfold GT_Unmarshal. rewrite bool_decide_true by (by rewrite length_be_fixed_list). cbn [negb].
  destruct a as [[[x1 x2] [x3 x4] [x5 x6]] [[y1 y2] [y3 y4] [y5 y6]]].
  rewrite (get_number_concat zs 0 (minimal x1)), (get_number_concat zs 1 (minimal x2)),
    (get_number_concat zs 2 (minimal x3)), (get_number_concat zs 3 (minimal x4)),
    (get_number_concat zs 4 (minimal x5)), (get_number_concat zs 5 (minimal x6)),
    (get_number_concat zs 6 (minimal y1)), (get_number_concat zs 7 (minimal y2)),
    (get_number_concat zs 8 (minimal y3)), (get_number_concat zs 9 (minimal y4)),
    (get_number_concat zs 10 (minimal y5)), (get_number_concat zs 11 (minimal y6))
    by (done || apply minimal_range).
  cbn [obind]. done.
Qed.

(** ** The pool of numbers *)

(** A nil pool gives new numbers; the last number put is the next one given, with the
    value it was left with. *)
Record bnPool := { bns : list Z; bn_count : Z }.

Definition bnPool_Get (pool : option bnPool) : Z * option bnPool :=
  match pool with
  | None => (0, None)
  | Some pl =>
      let count := bn_count pl + 1 in
      match reverse (bns pl) with
      | [] => (0, Some {| bns := bns pl; bn_count := count |})
      | bn :: _ => (bn, Some {| bns := take (length (bns pl) - 1) (bns pl); bn_count := count |})
      end
  end.

Definition bnPool_Put (pool : option bnPool) (bn : Z) : option bnPool :=
  match pool with
  | None => None
  | Some pl => Some {| bns := bns pl ++ [bn]; bn_count := bn_count pl - 1 |}
  end.

Definition bnPool_Count (pl : bnPool) : Z := bn_count pl.

(** So the number that [Invert] gets may be any number put before. *)
Lemma bnPool_Get_Put pl bn :
  bnPool_Get (bnPool_Put (Some pl) bn) = (bn, Some pl).
Proof.
  destruct pl as [l c]. unfold bnPool_Get, bnPool_Put, bns, bn_count. rewrite reverse_snoc. do 2 f_equal.
  rewrite length_app, Nat.add_sub, take_app_length. f_equal. lia.
Qed.

(** ** Claims *)

(** C10: G1 implements the group of the curve y² = x³ + 3. For any sequence of
    operations in which no sum is written over its first term, the objects stand for
    the points that the chord-and-tangent law gives, multiples for as many
    additions as the scalar says. The sum of equal points is their double. An operation
    panics exactly if an input is nil or the point to encode is at infinity. *)
Theorem G1_refines_curve ops A s :
  G1_abs s A → Forall op_ok ops →
  (∀ s', G1_run s ops = Ok s' → ∃ A', g1_steps A ops A' ∧ G1_abs s' A') ∧
  (∀ op, G1_exec s op = Panic ↔ ¬ inputs_ok A op) ∧
  (∀ k, 0 ≤ k → times k = Z.to_N k).
Proof.
  intros HA Hok. split_and!.
  - intros s' Hr. by eapply G1_run_sim.
  - intros op. by apply G1_exec_panic.
  - intros k Hk. unfold times. by rewrite BitLen_succ_mod.
Qed.

Definition ex_ops : list g1_op := [OpMult 1 0 5; OpAdd 2 0 1; OpNeg 3 2; OpMarshal 2].
Definition ex_G1 : G1s := {[0%nat := curveGen]}.
Definition store_of (o : outcome unit G1s) : G1s := match o with Ok s => s | _ => ∅ end.
Definition ex_after : G1s := store_of (G1_run ex_G1 ex_ops).

Lemma G1_refines_curve_witness :
  G1_run ex_G1 ex_ops = Ok ex_after ∧
  ∃ A', g1_steps {[0%nat := Some (1, -2) : affine (R := Z)]} ex_ops A' ∧ G1_abs ex_after A'.
Proof.
  assert (Hr : G1_run ex_G1 ex_ops = Ok ex_after) by (vm_compute; reflexivity).
  split; [exact Hr|].
  refine (proj1 (G1_refines_curve ex_ops _ ex_G1 _ _) ex_after Hr).
  - intros i. unfold ex_G1. destruct (decide (i = 0%nat)) as [->|Hi].
    + rewrite !lookup_singleton_eq. exact curveGen_valid.
    + by rewrite !lookup_singleton_ne by congruence.
  - repeat constructor. discriminate.
Defined.

(** Encodings round trip. What [Marshal] writes for a finite point of G1 or G2,
    [Unmarshal] accepts, in any object, as the same point; for an element of GT it
    gives the reduced form of the element. *)
Theorem encodings_roundtrip (s1 : G1s) (s2 : G2s) (sT : GTs) n c1 x1 y1 c2 x2 y2 a e :
  s1 !! n = Some c1 → curve_valid c1 (Some (x1, y1)) →
  s2 !! n = Some c2 → twist_valid c2 (Some (x2, y2)) → sT !! n = Some a →
  (∃ s m s' c, G1_Marshal s1 n = Ok (s, m) ∧ G1_Unmarshal s e m = Ok (s', true) ∧
     s' !! e = Some c ∧ curve_valid c (Some (x1, y1))) ∧
  (∃ s m s' c, G2_Marshal s2 n = Ok (s, m) ∧ G2_Unmarshal s e m = Ok (s', true) ∧
     s' !! e = Some c ∧ twist_valid c (Some (x2, y2))) ∧
  (∃ s m s' b, GT_Marshal sT n = Ok (s, m) ∧ GT_Unmarshal s e m = Ok (s', true) ∧
     s' !! e = Some b ∧ eq12 b a).
Proof.
  intros H1 Hv1 H2 Hv2 HT. split_and!.
  - by eapply G1_Unmarshal_Marshal_at.
  - by eapply G2_Unmarshal_Marshal_at.
  - destruct (GT_Unmarshal_Marshal_at sT n a e HT) as (s & m & s' & Hm & Hu & Hs).
    exists s, m, s', (gfP12_Minimal a). split_and!; [done..|apply gfP12_Minimal_eq].
Qed.

Lemma encodings_roundtrip_witness :
  ∃ s m s' c, G1_Marshal {[0%nat := curveGen]} 0 = Ok (s, m) ∧ G1_Unmarshal s 1 m = Ok (s', true) ∧
    s' !! 1%nat = Some c ∧ curve_valid c (Some (1, -2)).
Proof.
  destruct twistGen_valid as (x & y & Ht).
  refine (proj1 (encodings_roundtrip {[0%nat := curveGen]} {[0%nat := twistGen]} {[0%nat := omega]}
    0 curveGen 1 (-2) twistGen x y omega 1 _ curveGen_valid _ Ht _)); reflexivity.
Defined.

(** Whether object [i] of the store that an operation leaves is on the curve. *)
Definition G1_on_curve (o : outcome unit G1s) (i : nat) : outcome unit bool :=
  let* s := o in let* c := deref s i in let* c' := curve_MakeAffine c in Ok (curve_IsOnCurve c').
Definition G2_on_curve (o : outcome unit G2s) (i : nat) : outcome unit bool :=
  let* s := o in let* c := deref s i in Ok (twist_IsOnCurve (twist_MakeAffine 0 c)).

(** A sum written over its own terms is wrong. [Double] reads [y] of its argument
    after it has written [y] of its receiver, so that adding the generator to itself
    in place gives a pair that is not on the curve, in G1 and in G2, while the same sum
    into another object is a point. *)
Theorem sum_in_place_leaves_curve :
  G1_on_curve (G1_Add {[0%nat := curveGen]} 0 0 0) 0 = Ok false ∧
  G1_on_curve (G1_Add {[0%nat := curveGen]} 1 0 0) 1 = Ok true ∧
  G2_on_curve (G2_Add {[0%nat := twistGen]} 0 0 0) 0 = Ok false ∧
  G2_on_curve (G2_Add {[0%nat := twistGen]} 1 0 0) 1 = Ok true.
Proof. split_and!; vm_compute; reflexivity. Qed.

(** Points at infinity are mishandled. [Marshal] of G1 panics on one, and so does
    [Pair], before the test that would give one; [Marshal] of G2 writes zeros, but
    leaves the object a pair that is neither at infinity nor on the curve. *)
Theorem infinity_mishandled (s1 : G1s) (s2 : G2s) n c1 c2 :
  s1 !! n = Some c1 → curve_valid c1 None → s2 !! n = Some c2 → twist_valid c2 None →
  G1_Marshal s1 n = Panic ∧ (∀ stale q, Pair stale c1 q = Panic) ∧
  ∃ s c, G2_Marshal s2 n = Ok (s, replicate (numBytes * 4) 0) ∧ s !! n = Some c ∧
    twist_IsInfinity c = false ∧ twist_IsOnCurve c = false.
Proof.
  intros H1 Hv1 H2 Hv2. pose proof (curve_MakeAffine_spec c1 None Hv1) as Hp. split_and!.
  - unfold G1_Marshal. rewrite (proj2 (deref_Ok s1 n c1) H1). cbn [obind]. by rewrite Hp.
  - intros stale q. unfold Pair, optimalAte, miller. by rewrite Hp.
  - by eapply G2_Marshal_at_infinity.
Qed.

Lemma infinity_mishandled_witness :
  G1_Marshal {[0%nat := newCurvePoint]} 0 = Panic ∧ twist_valid newTwistPoint None.
Proof.
  assert (Ht : twist_valid newTwistPoint None).
  { split_and!; [by split_and!|by left|]. change (eq2 gfP2_Zero gfP2_Zero). reflexivity. }
  split; [|exact Ht].
  refine (proj1 (infinity_mishandled {[0%nat := newCurvePoint]} {[0%nat := newTwistPoint]} 0
    newCurvePoint newTwistPoint _ newCurvePoint_valid _ Ht)); reflexivity.
Defined.
