(* ===== verification/Hexutil.v ===== *)
(** * Hexadecimal text: common/hexutil, common/bytes.go and common/types.go

    hexutil.go and json.go with encoding/hex, the helpers of bytes.go, and the text
    forms of hashes and addresses. Text is a list of bytes. An [Unmarshal] method gives
    the new value of its receiver, which keeps the old one when there is an error. *)

From Stdlib Require Import Zquot.
From S2P Require Import Prelude Keccakf Sha3 MathBig.
Local Open Scope Z_scope.

(** ** encoding/hex *)

Inductive hexlib_error := InvalidByteError | HexErrLength.

Fixpoint hex_Decode (src : bytes) : bytes * option hexlib_error :=
  match src with
  | [] => ([], None)
  | [c] => ([], Some (match digit 16 c with None => InvalidByteError | Some _ => HexErrLength end))
  | p :: q :: src =>
      match digit 16 p, digit 16 q with
      | Some a, Some b => let '(dst, err) := hex_Decode src in (a * 16 + b :: dst, err)
      | _, _ => ([], Some InvalidByteError)
      end
  end.

Fixpoint hex_Encode (src : bytes) : bytes :=
  match src with
  | [] => []
  | v :: src => hex_char (Z.shiftr v 4) :: hex_char (Z.land v 15) :: hex_Encode src
  end.

(** ** hexutil.go *)

Inductive hex_error :=
| ErrEmptyString | ErrSyntax | ErrMissingPrefix | ErrOddLength | ErrEmptyNumber
| ErrLeadingZero | ErrUint64Range | ErrUintRange | ErrBig256Range
(** [fmt.Errorf] of a wrong length, and [json.UnmarshalTypeError] *)
| ErrFixedLength | ErrNonString | ErrType (e : hex_error).

Definition mapError_num (e : num_error) : hex_error :=
  match e with ErrRangeNum => ErrUint64Range | ErrSyntaxNum => ErrSyntax end.
Definition mapError (e : hexlib_error) : hex_error :=
  match e with InvalidByteError => ErrSyntax | HexErrLength => ErrOddLength end.

Definition has0xPrefix (input : bytes) : bool :=
  match input with
  | c0 :: c1 :: _ => (c0 =? 48) && ((c1 =? 120) || (c1 =? 88))
  | _ => false
  end.

Definition badNibble : Z := 2 ^ 64 - 1.

Definition decodeNibble (c : Z) : Z :=
  if (48 <=? c) && (c <=? 57) then c - 48
  else if (65 <=? c) && (c <=? 70) then c - 65 + 10
  else if (97 <=? c) && (c <=? 102) then c - 97 + 10
  else badNibble.

Definition checkNumber (input : bytes) : outcome hex_error bytes :=
  if (length input =? 0)%nat then Err ErrEmptyString
  else if negb (has0xPrefix input) then Err ErrMissingPrefix
  else
    let input := drop 2 input in
    match input with
    | [] => Err ErrEmptyNumber
    | c :: _ => if (1 <? length input)%nat && (c =? 48) then Err ErrLeadingZero else Ok input
    end.

Definition Decode (input : bytes) : outcome hex_error bytes :=
  if (length input =? 0)%nat then Err ErrEmptyString
  else if negb (has0xPrefix input) then Err ErrMissingPrefix
  else
    match hex_Decode (drop 2 input) with
    | (b, None) => Ok b
    | (_, Some err) => Err (mapError err)
    end.

Definition MustDecode (input : bytes) : outcome hex_error bytes :=
  match Decode input with Ok b => Ok b | _ => Panic end.

Definition Encode (b : bytes) : bytes := [48; 120] ++ hex_Encode b.

Definition DecodeUint64 (input : bytes) : outcome hex_error Z :=
  let* raw := checkNumber input in
  match ParseUint raw 16 with
  | (dec, None) => Ok dec
  | (_, Some err) => Err (mapError_num err)
  end.

Definition EncodeUint64 (i : Z) : bytes := [48; 120] ++ hex_digits i.

Definition bigWordNibbles : nat := 16.

(** One word: the digits from [start] to [end]. *)
Fixpoint nibbles_word (ds : bytes) (w : Z) : outcome hex_error Z :=
  match ds with
  | [] => Ok w
  | c :: ds =>
      let nib := decodeNibble c in
      if nib =? badNibble then Err ErrSyntax
      else nibbles_word ds (wrap 64 (wrap 64 (w * 16) + nib))
  end.

Fixpoint big_words (n : nat) (raw : bytes) (end_ : nat) : outcome hex_error (list Z) :=
  match n with
  | O => Ok []
  | S n =>
      let start := (end_ - bigWordNibbles)%nat in
      let* w := nibbles_word (take (end_ - start) (drop start raw)) 0 in
      let* ws := big_words n raw start in
      Ok (w :: ws)
  end.

(** [SetBits]. *)
Fixpoint words_val (ws : list Z) : Z :=
  match ws with
  | [] => 0
  | w :: ws => w + 2 ^ 64 * words_val ws
  end.

Definition DecodeBig (input : bytes) : outcome hex_error Z :=
  let* raw := checkNumber input in
  if (64 <? length raw)%nat then Err ErrBig256Range
  else
    let* words := big_words (length raw / bigWordNibbles + 1) raw (length raw) in
    Ok (words_val words).

Definition EncodeBig (bigint : Z) : bytes :=
  let nbits := BitLen bigint in
  if nbits =? 0 then [48; 120; 48] else fmt_hex bigint.

(** ** json.go *)

Definition isString (input : bytes) : bool :=
  (2 <=? length input)%nat &&
  match head input, last input with Some a, Some b => (a =? 34) && (b =? 34) | _, _ => false end.

Definition bytesHave0xPrefix (input : bytes) : bool := has0xPrefix input.

Definition checkText (input : bytes) (wantPrefix : bool) : outcome hex_error bytes :=
  if (length input =? 0)%nat then Ok []
  else
    let* input := if bytesHave0xPrefix input then Ok (drop 2 input)
                  else if wantPrefix then Err ErrMissingPrefix else Ok input in
    if negb (length input mod 2 =? 0)%nat then Err ErrOddLength else Ok input.

Definition checkNumberText (input : bytes) : outcome hex_error bytes :=
  if (length input =? 0)%nat then Ok []
  else if negb (bytesHave0xPrefix input) then Err ErrMissingPrefix
  else
    let input := drop 2 input in
    match input with
    | [] => Err ErrEmptyNumber
    | c :: _ => if (1 <? length input)%nat && (c =? 48) then Err ErrLeadingZero else Ok input
    end.

(** Only the errors of hexutil are wrapped. *)
Definition wrapTypeError {A} (r : outcome hex_error A) : outcome hex_error A :=
  match r with
  | Err ErrFixedLength => Err ErrFixedLength
  | Err e => Err (ErrType e)
  | r => r
  end.

Definition unquoted (input : bytes) : bytes := take (length input - 2) (drop 1 input).

Definition Bytes_MarshalText (b : bytes) : bytes := [48; 120] ++ hex_Encode b.

Definition Bytes_UnmarshalText (input : bytes) : outcome hex_error bytes :=
  let* raw := checkText input true in
  match hex_Decode raw with
  | (dec, None) => Ok dec
  | (_, Some err) => Err (mapError err)
  end.

Definition Bytes_UnmarshalJSON (input : bytes) : outcome hex_error bytes :=
  if negb (isString input) then Err ErrNonString
  else wrapTypeError (Bytes_UnmarshalText (unquoted input)).

(** Both functions check all digits before [out] is written. *)
Definition unmarshal_fixed (wantPrefix : bool) (input : bytes) (out : nat) : outcome hex_error bytes :=
  let* raw := checkText input wantPrefix in
  if negb (length raw / 2 =? out)%nat then Err ErrFixedLength
  else if existsb (λ b, decodeNibble b =? badNibble) raw then Err ErrSyntax
  else Ok (hex_Decode raw).1.

Definition UnmarshalFixedText : bytes → nat → outcome hex_error bytes := unmarshal_fixed true.
Definition UnmarshalFixedUnprefixedText : bytes → nat → outcome hex_error bytes := unmarshal_fixed false.

Definition UnmarshalFixedJSON (input : bytes) (out : nat) : outcome hex_error bytes :=
  if negb (isString input) then Err ErrNonString
  else wrapTypeError (UnmarshalFixedText (unquoted input) out).

Definition Big_MarshalText (b : Z) : bytes := EncodeBig b.

Definition Big_UnmarshalText (input : bytes) : outcome hex_error Z :=
  let* raw := checkNumberText input in
  if (64 <? length raw)%nat then Err ErrBig256Range
  else
    let* words := big_words (length raw / bigWordNibbles + 1) raw (length raw) in
    Ok (words_val words).

Definition Big_UnmarshalJSON (input : bytes) : outcome hex_error Z :=
  if negb (isString input) then Err ErrNonString
  else wrapTypeError (Big_UnmarshalText (unquoted input)).

Definition Uint64_MarshalText (b : Z) : bytes := [48; 120] ++ hex_digits b.

Definition Uint64_UnmarshalText (input : bytes) : outcome hex_error Z :=
  let* raw := checkNumberText input in
  if (16 <? length raw)%nat then Err ErrUint64Range
  else nibbles_word raw 0.

Definition Uint64_UnmarshalJSON (input : bytes) : outcome hex_error Z :=
  if negb (isString input) then Err ErrNonString
  else wrapTypeError (Uint64_UnmarshalText (unquoted input)).

(** [uint] has 64 bits. *)
Definition Uint_UnmarshalText (input : bytes) : outcome hex_error Z :=
  match Uint64_UnmarshalText input with
  | Err ErrUint64Range => Err ErrUintRange
  | r => r
  end.

(** ** bytes.go *)

Definition Bytes2Hex (d : bytes) : bytes := hex_Encode d.
Definition Hex2Bytes (str : bytes) : bytes := (hex_Decode str).1.

Definition ToHex (b : bytes) : bytes :=
  let hex := Bytes2Hex b in
  let hex := match hex with [] => [48] | _ => hex end in
  [48; 120] ++ hex.

Definition FromHex (s : bytes) : bytes :=
  if (1 <? length s)%nat then
    let s := if has0xPrefix s then drop 2 s else s in
    let s := if (length s mod 2 =? 1)%nat then 48 :: s else s in
    Hex2Bytes s
  else [].

Definition IsHex (str : bytes) : bool :=
  let l := length str in
  (4 <=? l)%nat && (l mod 2 =? 0)%nat && bool_decide (take 2 str = [48; 120]).

Definition Hex2BytesFixed (str : bytes) (flen : nat) : bytes :=
  let h := (hex_Decode str).1 in
  if (length h =? flen)%nat then h
  else if (flen <? length h)%nat then drop (length h - flen) h
  else copy_at (replicate flen 0) (flen - length h) h.

Definition RightPadBytes (slice : bytes) (l : nat) : bytes :=
  if (l <=? length slice)%nat then slice else copy_at (replicate l 0) 0 slice.

Definition LeftPadBytes (slice : bytes) (l : nat) : bytes :=
  if (l <=? length slice)%nat then slice else copy_at (replicate l 0) (l - length slice) slice.

(** ** types.go *)

Definition HashLength : nat := 32.
Definition AddressLength : nat := 20.

(** [SetBytes] of a hash or an address [h] of the given length: shorter input leaves
    the first bytes of [h]. *)
Definition SetBytes (len : nat) (h b : bytes) : bytes :=
  let b := if (len <? length b)%nat then drop (length b - len) b else b in
  copy_at h (len - length b) b.

Definition Hash_SetBytes : bytes → bytes → bytes := SetBytes HashLength.
Definition Address_SetBytes : bytes → bytes → bytes := SetBytes AddressLength.

Definition BytesToAddress (b : bytes) : bytes := Address_SetBytes (replicate AddressLength 0) b.
Definition HexToAddress (s : bytes) : bytes := BytesToAddress (FromHex s).
Definition HexToHash (s : bytes) : bytes := Hash_SetBytes (replicate HashLength 0) (FromHex s).
Definition BigToHash (b : Z) : bytes := Hash_SetBytes (replicate HashLength 0) (be_bytes (Z.abs b)).

Definition IsHexAddress (s : bytes) : bool :=
  if (length s =? 2 + 2 * AddressLength)%nat && IsHex s then true
  else if (length s =? 2 * AddressLength)%nat && IsHex ([48; 120] ++ s) then true
  else false.

Definition Hash_Hex (h : bytes) : bytes := Encode h.
Definition Hash_UnmarshalText (input : bytes) : outcome hex_error bytes := UnmarshalFixedText input HashLength.
Definition Hash_UnmarshalJSON (input : bytes) : outcome hex_error bytes := UnmarshalFixedJSON input HashLength.
Definition Hash_MarshalText (h : bytes) : bytes := Bytes_MarshalText h.
Definition UnprefixedHash_UnmarshalText (input : bytes) : outcome hex_error bytes :=
  UnmarshalFixedUnprefixedText input HashLength.
Definition UnprefixedHash_MarshalText (h : bytes) : bytes := hex_Encode h.

(** The loop of [Hex] over the digits from the one of index [i] on. *)
Fixpoint checksum_case (hash : bytes) (i : nat) (result : bytes) : outcome hex_error bytes :=
  match result with
  | [] => Ok []
  | c :: result =>
      let* hashByte := hash.[(i / 2)%nat] in
      let hashByte := if (i mod 2 =? 0)%nat then Z.shiftr hashByte 4 else Z.land hashByte 15 in
      let c := if (57 <? c) && (7 <? hashByte) then u8 (c - 32) else c in
      let* rest := checksum_case hash (S i) result in
      Ok (c :: rest)
  end.

Definition Address_Hex `{KeccakF} (a : bytes) : outcome hex_error bytes :=
  let unchecksummed := hex_Encode a in
  let* hash := Keccak256 [unchecksummed] in
  let* result := checksum_case hash 0 unchecksummed in
  Ok ([48; 120] ++ result).

Definition Address_UnmarshalText (input : bytes) : outcome hex_error bytes :=
  UnmarshalFixedText input AddressLength.
Definition Address_UnmarshalJSON (input : bytes) : outcome hex_error bytes :=
  UnmarshalFixedJSON input AddressLength.
Definition Address_MarshalText (a : bytes) : bytes := Bytes_MarshalText a.

(** ** Digits and bytes *)

Definition lowered (s : bytes) : bytes := (λ c, if c =? 88 then 120 else lower c) <$> s.

Lemma digit_lowered c : digit 16 c = digit 16 (if c =? 88 then 120 else lower c).
Proof.
  unfold digit, lower. destruct (Z.eqb_spec c 88) as [->|]; [done|].
  repeat case_match; f_equal; lia.
Qed.

Lemma lowered_digit c d : digit 16 c = Some d → (if c =? 88 then 120 else lower c) = hex_char d.
Proof.
  intros H. destruct (Z.eqb_spec c 88) as [->|]; [done|]. symmetry. by apply hex_char_digit.
Qed.

Lemma digits_val_lowered acc s : digits_val 16 acc s = digits_val 16 acc (lowered s).
Proof.
  revert acc. induction s as [|c s IH]; intros acc; [done|].
  cbn [lowered fmap list_fmap digits_val]. rewrite <-digit_lowered.
  destruct (digit 16 c); [apply IH|done].
Qed.

Lemma lowered_digits s v : digits_val 16 0 s = Some v → lowered s = lower <$> s.
Proof.
  generalize 0. induction s as [|c s IH]; intros acc H; [done|].
  cbn [digits_val] in H. apply bind_Some in H as (d & Hd & H).
  cbn [lowered fmap list_fmap]. f_equal; [|by eapply IH].
  rewrite (lowered_digit _ _ Hd). by apply hex_char_digit.
Qed.

Lemma decodeNibble_digit c :
  decodeNibble c = match digit 16 c with Some d => d | None => badNibble end.
Proof. unfold decodeNibble, digit. repeat case_match; simplify_eq; lia || done. Qed.

Lemma digit_not_bad c d : digit 16 c = Some d → (d =? badNibble) = false.
Proof. intros H%digit_range. unfold badNibble. lia. Qed.

Lemma byte_digits v : is_byte v → hex_char (Z.shiftr v 4) = hex_char (v / 16) ∧ Z.land v 15 = v mod 16 ∧
  0 ≤ v / 16 < 16 ∧ 0 ≤ v mod 16 < 16.
Proof.
  intros [H1 H2]. rewrite Z.shiftr_div_pow2 by lia. change 15 with (Z.ones 4).
  rewrite Z.land_ones by lia. change (2 ^ 4) with 16. split_and!; try done.
  - apply Z.div_pos; lia.
  - apply Z.div_lt_upper_bound; lia.
  - apply Z.mod_pos_bound. lia.
  - apply Z.mod_pos_bound. lia.
Qed.

Lemma length_hex_Encode b : length (hex_Encode b) = (2 * length b)%nat.
Proof. induction b as [|v b IH]; [done|]. cbn [hex_Encode length]. rewrite IH. lia. Qed.

Lemma hex_Decode_Encode b : Forall is_byte b → hex_Decode (hex_Encode b) = (b, None).
Proof.
  induction 1 as [|v b Hv _ IH]; [done|]. cbn [hex_Encode hex_Decode].
  destruct (byte_digits v Hv) as (-> & -> & H1 & H2). rewrite !digit_hex_char, IH by done.
  do 2 f_equal. pose proof (Z.div_mod v 16). lia.
Qed.

Lemma hex_Decode_inv n s b :
  (length s ≤ n)%nat → hex_Decode s = (b, None) → Forall is_byte b ∧ lowered s = hex_Encode b.
Proof.
  revert s b. induction n as [|n IH]; intros [|p [|q s]] b Hn H; cbn [length] in Hn; try lia;
    cbn [hex_Decode] in H; simplify_eq; try (by repeat constructor).
  destruct (digit 16 p) as [x|] eqn:Hp; [|done]. destruct (digit 16 q) as [y|] eqn:Hq; [|done].
  destruct (hex_Decode s) as [dst err] eqn:E. simplify_eq.
  destruct (IH s dst ltac:(lia) E) as [Hb Hs].
  pose proof (digit_range _ _ _ Hp). pose proof (digit_range _ _ _ Hq).
  assert (Hv : is_byte (x * 16 + y)) by (unfold is_byte; lia).
  split; [by constructor|]. cbn [lowered fmap list_fmap hex_Encode].
  destruct (byte_digits _ Hv) as (-> & -> & _).
  rewrite Z.div_add_l, Z.div_small, Z.add_0_r by lia.
  rewrite Z.add_comm, Z.mod_add, Z.mod_small by lia.
  rewrite (lowered_digit _ _ Hp), (lowered_digit _ _ Hq). by do 2 f_equal.
Qed.

Lemma hex_Decode_of_lowered n s :
  (length s ≤ n)%nat → hex_Decode (lowered s) = hex_Decode s.
Proof.
  revert s. induction n as [|n IH]; intros [|p [|q s]] Hn; cbn [length] in Hn; try lia; try done.
  - cbn [lowered fmap list_fmap hex_Decode]. by rewrite <-digit_lowered.
  - cbn [lowered fmap list_fmap hex_Decode]. rewrite <-!digit_lowered.
    fold (lowered s). by rewrite IH by lia.
Qed.

Lemma hex_Decode_iff s b :
  hex_Decode s = (b, None) ↔ Forall is_byte b ∧ lowered s = hex_Encode b.
Proof.
  split; [by apply (hex_Decode_inv (length s))|]. intros [Hb Hs].
  rewrite <-(hex_Decode_of_lowered (length s)), Hs by done. by apply hex_Decode_Encode.
Qed.

(** ** Numbers *)

Lemma prefix_lowered s t :
  lowered s = [48; 120] ++ t ↔ has0xPrefix s = true ∧ lowered (drop 2 s) = t.
Proof.
  destruct s as [|c0 [|c1 s]]; [by split; [|intros [??]]| |].
  { split; [|by intros [??]]. intros [=]. }
  cbn [has0xPrefix drop app lowered fmap list_fmap]. fold (lowered s). split.
  - intros [= H0 H1 Hs]. split; [|done].
    assert (c0 = 48) as -> by (unfold lower in H0; repeat case_match; lia).
    assert (c1 = 120 ∨ c1 = 88) as [-> | ->]; [|done..].
    unfold lower in H1. repeat case_match; lia.
  - intros [[H0%Z.eqb_eq H1]%andb_prop <-]. subst c0. f_equal. f_equal.
    apply orb_prop in H1 as [H1|H1]; apply Z.eqb_eq in H1 as ->; done.
Qed.

Lemma checkNumber_spec s raw :
  checkNumber s = Ok raw ↔
  has0xPrefix s = true ∧ raw = drop 2 s ∧ raw ≠ [] ∧ (head raw = Some 48 → length raw = 1%nat).
Proof.
  unfold checkNumber. destruct (Nat.eqb_spec (length s) 0) as [Hs|_].
  { destruct s; [|done]. split; [done|]. by intros [? _]. }
  destruct (has0xPrefix s); [|by split; [|intros [??]]]. cbn [negb]. cbv zeta.
  destruct (drop 2 s) as [|c t]; [split; [done|]; by intros (_ & -> & ? & _)|].
  assert (Hz : (1 <? length (c :: t))%nat && (c =? 48) = false ↔ (head (c :: t) = Some 48 → length (c :: t) = 1%nat)).
  { cbn [head length]. destruct (Nat.ltb_spec 1 (S (length t))), (Z.eqb_spec c 48) as [->|]; cbn [andb]; split;
      intros H'; try done; try (intros; simplify_eq; lia); specialize (H' ltac:(done)); lia. }
  destruct (_ && _); split; intros H; simplify_eq.
  - destruct H as (_ & -> & _ & H). by apply Hz in H.
  - split_and!; try done. by apply Hz.
  - by destruct H as (_ & -> & _).
Qed.

Lemma nibbles_word_val ds w :
  0 ≤ w → (w + 1) * 16 ^ Z.of_nat (length ds) ≤ 2 ^ 64 →
  nibbles_word ds w = match digits_val 16 w ds with Some v => Ok v | None => Err ErrSyntax end.
Proof.
  revert w. induction ds as [|c ds IH]; intros w Hw Hb; [done|].
  cbn [length] in Hb. rewrite Nat2Z.inj_succ, Z.pow_succ_r in Hb by lia.
  assert (0 < 16 ^ Z.of_nat (length ds)) by (apply Z.pow_pos_nonneg; lia).
  cbn [nibbles_word digits_val]. rewrite decodeNibble_digit.
  destruct (digit 16 c) as [d|] eqn:Hd; [|done]. rewrite (digit_not_bad _ _ Hd).
  pose proof (digit_range _ _ _ Hd). cbn [mbind option_bind].
  set (X := 16 ^ Z.of_nat (length ds)) in *. assert ((w + 1) * 16 ≤ 2 ^ 64) by nia.
  rewrite !wrap_small by (rewrite ?wrap_small; lia). apply IH; [lia|]. fold X. nia.
Qed.

Lemma digits_val_acc acc s : digits_val 16 acc s = (λ v, acc * 16 ^ Z.of_nat (length s) + v) <$> digits_val 16 0 s.
Proof.
  revert acc. induction s as [|c s IH]; intros acc; [cbn; f_equal; lia|].
  cbn [digits_val length]. destruct (digit 16 c) as [d|]; [|done]. cbn [mbind option_bind].
  rewrite (IH (acc * 16 + d)), (IH (0 * 16 + d)). destruct (digits_val 16 0 s); [|done]. cbn. f_equal.
  rewrite Nat2Z.inj_succ, Z.pow_succ_r by lia. lia.
Qed.

Lemma big_words_val n raw e :
  (e ≤ 16 * n)%nat → (e ≤ length raw)%nat →
  (let* ws := big_words n raw e in Ok (words_val ws)) =
  match digits_val 16 0 (take e raw) with Some v => Ok v | None => Err ErrSyntax end.
Proof.
  revert e. induction n as [|n IH]; intros e Hn He.
  { replace e with O by lia. done. }
  cbn [big_words]. unfold bigWordNibbles. set (st := (e - 16)%nat). cbv zeta.
  set (ch := take (e - st) (drop st raw)).
  assert (Hch : length ch = (e - st)%nat) by (unfold ch; rewrite length_take, length_drop; lia).
  assert (Htake : take e raw = take st raw ++ ch).
  { unfold ch. rewrite take_take_drop. f_equal. lia. }
  rewrite nibbles_word_val; [|lia|].
  2: { rewrite Hch, Z.add_0_l, Z.mul_1_l. change (2 ^ 64) with (16 ^ 16). apply Z.pow_le_mono_r; lia. }
  rewrite Htake, digits_val_app. specialize (IH st ltac:(lia) ltac:(lia)).
  destruct (digits_val 16 0 (take st raw)) as [v|] eqn:Ev; cbn [mbind option_bind].
  - rewrite (digits_val_acc v ch). destruct (digits_val 16 0 ch) as [w|]; [|done]. cbn [obind fmap option_fmap option_map].
    destruct (big_words n raw st) as [ws| |]; cbn [obind] in *; simplify_eq. cbn [words_val]. f_equal.
    destruct (decide (16 ≤ e)%nat) as [H16|H16].
    + rewrite Hch. replace (e - st)%nat with 16%nat by lia. change (16 ^ Z.of_nat 16) with (2 ^ 64). ring.
    + assert (Hst : st = O) by lia. rewrite Hst in Ev. cbn in Ev. injection Ev as <-. lia.
  - destruct (digits_val 16 0 ch); [|done]. cbn [obind].
    destruct (big_words n raw st); cbn [obind] in *; simplify_eq; done.
Qed.

Lemma decode_words raw :
  (let* ws := big_words (length raw / bigWordNibbles + 1) raw (length raw) in Ok (words_val ws)) =
  match digits_val 16 0 raw with Some v => Ok v | None => Err ErrSyntax end.
Proof.
  rewrite big_words_val, firstn_all; [done| |done]. unfold bigWordNibbles.
  pose proof (Nat.div_mod_eq (length raw) 16). pose proof (Nat.mod_upper_bound (length raw) 16). lia.
Qed.

Lemma EncodeBig_nonneg z : 0 ≤ z → EncodeBig z = [48; 120] ++ hex_digits z.
Proof.
  intros Hz. unfold EncodeBig. destruct (Z.eqb_spec (BitLen z) 0) as [H0|]; [|by rewrite fmt_hex_nonneg].
  assert (z = 0) as ->; [|done]. pose proof (BitLen_bound z Hz) as Hb. rewrite H0 in Hb. lia.
Qed.

(** Decoding of numbers, from the value of the digits. *)
Lemma number_text s z :
  lowered s = [48; 120] ++ hex_digits z ∧ 0 ≤ z ↔
  ∃ raw, checkNumber s = Ok raw ∧ digits_val 16 0 raw = Some z.
Proof.
  split.
  - intros [H Hz]. apply prefix_lowered in H as [Hp Hl].
    assert (Hv : digits_val 16 0 (drop 2 s) = Some z) by (rewrite digits_val_lowered, Hl; by apply hex_digits_val).
    exists (drop 2 s). split; [|done]. apply checkNumber_spec.
    destruct (hex_digits_head z Hz) as (c & t & E & Hc). rewrite E in Hl.
    assert (Hlen : length (drop 2 s) = hex_len z).
    { transitivity (length (lowered (drop 2 s))); [by unfold lowered; rewrite length_fmap|].
      rewrite Hl, <-E. apply length_hex_fixed. }
    split_and!; [done..| |]; destruct (drop 2 s) as [|c' t'] eqn:Ed; try done.
    cbn [head]. intros [= ->]. rewrite Hlen. cbn in Hl. simplify_eq. by rewrite Hc.
  - intros (raw & Hc & Hv). apply checkNumber_spec in Hc as (Hp & -> & Hne & Hz).
    pose proof (digits_val_bound 16 0 _ z ltac:(lia) ltac:(lia) Hv). split; [|lia].
    apply prefix_lowered. split; [done|]. rewrite (lowered_digits _ _ Hv). symmetry.
    by apply hex_digits_canonical.
Qed.

Lemma raw_length_value raw v n :
  digits_val 16 0 raw = Some v → hex_digits v = lower <$> raw → (0 < n)%nat →
  (length raw ≤ n)%nat ↔ v < 16 ^ Z.of_nat n.
Proof.
  intros Hv Hl Hn. pose proof (digits_val_bound 16 0 raw v ltac:(lia) ltac:(lia) Hv) as Hb.
  apply (f_equal length) in Hl. unfold hex_digits in Hl. rewrite length_hex_fixed, length_fmap in Hl. split.
  - intros H. assert (16 ^ Z.of_nat (length raw) ≤ 16 ^ Z.of_nat n) by (apply Z.pow_le_mono_r; lia). lia.
  - intros H. rewrite <-Hl. apply hex_len_le; [lia|done].
Qed.

Lemma checkNumber_canonical s raw v :
  checkNumber s = Ok raw → digits_val 16 0 raw = Some v → hex_digits v = lower <$> raw.
Proof. intros (_ & _ & Hne & Hz)%checkNumber_spec Hv. by apply hex_digits_canonical. Qed.

Lemma DecodeBig_iff s z :
  DecodeBig s = Ok z ↔ 0 ≤ z < tt256 ∧ lowered s = EncodeBig z.
Proof.
  unfold DecodeBig. split.
  - intros H. destruct (checkNumber s) as [raw| |] eqn:Hc; try done. cbn [obind] in H.
    destruct (Nat.ltb_spec 64 (length raw)) as [|Hl]; [done|]. rewrite decode_words in H.
    destruct (digits_val 16 0 raw) as [v|] eqn:Hv; simplify_eq.
    destruct (proj2 (number_text s z)) as [Hs Hz]; [eauto|].
    split; [split; [done|]|by rewrite EncodeBig_nonneg].
    apply (raw_length_value raw z 64); [done|by eapply checkNumber_canonical|lia..].
  - intros [Hz Hs]. rewrite EncodeBig_nonneg in Hs by lia.
    destruct (proj1 (number_text s z)) as (raw & Hc & Hv); [split; [done|lia]|].
    rewrite Hc. cbn [obind]. destruct (Nat.ltb_spec 64 (length raw)) as [Hl|]; [|by rewrite decode_words, Hv].
    apply (raw_length_value raw z 64) in Hv; [|by eapply checkNumber_canonical|lia].
    destruct Hz as [_ Hz]. change tt256 with (16 ^ Z.of_nat 64) in Hz. apply Hv in Hz. lia.
Qed.

Lemma DecodeUint64_iff s i :
  DecodeUint64 s = Ok i ↔ 0 ≤ i ≤ MaxUint64 ∧ lowered s = EncodeUint64 i.
Proof.
  assert (Hp : ∀ raw, raw ≠ [] →
    match digits_val 16 0 raw with
    | Some v => if decide (v ≤ MaxUint64) then ParseUint raw 16 = (v, None)
                else ParseUint raw 16 = (MaxUint64, Some ErrRangeNum)
    | None => ∃ v e, ParseUint raw 16 = (v, Some e)
    end).
  { intros raw Hne. pose proof (ParseUint_loop_spec 16 0 raw ltac:(lia) ltac:(done)) as H.
    by destruct raw. }
  unfold DecodeUint64, EncodeUint64. split.
  - intros H. destruct (checkNumber s) as [raw| |] eqn:Hc; try done. cbn [obind] in H.
    pose proof (proj1 (checkNumber_spec s raw) Hc) as (_ & _ & Hne & _).
    specialize (Hp raw Hne). destruct (digits_val 16 0 raw) as [v|] eqn:Hv.
    + case_decide; rewrite Hp in H; simplify_eq.
      destruct (proj2 (number_text s i)) as [Hs Hz]; [eauto|]. by split.
    + destruct Hp as (v & e & Hp). by rewrite Hp in H.
  - intros [Hi Hs]. destruct (proj1 (number_text s i)) as (raw & Hc & Hv); [split; [done|lia]|].
    pose proof (proj1 (checkNumber_spec s raw) Hc) as (_ & _ & Hne & _).
    specialize (Hp raw Hne). rewrite Hv, decide_True in Hp by lia. rewrite Hc. cbn [obind]. by rewrite Hp.
Qed.

Lemma Decode_iff s b : Decode s = Ok b ↔ Forall is_byte b ∧ lowered s = Encode b.
Proof.
  unfold Decode, Encode. rewrite prefix_lowered.
  destruct (Nat.eqb_spec (length s) 0) as [Hs|_].
  { destruct s; [|done]. split; [done|]. by intros (_ & ? & _). }
  destruct (has0xPrefix s); [|by split; [|intros (_ & ? & _)]]. cbn [negb].
  pose proof (hex_Decode_iff (drop 2 s)) as Hi. destruct (hex_Decode (drop 2 s)) as [d [e|]].
  - split; [done|]. intros (Hb & _ & Hl). pose proof (proj2 (Hi b) (conj Hb Hl)). by simplify_eq.
  - split.
    + intros [= ->]. by destruct (proj1 (Hi b) eq_refl) as [??].
    + intros (Hb & _ & Hl). pose proof (proj2 (Hi b) (conj Hb Hl)). by simplify_eq.
Qed.

(** ** JSON text *)

Lemma checkNumberText_empty s : s ≠ [] → checkNumberText s = checkNumber s.
Proof. by destruct s. Qed.

Lemma Big_UnmarshalText_iff s z :
  Big_UnmarshalText s = Ok z ↔ s = [] ∧ z = 0 ∨ DecodeBig s = Ok z.
Proof.
  destruct s as [|c s]; [|unfold Big_UnmarshalText; rewrite checkNumberText_empty by done; naive_solver].
  split; [intros [= <-]; by left|]. intros [[_ ->]|?]; done.
Qed.

Lemma Uint64_UnmarshalText_iff s i :
  Uint64_UnmarshalText s = Ok i ↔ s = [] ∧ i = 0 ∨ DecodeUint64 s = Ok i.
Proof.
  destruct s as [|c s]; [split; [intros [= <-]; by left|]; intros [[_ ->]|?]; done|].
  set (t := c :: s). assert (Ht : t ≠ []) by done. clearbody t. rewrite DecodeUint64_iff.
  unfold Uint64_UnmarshalText, EncodeUint64. rewrite checkNumberText_empty by done.
  assert (Hw : ∀ raw, (length raw ≤ 16)%nat → nibbles_word raw 0 =
    match digits_val 16 0 raw with Some v => Ok v | None => Err ErrSyntax end).
  { intros raw Hr. apply nibbles_word_val; [lia|]. rewrite Z.add_0_l, Z.mul_1_l.
    change (2 ^ 64) with (16 ^ 16). apply Z.pow_le_mono_r; lia. }
  split.
  - intros H. right. destruct (checkNumber t) as [raw| |] eqn:Hc; try done. cbn [obind] in H.
    destruct (Nat.ltb_spec 16 (length raw)) as [|Hl]; [done|]. rewrite Hw in H by done.
    destruct (digits_val 16 0 raw) as [v|] eqn:Hv; simplify_eq.
    destruct (proj2 (number_text t i)) as [Hs Hz]; [eauto|]. split; [|done].
    apply (raw_length_value raw i 16) in Hl; [|done|by eapply checkNumber_canonical|lia].
    change (16 ^ Z.of_nat 16) with (2 ^ 64) in Hl. unfold MaxUint64. lia.
  - intros [[? _]|[Hi Hs]]; [done|].
    destruct (proj1 (number_text t i)) as (raw & Hc & Hv); [split; [done|lia]|].
    rewrite Hc. cbn [obind].
    assert (Hl : (length raw ≤ 16)%nat).
    { apply (raw_length_value raw i 16); [done|by eapply checkNumber_canonical|lia|].
      change (16 ^ Z.of_nat 16) with (2 ^ 64). unfold MaxUint64 in Hi. lia. }
    destruct (Nat.ltb_spec 16 (length raw)); [lia|]. by rewrite Hw, Hv.
Qed.

Lemma hex_Decode_length s b : hex_Decode s = (b, None) → length s = (2 * length b)%nat.
Proof.
  intros [_ H]%hex_Decode_iff. apply (f_equal length) in H. unfold lowered in H.
  by rewrite length_fmap, length_hex_Encode in H.
Qed.

(** The text that [checkText] accepts decodes as [Decode] says. *)
Lemma checkText_Decode s b :
  (∃ raw, checkText s true = Ok raw ∧ hex_Decode raw = (b, None)) ↔ s = [] ∧ b = [] ∨ Decode s = Ok b.
Proof.
  destruct s as [|c s].
  { split; [intros (raw & [= <-] & [= <-]); by left|]. intros [[_ ->]|?]; [by exists []|done]. }
  set (t := c :: s). assert ((length t =? 0)%nat = false ∧ t ≠ []) as [Hl Hne] by done. clearbody t.
  unfold checkText, Decode, bytesHave0xPrefix. rewrite Hl. destruct (has0xPrefix t); cbn [obind negb]; cycle 1.
  { split; [by intros (raw & ? & _)|]. by intros [[??]|?]. }
  destruct (hex_Decode (drop 2 t)) as [d e] eqn:E. split.
  - intros (raw & H & Hd). right. destruct (negb _); [done|]. injection H as <-. rewrite Hd in E. by simplify_eq.
  - intros [[??]|H]; [done|]. destruct e; simplify_eq. exists (drop 2 t).
    apply hex_Decode_length in E as Hlen. rewrite Hlen, Nat.mul_comm, Nat.Div0.mod_mul. done.
Qed.

Lemma Bytes_UnmarshalText_iff s b :
  Bytes_UnmarshalText s = Ok b ↔ s = [] ∧ b = [] ∨ Decode s = Ok b.
Proof.
  rewrite <-checkText_Decode. unfold Bytes_UnmarshalText.
  destruct (checkText s true) as [raw| |]; cbn [obind]; try (by split; [|intros (?&?&?)]).
  destruct (hex_Decode raw) as [d [e|]] eqn:E; split.
  - done.
  - intros (? & [= <-] & ?). congruence.
  - intros [= ->]. eauto.
  - intros (? & [= <-] & ?). congruence.
Qed.

Lemma digits_decode n raw :
  (length raw ≤ n)%nat → (length raw mod 2 = 0)%nat →
  existsb (λ b, decodeNibble b =? badNibble) raw = false ↔ (hex_Decode raw).2 = None.
Proof.
  revert raw. induction n as [|n IH]; intros [|p [|q s]] Hn H2; cbn [length] in Hn; try lia; try done.
  assert (Hs : (length s mod 2 = 0)%nat).
  { cbn [length] in H2. replace (S (S (length s))) with (length s + 1 * 2)%nat in H2 by lia.
    by rewrite Nat.Div0.mod_add in H2. }
  specialize (IH s ltac:(lia) Hs). cbn [existsb hex_Decode]. rewrite !decodeNibble_digit.
  destruct (digit 16 p) as [x|] eqn:Hp; [rewrite (digit_not_bad _ _ Hp)|done].
  destruct (digit 16 q) as [y|] eqn:Hq; [rewrite (digit_not_bad _ _ Hq)|done].
  cbn [orb]. rewrite IH. by destruct (hex_Decode s) as [? []].
Qed.

Lemma UnmarshalFixedText_iff s n b :
  UnmarshalFixedText s n = Ok b ↔ length b = n ∧ (s = [] ∧ b = [] ∨ Decode s = Ok b).
Proof.
  rewrite <-checkText_Decode. unfold UnmarshalFixedText, unmarshal_fixed.
  destruct (checkText s true) as [raw| |] eqn:Ec; cbn [obind]; try (by split; [|intros (?&?&?&?)]).
  assert (H2 : (length raw mod 2 = 0)%nat).
  { unfold checkText in Ec. repeat case_match; simplify_eq; [done|..];
      match goal with H : obind ?m _ = _ |- _ => destruct m; cbn [obind] in H end; simplify_eq;
      case_match; simplify_eq; by apply Nat.eqb_eq, negb_false_iff. }
  pose proof (digits_decode (length raw) raw ltac:(done) H2) as Hd.
  destruct (hex_Decode raw) as [d e] eqn:E. cbn [fst snd] in *.
  destruct e as [e|].
  - split.
    + intros H. destruct (negb _); [done|]. destruct (existsb _ raw); [done|]. discriminate (proj1 Hd eq_refl).
    + intros (_ & ? & [= <-] & ?). congruence.
  - rewrite (proj2 Hd eq_refl). apply hex_Decode_length in E as Hlen.
    replace (length raw / 2)%nat with (length d) by (rewrite Hlen, Nat.mul_comm, Nat.div_mul; lia).
    destruct (Nat.eqb_spec (length d) n) as [Hl|Hl]; cbn [negb]; split.
    + intros [= <-]. eauto.
    + intros (_ & ? & [= <-] & ?). congruence.
    + done.
    + intros (Hb & ? & [= <-] & ?). congruence.
Qed.

(** ** Addresses *)

Definition is_hex_char (c : Z) : Prop := 48 ≤ c ≤ 57 ∨ 97 ≤ c ≤ 102.

Lemma hex_Encode_chars b : Forall is_byte b → Forall is_hex_char (hex_Encode b).
Proof.
  induction 1 as [|v b Hv _ IH]; [constructor|]. cbn [hex_Encode].
  destruct (byte_digits v Hv) as (-> & -> & ? & ?). by repeat (apply Forall_cons; split; [by apply hex_char_range|]).
Qed.

Lemma checksum_case_lowered hash i s :
  Forall is_hex_char s → (i + length s ≤ 2 * length hash)%nat →
  ∃ r, checksum_case hash i s = Ok r ∧ lowered r = s.
Proof.
  intros Hs. revert i. induction Hs as [|c s Hc _ IH]; intros i Hi; [by exists []|].
  cbn [length] in Hi. destruct (IH (S i) ltac:(lia)) as (r & Hr & Hl).
  destruct (lookup_lt_is_Some_2 hash (i / 2)) as [h Hh].
  { apply Nat.Div0.div_lt_upper_bound. lia. }
  cbn [checksum_case]. rewrite (index_Some _ _ _ Hh). cbn [obind]. rewrite Hr. cbn [obind].
  eexists. split; [done|]. cbn [lowered fmap list_fmap]. fold (lowered r). rewrite Hl. f_equal.
  unfold is_hex_char in Hc. destruct (Z.ltb_spec 57 c); cbn [andb]; [|unfold lower; repeat case_match; lia].
  destruct (7 <? _); [|unfold lower; repeat case_match; lia].
  rewrite u8_id by (unfold is_byte; lia). unfold lower. repeat case_match; lia.
Qed.

Lemma SetBytes_full n h b : length h = n → length b = n → SetBytes n h b = b.
Proof.
  intros Hh Hb. unfold SetBytes. rewrite Hb, Nat.ltb_irrefl, Hb, Nat.sub_diag.
  unfold copy_at. rewrite take_0, take_ge, drop_ge by lia. by rewrite app_nil_r.
Qed.

Lemma FromHex_prefixed r : (length r mod 2 = 0)%nat → FromHex ([48; 120] ++ r) = Hex2Bytes r.
Proof.
  intros Hr. change (FromHex ([48; 120] ++ r)) with
    (Hex2Bytes (if (length r mod 2 =? 1)%nat then 48 :: r else r)). by rewrite Hr.
Qed.

Lemma quoted s : isString ([34] ++ s ++ [34]) = true ∧ unquoted ([34] ++ s ++ [34]) = s.
Proof.
  unfold isString, unquoted. rewrite !length_app. cbn [length]. split.
  - destruct (Nat.leb_spec 2 (1 + (length s + 1))); [|lia]. cbn [app head].
    rewrite app_comm_cons, last_snoc. done.
  - replace (1 + (length s + 1) - 2)%nat with (length s) by lia. cbn [app drop]. by rewrite drop_0, take_app_length.
Qed.

(** ** Claims *)

(** C16: text forms are exact. A text is accepted as a number of 256 or 64 bits or as a
    string of bytes exactly if it is, up to the case of its letters, the one text that
    the encoder writes for the result; so decoding inverts encoding and numbers
    have one spelling. The JSON forms accept the same texts and the empty text, and
    those of a fixed size only what has that size. *)
Theorem text_forms_exact s :
  (∀ z, DecodeBig s = Ok z ↔ 0 ≤ z < tt256 ∧ lowered s = EncodeBig z) ∧
  (∀ i, DecodeUint64 s = Ok i ↔ 0 ≤ i ≤ MaxUint64 ∧ lowered s = EncodeUint64 i) ∧
  (∀ b, Decode s = Ok b ↔ Forall is_byte b ∧ lowered s = Encode b) ∧
  (∀ z, Big_UnmarshalText s = Ok z ↔ s = [] ∧ z = 0 ∨ DecodeBig s = Ok z) ∧
  (∀ i, Uint64_UnmarshalText s = Ok i ↔ s = [] ∧ i = 0 ∨ DecodeUint64 s = Ok i) ∧
  (∀ b, Bytes_UnmarshalText s = Ok b ↔ s = [] ∧ b = [] ∨ Decode s = Ok b) ∧
  (∀ n b, UnmarshalFixedText s n = Ok b ↔ length b = n ∧ (s = [] ∧ b = [] ∨ Decode s = Ok b)).
Proof.
  split_and!; intros *; eauto using DecodeBig_iff, DecodeUint64_iff, Decode_iff, Big_UnmarshalText_iff,
    Uint64_UnmarshalText_iff, Bytes_UnmarshalText_iff, UnmarshalFixedText_iff.
Qed.

(** An address survives its text forms. [Hex] never panics, whatever the hash; its
    text, with the letters in the case that the checksum says, is a valid address
    and is read back as the same address, also from JSON. *)
Theorem address_text_roundtrip `{KeccakF} a :
  Forall is_byte a → length a = AddressLength →
  ∃ s, Address_Hex a = Ok s ∧ HexToAddress s = a ∧ IsHexAddress s = true ∧
    Address_UnmarshalText s = Ok a ∧ Address_UnmarshalJSON ([34] ++ s ++ [34]) = Ok a ∧
    Address_UnmarshalText (Address_MarshalText a) = Ok a.
Proof.
  intros Ha Hl. unfold Address_Hex. rewrite Keccak256_sponge; cycle 1.
  { eapply Forall_impl; [by apply hex_Encode_chars|]. intros c. unfold is_hex_char, is_byte. lia. }
  cbn [obind]. destruct (checksum_case_lowered (sponge 136 1 (hex_Encode a) 0 32) 0 (hex_Encode a)) as (r & Hr & Hlow).
  { by apply hex_Encode_chars. }
  { rewrite sponge_length, length_hex_Encode, Hl. unfold AddressLength. lia. }
  rewrite Hr. cbn [obind]. exists ([48; 120] ++ r). split; [done|].
  assert (Hrl : length r = (2 * AddressLength)%nat).
  { apply (f_equal length) in Hlow. unfold lowered in Hlow. by rewrite length_fmap, length_hex_Encode, Hl in Hlow. }
  assert (Hd : hex_Decode r = (a, None)) by by apply hex_Decode_iff.
  assert (Hu : ∀ t, lowered t = Encode a → Address_UnmarshalText t = Ok a).
  { intros t Ht. apply UnmarshalFixedText_iff. split; [done|]. right. by apply Decode_iff. }
  split_and!.
  - unfold HexToAddress. rewrite FromHex_prefixed by (by rewrite Hrl). unfold Hex2Bytes. rewrite Hd.
    by apply SetBytes_full.
  - unfold IsHexAddress, IsHex. rewrite length_app, Hrl. done.
  - apply Hu. unfold Encode. by rewrite <-Hlow.
  - destruct (quoted ([48; 120] ++ r)) as [Hs Hq]. unfold Address_UnmarshalJSON, UnmarshalFixedJSON.
    rewrite Hs, Hq. cbn [negb]. fold (Address_UnmarshalText ([48; 120] ++ r)). rewrite Hu; [done|].
    unfold Encode. by rewrite <-Hlow.
  - apply Hu. unfold Address_MarshalText, Bytes_MarshalText, Encode.
    apply prefix_lowered. split; [done|]. by apply hex_Decode_iff, hex_Decode_Encode.
Qed.

Lemma address_text_roundtrip_witness :
  ∃ s, Address_Hex (H := keccakF_go) (replicate 20 171) = Ok s ∧ HexToAddress s = replicate 20 171.
Proof.
  destruct (address_text_roundtrip (replicate 20 171)) as (s & Hs & Hr & _).
  - apply Forall_replicate. split; lia.
  - reflexivity.
  - exists s. split; assumption.
Defined.
