(* ===== verification/Secp256k1Curve.v ===== *)
(** * The signature curve: common/crypto/secp256k1/curve.go

    Curves y² = x³ + b over a prime field with points in affine coordinates, as the
    package implements them for crypto/elliptic: addition and doubling through Jacobian
    coordinates, encodings, and the curve secp256k1. Multiples of points are
    computed by the C function [secp256k1_pubkey_scalar_mul], which is an argument. *)

From Stdlib Require Import Znumtheory Setoid Ring.
From S2P Require Import Prelude Primes Rings Jacobian PrimeField MathBig.
Local Open Scope Z_scope.

Record BitCurve := {
  bc_P : Z; bc_N : Z; bc_B : Z; bc_Gx : Z; bc_Gy : Z; bc_BitSize : nat
}.

Definition IsOnCurve (c : BitCurve) (x y : Z) : bool :=
  let y2 := y * y in
  let y2 := y2 mod bc_P c in
  let x3 := x * x in
  let x3 := x3 * x in
  let x3 := x3 + bc_B c in
  let x3 := x3 mod bc_P c in
  x3 =? y2.

(** [ModInverse] returns nil without an inverse, which [Mul] then reads. *)
Definition affineFromJacobian (c : BitCurve) (p : Z * Z * Z) : outcome unit (Z * Z) :=
  let '(x, y, z) := p in
  match ModInverse z (bc_P c) with
  | None => Panic
  | Some zinv =>
      let zinvsq := zinv * zinv in
      let xOut := x * zinvsq in
      let xOut := xOut mod bc_P c in
      let zinvsq := zinvsq * zinv in
      let yOut := y * zinvsq in
      let yOut := yOut mod bc_P c in
      Ok (xOut, yOut)
  end.

(** [if a.Sign() == -1 { a.Add(a, P) }] *)
Definition fix_sign (c : BitCurve) (a : Z) : Z := if a <? 0 then a + bc_P c else a.

Definition addJacobian (c : BitCurve) (x1 y1 z1 x2 y2 z2 : Z) : Z * Z * Z :=
  let z1z1 := z1 * z1 in
  let z1z1 := z1z1 mod bc_P c in
  let z2z2 := z2 * z2 in
  let z2z2 := z2z2 mod bc_P c in
  let u1 := x1 * z2z2 in
  let u1 := u1 mod bc_P c in
  let u2 := x2 * z1z1 in
  let u2 := u2 mod bc_P c in
  let h := u2 - u1 in
  let h := fix_sign c h in
  let i := Z.shiftl h 1 in
  let i := i * i in
  let j := h * i in
  let s1 := y1 * z2 in
  let s1 := s1 * z2z2 in
  let s1 := s1 mod bc_P c in
  let s2 := y2 * z1 in
  let s2 := s2 * z1z1 in
  let s2 := s2 mod bc_P c in
  let r := s2 - s1 in
  let r := fix_sign c r in
  let r := Z.shiftl r 1 in
  let v := u1 * i in
  let x3 := r in
  let x3 := x3 * x3 in
  let x3 := x3 - j in
  let x3 := x3 - v in
  let x3 := x3 - v in
  let x3 := x3 mod bc_P c in
  let y3 := r in
  let v := v - x3 in
  let y3 := y3 * v in
  let s1 := s1 * j in
  let s1 := Z.shiftl s1 1 in
  let y3 := y3 - s1 in
  let y3 := y3 mod bc_P c in
  let z3 := z1 + z2 in
  let z3 := z3 * z3 in
  let z3 := z3 - z1z1 in
  let z3 := fix_sign c z3 in
  let z3 := z3 - z2z2 in
  let z3 := fix_sign c z3 in
  let z3 := z3 * h in
  let z3 := z3 mod bc_P c in
  (x3, y3, z3).

Definition Add (c : BitCurve) (x1 y1 x2 y2 : Z) : outcome unit (Z * Z) :=
  let z := 1 in
  affineFromJacobian c (addJacobian c x1 y1 z x2 y2 z).

Definition doubleJacobian (c : BitCurve) (x y z : Z) : Z * Z * Z :=
  let a := x * x in
  let b := y * y in
  let c_ := b * b in
  let d := x + b in
  let d := d * d in
  let d := d - a in
  let d := d - c_ in
  let d := d * 2 in
  let e := 3 * a in
  let f := e * e in
  let x3 := 2 * d in
  let x3 := f - x3 in
  let x3 := x3 mod bc_P c in
  let y3 := d - x3 in
  let y3 := e * y3 in
  let y3 := y3 - 8 * c_ in
  let y3 := y3 mod bc_P c in
  let z3 := y * z in
  let z3 := 2 * z3 in
  let z3 := z3 mod bc_P c in
  (x3, y3, z3).

Definition Double (c : BitCurve) (x1 y1 : Z) : outcome unit (Z * Z) :=
  let z1 := 1 in
  affineFromJacobian c (doubleJacobian c x1 y1 z1).

(** The C function gets the point and the scalar, overwrites the point and returns 1
    if it succeeds. The result is nil otherwise. *)
Definition ScalarMult (scalar_mul : bytes → bytes → bytes * Z) (Bx By : Z) (scalar : bytes) :
    outcome unit (option (Z * Z)) :=
  if (32 <? length scalar)%nat then Panic
  else
    let padded := copy_at (replicate 32 0) (32 - length scalar) scalar in
    let point := ReadBits Bx (replicate 32 0) ++ ReadBits By (replicate 32 0) in
    let '(point, res) := scalar_mul point padded in
    let x := be_val (take 32 point) in
    let y := be_val (drop 32 point) in
    if negb (res =? 1) then Ok None else Ok (Some (x, y)).

Definition ScalarBaseMult (scalar_mul : bytes → bytes → bytes * Z) (c : BitCurve) (k : bytes) :
    outcome unit (option (Z * Z)) :=
  ScalarMult scalar_mul (bc_Gx c) (bc_Gy c) k.

Definition byteLen (c : BitCurve) : nat := ((bc_BitSize c + 7) / 8)%nat.

(** [copy(ret[end-len(b):], b)] panics if [b] is longer than [end]. *)
Definition put_before (ret : bytes) (end_ : nat) (b : bytes) : outcome unit bytes :=
  if (end_ <? length b)%nat then Panic else Ok (copy_at ret (end_ - length b) b).

Definition Marshal (c : BitCurve) (x y : Z) : outcome unit bytes :=
  let ret := replicate (1 + 2 * byteLen c) 0 in
  let ret := <[0%nat := 4]> ret in
  let* ret := put_before ret (1 + byteLen c) (be_bytes (Z.abs x)) in
  put_before ret (1 + 2 * byteLen c) (be_bytes (Z.abs y)).

Definition Unmarshal (c : BitCurve) (data : bytes) : option (Z * Z) :=
  if negb (length data =? 1 + 2 * byteLen c)%nat then None
  else
    match data with
    | 4 :: data => Some (be_val (take (byteLen c) data), be_val (drop (byteLen c) data))
    | _ => None
    end.

Definition S256 : BitCurve := {|
  bc_P := 0xFFFFFFFFFFFFFFFFFFFFFFFFFFFFFFFFFFFFFFFFFFFFFFFFFFFFFFFEFFFFFC2F;
  bc_N := 0xFFFFFFFFFFFFFFFFFFFFFFFFFFFFFFFEBAAEDCE6AF48A03BBFD25E8CD0364141;
  bc_B := 0x0000000000000000000000000000000000000000000000000000000000000007;
  bc_Gx := 0x79BE667EF9DCBBAC55A06295CE870B07029BFCDB2DCE28D959F2815B16F81798;
  bc_Gy := 0x483ADA7726A3C4655DA4FBFC0E1108A8FD17B448A68554199C47D08FFB10D4B8;
  bc_BitSize := 256
|}.

(** ** Any curve over a prime field *)

Lemma congr_shiftl1 m a a' : congr m a a' → congr m (Z.shiftl a 1) (a' + a').
Proof. intros H. rewrite Z.shiftl_mul_pow2 by lia. rewrite H. apply eq_congr. ring. Qed.

Lemma congr_fix_sign c a a' : congr (bc_P c) a a' → congr (bc_P c) (fix_sign c a) a'.
Proof.
  intros H. rewrite <-H. unfold fix_sign. case_match; [|done]. exists 1. lia.
Qed.

Lemma congr_mod_drop m a a' : congr m a a' → congr m (a mod m) a'.
Proof. intros H. by rewrite congr_mod. Qed.

(** Finds the number without reductions that a number is congruent to. *)
Ltac reduce_congr :=
  lazymatch goal with
  | |- congr _ (_ mod _) _ => apply congr_mod_drop; reduce_congr
  | |- congr _ (fix_sign _ _) _ => apply congr_fix_sign; reduce_congr
  | |- congr _ (Z.shiftl _ 1) _ => apply congr_shiftl1; reduce_congr
  | |- congr _ (_ + _) _ => eapply congr_add; reduce_congr
  | |- congr _ (_ - _) _ => eapply congr_sub; reduce_congr
  | |- congr _ (_ * _) _ => eapply congr_mul; reduce_congr
  | |- _ => reflexivity
  end.

Section curve.
Context (c : BitCurve) (HP : prime (bc_P c)) (H2 : 2 < bc_P c).
Let R : CommRing Z := zmod_ring (bc_P c).
Let F : @IsField Z R := zmod_field (bc_P c) HP H2.
Existing Instances R F.

Lemma addJacobian_jac x1 y1 z1 x2 y2 z2 :
  jeq (addJacobian c x1 y1 z1 x2 y2 z2) (jac_add (x1, y1, z1) (x2, y2, z2)).
Proof.
  unfold addJacobian. cbv zeta. split_and!; cbn -[Z.mul Z.add Z.sub congr Z.shiftl fix_sign Z.modulo];
    (etransitivity; [reduce_congr|apply eq_congr; ring]).
Qed.

Lemma doubleJacobian_jac x y z : jeq (doubleJacobian c x y z) (jac_double (x, y, z)).
Proof.
  unfold doubleJacobian. cbv zeta. split_and!; cbn -[Z.mul Z.add Z.sub congr Z.modulo];
    (etransitivity; [reduce_congr|apply eq_congr; ring]).
Qed.

Lemma IsOnCurve_spec x y :
  IsOnCurve c x y = true ↔ on_affine (CR := R) (bc_B c) (Some (x, y)).
Proof.
  unfold IsOnCurve. cbv zeta. rewrite Z.eqb_eq, <-congr_iff by lia. cbn. split; intros H; by symmetry.
Qed.

(** The affine point, with reduced coordinates, that a triple stands for. *)
Lemma affineFromJacobian_spec p P :
  jac_repr (CR := R) p P →
  match P with
  | None => affineFromJacobian c p = Panic
  | Some (x, y) => affineFromJacobian c p = Ok (x mod bc_P c, y mod bc_P c)
  end.
Proof.
  destruct p as [[X Y] Z]. unfold affineFromJacobian.
  destruct P as [[x y]|].
  - intros [Hz [HX HY]]. cbn in Hz.
    change (congr (bc_P c) X (x * (Z * Z))) in HX. change (congr (bc_P c) Y (y * (Z * (Z * Z)))) in HY.
    pose proof (ModInverse_spec Z (bc_P c)) as Hs.
    destruct (ModInverse Z (bc_P c)) as [i|] eqn:Hi; [|by apply (ModInverse_prime _ _ HP) in Hi].
    destruct Hs as [_ Hi']; [lia|]. do 2 f_equal; apply congr_iff; try lia.
    + rewrite HX. transitivity (x * (Z * i) * (Z * i)); [apply eq_congr; ring|].
      rewrite Hi'. apply eq_congr. ring.
    + rewrite HY. transitivity (y * (Z * i) * (Z * i) * (Z * i)); [apply eq_congr; ring|].
      rewrite Hi'. apply eq_congr. ring.
  - intros Hz. assert (ModInverse Z (bc_P c) = None) as ->; [|done]. by apply (ModInverse_prime _ _ HP).
Qed.

Lemma affine_repr x y : jac_repr (CR := R) (x, y, 1) (Some (x, y)).
Proof.
  split; [exact (@field_one Z R F)|]. split; [change (congr (bc_P c) x (x * (1 * 1)))|
    change (congr (bc_P c) y (y * (1 * (1 * 1))))]; apply eq_congr; ring.
Qed.

(** A sum with other coordinates is the same sum. *)
Lemma aff_add_mod p q x y :
  aff_add (CR := R) p q (Some (x, y)) → p ≠ None → q ≠ None →
  aff_add (CR := R) p q (Some (x mod bc_P c, y mod bc_P c)).
Proof.
  assert (Hm : ∀ a, congr (bc_P c) (a mod bc_P c) a) by apply congr_mod.
  intros H Hp Hq. inversion H; subst; try done.
  - eapply aff_chord; try done.
    + change (congr (bc_P c) (x mod bc_P c) (l * l - x1 - x2)). by rewrite Hm.
    + change (congr (bc_P c) (y mod bc_P c) (l * (x1 - x mod bc_P c) - y1)). by rewrite !Hm.
  - eapply aff_tangent; try done.
    + change (congr (bc_P c) (x mod bc_P c) (l * l - x1 - x1)). by rewrite Hm.
    + change (congr (bc_P c) (y mod bc_P c) (l * (x1 - x mod bc_P c) - y1)). by rewrite !Hm.
Qed.

Lemma on_jac_affine x y : on_affine (CR := R) (bc_B c) (Some (x, y)) → on_jac (CR := R) (bc_B c) (x, y, 1).
Proof.
  intros H. change (congr (bc_P c) (y * y) (x * x * x + bc_B c)) in H.
  change (congr (bc_P c) (y * y) (x * x * x + bc_B c * (1 * 1 * 1 * (1 * 1 * 1)))).
  rewrite H. apply eq_congr. ring.
Qed.

Lemma IsOnCurve_mod x y :
  on_affine (CR := R) (bc_B c) (Some (x, y)) → IsOnCurve c (x mod bc_P c) (y mod bc_P c) = true.
Proof.
  intros H. apply IsOnCurve_spec. change (congr (bc_P c) (y * y) (x * x * x + bc_B c)) in H.
  change (congr (bc_P c) (y mod bc_P c * (y mod bc_P c))
            (x mod bc_P c * (x mod bc_P c) * (x mod bc_P c) + bc_B c)).
  by rewrite !congr_mod.
Qed.

Lemma Add_spec x1 y1 x2 y2 :
  IsOnCurve c x1 y1 = true → IsOnCurve c x2 y2 = true →
  if decide (congr (bc_P c) x1 x2) then Add c x1 y1 x2 y2 = Panic
  else ∃ x3 y3, Add c x1 y1 x2 y2 = Ok (x3, y3) ∧ 0 ≤ x3 < bc_P c ∧ 0 ≤ y3 < bc_P c ∧
    aff_add (CR := R) (Some (x1, y1)) (Some (x2, y2)) (Some (x3, y3)) ∧ IsOnCurve c x3 y3 = true.
Proof.
  intros H1%IsOnCurve_spec H3%IsOnCurve_spec. unfold Add. cbv zeta.
  pose proof (affine_repr x1 y1) as Hr1. pose proof (affine_repr x2 y2) as Hr2.
  pose proof (addJacobian_jac x1 y1 1 x2 y2 1) as Hj.
  case_decide as Hx.
  - apply (affineFromJacobian_spec _ None). rewrite Hj. unfold jac_repr. rewrite jac_add_z.
    pose proof (same_x (CR := R) (x1, y1, 1) (x2, y2, 1) x1 y1 x2 y2 (proj1 Hr1) (proj1 Hr2) (proj2 Hr1) (proj2 Hr2)) as Hs.
    rewrite (proj2 Hs Hx). apply eq_congr. cbn. ring.
  - destruct (aff_add_total (CR := R) (bc_B c) (Some (x1, y1)) (Some (x2, y2)) H1 H3) as [S HS].
    pose proof (jac_plus_jac_repr (CR := R) _ _ _ _ _ Hr1 Hr2 HS) as Hrep.
    assert (Hplus : jac_plus (CR := R) (x1, y1, 1) (x2, y2, 1) = jac_add (x1, y1, 1) (x2, y2, 1)).
    { unfold jac_plus. rewrite !decide_False; [done|..|apply Hr2|apply Hr1]. intros [Hu _].
      apply Hx. by apply (same_x (CR := R) (x1, y1, 1) (x2, y2, 1) x1 y1 x2 y2 (proj1 Hr1) (proj1 Hr2) (proj2 Hr1) (proj2 Hr2)). }
    rewrite Hplus, <-Hj in Hrep. destruct S as [[x3 y3]|].
    + exists (x3 mod bc_P c), (y3 mod bc_P c). rewrite (affineFromJacobian_spec _ _ Hrep).
      split_and!; try (apply Z.mod_pos_bound; lia); [done|by apply aff_add_mod|].
      apply IsOnCurve_mod. apply (jac_repr_on (CR := R) _ _ _ Hrep). right. rewrite Hj.
      by apply jac_add_on; apply on_jac_affine.
    + exfalso. inversion HS; subst. done.
Qed.

Lemma Double_spec x1 y1 :
  IsOnCurve c x1 y1 = true →
  if decide (congr (bc_P c) y1 0) then Double c x1 y1 = Panic
  else ∃ x3 y3, Double c x1 y1 = Ok (x3, y3) ∧ 0 ≤ x3 < bc_P c ∧ 0 ≤ y3 < bc_P c ∧
    aff_add (CR := R) (Some (x1, y1)) (Some (x1, y1)) (Some (x3, y3)) ∧ IsOnCurve c x3 y3 = true.
Proof.
  intros H1%IsOnCurve_spec. unfold Double. cbv zeta.
  pose proof (affine_repr x1 y1) as Hr1. pose proof (doubleJacobian_jac x1 y1 1) as Hj.
  destruct (aff_add_total (CR := R) (bc_B c) (Some (x1, y1)) (Some (x1, y1)) H1 H1) as [S HS].
  pose proof (jac_double_jac_repr (CR := R) _ _ _ Hr1 HS) as Hrep. rewrite <-Hj in Hrep.
  case_decide as Hy.
  - apply (affineFromJacobian_spec _ None). rewrite Hj. unfold jac_repr. rewrite jac_double_z.
    cbn [fst snd]. change (congr (bc_P c) ((y1 + y1) * 1) 0). by rewrite Hy.
  - destruct S as [[x3 y3]|].
    + exists (x3 mod bc_P c), (y3 mod bc_P c). rewrite (affineFromJacobian_spec _ _ Hrep).
      split_and!; try (apply Z.mod_pos_bound; lia); [done|by apply aff_add_mod|].
      apply IsOnCurve_mod. apply (jac_repr_on (CR := R) _ _ _ Hrep). right. rewrite Hj.
      by apply jac_double_on, on_jac_affine.
    + exfalso. apply Hy. inversion HS as [| | | |? ? ? ? Hxx Hyy]; subst. apply (double_zero (CR := R)).
      change (congr (bc_P c) y1 (- y1)) in Hyy. change (congr (bc_P c) (y1 + y1) 0).
      rewrite Hyy at 1. apply eq_congr. ring.
Qed.
End curve.

(** ** secp256k1 *)

Definition S256_certificate : list step := [
  {| s_number := 107590001; s_base := 2; s_factors := [53; 29; 7] |};
  {| s_number := 1206781; s_base := 2; s_factors := [20113] |};
  {| s_number := 7240687; s_base := 2; s_factors := [1206781] |};
  {| s_number := 255515944373312847190720520512484175977; s_base := 2; s_factors := [107590001; 7240687; 96557] |};
  {| s_number := 205115282021455665897114700593932402728804164701536103180137503955397371; s_base := 2;
     s_factors := [255515944373312847190720520512484175977] |};
  {| s_number := bc_P S256; s_base := 2;
     s_factors := [205115282021455665897114700593932402728804164701536103180137503955397371] |} ].

Lemma S256_prime : prime (bc_P S256).
Proof. eapply (certified S256_certificate). vm_compute. reflexivity. Qed.

Lemma S256_large : 2 < bc_P S256 < 256 ^ 32.
Proof. by vm_compute. Qed.

(** -7 is not a cube: the curve has no point with y = 0, so that doubling a point
    never gives infinity. *)
Lemma S256_no_order_two x : ¬ congr (bc_P S256) (x * x * x) (-7).
Proof.
  assert (Hc : powm (bc_P S256) (-7) ((bc_P S256 - 1) / 3) ≠ 1) by (vm_compute; discriminate).
  assert (H3 : bc_P S256 = 3 * ((bc_P S256 - 1) / 3) + 1) by by vm_compute.
  assert (H0 : ¬ congr (bc_P S256) (-7) 0).
  { rewrite congr_0 by (pose proof S256_large; lia). vm_compute. discriminate. }
  pose proof S256_prime as Hp. pose proof S256_large as [Hl _].
  revert Hc H3 H0 Hp Hl. generalize (bc_P S256) as p. intros p Hc H3 H0 Hp Hl Hx.
  set (k := (p - 1) / 3) in *. apply Hc. rewrite powm_spec by lia. rewrite <-(Z.mod_1_l p) by lia.
  apply congr_iff; [lia|].
  pose proof (fermat p Hp x) as Hf. rewrite H3, Z.pow_add_r, Z.pow_1_r, Z.pow_mul_r in Hf by lia.
  rewrite <-H3 in Hf. assert (Hcube : congr p (x ^ 3) (-7)).
  { rewrite <-Hx. apply eq_congr. ring. }
  rewrite (congr_pow p (x ^ 3) (-7) k) in Hf by (done || lia).
  destruct (prime_unit p Hp x) as [x' Hx'].
  { intros Hx0. apply H0. rewrite <-Hx, Hx0. apply eq_congr. ring. }
  transitivity ((-7) ^ k * (x * x')); [rewrite Hx'; apply eq_congr; ring|].
  rewrite Z.mul_assoc, Hf. done.
Qed.

#[export] Instance S256_ring : CommRing Z := zmod_ring (bc_P S256).

(** C14: the operations on the curve secp256k1. For two points of the curve with
    different x, [Add] gives the point on the chord, reduced; for points with the same
    x, equal points included, it panics, since the formula gives z = 0. [Double] always
    gives the point on the tangent: the curve has no point of order two. *)
Theorem S256_group_law x1 y1 x2 y2 :
  IsOnCurve S256 x1 y1 = true → IsOnCurve S256 x2 y2 = true →
  (¬ congr (bc_P S256) x1 x2 → ∃ x3 y3, Add S256 x1 y1 x2 y2 = Ok (x3, y3) ∧
     0 ≤ x3 < bc_P S256 ∧ 0 ≤ y3 < bc_P S256 ∧
     aff_add (Some (x1, y1)) (Some (x2, y2)) (Some (x3, y3)) ∧ IsOnCurve S256 x3 y3 = true) ∧
  (congr (bc_P S256) x1 x2 → Add S256 x1 y1 x2 y2 = Panic) ∧
  (∃ x3 y3, Double S256 x1 y1 = Ok (x3, y3) ∧ 0 ≤ x3 < bc_P S256 ∧ 0 ≤ y3 < bc_P S256 ∧
     aff_add (Some (x1, y1)) (Some (x1, y1)) (Some (x3, y3)) ∧ IsOnCurve S256 x3 y3 = true).
Proof.
  intros H1 H2. pose proof (Add_spec S256 S256_prime (proj1 S256_large) x1 y1 x2 y2 H1 H2) as HA.
  pose proof (Double_spec S256 S256_prime (proj1 S256_large) x1 y1 H1) as HD. split_and!.
  - intros Hx. by rewrite decide_False in HA.
  - intros Hx. by rewrite decide_True in HA.
  - rewrite decide_False in HD; [done|]. intros Hy. apply (S256_no_order_two x1).
    apply (IsOnCurve_spec S256 (proj1 S256_large)) in H1.
    change (congr (bc_P S256) (y1 * y1) (x1 * x1 * x1 + 7)) in H1. rewrite Hy in H1.
    transitivity (x1 * x1 * x1 + 7 - 7); [apply eq_congr; ring|]. by rewrite <-H1.
Qed.

Lemma S256_group_law_witness :
  ∃ x3 y3, Double S256 (bc_Gx S256) (bc_Gy S256) = Ok (x3, y3) ∧ IsOnCurve S256 x3 y3 = true.
Proof.
  destruct (S256_group_law (bc_Gx S256) (bc_Gy S256) (bc_Gx S256) (bc_Gy S256)) as (_ & _ & x3 & y3 & Hd & _ & _ & _ & Ho);
    [vm_compute; reflexivity..|].
  exists x3, y3. split; assumption.
Defined.

(** ** Encodings *)

Lemma put_before_zeros pre post n z :
  0 ≤ z < 256 ^ Z.of_nat n →
  put_before (pre ++ replicate n 0 ++ post) (length pre + n) (be_bytes z) = Ok (pre ++ be_fixed n z ++ post).
Proof.
  intros Hz. pose proof (byte_len_le z n Hz). unfold put_before. rewrite length_be_bytes.
  destruct (Nat.ltb_spec (length pre + n) (byte_len z)); [lia|]. f_equal.
  rewrite <-(padded_be_bytes z n Hz).
  replace (replicate n 0) with (replicate (n - byte_len z) 0 ++ replicate (byte_len z) 0)
    by (rewrite <-replicate_add; f_equal; lia).
  rewrite <-!app_assoc, !(app_assoc pre).
  replace (length pre + n - byte_len z)%nat with (length (pre ++ replicate (n - byte_len z) 0))
    by (rewrite length_app, length_replicate; lia).
  rewrite copy_at_app by (rewrite length_app, length_replicate, length_be_bytes; lia).
  rewrite length_be_bytes, drop_app_length' by (by rewrite length_replicate). by rewrite <-!app_assoc.
Qed.

Lemma Marshal_bytes c x y :
  0 ≤ x < 256 ^ Z.of_nat (byteLen c) → 0 ≤ y < 256 ^ Z.of_nat (byteLen c) →
  Marshal c x y = Ok ([4] ++ be_fixed (byteLen c) x ++ be_fixed (byteLen c) y).
Proof.
  intros Hx Hy. unfold Marshal. cbv zeta. rewrite !Z.abs_eq by lia. set (n := byteLen c) in *.
  replace (<[0%nat := 4]> (replicate (1 + 2 * n) 0)) with ([4] ++ replicate n 0 ++ replicate n 0).
  2: { rewrite <-replicate_add. cbn [Nat.add replicate insert list_insert app]. do 2 f_equal. lia. }
  pose proof (put_before_zeros [4] (replicate n 0) n x Hx) as E. cbn [length] in E. rewrite E. cbn [obind].
  replace (1 + 2 * n)%nat with (length (4%Z :: be_fixed n x) + n)%nat
    by (cbn [length]; rewrite length_be_fixed; lia).
  pose proof (put_before_zeros (4 :: be_fixed n x) [] n y Hy) as E2. rewrite !app_nil_r in E2. exact E2.
Qed.

Lemma Unmarshal_bytes c x y :
  0 ≤ x < 256 ^ Z.of_nat (byteLen c) → 0 ≤ y < 256 ^ Z.of_nat (byteLen c) →
  Unmarshal c ([4] ++ be_fixed (byteLen c) x ++ be_fixed (byteLen c) y) = Some (x, y).
Proof.
  intros Hx Hy. unfold Unmarshal. rewrite !length_app, !length_be_fixed. cbn [length].
  replace (1 + (byteLen c + byteLen c) =? 1 + 2 * byteLen c)%nat with true
    by (symmetry; apply Nat.eqb_eq; lia). cbn [negb app].
  rewrite take_app_length', drop_app_length' by (by rewrite length_be_fixed).
  by rewrite !be_val_fixed, !Z.mod_small.
Qed.
