(* ===== verification/Crypto.v ===== *)
(** * Keys and signatures: common/crypto/crypto.go, signature_cgo.go and
    common/crypto/secp256k1/secp256.go

    Conversions of keys, signing and recovering, and addresses. libsecp256k1 is C
    code; what the package calls of it is the class [Libsecp256k1], and its documented
    promises are the class [LibsecpLaws]. A key pair has no public key when the
    multiplication fails. *)

From S2P Require Import Prelude Keccakf Sha3 MathBig Hexutil Secp256k1Curve.
Local Open Scope Z_scope.

Class Libsecp256k1 := {
  ec_seckey_verify : bytes → bool;
  (** of the message and the key: the compact signature and the recovery id *)
  ecdsa_sign_recoverable : bytes → bytes → option (bytes * Z);
  (** of the signature with its recovery id and the message *)
  ecdsa_recover_pubkey : bytes → bytes → option bytes;
  pubkey_scalar_mul : bytes → bytes → bytes * Z;
}.

Inductive crypto_error :=
| ErrInvalidMsgLen | ErrInvalidSignatureLen | ErrInvalidRecoveryID | ErrInvalidKey
| ErrSignFailed | ErrRecoverFailed
| ErrKeyLength | ErrHashLength | ErrInvalidHex.

Definition secp256k1_N : Z := 0xfffffffffffffffffffffffffffffffebaaedce6af48a03bbfd25e8cd0364141.
Definition secp256k1_halfN : Z := secp256k1_N / 2.

(** ** crypto/elliptic, for a curve that does not bring its own encodings *)

Definition elliptic_Unmarshal (c : BitCurve) (data : bytes) : option (Z * Z) :=
  match Unmarshal c data with
  | None => None
  | Some (x, y) =>
      if (bc_P c <=? x) || (bc_P c <=? y) then None
      else if negb (IsOnCurve c x y) then None
      else Some (x, y)
  end.

(** It panics on what is not a point of the curve; [(0, 0)] stands for infinity. *)
Definition elliptic_Marshal (c : BitCurve) (x y : Z) : outcome crypto_error bytes :=
  if negb ((x =? 0) && (y =? 0)) && negb (IsOnCurve c x y) then Panic
  else if (256 ^ Z.of_nat (byteLen c) <=? Z.abs x) || (256 ^ Z.of_nat (byteLen c) <=? Z.abs y) then Panic
  else Ok ([4] ++ be_fixed (byteLen c) (Z.abs x) ++ be_fixed (byteLen c) (Z.abs y)).

(** ** secp256.go *)

Section secp256.
Context `{Libsecp256k1}.

Definition checkSignature (sig : bytes) : outcome crypto_error unit :=
  if negb (length sig =? 65)%nat then Err ErrInvalidSignatureLen
  else
    let* v := sig.[64%nat] in
    if 4 <=? v then Err ErrInvalidRecoveryID else Ok tt.

Definition secp_Sign (msg seckey : bytes) : outcome crypto_error bytes :=
  if negb (length msg =? 32)%nat then Err ErrInvalidMsgLen
  else if negb (length seckey =? 32)%nat then Err ErrInvalidKey
  else if negb (ec_seckey_verify seckey) then Err ErrInvalidKey
  else
    match ecdsa_sign_recoverable msg seckey with
    | None => Err ErrSignFailed
    | Some (sigdata, recid) =>
        let sig := replicate 65 0 in
        let sig := copy_at sig 0 (take 64 sigdata) in
        let sig := <[64%nat := u8 recid]> sig in
        Ok sig
    end.

Definition secp_RecoverPubkey (msg sig : bytes) : outcome crypto_error bytes :=
  if negb (length msg =? 32)%nat then Err ErrInvalidMsgLen
  else
    let* _ := checkSignature sig in
    match ecdsa_recover_pubkey sig msg with
    | None => Err ErrRecoverFailed
    | Some pubkey => Ok (copy_at (replicate 65 0) 0 pubkey)
    end.

(** ** crypto.go *)

(** A public key is its coordinates, or nil ones. *)
Record PrivateKey := { prv_D : Z; prv_pub : option (Z * Z) }.

Definition lift_panic {A} (o : outcome unit A) : outcome crypto_error A :=
  match o with Ok a => Ok a | _ => Panic end.

Definition toECDSA (d : bytes) (strict : bool) : outcome crypto_error PrivateKey :=
  if strict && negb (8 * length d =? bc_BitSize S256)%nat then Err ErrKeyLength
  else
    let D := be_val d in
    let* xy := lift_panic (ScalarBaseMult pubkey_scalar_mul S256 d) in
    Ok {| prv_D := D; prv_pub := xy |}.

Definition ToECDSA (d : bytes) : outcome crypto_error PrivateKey := toECDSA d true.
Definition ToECDSAUnsafe (d : bytes) : outcome crypto_error PrivateKey := toECDSA d false.

Definition HexToECDSA (hexkey : bytes) : outcome crypto_error PrivateKey :=
  match hex_Decode hexkey with
  | (b, None) => ToECDSA b
  | _ => Err ErrInvalidHex
  end.

Definition FromECDSA (priv : option PrivateKey) : bytes :=
  match priv with
  | None => []
  | Some priv => PaddedBigBytes (prv_D priv) (bc_BitSize S256 / 8)
  end.

(** nil for no input, else a key whose coordinates are nil if the input is bad *)
Definition ToECDSAPub (pub : bytes) : option (option (Z * Z)) :=
  match pub with
  | [] => None
  | _ => Some (elliptic_Unmarshal S256 pub)
  end.

Definition FromECDSAPub (pub : option (option (Z * Z))) : outcome crypto_error bytes :=
  match pub with
  | Some (Some (x, y)) => elliptic_Marshal S256 x y
  | _ => Ok []
  end.

Definition ValidateSignatureValues (v r s : Z) (homestead : bool) : bool :=
  if (r <? 1) || (s <? 1) then false
  else if homestead && (secp256k1_halfN <? s) then false
  else (r <? secp256k1_N) && (s <? secp256k1_N) && ((v =? 0) || (v =? 1)).

Definition PubkeyToAddress `{KeccakF} (p : option (Z * Z)) : outcome crypto_error bytes :=
  let* pubBytes := FromECDSAPub (Some p) in
  let* body := pubBytes.[1%nat:length pubBytes] in
  let* hash := Keccak256 [body] in
  let* tail := hash.[12%nat:length hash] in
  Ok (BytesToAddress tail).

(** ** signature_cgo.go *)

Definition Ecrecover (hash sig : bytes) : outcome crypto_error bytes := secp_RecoverPubkey hash sig.

Definition SigToPub (hash sig : bytes) : outcome crypto_error (option (Z * Z)) :=
  let* s := Ecrecover hash sig in
  Ok (elliptic_Unmarshal S256 s).

Definition Sign (hash : bytes) (prv : PrivateKey) : outcome crypto_error bytes :=
  if negb (length hash =? 32)%nat then Err ErrHashLength
  else
    let seckey := PaddedBigBytes (prv_D prv) (bc_BitSize S256 / 8) in
    secp_Sign hash seckey.
End secp256.

(** ** The promises of libsecp256k1 *)

(** A valid key has a public key; signing with it succeeds, with a compact
    signature of two numbers in range, the second in the lower half; recovering
    from a signature gives the public key of the signer. *)
Definition public_bytes `{Libsecp256k1} (seckey : bytes) : option (Z * Z) :=
  match ScalarBaseMult pubkey_scalar_mul S256 seckey with
  | Ok xy => xy
  | _ => None
  end.

Class LibsecpLaws `{Libsecp256k1} := {
  seckey_public seckey :
    length seckey = 32%nat → Forall is_byte seckey → ec_seckey_verify seckey = true →
    ∃ x y, public_bytes seckey = Some (x, y) ∧ IsOnCurve S256 x y = true ∧
      0 ≤ x < bc_P S256 ∧ 0 ≤ y < bc_P S256;
  sign_total msg seckey :
    length msg = 32%nat → length seckey = 32%nat → Forall is_byte seckey → ec_seckey_verify seckey = true →
    ∃ r s v, ecdsa_sign_recoverable msg seckey = Some (be_fixed 32 r ++ be_fixed 32 s, v) ∧
      1 ≤ r < secp256k1_N ∧ 1 ≤ s ≤ secp256k1_halfN ∧ 0 ≤ v < 4;
  recover_signed msg seckey sig v x y :
    length msg = 32%nat → length seckey = 32%nat → Forall is_byte seckey → ec_seckey_verify seckey = true →
    ecdsa_sign_recoverable msg seckey = Some (sig, v) → public_bytes seckey = Some (x, y) →
    ecdsa_recover_pubkey (sig ++ [v]) msg = Some ([4] ++ be_fixed 32 x ++ be_fixed 32 y);
}.

(** ** Keys *)

Lemma S256_byteLen : byteLen S256 = 32%nat.
Proof. done. Qed.

Lemma N_below_256 : secp256k1_N < 256 ^ 32.
Proof. by vm_compute. Qed.

Lemma point_coordinates x y :
  0 ≤ x < bc_P S256 → 0 ≤ y < bc_P S256 →
  0 ≤ x < 256 ^ Z.of_nat (byteLen S256) ∧ 0 ≤ y < 256 ^ Z.of_nat (byteLen S256).
Proof. intros Hx Hy. pose proof S256_large. rewrite S256_byteLen. lia. Qed.

(** The encoding of a point. *)
Definition point_bytes (x y : Z) : bytes := [4] ++ be_fixed 32 x ++ be_fixed 32 y.

Lemma length_point_bytes x y : length (point_bytes x y) = 65%nat.
Proof. unfold point_bytes. by rewrite !length_app, !length_be_fixed. Qed.

Lemma elliptic_Unmarshal_point x y :
  IsOnCurve S256 x y = true → 0 ≤ x < bc_P S256 → 0 ≤ y < bc_P S256 →
  elliptic_Unmarshal S256 (point_bytes x y) = Some (x, y).
Proof.
  intros Hc Hx Hy. destruct (point_coordinates x y Hx Hy) as [Hx' Hy']. unfold elliptic_Unmarshal.
  assert (Unmarshal S256 (point_bytes x y) = Some (x, y)) as -> by exact (Unmarshal_bytes S256 x y Hx' Hy').
  destruct (Z.leb_spec (bc_P S256) x); [lia|]. destruct (Z.leb_spec (bc_P S256) y); [lia|].
  by rewrite Hc.
Qed.

Lemma elliptic_Marshal_point x y :
  IsOnCurve S256 x y = true → 0 ≤ x < bc_P S256 → 0 ≤ y < bc_P S256 →
  elliptic_Marshal S256 x y = Ok (point_bytes x y).
Proof.
  intros Hc Hx Hy. destruct (point_coordinates x y Hx Hy) as [Hx' Hy']. unfold elliptic_Marshal.
  rewrite Hc, andb_false_r, !Z.abs_eq by lia.
  destruct (Z.leb_spec (256 ^ Z.of_nat (byteLen S256)) x); [lia|].
  destruct (Z.leb_spec (256 ^ Z.of_nat (byteLen S256)) y); [lia|]. done.
Qed.

Lemma PaddedBigBytes_val d : length d = 32%nat → Forall is_byte d → PaddedBigBytes (be_val d) 32 = d.
Proof.
  intros Hl Hd. pose proof (be_val_bound d Hd) as Hb. rewrite Hl in Hb.
  rewrite PaddedBigBytes_spec, Z.abs_eq, decide_True by lia.
  rewrite <-Hl at 1. by apply be_fixed_val.
Qed.

Section keys.
Context `{Libsecp256k1}.

Lemma ToECDSA_32 d :
  length d = 32%nat → ToECDSA d = Ok {| prv_D := be_val d; prv_pub := public_bytes d |}.
Proof.
  intros Hl. unfold ToECDSA, toECDSA, public_bytes, ScalarBaseMult, ScalarMult. rewrite Hl.
  cbn [andb negb Nat.mul Nat.eqb bc_BitSize S256 Nat.ltb Nat.leb].
  by destruct (pubkey_scalar_mul _ _) as [point res], (negb (res =? 1)).
Qed.
End keys.

Lemma copy_at_all (l z : bytes) : length l = length z → copy_at z 0 l = l.
Proof.
  intros Hl. unfold copy_at. rewrite take_0, take_ge, drop_ge by lia. by rewrite app_nil_r.
Qed.

Lemma copy_at_head (l : bytes) n m : length l = n → copy_at (replicate (n + m) 0) 0 l = l ++ replicate m 0.
Proof.
  intros <-. unfold copy_at. rewrite length_replicate, take_0, take_ge, drop_replicate by lia.
  cbn [app]. do 2 f_equal. lia.
Qed.

Lemma insert_last (l : bytes) n x : length l = n → <[n := x]> (l ++ [0]) = l ++ [x].
Proof. intros <-. rewrite <-(Nat.add_0_r (length l)) at 1. by rewrite insert_app_r. Qed.

(** Keys survive their encodings. A private key of 32 bytes is read and written
    back unchanged, from bytes and from hexadecimal text; a public key on the
    curve is written and read back, and only points of the curve are read. *)
Theorem keys_roundtrip `{Libsecp256k1} d :
  length d = 32%nat → Forall is_byte d →
  (∃ prv, ToECDSA d = Ok prv ∧ HexToECDSA (hex_Encode d) = Ok prv ∧ FromECDSA (Some prv) = d) ∧
  (∀ x y, IsOnCurve S256 x y = true → 0 ≤ x < bc_P S256 → 0 ≤ y < bc_P S256 →
     ∃ b, FromECDSAPub (Some (Some (x, y))) = Ok b ∧ ToECDSAPub b = Some (Some (x, y))) ∧
  (∀ b x y, ToECDSAPub b = Some (Some (x, y)) → IsOnCurve S256 x y = true ∧ length b = 65%nat).
Proof.
  intros Hl Hd. split_and!.
  - eexists. split; [by apply ToECDSA_32|]. split.
    + unfold HexToECDSA. rewrite hex_Decode_Encode by done. by apply ToECDSA_32.
    + by apply PaddedBigBytes_val.
  - intros x y Hc Hx Hy. exists (point_bytes x y). split; [by apply elliptic_Marshal_point|].
    unfold ToECDSAPub. pose proof (elliptic_Unmarshal_point x y Hc Hx Hy) as Hu.
    destruct (point_bytes x y) eqn:E; [by apply (f_equal length) in E; rewrite length_point_bytes in E|].
    by rewrite Hu.
  - intros b x y Hb. unfold ToECDSAPub in Hb. destruct b as [|c b]; [done|]. set (t := c :: b) in *. clearbody t.
    injection Hb as Hb. unfold elliptic_Unmarshal in Hb. destruct (Unmarshal S256 t) as [[x' y']|] eqn:Hu; [|done].
    destruct (_ || _); [done|]. destruct (IsOnCurve S256 x' y') eqn:Hc; [|done].
    injection Hb as -> ->. split; [exact Hc|].
    unfold Unmarshal in Hu. destruct (Nat.eqb_spec (length t) (1 + 2 * byteLen S256)) as [Hlen|]; [|done].
    rewrite Hlen. reflexivity.
Qed.

(** A library that knows one key, the number one. *)
Definition one_key : bytes := be_fixed 32 1.
Definition ex_lib : Libsecp256k1 := {|
  ec_seckey_verify d := bool_decide (d = one_key);
  ecdsa_sign_recoverable _ _ := Some (be_fixed 32 1 ++ be_fixed 32 1, 0);
  ecdsa_recover_pubkey _ _ := Some (point_bytes (bc_Gx S256) (bc_Gy S256));
  pubkey_scalar_mul point scalar := (point, if bool_decide (scalar = one_key) then 1 else 0);
|}.

Lemma ex_laws : LibsecpLaws (H := ex_lib).
Proof.
  assert (Hpub : @public_bytes ex_lib one_key = Some (bc_Gx S256, bc_Gy S256)) by (vm_compute; reflexivity).
  split.
  - intros d _ _ Hd%bool_decide_eq_true. subst d. exists (bc_Gx S256), (bc_Gy S256).
    split_and!; [exact Hpub|vm_compute; reflexivity|by vm_compute..].
  - intros msg d _ _ _ _. exists 1, 1, 0. split_and!; [reflexivity|by vm_compute..].
  - intros msg d sig v x y _ _ _ Hd%bool_decide_eq_true _ Hp. subst d. rewrite Hpub in Hp. by injection Hp as <- <-.
Qed.

(** ** Signing and recovering *)

Section signing.
Context `{HL : Libsecp256k1} {LW : LibsecpLaws}.

(** What [Sign] gives, and what is recovered from it. *)
Lemma Sign_recover hash d :
  length hash = 32%nat → length d = 32%nat → Forall is_byte d → ec_seckey_verify d = true →
  ∃ r s v x y, Sign hash {| prv_D := be_val d; prv_pub := public_bytes d |} =
      Ok (be_fixed 32 r ++ be_fixed 32 s ++ [v]) ∧
    1 ≤ r < secp256k1_N ∧ 1 ≤ s ≤ secp256k1_halfN ∧ 0 ≤ v < 4 ∧
    public_bytes d = Some (x, y) ∧ IsOnCurve S256 x y = true ∧ 0 ≤ x < bc_P S256 ∧ 0 ≤ y < bc_P S256 ∧
    Ecrecover hash (be_fixed 32 r ++ be_fixed 32 s ++ [v]) = Ok (point_bytes x y).
Proof.
  intros Hh Hl Hd Hv. destruct (seckey_public d Hl Hd Hv) as (x & y & Hp & Hc & Hx & Hy).
  destruct (sign_total hash d Hh Hl Hd Hv) as (r & s & v & Hs & Hr & Hs' & Hv4).
  pose proof (recover_signed hash d _ v x y Hh Hl Hd Hv Hs Hp) as Hrec. rewrite <-app_assoc in Hrec.
  assert (H64 : length (be_fixed 32 r ++ be_fixed 32 s) = 64%nat) by (by rewrite length_app, !length_be_fixed).
  assert (H65 : length (be_fixed 32 r ++ be_fixed 32 s ++ [v]) = 65%nat) by (by rewrite !length_app, !length_be_fixed).
  exists r, s, v, x, y. split_and!; try done; try lia.
  - unfold Sign, secp_Sign. cbn [prv_D]. rewrite Hh. change (bc_BitSize S256 / 8)%nat with 32%nat.
    rewrite PaddedBigBytes_val, Hl, Hv, Hs by done. cbn [Nat.eqb negb]. cbv zeta. f_equal.
    rewrite take_ge by (rewrite H64; lia). change (replicate 65 0) with (replicate (64 + 1) 0).
    rewrite (copy_at_head _ 64 1) by done. cbn [replicate]. rewrite insert_last by done.
    rewrite u8_id by (unfold is_byte; lia). by rewrite <-app_assoc.
  - unfold Ecrecover, secp_RecoverPubkey, checkSignature. rewrite Hh, H65. cbn [Nat.eqb negb].
    rewrite (index_Some _ 64 v); cycle 1.
    { rewrite app_assoc, lookup_app_r, H64 by (rewrite H64; done). done. }
    cbn [obind]. destruct (Z.leb_spec 4 v); [lia|]. cbn [obind]. rewrite Hrec.
    change ([4] ++ be_fixed 32 x ++ be_fixed 32 y) with (point_bytes x y).
    by rewrite copy_at_all by apply length_point_bytes.
Qed.
End signing.
