(* ===== verification/TxSigner.v ===== *)
(** * Signatures of transactions: blockchain/types/tx_signer.go and QuickSigner.go

    The signer with its chain id, recovery of the sender's address, and the pool of
    queues that recovers in the background. The C library is the class
    [Libsecp256k1]. *)

From S2P Require Import Prelude Keccakf Sha3 RlpSpec RlpEncode TrieSpec TrieHasher TrieMap Types MathBig Hexutil Secp256k1Curve Crypto.
Local Open Scope Z_scope.

Inductive signer_error :=
| ErrInvalidSig | ErrSignCheckFailed | ErrInvalidPublicKey | ErrInvalidAsynsinger.

(** ** QuickSigner.go *)

Record RecoverPubkey := { rp_Hash : bytes; rp_Sig : bytes }.

(** The queue of each task, of at most [queue_size] entries, and the next to use. *)
Record QSHandle := { qs_maxThNum : nat; qs_thPool : list (list RecoverPubkey); qs_idx : nat }.

Definition queue_size : nat := Z.to_nat 1000000.

Fixpoint post_from (qs : QSHandle) (rs : RecoverPubkey) (i rounds : nat) : QSHandle * bool :=
  match rounds with
  | O => (qs, false)
  | S rounds =>
      let idx := ((qs_idx qs + i) mod qs_maxThNum qs)%nat in
      match qs_thPool qs !! idx with
      | Some queue =>
          if (length queue <? queue_size)%nat
          then ({| qs_maxThNum := qs_maxThNum qs; qs_thPool := <[idx := queue ++ [rs]]> (qs_thPool qs);
                   qs_idx := S (qs_idx qs) |}, true)
          else post_from qs rs (S i) rounds
      | None => (qs, false)
      end
  end.

Definition postToSoft (qs : QSHandle) (rs : RecoverPubkey) : QSHandle * bool :=
  post_from qs rs 0 (qs_maxThNum qs).

(** [Init] on a machine with [cpus] processors. *)
Definition QSHandle_Init (cpus : nat) : QSHandle :=
  let maxThNum := if (2 <? cpus)%nat then (cpus - 1)%nat else 2%nat in
  {| qs_maxThNum := maxThNum; qs_thPool := replicate maxThNum []; qs_idx := 0 |}.

Section signer.
Context `{Libsecp256k1} `{KeccakF}.

(** [copy(sig[end-len(b):end], b)] *)
Definition put_part (sig : bytes) (end_ : nat) (b : bytes) : outcome signer_error bytes :=
  match put_before sig end_ b with Ok sig => Ok sig | _ => Panic end.

Definition signature_of (r s : bytes) (v : Z) : outcome signer_error bytes :=
  let sig := replicate 65 0 in
  let* sig := put_part sig 32 r in
  let* sig := put_part sig 64 s in
  Ok (<[64%nat := v]> sig).

Definition softRecoverPubkey (hash r s : bytes) (v : Z) : outcome signer_error bytes :=
  let* sig := signature_of r s v in
  match Ecrecover hash sig with
  | Ok pub => Ok (copy_at (replicate 65 0) 0 pub)
  | Err _ => Err ErrSignCheckFailed
  | Panic => Panic
  end.

Definition ValidateSign : bytes → bytes → bytes → Z → outcome signer_error bytes := softRecoverPubkey.

(** The result of [postToSoft] is not used. *)
Definition ASyncValidateSign (qs : QSHandle) (hash r s : bytes) (v : Z) : outcome signer_error QSHandle :=
  let* sig := signature_of r s v in
  Ok (postToSoft qs {| rp_Hash := copy_at (replicate 32 0) 0 hash; rp_Sig := sig |}).1.

(** One round of a task: the error is not used, and the address is dropped. *)
Definition asyncSoftRecoverPubTask (rs : RecoverPubkey) : outcome signer_error bytes :=
  let pub := match Ecrecover (rp_Hash rs) (rp_Sig rs) with Ok pub => pub | _ => [] end in
  let* body := pub.[1%nat:length pub] in
  let* hash := Keccak256 [body] in
  let* tail := hash.[12%nat:length hash] in
  Ok (copy_at (replicate 20 0) 0 tail).

(** ** tx_signer.go *)

Record QSSigner := { chainId : Z; chainIdMul : Z }.

Definition NewQSSigner (chainId : option Z) : QSSigner :=
  let chainId := default 0 chainId in
  {| chainId := chainId; chainIdMul := chainId * 2 |}.

Definition QSSigner_Equal (s s2 : QSSigner) : bool := chainId s2 =? chainId s.

Definition SignatureValues (s : QSSigner) (sig : bytes) : outcome signer_error (Z * Z * Z) :=
  if negb (length sig =? 65)%nat then Panic
  else
    let R := be_val (take 32 sig) in
    let S := be_val (take 32 (drop 32 sig)) in
    let* v := sig.[64%nat] in
    let V := u8 (v + 27) in
    let V := if negb (chainId s =? 0) then u8 (v + 35) + chainIdMul s else V in
    Ok (R, S, V).

Definition QSSigner_Hash (s : QSSigner) (payload : bytes) : outcome rlp_error bytes :=
  rlpHash (GSlice false [GIface (GBytes payload); GIface (GBig (chainId s)); GIface (GUint 0); GIface (GUint 0)]).

(** [Uint64] of a number: the low word of the absolute value *)
Definition low_word (x : Z) : Z := wrap 64 (Z.abs x).

Definition recoverPlain (sighash : bytes) (R S Vb : Z) : outcome signer_error bytes :=
  if 8 <? BitLen Vb then Err ErrInvalidSig
  else
    let V := u8 (wrap 64 (low_word Vb - 27)) in
    if negb (ValidateSignatureValues V R S true) then Err ErrInvalidSig
    else
      let r := be_bytes (Z.abs R) in
      let s := be_bytes (Z.abs S) in
      let* pub := ValidateSign sighash r s V in
      match pub with
      | 4 :: body =>
          let* hash := Keccak256 [body] in
          let* tail := hash.[12%nat:length hash] in
          Ok (copy_at (replicate 20 0) 0 tail)
      | _ => Err ErrInvalidPublicKey
      end.

Definition ASynrecoverPlain (qs : QSHandle) (sighash : bytes) (R S Vb : Z) : outcome signer_error QSHandle :=
  if 8 <? BitLen Vb then Err ErrInvalidSig
  else
    let V := u8 (wrap 64 (low_word Vb - 27)) in
    if negb (ValidateSignatureValues V R S true) then Err ErrInvalidSig
    else
      let r := be_bytes (Z.abs R) in
      let s := be_bytes (Z.abs S) in
      ASyncValidateSign qs sighash r s V.

Definition deriveChainId (v : Z) : Z :=
  if BitLen v <=? 64 then
    let v := low_word v in
    if (v =? 27) || (v =? 28) then 0
    else wrap 64 (v - 35) / 2
  else
    let v := v - 35 in
    v / 2.
End signer.

(** ** Signatures *)

Section recover.
Context `{HL : Libsecp256k1} `{HK : KeccakF}.

Lemma signature_of_values r s v :
  0 ≤ r < 256 ^ 32 → 0 ≤ s < 256 ^ 32 →
  signature_of (be_bytes r) (be_bytes s) v = Ok (be_fixed 32 r ++ be_fixed 32 s ++ [v]).
Proof.
  intros Hr Hs. unfold signature_of. cbv zeta. unfold put_part.
  assert (put_before (replicate 65 0) 32 (be_bytes r) = Ok (be_fixed 32 r ++ replicate 33 0)) as ->
    by exact (put_before_zeros [] (replicate 33 0) 32 r Hr).
  cbn [obind].
  assert (put_before (be_fixed 32 r ++ replicate 33 0) 64 (be_bytes s) = Ok (be_fixed 32 r ++ be_fixed 32 s ++ [0])) as ->
    by exact (put_before_zeros (be_fixed 32 r) [0] 32 s Hs).
  cbn [obind]. rewrite app_assoc, insert_last by (by rewrite length_app, !length_be_fixed).
  by rewrite <-app_assoc.
Qed.

(** The last bytes of the hash, as both files compute it. *)
Lemma hash_tail {E A} (body : bytes) (k : bytes → outcome E A) :
  Forall is_byte body →
  (let* hash := Keccak256 [body] in let* tail := hash.[12%nat:length hash] in k tail) =
  k (drop 12 (sponge 136 1 body 0 32)).
Proof.
  intros Hb. rewrite Keccak256_sponge by done. cbn [obind]. rewrite sponge_length.
  rewrite slice_Ok by (rewrite sponge_length; lia). cbn [obind].
  by rewrite take_ge by (rewrite length_drop, sponge_length; lia).
Qed.

Lemma point_body x y : Forall is_byte (be_fixed 32 x ++ be_fixed 32 y).
Proof. apply Forall_app. split; apply be_fixed_byte. Qed.

(** Address of a point, by both ways. *)
Definition point_address (x y : Z) : bytes := drop 12 (sponge 136 1 (be_fixed 32 x ++ be_fixed 32 y) 0 32).

Lemma length_point_address x y : length (point_address x y) = 20%nat.
Proof. unfold point_address. by rewrite length_drop, sponge_length. Qed.
Lemma PubkeyToAddress_point x y :
  IsOnCurve S256 x y = true → 0 ≤ x < bc_P S256 → 0 ≤ y < bc_P S256 →
  PubkeyToAddress (Some (x, y)) = Ok (point_address x y).
Proof.
  intros Hc Hx Hy. unfold PubkeyToAddress, FromECDSAPub. rewrite elliptic_Marshal_point by done.
  cbn [obind]. rewrite length_point_bytes, slice_Ok by (rewrite length_point_bytes; lia). cbn [obind].
  rewrite take_ge by (rewrite length_drop, length_point_bytes; lia).
  change (drop 1 (point_bytes x y)) with (be_fixed 32 x ++ be_fixed 32 y).
  rewrite hash_tail by apply point_body.
  fold (point_address x y). unfold BytesToAddress, Address_SetBytes.
  by rewrite SetBytes_full by (done || apply length_point_address).
Qed.

Lemma recoverPlain_point hash r s v x y :
  1 ≤ r < secp256k1_N → 1 ≤ s ≤ secp256k1_halfN → 0 ≤ v < 2 →
  Ecrecover hash (be_fixed 32 r ++ be_fixed 32 s ++ [v]) = Ok (point_bytes x y) →
  recoverPlain hash r s (v + 27) = Ok (point_address x y).
Proof.
  intros Hr Hs Hv He. pose proof N_below_256 as HN.
  assert (Hhalf : secp256k1_halfN < secp256k1_N) by by vm_compute.
  unfold recoverPlain. assert (8 <? BitLen (v + 27) = false) as ->.
  { apply Z.ltb_ge, BitLen_le; [lia|]. change (2 ^ 8) with 256. lia. }
  assert (u8 (wrap 64 (low_word (v + 27) - 27)) = v) as ->.
  { unfold low_word. rewrite Z.abs_eq, (wrap_small 64 (v + 27)), (wrap_small 64) by lia.
    replace (v + 27 - 27) with v by lia. apply u8_id. unfold is_byte. lia. }
  assert (ValidateSignatureValues v r s true = true) as ->.
  { unfold ValidateSignatureValues. repeat (case_cmp; cbn [orb andb]; try lia). }
  cbn [negb]. cbv zeta. rewrite !Z.abs_eq by lia. unfold ValidateSign, softRecoverPubkey.
  rewrite signature_of_values by lia. cbn [obind]. rewrite He.
  rewrite copy_at_all by apply length_point_bytes. cbn [obind]. unfold point_bytes. cbn [app].
  rewrite hash_tail by apply point_body.
  fold (point_address x y). by rewrite copy_at_all by (rewrite length_replicate; apply length_point_address).
Qed.

Lemma SignatureValues_signed sg r s v :
  0 ≤ r < 256 ^ 32 → 0 ≤ s < 256 ^ 32 → 0 ≤ v < 4 →
  SignatureValues sg (be_fixed 32 r ++ be_fixed 32 s ++ [v]) =
    Ok (r, s, if chainId sg =? 0 then v + 27 else v + 35 + chainIdMul sg).
Proof.
  intros Hr Hs Hv. unfold SignatureValues.
  assert (length (be_fixed 32 r ++ be_fixed 32 s ++ [v]) = 65%nat) as -> by (by rewrite !length_app, !length_be_fixed).
  cbn [Nat.eqb negb]. cbv zeta. rewrite (index_Some _ 64 v); cycle 1.
  { rewrite app_assoc, lookup_app_r by (rewrite length_app, !length_be_fixed; lia).
    by rewrite length_app, !length_be_fixed. }
  cbn [obind]. rewrite take_app_length', drop_app_length', take_app_length' by (by rewrite length_be_fixed).
  rewrite !be_val_fixed, !Z.mod_small by done. rewrite !u8_id by (unfold is_byte; lia).
  by destruct (chainId sg =? 0).
Qed.

Lemma deriveChainId_signed v c : 0 ≤ v < 2 → 0 < c → deriveChainId (v + 35 + c * 2) = c.
Proof.
  intros Hv Hc. unfold deriveChainId.
  assert (Hdiv : (v + c * 2) / 2 = c) by (rewrite Z.div_add, Z.div_small by lia; lia).
  destruct (Z.leb_spec (BitLen (v + 35 + c * 2)) 64) as [Hl|Hl].
  - apply BitLen_le in Hl; [|lia]. unfold low_word. rewrite Z.abs_eq in * by lia.
    rewrite (wrap_small 64 (v + 35 + c * 2)) by lia. repeat (case_cmp; cbn [orb]; try lia).
    rewrite wrap_small by lia. rewrite <-Hdiv at 2. f_equal. lia.
  - rewrite <-Hdiv at 2. f_equal. lia.
Qed.

(** A signature with a chain id is not accepted by [recoverPlain]. *)
Lemma recoverPlain_chain_id hash r s v c :
  0 ≤ v < 4 → 0 < c → recoverPlain hash r s (v + 35 + c * 2) = Err ErrInvalidSig.
Proof.
  intros Hv Hc. unfold recoverPlain. destruct (Z.ltb_spec 8 (BitLen (v + 35 + c * 2))) as [|Hl]; [done|].
  apply BitLen_le in Hl; [|lia]. rewrite Z.abs_eq in Hl by lia. change (2 ^ 8) with 256 in Hl.
  assert (u8 (wrap 64 (low_word (v + 35 + c * 2) - 27)) = v + 8 + c * 2) as ->.
  { unfold low_word. rewrite Z.abs_eq, (wrap_small 64 (v + 35 + c * 2)), (wrap_small 64) by lia.
    replace (v + 35 + c * 2 - 27) with (v + 8 + c * 2) by lia. apply u8_id. unfold is_byte. lia. }
  assert (Hb : (v + 8 + c * 2 =? 0) || (v + 8 + c * 2 =? 1) = false).
  { apply orb_false_iff. split; apply Z.eqb_neq; lia. }
  unfold ValidateSignatureValues. rewrite Hb, andb_false_r.
  by destruct ((r <? 1) || (s <? 1)), (true && (secp256k1_halfN <? s)).
Qed.
End recover.

(** C15: signatures identify their signer. With a library that keeps its promises, a
    valid key signs any hash; the public key that [SigToPub] recovers is the key's, and
    the sender that [recoverPlain] computes from the values of the signature, without a
    chain id and if the recovery id [v] is 0 or 1, is the address of the key. With a
    chain id, [deriveChainId] finds it in the signature, again if [v] is 0 or 1, but
    [recoverPlain] rejects the values. *)
Theorem signature_recovers_address `{LibsecpLaws} `{KeccakF} hash d :
  length hash = 32%nat → length d = 32%nat → Forall is_byte d → ec_seckey_verify d = true →
  ∃ prv sig v, ToECDSA d = Ok prv ∧ Sign hash prv = Ok sig ∧ sig !! 64%nat = Some v ∧
    SigToPub hash sig = Ok (prv_pub prv) ∧
    (v < 2 → ∃ R S V a, SignatureValues (NewQSSigner None) sig = Ok (R, S, V) ∧
       recoverPlain hash R S V = Ok a ∧ PubkeyToAddress (prv_pub prv) = Ok a) ∧
    (∀ c, 0 < c → ∃ R S V, SignatureValues (NewQSSigner (Some c)) sig = Ok (R, S, V) ∧
       (v < 2 → deriveChainId V = c) ∧ recoverPlain hash R S V = Err ErrInvalidSig).
Proof.
  intros Hh Hl Hd Hv.
  destruct (Sign_recover hash d Hh Hl Hd Hv) as (r & s & v & x & y & HS & Hr & Hs & Hv4 & Hp & Hc & Hx & Hy & He).
  assert (Hhalf : secp256k1_halfN < secp256k1_N) by by vm_compute. pose proof N_below_256.
  exists {| prv_D := be_val d; prv_pub := public_bytes d |}, (be_fixed 32 r ++ be_fixed 32 s ++ [v]), v.
  split_and!; [by apply ToECDSA_32|done| | |..].
  - rewrite app_assoc, lookup_app_r by (rewrite length_app, !length_be_fixed; lia).
    by rewrite length_app, !length_be_fixed.
  - unfold SigToPub. rewrite He. cbn [obind prv_pub]. by rewrite elliptic_Unmarshal_point, Hp.
  - intros Hv2. exists r, s, (v + 27), (point_address x y).
    cbn [prv_pub]. rewrite Hp. split_and!.
    + exact (SignatureValues_signed (NewQSSigner None) r s v ltac:(lia) ltac:(lia) ltac:(lia)).
    + apply recoverPlain_point; [done|done|lia|done].
    + by apply PubkeyToAddress_point.
  - intros c Hc0. exists r, s, (v + 35 + c * 2). split_and!.
    + pose proof (SignatureValues_signed (NewQSSigner (Some c)) r s v ltac:(lia) ltac:(lia) ltac:(lia)) as HV.
      change (chainId (NewQSSigner (Some c))) with c in HV. rewrite (proj2 (Z.eqb_neq c 0)) in HV by lia. exact HV.
    + intros Hv2. by apply deriveChainId_signed; lia.
    + by apply recoverPlain_chain_id.
Qed.

Lemma signature_recovers_address_witness :
  ∃ prv sig, ToECDSA (H := ex_lib) one_key = Ok prv ∧ Sign (H := ex_lib) (replicate 32 7) prv = Ok sig ∧
    SigToPub (H := ex_lib) (replicate 32 7) sig = Ok (prv_pub prv).
Proof.
  destruct (@signature_recovers_address ex_lib ex_laws keccakF_go (replicate 32 7) one_key)
    as (prv & sig & v & H1 & H2 & _ & H3 & _).
  - reflexivity.
  - reflexivity.
  - apply be_fixed_byte.
  - vm_compute. reflexivity.
  - exists prv, sig. split; [assumption|split; assumption].
Defined.

(** A task of the pool panics on a signature that cannot be recovered. *)
Lemma task_panics_on_error `{Libsecp256k1} `{KeccakF} rs e :
  Ecrecover (rp_Hash rs) (rp_Sig rs) = Err e → asyncSoftRecoverPubTask rs = Panic.
Proof. intros He. unfold asyncSoftRecoverPubTask. by rewrite He. Qed.

(** ** The pool of queues *)

(** A task is posted to the first queue with room from the next one on; it is
    refused exactly if all queues are full. *)
Definition qs_wf (qs : QSHandle) : Prop :=
  length (qs_thPool qs) = qs_maxThNum qs ∧ Forall (λ q, (length q ≤ queue_size)%nat) (qs_thPool qs).

Lemma post_from_spec qs rs i n qs' ok :
  length (qs_thPool qs) = qs_maxThNum qs → (0 < qs_maxThNum qs)%nat →
  post_from qs rs i n = (qs', ok) →
  (ok = true ∧ ∃ k queue, qs_thPool qs !! k = Some queue ∧ (length queue < queue_size)%nat ∧
     qs_thPool qs' = <[k := queue ++ [rs]]> (qs_thPool qs) ∧ qs_maxThNum qs' = qs_maxThNum qs) ∨
  (ok = false ∧ qs' = qs ∧ ∀ j queue, (i ≤ j < i + n)%nat →
     qs_thPool qs !! ((qs_idx qs + j) mod qs_maxThNum qs)%nat = Some queue → (queue_size ≤ length queue)%nat).
Proof.
  intros Hl H0. revert i. induction n as [|n IH]; intros i Hp; cbn [post_from] in Hp.
  { simplify_eq. right. split_and!; [done..|]. intros; lia. }
  destruct (qs_thPool qs !! _) as [queue|] eqn:Hq; cycle 1.
  { apply lookup_ge_None_1 in Hq. pose proof (Nat.mod_upper_bound (qs_idx qs + i) (qs_maxThNum qs)). lia. }
  destruct (Nat.ltb_spec (length queue) queue_size) as [Hlt|Hge].
  - simplify_eq. left. split; [done|]. by eexists _, queue.
  - destruct (IH (S i) Hp) as [?|(-> & -> & Hfull)]; [by left|right]. split_and!; [done..|].
    intros j q Hj Hjq. destruct (decide (j = i)) as [->|]; [by simplify_eq|]. apply (Hfull j q); [lia|done].
Qed.

Lemma postToSoft_wf qs rs qs' ok :
  qs_wf qs → (0 < qs_maxThNum qs)%nat → postToSoft qs rs = (qs', ok) →
  qs_wf qs' ∧ (ok = false ↔ Forall (λ q, length q = queue_size) (qs_thPool qs)).
Proof.
  intros [Hl Hb] H0 Hp. destruct (post_from_spec _ _ _ _ _ _ Hl H0 Hp) as
    [(-> & k & queue & Hk & Hlt & Hpool & Hmax)|(-> & -> & Hfull)].
  - split; [split|].
    + by rewrite Hpool, length_insert, Hmax.
    + rewrite Hpool. apply Forall_insert; [done|]. rewrite length_app. cbn. lia.
    + split; [done|]. intros Hall. apply (Forall_lookup_1 _ _ _ _ Hall) in Hk. lia.
  - split; [done|]. split; [|done]. intros _. apply Forall_lookup_2. intros k queue Hk.
    pose proof (Forall_lookup_1 _ _ _ _ Hb Hk). cut (queue_size ≤ length queue)%nat; [cbn in *; lia|].
    pose proof (lookup_lt_Some _ _ _ Hk) as Hlt. rewrite Hl in Hlt.
    set (m := qs_maxThNum qs) in *. set (a := (qs_idx qs mod m)%nat).
    pose proof (Nat.mod_upper_bound (qs_idx qs) m ltac:(lia)) as Ha.
    apply (Hfull (if decide (a ≤ k) then k - a else m + k - a)%nat).
    { case_decide; unfold a in *; lia. }
    rewrite <-Nat.Div0.add_mod_idemp_l. fold a. rewrite <-Hk. f_equal.
    case_decide; [rewrite Nat.mod_small; lia|].
    replace (a + (m + k - a))%nat with (k + 1 * m)%nat by lia. rewrite Nat.Div0.mod_add. apply Nat.mod_small. lia.
Qed.
