(* ===== verification/Netutil.v ===== *)
(** * Addresses of the network: network/p2p/netutil/net.go

    IP addresses are byte strings as in Go's net package: four bytes, or sixteen with
    the IPv4 addresses under the prefix ::ffff:0:0. The networks that the package sets up
    from text are given as [net.ParseCIDR] reads them. *)

From S2P Require Import Prelude RlpSpec.
Local Open Scope Z_scope.

(** ** Addresses *)

(** [To4] of an address: the four bytes of an IPv4 address in either form. *)
Definition To4 (ip : bytes) : option bytes :=
  if (length ip =? 4)%nat then Some ip
  else if bool_decide (take 12 ip = replicate 10 0 ++ [255; 255]) && (length ip =? 16)%nat then Some (drop 12 ip)
  else None.

Definition To16 (ip : bytes) : option bytes :=
  if (length ip =? 4)%nat then Some (replicate 10 0 ++ [255; 255] ++ ip)
  else if (length ip =? 16)%nat then Some ip
  else None.

Definition IsMulticast (ip : bytes) : bool :=
  match To4 ip with
  | Some ip4 => match ip4 with b :: _ => Z.land b 240 =? 224 | [] => false end
  | None => (length ip =? 16)%nat && match ip with b :: _ => b =? 255 | [] => false end
  end.
Definition IsUnspecified (ip : bytes) : bool :=
  bool_decide (To4 ip = Some [0; 0; 0; 0]) || bool_decide (ip = replicate 16 0).
Definition IsLoopback (ip : bytes) : bool :=
  match To4 ip with
  | Some ip4 => match ip4 with b :: _ => b =? 127 | [] => false end
  | None => bool_decide (ip = replicate 15 0 ++ [1])
  end.

(** ** Networks *)

(** The address and the number of leading ones of the mask. *)
Record IPNet := MkNet { net_IP : bytes; net_ones : Z }.
Definition Netlist := list IPNet.

Fixpoint CIDRMask (n : Z) (l : nat) : bytes :=
  match l with
  | O => []
  | S l => if 8 <=? n then 255 :: CIDRMask (n - 8) l else Z.lxor 255 (Z.shiftr 255 n) :: CIDRMask 0 l
  end.

Fixpoint masked_eq (nn ip m : bytes) : bool :=
  match nn, ip, m with
  | x :: nn, y :: ip, z :: m => if negb (Z.land x z =? Z.land y z) then false else masked_eq nn ip m
  | _, _, _ => true
  end.

Definition IPNet_Contains (n : IPNet) (ip : bytes) : bool :=
  let nn := default (net_IP n) (To4 (net_IP n)) in
  let ip := default ip (To4 ip) in
  if negb (length ip =? length nn)%nat then false
  else masked_eq nn ip (CIDRMask (net_ones n) (length nn)).

Definition Netlist_Contains (l : option Netlist) (ip : bytes) : bool :=
  match l with
  | None => false
  | Some l => existsb (λ n, IPNet_Contains n ip) l
  end.

(** An IPv6 address by its first groups. *)
Definition ip6 (groups : list Z) : bytes :=
  take 16 (flat_map (λ g, [g / 256; g mod 256]) groups ++ replicate 16 0).

Definition lan4 : Netlist :=
  [ MkNet [0; 0; 0; 0] 8; MkNet [10; 0; 0; 0] 8; MkNet [172; 16; 0; 0] 12; MkNet [192; 168; 0; 0] 16 ].
Definition lan6 : Netlist := [ MkNet (ip6 [0xfe80]) 10; MkNet (ip6 [0xfc00]) 7 ].
Definition special4 : Netlist :=
  [ MkNet [192; 0; 0; 0] 29; MkNet [192; 0; 0; 9] 32; MkNet [192; 0; 0; 170] 32; MkNet [192; 0; 0; 171] 32;
    MkNet [192; 0; 2; 0] 24; MkNet [192; 31; 196; 0] 24; MkNet [192; 52; 193; 0] 24; MkNet [192; 88; 99; 0] 24;
    MkNet [192; 175; 48; 0] 24; MkNet [198; 18; 0; 0] 15; MkNet [198; 51; 100; 0] 24; MkNet [203; 0; 113; 0] 24;
    MkNet [255; 255; 255; 255] 32 ].
Definition special6 : Netlist :=
  [ MkNet (ip6 [0x100]) 64; MkNet (ip6 [0x2001]) 32; MkNet (ip6 [0x2001; 1; 0; 0; 0; 0; 0; 1]) 128;
    MkNet (ip6 [0x2001; 2]) 48; MkNet (ip6 [0x2001; 3]) 32; MkNet (ip6 [0x2001; 4; 0x112]) 48;
    MkNet (ip6 [0x2001; 5]) 32; MkNet (ip6 [0x2001; 0x10]) 28; MkNet (ip6 [0x2001; 0x20]) 28;
    MkNet (ip6 [0x2001; 0xdb8]) 32; MkNet (ip6 [0x2002]) 16 ].

Definition IsLAN (ip : bytes) : bool :=
  if IsLoopback ip then true
  else match To4 ip with
       | Some v4 => Netlist_Contains (Some lan4) v4
       | None => Netlist_Contains (Some lan6) ip
       end.

Definition IsSpecialNetwork (ip : bytes) : bool :=
  if IsMulticast ip then true
  else match To4 ip with
       | Some v4 => Netlist_Contains (Some special4) v4
       | None => Netlist_Contains (Some special6) ip
       end.

Inductive ip_error := errInvalid | errUnspecified | errSpecial | errLoopback | errLAN.

Definition CheckRelayIP (sender addr : bytes) : outcome ip_error unit :=
  if negb (length addr =? 4)%nat && negb (length addr =? 16)%nat then Err errInvalid
  else if IsUnspecified addr then Err errUnspecified
  else if IsSpecialNetwork addr then Err errSpecial
  else if IsLoopback addr && negb (IsLoopback sender) then Err errLoopback
  else if IsLAN addr && negb (IsLAN sender) then Err errLAN
  else Ok tt.

(** ** Networks are ranges of numbers *)

Lemma be_val_inj a b : Forall is_byte a → Forall is_byte b → length a = length b → be_val a = be_val b → a = b.
Proof. intros Ha Hb Hl Hv. rewrite <-(be_fixed_val a Ha), <-(be_fixed_val b Hb). by rewrite Hl, Hv. Qed.

Lemma land_net_mask x n : is_byte x → 0 ≤ n < 8 → Z.land x (Z.lxor 255 (Z.shiftr 255 n)) = x / 2 ^ (8 - n) * 2 ^ (8 - n).
Proof.
  intros Hx Hn.
  assert (Hall : forallb (λ k : nat, forallb (λ b : nat,
    Z.land (Z.of_nat b) (Z.lxor 255 (Z.shiftr 255 (Z.of_nat k))) =?
    Z.of_nat b / 2 ^ (8 - Z.of_nat k) * 2 ^ (8 - Z.of_nat k)) (seq 0 256)) (seq 0 8) = true) by by vm_compute.
  rewrite forallb_forall in Hall. specialize (Hall (Z.to_nat n)). rewrite forallb_forall in Hall.
  unfold is_byte in Hx. specialize (Hall ltac:(apply in_seq; lia) (Z.to_nat x) ltac:(apply in_seq; lia)).
  rewrite !Z2Nat.id in Hall by lia. by apply Z.eqb_eq.
Qed.

Lemma land_255 x : is_byte x → Z.land x 255 = x.
Proof. intros Hx. change 255 with (Z.ones 8). rewrite Z.land_ones by lia. apply Z.mod_small, Hx. Qed.

Lemma masked_zero nn ip l : Forall is_byte nn → Forall is_byte ip → masked_eq nn ip (CIDRMask 0 l) = true.
Proof.
  intros Hn. revert ip l. induction Hn as [|x nn Hx Hn IH]; intros [|y ip] [|l] Hip; try done.
  inversion_clear Hip. cbn [CIDRMask masked_eq]. change (8 <=? 0) with false. cbn iota.
  change (Z.lxor 255 (Z.shiftr 255 0)) with 0. rewrite !Z.land_0_r. by apply IH.
Qed.

Lemma div_cons x v k a : 0 ≤ v < 256 ^ k → 0 ≤ k → 0 ≤ a → (x * 256 ^ k + v) / 2 ^ (8 * k + a) = x / 2 ^ a.
Proof.
  intros Hv Hk Ha. rewrite Z.pow_add_r, Z.pow_mul_r by lia. change (2 ^ 8) with 256.
  assert (0 < 256 ^ k) by (apply Z.pow_pos_nonneg; lia).
  rewrite <-Z.div_div by (try apply Z.pow_nonzero; lia). f_equal.
  rewrite Z.div_add_l by lia. rewrite Z.div_small by lia. lia.
Qed.

Lemma masked_range nn ip n :
  Forall is_byte nn → Forall is_byte ip → length ip = length nn → 0 ≤ n ≤ 8 * Z.of_nat (length nn) →
  masked_eq nn ip (CIDRMask n (length nn)) = true ↔
  be_val ip / 2 ^ (8 * Z.of_nat (length nn) - n) = be_val nn / 2 ^ (8 * Z.of_nat (length nn) - n).
Proof.
  intros Hnn. revert ip n. induction Hnn as [|x nn Hx Hnn IH]; intros [|y ip] n Hip Hl Hn; try done.
  inversion_clear Hip as [|?? Hy Hip']. injection Hl as Hl. cbn [length CIDRMask masked_eq].
  pose proof (be_val_bound nn Hnn) as Bn. pose proof (be_val_bound ip Hip') as Bi. rewrite Hl in Bi.
  rewrite !be_val_cons, Hl. set (k := Z.of_nat (length nn)) in *.
  destruct (Z.leb_spec 8 n) as [H8|H8]; cbn [masked_eq].
  - rewrite !land_255 by done.
    replace (8 * Z.of_nat (S (length nn)) - n) with (8 * k - (n - 8)) by lia.
    cbn [length] in Hn. specialize (IH ip (n - 8) Hip' Hl ltac:(lia)). fold k in IH.
    set (e := 8 * k - (n - 8)) in *. assert (He : 0 ≤ e ≤ 8 * k) by lia.
    assert (Hsplit : ∀ z v, 0 ≤ v < 256 ^ k → (z * 256 ^ k + v) / 2 ^ e = z * 2 ^ (8 * k - e) + v / 2 ^ e ∧
      0 ≤ v / 2 ^ e < 2 ^ (8 * k - e)).
    { intros z v Hv. assert (0 < 2 ^ e) by (apply Z.pow_pos_nonneg; lia).
      assert (E : 256 ^ k = 2 ^ (8 * k - e) * 2 ^ e).
      { rewrite <-Z.pow_add_r, Z.sub_add, Z.pow_mul_r by lia. done. }
      split; [|split; [apply Z.div_pos; lia|apply Z.div_lt_upper_bound; lia]].
      rewrite E, Z.mul_assoc, Z.div_add_l by lia. done. }
    destruct (Hsplit y _ Bi) as [-> B1], (Hsplit x _ Bn) as [-> B2].
    destruct (Z.eqb_spec x y) as [->|Hne]; cbn [negb].
    + rewrite IH. split; intros; lia.
    + split; [done|]. intros E. destruct Hne. nia.
  - rewrite !land_net_mask by (done || lia).
    replace (8 * Z.of_nat (S (length nn)) - n) with (8 * k + (8 - n)) by lia.
    rewrite !div_cons, masked_zero by (done || lia).
    destruct (Z.eqb_spec (x / 2 ^ (8 - n) * 2 ^ (8 - n)) (y / 2 ^ (8 - n) * 2 ^ (8 - n))) as [E|E]; cbn [negb].
    + split; [|done]. intros _. assert (2 ^ (8 - n) ≠ 0) by (apply Z.pow_nonzero; lia). by apply Z.mul_cancel_r in E.
    + split; [done|]. congruence.
Qed.

(** The numbers of a network: an aligned block. *)
Definition net_range (n : IPNet) : Z * Z :=
  (be_val (net_IP n), be_val (net_IP n) + 2 ^ (8 * Z.of_nat (length (net_IP n)) - net_ones n) - 1).
Definition in_range (v : Z) (r : Z * Z) : bool := (r.1 <=? v) && (v <=? r.2).

(** A network in the shorter form, whose address has zeros under the mask. *)
Definition net_ok (n : IPNet) : bool :=
  forallb (λ b, (0 <=? b) && (b <? 256)) (net_IP n) && (0 <=? net_ones n) &&
  (net_ones n <=? 8 * Z.of_nat (length (net_IP n))) && bool_decide (default (net_IP n) (To4 (net_IP n)) = net_IP n) &&
  (be_val (net_IP n) mod 2 ^ (8 * Z.of_nat (length (net_IP n)) - net_ones n) =? 0).

Lemma IPNet_Contains_range n ip :
  net_ok n = true → default ip (To4 ip) = ip → Forall is_byte ip → length ip = length (net_IP n) →
  IPNet_Contains n ip = in_range (be_val ip) (net_range n).
Proof.
  unfold net_ok. rewrite !andb_true_iff, bool_decide_eq_true, Z.eqb_eq, !Z.leb_le, forallb_forall.
  intros ((((Hb & H0) & H1) & Hn) & Hal) Hip Hbytes Hl. unfold IPNet_Contains. rewrite Hn, Hip, Hl, Nat.eqb_refl. cbn [negb].
  assert (Hnb : Forall is_byte (net_IP n)).
  { apply Forall_forall. intros b Hin. apply list_elem_of_In, Hb in Hin. unfold is_byte. lia. }
  apply eq_bool_prop_intro. rewrite !Is_true_true, masked_range by done.
  unfold in_range, net_range. cbn [fst snd]. rewrite andb_true_iff, !Z.leb_le.
  set (d := 2 ^ (8 * Z.of_nat (length (net_IP n)) - net_ones n)) in *.
  assert (Hd : 0 < d) by (apply Z.pow_pos_nonneg; lia).
  pose proof (Z.div_mod (be_val (net_IP n)) d ltac:(lia)) as E. rewrite Hal in E.
  pose proof (Z.div_mod (be_val ip) d ltac:(lia)). pose proof (Z.mod_pos_bound (be_val ip) d Hd). split; intros; nia.
Qed.

Definition nets_ok (len : nat) (l : Netlist) : bool := forallb (λ n, net_ok n && (length (net_IP n) =? len)%nat) l.

Lemma Netlist_Contains_range len l ip :
  nets_ok len l = true → default ip (To4 ip) = ip → Forall is_byte ip → length ip = len →
  Netlist_Contains (Some l) ip = existsb (in_range (be_val ip)) (map net_range l).
Proof.
  intros Hl Hip Hb Hlen. unfold nets_ok in Hl. cbn [Netlist_Contains].
  induction l as [|n l IH]; [done|]. cbn [forallb] in Hl. apply andb_true_iff in Hl as [[Hn Hln]%andb_true_iff Hl].
  apply Nat.eqb_eq in Hln. cbn [existsb map]. rewrite IPNet_Contains_range by (done || congruence). by rewrite IH.
Qed.

Definition quad (a b c d : Z) : Z := ((a * 256 + b) * 256 + c) * 256 + d.

(** The blocks of RFC 5735 and of the registry of special addresses. *)
Definition lan_blocks : list (Z * Z) :=
  [ (quad 0 0 0 0, quad 0 255 255 255); (quad 10 0 0 0, quad 10 255 255 255);
    (quad 172 16 0 0, quad 172 31 255 255); (quad 192 168 0 0, quad 192 168 255 255);
    (quad 127 0 0 0, quad 127 255 255 255) ].
Definition special_blocks : list (Z * Z) :=
  [ (quad 192 0 0 0, quad 192 0 0 7); (quad 192 0 0 9, quad 192 0 0 9); (quad 192 0 0 170, quad 192 0 0 171);
    (quad 192 0 2 0, quad 192 0 2 255); (quad 192 31 196 0, quad 192 31 196 255);
    (quad 192 52 193 0, quad 192 52 193 255); (quad 192 88 99 0, quad 192 88 99 255);
    (quad 192 175 48 0, quad 192 175 48 255); (quad 198 18 0 0, quad 198 19 255 255);
    (quad 198 51 100 0, quad 198 51 100 255); (quad 203 0 113 0, quad 203 0 113 255);
    (quad 224 0 0 0, quad 239 255 255 255); (quad 255 255 255 255, quad 255 255 255 255) ].
Definition in_blocks (blocks : list (Z * Z)) (v : Z) : Prop := ∃ r, r ∈ blocks ∧ r.1 ≤ v ≤ r.2.

Lemma in_blocks_nil v : in_blocks [] v ↔ False.
Proof. split; [|done]. by intros (r & ?%elem_of_nil & _). Qed.
Lemma in_blocks_cons r bs v : in_blocks (r :: bs) v ↔ r.1 ≤ v ≤ r.2 ∨ in_blocks bs v.
Proof.
  unfold in_blocks. split.
  - intros (r' & [->|Hr]%elem_of_cons & Hv); [by left|right; eauto].
  - intros [Hv|(r' & Hr & Hv)]; [exists r|exists r']; rewrite elem_of_cons; auto.
Qed.
Lemma existsb_ranges rs v : existsb (in_range v) rs = true ↔ in_blocks rs v.
Proof.
  induction rs as [|r rs IH]; [by rewrite in_blocks_nil|]. rewrite in_blocks_cons, <-IH. cbn [existsb].
  rewrite orb_true_iff. unfold in_range. by rewrite andb_true_iff, !Z.leb_le.
Qed.

Lemma To4_four ip : length ip = 4%nat → To4 ip = Some ip.
Proof. intros H. unfold To4. by rewrite H. Qed.

Lemma IsLoopback_v4 ip :
  length ip = 4%nat → Forall is_byte ip → IsLoopback ip = true ↔ quad 127 0 0 0 ≤ be_val ip ≤ quad 127 255 255 255.
Proof.
  intros Hl Hb. unfold IsLoopback. rewrite To4_four by done. destruct ip as [|b ip]; [done|].
  inversion_clear Hb as [|?? Hbb Hb']. pose proof (be_val_bound ip Hb') as B. injection Hl as Hl.
  rewrite Z.eqb_eq, be_val_cons. rewrite Hl in *. change (256 ^ Z.of_nat 3) with 16777216 in *. unfold quad. lia.
Qed.

Lemma IsMulticast_v4 ip :
  length ip = 4%nat → Forall is_byte ip → IsMulticast ip = true ↔ quad 224 0 0 0 ≤ be_val ip ≤ quad 239 255 255 255.
Proof.
  intros Hl Hb. unfold IsMulticast. rewrite To4_four by done. destruct ip as [|b ip]; [done|].
  inversion_clear Hb as [|?? Hbb Hb']. pose proof (be_val_bound ip Hb') as B. injection Hl as Hl.
  rewrite be_val_cons. rewrite Hl in *. change (256 ^ Z.of_nat 3) with 16777216 in *.
  change 240 with (Z.lxor 255 (Z.shiftr 255 4)) at 1. rewrite land_net_mask, Z.eqb_eq by (done || lia).
  change (2 ^ (8 - 4)) with 16. pose proof (Z.div_mod b 16 ltac:(lia)). pose proof (Z.mod_pos_bound b 16 ltac:(lia)).
  unfold quad. lia.
Qed.

Lemma IsLAN_v4 ip :
  length ip = 4%nat → Forall is_byte ip → IsLAN ip = true ↔ in_blocks lan_blocks (be_val ip).
Proof.
  intros Hl Hb. unfold IsLAN. pose proof (IsLoopback_v4 ip Hl Hb) as Hloop. rewrite To4_four by done.
  rewrite (Netlist_Contains_range 4) by (done || by rewrite To4_four).
  change (map net_range lan4) with (take 4 lan_blocks). unfold lan_blocks.
  destruct (IsLoopback ip).
  - split; [|done]. intros _. rewrite !in_blocks_cons. tauto.
  - rewrite existsb_ranges. cbn [take]. rewrite !in_blocks_cons, !in_blocks_nil. cbn [fst snd].
    destruct (decide (quad 127 0 0 0 ≤ be_val ip ≤ quad 127 255 255 255)) as [Hd|Hd]; [|tauto].
    apply Hloop in Hd. done.
Qed.

Lemma IsSpecialNetwork_v4 ip :
  length ip = 4%nat → Forall is_byte ip → IsSpecialNetwork ip = true ↔ in_blocks special_blocks (be_val ip).
Proof.
  intros Hl Hb. unfold IsSpecialNetwork. pose proof (IsMulticast_v4 ip Hl Hb) as Hm. rewrite To4_four by done.
  rewrite (Netlist_Contains_range 4) by (done || by rewrite To4_four).
  destruct (IsMulticast ip).
  - split; [|done]. intros _. unfold special_blocks. rewrite !in_blocks_cons. cbn [fst snd]. tauto.
  - rewrite existsb_ranges. unfold special_blocks. cbn [map net_range special4]. rewrite !in_blocks_cons, !in_blocks_nil.
    assert (¬ quad 224 0 0 0 ≤ be_val ip ≤ quad 239 255 255 255) by (intros [=]%Hm).
    set (v := be_val ip) in *. cbv [net_range fst snd net_IP net_ones length].
    unfold quad in *. cbn -[v Z.le] in *. split; intros; lia.
Qed.

(** Sixteen bytes for an IPv4 address. *)
Definition mapped (ip : bytes) : bytes := replicate 10 0 ++ [255; 255] ++ ip.

Lemma To4_mapped ip : length ip = 4%nat → To4 (mapped ip) = Some ip.
Proof. intros Hl. destruct ip as [|a [|b [|c [|d []]]]]; done. Qed.

Lemma predicates_mapped ip :
  length ip = 4%nat →
  IsUnspecified (mapped ip) = IsUnspecified ip ∧ IsSpecialNetwork (mapped ip) = IsSpecialNetwork ip ∧
  IsLoopback (mapped ip) = IsLoopback ip ∧ IsLAN (mapped ip) = IsLAN ip.
Proof.
  intros Hl. pose proof (To4_mapped ip Hl) as Hm. pose proof (To4_four ip Hl) as Hf.
  unfold IsUnspecified, IsSpecialNetwork, IsLAN, IsMulticast, IsLoopback. rewrite Hm, Hf. split_and!; [|done..].
  f_equal. rewrite !bool_decide_eq_false_2; [done|intros ->; by rewrite length_replicate in Hl|done].
Qed.

Lemma CheckRelayIP_mapped s a :
  length s = 4%nat → length a = 4%nat →
  CheckRelayIP (mapped s) (mapped a) = CheckRelayIP s a ∧ CheckRelayIP s (mapped a) = CheckRelayIP s a.
Proof.
  intros Hs Ha. destruct (predicates_mapped s Hs) as (_ & _ & L1 & N1), (predicates_mapped a Ha) as (U2 & S2 & L2 & N2).
  unfold CheckRelayIP. rewrite U2, S2, L2, N2, L1, N1, Ha.
  assert (length (mapped a) = 16%nat) as -> by (unfold mapped; rewrite !length_app, Ha; done). done.
Qed.

(** An address that another host gives is accepted exactly by the rules of the
    documentation: it is not zero and in none of the special blocks, an address of the
    loopback block comes from a host in it, and an address of the local blocks from a local
    host; and the same for IPv4 addresses in their sixteen-byte form. *)
Theorem CheckRelayIP_rules s a :
  length s = 4%nat → length a = 4%nat → Forall is_byte s → Forall is_byte a →
  (CheckRelayIP s a = Ok tt ↔
   be_val a ≠ 0 ∧ ¬ in_blocks special_blocks (be_val a) ∧
   (in_blocks lan_blocks (be_val a) → in_blocks lan_blocks (be_val s)) ∧
   (quad 127 0 0 0 ≤ be_val a ≤ quad 127 255 255 255 → quad 127 0 0 0 ≤ be_val s ≤ quad 127 255 255 255)) ∧
  CheckRelayIP (mapped s) (mapped a) = CheckRelayIP s a ∧ CheckRelayIP s (mapped a) = CheckRelayIP s a.
Proof.
  intros Hs Ha Bs Ba. split; [|by apply CheckRelayIP_mapped].
  rewrite <-IsSpecialNetwork_v4, <-!IsLAN_v4, <-!IsLoopback_v4 by done.
  assert (IsUnspecified a = true ↔ be_val a = 0) as Hz.
  { unfold IsUnspecified. rewrite To4_four, orb_true_iff, !bool_decide_eq_true by done. split.
    - intros [[= ->]| ->]; [done|by rewrite length_replicate in Ha].
    - intros Hv. left. f_equal. apply be_val_inj; [done|by repeat constructor|done|done]. }
  unfold CheckRelayIP. rewrite Ha. cbn [Nat.eqb negb andb].
  destruct (IsUnspecified a), (IsSpecialNetwork a), (IsLoopback a), (IsLoopback s), (IsLAN a), (IsLAN s); cbn; naive_solver.
Qed.

Lemma CheckRelayIP_rules_witness :
  CheckRelayIP [8; 8; 8; 8] [10; 0; 0; 1] ≠ Ok tt ∧ CheckRelayIP [10; 0; 0; 7] (mapped [10; 0; 0; 1]) = Ok tt.
Proof.
  destruct (CheckRelayIP_rules [8; 8; 8; 8] [10; 0; 0; 1]) as [H1 _]; [reflexivity|reflexivity|repeat constructor; lia..|].
  destruct (CheckRelayIP_rules [10; 0; 0; 7] [10; 0; 0; 1]) as (_ & _ & H2); [reflexivity|reflexivity|repeat constructor; lia..|].
  split; [|rewrite H2; reflexivity].
  intros H. apply H1 in H as (_ & _ & H & _). rewrite <-!existsb_ranges in H. discriminate (H eq_refl).
Defined.
