(* ===== verification/DiscoverNode.v ===== *)
(** * Nodes of the network: network/p2p/discover/node.go

    Node identifiers, which are public keys without their tag, their distances, and
    the checks of a node's data. The hash of an identifier comes from the class
    [Keccak]. The URL form of a node is read and written with net/url and is not
    modelled. *)

From S2P Require Import Prelude Keccakf Sha3 RlpSpec TrieEncoding TrieSpec TrieNode MathBig Hexutil Secp256k1Curve Crypto Netutil.
Local Open Scope Z_scope.

Definition NodeIDLength : nat := 64.

(** The addresses and data of a node; whether it is being pinged is the state of a
    table. *)
Record Node := MkNode {
  nd_IP : option bytes; nd_UDP : Z; nd_TCP : Z; nd_ID : bytes; nd_TYPE : Z; nd_Loacation : Z; nd_sha : bytes
}.

Definition NewNode `{Keccak} (id : bytes) (ip : option bytes) (udpPort tcpPort : Z) : Node :=
  let ip := match ip with
            | Some b => match To4 b with Some ipv4 => Some ipv4 | None => Some b end
            | None => None
            end in
  MkNode ip udpPort tcpPort id 0 255 (keccak256 id).

Definition Incomplete (n : Node) : bool := match nd_IP n with None => true | Some _ => false end.

Inductive node_error :=
| ErrIncomplete | ErrMissingUDP | ErrMissingTCP | ErrInvalidIP | ErrNotOnCurve
| ErrIDLength | ErrIDHex | ErrRecover (e : crypto_error) | ErrPubkeyLength.

(** ** Identifiers *)

Definition BytesID (b : bytes) : outcome node_error bytes :=
  if negb (length b =? NodeIDLength)%nat then Err ErrIDLength else Ok b.
Definition MustBytesID (b : bytes) : outcome node_error bytes :=
  match BytesID b with Ok id => Ok id | _ => Panic end.

(** [strings.TrimPrefix(in, "0x")] *)
Definition trim_0x (s : bytes) : bytes :=
  match s with 48 :: 120 :: t => t | _ => s end.

Definition HexID (in_ : bytes) : outcome node_error bytes :=
  match hex_Decode (trim_0x in_) with
  | (_, Some _) => Err ErrIDHex
  | (b, None) => if negb (length b =? NodeIDLength)%nat then Err ErrIDLength else Ok b
  end.
Definition MustHexID (in_ : bytes) : outcome node_error bytes :=
  match HexID in_ with Ok id => Ok id | _ => Panic end.

Definition NodeID_String (id : bytes) : bytes := hex_Encode id.

Definition PubkeyID (x y : Z) : outcome node_error bytes :=
  match elliptic_Marshal S256 x y with
  | Ok pbytes => if negb (length pbytes - 1 =? NodeIDLength)%nat then Panic else Ok (drop 1 pbytes)
  | _ => Panic
  end.

Definition Pubkey (id : bytes) : outcome node_error (Z * Z) :=
  let half := (NodeIDLength / 2)%nat in
  let X := be_val (take half id) in
  let Y := be_val (drop half id) in
  if negb (IsOnCurve S256 X Y) then Err ErrNotOnCurve else Ok (X, Y).

Definition recoverNodeID `{Libsecp256k1} (hash sig : bytes) : outcome node_error bytes :=
  match secp_RecoverPubkey hash sig with
  | Ok pubkey => if negb (length pubkey - 1 =? NodeIDLength)%nat then Err ErrPubkeyLength else Ok (drop 1 pubkey)
  | Err e => Err (ErrRecover e)
  | Panic => Panic
  end.

Definition validateComplete (n : Node) : outcome node_error unit :=
  match nd_IP n with
  | None => Err ErrIncomplete
  | Some ip =>
      if nd_UDP n =? 0 then Err ErrMissingUDP
      else if nd_TCP n =? 0 then Err ErrMissingTCP
      else if IsMulticast ip || IsUnspecified ip then Err ErrInvalidIP
      else let* _ := Pubkey (nd_ID n) in Ok tt
  end.

(** ** Distances *)

Fixpoint distcmp (target a b : bytes) : Z :=
  match target, a, b with
  | t :: target, x :: a, y :: b =>
      let da := Z.lxor x t in
      let db := Z.lxor y t in
      if db <? da then 1
      else if da <? db then -1
      else distcmp target a b
  | _, _, _ => 0
  end.

Definition lzcount : list Z := [
   8; 7; 6; 6; 5; 5; 5; 5; 4; 4; 4; 4; 4; 4; 4; 4; 3; 3; 3; 3; 3; 3; 3; 3; 3; 3; 3; 3; 3; 3; 3; 3;
   2; 2; 2; 2; 2; 2; 2; 2; 2; 2; 2; 2; 2; 2; 2; 2; 2; 2; 2; 2; 2; 2; 2; 2; 2; 2; 2; 2; 2; 2; 2; 2;
   1; 1; 1; 1; 1; 1; 1; 1; 1; 1; 1; 1; 1; 1; 1; 1; 1; 1; 1; 1; 1; 1; 1; 1; 1; 1; 1; 1; 1; 1; 1; 1;
   1; 1; 1; 1; 1; 1; 1; 1; 1; 1; 1; 1; 1; 1; 1; 1; 1; 1; 1; 1; 1; 1; 1; 1; 1; 1; 1; 1; 1; 1; 1; 1;
   0; 0; 0; 0; 0; 0; 0; 0; 0; 0; 0; 0; 0; 0; 0; 0; 0; 0; 0; 0; 0; 0; 0; 0; 0; 0; 0; 0; 0; 0; 0; 0;
   0; 0; 0; 0; 0; 0; 0; 0; 0; 0; 0; 0; 0; 0; 0; 0; 0; 0; 0; 0; 0; 0; 0; 0; 0; 0; 0; 0; 0; 0; 0; 0;
   0; 0; 0; 0; 0; 0; 0; 0; 0; 0; 0; 0; 0; 0; 0; 0; 0; 0; 0; 0; 0; 0; 0; 0; 0; 0; 0; 0; 0; 0; 0; 0;
   0; 0; 0; 0; 0; 0; 0; 0; 0; 0; 0; 0; 0; 0; 0; 0; 0; 0; 0; 0; 0; 0; 0; 0; 0; 0; 0; 0; 0; 0; 0; 0].

Fixpoint leading_zeros (a b : bytes) (lz : Z) : outcome node_error Z :=
  match a, b with
  | x :: a, y :: b =>
      let x := Z.lxor x y in
      if x =? 0 then leading_zeros a b (lz + 8)
      else let* c := lzcount.[Z.to_nat x] in Ok (lz + c)
  | _, _ => Ok lz
  end.

Definition logdist (a b : bytes) : outcome node_error Z :=
  let* lz := leading_zeros a b 0 in
  Ok (Z.of_nat (length a) * 8 - lz).

(** [rnd] are the random bytes for the end of the hash; [byte(n%8) - 1] wraps. *)
Definition hashAtDistance (rnd : bytes) (a : bytes) (n : Z) : outcome node_error bytes :=
  if n =? 0 then Ok a
  else
    let pos := Z.of_nat (length a) - n / 8 - 1 in
    let shift := u8 (u8 (n mod 8) - 1) in
    let bit := u8 (Z.shiftl 1 shift) in
    let '(pos, bit) := if bit =? 0 then (pos + 1, 128) else (pos, bit) in
    if pos <? 0 then Panic
    else
      let pos := Z.to_nat pos in
      let* x := a.[pos] in
      let b := <[pos := Z.lor (Z.ldiff x bit) (Z.land (Z.lxor 255 x) bit)]> a in
      Ok (take (S pos) b ++ take (length a - S pos) rnd).

(** ** Distances are those of numbers *)

Lemma lxor_bound u v k : 0 ≤ k → 0 ≤ u < 2 ^ k → 0 ≤ v < 2 ^ k → 0 ≤ Z.lxor u v < 2 ^ k.
Proof.
  intros Hk Hu Hv. assert (0 ≤ Z.lxor u v) as H0 by (apply Z.lxor_nonneg; lia). split; [done|].
  destruct (decide (Z.lxor u v = 0)) as [->|]; [by apply Z.pow_pos_nonneg|].
  apply Z.log2_lt_pow2; [lia|]. eapply Z.le_lt_trans; [apply Z.log2_lxor; lia|].
  destruct (decide (k = 0)) as [->|]; [change (2 ^ 0) with 1 in *; assert (u = 0) by lia; assert (v = 0) by lia; by subst|].
  assert (Hlog : ∀ w, 0 ≤ w < 2 ^ k → Z.log2 w < k).
  { intros w Hw. destruct (decide (w = 0)) as [->|]; [cbn; lia|]. apply Z.log2_lt_pow2; lia. }
  apply Z.max_lub_lt; by apply Hlog.
Qed.

Lemma lxor_cat x y u v k :
  0 ≤ k → 0 ≤ u < 2 ^ k → 0 ≤ v < 2 ^ k →
  Z.lxor (x * 2 ^ k + u) (y * 2 ^ k + v) = Z.lxor x y * 2 ^ k + Z.lxor u v.
Proof.
  intros Hk Hu Hv. apply Z.bits_inj'. intros i Hi. pose proof (lxor_bound u v k Hk Hu Hv).
  rewrite Z.lxor_spec, !testbit_cat by done. destruct (i <? k); by rewrite Z.lxor_spec.
Qed.

Lemma BitLen_cat x u k :
  0 ≤ k → 0 ≤ u < 2 ^ k → 0 ≤ x → BitLen (x * 2 ^ k + u) = if x =? 0 then BitLen u else BitLen x + k.
Proof.
  intros Hk Hu Hx. destruct (Z.eqb_spec x 0) as [->|Hx0]; [f_equal; lia|].
  unfold BitLen. destruct (Z.eqb_spec x 0); [lia|].
  assert (0 < 2 ^ k) by (apply Z.pow_pos_nonneg; lia).
  destruct (Z.eqb_spec (x * 2 ^ k + u) 0); [nia|]. rewrite !Z.abs_eq by nia.
  assert (Z.log2 (x * 2 ^ k + u) = Z.log2 x + k); [|lia].
  pose proof (Z.log2_nonneg x). destruct (Z.log2_spec x ltac:(lia)) as [H1 H2].
  apply Z.log2_unique; [lia|]. rewrite Z.pow_succ_r in H2 by lia. rewrite Z.pow_succ_r, Z.pow_add_r by lia. nia.
Qed.

Lemma lzcount_spec x : 0 ≤ x < 256 → lzcount !! Z.to_nat x = Some (8 - BitLen x).
Proof.
  assert (H : forallb (λ i, bool_decide (lzcount !! i = Some (8 - BitLen (Z.of_nat i)))) (seq 0 256) = true)
    by (vm_compute; reflexivity).
  intros Hx. rewrite forallb_forall in H. specialize (H (Z.to_nat x)).
  rewrite in_seq, bool_decide_eq_true in H. rewrite Z2Nat.id in H by lia. apply H. lia.
Qed.

Lemma leading_zeros_spec a b lz :
  Forall is_byte a → Forall is_byte b → length a = length b →
  leading_zeros a b lz = Ok (lz + 8 * Z.of_nat (length a) - BitLen (Z.lxor (be_val a) (be_val b))).
Proof.
  intros Ha. revert b lz. induction Ha as [|x a Hx Ha IH]; intros [|y b] lz Hb Hl; try done.
  { cbn [leading_zeros]. f_equal. change (BitLen _) with 0. cbn [length]. lia. }
  apply Forall_cons in Hb as [Hy Hb]. injection Hl as Hl. cbn [leading_zeros].
  pose proof (be_val_bound a Ha) as Ba. pose proof (be_val_bound b Hb) as Bb. rewrite <-Hl in Bb.
  rewrite !be_val_cons, <-Hl. change 256 with (2 ^ 8) in Ba, Bb |- *. rewrite <-Z.pow_mul_r in * by lia.
  pose proof (lxor_bound (be_val a) (be_val b) (8 * Z.of_nat (length a)) ltac:(lia) Ba Bb) as Bl.
  assert (Hxy : 0 ≤ Z.lxor x y < 2 ^ 8) by (apply lxor_bound; unfold is_byte in *; lia).
  rewrite lxor_cat, BitLen_cat by (done || lia). cbn [length].
  destruct (Z.eqb_spec (Z.lxor x y) 0) as [E|E].
  - rewrite IH by done. f_equal. lia.
  - rewrite (index_Some _ _ _ (lzcount_spec (Z.lxor x y) Hxy)). cbn [obind]. f_equal. lia.
Qed.

(** The number that a hash is. *)
Definition distance (a b : bytes) : Z := Z.lxor (be_val a) (be_val b).

Lemma logdist_spec a b :
  Forall is_byte a → Forall is_byte b → length a = length b → logdist a b = Ok (BitLen (distance a b)).
Proof.
  intros Ha Hb Hl. unfold logdist. rewrite leading_zeros_spec by done. cbn [obind]. unfold distance. f_equal. lia.
Qed.

Lemma distance_nonneg a b : Forall is_byte a → Forall is_byte b → 0 ≤ distance a b.
Proof.
  intros Ha Hb. apply Z.lxor_nonneg. pose proof (be_val_bound a Ha). pose proof (be_val_bound b Hb). lia.
Qed.

Lemma BitLen_lxor_max x y : 0 ≤ x → 0 ≤ y → BitLen (Z.lxor x y) ≤ Z.max (BitLen x) (BitLen y).
Proof.
  intros Hx Hy. apply BitLen_le; [pose proof (BitLen_nonneg x); lia|].
  pose proof (BitLen_bound x Hx). pose proof (BitLen_bound y Hy).
  pose proof (BitLen_nonneg x). pose proof (BitLen_nonneg y).
  assert (0 ≤ Z.lxor x y) by (apply Z.lxor_nonneg; lia). rewrite Z.abs_eq by done.
  apply lxor_bound; [lia|..]; (split; [done|]); (eapply Z.lt_le_trans; [eassumption|]);
    apply Z.pow_le_mono_r; lia.
Qed.

Lemma distcmp_spec t a b :
  Forall is_byte t → Forall is_byte a → Forall is_byte b → length a = length t → length b = length t →
  distcmp t a b = match distance a t ?= distance b t with Lt => -1 | Eq => 0 | Gt => 1 end.
Proof.
  intros Ht. revert a b. induction Ht as [|z t Hz Ht IH]; intros [|x a] [|y b] Ha Hb Hla Hlb; try done.
  apply Forall_cons in Ha as [Hx Ha]. apply Forall_cons in Hb as [Hy Hb].
  injection Hla as Hla. injection Hlb as Hlb. cbn [distcmp]. unfold distance in *.
  pose proof (be_val_bound a Ha) as Ba. pose proof (be_val_bound b Hb) as Bb.
  pose proof (be_val_bound t Ht) as Bt. rewrite Hla in Ba. rewrite Hlb in Bb.
  rewrite !be_val_cons, Hla, Hlb. change 256 with (2 ^ 8) in Ba, Bb, Bt |- *. rewrite <-Z.pow_mul_r in * by lia.
  rewrite !lxor_cat by (done || lia).
  set (k := 8 * Z.of_nat (length t)) in *. assert (Hk : 0 ≤ k) by lia.
  pose proof (lxor_bound _ _ _ Hk Ba Bt) as B1. pose proof (lxor_bound _ _ _ Hk Bb Bt) as B2.
  set (K := 2 ^ k) in *.
  destruct (Z.ltb_spec (Z.lxor y z) (Z.lxor x z)) as [Hgt|Hle].
  { assert (Z.lxor x z * K + Z.lxor (be_val a) (be_val t) > Z.lxor y z * K + Z.lxor (be_val b) (be_val t)) as Hc by nia.
    by rewrite (proj2 (Z.compare_gt_iff _ _)) by lia. }
  destruct (Z.ltb_spec (Z.lxor x z) (Z.lxor y z)) as [Hlt|Hge].
  { assert (Z.lxor x z * K + Z.lxor (be_val a) (be_val t) < Z.lxor y z * K + Z.lxor (be_val b) (be_val t)) as Hc by nia.
    by rewrite (proj2 (Z.compare_lt_iff _ _)) by lia. }
  assert (Z.lxor x z = Z.lxor y z) as -> by lia. rewrite IH by done.
  by rewrite Z.add_compare_mono_l.
Qed.

(** ** A hash at a distance *)

Lemma flip_bit x k :
  0 ≤ x < 256 → 0 ≤ k < 8 → Z.lor (Z.ldiff x (2 ^ k)) (Z.land (Z.lxor 255 x) (2 ^ k)) = Z.lxor x (2 ^ k).
Proof.
  intros Hx Hk. apply Z.bits_inj'. intros i Hi.
  rewrite !Z.lor_spec, Z.ldiff_spec, Z.land_spec, !Z.lxor_spec, Z.pow2_bits_eqb by lia.
  destruct (Z.eqb_spec k i) as [->|]; [|by rewrite !andb_false_r, andb_true_r, orb_false_r, xorb_false_r].
  change 255 with (Z.ones 8). rewrite Z.ones_spec_low by lia. by destruct (Z.testbit x i).
Qed.

Lemma distance_app l a b :
  Forall is_byte a → Forall is_byte b → length a = length b →
  distance (l ++ a) (l ++ b) = distance a b.
Proof.
  intros Ha Hb Hl. unfold distance. rewrite !be_val_app, <-Hl.
  pose proof (be_val_bound a Ha) as Ba. pose proof (be_val_bound b Hb) as Bb. rewrite <-Hl in Bb.
  change 256 with (2 ^ 8) in *. rewrite <-Z.pow_mul_r in * by lia.
  rewrite lxor_cat by (done || lia). by rewrite Z.lxor_nilpotent.
Qed.

(** A byte that differs in bit [k] as its highest, before bytes that are arbitrary. *)
Lemma distance_flip x k a b :
  is_byte x → 0 ≤ k < 8 → Forall is_byte a → Forall is_byte b → length a = length b →
  BitLen (distance (x :: a) (Z.lxor x (2 ^ k) :: b)) = 8 * Z.of_nat (length a) + k + 1.
Proof.
  intros Hx Hk Ha Hb Hl. unfold distance. rewrite !be_val_cons, <-Hl.
  pose proof (be_val_bound a Ha) as Ba. pose proof (be_val_bound b Hb) as Bb. rewrite <-Hl in Bb.
  change 256 with (2 ^ 8) in *. rewrite <-Z.pow_mul_r in * by lia. set (m := 8 * Z.of_nat (length a)) in *.
  assert (Hm : 0 ≤ m) by lia. pose proof (lxor_bound _ _ _ Hm Ba Bb).
  assert (0 < 2 ^ k) by (apply Z.pow_pos_nonneg; lia).
  rewrite lxor_cat, <-Z.lxor_assoc, Z.lxor_nilpotent, Z.lxor_0_l, BitLen_cat by (done || lia).
  destruct (Z.eqb_spec (2 ^ k) 0); [lia|]. unfold BitLen. destruct (Z.eqb_spec (2 ^ k) 0); [lia|].
  rewrite Z.abs_eq, Z.log2_pow2 by lia. lia.
Qed.

Lemma u8_shift r : 0 ≤ r < 8 → u8 (Z.shiftl 1 (u8 (u8 r - 1))) = if r =? 0 then 0 else 2 ^ (r - 1).
Proof.
  intros Hr. rewrite (u8_id r) by (unfold is_byte; lia).
  destruct (Z.eqb_spec r 0) as [->|]; [by vm_compute|].
  rewrite (u8_id (r - 1)) by (unfold is_byte; lia). rewrite Z.shiftl_mul_pow2, Z.mul_1_l by lia.
  apply u8_id. split; [apply Z.pow_nonneg; lia|]. change 256 with (2 ^ 8). apply Z.pow_lt_mono_r; lia.
Qed.

(** The byte and the bit that [hashAtDistance] flips. *)
Lemma hashAtDistance_flip rnd a n :
  Forall is_byte a → length a = 32%nat → 0 < n ≤ 256 →
  ∃ pre x post k, a = pre ++ x :: post ∧ n = 8 * Z.of_nat (length post) + k + 1 ∧ 0 ≤ k < 8 ∧
    hashAtDistance rnd a n = Ok (pre ++ Z.lxor x (2 ^ k) :: take (length post) rnd).
Proof.
  intros Ha Hl Hn. unfold hashAtDistance. destruct (Z.eqb_spec n 0); [lia|].
  pose proof (Z.div_mod n 8 ltac:(lia)) as Hdm. pose proof (Z.mod_pos_bound n 8 ltac:(lia)) as Hr.
  rewrite u8_shift, Hl by done. cbv zeta.
  set (pos := if n mod 8 =? 0 then 32 - n / 8 else 31 - n / 8).
  set (k := if n mod 8 =? 0 then 7 else n mod 8 - 1).
  assert (Hpk : n = 8 * (31 - pos) + k + 1 ∧ 0 ≤ k < 8 ∧ 0 ≤ pos < 32).
  { unfold pos, k. destruct (Z.eqb_spec (n mod 8) 0); lia. }
  assert (Hb : (let '(p, bit) := if (if n mod 8 =? 0 then 0 else 2 ^ (n mod 8 - 1)) =? 0
       then (Z.of_nat 32 - n / 8 - 1 + 1, 128) else (Z.of_nat 32 - n / 8 - 1, if n mod 8 =? 0 then 0 else 2 ^ (n mod 8 - 1))
     in (p, bit)) = (pos, 2 ^ k)).
  { unfold pos, k. destruct (Z.eqb_spec (n mod 8) 0) as [E|E].
    - cbn [Z.eqb]. f_equal. lia.
    - assert (0 < 2 ^ (n mod 8 - 1)) by (apply Z.pow_pos_nonneg; lia).
      destruct (Z.eqb_spec (2 ^ (n mod 8 - 1)) 0); [lia|]. f_equal. lia. }
  destruct (if (if n mod 8 =? 0 then _ else _) =? 0 then _ else _) as [p bit]. injection Hb as -> ->.
  destruct Hpk as (Hnk & Hk & Hp). destruct (Z.ltb_spec pos 0); [lia|].
  destruct (lookup_lt_is_Some_2 a (Z.to_nat pos)) as [x Hx]; [lia|].
  rewrite (index_Some _ _ _ Hx). cbn [obind].
  pose proof (Forall_lookup_1 _ _ _ _ Ha Hx) as Hbx. unfold is_byte in Hbx.
  exists (take (Z.to_nat pos) a), x, (drop (S (Z.to_nat pos)) a), k.
  rewrite flip_bit, length_drop, Hl by done. split_and!; [by symmetry; apply take_drop_middle|lia..|].
  f_equal. rewrite <-(take_drop_middle a (Z.to_nat pos) x Hx) at 1.
  assert (Hlp : length (take (Z.to_nat pos) a) = Z.to_nat pos) by (rewrite length_take; lia).
  rewrite insert_app_r_alt, Hlp, Nat.sub_diag by lia. cbn [insert list_insert].
  rewrite cons_middle, app_assoc, take_app_length' by (rewrite length_app, Hlp; cbn; lia).
  by rewrite <-app_assoc.
Qed.

Lemma hashAtDistance_logdist rnd a n :
  Forall is_byte rnd → (32 ≤ length rnd)%nat → Forall is_byte a → length a = 32%nat → 0 ≤ n ≤ 256 →
  ∃ h, hashAtDistance rnd a n = Ok h ∧ logdist a h = Ok n.
Proof.
  intros Hrnd Hlr Ha La Hn. destruct (decide (n = 0)) as [->|Hn0].
  { exists a. split; [done|]. rewrite logdist_spec by done. unfold distance. by rewrite Z.lxor_nilpotent. }
  destruct (hashAtDistance_flip rnd a n Ha La ltac:(lia)) as (pre & x & post & k & -> & Hnk & Hk & ->).
  eexists. split; [done|]. rewrite length_app in La. cbn [length] in La.
  apply Forall_app in Ha as [Hpre [Hx Hpost]%Forall_cons].
  assert (Hfl : is_byte (Z.lxor x (2 ^ k))).
  { unfold is_byte in *. change 256 with (2 ^ 8) in *. apply lxor_bound; [lia|done|].
    split; [apply Z.pow_nonneg; lia|apply Z.pow_lt_mono_r; lia]. }
  assert (Hr : Forall is_byte (take (length post) rnd)) by by apply Forall_take.
  assert (Hlen : length post = length (take (length post) rnd)) by (rewrite length_take; lia).
  rewrite logdist_spec.
  - rewrite distance_app, distance_flip by (try apply Forall_cons; (done || cbn; congruence)). f_equal. lia.
  - apply Forall_app. split; [done|by apply Forall_cons].
  - apply Forall_app. split; [done|by apply Forall_cons].
  - rewrite !length_app. cbn. congruence.
Qed.

(** The distance of two hashes, on which the table is built, is the length of their
    difference by bits as numbers: it is symmetric, zero exactly for equal hashes, and
    the longest of three distances occurs twice; [distcmp] compares such differences;
    and [hashAtDistance] gives a hash at the distance it is asked for. *)
Theorem distances a b c :
  Forall is_byte a → Forall is_byte b → Forall is_byte c →
  length a = 32%nat → length b = 32%nat → length c = 32%nat →
  ∃ ab bc ac, logdist a b = Ok ab ∧ logdist b a = Ok ab ∧ logdist b c = Ok bc ∧ logdist a c = Ok ac ∧
    0 ≤ ab ≤ 256 ∧ (ab = 0 ↔ a = b) ∧ ac ≤ Z.max ab bc ∧
    distcmp c a b = match distance a c ?= distance b c with Lt => -1 | Eq => 0 | Gt => 1 end ∧
    (∀ rnd n, Forall is_byte rnd → (32 ≤ length rnd)%nat → 0 ≤ n ≤ 256 →
       ∃ h, hashAtDistance rnd a n = Ok h ∧ logdist a h = Ok n).
Proof.
  intros Ha Hb Hc La Lb Lc.
  exists (BitLen (distance a b)), (BitLen (distance b c)), (BitLen (distance a c)).
  pose proof (distance_nonneg a b Ha Hb). pose proof (distance_nonneg b c Hb Hc).
  rewrite (logdist_spec a b), (logdist_spec b a), (logdist_spec b c), (logdist_spec a c) by (done || congruence).
  split_and!; try done.
  - do 2 f_equal. apply Z.lxor_comm.
  - apply BitLen_nonneg.
  - apply BitLen_le; [lia|]. rewrite Z.abs_eq by done. apply lxor_bound; [lia|..];
      change (2 ^ 256) with (256 ^ Z.of_nat 32); [rewrite <-La|rewrite <-Lb]; by apply be_val_bound.
  - unfold BitLen. destruct (Z.eqb_spec (distance a b) 0) as [E|E].
    + split; [|done]. intros _. apply be_val_inj; [done..|congruence|]. by apply Z.lxor_eq.
    + pose proof (Z.log2_nonneg (Z.abs (distance a b))). split; [lia|]. intros ->.
      destruct E. apply Z.lxor_nilpotent.
  - replace (distance a c) with (Z.lxor (distance a b) (distance b c)); [by apply BitLen_lxor_max|].
    unfold distance. by rewrite Z.lxor_assoc, <-(Z.lxor_assoc (be_val b)), Z.lxor_nilpotent, Z.lxor_0_l.
  - apply distcmp_spec; (done || congruence).
  - intros rnd n Hrnd Hlr Hn. by apply hashAtDistance_logdist.
Qed.

Lemma distances_witness :
  ∃ h, hashAtDistance (replicate 32 7) (replicate 32 1) 100 = Ok h ∧ logdist (replicate 32 1) h = Ok 100.
Proof.
  assert (Hr : ∀ b, is_byte b → Forall is_byte (replicate 32 b)) by (intros b Hb; by apply Forall_replicate).
  destruct (distances (replicate 32 1) (replicate 32 2) (replicate 32 3)) as (ab & bc & ac & _ & _ & _ & _ & _ & _ & _ & _ & Hh);
    [apply Hr; split; lia..|reflexivity|reflexivity|reflexivity|].
  apply Hh; [apply Hr; split; lia|rewrite length_replicate; lia|lia].
Defined.
