(* ===== verification/DiscoverTable.v ===== *)
(** * The table of known nodes: network/p2p/discover/table.go

    Nodes are objects that the buckets point to. [add] gives up the lock while it
    pings the oldest node of a full bucket, so that it is two steps between which the
    other methods run; the methods that keep the lock are one step each. *)

From S2P Require Import Prelude Keccakf Sha3 RlpSpec TrieEncoding TrieSpec TrieNode TrieMap MathBig Hexutil Secp256k1Curve Crypto Netutil DiscoverNode.
Local Open Scope Z_scope.

Definition bucketSize : nat := 500.
Definition nBuckets : nat := 257.

(** The buckets, the objects by their pointers, and which of them are contested. *)
Record Table := MkTable {
  tab_buckets : list (list nat); tab_nodes : gmap nat Node; tab_contested : gset nat; tab_self : Node
}.

Definition newTable (self : Node) : Table := MkTable (replicate nBuckets []) ∅ ∅ self.

Definition with_bucket (tab : Table) (i : nat) (b : list nat) : Table :=
  MkTable (<[i := b]> (tab_buckets tab)) (tab_nodes tab) (tab_contested tab) (tab_self tab).
Definition with_contested (tab : Table) (c : gset nat) : Table :=
  MkTable (tab_buckets tab) (tab_nodes tab) c (tab_self tab).

Definition node_ID (tab : Table) (p : nat) : option bytes := nd_ID <$> tab_nodes tab !! p.

Definition has_id (tab : Table) (b : list nat) (id : option bytes) : option nat :=
  fst <$> list_find (λ p, node_ID tab p = id) b.

(** The index of the bucket of a node. *)
Definition bucket_index (tab : Table) (n : nat) : outcome node_error nat :=
  match tab_nodes tab !! n with
  | None => Panic
  | Some nd => let* d := logdist (nd_sha (tab_self tab)) (nd_sha nd) in Ok (Z.to_nat d)
  end.

(** ** Buckets *)

Definition bump (tab : Table) (b : list nat) (n : nat) : option (list nat) :=
  match has_id tab b (node_ID tab n) with
  | Some i => Some (<[0%nat := n]> (copy_at b 1 (take i b)))
  | None => None
  end.

Definition replace (tab : Table) (b : list nat) (n : nat) (last : option nat) : option (list nat) :=
  match has_id tab b (node_ID tab n) with
  | Some _ => None
  | None =>
      if (length b =? bucketSize)%nat &&
         match last with
         | None => true
         | Some o => negb (bool_decide ((b !! (bucketSize - 1)%nat ≫= node_ID tab) = node_ID tab o))
         end
      then None
      else
        let b := if (length b <? bucketSize)%nat then b ++ [0%nat] else b in
        let b := copy_at b 1 b in
        Some (<[0%nat := n]> b)
  end.

Definition remove_at (b : list nat) (i : nat) : list nat := take i b ++ drop (S i) b.

(** ** The methods *)

(** What is left to do for a call of [add]: ping the oldest node. *)
Inductive add_state := AddDone | AddPing (oldest : nat).

Definition add_begin (tab : Table) (n : nat) : outcome node_error (Table * add_state) :=
  let* i := bucket_index tab n in
  let* b := (tab_buckets tab).[i] in
  match bump tab b n with
  | Some b => Ok (with_bucket tab i b, AddDone)
  | None =>
      if (length b =? bucketSize)%nat then
        let* oldest := b.[(bucketSize - 1)%nat] in
        if decide (oldest ∈ tab_contested tab) then Ok (tab, AddDone)
        else Ok (with_contested tab ({[oldest]} ∪ tab_contested tab), AddPing oldest)
      else
        match replace tab b n None with
        | Some b => Ok (with_bucket tab i b, AddDone)
        | None => Ok (tab, AddDone)
        end
  end.

Definition add_end (tab : Table) (n oldest : nat) (responded : bool) : outcome node_error Table :=
  let tab := with_contested tab (tab_contested tab ∖ {[oldest]}) in
  if responded then Ok tab
  else
    let* i := bucket_index tab n in
    let* b := (tab_buckets tab).[i] in
    match replace tab b n (Some oldest) with
    | Some b => Ok (with_bucket tab i b)
    | None => Ok tab
    end.

Definition stuff_one (tab : Table) (n : nat) : outcome node_error Table :=
  if bool_decide (node_ID tab n = Some (nd_ID (tab_self tab))) then Ok tab
  else
    let* i := bucket_index tab n in
    let* b := (tab_buckets tab).[i] in
    match has_id tab b (node_ID tab n) with
    | Some _ => Ok tab
    | None => if (length b <? bucketSize)%nat then Ok (with_bucket tab i (b ++ [n])) else Ok tab
    end.

Definition stuff (tab : Table) (nodes : list nat) : outcome node_error Table :=
  oloop (λ n tab, stuff_one tab n) nodes tab.

Definition Table_delete (tab : Table) (n : nat) : outcome node_error Table :=
  let* i := bucket_index tab n in
  let* b := (tab_buckets tab).[i] in
  match has_id tab b (node_ID tab n) with
  | Some k => Ok (with_bucket tab i (remove_at b k))
  | None => Ok tab
  end.

(** The first bucket from [i] on with the identifier. *)
Fixpoint RemoveNode_from (tab : Table) (id : bytes) (bs : list (list nat)) (i : nat) : Table :=
  match bs with
  | [] => tab
  | b :: bs =>
      match has_id tab b (Some id) with
      | Some k => with_bucket tab i (remove_at b k)
      | None => RemoveNode_from tab id bs (S i)
      end
  end.
Definition RemoveNode (tab : Table) (id : bytes) : Table := RemoveNode_from tab id (tab_buckets tab) 0.

Definition FindNodes (tab : Table) : list nat := concat (tab_buckets tab).
Definition Table_len (tab : Table) : nat := foldr (λ b n, (length b + n)%nat) 0%nat (tab_buckets tab).

(** ** Callers *)

(** The table and the calls of [add] that wait for an answer. *)
Record sys := { s_tab : Table; s_pending : list (nat * nat) }.

Inductive label :=
| LNew (p : nat) (nd : Node) | LAdd (n : nat) | LPing (k : nat) (responded : bool)
| LStuff (ns : list nat) | LDelete (n : nat) | LRemove (id : bytes).

Section steps.
Context `{Keccak}.

(** A node as [NewNode] makes it, of bytes. *)
Definition node_ok (nd : Node) : Prop := nd_sha nd = keccak256 (nd_ID nd).

(** An object that [bond] calls [add] for: not the node itself. *)
Definition other_node (tab : Table) (n : nat) : Prop :=
  ∃ nd, tab_nodes tab !! n = Some nd ∧ nd_ID nd ≠ nd_ID (tab_self tab).

Inductive tstep : sys → label → sys → Prop :=
| st_new s p nd :
    tab_nodes (s_tab s) !! p = None → node_ok nd →
    tstep s (LNew p nd)
      {| s_tab := MkTable (tab_buckets (s_tab s)) (<[p := nd]> (tab_nodes (s_tab s)))
                    (tab_contested (s_tab s)) (tab_self (s_tab s)); s_pending := s_pending s |}
| st_add_done s n tab :
    other_node (s_tab s) n → add_begin (s_tab s) n = Ok (tab, AddDone) →
    tstep s (LAdd n) {| s_tab := tab; s_pending := s_pending s |}
| st_add_ping s n tab o :
    other_node (s_tab s) n → add_begin (s_tab s) n = Ok (tab, AddPing o) →
    tstep s (LAdd n) {| s_tab := tab; s_pending := s_pending s ++ [(n, o)] |}
| st_ping s k n o ok tab :
    s_pending s !! k = Some (n, o) → add_end (s_tab s) n o ok = Ok tab →
    tstep s (LPing k ok) {| s_tab := tab; s_pending := take k (s_pending s) ++ drop (S k) (s_pending s) |}
| st_stuff s ns tab :
    Forall (λ n, is_Some (tab_nodes (s_tab s) !! n)) ns →
    stuff (s_tab s) ns = Ok tab → tstep s (LStuff ns) {| s_tab := tab; s_pending := s_pending s |}
| st_delete s n tab :
    is_Some (tab_nodes (s_tab s) !! n) →
    Table_delete (s_tab s) n = Ok tab → tstep s (LDelete n) {| s_tab := tab; s_pending := s_pending s |}
| st_remove s id :
    tstep s (LRemove id) {| s_tab := RemoveNode (s_tab s) id; s_pending := s_pending s |}.

Inductive reachable (self : Node) : sys → Prop :=
| reach_init : reachable self {| s_tab := newTable self; s_pending := [] |}
| reach_step s l s' : reachable self s → tstep s l s' → reachable self s'.
End steps.

(** ** Buckets as lists *)

Lemma copy_at_shift (b : list nat) i :
  (i < length b)%nat → copy_at b 1 (take i b) = take 1 b ++ take i b ++ drop (S i) b.
Proof.
  intros Hi. unfold copy_at. f_equal. rewrite take_take, length_take.
  replace (Nat.min (length b - 1) i) with i by lia. by replace (1 + Nat.min i (length b))%nat with (S i) by lia.
Qed.

Lemma has_id_Some tab b id i :
  has_id tab b id = Some i → ∃ p, b !! i = Some p ∧ node_ID tab p = id.
Proof.
  unfold has_id. intros ([j p] & (Hl & Hid & _)%list_find_Some & ->)%fmap_Some. by exists p.
Qed.

Lemma has_id_None tab b id : has_id tab b id = None ↔ id ∉ (node_ID tab <$> b).
Proof.
  unfold has_id. rewrite fmap_None, list_find_None, Forall_forall, list_elem_of_fmap. split.
  - intros Hf (p & -> & Hp). by apply (Hf p).
  - intros Hn p Hp Hid. apply Hn. by exists p.
Qed.

Lemma bump_spec tab b n b' :
  bump tab b n = Some b' →
  ∃ i p, b !! i = Some p ∧ node_ID tab p = node_ID tab n ∧ b' = n :: remove_at b i.
Proof.
  unfold bump. destruct (has_id tab b _) as [i|] eqn:E; [|done]. intros [= <-].
  apply has_id_Some in E as (p & Hp & Hid). exists i, p. split_and!; [done..|].
  pose proof (lookup_lt_Some _ _ _ Hp). rewrite copy_at_shift by done. by destruct b.
Qed.

Lemma replace_room tab b n last :
  node_ID tab n ∉ (node_ID tab <$> b) → (length b < bucketSize)%nat → replace tab b n last = Some (n :: b).
Proof.
  intros Hn Hl. unfold replace. rewrite (proj2 (has_id_None _ _ _) Hn).
  destruct (Nat.eqb_spec (length b) bucketSize); [lia|]. cbn [andb].
  destruct (Nat.ltb_spec (length b) bucketSize); [|lia]. f_equal.
  assert (copy_at (b ++ [0%nat]) 1 (b ++ [0%nat]) = take 1 (b ++ [0%nat]) ++ b) as ->; [|by destruct b].
  unfold copy_at. rewrite length_app, Nat.add_sub, take_app_length, drop_ge by (rewrite length_app; cbn; lia).
  by rewrite app_nil_r.
Qed.

Lemma replace_room_inv tab b n last b' :
  (length b < bucketSize)%nat → replace tab b n last = Some b' → node_ID tab n ∉ (node_ID tab <$> b) ∧ b' = n :: b.
Proof.
  intros Hl Hr. destruct (has_id tab b (node_ID tab n)) as [k|] eqn:E; [unfold replace in Hr; by rewrite E in Hr|].
  apply has_id_None in E. rewrite replace_room in Hr by done. by simplify_eq.
Qed.

Lemma replace_full tab b n o b' :
  length b = bucketSize → replace tab b n (Some o) = Some b' →
  node_ID tab n ∉ (node_ID tab <$> b) ∧
  ∃ pre p, b = pre ++ [p] ∧ node_ID tab p = node_ID tab o ∧ b' = n :: pre.
Proof.
  intros Hl. unfold replace. destruct (has_id tab b _) as [i|] eqn:E; [done|]. apply has_id_None in E.
  rewrite Hl, Nat.eqb_refl, Nat.ltb_irrefl. cbn [andb].
  destruct b as [|p pre _] using rev_ind; [done|]. rewrite length_app in Hl. cbn [length] in Hl.
  assert (Hp : (pre ++ [p]) !! (bucketSize - 1)%nat = Some p).
  { rewrite lookup_app_r by lia. by replace (bucketSize - 1 - length pre)%nat with O by lia. }
  rewrite Hp. cbn [mbind option_bind]. case_bool_decide as Hid; [|done]. cbn [negb]. intros [= <-].
  split; [done|]. exists pre, p. split_and!; [done..|].
  unfold copy_at. rewrite length_app, Nat.add_sub. cbn [length].
  rewrite take_app_length, drop_ge by (rewrite !length_app; cbn; lia).
  rewrite app_nil_r. by destruct pre.
Qed.

Lemma replace_full_None tab b n : length b = bucketSize → replace tab b n None = None.
Proof.
  intros Hl. unfold replace. destruct (has_id tab b _); [done|]. by rewrite Hl, Nat.eqb_refl.
Qed.

Lemma remove_at_sublist (b : list nat) i : remove_at b i `sublist_of` b.
Proof. unfold remove_at. rewrite <-delete_take_drop. apply sublist_delete. Qed.

Lemma fmap_sublist {A B} (f : A → B) (l k : list A) : l `sublist_of` k → f <$> l `sublist_of` f <$> k.
Proof. induction 1; cbn; by constructor. Qed.

Lemma elem_of_sublist {A} (l k : list A) x : l `sublist_of` k → x ∈ l → x ∈ k.
Proof. induction 1; [done|..]; rewrite ?elem_of_cons; tauto. Qed.

(** ** The invariant *)

Section invariant.
Context `{HK : Keccak}.

(** A node object that belongs in bucket [i]. *)
Definition belongs (tab : Table) (i p : nat) : Prop :=
  ∃ nd, tab_nodes tab !! p = Some nd ∧ logdist (nd_sha (tab_self tab)) (nd_sha nd) = Ok (Z.of_nat i) ∧
    nd_ID nd ≠ nd_ID (tab_self tab).

Definition bucket_ok (tab : Table) (i : nat) (b : list nat) : Prop :=
  (length b ≤ bucketSize)%nat ∧ NoDup (node_ID tab <$> b) ∧ Forall (belongs tab i) b.

Definition table_ok (tab : Table) : Prop :=
  length (tab_buckets tab) = nBuckets ∧ (∀ i b, tab_buckets tab !! i = Some b → bucket_ok tab i b) ∧
  map_Forall (λ _, node_ok) (tab_nodes tab) ∧ node_ok (tab_self tab).

Lemma bucket_ok_sublist tab i b l : bucket_ok tab i b → l `sublist_of` b → bucket_ok tab i l.
Proof.
  intros (Hl & Hn & Hb) Hs. split_and!.
  - apply sublist_length in Hs. lia.
  - eapply sublist_NoDup; [done|]. by apply fmap_sublist.
  - rewrite Forall_forall in *. intros p Hp. apply Hb. by eapply elem_of_sublist.
Qed.

Lemma bucket_ok_cons tab i b n :
  bucket_ok tab i b → (length b < bucketSize)%nat → belongs tab i n → node_ID tab n ∉ (node_ID tab <$> b) →
  bucket_ok tab i (n :: b).
Proof.
  intros (Hl & Hn & Hb) Hlt Hbel Hid. split_and!; [cbn; lia|by rewrite fmap_cons, NoDup_cons|by constructor].
Qed.

Lemma with_bucket_ok tab i b : table_ok tab → bucket_ok tab i b → table_ok (with_bucket tab i b).
Proof.
  intros (Hl & Hb & Hn & Hs) Hok. split_and!; [cbn; by rewrite length_insert| |done..].
  intros j b' Hj. cbn in Hj. destruct (decide (j = i)) as [->|].
  - rewrite list_lookup_insert_eq in Hj by (apply lookup_lt_Some in Hj; by rewrite length_insert in Hj).
    by simplify_eq.
  - rewrite list_lookup_insert_ne in Hj by done. by apply Hb.
Qed.

Lemma logdist_nodes tab p nd :
  table_ok tab → tab_nodes tab !! p = Some nd →
  ∃ i, (i < nBuckets)%nat ∧ logdist (nd_sha (tab_self tab)) (nd_sha nd) = Ok (Z.of_nat i).
Proof.
  intros (_ & _ & Hn & Hs) Hp. specialize (Hn p nd Hp). unfold node_ok in *. rewrite Hs, Hn.
  set (a := keccak256 (nd_ID (tab_self tab))). set (b := keccak256 (nd_ID nd)).
  assert (Ha : Forall is_byte a) by apply keccak_byte. assert (Hb : Forall is_byte b) by apply keccak_byte.
  assert (La : length a = 32%nat) by apply keccak_length. assert (Lb : length b = 32%nat) by apply keccak_length.
  exists (Z.to_nat (BitLen (distance a b))). pose proof (BitLen_nonneg (distance a b)).
  rewrite logdist_spec, Z2Nat.id by (done || congruence). split; [|done].
  pose proof (distance_nonneg a b Ha Hb).
  assert (BitLen (distance a b) ≤ 256); [|unfold nBuckets; lia].
  apply BitLen_le; [lia|]. rewrite Z.abs_eq by done. apply lxor_bound; [lia|..];
    change (2 ^ 256) with (256 ^ Z.of_nat 32); [rewrite <-La|rewrite <-Lb]; by apply be_val_bound.
Qed.

(** The bucket that a method works on. *)
Lemma bucket_of tab n nd :
  table_ok tab → tab_nodes tab !! n = Some nd →
  ∃ i b, bucket_index tab n = Ok i ∧ tab_buckets tab !! i = Some b ∧ bucket_ok tab i b ∧
    (nd_ID nd ≠ nd_ID (tab_self tab) → belongs tab i n).
Proof.
  intros Hok Hn. destruct (logdist_nodes tab n nd Hok Hn) as (i & Hi & Hd).
  destruct (lookup_lt_is_Some_2 (tab_buckets tab) i) as [b Hb]; [destruct Hok as [-> _]; done|].
  exists i, b. split_and!; [|done|by apply Hok|].
  - unfold bucket_index. rewrite Hn, Hd. cbn [obind]. by rewrite Nat2Z.id.
  - intros Hne. by exists nd.
Qed.

Lemma bucket_bump_ok tab i b n b' :
  bucket_ok tab i b → belongs tab i n → bump tab b n = Some b' → bucket_ok tab i b'.
Proof.
  intros Hok Hn (k & p & Hk & Hid & ->)%bump_spec.
  pose proof (bucket_ok_sublist _ _ _ _ Hok (remove_at_sublist b k)) as Hr.
  pose proof (lookup_lt_Some _ _ _ Hk). destruct Hok as (Hl & Hnd & _).
  apply bucket_ok_cons; [done| |done|].
  - unfold remove_at. rewrite length_app, length_take, length_drop. lia.
  - rewrite <-Hid. rewrite <-(take_drop_middle b k p Hk) in Hnd. unfold remove_at. rewrite fmap_app in *.
    cbn [fmap list_fmap] in Hnd. apply NoDup_app in Hnd as (_ & Hd & [Hp _]%NoDup_cons).
    rewrite elem_of_app. intros [Hin|Hin]; [|done]. apply (Hd _ Hin). by constructor.
Qed.

Lemma bucket_replace_ok tab i b n o b' :
  bucket_ok tab i b → belongs tab i n → replace tab b n o = Some b' → bucket_ok tab i b'.
Proof.
  intros Hok Hn Hr. destruct (decide (length b < bucketSize)%nat) as [Hlt|Hge].
  - apply replace_room_inv in Hr as [Hid ->]; [|done]. by apply bucket_ok_cons.
  - assert (Hl : length b = bucketSize) by (destruct Hok; lia).
    destruct o as [o|]; [|by rewrite replace_full_None in Hr].
    apply replace_full in Hr as (Hid & pre & p & -> & _ & ->); [|done].
    rewrite length_app in Hl. cbn in Hl. rewrite fmap_app, elem_of_app in Hid.
    apply bucket_ok_cons; [|lia|done|tauto]. eapply bucket_ok_sublist; [done|]. by apply sublist_inserts_r.
Qed.

(** Only the buckets matter. *)
Lemma table_ok_contested tab c : table_ok (with_contested tab c) ↔ table_ok tab.
Proof. done. Qed.

Lemma bucket_lookup {E} (bs : list (list nat)) i b : bs !! i = Some b → bs.[i] = Ok (E := E) b.
Proof. intros Hb. unfold index. by rewrite Hb. Qed.

Lemma add_begin_ok tab n nd :
  table_ok tab → tab_nodes tab !! n = Some nd → nd_ID nd ≠ nd_ID (tab_self tab) →
  ∃ tab' a, add_begin tab n = Ok (tab', a) ∧ table_ok tab' ∧
    tab_nodes tab' = tab_nodes tab ∧ tab_self tab' = tab_self tab ∧
    (if a is AddPing o then o ∉ tab_contested tab ∧ tab_contested tab' = {[o]} ∪ tab_contested tab ∧
       is_Some (tab_nodes tab !! o) ∧ tab_buckets tab' = tab_buckets tab
     else tab_contested tab' = tab_contested tab).
Proof.
  intros Hok Hn Hne. destruct (bucket_of tab n nd Hok Hn) as (i & b & Hi & Hb & Hbok & Hbel).
  specialize (Hbel Hne). unfold add_begin. rewrite Hi. cbn [obind]. rewrite (bucket_lookup _ _ _ Hb). cbn [obind].
  destruct (bump tab b n) as [b'|] eqn:Eb.
  { eexists _, _. split; [done|]. split_and!; [|done..]. apply with_bucket_ok; [done|]. by eapply bucket_bump_ok. }
  destruct (Nat.eqb_spec (length b) bucketSize) as [Hl|Hl].
  - destruct (lookup_lt_is_Some_2 b (bucketSize - 1)) as [o Ho]; [unfold bucketSize in *; lia|].
    unfold index. rewrite Ho. cbn [obind]. case_decide; eexists _, _; (split; [done|]); split_and!; try done.
    destruct Hbok as (_ & _ & Hf). destruct (Forall_lookup_1 _ _ _ _ Hf Ho) as (od & Hod & _). by exists od.
  - destruct (replace tab b n None) as [b'|] eqn:Er; eexists _, _; (split; [done|]); split_and!; try done.
    apply with_bucket_ok; [done|]. by eapply bucket_replace_ok.
Qed.

Lemma add_end_ok tab n o ok nd :
  table_ok tab → tab_nodes tab !! n = Some nd → nd_ID nd ≠ nd_ID (tab_self tab) →
  ∃ tab', add_end tab n o ok = Ok tab' ∧ table_ok tab' ∧
    tab_nodes tab' = tab_nodes tab ∧ tab_self tab' = tab_self tab ∧
    tab_contested tab' = tab_contested tab ∖ {[o]}.
Proof.
  intros Hok Hn Hne. unfold add_end. destruct ok; [by eexists|].
  set (tab' := with_contested tab _). assert (Hok' : table_ok tab') by done.
  destruct (bucket_of tab' n nd Hok' Hn) as (i & b & Hi & Hb & Hbok & Hbel). rewrite Hi. cbn [obind].
  rewrite (bucket_lookup _ _ _ Hb). cbn [obind].
  destruct (replace tab' b n (Some o)) as [b'|] eqn:Er; eexists; (split; [done|]); split_and!; try done.
  apply with_bucket_ok; [done|]. by eapply bucket_replace_ok; [| |done]; [|apply Hbel].
Qed.

Lemma stuff_one_ok tab n nd :
  table_ok tab → tab_nodes tab !! n = Some nd →
  ∃ tab', stuff_one tab n = Ok tab' ∧ table_ok tab' ∧ tab_nodes tab' = tab_nodes tab ∧
    tab_self tab' = tab_self tab ∧ tab_contested tab' = tab_contested tab.
Proof.
  intros Hok Hn. unfold stuff_one. case_bool_decide as Hs; [by eexists|].
  destruct (bucket_of tab n nd Hok Hn) as (i & b & Hi & Hb & Hbok & Hbel). rewrite Hi. cbn [obind].
  rewrite (bucket_lookup _ _ _ Hb). cbn [obind].
  destruct (has_id tab b (node_ID tab n)) as [k|] eqn:Eid; [by eexists|]. apply has_id_None in Eid.
  destruct (Nat.ltb_spec (length b) bucketSize) as [Hl|]; [|by eexists].
  eexists. split; [done|]. split_and!; [|done..]. apply with_bucket_ok; [done|].
  unfold node_ID in Hs. rewrite Hn in Hs. cbn in Hs.
  destruct (bucket_ok_cons tab i b n Hbok Hl (Hbel ltac:(congruence)) Eid) as (H1 & H2 & H3).
  split_and!; [rewrite length_app; cbn in *; lia| |].
  - by rewrite fmap_app, (Permutation_app_comm (node_ID tab <$> b)).
  - apply Forall_app. inversion H3. auto.
Qed.

Lemma stuff_ok ns tab :
  table_ok tab → Forall (λ n, is_Some (tab_nodes tab !! n)) ns →
  ∃ tab', stuff tab ns = Ok tab' ∧ table_ok tab' ∧ tab_nodes tab' = tab_nodes tab ∧
    tab_self tab' = tab_self tab ∧ tab_contested tab' = tab_contested tab.
Proof.
  revert tab. induction ns as [|n ns IH]; intros tab Hok Hns; [by eexists|].
  inversion_clear Hns as [|?? [nd Hn] Hns']. destruct (stuff_one_ok tab n nd Hok Hn) as (t & Ht & Htok & E1 & E2 & E3).
  destruct (IH t Htok) as (t' & Ht' & Hok' & F1 & F2 & F3); [by rewrite E1|].
  exists t'. unfold stuff in *. cbn [oloop]. rewrite Ht. cbn [obind]. split_and!; congruence || done.
Qed.

Lemma Table_delete_ok tab n nd :
  table_ok tab → tab_nodes tab !! n = Some nd →
  ∃ tab', Table_delete tab n = Ok tab' ∧ table_ok tab' ∧ tab_nodes tab' = tab_nodes tab ∧
    tab_self tab' = tab_self tab ∧ tab_contested tab' = tab_contested tab.
Proof.
  intros Hok Hn. destruct (bucket_of tab n nd Hok Hn) as (i & b & Hi & Hb & Hbok & _).
  unfold Table_delete. rewrite Hi. cbn [obind]. rewrite (bucket_lookup _ _ _ Hb). cbn [obind].
  destruct (has_id tab b (node_ID tab n)) as [k|]; eexists; (split; [done|]); split_and!; try done.
  apply with_bucket_ok; [done|]. eapply bucket_ok_sublist; [done|]. apply remove_at_sublist.
Qed.

Lemma RemoveNode_from_cases tab id bs i :
  bs = drop i (tab_buckets tab) →
  (∃ j b k p, tab_buckets tab !! j = Some b ∧ b !! k = Some p ∧ node_ID tab p = Some id ∧
     RemoveNode_from tab id bs i = with_bucket tab j (remove_at b k)) ∨
  RemoveNode_from tab id bs i = tab.
Proof.
  revert i. induction bs as [|b bs IH]; intros i E; [by right|]. cbn [RemoveNode_from].
  destruct (has_id tab b (Some id)) as [k|] eqn:Eid.
  - apply has_id_Some in Eid as (p & Hp & Hid). left. exists i, b, k, p. split_and!; try done.
    rewrite <-(Nat.add_0_r i), <-lookup_drop, <-E. done.
  - apply IH. by rewrite <-Nat.add_1_r, <-drop_drop, <-E.
Qed.

Lemma RemoveNode_ok tab id :
  table_ok tab → table_ok (RemoveNode tab id) ∧ tab_nodes (RemoveNode tab id) = tab_nodes tab ∧
  tab_self (RemoveNode tab id) = tab_self tab ∧ tab_contested (RemoveNode tab id) = tab_contested tab.
Proof.
  intros Hok. unfold RemoveNode.
  destruct (RemoveNode_from_cases tab id (tab_buckets tab) 0 eq_refl) as [(i & b & k & p & Hb & _ & _ & ->)| ->]; [|done].
  split_and!; [|done..]. apply with_bucket_ok; [done|]. eapply bucket_ok_sublist; [by apply Hok|].
  apply remove_at_sublist.
Qed.

(** ** The reachable states *)

(** The calls of [add] that wait ping different entries, those marked as contested. *)
Definition sys_ok (s : sys) : Prop :=
  table_ok (s_tab s) ∧
  Forall (λ q, other_node (s_tab s) q.1 ∧ is_Some (tab_nodes (s_tab s) !! q.2)) (s_pending s) ∧
  NoDup (s_pending s).*2 ∧ (∀ o, o ∈ tab_contested (s_tab s) ↔ o ∈ (s_pending s).*2).

Lemma sys_ok_same_nodes s tab :
  sys_ok s → table_ok tab → tab_nodes tab = tab_nodes (s_tab s) → tab_self tab = tab_self (s_tab s) →
  tab_contested tab = tab_contested (s_tab s) → sys_ok {| s_tab := tab; s_pending := s_pending s |}.
Proof.
  intros (_ & Hp & Hn & Hc) Hok E1 E2 E3. split_and!; cbn; [done| |done|by rewrite E3].
  unfold other_node. by rewrite E1, E2.
Qed.

Lemma belongs_new tab tab' i q p nd :
  tab_nodes tab !! p = None → tab_nodes tab' = <[p := nd]> (tab_nodes tab) → tab_self tab' = tab_self tab →
  belongs tab i q → belongs tab' i q ∧ node_ID tab' q = node_ID tab q.
Proof.
  intros Hp E1 E2 (qd & Hq & Hr). unfold belongs, node_ID. rewrite E1, E2.
  rewrite lookup_insert_ne by congruence. eauto.
Qed.

Lemma table_ok_new tab p nd :
  table_ok tab → tab_nodes tab !! p = None → node_ok nd →
  table_ok (MkTable (tab_buckets tab) (<[p := nd]> (tab_nodes tab)) (tab_contested tab) (tab_self tab)).
Proof.
  intros (Hl & Hb & Hn & Hs) Hp Hnd. split_and!; [done| |by apply map_Forall_insert_2|done].
  cbn [tab_buckets]. intros i b Hi. destruct (Hb i b Hi) as (H1 & H2 & H3).
  set (tab' := MkTable _ _ _ _).
  assert (Hnew : Forall (λ q, belongs tab' i q ∧ node_ID tab' q = node_ID tab q) b).
  { eapply Forall_impl; [done|]. intros q. by apply (belongs_new tab tab' i q p nd). }
  split_and!; [done| |by eapply Forall_impl; [done|intros ? []]].
  rewrite (list_fmap_ext (node_ID tab') (node_ID tab) b); [done|].
  intros k q Hq. by apply (Forall_lookup_1 _ _ _ _ Hnew Hq).
Qed.

Lemma pending_remove (l : list (nat * nat)) k n o (c c' : gset nat) :
  l !! k = Some (n, o) → NoDup l.*2 → (∀ x, x ∈ c ↔ x ∈ l.*2) → c' = c ∖ {[o]} →
  NoDup (take k l ++ drop (S k) l).*2 ∧ (∀ x, x ∈ c' ↔ x ∈ (take k l ++ drop (S k) l).*2).
Proof.
  intros Hk Hn Hc ->. rewrite <-(take_drop_middle l k (n, o) Hk) in Hn, Hc.
  rewrite fmap_app in *. cbn [fmap list_fmap snd] in Hn, Hc.
  apply NoDup_app in Hn as (Ha & Hab & [Ho Hb]%NoDup_cons). split.
  - apply NoDup_app. split_and!; [done| |done]. intros x Hx Hx'. apply (Hab x Hx). by constructor.
  - intros x. rewrite elem_of_difference, Hc, elem_of_singleton, !elem_of_app, elem_of_cons.
    split; [tauto|]. intros [Hx|Hx]; (split; [tauto|]); intros ->; [|done]. apply (Hab o Hx). by constructor.
Qed.

Lemma tstep_ok s l s' : sys_ok s → tstep s l s' → sys_ok s'.
Proof.
  intros Hs Hstep. pose proof Hs as (Hok & Hp & Hn & Hc).
  destruct Hstep as [s p nd Hfresh Hnd|s n tab (nd & Hnd & Hne) Ht|s n tab o (nd & Hnd & Hne) Ht|s k n o ok tab Hk Ht
    |s ns tab Hns Ht|s n tab [nd Hnd] Ht|s id].
  - split_and!; [by apply table_ok_new| |done..]. cbn. eapply Forall_impl; [done|].
    intros q ((nd' & Hq & Hne) & [od Ho]). unfold other_node. cbn.
    rewrite !lookup_insert_ne by congruence. eauto.
  - destruct (add_begin_ok _ n nd Hok Hnd Hne) as (t & a & Ha & Htok & E1 & E2 & E3). rewrite Ha in Ht. simplify_eq.
    by apply sys_ok_same_nodes.
  - destruct (add_begin_ok _ n nd Hok Hnd Hne) as (t & a & Ha & Htok & E1 & E2 & E3). rewrite Ha in Ht. simplify_eq.
    destruct E3 as (Ho & Ec & Hod & _).
    split_and!; cbn; [done|..].
    + unfold other_node. rewrite E1, E2, Forall_app, Forall_singleton. split; [done|]. cbn. eauto.
    + rewrite fmap_app. apply NoDup_app. split_and!; [done| |by apply NoDup_singleton].
      intros x Hx ->%list_elem_of_singleton. by apply Ho, Hc.
    + intros x. rewrite Ec, fmap_app, elem_of_union, elem_of_app, elem_of_singleton, Hc. cbn.
      rewrite list_elem_of_singleton. tauto.
  - pose proof (Forall_lookup_1 _ _ _ _ Hp Hk) as [(nd & Hnd & Hne) _].
    destruct (add_end_ok _ n o ok nd Hok Hnd Hne) as (t & Ha & Htok & E1 & E2 & E3). rewrite Ha in Ht. simplify_eq.
    destruct (pending_remove _ k n o _ _ Hk Hn Hc E3). split_and!; cbn; [done| |done..].
    unfold other_node. rewrite E1, E2. rewrite <-(take_drop_middle _ _ _ Hk) in Hp.
    apply Forall_app in Hp as [? Hp]. apply Forall_app. by inversion Hp.
  - destruct (stuff_ok ns _ Hok Hns) as (t & Ha & Htok & E1 & E2 & E3). rewrite Ha in Ht. simplify_eq. by apply sys_ok_same_nodes.
  - destruct (Table_delete_ok _ n nd Hok Hnd) as (t & Ha & Htok & E1 & E2 & E3). rewrite Ha in Ht. simplify_eq.
    by apply sys_ok_same_nodes.
  - destruct (RemoveNode_ok _ id Hok) as (Htok & E1 & E2 & E3). by apply sys_ok_same_nodes.
Qed.

Lemma sys_ok_init self : node_ok self → sys_ok {| s_tab := newTable self; s_pending := [] |}.
Proof.
  intros Hs. split_and!; cbn; [|by constructor..|intros; set_solver].
  split_and!; [done| |by apply map_Forall_empty|done].
  intros i b Hi. unfold newTable in Hi. cbn [s_tab tab_buckets] in Hi. apply lookup_replicate in Hi as [-> _].
  split_and!; [cbn; lia|by constructor..].
Qed.

Lemma reachable_ok self s : node_ok self → reachable self s → sys_ok s.
Proof. intros Hs. induction 1; [by apply sys_ok_init|by eapply tstep_ok]. Qed.

(** ** The identifiers in the table *)

Definition ids (tab : Table) : list (option bytes) := node_ID tab <$> FindNodes tab.

Lemma elem_of_concat {A} (bs : list (list A)) p : p ∈ concat bs ↔ ∃ b, p ∈ b ∧ b ∈ bs.
Proof.
  rewrite list_elem_of_In, in_concat. setoid_rewrite list_elem_of_In. split; intros (b & H1 & H2); eauto.
Qed.

Lemma elem_of_ids tab x :
  x ∈ ids tab ↔ ∃ i b, tab_buckets tab !! i = Some b ∧ x ∈ (node_ID tab <$> b).
Proof.
  unfold ids, FindNodes. rewrite list_elem_of_fmap. split.
  - intros (p & -> & Hp). apply elem_of_concat in Hp as (b & Hb & [i Hi]%list_elem_of_lookup_1).
    exists i, b. split; [done|]. by apply list_elem_of_fmap_2.
  - intros (i & b & Hi & (p & -> & Hp)%list_elem_of_fmap). exists p. split; [done|].
    apply elem_of_concat. exists b. split; [done|]. by eapply list_elem_of_lookup_2.
Qed.

Lemma NoDup_fmap_concat {A B} (f : A → B) (bs : list (list A)) :
  (∀ i b, bs !! i = Some b → NoDup (f <$> b)) →
  (∀ i j b c x, bs !! i = Some b → bs !! j = Some c → x ∈ (f <$> b) → x ∈ (f <$> c) → i = j) →
  NoDup (f <$> concat bs).
Proof.
  induction bs as [|b bs IH]; intros Hn Hd; cbn; [constructor|]. rewrite fmap_app. apply NoDup_app. split_and!.
  - by apply (Hn 0%nat).
  - intros x Hx (p & -> & (c & Hc & [j Hj]%list_elem_of_lookup_1)%elem_of_concat)%list_elem_of_fmap.
    enough (0%nat = S j) by lia. eapply Hd; [done|exact Hj|done|]. by apply list_elem_of_fmap_2.
  - apply IH.
    + intros i c Hi. by apply (Hn (S i)).
    + intros i j c d x Hi Hj Hx Hx'. enough (S i = S j) by lia. by eapply Hd.
Qed.

Lemma belongs_id tab i j p q :
  table_ok tab → belongs tab i p → belongs tab j q → node_ID tab p = node_ID tab q → i = j.
Proof.
  intros (_ & _ & Hn & _) (pd & Hp & Hi & _) (qd & Hq & Hj & _). unfold node_ID. rewrite Hp, Hq.
  intros [= Hid]. pose proof (Hn p pd Hp) as Ep. pose proof (Hn q qd Hq) as Eq. cbn in Ep, Eq. unfold node_ok in *.
  rewrite Ep, Hid, <-Eq, Hj in Hi. injection Hi. lia.
Qed.

Lemma ids_NoDup tab : table_ok tab → NoDup (ids tab).
Proof.
  intros Hok. pose proof Hok as (_ & Hb & _). apply NoDup_fmap_concat.
  - intros i b Hi. by apply (Hb i b).
  - intros i j b c x Hi Hj (p & -> & Hp)%list_elem_of_fmap (q & Hid & Hq)%list_elem_of_fmap.
    destruct (Hb i b Hi) as (_ & _ & Hfb). destruct (Hb j c Hj) as (_ & _ & Hfc). rewrite Forall_forall in Hfb, Hfc.
    by apply (belongs_id tab i j p q); [|apply Hfb|apply Hfc|].
Qed.

Lemma ids_known tab x :
  table_ok tab → x ∈ ids tab → ∃ id, x = Some id ∧ id ≠ nd_ID (tab_self tab).
Proof.
  intros Hok (i & b & Hi & (p & -> & Hp)%list_elem_of_fmap)%elem_of_ids. destruct Hok as (_ & Hb & _).
  destruct (Hb i b Hi) as (_ & _ & Hf). rewrite Forall_forall in Hf. destruct (Hf p Hp) as (nd & Hnd & _ & Hne).
  exists (nd_ID nd). unfold node_ID. by rewrite Hnd.
Qed.

Lemma Table_len_spec tab : Table_len tab = length (FindNodes tab).
Proof.
  unfold Table_len, FindNodes. induction (tab_buckets tab) as [|b bs IH]; cbn; [done|]. rewrite length_app. lia.
Qed.

Lemma Table_len_bound tab : table_ok tab → (Table_len tab ≤ nBuckets * bucketSize)%nat.
Proof.
  intros (Hl & Hb & _). unfold Table_len. rewrite <-Hl.
  assert (Hf : Forall (λ b, (length b ≤ bucketSize)%nat) (tab_buckets tab)).
  { apply Forall_lookup_2. intros i b Hi. by apply (Hb i b). }
  clear Hl Hb. induction Hf as [|b bs Hb _ IH]; cbn [foldr length]; lia.
Qed.

(** Changing one bucket. *)
Lemma ids_with_bucket tab i b b' x :
  table_ok tab → tab_buckets tab !! i = Some b →
  x ∈ ids (with_bucket tab i b') ↔ (x ∈ ids tab ∧ x ∉ (node_ID tab <$> b)) ∨ x ∈ (node_ID tab <$> b').
Proof.
  intros Hok Hi. rewrite !elem_of_ids. cbn [with_bucket tab_buckets].
  pose proof (lookup_lt_Some _ _ _ Hi) as Hlt. split.
  - intros (j & c & Hj & Hx). destruct (decide (j = i)) as [->|Hne].
    + rewrite list_lookup_insert_eq in Hj by done. simplify_eq. by right.
    + rewrite list_lookup_insert_ne in Hj by done. left. split; [by eauto|]. intros Hx'. destruct Hne.
      apply list_elem_of_fmap in Hx as (p & -> & Hp), Hx' as (q & Hid & Hq). destruct (Hok) as (_ & Hb & _).
      destruct (Hb j c Hj) as (_ & _ & Hfc). destruct (Hb i b Hi) as (_ & _ & Hfb). rewrite Forall_forall in Hfb, Hfc.
      by apply (belongs_id tab j i p q); [|apply Hfc|apply Hfb|].
  - intros [[(j & c & Hj & Hx) Hb]|Hx].
    + exists j, c. rewrite list_lookup_insert_ne by (intros ->; congruence). done.
    + exists i, b'. by rewrite list_lookup_insert_eq.
Qed.

Lemma ids_bump tab i b n b' x :
  table_ok tab → tab_buckets tab !! i = Some b → bump tab b n = Some b' →
  x ∈ ids (with_bucket tab i b') ↔ x ∈ ids tab.
Proof.
  intros Hok Hi (k & p & Hk & Hid & ->)%bump_spec. rewrite (ids_with_bucket tab i b) by done.
  assert (Hx : x ∈ (node_ID tab <$> n :: remove_at b k) ↔ x ∈ (node_ID tab <$> b)).
  { rewrite <-(take_drop_middle b k p Hk) at 2. unfold remove_at. cbn [fmap list_fmap]. rewrite !fmap_app. cbn.
    rewrite !elem_of_cons, !elem_of_app, !elem_of_cons, Hid. tauto. }
  rewrite Hx. split; [|destruct (decide (x ∈ (node_ID tab <$> b))); tauto].
  intros [[??]|?]; [done|]. apply elem_of_ids. eauto.
Qed.

Lemma ids_cons tab i b n x :
  table_ok tab → tab_buckets tab !! i = Some b →
  x ∈ ids (with_bucket tab i (n :: b)) ↔ x ∈ ids tab ∨ x = node_ID tab n.
Proof.
  intros Hok Hi. rewrite (ids_with_bucket tab i b) by done. cbn [fmap list_fmap]. rewrite elem_of_cons.
  assert (x ∈ (node_ID tab <$> b) → x ∈ ids tab) by (intros; apply elem_of_ids; eauto).
  destruct (decide (x ∈ (node_ID tab <$> b))); tauto.
Qed.

Lemma ids_snoc tab i b n x :
  table_ok tab → tab_buckets tab !! i = Some b →
  x ∈ ids (with_bucket tab i (b ++ [n])) ↔ x ∈ ids tab ∨ x = node_ID tab n.
Proof.
  intros Hok Hi. rewrite <-(ids_cons tab i b n x), !(ids_with_bucket tab i b) by done.
  rewrite fmap_app. cbn. rewrite elem_of_app, !elem_of_cons, elem_of_nil. tauto.
Qed.

Lemma ids_remove tab i b k p x :
  table_ok tab → tab_buckets tab !! i = Some b → b !! k = Some p →
  x ∈ ids (with_bucket tab i (remove_at b k)) ↔ x ∈ ids tab ∧ x ≠ node_ID tab p.
Proof.
  intros Hok Hi Hk. rewrite (ids_with_bucket tab i b) by done. unfold remove_at.
  assert (Hin : x ∈ (node_ID tab <$> b) → x ∈ ids tab) by (intros; apply elem_of_ids; eauto).
  assert (Hn : NoDup (node_ID tab <$> b)) by (apply Hok in Hi; apply Hi).
  assert (Hb : node_ID tab <$> b = (node_ID tab <$> take k b) ++ node_ID tab p :: (node_ID tab <$> drop (S k) b)).
  { by rewrite <-fmap_cons, <-fmap_app, take_drop_middle. }
  rewrite fmap_app, Hb in *. rewrite !elem_of_app, elem_of_cons. rewrite elem_of_app, elem_of_cons in Hin.
  apply NoDup_app in Hn as (_ & Hd & [Hp _]%NoDup_cons). specialize (Hd x). rewrite elem_of_cons in Hd.
  destruct (decide (x = node_ID tab p)) as [->|]; [tauto|].
  destruct (decide (x ∈ (node_ID tab <$> take k b))), (decide (x ∈ (node_ID tab <$> drop (S k) b))); tauto.
Qed.

Lemma ids_id tab i b n :
  tab_buckets tab !! i = Some b → node_ID tab n ∈ (node_ID tab <$> b) → node_ID tab n ∈ ids tab.
Proof. intros. apply elem_of_ids. eauto. Qed.

Lemma has_id_ids tab i b n nd :
  table_ok tab → tab_nodes tab !! n = Some nd → bucket_index tab n = Ok i → tab_buckets tab !! i = Some b →
  node_ID tab n ∈ (node_ID tab <$> b) ↔ node_ID tab n ∈ ids tab.
Proof.
  intros Hok Hn Hi Hb. split; [by apply (ids_id tab i)|].
  intros (j & c & Hj & Hx)%elem_of_ids. apply list_elem_of_fmap in Hx as (q & Hid & Hq).
  enough (j = i) as ->; [simplify_eq; rewrite Hid; by apply list_elem_of_fmap_2|].
  destruct (Hok) as (_ & Hbs & Hsha & _). destruct (Hbs j c Hj) as (_ & _ & Hf).
  rewrite Forall_forall in Hf. destruct (Hf q Hq) as (qd & Hqd & Hdist & _).
  unfold bucket_index in Hi. unfold node_ID in Hid. rewrite Hn, Hqd in *. injection Hid as Hid.
  pose proof (Hsha n nd Hn) as E1. pose proof (Hsha q qd Hqd) as E2. cbn in E1, E2. unfold node_ok in *.
  rewrite E2, <-Hid, <-E1 in Hdist. rewrite Hdist in Hi. cbn in Hi. injection Hi. lia.
Qed.

(** Whether the bucket of a node has a free entry. *)
Definition has_room (tab : Table) (n : nat) : Prop :=
  ∃ i b, bucket_index tab n = Ok i ∧ tab_buckets tab !! i = Some b ∧ (length b < bucketSize)%nat.

Lemma add_begin_ids tab n nd tab' a x :
  table_ok tab → tab_nodes tab !! n = Some nd → add_begin tab n = Ok (tab', a) →
  x ∈ ids tab' ↔ x ∈ ids tab ∨ (x = node_ID tab n ∧ has_room tab n).
Proof.
  intros Hok Hn Ha. destruct (bucket_of tab n nd Hok Hn) as (i & b & Hi & Hb & Hbok & _).
  assert (Hroom : has_room tab n ↔ (length b < bucketSize)%nat).
  { unfold has_room. split; [intros (j & c & ? & ? & ?); congruence|by eauto 6]. }
  unfold add_begin in Ha. rewrite Hi in Ha. cbn [obind] in Ha. rewrite (bucket_lookup _ _ _ Hb) in Ha. cbn [obind] in Ha.
  pose proof (has_id_ids tab i b n nd Hok Hn Hi Hb) as Hids.
  destruct (bump tab b n) as [b'|] eqn:Eb.
  { injection Ha as <- <-. rewrite (ids_bump tab i b n b') by done.
    apply bump_spec in Eb as (k & p & Hk & Hid & _). rewrite <-Hid in Hids at 1.
    split; [tauto|]. intros [?|[-> _]]; [done|]. apply Hids, list_elem_of_fmap_2. by eapply list_elem_of_lookup_2. }
  assert (Hnot : node_ID tab n ∉ (node_ID tab <$> b)).
  { apply has_id_None. unfold bump in Eb. by destruct (has_id tab b _). }
  destruct (Nat.eqb_spec (length b) bucketSize) as [Hl|Hl].
  - destruct (b.[(bucketSize - 1)%nat]) as [o| |]; [|done..]. cbn [obind] in Ha.
    assert (ids tab' = ids tab) as -> by (case_decide; injection Ha as <- <-; done). rewrite Hroom.
    split; [tauto|]. intros [?|[_ ?]]; [done|lia].
  - assert (Hlt : (length b < bucketSize)%nat) by (destruct Hbok; lia).
    rewrite replace_room in Ha by done. injection Ha as <- <-. rewrite ids_cons by done. tauto.
Qed.

Lemma add_end_ids tab n nd o tab' :
  table_ok tab → tab_nodes tab !! n = Some nd → add_end tab n o false = Ok tab' →
  (∀ x, x ∈ ids tab' ↔ x ∈ ids tab) ∨
  (has_room tab n ∧ ∀ x, x ∈ ids tab' ↔ x ∈ ids tab ∨ x = node_ID tab n) ∨
  (¬ has_room tab n ∧ node_ID tab n ∉ ids tab ∧ ∀ x, x ∈ ids tab' ↔ x ∈ ids tab ∧ x ≠ node_ID tab o ∨ x = node_ID tab n).
Proof.
  intros Hok Hn Ha. destruct (bucket_of tab n nd Hok Hn) as (i & b & Hi & Hb & Hbok & _).
  unfold add_end in Ha. set (tab0 := with_contested _ _) in Ha.
  assert (Hok0 : table_ok tab0) by done. assert (Hi0 : bucket_index tab0 n = Ok i) by done.
  assert (Hb0 : tab_buckets tab0 !! i = Some b) by done. assert (Hn0 : tab_nodes tab0 !! n = Some nd) by done.
  rewrite Hi0 in Ha. cbn [obind] in Ha. rewrite (bucket_lookup _ _ _ Hb0) in Ha. cbn [obind] in Ha.
  destruct (replace tab0 b n (Some o)) as [b'|] eqn:Er; [|injection Ha as <-; by left].
  injection Ha as <-. right. destruct (Nat.ltb_spec (length b) bucketSize) as [Hlt|Hge].
  - left. split; [by exists i, b|]. intros x. change (ids tab) with (ids tab0).
    apply replace_room_inv in Er as [_ ->]; [|done].
    change (node_ID tab n) with (node_ID tab0 n). by apply ids_cons.
  - right. apply replace_full in Er as (Hid & pre & p & Hpre & Hpo & ->); [|destruct Hbok; lia].
    split_and!.
    + intros (j & c & ? & ? & ?). assert (c = b) by congruence. subst. lia.
    + intros Hin. by apply Hid, (has_id_ids tab0 i b n nd).
    + intros x. assert (Hl : b !! length pre = Some p) by (by rewrite Hpre, list_lookup_middle).
      pose proof (ids_remove tab0 i b (length pre) p x Hok0 Hb0 Hl) as Hrem.
      assert (remove_at b (length pre) = pre) as Hpr.
      { unfold remove_at. rewrite Hpre, take_app_length, drop_ge by (rewrite length_app; cbn; lia). apply app_nil_r. }
      rewrite Hpr, ids_with_bucket, Hpo in Hrem by done. change (ids tab) with (ids tab0).
      change (node_ID tab) with (node_ID tab0). rewrite <-Hrem, ids_with_bucket by done. cbn [fmap list_fmap].
      rewrite elem_of_cons. tauto.
Qed.

Lemma stuff_one_ids tab n nd tab' x :
  table_ok tab → tab_nodes tab !! n = Some nd → stuff_one tab n = Ok tab' →
  (x ∈ ids tab → x ∈ ids tab') ∧ (x ∈ ids tab' → x ∈ ids tab ∨ x = node_ID tab n).
Proof.
  intros Hok Hn Ha. destruct (bucket_of tab n nd Hok Hn) as (i & b & Hi & Hb & _ & _).
  unfold stuff_one in Ha. case_bool_decide; [simplify_eq; tauto|].
  rewrite Hi in Ha. cbn [obind] in Ha. rewrite (bucket_lookup _ _ _ Hb) in Ha. cbn [obind] in Ha.
  destruct (has_id tab b _); [simplify_eq; tauto|]. destruct (length b <? bucketSize)%nat; simplify_eq; [|tauto].
  rewrite ids_snoc by done. tauto.
Qed.

Lemma stuff_ids ns tab tab' x :
  table_ok tab → Forall (λ n, is_Some (tab_nodes tab !! n)) ns → stuff tab ns = Ok tab' →
  (x ∈ ids tab → x ∈ ids tab') ∧ (x ∈ ids tab' → x ∈ ids tab ∨ x ∈ (node_ID tab <$> ns)).
Proof.
  revert tab. induction ns as [|n ns IH]; intros tab Hok Hns Ht; [injection Ht as <-; tauto|].
  inversion_clear Hns as [|?? [nd Hn] Hns']. destruct (stuff_one_ok tab n nd Hok Hn) as (t & Hone & Htok & E1 & _).
  unfold stuff in Ht. cbn [oloop] in Ht. rewrite Hone in Ht. cbn [obind] in Ht.
  destruct (stuff_one_ids tab n nd t x Hok Hn Hone) as [H1 H2]. rewrite <-E1 in Hns'.
  destruct (IH t Htok Hns' Ht) as [H3 H4]. assert (node_ID t = node_ID tab) as E by (unfold node_ID; by rewrite E1).
  rewrite E in H4. cbn [fmap list_fmap]. rewrite elem_of_cons. tauto.
Qed.

Lemma Table_delete_ids tab n nd tab' x :
  table_ok tab → tab_nodes tab !! n = Some nd → Table_delete tab n = Ok tab' →
  x ∈ ids tab' ↔ x ∈ ids tab ∧ x ≠ node_ID tab n.
Proof.
  intros Hok Hn Ha. destruct (bucket_of tab n nd Hok Hn) as (i & b & Hi & Hb & _ & _).
  unfold Table_delete in Ha. rewrite Hi in Ha. cbn [obind] in Ha. rewrite (bucket_lookup _ _ _ Hb) in Ha.
  cbn [obind] in Ha. destruct (has_id tab b _) as [k|] eqn:E; injection Ha as <-.
  - apply has_id_Some in E as (p & Hp & <-). by apply ids_remove.
  - apply has_id_None in E. rewrite (has_id_ids tab i b n nd) in E by done. split; [|tauto]. naive_solver.
Qed.

Lemma RemoveNode_from_None tab id bs i b :
  RemoveNode_from tab id bs i = tab → table_ok tab → bs = drop i (tab_buckets tab) → b ∈ bs →
  Some id ∉ (node_ID tab <$> b).
Proof.
  revert i. induction bs as [|c bs IH]; intros i Hr Hok E Hb; [by apply not_elem_of_nil in Hb|].
  cbn [RemoveNode_from] in Hr. destruct (has_id tab c (Some id)) as [k|] eqn:Eid.
  - apply has_id_Some in Eid as (p & Hp & Hid).
    assert (Hc : tab_buckets tab !! i = Some c) by (rewrite <-(Nat.add_0_r i), <-lookup_drop, <-E; done).
    destruct (ids_remove tab i c k p (Some id) Hok Hc Hp) as [Hx _]. rewrite Hr, Hid in Hx.
    destruct Hx; [|done]. apply elem_of_ids. exists i, c. split; [done|]. rewrite <-Hid.
    apply list_elem_of_fmap_2. by eapply list_elem_of_lookup_2.
  - apply elem_of_cons in Hb as [->|Hb]; [by apply has_id_None|].
    apply (IH (S i)); [done..| |done]. by rewrite <-Nat.add_1_r, <-drop_drop, <-E.
Qed.

Lemma RemoveNode_ids tab id x :
  table_ok tab → x ∈ ids (RemoveNode tab id) ↔ x ∈ ids tab ∧ x ≠ Some id.
Proof.
  intros Hok. unfold RemoveNode.
  destruct (RemoveNode_from_cases tab id (tab_buckets tab) 0 eq_refl) as [(i & b & k & p & Hb & Hp & Hid & ->)|E].
  - rewrite <-Hid. by apply ids_remove.
  - rewrite E. split; [|tauto]. intros Hx. split; [done|]. intros ->.
    apply elem_of_ids in Hx as (i & b & Hb & Hx). revert Hx. apply (RemoveNode_from_None tab id (tab_buckets tab) 0); try done.
    by eapply list_elem_of_lookup_2.
Qed.

Lemma ids_new tab p nd :
  table_ok tab → tab_nodes tab !! p = None →
  ids (MkTable (tab_buckets tab) (<[p := nd]> (tab_nodes tab)) (tab_contested tab) (tab_self tab)) = ids tab.
Proof.
  intros (_ & Hb & _) Hp. unfold ids, FindNodes. cbn [tab_buckets]. apply list_fmap_ext. intros k q Hq.
  apply list_elem_of_lookup_2, elem_of_concat in Hq as (b & Hqb & [i Hi]%list_elem_of_lookup_1).
  destruct (Hb i b Hi) as (_ & _ & Hf). rewrite Forall_forall in Hf.
  by apply (belongs_new tab _ i q p nd); [| | |apply Hf].
Qed.

Lemma tstep_self s l s' : sys_ok s → tstep s l s' → tab_self (s_tab s') = tab_self (s_tab s).
Proof.
  intros (Hok & Hp & _) Hstep.
  destruct Hstep as [s p nd _ _|s n tab (nd & Hnd & Hne) Ht|s n tab o (nd & Hnd & Hne) Ht|s k n o ok tab Hk Ht
    |s ns tab Hns Ht|s n tab [nd Hnd] Ht|s id]; cbn [s_tab].
  - done.
  - destruct (add_begin_ok _ n nd Hok Hnd Hne) as (t & a & Ha & _ & _ & E & _). congruence.
  - destruct (add_begin_ok _ n nd Hok Hnd Hne) as (t & a & Ha & _ & _ & E & _). congruence.
  - pose proof (Forall_lookup_1 _ _ _ _ Hp Hk) as [(nd & Hnd & Hne) _].
    destruct (add_end_ok _ n o ok nd Hok Hnd Hne) as (t & Ha & _ & _ & E & _). congruence.
  - destruct (stuff_ok ns _ Hok Hns) as (t & Ha & _ & _ & E & _). congruence.
  - destruct (Table_delete_ok _ n nd Hok Hnd) as (t & Ha & _ & _ & E & _). congruence.
  - apply (RemoveNode_ok _ id Hok).
Qed.

Lemma reachable_self self s : node_ok self → reachable self s → tab_self (s_tab s) = self.
Proof.
  intros Hs. induction 1 as [|s l s' Hr IH Hstep]; [done|]. rewrite <-IH. eapply tstep_self; [|done].
  by eapply reachable_ok.
Qed.

Lemma NewNode_ok id ip udp tcp : node_ok (NewNode id ip udp tcp).
Proof. done. Qed.

(** C20: in every state that the calls of the table's methods reach, also while calls of
    [add] wait for the answer of an old entry, no identifier is in the table twice and the
    node itself is not, every entry is in the bucket of its distance, buckets and table keep
    to their sizes, the waiting calls ping different entries, exactly those marked as
    contested, and no method panics. *)
Theorem table_invariant self s :
  node_ok self → reachable self s →
  NoDup (ids (s_tab s)) ∧ Some (nd_ID self) ∉ ids (s_tab s) ∧
  (∀ i b p, tab_buckets (s_tab s) !! i = Some b → p ∈ b →
     (i < nBuckets)%nat ∧ (length b ≤ bucketSize)%nat ∧
     ∃ nd, tab_nodes (s_tab s) !! p = Some nd ∧ logdist (nd_sha self) (nd_sha nd) = Ok (Z.of_nat i)) ∧
  Table_len (s_tab s) = length (FindNodes (s_tab s)) ∧ (Table_len (s_tab s) ≤ nBuckets * bucketSize)%nat ∧
  NoDup (s_pending s).*2 ∧ (∀ o, o ∈ tab_contested (s_tab s) ↔ o ∈ (s_pending s).*2) ∧
  (∀ n, other_node (s_tab s) n → ∃ r, add_begin (s_tab s) n = Ok r) ∧
  (∀ n o ok, (n, o) ∈ s_pending s → ∃ r, add_end (s_tab s) n o ok = Ok r) ∧
  (∀ n, is_Some (tab_nodes (s_tab s) !! n) → ∃ r, Table_delete (s_tab s) n = Ok r) ∧
  (∀ ns, Forall (λ n, is_Some (tab_nodes (s_tab s) !! n)) ns → ∃ r, stuff (s_tab s) ns = Ok r).
Proof.
  intros Hself Hr. pose proof (reachable_self _ _ Hself Hr) as Es.
  destruct (reachable_ok _ _ Hself Hr) as (Hok & Hp & Hn & Hc). split_and!; try done.
  - by apply ids_NoDup.
  - intros (id & [= <-] & Hne)%ids_known; [|done]. by rewrite Es in Hne.
  - intros i b p Hi Hin. destruct Hok as (Hl & Hb & _). destruct (Hb i b Hi) as (Hlen & _ & Hf).
    rewrite Forall_forall in Hf. destruct (Hf p Hin) as (nd & Hnd & Hd & _). rewrite <-Es, <-Hl.
    split_and!; [by eapply lookup_lt_Some|done|by exists nd].
  - apply Table_len_spec.
  - by apply Table_len_bound.
  - intros n (nd & Hnd & Hne). destruct (add_begin_ok _ n nd Hok Hnd Hne) as (t & a & Ha & _). by exists (t, a).
  - intros n o ok Hin. rewrite Forall_forall in Hp. destruct (Hp _ Hin) as [(nd & Hnd & Hne) _].
    destruct (add_end_ok _ n o ok nd Hok Hnd Hne) as (t & Ha & _). by exists t.
  - intros n [nd Hnd]. destruct (Table_delete_ok _ n nd Hok Hnd) as (t & Ha & _). by exists t.
  - intros ns Hns. destruct (stuff_ok ns _ Hok Hns) as (t & Ha & _). by exists t.
Qed.

(** C24: what each call does to the identifiers in the table. A node that is there stays
    unless it is deleted or removed, or a ping of it fails while its bucket is full, and then
    the node that asked for its place has it; [add] enters the node when its bucket has room;
    deleted and removed nodes are gone. *)
Theorem table_membership self s l s' :
  node_ok self → reachable self s → tstep s l s' →
  match l with
  | LNew _ _ => ids (s_tab s') = ids (s_tab s)
  | LAdd n => ∀ x, x ∈ ids (s_tab s') ↔ x ∈ ids (s_tab s) ∨ (x = node_ID (s_tab s) n ∧ has_room (s_tab s) n)
  | LPing k true => ids (s_tab s') = ids (s_tab s)
  | LPing k false =>
      ∃ n o, s_pending s !! k = Some (n, o) ∧
      ((∀ x, x ∈ ids (s_tab s') ↔ x ∈ ids (s_tab s)) ∨
       (has_room (s_tab s) n ∧ ∀ x, x ∈ ids (s_tab s') ↔ x ∈ ids (s_tab s) ∨ x = node_ID (s_tab s) n) ∨
       (¬ has_room (s_tab s) n ∧ node_ID (s_tab s) n ∉ ids (s_tab s) ∧
        ∀ x, x ∈ ids (s_tab s') ↔ x ∈ ids (s_tab s) ∧ x ≠ node_ID (s_tab s) o ∨ x = node_ID (s_tab s) n))
  | LStuff ns =>
      ∀ x, (x ∈ ids (s_tab s) → x ∈ ids (s_tab s')) ∧
           (x ∈ ids (s_tab s') → x ∈ ids (s_tab s) ∨ x ∈ (node_ID (s_tab s) <$> ns))
  | LDelete n => ∀ x, x ∈ ids (s_tab s') ↔ x ∈ ids (s_tab s) ∧ x ≠ node_ID (s_tab s) n
  | LRemove id => ∀ x, x ∈ ids (s_tab s') ↔ x ∈ ids (s_tab s) ∧ x ≠ Some id
  end.
Proof.
  intros Hself Hr Hstep. destruct (reachable_ok _ _ Hself Hr) as (Hok & Hp & _).
  destruct Hstep as [s p nd Hf _|s n tab (nd & Hnd & _) Ht|s n tab o (nd & Hnd & _) Ht|s k n o ok tab Hk Ht
    |s ns tab Hns Ht|s n tab [nd Hnd] Ht|s id]; cbn [s_tab].
  - by apply ids_new.
  - intros x. by eapply add_begin_ids.
  - intros x. by eapply add_begin_ids.
  - pose proof (Forall_lookup_1 _ _ _ _ Hp Hk) as [(nd & Hnd & _) _]. destruct ok.
    + by injection Ht as <-.
    + exists n, o. split; [done|]. by eapply add_end_ids.
  - intros x. by apply stuff_ids.
  - intros x. by eapply Table_delete_ids.
  - intros x. by apply RemoveNode_ids.
Qed.
End invariant.

(** ** An example *)

Definition ex_node (b : Z) : Node := NewNode (replicate 64 b) (Some [10; 0; 0; 1]) 30301 30301.
Definition ex_sys : sys :=
  {| s_tab := MkTable (replicate nBuckets []) {[1%nat := ex_node 2]} ∅ (ex_node 1); s_pending := [] |}.

Lemma ex_node_ok b : node_ok (ex_node b).
Proof. apply NewNode_ok. Qed.

Lemma ex_sys_reachable : reachable (ex_node 1) ex_sys.
Proof.
  eapply reach_step; [apply reach_init|]. unfold ex_sys.
  apply (st_new {| s_tab := newTable (ex_node 1); s_pending := [] |} 1 (ex_node 2)); [done|apply ex_node_ok].
Qed.

Lemma ex_other : other_node (s_tab ex_sys) 1.
Proof. exists (ex_node 2). split; [done|]. cbn [nd_ID ex_node NewNode ex_sys s_tab tab_self]. discriminate. Qed.

Lemma table_invariant_witness : ∃ r, add_begin (s_tab ex_sys) 1 = Ok r.
Proof.
  destruct (table_invariant (ex_node 1) ex_sys (ex_node_ok 1) ex_sys_reachable)
    as (_ & _ & _ & _ & _ & _ & _ & Hadd & _). apply Hadd, ex_other.
Defined.

Lemma ex_table_room : has_room (s_tab ex_sys) 1.
Proof.
  destruct (reachable_ok _ _ (ex_node_ok 1) ex_sys_reachable) as [Hok _].
  destruct (bucket_of _ 1 (ex_node 2) Hok eq_refl) as (i & b & Hi & Hb & _). exists i, b. split_and!; [done..|].
  apply lookup_replicate in Hb as [-> _]. unfold bucketSize. cbn [length]. lia.
Qed.

Lemma ex_step : ∃ s', tstep ex_sys (LAdd 1) s'.
Proof.
  destruct (reachable_ok _ _ (ex_node_ok 1) ex_sys_reachable) as [Hok _]. pose proof ex_other as (nd & Hnd & Hne).
  destruct (add_begin_ok _ 1 nd Hok Hnd Hne) as (tab & [|o] & Ha & _); eexists.
  - apply st_add_done; [apply ex_other|exact Ha].
  - eapply st_add_ping; [apply ex_other|exact Ha].
Qed.

Lemma table_membership_witness :
  ∃ s', tstep ex_sys (LAdd 1) s' ∧ node_ID (s_tab ex_sys) 1 ∈ ids (s_tab s').
Proof.
  destruct ex_step as [s' Hs]. exists s'. split; [exact Hs|].
  apply (table_membership (ex_node 1) ex_sys (LAdd 1) s' (ex_node_ok 1) ex_sys_reachable Hs).
  right. split; [reflexivity|apply ex_table_room].
Defined.
