(* ===== verification/DiscoverDb.v ===== *)
(** * The database of nodes: network/p2p/discover/database.go

    The records of a node are entries of one LevelDB store, a finite map from keys to
    values whose iterators go through a snapshot in the order of the keys. Times are in
    nanoseconds since 1970. The encoding of integers is that of Go's encoding/binary. *)

From stdpp Require Import sorting.
From S2P Require Import Prelude RlpSpec RlpRaw RlpEncode RlpStream RlpRoundtrip RlpTotal TrieEncoding TrieSpec TrieNode Trie TrieMap Sha256 Merkletree Types ChainDb MathBig Hexutil Secp256k1Curve Crypto Netutil DiscoverNode.
Local Open Scope Z_scope.

(** ** Integers of variable length *)

(** Ten bytes are enough for 64 bits. *)
Fixpoint put_uvarint (n : nat) (x : Z) : bytes :=
  match n with
  | O => []
  | S n => if 128 <=? x then Z.lor (u8 x) 128 :: put_uvarint n (Z.shiftr x 7) else [u8 x]
  end.
Definition PutUvarint (x : Z) : bytes := put_uvarint 10 x.

Definition PutVarint (x : Z) : bytes :=
  let ux := wrap 64 (Z.shiftl (wrap 64 x) 1) in
  PutUvarint (if x <? 0 then Z.lxor ux (2 ^ 64 - 1) else ux).

Fixpoint uvarint_loop (buf : bytes) (i : Z) (x s : Z) : Z * Z :=
  match buf with
  | [] => (0, 0)
  | b :: buf =>
      if b <? 128 then
        if (9 <? i) || ((i =? 9) && (1 <? b)) then (0, - (i + 1))
        else (Z.lor x (wrap 64 (Z.shiftl b s)), i + 1)
      else uvarint_loop buf (i + 1) (Z.lor x (wrap 64 (Z.shiftl (Z.land b 127) s))) (s + 7)
  end.
Definition Uvarint (buf : bytes) : Z * Z := uvarint_loop buf 0 0 0.

Definition Varint (buf : bytes) : Z * Z :=
  let (ux, n) := Uvarint buf in
  let x := Z.shiftr ux 1 in
  (if negb (Z.land ux 1 =? 0) then - x - 1 else x, n).

(** ** Keys *)

Definition nodeDBVersionKey : bytes := ascii_bytes "version".
Definition nodeDBItemPrefix : bytes := ascii_bytes "n:".
Definition nodeDBDiscoverRoot : bytes := ascii_bytes ":discover".
Definition nodeDBDiscoverPing : bytes := nodeDBDiscoverRoot ++ ascii_bytes ":lastping".
Definition nodeDBDiscoverPong : bytes := nodeDBDiscoverRoot ++ ascii_bytes ":lastpong".
Definition nodeDBDiscoverFindFails : bytes := nodeDBDiscoverRoot ++ ascii_bytes ":findfail".
Definition nodeDBNilNodeID : bytes := replicate 64 0.

Definition second : Z := 10 ^ 9.
Definition nodeDBNodeExpiration : Z := 3600 * second.

Definition makeKey (id field : bytes) : bytes :=
  if bool_decide (id = nodeDBNilNodeID) then field else nodeDBItemPrefix ++ (id ++ field).

Definition splitKey (key : bytes) : outcome node_error (bytes * bytes) :=
  if negb (bool_decide (take 2 key = nodeDBItemPrefix)) then Ok (nodeDBNilNodeID, key)
  else
    let item := drop 2 key in
    if (length item <? NodeIDLength)%nat then Panic
    else Ok (take NodeIDLength item, drop NodeIDLength item).

(** ** The store *)

Record nodeDB := MkNodeDB { ndb_lvl : gmap bytes bytes; ndb_self : bytes }.

Definition db_Put (db : nodeDB) (key value : bytes) : nodeDB := MkNodeDB (<[key := value]> (ndb_lvl db)) (ndb_self db).

(** Opening the files with the contents [lvl]; a store of another version is removed
    and opened again, [n] times at most. *)
Fixpoint open_files (n : nat) (lvl : gmap bytes bytes) (version : Z) (self : bytes) : option nodeDB :=
  match n with
  | O => None
  | S n =>
      let currentVer := PutVarint version in
      match lvl !! nodeDBVersionKey with
      | None => Some (MkNodeDB (<[nodeDBVersionKey := currentVer]> lvl) self)
      | Some blob =>
          if negb (bool_decide (blob = currentVer)) then open_files n ∅ version self
          else Some (MkNodeDB lvl self)
      end
  end.
Definition newPersistentNodeDB (lvl : gmap bytes bytes) (version : Z) (self : bytes) : option nodeDB :=
  open_files 2 lvl version self.
Definition newMemoryNodeDB (self : bytes) : nodeDB := MkNodeDB ∅ self.

Definition fetchInt64 (db : nodeDB) (key : bytes) : Z :=
  match ndb_lvl db !! key with
  | None => 0
  | Some blob => let (val, read) := Varint blob in if read <=? 0 then 0 else val
  end.
Definition storeInt64 (db : nodeDB) (key : bytes) (n : Z) : nodeDB := db_Put db key (PutVarint n).

(** Times in nanoseconds; Unix() takes the seconds. *)
Definition lastPing (db : nodeDB) (id : bytes) : Z := fetchInt64 db (makeKey id nodeDBDiscoverPing) * second.
Definition updateLastPing (db : nodeDB) (id : bytes) (instance : Z) : nodeDB :=
  storeInt64 db (makeKey id nodeDBDiscoverPing) (instance / second).
Definition lastPong (db : nodeDB) (id : bytes) : Z := fetchInt64 db (makeKey id nodeDBDiscoverPong) * second.
Definition updateLastPong (db : nodeDB) (id : bytes) (instance : Z) : nodeDB :=
  storeInt64 db (makeKey id nodeDBDiscoverPong) (instance / second).
Definition findFails (db : nodeDB) (id : bytes) : Z := fetchInt64 db (makeKey id nodeDBDiscoverFindFails).
Definition updateFindFails (db : nodeDB) (id : bytes) (fails : Z) : nodeDB :=
  storeInt64 db (makeKey id nodeDBDiscoverFindFails) fails.

(** ** Nodes *)

Definition stored_gval (n : Node) : gval :=
  GPtr (GStruct [GBytes (default [] (nd_IP n)); GUint (nd_UDP n); GUint (nd_TCP n); GBytes (nd_ID n);
                 GUint (nd_TYPE n); GStruct [GUint (nd_Loacation n)]]).
Definition stored_ty : ty :=
  TStruct [TByteSlice; TUint 16; TUint 16; TByteArray 64; TUint 8; TStruct [TUint 8]].

Definition node_of_gval (sha : bytes) (v : gval) : Node :=
  match v with
  | GStruct [GBytes ip; GUint udp; GUint tcp; GBytes id; GUint typ; GStruct [GUint loc]] =>
      MkNode (Some ip) udp tcp id typ loc sha
  | _ => MkNode None 0 0 nodeDBNilNodeID 0 0 sha
  end.

Section nodes.
Context {KC : Keccak}.

Definition db_node (db : nodeDB) (id : bytes) : outcome rlp_error (option Node) :=
  match ndb_lvl db !! makeKey id nodeDBDiscoverRoot with
  | None => Ok None
  | Some blob =>
      match DecodeBytes stored_ty blob with
      | Ok v =>
          let node := node_of_gval (replicate 32 0) v in
          Ok (Some (MkNode (nd_IP node) (nd_UDP node) (nd_TCP node) (nd_ID node) (nd_TYPE node) (nd_Loacation node)
                      (keccak256 (nd_ID node))))
      | Err _ => Ok None
      | Panic => Panic
      end
  end.
End nodes.

Definition updateNode (db : nodeDB) (node : Node) : outcome rlp_error nodeDB :=
  let* blob := EncodeToBytes (stored_gval node) in
  Ok (db_Put db (makeKey (nd_ID node) nodeDBDiscoverRoot) blob).

(** ** Iterators *)

Fixpoint bytes_leb (a b : bytes) : bool :=
  match a, b with
  | [], _ => true
  | _ :: _, [] => false
  | x :: a, y :: b => if x <? y then true else if y <? x then false else bytes_leb a b
  end.
Definition key_le (a b : bytes * bytes) : Prop := bytes_leb a.1 b.1 = true.
#[local] Instance key_le_dec : RelDecision key_le := λ a b, bool_eq_dec (bytes_leb a.1 b.1) true.

Definition NewIterator (db : nodeDB) : list (bytes * bytes) := merge_sort key_le (map_to_list (ndb_lvl db)).

(** The keys with a prefix: all keys for the empty prefix. *)
Definition prefixed (p : bytes) (it : list (bytes * bytes)) : list bytes :=
  (filter (λ kv, take (length p) kv.1 = p) it).*1.

Definition deleteNode (db : nodeDB) (id : bytes) : nodeDB :=
  MkNodeDB (foldl (λ m k, base.delete k m) (ndb_lvl db) (prefixed (makeKey id []) (NewIterator db))) (ndb_self db).

Fixpoint expire_loop (threshold : Z) (it : list (bytes * bytes)) (db : nodeDB) : outcome node_error nodeDB :=
  match it with
  | [] => Ok db
  | (key, _) :: it =>
      let* (id, field) := splitKey key in
      if negb (bool_decide (field = nodeDBDiscoverRoot)) then expire_loop threshold it db
      else if negb (bool_decide (id = ndb_self db)) && (threshold <? lastPong db id)
      then expire_loop threshold it db
      else expire_loop threshold it (deleteNode db id)
  end.
Definition expireNodes (now : Z) (db : nodeDB) : outcome node_error nodeDB :=
  expire_loop (now - nodeDBNodeExpiration) (NewIterator db) db.

(** The next record of a node, and the iterator at it; errors of records are skipped. *)
Fixpoint nextNode (it : list (bytes * bytes)) : outcome node_error (option Node) :=
  match it with
  | [] => Ok None
  | (key, value) :: it =>
      let* (id, field) := splitKey key in
      if negb (bool_decide (field = nodeDBDiscoverRoot)) then nextNode it
      else match DecodeBytes stored_ty value with
           | Ok v => Ok (Some (node_of_gval (replicate 32 0) v))
           | Err _ => nextNode it
           | Panic => Panic
           end
  end.

Definition Seek (it : list (bytes * bytes)) (key : bytes) : list (bytes * bytes) :=
  filter (λ kv, bytes_leb key kv.1 = true) it.

Definition maxDuration : Z := 2 ^ 63 - 1.
Definition minDuration : Z := - 2 ^ 63.
Definition time_Sub (t u : Z) : Z := Z.max minDuration (Z.min maxDuration (t - u)).

(** [rnd k] are the random bytes of the [k]th seek. *)
Fixpoint seek_loop (rnd : nat → bytes) (now maxAge : Z) (db : nodeDB) (it : list (bytes * bytes))
    (n rounds seeks : nat) (id : bytes) (nodes : list Node) : outcome node_error (list Node) :=
  match rounds with
  | O => Ok nodes
  | S rounds =>
      if negb (length nodes <? n)%nat then Ok nodes
      else
        let ctr := default 0 (head id) in
        let id := rnd seeks in
        let id := <[0%nat := u8 (ctr + default 0 (head id) mod 16)]> id in
        let next := seek_loop rnd now maxAge db it n rounds (S seeks) in
        let* nn := nextNode (Seek it (makeKey id nodeDBDiscoverRoot)) in
        match nn with
        | None => next (<[0%nat := 0]> id) nodes
        | Some nn =>
            if bool_decide (nd_ID nn = ndb_self db) then next id nodes
            else if maxAge <? time_Sub now (lastPong db (nd_ID nn)) then next id nodes
            else if existsb (λ m, bool_decide (nd_ID m = nd_ID nn)) nodes then next id nodes
            else next id (nodes ++ [nn])
        end
  end.
Definition querySeeds (rnd : nat → bytes) (now : Z) (db : nodeDB) (n : nat) (maxAge : Z) : outcome node_error (list Node) :=
  seek_loop rnd now maxAge db (NewIterator db) n (n * 5) 0 nodeDBNilNodeID [].

(** ** Integers are read back *)

Lemma uvarint_low x : 0 ≤ x → Z.land (Z.lor (u8 x) 128) 127 = x mod 128 ∧ 128 ≤ Z.lor (u8 x) 128.
Proof.
  intros Hx. assert (Hu : 0 ≤ u8 x < 256) by (apply (wrap_range 8); lia).
  assert (Hm : x mod 128 = u8 x mod 128).
  { apply Znumtheory.Zmod_div_mod; [lia|done|by exists 2]. }
  rewrite Hm. revert Hu. generalize (u8 x). intros b Hb.
  assert (Hall : forallb (λ k : nat, (Z.land (Z.lor (Z.of_nat k) 128) 127 =? Z.of_nat k mod 128) &&
    (128 <=? Z.lor (Z.of_nat k) 128)) (seq 0 256) = true) by by vm_compute.
  rewrite forallb_forall in Hall. specialize (Hall (Z.to_nat b) ltac:(apply in_seq; lia)).
  rewrite Z2Nat.id, andb_true_iff, Z.eqb_eq, Z.leb_le in Hall by lia. done.
Qed.

Lemma lor_add_shift acc b s : 0 ≤ s → 0 ≤ acc < 2 ^ s → 0 ≤ b → b * 2 ^ s < 2 ^ 64 →
  Z.lor acc (wrap 64 (Z.shiftl b s)) = acc + b * 2 ^ s.
Proof.
  intros Hs Ha Hb Hlt. rewrite (wrap_small 64), Z.lor_comm, lor_shiftl_add; [lia|done|done|].
  rewrite Z.shiftl_mul_pow2 by done. pose proof (Z.pow_pos_nonneg 2 s). nia.
Qed.

Lemma uvarint_put m i x acc rest :
  0 ≤ i → i + Z.of_nat m = 10 → (m ≠ 0)%nat → 0 ≤ x < 2 ^ (64 - 7 * i) → 0 ≤ acc < 2 ^ (7 * i) →
  uvarint_loop (put_uvarint m x ++ rest) i acc (7 * i) =
  (acc + x * 2 ^ (7 * i), i + Z.of_nat (length (put_uvarint m x))).
Proof.
  revert i x acc. induction m as [|m IH]; intros i x acc Hi Hm Hm0 Hx Ha; [done|]. clear Hm0.
  assert (Hp : 2 ^ 64 = 2 ^ (64 - 7 * i) * 2 ^ (7 * i)) by (rewrite <-Z.pow_add_r by lia; f_equal; lia).
  assert (H7 : 0 < 2 ^ (7 * i)) by (apply Z.pow_pos_nonneg; lia).
  assert (Hx64 : x * 2 ^ (7 * i) < 2 ^ 64) by nia.
  assert (Hi9 : i = 9 → x < 2) by (intros E; rewrite E in Hx; change (2 ^ (64 - 7 * 9)) with 2 in Hx; lia).
  cbn [put_uvarint]. destruct (Z.leb_spec 128 x) as [H128|H128]; cbn [app uvarint_loop length].
  - destruct (uvarint_low x ltac:(lia)) as [Hland Hge].
    destruct (Z.ltb_spec (Z.lor (u8 x) 128) 128); [lia|]. rewrite Hland.
    pose proof (Z.div_mod x 128 ltac:(lia)) as Hdm. pose proof (Z.mod_pos_bound x 128 ltac:(lia)).
    rewrite lor_add_shift by (lia || nia). replace (7 * i + 7) with (7 * (i + 1)) by lia.
    assert (Hs : 2 ^ (7 * (i + 1)) = 128 * 2 ^ (7 * i)).
    { replace (7 * (i + 1)) with (7 + 7 * i) by lia. by rewrite Z.pow_add_r by lia. }
    rewrite Z.shiftr_div_pow2 by lia. change (2 ^ 7) with 128.
    rewrite IH; [rewrite Hs; f_equal; nia|lia|lia|lia| |rewrite Hs; nia].
    split; [apply Z.div_pos; lia|]. apply Z.div_lt_upper_bound; [lia|]. change 128 with (2 ^ 7) at 1.
    rewrite <-Z.pow_add_r by lia. replace (7 + (64 - 7 * (i + 1))) with (64 - 7 * i) by lia. lia.
  - rewrite (wrap_small 8) by lia. destruct (Z.ltb_spec x 128); [|lia].
    destruct (Z.ltb_spec 9 i); [lia|]. destruct (Z.eqb_spec i 9), (Z.ltb_spec 1 x); cbn [orb andb]; try lia;
      by rewrite lor_add_shift by lia.
Qed.

Lemma Uvarint_Put x rest : 0 ≤ x < 2 ^ 64 → Uvarint (PutUvarint x ++ rest) = (x, Z.of_nat (length (PutUvarint x))).
Proof.
  intros Hx. unfold Uvarint, PutUvarint. change 0 with (7 * 0) at 3. rewrite uvarint_put by (lia || done).
  f_equal. rewrite Z.pow_0_r. lia.
Qed.

Lemma PutUvarint_length x : (0 < length (PutUvarint x) ≤ 10)%nat.
Proof.
  unfold PutUvarint. split; [cbn [put_uvarint]; destruct (_ <=? _); cbn; lia|].
  generalize 10%nat. intros n. revert x. induction n as [|n IH]; intros x; cbn; [lia|].
  destruct (_ <=? _); cbn; [specialize (IH (Z.shiftr x 7))|]; lia.
Qed.

Lemma lxor_ones64 u : 0 ≤ u < 2 ^ 64 → Z.lxor u (2 ^ 64 - 1) = 2 ^ 64 - 1 - u.
Proof.
  intros Hu. change (2 ^ 64 - 1) with (Z.ones 64).
  rewrite Z.sub_nocarry_ldiff.
  - apply Z.bits_inj'. intros i Hi. rewrite Z.lxor_spec, Z.ldiff_spec. destruct (decide (i < 64)).
    + rewrite Z.ones_spec_low by lia. by destruct (Z.testbit u i).
    + rewrite Z.ones_spec_high, (testbit_high u 64) by lia. done.
  - apply Z.bits_inj'. intros i Hi. rewrite Z.ldiff_spec, Z.bits_0. destruct (decide (i < 64)).
    + rewrite Z.ones_spec_low by lia. by rewrite andb_false_r.
    + by rewrite (testbit_high u 64) by lia.
Qed.

Lemma Varint_Put x rest :
  - 2 ^ 63 ≤ x < 2 ^ 63 → Varint (PutVarint x ++ rest) = (x, Z.of_nat (length (PutVarint x))).
Proof.
  intros Hx. unfold Varint, PutVarint. rewrite Z.shiftl_mul_pow2 by lia. change (2 ^ 1) with 2.
  destruct (Z.ltb_spec x 0) as [Hn|Hn].
  - assert (wrap 64 x = x + 2 ^ 64) as ->.
    { unfold wrap. rewrite <-(Z.mod_add x 1 (2 ^ 64)), Z.mod_small by lia. lia. }
    assert (wrap 64 ((x + 2 ^ 64) * 2) = 2 * x + 2 ^ 64) as ->.
    { unfold wrap. rewrite <-(Z.mod_add _ (-1) (2 ^ 64)), Z.mod_small by lia. lia. }
    rewrite lxor_ones64, Uvarint_Put by lia. f_equal. rewrite Z.shiftr_div_pow2 by lia. change (2 ^ 1) with 2.
    change 1 with (Z.ones 1) at 2. rewrite Z.land_ones by lia. change (2 ^ 1) with 2.
    replace (2 ^ 64 - 1 - (2 * x + 2 ^ 64)) with (1 + (- x - 1) * 2) by lia.
    rewrite Z.mod_add, Z.div_add by lia. change (negb (1 mod 2 =? 0)) with true. change (1 / 2) with 0. cbn iota. lia.
  - rewrite !(wrap_small 64) by (try rewrite (wrap_small 64); lia). rewrite Uvarint_Put by lia. f_equal.
    rewrite Z.shiftr_div_pow2 by lia. change 1 with (Z.ones 1) at 1. rewrite Z.land_ones by lia. change (2 ^ 1) with 2.
    rewrite Z.mod_mul, Z.div_mul by lia. done.
Qed.

(** ** Keys are read back *)

Definition id_ok (id : bytes) : Prop := length id = NodeIDLength ∧ id ≠ nodeDBNilNodeID.

Lemma makeKey_eq id f : id ≠ nodeDBNilNodeID → makeKey id f = nodeDBItemPrefix ++ id ++ f.
Proof. intros Hne. unfold makeKey. by rewrite bool_decide_eq_false_2. Qed.

Lemma splitKey_makeKey id f : id_ok id → splitKey (makeKey id f) = Ok (id, f).
Proof.
  intros [Hl Hne]. rewrite makeKey_eq by done. unfold splitKey.
  assert (take 2 (nodeDBItemPrefix ++ id ++ f) = nodeDBItemPrefix) as -> by done.
  assert (drop 2 (nodeDBItemPrefix ++ id ++ f) = id ++ f) as -> by done.
  rewrite bool_decide_eq_true_2 by done. cbn [negb]. rewrite length_app, Hl.
  destruct (Nat.ltb_spec (NodeIDLength + length f) NodeIDLength); [lia|].
  by rewrite <-Hl, take_app_length, drop_app_length.
Qed.

Lemma makeKey_inj id f id' f' : id_ok id → id_ok id' → makeKey id f = makeKey id' f' → id = id' ∧ f = f'.
Proof.
  intros H1 H2 E. pose proof (splitKey_makeKey id f H1) as S1. rewrite E, splitKey_makeKey in S1 by done. by simplify_eq.
Qed.

Lemma splitKey_version : splitKey nodeDBVersionKey = Ok (nodeDBNilNodeID, nodeDBVersionKey).
Proof. done. Qed.

(** The keys in use: the version and fields of nodes. *)
Definition key_ok (k : bytes) : Prop := k = nodeDBVersionKey ∨ ∃ id f, id_ok id ∧ k = makeKey id f.
Definition db_ok (db : nodeDB) : Prop := ∀ k, is_Some (ndb_lvl db !! k) → key_ok k.

Lemma key_split k : key_ok k → ∃ id f, splitKey k = Ok (id, f) ∧
  (f = nodeDBDiscoverRoot → id_ok id ∧ k = makeKey id nodeDBDiscoverRoot).
Proof.
  intros [->|(id & f & Hid & ->)].
  - exists nodeDBNilNodeID, nodeDBVersionKey. split; [done|]. intros [=].
  - exists id, f. rewrite splitKey_makeKey by done. split; [done|]. intros ->. by split.
Qed.

(** ** Numbers and nodes are read back *)

Lemma fetch_store db key n : - 2 ^ 63 ≤ n < 2 ^ 63 → fetchInt64 (storeInt64 db key n) key = n.
Proof.
  intros Hn. unfold fetchInt64, storeInt64, db_Put. cbn [ndb_lvl]. rewrite lookup_insert_eq.
  pose proof (Varint_Put n [] Hn) as E. rewrite app_nil_r in E. rewrite E.
  assert (0 < length (PutVarint n))%nat by (unfold PutVarint; apply PutUvarint_length).
  destruct (Z.leb_spec (Z.of_nat (length (PutVarint n))) 0); [lia|done].
Qed.

Definition stored_node_ok (n : Node) : Prop :=
  ∃ ip, nd_IP n = Some ip ∧ Forall is_byte ip ∧ (length ip ≤ 16)%nat ∧
    0 ≤ nd_UDP n < 2 ^ 16 ∧ 0 ≤ nd_TCP n < 2 ^ 16 ∧ Forall is_byte (nd_ID n) ∧ length (nd_ID n) = NodeIDLength ∧
    0 ≤ nd_TYPE n < 256 ∧ 0 ≤ nd_Loacation n < 256.

Definition node_fields (n : Node) : gval :=
  GStruct [GBytes (default [] (nd_IP n)); GUint (nd_UDP n); GUint (nd_TCP n); GBytes (nd_ID n);
           GUint (nd_TYPE n); GStruct [GUint (nd_Loacation n)]].

Lemma uint_typed bits i : (bits = 8 ∨ bits = 16 ∨ bits = 32 ∨ bits = 64) → 0 ≤ i < 2 ^ bits → has_type (TUint bits) (GUint i).
Proof. intros Hb Hi. by exists i. Qed.

Lemma node_typed n : stored_node_ok n → has_type stored_ty (node_fields n).
Proof.
  intros (ip & Hip & Hb & _ & Hu & Ht & Hi & Hl & Hty & Hlo). unfold node_fields. rewrite Hip. cbn [default].
  apply has_type_struct. eexists. split; [|done]. repeat constructor.
  - by exists ip.
  - apply uint_typed; [tauto|done].
  - apply uint_typed; [tauto|done].
  - exists (nd_ID n). split_and!; [done|done|intros E; by rewrite E in Hl|done].
  - apply uint_typed; [tauto|done].
  - apply has_type_struct. eexists. split; [|done]. repeat constructor. apply uint_typed; [tauto|done].
Qed.

(** Short data stay short. *)
Lemma enc_list_short p : (length p ≤ 1000)%nat → (length (enc_list p) ≤ 9 + length p)%nat.
Proof. intros Hp. apply enc_list_upper. unfold fits64. lia. Qed.

Lemma enc_str_short b : (length b ≤ 1000)%nat → (length (enc_str b) ≤ 9 + length b)%nat.
Proof. intros Hb. apply enc_str_upper. unfold fits64. lia. Qed.

Lemma enc_uint_short i n : 0 ≤ i < 256 ^ Z.of_nat n → (n ≤ 8)%nat → (length (enc_str (be_bytes i)) ≤ 9 + n)%nat.
Proof.
  intros Hi Hn. pose proof (byte_len_le i n Hi) as Hl. pose proof (enc_str_short (be_bytes i)) as Hu.
  rewrite length_be_bytes in Hu. lia.
Qed.

Definition node_enc (n : Node) : bytes :=
  enc_list (concat [enc_str (default [] (nd_IP n)); enc_str (be_bytes (nd_UDP n)); enc_str (be_bytes (nd_TCP n));
    enc_str (nd_ID n); enc_str (be_bytes (nd_TYPE n)); enc_list (concat [enc_str (be_bytes (nd_Loacation n))])]).

Lemma stored_gval_enc n : gval_enc (node_fields n) = Some (node_enc n).
Proof. unfold node_enc. cbn. by rewrite !app_nil_r. Qed.

Lemma node_enc_length n : stored_node_ok n → (length (node_enc n) ≤ 200)%nat.
Proof.
  intros (ip & Hip & _ & Hl & Hu & Ht & _ & Hi & Hty & Hlo). unfold node_enc. rewrite Hip. change (default [] (Some ip)) with ip.
  set (e := enc_list (concat [enc_str (be_bytes (nd_Loacation n))])).
  assert (length e ≤ 19)%nat.
  { unfold e. cbn [concat]. rewrite app_nil_r. pose proof (enc_uint_short (nd_Loacation n) 1 Hlo).
    pose proof (enc_list_short (enc_str (be_bytes (nd_Loacation n)))). lia. }
  set (p := concat _). assert (length p ≤ 149)%nat.
  { unfold p. cbn [concat]. rewrite !length_app. cbn [length]. pose proof (enc_str_short ip).
    pose proof (enc_uint_short (nd_UDP n) 2 Hu). pose proof (enc_uint_short (nd_TCP n) 2 Ht).
    pose proof (enc_str_short (nd_ID n)) as E. rewrite Hi in E. pose proof (enc_uint_short (nd_TYPE n) 1 Hty).
    unfold NodeIDLength in E. lia. }
  pose proof (enc_list_short p). lia.
Qed.

Section stored.
Context {KC : Keccak}.

Lemma db_node_updateNode db n :
  stored_node_ok n → nd_sha n = keccak256 (nd_ID n) →
  ∃ db', updateNode db n = Ok db' ∧ db_node db' (nd_ID n) = Ok (Some n) ∧
    ndb_lvl db' = <[makeKey (nd_ID n) nodeDBDiscoverRoot := node_enc n]> (ndb_lvl db).
Proof.
  intros Hn Hsha. pose proof (node_typed n Hn) as Hty. pose proof (node_enc_length n Hn) as Hlen.
  assert (Hf : fits64 (length (node_enc n))) by (unfold fits64; lia).
  pose proof (encodes (stored_gval n) (node_enc n) [] (typed_ok _ _ Hty) (stored_gval_enc n) Hf) as He.
  pose proof (decodes stored_ty (node_fields n) (node_enc n) I eq_refl Hty (stored_gval_enc n) Hf) as Hd.
  unfold updateNode. destruct He as [-> _]. cbn [obind]. eexists. split; [done|]. split; [|done].
  unfold db_node, db_Put. cbn [ndb_lvl]. rewrite lookup_insert_eq, Hd.
  destruct Hn as (ip & Hip & _). unfold node_fields. rewrite Hip. cbn. rewrite <-Hsha, <-Hip. by destruct n.
Qed.
End stored.

(** ** Deleting and expiring *)

Lemma NewIterator_keys db kv : kv ∈ NewIterator db ↔ ndb_lvl db !! kv.1 = Some kv.2.
Proof.
  unfold NewIterator. rewrite merge_sort_Permutation. destruct kv as [k v]. apply elem_of_map_to_list.
Qed.

Lemma NewIterator_NoDup db : NoDup (NewIterator db).*1.
Proof. unfold NewIterator. rewrite merge_sort_Permutation. apply NoDup_fst_map_to_list. Qed.

Lemma foldl_delete (ks : list bytes) (m : gmap bytes bytes) k :
  foldl (λ m k, base.delete k m) m ks !! k = if decide (k ∈ ks) then None else m !! k.
Proof.
  revert m. induction ks as [|k' ks IH]; intros m; cbn [foldl].
  - rewrite decide_False; [done|apply not_elem_of_nil].
  - rewrite IH. destruct (decide (k = k')) as [->|Hne].
    + rewrite lookup_delete_eq. rewrite (decide_True (P := k' ∈ k' :: ks)) by constructor. by destruct (decide _).
    + rewrite lookup_delete_ne by done. destruct (decide (k ∈ ks)) as [Hin|Hin].
      * by rewrite decide_True by (by constructor).
      * rewrite decide_False; [done|]. rewrite elem_of_cons. tauto.
Qed.

Lemma makeKey_prefix id : id_ok id → makeKey id [] = nodeDBItemPrefix ++ id.
Proof. intros [_ Hne]. by rewrite makeKey_eq, app_nil_r. Qed.

Lemma prefix_of_key id id' f : id_ok id → id_ok id' →
  take (length (makeKey id [])) (makeKey id' f) = makeKey id [] ↔ id' = id.
Proof.
  intros H H'. pose proof H as [Hl _]. pose proof H' as [Hl' Hne'].
  rewrite makeKey_prefix, (makeKey_eq id') by done. rewrite app_assoc, length_app, Hl, <-Hl', <-length_app, take_app_length.
  split; [|by intros ->]. intros E. by apply app_inv_head in E.
Qed.

Lemma deleteNode_node db id id' f : id_ok id → id_ok id' →
  ndb_lvl (deleteNode db id) !! makeKey id' f = if decide (id' = id) then None else ndb_lvl db !! makeKey id' f.
Proof.
  intros H H'. unfold deleteNode. cbn [ndb_lvl]. rewrite foldl_delete. unfold prefixed.
  set (k := makeKey id' f). destruct (ndb_lvl db !! k) as [v|] eqn:E.
  - assert (k ∈ (filter (λ kv : bytes * bytes, take (length (makeKey id [])) kv.1 = makeKey id []) (NewIterator db)).*1 ↔
      id' = id) as Hiff.
    { rewrite list_elem_of_fmap, <-(prefix_of_key id id' f) by done. fold k. split.
      - intros ([k' v'] & Hk & [Hp _]%list_elem_of_filter). cbn in *. by subst.
      - intros Hp. exists (k, v). split; [done|]. apply list_elem_of_filter. split; [done|]. by apply NewIterator_keys. }
    destruct (decide (id' = id)), (decide (k ∈ _)); tauto.
  - by destruct (decide _), (decide _).
Qed.

Lemma deleteNode_version db id : id_ok id → ndb_lvl (deleteNode db id) !! nodeDBVersionKey = ndb_lvl db !! nodeDBVersionKey.
Proof.
  intros H. unfold deleteNode. cbn [ndb_lvl]. rewrite foldl_delete, decide_False; [done|].
  unfold prefixed. rewrite list_elem_of_fmap. intros ([k v] & Hk & [Hp _]%list_elem_of_filter). cbn in *. subst k.
  rewrite makeKey_prefix in Hp by done. discriminate Hp.
Qed.

Lemma lastPong_same db db' id :
  (∀ f, ndb_lvl db !! makeKey id f = ndb_lvl db' !! makeKey id f) → lastPong db id = lastPong db' id.
Proof. intros E. unfold lastPong, fetchInt64. by rewrite E. Qed.

(** A node that [expireNodes] deletes. *)
Definition stale (threshold : Z) (db : nodeDB) (id : bytes) : Prop := id = ndb_self db ∨ lastPong db id ≤ threshold.
#[local] Instance stale_dec threshold db id : Decision (stale threshold db id).
Proof. unfold stale. apply _. Defined.

(** What is left when the records with the keys [ks] have been visited. *)
Definition expired_in (threshold : Z) (db : nodeDB) (ks : list bytes) (cur res : nodeDB) : Prop :=
  ndb_self res = ndb_self db ∧ ndb_lvl res !! nodeDBVersionKey = ndb_lvl cur !! nodeDBVersionKey ∧
  ∀ id f, id_ok id → ndb_lvl res !! makeKey id f =
    if decide (makeKey id nodeDBDiscoverRoot ∈ ks ∧ stale threshold db id) then None else ndb_lvl cur !! makeKey id f.

Lemma expired_skip threshold db k ks cur res :
  (∀ id, id_ok id → k = makeKey id nodeDBDiscoverRoot → ¬ stale threshold db id) →
  expired_in threshold db ks cur res → expired_in threshold db (k :: ks) cur res.
Proof.
  intros Hk (H1 & H2 & H3). split_and!; [done..|]. intros id f Hid. rewrite H3 by done. apply decide_ext.
  rewrite elem_of_cons. split; [tauto|]. intros [[E|?] Hst]; [|tauto]. by destruct (Hk id Hid (eq_sym E)).
Qed.

Lemma expired_delete threshold db id ks cur res :
  id_ok id → stale threshold db id → expired_in threshold db ks (deleteNode cur id) res →
  expired_in threshold db (makeKey id nodeDBDiscoverRoot :: ks) cur res.
Proof.
  intros Hid Hst (H1 & H2 & H3). split_and!; [done|by rewrite H2, deleteNode_version|]. intros id' f Hid'.
  rewrite H3, deleteNode_node by done. destruct (decide (id' = id)) as [->|Hne].
  - rewrite (decide_True (P := _ ∈ makeKey id _ :: _ ∧ _)) by (split; [constructor|done]). by destruct (decide _).
  - apply decide_ext. rewrite elem_of_cons. split; [tauto|]. intros [[E|?] ?]; [|tauto].
    by apply makeKey_inj in E as [? _].
Qed.

Lemma expire_loop_spec threshold db it cur :
  ndb_self cur = ndb_self db → NoDup it.*1 → Forall (λ kv, key_ok kv.1) it →
  (∀ id f, id_ok id → makeKey id nodeDBDiscoverRoot ∈ it.*1 → ndb_lvl cur !! makeKey id f = ndb_lvl db !! makeKey id f) →
  ∃ res, expire_loop threshold it cur = Ok res ∧ expired_in threshold db it.*1 cur res.
Proof.
  revert cur. induction it as [|[k v] it IH]; intros cur Hself Hnd Hok Hsame; [by exists cur|].
  inversion_clear Hok as [|?? Hk Hok']. cbn [fmap list_fmap fst] in *. apply NoDup_cons in Hnd as [Hnin Hnd].
  destruct (key_split k Hk) as (id & f & Hs & Hroot). cbn [expire_loop]. rewrite Hs. cbn [obind].
  destruct (IH cur Hself Hnd Hok') as (res & Hr & Hres); [intros; apply Hsame; [done|by constructor]|].
  case_bool_decide as Hf; cbn [negb].
  2: { exists res. split; [done|]. apply expired_skip; [|done]. intros id' Hid' ->.
       rewrite splitKey_makeKey in Hs by done. congruence. }
  destruct (Hroot Hf) as [Hid ->]. rewrite Hself, (lastPong_same cur db id) by (intros; apply Hsame; [done|constructor]).
  destruct (negb (bool_decide (id = ndb_self db)) && (threshold <? lastPong db id)) eqn:Est.
  - apply andb_true_iff in Est as [Hne%negb_true_iff%bool_decide_eq_false Hlt%Z.ltb_lt].
    exists res. split; [done|]. apply expired_skip; [|done].
    intros id' Hid' E. apply makeKey_inj in E as [<- _]; [|done..]. unfold stale. intros []; [done|lia].
  - destruct (IH (deleteNode cur id) Hself Hnd Hok') as (res' & Hr' & Hres').
    { intros id' f' Hid' Hin. rewrite deleteNode_node, decide_False by (done || by intros ->).
      apply Hsame; [done|by constructor]. }
    exists res'. split; [done|]. apply expired_delete; [done| |done]. unfold stale.
    apply andb_false_iff in Est as [E%negb_false_iff%bool_decide_eq_true|E]; [by left|right; lia].
Qed.

Lemma NewIterator_ok db : db_ok db → Forall (λ kv, key_ok kv.1) (NewIterator db).
Proof. intros Hok. apply Forall_forall. intros kv Hin%NewIterator_keys. apply Hok. eauto. Qed.

Lemma NewIterator_fst db k : k ∈ (NewIterator db).*1 ↔ is_Some (ndb_lvl db !! k).
Proof.
  rewrite list_elem_of_fmap. split.
  - intros (kv & -> & Hin%NewIterator_keys). eauto.
  - intros [v Hv]. exists (k, v). split; [done|]. by apply NewIterator_keys.
Qed.

(** Expiring deletes all records of the nodes that have an entry and did not answer for
    an hour (and of the node itself), and nothing else: the other nodes and the version keep
    their records, and so does a node that was pinged but never answered, which has no entry. *)
Theorem expireNodes_exact now db :
  db_ok db →
  ∃ db', expireNodes now db = Ok db' ∧
    ndb_lvl db' !! nodeDBVersionKey = ndb_lvl db !! nodeDBVersionKey ∧
    ∀ id f, id_ok id → ndb_lvl db' !! makeKey id f =
      if decide (is_Some (ndb_lvl db !! makeKey id nodeDBDiscoverRoot) ∧ stale (now - nodeDBNodeExpiration) db id)
      then None else ndb_lvl db !! makeKey id f.
Proof.
  intros Hok. destruct (expire_loop_spec (now - nodeDBNodeExpiration) db (NewIterator db) db)
    as (res & Hr & _ & Hv & Hres); [done|apply NewIterator_NoDup|by apply NewIterator_ok|done|].
  exists res. split_and!; [done..|]. intros id f Hid. rewrite Hres by done. apply decide_ext.
  by rewrite NewIterator_fst.
Qed.

Lemma db_ok_put db key value : db_ok db → key_ok key → db_ok (db_Put db key value).
Proof.
  intros Hok Hk k. cbn [db_Put ndb_lvl]. destruct (decide (key = k)) as [->|Hne]; [done|].
  rewrite lookup_insert_ne by done. apply Hok.
Qed.

(** ** Seeds *)

Definition record_of (db : nodeDB) (nd : Node) : Prop :=
  ∃ key value v, ndb_lvl db !! key = Some value ∧ DecodeBytes stored_ty value = Ok v ∧ nd = node_of_gval (replicate 32 0) v.

Lemma nextNode_spec db it :
  db_ok db → (∀ kv, kv ∈ it → ndb_lvl db !! kv.1 = Some kv.2) →
  ∃ r, nextNode it = Ok r ∧ (∀ nd, r = Some nd → record_of db nd).
Proof.
  intros Hok. induction it as [|[k v] it IH]; intros Hit; [by exists None|].
  destruct IH as (r & Hr & Hrec); [intros kv Hin; apply Hit; by constructor|].
  assert (Hkv : ndb_lvl db !! k = Some v) by (apply (Hit (k, v)); constructor).
  destruct (key_split k) as (id & f & Hs & _); [apply Hok; eauto|]. cbn [nextNode]. rewrite Hs. cbn [obind].
  case_bool_decide; cbn [negb]; [|by exists r].
  destruct (DecodeBytes_ends stored_ty v I eq_refl I) as [[gv Hgv]|(e & He & _)].
  - rewrite Hgv. eexists. split; [done|]. intros nd [= <-]. by exists k, v, gv.
  - rewrite He. by exists r.
Qed.

Lemma Seek_in it key kv : kv ∈ Seek it key → kv ∈ it.
Proof. unfold Seek. rewrite list_elem_of_filter. tauto. Qed.

(** What is kept while seeds are collected. *)
Definition seeds_ok (now maxAge : Z) (db : nodeDB) (n : nat) (nodes : list Node) : Prop :=
  (length nodes ≤ n)%nat ∧ NoDup (nd_ID <$> nodes) ∧
  Forall (λ nd, nd_ID nd ≠ ndb_self db ∧ time_Sub now (lastPong db (nd_ID nd)) ≤ maxAge ∧ record_of db nd) nodes.

Lemma existsb_id nodes id : existsb (λ m, bool_decide (nd_ID m = id)) nodes = false ↔ id ∉ (nd_ID <$> nodes).
Proof.
  rewrite <-not_true_iff_false, existsb_exists, list_elem_of_fmap. setoid_rewrite bool_decide_eq_true.
  setoid_rewrite <-list_elem_of_In. split; intros Hn (m & H1 & H2); apply Hn; eauto.
Qed.

Lemma seek_loop_spec rnd now maxAge db n rounds seeks id nodes :
  db_ok db → seeds_ok now maxAge db n nodes →
  ∃ res, seek_loop rnd now maxAge db (NewIterator db) n rounds seeks id nodes = Ok res ∧ seeds_ok now maxAge db n res.
Proof.
  intros Hok. revert seeks id nodes. induction rounds as [|rounds IH]; intros seeks id nodes Hn; [by exists nodes|].
  cbn [seek_loop]. destruct (Nat.ltb_spec (length nodes) n) as [Hlt|]; cbn [negb]; [|by exists nodes].
  set (id' := <[0%nat := _]> (rnd seeks)).
  destruct (nextNode_spec db (Seek (NewIterator db) (makeKey id' nodeDBDiscoverRoot)) Hok) as (r & Hr & Hrec).
  { intros kv Hin%Seek_in. by apply NewIterator_keys. }
  rewrite Hr. cbn [obind]. destruct r as [nd|]; [|by apply IH].
  case_bool_decide as Hself; [by apply IH|]. destruct (Z.ltb_spec maxAge (time_Sub now (lastPong db (nd_ID nd)))); [by apply IH|].
  destruct (existsb _ nodes) eqn:Eid; [by apply IH|]. apply existsb_id in Eid. apply IH.
  destruct Hn as (H1 & H2 & H3). split_and!.
  - rewrite length_app. cbn. lia.
  - rewrite fmap_app. apply NoDup_app. split_and!; [done| |by apply NoDup_singleton]. by intros x Hx ->%list_elem_of_singleton.
  - apply Forall_app. split; [done|]. apply Forall_singleton. eauto.
Qed.

(** The seeds for a start are at most as many as asked for, of different nodes, not the
    node itself, each from a record of the store and with an answer that is recent enough. *)
Theorem querySeeds_sound rnd now db n maxAge :
  db_ok db →
  ∃ nodes, querySeeds rnd now db n maxAge = Ok nodes ∧
    (length nodes ≤ n)%nat ∧ NoDup (nd_ID <$> nodes) ∧
    Forall (λ nd, nd_ID nd ≠ ndb_self db ∧ time_Sub now (lastPong db (nd_ID nd)) ≤ maxAge ∧ record_of db nd) nodes.
Proof.
  intros Hok. apply seek_loop_spec; [done|]. split_and!; [cbn; lia|constructor..].
Qed.

Lemma makeKey_ne id id' f f' : id_ok id → id_ok id' → (id ≠ id' ∨ f ≠ f') → makeKey id f ≠ makeKey id' f'.
Proof. intros H H' Hne E. apply makeKey_inj in E as [-> ->]; tauto. Qed.

Lemma lookup_put_ne db key value k : k ≠ key → ndb_lvl (db_Put db key value) !! k = ndb_lvl db !! k.
Proof. intros Hne. cbn [db_Put ndb_lvl]. by rewrite lookup_insert_ne. Qed.

(** What is stored about a node is read back: the node itself, the time of its last
    answer in seconds and its failures; writing one of these changes neither the others nor
    the records of other nodes. *)
Theorem nodedb_roundtrip `{Keccak} db n t fails :
  db_ok db → stored_node_ok n → nd_ID n ≠ nodeDBNilNodeID → nd_sha n = keccak256 (nd_ID n) →
  0 ≤ t < 2 ^ 63 → - 2 ^ 63 ≤ fails < 2 ^ 63 →
  ∃ db1, updateNode db n = Ok db1 ∧
    let db2 := updateLastPong db1 (nd_ID n) t in
    let db3 := updateFindFails db2 (nd_ID n) fails in
    db_ok db3 ∧ db_node db3 (nd_ID n) = Ok (Some n) ∧ lastPong db3 (nd_ID n) = t / second * second ∧
    findFails db3 (nd_ID n) = fails ∧ lastPing db3 (nd_ID n) = lastPing db (nd_ID n) ∧
    ∀ id f, id_ok id → id ≠ nd_ID n → ndb_lvl db3 !! makeKey id f = ndb_lvl db !! makeKey id f.
Proof.
  intros Hok Hn Hnil Hsha Ht Hf. assert (Hid : id_ok (nd_ID n)) by (by destruct Hn as (ip & _ & _ & _ & _ & _ & _ & ? & _)).
  destruct (db_node_updateNode db n Hn Hsha) as (db1 & Hu & Hd & Hl). exists db1. split; [done|]. cbn zeta.
  assert (Hkeys : ∀ f, key_ok (makeKey (nd_ID n) f)) by (intros f; right; eauto).
  assert (0 ≤ t / second < 2 ^ 63).
  { split; [apply Z.div_pos; [lia|done]|]. apply Z.div_lt_upper_bound; [done|]. unfold second. lia. }
  unfold updateFindFails, updateLastPong. split_and!.
  - apply db_ok_put; [apply db_ok_put; [|done]|done]. unfold updateNode in Hu.
    destruct (EncodeToBytes _); [|done..]. injection Hu as <-. by apply db_ok_put.
  - unfold db_node in *. unfold storeInt64. by rewrite !lookup_put_ne by (apply makeKey_ne; [done..|by right]).
  - unfold lastPong. f_equal. unfold fetchInt64 at 1, storeInt64 at 1.
    rewrite lookup_put_ne by (apply makeKey_ne; [done..|by right]). apply fetch_store. lia.
  - by apply fetch_store.
  - unfold lastPing, fetchInt64, storeInt64. rewrite !lookup_put_ne by (apply makeKey_ne; [done..|by right]).
    rewrite Hl, lookup_insert_ne; [done|]. apply makeKey_ne; [done..|by right].
  - intros id f Hid' Hne. unfold storeInt64. rewrite !lookup_put_ne by (apply makeKey_ne; auto).
    rewrite Hl, lookup_insert_ne; [done|]. apply makeKey_ne; auto.
Qed.

(** ** An example *)

Definition ex_id (b : Z) : bytes := replicate 64 b.
Definition ex_stored : Node := MkNode (Some [10; 0; 0; 1]) 30301 30301 (ex_id 2) 0 255 (keccak256 (ex_id 2)).
(** A node that answered after 5000 seconds, and one that was only pinged. *)
Definition ex_db : nodeDB :=
  updateLastPing (updateLastPong
    (MkNodeDB {[ makeKey (ex_id 2) nodeDBDiscoverRoot := node_enc ex_stored ]} (ex_id 1))
    (ex_id 2) (5000 * second)) (ex_id 3) (6000 * second).

Lemma ex_id_ok b : b ≠ 0 → id_ok (ex_id b).
Proof. intros Hb. split; [apply length_replicate|]. by intros [=]. Qed.

Lemma ex_db_ok : db_ok ex_db.
Proof.
  unfold ex_db, updateLastPing, updateLastPong. apply db_ok_put; [apply db_ok_put|].
  - intros k [v Hv]. cbn [ndb_lvl] in Hv. apply lookup_singleton_Some in Hv as [<- _]. right.
    exists (ex_id 2), nodeDBDiscoverRoot. split; [by apply ex_id_ok|done].
  - right. eexists (ex_id 2), _. split; [by apply ex_id_ok|done].
  - right. eexists (ex_id 3), _. split; [by apply ex_id_ok|done].
Qed.

Lemma expireNodes_exact_witness :
  ∃ db', expireNodes (10000 * second) ex_db = Ok db' ∧
    ndb_lvl db' !! makeKey (ex_id 2) nodeDBDiscoverPong = None ∧
    is_Some (ndb_lvl db' !! makeKey (ex_id 3) nodeDBDiscoverPing).
Proof.
  destruct (expireNodes_exact (10000 * second) ex_db ex_db_ok) as (db' & He & _ & Hk). exists db'. split; [exact He|].
  split.
  - rewrite Hk by (by apply ex_id_ok). rewrite decide_True; [done|]. split; [by eexists|]. right. vm_compute. discriminate.
  - rewrite Hk by (by apply ex_id_ok). rewrite decide_False; [by eexists|]. intros [[v Hv] _]. vm_compute in Hv. discriminate.
Defined.

Lemma querySeeds_sound_witness :
  ∃ nodes, querySeeds (λ k, replicate 64 0) (10000 * second) ex_db 3 (9000 * second) = Ok nodes ∧ (length nodes ≤ 3)%nat.
Proof.
  destruct (querySeeds_sound (λ k, replicate 64 0) (10000 * second) ex_db 3 (9000 * second) ex_db_ok) as (nodes & Hq & Hl & _).
  exists nodes. split; [exact Hq|exact Hl].
Defined.

Lemma nodedb_roundtrip_witness : ∃ db1, updateNode ex_db ex_stored = Ok db1.
Proof.
  destruct (nodedb_roundtrip ex_db ex_stored 0 0) as (db1 & Hu & _); [apply ex_db_ok| |discriminate|reflexivity|lia|lia|].
  - exists [10; 0; 0; 1]. split_and!; try (cbn; lia); try reflexivity; [repeat constructor; lia|].
    apply Forall_replicate. split; lia.
  - exists db1. exact Hu.
Defined.
