(* ===== verification/DiscoverPacket.v ===== *)
(** * The packets of node discovery: network/p2p/discover/udp.go

    The messages, their signed encoding, and the nodes in an answer. Signing and
    recovering are those of libsecp256k1 (Crypto.v), the hash comes from the class
    [Keccak]. A [uint] has 64 bits; a nil address is the empty one on the wire. *)

From S2P Require Import Prelude RlpSpec RlpRaw RlpEncode RlpStream RlpRoundtrip RlpTotal TrieEncoding TrieSpec TrieNode Trie TrieMap Sha256 Merkletree Types ChainDb ChainTables MathBig Hexutil Secp256k1Curve Crypto Netutil DiscoverNode DiscoverDb.
Local Open Scope Z_scope.

Definition Version : Z := 1.

Record EndPoint := MkEndPoint { ep_IP : bytes; ep_UDP : Z; ep_TCP : Z }.
Record RpcNode := MkRpcNode { rn_IP : bytes; rn_UDP : Z; rn_TCP : Z; rn_ID : bytes }.

Inductive packet :=
| ping (Version : Z) (From To : EndPoint) (Expiration : Z)
| pong (From To : EndPoint) (ReplyTok : bytes) (Expiration : Z)
| NodeReq (Version Expiration : Z)
| NodeRes (Version : Z) (Nodes : list RpcNode) (Expiration : Z).

Definition pingPacket : Z := 1.
Definition pongPacket : Z := 2.
Definition nodereqPacket : Z := 3.
Definition noderesPacket : Z := 4.

Definition packet_type (p : packet) : Z :=
  match p with
  | ping _ _ _ _ => pingPacket
  | pong _ _ _ _ => pongPacket
  | NodeReq _ _ => nodereqPacket
  | NodeRes _ _ _ => noderesPacket
  end.

(** An address of the net package with its port. *)
Record UDPAddr := MkUDPAddr { ua_IP : bytes; ua_Port : Z }.

Definition makeEndpoint (addr : UDPAddr) (tcpPort : Z) : EndPoint :=
  let ip := match To4 (ua_IP addr) with
            | Some ip => ip
            | None => default [] (To16 (ua_IP addr))
            end in
  MkEndPoint ip (wrap 16 (ua_Port addr)) tcpPort.

Inductive udp_error :=
| errPacketTooSmall | errBadHash | errExpired | errUnsolicitedReply | errUnknownNode | errTimeout | errClockWarp | errClosed
| ErrIsSelf | ErrLowPort | ErrNetRestrict | ErrUnknownType (ptype : Z)
| ErrIP (e : ip_error) | ErrNode (e : node_error) | ErrRlp (e : rlp_error) | ErrCrypto (e : crypto_error).

Definition NodeToRPC (n : Node) : RpcNode := MkRpcNode (default [] (nd_IP n)) (nd_UDP n) (nd_TCP n) (nd_ID n).

Section packets.
Context {KC : Keccak}.

Definition nodeFromRPC (netrestrict : option Netlist) (sender : UDPAddr) (rn : RpcNode) : outcome udp_error Node :=
  if rn_UDP rn <=? 1024 then Err ErrLowPort
  else
    let* _ := omap_err ErrIP (CheckRelayIP (ua_IP sender) (rn_IP rn)) in
    if match netrestrict with Some _ => negb (Netlist_Contains netrestrict (rn_IP rn)) | None => false end
    then Err ErrNetRestrict
    else
      let n := NewNode (rn_ID rn) (Some (rn_IP rn)) (rn_UDP rn) (rn_TCP rn) in
      let* _ := omap_err ErrNode (validateComplete n) in
      Ok n.

(** ** Encoding *)

Definition endpoint_gval (e : EndPoint) : gval := GStruct [GBytes (ep_IP e); GUint (ep_UDP e); GUint (ep_TCP e)].
Definition endpoint_ty : ty := TStruct [TByteSlice; TUint 16; TUint 16].
Definition rpcnode_gval (n : RpcNode) : gval :=
  GStruct [GBytes (rn_IP n); GUint (rn_UDP n); GUint (rn_TCP n); GBytes (rn_ID n)].
Definition rpcnode_ty : ty := TStruct [TByteSlice; TUint 16; TUint 16; TByteArray 64].

Definition packet_fields (p : packet) : gval :=
  match p with
  | ping v from to exp => GStruct [GUint v; endpoint_gval from; endpoint_gval to; GUint exp]
  | pong from to tok exp => GStruct [endpoint_gval from; endpoint_gval to; GBytes tok; GUint exp]
  | NodeReq v exp => GStruct [GUint v; GUint exp]
  | NodeRes v nodes exp => GStruct [GUint v; GSlice false (map rpcnode_gval nodes); GUint exp]
  end.

Definition packet_ty (ptype : Z) : option ty :=
  if ptype =? pingPacket then Some (TStruct [TUint 64; endpoint_ty; endpoint_ty; TUint 64])
  else if ptype =? pongPacket then Some (TStruct [endpoint_ty; endpoint_ty; TByteSlice; TUint 64])
  else if ptype =? nodereqPacket then Some (TStruct [TUint 64; TUint 64])
  else if ptype =? noderesPacket then Some (TStruct [TUint 64; TSlice rpcnode_ty; TUint 64])
  else None.

Definition endpoint_of_gval (v : gval) : EndPoint :=
  match v with
  | GStruct [GBytes ip; GUint udp; GUint tcp] => MkEndPoint ip udp tcp
  | _ => MkEndPoint [] 0 0
  end.
Definition rpcnode_of_gval (v : gval) : RpcNode :=
  match v with
  | GStruct [GBytes ip; GUint udp; GUint tcp; GBytes id] => MkRpcNode ip udp tcp id
  | _ => MkRpcNode [] 0 0 nodeDBNilNodeID
  end.
Definition packet_of_gval (v : gval) : packet :=
  match v with
  | GStruct [GUint v; from; to; GUint exp] => ping v (endpoint_of_gval from) (endpoint_of_gval to) exp
  | GStruct [from; to; GBytes tok; GUint exp] => pong (endpoint_of_gval from) (endpoint_of_gval to) tok exp
  | GStruct [GUint v; GUint exp] => NodeReq v exp
  | GStruct [GUint v; GSlice _ nodes; GUint exp] => NodeRes v (map rpcnode_of_gval nodes) exp
  | _ => NodeReq 0 0
  end.

Definition macSize : nat := 256 / 8.
Definition sigSize : nat := 520 / 8.
Definition headSize : nat := macSize + sigSize.
Definition headSpace : bytes := replicate headSize 0.

Context `{Libsecp256k1}.

Definition encodePacket (priv : PrivateKey) (ptype : Z) (req : packet) : outcome udp_error bytes :=
  let b := headSpace ++ [ptype] in
  let* packet := omap_err ErrRlp (RlpEncode.Encode b (GPtr (packet_fields req))) in
  let* sig := omap_err ErrCrypto (Sign (keccak256 (drop headSize packet)) priv) in
  let packet := copy_at packet macSize sig in
  Ok (copy_at packet 0 (keccak256 (drop macSize packet))).

Definition decodePacket (buf : bytes) : outcome udp_error (packet * bytes * bytes) :=
  if (length buf <? headSize + 1)%nat then Err errPacketTooSmall
  else
    let hash := take macSize buf in
    let sig := take sigSize (drop macSize buf) in
    let sigdata := drop headSize buf in
    let shouldhash := keccak256 (drop macSize buf) in
    if negb (bool_decide (hash = shouldhash)) then Err errBadHash
    else
      let* fromID := omap_err ErrNode (recoverNodeID (keccak256 (drop headSize buf)) sig) in
      let* ptype := sigdata.[0%nat] in
      match packet_ty ptype with
      | None => Err (ErrUnknownType ptype)
      | Some t =>
          let* v := omap_err ErrRlp (rlp_Decode (λ n, decode n t) (drop 1 sigdata)) in
          Ok (packet_of_gval v, fromID, hash)
      end.

(** The buffer of [readLoop]: what is longer is cut. *)
Definition bufSize : nat := 1280.
Definition received (datagram : bytes) : bytes := take bufSize datagram.
End packets.

(** Two's complement of 64 bits; times are kept in seconds since the year one. *)
Definition int64_of (z : Z) : Z := (z + 2 ^ 63) mod 2 ^ 64 - 2 ^ 63.
Definition unixToInternal : Z := 62135596800.
Definition expired (ts now : Z) : bool :=
  let t := int64_of (int64_of ts + unixToInternal) in
  let sec := now / second + unixToInternal in
  (t <? sec) || ((t =? sec) && (0 <? now mod second)).

(** ** Packets are read back *)

Definition endpoint_ok (e : EndPoint) : Prop :=
  Forall is_byte (ep_IP e) ∧ 0 ≤ ep_UDP e < 2 ^ 16 ∧ 0 ≤ ep_TCP e < 2 ^ 16.
Definition rpcnode_ok (n : RpcNode) : Prop :=
  Forall is_byte (rn_IP n) ∧ 0 ≤ rn_UDP n < 2 ^ 16 ∧ 0 ≤ rn_TCP n < 2 ^ 16 ∧
  Forall is_byte (rn_ID n) ∧ length (rn_ID n) = NodeIDLength.
Definition packet_ok (p : packet) : Prop :=
  match p with
  | ping v from to exp => 0 ≤ v < 2 ^ 64 ∧ endpoint_ok from ∧ endpoint_ok to ∧ 0 ≤ exp < 2 ^ 64
  | pong from to tok exp => endpoint_ok from ∧ endpoint_ok to ∧ Forall is_byte tok ∧ 0 ≤ exp < 2 ^ 64
  | NodeReq v exp => 0 ≤ v < 2 ^ 64 ∧ 0 ≤ exp < 2 ^ 64
  | NodeRes v nodes exp => 0 ≤ v < 2 ^ 64 ∧ Forall rpcnode_ok nodes ∧ 0 ≤ exp < 2 ^ 64
  end.

Definition endpoint_enc (e : EndPoint) : bytes :=
  enc_list (concat [enc_str (ep_IP e); enc_str (be_bytes (ep_UDP e)); enc_str (be_bytes (ep_TCP e))]).
Definition rpcnode_enc (n : RpcNode) : bytes :=
  enc_list (concat [enc_str (rn_IP n); enc_str (be_bytes (rn_UDP n)); enc_str (be_bytes (rn_TCP n)); enc_str (rn_ID n)]).
Definition packet_enc (p : packet) : bytes :=
  match p with
  | ping v from to exp => enc_list (concat [enc_str (be_bytes v); endpoint_enc from; endpoint_enc to; enc_str (be_bytes exp)])
  | pong from to tok exp => enc_list (concat [endpoint_enc from; endpoint_enc to; enc_str tok; enc_str (be_bytes exp)])
  | NodeReq v exp => enc_list (concat [enc_str (be_bytes v); enc_str (be_bytes exp)])
  | NodeRes v nodes exp =>
      enc_list (concat [enc_str (be_bytes v); enc_list (concat (map rpcnode_enc nodes)); enc_str (be_bytes exp)])
  end.

Lemma opt_concat_Some (l : list bytes) : opt_concat (map Some l) = Some (concat l).
Proof. induction l as [|b l IH]; [done|]. cbn [map opt_concat foldr]. fold (opt_concat (map Some l)). by rewrite IH. Qed.

Lemma rpcnodes_enc nodes : opt_concat (map gval_enc (map rpcnode_gval nodes)) = Some (concat (map rpcnode_enc nodes)).
Proof. by rewrite <-opt_concat_Some, !map_map. Qed.

Lemma packet_gval_enc p : gval_enc (packet_fields p) = Some (packet_enc p).
Proof.
  destruct p as [v from to exp|from to tok exp|v exp|v nodes exp]; [reflexivity..|].
  unfold packet_fields. cbn [gval_enc map]. by rewrite rpcnodes_enc.
Qed.

Lemma endpoint_typed e : endpoint_ok e → has_type endpoint_ty (endpoint_gval e).
Proof.
  intros (Hi & Hu & Ht). apply has_type_struct. eexists. split; [|done]. repeat constructor;
    [by eexists|apply uint_typed; [tauto|done]..].
Qed.

Lemma rpcnode_typed n : rpcnode_ok n → has_type rpcnode_ty (rpcnode_gval n).
Proof.
  intros (Hi & Hu & Ht & Hb & Hl). apply has_type_struct. eexists. split; [|done].
  repeat constructor.
  - by exists (rn_IP n).
  - apply uint_typed; [tauto|done].
  - apply uint_typed; [tauto|done].
  - exists (rn_ID n). split_and!; [done|done|intros E; by rewrite E in Hl|done].
Qed.

Lemma packet_typed p : packet_ok p →
  ∃ t, packet_ty (packet_type p) = Some t ∧ ty_ok t ∧ is_tail t = false ∧ has_type t (packet_fields p).
Proof.
  destruct p as [v from to exp|from to tok exp|v exp|v nodes exp]; intros Hok; eexists; (split; [reflexivity|]);
    (split; [exact I|]); (split; [done|]); apply has_type_struct; eexists; (split; [|reflexivity]); cbn in Hok.
  - destruct Hok as (? & ? & ? & ?). repeat constructor; try (apply uint_typed; [tauto|done]); by apply endpoint_typed.
  - destruct Hok as (? & ? & ? & ?). repeat constructor; [by apply endpoint_typed..|by eexists|apply uint_typed; [tauto|done]].
  - destruct Hok as (? & ?). repeat constructor; apply uint_typed; [tauto|done|tauto|done].
  - destruct Hok as (? & Hn & ?). repeat constructor; [apply uint_typed; [tauto|done]| |apply uint_typed; [tauto|done]].
    eexists. split; [|reflexivity]. apply Forall_map. eapply Forall_impl; [exact Hn|]. apply rpcnode_typed.
Qed.

Lemma packet_of_fields p : packet_of_gval (packet_fields p) = p.
Proof.
  destruct p as [v [] [] exp|[] [] tok exp|v exp|v nodes exp]; [done..|]. cbn. f_equal. rewrite map_map.
  rewrite <-(map_id nodes) at 2. apply map_ext. by intros [].
Qed.

(** ** The frame *)

Lemma length_keccak `{Keccak} x : length (keccak256 x) = macSize.
Proof. apply keccak_length. Qed.

Lemma copy_at_mid (a b c new : bytes) : length new = length b → copy_at (a ++ b ++ c) (length a) new = a ++ new ++ c.
Proof.
  intros Hl. unfold copy_at. rewrite take_app_length. f_equal. rewrite !length_app.
  rewrite take_ge by lia. f_equal. rewrite Hl, <-length_app, app_assoc. by rewrite drop_app_length.
Qed.

Section frames.
Context {KC : Keccak} `{HL : Libsecp256k1} {LW : LibsecpLaws}.

Definition key_of (d : bytes) : PrivateKey := {| prv_D := be_val d; prv_pub := public_bytes d |}.
Definition seckey_ok (d : bytes) : Prop := length d = 32%nat ∧ Forall is_byte d ∧ ec_seckey_verify d = true.

(** The layout of a packet: hash, signature, type, data. *)
Lemma encodePacket_layout d ptype p :
  seckey_ok d → packet_ok p → fits64 (length (packet_enc p)) →
  ∃ sig x y, let body := [ptype] ++ packet_enc p in
    encodePacket (key_of d) ptype p = Ok (keccak256 (sig ++ body) ++ sig ++ body) ∧ length sig = sigSize ∧
    public_bytes d = Some (x, y) ∧ 0 ≤ x < bc_P S256 ∧ 0 ≤ y < bc_P S256 ∧ IsOnCurve S256 x y = true ∧
    Ecrecover (keccak256 body) sig = Ok (point_bytes x y).
Proof.
  intros (Hl & Hb & Hv) Hok Hf. set (body := [ptype] ++ packet_enc p).
  destruct (Sign_recover (keccak256 body) d (keccak_length _) Hl Hb Hv)
    as (r & s & v & x & y & Hs & _ & _ & _ & Hp & Hc & Hx & Hy & Hr).
  set (sig := be_fixed 32 r ++ be_fixed 32 s ++ [v]) in *.
  assert (Hsl : length sig = sigSize) by (unfold sig; rewrite !length_app, !length_be_fixed; done).
  exists sig, x, y. split; [|done]. unfold encodePacket.
  destruct (packet_typed p Hok) as (t & _ & _ & _ & Hty).
  destruct (encodes (GPtr (packet_fields p)) (packet_enc p) (headSpace ++ [ptype]) (typed_ok _ _ Hty) (packet_gval_enc p) Hf)
    as [_ He].
  rewrite He. cbn [omap_err obind]. rewrite <-app_assoc. fold body.
  assert (drop headSize (headSpace ++ body) = body) as -> by (by rewrite drop_app_length').
  unfold key_of. rewrite Hs. cbn [omap_err obind].
  assert (headSpace = replicate macSize 0 ++ replicate sigSize 0) as -> by done. rewrite <-app_assoc.
  assert (copy_at (replicate macSize 0 ++ replicate sigSize 0 ++ body) macSize sig = replicate macSize 0 ++ sig ++ body) as ->.
  { change macSize with (length (replicate macSize 0)) at 2. by rewrite copy_at_mid. }
  assert (drop macSize (replicate macSize 0 ++ sig ++ body) = sig ++ body) as -> by (by rewrite drop_app_length').
  f_equal. apply (copy_at_mid [] (replicate macSize 0) (sig ++ body)). by rewrite length_keccak.
Qed.

Lemma split_packet (h sig body : bytes) :
  length h = macSize → length sig = sigSize →
  take macSize (h ++ sig ++ body) = h ∧ drop macSize (h ++ sig ++ body) = sig ++ body ∧
  take sigSize (sig ++ body) = sig ∧ drop headSize (h ++ sig ++ body) = body.
Proof.
  intros Hh Hs. split_and!; [by rewrite take_app_length'|by rewrite drop_app_length'|by rewrite take_app_length'|].
  rewrite app_assoc, drop_app_length'; [done|]. rewrite length_app, Hh, Hs. done.
Qed.

Lemma decode_body p :
  packet_ok p → fits64 (length (packet_enc p)) →
  ∃ t, packet_ty (packet_type p) = Some t ∧
    rlp_Decode (λ n, decode n t) (packet_enc p) = Ok (packet_fields p).
Proof.
  intros Hok Hf. destruct (packet_typed p Hok) as (t & Ht & Hok' & Htail & Hty). exists t. split; [done|].
  apply reads_Decode; [|done].
  pose proof (decode_reads (S (length (packet_enc p))) t _ _ Hok' Hty (packet_gval_enc p) Hf ltac:(lia)) as HR.
  by rewrite Htail in HR.
Qed.

Lemma PubkeyID_point x y :
  0 ≤ x < bc_P S256 → 0 ≤ y < bc_P S256 → IsOnCurve S256 x y = true → PubkeyID x y = Ok (be_fixed 32 x ++ be_fixed 32 y).
Proof.
  intros Hx Hy Hc. unfold PubkeyID. rewrite elliptic_Marshal_point by done. rewrite length_point_bytes. done.
Qed.

Lemma packet_decodes d p :
  seckey_ok d → packet_ok p → fits64 (length (packet_enc p)) →
  ∃ pkt x y id, encodePacket (key_of d) (packet_type p) p = Ok pkt ∧
    prv_pub (key_of d) = Some (x, y) ∧ PubkeyID x y = Ok id ∧
    decodePacket pkt = Ok (p, id, take macSize pkt) ∧
    take macSize pkt = keccak256 (drop macSize pkt) ∧ length pkt = (98 + length (packet_enc p))%nat ∧
    ((length pkt ≤ bufSize)%nat → received pkt = pkt).
Proof.
  intros Hd Hok Hf. destruct (encodePacket_layout d (packet_type p) p Hd Hok Hf)
    as (sig & x & y & He & Hs & Hp & Hx & Hy & Hc & Hr).
  set (body := [packet_type p] ++ packet_enc p) in *. set (pkt := keccak256 (sig ++ body) ++ sig ++ body) in *.
  destruct (split_packet (keccak256 (sig ++ body)) sig body (length_keccak _) Hs) as (S1 & S2 & S3 & S4). fold pkt in S1, S2, S4.
  assert (Hlen : length pkt = (98 + length (packet_enc p))%nat).
  { unfold pkt. rewrite !length_app, length_keccak, Hs. unfold body. cbn [app length]. unfold macSize, sigSize. cbn. lia. }
  exists pkt, x, y, (be_fixed 32 x ++ be_fixed 32 y).
  split; [done|]. split; [done|]. split; [by apply PubkeyID_point|].
  split; [|split; [by rewrite S1, S2|split; [done|intros; by apply take_ge]]].
  unfold decodePacket. rewrite Hlen. destruct (Nat.ltb_spec (98 + length (packet_enc p)) (headSize + 1)) as [Hlt|_].
  { unfold headSize, macSize, sigSize in Hlt. cbn in Hlt. lia. }
  rewrite S1, S2, S3, S4, bool_decide_eq_true_2 by done. cbn [negb].
  unfold recoverNodeID. unfold Ecrecover in Hr. rewrite Hr, length_point_bytes. cbn [Nat.eqb Nat.sub NodeIDLength negb omap_err obind].
  unfold body at 1. cbn [app]. rewrite (index_Some _ 0 (packet_type p)) by done. cbn [obind].
  destruct (decode_body p Hok Hf) as (t & -> & Hdec). change (drop 1 body) with (packet_enc p). rewrite Hdec. cbn [omap_err obind].
  by rewrite packet_of_fields.
Qed.

(** C28: a packet is read back by everyone who receives it whole, with the identifier of
    the key that signed it; it begins with the hash of the rest, and its length is that of
    its data and 98 bytes. *)
Theorem packets_roundtrip d p :
  seckey_ok d → packet_ok p → fits64 (length (packet_enc p)) →
  ∃ pkt x y id, encodePacket (key_of d) (packet_type p) p = Ok pkt ∧
    prv_pub (key_of d) = Some (x, y) ∧ PubkeyID x y = Ok id ∧
    decodePacket pkt = Ok (p, id, take macSize pkt) ∧
    take macSize pkt = keccak256 (drop macSize pkt) ∧ length pkt = (98 + length (packet_enc p))%nat ∧
    ((length pkt ≤ bufSize)%nat → received pkt = pkt).
Proof. apply packet_decodes. Qed.

Lemma rpcnode_enc_length n : length (rn_ID n) = NodeIDLength → (64 ≤ length (rpcnode_enc n))%nat.
Proof.
  intros Hl. unfold rpcnode_enc. set (q := concat _). pose proof (enc_list_length q) as Hq.
  assert (64 ≤ length q)%nat; [|lia]. unfold q. cbn [concat]. rewrite !length_app.
  pose proof (enc_str_length (rn_ID n)) as Hi. rewrite Hl in Hi. unfold NodeIDLength in Hi. lia.
Qed.

Lemma NodeRes_enc_length v nodes exp :
  Forall rpcnode_ok nodes → (64 * length nodes ≤ length (packet_enc (NodeRes v nodes exp)))%nat.
Proof.
  intros Hn. cbn [packet_enc]. set (e := enc_list (concat (map rpcnode_enc nodes))). set (q := concat [_; e; _]).
  pose proof (enc_list_length q) as Hq. assert (length e ≤ length q)%nat.
  { unfold q. cbn [concat]. rewrite !length_app. lia. }
  pose proof (enc_list_length (concat (map rpcnode_enc nodes))) as He. fold e in He.
  assert (64 * length nodes ≤ length (concat (map rpcnode_enc nodes)))%nat; [|lia].
  clear -Hn. induction Hn as [|n nodes (_ & _ & _ & _ & Hl) Hn IH]; [cbn; lia|].
  cbn [map concat length]. rewrite length_app. pose proof (rpcnode_enc_length n Hl). lia.
Qed.

(** C29: an answer with nineteen nodes or more is longer than the buffer that packets are
    read into, and what is left of it is rejected, unless the cut data happen to have the
    hash of the whole. *)
Theorem long_answers_rejected d v nodes exp :
  seckey_ok d → packet_ok (NodeRes v nodes exp) → (19 ≤ length nodes)%nat →
  fits64 (length (packet_enc (NodeRes v nodes exp))) →
  ∃ pkt, encodePacket (key_of d) noderesPacket (NodeRes v nodes exp) = Ok pkt ∧ (bufSize < length pkt)%nat ∧
    (decodePacket (received pkt) = Err errBadHash ∨
     keccak256 (drop macSize (received pkt)) = keccak256 (drop macSize pkt) ∧ drop macSize (received pkt) ≠ drop macSize pkt).
Proof.
  intros Hd Hok Hn Hf. destruct (encodePacket_layout d noderesPacket (NodeRes v nodes exp) Hd Hok Hf) as (sig & x & y & He & Hs & _).
  pose proof (NodeRes_enc_length v nodes exp (proj1 (proj2 Hok))) as Hlen.
  set (body := [noderesPacket] ++ packet_enc (NodeRes v nodes exp)) in *.
  assert (Hb : length body = S (length (packet_enc (NodeRes v nodes exp)))) by done.
  set (pkt := keccak256 (sig ++ body) ++ sig ++ body) in *.
  destruct (split_packet (keccak256 (sig ++ body)) sig body (length_keccak _) Hs) as (S1 & S2 & _ & _). fold pkt in S1, S2.
  assert (Hl : (bufSize < length pkt)%nat).
  { unfold pkt. rewrite !length_app, length_keccak, Hs, Hb. change macSize with 32%nat. change sigSize with 65%nat.
    unfold bufSize. lia. }
  exists pkt. split; [done|]. split; [done|].
  assert (Hr : length (received pkt) = bufSize) by (unfold received; rewrite length_take; lia).
  unfold decodePacket. rewrite Hr. change (bufSize <? headSize + 1)%nat with false. cbn iota.
  assert (Ht : take macSize (received pkt) = keccak256 (sig ++ body)).
  { unfold received. rewrite take_take. by replace (macSize `min` bufSize)%nat with macSize by done. }
  rewrite Ht. case_bool_decide as Hh; cbn [negb]; [right|by left]. rewrite S2. split; [done|].
  intros E. apply (f_equal length) in E. rewrite <-S2, !length_drop, Hr in E.
  change macSize with 32%nat in E. unfold bufSize in *. lia.
Qed.
End frames.

(** ** An example *)

Definition ex_ping : packet :=
  ping Version (MkEndPoint [10; 0; 0; 1] 30301 30301) (MkEndPoint [10; 0; 0; 2] 30301 0) 1600000000.

Lemma ex_seckey_ok : seckey_ok (HL := ex_lib) one_key.
Proof. split_and!; [apply length_be_fixed|apply be_fixed_byte|by apply bool_decide_eq_true]. Qed.

Lemma packets_roundtrip_witness :
  ∃ pkt id, encodePacket (H := ex_lib) (key_of (HL := ex_lib) one_key) pingPacket ex_ping = Ok pkt ∧
    decodePacket (H := ex_lib) pkt = Ok (ex_ping, id, take macSize pkt).
Proof.
  destruct (packets_roundtrip (HL := ex_lib) (LW := ex_laws) one_key ex_ping ex_seckey_ok)
    as (pkt & x & y & id & He & _ & _ & Hd & _).
  - assert (Hb : ∀ b, is_byte b → Forall is_byte [10; 0; 0; b]) by (intros b Hb; repeat constructor; lia || apply Hb).
    unfold packet_ok, ex_ping, endpoint_ok, Version. cbn [ep_IP ep_UDP ep_TCP].
    split_and!; try lia; apply Hb; split; lia.
  - unfold fits64. vm_compute. reflexivity.
  - exists pkt, id. split; [exact He|exact Hd].
Defined.

Definition ex_answer : packet := NodeRes Version (replicate 19 (MkRpcNode [10; 0; 0; 1] 30301 30301 (replicate 64 1))) 1600000000.

Lemma long_answers_rejected_witness :
  ∃ pkt, encodePacket (H := ex_lib) (key_of (HL := ex_lib) one_key) noderesPacket ex_answer = Ok pkt ∧ (bufSize < length pkt)%nat.
Proof.
  destruct (long_answers_rejected (HL := ex_lib) (LW := ex_laws) one_key Version
    (replicate 19 (MkRpcNode [10; 0; 0; 1] 30301 30301 (replicate 64 1))) 1600000000 ex_seckey_ok) as (pkt & He & Hl & _).
  - unfold packet_ok, Version. split_and!; [lia|lia| |lia|lia]. apply Forall_replicate. unfold rpcnode_ok. cbn [rn_IP rn_UDP rn_TCP rn_ID].
    split_and!; try lia; [repeat constructor; lia| |apply length_replicate]. apply Forall_replicate. split; lia.
  - rewrite length_replicate. lia.
  - unfold fits64. vm_compute. reflexivity.
  - exists pkt. split; [exact He|exact Hl].
Defined.

(** A time stamp is expired when its second has begun before now. *)
Lemma expired_spec ts now :
  0 ≤ ts < 2 ^ 63 - unixToInternal → expired ts now = true ↔ ts * second < now.
Proof.
  intros Hts. unfold unixToInternal in Hts. assert (E : ∀ z, - 2 ^ 63 ≤ z < 2 ^ 63 → int64_of z = z).
  { intros z Hz. unfold int64_of. rewrite Z.mod_small by lia. lia. }
  unfold expired, unixToInternal. rewrite (E ts), E by lia. rewrite orb_true_iff, andb_true_iff, !Z.ltb_lt, Z.eqb_eq.
  pose proof (Z.div_mod now second ltac:(done)). pose proof (Z.mod_pos_bound now second ltac:(done)).
  unfold second in *. lia.
Qed.
