(* ===== verification/DiscoverUdp.v ===== *)
(** * Requests, replies and bonding: network/p2p/discover/udp.go and table.go

    The queue of requests that wait for replies with its timer, the handlers of the
    packets, and the bonding of a node. An element that is removed from a list of Go's
    container/list has no successor: a loop that removes the element it is at ends there.
    What is sent to the network and the bonding that runs in its own goroutine are actions. *)

From stdpp Require Import sorting.
From S2P Require Import Prelude RlpSpec RlpRaw RlpEncode RlpStream RlpRoundtrip RlpTotal TrieEncoding TrieSpec TrieNode Trie TrieMap Sha256 Merkletree Types ChainDb ChainTables MathBig Hexutil Secp256k1Curve Crypto Netutil DiscoverNode DiscoverTable DiscoverDb DiscoverPacket.
Local Open Scope Z_scope.

Definition expiration : Z := 20 * second.
Definition msgTimeout : Z := 15 * second.
Definition ntpFailureThreshold : nat := 32.
Definition ntpWarningCooldown : Z := 600 * second.

(** ** The queue *)

(** A request; [pd_key] is its pointer. *)
Record pending := MkPending {
  pd_key : nat; pd_from : bytes; pd_ptype : Z; pd_deadline : Z; pd_callback : packet → bool
}.

(** The variables of the loop, the requests made so far, and what was sent to them. *)
Record loop := MkLoop {
  lp_plist : list pending; lp_timer : option Z; lp_nextTimeout : option nat; lp_contTimeouts : nat; lp_ntpWarnTime : Z;
  lp_count : nat; lp_errc : list (nat * option udp_error); lp_closed : bool
}.

Definition loop_start : loop := MkLoop [] None None 0 0 0 [] false.

Definition front_key (l : list pending) : option nat := pd_key <$> head l.

(** Only the first element is looked at: if it is removed, the loop ends. *)
Definition resetTimeout (now : Z) (s : loop) : loop :=
  match lp_plist s with
  | [] => s
  | p :: rest =>
      if bool_decide (lp_nextTimeout s = Some (pd_key p)) then s
      else if time_Sub (pd_deadline p) now <? 2 * msgTimeout
      then MkLoop (lp_plist s) (Some (now + time_Sub (pd_deadline p) now)) (Some (pd_key p)) (lp_contTimeouts s) (lp_ntpWarnTime s)
             (lp_count s) (lp_errc s) (lp_closed s)
      else MkLoop rest None None (lp_contTimeouts s) (lp_ntpWarnTime s)
             (lp_count s) (lp_errc s ++ [(pd_key p, Some errClockWarp)]) (lp_closed s)
  end.

Inductive event :=
| EvAdd (from : bytes) (ptype : Z) (callback : packet → bool)
| EvReply (from : bytes) (ptype : Z) (data : packet)
| EvTimer
| EvClose.

(** Case r := <-t.gotreply: the list, the request that is finished, and whether one matched. *)
Fixpoint reply_scan (from : bytes) (ptype : Z) (data : packet) (l : list pending) : list pending * option nat * bool :=
  match l with
  | [] => ([], None, false)
  | p :: l =>
      if bool_decide (pd_from p = from) && (pd_ptype p =? ptype) then
        if pd_callback p data then (l, Some (pd_key p), true)
        else let '(l, k, _) := reply_scan from ptype data l in (p :: l, k, true)
      else let '(l, k, m) := reply_scan from ptype data l in (p :: l, k, m)
  end.

(** Case now := <-timeout.C *)
Fixpoint timeout_scan (now : Z) (l : list pending) : list pending * option nat :=
  match l with
  | [] => ([], None)
  | p :: l => if pd_deadline p <=? now then (l, Some (pd_key p)) else let '(l, k) := timeout_scan now l in (p :: l, k)
  end.

Definition answer (k : option nat) (e : option udp_error) (s : loop) : list (nat * option udp_error) :=
  match k with Some k => lp_errc s ++ [(k, e)] | None => lp_errc s end.

Definition handle_event (now : Z) (ev : event) (s : loop) : loop * bool :=
  match ev with
  | EvAdd from ptype callback =>
      let p := MkPending (lp_count s) from ptype (now + msgTimeout) callback in
      (MkLoop (lp_plist s ++ [p]) (lp_timer s) (lp_nextTimeout s) (lp_contTimeouts s) (lp_ntpWarnTime s)
         (S (lp_count s)) (lp_errc s) (lp_closed s), false)
  | EvReply from ptype data =>
      let '(l, k, matched) := reply_scan from ptype data (lp_plist s) in
      (MkLoop l (lp_timer s) (lp_nextTimeout s) (if matched then 0%nat else lp_contTimeouts s) (lp_ntpWarnTime s)
         (lp_count s) (answer k None s) (lp_closed s), matched)
  | EvTimer =>
      let '(l, k) := timeout_scan now (lp_plist s) in
      let cont := match k with Some _ => S (lp_contTimeouts s) | None => lp_contTimeouts s end in
      let over := (ntpFailureThreshold <? cont)%nat in
      let warn := over && (ntpWarningCooldown <=? time_Sub now (lp_ntpWarnTime s)) in
      (MkLoop l None None (if over then 0%nat else cont) (if warn then now else lp_ntpWarnTime s)
         (lp_count s) (answer k (Some errTimeout) s) (lp_closed s), false)
  | EvClose =>
      (MkLoop (lp_plist s) (lp_timer s) (lp_nextTimeout s) (lp_contTimeouts s) (lp_ntpWarnTime s)
         (lp_count s) (lp_errc s ++ ((λ p, (pd_key p, Some errClosed)) <$> lp_plist s)) true, false)
  end.

(** One round of the loop, at the select again. *)
Definition round (now now' : Z) (ev : event) (s : loop) : loop :=
  let s := (handle_event now ev s).1 in if lp_closed s then s else resetTimeout now' s.

(** The runs of the loop while the clock does not go back. *)
Inductive running : Z → loop → Prop :=
| run_start now : 0 ≤ now → running now loop_start
| run_round t s now now' ev :
    running t s → lp_closed s = false → t ≤ now → now ≤ now' → now' < 2 ^ 62 → running now' (round now now' ev s).

(** [pending] when the loop has ended: the request is answered at once. *)
Definition pending_request (now : Z) (from : bytes) (ptype : Z) (callback : packet → bool) (s : loop) : loop :=
  if lp_closed s
  then MkLoop (lp_plist s) (lp_timer s) (lp_nextTimeout s) (lp_contTimeouts s) (lp_ntpWarnTime s)
         (S (lp_count s)) (lp_errc s ++ [(lp_count s, Some errClosed)]) (lp_closed s)
  else round now now (EvAdd from ptype callback) s.

Definition handleReply (now : Z) (from : bytes) (ptype : Z) (req : packet) (s : loop) : bool * loop :=
  if lp_closed s then (false, s)
  else ((handle_event now (EvReply from ptype req) s).2, round now now (EvReply from ptype req) s).

(** ** The handlers *)

Inductive action :=
| ASend (to : UDPAddr) (ptype : Z) (req : packet)
| ABond (pinged : bool) (id : bytes) (addr : UDPAddr) (tcpPort : Z).

Record udp := MkUdp {
  u_loop : loop; u_table : Table; u_db : nodeDB; u_ourEndpoint : EndPoint; u_netrestrict : option Netlist
}.
Definition with_loop (s : loop) (t : udp) : udp := MkUdp s (u_table t) (u_db t) (u_ourEndpoint t) (u_netrestrict t).

Definition expiry (now : Z) : Z := wrap 64 ((now + expiration) / second).
Definition no_endpoint : EndPoint := MkEndPoint [] 0 0.

Section handlers.
Context {KC : Keccak}.

(** The answer to a request for nodes: the nodes of the table but the one that asks, and
    those that may be relayed to it. *)
Definition answer_nodes (tab : Table) (from : UDPAddr) (fromID : bytes) : list RpcNode :=
  flat_map (λ p, match tab_nodes tab !! p with
                 | Some n =>
                     if bool_decide (nd_ID n = fromID) then []
                     else match CheckRelayIP (ua_IP from) (default [] (nd_IP n)) with
                          | Ok _ => [NodeToRPC n]
                          | _ => []
                          end
                 | None => []
                 end) (FindNodes tab).

Definition handle (now : Z) (t : udp) (from : UDPAddr) (fromID mac : bytes) (req : packet) :
    outcome udp_error (list action) * udp :=
  match req with
  | ping _ rfrom _ exp =>
      if expired exp now then (Err errExpired, t)
      else
        let sent := ASend from pongPacket (pong no_endpoint (makeEndpoint from (ep_TCP rfrom)) mac (expiry now)) in
        let '(matched, s) := handleReply now fromID pingPacket req (u_loop t) in
        (Ok (sent :: (if matched then [] else [ABond true fromID from (ep_TCP rfrom)])), with_loop s t)
  | pong _ _ _ exp =>
      if expired exp now then (Err errExpired, t)
      else
        let '(matched, s) := handleReply now fromID pongPacket req (u_loop t) in
        (if matched then Ok [] else Err errUnsolicitedReply, with_loop s t)
  | NodeReq _ exp =>
      if expired exp now then (Err errExpired, t)
      else
        match db_node (u_db t) fromID with
        | Ok (Some _) =>
            let nodes := answer_nodes (u_table t) from fromID in
            (Ok (match nodes with
                 | [] => []
                 | _ => [ASend from noderesPacket (NodeRes Version nodes (expiry now))]
                 end), t)
        | Ok None => (Err errUnknownNode, t)
        | _ => (Panic, t)
        end
  | NodeRes _ _ exp =>
      if expired exp now then (Err errExpired, t)
      else
        let '(matched, s) := handleReply now fromID noderesPacket req (u_loop t) in
        (if matched then Ok [] else Err errUnsolicitedReply, with_loop s t)
  end.

Context `{HL : Libsecp256k1}.

Definition handlePacket (now : Z) (t : udp) (from : UDPAddr) (buf : bytes) : outcome udp_error (list action) * udp :=
  match decodePacket buf with
  | Ok (req, fromID, hash) => handle now t from fromID hash req
  | Err e => (Err e, t)
  | Panic => (Panic, t)
  end.

(** The requests: what waits, and what is sent; then the caller waits for the answer. *)
Definition udp_ping (now : Z) (t : udp) (toid : bytes) (toaddr : UDPAddr) : udp * list action :=
  (with_loop (pending_request now toid pongPacket (λ _, true) (u_loop t)) t,
   [ASend toaddr pingPacket (ping Version (u_ourEndpoint t) (makeEndpoint toaddr 0) (expiry now))]).
Definition waitping (now : Z) (t : udp) (from : bytes) : udp * list action :=
  (with_loop (pending_request now from pingPacket (λ _, true) (u_loop t)) t, []).
Definition nodeReq (now : Z) (t : udp) (toid : bytes) (toaddr : UDPAddr) : udp * list action :=
  (with_loop (pending_request now toid noderesPacket (λ _, true) (u_loop t)) t,
   [ASend toaddr nodereqPacket (NodeReq Version (expiry now))]).

(** The nodes that [nodeReq] takes from an answer. *)
Definition nodes_of_answer (netrestrict : option Netlist) (toaddr : UDPAddr) (nodes : list RpcNode) : list Node :=
  flat_map (λ rn, match nodeFromRPC netrestrict toaddr rn with Ok n => [n] | _ => [] end) nodes.

(** ** Bonding *)

(** [bond] when no other call bonds with the node: the node and the error it returns, the
    store; a node that it returns is added to the table. [answered]: the ping was answered at
    [pongTime]. The wait for a ping of the other side changes only the queue of requests. *)
Definition bond (now pongTime : Z) (answered : bool) (db : nodeDB) (id : bytes) (addr : UDPAddr) (tcpPort : Z) :
    outcome udp_error (option Node * option udp_error * nodeDB) :=
  if bool_decide (id = ndb_self db) then Err ErrIsSelf
  else
    let* node := omap_err ErrRlp (db_node db id) in
    let fails := match node with Some _ => findFails db id | None => 0 end in
    let age := time_Sub now (lastPong db id) in
    let* (node, result, db) :=
      (if match node with None => true | Some _ => false end || (0 <? fails) || (nodeDBNodeExpiration <? age) then
         let db := updateLastPing db id now in
         if answered then
           let db := updateLastPong db id pongTime in
           let n := NewNode id (Some (ua_IP addr)) (wrap 16 (ua_Port addr)) tcpPort in
           (** the error of the store is dropped *)
           let db := match updateNode db n with Ok db => db | _ => db end in
           Ok (Some n, None, db)
         else Ok (node, Some errTimeout, db)
       else Ok (node, None, db)) in
    match node with
    | Some _ => Ok (node, result, updateFindFails db id 0)
    | None => Ok (node, result, db)
    end.
End handlers.

(** ** Scanning the queue *)

Definition matches (from : bytes) (ptype : Z) (p : pending) : Prop := pd_from p = from ∧ pd_ptype p = ptype.

(** A scan removes the first element with [P], if there is one. *)
Inductive removed (P : pending → Prop) : list pending → option nat → list pending → Prop :=
| rem_one l1 p l2 : Forall (λ q, ¬ P q) l1 → P p → removed P (l1 ++ p :: l2) (Some (pd_key p)) (l1 ++ l2)
| rem_none l : Forall (λ q, ¬ P q) l → removed P l None l.

Lemma removed_cons P q l k l' : ¬ P q → removed P l k l' → removed P (q :: l) k (q :: l').
Proof.
  intros Hq [l1 p l2 Hl1 Hp|l0 Hl]; [|by constructor; constructor].
  apply (rem_one P (q :: l1) p l2); [by constructor|done].
Qed.

Lemma reply_scan_spec from ptype data l :
  removed (λ p, matches from ptype p ∧ pd_callback p data = true) l (reply_scan from ptype data l).1.2
    (reply_scan from ptype data l).1.1 ∧
  ((reply_scan from ptype data l).2 = true ↔ Exists (matches from ptype) l).
Proof.
  induction l as [|p l [IH1 IH2]]; cbn [reply_scan].
  { split; [by constructor|]. split; [done|]. by intros ?%Exists_nil. }
  destruct (reply_scan from ptype data l) as [[l' k] m]. cbn [fst snd] in IH1, IH2.
  destruct (bool_decide (pd_from p = from) && (pd_ptype p =? ptype)) eqn:Em.
  - apply andb_true_iff in Em as [Hf%bool_decide_eq_true Ht%Z.eqb_eq].
    destruct (pd_callback p data) eqn:Ec; cbn [fst snd].
    + split; [|split; [by left|done]]. apply (rem_one _ [] p l); [constructor|done].
    + split; [|split; [by left|done]]. apply removed_cons; [|done]. intros [_ E]. congruence.
  - assert (Hn : ¬ matches from ptype p).
    { intros [Hf Ht]. rewrite bool_decide_eq_true_2, (proj2 (Z.eqb_eq _ _) Ht) in Em by done. done. }
    cbn [fst snd]. split; [apply removed_cons; [tauto|done]|]. rewrite IH2, Exists_cons. tauto.
Qed.

Lemma timeout_scan_spec now l :
  removed (λ p, pd_deadline p ≤ now) l (timeout_scan now l).2 (timeout_scan now l).1.
Proof.
  induction l as [|p l IH]; cbn [timeout_scan]; [by constructor|]. destruct (timeout_scan now l) as [l' k].
  destruct (Z.leb_spec (pd_deadline p) now); cbn [fst snd].
  - apply (rem_one _ [] p l); [constructor|done].
  - apply removed_cons; [lia|done].
Qed.

Lemma removed_sublist P l k l' : removed P l k l' → l' `sublist_of` l.
Proof. intros []; [|done]. apply sublist_app; [done|]. by constructor. Qed.

Lemma removed_keys P l k l' : removed P l k l' → pd_key <$> l ≡ₚ (pd_key <$> l') ++ option_list k.
Proof.
  intros []; cbn; [|by rewrite app_nil_r]. rewrite !fmap_app. cbn. rewrite <-app_assoc. f_equiv. by rewrite Permutation_cons_append.
Qed.

Lemma StronglySorted_sublist {A} (R : A → A → Prop) l k : l `sublist_of` k → StronglySorted R k → StronglySorted R l.
Proof.
  induction 1 as [|x l k Hs IH|x l k Hs IH]; intros HS; [done|..]; inversion_clear HS as [|?? Hk Hx]; [|by apply IH].
  constructor; [by apply IH|]. rewrite Forall_forall in *. intros y Hy. apply Hx. by eapply elem_of_sublist.
Qed.

(** ** The invariant of the queue *)

(** At the select, or before the timer is set again. *)
Record queue_ok (set_ : bool) (now : Z) (s : loop) : Prop := {
  q_keys : (lp_errc s).*1 ++ (pd_key <$> lp_plist s) ≡ₚ seq 0 (lp_count s);
  q_sorted : StronglySorted (λ p q, pd_deadline p ≤ pd_deadline q) (lp_plist s);
  q_deadline : Forall (λ p, 0 ≤ pd_deadline p ≤ now + msgTimeout) (lp_plist s);
  q_next : ∀ k, lp_nextTimeout s = Some k → (k < lp_count s)%nat;
  q_timer : ∀ p, head (lp_plist s) = Some p →
    (set_ = true ∨ lp_nextTimeout s = Some (pd_key p)) →
    lp_nextTimeout s = Some (pd_key p) ∧ lp_timer s = Some (pd_deadline p)
}.

Lemma reset_ok now now' s :
  queue_ok false now s → 0 ≤ now → now ≤ now' → now' < 2 ^ 62 → queue_ok true now' (resetTimeout now' s).
Proof.
  intros [Hk Hs Hd Hn Ht] H0 Hle Hmax. unfold resetTimeout. destruct (lp_plist s) as [|p l] eqn:El.
  - split; rewrite ?El; done.
  - assert (Hd' : Forall (λ p, 0 ≤ pd_deadline p ≤ now' + msgTimeout) (p :: l)).
    { eapply Forall_impl; [exact Hd|]. cbn. lia. }
    case_bool_decide as Hnext.
    + split; rewrite ?El; try done. intros q [= <-] _. by apply Ht; [|right].
    + inversion Hd' as [|?? Hp _]. assert (time_Sub (pd_deadline p) now' = pd_deadline p - now') as ->.
      { unfold time_Sub, minDuration, maxDuration, msgTimeout, second in *. lia. }
      destruct (Z.ltb_spec (pd_deadline p - now') (2 * msgTimeout)) as [_|Hlt]; [|unfold msgTimeout, second in *; lia].
      split; cbn; rewrite ?El; try done.
      * intros k [= <-]. assert (pd_key p ∈ seq 0 (lp_count s)) as Hin; [|apply elem_of_seq in Hin; lia].
        rewrite <-Hk. apply elem_of_app. right. constructor.
      * intros q [= <-] _. split; [done|]. f_equal. lia.
Qed.

Lemma handle_removed P now s k l cont warn timer next e :
  queue_ok true now s → removed P (lp_plist s) k l → (next = None ∨ (next = lp_nextTimeout s ∧ timer = lp_timer s)) →
  queue_ok false now (MkLoop l timer next cont warn (lp_count s) (answer k e s) (lp_closed s)).
Proof.
  intros [Hk Hs Hd Hn Ht] Hr Hnext. pose proof (removed_sublist _ _ _ _ Hr) as Hsub. pose proof (removed_keys _ _ _ _ Hr) as Hkeys.
  split; cbn.
  - rewrite <-Hk, Hkeys. destruct k as [k|]; cbn [answer option_list]; [|by rewrite app_nil_r].
    rewrite fmap_app. cbn. rewrite <-app_assoc. f_equiv. by rewrite Permutation_app_comm.
  - by eapply StronglySorted_sublist.
  - rewrite Forall_forall in *. intros p Hp. apply Hd. by eapply elem_of_sublist.
  - intros k' Hk'. destruct Hnext as [->|[-> _]]; [done|]. by apply Hn.
  - intros p Hp [?|Hkey]; [done|]. destruct Hnext as [->|[-> ->]]; [done|].
    destruct Hr as [[|x l1] q l2 Hl1 Hq|l0 Hl0]; [|by apply Ht; [|left]..].
    destruct (Ht q eq_refl (or_introl eq_refl)) as [Hq' _]. exfalso.
    assert (NoDup (pd_key <$> q :: l2)) as Hnd.
    { pose proof (NoDup_seq 0 (lp_count s)) as Hnd. rewrite <-Hk in Hnd. by apply NoDup_app in Hnd as (_ & _ & ?). }
    apply NoDup_cons in Hnd as [Hnin _]. apply Hnin. rewrite Hkey in Hq'. injection Hq' as <-.
    apply list_elem_of_fmap_2. destruct l2; [done|]. injection Hp as ->. constructor.
Qed.

Lemma queue_ok_later set_ now now' s : queue_ok set_ now s → now ≤ now' → queue_ok set_ now' s.
Proof. intros [Hk Hs Hd Hn Ht] Hle. split; try done. eapply Forall_impl; [exact Hd|]. cbn. lia. Qed.

Lemma handle_event_ok now ev s :
  queue_ok true now s → 0 ≤ now → ev ≠ EvClose → queue_ok false now (handle_event now ev s).1.
Proof.
  intros Hq H0 Hev. destruct ev as [from ptype callback|from ptype data| |]; [..|done]; cbn [handle_event].
  - destruct Hq as [Hk Hs Hd Hn Ht]. split; cbn -[seq].
    + by rewrite seq_S, fmap_app, app_assoc, Hk.
    + clear -Hs Hd. induction Hs as [|p l Hl IH Hp]; cbn; [by repeat constructor|].
      inversion_clear Hd. constructor; [by apply IH|]. apply Forall_app. split; [done|]. apply Forall_singleton. cbn. lia.
    + apply Forall_app. split; [done|]. apply Forall_singleton. cbn. unfold msgTimeout, second. lia.
    + intros k Hk'. specialize (Hn k Hk'). lia.
    + intros p Hp [?|Hkey]; [done|]. destruct (lp_plist s) as [|q l]; [|by apply Ht; [|right]].
      injection Hp as <-. cbn in Hkey. apply Hn in Hkey. cbn in Hkey. lia.
  - pose proof (reply_scan_spec from ptype data (lp_plist s)) as [Hr _]. revert Hr.
    destruct (reply_scan _ _ _ _) as [[l k] m]. intros Hr. eapply handle_removed; [done|exact Hr|by right].
  - pose proof (timeout_scan_spec now (lp_plist s)) as Hr. revert Hr.
    destruct (timeout_scan _ _) as [l k]. intros Hr. eapply handle_removed; [done|exact Hr|by left].
Qed.

(** ** Runs *)

Definition keys_answered (s : loop) : Prop :=
  if lp_closed s then (lp_errc s).*1 ≡ₚ seq 0 (lp_count s)
  else (lp_errc s).*1 ++ (pd_key <$> lp_plist s) ≡ₚ seq 0 (lp_count s).

Lemma handle_event_open now ev s : ev ≠ EvClose → lp_closed (handle_event now ev s).1 = lp_closed s.
Proof.
  intros Hev. destruct ev; [done| | |done]; cbn [handle_event].
  - by destruct (reply_scan _ _ _ _) as [[]].
  - by destruct (timeout_scan _ _).
Qed.

Lemma resetTimeout_closed now s : lp_closed (resetTimeout now s) = lp_closed s.
Proof. unfold resetTimeout. repeat case_match; done. Qed.

Lemma round_open now now' ev s :
  ev ≠ EvClose → lp_closed s = false → round now now' ev s = resetTimeout now' (handle_event now ev s).1 ∧
  lp_closed (round now now' ev s) = false.
Proof.
  intros Hev Hc. unfold round. cbn zeta. rewrite (handle_event_open now ev s Hev), Hc. split; [done|].
  by rewrite resetTimeout_closed, handle_event_open.
Qed.

Lemma round_ok now now' ev s :
  queue_ok true now s → lp_closed s = false → 0 ≤ now → now ≤ now' → now' < 2 ^ 62 → ev ≠ EvClose →
  queue_ok true now' (round now now' ev s).
Proof.
  intros Hq Hc H0 Hle Hmax Hev. destruct (round_open now now' ev s Hev Hc) as [-> _].
  apply (reset_ok now); [by apply handle_event_ok|done..].
Qed.

Lemma event_close_dec ev : ev = EvClose ∨ ev ≠ EvClose.
Proof. destruct ev; auto. Qed.

Lemma running_ok t s : running t s → 0 ≤ t ∧ keys_answered s ∧ (lp_closed s = false → queue_ok true t s).
Proof.
  induction 1 as [now H0|t s now now' ev Hr (H0 & Hk & Hq) Hc Hle Hle' Hmax].
  - split_and!; [done|constructor|]. intros _. split; cbn; try done; constructor.
  - specialize (Hq Hc). pose proof (queue_ok_later _ _ now _ Hq Hle) as Hq'. split; [lia|].
    destruct (event_close_dec ev) as [->|Hev].
    + unfold round, keys_answered. cbn. rewrite fmap_app, <-list_fmap_compose. split; [|done]. apply (q_keys _ _ _ Hq).
    + pose proof (round_ok now now' ev s Hq' Hc ltac:(lia) Hle' Hmax Hev) as Hok. split; [|done].
      unfold keys_answered. destruct (round_open now now' ev s Hev Hc) as [_ ->]. apply (q_keys _ _ _ Hok).
Qed.

(** C26: in every run of the loop while the clock does not go back, each request is answered
    once at most, and none is lost: it is answered or waits, and all are answered when the
    loop is closed; while requests wait, the timer is set to the earliest of their
    deadlines, which is at most the time of a message away. *)
Theorem requests_answered_once t s :
  running t s →
  NoDup (lp_errc s).*1 ∧
  (if lp_closed s then (lp_errc s).*1 ≡ₚ seq 0 (lp_count s)
   else (lp_errc s).*1 ++ (pd_key <$> lp_plist s) ≡ₚ seq 0 (lp_count s) ∧
     (lp_plist s ≠ [] → ∃ q, q ∈ lp_plist s ∧ lp_timer s = Some (pd_deadline q) ∧ pd_deadline q ≤ t + msgTimeout ∧
        ∀ p, p ∈ lp_plist s → pd_deadline q ≤ pd_deadline p)).
Proof.
  intros (H0 & Hk & Hq)%running_ok. unfold keys_answered in Hk. pose proof (NoDup_seq 0 (lp_count s)) as Hnd.
  destruct (lp_closed s); [by rewrite Hk|]. specialize (Hq eq_refl). rewrite <-Hk in Hnd.
  apply NoDup_app in Hnd as [Hnd _]. split_and!; [done..|]. intros Hne.
  destruct Hq as [_ Hs Hd _ Ht]. destruct (lp_plist s) as [|q l]; [done|].
  destruct (Ht q eq_refl (or_introl eq_refl)) as [_ Htimer]. exists q. split; [by left|]. split; [done|].
  inversion_clear Hs as [|?? _ Hall]. inversion_clear Hd as [|?? Hq _]. rewrite Forall_forall in Hall. split; [lia|].
  intros p [->|Hp]%elem_of_cons; [lia|]. specialize (Hall p Hp). lia.
Qed.

(** ** Time outs *)

(** The timer fires [n] times at [now]. *)
Fixpoint fire_timer (n : nat) (now : Z) (s : loop) : loop :=
  match n with O => s | S n => fire_timer n now (round now now EvTimer s) end.

Lemma timer_event now s p l :
  lp_plist s = p :: l → pd_deadline p ≤ now →
  lp_plist (handle_event now EvTimer s).1 = l ∧
  lp_errc (handle_event now EvTimer s).1 = lp_errc s ++ [(pd_key p, Some errTimeout)].
Proof.
  intros El Hp. cbn [handle_event]. rewrite El. cbn [timeout_scan]. destruct (Z.leb_spec (pd_deadline p) now); [done|lia].
Qed.

Lemma reset_keeps now s :
  queue_ok false now s → 0 ≤ now → now < 2 ^ 62 →
  lp_plist (resetTimeout now s) = lp_plist s ∧ lp_errc (resetTimeout now s) = lp_errc s.
Proof.
  intros [_ _ Hd _ _] H0 Hmax. unfold resetTimeout. destruct (lp_plist s) as [|p l] eqn:El; [by rewrite El|].
  case_bool_decide; [by rewrite El|]. inversion_clear Hd as [|?? Hp _].
  destruct (Z.ltb_spec (time_Sub (pd_deadline p) now) (2 * msgTimeout)) as [|Hlt]; [done|].
  unfold time_Sub, minDuration, maxDuration, msgTimeout, second in *. lia.
Qed.

Lemma round_timer now s p l :
  queue_ok true now s → lp_closed s = false → 0 ≤ now → now < 2 ^ 62 → lp_plist s = p :: l → pd_deadline p ≤ now →
  lp_plist (round now now EvTimer s) = l ∧ lp_errc (round now now EvTimer s) = lp_errc s ++ [(pd_key p, Some errTimeout)].
Proof.
  intros Hq Hc H0 Hmax El Hp. destruct (round_open now now EvTimer s ltac:(done) Hc) as [-> _].
  pose proof (handle_event_ok now EvTimer s Hq H0 ltac:(done)) as Hok. destruct (timer_event now s p l El Hp) as [<- <-].
  by apply reset_keeps.
Qed.

(** C27: requests that are not answered do time out: once their deadlines have passed, the
    timer is due as long as one of them waits, and each time it fires the oldest, and no
    other, is answered with a time-out, in the order of the requests, until none is left. *)
Theorem timeouts_answer_all t s now :
  running t s → lp_closed s = false → t ≤ now → now < 2 ^ 62 → Forall (λ p, pd_deadline p ≤ now) (lp_plist s) →
  lp_plist (fire_timer (length (lp_plist s)) now s) = [] ∧
  lp_errc (fire_timer (length (lp_plist s)) now s) = lp_errc s ++ ((λ p, (pd_key p, Some errTimeout)) <$> lp_plist s) ∧
  (∀ i, (i < length (lp_plist s))%nat → ∃ d, lp_timer (fire_timer i now s) = Some d ∧ d ≤ now) ∧
  (∀ i, (i ≤ length (lp_plist s))%nat → lp_plist (fire_timer i now s) = drop i (lp_plist s)).
Proof.
  intros (H0 & _ & Hq)%running_ok Hc Hle Hmax Hd. specialize (Hq Hc).
  apply (queue_ok_later _ _ now) in Hq; [|done]. assert (H0' : 0 ≤ now) by lia. clear H0 Hle.
  remember (lp_plist s) as l eqn:El. revert s El Hc Hq. induction l as [|p l IH]; intros s El Hc Hq; cbn [length fire_timer].
  - split_and!; [done|cbn; by rewrite app_nil_r|lia|]. intros i Hi. by replace i with 0%nat by lia.
  - inversion_clear Hd as [|?? Hp Hd']. symmetry in El.
    destruct (round_timer now s p l Hq Hc H0' Hmax El Hp) as [E1 E2].
    destruct (IH Hd' (round now now EvTimer s) (eq_sym E1)) as (F1 & F2 & F3 & F4).
    { by apply round_open. }
    { by apply round_ok. }
    split_and!; [done|rewrite F2, E2, <-app_assoc; done| |intros [|i] Hi; cbn [fire_timer drop]; [done|apply F4; lia]].
    intros [|i] Hi; cbn [fire_timer]; [|apply F3; lia]. destruct Hq as [_ _ _ _ Ht]. rewrite El in Ht.
    destruct (Ht p eq_refl (or_introl eq_refl)) as [_ ->]. by exists (pd_deadline p).
Qed.

(** When the clock has jumped back far enough, the first request is given up, but the
    timer is stopped although others wait: none of them times out before another event. *)
Theorem clock_warp_stops_timer now s p q l :
  lp_plist s = p :: q :: l → lp_nextTimeout s ≠ Some (pd_key p) → 2 * msgTimeout ≤ time_Sub (pd_deadline p) now →
  lp_plist (resetTimeout now s) = q :: l ∧ lp_timer (resetTimeout now s) = None ∧
  lp_errc (resetTimeout now s) = lp_errc s ++ [(pd_key p, Some errClockWarp)].
Proof.
  intros El Hn Hw. unfold resetTimeout. rewrite El, bool_decide_eq_false_2 by done.
  destruct (Z.ltb_spec (time_Sub (pd_deadline p) now) (2 * msgTimeout)); [lia|done].
Qed.

(** ** Replies *)

Section replies.
Context {KC : Keccak}.

Lemma reply_handled t0 t from fromID mac req now :
  running t0 (u_loop t) → lp_closed (u_loop t) = false → t0 ≤ now → now < 2 ^ 62 →
  match req with
  | pong _ _ _ exp | NodeRes _ _ exp => expired exp now = false
  | _ => False
  end →
  let r := handle now t from fromID mac req in
  let s := u_loop t in
  let s' := u_loop r.2 in
  (r.1 = Ok [] ↔ Exists (matches fromID (packet_type req)) (lp_plist s)) ∧
  (r.1 ≠ Ok [] → r.1 = Err errUnsolicitedReply ∧ lp_plist s' = lp_plist s ∧ lp_errc s' = lp_errc s) ∧
  ∃ k, removed (λ p, matches fromID (packet_type req) p ∧ pd_callback p req = true) (lp_plist s) k (lp_plist s') ∧
    lp_errc s' = answer k None s.
Proof.
  intros (H0 & _ & Hq)%running_ok Hc Hle Hmax Hreq. cbn zeta. specialize (Hq Hc).
  apply (queue_ok_later _ _ now) in Hq; [|done]. set (ty := packet_type req).
  pose proof (handle_event_ok now (EvReply fromID ty req) (u_loop t) Hq ltac:(lia) ltac:(done)) as Hok.
  destruct (reset_keeps now _ Hok ltac:(lia) Hmax) as [Ep Ee].
  destruct (round_open now now (EvReply fromID ty req) (u_loop t) ltac:(done) Hc) as [Er _].
  pose proof (reply_scan_spec fromID ty req (lp_plist (u_loop t))) as [Hrem Hm].
  assert (Hh : handle now t from fromID mac req =
    (if (handle_event now (EvReply fromID ty req) (u_loop t)).2 then Ok [] else Err errUnsolicitedReply,
     with_loop (round now now (EvReply fromID ty req) (u_loop t)) t)).
  { unfold ty. destruct req as [| f t' tok exp| |v nodes exp]; try done; cbn [handle packet_type]; rewrite Hreq;
      unfold handleReply; rewrite Hc; done. }
  rewrite Hh. cbn [fst snd u_loop with_loop]. rewrite Er, Ep, Ee. cbn [handle_event].
  destruct (reply_scan fromID ty req (lp_plist (u_loop t))) as [[l k] m]. cbn [fst snd lp_plist lp_errc] in *.
  split_and!.
  - rewrite <-Hm. by destruct m.
  - destruct m; [done|]. intros _. split; [done|]. destruct Hrem as [l1 p l2 Hl1 [Hp _]|l0 Hl0]; [|done].
    exfalso. apply diff_false_true. apply Hm. apply Exists_app. right. by left.
  - by exists k.
Qed.

(** A reply is accepted exactly when a request to its sender for its kind waits; it
    finishes the first such request and no other, and a reply nobody asked for changes
    nothing. *)
Theorem replies_need_requests t0 t from fromID mac req now :
  running t0 (u_loop t) → lp_closed (u_loop t) = false → t0 ≤ now → now < 2 ^ 62 →
  match req with
  | pong _ _ _ exp | NodeRes _ _ exp => expired exp now = false
  | _ => False
  end →
  let r := handle now t from fromID mac req in
  let s := u_loop t in
  let s' := u_loop r.2 in
  (r.1 = Ok [] ↔ Exists (matches fromID (packet_type req)) (lp_plist s)) ∧
  (r.1 ≠ Ok [] → r.1 = Err errUnsolicitedReply ∧ lp_plist s' = lp_plist s ∧ lp_errc s' = lp_errc s) ∧
  ∃ k, removed (λ p, matches fromID (packet_type req) p ∧ pd_callback p req = true) (lp_plist s) k (lp_plist s') ∧
    lp_errc s' = answer k None s.
Proof. apply reply_handled. Qed.
End replies.

(** ** Exchanges *)

Lemma endpoint_enc_upper e : endpoint_ok e → (length (ep_IP e) ≤ 16)%nat → (length (endpoint_enc e) ≤ 56)%nat.
Proof.
  intros (_ & Hu & Ht) Hl. unfold endpoint_enc. set (q := concat _). assert (length q ≤ 47)%nat.
  { unfold q. cbn [concat]. rewrite !length_app. cbn [length]. pose proof (enc_str_short (ep_IP e)).
    pose proof (enc_uint_short (ep_UDP e) 2 Hu). pose proof (enc_uint_short (ep_TCP e) 2 Ht). lia. }
  pose proof (enc_list_short q). lia.
Qed.

Lemma ping_enc_upper v from to exp :
  packet_ok (ping v from to exp) → (length (ep_IP from) ≤ 16)%nat → (length (ep_IP to) ≤ 16)%nat →
  (length (packet_enc (ping v from to exp)) ≤ 200)%nat.
Proof.
  intros (Hv & Hf & Ht & He) Lf Lt. cbn [packet_enc]. set (q := concat _). assert (length q ≤ 146)%nat.
  { unfold q. cbn [concat]. rewrite !length_app. cbn [length]. pose proof (endpoint_enc_upper from Hf Lf).
    pose proof (endpoint_enc_upper to Ht Lt). pose proof (enc_uint_short v 8 Hv). pose proof (enc_uint_short exp 8 He). lia. }
  pose proof (enc_list_short q). lia.
Qed.

Lemma pong_enc_upper from to tok exp :
  packet_ok (pong from to tok exp) → (length (ep_IP from) ≤ 16)%nat → (length (ep_IP to) ≤ 16)%nat → length tok = 32%nat →
  (length (packet_enc (pong from to tok exp)) ≤ 200)%nat.
Proof.
  intros (Hf & Ht & Hk & He) Lf Lt Lk. cbn [packet_enc]. set (q := concat _). assert (length q ≤ 170)%nat.
  { unfold q. cbn [concat]. rewrite !length_app. cbn [length]. pose proof (endpoint_enc_upper from Hf Lf).
    pose proof (endpoint_enc_upper to Ht Lt). pose proof (enc_str_short tok) as Hu. rewrite Lk in Hu.
    pose proof (enc_uint_short exp 8 He). lia. }
  pose proof (enc_list_short q). lia.
Qed.

Lemma makeEndpoint_ok addr tcp :
  Forall is_byte (ua_IP addr) → 0 ≤ tcp < 2 ^ 16 →
  endpoint_ok (makeEndpoint addr tcp) ∧ (length (ep_IP (makeEndpoint addr tcp)) ≤ 16)%nat ∧ ep_TCP (makeEndpoint addr tcp) = tcp.
Proof.
  intros Hb Ht. unfold makeEndpoint, endpoint_ok. cbn [ep_IP ep_UDP ep_TCP].
  assert (H16 : 0 ≤ wrap 16 (ua_Port addr) < 2 ^ 16) by (apply wrap_range; lia).
  set (ip := match To4 (ua_IP addr) with Some ip => ip | None => _ end).
  assert (Forall is_byte ip ∧ (length ip ≤ 16)%nat) as [? ?]; [|done].
  unfold ip, To4, To16. destruct (Nat.eqb_spec (length (ua_IP addr)) 4) as [E|E]; [split; [done|lia]|].
  destruct (Nat.eqb_spec (length (ua_IP addr)) 16) as [E'|E']; [|rewrite andb_false_r; split; [constructor|cbn; lia]].
  rewrite andb_true_r. case_bool_decide; cbn.
  - split; [by apply Forall_drop|]. rewrite length_drop. lia.
  - split; [done|lia].
Qed.

Section exchange.
Context {KC : Keccak} `{HL : Libsecp256k1} {LW : LibsecpLaws}.

(** A short packet goes to the handler of its kind. *)
Lemma handlePacket_received d p now t from :
  seckey_ok d → packet_ok p → (length (packet_enc p) ≤ 200)%nat →
  ∃ pkt x y id, encodePacket (key_of d) (packet_type p) p = Ok pkt ∧
    prv_pub (key_of d) = Some (x, y) ∧ PubkeyID x y = Ok id ∧
    take macSize pkt = keccak256 (drop macSize pkt) ∧
    handlePacket now t from (received pkt) = handle now t from id (take macSize pkt) p.
Proof.
  intros Hd Hok Hlen. destruct (packet_decodes d p Hd Hok) as (pkt & x & y & id & He & Hp & Hid & Hdec & Hmac & Hl & Hr).
  { unfold fits64. lia. }
  exists pkt, x, y, id. split_and!; try done. rewrite Hr by (unfold bufSize; lia). unfold handlePacket. by rewrite Hdec.
Qed.

(** Whether the loop has a request that waits for a packet of the kind from the node. *)
Definition waits_for (id : bytes) (ptype : Z) (s : loop) : Prop :=
  lp_closed s = false ∧ Exists (matches id ptype) (lp_plist s).

Lemma handleReply_waits now id ptype req s : (handleReply now id ptype req s).1 = true ↔ waits_for id ptype s.
Proof.
  unfold handleReply, waits_for. destruct (lp_closed s); [by split; [|intros []]|]. cbn [fst handle_event].
  rewrite <-(proj2 (reply_scan_spec id ptype req (lp_plist s))).
  destruct (reply_scan id ptype req (lp_plist s)) as [[l k] m]. cbn [fst snd]. tauto.
Qed.

(** C25: pings are answered and answers are accepted. When a node pings another, the ping is
    read by the other, which sends a pong with the hash of the ping, and bonds exactly if no
    request in its queue waits for a ping of this node. The pong, if it is not too late, is
    accepted exactly if a request of the node waits for a pong of the other, and unsolicited
    else; it removes the first of these requests whose callback accepts it, and nil is
    sent to this one alone. *)
Theorem ping_pong dA dB a b tA nowA nowB addrA addrB v from to exp :
  seckey_ok dA → seckey_ok dB → packet_ok (ping v from to exp) → (length (ep_IP from) ≤ 16)%nat → (length (ep_IP to) ≤ 16)%nat →
  Forall is_byte (ua_IP addrA) → expired exp nowB = false →
  running tA (u_loop a) → lp_closed (u_loop a) = false → tA ≤ nowA → nowA < 2 ^ 62 →
  expired (expiry nowB) nowA = false →
  ∃ ping_pkt idA idB actions,
    encodePacket (key_of dA) pingPacket (ping v from to exp) = Ok ping_pkt ∧
    (∃ x y, prv_pub (key_of dA) = Some (x, y) ∧ PubkeyID x y = Ok idA) ∧
    (∃ x y, prv_pub (key_of dB) = Some (x, y) ∧ PubkeyID x y = Ok idB) ∧
    let answer := pong no_endpoint (makeEndpoint addrA (ep_TCP from)) (take macSize ping_pkt) (expiry nowB) in
    (handlePacket nowB b addrA (received ping_pkt)).1 = Ok (ASend addrA pongPacket answer :: actions) ∧
    (waits_for idA pingPacket (u_loop b) → actions = []) ∧
    (¬ waits_for idA pingPacket (u_loop b) → actions = [ABond true idA addrA (ep_TCP from)]) ∧
    ∃ pong_pkt, encodePacket (key_of dB) pongPacket answer = Ok pong_pkt ∧
      let r := handlePacket nowA a addrB (received pong_pkt) in
      (waits_for idB pongPacket (u_loop a) → r.1 = Ok []) ∧
      (¬ waits_for idB pongPacket (u_loop a) → r.1 = Err errUnsolicitedReply) ∧
      ∃ k, removed (λ p, matches idB pongPacket p ∧ pd_callback p answer = true) (lp_plist (u_loop a)) k (lp_plist (u_loop r.2)) ∧
        lp_errc (u_loop r.2) = lp_errc (u_loop a) ++ match k with Some k => [(k, None)] | None => [] end.
Proof.
  intros HdA HdB Hping Lf Lt Hbytes Hexp Hrun Hc Hle Hmax Hexp'.
  destruct (handlePacket_received dA (ping v from to exp) nowB b addrA HdA Hping (ping_enc_upper _ _ _ _ Hping Lf Lt))
    as (pkt & xA & yA & idA & He & HpA & HidA & Hmac & Hh).
  destruct (makeEndpoint_ok addrA (ep_TCP from) Hbytes) as (Hep & Hlep & _); [apply Hping|].
  set (answer := pong no_endpoint (makeEndpoint addrA (ep_TCP from)) (take macSize pkt) (expiry nowB)).
  assert (Hpong : packet_ok answer).
  { split; [|split; [done|split; [rewrite Hmac; apply keccak_byte|apply (wrap_range 64); lia]]].
    unfold no_endpoint, endpoint_ok. cbn. split_and!; [constructor|lia..]. }
  destruct (handlePacket_received dB answer nowA a addrB HdB Hpong) as (pkt' & xB & yB & idB & He' & HpB & HidB & _ & Hh').
  { apply pong_enc_upper; [done|cbn; lia|done|]. rewrite Hmac. apply keccak_length. }
  pose proof (reply_handled tA a addrB idB (take macSize pkt') answer nowA Hrun Hc Hle Hmax Hexp') as (R1 & R2 & k & R3 & R4).
  exists pkt, idA, idB, (if (handleReply nowB idA pingPacket (ping v from to exp) (u_loop b)).1 then [] else [ABond true idA addrA (ep_TCP from)]).
  split; [done|]. split; [by exists xA, yA|]. split; [by exists xB, yB|]. cbn zeta. fold answer.
  pose proof (handleReply_waits nowB idA pingPacket (ping v from to exp) (u_loop b)) as Hw.
  split; [|split; [|split]].
  - rewrite Hh. cbn [handle]. rewrite Hexp. by destruct (handleReply _ _ _ _ _).
  - by intros ->%Hw.
  - intros Hn. destruct (handleReply _ _ _ _ _).1; [|done]. by destruct Hn; apply Hw.
  - exists pkt'. split; [done|]. rewrite Hh'. cbn zeta in R1, R2, R3, R4 |- *. split_and!.
    + intros [_ Hx]. by apply R1.
    + intros Hn. apply R2. rewrite R1. intros Hx. by apply Hn.
    + exists k. split; [exact R3|]. rewrite R4. destruct k; [done|]. symmetry. apply app_nil_r.
Qed.
End exchange.

(** ** Bonding *)

Section bonding.
Context {KC : Keccak}.

Lemma db_node_total db id : ∃ known, db_node db id = Ok known.
Proof.
  unfold db_node. destruct (ndb_lvl db !! _) as [blob|]; [|by eexists].
  destruct (DecodeBytes_ends stored_ty blob I eq_refl I) as [[v ->]|(e & -> & _)]; by eexists.
Qed.

Lemma NewNode_stored id ip udp tcp :
  Forall is_byte id → length id = NodeIDLength → Forall is_byte ip → (length ip ≤ 16)%nat →
  0 ≤ udp < 2 ^ 16 → 0 ≤ tcp < 2 ^ 16 → stored_node_ok (NewNode id (Some ip) udp tcp).
Proof.
  intros Hb Hl Hip Hlip Hu Ht. unfold stored_node_ok, NewNode. cbn [nd_IP nd_UDP nd_TCP nd_ID nd_TYPE nd_Loacation].
  assert (∃ ip', match To4 ip with Some ipv4 => Some ipv4 | None => Some ip end = Some ip' ∧ Forall is_byte ip' ∧ (length ip' ≤ 16)%nat)
    as (ip' & -> & H1 & H2); [|exists ip'; split_and!; done || lia].
  unfold To4. repeat case_match; eexists; (split; [done|]); split; try done; [by apply Forall_drop|rewrite length_drop; lia].
Qed.

(** The records of one node. *)
Lemma fetch_put_ne db key n key' : key ≠ key' → fetchInt64 (storeInt64 db key n) key' = fetchInt64 db key'.
Proof. intros Hne. unfold fetchInt64, storeInt64. by rewrite lookup_put_ne by congruence. Qed.

Lemma db_node_put_ne db key n id : key ≠ makeKey id nodeDBDiscoverRoot → db_node (storeInt64 db key n) id = db_node db id.
Proof. intros Hne. unfold db_node, storeInt64. by rewrite lookup_put_ne by congruence. Qed.

(** A node that needs no new ping. *)
Definition fresh (now : Z) (db : nodeDB) (id : bytes) (known : option Node) : Prop :=
  is_Some known ∧ findFails db id ≤ 0 ∧ time_Sub now (lastPong db id) ≤ nodeDBNodeExpiration.

Lemma fresh_bool now db id known :
  (match known with None => true | Some _ => false end ||
   (0 <? match known with Some _ => findFails db id | None => 0 end) ||
   (nodeDBNodeExpiration <? time_Sub now (lastPong db id))) = false ↔ fresh now db id known.
Proof.
  unfold fresh. rewrite !orb_false_iff, !Z.ltb_ge. destruct known; cbn; [|split; [by intros [[]]|by intros [[? [=]] _]]].
  split; [intros [[_ ?] ?]; eauto|intros (_ & ? & ?); done].
Qed.

Lemma same_others db db' db'' id :
  (∀ id' f, id_ok id' → id' ≠ id → ndb_lvl db' !! makeKey id' f = ndb_lvl db !! makeKey id' f) →
  (∀ id' f, id_ok id' → id' ≠ id → ndb_lvl db'' !! makeKey id' f = ndb_lvl db' !! makeKey id' f) →
  ∀ id' f, id_ok id' → id' ≠ id → ndb_lvl db'' !! makeKey id' f = ndb_lvl db !! makeKey id' f.
Proof. intros H1 H2 id' f Hid Hne. by rewrite H2, H1. Qed.

Lemma others_store db id field n : id_ok id →
  ∀ id' f, id_ok id' → id' ≠ id → ndb_lvl (storeInt64 db (makeKey id field) n) !! makeKey id' f = ndb_lvl db !! makeKey id' f.
Proof. intros Hid id' f Hid' Hne. unfold storeInt64. apply lookup_put_ne, makeKey_ne; auto. Qed.

(** Bonding with a node. A known node without failures that answered within the hour is
    taken as it is; any other is pinged, and if it answers it is stored with the address it
    was reached at and the time of the answer, else only what was known of it is returned, with
    the error. The failures of a node that is returned are forgotten, and nothing is
    changed for other nodes. *)
Theorem bond_outcome now pongTime answered db id addr tcp :
  db_ok db → id_ok id → Forall is_byte id → id ≠ ndb_self db →
  Forall is_byte (ua_IP addr) → (length (ua_IP addr) ≤ 16)%nat → 0 ≤ tcp < 2 ^ 16 → 0 ≤ pongTime < 2 ^ 63 →
  ∃ known node result db',
    db_node db id = Ok known ∧ bond now pongTime answered db id addr tcp = Ok (node, result, db') ∧ db_ok db' ∧
    (fresh now db id known → node = known ∧ result = None) ∧
    (¬ fresh now db id known →
     if answered then node = Some (NewNode id (Some (ua_IP addr)) (wrap 16 (ua_Port addr)) tcp) ∧ result = None ∧
       db_node db' id = Ok node ∧ lastPong db' id = pongTime / second * second
     else node = known ∧ result = Some errTimeout) ∧
    (is_Some node → findFails db' id = 0) ∧
    ∀ id' f, id_ok id' → id' ≠ id → ndb_lvl db' !! makeKey id' f = ndb_lvl db !! makeKey id' f.
Proof.
  intros Hok Hid Hb Hself Hab Hal Ht Hp. destruct (db_node_total db id) as [known Hknown]. exists known.
  assert (Hput : ∀ db f n, db_ok db → db_ok (storeInt64 db (makeKey id f) n)) by (intros; apply db_ok_put; [done|right; eauto]).
  assert (Hfield : ∀ f f', f ≠ f' → makeKey id f ≠ makeKey id f') by (intros; apply makeKey_ne; auto).
  unfold bond. rewrite bool_decide_eq_false_2, Hknown by done. cbn [omap_err obind].
  pose proof (fresh_bool now db id known) as Hfresh. destruct (_ || _) eqn:Ef.
  2: { assert (Hf : fresh now db id known) by (by apply Hfresh). pose proof Hf as [[n ->] _]. cbn [obind].
       eexists _, _, _. split; [done|]. split; [done|]. split_and!; [by apply Hput|done|done| |by apply others_store].
       intros _. by apply fetch_store. }
  assert (Hnf : ¬ fresh now db id known) by (intros Hf; by apply Hfresh in Hf). clear Hfresh.
  destruct answered; cbn [obind].
  - set (n := NewNode id (Some (ua_IP addr)) (wrap 16 (ua_Port addr)) tcp).
    assert (Hn : stored_node_ok n) by (apply NewNode_stored; try done; [apply Hid|apply wrap_range; lia]).
    set (db1 := updateLastPong (updateLastPing db id now) id pongTime).
    destruct (db_node_updateNode db1 n Hn eq_refl) as (db2 & Hu & Hd & Hl). rewrite Hu. change (nd_ID n) with id in *.
    eexists _, _, _. split; [done|]. split; [done|]. split_and!; try done.
    + apply Hput. intros k Hk. rewrite Hl in Hk. destruct (decide (makeKey id nodeDBDiscoverRoot = k)) as [<-|Hne]; [right; eauto|].
      rewrite lookup_insert_ne in Hk by done. revert Hk. by apply Hput, Hput.
    + intros _. split_and!; [done..| |].
      * unfold updateFindFails. rewrite db_node_put_ne by (by apply Hfield). done.
      * unfold lastPong. f_equal. unfold updateFindFails. rewrite fetch_put_ne by (by apply Hfield).
        unfold fetchInt64. rewrite Hl, lookup_insert_ne by (by apply Hfield).
        apply (fetch_store (updateLastPing db id now) (makeKey id nodeDBDiscoverPong)).
        assert (0 ≤ pongTime / second); [apply Z.div_pos; [lia|done]|].
        assert (pongTime / second ≤ pongTime); [apply Z.div_le_upper_bound; unfold second; lia|lia].
    + intros _. by apply fetch_store.
    + eapply same_others; [|by apply others_store]. eapply same_others; [by apply others_store|].
      eapply same_others; [by apply others_store|]. intros id' f Hid' Hne. rewrite Hl, lookup_insert_ne; [done|].
      apply makeKey_ne; auto.
  - destruct known as [n|]; eexists _, _, _; (split; [done|]); (split; [done|]); split_and!; try done.
    + by apply Hput, Hput.
    + intros _. by apply fetch_store.
    + eapply same_others; by apply others_store.
    + by apply Hput.
    + by apply others_store.
Qed.
End bonding.

(** ** An example *)

Definition ex_peer : bytes := be_fixed 32 (bc_Gx S256) ++ be_fixed 32 (bc_Gy S256).
Definition ex_addr : UDPAddr := MkUDPAddr [10; 0; 0; 7] 30301.
(** One request for a pong waits. *)
Definition ex_loop : loop := round 0 0 (EvAdd ex_peer pongPacket (λ _, true)) loop_start.
Definition ex_udp : udp := MkUdp ex_loop (newTable (ex_node 1)) (newMemoryNodeDB (ex_id 1)) no_endpoint None.
Definition ex_pong : packet := pong no_endpoint no_endpoint [] 1600000000.

Lemma ex_running : running 0 ex_loop.
Proof. apply (run_round 0 loop_start 0 0); [by constructor|done|done|done|done]. Qed.

Lemma requests_answered_once_witness : NoDup (lp_errc ex_loop).*1.
Proof. destruct (requests_answered_once 0 ex_loop ex_running) as [Hnd _]. exact Hnd. Defined.

Lemma timeouts_answer_all_witness : lp_plist (fire_timer (length (lp_plist ex_loop)) (20 * second) ex_loop) = [].
Proof.
  destruct (timeouts_answer_all 0 ex_loop (20 * second) ex_running) as [He _];
    [vm_compute; reflexivity|by vm_compute|by vm_compute| |exact He].
  apply Forall_singleton. by vm_compute.
Defined.

Definition ex_warped : loop :=
  MkLoop [MkPending 0 ex_peer pongPacket (100 * second) (λ _, true); MkPending 1 ex_peer pongPacket (101 * second) (λ _, true)]
    None None 0 0 2 [] false.

Lemma clock_warp_stops_timer_witness : lp_timer (resetTimeout 0 ex_warped) = None.
Proof.
  eapply (clock_warp_stops_timer 0 ex_warped); [reflexivity|discriminate|]. by vm_compute.
Defined.

Lemma replies_need_requests_witness : (handle 0 ex_udp ex_addr ex_peer [] ex_pong).1 = Ok [].
Proof.
  apply (replies_need_requests 0 ex_udp ex_addr ex_peer [] ex_pong 0 ex_running); [reflexivity|done|done|reflexivity|].
  left. by split.
Defined.

Lemma ping_pong_witness :
  ∃ pkt idA actions, (handlePacket (HL := ex_lib) 0 ex_udp ex_addr (received pkt)).1 =
    Ok (ASend ex_addr pongPacket (pong no_endpoint (makeEndpoint ex_addr 30301) (take macSize pkt) (expiry 0)) :: actions) ∧
    actions = [ABond true idA ex_addr 30301].
Proof.
  assert (Hb : ∀ b, is_byte b → Forall is_byte [10; 0; 0; b]) by (intros b Hb; repeat constructor; lia || apply Hb).
  destruct (ping_pong (HL := ex_lib) (LW := ex_laws) one_key one_key ex_udp ex_udp 0 0 0 ex_addr ex_addr Version
    (MkEndPoint [10; 0; 0; 1] 30301 30301) (MkEndPoint [10; 0; 0; 2] 30301 0) 1600000000)
    as (pkt & idA & idB & actions & _ & _ & _ & Hh & _ & Ha & _).
  - apply ex_seckey_ok.
  - apply ex_seckey_ok.
  - unfold packet_ok, endpoint_ok, Version. cbn [ep_IP ep_UDP ep_TCP]. split_and!; try lia; apply Hb; split; lia.
  - cbn. lia.
  - cbn. lia.
  - apply Hb. split; lia.
  - reflexivity.
  - apply ex_running.
  - reflexivity.
  - lia.
  - lia.
  - reflexivity.
  - exists pkt, idA, actions. split; [exact Hh|]. apply Ha. intros [_ (q & Hq & _ & E)%Exists_exists].
    assert (Forall (λ p, pd_ptype p = pongPacket) (lp_plist ex_loop)) as F by repeat constructor.
    rewrite Forall_forall in F. rewrite (F q Hq) in E. discriminate.
Defined.

Lemma bond_outcome_witness :
  ∃ node result db', bond (6000 * second) (6001 * second) true ex_db (ex_id 2) ex_addr 30301 = Ok (node, result, db') ∧ db_ok db'.
Proof.
  destruct (bond_outcome (6000 * second) (6001 * second) true ex_db (ex_id 2) ex_addr 30301)
    as (known & node & result & db' & _ & Hbond & Hok & _).
  - apply ex_db_ok.
  - by apply ex_id_ok.
  - apply Forall_replicate. split; lia.
  - discriminate.
  - repeat constructor; lia.
  - cbn. lia.
  - lia.
  - split; by vm_compute.
  - exists node, result, db'. split; [exact Hbond|exact Hok].
Defined.
