(* ===== verification/Bloom.v ===== *)
(** * Bloom filters and their index: blockchain/types/bloom9.go, blockchain/bloombits

    The filters of 2048 bits, the generator that turns the filters of a section of
    blocks into one bit vector for each bit, and the matcher that finds the blocks whose
    filters may hold what is asked for. The matcher's pipeline of goroutines passes each
    section through the rules in order; it is the function that the pipeline computes for a
    section, with the vectors that the retrievers deliver as an argument. A vector that is
    both an operand and the destination of a bulk operation is read before it is written at
    each place. *)

From S2P Require Import Prelude Bitutil RlpSpec TrieEncoding TrieSpec TrieNode Trie TrieMap MathBig Hexutil.
Local Open Scope Z_scope.

(** ** Filters (bloom9.go) *)

Definition BloomByteLength : nat := 256.
Definition BloomBitLength : nat := 8 * BloomByteLength.

Definition Bloom_SetBytes {E} (b d : bytes) : outcome E bytes :=
  if (length b <? length d)%nat then Panic else Ok (copy_at b (BloomByteLength - length d) d).

Definition BytesToBloom {E} (b : bytes) : outcome E bytes := Bloom_SetBytes (replicate BloomByteLength 0) b.

Definition Bloom_MarshalText (b : bytes) : bytes := Bytes_MarshalText b.
Definition Bloom_UnmarshalText (input : bytes) : outcome hex_error bytes := UnmarshalFixedText input BloomByteLength.

(** The fields of a log that are added to a filter. *)
Record Log := MkLog { log_Address : bytes; log_Topics : list bytes }.

Section bloom.
Context {KC : Keccak}.

(** One of the three bits of a key, from the hash. *)
Definition bloom_bit (h : bytes) (i : nat) : Z :=
  Z.land (h !!! (i + 1)%nat + Z.shiftl (h !!! i) 8) 2047.

Definition bloom9 (b : bytes) : Z :=
  let b := keccak256 b in
  let r := Z.lor 0 (Z.shiftl 1 (bloom_bit b 0)) in
  let r := Z.lor r (Z.shiftl 1 (bloom_bit b 2)) in
  Z.lor r (Z.shiftl 1 (bloom_bit b 4)).

Definition Bloom_Add {E} (b : bytes) (d : Z) : outcome E bytes :=
  Bloom_SetBytes b (be_bytes (Z.lor (be_val b) (bloom9 (be_bytes d)))).

Definition BloomLookup (bin topic : bytes) : bool :=
  let cmp := bloom9 topic in
  Z.land (be_val bin) cmp =? cmp.

Definition Bloom_Test (b : bytes) (test : Z) : bool := BloomLookup b (be_bytes test).
Definition Bloom_TestBytes (b test : bytes) : bool := Bloom_Test b (be_val test).

Definition LogsBloom (logs : list Log) : Z :=
  foldl (λ bin log,
    foldl (λ bin b, Z.lor bin (bloom9 b)) (Z.lor bin (bloom9 (log_Address log))) (log_Topics log)) 0 logs.
End bloom.

(** ** The generator (generator.go) *)

Inductive bloom_error := errSectionOutOfBounds | errSectionCount | errUnexpectedIndex | errNotGenerated.

Record Generator := MkGenerator { g_blooms : list bytes; g_sections : nat; g_nextBit : nat }.

Definition NewGenerator (sections : nat) : outcome bloom_error Generator :=
  if negb (sections mod 8 =? 0)%nat then Err errSectionCount
  else Ok (MkGenerator (replicate BloomBitLength (replicate (sections / 8) 0)) sections 0).

(** The loop over the bits, from bit [i] on. *)
Fixpoint add_columns (bloom : bytes) (byteIndex : nat) (bitMask : Z) (i : nat) (cols : list bytes) :
    outcome bloom_error (list bytes) :=
  match cols with
  | [] => Ok []
  | col :: cols =>
      let bloomBitMask := u8 (Z.shiftl 1 (Z.of_nat (i mod 8))) in
      let* byte := bloom.[(BloomByteLength - 1 - i / 8)%nat] in
      let* col := (if negb (Z.land byte bloomBitMask =? 0) then
                     let* x := col.[byteIndex] in Ok (<[byteIndex := Z.lor x bitMask]> col)
                   else Ok col) in
      let* cols := add_columns bloom byteIndex bitMask (S i) cols in
      Ok (col :: cols)
  end.

Definition AddBloom (b : Generator) (index : nat) (bloom : bytes) : outcome bloom_error Generator :=
  if (g_sections b <=? g_nextBit b)%nat then Err errSectionOutOfBounds
  else if negb (g_nextBit b =? index)%nat then Err errUnexpectedIndex
  else
    let byteIndex := (g_nextBit b / 8)%nat in
    let bitMask := u8 (Z.shiftl 1 (7 - Z.of_nat (g_nextBit b mod 8))) in
    let* blooms := add_columns bloom byteIndex bitMask 0 (g_blooms b) in
    Ok (MkGenerator blooms (g_sections b) (S (g_nextBit b))).

Definition Bitset (b : Generator) (idx : nat) : outcome bloom_error bytes :=
  if negb (g_nextBit b =? g_sections b)%nat then Err errNotGenerated
  else if (g_sections b <=? idx)%nat then Err errSectionOutOfBounds
  else (g_blooms b).[idx].

(** ** The matcher (matcher.go) *)

Section matcher.
Context {KC : Keccak}.

Definition bloomIndexes := (nat * nat * nat)%type.

Definition calc_index (b : bytes) (i : nat) : nat :=
  Z.to_nat (Z.land (Z.shiftl (b !!! (2 * i)%nat) 8) 2047 + b !!! (2 * i + 1)%nat).
Definition calcBloomIndexes (b : bytes) : bloomIndexes :=
  let b := keccak256 b in (calc_index b 0, calc_index b 1, calc_index b 2).

(** A rule without alternatives or with a nil one is skipped. *)
Definition filter_indexes (filter : list (option bytes)) : option (list bloomIndexes) :=
  foldr (λ clause acc, match clause, acc with Some c, Some l => Some (calcBloomIndexes c :: l) | _, _ => None end)
    (Some []) filter.
Definition NewMatcher (filters : list (list (option bytes))) : list (list bloomIndexes) :=
  flat_map (λ filter, match filter with
                      | [] => []
                      | _ => match filter_indexes filter with Some l => [l] | None => [] end
                      end) filters.

Context (wordSize : nat) (supportsUnaligned : bool).

Definition lift_unit {A} (o : outcome unit A) : outcome bloom_error A :=
  match o with Ok a => Ok a | Err _ => Panic | Panic => Panic end.

Definition and_into (v data : bytes) : outcome bloom_error bytes :=
  let* (v, _) := lift_unit (Bitutil.ANDBytes wordSize supportsUnaligned v v data) in Ok v.
Definition or_into (v data : bytes) : outcome bloom_error bytes :=
  let* (v, _) := lift_unit (Bitutil.ORBytes wordSize supportsUnaligned v v data) in Ok v.

Context (sectionSize : nat) (retrieve : nat → Z → bytes).

(** The matches of one key in a section: its three vectors combined. *)
Definition and_vector (section : Z) (idx : bloomIndexes) : outcome bloom_error bytes :=
  let '(i, j, k) := idx in
  let v := copy_at (replicate (sectionSize / 8) 0) 0 (retrieve i section) in
  let* v := and_into v (retrieve j section) in
  and_into v (retrieve k section).

Fixpoint or_vector (section : Z) (bloom : list bloomIndexes) (acc : option bytes) : outcome bloom_error (option bytes) :=
  match bloom with
  | [] => Ok acc
  | idx :: bloom =>
      let* andVector := and_vector section idx in
      let* orVector := (match acc with None => Ok andVector | Some v => or_into v andVector end) in
      or_vector section bloom (Some orVector)
  end.

(** One link of the chain: the vector of a section, or nothing to forward. *)
Definition subMatch (section : Z) (bloom : list bloomIndexes) (bitset : bytes) : outcome bloom_error (option bytes) :=
  let* v := or_vector section bloom None in
  let v := default (replicate (sectionSize / 8) 0) v in
  let* v := and_into v bitset in
  Ok (if Bitutil.TestBytes wordSize supportsUnaligned v then Some v else None).

Fixpoint run_filters (section : Z) (filters : list (list bloomIndexes)) (bitset : bytes) : outcome bloom_error (option bytes) :=
  match filters with
  | [] => Ok (Some bitset)
  | bloom :: filters =>
      let* r := subMatch section bloom bitset in
      match r with Some v => run_filters section filters v | None => Ok None end
  end.

Definition run_section (section : Z) (filters : list (list bloomIndexes)) : outcome bloom_error (option bytes) :=
  run_filters section filters (replicate (sectionSize / 8) 255).

(** The blocks of a section that are sent as results, from block [i] on. Block numbers wrap
    around at 64 bits; the byte of the next block is then out of range, so that one round
    more than there are blocks is enough (lemma [emit_rounds]). *)
Fixpoint emit (rounds : nat) (sectionStart last i : Z) (bitset : bytes) : outcome bloom_error (list Z) :=
  match rounds with
  | O => Ok []
  | S rounds =>
      if last <? i then Ok []
      else
        let* next := bitset.[Z.to_nat (u64 (i - sectionStart) / 8)] in
        if next =? 0 then emit rounds sectionStart last (u64 (u64 (i + 7) + 1)) bitset
        else
          let bit := u64 (7 - i mod 8) in
          let* rest := emit rounds sectionStart last (u64 (i + 1)) bitset in
          Ok (if negb (Z.land next (Z.shiftl 1 bit) =? 0) then i :: rest else rest)
  end.

Definition section_results (begin end_ section : Z) (bitset : bytes) : outcome bloom_error (list Z) :=
  let size := Z.of_nat sectionSize in
  let sectionStart := u64 (section * size) in
  let first := if sectionStart <? begin then begin else sectionStart in
  let last := u64 (u64 (sectionStart + size) - 1) in
  let last := if end_ <? last then end_ else last in
  emit (Z.to_nat (last - first + 2)) sectionStart last first bitset.

(** The results of a session: sections in order, and their blocks in order. *)
Definition Matcher_results (filters : list (list bloomIndexes)) (begin end_ : Z) : outcome bloom_error (list Z) :=
  let size := Z.of_nat sectionSize in
  oloop (λ section acc,
    let* r := run_section section filters in
    match r with
    | None => Ok acc
    | Some v => let* bs := section_results begin end_ section v in Ok (acc ++ bs)
    end) (seqZ (begin / size) (end_ / size + 1 - begin / size)) [].
End matcher.

(** ** Bits *)

#[local] Existing Instances Bitutil.lor_bitwise Bitutil.land_bitwise.

(** Bit [n] of a vector of blocks, the first block in the highest bit of its byte. *)
Definition vbit (v : bytes) (n : nat) : bool := Z.testbit (v !!! (n / 8)%nat) (7 - Z.of_nat (n mod 8)).

Lemma nat_div8 n : (n = 8 * (n / 8) + n mod 8 ∧ n mod 8 < 8)%nat.
Proof. split; [apply Nat.div_mod_eq|apply Nat.mod_upper_bound; lia]. Qed.

Lemma land_bit b k : 0 ≤ k → negb (Z.land b (Z.shiftl 1 k) =? 0) = Z.testbit b k.
Proof.
  intros Hk. rewrite Z.shiftl_1_l. destruct (Z.testbit b k) eqn:E.
  - apply negb_true_iff, Z.eqb_neq. intros Hz. apply (f_equal (λ z, Z.testbit z k)) in Hz.
    rewrite Z.land_spec, Z.pow2_bits_true, E, Z.bits_0 in Hz by done. done.
  - apply negb_false_iff, Z.eqb_eq. apply Z.bits_inj'. intros i Hi. rewrite Z.land_spec, Z.bits_0.
    destruct (decide (i = k)) as [->|]; [by rewrite E|]. rewrite Z.pow2_bits_false by done. apply andb_false_r.
Qed.

Lemma u8_pow2 k : 0 ≤ k < 8 → u8 (Z.shiftl 1 k) = Z.shiftl 1 k.
Proof.
  intros Hk. apply wrap_small. rewrite Z.shiftl_1_l. split; [apply Z.pow_nonneg; lia|]. apply Z.pow_lt_mono_r; lia.
Qed.

Lemma be_val_testbit l i :
  Forall is_byte l → (i < 8 * length l)%nat →
  Z.testbit (be_val l) (Z.of_nat i) = Z.testbit (l !!! (length l - 1 - i / 8)%nat) (Z.of_nat (i mod 8)).
Proof.
  induction 1 as [|x l Hx Hl IH]; intros Hi; cbn [length] in *; [lia|]. pose proof (nat_div8 i) as [Hdm Hm].
  rewrite be_val_cons. replace (256 ^ Z.of_nat (length l)) with (2 ^ (8 * Z.of_nat (length l))) by (by rewrite Z.pow_mul_r by lia).
  rewrite testbit_cat; [|pose proof (be_val_bound l Hl) as B; by rewrite Z.pow_mul_r by lia|lia..].
  destruct (decide (i / 8 = length l)%nat) as [E|E].
  - replace (S (length l) - 1 - i / 8)%nat with 0%nat by lia. change ((x :: l) !!! 0%nat) with x.
    destruct (Z.ltb_spec (Z.of_nat i) (8 * Z.of_nat (length l))); [lia|]. f_equal. lia.
  - replace (S (length l) - 1 - i / 8)%nat with (S (length l - 1 - i / 8)) by lia.
    change ((x :: l) !!! S (length l - 1 - i / 8)) with (l !!! (length l - 1 - i / 8)%nat).
    destruct (Z.ltb_spec (Z.of_nat i) (8 * Z.of_nat (length l))); [|lia]. apply IH. lia.
Qed.

(** ** What the generator builds *)

Definition bloom_ok (b : bytes) : Prop := length b = BloomByteLength ∧ Forall is_byte b.

Lemma vbit_insert col m n :
  (n / 8 < length col)%nat → vbit (<[(n / 8)%nat := Z.lor (col !!! (n / 8)%nat) (Z.shiftl 1 (7 - Z.of_nat (n mod 8)))]> col) m =
    vbit col m || bool_decide (m = n).
Proof.
  intros Hl. unfold vbit. pose proof (nat_div8 m). pose proof (nat_div8 n).
  destruct (decide (m / 8 = n / 8)%nat) as [E|E].
  - rewrite E, list_lookup_total_insert_eq by done. rewrite Z.lor_spec, Z.shiftl_1_l. f_equal.
    case_bool_decide as Hmn; [rewrite Hmn; apply Z.pow2_bits_true; lia|]. apply Z.pow2_bits_false. lia.
  - rewrite list_lookup_total_insert_ne by congruence. rewrite bool_decide_eq_false_2, orb_false_r; [done|]. by intros ->.
Qed.

Lemma insert_byte (col : bytes) k x : Forall is_byte col → is_byte x → Forall is_byte (<[k := x]> col).
Proof. intros. by apply Forall_insert. Qed.

Lemma lookup_total_byte (col : bytes) k : Forall is_byte col → is_byte (col !!! k).
Proof.
  intros H. destruct (col !! k) as [x|] eqn:E.
  - rewrite (list_lookup_total_correct _ _ _ E). by eapply Forall_lookup_1.
  - rewrite list_lookup_total_alt, E. cbn. unfold is_byte. cbn. lia.
Qed.

(** A column after the bit of a block has been set or not. *)
Definition set_column (nb : nat) (set_ : bool) (col : bytes) : bytes :=
  if set_ then <[(nb / 8)%nat := Z.lor (col !!! (nb / 8)%nat) (Z.shiftl 1 (7 - Z.of_nat (nb mod 8)))]> col else col.

Lemma add_columns_spec bloom nb i cols :
  bloom_ok bloom → (i + length cols ≤ BloomBitLength)%nat → Forall (λ col, (nb / 8 < length col)%nat) cols →
  add_columns bloom (nb / 8) (u8 (Z.shiftl 1 (7 - Z.of_nat (nb mod 8)))) i cols =
  Ok (imap (λ k col, set_column nb (Z.testbit (be_val bloom) (Z.of_nat (i + k))) col) cols).
Proof.
  intros [Hl Hb]. revert i. induction cols as [|col cols IH]; intros i Hi Hc; [done|].
  inversion_clear Hc as [|?? Hcol Hc']. cbn [add_columns imap length] in *.
  pose proof (nat_div8 i) as [Hdm Hm]. pose proof (nat_div8 nb) as [_ Hmn].
  assert (H8 : (i / 8 < BloomByteLength)%nat) by (unfold BloomBitLength in Hi; lia).
  destruct (lookup_lt_is_Some_2 bloom (BloomByteLength - 1 - i / 8)) as [byte Hbyte]; [lia|].
  rewrite (index_Some _ _ _ Hbyte). cbn [obind]. rewrite !u8_pow2, land_bit by lia.
  assert (Z.testbit byte (Z.of_nat (i mod 8)) = Z.testbit (be_val bloom) (Z.of_nat i)) as ->.
  { rewrite be_val_testbit by (done || unfold BloomBitLength in *; lia).
    by rewrite Hl, (list_lookup_total_correct _ _ _ Hbyte). }
  rewrite <-(u8_pow2 (7 - Z.of_nat (nb mod 8))) by lia.
  rewrite IH by (done || lia). rewrite Nat.add_0_r. destruct (lookup_lt_is_Some_2 col (nb / 8) Hcol) as [x Hx].
  rewrite (index_Some _ _ _ Hx). cbn [obind]. rewrite u8_pow2 by lia. unfold set_column at 2.
  assert (imap (λ k c, set_column nb (Z.testbit (be_val bloom) (Z.of_nat (S i + k))) c) cols =
          imap ((λ k c, set_column nb (Z.testbit (be_val bloom) (Z.of_nat (i + k))) c) ∘ S) cols) as ->.
  { apply imap_ext. intros k c _. cbn. by rewrite Nat.add_succ_r. }
  rewrite (list_lookup_total_correct _ _ _ Hx). by destruct (Z.testbit (be_val bloom) (Z.of_nat i)).
Qed.

(** The generator after the filters [l]. *)
Record gen_ok (g : Generator) (l : list bytes) : Prop := {
  gen_cols : length (g_blooms g) = BloomBitLength;
  gen_next : g_nextBit g = length l;
  gen_sections : (g_sections g mod 8 = 0)%nat ∧ (length l ≤ g_sections g)%nat;
  gen_col : ∀ i col, g_blooms g !! i = Some col →
    length col = (g_sections g / 8)%nat ∧ Forall is_byte col ∧
    ∀ n, (n < g_sections g)%nat → vbit col n = match l !! n with Some b => Z.testbit (be_val b) (Z.of_nat i) | None => false end
}.

Lemma vbit_zero k n : (n / 8 < k)%nat → vbit (replicate k 0) n = false.
Proof. intros H. unfold vbit. rewrite lookup_total_replicate_2 by done. apply Z.bits_0. Qed.

Lemma NewGenerator_ok sections : (sections mod 8 = 0)%nat → ∃ g, NewGenerator sections = Ok g ∧ gen_ok g [] ∧ g_sections g = sections.
Proof.
  intros H8. unfold NewGenerator. rewrite H8. cbn [Nat.eqb negb]. eexists. split; [done|]. split; [|done]. split; cbn [g_blooms g_nextBit g_sections].
  - apply length_replicate.
  - done.
  - split; [done|]. cbn. lia.
  - intros i col [-> _]%lookup_replicate. split_and!; [apply length_replicate|by apply Forall_replicate|].
    intros n Hn. apply vbit_zero. pose proof (nat_div8 n). pose proof (nat_div8 sections). lia.
Qed.

Lemma AddBloom_ok g l bloom :
  gen_ok g l → bloom_ok bloom → (length l < g_sections g)%nat →
  ∃ g', AddBloom g (length l) bloom = Ok g' ∧ gen_ok g' (l ++ [bloom]) ∧ g_sections g' = g_sections g.
Proof.
  intros [Hc Hn [H8 Hle] Hcol] Hb Hlt. unfold AddBloom. rewrite Hn. destruct (Nat.leb_spec (g_sections g) (length l)); [lia|].
  rewrite Nat.eqb_refl. cbn [negb]. pose proof (nat_div8 (g_sections g)) as [Hs _]. pose proof (nat_div8 (length l)) as [Hll _].
  rewrite add_columns_spec; [|done|by rewrite Hc|].
  2: { apply Forall_lookup_2. intros i col Hi. destruct (Hcol i col Hi) as [-> _]. lia. }
  cbn [obind]. eexists. split; [done|]. split; [|done]. split; cbn [g_blooms g_nextBit g_sections].
  - by rewrite length_imap.
  - rewrite length_app. cbn [length]. lia.
  - rewrite length_app. cbn [length]. lia.
  - intros i col' Hi. rewrite list_lookup_imap in Hi. apply fmap_Some in Hi as (col & Hi & ->).
    destruct (Hcol i col Hi) as (Lc & Bc & Vc). unfold set_column. cbn [Nat.add].
    destruct (Z.testbit (be_val bloom) (Z.of_nat i)) eqn:Eb.
    + split_and!; [by rewrite length_insert| |].
      { apply insert_byte; [done|]. apply (Bitutil.bitwise_byte Z.lor orb); [by apply lookup_total_byte|].
        rewrite <-u8_pow2 by (pose proof (nat_div8 (length l)); lia). apply (wrap_range 8). lia. }
      intros n Hn'. rewrite vbit_insert by lia. rewrite Vc by done.
      destruct (decide (n < length l)%nat) as [Hlt'|Hge]; [rewrite lookup_app_l, bool_decide_eq_false_2 by lia; apply orb_false_r|].
      rewrite lookup_ge_None_2 by lia. destruct (decide (n = length l)) as [->|Hne].
      * by rewrite bool_decide_eq_true_2, list_lookup_middle, Eb.
      * rewrite bool_decide_eq_false_2, lookup_ge_None_2 by (done || rewrite length_app; cbn; lia). done.
    + split_and!; [done..|]. intros n Hn'. rewrite Vc by done.
      destruct (decide (n < length l)%nat) as [Hlt'|Hge]; [by rewrite lookup_app_l by lia|].
      rewrite lookup_ge_None_2 by lia. destruct (decide (n = length l)) as [->|Hne]; [by rewrite list_lookup_middle, Eb|].
      by rewrite lookup_ge_None_2 by (rewrite length_app; cbn; lia).
Qed.

(** The generator over a whole section of filters, as the indexer feeds it. *)
Definition generate (blooms : list bytes) : outcome bloom_error Generator :=
  let* g := NewGenerator (length blooms) in
  oloop (λ p g, AddBloom g p.1 p.2) (imap pair blooms) g.

Lemma add_all_ok l2 l1 g :
  gen_ok g l1 → Forall bloom_ok l2 → (length l1 + length l2 = g_sections g)%nat →
  ∃ g', oloop (λ p g, AddBloom g p.1 p.2) (imap (λ k b, ((length l1 + k)%nat, b)) l2) g = Ok g' ∧
    gen_ok g' (l1 ++ l2) ∧ g_sections g' = g_sections g.
Proof.
  revert l1 g. induction l2 as [|b l2 IH]; intros l1 g Hg Hb Hl; cbn [length] in Hl.
  - exists g. by rewrite app_nil_r.
  - inversion_clear Hb as [|?? Hb1 Hb2]. destruct (AddBloom_ok g l1 b Hg Hb1) as (g1 & E1 & Hg1 & Hs1); [lia|].
    destruct (IH (l1 ++ [b]) g1 Hg1 Hb2) as (g2 & E2 & Hg2 & Hs2); [rewrite length_app; cbn [length]; lia|].
    exists g2. cbn [imap oloop fst snd]. rewrite Nat.add_0_r, E1. cbn [obind]. rewrite <-E2, <-app_assoc in *.
    split; [|split; [done|congruence]]. f_equal. apply imap_ext. intros k c _. cbn. rewrite length_app. cbn [length].
    f_equal. lia.
Qed.

Lemma generate_ok blooms :
  (length blooms mod 8 = 0)%nat → Forall bloom_ok blooms →
  ∃ g, generate blooms = Ok g ∧ gen_ok g blooms ∧ g_sections g = length blooms.
Proof.
  intros H8 Hb. destruct (NewGenerator_ok _ H8) as (g0 & E0 & Hg0 & Hs0). unfold generate. rewrite E0. cbn [obind].
  destruct (add_all_ok blooms [] g0 Hg0 Hb) as (g & E & Hg & Hs); [cbn [length]; lia|].
  exists g. split; [|split; [done|congruence]]. rewrite <-E. f_equal.
Qed.

(** ** Keys *)

Section keys.
Context {KC : Keccak}.

Lemma hash_byte x i : (i < 32)%nat → 0 ≤ keccak256 x !!! i < 256.
Proof. intros _. apply lookup_total_byte, keccak_byte. Qed.

Lemma bloom_bit_mod h i : bloom_bit h i = (h !!! i * 256 + h !!! (i + 1)%nat) mod 2048.
Proof.
  unfold bloom_bit. change 2047 with (Z.ones 11). rewrite Z.land_ones, Z.shiftl_mul_pow2 by lia. f_equal. lia.
Qed.

Lemma bloom_bit_range h i : 0 ≤ bloom_bit h i < 2048.
Proof. rewrite bloom_bit_mod. apply Z.mod_pos_bound. lia. Qed.

(** The two ways of finding the bits of a key agree. *)
Lemma calc_index_bit x i : (i < 3)%nat → Z.of_nat (calc_index (keccak256 x) i) = bloom_bit (keccak256 x) (2 * i).
Proof.
  intros Hi. rewrite bloom_bit_mod. unfold calc_index. change 2047 with (Z.ones 11).
  rewrite Z.land_ones, Z.shiftl_mul_pow2 by lia. change (2 ^ 11) with 2048. change (2 ^ 8) with 256.
  pose proof (hash_byte x (2 * i)) as H1. pose proof (hash_byte x (2 * i + 1)) as H2.
  specialize (H1 ltac:(lia)). specialize (H2 ltac:(lia)).
  generalize dependent (keccak256 x !!! (2 * i)%nat). generalize dependent (keccak256 x !!! (2 * i + 1)%nat).
  intros u Hu v Hv. rewrite Z2Nat.id; [|pose proof (Z.mod_pos_bound (v * 256) 2048); lia].
  replace ((v * 256) mod 2048) with (v mod 8 * 256) by (change 2048 with (8 * 256); by rewrite Z.mul_mod_distr_r).
  apply Z.mod_unique with (q := v / 8); [left|]; pose proof (Z.div_mod v 8); pose proof (Z.mod_pos_bound v 8); lia.
Qed.

(** The bits of a key are in a filter. *)
Definition key_bits (b : Z) (idx : bloomIndexes) : bool :=
  let '(i, j, k) := idx in Z.testbit b (Z.of_nat i) && Z.testbit b (Z.of_nat j) && Z.testbit b (Z.of_nat k).

Lemma bloom9_testbit x i :
  0 ≤ i → Z.testbit (bloom9 x) i =
    let h := keccak256 x in bool_decide (i = bloom_bit h 0) || bool_decide (i = bloom_bit h 2) || bool_decide (i = bloom_bit h 4).
Proof.
  intros Hi. unfold bloom9. rewrite !Z.lor_spec, Z.bits_0. cbn [orb].
  pose proof (λ j, bloom_bit_range (keccak256 x) j) as R.
  assert (∀ j, Z.testbit (Z.shiftl 1 (bloom_bit (keccak256 x) j)) i = bool_decide (i = bloom_bit (keccak256 x) j)) as E.
  { intros j. rewrite Z.shiftl_1_l. case_bool_decide as H; [rewrite H|]; specialize (R j).
    - apply Z.pow2_bits_true. lia.
    - by apply Z.pow2_bits_false. }
  by rewrite !E.
Qed.

Lemma bloom9_range x : 0 ≤ bloom9 x < 256 ^ 256.
Proof.
  assert (∀ j, 0 ≤ Z.shiftl 1 (bloom_bit (keccak256 x) j)) as N by (intros; apply Z.shiftl_nonneg; lia).
  assert (0 ≤ bloom9 x) as N9 by (unfold bloom9; rewrite !Z.lor_nonneg; split_and!; (done || apply N)).
  split; [done|]. change (256 ^ 256) with (2 ^ 2048). apply Z.log2_lt_cancel. rewrite Z.log2_pow2 by lia.
  destruct (decide (bloom9 x = 0)) as [->|Hne]; [done|]. assert (0 < bloom9 x) as Hpos by (clear -N9 Hne; lia).
  destruct (Z.lt_ge_cases (Z.log2 (bloom9 x)) 2048) as [|Hge]; [done|exfalso].
  pose proof (Z.bit_log2 (bloom9 x) Hpos) as Hb. rewrite bloom9_testbit in Hb by lia. cbv zeta in Hb.
  pose proof (λ j, bloom_bit_range (keccak256 x) j) as R. pose proof (R 0%nat). pose proof (R 2%nat). pose proof (R 4%nat).
  rewrite !bool_decide_eq_false_2 in Hb by lia. done.
Qed.

Lemma key_bits_iff b x :
  key_bits b (calcBloomIndexes x) = true ↔ ∀ i, 0 ≤ i → Z.testbit (bloom9 x) i = true → Z.testbit b i = true.
Proof.
  unfold key_bits, calcBloomIndexes. rewrite !calc_index_bit by lia. cbn [Nat.mul Nat.add].
  rewrite !andb_true_iff. pose proof (λ j, bloom_bit_range (keccak256 x) j) as R. split.
  - intros [[H0 H1] H2] i Hi. rewrite bloom9_testbit by done. cbv zeta. rewrite !orb_true_iff, !bool_decide_eq_true. naive_solver.
  - intros H. split_and!; apply H; try apply R; rewrite bloom9_testbit by apply R; cbv zeta;
      rewrite !orb_true_iff, !bool_decide_eq_true; naive_solver.
Qed.

Lemma BloomLookup_bits b x : BloomLookup b x = key_bits (be_val b) (calcBloomIndexes x).
Proof.
  apply eq_true_iff_eq. rewrite key_bits_iff. unfold BloomLookup. rewrite Z.eqb_eq. split.
  - intros E i Hi Hx. rewrite <-E, Z.land_spec in Hx. by apply andb_true_iff in Hx as [? _].
  - intros H. apply Z.bits_inj'. intros i Hi. rewrite Z.land_spec. specialize (H i Hi).
    destruct (Z.testbit (bloom9 x) i); [by rewrite H|apply andb_false_r].
Qed.
End keys.

(** ** Filters and the keys added to them *)

Section filters.
Context {KC : Keccak}.

Lemma bloom_val_range b : bloom_ok b → 0 ≤ be_val b < 256 ^ 256.
Proof. intros [Hl Hb]. pose proof (be_val_bound b Hb) as B. by rewrite Hl in B. Qed.

Lemma lor_range k x y : 0 ≤ k → 0 ≤ x < 2 ^ k → 0 ≤ y < 2 ^ k → x ≤ Z.lor x y < 2 ^ k.
Proof.
  intros Hk Hx Hy. assert (0 ≤ Z.lor x y) as Hn by (apply Z.lor_nonneg; lia). split.
  - assert (Z.lor x y - x = Z.ldiff (Z.lor x y) x) as E.
    { apply Z.sub_nocarry_ldiff, Z.bits_inj'. intros i Hi. rewrite Z.ldiff_spec, Z.lor_spec, Z.bits_0. by destruct (Z.testbit x i), (Z.testbit y i). }
    pose proof (proj2 (Z.ldiff_nonneg (Z.lor x y) x) (or_introl Hn)). lia.
  - assert (Z.lor x y = Z.lor x y mod 2 ^ k) as ->; [|apply Z.mod_pos_bound; lia].
    apply Z.bits_inj'. intros i Hi. destruct (Z.lt_ge_cases i k); [by rewrite Z.mod_pow2_bits_low|].
    rewrite Z.mod_pow2_bits_high, Z.lor_spec by lia. rewrite <-(Z.mod_small x (2 ^ k)), <-(Z.mod_small y (2 ^ k)) by done.
    by rewrite !Z.mod_pow2_bits_high by lia.
Qed.

Lemma pow_256 : 256 ^ 256 = 2 ^ 2048.
Proof. by vm_compute. Qed.

(** Storing a number that is not less than the old filter replaces the filter. *)
Lemma SetBytes_grows {E} b v :
  bloom_ok b → be_val b ≤ v < 256 ^ 256 →
  ∃ b', Bloom_SetBytes (E := E) b (be_bytes v) = Ok b' ∧ bloom_ok b' ∧ be_val b' = v.
Proof.
  intros [Hl Hb] Hv. pose proof (be_val_bound b Hb) as B. unfold Bloom_SetBytes.
  assert (byte_len v ≤ 256)%nat as Hn by (apply byte_len_le; lia). unfold BloomByteLength in *.
  rewrite length_be_bytes. destruct (Nat.ltb_spec (length b) (byte_len v)); [lia|]. eexists. split; [done|].
  set (n := byte_len v) in *.
  assert (∃ b1 b2, b = b1 ++ b2 ∧ length b1 = 256 - n ∧ length b2 = n)%nat as (b1 & b2 & -> & L1 & L2).
  { exists (take (256 - n) b), (drop (256 - n) b). rewrite take_drop, length_take, length_drop. split; [done|lia]. }
  rewrite <-L1, copy_at_app, drop_ge, app_nil_r by (rewrite ?length_be_bytes; fold n; lia).
  apply Forall_app in Hb as [Hb1 Hb2]. pose proof (be_val_bound b1 Hb1) as B1. pose proof (be_val_bound b2 Hb2) as B2.
  split.
  - split; [rewrite length_app, length_be_bytes; fold n; unfold BloomByteLength; lia|].
    apply Forall_app. split; [done|apply be_bytes_byte].
  - rewrite be_val_app in *. rewrite length_be_bytes, be_val_bytes by lia. fold n. rewrite L2 in *.
    assert (v < 256 ^ Z.of_nat n) as Bv.
    { destruct (decide (v = 0)) as [->|]; [lia|]. apply byte_len_bounds. lia. }
    assert (be_val b1 = 0) as ->; nia.
Qed.

Lemma lookup_of_bits b x : (∀ i, 0 ≤ i → Z.testbit (bloom9 x) i = true → Z.testbit (be_val b) i = true) → BloomLookup b x = true.
Proof. intros H. rewrite BloomLookup_bits. by apply key_bits_iff. Qed.

Lemma LogsBloom_step (P : Z → Prop) logs acc :
  P acc → (∀ z x, P z → P (Z.lor z (bloom9 x))) →
  P (foldl (λ bin log, foldl (λ bin b, Z.lor bin (bloom9 b)) (Z.lor bin (bloom9 (log_Address log))) (log_Topics log)) acc logs).
Proof.
  intros H0 Hs. revert acc H0. induction logs as [|log logs IH]; intros acc H0; [done|]. cbn [foldl]. apply IH.
  pose proof (Hs _ (log_Address log) H0) as H1. revert H1. generalize (Z.lor acc (bloom9 (log_Address log))). clear -Hs.
  induction (log_Topics log) as [|t ts IH]; intros z Hz; [done|]. cbn [foldl]. auto.
Qed.

Lemma LogsBloom_mono logs acc i :
  0 ≤ i → Z.testbit acc i = true →
  Z.testbit (foldl (λ bin log, foldl (λ bin b, Z.lor bin (bloom9 b)) (Z.lor bin (bloom9 (log_Address log))) (log_Topics log)) acc logs) i = true.
Proof.
  intros Hi Ha. apply (LogsBloom_step (λ z, Z.testbit z i = true)); [done|]. intros z x Hz. by rewrite Z.lor_spec, Hz.
Qed.

Lemma topics_mono ts acc i :
  Z.testbit acc i = true ∨ (∃ t, t ∈ ts ∧ Z.testbit (bloom9 t) i = true) →
  Z.testbit (foldl (λ bin b, Z.lor bin (bloom9 b)) acc ts) i = true.
Proof.
  revert acc. induction ts as [|t ts IH]; intros acc H; cbn [foldl].
  - destruct H as [H|(t & Ht & _)]; [done|]. by apply elem_of_nil in Ht.
  - apply IH. rewrite Z.lor_spec, orb_true_iff. destruct H as [H|(t' & [->|Ht]%elem_of_cons & H)]; naive_solver.
Qed.

Lemma LogsBloom_bits logs log x i :
  log ∈ logs → x = log_Address log ∨ x ∈ log_Topics log → 0 ≤ i →
  Z.testbit (bloom9 x) i = true → Z.testbit (LogsBloom logs) i = true.
Proof.
  intros Hl Hx Hi Hb. unfold LogsBloom. revert Hl. generalize 0. induction logs as [|l logs IH]; intros acc Hl; [by apply elem_of_nil in Hl|].
  cbn [foldl]. apply elem_of_cons in Hl as [->|Hl]; [|exact (IH _ Hl)]. apply LogsBloom_mono; [done|].
  apply topics_mono. rewrite Z.lor_spec, orb_true_iff. destruct Hx as [->|Hx]; eauto.
Qed.

Lemma LogsBloom_range logs : 0 ≤ LogsBloom logs < 256 ^ 256.
Proof.
  rewrite pow_256. apply (LogsBloom_step (λ z, 0 ≤ z < 2 ^ 2048)); [split; [done|by apply Z.pow_pos_nonneg]|]. intros z x Hz.
  pose proof (bloom9_range x) as R. rewrite pow_256 in R. pose proof (lor_range 2048 z (bloom9 x) ltac:(lia) Hz R) as [? ?].
  split; [|done]. destruct Hz as [Hz _]. exact (Z.le_trans _ _ _ Hz H).
Qed.
End filters.

(** ** The bits of the vectors *)

(** A vector for the blocks of a section of [8 * m] blocks. *)
Definition vector (m : nat) (v : bytes) : Prop := length v = m ∧ Forall is_byte v.

Lemma vbit_zip op f `{!Bitutil.Bitwise op f} m u v n :
  vector m u → vector m v → (n < 8 * m)%nat → vbit (zip_with op u v) n = f (vbit u n) (vbit v n).
Proof.
  intros [Lu _] [Lv _] Hn. unfold vbit. pose proof (nat_div8 n).
  destruct (lookup_lt_is_Some_2 u (n / 8)) as [x Hx]; [lia|]. destruct (lookup_lt_is_Some_2 v (n / 8)) as [y Hy]; [lia|].
  rewrite (list_lookup_total_correct _ _ _ Hx), (list_lookup_total_correct _ _ _ Hy).
  rewrite (list_lookup_total_correct (zip_with op u v) (n / 8) (op x y)) by (apply lookup_zip_with_Some; eauto).
  apply Bitutil.bitwise_spec. lia.
Qed.

Lemma vector_zip op f `{!Bitutil.Bitwise op f} m u v : vector m u → vector m v → vector m (zip_with op u v).
Proof.
  intros [Lu Bu] [Lv Bv]. split; [rewrite length_zip_with; lia|]. by apply (Bitutil.zip_with_byte op f).
Qed.

Lemma zero_vector m v : vector m v → (∀ n, (n < 8 * m)%nat → vbit v n = false) → v = replicate m 0.
Proof.
  intros [Lv Bv] Hv. symmetry. apply replicate_as_elem_of. split; [done|]. intros x (i & Hi)%list_elem_of_lookup.
  pose proof (lookup_lt_Some _ _ _ Hi). pose proof (proj1 (Forall_lookup _ _) Bv i x Hi) as Hx. unfold is_byte in Hx.
  apply Z.bits_inj'. intros k Hk. rewrite Z.bits_0. destruct (decide (k < 8)) as [Hlt|].
  - specialize (Hv (8 * i + Z.to_nat (7 - k))%nat ltac:(lia)). unfold vbit in Hv. pose proof (nat_div8 (8 * i + Z.to_nat (7 - k))) as [Hdm Hm].
    assert ((8 * i + Z.to_nat (7 - k)) / 8 = i)%nat as E by lia. rewrite E, (list_lookup_total_correct _ _ _ Hi) in Hv. rewrite <-Hv. f_equal. lia.
  - rewrite <-(Z.mod_small x (2 ^ 8)) by (cbn; lia). apply Z.mod_pow2_bits_high. lia.
Qed.

Local Coercion Z.of_nat : nat >-> Z.
Ltac div_lia := Z.to_euclidean_division_equations; lia.

Section bulk.
Context {wordSize : nat} {supportsUnaligned : bool} (word_pos : (0 < wordSize)%nat).

Lemma into_ok m u v :
  vector m u → vector m v →
  and_into wordSize supportsUnaligned u v = Ok (zip_with Z.land u v) ∧
  or_into wordSize supportsUnaligned u v = Ok (zip_with Z.lor u v).
Proof.
  intros [Lu Bu] [Lv Bv].
  destruct (Bitutil.bulk_operations_bytewise wordSize supportsUnaligned u u v word_pos Bu Bv) as (_ & _ & Ea & _ & Eo & _); [lia|].
  unfold and_into, or_into. rewrite Ea, Eo. cbn. rewrite Lu, Lv, Nat.min_id, !(take_ge _ m), (drop_ge u), !app_nil_r by lia. done.
Qed.

Lemma TestBytes_bits m v n :
  vector m v → Bitutil.TestBytes wordSize supportsUnaligned v = false → (n < 8 * m)%nat → vbit v n = false.
Proof.
  intros [Lv Bv] E Hn. rewrite Bitutil.TestBytes_spec in E by done. apply bool_decide_eq_false in E.
  unfold vbit. pose proof (nat_div8 n). destruct (lookup_lt_is_Some_2 v (n / 8)) as [x Hx]; [lia|].
  rewrite (list_lookup_total_correct _ _ _ Hx). assert (x = 0) as ->; [|apply Z.bits_0].
  destruct (decide (x = 0)); [done|]. destruct E. apply Exists_exists. exists x. split; [by eapply list_elem_of_lookup_2|done].
Qed.

(** The vectors of section [s] hold the bits of the filters of its blocks. *)
Context (m : nat) (retrieve : nat → Z → bytes) (blooms : Z → bytes) (s : Z).
Let size := (8 * m)%nat.
Context (retrieved : ∀ i, (i < BloomBitLength)%nat → vector m (retrieve i s) ∧
  ∀ n, (n < size)%nat → vbit (retrieve i s) n = Z.testbit (be_val (blooms (s * size + n))) (Z.of_nat i)).

Definition in_range (idx : bloomIndexes) : Prop :=
  let '(i, j, k) := idx in (i < BloomBitLength ∧ j < BloomBitLength ∧ k < BloomBitLength)%nat.

Lemma size_div : (size / 8)%nat = m.
Proof. unfold size. rewrite Nat.mul_comm. by apply Nat.div_mul. Qed.

Notation rule_bits s rule := (λ n : nat, existsb (key_bits (be_val (blooms (s * size + n)))) rule).

Lemma and_vector_ok idx :
  in_range idx → ∃ v, and_vector wordSize supportsUnaligned size retrieve s idx = Ok v ∧ vector m v ∧
    ∀ n, (n < size)%nat → vbit v n = key_bits (be_val (blooms (s * size + n))) idx.
Proof.
  destruct idx as [[i j] k]. intros (Hi & Hj & Hk).
  destruct (retrieved i Hi) as [Vi Bi], (retrieved j Hj) as [Vj Bj], (retrieved k Hk) as [Vk Bk].
  unfold and_vector. rewrite size_div.
  assert (copy_at (replicate m 0) 0 (retrieve i s) = retrieve i s) as ->.
  { unfold copy_at. rewrite length_replicate, Nat.sub_0_r, take_0, take_ge, drop_ge by (rewrite ?length_replicate; destruct Vi; lia).
    apply app_nil_r. }
  destruct (into_ok _ _ _ Vi Vj) as [-> _]. cbn [obind].
  pose proof (vector_zip Z.land andb _ _ _ Vi Vj) as Vij. destruct (into_ok _ _ _ Vij Vk) as [-> _].
  eexists. split; [done|]. split; [by apply (vector_zip Z.land andb)|]. intros n Hn.
  rewrite (vbit_zip Z.land andb m), (vbit_zip Z.land andb m), Bi, Bj, Bk by done. done.
Qed.

Lemma or_vector_ok rule acc :
  Forall in_range rule → (∀ a, acc = Some a → vector m a) →
  ∃ r, or_vector wordSize supportsUnaligned size retrieve s rule acc = Ok r ∧
    (r = None → acc = None ∧ rule = []) ∧
    (∀ v, r = Some v → vector m v ∧ ∀ n, (n < size)%nat → vbit v n = from_option (λ a, vbit a n) false acc || rule_bits s rule n).
Proof.
  intros Hr. revert acc. induction Hr as [|idx rule Hi Hr IH]; intros acc Ha.
  - exists acc. split; [done|]. split; [done|]. intros v ->. split; [by apply Ha|]. intros n _. cbn. by rewrite orb_false_r.
  - destruct (and_vector_ok idx Hi) as (v & Ev & Vv & Bv). cbn [or_vector]. rewrite Ev. cbn [obind].
    destruct acc as [a|].
    + specialize (Ha a eq_refl). destruct (into_ok _ _ _ Ha Vv) as [_ ->]. cbn [obind].
      destruct (IH (Some (zip_with Z.lor a v))) as (r & Er & Nr & Sr); [intros ? [= <-]; by apply (vector_zip Z.lor orb)|].
      exists r. split; [done|]. split; [by intros [? _]%Nr|]. intros w Hw. destruct (Sr w Hw) as [Vw Bw]. split; [done|].
      intros n Hn. rewrite Bw by done. cbn. rewrite (vbit_zip Z.lor orb m), Bv by done. by rewrite orb_assoc.
    + cbn [obind]. destruct (IH (Some v)) as (r & Er & Nr & Sr); [by intros ? [= <-]|].
      exists r. split; [done|]. split; [by intros [? _]%Nr|]. intros w Hw. destruct (Sr w Hw) as [Vw Bw]. split; [done|].
      intros n Hn. rewrite Bw by done. cbn. by rewrite Bv.
Qed.

Lemma subMatch_ok rule bitset :
  Forall in_range rule → vector m bitset →
  ∃ r, subMatch wordSize supportsUnaligned size retrieve s rule bitset = Ok r ∧
    (r = None → ∀ n, (n < size)%nat → rule_bits s rule n && vbit bitset n = false) ∧
    (∀ v, r = Some v → vector m v ∧ ∀ n, (n < size)%nat → vbit v n = rule_bits s rule n && vbit bitset n).
Proof.
  intros Hr Hv. unfold subMatch. destruct (or_vector_ok rule None Hr) as (r & Er & Nr & Sr); [done|]. rewrite Er. cbn [obind].
  rewrite size_div. set (w := default (replicate m 0) r).
  assert (vector m w ∧ ∀ n, (n < size)%nat → vbit w n = rule_bits s rule n) as [Vw Bw].
  { destruct r as [v|]; [destruct (Sr v eq_refl) as [Vv Bv]; split; [done|]; intros n Hn; apply (Bv n Hn)|].
    destruct (Nr eq_refl) as [_ ->]. split; [split; [apply length_replicate|by apply Forall_replicate]|].
    intros n Hn. apply vbit_zero. pose proof (nat_div8 n). unfold size in Hn. lia. }
  destruct (into_ok _ _ _ Vw Hv) as [-> _]. cbn [obind]. pose proof (vector_zip Z.land andb _ _ _ Vw Hv) as Vz.
  assert (∀ n, (n < size)%nat → vbit (zip_with Z.land w bitset) n = rule_bits s rule n && vbit bitset n) as Bz.
  { intros n Hn. by rewrite (vbit_zip Z.land andb m), Bw by done. }
  eexists. split; [done|]. destruct (Bitutil.TestBytes _ _ _) eqn:Et; split; intros; simplify_eq; [done|].
  rewrite <-Bz by done. by apply (TestBytes_bits _ _ _ Vz Et).
Qed.

Lemma run_filters_ok filters bitset :
  Forall (Forall in_range) filters → vector m bitset →
  ∃ r, run_filters wordSize supportsUnaligned size retrieve s filters bitset = Ok r ∧
    (r = None → ∀ n, (n < size)%nat → vbit bitset n && forallb (λ rule, rule_bits s rule n) filters = false) ∧
    (∀ v, r = Some v → vector m v ∧ ∀ n, (n < size)%nat → vbit v n = vbit bitset n && forallb (λ rule, rule_bits s rule n) filters).
Proof.
  intros Hf. revert bitset. induction Hf as [|rule filters Hr Hf IH]; intros bitset Hv.
  - exists (Some bitset). split; [done|]. split; [done|]. intros v [= <-]. split; [done|]. intros n _. cbn. by rewrite andb_true_r.
  - destruct (subMatch_ok rule bitset Hr Hv) as (r & Er & Nr & Sr). cbn [run_filters]. rewrite Er. cbn [obind forallb].
    destruct r as [v|].
    + destruct (Sr v eq_refl) as [Vv Bv]. destruct (IH v Vv) as (r' & E' & N' & S'). exists r'. split; [done|].
      split; [intros Hn n Hn'; specialize (N' Hn n Hn')|intros w Hw; destruct (S' w Hw) as [Vw Bw]; split; [done|]; intros n Hn'; rewrite Bw by done];
        rewrite Bv in * by done; by rewrite andb_assoc, (andb_comm (vbit bitset n)).
    + exists None. split; [done|]. split; [|done]. intros _ n Hn. by rewrite andb_assoc, (andb_comm (vbit bitset n)), Nr.
Qed.

Lemma run_section_ok filters :
  Forall (Forall in_range) filters →
  ∃ r, run_section wordSize supportsUnaligned size retrieve s filters = Ok r ∧
    (r = None → ∀ n, (n < size)%nat → forallb (λ rule, rule_bits s rule n) filters = false) ∧
    (∀ v, r = Some v → vector m v ∧ ∀ n, (n < size)%nat → vbit v n = forallb (λ rule, rule_bits s rule n) filters).
Proof.
  intros Hf. unfold run_section. rewrite size_div.
  destruct (run_filters_ok filters (replicate m 255) Hf) as (r & Er & Nr & Sr); [split; [apply length_replicate|by apply Forall_replicate]|].
  assert (∀ n, (n < size)%nat → vbit (replicate m 255) n = true) as Bt.
  { intros n Hn. unfold vbit. pose proof (nat_div8 n). rewrite lookup_total_replicate_2 by (unfold size in Hn; lia).
    change 255 with (Z.ones 8). apply Z.ones_spec_low. lia. }
  exists r. split; [done|]. split.
  - intros E n Hn. specialize (Nr E n Hn). by rewrite Bt in Nr.
  - intros v E. destruct (Sr v E) as [Vv Bv]. split; [done|]. intros n Hn. by rewrite Bv, Bt.
Qed.
End bulk.

(** ** The results of a section *)

Lemma filter_skip (P : Z → bool) k i c :
  (∀ j, 0 ≤ j < k → P (i + j) = false) → 0 ≤ k →
  List.filter P (seqZ i c) = List.filter P (seqZ (i + k) (c - k)).
Proof.
  intros H Hk. revert i c H. pattern k. apply natlike_ind; [| |done].
  - intros i c _. by rewrite Z.add_0_r, Z.sub_0_r.
  - clear k Hk. intros k Hk IH i c H. destruct (decide (0 < c)).
    + rewrite (seqZ_cons i c) by lia. cbn [List.filter]. pose proof (H 0 ltac:(lia)) as H0. rewrite Z.add_0_r in H0. rewrite H0.
      rewrite IH by (intros j Hj; rewrite <-(H (j + 1)) by lia; f_equal; lia). do 2 f_equal; lia.
    + by rewrite !seqZ_nil by lia.
Qed.

Lemma vbit_zero_byte v n j :
  (n mod 8 = 0)%nat → (j < 8)%nat → v !!! (n / 8)%nat = 0 → vbit v (n + j) = false.
Proof.
  intros Hn Hj E. pose proof (nat_div8 n). pose proof (nat_div8 (n + j)). unfold vbit.
  replace ((n + j) / 8)%nat with (n / 8)%nat by lia. rewrite E. apply Z.bits_0.
Qed.

(** The bit of block [i] in the vector of the section that starts at [start]. *)
Definition block_bit (v : bytes) (start i : Z) : bool := vbit v (Z.to_nat (i - start)).

Lemma emit_index m start i v :
  vector m v → 0 ≤ start ≤ i → i < start + 8 * m → i < 2 ^ 64 →
  v.[Z.to_nat (u64 (i - start) / 8)] = Ok (E := bloom_error) (v !!! Z.to_nat ((i - start) / 8)).
Proof.
  intros [Lv _] Hi Hl Hb. rewrite (wrap_small 64) by lia.
  destruct (lookup_lt_is_Some_2 v (Z.to_nat ((i - start) / 8))) as [x Hx]; [pose proof (Z.div_lt_upper_bound (i - start) 8 m); lia|].
  by rewrite (index_Some _ _ _ Hx), (list_lookup_total_correct _ _ _ Hx).
Qed.

Lemma block_bit_test v start i :
  start mod 8 = 0 → 0 ≤ start ≤ i →
  block_bit v start i = Z.testbit (v !!! Z.to_nat ((i - start) / 8)) (7 - i mod 8).
Proof.
  intros Hs Hi. unfold block_bit, vbit. rewrite Z2Nat.inj_div, Nat2Z.inj_mod, Z2Nat.id by lia.
  change (Z.to_nat 8) with 8%nat. change (Z.of_nat 8) with 8.
  assert ((i - start) mod 8 = i mod 8) as -> by div_lia. done.
Qed.

(** The blocks of the result, when the first one is at the start of a byte or its byte is
    not zero: the bits of a zero byte are only skipped together. *)
Lemma emit_ok m (rounds : nat) start last i v :
  vector m v → start mod 8 = 0 → 0 ≤ start ≤ i → last < start + 8 * m → last + 8 < 2 ^ 64 → last + 1 - i ≤ rounds →
  i mod 8 = 0 ∨ v !!! Z.to_nat ((i - start) / 8) ≠ 0 →
  emit rounds start last i v = Ok (List.filter (block_bit v start) (seqZ i (last + 1 - i))).
Proof.
  intros Vv Hs. revert i. induction rounds as [|rounds IH]; intros i Hi Hl Hb Hr Inv.
  { by rewrite seqZ_nil by lia. }
  cbn [emit]. destruct (Z.ltb_spec last i); [by rewrite seqZ_nil by lia|].
  rewrite (emit_index m) by (done || lia). cbn [obind]. pose proof (block_bit_test v start i Hs Hi) as Eb.
  destruct (Z.eqb_spec (v !!! Z.to_nat ((i - start) / 8)) 0) as [E0|Hne].
  - destruct Inv as [H8|]; [|done]. rewrite !(wrap_small 64) by (rewrite ?(wrap_small 64); lia).
    rewrite IH by (lia || left; div_lia). rewrite (filter_skip _ 8 i); [do 3 f_equal; lia| |lia].
    intros j Hj. rewrite block_bit_test by lia. replace ((i + j - start) / 8) with ((i - start) / 8) by div_lia. by rewrite E0, Z.bits_0.
  - rewrite (wrap_small 64 (i + 1)) by lia. rewrite IH; [|lia..|].
    2: { destruct (decide ((i + 1) mod 8 = 0)); [by left|right]. by replace ((i + 1 - start) / 8) with ((i - start) / 8) by div_lia. }
    cbn [obind]. rewrite (wrap_small 64), land_bit, <-Eb by div_lia. rewrite (seqZ_cons i) by lia. cbn [List.filter].
    replace (Z.pred (last + 1 - i)) with (last + 1 - (i + 1)) by lia. done.
Qed.

(** Past the last number the loop goes on at a block whose byte is out of range. *)
Lemma emit_past_end m (rounds : nat) start last i j v :
  vector m v → 8 ≤ start ≤ i → start + 8 * m ≤ 2 ^ 64 → i ≤ last → 1 ≤ j ≤ 8 → i < 2 ^ 64 ≤ i + j →
  emit (S rounds) start last (u64 (i + j)) v = Panic.
Proof.
  intros [Lv _] Hi Hs Hl Hj Hb. assert (u64 (i + j) = i + j - 2 ^ 64) as ->.
  { unfold wrap. symmetry. apply (Z.mod_unique_pos _ _ 1); lia. }
  cbn [emit]. destruct (Z.ltb_spec last (i + j - 2 ^ 64)); [lia|].
  assert (u64 (i + j - 2 ^ 64 - start) = i + j - start) as ->.
  { unfold wrap. symmetry. apply (Z.mod_unique_pos _ _ (-1)); lia. }
  unfold index. rewrite lookup_ge_None_2; [done|]. rewrite Lv.
  pose proof (Z.div_le_lower_bound (i + j - start) 8 m). lia.
Qed.

Lemma u64_skip i : u64 (u64 (i + 7) + 1) = u64 (i + 8).
Proof. unfold wrap. rewrite Zplus_mod_idemp_l. f_equal. lia. Qed.

(** The rounds of [section_results] are enough: more of them give the same. *)
Lemma emit_rounds m start last v (r r' : nat) i :
  vector m v → 0 ≤ start ≤ i → 8 ≤ start ∨ last + 8 < 2 ^ 64 → start + 8 * m ≤ 2 ^ 64 → last < start + 8 * m → i < 2 ^ 64 →
  (last - i + 2 ≤ r)%Z → (last - i + 2 ≤ r')%Z → (0 < r)%nat → (0 < r')%nat →
  emit r start last i v = emit r' start last i v.
Proof.
  intros Vv. revert i r'. induction r as [|r IH]; intros i [|r'] Hi H8 Hs Hl Hb Hr Hr' H0 H0'; try lia.
  cbn [emit]. destruct (Z.ltb_spec last i); [done|]. rewrite u64_skip, (emit_index m) by (done || lia). cbn [obind].
  assert (∀ j, 1 ≤ j ≤ 8 → emit r start last (u64 (i + j)) v = emit r' start last (u64 (i + j)) v) as Hgo.
  { intros j Hj. destruct (decide (i + j < 2 ^ 64)); [rewrite (wrap_small 64) by lia; apply IH; lia|].
    destruct r as [|r], r' as [|r']; try lia. by rewrite !(emit_past_end m) by (done || lia). }
  by rewrite !Hgo by lia.
Qed.

(** At the last number the loop never ends but by a panic. *)
Lemma emit_wraps m (rounds : nat) start i v :
  vector m v → start + 8 * m = 2 ^ 64 → 0 < start ≤ i → i < 2 ^ 64 → 2 ^ 64 - i < rounds →
  emit rounds start (2 ^ 64 - 1) i v = Panic.
Proof.
  intros Vv Hs. revert i. induction rounds as [|rounds IH]; intros i Hi Hb Hr; [lia|].
  cbn [emit]. destruct (Z.ltb_spec (2 ^ 64 - 1) i); [lia|].
  rewrite u64_skip, (emit_index m) by (done || lia). cbn [obind].
  assert (∀ j, 1 ≤ j ≤ 8 → emit rounds start (2 ^ 64 - 1) (u64 (i + j)) v = Panic) as Hgo.
  { intros j Hj. destruct (decide (i + j < 2 ^ 64)); [rewrite (wrap_small 64) by lia; apply IH; lia|].
    destruct rounds as [|rounds']; [lia|]. apply (emit_past_end m); done || lia. }
  rewrite !Hgo by lia. by case_match.
Qed.

Lemma filter_seqZ_ext (P Q : Z → bool) i c :
  (∀ n, i ≤ n < i + c → P n = Q n) → List.filter P (seqZ i c) = List.filter Q (seqZ i c).
Proof. intros H. apply List.filter_ext_in. intros n Hn. apply list_elem_of_In, elem_of_seqZ in Hn. by apply H. Qed.

Lemma filter_seqZ_none (P : Z → bool) i c :
  (∀ n, i ≤ n < i + c → P n = false) → List.filter P (seqZ i c) = [].
Proof. intros H. rewrite (filter_seqZ_ext P (λ _, false)) by done. clear. by induction (seqZ i c). Qed.

Section sections.
Context {wordSize : nat} {supportsUnaligned : bool} (word_pos : (0 < wordSize)%nat).
Context (m : nat) (retrieve : nat → Z → bytes) (blooms : Z → bytes) (m_pos : (0 < m)%nat).
Notation size := (8 * m)%nat.
Context (retrieved : ∀ i s, (i < BloomBitLength)%nat → 0 ≤ s → vector m (retrieve i s) ∧
  ∀ n, (n < size)%nat → vbit (retrieve i s) n = Z.testbit (be_val (blooms (s * size + n))) (Z.of_nat i)).
Context (rules : list (list bloomIndexes)) (rules_range : Forall (Forall in_range) rules).
Context (begin end_ : Z) (aligned : begin mod 8 = 0) (no_wrap : end_ + size < 2 ^ 64).

Definition rules_match (n : Z) : bool := forallb (λ rule, existsb (key_bits (be_val (blooms n))) rule) rules.

Definition section_step (section : Z) (acc : list Z) : outcome bloom_error (list Z) :=
  let* r := run_section wordSize supportsUnaligned size retrieve section rules in
  match r with
  | None => Ok acc
  | Some v => let* bs := section_results size begin end_ section v in Ok (acc ++ bs)
  end.

Lemma section_step_ok s acc :
  0 ≤ s → s * size ≤ end_ →
  section_step s acc =
  let first := Z.max (s * size) begin in
  Ok (acc ++ List.filter rules_match (seqZ first (Z.min (s * size + size) (end_ + 1) - first))).
Proof.
  intros Hs He. cbv zeta. unfold section_step.
  destruct (run_section_ok (supportsUnaligned := supportsUnaligned) word_pos m retrieve blooms s (λ i Hi, retrieved i s Hi Hs) rules rules_range) as (r & Er & Nr & Sr).
  rewrite Er. cbn [obind]. set (start := s * Z.of_nat size) in *. assert (0 ≤ start) by (unfold start; lia).
  assert (∀ n, start ≤ n < start + size → start + Z.of_nat (Z.to_nat (n - start)) = n) as Es by lia.
  destruct r as [v|].
  - destruct (Sr v eq_refl) as [Vv Bv]. unfold section_results. fold start. cbv zeta.
    rewrite (wrap_small 64 start), (wrap_small 64 (start + size)), (wrap_small 64 (start + size - 1)) by lia.
    replace (if start <? begin then begin else start) with (Z.max start begin) by (destruct (Z.ltb_spec start begin); lia).
    replace (if end_ <? start + size - 1 then end_ else start + size - 1) with (Z.min (start + size) (end_ + 1) - 1)
      by (destruct (Z.ltb_spec end_ (start + size - 1)); lia).
    assert (start mod 8 = 0) as H8 by (unfold start; replace (s * size) with (s * m * 8) by lia; by apply Z.mod_mul).
    rewrite (emit_ok m _ start); [|done|done|lia..|left; div_lia].
    cbn [obind]. do 2 f_equal. replace (Z.min (start + size) (end_ + 1) - 1 + 1) with (Z.min (start + size) (end_ + 1)) by lia.
    apply filter_seqZ_ext. intros n Hn. unfold block_bit, rules_match. rewrite Bv by lia. by rewrite Es by lia.
  - rewrite filter_seqZ_none, app_nil_r; [done|]. intros n Hn. unfold rules_match.
    rewrite <-(Es n) by lia. apply (Nr eq_refl). lia.
Qed.

Lemma sections_ok (k : nat) s acc :
  Z.of_nat k = Z.max 0 (end_ / size + 1 - s) → 0 ≤ s → begin < (s + 1) * size →
  oloop section_step (seqZ s k) acc =
  let first := Z.max (s * size) begin in Ok (acc ++ List.filter rules_match (seqZ first (end_ + 1 - first))).
Proof.
  cbv zeta. pose proof (Z.div_mod end_ size ltac:(lia)). pose proof (Z.mod_pos_bound end_ size ltac:(lia)).
  revert s acc. induction k as [|k IH]; intros s acc Hk Hs Hb.
  - rewrite (seqZ_nil (Z.max (s * size) begin)); [by rewrite app_nil_r|]. nia.
  - rewrite (seqZ_cons s) by lia. cbn [oloop]. assert (s * size ≤ end_) as He by nia.
    rewrite section_step_ok by done. cbn [obind].
    replace (Z.pred (S k)) with (Z.of_nat k) by lia. rewrite IH by lia. rewrite <-app_assoc, <-List.filter_app. do 3 f_equal.
    replace (Z.max (Z.succ s * size) begin) with (s * size + size) by lia.
    destruct (decide (end_ < s * size + size)).
    + rewrite (seqZ_nil (s * size + size)), app_nil_r by lia. f_equal. lia.
    + rewrite Z.min_l by lia. symmetry.
      replace (end_ + 1 - Z.max (s * size) begin)
        with ((s * size + size - Z.max (s * size) begin) + (end_ + 1 - (s * size + size))) by lia.
      rewrite seqZ_app by lia. do 2 f_equal. lia.
Qed.
End sections.

(** ** Rules *)

Section rules.
Context {KC : Keccak}.

(** What a rule asks of a filter: one of its alternatives, all of them when a rule is empty
    or has a nil alternative. *)
Definition rule_matches (bloom : bytes) (rule : list (option bytes)) : bool :=
  match rule with
  | [] => true
  | _ => existsb (λ clause, match clause with None => true | Some c => BloomLookup bloom c end) rule
  end.

Lemma filter_indexes_matches bloom rule :
  match filter_indexes rule with
  | Some l => existsb (λ clause, match clause with None => true | Some c => BloomLookup bloom c end) rule =
              existsb (key_bits (be_val bloom)) l
  | None => existsb (λ clause, match clause with None => true | Some c => BloomLookup bloom c end) rule = true
  end.
Proof.
  induction rule as [|[c|] rule IH]; [done| |by cbn]. unfold filter_indexes in *. cbn [foldr existsb].
  destruct (foldr _ _ rule); cbn [existsb]; rewrite IH; [by rewrite BloomLookup_bits|apply orb_true_r].
Qed.

Lemma NewMatcher_matches bloom filters :
  forallb (λ rule, existsb (key_bits (be_val bloom)) rule) (NewMatcher filters) = forallb (rule_matches bloom) filters.
Proof.
  induction filters as [|rule filters IH]; [done|]. cbn [forallb]. unfold NewMatcher in *. cbn [flat_map]. rewrite forallb_app, IH.
  f_equal. pose proof (filter_indexes_matches bloom rule) as H. unfold rule_matches. destruct rule as [|c rule]; [done|].
  destruct (filter_indexes (c :: rule)); rewrite H; [cbn; by rewrite andb_true_r|done].
Qed.

Lemma calcBloomIndexes_range x : in_range (calcBloomIndexes x).
Proof.
  unfold calcBloomIndexes, in_range. pose proof (λ i, bloom_bit_range (keccak256 x) (2 * i)) as R.
  pose proof (λ i, calc_index_bit x i) as C.
  assert (∀ i, (i < 3)%nat → (calc_index (keccak256 x) i < BloomBitLength)%nat) as H.
  { intros i Hi. specialize (R i). specialize (C i Hi). unfold BloomBitLength, BloomByteLength. lia. }
  split_and!; apply H; lia.
Qed.

Lemma NewMatcher_range filters : Forall (Forall in_range) (NewMatcher filters).
Proof.
  induction filters as [|rule filters IH]; [constructor|]. unfold NewMatcher in *. cbn [flat_map]. apply Forall_app. split; [|done].
  destruct rule as [|c rule]; [constructor|]. destruct (filter_indexes (c :: rule)) as [l|] eqn:E; [|constructor]. constructor; [|constructor].
  revert l E. induction (c :: rule) as [|[x|] r IHr]; intros l E; [injection E as <-; constructor| |done].
  unfold filter_indexes in *. cbn [foldr] in E. destruct (foldr _ _ r) as [l'|]; [|done]. injection E as <-.
  constructor; [apply calcBloomIndexes_range|by apply IHr].
Qed.

(** A session over vectors that hold the bits of the filters. *)
Lemma Matcher_results_ok wordSize su m retrieve blooms filters begin end_ :
  (0 < wordSize)%nat → (0 < m)%nat →
  (∀ i s, (i < BloomBitLength)%nat → 0 ≤ s → vector m (retrieve i s) ∧
    ∀ n, (n < 8 * m)%nat → vbit (retrieve i s) n = Z.testbit (be_val (blooms (s * (8 * m)%nat + n))) (Z.of_nat i)) →
  begin mod 8 = 0 → 0 ≤ begin → end_ + (8 * m)%nat < 2 ^ 64 →
  Matcher_results wordSize su (8 * m) retrieve (NewMatcher filters) begin end_ =
  Ok (List.filter (λ n, forallb (rule_matches (blooms n)) filters) (seqZ begin (end_ + 1 - begin))).
Proof.
  intros Hw Hm Hret Ha Hb He. set (size := Z.of_nat (8 * m)) in *. assert (0 < size) by (unfold size; lia).
  pose proof (Z.div_mod begin size ltac:(lia)). pose proof (Z.mod_pos_bound begin size ltac:(lia)).
  assert (0 ≤ begin / size) by (apply Z.div_pos; lia).
  transitivity (oloop (section_step (wordSize := wordSize) (supportsUnaligned := su) m retrieve (NewMatcher filters) begin end_)
    (seqZ (begin / size) (Z.of_nat (Z.to_nat (end_ / size + 1 - begin / size)))) []).
  { unfold Matcher_results, seqZ. fold size. by rewrite Nat2Z.id. }
  rewrite (sections_ok Hw m retrieve blooms ltac:(lia) Hret _ (NewMatcher_range filters) begin end_ Ha He) by (unfold size in *; nia).
  cbv zeta. fold size. rewrite Z.max_r by nia. cbn [app]. f_equal. apply filter_seqZ_ext. intros n _. apply NewMatcher_matches.
Qed.
End rules.

(** ** Properties *)

(** Vector [idx] of a generator that has the filters of the whole section. *)
Lemma Bitset_full g l idx :
  gen_ok g l → g_sections g = length l → (idx < length l)%nat → (idx < BloomBitLength)%nat →
  ∃ v, Bitset g idx = Ok v ∧ vector (length l / 8) v ∧ ∀ n b, l !! n = Some b → vbit v n = Z.testbit (be_val b) (Z.of_nat idx).
Proof.
  intros [Hc Hn Hs Hcol] Hl Hi Hi'. unfold Bitset. rewrite Hn, Hl, Nat.eqb_refl. cbn [negb].
  destruct (Nat.leb_spec (length l) idx); [lia|].
  destruct (lookup_lt_is_Some_2 (g_blooms g) idx) as [v Hv]; [by rewrite Hc|]. rewrite (index_Some _ _ _ Hv).
  destruct (Hcol idx v Hv) as (Lv & Bv & Vv). exists v. split; [done|]. split; [by rewrite <-Hl|].
  intros n b Hnb. rewrite Vv; [by rewrite Hnb|]. rewrite Hl. by eapply lookup_lt_Some.
Qed.

(** A bit vector as the indexer builds it from the filters of a section. *)
Definition indexed (blooms : list bytes) (idx : nat) : outcome bloom_error bytes :=
  let* g := generate blooms in Bitset g idx.

Lemma indexed_ok blooms idx :
  (length blooms mod 8 = 0)%nat → Forall bloom_ok blooms → (idx < length blooms)%nat → (idx < BloomBitLength)%nat →
  ∃ v, indexed blooms idx = Ok v ∧ vector (length blooms / 8) v ∧
    ∀ n b, blooms !! n = Some b → vbit v n = Z.testbit (be_val b) (Z.of_nat idx).
Proof.
  intros H8 Hb Hi Hi'. destruct (generate_ok blooms H8 Hb) as (g & E & Hg & Hl).
  unfold indexed. rewrite E. cbn [obind]. by apply Bitset_full.
Qed.

(** The generator transposes the filters of a section: after all of them, vector [idx]
    has at the place of every block the bit [idx] of its filter. A vector is refused when
    its index is not below the number of blocks in the section, and an index past the
    filters' bits is out of range of the table when the section is larger. *)
Theorem generator_transposes blooms :
  (length blooms mod 8 = 0)%nat → Forall bloom_ok blooms →
  ∃ g, generate blooms = Ok g ∧
  ∀ idx, match Bitset g idx with
         | Ok v => (idx < length blooms)%nat ∧ (idx < BloomBitLength)%nat ∧ vector (length blooms / 8) v ∧
                   ∀ n b, blooms !! n = Some b → vbit v n = Z.testbit (be_val b) (Z.of_nat idx)
         | Err e => (length blooms ≤ idx)%nat ∧ e = errSectionOutOfBounds
         | Panic => (BloomBitLength ≤ idx < length blooms)%nat
         end.
Proof.
  intros H8 Hb. destruct (generate_ok blooms H8 Hb) as (g & E & [Hc Hn Hs Hcol] & Hl). exists g. split; [done|]. intros idx.
  pose proof (indexed_ok blooms idx H8 Hb) as Hi. unfold indexed in Hi. rewrite E in Hi. cbn [obind] in Hi.
  destruct (decide (idx < length blooms)%nat) as [Hlt|Hge]; [destruct (decide (idx < BloomBitLength)%nat) as [Hlt'|Hge']|].
  - destruct (Hi Hlt Hlt') as (v & -> & Vv & Bv). done.
  - unfold Bitset. rewrite Hn, Hl, Nat.eqb_refl. cbn [negb]. destruct (Nat.leb_spec (length blooms) idx); [lia|].
    unfold index. rewrite lookup_ge_None_2 by (rewrite Hc; lia). lia.
  - unfold Bitset. rewrite Hn, Hl, Nat.eqb_refl. cbn [negb]. destruct (Nat.leb_spec (length blooms) idx); [|lia]. by split; [lia|].
Qed.

(** A filter holds every key that was added to it and keeps the ones it had; the filter of
    logs holds their addresses and topics. *)
Theorem filters_keep_keys {KC : Keccak} b d logs :
  bloom_ok b →
  (∃ b', Bloom_Add (E := bloom_error) b d = Ok b' ∧ bloom_ok b' ∧ Bloom_Test b' d = true ∧
     ∀ t, BloomLookup b t = true → BloomLookup b' t = true) ∧
  (∃ b', BytesToBloom (E := bloom_error) (be_bytes (LogsBloom logs)) = Ok b' ∧ bloom_ok b' ∧
     ∀ log x, log ∈ logs → x = log_Address log ∨ x ∈ log_Topics log → BloomLookup b' x = true).
Proof.
  intros Hb. split.
  - pose proof (bloom_val_range b Hb) as R. pose proof (bloom9_range (be_bytes d)) as R9. rewrite pow_256 in R, R9.
    pose proof (lor_range 2048 _ _ ltac:(lia) R R9) as RL. rewrite <-pow_256 in RL.
    destruct (SetBytes_grows (E := bloom_error) b _ Hb RL) as (b' & E & Hb' & V). exists b'. split; [done|]. split; [done|]. split.
    + apply lookup_of_bits. intros i Hi Hx. by rewrite V, Z.lor_spec, Hx, orb_true_r.
    + intros t Ht. rewrite BloomLookup_bits, key_bits_iff in Ht. apply lookup_of_bits. intros i Hi Hx. by rewrite V, Z.lor_spec, Ht.
  - assert (bloom_ok (replicate BloomByteLength 0)) as Hz by (split; [apply length_replicate|by apply Forall_replicate]).
    assert (be_val (replicate BloomByteLength 0) = 0) as E0 by (by vm_compute).
    pose proof (LogsBloom_range logs) as RL. rewrite <-E0 in RL at 1.
    destruct (SetBytes_grows (E := bloom_error) _ _ Hz RL) as (b' & E & Hb' & V). exists b'. split; [done|]. split; [done|].
    intros log x Hl Hx. apply lookup_of_bits. intros i Hi Hb9. rewrite V. by eapply LogsBloom_bits.
Qed.

(** C23: from the vectors that the generator makes of each section, a session of the
    matcher over blocks [begin] to [end_] delivers exactly the blocks whose filters match
    every rule, in order, when the first block is a multiple of 8 and the range ends more
    than a section below 2⁶⁴. In the last section of the numbers, where [end_] is the last
    number, the loop over the blocks wraps around and panics. *)
Theorem matcher_finds_blocks {KC : Keccak} wordSize su size blooms retrieve filters begin end_ :
  (0 < wordSize)%nat → (0 < size)%nat → (size mod 8 = 0)%nat → (∀ n, bloom_ok (blooms n)) →
  (∀ i s, (i < BloomBitLength)%nat → 0 ≤ s →
    indexed (map (λ n : nat, blooms (s * size + n)) (seq 0 size)) i = Ok (retrieve i s)) →
  begin mod 8 = 0 → 0 ≤ begin → end_ + size < 2 ^ 64 →
  Matcher_results wordSize su size retrieve (NewMatcher filters) begin end_ =
    Ok (List.filter (λ n, forallb (rule_matches (blooms n)) filters) (seqZ begin (end_ + 1 - begin))) ∧
  (∀ s v, s * size + size = 2 ^ 64 → 0 < s → begin < 2 ^ 64 → vector (size / 8) v →
    section_results size begin (2 ^ 64 - 1) s v = Panic).
Proof.
  intros Hw Hs H8 Hb Hr Ha H0 He. pose proof (nat_div8 size) as [Es _]. rewrite H8, Nat.add_0_r in Es. set (m := (size / 8)%nat) in *.
  clearbody m. subst size. split.
  - apply Matcher_results_ok; try (done || lia). intros i s Hi Hs0. specialize (Hr i s Hi Hs0).
    set (l := map _ _) in Hr. assert (length l = (8 * m)%nat) as Hl by (unfold l; by rewrite List.length_map, length_seq).
    destruct (generator_transposes l) as (g & Eg & Hg); [by rewrite Hl|apply List.Forall_map, Forall_true; intros n; apply Hb|].
    unfold indexed in Hr. rewrite Eg in Hr. cbn [obind] in Hr. specialize (Hg i). rewrite Hr, Hl in Hg.
    destruct Hg as (_ & _ & Vv & Bv). rewrite size_div in Vv. split; [done|].
    intros n Hn. apply Bv. unfold l. rewrite list_lookup_fmap, lookup_seq_lt by done. done.
  - intros s v Es Hs0 Hb64 Vv. unfold section_results. assert (0 < s * (8 * m)%nat) by nia.
    rewrite (wrap_small 64 (s * _)), Es by lia. change (u64 (u64 (2 ^ 64) - 1)) with (2 ^ 64 - 1). cbv zeta. rewrite Z.ltb_irrefl.
    destruct (Z.ltb_spec (s * (8 * m)%nat) begin).
    + apply (emit_wraps m); [exact Vv|lia..].
    + apply (emit_wraps m); [exact Vv|lia..].
Qed.

Lemma matcher_finds_blocks_witness :
  let blooms := λ n : Z, replicate BloomByteLength (if n =? 9 then 255 else 0) in
  let retrieve := λ i s, match indexed (map (λ n : nat, blooms (s * 2048%nat + n)) (seq 0 2048)) i with Ok v => v | _ => [] end in
  let filters := [[Some [1]; Some [2]]; []; [Some [3]; None]] in
  8 mod 8 = 0 ∧
  Matcher_results 8 true 2048 retrieve (NewMatcher (KC := keccak_sponge) filters) 8 20 =
  Ok (List.filter (λ n, forallb (rule_matches (KC := keccak_sponge) (blooms n)) filters) (seqZ 8 (20 + 1 - 8))).
Proof.
  intros blooms retrieve filters. split; [done|].
  assert (∀ n, bloom_ok (blooms n)) as Hb.
  { intros n. split; [apply length_replicate|]. apply Forall_replicate. unfold is_byte. destruct (n =? 9); lia. }
  refine (proj1 (matcher_finds_blocks 8 true 2048 blooms retrieve filters 8 20 _ _ _ Hb _ _ _ _)); [lia|lia|done| |done|lia|reflexivity].
  intros i s Hi _. destruct (indexed_ok (map (λ n : nat, blooms (s * 2048%nat + n)) (seq 0 2048)) i) as (v & E & _).
  - by rewrite List.length_map, length_seq.
  - apply List.Forall_map, Forall_true. intros n. apply Hb.
  - by rewrite List.length_map, length_seq.
  - done.
  - unfold retrieve. by rewrite E.
Defined.

(** When the range does not start at a multiple of 8, blocks that match can be missed: with
    the filters of blocks 8 to 15 matching, the blocks 4 to 15 give only the last four. *)
Theorem unaligned_range_misses_blocks :
  let retrieve := λ (_ : nat) (_ : Z), [0; 255] in
  Matcher_results 8 true 16 retrieve [[(0, 0, 0)%nat]] 0 15 = Ok (seqZ 8 8) ∧
  Matcher_results 8 true 16 retrieve [[(0, 0, 0)%nat]] 4 15 = Ok (seqZ 12 4).
Proof. by vm_compute. Qed.
