(* ===== verification/ChainIndexer.v ===== *)
(** * The chain indexer: blockchain/chain_indexer.go

    An indexer hands the sections of the canonical chain to a backend, one after the other,
    and keeps in its database how many sections are stored and the hash of the last block
    of each. The state of the indexer is what its lock protects; what the update loop does
    without the lock (reading the headers of a section) is a sequence of separate events,
    between which chain heads and reorganisations arrive, each header being read from the
    chain database of that moment. An indexer is a tree with the indexers that follow it. *)

From S2P Require Import Prelude RlpSpec RlpRaw RlpEncode RlpStream TrieNode Trie Merkletree Types ChainDb.
Local Open Scope Z_scope.

Abbreviation u64 := (wrap 64).

(** ** The interface of the backends *)

Class ChainIndexerBackend (B : Type) := {
  backend_Reset : Z → B → outcome unit B;
  backend_Process : Header → B → outcome unit B;
  backend_Commit : B → outcome unit (bool * B)
}.

Inductive index_error :=
  | errCanonicalUnknown (number : Z)
  | errBlockNotFound (number : Z) (hash : bytes)
  | errReorged
  | errCommit.

(** The section that the update loop works on without the lock: the header to read next,
    and the result once there is one. *)
Record Job := MkJob {
  j_section : Z;
  j_oldHead : bytes;
  j_number : Z;
  j_lastHead : bytes;
  j_result : option (index_error + bytes)
}.

Section Indexer.
Context {KC : Keccak} {B : Type} {BE : ChainIndexerBackend B}.

Record ChainIndexer := MkCI {
  ci_indexDb : gmap bytes bytes;
  ci_backend : B;
  ci_sectionSize : Z;
  ci_confirmsReq : Z;
  ci_storedSections : Z;
  ci_knownSections : Z;
  ci_cascadedHead : Z;
  ci_update : bool;
  ci_timers : nat;
  ci_job : option Job
}.

Definition set_known k c := MkCI (ci_indexDb c) (ci_backend c) (ci_sectionSize c) (ci_confirmsReq c) (ci_storedSections c) k (ci_cascadedHead c) (ci_update c) (ci_timers c) (ci_job c).
Definition set_cascaded h c := MkCI (ci_indexDb c) (ci_backend c) (ci_sectionSize c) (ci_confirmsReq c) (ci_storedSections c) (ci_knownSections c) h (ci_update c) (ci_timers c) (ci_job c).
Definition set_update u c := MkCI (ci_indexDb c) (ci_backend c) (ci_sectionSize c) (ci_confirmsReq c) (ci_storedSections c) (ci_knownSections c) (ci_cascadedHead c) u (ci_timers c) (ci_job c).
Definition set_timers n c := MkCI (ci_indexDb c) (ci_backend c) (ci_sectionSize c) (ci_confirmsReq c) (ci_storedSections c) (ci_knownSections c) (ci_cascadedHead c) (ci_update c) n (ci_job c).
Definition set_job j b c := MkCI (ci_indexDb c) b (ci_sectionSize c) (ci_confirmsReq c) (ci_storedSections c) (ci_knownSections c) (ci_cascadedHead c) (ci_update c) (ci_timers c) j.
Definition set_stored n db c := MkCI db (ci_backend c) (ci_sectionSize c) (ci_confirmsReq c) n (ci_knownSections c) (ci_cascadedHead c) (ci_update c) (ci_timers c) (ci_job c).

(** ** The index database *)

Definition countKey : bytes := ascii_bytes "count".
Definition sheadKey (section : Z) : bytes := ascii_bytes "shead" ++ be_fixed 8 section.

Definition loadValidSections (db : gmap bytes bytes) : Z :=
  let data := db_get db countKey in
  if (length data =? 8)%nat then be_val data else 0.

Definition sectionHead (db : gmap bytes bytes) (section : Z) : bytes :=
  let hash := db_get db (sheadKey section) in
  if (length hash =? 32)%nat then hash else zero_hash32.

Definition setSectionHead (section : Z) (hash : bytes) (db : gmap bytes bytes) : gmap bytes bytes := <[sheadKey section := hash]> db.
Definition removeSectionHead (section : Z) (db : gmap bytes bytes) : gmap bytes bytes := base.delete (sheadKey section) db.

(** The loop that removes the sections from [stored - 1] down. *)
Fixpoint remove_heads (n : nat) (stored : Z) (db : gmap bytes bytes) : gmap bytes bytes :=
  match n with
  | O => db
  | S n => remove_heads n (stored - 1) (removeSectionHead (stored - 1) db)
  end.

Definition setValidSections (sections : Z) c : ChainIndexer :=
  let db := <[countKey := be_fixed 8 sections]> (ci_indexDb c) in
  set_stored sections (remove_heads (Z.to_nat (ci_storedSections c - sections)) (ci_storedSections c) db) c.

(** ** New heads *)

(** What newHead does to the indexer itself, and the head it passes on. *)
Definition newHead_self (head : Z) (reorg : bool) c : outcome unit (ChainIndexer * option Z) :=
  let size := ci_sectionSize c in
  if size =? 0 then (if negb reorg && (head <? ci_confirmsReq c) then Ok (c, None) else Panic)
  else if reorg then
    let changed := head / size in
    let c := if changed <? ci_knownSections c then set_known changed c else c in
    let c := if changed <? ci_storedSections c then setValidSections changed c else c in
    let head := u64 (changed * size) in
    if head <? ci_cascadedHead c then Ok (set_cascaded head c, Some head) else Ok (c, None)
  else if ci_confirmsReq c <=? head then
    let sections := u64 (head + 1 - ci_confirmsReq c) / size in
    Ok (if ci_knownSections c <? sections then set_update true (set_known sections c) else c, None)
  else Ok (c, None).

(** An indexer with the indexers that follow it. *)
Inductive indexer := Indexer (c : ChainIndexer) (children : list indexer).

Fixpoint newHead (head : Z) (reorg : bool) (t : indexer) : outcome unit indexer :=
  match t with
  | Indexer c children =>
      let* (c, pass) := newHead_self head reorg c in
      match pass with
      | None => Ok (Indexer c children)
      | Some head =>
          let* children := (fix go l := match l with
                            | [] => Ok []
                            | t :: l => let* t := newHead head true t in let* l := go l in Ok (t :: l)
                            end) children in
          Ok (Indexer c children)
      end
  end.

Fixpoint newHeads (head : Z) (reorg : bool) (l : list indexer) : outcome unit (list indexer) :=
  match l with
  | [] => Ok []
  | t :: l => let* t := newHead head reorg t in let* l := newHeads head reorg l in Ok (t :: l)
  end.

Definition Sections c : Z * Z * bytes :=
  (ci_storedSections c, u64 (ci_storedSections c * ci_sectionSize c - 1),
   sectionHead (ci_indexDb c) (u64 (ci_storedSections c - 1))).

Definition AddChildIndexer (child t : indexer) : outcome unit indexer :=
  match t with
  | Indexer c children =>
      let* child := (if 0 <? ci_storedSections c
                     then newHead (u64 (ci_storedSections c * ci_sectionSize c - 1)) false child else Ok child) in
      Ok (Indexer c (children ++ [child]))
  end.

Definition NewChainIndexer (indexDb : gmap bytes bytes) (backend : B) (section confirm : Z) : indexer :=
  Indexer (MkCI indexDb backend section confirm (loadValidSections indexDb) 0 0 false 0 None) [].

(** ** Processing a section *)

(** The body of the loop of processSection. *)
Definition process_header (db : gmap bytes bytes) (number : Z) (lastHead : bytes) (b : B) : outcome index_error bytes * B :=
  let hash := GetCanonicalHash db number in
  if decide (hash = zero_hash32) then (Err (errCanonicalUnknown number), b)
  else match GetHeader db hash number with
       | None => (Err (errBlockNotFound number hash), b)
       | Some header =>
           if decide (h_ParentHash header = lastHead) then
             match backend_Process header b with
             | Ok b => match Header_Hash header with Ok h => (Ok h, b) | _ => (Panic, b) end
             | _ => (Panic, b)
             end
           else (Err errReorged, b)
       end.

Fixpoint process_headers (db : gmap bytes bytes) (n : nat) (number : Z) (lastHead : bytes) (b : B) : outcome index_error bytes * B :=
  match n with
  | O => (Ok lastHead, b)
  | S n => match process_header db number lastHead b with
           | (Ok h, b) => process_headers db n (number + 1) h b
           | r => r
           end
  end.

Definition commit_section (lastHead : bytes) (b : B) : outcome index_error bytes * B :=
  match backend_Commit b with
  | Ok (true, b) => (Ok lastHead, b)
  | Ok (false, b) => (Err errCommit, b)
  | _ => (Panic, b)
  end.

Definition processSection (db : gmap bytes bytes) (size section : Z) (lastHead : bytes) (b : B) : outcome index_error bytes * B :=
  match backend_Reset section b with
  | Ok b =>
      let start := u64 (section * size) in
      match process_headers db (Z.to_nat (u64 ((section + 1) * size) - start)) start lastHead b with
      | (Ok h, b) => commit_section h b
      | r => r
      end
  | _ => (Panic, b)
  end.

(** ** The update loop, as events *)

Inductive event :=
  | EvNewHead (head : Z) (reorg : bool)   (* newHead, from the event loop *)
  | EvUpdate                              (* a notification is taken and a section chosen *)
  | EvHeader (db : gmap bytes bytes)      (* the next header of the section is read and processed *)
  | EvCommit                              (* the backend commits the section *)
  | EvFinish                              (* the lock is taken again and the section stored *)
  | EvTimer                               (* the delayed notification *)
  | EvAddChild (child : indexer)
  | EvRestart (b : B).                    (* a new process with the same database *)

Definition start_section c : outcome unit ChainIndexer :=
  let c := set_update false c in
  if ci_storedSections c <? ci_knownSections c then
    let section := ci_storedSections c in
    let oldHead := if 0 <? section then sectionHead (ci_indexDb c) (section - 1) else zero_hash32 in
    let* b := backend_Reset section (ci_backend c) in
    Ok (set_job (Some (MkJob section oldHead (u64 (section * ci_sectionSize c)) oldHead None)) b c)
  else Ok c.

Definition set_result (r : index_error + bytes) (j : Job) : Job :=
  MkJob (j_section j) (j_oldHead j) (j_number j) (j_lastHead j) (Some r).

Definition read_header (db : gmap bytes bytes) (j : Job) c : outcome unit ChainIndexer :=
  match process_header db (j_number j) (j_lastHead j) (ci_backend c) with
  | (Ok h, b) => Ok (set_job (Some (MkJob (j_section j) (j_oldHead j) (j_number j + 1) h None)) b c)
  | (Err e, b) => Ok (set_job (Some (set_result (inl e) j)) b c)
  | (Panic, _) => Panic
  end.

Definition commit_job (j : Job) c : outcome unit ChainIndexer :=
  match commit_section (j_lastHead j) (ci_backend c) with
  | (Ok h, b) => Ok (set_job (Some (set_result (inr h) j)) b c)
  | (Err e, b) => Ok (set_job (Some (set_result (inl e) j)) b c)
  | (Panic, _) => Panic
  end.

(** The part of the loop after processSection; the head passed on to the children. *)
Definition finish_section (j : Job) (r : index_error + bytes) c : ChainIndexer * option Z :=
  let '(c, pass) :=
    match r with
    | inr newHead =>
        if decide (j_oldHead j = sectionHead (ci_indexDb c) (u64 (j_section j - 1))) then
          let c := set_stored (ci_storedSections c) (setSectionHead (j_section j) newHead (ci_indexDb c)) c in
          let c := setValidSections (u64 (j_section j + 1)) c in
          let head := u64 (ci_storedSections c * ci_sectionSize c - 1) in
          (set_cascaded head c, Some head)
        else (set_known (ci_storedSections c) c, None)
    | inl _ => (set_known (ci_storedSections c) c, None)
    end in
  let c := set_job None (ci_backend c) c in
  (if ci_storedSections c <? ci_knownSections c then set_timers (S (ci_timers c)) c else c, pass).

Definition at_end (j : Job) c : bool := u64 ((j_section j + 1) * ci_sectionSize c) <=? j_number j.

(** An event at the indexer itself; one that is not possible changes nothing. *)
Definition handle (ev : event) (t : indexer) : outcome unit indexer :=
  match t with
  | Indexer c children =>
      match ev, ci_job c with
      | EvNewHead head reorg, _ => newHead head reorg t
      | EvUpdate, None => if ci_update c then let* c := start_section c in Ok (Indexer c children) else Ok t
      | EvHeader db, Some (MkJob _ _ _ _ None as j) =>
          if at_end j c then Ok t else let* c := read_header db j c in Ok (Indexer c children)
      | EvCommit, Some (MkJob _ _ _ _ None as j) =>
          if at_end j c then let* c := commit_job j c in Ok (Indexer c children) else Ok t
      | EvFinish, Some (MkJob _ _ _ _ (Some r) as j) =>
          let '(c, pass) := finish_section j r c in
          match pass with
          | None => Ok (Indexer c children)
          | Some head => let* children := newHeads head false children in Ok (Indexer c children)
          end
      | EvTimer, _ =>
          match ci_timers c with
          | O => Ok t
          | S n => Ok (Indexer (set_update true (set_timers n c)) children)
          end
      | EvAddChild child, _ => AddChildIndexer child t
      | EvRestart b, _ =>
          Ok (Indexer (MkCI (ci_indexDb c) b (ci_sectionSize c) (ci_confirmsReq c) (loadValidSections (ci_indexDb c)) 0 0 false 0 None) children)
      | _, _ => Ok t
      end
  end.

(** An event at the indexer found by following [path] from the first one. *)
Fixpoint handle_at (path : list nat) (ev : event) (t : indexer) : outcome unit indexer :=
  match path, t with
  | [], _ => handle ev t
  | i :: path, Indexer c children =>
      match children !! i with
      | None => Ok t
      | Some child => let* child := handle_at path ev child in Ok (Indexer c (<[i := child]> children))
      end
  end.

Definition exec (evs : list (list nat * event)) (t : indexer) : outcome unit indexer :=
  oloop (λ e, handle_at e.1 e.2) evs t.

(** ** The event loop *)

Definition number_or_panic (h : Header) : outcome unit Z := big_Uint64 (h_Number h).
Definition hash_or_panic (h : Header) : outcome unit bytes := match Header_Hash h with Ok x => Ok x | _ => Panic end.

Fixpoint descend (fuel : nat) (db : gmap bytes bytes) (a : Header) (bn : Z) : outcome unit (option Header) :=
  match fuel with
  | O => Ok None
  | S fuel =>
      let* an := number_or_panic a in
      if bn <? an then
        match GetHeader db (h_ParentHash a) (u64 (an - 1)) with
        | None => Ok None
        | Some a => descend fuel db a bn
        end
      else Ok (Some a)
  end.

Fixpoint meet (fuel : nat) (db : gmap bytes bytes) (a b : Header) : outcome unit (option Header) :=
  match fuel with
  | O => Ok None
  | S fuel =>
      let* ah := hash_or_panic a in
      let* bh := hash_or_panic b in
      if decide (ah = bh) then Ok (Some a)
      else
        let* an := number_or_panic a in
        match GetHeader db (h_ParentHash a) (u64 (an - 1)) with
        | None => Ok None
        | Some a =>
            let* bn := number_or_panic b in
            match GetHeader db (h_ParentHash b) (u64 (bn - 1)) with
            | None => Ok None
            | Some b => meet fuel db a b
            end
        end
  end.

Definition FindCommonAncestor (fuel : nat) (db : gmap bytes bytes) (a b : Header) : outcome unit (option Header) :=
  let* bn := number_or_panic b in
  let* a := descend fuel db a bn in
  match a with
  | None => Ok None
  | Some a =>
      let* an := number_or_panic a in
      let* b := descend fuel db b an in
      match b with None => Ok None | Some b => meet fuel db a b end
  end.

(** The loop's turn for a chain event, with the previous header and its hash. *)
Definition eventLoop_event (fuel : nat) (db : gmap bytes bytes) (header prevHeader : Header) (prevHash : bytes) (t : indexer) :
    outcome unit (indexer * Header * bytes) :=
  let* t := (if decide (h_ParentHash header = prevHash) then Ok t
             else let* anc := FindCommonAncestor fuel db prevHeader header in
                  match anc with
                  | None => Panic
                  | Some h => let* n := number_or_panic h in newHead n true t
                  end) in
  let* n := number_or_panic header in
  let* t := newHead n false t in
  let* hash := hash_or_panic header in
  Ok (t, header, hash).
End Indexer.

Arguments ChainIndexer B : clear implicits.
Arguments indexer B : clear implicits.
Arguments event B : clear implicits.

(** ** The index database *)

Lemma sheadKey_inj s s' : 0 ≤ s < 2 ^ 64 → 0 ≤ s' < 2 ^ 64 → sheadKey s = sheadKey s' → s = s'.
Proof.
  unfold sheadKey. intros Hs Hs' E. apply app_inv_head in E. apply (f_equal be_val) in E.
  rewrite !be_val_fixed in E. change (256 ^ Z.of_nat 8) with (2 ^ 64) in E. by rewrite !Z.mod_small in E.
Qed.

Lemma sheadKey_count s : sheadKey s ≠ countKey.
Proof. intros E. apply (f_equal length) in E. unfold sheadKey in E. rewrite length_app, length_be_fixed in E. done. Qed.

Lemma sectionHead_insert db s s' h :
  0 ≤ s < 2 ^ 64 → 0 ≤ s' < 2 ^ 64 → length h = 32%nat →
  sectionHead (setSectionHead s h db) s' = if decide (s = s') then h else sectionHead db s'.
Proof.
  intros Hs Hs' Hh. unfold sectionHead, setSectionHead, db_get. destruct (decide (s = s')) as [->|Hne].
  - rewrite lookup_insert_eq. cbn. by rewrite Hh.
  - rewrite lookup_insert_ne; [done|]. intros E. by apply sheadKey_inj in E.
Qed.

Lemma sectionHead_delete db s s' :
  0 ≤ s < 2 ^ 64 → 0 ≤ s' < 2 ^ 64 →
  sectionHead (removeSectionHead s db) s' = if decide (s = s') then zero_hash32 else sectionHead db s'.
Proof.
  intros Hs Hs'. unfold sectionHead, removeSectionHead, db_get. destruct (decide (s = s')) as [->|Hne].
  - by rewrite lookup_delete_eq.
  - rewrite lookup_delete_ne; [done|]. intros E. by apply sheadKey_inj in E.
Qed.

Lemma sectionHead_count db x s : sectionHead (<[countKey := x]> db) s = sectionHead db s.
Proof. unfold sectionHead, db_get. rewrite lookup_insert_ne; [done|]. intros E. by eapply sheadKey_count. Qed.

Lemma load_insert db n : 0 ≤ n < 2 ^ 64 → loadValidSections (<[countKey := be_fixed 8 n]> db) = n.
Proof.
  intros Hn. unfold loadValidSections, db_get. rewrite lookup_insert_eq.
  change (default [] (Some (be_fixed 8 n))) with (be_fixed 8 n).
  rewrite length_be_fixed. cbn [Nat.eqb]. rewrite be_val_fixed. by apply Z.mod_small.
Qed.

Lemma load_shead db s x : loadValidSections (<[sheadKey s := x]> db) = loadValidSections db.
Proof. unfold loadValidSections, db_get. rewrite lookup_insert_ne; [done|]. apply sheadKey_count. Qed.

Lemma remove_heads_ok n stored db :
  Z.of_nat n ≤ stored < 2 ^ 64 →
  loadValidSections (remove_heads n stored db) = loadValidSections db ∧
  ∀ s, 0 ≤ s < 2 ^ 64 → sectionHead (remove_heads n stored db) s =
    if decide (stored - Z.of_nat n ≤ s < stored) then zero_hash32 else sectionHead db s.
Proof.
  revert stored db. induction n as [|n IH]; intros stored db Hn; cbn [remove_heads].
  - split; [done|]. intros s Hs. destruct (decide _); [lia|done].
  - destruct (IH (stored - 1) (removeSectionHead (stored - 1) db)) as [IL IH']; [lia|]. split.
    + rewrite IL. unfold loadValidSections, removeSectionHead, db_get. rewrite lookup_delete_ne; [done|]. apply sheadKey_count.
    + intros s Hs. rewrite IH', sectionHead_delete by lia.
      repeat destruct (decide _); first [done|lia].
Qed.

Section database.
Context {B : Type}.
Implicit Types c : ChainIndexer B.

(** The sections below the new number keep their heads, the others have none. *)
Lemma setValidSections_ok n c :
  0 ≤ n < 2 ^ 64 → 0 ≤ ci_storedSections c < 2 ^ 64 →
  loadValidSections (ci_indexDb (setValidSections n c)) = n ∧
  ∀ s, 0 ≤ s < 2 ^ 64 → sectionHead (ci_indexDb (setValidSections n c)) s =
    if decide (n ≤ s < ci_storedSections c) then zero_hash32 else sectionHead (ci_indexDb c) s.
Proof.
  intros Hn Hc. unfold setValidSections. cbn [ci_indexDb set_stored].
  destruct (remove_heads_ok (Z.to_nat (ci_storedSections c - n)) (ci_storedSections c) (<[countKey := be_fixed 8 n]> (ci_indexDb c))) as [HL HH]; [lia|].
  split; [by rewrite HL, load_insert|]. intros s Hs. rewrite HH, sectionHead_count by done.
  repeat destruct (decide _); first [done|lia].
Qed.
End database.

(** ** The invariant *)

Section invariant.
Context {KC : Keccak} {B : Type} {BE : ChainIndexerBackend B}.

(** What holds of every canonical header that is read. *)
Context (canonical : Z → Header → Prop).

(** A chain database whose canonical numbers lead to headers with these hashes. *)
Definition chain_ok (db : gmap bytes bytes) : Prop := ∀ n h,
  GetCanonicalHash db n ≠ zero_hash32 → GetHeader db (GetCanonicalHash db n) n = Some h →
  Header_Hash h = Ok (GetCanonicalHash db n) ∧ length (GetCanonicalHash db n) = 32%nat ∧ canonical n h.

(** Headers from number [n] on, each the child of the one before. *)
Fixpoint linked (prev : bytes) (n : Z) (hs : list Header) (last : bytes) : Prop :=
  match hs with
  | [] => prev = last
  | h :: hs => h_ParentHash h = prev ∧ canonical n h ∧
      ∃ hash, Header_Hash h = Ok hash ∧ hash ≠ zero_hash32 ∧ length hash = 32%nat ∧ linked hash (n + 1) hs last
  end.

Definition section_linked (size s : Z) (prev last : bytes) : Prop :=
  ∃ hs, Z.of_nat (length hs) = size ∧ linked prev (s * size) hs last.

Implicit Types c : ChainIndexer B.

Definition prev_head c (s : Z) : bytes := if s =? 0 then zero_hash32 else sectionHead (ci_indexDb c) (s - 1).

Definition job_ok c (j : Job) : Prop :=
  0 ≤ j_section j ∧ (j_section j + 1) * ci_sectionSize c < 2 ^ 64 ∧
  ci_storedSections c ≤ j_section j ∧
  (j_oldHead j = zero_hash32 ↔ j_section j = 0) ∧
  (ci_storedSections c = j_section j → j_oldHead j = prev_head c (j_section j)) ∧
  match j_result j with
  | None => ∃ hs, linked (j_oldHead j) (j_section j * ci_sectionSize c) hs (j_lastHead j) ∧
      j_number j = j_section j * ci_sectionSize c + Z.of_nat (length hs) ∧ Z.of_nat (length hs) ≤ ci_sectionSize c
  | Some (inl _) => True
  | Some (inr h) => section_linked (ci_sectionSize c) (j_section j) (j_oldHead j) h
  end.

Record indexer_ok c : Prop := {
  ok_size : 0 < ci_sectionSize c;
  ok_confirms : 0 ≤ ci_confirmsReq c;
  ok_stored : 0 ≤ ci_storedSections c ∧ ci_storedSections c * ci_sectionSize c < 2 ^ 64;
  ok_known : 0 ≤ ci_knownSections c ∧ ci_knownSections c * ci_sectionSize c < 2 ^ 64;
  ok_cascaded : 0 ≤ ci_cascadedHead c < 2 ^ 64 - 1;
  ok_count : loadValidSections (ci_indexDb c) = ci_storedSections c;
  ok_none : ∀ s, ci_storedSections c ≤ s < 2 ^ 64 → sectionHead (ci_indexDb c) s = zero_hash32;
  ok_linked : ∀ s, 0 ≤ s < ci_storedSections c → section_linked (ci_sectionSize c) s (prev_head c s) (sectionHead (ci_indexDb c) s);
  ok_job : ∀ j, ci_job c = Some j → job_ok c j
}.

(** The invariant of a tree of indexers. *)
Inductive tree_ok : indexer B → Prop :=
  | tree_ok_node c children : indexer_ok c → Forall tree_ok children → tree_ok (Indexer c children).

Lemma linked_last prev n hs last :
  linked prev n hs last → hs ≠ [] → last ≠ zero_hash32 ∧ length last = 32%nat.
Proof.
  revert prev n. induction hs as [|h hs IH]; intros prev n H Hne; [done|]. destruct H as (_ & _ & hash & _ & Hz & Hl & H).
  destruct hs as [|h' hs]; [cbn in H; by subst|]. by eapply IH.
Qed.

Lemma linked_snoc prev n hs last h hash :
  linked prev n hs last → h_ParentHash h = last → canonical (n + Z.of_nat (length hs)) h →
  Header_Hash h = Ok hash → hash ≠ zero_hash32 → length hash = 32%nat → linked prev n (hs ++ [h]) hash.
Proof.
  intros H Hp Hc Hh Hz Hl. revert prev n H Hc. induction hs as [|x hs IH]; intros prev n H Hc.
  - cbn in *. subst. rewrite Z.add_0_r in Hc. split; [done|]. split; [done|]. by exists hash.
  - destruct H as (Hp' & Hc' & hash' & Hh' & Hz' & Hl' & H). cbn [app linked]. split; [done|]. split; [done|]. exists hash'.
    split_and!; [done..|]. apply IH; [done|]. cbn [length] in Hc. by replace (n + 1 + Z.of_nat (length hs)) with (n + Z.of_nat (S (length hs))) by lia.
Qed.

Lemma section_linked_last size s prev last :
  0 < size → section_linked size s prev last → last ≠ zero_hash32 ∧ length last = 32%nat.
Proof. intros Hs (hs & Hl & H). eapply linked_last; [done|]. destruct hs; [cbn in Hl; lia|done]. Qed.

(** The sections of an indexer fit into 64 bits. *)
Lemma small_section s size : 0 < size → s * size < 2 ^ 64 → s < 2 ^ 64.
Proof. nia. Qed.

Lemma prev_head_ext c c' s :
  0 ≤ s < 2 ^ 64 → (∀ k, 0 ≤ k < s → sectionHead (ci_indexDb c') k = sectionHead (ci_indexDb c) k) → prev_head c' s = prev_head c s.
Proof. intros Hs H. unfold prev_head. destruct (Z.eqb_spec s 0); [done|]. apply H. lia. Qed.

(** Dropping the sections from [n] on. *)
Lemma setValidSections_keeps n c :
  indexer_ok c → 0 ≤ n < ci_storedSections c → indexer_ok (setValidSections n c).
Proof.
  intros [Hs Hc [Hst Hst'] Hk Hcs Hcnt Hnone Hlk Hj] Hn.
  pose proof (small_section _ _ Hs Hst') as Hlt.
  destruct (setValidSections_ok n c) as [HL HH]; [lia..|].
  split; unfold setValidSections in *; cbn [ci_sectionSize ci_confirmsReq ci_storedSections ci_knownSections ci_cascadedHead ci_indexDb ci_job set_stored] in *; try done.
  - nia.
  - intros s Hs'. rewrite HH by lia. destruct (decide _); [done|]. apply Hnone. lia.
  - intros s Hs'. assert (∀ k, 0 ≤ k < n → sectionHead (remove_heads (Z.to_nat (ci_storedSections c - n)) (ci_storedSections c) (<[countKey:=be_fixed 8 n]> (ci_indexDb c))) k = sectionHead (ci_indexDb c) k) as HE.
    { intros k Hk'. rewrite HH by lia. destruct (decide _); [lia|done]. }
    rewrite HE by lia. rewrite (prev_head_ext c) by (cbn; intros; first [lia|apply HE; lia]). apply Hlk. lia.
  - intros j Ej. destruct (Hj j Ej) as (J1 & J2 & J3 & J4 & J5 & J6). unfold job_ok. cbn [ci_sectionSize ci_storedSections set_stored].
    do 2 (split; [done|]). split; [lia|]. split; [done|]. split; [lia|done].
Qed.

(** The other fields matter only for their ranges. *)
Lemma indexer_ok_ext c c' :
  indexer_ok c → ci_indexDb c' = ci_indexDb c → ci_sectionSize c' = ci_sectionSize c → ci_confirmsReq c' = ci_confirmsReq c →
  ci_storedSections c' = ci_storedSections c →
  0 ≤ ci_knownSections c' ∧ ci_knownSections c' * ci_sectionSize c < 2 ^ 64 → 0 ≤ ci_cascadedHead c' < 2 ^ 64 - 1 →
  (∀ j, ci_job c' = Some j → job_ok c j) → indexer_ok c'.
Proof.
  intros [Hs Hc Hst Hk Hcs Hcnt Hnone Hlk Hj] E1 E2 E3 E4 Hk' Hcs' Hj'.
  assert (∀ s, prev_head c' s = prev_head c s) as Ep by (intros; unfold prev_head; by rewrite E1).
  split; rewrite ?E1, ?E2, ?E3, ?E4; try done.
  - intros s Hs'. rewrite Ep. by apply Hlk.
  - intros j Ej. destruct (Hj' j Ej) as (J1 & J2 & J3 & J4 & J5 & J6). unfold job_ok. rewrite E2, E4, Ep. done.
Qed.

Lemma newHead_self_ok head reorg c c' pass :
  indexer_ok c → 0 ≤ head < 2 ^ 64 - 1 → newHead_self head reorg c = Ok (c', pass) →
  indexer_ok c' ∧ ∀ h, pass = Some h → 0 ≤ h < 2 ^ 64 - 1.
Proof.
  intros Hok Hh. pose proof Hok as [Hs Hc [Hst Hst'] [Hk Hk'] Hcs Hcnt Hnone Hlk Hj]. unfold newHead_self.
  destruct (Z.eqb_spec (ci_sectionSize c) 0); [lia|]. destruct reorg.
  - set (changed := head / ci_sectionSize c). pose proof (Z.div_mod head (ci_sectionSize c)) as Hdm.
    pose proof (Z.mod_pos_bound head (ci_sectionSize c) Hs). fold changed in Hdm.
    assert (0 ≤ changed) by (apply Z.div_pos; lia).
    rewrite (wrap_small 64) by nia. set (c1 := if changed <? ci_knownSections c then set_known changed c else c).
    assert (indexer_ok c1 ∧ ci_sectionSize c1 = ci_sectionSize c ∧ ci_cascadedHead c1 = ci_cascadedHead c) as (H1 & E1 & E1').
    { unfold c1. destruct (Z.ltb_spec changed (ci_knownSections c)); [|done]. split; [|done].
      eapply indexer_ok_ext; eauto. cbn. nia. }
    set (c2 := if changed <? ci_storedSections c1 then setValidSections changed c1 else c1).
    assert (indexer_ok c2 ∧ ci_sectionSize c2 = ci_sectionSize c ∧ ci_cascadedHead c2 = ci_cascadedHead c) as (H2 & E2 & E2').
    { unfold c2. destruct (Z.ltb_spec changed (ci_storedSections c1)); [|done]. split; [|done].
      by apply setValidSections_keeps. }
    destruct (Z.ltb_spec (changed * ci_sectionSize c) (ci_cascadedHead c2)); intros [= <- <-]; [|done].
    split; [|intros ? [= <-]; nia]. destruct H2 as [? ? ? ? ? ? ? ? Hj2]. 
    eapply indexer_ok_ext; [by split|done..|cbn; nia|done].
  - destruct (Z.leb_spec (ci_confirmsReq c) head); intros [= <- <-]; [|done]. split; [|done].
    rewrite (wrap_small 64) by lia. destruct (Z.ltb_spec (ci_knownSections c) ((head + 1 - ci_confirmsReq c) / ci_sectionSize c)); [|done].
    eapply indexer_ok_ext; eauto. cbn. split; [lia|].
    pose proof (Z.mul_div_le (head + 1 - ci_confirmsReq c) (ci_sectionSize c) Hs). lia.
Qed.

Lemma indexer_induction (P : indexer B → Prop) :
  (∀ c children, Forall P children → P (Indexer c children)) → ∀ t, P t.
Proof. intros H. fix IH 1. intros [c children]. apply H. induction children; constructor; auto. Qed.

Lemma newHead_eq head reorg c children :
  newHead head reorg (Indexer c children) =
  let* (c, pass) := newHead_self head reorg c in
  match pass with
  | None => Ok (Indexer c children)
  | Some head => let* children := newHeads head true children in Ok (Indexer c children)
  end.
Proof.
  cbn [newHead]. destruct (newHead_self head reorg c) as [[c' [h|]]| |]; [|done..]. cbn [obind]. f_equal.
  induction children as [|t l IH]; [done|]. cbn [newHeads]. destruct (newHead h true t); [|done..]. cbn [obind]. by rewrite IH.
Qed.

Lemma newHeads_ok head reorg l l' :
  Forall (λ t, ∀ head reorg t', tree_ok t → 0 ≤ head < 2 ^ 64 - 1 → newHead head reorg t = Ok t' → tree_ok t') l →
  Forall tree_ok l → 0 ≤ head < 2 ^ 64 - 1 → newHeads head reorg l = Ok l' → Forall tree_ok l'.
Proof.
  intros H. revert l'. induction H as [|t l Ht Hl IH]; intros l' Hok Hh E; cbn [newHeads] in E; [by simplify_eq|].
  inversion_clear Hok. destruct (newHead head reorg t) as [t1| |] eqn:E1; try done. cbn [obind] in E.
  destruct (newHeads head reorg l) as [l1| |]; try done. cbn [obind] in E. simplify_eq. constructor; eauto.
Qed.

Lemma newHead_ok head reorg t t' :
  tree_ok t → 0 ≤ head < 2 ^ 64 - 1 → newHead head reorg t = Ok t' → tree_ok t'.
Proof.
  revert head reorg t'. induction t as [c children IH] using indexer_induction. intros head reorg t' Ht Hh E.
  inversion_clear Ht as [? ? Hc Hcs]. rewrite newHead_eq in E.
  destruct (newHead_self head reorg c) as [[c' pass]| |] eqn:Es; try done. cbn [obind] in E.
  destruct (newHead_self_ok _ _ _ _ _ Hc Hh Es) as [Hc' Hp]. destruct pass as [h|]; [|simplify_eq; by constructor].
  destruct (newHeads h true children) as [l| |] eqn:El; try done. cbn [obind] in E. simplify_eq. constructor; [done|].
  exact (newHeads_ok h true children l IH Hcs (Hp h eq_refl) El).
Qed.

Lemma newHeads_all_ok head reorg l l' :
  Forall tree_ok l → 0 ≤ head < 2 ^ 64 - 1 → newHeads head reorg l = Ok l' → Forall tree_ok l'.
Proof. apply newHeads_ok. apply Forall_true. intros t h r t'. apply newHead_ok. Qed.

(** ** Processing keeps the invariant *)

Lemma start_section_ok c c' : indexer_ok c → ci_job c = None → start_section c = Ok c' → indexer_ok c'.
Proof.
  intros Hok Hn. pose proof Hok as [Hs Hc [Hst Hst'] [Hk Hk'] Hcs Hcnt Hnone Hlk Hj]. unfold start_section.
  cbn [set_update ci_storedSections ci_knownSections ci_indexDb ci_sectionSize ci_backend].
  destruct (Z.ltb_spec (ci_storedSections c) (ci_knownSections c)); [|intros [= <-]; eapply indexer_ok_ext; eauto].
  destruct (backend_Reset _ _) as [b| |]; try done. cbn [obind]. intros [= <-].
  eapply indexer_ok_ext; eauto. intros j [= <-]. unfold job_ok.
  cbn [j_section j_oldHead j_number j_lastHead j_result]. rewrite (wrap_small 64) by nia.
  split; [done|]. split; [nia|]. split; [lia|]. unfold prev_head. split; [|split].
  - destruct (Z.ltb_spec 0 (ci_storedSections c)); [|naive_solver lia]. split; [|lia]. intros E.
    destruct (section_linked_last _ _ _ _ Hs (Hlk (ci_storedSections c - 1) ltac:(lia))) as [Hz _]. done.
  - intros _. destruct (Z.ltb_spec 0 (ci_storedSections c)), (Z.eqb_spec (ci_storedSections c) 0); first [done|lia].
  - exists []. cbn. split; [done|]. lia.
Qed.

Lemma process_header_ok db number last b hash b' :
  chain_ok db → process_header db number last b = (Ok hash, b') →
  ∃ h, h_ParentHash h = last ∧ canonical number h ∧ Header_Hash h = Ok hash ∧ hash ≠ zero_hash32 ∧ length hash = 32%nat.
Proof.
  intros Hdb. unfold process_header. destruct (decide _) as [|Hz]; [done|]. destruct (GetHeader _ _ _) as [h|] eqn:Eh; [|done].
  destruct (Hdb number h Hz Eh) as (Hh & Hl & Hc). destruct (decide _) as [Hp|]; [|done].
  destruct (backend_Process h b) as [b1| |]; try done. rewrite Hh. intros [= <- <-]. by exists h.
Qed.

Lemma read_header_ok db j c c' :
  chain_ok db → indexer_ok c → ci_job c = Some j → j_result j = None → at_end j c = false →
  read_header db j c = Ok c' → indexer_ok c'.
Proof.
  intros Hdb Hok Ej Er Ha. pose proof (ok_job _ Hok j Ej) as (J1 & J2 & J3 & J4 & J5 & J6). rewrite Er in J6. destruct J6 as (hs & Hlk & Hn & Hl).
  pose proof (ok_size _ Hok). pose proof (ok_known _ Hok). pose proof (ok_cascaded _ Hok).
  unfold at_end in Ha. rewrite (wrap_small 64) in Ha by nia. apply Z.leb_gt in Ha. unfold read_header.
  destruct (process_header db (j_number j) (j_lastHead j) (ci_backend c)) as [[hash|e|] b] eqn:E; intros [= <-].
  - destruct (process_header_ok _ _ _ _ _ _ Hdb E) as (h & Hp & Hc & Hh & Hz & H32).
    eapply indexer_ok_ext; eauto. intros j' [= <-]. unfold job_ok. cbn [j_section j_oldHead j_number j_lastHead j_result].
    do 5 (split; [done|]). exists (hs ++ [h]). rewrite length_app. cbn [length]. split; [|lia].
    eapply linked_snoc; eauto. by rewrite <-Hn.
  - eapply indexer_ok_ext; eauto. intros j' [= <-]. done.
Qed.

Lemma commit_job_ok j c c' :
  indexer_ok c → ci_job c = Some j → j_result j = None → at_end j c = true →
  commit_job j c = Ok c' → indexer_ok c'.
Proof.
  intros Hok Ej Er Ha. pose proof (ok_job _ Hok j Ej) as (J1 & J2 & J3 & J4 & J5 & J6). rewrite Er in J6. destruct J6 as (hs & Hlk & Hn & Hl).
  pose proof (ok_size _ Hok). pose proof (ok_known _ Hok). pose proof (ok_cascaded _ Hok).
  unfold at_end in Ha. rewrite (wrap_small 64) in Ha by nia. apply Z.leb_le in Ha. unfold commit_job, commit_section.
  destruct (backend_Commit (ci_backend c)) as [[[|] b]| |]; intros [= <-]; (eapply indexer_ok_ext; eauto); intros j' [= <-]; [|done].
  unfold job_ok. cbn [j_section j_oldHead j_result set_result]. do 5 (split; [done|]). exists hs. split; [lia|done].
Qed.

(** Storing the section that follows the stored ones. *)
Lemma store_section_ok c s h b head :
  indexer_ok c → ci_storedSections c = s → (s + 1) * ci_sectionSize c < 2 ^ 64 → 0 ≤ head < 2 ^ 64 - 1 →
  section_linked (ci_sectionSize c) s (prev_head c s) h →
  indexer_ok (set_job None b (set_cascaded head
    (setValidSections (s + 1) (set_stored (ci_storedSections c) (setSectionHead s h (ci_indexDb c)) c)))).
Proof.
  intros [Hs Hc [Hst Hst'] Hk Hcs Hcnt Hnone Hlk Hj] <- Hb Hh Hsec. set (s := ci_storedSections c) in *.
  pose proof (small_section _ _ Hs Hb) as Hlt. destruct (section_linked_last _ _ _ _ Hs Hsec) as [_ H32].
  destruct (setValidSections_ok (s + 1) (set_stored s (setSectionHead s h (ci_indexDb c)) c)) as [HL HH]; [lia|cbn; lia|].
  cbn [set_stored ci_storedSections ci_indexDb] in HH. fold s in HH.
  assert (∀ k, 0 ≤ k < 2 ^ 64 → sectionHead (ci_indexDb (setValidSections (s + 1) (set_stored s (setSectionHead s h (ci_indexDb c)) c))) k =
    if decide (s = k) then h else sectionHead (ci_indexDb c) k) as HE.
  { intros k Hk'. rewrite HH, sectionHead_insert by lia. destruct (decide (s + 1 ≤ k < s)); [lia|done]. }
  split; try done; cbn [set_job set_cascaded ci_indexDb ci_storedSections ci_sectionSize]; change (ci_storedSections (setValidSections _ _)) with (s + 1);
    change (ci_sectionSize (setValidSections _ _)) with (ci_sectionSize c).
  - lia.
  - intros k Hk'. rewrite HE by lia. destruct (decide _); [lia|]. apply Hnone. fold s. lia.
  - intros k Hk'. rewrite HE by lia.
    rewrite (prev_head_ext c) by first [lia|intros i Hi; cbn [set_job set_cascaded ci_indexDb]; rewrite HE by lia; destruct (decide (s = i)); [lia|done]].
    destruct (decide _) as [<-|]; [done|]. apply Hlk. fold s. lia.
Qed.

(** At the end of a section nothing has been dropped when the head before it is still there. *)
Lemma same_section j c :
  indexer_ok c → job_ok c j → j_oldHead j = sectionHead (ci_indexDb c) (u64 (j_section j - 1)) → ci_storedSections c = j_section j.
Proof.
  intros Hok (J1 & J2 & J3 & J4 & _) E. pose proof (ok_stored _ Hok) as [Hst _]. pose proof (small_section _ _ (ok_size _ Hok) J2) as Hlt.
  destruct (decide (j_section j = 0)) as [|Hne]; [lia|]. rewrite (wrap_small 64) in E by lia.
  destruct (decide (ci_storedSections c = j_section j)) as [|Hst']; [done|].
  rewrite (ok_none _ Hok) in E by lia. apply J4 in E. done.
Qed.

Lemma finish_section_ok j r c c' pass :
  indexer_ok c → ci_job c = Some j → j_result j = Some r → finish_section j r c = (c', pass) →
  indexer_ok c' ∧ ∀ h, pass = Some h → 0 ≤ h < 2 ^ 64 - 1.
Proof.
  intros Hok Ej Er. pose proof (ok_job _ Hok j Ej) as Hj. pose proof Hj as (J1 & J2 & J3 & J4 & J5 & J6). rewrite Er in J6.
  pose proof (ok_size _ Hok) as Hs. pose proof (ok_stored _ Hok) as [Hst Hst']. pose proof (ok_cascaded _ Hok) as Hcs.
  unfold finish_section.
  assert (∀ c1 b, indexer_ok c1 → ci_job c1 = None → indexer_ok (if ci_storedSections c1 <? ci_knownSections c1 then set_timers b c1 else c1)) as Ht.
  { intros c1 b H1 Hn. destruct (_ <? _); [|done]. apply (indexer_ok_ext c1 _ H1); try done; [apply (ok_known _ H1)|apply (ok_cascaded _ H1)|apply (ok_job _ H1)]. }
  assert (indexer_ok (set_job None (ci_backend c) (set_known (ci_storedSections c) c))) as Hfail.
  { eapply indexer_ok_ext; eauto. done. }
  destruct r as [e|h]; [intros [= <- <-]; split; [exact (Ht _ _ Hfail eq_refl)|done]|].
  destruct (decide _) as [E|]; [|intros [= <- <-]; split; [exact (Ht _ _ Hfail eq_refl)|done]].
  pose proof (same_section _ _ Hok Hj E) as Es. specialize (J5 Es). pose proof (small_section _ _ Hs J2) as Hlt.
  rewrite (wrap_small 64 (j_section j + 1)) by lia.
  change (ci_storedSections (setValidSections (j_section j + 1) _)) with (j_section j + 1).
  change (ci_sectionSize (setValidSections (j_section j + 1) _)) with (ci_sectionSize c).
  rewrite (wrap_small 64) by nia. intros [= <- <-]. rewrite J5 in J6. split; [|intros ? [= <-]; nia].
  refine (Ht (set_job None _ _) _ _ eq_refl). apply store_section_ok; (done || nia).
Qed.

Lemma restart_ok c b :
  indexer_ok c → indexer_ok (MkCI (ci_indexDb c) b (ci_sectionSize c) (ci_confirmsReq c) (loadValidSections (ci_indexDb c)) 0 0 false 0 None).
Proof.
  intros Hok. eapply indexer_ok_ext; [exact Hok|done|done|done|cbn; apply (ok_count _ Hok)|cbn; lia|cbn; lia|done].
Qed.

(** What is asked of the events. *)
Definition event_ok (ev : event B) : Prop :=
  match ev with
  | EvNewHead head _ => 0 ≤ head < 2 ^ 64 - 1
  | EvHeader db => chain_ok db
  | EvAddChild child => tree_ok child
  | _ => True
  end.

Lemma AddChildIndexer_ok child t t' : tree_ok child → tree_ok t → AddChildIndexer child t = Ok t' → tree_ok t'.
Proof.
  intros Hch. destruct 1 as [c children Hc Hcs]. unfold AddChildIndexer. pose proof (ok_stored _ Hc). pose proof (ok_size _ Hc).
  assert (∀ child', tree_ok child' → tree_ok (Indexer c (children ++ [child']))) as Happ.
  { intros child' H'. constructor; [done|]. apply Forall_app. split; [done|]. by constructor. }
  destruct (Z.ltb_spec 0 (ci_storedSections c)); [|intros [= <-]; by apply Happ].
  destruct (newHead _ _ child) as [child'| |] eqn:E; try done. intros [= <-]. apply Happ.
  rewrite (wrap_small 64) in E by nia. eapply newHead_ok; [exact Hch| |exact E]. nia.
Qed.

Lemma handle_ok ev t t' : event_ok ev → tree_ok t → handle ev t = Ok t' → tree_ok t'.
Proof.
  intros Hev Ht. pose proof Ht as Ht0. destruct Ht as [c children Hc Hcs]. unfold handle.
  assert (∀ c1, indexer_ok c1 → tree_ok (Indexer c1 children)) as Hnode by (intros; by constructor).
  destruct ev as [head reorg| |db| | | |child|b].
  - by apply newHead_ok.
  - destruct (ci_job c) eqn:Ej; [by intros [= <-]|]. destruct (ci_update c); [|by intros [= <-]].
    destruct (start_section c) as [c1| |] eqn:E; try done. intros [= <-]. apply Hnode. by eapply start_section_ok.
  - destruct (ci_job c) as [[j1 j2 j3 j4 [r|]]|] eqn:Ej; try by intros [= <-]. destruct (at_end _ _) eqn:Ea; [by intros [= <-]|].
    destruct (read_header _ _ _) as [c1| |] eqn:E; try done. intros [= <-]. apply Hnode. by eapply read_header_ok.
  - destruct (ci_job c) as [[j1 j2 j3 j4 [r|]]|] eqn:Ej; try by intros [= <-]. destruct (at_end _ _) eqn:Ea; [|by intros [= <-]].
    destruct (commit_job _ _) as [c1| |] eqn:E; try done. intros [= <-]. apply Hnode. by eapply commit_job_ok.
  - destruct (ci_job c) as [[j1 j2 j3 j4 [r|]]|] eqn:Ej; try by intros [= <-].
    destruct (finish_section _ _ _) as [c1 pass] eqn:E. destruct (finish_section_ok _ _ _ _ _ Hc Ej eq_refl E) as [H1 Hp].
    destruct pass as [h|]; [|intros [= <-]; by apply Hnode]. destruct (newHeads _ _ _) as [l| |] eqn:El; try done. intros [= <-].
    constructor; [done|]. exact (newHeads_all_ok _ _ _ _ Hcs (Hp h eq_refl) El).
  - destruct (ci_timers c) as [|n]; intros [= <-]; [done|]. apply Hnode.
    apply (indexer_ok_ext c _ Hc); try done; [apply (ok_known _ Hc)|apply (ok_cascaded _ Hc)|apply (ok_job _ Hc)].
  - by apply AddChildIndexer_ok.
  - intros [= <-]. by apply Hnode, restart_ok.
Qed.

Lemma handle_at_ok path ev t t' : event_ok ev → tree_ok t → handle_at path ev t = Ok t' → tree_ok t'.
Proof.
  intros Hev. revert t t'. induction path as [|i path IH]; intros t t' Ht; [by apply handle_ok|].
  pose proof Ht as Ht0. destruct Ht as [c children Hc Hcs]. cbn [handle_at]. destruct (children !! i) as [child|] eqn:Ei; [|by intros [= <-]].
  destruct (handle_at path ev child) as [child'| |] eqn:E; try done. intros [= <-]. constructor; [done|].
  apply Forall_insert; [done|]. eapply IH; [|exact E]. by eapply Forall_lookup_1.
Qed.

Lemma exec_ok evs t t' : Forall (λ e, event_ok e.2) evs → tree_ok t → exec evs t = Ok t' → tree_ok t'.
Proof.
  intros H. revert t. induction H as [|[path ev] evs Hev _ IH]; intros t Ht; unfold exec; cbn [oloop]; [by intros [= <-]|].
  destruct (handle_at _ _ t) as [t1| |] eqn:E; try done. cbn [obind]. apply IH. by eapply handle_at_ok.
Qed.
End invariant.

(** ** Catching up with the chain *)

(** What a backend that is fit for sections of this size promises: a section is accepted
    header by header and can be committed when it is complete, and then the next one can
    follow. *)
Class BackendLaws {KC : Keccak} (B : Type) {BE : ChainIndexerBackend B} (size : Z) (fit : B → Prop) (accepting : Z → Z → B → Prop) : Prop := {
  law_Reset s b : fit b → 0 ≤ s → (s + 1) * size < 2 ^ 64 → ∃ b', backend_Reset s b = Ok b' ∧ accepting s 0 b';
  law_Process s k h x b : accepting s k b → 0 ≤ k < size → h_Number h = Some (s * size + k) → Header_Hash h = Ok x →
    ∃ b', backend_Process h b = Ok b' ∧ accepting s (k + 1) b';
  law_Commit s b : accepting s size b → ∃ b', backend_Commit b = Ok (true, b') ∧ fit b'
}.

Section progress.
Context {KC : Keccak} {B : Type} {BE : ChainIndexerBackend B}.
Context (size : Z) (fit : B → Prop) (accepting : Z → Z → B → Prop) {laws : BackendLaws B size fit accepting}.
Context (canonical : Z → Header → Prop) (db : gmap bytes bytes).
Implicit Types c : ChainIndexer B.

(** The hash that header [n] has as its parent. *)
Definition parent_hash (n : Z) : bytes := if n =? 0 then zero_hash32 else GetCanonicalHash db (n - 1).

(** The canonical chain of [n] blocks is complete in the database. *)
Definition full_chain (n : Z) : Prop := ∀ k, 0 ≤ k < n →
  GetCanonicalHash db k ≠ zero_hash32 ∧ ∃ h, GetHeader db (GetCanonicalHash db k) k = Some h ∧
  Header_Hash h = Ok (GetCanonicalHash db k) ∧ h_Number h = Some k ∧ h_ParentHash h = parent_hash k.

(** The stored heads are those of the chain. *)
Definition heads_canonical c : Prop := ∀ s, 0 ≤ s < ci_storedSections c →
  sectionHead (ci_indexDb c) s = GetCanonicalHash db ((s + 1) * size - 1).

(** One turn of the update loop. *)
Definition section_turn : list (list nat * event B) :=
  [([], EvUpdate)] ++ replicate (Z.to_nat size) ([], EvHeader db) ++ [([], EvCommit); ([], EvFinish); ([], EvTimer)].

Lemma exec_app (evs1 evs2 : list (list nat * event B)) t : exec (evs1 ++ evs2) t = let* t := exec evs1 t in exec evs2 t.
Proof.
  revert t. unfold exec. induction evs1 as [|e evs1 IH]; intros t; [done|]. cbn [app oloop].
  destruct (handle_at e.1 e.2 t); [|done..]. cbn [obind]. apply IH.
Qed.

Lemma parent_next n : 0 ≤ n → parent_hash (n + 1) = GetCanonicalHash db n.
Proof. intros Hn. unfold parent_hash. destruct (Z.eqb_spec (n + 1) 0); [lia|]. f_equal. lia. Qed.

Lemma process_header_next s k n b :
  full_chain n → accepting s k b → 0 ≤ k < size → 0 ≤ s → s * size + k < n →
  ∃ b', process_header db (s * size + k) (parent_hash (s * size + k)) b = (Ok (parent_hash (s * size + k + 1)), b') ∧ accepting s (k + 1) b'.
Proof.
  intros Hf Ha Hk Hs Hn. destruct (Hf (s * size + k)) as (Hz & h & Hh & Hhash & Hnum & Hp); [nia|].
  destruct (law_Process s k h _ b Ha Hk Hnum Hhash) as (b' & Eb & Hb'). exists b'. split; [|done].
  unfold process_header. destruct (decide _); [done|]. rewrite Hh. destruct (decide _); [|done]. rewrite Eb, Hhash, parent_next by nia. done.
Qed.

(** processSection on a complete chain gives the hash of the section's last block. *)
Lemma process_headers_ok m s k n b :
  full_chain n → accepting s k b → Z.of_nat m = size - k → 0 ≤ k → 0 ≤ s → (s + 1) * size ≤ n →
  ∃ b', process_headers db m (s * size + k) (parent_hash (s * size + k)) b = (Ok (parent_hash ((s + 1) * size)), b') ∧ accepting s size b'.
Proof.
  intros Hf. revert k b. induction m as [|m IH]; intros k b Ha Hm Hk Hs Hn; cbn [process_headers].
  - exists b. assert (k = size) as -> by lia. split; [|done]. do 3 f_equal. lia.
  - destruct (process_header_next s k n b Hf Ha ltac:(lia) Hs ltac:(lia)) as (b1 & -> & Ha1).
    destruct (IH (k + 1) b1 Ha1) as (b2 & E & Ha2); [lia..|]. exists b2. split; [|done]. by rewrite <-E, Z.add_assoc.
Qed.

Lemma exec_headers m c children s k old n :
  full_chain n → (s + 1) * size ≤ n → n < 2 ^ 64 → 0 ≤ s → 0 < size →
  accepting s k (ci_backend c) → ci_sectionSize c = size → Z.of_nat m = size - k → 0 ≤ k →
  ci_job c = Some (MkJob s old (s * size + k) (parent_hash (s * size + k)) None) →
  ∃ b', exec (replicate m ([], EvHeader db)) (Indexer c children) =
    Ok (Indexer (set_job (Some (MkJob s old ((s + 1) * size) (parent_hash ((s + 1) * size)) None)) b' c) children) ∧ accepting s size b'.
Proof.
  intros Hf Hn Hn64 Hs Hsz. revert c k. induction m as [|m IH]; intros c k Ha Hc Hm Hk Ej.
  - exists (ci_backend c). assert (k = size) as -> by lia. split; [|done]. unfold exec. cbn [replicate oloop]. do 2 f_equal.
    replace ((s + 1) * size) with (s * size + size) by lia. destruct c. cbn in *. by rewrite Ej.
  - destruct (process_header_next s k n (ci_backend c) Hf Ha ltac:(lia) Hs ltac:(lia)) as (b1 & E1 & Ha1).
    unfold exec. cbn [replicate oloop fst snd handle_at]. unfold handle at 1. rewrite Ej.
    unfold at_end. cbn [j_section j_number]. rewrite Hc, (wrap_small 64) by nia.
    destruct (Z.leb_spec ((s + 1) * size) (s * size + k)); [lia|]. unfold read_header. cbn [j_number j_lastHead j_section j_oldHead]. rewrite E1. cbn [obind].
    destruct (IH (set_job (Some (MkJob s old (s * size + (k + 1)) (parent_hash (s * size + (k + 1))) None)) b1 c) (k + 1)) as (b2 & E2 & Ha2); [done|done|lia|lia|done|].
    exists b2. split; [|done]. rewrite <-Z.add_assoc. exact E2.
Qed.

Lemma newHead_total head reorg (t : indexer B) :
  tree_ok canonical t → ∃ t', newHead head reorg t = Ok t'.
Proof.
  revert head reorg. induction t as [c children IH] using indexer_induction. intros head reorg Ht. inversion_clear Ht as [? ? Hc Hcs].
  rewrite newHead_eq. pose proof (ok_size _ _ Hc).
  assert (∃ c' pass, newHead_self head reorg c = Ok (c', pass)) as (c' & pass & ->).
  { unfold newHead_self. destruct (Z.eqb_spec (ci_sectionSize c) 0); [lia|]. repeat case_match; eauto. }
  cbn [obind]. destruct pass as [h|]; [|eauto].
  assert (∃ l, newHeads h true children = Ok l) as [l ->]; [|by eexists].
  clear -IH Hcs. induction IH as [|t children Ht _ IHl]; [by exists []|]. inversion_clear Hcs as [|?? H1 H2].
  cbn [newHeads]. destruct (Ht h true H1) as [t' ->]. cbn [obind]. destruct (IHl H2) as [l ->]. by eexists.
Qed.

Lemma newHeads_total head reorg (l : list (indexer B)) : Forall (tree_ok canonical) l → ∃ l', newHeads head reorg l = Ok l'.
Proof.
  induction 1 as [|t l Ht _ IH]; [by exists []|]. cbn [newHeads]. destruct (newHead_total head reorg t Ht) as [t' ->]. cbn [obind].
  destruct IH as [l' ->]. by eexists.
Qed.

Lemma start_section_next c :
  indexer_ok canonical c → fit (ci_backend c) → ci_sectionSize c = size → heads_canonical c → ci_storedSections c < ci_knownSections c →
  ∃ b, let s := ci_storedSections c in
    start_section c = Ok (set_job (Some (MkJob s (parent_hash (s * size)) (s * size + 0) (parent_hash (s * size + 0)) None)) b (set_update false c)) ∧ accepting s 0 b.
Proof.
  intros Hok Hfit Hsz Hh Hlt. pose proof (ok_size _ _ Hok) as Hs. pose proof (ok_stored _ _ Hok) as [Hst Hst']. pose proof (ok_known _ _ Hok) as [_ Hk].
  rewrite Hsz in *. destruct (law_Reset (ci_storedSections c) (ci_backend c) Hfit) as (b & Eb & Ha); [done|nia|]. exists b. cbv zeta. split; [|done].
  unfold start_section. cbn [set_update ci_storedSections ci_knownSections ci_backend ci_indexDb ci_sectionSize].
  destruct (Z.ltb_spec (ci_storedSections c) (ci_knownSections c)); [|lia]. rewrite Eb. cbn [obind]. rewrite Hsz, (wrap_small 64), Z.add_0_r by lia.
  assert ((if 0 <? ci_storedSections c then sectionHead (ci_indexDb c) (ci_storedSections c - 1) else zero_hash32) =
    parent_hash (ci_storedSections c * size)) as ->; [|done].
  unfold parent_hash. destruct (Z.ltb_spec 0 (ci_storedSections c)), (Z.eqb_spec (ci_storedSections c * size) 0); try nia; [|done].
  rewrite Hh by lia. f_equal. lia.
Qed.

(** The last part of a turn: the section is stored and the next turn is announced. *)
Lemma finish_section_next c s old h :
  indexer_ok canonical c → ci_sectionSize c = size → ci_storedSections c = s → s < ci_knownSections c → heads_canonical c →
  old = parent_hash (s * size) → h = GetCanonicalHash db ((s + 1) * size - 1) → length h = 32%nat →
  ∃ c' head, finish_section (MkJob s old ((s + 1) * size) h (Some (inr h))) (inr h) c = (c', Some head) ∧
    ci_job c' = None ∧ ci_storedSections c' = s + 1 ∧ ci_knownSections c' = ci_knownSections c ∧ ci_sectionSize c' = size ∧
    ci_backend c' = ci_backend c ∧ heads_canonical c' ∧ (s + 1 < ci_knownSections c → ci_timers c' ≠ O).
Proof.
  intros Hok Hsz Hst Hlt Hh -> Hhash H32. pose proof (ok_size _ _ Hok) as Hs. pose proof (ok_stored _ _ Hok) as [Hst1 Hst2]. pose proof (ok_known _ _ Hok) as [_ Hk].
  rewrite Hsz in *. assert (s < 2 ^ 64 - 1) as Hs64 by nia. unfold finish_section. cbn [j_section j_oldHead].
  destruct (decide _) as [_|Hne].
  2: { destruct Hne. unfold parent_hash. destruct (Z.eqb_spec (s * size) 0).
       - assert (s = 0) as -> by nia. change (u64 (0 - 1)) with (2 ^ 64 - 1). rewrite (ok_none _ _ Hok); [done|lia].
       - assert (s ≠ 0) by nia. rewrite (wrap_small 64), Hh by lia. f_equal. lia. }
  rewrite (wrap_small 64 (s + 1)) by lia.
  set (c1 := set_stored (ci_storedSections c) (setSectionHead s h (ci_indexDb c)) c).
  destruct (setValidSections_ok (s + 1) c1) as [_ HH]; [lia|cbn; lia|].
  set (c2 := setValidSections (s + 1) c1) in *. eexists _, _. split; [done|].
  change (ci_storedSections (set_job None _ _)) with (s + 1). change (ci_knownSections (set_job None _ _)) with (ci_knownSections c).
  assert (∀ k, 0 ≤ k < s + 1 → sectionHead (ci_indexDb c2) k = GetCanonicalHash db ((k + 1) * size - 1)) as Hheads.
  { intros k Hk'. rewrite HH by lia. cbn [c1 set_stored ci_storedSections ci_indexDb]. rewrite sectionHead_insert by lia.
    destruct (decide (s + 1 ≤ k < ci_storedSections c)); [lia|]. destruct (decide _) as [<-|]; [done|]. apply Hh. lia. }
  destruct (Z.ltb_spec (s + 1) (ci_knownSections c)); (split_and!; [done..| |]); try done; try (intros; lia).
Qed.

(** An indexer that waits for the next turn of its update loop. *)
Record waiting (n : Z) c : Prop := {
  w_size : ci_sectionSize c = size;
  w_backend : fit (ci_backend c);
  w_job : ci_job c = None;
  w_heads : heads_canonical c;
  w_chain : full_chain n ∧ ci_knownSections c * size ≤ n < 2 ^ 64;
  w_update : ci_storedSections c < ci_knownSections c → ci_update c = true
}.

Definition turn_work : list (list nat * event B) :=
  [([], EvUpdate)] ++ replicate (Z.to_nat size) ([], EvHeader db) ++ [([], EvCommit)].

Lemma turn_split : section_turn = turn_work ++ [([], EvFinish); ([], EvTimer)].
Proof. unfold section_turn, turn_work. by rewrite <-!app_assoc. Qed.

Lemma turn_events_ok : chain_ok canonical db → Forall (λ e, event_ok canonical e.2) turn_work.
Proof.
  intros Hdb. unfold turn_work. constructor; [done|]. apply Forall_app. split; [by apply Forall_replicate|]. by repeat constructor.
Qed.

(** The part of a turn without the lock. *)
Lemma turn_work_ok n c children :
  indexer_ok canonical c → waiting n c → ci_storedSections c < ci_knownSections c →
  ∃ b, let s := ci_storedSections c in let last := parent_hash ((s + 1) * size) in
    exec turn_work (Indexer c children) =
    Ok (Indexer (set_job (Some (MkJob s (parent_hash (s * size)) ((s + 1) * size) last (Some (inr last)))) b (set_update false c)) children) ∧ fit b.
Proof.
  intros Hok [Hsz Hfit Hj Hh [Hf Hn] Hu] Hlt. pose proof (ok_size _ _ Hok) as Hs. pose proof (ok_stored _ _ Hok) as [Hst _]. rewrite Hsz in Hs.
  destruct (start_section_next c Hok Hfit Hsz Hh Hlt) as (b1 & E1 & A1). set (s := ci_storedSections c) in *. set (c1 := set_job _ b1 _) in E1.
  destruct (exec_headers (Z.to_nat size) c1 children s 0 (parent_hash (s * size)) n) as (b2 & E2 & A2); try done; try nia; [lia..|].
  destruct (law_Commit s b2 A2) as (b3 & E3 & F3). exists b3. cbv zeta. split; [|done]. unfold turn_work. rewrite exec_app.
  unfold exec at 1. cbn [oloop fst snd handle_at]. unfold handle at 1. rewrite Hj, (Hu Hlt), E1. cbn [obind].
  rewrite exec_app, E2. cbn [obind]. unfold exec. cbn [oloop fst snd handle_at handle set_job ci_job]. unfold at_end. cbn [j_section j_number ci_sectionSize c1 set_job set_update].
  rewrite Hsz, (wrap_small 64) by nia. rewrite Z.leb_refl. unfold commit_job, commit_section.
  cbn [set_job ci_backend j_lastHead]. by rewrite E3.
Qed.

Lemma section_turn_ok n c children :
  chain_ok canonical db → tree_ok canonical (Indexer c children) → waiting n c → ci_storedSections c < ci_knownSections c →
  ∃ c' children', exec section_turn (Indexer c children) = Ok (Indexer c' children') ∧
    tree_ok canonical (Indexer c' children') ∧ waiting n c' ∧
    ci_storedSections c' = ci_storedSections c + 1 ∧ ci_knownSections c' = ci_knownSections c.
Proof.
  intros Hdb Ht Hw Hlt. inversion Ht as [? ? Hok Hcs]; subst c0 children0. destruct (turn_work_ok n c children Hok Hw Hlt) as (b & Ework & Fb).
  destruct Hw as [Hsz _ Hj Hh [Hf Hn] Hu]. pose proof (ok_size _ _ Hok) as Hs. pose proof (ok_stored _ _ Hok) as [Hst _]. rewrite Hsz in Hs.
  cbv zeta in Ework. set (s := ci_storedSections c) in *. set (last := parent_hash ((s + 1) * size)) in *. set (c3 := set_job _ b _) in Ework.
  assert (last = GetCanonicalHash db ((s + 1) * size - 1)) as El.
  { unfold last, parent_hash. destruct (Z.eqb_spec ((s + 1) * size) 0); [nia|done]. }
  assert (length last = 32%nat) as H32.
  { destruct (Hf ((s + 1) * size - 1)) as (Hz & h & Hh' & _); [nia|]. rewrite El. by apply (Hdb _ h). }
  pose proof (exec_ok _ _ _ _ (turn_events_ok Hdb) Ht Ework) as Ht3. inversion Ht3 as [? ? Hok3 _]; subst c0 children0.
  destruct (finish_section_next c3 s (parent_hash (s * size)) last Hok3) as (c4 & head & E4 & J4 & S4 & K4 & Z4 & B4 & H4 & T4); try done.
  change (ci_backend c3) with b in B4. rewrite <-B4 in Fb.
  destruct (newHeads_total head false children Hcs) as [l El'].
  assert (∃ c', exec section_turn (Indexer c children) = Ok (Indexer c' l) ∧ waiting n c' ∧ ci_storedSections c' = s + 1 ∧
    ci_knownSections c' = ci_knownSections c) as (c' & E & Hw' & S' & K').
  { rewrite turn_split, exec_app, Ework. cbn [obind]. unfold exec. cbn [oloop fst snd handle_at]. unfold handle at 1.
    change (ci_job c3) with (Some (MkJob s (parent_hash (s * size)) ((s + 1) * size) last (Some (inr last)))). cbv iota beta. rewrite E4, El'. cbn [obind].
    change (ci_knownSections c3) with (ci_knownSections c) in *. rewrite <-K4 in Hn.
    cbn [handle]. destruct (ci_timers c4) as [|k] eqn:Et; (eexists; split; [done|]; split; [|done]).
    - split; [done..|]. rewrite S4, K4. intros Hlt'. by destruct (T4 Hlt').
    - by split. }
  exists c', l. split_and!; try done. eapply exec_ok; [|exact Ht|exact E]. rewrite turn_split. apply Forall_app.
  split; [by apply turn_events_ok|]. by repeat constructor.
Qed.

Lemma turns_ok k n c children :
  chain_ok canonical db → tree_ok canonical (Indexer c children) → waiting n c →
  ci_storedSections c + Z.of_nat k ≤ ci_knownSections c →
  ∃ c' children', exec (concat (replicate k section_turn)) (Indexer c children) = Ok (Indexer c' children') ∧
    tree_ok canonical (Indexer c' children') ∧ waiting n c' ∧
    ci_storedSections c' = ci_storedSections c + Z.of_nat k ∧ ci_knownSections c' = ci_knownSections c.
Proof.
  intros Hdb. revert c children. induction k as [|k IH]; intros c children Ht Hw Hk.
  - exists c, children. split_and!; try done. lia.
  - destruct (section_turn_ok n c children Hdb Ht Hw ltac:(lia)) as (c1 & l1 & E1 & T1 & W1 & S1 & K1).
    destruct (IH c1 l1 T1 W1) as (c2 & l2 & E2 & T2 & W2 & S2 & K2); [lia|]. exists c2, l2. cbn [replicate concat].
    rewrite exec_app, E1. cbn [obind]. split_and!; try done; lia.
Qed.
End progress.

(** ** No event panics *)

(** A backend that never panics. *)
Class BackendTotal (B : Type) {BE : ChainIndexerBackend B} : Prop := {
  total_Reset s b : ∃ b', backend_Reset s b = Ok b';
  total_Process h b : ∃ b', backend_Process h b = Ok b';
  total_Commit b : ∃ r, backend_Commit b = Ok r
}.

Section total.
Context {KC : Keccak} {B : Type} {BE : ChainIndexerBackend B} {BT : BackendTotal B} (canonical : Z → Header → Prop).
Implicit Types c : ChainIndexer B.

Lemma process_header_total db n last b : chain_ok canonical db → (process_header db n last b).1 ≠ Panic.
Proof.
  intros Hdb. unfold process_header. destruct (decide _) as [|Hz]; [done|]. destruct (GetHeader _ _ _) as [h|] eqn:Eh; [|done].
  destruct (Hdb n h Hz Eh) as (Hh & _). destruct (decide _); [|done]. destruct (total_Process h b) as [b' ->]. by rewrite Hh.
Qed.

Lemma handle_total ev (t : indexer B) : event_ok canonical ev → tree_ok canonical t → ∃ t', handle ev t = Ok t'.
Proof.
  intros Hev Ht. pose proof Ht as Ht0. destruct Ht as [c children Hc Hcs]. unfold handle.
  destruct ev as [head reorg| |db| | | |child|b].
  - by eapply newHead_total.
  - destruct (ci_job c); [eauto|]. destruct (ci_update c); [|eauto]. unfold start_section. cbv zeta.
    destruct (_ <? _); [|by eexists]. destruct (total_Reset (ci_storedSections (set_update false c)) (ci_backend (set_update false c))) as [b' ->]. by eexists.
  - destruct (ci_job c) as [[j1 j2 j3 j4 [r|]]|]; eauto. destruct (at_end _ _); [eauto|]. unfold read_header.
    pose proof (process_header_total db (j_number (MkJob j1 j2 j3 j4 None)) (j_lastHead (MkJob j1 j2 j3 j4 None)) (ci_backend c) Hev) as Hp.
    destruct (process_header _ _ _ _) as [[h|e|] b']; [by eexists..|done].
  - destruct (ci_job c) as [[j1 j2 j3 j4 [r|]]|]; eauto. destruct (at_end _ _); [|eauto]. unfold commit_job, commit_section.
    destruct (total_Commit (ci_backend c)) as [[[|] b'] ->]; by eexists.
  - destruct (ci_job c) as [[j1 j2 j3 j4 [r|]]|]; eauto. destruct (finish_section _ _ _) as [c' [h|]]; [|eauto].
    destruct (newHeads_total canonical h false children Hcs) as [l ->]. by eexists.
  - destruct (ci_timers c); eauto.
  - unfold AddChildIndexer. destruct (0 <? _); [|by eexists]. destruct (newHead_total canonical (u64 (ci_storedSections c * ci_sectionSize c - 1)) false child Hev) as [t' ->]. by eexists.
  - eauto.
Qed.

Lemma handle_at_total path ev (t : indexer B) : event_ok canonical ev → tree_ok canonical t → ∃ t', handle_at path ev t = Ok t'.
Proof.
  intros Hev. revert t. induction path as [|i path IH]; intros t Ht; [by apply handle_total|]. destruct Ht as [c children Hc Hcs].
  cbn [handle_at]. destruct (children !! i) as [child|] eqn:Ei; [|eauto]. destruct (IH child) as [t' ->]; [by eapply Forall_lookup_1|]. by eexists.
Qed.

Lemma exec_total evs (t : indexer B) :
  Forall (λ e, event_ok canonical e.2) evs → tree_ok canonical t → ∃ t', exec evs t = Ok t' ∧ tree_ok canonical t'.
Proof.
  intros H. revert t. induction H as [|[path ev] evs Hev _ IH]; intros t Ht; unfold exec; cbn [oloop fst snd]; [by exists t|].
  destruct (handle_at_total path ev t Hev Ht) as [t1 E1]. pose proof (handle_at_ok _ _ _ _ _ Hev Ht E1) as Ht1. rewrite E1. cbn [obind]. by apply IH.
Qed.

Lemma NewChainIndexer_ok (b : B) size confirm :
  0 < size → 0 ≤ confirm → tree_ok canonical (NewChainIndexer ∅ b size confirm).
Proof.
  intros Hs Hc. constructor; [|constructor]. assert (∀ k, db_get (∅ : gmap bytes bytes) k = []) as E by (intros k; unfold db_get; by rewrite lookup_empty).
  assert (loadValidSections ∅ = 0) as El by (unfold loadValidSections; by rewrite E).
  split; cbn [ci_sectionSize ci_confirmsReq ci_storedSections ci_knownSections ci_cascadedHead ci_indexDb ci_job]; rewrite ?El; try lia; done.
Qed.
End total.

(** ** Common ancestors *)

Section ancestors.
Context {KC : Keccak} (db : gmap bytes bytes).

(** Headers are stored under their numbers. *)
Definition headers_ok : Prop := ∀ hash n h, GetHeader db hash n = Some h →
  h_Number h = Some n ∧ 0 ≤ n < 2 ^ 64 - 1 ∧ ∃ x, Header_Hash h = Ok x.

Definition header_ok_at (h : Header) (n : Z) : Prop := h_Number h = Some n ∧ 0 ≤ n < 2 ^ 64 - 1 ∧ ∃ x, Header_Hash h = Ok x.

Inductive ancestor : Header → Header → Prop :=
  | ancestor_refl h : ancestor h h
  | ancestor_step h p x n : h_Number h = Some n → GetHeader db (h_ParentHash h) (n - 1) = Some p → ancestor p x → ancestor h x.

Lemma number_ok h n : header_ok_at h n → number_or_panic h = Ok n.
Proof. intros (E & Hn & _). unfold number_or_panic, big_Uint64. rewrite E, Z.abs_eq by lia. by rewrite (wrap_small 64) by lia. Qed.

Context (Hdb : headers_ok).

(** The parent of a header is the one with the number before. *)
Lemma parent_ok h n : header_ok_at h n →
  match GetHeader db (h_ParentHash h) (u64 (n - 1)) with
  | Some p => 0 < n ∧ header_ok_at p (n - 1) ∧ GetHeader db (h_ParentHash h) (n - 1) = Some p
  | None => True
  end.
Proof.
  intros (E & Hn & _). destruct (GetHeader _ _ _) as [p|] eqn:Ep; [|done]. pose proof (Hdb _ _ _ Ep) as (Np & Rp & Hp).
  destruct (decide (n = 0)) as [->|]; [change (u64 (0 - 1)) with (2 ^ 64 - 1) in *; lia|]. rewrite (wrap_small 64) in * by lia.
  split; [lia|]. by split.
Qed.

Lemma descend_ok h n k : header_ok_at h n → 0 ≤ k →
  ∃ r, (∀ fuel, (Z.to_nat n < fuel)%nat → descend fuel db h k = Ok r) ∧
    ∀ x, r = Some x → ancestor h x ∧ header_ok_at x (Z.min n k).
Proof.
  intros Hh Hk. remember (Z.to_nat n) as m eqn:Em. revert h n Hh Em. induction m as [m IH] using lt_wf_ind. intros h n Hh ->.
  pose proof Hh as (E & Hn & _). pose proof (parent_ok h n Hh) as Hp.
  assert (∀ fuel, descend (S fuel) db h k = if k <? n then match GetHeader db (h_ParentHash h) (u64 (n - 1)) with
    None => Ok None | Some a => descend fuel db a k end else Ok (Some h)) as Eq.
  { intros fuel. cbn [descend]. by rewrite (number_ok h n Hh). }
  destruct (Z.ltb_spec k n) as [Hlt|Hge].
  2: { exists (Some h). split; [intros [|fuel] Hf; [lia|apply Eq]|]. intros x [= <-]. split; [constructor|]. by replace (Z.min n k) with n by lia. }
  destruct (GetHeader db (h_ParentHash h) (u64 (n - 1))) as [p|].
  2: { exists None. split; [intros [|fuel] Hf; [lia|apply Eq]|done]. }
  destruct Hp as (Hpos & Hp & Ep). destruct (IH (Z.to_nat (n - 1)) ltac:(lia) p (n - 1) Hp eq_refl) as (r & Hr & Hx). exists r. split.
  - intros [|fuel] Hf; [lia|]. rewrite Eq. apply Hr. lia.
  - intros x Ex. destruct (Hx x Ex) as [Ha Hok]. split; [by eapply ancestor_step|]. by replace (Z.min n k) with (Z.min (n - 1) k) by lia.
Qed.

(** The headers meet in a common ancestor. *)
Definition common (a b x : Header) : Prop := ancestor a x ∧ ∃ y, ancestor b y ∧ Header_Hash x = Header_Hash y.

Lemma meet_ok a b n : header_ok_at a n → header_ok_at b n →
  ∃ r, (∀ fuel, (Z.to_nat n < fuel)%nat → meet fuel db a b = Ok r) ∧ ∀ x, r = Some x → common a b x ∧ ∃ k, header_ok_at x k.
Proof.
  intros Ha Hb. remember (Z.to_nat n) as m eqn:Em. revert a b n Ha Hb Em. induction m as [m IH] using lt_wf_ind. intros a b n Ha Hb ->.
  pose proof Ha as (Na & Hn & xa & Ea). pose proof Hb as (Nb & _ & xb & Eb). pose proof (parent_ok a n Ha) as Pa. pose proof (parent_ok b n Hb) as Pb.
  assert (∀ fuel, meet (S fuel) db a b = if decide (xa = xb) then Ok (Some a) else
    match GetHeader db (h_ParentHash a) (u64 (n - 1)), GetHeader db (h_ParentHash b) (u64 (n - 1)) with
    | Some a, Some b => meet fuel db a b | _, _ => Ok None end) as Eq.
  { intros fuel. cbn [meet]. unfold hash_or_panic. rewrite Ea, Eb. cbn [obind]. destruct (decide _); [done|].
    rewrite (number_ok a n Ha). cbn [obind]. destruct (GetHeader _ (h_ParentHash a) _); [|done]. by rewrite (number_ok b n Hb). }
  destruct (decide (xa = xb)) as [<-|Hne].
  { exists (Some a). split; [intros [|fuel] Hf; [lia|apply Eq]|]. intros x [= <-]. split; [|by exists n].
    split; [constructor|]. exists b. split; [constructor|congruence]. }
  destruct (GetHeader db (h_ParentHash a) _) as [a'|], (GetHeader db (h_ParentHash b) _) as [b'|];
    try (exists None; split; [intros [|fuel] Hf; [lia|apply Eq]|done]).
  destruct Pa as (Hpos & Ha' & Ga), Pb as (_ & Hb' & Gb).
  destruct (IH (Z.to_nat (n - 1)) ltac:(lia) a' b' (n - 1) Ha' Hb' eq_refl) as (r & Hr & Hx). exists r. split.
  - intros [|fuel] Hf; [lia|]. rewrite Eq. apply Hr. lia.
  - intros x Ex. destruct (Hx x Ex) as [[Hax (y & Hby & Ey)] Hk]. split; [|done].
    split; [by eapply ancestor_step|]. exists y. split; [by eapply ancestor_step|done].
Qed.

Lemma FindCommonAncestor_ok a an b bn :
  header_ok_at a an → header_ok_at b bn →
  ∃ r, (∀ fuel, (Z.to_nat (Z.max an bn) < fuel)%nat → FindCommonAncestor fuel db a b = Ok r) ∧
    ∀ x, r = Some x → common a b x ∧ ∃ k, header_ok_at x k.
Proof.
  intros Ha Hb. pose proof Ha as (_ & Hna & _). pose proof Hb as (_ & Hnb & _).
  destruct (descend_ok a an bn Ha ltac:(lia)) as (ra & Hra & Hxa). unfold FindCommonAncestor.
  destruct ra as [a'|]; [|exists None; split; [|done]; intros fuel Hf; rewrite (number_ok b bn Hb); cbn [obind]; by rewrite Hra by lia].
  destruct (Hxa a' eq_refl) as [Haa Ha']. destruct (descend_ok b bn (Z.min an bn) Hb ltac:(lia)) as (rb & Hrb & Hxb).
  destruct rb as [b'|].
  2: { exists None. split; [|done]. intros fuel Hf. rewrite (number_ok b bn Hb). cbn [obind]. rewrite Hra by lia. cbn [obind].
       rewrite (number_ok a' _ Ha'). cbn [obind]. by rewrite Hrb by lia. }
  destruct (Hxb b' eq_refl) as [Hbb Hb']. replace (Z.min bn (Z.min an bn)) with (Z.min an bn) in Hb' by lia.
  destruct (meet_ok a' b' _ Ha' Hb') as (r & Hr & Hx). exists r. split.
  - intros fuel Hf. rewrite (number_ok b bn Hb). cbn [obind]. rewrite Hra by lia. cbn [obind]. rewrite (number_ok a' _ Ha'). cbn [obind].
    rewrite Hrb by lia. apply Hr. lia.
  - intros x Ex. destruct (Hx x Ex) as [[Hax (y & Hby & Ey)] Hk]. split; [|done].
    assert (∀ u v w, ancestor u v → ancestor v w → ancestor u w) as Htr by (induction 1; eauto using ancestor).
    split; [by eapply Htr|]. exists y. split; [by eapply Htr|done].
Qed.
End ancestors.

(** What a new head does to the stored sections. *)
Lemma newHead_stored `{Keccak} {B} canonical head reorg (c : ChainIndexer B) children t :
  indexer_ok canonical c → 0 ≤ head → newHead head reorg (Indexer c children) = Ok t →
  ∃ c' children', t = Indexer c' children' ∧ ci_sectionSize c' = ci_sectionSize c ∧
    ci_storedSections c' = (if reorg then Z.min (ci_storedSections c) (head / ci_sectionSize c) else ci_storedSections c) ∧
    ∀ s, 0 ≤ s < ci_storedSections c' → sectionHead (ci_indexDb c') s = sectionHead (ci_indexDb c) s.
Proof.
  intros Hok Hh E. pose proof (ok_size _ _ Hok) as Hs. pose proof (ok_stored _ _ Hok) as [Hst Hst']. pose proof (small_section _ _ Hs Hst').
  assert (0 ≤ head / ci_sectionSize c) by (apply Z.div_pos; lia). rewrite newHead_eq in E.
  destruct (newHead_self head reorg c) as [[c' pass]| |] eqn:Es; try done. cbn [obind] in E.
  assert (∃ l, t = Indexer c' l) as [l ->].
  { destruct pass as [h|]; [destruct (newHeads h true children); try done|]; injection E as <-; by eexists. }
  exists c', l. split; [done|]. clear E. revert Es. unfold newHead_self. destruct (Z.eqb_spec (ci_sectionSize c) 0); [lia|]. destruct reorg.
  - set (changed := head / ci_sectionSize c) in *. set (c1 := if changed <? ci_knownSections c then set_known changed c else c).
    assert (ci_indexDb c1 = ci_indexDb c ∧ ci_storedSections c1 = ci_storedSections c ∧ ci_sectionSize c1 = ci_sectionSize c) as (E1 & E2 & E3)
      by (unfold c1; by destruct (_ <? _)).
    assert (∀ c2 pass h, (if h <? ci_cascadedHead c2 then Ok (set_cascaded h c2, Some h) else Ok (c2, None)) = (Ok (c', pass) : outcome unit _) →
      ci_sectionSize c' = ci_sectionSize c2 ∧ ci_storedSections c' = ci_storedSections c2 ∧ ci_indexDb c' = ci_indexDb c2) as Hcas
      by (intros c2 p h Ec; destruct (h <? ci_cascadedHead c2); simplify_eq; done).
    rewrite E2. destruct (Z.ltb_spec changed (ci_storedSections c)) as [Hlt|Hge]; intros Es; apply Hcas in Es as (Z2 & S2 & D2); rewrite Z2, S2, D2.
    + destruct (setValidSections_ok changed c1) as [_ HH]; [lia..|]. change (ci_storedSections (setValidSections changed c1)) with changed.
      change (ci_sectionSize (setValidSections changed c1)) with (ci_sectionSize c1). split; [done|]. split; [lia|].
      intros s Hs'. rewrite HH, E1 by lia. destruct (decide _); [lia|done].
    + rewrite E1, E2, E3. split; [done|]. split; [lia|done].
  - destruct (ci_confirmsReq c <=? head); [|by intros [= <- <-]]. destruct (_ <? _); by intros [= <- <-].
Qed.

(** ** Properties *)

(** C21: whatever heads, reorganisations, header reads, timers, new children and
    restarts arrive at an indexer and its children, and in whatever order, nothing panics with
    a backend that does not, and at every moment the number on disk is the number of stored
    sections, exactly these have a head on disk, and the sections are complete chains of
    headers that follow each other without a gap. *)
Theorem indexer_invariant `{Keccak} {B} `{ChainIndexerBackend B} `{!BackendTotal B} canonical evs (b : B) size confirm :
  0 < size → 0 ≤ confirm → Forall (λ e, event_ok canonical e.2) evs →
  ∃ c children, exec evs (NewChainIndexer ∅ b size confirm) = Ok (Indexer c children) ∧
    Forall (tree_ok canonical) children ∧
    loadValidSections (ci_indexDb c) = ci_storedSections c ∧
    (∀ s, ci_storedSections c ≤ s < 2 ^ 64 → sectionHead (ci_indexDb c) s = zero_hash32) ∧
    ∀ s, 0 ≤ s < ci_storedSections c →
      sectionHead (ci_indexDb c) s ≠ zero_hash32 ∧
      section_linked canonical (ci_sectionSize c) s (prev_head c s) (sectionHead (ci_indexDb c) s).
Proof.
  intros Hs Hc Hev. destruct (exec_total canonical evs _ Hev (NewChainIndexer_ok canonical b size confirm Hs Hc)) as (t & E & Ht).
  destruct Ht as [c children Hok Hcs]. exists c, children. destruct Hok as [Hs' _ _ _ _ Hcnt Hnone Hlk _]. split_and!; try done.
  intros s Hs1. split; [|by apply Hlk]. by apply (section_linked_last _ _ _ _ _ Hs' (Hlk s Hs1)).
Qed.

(** C22: on a complete chain the update loop catches up: with a backend that accepts the
    sections, the turns of the loop for the sections that are known and not stored store all
    of them, each with the hash of its last block. *)
Theorem indexer_catches_up `{Keccak} {B} `{ChainIndexerBackend B} size fit accepting `{!BackendLaws B size fit accepting}
    canonical db n (c : ChainIndexer B) children :
  chain_ok canonical db → tree_ok canonical (Indexer c children) → waiting size fit db n c →
  ci_storedSections c ≤ ci_knownSections c →
  ∃ c' children',
    exec (concat (replicate (Z.to_nat (ci_knownSections c - ci_storedSections c)) (section_turn size db))) (Indexer c children) =
      Ok (Indexer c' children') ∧
    tree_ok canonical (Indexer c' children') ∧
    ci_storedSections c' = ci_knownSections c ∧
    ∀ s, 0 ≤ s < ci_knownSections c → sectionHead (ci_indexDb c') s = GetCanonicalHash db ((s + 1) * size - 1).
Proof.
  intros Hdb Ht Hw Hle.
  destruct (turns_ok size fit accepting canonical db (Z.to_nat (ci_knownSections c - ci_storedSections c)) n c children Hdb Ht Hw) as (c' & l & E & T & W & S & K); [lia|].
  exists c', l. assert (ci_storedSections c' = ci_knownSections c) as E' by lia. split_and!; try done. rewrite <-E'. apply (w_heads _ _ _ _ _ W).
Qed.

(** A chain event: when the block does not follow the previous one, the sections before
    the one of a common ancestor of the two are kept and the others dropped, and without
    a common ancestor in the database the event loop panics. *)
Theorem chain_event_handled `{Keccak} {B} canonical fuel db (c : ChainIndexer B) children header hn prev pn prevHash :
  headers_ok db → header_ok_at header hn → header_ok_at prev pn → (Z.to_nat (Z.max pn hn) < fuel)%nat →
  tree_ok canonical (Indexer c children) →
  match eventLoop_event fuel db header prev prevHash (Indexer c children) with
  | Ok (Indexer c' children', h, hash) =>
      tree_ok canonical (Indexer c' children') ∧ h = header ∧ Header_Hash header = Ok hash ∧
      (∀ s, 0 ≤ s < ci_storedSections c' → sectionHead (ci_indexDb c') s = sectionHead (ci_indexDb c) s) ∧
      if decide (h_ParentHash header = prevHash) then ci_storedSections c' = ci_storedSections c
      else ∃ x k, common db prev header x ∧ h_Number x = Some k ∧ ci_storedSections c' = Z.min (ci_storedSections c) (k / ci_sectionSize c)
  | Panic => h_ParentHash header ≠ prevHash ∧ FindCommonAncestor fuel db prev header = Ok None
  | Err _ => False
  end.
Proof.
  intros Hdb Hh Hp Hf Ht. unfold eventLoop_event. rewrite (number_ok header hn Hh). cbn [obind].
  pose proof Hh as (_ & Hn & hash & Ehash).
  assert (∀ (c1 : ChainIndexer B) l1, tree_ok canonical (Indexer c1 l1) → ∃ (c2 : ChainIndexer B) l2,
    (let* t := newHead hn false (Indexer c1 l1) in let* hash := hash_or_panic header in Ok (t, header, hash)) = Ok (Indexer c2 l2, header, hash) ∧
    tree_ok canonical (Indexer c2 l2) ∧ ci_storedSections c2 = ci_storedSections c1 ∧
    ∀ s, 0 ≤ s < ci_storedSections c2 → sectionHead (ci_indexDb c2) s = sectionHead (ci_indexDb c1) s) as Hlast.
  { intros c1 l1 Ht1. destruct (newHead_total canonical hn false _ Ht1) as [t2 E2]. inversion Ht1 as [? ? Hok1 _]; subst.
    destruct (newHead_stored canonical hn false c1 l1 t2 Hok1 ltac:(lia) E2) as (c2 & l2 & -> & _ & S2 & H2).
    exists c2, l2. rewrite E2. cbn [obind]. unfold hash_or_panic. rewrite Ehash. split_and!; try done. by eapply newHead_ok. }
  destruct (decide (h_ParentHash header = prevHash)) as [Hpar|Hpar].
  { cbn [obind]. destruct (Hlast c children Ht) as (c2 & l2 & -> & T2 & S2 & H2). done. }
  destruct (FindCommonAncestor_ok db Hdb prev pn header hn Hp Hh) as (r & Hr & Hx). rewrite (Hr fuel Hf). cbn [obind].
  destruct r as [x|]; [|done]. destruct (Hx x eq_refl) as [Hcom (k & Hk)]. rewrite (number_ok x k Hk). cbn [obind]. pose proof Hk as (Nk & Rk & _).
  destruct (newHead_total canonical k true _ Ht) as [t1 E1]. inversion Ht as [? ? Hok _]; subst.
  destruct (newHead_stored canonical k true c children t1 Hok ltac:(lia) E1) as (c1 & l1 & -> & Z1 & S1 & H1). rewrite E1. cbn [obind].
  destruct (Hlast c1 l1) as (c2 & l2 & -> & T2 & S2 & H2); [by eapply newHead_ok|]. split_and!; try done.
  - intros s Hs. rewrite H2 by done. apply H1. lia.
  - exists x, k. split_and!; try done. lia.
Qed.

(** ** Examples *)

(** A hash that is cheap to compute: the last 32 bytes of the input. *)
Definition toy_keccak : Keccak :=
  {| keccak256 x := be_fixed 32 (be_val x); keccak_length x := length_be_fixed _ _; keccak_byte x := be_fixed_byte _ _ |}.

(** A backend that accepts everything. *)
Definition unit_backend : ChainIndexerBackend unit :=
  {| backend_Reset _ b := Ok b; backend_Process _ b := Ok b; backend_Commit b := Ok (true, b) |}.

Lemma unit_backend_total : @BackendTotal unit unit_backend.
Proof. split; intros; by eexists. Qed.

Lemma unit_backend_laws size : @BackendLaws toy_keccak unit unit_backend size (λ _, True) (λ _ _ _, True).
Proof. split; intros; by eexists. Qed.

Definition ex_header (parent : bytes) (number time : Z) : Header :=
  MkHeader parent (replicate 20 0) zero_hash32 zero_hash32 zero_hash32 zero_hash32 zero_hash32 (Some 1) (Some number) (Some time) [].
Definition ex_hash (h : Header) : bytes := match Header_Hash (KC := toy_keccak) h with Ok x => x | _ => [] end.
Definition ex_data (h : Header) : bytes := match EncodeToBytes (header_gval h) with Ok x => x | _ => [] end.

(** A database with these canonical headers. *)
Fixpoint ex_chain (n : Z) (hs : list Header) (db : gmap bytes bytes) : gmap bytes bytes :=
  match hs with
  | [] => db
  | h :: hs => ex_chain (n + 1) hs (<[headerKey (ex_hash h) n := ex_data h]> (<[canonicalKey n := ex_hash h]> db))
  end.

Lemma ex_genesis_only hash data :
  length hash = 32%nat → let db := <[headerKey hash 0 := data]> (<[canonicalKey 0 := hash]> ∅) in
  ∀ n h, GetCanonicalHash db n ≠ zero_hash32 → GetHeader db (GetCanonicalHash db n) n = Some h →
  GetCanonicalHash db n = hash ∧ GetHeader db hash 0 = Some h.
Proof.
  intros Hl db n h. assert (∀ a k, length a = 32%nat → headerKey a 0 ≠ canonicalKey k) as Hlen.
  { intros a k Ha E. apply (f_equal length) in E. unfold headerKey, canonicalKey, encodeBlockNumber in E.
    rewrite !length_app, !length_be_fixed, Ha in E. done. }
  assert (GetCanonicalHash db n = if decide (canonicalKey 0 = canonicalKey n) then hash else zero_hash32) as E.
  { unfold GetCanonicalHash, get_hash, db_get, db. rewrite lookup_insert_ne by (by apply Hlen). destruct (decide _) as [<-|Hne].
    - rewrite lookup_insert_eq. change (default [] (Some hash)) with hash. destruct hash; [done|]. by apply BytesToHash_id.
    - by rewrite lookup_insert_ne, lookup_empty. }
  rewrite E. destruct (decide _) as [Ek|]; [|done]. intros _. assert (headerKey hash n = headerKey hash 0) as Eh.
  { unfold canonicalKey in Ek. apply app_inv_tail in Ek. unfold headerKey. by rewrite Ek. }
  unfold GetHeader. rewrite Eh. done.
Qed.

Definition ex_genesis : Header := ex_header zero_hash32 0 0.
Definition ex_db : gmap bytes bytes := ex_chain 0 [ex_genesis] ∅.

Lemma ex_db_facts :
  length (ex_hash ex_genesis) = 32%nat ∧ Header_Hash (KC := toy_keccak) ex_genesis = Ok (ex_hash ex_genesis) ∧
  GetHeader ex_db (ex_hash ex_genesis) 0 = Some ex_genesis ∧ GetCanonicalHash ex_db 0 = ex_hash ex_genesis ∧
  ex_hash ex_genesis ≠ zero_hash32.
Proof. split_and!; [vm_compute; reflexivity..|]. intros E. apply (f_equal (λ l, bool_decide (l = zero_hash32))) in E. vm_compute in E. discriminate. Qed.

Lemma ex_db_chain : chain_ok (KC := toy_keccak) (λ _ _, True) ex_db.
Proof.
  destruct ex_db_facts as (Hl & Hh & Hg & _). intros n h Hz E.
  destruct (ex_genesis_only (ex_hash ex_genesis) (ex_data ex_genesis) Hl n h Hz E) as [Ec Eg].
  assert (GetHeader ex_db (ex_hash ex_genesis) 0 = Some h) as Eg' by exact Eg. rewrite Hg in Eg'. injection Eg' as <-.
  assert (GetCanonicalHash ex_db n = ex_hash ex_genesis) as -> by exact Ec.
  split; [exact Hh|]. split; [exact Hl|exact I].
Qed.

Lemma indexer_invariant_witness :
  let evs := [([], EvNewHead 5 false); ([], EvUpdate); ([], EvHeader ex_db); ([], EvCommit); ([], EvFinish);
              ([], EvTimer); ([], EvUpdate); ([], EvHeader ex_db); ([], EvFinish); ([], EvNewHead 0 true); ([], EvRestart tt)] in
  ∃ c children, exec (KC := toy_keccak) (BE := unit_backend) evs (NewChainIndexer ∅ tt 1 0) = Ok (Indexer c children) ∧
    Forall (tree_ok (KC := toy_keccak) (λ _ _, True)) children ∧
    loadValidSections (ci_indexDb c) = ci_storedSections c ∧
    (∀ s, ci_storedSections c ≤ s < 2 ^ 64 → sectionHead (ci_indexDb c) s = zero_hash32) ∧
    ∀ s, 0 ≤ s < ci_storedSections c →
      sectionHead (ci_indexDb c) s ≠ zero_hash32 ∧
      section_linked (KC := toy_keccak) (λ _ _, True) (ci_sectionSize c) s (prev_head c s) (sectionHead (ci_indexDb c) s).
Proof.
  intros evs. apply (@indexer_invariant toy_keccak unit unit_backend unit_backend_total (λ _ _, True) evs tt 1 0); [lia|lia|].
  repeat (constructor; [first [exact I|exact ex_db_chain|cbn; lia]|]). constructor.
Defined.

Lemma indexer_catches_up_witness :
  let c := MkCI ∅ tt 1 0 0 1 0 true 0 None in
  ∃ c' children',
    exec (KC := toy_keccak) (BE := unit_backend) (concat (replicate (Z.to_nat (1 - 0)) (section_turn 1 ex_db))) (Indexer c []) = Ok (Indexer c' children') ∧
    tree_ok (KC := toy_keccak) (λ _ _, True) (Indexer c' children') ∧
    ci_storedSections c' = 1 ∧ ∀ s, 0 ≤ s < 1 → sectionHead (ci_indexDb c') s = GetCanonicalHash ex_db ((s + 1) * 1 - 1).
Proof.
  intros c.
  apply (@indexer_catches_up toy_keccak unit unit_backend 1 (λ _, True) (λ _ _ _, True) (unit_backend_laws 1) (λ _ _, True) ex_db 1 c []).
  - exact ex_db_chain.
  - constructor; [|constructor]. split; cbn; (done || lia).
  - destruct ex_db_facts as (Hl & Hh & Hg & Hc & Hz). split; [done|done|done| | |done].
    + intros s Hs. cbn in Hs. lia.
    + split; [|cbn; lia]. intros k Hk. assert (k = 0) as -> by lia. rewrite Hc.
      split; [exact Hz|]. exists ex_genesis. split; [exact Hg|]. split; [exact Hh|]. split; reflexivity.
  - cbn. lia.
Defined.

Definition ex_block1 : Header := ex_header (ex_hash ex_genesis) 1 1.
Definition ex_block1' : Header := ex_header (ex_hash ex_genesis) 1 2.
Definition ex_block2' : Header := ex_header (ex_hash ex_block1') 2 3.
Definition ex_block3' : Header := ex_header (ex_hash ex_block2') 3 4.
Definition ex_db1 : gmap bytes bytes := ex_chain 0 [ex_genesis; ex_block1] ∅.
Definition ex_db2 : gmap bytes bytes := ex_chain 0 [ex_genesis; ex_block1'; ex_block2'; ex_block3'] ex_db1.

(** The stored and known sections and the head of the first section. *)
Definition stored_first {B} (t : outcome unit (indexer B)) : option (Z * Z * bytes) :=
  match t with Ok (Indexer c _) => Some (ci_storedSections c, ci_knownSections c, sectionHead (ci_indexDb c) 0) | _ => None end.

(** A reorganisation inside the section that is being processed, after its headers
    have been read, is not noticed: the check compares the head of the section before it.
    The section is stored with the hash of a block that is no longer canonical, and the next
    section, whose headers do not follow that block, then fails. *)
Theorem stale_section_stored :
  let race := [([], EvNewHead 1 false); ([], EvUpdate); ([], EvHeader ex_db1); ([], EvHeader ex_db1); ([], EvCommit);
               ([], EvNewHead 0 true); ([], EvNewHead 1 false); ([], EvFinish)] in
  let later := ([], EvNewHead 3 false) :: section_turn 2 ex_db2 in
  let t1 := exec (KC := toy_keccak) (BE := unit_backend) race (NewChainIndexer ∅ tt 2 0) in
  let t2 := let* t := t1 in exec (KC := toy_keccak) (BE := unit_backend) later t in
  FindCommonAncestor (KC := toy_keccak) 10 ex_db2 ex_block1 ex_block1' = Ok (Some ex_genesis) ∧
  stored_first t1 = Some (1, 1, ex_hash ex_block1) ∧ stored_first t2 = Some (1, 1, ex_hash ex_block1) ∧
  GetCanonicalHash ex_db2 1 = ex_hash ex_block1' ∧ bool_decide (ex_hash ex_block1 = ex_hash ex_block1') = false.
Proof. split_and!; vm_compute; reflexivity. Qed.
