(* ===== verification/BloomIndexer.v ===== *)
(** * The Bloom filter index: node/bloombits.go

    The backend that builds the index of the filters for the chain indexer, the table of the
    bit vectors in the chain database (GetBloomBits and WriteBloomBits of
    blockchain/database_util.go), and the service that hands the vectors to matchers. *)

From S2P Require Import Prelude Bitutil Compress RlpSpec RlpRaw RlpEncode RlpStream TrieNode Trie Merkletree Types ChainDb ChainIndexer Bloom.
Local Open Scope Z_scope.

Section BloomIndexer.
Context {KC : Keccak}.

(** ** The table of bit vectors *)

Definition bloomBitsPrefix : bytes := ascii_bytes "B".

Definition bloomBitsKey (bit section : Z) (head : bytes) : bytes :=
  (bloomBitsPrefix ++ be_fixed 2 bit ++ be_fixed 8 section) ++ head.

Definition GetBloomBits (db : gmap bytes bytes) (bit section : Z) (head : bytes) : bytes := db_get db (bloomBitsKey bit section head).
Definition WriteBloomBits (bit section : Z) (head bits : bytes) (db : gmap bytes bytes) : gmap bytes bytes :=
  <[bloomBitsKey bit section head := bits]> db.

(** ** The backend *)

Record BloomIndexer := MkBI {
  bi_size : Z;
  bi_db : gmap bytes bytes;
  bi_gen : option Generator;
  bi_section : Z;
  bi_head : bytes
}.

Definition Bloom_empty : bytes := replicate BloomByteLength 0.

Definition BloomIndexer_Reset (section : Z) (b : BloomIndexer) : outcome unit BloomIndexer :=
  match NewGenerator (Z.to_nat (bi_size b)) with
  | Ok gen => Ok (MkBI (bi_size b) (bi_db b) (Some gen) section zero_hash32)
  | _ => Panic
  end.

(** The error of AddBloom is dropped. *)
Definition BloomIndexer_Process (header : Header) (b : BloomIndexer) : outcome unit BloomIndexer :=
  match bi_gen b with
  | None => Panic
  | Some gen =>
      let* n := number_or_panic header in
      let* gen := (match AddBloom gen (Z.to_nat (u64 (n - u64 (bi_section b * bi_size b)))) Bloom_empty with
                   | Ok gen => Ok gen
                   | Err _ => Ok gen
                   | Panic => Panic
                   end) in
      let* head := hash_or_panic header in
      Ok (MkBI (bi_size b) (bi_db b) (Some gen) (bi_section b) head)
  end.

(** The batch is written when every vector was found. *)
Definition write_vectors (gen : Generator) (section : Z) (head : bytes) (db : gmap bytes bytes) : outcome bloom_error (gmap bytes bytes) :=
  oloop (λ i batch,
    let* bits := Bitset gen i in
    match Compress.CompressBytes bits with
    | Ok data => Ok (WriteBloomBits (Z.of_nat i) section head data batch)
    | _ => Panic
    end) (seq 0 BloomBitLength) db.

Definition BloomIndexer_Commit (b : BloomIndexer) : outcome unit (bool * BloomIndexer) :=
  match bi_gen b with
  | None => Panic
  | Some gen =>
      match write_vectors gen (bi_section b) (bi_head b) (bi_db b) with
      | Ok db => Ok (true, MkBI (bi_size b) db (Some gen) (bi_section b) (bi_head b))
      | Err _ => Ok (false, b)
      | Panic => Panic
      end
  end.

#[export] Instance bloom_backend : ChainIndexerBackend BloomIndexer := {|
  backend_Reset := BloomIndexer_Reset;
  backend_Process := BloomIndexer_Process;
  backend_Commit := BloomIndexer_Commit
|}.

(** ** The service *)

(** The vector that a handler delivers for a section of [blocks] blocks. *)
Definition bloom_handler (blocks : Z) (db : gmap bytes bytes) (bit section : Z) : outcome unit bytes :=
  let head := GetCanonicalHash db (u64 (u64 ((section + 1) * blocks) - 1)) in
  match Compress.DecompressBytes (GetBloomBits db bit section head) (Z.to_nat (blocks / 8)) with
  | Ok blob => Ok blob
  | _ => Panic
  end.

(** ** The vectors that are written *)

Lemma bloomBitsKey_inj bit bit' section head :
  0 ≤ bit < 65536 → 0 ≤ bit' < 65536 → bloomBitsKey bit section head = bloomBitsKey bit' section head → bit = bit'.
Proof.
  intros H1 H2 E. unfold bloomBitsKey in E. apply app_inv_tail, app_inv_head, app_inv_tail in E.
  apply (f_equal be_val) in E. rewrite !be_val_fixed in E. change (256 ^ Z.of_nat 2) with 65536 in E. by rewrite !Z.mod_small in E.
Qed.

Lemma write_vectors_from n i gen section head db :
  (i + n ≤ BloomBitLength)%nat → (∀ k, (i ≤ k < i + n)%nat → ∃ v, Bitset gen k = Ok v) →
  ∃ db', oloop (λ i batch,
    let* bits := Bitset gen i in
    match Compress.CompressBytes bits with
    | Ok data => Ok (WriteBloomBits (Z.of_nat i) section head data batch)
    | _ => Panic
    end) (seq i n) db = Ok db' ∧
  (∀ k v, (i ≤ k < i + n)%nat → Bitset gen k = Ok v → Compress.CompressBytes v = Ok (GetBloomBits db' (Z.of_nat k) section head)) ∧
  (∀ key, (∀ k, (i ≤ k < i + n)%nat → key ≠ bloomBitsKey (Z.of_nat k) section head) → db' !! key = db !! key).
Proof.
  revert i db. induction n as [|n IH]; intros i db Hi Hb; cbn [seq oloop].
  - exists db. split; [done|]. split; [intros; lia|done].
  - destruct (Hb i ltac:(lia)) as [v Ev]. rewrite Ev. cbn [obind]. destruct (Compress.Decompress_Compress v) as (data & Ed & _). rewrite Ed. cbn [obind].
    destruct (IH (S i) (WriteBloomBits (Z.of_nat i) section head data db)) as (db' & E & Hin & Hout); [lia|intros k Hk; apply Hb; lia|].
    exists db'. split; [done|]. unfold BloomBitLength, BloomByteLength in Hi. split.
    + intros k w Hk Ew. destruct (decide (k = i)) as [->|]; [|by apply Hin; [lia|]]. rewrite Ev in Ew. injection Ew as <-. rewrite Ed. f_equal.
      unfold GetBloomBits, db_get. rewrite Hout; [unfold WriteBloomBits; by rewrite lookup_insert_eq|].
      intros k Hk' Ek. apply bloomBitsKey_inj in Ek; lia.
    + intros key Hkey. rewrite Hout by (intros k Hk'; apply Hkey; lia). unfold WriteBloomBits. apply lookup_insert_ne. intros E'.
      apply (Hkey i); [lia|done].
Qed.

(** ** The backend serves the indexer *)

Section laws.
Context (size : Z) (size8 : size mod 8 = 0) (size_bits : Z.of_nat BloomBitLength ≤ size).

(** The backend in section [s], after [k] headers. *)
Definition accepting (s k : Z) (b : BloomIndexer) : Prop :=
  bi_size b = size ∧ bi_section b = s ∧ 0 ≤ s ∧ (s + 1) * size < 2 ^ 64 ∧ 0 ≤ k ∧
  ∃ g, bi_gen b = Some g ∧ gen_ok g (replicate (Z.to_nat k) Bloom_empty) ∧ g_sections g = Z.to_nat size.

Lemma Bloom_empty_ok : bloom_ok Bloom_empty.
Proof. split; [apply length_replicate|by apply Forall_replicate]. Qed.

Lemma size_nat_mod : (Z.to_nat size mod 8 = 0)%nat.
Proof. rewrite <-(Nat2Z.id 8), <-Z2Nat.inj_mod by (unfold BloomBitLength, BloomByteLength in *; lia). change (Z.of_nat 8) with 8. by rewrite size8. Qed.

Lemma size_pos : 0 < size.
Proof. unfold BloomBitLength, BloomByteLength in *. lia. Qed.

(** The vectors of a complete section are zero. *)
Lemma full_vectors s b :
  accepting s size b → ∃ g, bi_gen b = Some g ∧
  ∀ i, (i < BloomBitLength)%nat → Bitset g i = Ok (replicate (Z.to_nat (size / 8)) 0).
Proof.
  intros (Hf & Hsec & Hs & Hb & Hk & g & Eg & Hg & Hgs). exists g. split; [done|]. intros i Hi. pose proof size_pos.
  destruct (Bitset_full g (replicate (Z.to_nat size) Bloom_empty) i Hg) as (v & Ev & Vv & Bv); rewrite ?length_replicate in *; [done|lia|lia|].
  rewrite Ev. f_equal. assert (Z.to_nat size / 8 = Z.to_nat (size / 8))%nat as E8 by (rewrite Z2Nat.inj_div by lia; done). rewrite E8 in Vv.
  apply zero_vector; [done|]. intros n Hn. assert (be_val Bloom_empty = 0) as Ez by (by vm_compute).
  rewrite (Bv n Bloom_empty); [by rewrite Ez, Z.bits_0|]. apply lookup_replicate_2. pose proof (Z.div_mod size 8). lia.
Qed.

(** Committing writes these vectors and does not touch the canonical numbers. *)
Lemma Commit_ok s b :
  accepting s size b → ∃ b', BloomIndexer_Commit b = Ok (true, b') ∧ bi_size b' = size ∧
  (∀ k, (k < BloomBitLength)%nat →
    Compress.CompressBytes (replicate (Z.to_nat (size / 8)) 0) = Ok (GetBloomBits (bi_db b') (Z.of_nat k) s (bi_head b))) ∧
  ∀ n, GetCanonicalHash (bi_db b') n = GetCanonicalHash (bi_db b) n.
Proof.
  intros Ha. destruct (full_vectors s b Ha) as (g & Eg & Hv). destruct Ha as (Hf & Hsec & _). unfold BloomIndexer_Commit. rewrite Eg.
  destruct (write_vectors_from BloomBitLength 0 g (bi_section b) (bi_head b) (bi_db b)) as (db' & Ew & Hin & Hout);
    [lia|intros i Hi; eexists; apply Hv; lia|].
  unfold write_vectors. rewrite Ew. eexists. split; [done|]. cbn [bi_size bi_db]. split; [done|]. split.
  - intros k Hk. rewrite <-Hsec. apply Hin; [lia|by apply Hv].
  - intros n. unfold GetCanonicalHash, get_hash, db_get. rewrite Hout; [done|]. intros k _.
    unfold canonicalKey, bloomBitsKey, headerPrefix, bloomBitsPrefix. done.
Qed.

#[local] Instance bloom_backend_laws : BackendLaws BloomIndexer size (λ b, bi_size b = size) accepting.
Proof.
  pose proof size_pos as Hpos. split.
  - intros s b Hf Hs Hb. cbn [backend_Reset bloom_backend]. unfold BloomIndexer_Reset. rewrite Hf.
    destruct (NewGenerator_ok (Z.to_nat size) size_nat_mod) as (g & -> & Hg & Hgs). eexists. split; [done|].
    split_and!; try done. by exists g.
  - intros s k h x b (Hf & Hsec & Hs & Hb & Hk & g & Eg & Hg & Hgs) Hlt Hn Hh. cbn [backend_Process bloom_backend]. unfold BloomIndexer_Process.
    rewrite Eg. unfold number_or_panic, big_Uint64. rewrite Hn, Hf, Hsec. cbn [obind].
    rewrite Z.abs_eq, !(wrap_small 64) by (rewrite ?(wrap_small 64); nia). replace (s * size + k - s * size) with k by lia.
    destruct (AddBloom_ok g (replicate (Z.to_nat k) Bloom_empty) Bloom_empty Hg Bloom_empty_ok) as (g' & E & Hg' & Hgs').
    { rewrite length_replicate, Hgs. lia. }
    rewrite length_replicate in E. rewrite E. cbn [obind]. unfold hash_or_panic. rewrite Hh. cbn [obind]. eexists. split; [done|].
    split_and!; try done; [cbn; lia|]. exists g'. split; [done|]. split; [|by rewrite Hgs'].
    replace (Z.to_nat (k + 1)) with (Z.to_nat k + 1)%nat by lia. by rewrite replicate_add.
  - intros s b Ha. destruct (Commit_ok s b Ha) as (b' & E & Hsz & _). by exists b'.
Qed.

(** A whole section of headers. *)
Definition process_all (hs : list Header) (b : BloomIndexer) : outcome unit BloomIndexer := oloop BloomIndexer_Process hs b.

Lemma process_all_ok s hs k b :
  accepting s k b → k + Z.of_nat (length hs) = size →
  (∀ i h, hs !! i = Some h → h_Number h = Some (s * size + k + Z.of_nat i) ∧ ∃ x, Header_Hash h = Ok x) →
  ∃ b', process_all hs b = Ok b' ∧ accepting s size b' ∧ bi_db b' = bi_db b.
Proof.
  revert k b. induction hs as [|h hs IH]; intros k b Ha Hk Hh; cbn [length] in Hk.
  - exists b. by replace size with k by lia.
  - destruct (Hh 0%nat h eq_refl) as (Hn & x & Hx). rewrite Z.add_0_r in Hn.
    destruct (law_Process s k h x b Ha ltac:(destruct Ha as (_ & _ & _ & _ & ? & _); lia) Hn Hx) as (b1 & E1 & A1).
    destruct (IH (k + 1) b1 A1) as (b2 & E2 & A2 & D2); [lia| |].
    { intros i h' Hi. destruct (Hh (S i) h' Hi) as [Hn' Hx']. split; [|done]. rewrite Hn'. f_equal. lia. }
    exists b2. unfold process_all. cbn [oloop]. change (BloomIndexer_Process h b) with (backend_Process h b). rewrite E1. cbn [obind].
    split; [done|]. split; [done|]. rewrite D2. cbn [backend_Process bloom_backend] in E1. unfold BloomIndexer_Process in E1.
    repeat (case_match; try done). destruct (number_or_panic h); try done. cbn [obind] in E1.
    destruct (AddBloom _ _ _); try done; cbn [obind] in E1; (destruct (hash_or_panic h); try done; cbn [obind] in E1; by injection E1 as <-).
Qed.
End laws.

(** ** Properties *)

(** The index does not see the filters: Process adds an empty filter for every header.
    Whatever the headers of a section, what is written for it and delivered by the service is
    zero for every bit, and a session of the matcher with a rule finds no block. *)
Theorem bloom_index_finds_nothing size s hs b wordSize su filters begin end_ :
  size mod 8 = 0 → Z.of_nat BloomBitLength ≤ size → bi_size b = size → 0 ≤ s → (s + 1) * size < 2 ^ 64 →
  Z.of_nat (length hs) = size →
  (∀ i h, hs !! i = Some h → h_Number h = Some (s * size + Z.of_nat i) ∧ ∃ x, Header_Hash h = Ok x) →
  (∃ b1 b2 b3, BloomIndexer_Reset s b = Ok b1 ∧ process_all hs b1 = Ok b2 ∧ BloomIndexer_Commit b2 = Ok (true, b3) ∧
    (GetCanonicalHash (bi_db b) ((s + 1) * size - 1) = bi_head b2 → ∀ bit, (bit < BloomBitLength)%nat →
      bloom_handler size (bi_db b3) (Z.of_nat bit) s = Ok (replicate (Z.to_nat (size / 8)) 0))) ∧
  ((0 < wordSize)%nat → begin mod 8 = 0 → 0 ≤ begin → end_ + size < 2 ^ 64 → NewMatcher filters ≠ [] →
    Matcher_results wordSize su (Z.to_nat size) (λ _ _, replicate (Z.to_nat (size / 8)) 0) (NewMatcher filters) begin end_ = Ok []).
Proof.
  intros H8 Hbits Hf Hs Hb Hl Hh. pose proof (size_pos size Hbits) as Hpos. split.
  - destruct (law_Reset (BackendLaws := bloom_backend_laws size H8 Hbits) s b Hf Hs Hb) as (b1 & E1 & A1).
    destruct (process_all_ok size H8 Hbits s hs 0 b1 A1) as (b2 & E2 & A2 & D2); [lia|by rewrite Z.add_0_r|].
    destruct (Commit_ok size H8 Hbits s b2 A2) as (b3 & E3 & _ & Hv & Hc). exists b1, b2, b3. split; [done|]. split; [done|]. split; [done|].
    assert (bi_db b1 = bi_db b) as D1. { cbn in E1. unfold BloomIndexer_Reset in E1. destruct (NewGenerator _); by simplify_eq. }
    intros Hhead bit Hbit. unfold bloom_handler. rewrite !(wrap_small 64) by (rewrite ?(wrap_small 64); nia).
    rewrite Hc, D2, D1, Hhead. destruct (Compress.Decompress_Compress (replicate (Z.to_nat (size / 8)) 0)) as (c & Ec & _ & Ed).
    rewrite (Hv bit Hbit) in Ec. injection Ec as ->. rewrite length_replicate in Ed. by rewrite Ed.
  - intros Hw Ha Hb0 He Hne. pose proof (Z.div_mod size 8). assert (Z.to_nat size = 8 * Z.to_nat (size / 8))%nat as -> by lia.
    set (m := Z.to_nat (size / 8)). assert (be_val Bloom_empty = 0) as Ez by (by vm_compute).
    rewrite (Matcher_results_ok wordSize su m _ (λ _, Bloom_empty)); [|done|lia| |done|done|lia].
    + f_equal. apply filter_seqZ_none. intros n _. rewrite <-NewMatcher_matches, Ez.
      destruct (NewMatcher filters) as [|rule rules]; [done|]. clear Hne. cbn [forallb]. apply andb_false_intro1.
      induction rule as [|[[i j] k] rule IH]; [done|]. cbn [existsb]. rewrite IH. unfold key_bits. by rewrite !Z.bits_0.
    + intros i sec Hi _. split; [split; [apply length_replicate|by apply Forall_replicate]|]. intros n Hn. rewrite Ez, Z.bits_0.
      apply vbit_zero. pose proof (nat_div8 n). lia.
Qed.

(** The chain indexer with this backend stores every known section of a complete chain, when
    the size of the sections is a multiple of 8 and not below the number of bits. *)
Theorem bloom_indexer_catches_up size canonical db n (c : ChainIndexer BloomIndexer) children :
  size mod 8 = 0 → Z.of_nat BloomBitLength ≤ size →
  chain_ok canonical db → tree_ok canonical (Indexer c children) → waiting size (λ b, bi_size b = size) db n c →
  ci_storedSections c ≤ ci_knownSections c →
  ∃ c' children',
    exec (concat (replicate (Z.to_nat (ci_knownSections c - ci_storedSections c)) (section_turn size db))) (Indexer c children) =
      Ok (Indexer c' children') ∧
    ci_storedSections c' = ci_knownSections c ∧ heads_canonical size db c'.
Proof.
  intros H8 Hbits Hdb Ht Hw Hle. pose proof (bloom_backend_laws size H8 Hbits) as laws.
  destruct (turns_ok size _ (accepting size) canonical db (Z.to_nat (ci_knownSections c - ci_storedSections c)) n c children Hdb Ht Hw) as (c' & l & E & T & W & S & K); [lia|].
  exists c', l. split; [done|]. split; [lia|]. apply (w_heads _ _ _ _ _ W).
Qed.
End BloomIndexer.
